(* ===== verification/_CoqProject ===== *)
-Q . S2P
Prelude.v
Machine.v
PatchParser.v
PatchSpec.v
PatchGrammar.v
SeekSequence.v
TextFile.v
FileUpdate.v
FileUpdateSpec.v
ApplyPatch.v
Delta.v
ApplySpec.v
ApplyMemory.v
TurnDiffTracker.v
TrackerSpec.v
TurnSpec.v
ExecRule.v
ExecPolicy.v
ExecPolicySpec.v
ExecParser.v
ExecParserSpec.v
ExecAmend.v
StreamInline.v
StreamPlan.v
StreamPlanSpec.v
StreamUtf8.v
HeadTailBuffer.v
Truncate.v
Protocol.v
OutputTruncation.v
Normalize.v
NormalizeSpec.v
Readiness.v
ReadinessSpec.v
PasteBurst.v
ScrollState.v
CommandSafety.v
CommandSafetySpec.v
ShellDetect.v
Permissions.v
ExecApproval.v
ExecApprovalSpec.v
ReverseScanner.v
TableDetect.v
TableHoldback.v
StreamRender.v
StreamCore.v
StreamCoreSpec.v
StreamPacing.v
StreamPacingSpec.v
Bash.v
AbsolutePath.v
IpAddr.v
NetPolicy.v
NetConfig.v
MitmHook.v
NetState.v
NetRuntime.v
NetRuntimeSpec.v
NetEnv.v
PathUri.v
PathUriSpec.v
UrlModel.v
Access.v
PolicyTransforms.v
AccessUri.v
RemoteProtocol.v
Segments.v
SegmentsSpec.v
RemoteTracker.v
RemoteSession.v
OutboundSpec.v
ConnectionSpec.v
DeliverySpec.v
RemoteModel.v
AgentRegistry.v
AgentSpawn.v
AgentResidency.v
PendingReplay.v
