(* ===== verification/Prelude.v ===== *)
(** * Sofia: a verification of the core of a coding agent

    Sofia is a coding agent: a model proposes shell commands and patches, and the
    Rust workspace under [sofia-rs/] decides whether the commands may run, applies
    the patches to a file system, tracks what a turn changed, bounds the output of
    tools, keeps the history of the conversation in order, and streams the
    assistant's text to the user.  This library models the parts of the workspace
    that carry this logic, operation by operation, and proves them correct.

    ** The parts and how they interact

    - Patches.  The model writes a patch as text.  [apply-patch/src/parser.rs] and
      [streaming_parser.rs] turn it into hunks, also while the text is still
      arriving; [seek_sequence.rs], [text_file.rs] and [file_update.rs] compute the
      new contents of an updated file; [lib.rs] applies the hunks in order to a
      file system and returns an [AppliedPatchDelta], the log of committed changes
      with a flag that says whether the log is exact.
    - Turn diff.  [core/src/turn_diff_tracker.rs] consumes the deltas of a turn and
      keeps, per path, the contents before and after, from which it renders the
      diff shown to the user; [core/src/tools/events.rs] decides which update the
      tracker gets and when an event is sent.
    - Execution policy.  [execpolicy/src/] parses policy files (Starlark programs
      that call [prefix_rule], [network_rule], [host_executable]), evaluates
      commands against the rules, merges overlays and amends policy files.
    - Approval.  [core/src/exec_policy.rs] evaluates a command line, or what a shell
      would run, against the policy; commands no rule matches are judged by the
      classifier of [shell-command/src/command_safety/], the approval policy and the
      sandbox of the turn ([protocol/src/permissions.rs]).  The result is to run, to
      ask, possibly with an amendment of the policy as a proposal, or to refuse;
      [core/src/tools/sandboxing.rs] derives whether the first attempt is sandboxed.
    - Output and history.  [core/src/unified_exec/head_tail_buffer.rs] caps the output
      of a process, [utils/string] and [utils/output-truncation] cut texts and tool
      outputs to a budget; [core/src/context_manager/normalize.rs] makes a history
      valid for a prompt.
    - Waiting and typing.  [utils/readiness] is a flag with tokens that tasks wait
      for; [tui/src/bottom_pane/paste_burst.rs] tells pasted from typed text, and
      [scroll_state.rs] keeps a selection in view.
    - Streamed text.  [utils/stream-parser/src/] hides citation tags and extracts
      plan blocks from assistant text that arrives in arbitrary chunks, of
      characters or of bytes.  [tui/src/streaming/] collects complete lines, holds
      back a table that may still grow ([table_detect.rs], [table_holdback.rs]),
      renders incrementally, queues lines and emits them at a pace
      ([chunking.rs], [commit_tick.rs]).
    - Rollouts.  [rollout/src/reverse_jsonl_scanner.rs] reads a log of records
      backwards, in chunks.
    - Network.  [network-proxy/src/] lets commands reach the network through a proxy:
      [policy.rs] normalizes hosts and compiles domain patterns, [config.rs] holds the
      settings, [state.rs] checks them against managed constraints, [runtime.rs] keeps
      the shared state that reloads, updates and requests use, [network_policy.rs]
      decides about a request and may ask a decider, [mitm_hook.rs] chooses the hook
      that injects credentials, [environment_policy.rs] adds restrictions of the owner
      of an environment.
    - Paths and access.  [utils/path-uri/src/] represents paths of any host as validated
      [file:] URLs; [protocol/src/permissions.rs] resolves against them which access a file
      system policy gives to a path, which metadata stays protected and which reads are
      denied.  [sandboxing/src/policy_transforms.rs] merges and intersects the additional
      permissions a command asks for, and applies them to the policies in force.
    - Remote control.  [app-server-transport/src/transport/remote_control/] lets remote
      clients drive the agent through a relay: a websocket session splits large messages
      into segments and keeps what is not acknowledged, to send it again after a
      reconnection; the reader reassembles segments; the tracker opens and closes the
      connections of the clients, by client and stream.
    - Agents.  [core/src/agent/registry.rs] reserves slots, paths and nicknames for the
      agents a session spawns, [residency.rs] which of them stay loaded and
      [execution.rs] which may run, all shared by concurrent tasks;
      [protocol/src/agent_path.rs] names the agents.
    - Prompts of other threads.  [tui/src/app/pending_interactive_replay.rs] keeps which
      requests for a user's answer are still open, so that [thread_events.rs] shows
      them again, and only them, when the user switches back to a thread.

    ** Files

    - [Prelude.v]: Rust strings as lists of code points with the operations of the
      standard library the code uses ([trim], [lines], [split], [strip_prefix],
      [find], ...), a result monad, sorting, and the lemmas and tactics shared by
      all files.
    - [Machine.v]: integers that may reach the ends of their range, saturating.
    - [PatchParser.v] models [parser.rs] and [streaming_parser.rs]; [PatchSpec.v]
      relates the streaming parser to the lines of its text and proves the invariant of
      parsed hunks; [PatchGrammar.v] states the documented grammar with a printer and
      proves the round trip, for a whole patch and for one that arrives in deltas.
    - [SeekSequence.v], [TextFile.v], [FileUpdate.v] model the modules of the same
      names (the first two with their theorems); [FileUpdateSpec.v] proves that an
      update is a splice of disjoint replacements and cannot panic.
    - [ApplyPatch.v] models [apply-patch/src/lib.rs] over the interfaces
      [ExecutorFileSystem] (the trait of [file-system/src/lib.rs]), [PathUriOps]
      and [IoWrite], in a state and error monad whose state is the file system and
      the delta.  [Delta.v] gives deltas their meaning (replay and undo on views of
      a file system), the contract between application and tracker.
      [ApplySpec.v] proves the application against [FileSystemLaws];
      [ApplyMemory.v] is a concrete file system that satisfies the laws and on
      which the witnesses run.
    - [TurnDiffTracker.v] models [turn_diff_tracker.rs] and the tracker part of
      [events.rs]; [TrackerSpec.v] proves the tracker alone, [TurnSpec.v] the
      tracker behind the patch application.
    - [ExecRule.v], [ExecPolicy.v], [ExecParser.v], [ExecAmend.v] model
      [decision.rs], [error.rs], [executable_name.rs], [rule.rs], then [policy.rs],
      [parser.rs] and [amend.rs]; [ExecPolicySpec.v], [ExecParserSpec.v] and
      [ExecAmend.v] hold their theorems.
    - [StreamInline.v] models [stream_text.rs], [inline_hidden_tag.rs] and
      [citation.rs]; [StreamPlan.v] models [tagged_line_parser.rs],
      [proposed_plan.rs] and [assistant_text.rs]; [StreamUtf8.v] models
      [utf8_stream.rs] over any [StreamTextParser].  [StreamInline.v],
      [StreamPlanSpec.v] and [StreamUtf8.v] hold their theorems; the last states
      the laws of the parser interface ([StreamLaws]), proves the byte parser
      against them and the citation and plan parsers to be instances.
    - [HeadTailBuffer.v] and [Truncate.v] model [head_tail_buffer.rs] and
      [utils/string/src/]; [Truncate.v] has the theorems of the latter.
      [OutputTruncation.v] models [utils/output-truncation] on the response items of
      [Protocol.v] ([protocol/src/models.rs] and neighbours).
    - [Normalize.v] models [normalize.rs] and the operations of [history.rs] that call
      it; [NormalizeSpec.v] proves them against a one-pass reference.
    - [Readiness.v] models [utils/readiness] as atomic steps of tasks over the interface
      [WatchOps] of a tokio channel; [ReadinessSpec.v] reasons about all interleavings,
      under [WatchLaws], with a channel that satisfies them.
    - [PasteBurst.v] and [ScrollState.v] model the modules of the same names, with
      their theorems.
    - [CommandSafety.v] models [is_dangerous_command.rs] and
      [windows_dangerous_commands.rs], [CommandSafetySpec.v] relates it to the commands
      that are really run.  [ShellDetect.v] models Unix paths, [shell_detect.rs] and the
      script extraction of [powershell.rs].
    - [Permissions.v] models approval policies, permission profiles and file system
      policies of [protocol/src/].  [ExecApproval.v] models [core/src/exec_policy.rs],
      its modules [model_policy.rs] and [executable_identity.rs], and the decisions of
      [tools/sandboxing.rs], on top of [ExecPolicy.v], [ExecAmend.v] and
      [CommandSafety.v]; [ExecApprovalSpec.v] holds the theorems.
    - [ReverseScanner.v] models [reverse_jsonl_scanner.rs] over an interface of [Read]
      and [Seek], with its theorem.
    - [TableDetect.v] and [TableHoldback.v] model the modules of the same names, the
      latter with its theorem; [StreamRender.v] models [code_fence.rs] and [render.rs],
      [StreamCore.v] [markdown_stream.rs], [streaming/mod.rs] and [controller.rs],
      [StreamPacing.v] [chunking.rs] and [commit_tick.rs], over an interface of the
      markdown renderer; [StreamRender.v], [StreamCoreSpec.v] and
      [StreamPacingSpec.v] hold the theorems.
    - [Bash.v] models [shell-command/src/bash.rs] over trees of the bash grammar, and
      holds its theorems.
    - [AbsolutePath.v] models [utils/absolute-path] on Unix; [IpAddr.v] the addresses of
      [std::net] and their classification in [policy.rs]; [NetPolicy.v] the rest of
      [policy.rs]; [NetConfig.v] [config.rs]; [MitmHook.v] [mitm_hook.rs] and
      [authorization_path.rs], each with its theorems.  [NetState.v] models [state.rs],
      [NetRuntime.v] the operations of [runtime.rs] and [network_policy.rs], split where
      the lock is given up; [NetRuntimeSpec.v] composes them into interleavings and holds
      the theorems.  [NetEnv.v] models [environment_policy.rs] and [remote_config.rs].
    - [PathUri.v] models [utils/path-uri] over the interfaces [UrlOps] and [UriCodecs] of
      the crates for URLs and their encodings; [PathUriSpec.v] states their laws
      ([UrlLaws]) and proves the theorems; [UrlModel.v] is an implementation that satisfies
      the laws.  [Access.v] models the resolution of accesses, over [PathUriView] and
      [PathUriTree], and proves it against [PathUriLaws]; [AccessUri.v] shows that path
      URIs satisfy [PathUriLaws] and holds the witnesses and examples of both.
      [PolicyTransforms.v] models [policy_transforms.rs] and the permission profiles of
      [protocol/src/models.rs] it works on, with its theorems; their witnesses are in
      [AccessUri.v].
    - [RemoteProtocol.v] models the messages of [protocol.rs]; [Segments.v] models
      [segment.rs] over an interface of the JSON encoding, and [SegmentsSpec.v] its
      theorems; [RemoteTracker.v] models [client_tracker.rs] and [RemoteSession.v] the
      session state of [websocket.rs].  [OutboundSpec.v] proves the outbound buffer,
      [ConnectionSpec.v] the connections of the tracker, and [DeliverySpec.v] the path of
      a message from the relay through reassembly to a connection.  [RemoteModel.v] is a
      concrete encoding, with the witnesses.
    - [AgentRegistry.v] models [agent_path.rs], [registry.rs] and the metadata of a new
      agent ([prepare_agent_metadata]); [AgentSpawn.v] splits their operations into the
      atomic steps of concurrent tasks and proves the invariants of all interleavings.
      [AgentResidency.v] models [residency.rs] and [execution.rs] over an interface of
      the thread manager, with its theorems.
    - [PendingReplay.v] models [pending_interactive_replay.rs], [thread_event_buffer.rs]
      and the parts of [thread_events.rs] that use them, with the refinement theorem.

    ** What the theorems show

    - Parser: every printed document of the grammar parses back to its meaning, bare or
      in a heredoc; when it arrives in deltas, the parser has at any time read the complete
      lines, and what it reports is never taken back; parsed hunks are well formed; the one
      place where the parser is stricter than the documented grammar.
    - File update: line search finds the strictest and then first match; a file is
      split into lines and printed back unchanged; a successful update is the
      splice of its replacements; no parsed patch can panic.
    - Application: success refines the pure meaning of the hunks; an exact delta
      replays and undoes, also after a failure half-way; what a move of a file onto
      itself does.
    - Turn diff: the tracker holds the net change of the turn, end to end from the
      patch texts; the sections of its diff are renderings of the current contents, and
      stay the same text while the contents do, although a rendering depends on how far
      the diff got before its deadline; events are faithful; an inexact delta suppresses
      the diff.
    - Policy: a command is decided by its strictest matching rule, and by the
      heuristics exactly when none matches; overlays and added rules only tighten
      matched commands; validated examples hold; compiled domains follow the last
      rule per host; amendments are idempotent and are read back as the same rule,
      up to a drift of unusual host names.
    - Streams: visible text, citations and plan segments are those of the whole
      text, read in one go, for every cut into chunks; bytes are accepted exactly
      when they encode a text.
    - Classifier: it reports nothing exactly when nothing that is run, through any
      nesting of wrappers, is dangerous.  Shell detection terminates.
    - Approval: exactly which commands run, are asked for, or are refused; bypassing
      the sandbox needs rules for every command; an unfamiliar executable is judged by
      itself; ignoring allow rules only tightens; an accepted amendment has its effect,
      unless the session already allows the command and the environment's policy asks.
    - Output: the capped buffer is the summary of the whole output, however it arrives;
      truncation keeps the ends of a text within its budget, never cuts a character,
      and accounts for everything it leaves out.
    - History: a normalized history has an output for every call and a call for every
      output, in order, and no media the model cannot read; dropping the oldest item
      keeps it so.
    - Readiness: in all interleavings the flag is monotone and tokens are distinct; a
      connected waiter is released; the one interleaving in which a waiter is not.
    - Paste burst: nothing typed is lost, duplicated or reordered, and all of it appears
      after the idle timeout.  Scroll state: selection and view stay in range.
    - Streaming: no slice panics for any sequence of events; raw lines are emitted once
      and in order; the incremental table scanner agrees with the stateless one; ticks
      show everything that is queued; the pacing does not flap.
    - Rollouts: a reverse scan returns the records in reverse, whatever the chunks.
    - Scripts: the commands of an accepted script are those of the tree in source order,
      with literal words only.
    - Network: settings that are accepted are within their managed constraints (as for
      the hosts matched, when domains are plain patterns, and an example where they are
      not), and no interleaving leaves them; the sets that decide are compiled from the current lists;
      private addresses need an exact entry, and no decider can override this; listeners
      stay on loopback; the domains allowed under an owner's policy are the owner's, less
      what the controller denies, and every other setting needs both; masks are ranges; the strictest
      entry of a pattern counts; a path is authorized only if it cannot be read
      differently; valid hooks compile, with their secrets in the headers, or a secret is
      missing or unusable.
    - Paths: construction accepts exactly the bare [file:] URLs without null bytes (or
      opaque) and gives valid URIs, equality agrees with hashing, containment is a
      prefix of decoded segments, the chain of ancestors ends at the root, joins do not
      panic and relative ones stay below the root, except for a join to a POSIX path that
      gives a Windows drive, a relative path joined to its base gives
      the path back, and opaque paths are rendered as they were.
    - Access: a policy that counts as full write access gives it to every path below the
      root when the roots of its entries can be compared, and denies every path otherwise;
      denied reads survive the replacement of the allowed side of a policy, except by an
      external sandbox; examples of equal URIs
      with different containment, of [..] after an empty segment, of a share that passes for
      the root and of metadata whose protection depends on the order of entries.
    - Additional permissions: the intersection of a request with a grant allows to read
      only what both allow, enables the network only when both do, and, when the request
      denies no patterns, allows to write only what the grant allows; examples of writes it
      allows beyond the request, and of access beyond the grant.
    - Remote control: the connections stay well formed, also when the reader is aborted at
      a send or a lock, up to an initialize request lost in the abort; the chunks of a
      message deliver it once; the outbound buffer holds exactly the messages that are
      not acknowledged, with the sizes that are accounted; splitting always returns, and
      its segments carry the message; what is observed of one client does not depend on
      the others; the memory for segments of incomplete messages stays within its limits.
    - Agents: in all interleavings the number of spawned agents stays within the limit and
      every slot and path is released or owned, but for the slots of agents whose thread is
      committed again; nicknames are distinct; a
      reference to an agent resolves to a valid path; a residency slot is reserved by
      unloading the least recently used idle agent, when there is one; examples of
      interleavings in which a limit is exceeded, or a free slot refused.
    - Replay: a prompt is shown again exactly if it was asked and neither answered,
      resolved nor ended with its turn since.

    ** Conventions, bounds and fuel

    - A [char] is a code point in [N] and a [String] a list of them; byte lengths
      are computed ([str_len]) where the code compares lengths of different
      strings, and offsets into one buffer are counted in characters, since the
      code only slices at character boundaries.
    - Line numbers, indices and lengths of [Vec]s are [nat]: they are bounded by
      the size of a text in memory.  The [u64] revision of the turn diff tracker
      wraps around at [2^64]; the theorems about its cache ask for fewer than
      [2^64 / 3] changes in a turn, since a change uses at most three revisions.
    - Sizes that the code adds with saturation are [N] with the saturation written out
      ([usize], [u16]); the token counter of the readiness flag is an [i32] in [Z] with
      its wrap-around; sums the code checks return [None] on overflow.
    - Fuel is used in few loops.  [push_loop] (of [InlineHiddenTagParser::push_str])
      gets one more than the number of pending characters, enough because each round
      that continues removes a delimiter ([push_loop_fuel]).  [token_loop] (of
      [ReadinessFlag::subscribe]) gets two more than the number of tokens, enough by
      [subscribe_token_loop_terminates].  [detect_loop] (the recursion of
      [detect_shell_type]) gets one more than the length of the path, enough by
      [detect_shell_type_terminates].  [scan_loop] (of the reverse scanner) gets one more
      than the unread bytes, [strip_quote_loop] one more than the length of a line, and
      [walk_loop] and [literal_loop] the size of the tree; the theorems about them show
      that the fuel is not used up.  [ancestors_from] gets one more than the segments of the
      path ([ancestors_end_at_root]), [utf8_lossy] the number of bytes.  [segment_loop] (the search
      for a segment size) gets one more than the size of the message, [shutdown_loop] the
      number of clients, the eviction of assemblies their number, [pop_loop] and
      [unload_loop] the number of residents and [reserve_loop] one more; each round removes
      one of them, or reserves.  The depth of [match_levels] is the limit of the code.  All other loops are structural recursions.
    - Panics ([Vec::insert] out of range, slices, [expect]) are [None] or the
      [Panic] failure; errors are values of [result] with the code's constructors.
    - Code outside the sources is a parameter: the unified diff ([similar], a function of the two texts and of the number of the
      rendering, since its deadline makes two renderings of the same texts differ), blob
      ids ([sha1]), the order of hash maps, Starlark evaluation, [shlex], JSON strings,
      URLs and regular expressions, the tree-sitter grammars ([ShellCrates], the parser of
      [Bash.v]), globs and headers ([NetCrates], [HookCrates]), name resolution, the
      markdown renderer, UUIDs, the tokio channel, and the crates [url], [urlencoding],
      [base64] and [globset], JSON encodings of messages, random draws and the thread
      manager.  The laws assumed of an interface are classes with an instance.

    ** What is not modelled

    Of the modelled crates: unified diffs for display in [file_update.rs],
    [invocation.rs] (extraction of patches from shell scripts by tree-sitter) and
    the executable of [apply-patch]; the sandbox migration and the command line
    tool of [execpolicy]; the loading of policy files and the approval cache in
    [core]; the summaries of commands and the PowerShell trees of [shell-command];
    token accounting of the history; rendering of markdown; the servers, the
    certificates, the credential broker and the logging of [network-proxy], whose
    errors are constructors without their texts.  Executables are compared as in a Unix
    build.  In [permissions.rs], the adapters for native paths of this host, which read the
    environment and follow symbolic links, and the conversion from and to legacy policies;
    in [path-uri], the conversion of a URI to a path of this host.  The patch application
    and the approval use interfaces of paths ([PathUriOps], [AbsPathOps]).  Of the remote
    control, the enrollment, the tasks of the websocket and their timers; of the agents,
    the conversation of the threads.

    Of the rest of the workspace, the following has logic of its own that is not modelled:
    the merging of configuration layers ([config/src/merge.rs]) and the network settings
    of [core/src/config/network_proxy_spec.rs], automatic compaction
    ([core/src/state/auto_compact_window.rs]), [core/src/safety.rs], fuzzy matching and
    templates of [utils].  What remains (the user interface, servers, sessions, model
    clients, sandboxes, storage, telemetry) is input and output, glue between libraries
    and data types of protocols. *)

From stdpp Require Import base list gmap numbers strings.
From Stdlib Require Import DecimalString.

#[global] Set Default Proof Using "Type".

(** ** Rust strings

    A Rust [String] or [&str] is a sequence of Unicode scalar values; it is
    modelled as the list of its code points. *)
Abbreviation rstring := (list N).

(** ASCII literals of the source. *)
Definition str (s : string) : rstring :=
  map Ascii.N_of_ascii (String.list_ascii_of_string s).
Arguments str s%_string_scope : simpl never.

Definition LF : N := 10%N.
Definition CR : N := 13%N.

(** [char::is_whitespace]: the Unicode [White_Space] property. *)
Definition is_whitespace (c : N) : bool :=
  ((9 <=? c) && (c <=? 13) || (c =? 32) || (c =? 0x85) || (c =? 0xA0) ||
   (c =? 0x1680) || ((0x2000 <=? c) && (c <=? 0x200A)) || (c =? 0x2028) ||
   (c =? 0x2029) || (c =? 0x202F) || (c =? 0x205F) || (c =? 0x3000))%N.

(** [char::len_utf8] and [str::len]. *)
Definition char_len (c : N) : N :=
  (if c <? 0x80 then 1 else if c <? 0x800 then 2 else if c <? 0x10000 then 3 else 4)%N.

Fixpoint str_len (s : rstring) : N :=
  match s with
  | [] => 0
  | c :: s' => char_len c + str_len s'
  end%N.

Fixpoint drop_while (P : N → bool) (s : rstring) : rstring :=
  match s with
  | [] => []
  | c :: s' => if P c then drop_while P s' else s
  end.

Definition drop_end_while (P : N → bool) (s : rstring) : rstring :=
  reverse (drop_while P (reverse s)).

(** [str::trim_start], [str::trim_end], [str::trim], [str::trim_end_matches]. *)
Definition trim_start : rstring → rstring := drop_while is_whitespace.
Definition trim_end : rstring → rstring := drop_end_while is_whitespace.
Definition trim (s : rstring) : rstring := trim_end (trim_start s).
Definition trim_end_matches (c : N) : rstring → rstring := drop_end_while (N.eqb c).

(** [str::strip_prefix], [str::starts_with], [str::strip_suffix], [str::ends_with]. *)
Fixpoint strip_prefix (p s : rstring) : option rstring :=
  match p, s with
  | [], _ => Some s
  | a :: p', b :: s' => if N.eqb a b then strip_prefix p' s' else None
  | _ :: _, [] => None
  end.

Definition starts_with (p s : rstring) : bool :=
  match strip_prefix p s with Some _ => true | None => false end.

Definition strip_suffix (p s : rstring) : option rstring :=
  match strip_prefix (reverse p) (reverse s) with
  | Some r => Some (reverse r)
  | None => None
  end.

Definition ends_with (p s : rstring) : bool := starts_with (reverse p) (reverse s).

Definition is_empty {A} (l : list A) : bool :=
  match l with [] => true | _ => false end.

(** String equality, [==] on [str]. *)
Definition str_eqb (s t : rstring) : bool := bool_decide (s = t).

(** [str::split(c)] for a character separator: always at least one piece. *)
Fixpoint split_on (c : N) (s : rstring) : list rstring :=
  match s with
  | [] => [[]]
  | x :: s' =>
      if N.eqb x c then [] :: split_on c s'
      else match split_on c s' with
           | [] => [[x]]
           | p :: ps => (x :: p) :: ps
           end
  end.

(** [[_]::join]. *)
Fixpoint join (sep : rstring) (ps : list rstring) : rstring :=
  match ps with
  | [] => []
  | [p] => p
  | p :: ps' => p ++ sep ++ join sep ps'
  end.

(** One optional ['\r'] before a line feed is part of the terminator. *)
Definition strip_cr (s : rstring) : rstring :=
  match strip_suffix [CR] s with Some r => r | None => s end.

(** [str::lines]: split at ['\n'], an optional ['\r'] before it belongs to the
    terminator, and the piece after the last ['\n'] is a line only when it is
    not empty. *)
Fixpoint lines_of_pieces (ps : list rstring) : list rstring :=
  match ps with
  | [] => []
  | [p] => if is_empty p then [] else [p]
  | p :: ps' => strip_cr p :: lines_of_pieces ps'
  end.

Definition lines (s : rstring) : list rstring := lines_of_pieces (split_on LF s).

(** [str::find] of a substring, as the number of characters before it. *)
Fixpoint find_sub (pat s : rstring) : option nat :=
  if starts_with pat s then Some 0
  else match s with
       | [] => None
       | _ :: s' => match find_sub pat s' with Some i => Some (S i) | None => None end
       end.

Definition contains (pat s : rstring) : bool :=
  match find_sub pat s with Some _ => true | None => false end.

(** [str::split_once(c)] and [str::rsplit_once(c)] for a character. *)
Fixpoint split_once (c : N) (s : rstring) : option (rstring * rstring) :=
  match s with
  | [] => None
  | x :: s' =>
      if N.eqb x c then Some ([], s')
      else match split_once c s' with
           | Some (l, r) => Some (x :: l, r)
           | None => None
           end
  end.

Definition rsplit_once (c : N) (s : rstring) : option (rstring * rstring) :=
  match split_once c (reverse s) with
  | Some (r, l) => Some (reverse l, reverse r)
  | None => None
  end.

(** [char::is_ascii_digit], [char::to_ascii_lowercase]. *)
Definition is_ascii_digit (c : N) : bool := ((48 <=? c) && (c <=? 57))%N.
Definition to_ascii_lowercase_char (c : N) : N :=
  (if (65 <=? c) && (c <=? 90) then c + 32 else c)%N.
Definition to_ascii_lowercase : rstring → rstring := map to_ascii_lowercase_char.

(** Decimal rendering of an unsigned integer ([Display]). *)
Definition dec (n : N) : rstring := str (NilZero.string_of_uint (N.to_uint n)).

(** ** Results: [Result<A, E>] *)
Inductive result (E A : Type) : Type :=
| Ok (a : A)
| Err (e : E).
Arguments Ok {E A} a.
Arguments Err {E A} e.

#[global] Instance result_ret E : MRet (result E) := λ A a, Ok a.
#[global] Instance result_bind E : MBind (result E) := λ A B f m,
  match m with Ok a => f a | Err e => Err e end.
#[global] Instance result_fmap E : FMap (result E) := λ A B f m,
  match m with Ok a => Ok (f a) | Err e => Err e end.

Definition is_ok {E A} (r : result E A) : bool :=
  match r with Ok _ => true | Err _ => false end.
Definition result_ok {E A} (r : result E A) : option A :=
  match r with Ok a => Some a | Err _ => None end.
Definition map_err {E F A} (f : E → F) (r : result E A) : result F A :=
  match r with Ok a => Ok a | Err e => Err (f e) end.
Definition ok_or {E A} (o : option A) (e : E) : result E A :=
  match o with Some a => Ok a | None => Err e end.

(** [iter.map(f).collect::<Result<Vec<_>, _>>()]: stops at the first error. *)
Fixpoint collect {E A B} (f : A → result E B) (l : list A) : result E (list B) :=
  match l with
  | [] => Ok []
  | a :: l' => b ← f a; bs ← collect f l'; Ok (b :: bs)
  end.

(** [Option::is_some_and]. *)
Definition is_some_and {A} (o : option A) (P : A → bool) : bool :=
  match o with Some a => P a | None => false end.

(** [*v.last_mut() = f(v.last())] on a vector. *)
Fixpoint update_last {A} (f : A → A) (l : list A) : list A :=
  match l with
  | [] => []
  | [a] => [f a]
  | a :: l' => a :: update_last f l'
  end.

(** ** Ordering: [Ord for str], stable sorting and [Vec::dedup] *)
Fixpoint str_leb (s t : rstring) : bool :=
  match s, t with
  | [], _ => true
  | _ :: _, [] => false
  | a :: s', b :: t' => if (a <? b)%N then true else if (a =? b)%N then str_leb s' t' else false
  end.

Fixpoint insert_by {A} (leb : A → A → bool) (a : A) (l : list A) : list A :=
  match l with
  | [] => [a]
  | b :: l' => if leb b a then b :: insert_by leb a l' else a :: b :: l'
  end.
Definition sort_by {A} (leb : A → A → bool) (l : list A) : list A :=
  foldl (flip (insert_by leb)) [] l.

Fixpoint dedup {A} `{EqDecision A} (l : list A) : list A :=
  match l with
  | a :: ((b :: _) as l') => if decide (a = b) then dedup l' else a :: dedup l'
  | _ => l
  end.

(** ** Tactics and hint databases of the development *)

Create HintDb rstr.

(** Case split on the first [match] or [if] scrutinee of the goal. *)
Ltac split_match :=
  match goal with
  | |- context [match ?x with _ => _ end] =>
      lazymatch x with
      | context [match _ with _ => _ end] => fail
      | _ => destruct x eqn:?
      end
  end.

(** The same on a hypothesis. *)
Ltac split_match_in H :=
  match type of H with
  | context [match ?x with _ => _ end] =>
      lazymatch x with
      | context [match _ with _ => _ end] => fail
      | _ => destruct x eqn:?
      end
  end.

(** Reflect boolean connectives and decision procedures of the context. *)
Ltac breflect :=
  repeat match goal with
  | H : _ && _ = true |- _ => apply andb_true_iff in H; destruct H
  | H : _ || _ = false |- _ => apply orb_false_iff in H; destruct H
  | H : negb _ = true |- _ => apply negb_true_iff in H
  | H : negb _ = false |- _ => apply negb_false_iff in H
  | H : bool_decide _ = true |- _ => apply bool_decide_eq_true in H
  | H : bool_decide _ = false |- _ => apply bool_decide_eq_false in H
  | H : str_eqb _ _ = true |- _ => apply bool_decide_eq_true in H
  | H : str_eqb _ _ = false |- _ => apply bool_decide_eq_false in H
  | H : N.eqb _ _ = true |- _ => apply N.eqb_eq in H
  | H : N.eqb _ _ = false |- _ => apply N.eqb_neq in H
  end.

(** ** Lists *)
Section lists.
Context {A : Type}.
Implicit Types (a b : A) (l : list A).

Lemma update_last_snoc (f : A → A) l a : update_last f (l ++ [a]) = l ++ [f a].
Proof.
  induction l as [|x l IH]; [done|]. simpl. rewrite IH.
  by destruct l.
Qed.

Lemma update_last_nil (f : A → A) l : update_last f l = [] ↔ l = [].
Proof. destruct l as [|x [|y l]]; simpl; naive_solver. Qed.

Lemma last_None_nil l : last l = None ↔ l = [].
Proof. split; [apply last_None|by intros ->]. Qed.

Lemma last_Some_snoc l a : last l = Some a ↔ ∃ l', l = l' ++ [a].
Proof. apply last_Some. Qed.

Lemma length_update_last (f : A → A) l : length (update_last f l) = length l.
Proof. induction l as [|x [|y l] IH]; [done..|]. simpl in *. by rewrite IH. Qed.

Lemma insert_by_perm (leb : A → A → bool) a l : insert_by leb a l ≡ₚ a :: l.
Proof.
  induction l as [|b l IH]; [done|]. simpl. destruct (leb b a); [|done].
  rewrite IH. apply Permutation_swap.
Qed.

Lemma sort_by_perm (leb : A → A → bool) l : sort_by leb l ≡ₚ l.
Proof.
  unfold sort_by. rewrite <- (app_nil_r l) at 2. generalize (@nil A).
  induction l as [|a l IH]; intros acc; [done|]. simpl. rewrite IH.
  unfold flip. rewrite insert_by_perm. by rewrite <- Permutation_middle.
Qed.

Lemma elem_of_dedup `{EqDecision A} a l : a ∈ dedup l ↔ a ∈ l.
Proof.
  induction l as [|b [|c l] IH]; [done..|]. cbn [dedup].
  case_decide; [subst|]; rewrite !elem_of_cons in *; rewrite IH; naive_solver.
Qed.

Lemma snoc_nil_cases l : l = [] ∨ ∃ l' a, l = l' ++ [a].
Proof. induction l using rev_ind; eauto. Qed.

Lemma app_snoc_inj l l' a a' : l ++ [a] = l' ++ [a'] → l = l' ∧ a = a'.
Proof. intros H. by apply app_inj_tail in H. Qed.
End lists.

(** ** Strings *)
Lemma str_eqb_refl s : str_eqb s s = true.
Proof. by apply bool_decide_eq_true. Qed.

Lemma strip_prefix_Some p s r : strip_prefix p s = Some r ↔ s = p ++ r.
Proof.
  revert s. induction p as [|a p IH]; intros [|b s]; simpl; try naive_solver.
  destruct (N.eqb_spec a b) as [->|Hne]; naive_solver.
Qed.

Lemma strip_prefix_app p r : strip_prefix p (p ++ r) = Some r.
Proof. by apply strip_prefix_Some. Qed.

Lemma strip_prefix_None p s : strip_prefix p s = None ↔ ∀ r, s ≠ p ++ r.
Proof.
  destruct (strip_prefix p s) eqn:E.
  - apply strip_prefix_Some in E. naive_solver.
  - split; [|done]. intros _ r Hs. apply strip_prefix_Some in Hs. congruence.
Qed.

Lemma starts_with_true p s : starts_with p s = true ↔ ∃ r, s = p ++ r.
Proof.
  unfold starts_with. destruct (strip_prefix p s) eqn:E.
  - apply strip_prefix_Some in E. naive_solver.
  - rewrite strip_prefix_None in E. naive_solver.
Qed.

Lemma starts_with_app p r : starts_with p (p ++ r) = true.
Proof. apply starts_with_true. eauto. Qed.

Lemma strip_suffix_Some p s r : strip_suffix p s = Some r ↔ s = r ++ p.
Proof.
  unfold strip_suffix. destruct (strip_prefix _ _) as [t|] eqn:E.
  - apply strip_prefix_Some in E.
    assert (s = reverse t ++ p) as Hs.
    { rewrite <- (reverse_involutive s), E, reverse_app, reverse_involutive. done. }
    split; [naive_solver|]. rewrite Hs. intros H%app_inv_tail. congruence.
  - rewrite strip_prefix_None in E. split; [done|].
    intros ->. destruct (E (reverse r)). by rewrite reverse_app.
Qed.

Lemma ends_with_true p s : ends_with p s = true ↔ ∃ r, s = r ++ p.
Proof.
  unfold ends_with. rewrite starts_with_true. split; intros [r Hr].
  - exists (reverse r). rewrite <- (reverse_involutive s), Hr, reverse_app, reverse_involutive. done.
  - exists (reverse r). by rewrite Hr, reverse_app.
Qed.

Lemma drop_while_cons_false P c s : P c = false → drop_while P (c :: s) = c :: s.
Proof. simpl. by intros ->. Qed.

Lemma drop_while_idemp P s : drop_while P (drop_while P s) = drop_while P s.
Proof.
  induction s as [|c s IH]; simpl; [done|].
  destruct (P c) eqn:E; simpl; rewrite ?E; done.
Qed.

Lemma drop_while_suffix P s : ∃ t, s = t ++ drop_while P s ∧ Forall (λ c, P c = true) t.
Proof.
  induction s as [|c s (t & IH & Ht)]; simpl; [by exists []|].
  destruct (P c) eqn:E; [|by exists []].
  exists (c :: t). split; [by rewrite <- app_comm_cons, <- IH|by constructor].
Qed.

Lemma drop_while_head P s c t : drop_while P s = c :: t → P c = false.
Proof.
  induction s as [|x s IH]; simpl; [done|].
  destruct (P x) eqn:E; [done|]. by intros [= -> ->].
Qed.

Lemma drop_end_while_snoc_false P s c :
  P c = false → drop_end_while P (s ++ [c]) = s ++ [c].
Proof.
  intros H. unfold drop_end_while.
  rewrite reverse_app. cbn [reverse rev_append app].
  change (reverse [c] ++ reverse s) with (c :: reverse s).
  rewrite drop_while_cons_false by done.
  by rewrite reverse_cons, reverse_involutive.
Qed.

Lemma drop_end_while_last P s c t :
  drop_end_while P s = t ++ [c] → P c = false.
Proof.
  unfold drop_end_while. intros H.
  apply (f_equal reverse) in H. rewrite reverse_involutive, reverse_app in H.
  by apply drop_while_head in H.
Qed.

Lemma drop_end_while_idemp P s :
  drop_end_while P (drop_end_while P s) = drop_end_while P s.
Proof.
  unfold drop_end_while. by rewrite reverse_involutive, drop_while_idemp.
Qed.

Lemma drop_end_while_prefix P s :
  ∃ t, s = drop_end_while P s ++ t ∧ Forall (λ c, P c = true) t.
Proof.
  destruct (drop_while_suffix P (reverse s)) as (t & Ht & HP).
  exists (reverse t). split; [|by apply Forall_reverse].
  apply (f_equal reverse) in Ht.
  by rewrite reverse_involutive, reverse_app in Ht.
Qed.

(** A string is trimmed at an end when it is not empty there or its character
    there is not white space. *)
Definition no_leading_ws (s : rstring) : Prop :=
  match s with [] => True | c :: _ => is_whitespace c = false end.
Definition no_trailing_ws (s : rstring) : Prop :=
  match last s with None => True | Some c => is_whitespace c = false end.

#[global] Instance no_leading_ws_dec s : Decision (no_leading_ws s).
Proof. unfold no_leading_ws. destruct s; apply _. Defined.
#[global] Instance no_trailing_ws_dec s : Decision (no_trailing_ws s).
Proof. unfold no_trailing_ws. destruct (last s); apply _. Defined.

Lemma trim_start_id s : no_leading_ws s → trim_start s = s.
Proof. destruct s; [done|]. apply drop_while_cons_false. Qed.

Lemma trim_end_id s : no_trailing_ws s → trim_end s = s.
Proof.
  destruct (snoc_nil_cases s) as [->|(t & c & ->)]; [done|].
  unfold no_trailing_ws. rewrite last_snoc. apply drop_end_while_snoc_false.
Qed.

Lemma trim_id s : no_leading_ws s → no_trailing_ws s → trim s = s.
Proof. intros. unfold trim. rewrite trim_start_id, trim_end_id; done. Qed.

Lemma no_trailing_ws_trim_end s : no_trailing_ws (trim_end s).
Proof.
  unfold no_trailing_ws. destruct (last _) as [c|] eqn:E; [|done].
  apply last_Some in E as [t E]. by apply drop_end_while_last in E.
Qed.

Lemma no_trailing_ws_app s t : t ≠ [] → no_trailing_ws t → no_trailing_ws (s ++ t).
Proof.
  destruct (snoc_nil_cases t) as [->|(u & c & ->)]; [done|].
  unfold no_trailing_ws. by rewrite app_assoc, !last_snoc.
Qed.

#[export] Hint Resolve no_trailing_ws_app no_trailing_ws_trim_end : rstr.

(** *** Splitting and joining *)
Lemma split_once_Some c s a b : split_once c s = Some (a, b) → s = a ++ c :: b ∧ c ∉ a.
Proof.
  revert a b. induction s as [|x s IH]; intros a b; simpl; [done|].
  destruct (N.eqb_spec x c) as [->|Hne].
  - intros [= <- <-]. split; [done|]. apply not_elem_of_nil.
  - destruct (split_once c s) as [[a' b']|]; simpl; [|done]. intros [= <- <-].
    destruct (IH a' b' eq_refl) as [-> ?]. split; [done|]. apply not_elem_of_cons. auto.
Qed.

Lemma split_on_not_nil c s : split_on c s ≠ [].
Proof.
  destruct s as [|x s]; simpl; [done|].
  destruct (N.eqb x c); [done|]. by destruct (split_on c s).
Qed.

Lemma split_on_none c s : c ∉ s → split_on c s = [s].
Proof.
  induction s as [|x s IH]; intros Hin; simpl; [done|].
  apply not_elem_of_cons in Hin as [Hne Hin].
  destruct (N.eqb_spec x c); [congruence|]. by rewrite IH.
Qed.

Lemma split_on_app c p s : c ∉ p → split_on c (p ++ c :: s) = p :: split_on c s.
Proof.
  induction p as [|x p IH]; intros Hin; simpl.
  - by rewrite N.eqb_refl.
  - apply not_elem_of_cons in Hin as [Hne Hin].
    destruct (N.eqb_spec x c); [congruence|]. by rewrite IH.
Qed.

Lemma split_on_elem c s p : p ∈ split_on c s → c ∉ p.
Proof.
  revert p. induction s as [|x s IH]; intros p; simpl.
  - intros ->%list_elem_of_singleton. apply not_elem_of_nil.
  - destruct (N.eqb_spec x c) as [->|Hne].
    + intros [->|Hp]%elem_of_cons; [apply not_elem_of_nil|eauto].
    + destruct (split_on c s) as [|q qs] eqn:E.
      { by destruct (split_on_not_nil c s). }
      intros [->|Hp]%elem_of_cons.
      * apply not_elem_of_cons. split; [congruence|]. apply IH. by left.
      * apply IH. by right.
Qed.

Lemma join_cons sep p ps : ps ≠ [] → join sep (p :: ps) = p ++ sep ++ join sep ps.
Proof. by destruct ps. Qed.

Lemma join_split_on c s : join [c] (split_on c s) = s.
Proof.
  induction s as [|x s IH]; simpl; [done|].
  destruct (N.eqb_spec x c) as [->|Hne].
  - rewrite join_cons by apply split_on_not_nil. by rewrite IH.
  - destruct (split_on c s) as [|q qs] eqn:E; [by destruct (split_on_not_nil c s)|].
    rewrite <- IH. by destruct qs.
Qed.

Lemma split_on_join c ps :
  ps ≠ [] → Forall (λ p, c ∉ p) ps → split_on c (join [c] ps) = ps.
Proof.
  intros Hne Hall. induction Hall as [|p ps Hp Hps IH]; [done|].
  destruct ps as [|q qs]; [by apply split_on_none|].
  rewrite join_cons by done. cbn [app]. rewrite split_on_app by done. by rewrite IH.
Qed.

Lemma join_app sep ps qs :
  ps ≠ [] → qs ≠ [] → join sep (ps ++ qs) = join sep ps ++ sep ++ join sep qs.
Proof.
  intros Hps Hqs. induction ps as [|p ps IH]; [done|].
  destruct (decide (ps = [])) as [->|Hne].
  - by destruct qs.
  - cbn [app]. rewrite !join_cons by (destruct ps; done). rewrite IH by done.
    by rewrite <- !app_assoc.
Qed.

(** A line as [str::lines] yields it: no line feed, and no carriage return
    left in front of the terminator. *)
Definition plain_line (l : rstring) : Prop := LF ∉ l ∧ last l ≠ Some CR.

#[global] Instance plain_line_dec l : Decision (plain_line l).
Proof. unfold plain_line. apply _. Defined.

Lemma strip_cr_id l : last l ≠ Some CR → strip_cr l = l.
Proof.
  intros H. unfold strip_cr. destruct (strip_suffix [CR] l) eqn:E; [|done].
  apply strip_suffix_Some in E as ->. by rewrite last_snoc in H.
Qed.

Lemma lines_of_pieces_plain ls x :
  Forall plain_line ls → x ≠ [] → lines_of_pieces (ls ++ [x]) = ls ++ [x].
Proof.
  induction 1 as [|l ls [Hlf Hcr] Hls IH]; intros Hx; simpl.
  - by destruct x.
  - rewrite strip_cr_id by done. rewrite IH by done. by destruct ls.
Qed.

Lemma lines_join ls x :
  Forall plain_line ls → LF ∉ x → x ≠ [] →
  lines (join [LF] (ls ++ [x])) = ls ++ [x].
Proof.
  intros Hls Hlf Hx. unfold lines. rewrite split_on_join.
  - by apply lines_of_pieces_plain.
  - by destruct ls.
  - apply Forall_app. split; [|by repeat constructor].
    eapply Forall_impl; [done|]. by intros l [? _].
Qed.

Lemma split_on_app_any c s t : split_on c (s ++ c :: t) = split_on c s ++ split_on c t.
Proof.
  induction s as [|x s IH]; simpl; [by rewrite N.eqb_refl|].
  destruct (N.eqb x c); [by rewrite IH|]. rewrite IH.
  destruct (split_on c s) eqn:E; [by destruct (split_on_not_nil c s)|done].
Qed.

Lemma lines_of_pieces_app ps qs :
  qs ≠ [] → lines_of_pieces (ps ++ qs) = map strip_cr ps ++ lines_of_pieces qs.
Proof.
  intros Hq. induction ps as [|p ps IH]; [done|]. simpl. rewrite IH.
  by destruct ps, qs.
Qed.

Lemma lines_app_lf s t : lines (s ++ LF :: t) = map strip_cr (split_on LF s) ++ lines t.
Proof.
  unfold lines. rewrite split_on_app_any. apply lines_of_pieces_app, split_on_not_nil.
Qed.

(** Appending a line to a text that is empty or ends in a line feed. *)
Lemma lines_append_line s l :
  s = [] ∨ last s = Some LF → plain_line l → lines (s ++ l ++ [LF]) = lines s ++ [l].
Proof.
  intros Hs [Hlf Hcr].
  assert (lines (l ++ [LF]) = [l]) as Hl.
  { rewrite lines_app_lf, split_on_none by done. simpl. by rewrite strip_cr_id. }
  destruct Hs as [->|[s0 ->]%last_Some]; [done|].
  rewrite <- app_assoc. simpl. rewrite (lines_app_lf s0 (l ++ [LF])), (lines_app_lf s0 []), Hl.
  by rewrite app_nil_r.
Qed.

Lemma strip_cr_no_lf l : LF ∉ l → LF ∉ strip_cr l.
Proof.
  unfold strip_cr. destruct (strip_suffix [CR] l) eqn:E; [|done].
  apply strip_suffix_Some in E as ->. rewrite elem_of_app. naive_solver.
Qed.

Lemma lines_no_lf s : Forall (λ l, LF ∉ l) (lines s).
Proof.
  unfold lines.
  assert (Forall (λ l, LF ∉ l) (split_on LF s)) as Hall.
  { apply Forall_forall. intros p. apply split_on_elem. }
  induction Hall as [|p ps Hp Hps IH]; [constructor|].
  destruct ps as [|q qs]; simpl.
  - destruct (is_empty p); by repeat constructor.
  - constructor; [by apply strip_cr_no_lf|done].
Qed.

Lemma no_leading_ws_join sep l ls :
  l ≠ [] → no_leading_ws l → no_leading_ws (join sep (l :: ls)).
Proof. intros Hne Hl. destruct l as [|c l]; [done|]. by destruct ls. Qed.

Lemma no_trailing_ws_join sep ls x :
  x ≠ [] → no_trailing_ws x → no_trailing_ws (join sep (ls ++ [x])).
Proof.
  intros Hne Hx. destruct (decide (ls = [])) as [->|Hls]; [done|].
  rewrite join_app, app_assoc by done. by apply no_trailing_ws_app.
Qed.
