(* ===== verification/Machine.v ===== *)
(** * Machine integers

    The unsigned and signed integers of the code that may reach the ends of their
    range, on a 64 bit target: values are kept in [N] or [Z] and the saturating
    operations of the standard library are written out. *)

From stdpp Require Import base list numbers strings.

Definition USIZE_MAX : N := (2 ^ 64 - 1)%N.
Definition U64_MAX : N := (2 ^ 64 - 1)%N.
Definition U16_MAX : N := (2 ^ 16 - 1)%N.
Definition I64_MAX : Z := (2 ^ 63 - 1)%Z.
Definition I64_MIN : Z := (- 2 ^ 63)%Z.

(** [saturating_add] and [saturating_mul] of an unsigned type with the given
    maximum; [saturating_sub] is the truncated difference of [N]. *)
Definition sat_add (max a b : N) : N := ((a + b) `min` max)%N.
Definition sat_mul (max a b : N) : N := ((a * b) `min` max)%N.

(** [saturating_add] and [saturating_sub] of [i64]. *)
Definition clamp_i64 (a : Z) : Z := ((a `min` I64_MAX) `max` I64_MIN)%Z.
Definition i64_add (a b : Z) : Z := clamp_i64 (a + b).
Definition i64_sub (a b : Z) : Z := clamp_i64 (a - b).

(** The number of elements as a [usize]. *)
Definition len {A} (l : list A) : N := N.of_nat (length l).

Lemma sat_add_assoc max a b c : sat_add max (sat_add max a b) c = sat_add max a (sat_add max b c).
Proof. unfold sat_add. lia. Qed.

Lemma sat_add_le max a b : (sat_add max a b ≤ max)%N.
Proof. unfold sat_add. lia. Qed.

Lemma len_app {A} (l k : list A) : len (l ++ k) = (len l + len k)%N.
Proof. unfold len. rewrite length_app. lia. Qed.

Lemma USIZE_MAX_pos : (0 < USIZE_MAX)%N.
Proof. done. Qed.
