(* ===== verification/PatchParser.v ===== *)
(** * The patch format: data model and streaming parser

    Models [sofia-rs/apply-patch/src/parser.rs] (the hunks, the errors, the
    boundary checks, [parse_patch]) and [streaming_parser.rs] (the line-driven
    state machine [StreamingPatchParser]).  A [PathBuf] built from patch text is
    the text itself. *)

From stdpp Require Import base list numbers strings.
From S2P Require Import Prelude.

(** ** [parser.rs]: markers and data *)
Definition BEGIN_PATCH_MARKER := str "*** Begin Patch".
Definition END_PATCH_MARKER := str "*** End Patch".
Definition ADD_FILE_MARKER := str "*** Add File: ".
Definition DELETE_FILE_MARKER := str "*** Delete File: ".
Definition UPDATE_FILE_MARKER := str "*** Update File: ".
Definition MOVE_TO_MARKER := str "*** Move to: ".
Definition EOF_MARKER := str "*** End of File".
Definition CHANGE_CONTEXT_MARKER := str "@@ ".
Definition EMPTY_CHANGE_CONTEXT_MARKER := str "@@".
Definition PARSE_IN_STRICT_MODE : bool := false.

Inductive ParseError :=
| InvalidPatchError (message : rstring)
| InvalidHunkError (message : rstring) (line_number : nat).

#[global] Instance ParseError_eq_dec : EqDecision ParseError.
Proof. solve_decision. Defined.

Record UpdateFileChunk := mkChunk {
  change_context : option rstring;
  old_lines : list rstring;
  new_lines : list rstring;
  context_line_indices : list (nat * nat);
  is_end_of_file : bool
}.

#[global] Instance UpdateFileChunk_eq_dec : EqDecision UpdateFileChunk.
Proof. solve_decision. Defined.

Definition default_chunk : UpdateFileChunk := mkChunk None [] [] [] false.

Inductive Hunk :=
| AddFile (path contents : rstring)
| DeleteFile (path : rstring)
| UpdateFile (path : rstring) (move_path : option rstring) (chunks : list UpdateFileChunk).

#[global] Instance Hunk_eq_dec : EqDecision Hunk.
Proof. solve_decision. Defined.

(** [Hunk::path]: the move destination for rename hunks. *)
Definition hunk_path (h : Hunk) : rstring :=
  match h with
  | AddFile path _ => path
  | DeleteFile path => path
  | UpdateFile _ (Some path) _ => path
  | UpdateFile path None _ => path
  end.

(** The path [Hunk::resolve_path] joins to the working directory. *)
Definition hunk_source_path (h : Hunk) : rstring :=
  match h with
  | UpdateFile path _ _ => path
  | AddFile _ _ | DeleteFile _ => hunk_path h
  end.

Definition push_context_line (line : rstring) (c : UpdateFileChunk) : UpdateFileChunk :=
  mkChunk (change_context c)
    (old_lines c ++ [line]) (new_lines c ++ [line])
    (context_line_indices c ++ [(length (old_lines c), length (new_lines c))])
    (is_end_of_file c).

(** ** [streaming_parser.rs] *)
Definition ENVIRONMENT_ID_MARKER := str "*** Environment ID:".

Inductive StreamingParserMode :=
| NotStarted
| StartedPatch
| ModeAddFile
| ModeDeleteFile
| ModeUpdateFile (hunk_line_number : nat)
| EndedPatch.

#[global] Instance StreamingParserMode_eq_dec : EqDecision StreamingParserMode.
Proof. solve_decision. Defined.

Record StreamingParserState := mkState {
  mode : StreamingParserMode;
  hunks : list Hunk;
  environment_id : option rstring
}.

Record StreamingPatchParser := mkParser {
  line_buffer : rstring;
  state : StreamingParserState;
  line_number : nat
}.

Definition default_parser : StreamingPatchParser :=
  mkParser [] (mkState NotStarted [] None) 0.

Definition set_mode (m : StreamingParserMode) (st : StreamingParserState) : StreamingParserState :=
  mkState m (hunks st) (environment_id st).
Definition push_hunk (h : Hunk) (m : StreamingParserMode) (st : StreamingParserState)
    : StreamingParserState :=
  mkState m (hunks st ++ [h]) (environment_id st).

(** The messages of the source. *)
Definition FIRST_LINE_ERROR := str "The first line of the patch must be '*** Begin Patch'".
Definition LAST_LINE_ERROR := str "The last line of the patch must be '*** End Patch'".
Definition NO_LINES_ERROR := str "Update hunk does not contain any lines".
Definition empty_hunk_error (path : rstring) : rstring :=
  str "Update file hunk for path '" ++ path ++ str "' is empty".
Definition unexpected_line_error (line : rstring) : rstring :=
  str "Unexpected line found in update hunk: '" ++ line ++
  str "'. Every line should start with ' ' (context line), '+' (added line), or '-' (removed line)".
Definition expected_context_error (line : rstring) : rstring :=
  str "Expected update hunk to start with a @@ context marker, got: '" ++ line ++ str "'".
Definition invalid_header_error (trimmed : rstring) : rstring :=
  str "'" ++ trimmed ++
  str "' is not a valid hunk header. Valid hunk headers: '*** Add File: {path}', '*** Delete File: {path}', '*** Update File: {path}'".

(** A chunk with neither removed nor added nor context lines. *)
Definition chunk_has_no_lines (c : UpdateFileChunk) : bool :=
  is_empty (old_lines c) && is_empty (new_lines c).

Definition ensure_update_hunk_is_not_empty (n : nat) (st : StreamingParserState) (line : rstring)
    : result ParseError unit :=
  match last (hunks st) with
  | Some (UpdateFile path _ chunks) =>
      match is_empty chunks, mode st with
      | true, ModeUpdateFile hunk_line_number =>
          Err (InvalidHunkError (empty_hunk_error path) hunk_line_number)
      | _, _ =>
          if is_some_and (last chunks) chunk_has_no_lines then
            if str_eqb line END_PATCH_MARKER
            then Err (InvalidHunkError NO_LINES_ERROR n)
            else Err (InvalidHunkError (unexpected_line_error line) n)
          else Ok tt
      end
  | _ => Ok tt
  end.

(** [handle_hunk_headers_and_end_patch]: [Ok (Some st)] is [Ok(true)] with the
    updated state, [Ok None] is [Ok(false)] with the state untouched. *)
Definition handle_hunk_headers_and_end_patch (n : nat) (st : StreamingParserState)
    (trimmed : rstring) : result ParseError (option StreamingParserState) :=
  match mode st, strip_prefix ENVIRONMENT_ID_MARKER trimmed with
  | StartedPatch, Some id =>
      match environment_id st with
      | Some _ =>
          Err (InvalidPatchError (str "apply_patch environment_id cannot be specified more than once"))
      | None =>
          if is_empty (trim id)
          then Err (InvalidPatchError (str "apply_patch environment_id cannot be empty"))
          else Ok (Some (mkState (mode st) (hunks st) (Some (trim id))))
      end
  | _, _ =>
      if str_eqb trimmed END_PATCH_MARKER then
        ensure_update_hunk_is_not_empty n st trimmed ≫= λ _,
        Ok (Some (set_mode EndedPatch st))
      else
      match strip_prefix ADD_FILE_MARKER trimmed with
      | Some path =>
          ensure_update_hunk_is_not_empty n st trimmed ≫= λ _,
          Ok (Some (push_hunk (AddFile path []) ModeAddFile st))
      | None =>
      match strip_prefix DELETE_FILE_MARKER trimmed with
      | Some path =>
          ensure_update_hunk_is_not_empty n st trimmed ≫= λ _,
          Ok (Some (push_hunk (DeleteFile path) ModeDeleteFile st))
      | None =>
      match strip_prefix UPDATE_FILE_MARKER trimmed with
      | Some path =>
          ensure_update_hunk_is_not_empty n st trimmed ≫= λ _,
          Ok (Some (push_hunk (UpdateFile path None []) (ModeUpdateFile n) st))
      | None => Ok None
      end end end
  end.

(** [if chunks.is_empty() { chunks.push(default) }; chunks.last_mut().map(f)] *)
Definition on_last_chunk (f : UpdateFileChunk → UpdateFileChunk) (chunks : list UpdateFileChunk)
    : list UpdateFileChunk :=
  update_last f (if is_empty chunks then [default_chunk] else chunks).

Definition set_end_of_file (c : UpdateFileChunk) : UpdateFileChunk :=
  mkChunk (change_context c) (old_lines c) (new_lines c) (context_line_indices c) true.
Definition push_new_line (l : rstring) (c : UpdateFileChunk) : UpdateFileChunk :=
  mkChunk (change_context c) (old_lines c) (new_lines c ++ [l]) (context_line_indices c)
    (is_end_of_file c).
Definition push_old_line (l : rstring) (c : UpdateFileChunk) : UpdateFileChunk :=
  mkChunk (change_context c) (old_lines c ++ [l]) (new_lines c) (context_line_indices c)
    (is_end_of_file c).

(** The body of the [UpdateFile] arm of [process_line], on the [move_path] and
    [chunks] of the last hunk; [update_line] is [line.trim_end()]. *)
Definition process_update_line (n : nat) (line update_line : rstring)
    (move_path : option rstring) (chunks : list UpdateFileChunk)
    : result ParseError (option rstring * list UpdateFileChunk) :=
  let is_context_header :=
    str_eqb update_line EMPTY_CHANGE_CONTEXT_MARKER ||
    starts_with CHANGE_CONTEXT_MARKER update_line in
  let after_eof := is_some_and (last chunks) is_end_of_file in
  let last_has_no_lines := is_some_and (last chunks) chunk_has_no_lines in
  if after_eof && is_empty update_line then Ok (move_path, chunks) else
  if after_eof && negb is_context_header
  then Err (InvalidHunkError (expected_context_error line) n) else
  match is_empty chunks, move_path, strip_prefix MOVE_TO_MARKER update_line with
  | true, None, Some move_to_path => Ok (Some move_to_path, chunks)
  | _, _, _ =>
  if is_context_header && last_has_no_lines
  then Err (InvalidHunkError (unexpected_line_error line) n) else
  if str_eqb update_line EMPTY_CHANGE_CONTEXT_MARKER
  then Ok (move_path, chunks ++ [default_chunk]) else
  match strip_prefix CHANGE_CONTEXT_MARKER update_line with
  | Some ctx => Ok (move_path, chunks ++ [mkChunk (Some ctx) [] [] [] false])
  | None =>
  if str_eqb update_line EOF_MARKER then
    if last_has_no_lines then Err (InvalidHunkError NO_LINES_ERROR n)
    else Ok (move_path, update_last set_end_of_file chunks) else
  match line with
  | [] => Ok (move_path, on_last_chunk (push_context_line []) chunks)
  | c :: rest =>
      if (c =? 32)%N then Ok (move_path, on_last_chunk (push_context_line rest) chunks) else
      if (c =? 43)%N then Ok (move_path, on_last_chunk (push_new_line rest) chunks) else
      if (c =? 45)%N then Ok (move_path, on_last_chunk (push_old_line rest) chunks) else
      if is_some_and (last chunks) (λ k, negb (chunk_has_no_lines k))
      then Err (InvalidHunkError (expected_context_error line) n)
      else Err (InvalidHunkError (unexpected_line_error line) n)
  end end end.

(** [process_line].  No arm changes the parser before it returns an error, so
    the parser after an error is the parser before the call. *)
Definition process_line (n : nat) (st : StreamingParserState) (line : rstring)
    : result ParseError StreamingParserState :=
  let trimmed := trim line in
  match mode st with
  | NotStarted =>
      if str_eqb trimmed BEGIN_PATCH_MARKER then Ok (set_mode StartedPatch st)
      else Err (InvalidPatchError FIRST_LINE_ERROR)
  | StartedPatch | ModeDeleteFile =>
      handle_hunk_headers_and_end_patch n st trimmed ≫= λ o,
      match o with
      | Some st' => Ok st'
      | None => Err (InvalidHunkError (invalid_header_error trimmed) n)
      end
  | ModeAddFile =>
      handle_hunk_headers_and_end_patch n st trimmed ≫= λ o,
      match o with
      | Some st' => Ok st'
      | None =>
          match strip_prefix (str "+") line, last (hunks st) with
          | Some line_to_add, Some (AddFile path contents) =>
              Ok (mkState (mode st)
                    (update_last (λ _, AddFile path (contents ++ line_to_add ++ [LF])) (hunks st))
                    (environment_id st))
          | _, _ => Err (InvalidHunkError (invalid_header_error trimmed) n)
          end
      end
  | ModeUpdateFile hunk_line_number =>
      let update_line := trim_end line in
      handle_hunk_headers_and_end_patch n st update_line ≫= λ o,
      match o with
      | Some st' => Ok st'
      | None =>
          match last (hunks st) with
          | Some (UpdateFile path move_path chunks) =>
              process_update_line n line update_line move_path chunks ≫= λ mc,
              Ok (mkState (ModeUpdateFile hunk_line_number)
                    (update_last (λ _, UpdateFile path (fst mc) (snd mc)) (hunks st))
                    (environment_id st))
          | _ => Err (InvalidHunkError (unexpected_line_error line) n)
          end
      end
  | EndedPatch =>
      if is_empty trimmed then Ok st
      else Err (InvalidPatchError LAST_LINE_ERROR)
  end.

(** [push_delta] feeds the characters of a delta one at a time; a line is
    processed at each line feed.  The parser is returned in every case, since
    [&mut self] keeps its state after an error. *)
Fixpoint push_chars (p : StreamingPatchParser) (delta : rstring)
    : result ParseError unit * StreamingPatchParser :=
  match delta with
  | [] => (Ok tt, p)
  | ch :: delta' =>
      if (ch =? LF)%N then
        let line := strip_cr (line_buffer p) in
        let n := S (line_number p) in
        match process_line n (state p) line with
        | Ok st' => push_chars (mkParser [] st' n) delta'
        | Err e => (Err e, mkParser [] (state p) n)
        end
      else push_chars (mkParser (line_buffer p ++ [ch]) (state p) (line_number p)) delta'
  end.

Definition push_delta (p : StreamingPatchParser) (delta : rstring)
    : result ParseError (list Hunk) * StreamingPatchParser :=
  match push_chars p delta with
  | (Ok _, p') => (Ok (hunks (state p')), p')
  | (Err e, p') => (Err e, p')
  end.

(** The last, unterminated line of [finish]. *)
Definition finish_line_buffer (p : StreamingPatchParser)
    : result ParseError unit * StreamingPatchParser :=
  match line_buffer p with
  | [] => (Ok tt, p)
  | line =>
      let n := S (line_number p) in
      let res :=
        if str_eqb (trim line) END_PATCH_MARKER then
          ensure_update_hunk_is_not_empty n (state p) (trim line) ≫= λ _,
          Ok (set_mode EndedPatch (state p))
        else process_line n (state p) line in
      match res with
      | Ok st' => (Ok tt, mkParser [] st' n)
      | Err e => (Err e, mkParser [] (state p) n)
      end
  end.

Definition finish (p : StreamingPatchParser)
    : result ParseError (list Hunk) * StreamingPatchParser :=
  match finish_line_buffer p with
  | (Err e, p') => (Err e, p')
  | (Ok _, p') =>
      match mode (state p') with
      | EndedPatch => (Ok (hunks (state p')), p')
      | _ => (Err (InvalidPatchError LAST_LINE_ERROR), p')
      end
  end.

(** ** [parser.rs]: boundaries and [parse_patch] *)
Record ApplyPatchArgs := mkArgs {
  arg_patch : rstring;
  arg_hunks : list Hunk;
  arg_workdir : option rstring;
  arg_environment_id : option rstring
}.

Inductive ParseMode := Strict | Lenient.

Definition check_start_and_end_lines_strict (first_line last_line : option rstring)
    : result ParseError unit :=
  match trim <$> first_line, trim <$> last_line with
  | Some first, Some lst =>
      if str_eqb first BEGIN_PATCH_MARKER && str_eqb lst END_PATCH_MARKER then Ok tt
      else if negb (str_eqb first BEGIN_PATCH_MARKER)
           then Err (InvalidPatchError FIRST_LINE_ERROR)
           else Err (InvalidPatchError LAST_LINE_ERROR)
  | Some first, None =>
      if negb (str_eqb first BEGIN_PATCH_MARKER)
      then Err (InvalidPatchError FIRST_LINE_ERROR)
      else Err (InvalidPatchError LAST_LINE_ERROR)
  | None, _ => Err (InvalidPatchError LAST_LINE_ERROR)
  end.

Definition check_patch_boundaries_strict (ls : list rstring) : result ParseError (list rstring) :=
  check_start_and_end_lines_strict (head ls) (last ls) ≫= λ _, Ok ls.

(** The heredoc wrapper of the lenient mode: at least four lines, the first one
    of the three [<<EOF] spellings, the last one ending in [EOF]. *)
Definition check_patch_boundaries_lenient (original_lines : list rstring)
    : result ParseError (list rstring) :=
  match check_patch_boundaries_strict original_lines with
  | Ok ls => Ok ls
  | Err original_parse_error =>
      match original_lines, last original_lines with
      | first :: _ :: _, Some lst =>
          if (str_eqb first (str "<<EOF") || str_eqb first (str "<<'EOF'") ||
              str_eqb first ([60; 60; 34]%N ++ str "EOF" ++ [34]%N)) &&
             ends_with (str "EOF") lst && (4 <=? length original_lines)
          then check_patch_boundaries_strict
                 (take (length original_lines - 2) (drop 1 original_lines))
          else Err original_parse_error
      | _, _ => Err original_parse_error
      end
  end.

Definition parse_patch_text (patch : rstring) (m : ParseMode) : result ParseError ApplyPatchArgs :=
  let ls := lines (trim patch) in
  patch_lines ← match m with
                | Strict => check_patch_boundaries_strict ls
                | Lenient => check_patch_boundaries_lenient ls
                end;
  let patch := join [LF] patch_lines in
  match push_delta default_parser patch with
  | (Err e, _) => Err e
  | (Ok _, p) =>
      match finish p with
      | (Err e, _) => Err e
      | (Ok hs, p') => Ok (mkArgs patch hs None (environment_id (state p')))
      end
  end.

Definition parse_patch (patch : rstring) : result ParseError ApplyPatchArgs :=
  parse_patch_text patch (if PARSE_IN_STRICT_MODE then Strict else Lenient).
