(* ===== verification/PatchSpec.v ===== *)
(** * Correctness of the patch parser

    The invariant of the state machine of the streaming parser (every parsed hunk is
    well formed), and its progress: a line only extends the hunks read so far. *)

From stdpp Require Import base list numbers strings.
From S2P Require Import Prelude PatchParser.

(** ** Streaming *)
Section streaming.
Implicit Types (p : StreamingPatchParser) (d : rstring).

(** Feed deltas one after the other, as a client does; the first error stops. *)
Fixpoint push_deltas p (ds : list rstring) : result ParseError (list Hunk) * StreamingPatchParser :=
  match ds with
  | [] => (Ok (hunks (state p)), p)
  | d :: ds' =>
      match push_delta p d with
      | (Ok _, p') => push_deltas p' ds'
      | (Err e, p') => (Err e, p')
      end
  end.

Lemma push_chars_app p d1 d2 :
  push_chars p (d1 ++ d2) =
  match push_chars p d1 with
  | (Ok _, p') => push_chars p' d2
  | (Err e, p') => (Err e, p')
  end.
Proof.
  revert p. induction d1 as [|ch d1 IH]; intros p; simpl; [done|].
  destruct (ch =? LF)%N; [|apply IH].
  destruct (process_line _ _ _); [apply IH|done].
Qed.
End streaming.

(** ** The invariant of the state machine *)

(** The context positions recorded in a chunk advance on both sides and name
    the same line on both sides. *)
Fixpoint context_ok (o0 n0 : nat) (idx : list (nat * nat)) (old new : list rstring) : Prop :=
  match idx with
  | [] => True
  | (o, n) :: idx' =>
      o0 ≤ o ∧ n0 ≤ n ∧ (∃ l, old !! o = Some l ∧ new !! n = Some l) ∧
      context_ok (S o) (S n) idx' old new
  end.

Definition chunk_wf (c : UpdateFileChunk) : Prop :=
  context_ok 0 0 (context_line_indices c) (old_lines c) (new_lines c).

Definition chunk_complete (c : UpdateFileChunk) : Prop :=
  chunk_wf c ∧ chunk_has_no_lines c = false.

Definition hunk_wf (h : Hunk) : Prop :=
  match h with
  | AddFile _ contents => contents = [] ∨ last contents = Some LF
  | DeleteFile _ => True
  | UpdateFile _ _ chunks => chunks ≠ [] ∧ Forall chunk_complete chunks
  end.

(** Only the chunk being read may still have no line. *)
Definition chunks_partial (cs : list UpdateFileChunk) : Prop :=
  Forall chunk_wf cs ∧
  ∀ cs' c, cs = cs' ++ [c] → Forall chunk_complete cs'.

Definition state_inv (st : StreamingParserState) : Prop :=
  match mode st with
  | NotStarted | StartedPatch => hunks st = []
  | ModeAddFile | ModeDeleteFile | EndedPatch => Forall hunk_wf (hunks st)
  | ModeUpdateFile _ =>
      ∃ hs path mp cs, hunks st = hs ++ [UpdateFile path mp cs] ∧
        Forall hunk_wf hs ∧ chunks_partial cs
  end.

Section invariant.
Implicit Types (st : StreamingParserState) (c : UpdateFileChunk).

Lemma context_ok_grow o0 n0 idx old new old' new' :
  context_ok o0 n0 idx old new → context_ok o0 n0 idx (old ++ old') (new ++ new').
Proof.
  revert o0 n0. induction idx as [|[o n] idx IH]; intros o0 n0; simpl; [done|].
  intros (Ho & Hn & (l & Hol & Hnl) & Hrest). split_and!; [done..| |eauto].
  exists l. split; by apply lookup_app_l_Some.
Qed.

Lemma context_ok_snoc o0 n0 idx old new l :
  o0 ≤ length old → n0 ≤ length new →
  context_ok o0 n0 idx old new →
  context_ok o0 n0 (idx ++ [(length old, length new)]) (old ++ [l]) (new ++ [l]).
Proof.
  revert o0 n0. induction idx as [|[o n] idx IH]; intros o0 n0 Hlo Hln; simpl.
  - intros _. split_and!; [done..| |done].
    exists l. split; by apply list_lookup_middle.
  - intros (Ho & Hn & (k & Hol & Hnl) & Hrest). split_and!; [done..| |].
    + exists k. split; by apply lookup_app_l_Some.
    + apply lookup_lt_Some in Hol, Hnl. apply IH; [lia..|done].
Qed.

Lemma push_context_line_complete l c : chunk_wf c → chunk_complete (push_context_line l c).
Proof.
  intros H. split; [by apply context_ok_snoc; [lia..|]|].
  unfold chunk_has_no_lines. simpl. by destruct (old_lines c).
Qed.

Lemma push_new_line_complete l c : chunk_wf c → chunk_complete (push_new_line l c).
Proof.
  intros H. split.
  - unfold chunk_wf; simpl. rewrite <- (app_nil_r (old_lines c)). by apply context_ok_grow.
  - unfold chunk_has_no_lines. simpl. apply andb_false_iff. right. by destruct (new_lines c).
Qed.

Lemma push_old_line_complete l c : chunk_wf c → chunk_complete (push_old_line l c).
Proof.
  intros H. split.
  - unfold chunk_wf; simpl. rewrite <- (app_nil_r (new_lines c)). by apply context_ok_grow.
  - unfold chunk_has_no_lines. simpl. by destruct (old_lines c).
Qed.

Lemma set_end_of_file_wf c : chunk_wf c → chunk_wf (set_end_of_file c).
Proof. done. Qed.

Lemma chunks_partial_nil : chunks_partial [].
Proof. split; [done|]. intros cs' c H. by destruct cs'. Qed.

Lemma chunks_partial_snoc cs c :
  Forall chunk_complete cs → chunk_wf c → chunks_partial (cs ++ [c]).
Proof.
  intros Hcs Hc. split.
  - apply Forall_app. split; [|by constructor].
    eapply Forall_impl; [done|]. by intros ? [? _].
  - by intros cs' c' [-> ->]%app_snoc_inj.
Qed.

Lemma chunks_partial_inv cs :
  chunks_partial cs → cs = [] ∨ ∃ cs' c, cs = cs' ++ [c] ∧ Forall chunk_complete cs' ∧ chunk_wf c.
Proof.
  intros [Hwf Hp]. destruct (snoc_nil_cases cs) as [->|(cs' & c & ->)]; [by left|].
  rewrite Forall_app, Forall_singleton in Hwf. destruct Hwf as [_ Hc].
  right. exists cs', c. split_and!; [done| |done]. by apply (Hp cs' c).
Qed.

Lemma chunks_partial_complete cs :
  chunks_partial cs → is_some_and (last cs) chunk_has_no_lines = false → Forall chunk_complete cs.
Proof.
  intros [->|(cs' & c & -> & Hcs & Hc)]%chunks_partial_inv; [done|].
  rewrite last_snoc. simpl. intros Hn. apply Forall_app. split; [done|].
  by repeat constructor.
Qed.

Lemma on_last_chunk_partial f cs :
  (∀ c, chunk_wf c → chunk_complete (f c)) → chunks_partial cs → chunks_partial (on_last_chunk f cs).
Proof.
  intros Hf [->|(cs' & c & -> & Hcs & Hc)]%chunks_partial_inv; unfold on_last_chunk.
  - apply (chunks_partial_snoc []); [done|]. by apply Hf.
  - replace (is_empty (cs' ++ [c])) with false by (by destruct cs').
    rewrite update_last_snoc. apply chunks_partial_snoc; [done|]. by apply Hf.
Qed.

Lemma update_last_eof_partial cs :
  chunks_partial cs → chunks_partial (update_last set_end_of_file cs).
Proof.
  intros [->|(cs' & c & -> & Hcs & Hc)]%chunks_partial_inv; [apply chunks_partial_nil|].
  rewrite update_last_snoc. by apply chunks_partial_snoc.
Qed.

Lemma process_update_line_partial n line ul mp cs mp' cs' :
  chunks_partial cs →
  process_update_line n line ul mp cs = Ok (mp', cs') → chunks_partial cs'.
Proof.
  intros Hcs. unfold process_update_line.
  repeat (first [done | case_match]); intros [= <- <-]; try done;
    eauto using on_last_chunk_partial, update_last_eof_partial,
      push_context_line_complete, push_new_line_complete, push_old_line_complete.
  all: breflect; apply chunks_partial_snoc; [|done];
    apply chunks_partial_complete; [done|].
  all: match goal with
       | H : _ && ?b = false |- ?b = false => apply andb_false_iff in H as [H|H]; [|done]
       end; breflect; try done.
  all: unfold starts_with in *; by simplify_option_eq.
Qed.

(** In update mode, the check run before leaving a hunk makes it complete; in
    the other modes after the start every hunk is already complete. *)
Lemma ensure_complete n st line u :
  state_inv st → ensure_update_hunk_is_not_empty n st line = Ok u → Forall hunk_wf (hunks st).
Proof.
  unfold state_inv, ensure_update_hunk_is_not_empty.
  destruct (mode st) eqn:Hm; try (by intros -> _); try done.
  intros (hs & path & mp & cs & Hh & Hhs & Hcs). rewrite Hh, last_snoc.
  destruct cs as [|c0 cs0] eqn:Ecs; [done|]. rewrite <- Ecs in *.
  replace (is_empty cs) with false by (by subst).
  destruct (is_some_and _ _) eqn:Hl; [by case_match|].
  intros _. apply Forall_app. split; [done|]. repeat constructor; [by subst|].
  by apply chunks_partial_complete.
Qed.

Lemma ensure_then n st line (k st' : StreamingParserState) :
  state_inv st →
  ensure_update_hunk_is_not_empty n st line ≫= (λ _, Ok (Some k)) = Ok (Some st') →
  Forall hunk_wf (hunks st) ∧ st' = k.
Proof.
  intros Hinv. destruct (ensure_update_hunk_is_not_empty n st line) as [u|] eqn:E; [|done].
  intros [= <-]. eauto using ensure_complete.
Qed.

Lemma push_hunk_inv h m st :
  Forall hunk_wf (hunks st) → hunk_wf h → m = ModeAddFile ∨ m = ModeDeleteFile →
  state_inv (push_hunk h m st).
Proof.
  intros Hall Hh Hm. unfold state_inv, push_hunk; simpl.
  destruct Hm as [-> | ->]; apply Forall_app; by repeat constructor.
Qed.

Lemma handle_headers_inv n st t st' :
  state_inv st → handle_hunk_headers_and_end_patch n st t = Ok (Some st') → state_inv st'.
Proof.
  intros Hinv. unfold handle_hunk_headers_and_end_patch.
  repeat match goal with
  | |- (_ ≫= _) = _ → _ => intros [Hall ->]%ensure_then; [|done]
  | |- Ok _ = _ → _ => intros [= <-]
  | |- _ → _ => case_match
  | |- _ → _ => done
  end; try done.
  all: try (apply push_hunk_inv; [done|by try left|auto]).
  all: try (eexists _, _, _, _; split_and!; [done..|apply chunks_partial_nil]).
  unfold state_inv in *; simpl. match goal with H : mode st = _ |- _ => by rewrite H in * end.
Qed.

Lemma process_line_inv n st line st' :
  state_inv st → process_line n st line = Ok st' → state_inv st'.
Proof.
  intros Hinv. pose proof Hinv as Hinv'. unfold state_inv in Hinv'. unfold process_line.
  destruct (mode st) as [| | | |ln|] eqn:Hm.
  - case_match; [|done]. intros [= <-]. done.
  - destruct (handle_hunk_headers_and_end_patch _ _ _) as [[?|]|] eqn:E; try done.
    intros [= <-]. eauto using handle_headers_inv.
  - destruct (handle_hunk_headers_and_end_patch _ _ _) as [[?|]|] eqn:E; try done; cbn [mbind result_bind].
    { intros [= <-]. eauto using handle_headers_inv. }
    destruct (strip_prefix (str "+") line) as [l|]; [|done].
    destruct (last (hunks st)) as [[path contents|path|path mp cs]|] eqn:El; try done.
    intros [= <-]. unfold state_inv; simpl. apply last_Some in El as [hs El]. rewrite El in *.
    rewrite update_last_snoc. apply Forall_app in Hinv' as [Hhs _].
    apply Forall_app. split; [done|]. apply Forall_singleton. right.
    by rewrite app_assoc, last_snoc.
  - destruct (handle_hunk_headers_and_end_patch _ _ _) as [[?|]|] eqn:E; try done.
    intros [= <-]. eauto using handle_headers_inv.
  - destruct (handle_hunk_headers_and_end_patch _ _ _) as [[?|]|] eqn:E; try done; cbn [mbind result_bind].
    { intros [= <-]. eauto using handle_headers_inv. }
    destruct Hinv' as (hs & path & mp & cs & Hh & Hhs & Hcs). rewrite Hh, last_snoc.
    destruct (process_update_line _ _ _ _ _) as [[mp' cs']|] eqn:Eu; [|done].
    intros [= <-]. unfold state_inv; simpl. rewrite update_last_snoc.
    eexists _, _, _, _. split_and!; [done..|]. eauto using process_update_line_partial.
  - case_match; [|done]. by intros [= <-].
Qed.

Lemma push_chars_inv p d r p' :
  state_inv (state p) → push_chars p d = (r, p') → state_inv (state p').
Proof.
  revert p. induction d as [|ch d IH]; intros p Hinv; simpl; [by intros [= <- <-]|].
  destruct (ch =? LF)%N; [|by apply IH].
  destruct (process_line _ _ _) as [st'|e] eqn:E.
  - apply IH. simpl. eauto using process_line_inv.
  - by intros [= <- <-].
Qed.

Lemma finish_inv p hs p' :
  state_inv (state p) → finish p = (Ok hs, p') → Forall hunk_wf hs.
Proof.
  intros Hinv. unfold finish, finish_line_buffer.
  assert (∀ q, state_inv (state q) →
    match mode (state q) with
    | EndedPatch => (Ok (hunks (state q)), q)
    | _ => (Err (InvalidPatchError LAST_LINE_ERROR), q)
    end = (Ok hs, p') → Forall hunk_wf hs) as Hend.
  { intros q Hq. unfold state_inv in Hq. destruct (mode (state q)); try done. by intros [= <- _]. }
  destruct (line_buffer p) as [|c l]; [by apply Hend|].
  destruct (str_eqb _ _).
  - destruct (ensure_update_hunk_is_not_empty _ _ _) as [u|] eqn:E; [|done]. simpl.
    intros [= <- _]. eauto using ensure_complete.
  - destruct (process_line _ _ _) as [st'|] eqn:E; [|done].
    apply Hend. simpl. eauto using process_line_inv.
Qed.
End invariant.

Lemma parse_patch_ok_wf patch args :
  parse_patch patch = Ok args → Forall hunk_wf (arg_hunks args).
Proof.
  unfold parse_patch, parse_patch_text. simpl.
  destruct (check_patch_boundaries_lenient _) as [ls|]; [|done]. simpl.
  destruct (push_delta default_parser _) as [[hs|] p] eqn:Ep; [|done].
  destruct (finish p) as [[hs'|] p'] eqn:Ef; [|done]. intros [= <-]. simpl.
  apply finish_inv in Ef; [done|].
  unfold push_delta in Ep. destruct (push_chars _ _) as [[]] eqn:E; simplify_eq.
  eapply (push_chars_inv default_parser); [reflexivity|done].
Qed.

(** ** Progress: what has been reported is only extended *)

(** [l'] extends [l]: its last element may have grown, and elements may follow. *)
Definition grows {A} (R : A → A → Prop) (l l' : list A) : Prop :=
  l = [] ∨ ∃ init x y rest, l = init ++ [x] ∧ l' = init ++ y :: rest ∧ R x y.

Definition chunk_grows (c c' : UpdateFileChunk) : Prop :=
  change_context c = change_context c' ∧ old_lines c `prefix_of` old_lines c' ∧
  new_lines c `prefix_of` new_lines c' ∧ context_line_indices c `prefix_of` context_line_indices c' ∧
  (is_end_of_file c = true → c' = c).

Definition hunk_grows (h h' : Hunk) : Prop :=
  match h, h' with
  | AddFile p c, AddFile p' c' => p = p' ∧ c `prefix_of` c'
  | DeleteFile p, DeleteFile p' => p = p'
  | UpdateFile p mv cs, UpdateFile p' mv' cs' =>
      p = p' ∧ (mv = mv' ∨ mv = None ∧ cs = []) ∧ grows chunk_grows cs cs'
  | _, _ => False
  end.

Section progress.
Context {A : Type} (R : A → A → Prop).

Lemma grows_refl `{!Reflexive R} l : grows R l l.
Proof.
  destruct l as [|x l _] using rev_ind; [by left|]. right. exists l, x, x, []. by split_and!.
Qed.

Lemma grows_snoc `{!Reflexive R} l x : grows R l (l ++ [x]).
Proof.
  destruct l as [|y l _] using rev_ind; [by left|]. right. exists l, y, y, [x].
  split_and!; [done| |done]. by rewrite <- app_assoc.
Qed.

Lemma grows_last l x y : R x y → grows R (l ++ [x]) (l ++ [y]).
Proof. intros. right. by exists l, x, y, []. Qed.

Lemma grows_trans `{!Transitive R} l1 l2 l3 : grows R l1 l2 → grows R l2 l3 → grows R l1 l3.
Proof.
  intros [->|(i1 & x1 & y1 & r1 & -> & -> & H1)]; [by left|].
  intros [Hn|(i2 & x2 & y2 & r2 & E & -> & H2)]; [by destruct i1|]. right.
  destruct r1 as [|z r1 _] using rev_ind.
  - apply app_inj_tail in E as [-> ->]. exists i2, x1, y2, r2. split_and!; [done..|by etrans].
  - rewrite app_comm_cons, app_assoc in E. apply app_inj_tail in E as [<- ->].
    exists i1, x1, y1, (r1 ++ y2 :: r2). split_and!; [done| |done]. by rewrite <- app_assoc.
Qed.
End progress.

#[global] Instance chunk_grows_preorder : PreOrder chunk_grows.
Proof.
  split; [by intros c; repeat split|]. intros c1 c2 c3 (Ha & Hb & Hc & Hd & He) (Ha' & Hb' & Hc' & Hd' & He').
  split_and!; [congruence|by etrans..|]. intros Hf. pose proof (He Hf) as ->. by apply He'.
Qed.

#[global] Instance hunk_grows_preorder : PreOrder hunk_grows.
Proof.
  split.
  - intros [| |]; simpl; split_and?; auto. apply grows_refl, _.
  - intros [| |] [| |] [| |]; simpl; try done; [|congruence|].
    + intros [-> ?] [-> ?]. split; [done|by etrans].
    + intros (-> & Hm & Hc) (-> & Hm' & Hc'). split_and!; [done| |by eapply grows_trans; [apply _|..]].
      destruct Hm as [-> | [-> ->] ]; [|by right]. destruct Hm' as [-> | [-> ->] ]; [by left|].
      right. split; [done|]. destruct Hc as [->|(i & x & y & r & -> & E & _)]; [done|]. by destruct i.
Qed.

Lemma push_grows l f c :
  (f = push_context_line l ∨ f = push_new_line l ∨ f = push_old_line l) → is_end_of_file c = false →
  chunk_grows c (f c).
Proof.
  intros Hf He. destruct Hf as [-> | [-> | ->] ]; unfold chunk_grows; simpl;
    (split_and!; [done|by try apply prefix_app_r|by try apply prefix_app_r|by try apply prefix_app_r|congruence]).
Qed.

Lemma on_last_chunk_grows l f cs :
  (f = push_context_line l ∨ f = push_new_line l ∨ f = push_old_line l) →
  is_some_and (last cs) is_end_of_file = false → grows chunk_grows cs (on_last_chunk f cs).
Proof.
  intros Hf. destruct cs as [|c cs _] using rev_ind; [by left|]. rewrite last_snoc. intros He.
  unfold on_last_chunk. replace (is_empty (cs ++ [c])) with false by (by destruct cs).
  rewrite update_last_snoc. by eapply grows_last, push_grows.
Qed.

Lemma end_of_file_grows cs :
  is_some_and (last cs) is_end_of_file = false → grows chunk_grows cs (update_last set_end_of_file cs).
Proof.
  destruct cs as [|c cs _] using rev_ind; [by left|]. rewrite last_snoc. intros He.
  rewrite update_last_snoc. apply grows_last. unfold chunk_grows; simpl.
  split_and!; try done. simpl in He. congruence.
Qed.

Lemma process_update_line_grows n line ul mp cs mp' cs' :
  process_update_line n line ul mp cs = Ok (mp', cs') →
  (mp = mp' ∨ mp = None ∧ cs = []) ∧ grows chunk_grows cs cs'.
Proof.
  assert (Hrefl : grows chunk_grows cs cs) by apply grows_refl, _.
  assert (Hsnoc : ∀ c, grows chunk_grows cs (cs ++ [c])) by (intros; apply grows_snoc, _).
  unfold process_update_line.
  destruct (is_some_and (last cs) is_end_of_file) eqn:He.
  - destruct (is_empty ul); [by intros [= <- <-]; auto|]. cbn [andb].
    destruct (str_eqb ul EMPTY_CHANGE_CONTEXT_MARKER || starts_with CHANGE_CONTEXT_MARKER ul) eqn:Ec; [|done].
    cbn [negb]. assert (is_empty cs = false) as -> by (destruct cs; [done|done]).
    destruct (_ && _); [done|]. destruct (str_eqb ul _); [by intros [= <- <-]; auto|].
    unfold starts_with in Ec. destruct (strip_prefix CHANGE_CONTEXT_MARKER ul); [|done].
    intros [= <- <-]; auto.
  - cbn [andb].
    assert (Hl : ∀ l f, (f = push_context_line l ∨ f = push_new_line l ∨ f = push_old_line l) →
      grows chunk_grows cs (on_last_chunk f cs)) by (intros; by eapply on_last_chunk_grows).
    pose proof (end_of_file_grows cs He) as Heof.
    repeat (first [done | case_match]); intros [= <- <-]; try (split; [by left|]); eauto 7.
    split; [right|done]. by destruct cs.
Qed.

Lemma handle_headers_grow n st t st' :
  handle_hunk_headers_and_end_patch n st t = Ok (Some st') → grows hunk_grows (hunks st) (hunks st').
Proof.
  assert (Hrefl : grows hunk_grows (hunks st) (hunks st)) by apply grows_refl, _.
  assert (Hsnoc : ∀ h, grows hunk_grows (hunks st) (hunks st ++ [h])) by (intros; apply grows_snoc, _).
  unfold handle_hunk_headers_and_end_patch.
  destruct (ensure_update_hunk_is_not_empty n st t); cbn [mbind result_bind];
    repeat (first [done | case_match]); intros [= <-]; simpl; auto.
Qed.

Lemma process_line_grows n st line st' :
  process_line n st line = Ok st' → grows hunk_grows (hunks st) (hunks st').
Proof.
  assert (Hrefl : grows hunk_grows (hunks st) (hunks st)) by apply grows_refl, _.
  unfold process_line. destruct (mode st) as [| | | |ln|].
  - case_match; [|done]. by intros [= <-].
  - destruct (handle_hunk_headers_and_end_patch _ _ _) as [[?|]|] eqn:E; try done.
    intros [= <-]. by eapply handle_headers_grow.
  - destruct (handle_hunk_headers_and_end_patch _ _ _) as [[?|]|] eqn:E; try done; cbn [mbind result_bind].
    { intros [= <-]. by eapply handle_headers_grow. }
    destruct (strip_prefix (str "+") line) as [l|]; [|done].
    destruct (last (hunks st)) as [[path contents|path|path mp cs]|] eqn:El; try done.
    intros [= <-]. simpl. apply last_Some in El as [hs El]. rewrite El, update_last_snoc.
    apply grows_last. split; [done|]. by apply prefix_app_r.
  - destruct (handle_hunk_headers_and_end_patch _ _ _) as [[?|]|] eqn:E; try done.
    intros [= <-]. by eapply handle_headers_grow.
  - destruct (handle_hunk_headers_and_end_patch _ _ _) as [[?|]|] eqn:E; try done; cbn [mbind result_bind].
    { intros [= <-]. by eapply handle_headers_grow. }
    destruct (last (hunks st)) as [[path contents|path|path mp cs]|] eqn:El; try done.
    destruct (process_update_line _ _ _ _ _) as [[mp' cs']|] eqn:Eu; [|done].
    intros [= <-]. simpl. apply last_Some in El as [hs El]. rewrite El, update_last_snoc.
    apply grows_last. split; [done|]. by eapply process_update_line_grows.
  - case_match; [|done]. by intros [= <-].
Qed.

(** ** Properties *)

(** every hunk of a successfully parsed patch is well formed: the contents
    of an added file are empty or end in a line feed, an update has at least one
    chunk, every chunk has at least one line, and the context positions recorded
    in a chunk are strictly increasing on both sides, in range, and name equal
    lines. *)
Theorem parse_patch_hunks_wf patch args :
  parse_patch patch = Ok args → Forall hunk_wf (arg_hunks args).
Proof. apply parse_patch_ok_wf. Qed.

Definition sample_patch : rstring :=
  join [LF] [BEGIN_PATCH_MARKER; UPDATE_FILE_MARKER ++ str "a.rs"; str " fn a() {";
             str "-  old"; str "+  new"; str " }"; END_PATCH_MARKER].

Definition sample_args : ApplyPatchArgs :=
  Eval vm_compute in
    match parse_patch sample_patch with Ok a => a | Err _ => mkArgs [] [] None None end.

Lemma sample_args_parsed : parse_patch sample_patch = Ok sample_args.
Proof. vm_compute. reflexivity. Qed.

Lemma parse_patch_hunks_wf_witness :
  length (arg_hunks sample_args) = 1 ∧ Forall hunk_wf (arg_hunks sample_args).
Proof. split; [reflexivity|]. apply (parse_patch_hunks_wf sample_patch), sample_args_parsed. Defined.
