(* ===== verification/PatchGrammar.v ===== *)
(** * The patch grammar and its round trip

    The header of [parser.rs] documents the patch format as a grammar.  This file
    states that grammar as an abstract syntax ([patch_doc]) with a printer and a
    meaning (the hunks it denotes), and proves that [parse_patch] accepts every
    printed document and returns exactly its meaning, and how far the streaming parser is
    while the document arrives in deltas. *)

From stdpp Require Import base list numbers strings.
From S2P Require Import Prelude PatchParser PatchSpec.

(** ** Abstract syntax *)
Inductive change_line :=
| CtxLine (l : rstring)
| AddLine (l : rstring)
| DelLine (l : rstring).

Inductive chunk_header :=
| NoHeader
| EmptyHeader
| CtxHeader (ctx : rstring).

Record patch_chunk := mkPatchChunk {
  pc_header : chunk_header;
  pc_lines : list change_line;
  pc_eof : bool
}.

Inductive patch_hunk :=
| PAdd (path : rstring) (ls : list rstring)
| PDelete (path : rstring)
| PUpdate (path : rstring) (mv : option rstring) (first : patch_chunk) (more : list patch_chunk).

Record patch_doc := mkPatchDoc {
  pd_env : option rstring;
  pd_hunks : list patch_hunk
}.

(** ** Printer: the lines of the document *)
Definition print_change_line (cl : change_line) : rstring :=
  match cl with
  | CtxLine l => 32%N :: l
  | AddLine l => 43%N :: l
  | DelLine l => 45%N :: l
  end.

Definition print_header (h : chunk_header) : list rstring :=
  match h with
  | NoHeader => []
  | EmptyHeader => [EMPTY_CHANGE_CONTEXT_MARKER]
  | CtxHeader ctx => [CHANGE_CONTEXT_MARKER ++ ctx]
  end.

Definition print_chunk (c : patch_chunk) : list rstring :=
  print_header (pc_header c) ++ map print_change_line (pc_lines c) ++
  (if pc_eof c then [EOF_MARKER] else []).

Definition print_hunk (h : patch_hunk) : list rstring :=
  match h with
  | PAdd path ls => (ADD_FILE_MARKER ++ path) :: map (cons 43%N) ls
  | PDelete path => [DELETE_FILE_MARKER ++ path]
  | PUpdate path mv first more =>
      (UPDATE_FILE_MARKER ++ path) ::
      match mv with Some m => [MOVE_TO_MARKER ++ m] | None => [] end ++
      concat (map print_chunk (first :: more))
  end.

Definition print_env (env : option rstring) : list rstring :=
  match env with Some id => [ENVIRONMENT_ID_MARKER ++ 32%N :: id] | None => [] end.

Definition print_doc_lines (d : patch_doc) : list rstring :=
  BEGIN_PATCH_MARKER :: print_env (pd_env d) ++ concat (map print_hunk (pd_hunks d)).

Definition print_doc (d : patch_doc) : rstring :=
  join [LF] (print_doc_lines d ++ [END_PATCH_MARKER]).

(** ** Meaning: the hunks of the document *)
Definition denote_change_line (cl : change_line) : UpdateFileChunk → UpdateFileChunk :=
  match cl with
  | CtxLine l => push_context_line l
  | AddLine l => push_new_line l
  | DelLine l => push_old_line l
  end.

Definition denote_header (h : chunk_header) : UpdateFileChunk :=
  mkChunk (match h with CtxHeader ctx => Some ctx | _ => None end) [] [] [] false.

Definition denote_chunk (c : patch_chunk) : UpdateFileChunk :=
  let k := foldl (flip denote_change_line) (denote_header (pc_header c)) (pc_lines c) in
  if pc_eof c then set_end_of_file k else k.

Definition denote_hunk (h : patch_hunk) : Hunk :=
  match h with
  | PAdd path ls => AddFile path (concat (map (λ l, l ++ [LF]) ls))
  | PDelete path => DeleteFile path
  | PUpdate path mv first more => UpdateFile path mv (map denote_chunk (first :: more))
  end.

(** ** Well-formed documents: what the line syntax can carry *)
Definition name_ok (s : rstring) : Prop := s ≠ [] ∧ no_trailing_ws s ∧ LF ∉ s.

Definition change_line_ok (cl : change_line) : Prop :=
  match cl with CtxLine l | AddLine l | DelLine l => plain_line l end.

Definition header_ok (h : chunk_header) : Prop :=
  match h with CtxHeader ctx => name_ok ctx | _ => True end.

Definition chunk_ok (c : patch_chunk) : Prop :=
  header_ok (pc_header c) ∧ pc_lines c ≠ [] ∧ Forall change_line_ok (pc_lines c).

Definition has_header (c : patch_chunk) : Prop := pc_header c ≠ NoHeader.

Definition patch_hunk_ok (h : patch_hunk) : Prop :=
  match h with
  | PAdd path ls => name_ok path ∧ Forall plain_line ls
  | PDelete path => name_ok path
  | PUpdate path mv first more =>
      name_ok path ∧ match mv with Some m => name_ok m | None => True end ∧
      chunk_ok first ∧ Forall chunk_ok more ∧ Forall has_header more
  end.

Definition env_ok (env : option rstring) : Prop :=
  match env with Some id => name_ok id ∧ no_leading_ws id | None => True end.

Definition doc_ok (d : patch_doc) : Prop :=
  env_ok (pd_env d) ∧ Forall patch_hunk_ok (pd_hunks d).

#[global] Instance name_ok_dec s : Decision (name_ok s).
Proof. unfold name_ok. apply _. Defined.
#[global] Instance change_line_ok_dec cl : Decision (change_line_ok cl).
Proof. destruct cl; unfold change_line_ok; apply _. Defined.
#[global] Instance header_ok_dec h : Decision (header_ok h).
Proof. destruct h; unfold header_ok; apply _. Defined.
#[global] Instance chunk_header_eq_dec : EqDecision chunk_header.
Proof. solve_decision. Defined.
#[global] Instance chunk_ok_dec c : Decision (chunk_ok c).
Proof. unfold chunk_ok. apply _. Defined.
#[global] Instance has_header_dec c : Decision (has_header c).
Proof. unfold has_header. apply _. Defined.
#[global] Instance patch_hunk_ok_dec h : Decision (patch_hunk_ok h).
Proof. destruct h as [| |? [] ? ?]; unfold patch_hunk_ok; apply _. Defined.
#[global] Instance env_ok_dec env : Decision (env_ok env).
Proof. destruct env; unfold env_ok; apply _. Defined.
#[global] Instance doc_ok_dec d : Decision (doc_ok d).
Proof. unfold doc_ok. apply _. Defined.

(** ** Running the parser over whole lines *)
Fixpoint run_lines (n : nat) (st : StreamingParserState) (ls : list rstring)
    : result ParseError StreamingParserState :=
  match ls with
  | [] => Ok st
  | l :: ls' => process_line (S n) st l ≫= λ st', run_lines (S n) st' ls'
  end.

Lemma run_lines_app n st ls1 ls2 :
  run_lines n st (ls1 ++ ls2) =
  run_lines n st ls1 ≫= λ st', run_lines (length ls1 + n) st' ls2.
Proof.
  revert n st. induction ls1 as [|l ls1 IH]; intros n st; [done|].
  cbn [app run_lines]. destruct (process_line _ _ _); simpl; [|done].
  rewrite IH. by rewrite Nat.add_succ_r.
Qed.

Lemma push_chars_no_lf p l :
  LF ∉ l → push_chars p l = (Ok tt, mkParser (line_buffer p ++ l) (state p) (line_number p)).
Proof.
  revert p. induction l as [|c l IH]; intros [b st n] Hin; simpl.
  - by rewrite app_nil_r.
  - apply not_elem_of_cons in Hin as [Hne Hin].
    destruct (N.eqb_spec c LF); [congruence|]. rewrite IH by done. simpl.
    by rewrite <- app_assoc.
Qed.

Lemma push_chars_line st n l rest :
  LF ∉ l →
  push_chars (mkParser [] st n) (l ++ LF :: rest) =
  match process_line (S n) st (strip_cr l) with
  | Ok st' => push_chars (mkParser [] st' (S n)) rest
  | Err e => (Err e, mkParser [] st (S n))
  end.
Proof.
  intros Hlf. rewrite push_chars_app, push_chars_no_lf by done. reflexivity.
Qed.

Lemma push_chars_lines st n ls st' :
  Forall plain_line ls → run_lines n st ls = Ok st' →
  push_chars (mkParser [] st n) (concat (map (λ l, l ++ [LF]) ls)) =
  (Ok tt, mkParser [] st' (length ls + n)).
Proof.
  intros Hls. revert n st. induction Hls as [|l ls Hl Hls IH]; intros n st; simpl.
  - by intros [= ->].
  - destruct Hl as [Hlf Hcr]. rewrite <- app_assoc. cbn [app].
    rewrite push_chars_line, strip_cr_id by done.
    destruct (process_line _ _ _); [|done]. simpl. intros Hrun.
    by rewrite (IH (S n)), Nat.add_succ_r.
Qed.

Lemma join_lf_snoc ls x :
  join [LF] (ls ++ [x]) = concat (map (λ l, l ++ [LF]) ls) ++ x.
Proof.
  induction ls as [|l ls IH]; [done|]. cbn [app map concat].
  rewrite join_cons by (by destruct ls). rewrite IH. by rewrite <- !app_assoc.
Qed.

(** ** Header lines *)
Lemma str_eqb_no_prefix s t : strip_prefix t s = None → str_eqb s t = false.
Proof.
  intros H. apply bool_decide_eq_false. intros ->.
  rewrite strip_prefix_None in H. apply (H []). by rewrite app_nil_r.
Qed.

(** None of the markers starts with another character than ['*']. *)
Lemma handle_headers_other n st t :
  head t ≠ Some 42%N → handle_hunk_headers_and_end_patch n st t = Ok None.
Proof.
  intros Hh. assert (∀ m, strip_prefix (42%N :: m) t = None) as Hp.
  { intros m. destruct t as [|c t]; [done|]. cbn [strip_prefix head] in *.
    destruct (N.eqb_spec 42 c); [congruence|done]. }
  unfold handle_hunk_headers_and_end_patch.
  rewrite (str_eqb_no_prefix t END_PATCH_MARKER) by apply Hp.
  change ENVIRONMENT_ID_MARKER with (42%N :: tail ENVIRONMENT_ID_MARKER).
  change ADD_FILE_MARKER with (42%N :: tail ADD_FILE_MARKER).
  change DELETE_FILE_MARKER with (42%N :: tail DELETE_FILE_MARKER).
  change UPDATE_FILE_MARKER with (42%N :: tail UPDATE_FILE_MARKER).
  rewrite !Hp. by destruct (mode st).
Qed.

Lemma trim_end_head c l :
  trim_end (c :: l) = [] ∨ head (trim_end (c :: l)) = Some c.
Proof.
  destruct (drop_end_while_prefix is_whitespace (c :: l)) as (t & Ht & _).
  fold (trim_end (c :: l)) in Ht. destruct (trim_end (c :: l)) as [|x s]; [by left|].
  right. simpl in *. congruence.
Qed.

Lemma trim_marker m s :
  no_leading_ws m → m ≠ [] → name_ok s → trim (m ++ s) = m ++ s ∧ trim_end (m ++ s) = m ++ s.
Proof.
  intros Hm Hne (Hs & Htr & _).
  assert (no_trailing_ws (m ++ s)) by auto with rstr.
  split; [|by apply trim_end_id]. apply trim_id; [|done]. by destruct m.
Qed.

(** A state from which a hunk header is accepted. *)
Definition ready (st : StreamingParserState) : Prop :=
  match mode st with
  | StartedPatch | ModeAddFile | ModeDeleteFile | ModeUpdateFile _ => True
  | _ => False
  end ∧ ∀ n line, ensure_update_hunk_is_not_empty n st line = Ok tt.

Lemma process_header n st m path h md :
  ready st → name_ok path → no_leading_ws m → m ≠ [] →
  handle_hunk_headers_and_end_patch n st (m ++ path) = Ok (Some (push_hunk h md st)) →
  process_line n st (m ++ path) = Ok (push_hunk h md st).
Proof.
  intros [Hmode _] Hp Hm Hne Hh. destruct (trim_marker m path Hm Hne Hp) as [Ht Hte].
  unfold process_line. rewrite Ht, Hte.
  destruct (mode st); try done; by rewrite Hh.
Qed.

Ltac solve_header Hens :=
  unfold handle_hunk_headers_and_end_patch;
  rewrite str_eqb_no_prefix by reflexivity;
  rewrite Hens;
  repeat (match goal with |- context [strip_prefix ?m (?m' ++ ?p)] =>
    first [ rewrite (strip_prefix_app m p)
          | change (strip_prefix m (m' ++ p)) with (@None rstring) ] end);
  simpl; by destruct (mode _).

Lemma process_add_header n st path :
  ready st → name_ok path →
  process_line n st (ADD_FILE_MARKER ++ path) = Ok (push_hunk (AddFile path []) ModeAddFile st).
Proof.
  intros Hr Hp. apply process_header; try done. destruct Hr as [Hm Hens]. solve_header Hens.
Qed.

Lemma process_delete_header n st path :
  ready st → name_ok path →
  process_line n st (DELETE_FILE_MARKER ++ path) = Ok (push_hunk (DeleteFile path) ModeDeleteFile st).
Proof.
  intros Hr Hp. apply process_header; try done. destruct Hr as [Hm Hens]. solve_header Hens.
Qed.

Lemma process_update_header n st path :
  ready st → name_ok path →
  process_line n st (UPDATE_FILE_MARKER ++ path) =
  Ok (push_hunk (UpdateFile path None []) (ModeUpdateFile n) st).
Proof.
  intros Hr Hp. apply process_header; try done. destruct Hr as [Hm Hens]. solve_header Hens.
Qed.

(** ** Body lines *)
Lemma process_add_line n hs env path contents l :
  process_line n (mkState ModeAddFile (hs ++ [AddFile path contents]) env) (43%N :: l) =
  Ok (mkState ModeAddFile (hs ++ [AddFile path (contents ++ l ++ [LF])]) env).
Proof.
  unfold process_line. cbn [mode]. rewrite handle_headers_other.
  - cbn [mbind result_bind hunks environment_id mode].
    change (strip_prefix (str "+") (43%N :: l)) with (Some l).
    by rewrite last_snoc, update_last_snoc.
  - unfold trim, trim_start. rewrite drop_while_cons_false by done.
    destruct (trim_end_head 43 l) as [-> | ->]; done.
Qed.

Lemma run_add_lines n hs env path contents ls :
  run_lines n (mkState ModeAddFile (hs ++ [AddFile path contents]) env) (map (cons 43%N) ls) =
  Ok (mkState ModeAddFile
        (hs ++ [AddFile path (contents ++ concat (map (λ l, l ++ [LF]) ls))]) env).
Proof.
  revert n contents. induction ls as [|l ls IH]; intros n contents; simpl.
  - by rewrite app_nil_r.
  - rewrite process_add_line. simpl. rewrite IH. by rewrite <- !app_assoc.
Qed.

(** In update mode a line is handled by [process_update_line] alone unless it is
    a header. *)
Lemma process_update_mode n k hs env path mv cs line mv' cs' :
  handle_hunk_headers_and_end_patch n
    (mkState (ModeUpdateFile k) (hs ++ [UpdateFile path mv cs]) env) (trim_end line) = Ok None →
  process_update_line n line (trim_end line) mv cs = Ok (mv', cs') →
  process_line n (mkState (ModeUpdateFile k) (hs ++ [UpdateFile path mv cs]) env) line =
  Ok (mkState (ModeUpdateFile k) (hs ++ [UpdateFile path mv' cs']) env).
Proof.
  intros Hh Hu. unfold process_line. cbn [mode]. rewrite Hh.
  cbn [mbind result_bind hunks environment_id]. rewrite last_snoc, Hu.
  cbn [mbind result_bind fst snd]. by rewrite update_last_snoc.
Qed.

Definition last_open (cs : list UpdateFileChunk) : Prop :=
  is_some_and (last cs) is_end_of_file = false.
Definition last_has_lines (cs : list UpdateFileChunk) : Prop :=
  is_some_and (last cs) chunk_has_no_lines = false.

Lemma print_change_line_head cl :
  ∃ c l, print_change_line cl = c :: l ∧ c ≠ 42%N ∧ c ≠ 64%N.
Proof. destruct cl as [l|l|l]; eexists _, l; (split; [reflexivity|done]). Qed.

Lemma strip_prefix_head_ne m c t : head t ≠ Some c → strip_prefix (c :: m) t = None.
Proof.
  destruct t as [|x t]; [done|]. cbn. intros H.
  destruct (N.eqb_spec c x); [congruence|done].
Qed.

Lemma process_change_line n cl mv cs :
  last_open cs →
  let line := print_change_line cl in
  process_update_line n line (trim_end line) mv cs =
  Ok (mv, on_last_chunk (denote_change_line cl) cs).
Proof.
  unfold last_open. intros Hopen. cbn zeta.
  destruct (print_change_line_head cl) as (c & l & Hc & Hne1 & Hne2).
  assert (head (trim_end (print_change_line cl)) ≠ Some 42%N ∧
          head (trim_end (print_change_line cl)) ≠ Some 64%N) as [H42 H64].
  { rewrite Hc. destruct (trim_end_head c l) as [-> | ->]; [done|]. split; congruence. }
  set (u := trim_end _) in *. unfold process_update_line.
  rewrite Hopen. unfold starts_with.
  change CHANGE_CONTEXT_MARKER with (64%N :: tail CHANGE_CONTEXT_MARKER).
  change MOVE_TO_MARKER with (42%N :: tail MOVE_TO_MARKER).
  rewrite !(strip_prefix_head_ne _ 64 u), !(strip_prefix_head_ne _ 42 u) by done.
  rewrite (str_eqb_no_prefix u EMPTY_CHANGE_CONTEXT_MARKER)
    by (by apply (strip_prefix_head_ne (tail EMPTY_CHANGE_CONTEXT_MARKER))).
  rewrite (str_eqb_no_prefix u EOF_MARKER)
    by (by apply (strip_prefix_head_ne (tail EOF_MARKER))).
  by destruct cl, (is_empty cs), mv.
Qed.

Lemma run_change_lines n k hs env path mv cs c cls :
  is_end_of_file c = false →
  run_lines n (mkState (ModeUpdateFile k) (hs ++ [UpdateFile path mv (cs ++ [c])]) env)
    (map print_change_line cls) =
  Ok (mkState (ModeUpdateFile k)
        (hs ++ [UpdateFile path mv (cs ++ [foldl (flip denote_change_line) c cls])]) env).
Proof.
  revert n c. induction cls as [|cl cls IH]; intros n c Hc; [done|]. cbn [map run_lines foldl].
  rewrite (process_update_mode _ _ _ _ _ _ _ _ mv (cs ++ [denote_change_line cl c])).
  - cbn [mbind result_bind]. apply IH. by destruct cl.
  - apply handle_headers_other.
    destruct (print_change_line_head cl) as (x & l & -> & Hx & _).
    destruct (trim_end_head x l) as [-> | ->]; [done|congruence].
  - rewrite process_change_line.
    + unfold on_last_chunk.
      replace (is_empty (cs ++ [c])) with false by (by destruct cs). by rewrite update_last_snoc.
    + unfold last_open. by rewrite last_snoc.
Qed.

Lemma denote_change_line_lines cl c : chunk_has_no_lines (denote_change_line cl c) = false.
Proof.
  unfold chunk_has_no_lines. destruct cl; simpl.
  - by destruct (old_lines c).
  - apply andb_false_iff. right. by destruct (new_lines c).
  - by destruct (old_lines c).
Qed.

Lemma foldl_change_lines cls c :
  is_end_of_file (foldl (flip denote_change_line) c cls) = is_end_of_file c ∧
  (cls ≠ [] → chunk_has_no_lines (foldl (flip denote_change_line) c cls) = false).
Proof.
  induction cls as [|cl cls IH] using rev_ind; [done|].
  rewrite foldl_app. simpl. destruct IH as [IH1 _]. split.
  - rewrite <- IH1. unfold flip. by destruct cl.
  - intros _. apply denote_change_line_lines.
Qed.

Lemma denote_chunk_lines c : pc_lines c ≠ [] → chunk_has_no_lines (denote_chunk c) = false.
Proof.
  intros H. unfold denote_chunk.
  destruct (foldl_change_lines (pc_lines c) (denote_header (pc_header c))) as [_ Hl].
  specialize (Hl H). by destruct (pc_eof c).
Qed.

Section chunks.
Context (k : nat) (hs : list Hunk) (env : option rstring) (path : rstring) (mv : option rstring).
Implicit Types (cs : list UpdateFileChunk).

Let upd cs := mkState (ModeUpdateFile k) (hs ++ [UpdateFile path mv cs]) env.

Lemma process_chunk_header n cs h l :
  last_has_lines cs → header_ok h → print_header h = [l] →
  process_line n (upd cs) l = Ok (upd (cs ++ [denote_header h])).
Proof.
  unfold last_has_lines. intros Hl Hok Hp. unfold upd.
  destruct h as [| |ctx]; [done|..].
  - assert (l = EMPTY_CHANGE_CONTEXT_MARKER) as -> by (by injection Hp). apply process_update_mode; [reflexivity|].
    change (trim_end EMPTY_CHANGE_CONTEXT_MARKER) with EMPTY_CHANGE_CONTEXT_MARKER.
    unfold process_update_line. rewrite str_eqb_refl, Hl. cbn [orb negb andb].
    rewrite !andb_false_r. by destruct (is_empty cs), mv.
  - assert (l = CHANGE_CONTEXT_MARKER ++ ctx) as -> by (by injection Hp).
    destruct (trim_marker CHANGE_CONTEXT_MARKER ctx) as [_ Ht]; [done..|].
    apply process_update_mode; rewrite Ht; [by apply handle_headers_other|].
    unfold process_update_line. rewrite starts_with_app, strip_prefix_app, Hl.
    rewrite orb_true_r. cbn [negb andb]. rewrite !andb_false_r.
    replace (str_eqb _ _) with false.
    + by destruct (is_empty cs), mv.
    + symmetry. apply bool_decide_eq_false. intros H%(f_equal length).
      rewrite length_app in H. simpl in H. lia.
Qed.

Lemma process_eof n cs c :
  is_end_of_file c = false → chunk_has_no_lines c = false →
  process_line n (upd (cs ++ [c])) EOF_MARKER = Ok (upd (cs ++ [set_end_of_file c])).
Proof.
  intros He Hn. apply process_update_mode; [reflexivity|].
  change (trim_end EOF_MARKER) with EOF_MARKER. unfold process_update_line.
  rewrite last_snoc. cbn [is_some_and]. rewrite He, Hn.
  replace (is_empty (cs ++ [c])) with false by (by destruct cs).
  rewrite update_last_snoc. reflexivity.
Qed.

Lemma run_chunk n cs c :
  last_has_lines cs → has_header c ∨ cs = [] → chunk_ok c →
  run_lines n (upd cs) (print_chunk c) = Ok (upd (cs ++ [denote_chunk c])).
Proof.
  intros Hl Hhead (Hhd & Hne & Hls). unfold print_chunk. rewrite run_lines_app.
  pose proof (foldl_change_lines (pc_lines c) (denote_header (pc_header c))) as [Heof Hlines].
  specialize (Hlines Hne).
  assert (∀ m, run_lines m (upd (cs ++ [foldl (flip denote_change_line)
      (denote_header (pc_header c)) (pc_lines c)])) (if pc_eof c then [EOF_MARKER] else []) =
    Ok (upd (cs ++ [denote_chunk c]))) as Hend.
  { intros m. unfold denote_chunk. destruct (pc_eof c); [|done]. cbn [run_lines].
    by rewrite process_eof. }
  destruct (pc_header c) as [| |ctx] eqn:Eh.
  - destruct Hhead as [Hh| ->]; [by unfold has_header in Hh; rewrite Eh in Hh|].
    cbn [print_header run_lines mbind result_bind length Nat.add].
    destruct (pc_lines c) as [|cl cls]; [done|].
    rewrite run_lines_app. cbn [map run_lines]. unfold upd at 1.
    rewrite (process_update_mode _ _ _ _ _ _ _ _ mv [denote_change_line cl default_chunk]).
    + cbn [mbind result_bind].
      rewrite (run_change_lines _ _ _ _ _ _ [] (denote_change_line cl default_chunk) cls)
        by (by destruct cl).
      apply Hend.
    + apply handle_headers_other.
      destruct (print_change_line_head cl) as (x & l & -> & Hx & _).
      destruct (trim_end_head x l) as [-> | ->]; [done|congruence].
    + by rewrite process_change_line.
  - cbn [print_header run_lines].
    rewrite (process_chunk_header _ _ EmptyHeader) by done. cbn [mbind result_bind].
    rewrite run_lines_app. unfold upd at 1. rewrite run_change_lines by done. apply Hend.
  - cbn [print_header run_lines].
    rewrite (process_chunk_header _ _ (CtxHeader ctx)) by done. cbn [mbind result_bind].
    rewrite run_lines_app. unfold upd at 1. rewrite run_change_lines by done. apply Hend.
Qed.

Lemma run_chunks n cs more :
  last_has_lines cs → Forall chunk_ok more → Forall has_header more →
  run_lines n (upd cs) (concat (map print_chunk more)) =
  Ok (upd (cs ++ map denote_chunk more)).
Proof.
  intros Hl Hok. revert n cs Hl. induction Hok as [|c more Hc Hok IH]; intros n cs Hl Hh.
  - cbn. by rewrite app_nil_r.
  - apply Forall_cons in Hh as [Hh1 Hh]. cbn [map concat]. rewrite run_lines_app.
    rewrite run_chunk by eauto. cbn [mbind result_bind]. rewrite IH; [| |done].
    + by rewrite <- app_assoc.
    + unfold last_has_lines. rewrite last_snoc. simpl.
      destruct Hc as (_ & Hne & _). by apply denote_chunk_lines.
Qed.
End chunks.

(** ** Hunks and documents *)
Lemma ready_last st m h :
  m ≠ NotStarted → m ≠ EndedPatch →
  match h with
  | UpdateFile _ _ chunks => chunks ≠ [] ∧ last_has_lines chunks
  | _ => True
  end → ∀ hs, ready (mkState m (hs ++ [h]) st).
Proof.
  intros Hm1 Hm2 Hh hs. split; [by destruct m|]. intros n line.
  unfold ensure_update_hunk_is_not_empty. cbn [hunks mode]. rewrite last_snoc.
  destruct h as [|?|path mv cs]; [done..|]. destruct Hh as [Hne Hl].
  unfold last_has_lines in Hl. rewrite Hl. by destruct cs.
Qed.

Lemma run_hunk n st h :
  ready st → patch_hunk_ok h →
  ∃ m, run_lines n st (print_hunk h) =
       Ok (mkState m (hunks st ++ [denote_hunk h]) (environment_id st)) ∧
       ready (mkState m (hunks st ++ [denote_hunk h]) (environment_id st)).
Proof.
  intros Hr Hok. destruct h as [path ls|path|path mv first more].
  - destruct Hok as [Hp _]. exists ModeAddFile. split; [|by apply ready_last].
    cbn [print_hunk run_lines]. rewrite process_add_header by done. cbn [mbind result_bind].
    apply (run_add_lines _ _ _ path []).
  - exists ModeDeleteFile. split; [|by apply ready_last].
    cbn [print_hunk run_lines]. by rewrite process_delete_header.
  - destruct Hok as (Hp & Hmv & Hf & Hm & Hh). exists (ModeUpdateFile (S n)). split.
    + cbn [print_hunk run_lines]. rewrite process_update_header by done. cbn [mbind result_bind].
      rewrite run_lines_app. unfold push_hunk.
      assert (run_lines (S n) (mkState (ModeUpdateFile (S n))
          (hunks st ++ [UpdateFile path None []]) (environment_id st))
          match mv with Some m => [MOVE_TO_MARKER ++ m] | None => [] end =
        Ok (mkState (ModeUpdateFile (S n))
          (hunks st ++ [UpdateFile path mv []]) (environment_id st))) as ->.
      { destruct mv as [m|]; [|done]. cbn [run_lines].
        destruct (trim_marker MOVE_TO_MARKER m) as [_ Ht]; [done..|].
        rewrite (process_update_mode _ _ _ _ _ _ _ _ (Some m) []); [done|rewrite Ht..].
        - unfold handle_hunk_headers_and_end_patch. by rewrite str_eqb_no_prefix.
        - unfold process_update_line. by rewrite strip_prefix_app. }
      cbn [mbind result_bind map concat]. rewrite run_lines_app.
      rewrite (run_chunk _ _ _ _ _ _ []); [|done|by right|done]. cbn [mbind result_bind].
      rewrite run_chunks; [done| |done|done].
      destruct Hf as (_ & Hne & _). by apply denote_chunk_lines.
    + apply ready_last; [done..|]. split; [done|]. unfold last_has_lines.
      assert (Forall (λ c, chunk_has_no_lines c = false) (map denote_chunk (first :: more))) as Hall.
      { apply Forall_fmap. apply Forall_cons. split.
        - destruct Hf as (_ & Hne & _). by apply denote_chunk_lines.
        - eapply Forall_impl; [exact Hm|]. intros c (_ & Hne & _). by apply denote_chunk_lines. }
      destruct (last _) as [c|] eqn:El; [|done]. apply last_Some in El as [cs El].
      rewrite El in Hall. apply Forall_app in Hall as [_ Hall].
      simpl. by inversion Hall.
Qed.

Lemma run_hunks n st hs :
  ready st → Forall patch_hunk_ok hs →
  ∃ m, run_lines n st (concat (map print_hunk hs)) =
       Ok (mkState m (hunks st ++ map denote_hunk hs) (environment_id st)) ∧
       ready (mkState m (hunks st ++ map denote_hunk hs) (environment_id st)).
Proof.
  intros Hr Hok. revert n st Hr. induction Hok as [|h hs Hh Hok IH]; intros n st Hr.
  - exists (mode st). cbn. rewrite app_nil_r. by destruct st.
  - cbn [map concat]. destruct (run_hunk n st h Hr Hh) as (m & Hrun & Hr').
    rewrite run_lines_app, Hrun. cbn [mbind result_bind].
    destruct (IH (length (print_hunk h) + n) _ Hr') as (m' & Hrun' & Hr'').
    exists m'. cbn [hunks environment_id] in *. rewrite <- app_assoc in *. done.
Qed.

(** *** Every printed line is a plain line *)
Lemma no_trailing_ws_not_cr s : no_trailing_ws s → last s ≠ Some CR.
Proof. unfold no_trailing_ws. intros H E. by rewrite E in H. Qed.

Lemma plain_marker m s : LF ∉ m → name_ok s → plain_line (m ++ s).
Proof.
  intros Hm (Hne & Htr & Hlf). split.
  - rewrite elem_of_app. naive_solver.
  - apply no_trailing_ws_not_cr. auto with rstr.
Qed.

Lemma plain_cons c l : c ≠ LF → c ≠ CR → plain_line l → plain_line (c :: l).
Proof.
  intros H1 H2 [Hlf Hcr]. split; [by apply not_elem_of_cons|].
  destruct l; simpl in *; congruence.
Qed.

Ltac not_lf := by apply (bool_decide_unpack _); vm_compute.

Lemma print_chunk_plain c : chunk_ok c → Forall plain_line (print_chunk c).
Proof.
  intros (Hh & _ & Hls). unfold print_chunk. rewrite !Forall_app. split_and!.
  - destruct (pc_header c) as [| |ctx]; repeat constructor; try not_lf.
    all: apply (plain_marker CHANGE_CONTEXT_MARKER ctx); [not_lf|done].
  - apply Forall_fmap. eapply Forall_impl; [done|].
    intros [l|l|l] Hl; by apply plain_cons.
  - destruct (pc_eof c); repeat constructor; not_lf.
Qed.

Lemma print_hunk_plain h : patch_hunk_ok h → Forall plain_line (print_hunk h).
Proof.
  destruct h as [path ls|path|path mv first more]; cbn [patch_hunk_ok print_hunk].
  - intros [Hp Hls]. constructor; [apply plain_marker; [not_lf|done]|].
    apply Forall_fmap. eapply Forall_impl; [done|]. intros l Hl. by apply plain_cons.
  - intros Hp. constructor; [apply plain_marker; [not_lf|done]|constructor].
  - intros (Hp & Hmv & Hf & Hm & _). constructor; [apply plain_marker; [not_lf|done]|].
    apply Forall_app. split.
    + destruct mv as [m|]; [|constructor]. apply Forall_singleton.
      by apply plain_marker; [not_lf|].
    + apply Forall_concat, Forall_fmap. apply Forall_cons. split; [by apply print_chunk_plain|].
      eapply Forall_impl; [exact Hm|]. intros c Hc. by apply print_chunk_plain.
Qed.

Lemma print_doc_lines_plain d : doc_ok d → Forall plain_line (print_doc_lines d).
Proof.
  intros [Henv Hh]. constructor; [split; not_lf|]. apply Forall_app. split.
  - destruct (pd_env d) as [id|] eqn:E; [|constructor]. apply Forall_singleton.
    destruct Henv as [(Hne & Htr & Hlf) _].
    change (plain_line ((ENVIRONMENT_ID_MARKER ++ [32%N]) ++ id)).
    apply plain_marker; [not_lf|done].
  - apply Forall_concat, Forall_fmap. eapply Forall_impl; [exact Hh|].
    intros h Hok. by apply print_hunk_plain.
Qed.

Lemma run_env n env :
  env_ok env →
  run_lines n (mkState StartedPatch [] None) (print_env env) = Ok (mkState StartedPatch [] env).
Proof.
  intros Hok. destruct env as [id|]; [|done]. destruct Hok as [(Hne & Htr & Hlf) Hld].
  cbn [print_env run_lines]. unfold process_line. cbn [mode].
  rewrite (trim_id (ENVIRONMENT_ID_MARKER ++ 32%N :: id)); [|done|].
  - unfold handle_hunk_headers_and_end_patch. cbn [mode]. rewrite strip_prefix_app.
    cbn [environment_id]. 
    assert (trim (32%N :: id) = id) as ->.
    { unfold trim. change (trim_start (32%N :: id)) with (trim_start id).
      rewrite trim_start_id by done. by apply trim_end_id. }
    by destruct id.
  - change (no_trailing_ws ((ENVIRONMENT_ID_MARKER ++ [32%N]) ++ id)). auto with rstr.
Qed.

Lemma run_doc d :
  doc_ok d → ∃ m,
  run_lines 0 (mkState NotStarted [] None) (print_doc_lines d) =
    Ok (mkState m (map denote_hunk (pd_hunks d)) (pd_env d)) ∧
  ready (mkState m (map denote_hunk (pd_hunks d)) (pd_env d)).
Proof.
  intros [Henv Hh]. unfold print_doc_lines. cbn [run_lines].
  change (process_line 1 _ BEGIN_PATCH_MARKER)
    with (@Ok ParseError _ (mkState StartedPatch [] None)).
  cbn [mbind result_bind]. rewrite run_lines_app, run_env by done. cbn [mbind result_bind].
  by apply (run_hunks _ (mkState StartedPatch [] (pd_env d))).
Qed.

Lemma finish_end_marker st n :
  (∀ k line, ensure_update_hunk_is_not_empty k st line = Ok tt) →
  finish (mkParser END_PATCH_MARKER st n) =
  (Ok (hunks st), mkParser [] (set_mode EndedPatch st) (S n)).
Proof.
  intros Hens. unfold finish.
  assert (finish_line_buffer (mkParser END_PATCH_MARKER st n) =
    match ensure_update_hunk_is_not_empty (S n) st (trim END_PATCH_MARKER) ≫=
      λ _, Ok (set_mode EndedPatch st) with
    | Ok st' => (Ok tt, mkParser [] st' (S n))
    | Err e => (Err e, mkParser [] st (S n))
    end) as -> by reflexivity.
  by rewrite Hens.
Qed.

(** The document once its boundaries have been checked. *)
Lemma parse_checked_doc d :
  doc_ok d →
  match push_delta default_parser (print_doc d) with
  | (Err e, _) => Err e
  | (Ok _, p) =>
      match finish p with
      | (Err e, _) => Err e
      | (Ok hs, p') => Ok (mkArgs (print_doc d) hs None (environment_id (state p')))
      end
  end = Ok (mkArgs (print_doc d) (map denote_hunk (pd_hunks d)) None (pd_env d)).
Proof.
  intros Hok. destruct (run_doc d Hok) as (m & Hrun & Hm & Hens).
  unfold print_doc. rewrite join_lf_snoc. unfold push_delta. rewrite push_chars_app.
  unfold default_parser.
  rewrite (push_chars_lines _ _ _ _ (print_doc_lines_plain d Hok) Hrun).
  rewrite push_chars_no_lf by not_lf. cbn [line_buffer state line_number app].
  rewrite finish_end_marker by done. reflexivity.
Qed.

Lemma check_doc_boundaries d :
  check_patch_boundaries_strict (print_doc_lines d ++ [END_PATCH_MARKER]) =
  Ok (print_doc_lines d ++ [END_PATCH_MARKER]).
Proof.
  unfold check_patch_boundaries_strict. rewrite last_snoc.
  change (head (print_doc_lines d ++ [END_PATCH_MARKER])) with (Some BEGIN_PATCH_MARKER).
  reflexivity.
Qed.

Definition heredoc_open : rstring := str "<<'EOF'".
Definition heredoc_close : rstring := str "EOF".

Lemma lenient_heredoc ls e :
  check_patch_boundaries_strict ((heredoc_open :: ls) ++ [heredoc_close]) = Err e →
  2 ≤ length ls →
  check_patch_boundaries_lenient ((heredoc_open :: ls) ++ [heredoc_close]) =
  check_patch_boundaries_strict ls.
Proof.
  intros He Hlen. unfold check_patch_boundaries_lenient. rewrite He.
  destruct ls as [|a ls]; [simpl in Hlen; lia|]. cbn [app].
  change (heredoc_open :: a :: ls ++ [heredoc_close])
    with ((heredoc_open :: a :: ls) ++ [heredoc_close]).
  rewrite (last_snoc heredoc_close (heredoc_open :: a :: ls)).
  assert (4 <=? length ((heredoc_open :: a :: ls) ++ [heredoc_close]) = true) as ->.
  { apply Nat.leb_le. rewrite length_app. simpl in *. lia. }
  assert (take (length ((heredoc_open :: a :: ls) ++ [heredoc_close]) - 2)
      (drop 1 ((heredoc_open :: a :: ls) ++ [heredoc_close])) = a :: ls) as ->; [|reflexivity].
  rewrite length_app. cbn [app drop length].
  replace (S (S (length ls)) + 1 - 2) with (S (length ls)) by lia. cbn [take]. f_equal.
  rewrite take_app_le by done. by apply take_ge.
Qed.

(** ** Deltas: the text is read line by line, however it is split *)

(** The complete lines of a text and the line under way. *)
Definition complete_lines (text : rstring) : list rstring := map strip_cr (removelast (split_on LF text)).
Definition open_line (text : rstring) : rstring := default [] (last (split_on LF text)).

Lemma split_lines_snoc text :
  ∃ ps, split_on LF text = ps ++ [open_line text] ∧ complete_lines text = map strip_cr ps.
Proof.
  unfold complete_lines, open_line. destruct (split_on LF text) as [|x ps _] eqn:E using rev_ind.
  { by apply split_on_not_nil in E. }
  exists ps. by rewrite last_snoc, removelast_last.
Qed.

Lemma push_chars_pieces ps x st n :
  Forall (λ p, LF ∉ p) ps → LF ∉ x →
  match run_lines n st (map strip_cr ps) with
  | Ok st' => push_chars (mkParser [] st n) (join [LF] (ps ++ [x])) = (Ok tt, mkParser x st' (length ps + n))
  | Err e => ∃ p, push_chars (mkParser [] st n) (join [LF] (ps ++ [x])) = (Err e, p)
  end.
Proof.
  intros Hps Hx. revert st n. induction Hps as [|p ps Hp Hps IH]; intros st n.
  { simpl. by rewrite push_chars_no_lf. }
  cbn [map run_lines app]. rewrite join_cons by (by destruct ps). cbn [app].
  rewrite push_chars_line by done. destruct (process_line _ _ _) as [st'|e]; cbn [mbind result_bind]; [|by eexists].
  specialize (IH st' (S n)). destruct (run_lines _ _ _); [|done]. rewrite IH. simpl. by rewrite Nat.add_succ_r.
Qed.

Lemma push_deltas_chars p ds :
  push_deltas p ds =
  match push_chars p (concat ds) with
  | (Ok _, p') => (Ok (hunks (state p')), p')
  | (Err e, p') => (Err e, p')
  end.
Proof.
  revert p. induction ds as [|d ds IH]; intros p; [done|]. cbn [push_deltas concat].
  unfold push_delta. rewrite push_chars_app. destruct (push_chars p d) as [[[]|e] p']; [apply IH|done].
Qed.

Lemma push_deltas_lines ds st :
  run_lines 0 (state default_parser) (complete_lines (concat ds)) = Ok st →
  push_deltas default_parser ds =
    (Ok (hunks st), mkParser (open_line (concat ds)) st (length (complete_lines (concat ds)))).
Proof.
  intros Hrun. rewrite push_deltas_chars. destruct (split_lines_snoc (concat ds)) as (ps & Hs & Hc).
  assert (Hall : Forall (λ p, LF ∉ p) (ps ++ [open_line (concat ds)])).
  { rewrite <- Hs. apply Forall_forall. intros p. apply split_on_elem. }
  apply Forall_app in Hall as [Hps Hx]. rewrite Forall_singleton in Hx.
  pose proof (push_chars_pieces ps _ (state default_parser) 0 Hps Hx) as Hp.
  rewrite Hc in Hrun. rewrite Hrun, <- Hs, join_split_on in Hp. change (mkParser [] (state default_parser) 0) with default_parser in Hp. rewrite Hp.
  by rewrite Hc, Nat.add_0_r, length_map.
Qed.

(** The complete lines of the first part of a text are the first complete lines. *)
Lemma complete_lines_prefix t u : complete_lines t `prefix_of` complete_lines (t ++ u).
Proof.
  destruct (split_lines_snoc t) as (ps & Hs & ->). rewrite <- (join_split_on LF t), Hs.
  unfold complete_lines. destruct ps as [|p ps]; [apply prefix_nil|].
  rewrite join_lf_snoc, <- app_assoc.
  assert (Hall : Forall (λ q, LF ∉ q) ((p :: ps) ++ [open_line t])).
  { rewrite <- Hs. apply Forall_forall. intros q. apply split_on_elem. }
  apply Forall_app in Hall as [Hps _]. revert Hps. generalize (p :: ps) as qs. intros qs Hqs.
  assert (Hsp : split_on LF (concat (map (λ l, l ++ [LF]) qs) ++ open_line t ++ u) =
    qs ++ split_on LF (open_line t ++ u)).
  { induction Hqs as [|q qs Hq Hqs IH]; [done|]. cbn [map concat]. rewrite <- !app_assoc. cbn [app].
    rewrite split_on_app by done. by rewrite IH. }
  rewrite Hsp, removelast_app by apply split_on_not_nil. rewrite map_app. by apply prefix_app_r.
Qed.

Lemma run_lines_grows n st ls st' :
  run_lines n st ls = Ok st' → grows hunk_grows (hunks st) (hunks st').
Proof.
  revert n st. induction ls as [|l ls IH]; intros n st; cbn [run_lines].
  - intros [= ->]. apply grows_refl, _.
  - destruct (process_line _ _ _) as [st1|] eqn:E; [|done]. cbn [mbind result_bind]. intros Hr.
    eapply grows_trans; [apply _|by eapply process_line_grows|by eapply IH].
Qed.

Lemma trim_end_marker x : strip_cr x = END_PATCH_MARKER → trim x = END_PATCH_MARKER.
Proof.
  unfold strip_cr. destruct (strip_suffix [CR] x) as [r|] eqn:E; [|by intros ->].
  intros ->. apply strip_suffix_Some in E as ->. by vm_compute.
Qed.

Lemma finish_marker_line x st n :
  strip_cr x = END_PATCH_MARKER → (∀ k line, ensure_update_hunk_is_not_empty k st line = Ok tt) →
  finish (mkParser x st n) = (Ok (hunks st), mkParser [] (set_mode EndedPatch st) (S n)).
Proof.
  intros Hx Hens. unfold finish, finish_line_buffer. cbn [line_buffer state line_number].
  destruct x as [|c x]; [by vm_compute in Hx|]. rewrite (trim_end_marker _ Hx).
  assert (str_eqb END_PATCH_MARKER END_PATCH_MARKER = true) as -> by done. by rewrite Hens.
Qed.

(** ** Properties *)

(** C3: [parse_patch] inverts the printer of the documented patch grammar: every
    well-formed document prints to a text that parses, in lenient mode, to
    exactly the hunks and the environment id the document denotes, with the
    printed text kept as the patch. *)
Theorem parse_print_roundtrip d :
  doc_ok d →
  parse_patch (print_doc d) =
  Ok (mkArgs (print_doc d) (map denote_hunk (pd_hunks d)) None (pd_env d)).
Proof.
  intros Hok. unfold parse_patch, parse_patch_text. cbn [PARSE_IN_STRICT_MODE].
  unfold print_doc at 1. rewrite trim_id;
    [|by apply no_leading_ws_join|by apply no_trailing_ws_join].
  rewrite lines_join; [|by apply print_doc_lines_plain|not_lf|done].
  unfold check_patch_boundaries_lenient. rewrite check_doc_boundaries. cbn [mbind result_bind].
  by apply parse_checked_doc.
Qed.

(** A document with every construct: an environment id, an added, a deleted and a
    moved and updated file with two chunks. *)
Definition sample_doc : patch_doc :=
  mkPatchDoc (Some (str "env-1"))
    [ PAdd (str "src/hello.txt") [str "hello"; []; str "world"];
      PDelete (str "gone.txt");
      PUpdate (str "src/old.rs") (Some (str "src/new.rs"))
        (mkPatchChunk NoHeader [CtxLine (str "fn main() {"); DelLine (str "  old();")] false)
        [mkPatchChunk (CtxHeader (str "fn tail()"))
           [AddLine (str "  new();"); CtxLine (str "}")] true] ].

Lemma sample_doc_ok : doc_ok sample_doc.
Proof. apply (bool_decide_unpack _). vm_compute. exact I. Qed.

Lemma parse_print_roundtrip_witness :
  doc_ok sample_doc ∧
  parse_patch (print_doc sample_doc) =
  Ok (mkArgs (print_doc sample_doc) (map denote_hunk (pd_hunks sample_doc)) None
        (Some (str "env-1"))).
Proof. split; [apply sample_doc_ok|apply (parse_print_roundtrip sample_doc), sample_doc_ok]. Defined.

(** C6: A patch that arrives in deltas.  Let the deltas, however they are cut, make up the
    text of a well-formed document, its lines ending in [LF] or [CR LF], with no line end
    after the last one.  After any number of deltas the parser has read exactly the complete lines and buffers the line under
    way, and the hunks it reports are the final ones up to the one being read, of which it
    reports a part: nothing reported is ever taken back.  After the last delta all hunks
    are reported, and [finish] returns the hunks and the environment id the document
    denotes. *)
Theorem streamed_patch_progress d ds :
  doc_ok d → map strip_cr (split_on LF (concat ds)) = print_doc_lines d ++ [END_PATCH_MARKER] →
  (∀ k, let text := concat (take k ds) in ∃ st,
     run_lines 0 (state default_parser) (complete_lines text) = Ok st ∧
     push_deltas default_parser (take k ds) =
       (Ok (hunks st), mkParser (open_line text) st (length (complete_lines text))) ∧
     grows hunk_grows (hunks st) (map denote_hunk (pd_hunks d))) ∧
  ∃ p p', push_deltas default_parser ds = (Ok (map denote_hunk (pd_hunks d)), p) ∧
    finish p = (Ok (map denote_hunk (pd_hunks d)), p') ∧ environment_id (state p') = pd_env d.
Proof.
  intros Hok Htext. destruct (run_doc d Hok) as (m & Hrun & _ & Hens).
  destruct (split_lines_snoc (concat ds)) as (ps & Hs & Hc). rewrite Hs, map_app in Htext.
  apply app_inj_tail in Htext as [Hps Hx]. rewrite Hps in Hc. split.
  - intros k text. destruct (complete_lines_prefix text (concat (drop k ds))) as [rest Hr].
    unfold text in Hr. rewrite <- concat_app, take_drop, Hc in Hr. fold text in Hr.
    rewrite Hr, run_lines_app in Hrun.
    destruct (run_lines 0 _ (complete_lines text)) as [st|] eqn:E; [|done]. exists st.
    split_and!; [done|by apply push_deltas_lines|]. by apply run_lines_grows in Hrun.
  - rewrite <- Hc in Hrun. rewrite (push_deltas_lines ds _ Hrun). eexists _, _. split_and!; [done| |].
    + by apply finish_marker_line.
    + done.
Qed.

(** The sample document with [CR LF] line ends, cut in the middle of lines and between
    the [CR] and the [LF]. *)
Definition sample_deltas : list rstring :=
  let text := join [CR; LF] (print_doc_lines sample_doc ++ [END_PATCH_MARKER]) in
  [take 7 text; take 9 (drop 7 text); take 60 (drop 16 text); drop 76 text].

Lemma streamed_patch_progress_witness :
  let text := concat (take 3 sample_deltas) in
  (∃ st, run_lines 0 (state default_parser) (complete_lines text) = Ok st ∧
     push_deltas default_parser (take 3 sample_deltas) =
       (Ok (hunks st), mkParser (open_line text) st (length (complete_lines text))) ∧
     grows hunk_grows (hunks st) (map denote_hunk (pd_hunks sample_doc))) ∧
  ∃ p p', push_deltas default_parser sample_deltas = (Ok (map denote_hunk (pd_hunks sample_doc)), p) ∧
    finish p = (Ok (map denote_hunk (pd_hunks sample_doc)), p') ∧
    environment_id (state p') = Some (str "env-1").
Proof.
  intros text. assert (Htext : map strip_cr (split_on LF (concat sample_deltas)) =
    print_doc_lines sample_doc ++ [END_PATCH_MARKER]) by (vm_compute; reflexivity).
  destruct (streamed_patch_progress sample_doc sample_deltas sample_doc_ok Htext) as [Hk Hend].
  split; [exact (Hk 3)|exact Hend].
Defined.

(** the lenient mode is transparent for a heredoc wrapper: a document between
    the lines [<<'EOF'] and [EOF] parses to the same hunks and the same patch
    text as the bare document, although the strict mode rejects it. *)
Theorem parse_heredoc_transparent d :
  doc_ok d →
  let text := join [LF] (heredoc_open :: print_doc_lines d ++ [END_PATCH_MARKER; heredoc_close]) in
  parse_patch text =
    Ok (mkArgs (print_doc d) (map denote_hunk (pd_hunks d)) None (pd_env d)) ∧
  parse_patch_text text Strict = Err (InvalidPatchError FIRST_LINE_ERROR).
Proof.
  intros Hok. cbn zeta.
  replace (heredoc_open :: print_doc_lines d ++ [END_PATCH_MARKER; heredoc_close])
    with ((heredoc_open :: print_doc_lines d ++ [END_PATCH_MARKER]) ++ [heredoc_close])
    by (simpl; by rewrite <- app_assoc).
  set (ls := print_doc_lines d ++ [END_PATCH_MARKER]).
  assert (Forall plain_line (heredoc_open :: ls)) as Hpl.
  { constructor; [split; not_lf|]. apply Forall_app. split; [by apply print_doc_lines_plain|].
    constructor; [split; not_lf|constructor]. }
  assert (check_patch_boundaries_strict ((heredoc_open :: ls) ++ [heredoc_close]) =
          Err (InvalidPatchError FIRST_LINE_ERROR)) as Hstrict.
  { unfold check_patch_boundaries_strict.
    rewrite (last_snoc heredoc_close (heredoc_open :: ls)). reflexivity. }
  unfold parse_patch, parse_patch_text. cbn [PARSE_IN_STRICT_MODE].
  rewrite trim_id; [|by apply no_leading_ws_join|by apply no_trailing_ws_join].
  rewrite lines_join by (try done; not_lf). split; [|by rewrite Hstrict].
  rewrite (lenient_heredoc _ _ Hstrict).
  - unfold ls. rewrite check_doc_boundaries. by apply parse_checked_doc.
  - unfold ls, print_doc_lines. rewrite length_app. simpl. lia.
Qed.

Lemma parse_heredoc_transparent_witness :
  parse_patch (join [LF] (heredoc_open :: print_doc_lines sample_doc ++
    [END_PATCH_MARKER; heredoc_close])) =
  Ok (mkArgs (print_doc sample_doc) (map denote_hunk (pd_hunks sample_doc)) None
        (Some (str "env-1"))).
Proof. apply (parse_heredoc_transparent sample_doc), sample_doc_ok. Defined.

(** a hunk that only renames a file is rejected: the grammar documented in
    [parser.rs] makes the changes of an update hunk optional, but the parser
    reports the hunk as empty, at the line of its header. *)
Theorem parse_rename_only_rejected path target :
  name_ok path → name_ok target →
  parse_patch (join [LF] [BEGIN_PATCH_MARKER; UPDATE_FILE_MARKER ++ path;
                          MOVE_TO_MARKER ++ target; END_PATCH_MARKER]) =
  Err (InvalidHunkError (empty_hunk_error path) 2).
Proof.
  intros Hp Hm. pose proof (plain_marker UPDATE_FILE_MARKER path ltac:(not_lf) Hp) as Hpl1.
  pose proof (plain_marker MOVE_TO_MARKER target ltac:(not_lf) Hm) as Hpl2.
  set (ls := [BEGIN_PATCH_MARKER; UPDATE_FILE_MARKER ++ path; MOVE_TO_MARKER ++ target]).
  change (join [LF] _) with (join [LF] (ls ++ [END_PATCH_MARKER])).
  assert (Forall plain_line ls) as Hpl by (repeat constructor; first [done|not_lf|apply Hpl1|apply Hpl2]).
  assert (run_lines 0 (mkState NotStarted [] None) ls =
    Ok (mkState (ModeUpdateFile 2) [UpdateFile path (Some target) []] None)) as Hrun.
  { unfold ls. cbn [run_lines].
    change (process_line 1 _ BEGIN_PATCH_MARKER)
      with (@Ok ParseError _ (mkState StartedPatch [] None)).
    cbn [mbind result_bind]. rewrite process_update_header by done. cbn [mbind result_bind].
    destruct (trim_marker MOVE_TO_MARKER target) as [_ Ht]; [done..|].
    unfold push_hunk. cbn [hunks environment_id].
    rewrite (process_update_mode _ _ [] _ _ _ _ _ (Some target) []); [done|rewrite Ht..].
    - unfold handle_hunk_headers_and_end_patch. by rewrite str_eqb_no_prefix.
    - unfold process_update_line. by rewrite strip_prefix_app. }
  unfold parse_patch, parse_patch_text. cbn [PARSE_IN_STRICT_MODE].
  rewrite trim_id; [|by apply no_leading_ws_join|by apply no_trailing_ws_join].
  rewrite lines_join by (try done; not_lf).
  change (check_patch_boundaries_lenient _) with (@Ok ParseError _ (ls ++ [END_PATCH_MARKER])).
  cbn [mbind result_bind]. rewrite join_lf_snoc. unfold push_delta. rewrite push_chars_app.
  unfold default_parser. rewrite (push_chars_lines _ _ _ _ Hpl Hrun).
  rewrite push_chars_no_lf by not_lf. cbn [line_buffer state line_number app]. reflexivity.
Qed.

Lemma parse_rename_only_rejected_witness :
  parse_patch (join [LF] [BEGIN_PATCH_MARKER; UPDATE_FILE_MARKER ++ str "a";
                          MOVE_TO_MARKER ++ str "b"; END_PATCH_MARKER]) =
  Err (InvalidHunkError (empty_hunk_error (str "a")) 2).
Proof.
  apply (parse_rename_only_rejected (str "a") (str "b")); apply (bool_decide_unpack _);
    vm_compute; exact I.
Defined.
