(* ===== verification/SeekSequence.v ===== *)
(** * Locating the lines of a chunk

    Models [sofia-rs/apply-patch/src/seek_sequence.rs]: four passes of
    decreasing strictness over the candidate positions. *)

From stdpp Require Import base list numbers strings.
From S2P Require Import Prelude.

(** [ApplyPatchFileUpdateMode] of [lib.rs]. *)
Inductive ApplyPatchFileUpdateMode := NormalizeToLf | PreserveLineEndings.

#[global] Instance ApplyPatchFileUpdateMode_eq_dec : EqDecision ApplyPatchFileUpdateMode.
Proof. solve_decision. Defined.

(** The character map of [normalise]. *)
Definition normalise_char (c : N) : N :=
  (if ((0x2010 <=? c) && (c <=? 0x2015)) || (c =? 0x2212) then 45
   else if (0x2018 <=? c) && (c <=? 0x201B) then 39
   else if (0x201C <=? c) && (c <=? 0x201F) then 34
   else if (c =? 0xA0) || ((0x2002 <=? c) && (c <=? 0x200A)) || (c =? 0x202F) ||
           (c =? 0x205F) || (c =? 0x3000) then 32
   else c)%N.

Definition normalise (s : rstring) : rstring := map normalise_char (trim s).

(** One candidate position: the lines from there on, compared with the pattern
    under a normalisation of lines. *)
Fixpoint lines_match (f : rstring → rstring) (ls pattern : list rstring) : bool :=
  match pattern, ls with
  | [], _ => true
  | p :: pattern', l :: ls' => str_eqb (f l) (f p) && lines_match f ls' pattern'
  | _ :: _, [] => false
  end.

(** [for i in first..=last { if test(i) { return Some(i) } }]. *)
Definition first_index (test : nat → bool) (first last : nat) : option nat :=
  List.find test (seq first (S last - first)).

(** The passes, in the order of the source: exact, ignoring trailing white
    space, ignoring white space at both ends, ignoring typographic variants. *)
Definition passes : list (rstring → rstring) := [id; trim_end; trim; normalise].

Fixpoint first_pass (fs : list (rstring → rstring)) (ls pattern : list rstring)
    (first last : nat) : option nat :=
  match fs with
  | [] => None
  | f :: fs' =>
      match first_index (λ i, lines_match f (drop i ls) pattern) first last with
      | Some i => Some i
      | None => first_pass fs' ls pattern first last
      end
  end.

Definition search_start (ls pattern : list rstring) (start : nat) (eof : bool)
    (update_file_mode : ApplyPatchFileUpdateMode) : nat :=
  if eof && (length pattern <=? length ls) then
    let eof_start := length ls - length pattern in
    match update_file_mode with
    | NormalizeToLf => eof_start
    | PreserveLineEndings => eof_start `max` start
    end
  else start.

Definition seek_sequence (ls pattern : list rstring) (start : nat) (eof : bool)
    (update_file_mode : ApplyPatchFileUpdateMode) : option nat :=
  if is_empty pattern then Some start else
  if length ls <? length pattern then None else
  first_pass passes ls pattern
    (search_start ls pattern start eof update_file_mode) (length ls - length pattern).

(** ** Lemmas *)
Lemma first_index_Some test first last i :
  first_index test first last = Some i ↔
  first ≤ i ≤ last ∧ test i = true ∧ ∀ j, first ≤ j < i → test j = false.
Proof.
  unfold first_index.
  assert (∀ n b, List.find test (seq b n) = Some i ↔
    b ≤ i < b + n ∧ test i = true ∧ ∀ j, b ≤ j < i → test j = false) as Hgen.
  { induction n as [|n IH]; intros b; simpl; [split; [done|lia]|].
    destruct (test b) eqn:Eb.
    - split.
      + intros [= ->]. split_and!; [lia|lia|done|lia].
      + intros (Hi & Ht & Hlt). f_equal. destruct (decide (b = i)); [done|].
        rewrite Hlt in Eb by lia. done.
    - rewrite IH. split.
      + intros (Hi & Ht & Hlt). split_and!; [lia|lia|done|].
        intros j Hj. destruct (decide (j = b)) as [->|]; [done|]. apply Hlt. lia.
      + intros (Hi & Ht & Hlt). destruct (decide (i = b)) as [->|]; [congruence|].
        split_and!; [lia|lia|done|]. intros j Hj. apply Hlt. lia. }
  rewrite Hgen. split; intros (? & ? & ?); split_and!; first [done|lia].
Qed.

Lemma first_index_None test first last :
  first_index test first last = None ↔ ∀ i, first ≤ i ≤ last → test i = false.
Proof.
  unfold first_index. split.
  - intros H i Hi. apply (find_none _ _ H), in_seq. lia.
  - intros H. destruct (List.find _ _) as [i|] eqn:E; [|done].
    apply find_some in E as [Hin Ht]. apply in_seq in Hin. rewrite H in Ht; [done|lia].
Qed.

Lemma lines_match_length f ls pattern :
  lines_match f ls pattern = true → length pattern ≤ length ls.
Proof.
  revert ls. induction pattern as [|p ps IH]; intros [|l ls]; simpl; try (done || lia).
  intros [_ H]%andb_true_iff. apply IH in H. lia.
Qed.

(** Weakening one pass to another. *)
Lemma lines_match_impl f g ls pattern :
  (∀ l p, f l = f p → g l = g p) →
  lines_match f ls pattern = true → lines_match g ls pattern = true.
Proof.
  intros Hfg. revert ls. induction pattern as [|p ps IH]; intros [|l ls]; try done.
  simpl. intros [H1 H2]%andb_true_iff. breflect.
  rewrite (IH ls H2), andb_true_r. apply bool_decide_eq_true. by apply Hfg.
Qed.

Lemma lines_match_id ls pattern :
  lines_match id ls pattern = true ↔ take (length pattern) ls = pattern.
Proof.
  revert ls. induction pattern as [|p ps IH]; intros [|l ls]; try done.
  simpl. rewrite andb_true_iff, IH. unfold str_eqb, id.
  rewrite bool_decide_eq_true. split; [by intros [-> ->]|]. by intros [= -> H].
Qed.

Lemma drop_while_app_nil P s t :
  drop_while P s = [] → drop_while P (s ++ t) = drop_while P t.
Proof.
  induction s as [|c s IH]; simpl; [done|]. destruct (P c); [done|by intros ?].
Qed.

Lemma drop_while_app_cons P s t :
  drop_while P s ≠ [] → drop_while P (s ++ t) = drop_while P s ++ t.
Proof. induction s as [|c s IH]; simpl; [done|]. destruct (P c); [done|by intros ?]. Qed.

Lemma drop_while_all P s : Forall (λ c, P c = true) s → drop_while P s = [].
Proof. induction 1 as [|c s Hc Hs IH]; simpl; [done|]. by rewrite Hc. Qed.

Lemma drop_end_while_app_all P s t :
  Forall (λ c, P c = true) t → drop_end_while P (s ++ t) = drop_end_while P s.
Proof.
  intros Ht. unfold drop_end_while. f_equal. rewrite reverse_app.
  apply drop_while_app_nil, drop_while_all. by apply Forall_reverse.
Qed.

(** [trim] only looks at [trim_end] of its argument. *)
Lemma trim_trim_end s : trim (trim_end s) = trim s.
Proof.
  destruct (drop_end_while_prefix is_whitespace s) as (t & Hs & Ht).
  fold (trim_end s) in Hs. unfold trim. rewrite Hs at 2. unfold trim_start.
  destruct (decide (drop_while is_whitespace (trim_end s) = [])) as [He|He].
  - rewrite drop_while_app_nil by done. rewrite He, drop_while_all by done. done.
  - rewrite drop_while_app_cons by done. symmetry. by apply drop_end_while_app_all.
Qed.

Lemma pass_to_normalise f l p : f ∈ passes → f l = f p → normalise l = normalise p.
Proof.
  unfold passes, normalise. intros Hf H.
  rewrite !elem_of_cons in Hf. destruct Hf as [->|[->|[->|[->|Hf]]]].
  - unfold id in H. by subst.
  - rewrite <- (trim_trim_end l), H, trim_trim_end. done.
  - by rewrite H.
  - done.
  - by apply not_elem_of_nil in Hf.
Qed.

(** Some pass accepts exactly when the last one does. *)
Lemma pass_match_normalise f ls pattern :
  f ∈ passes → lines_match f ls pattern = true → lines_match normalise ls pattern = true.
Proof. intros Hf. apply lines_match_impl. intros l p. by apply pass_to_normalise. Qed.

Lemma first_pass_Some fs ls pattern first last i :
  first_pass fs ls pattern first last = Some i ↔
  ∃ k f, fs !! k = Some f ∧
    first_index (λ i, lines_match f (drop i ls) pattern) first last = Some i ∧
    ∀ k' f', k' < k → fs !! k' = Some f' →
      first_index (λ i, lines_match f' (drop i ls) pattern) first last = None.
Proof.
  induction fs as [|f fs IH]; simpl.
  - split; [done|]. by intros (k & f & ? & _).
  - destruct (first_index _ first last) as [j|] eqn:E; split.
    + intros [= ->]. exists 0, f. split_and!; [done..|]. intros; lia.
    + intros (k & g & Hk & Hg & Hlt). destruct k as [|k].
      * simplify_eq/=. congruence.
      * specialize (Hlt 0 f ltac:(lia) eq_refl). congruence.
    + intros (k & g & Hk & Hg & Hlt)%IH. exists (S k), g. split_and!; [done..|].
      intros [|k'] f' Hk' Hf'; [by simplify_eq/=|]. apply (Hlt k'); [lia|done].
    + intros (k & g & Hk & Hg & Hlt). apply IH. destruct k as [|k]; [simplify_eq/=; congruence|].
      exists k, g. split_and!; [done..|]. intros k' f' Hk' Hf'. apply (Hlt (S k')); [lia|done].
Qed.

Lemma first_pass_None fs ls pattern first last :
  first_pass fs ls pattern first last = None ↔
  ∀ f, f ∈ fs → first_index (λ i, lines_match f (drop i ls) pattern) first last = None.
Proof.
  induction fs as [|f fs IH]; simpl.
  - split; [|done]. intros _ f Hf. by apply not_elem_of_nil in Hf.
  - destruct (first_index _ first last) as [j|] eqn:E.
    + split; [done|]. intros H. specialize (H f ltac:(by left)). congruence.
    + rewrite IH. split; [|by intros H g Hg; apply H; right].
      intros H g [->|Hg]%elem_of_cons; [done|by apply H].
Qed.

(** The facts the callers use. *)
Lemma seek_sequence_bounds ls pattern start eof m i :
  seek_sequence ls pattern start eof m = Some i → pattern ≠ [] →
  i + length pattern ≤ length ls ∧
  search_start ls pattern start eof m ≤ i ∧
  lines_match normalise (drop i ls) pattern = true.
Proof.
  unfold seek_sequence. intros H Hne. destruct pattern as [|p ps]; [done|]. simpl is_empty in H.
  destruct (length ls <? length (p :: ps)) eqn:El; [done|]. apply Nat.ltb_ge in El.
  apply first_pass_Some in H as (k & f & Hk & Hf & _).
  apply first_index_Some in Hf as (Hi & Hm & _). split_and!; [lia|lia|].
  apply (pass_match_normalise f); [|done]. by apply list_elem_of_lookup_2 with k.
Qed.

(** The position returned for a pattern that is not empty: candidates are the
    positions from [search_start] on at which the pattern fits. *)
Definition candidate (ls pattern : list rstring) (start : nat) (eof : bool)
    (m : ApplyPatchFileUpdateMode) (i : nat) : Prop :=
  search_start ls pattern start eof m ≤ i ∧ i + length pattern ≤ length ls.

(** ** Properties *)

(** [seek_sequence] returns the first candidate position accepted by the
    strictest of the four passes that accepts any candidate, and nothing exactly
    when the most lenient pass accepts no candidate. *)
Theorem seek_sequence_strictest_first ls pattern start eof m :
  pattern ≠ [] →
  (∀ i, seek_sequence ls pattern start eof m = Some i ↔
     ∃ k f, passes !! k = Some f ∧ candidate ls pattern start eof m i ∧
       lines_match f (drop i ls) pattern = true ∧
       (∀ j, candidate ls pattern start eof m j → j < i →
          lines_match f (drop j ls) pattern = false) ∧
       (∀ k' f' j, k' < k → passes !! k' = Some f' → candidate ls pattern start eof m j →
          lines_match f' (drop j ls) pattern = false)) ∧
  (seek_sequence ls pattern start eof m = None ↔
     ∀ i, candidate ls pattern start eof m i →
       lines_match normalise (drop i ls) pattern = false).
Proof.
  intros Hne. unfold seek_sequence, candidate.
  replace (is_empty pattern) with false by (by destruct pattern).
  destruct (length ls <? length pattern) eqn:El.
  - apply Nat.ltb_lt in El. split; [|split; [intros _ i ?; lia|done]].
    intros i. split; [done|]. intros (k & f & _ & ? & _). lia.
  - apply Nat.ltb_ge in El. split.
    + intros i. rewrite first_pass_Some. split.
      * intros (k & f & Hk & Hi & Hs). apply first_index_Some in Hi as (Hi & Hm & Hlt).
        exists k, f. split_and!; [done|lia|lia|done| |].
        -- intros j Hj Hji. apply Hlt. lia.
        -- intros k' f' j Hk' Hf' Hj. specialize (Hs k' f' Hk' Hf').
           rewrite first_index_None in Hs. apply (Hs j). lia.
      * intros (k & f & Hk & Hi & Hm & Hlt & Hs). exists k, f. split_and!; [done| |].
        -- apply first_index_Some. split_and!; [lia|lia|done|]. intros j Hj. apply Hlt; lia.
        -- intros k' f' Hk' Hf'. apply first_index_None. intros j Hj. apply (Hs k'); [done..|lia].
    + rewrite first_pass_None. split.
      * intros H i Hi. specialize (H normalise ltac:(by apply (list_elem_of_lookup_2 _ 3))).
        rewrite first_index_None in H. apply (H i). lia.
      * intros H f Hf. apply first_index_None. intros i Hi.
        destruct (lines_match f _ _) eqn:E; [|done].
        apply pass_match_normalise in E; [|done]. rewrite H in E; [done|lia].
Qed.

Definition sample_lines : list rstring := [str "foo  "; str "bar"; str "foo"; str "baz"].

(** The exact occurrence at 2 is preferred to the earlier lenient one at 0. *)
Lemma seek_sequence_strictest_first_witness :
  seek_sequence sample_lines [str "foo"] 0 false NormalizeToLf = Some 2 ∧
  (seek_sequence sample_lines [str "qux"] 0 false NormalizeToLf = None ↔
     ∀ i, candidate sample_lines [str "qux"] 0 false NormalizeToLf i →
       lines_match normalise (drop i sample_lines) [str "qux"] = false).
Proof.
  split; [vm_compute; reflexivity|].
  apply (seek_sequence_strictest_first sample_lines [str "qux"] 0 false NormalizeToLf). done.
Defined.

(** a pattern anchored at the end of the file is only ever found there: when
    its last position does not match, the search fails even if the pattern occurs
    at or after [start], so the fall back to [start] that the comment of the
    function announces does not exist. *)
Theorem seek_eof_only_at_end ls pattern start m :
  pattern ≠ [] →
  (∀ i, seek_sequence ls pattern start true m = Some i → i + length pattern = length ls) ∧
  (lines_match normalise (drop (length ls - length pattern) ls) pattern = false →
   seek_sequence ls pattern start true m = None).
Proof.
  intros Hne.
  assert (∀ i, seek_sequence ls pattern start true m = Some i → i + length pattern = length ls) as H.
  { intros i Hi. apply seek_sequence_bounds in Hi as (Hle & Hs & _); [|done].
    unfold search_start in Hs. simpl in Hs.
    destruct (length pattern <=? length ls) eqn:E; [|apply Nat.leb_gt in E; lia].
    destruct m; lia. }
  split; [done|]. intros Hm. destruct (seek_sequence ls pattern start true m) as [i|] eqn:E; [|done].
  pose proof (H i eq_refl). apply seek_sequence_bounds in E as (_ & _ & Hn); [|done].
  replace (length ls - length pattern) with i in Hm by lia. congruence.
Qed.

Lemma seek_eof_only_at_end_witness :
  seek_sequence sample_lines [str "bar"] 0 false NormalizeToLf = Some 1 ∧
  seek_sequence sample_lines [str "bar"] 0 true NormalizeToLf = None.
Proof.
  split; [vm_compute; reflexivity|].
  apply (proj2 (seek_eof_only_at_end sample_lines [str "bar"] 0 NormalizeToLf ltac:(done))).
  vm_compute. reflexivity.
Defined.
