(* ===== verification/TextFile.v ===== *)
(** * Files with their line endings

    Models [sofia-rs/apply-patch/src/text_file.rs]: splitting a file into lines
    that keep their terminators, replacing runs of lines, and writing it back. *)

From stdpp Require Import base list numbers strings.
From S2P Require Import Prelude.

(** [(start_idx, old_len, new_segment)]. *)
Definition Replacement : Type := nat * nat * list rstring.

Inductive LineEnding := Lf | CrLf | Cr.

#[global] Instance LineEnding_eq_dec : EqDecision LineEnding.
Proof. solve_decision. Defined.

Definition ending_as_str (e : LineEnding) : rstring :=
  match e with Lf => [LF] | CrLf => [CR; LF] | Cr => [CR] end.

Record SourceLine := mkLine { text : rstring; ending : option LineEnding }.

Record SourceFile := mkFile { source_lines : list SourceLine; preferred_ending : LineEnding }.

(** The loop of [SourceFile::parse]: [cur] is the text since [line_start]. *)
Fixpoint parse_loop (cur : rstring) (ls : list SourceLine) (preferred : option LineEnding)
    (contents : rstring) : list SourceLine * option LineEnding :=
  let push e := (ls ++ [mkLine cur (Some e)], Some (default e preferred)) in
  match contents with
  | [] => (if is_empty cur then ls else ls ++ [mkLine cur None], preferred)
  | c :: rest =>
      if (c =? CR)%N then
        match rest with
        | d :: rest' =>
            if (d =? LF)%N then parse_loop [] (fst (push CrLf)) (snd (push CrLf)) rest'
            else parse_loop [] (fst (push Cr)) (snd (push Cr)) rest
        | [] => parse_loop [] (fst (push Cr)) (snd (push Cr)) rest
        end
      else if (c =? LF)%N then parse_loop [] (fst (push Lf)) (snd (push Lf)) rest
      else parse_loop (cur ++ [c]) ls preferred rest
  end.

Definition parse (contents : rstring) : SourceFile :=
  let r := parse_loop [] [] None contents in
  mkFile (fst r) (default Lf (snd r)).

Definition line_texts (f : SourceFile) : list rstring := map text (source_lines f).

(** The loop of [SourceFile::apply_replacements] over the remaining source lines;
    [None] is the failure of [*start_idx - source_index] (the [debug_assert], or
    the subtraction of unsigned integers). *)
Fixpoint apply_loop (preferred : LineEnding) (source_index : nat) (src : list SourceLine)
    (replacements : list Replacement) : option (list SourceLine) :=
  match replacements with
  | [] => Some src
  | (start_idx, old_len, new_segment) :: replacements' =>
      if start_idx <? source_index then None else
      let kept := take (start_idx - source_index) src in
      let rest := drop old_len (drop (start_idx - source_index) src) in
      rest' ← apply_loop preferred (start_idx + old_len) rest replacements';
      Some (kept ++ map (λ t, mkLine t (Some preferred)) new_segment ++ rest')
  end.

(** [line.ending.get_or_insert(preferred_ending)]. *)
Definition fill_ending (preferred : LineEnding) (l : SourceLine) : SourceLine :=
  mkLine (text l) (Some (default preferred (ending l))).

Definition apply_replacements_file (f : SourceFile) (replacements : list Replacement)
    : option SourceFile :=
  ls ← apply_loop (preferred_ending f) 0 (source_lines f) replacements;
  Some (mkFile (map (fill_ending (preferred_ending f)) ls) (preferred_ending f)).

Definition print_line (l : SourceLine) : rstring :=
  text l ++ match ending l with Some e => ending_as_str e | None => [] end.

Definition into_contents (f : SourceFile) : rstring := concat (map print_line (source_lines f)).

(** ** Specification: replacing disjoint runs of lines *)

(** The replacements are in source order, disjoint, and inside a file of [len]
    lines; [from] is the end of the previous one. *)
Fixpoint separated (len from : nat) (rs : list Replacement) : Prop :=
  match rs with
  | [] => from ≤ len
  | (start, old_len, _) :: rs' =>
      from ≤ start ∧ start + old_len ≤ len ∧ separated len (start + old_len) rs'
  end.

#[global] Instance separated_dec len from rs : Decision (separated len from rs).
Proof.
  revert from. induction rs as [|[[s o] n] rs IH]; intros from; simpl; apply _.
Defined.

(** The lines after the replacements: between two replacements the source lines
    are kept, and each replaced run becomes the new segment.  [from] is the index
    of the first line of [src] in the file. *)
Fixpoint splice {A} (f : rstring → A) (from : nat) (src : list A) (rs : list Replacement) : list A :=
  match rs with
  | [] => src
  | (start, old_len, new) :: rs' =>
      take (start - from) src ++ map f new ++
      splice f (start + old_len) (drop (start + old_len - from) src) rs'
  end.

(** ** Lemmas *)
Lemma separated_weaken len from from' rs :
  from' ≤ from → separated len from rs → separated len from' rs.
Proof. destruct rs as [|[[s o] n] rs]; simpl; [lia|]. intuition lia. Qed.

Lemma splice_fmap {A B} (g : A → B) (f : rstring → A) from src rs :
  map g (splice f from src rs) = splice (g ∘ f) from (map g src) rs.
Proof.
  revert from src. induction rs as [|[[s o] n] rs IH]; intros from src; simpl; [done|].
  rewrite !map_app, IH. rewrite fmap_take, fmap_drop. f_equal. f_equal. by rewrite map_map.
Qed.

Lemma apply_loop_splice preferred len from src rs :
  separated len from rs →
  apply_loop preferred from src rs = Some (splice (λ t, mkLine t (Some preferred)) from src rs).
Proof.
  revert from src. induction rs as [|[[s o] n] rs IH]; intros from src; simpl; [done|].
  intros (Hs & Ho & Hsep). destruct (s <? from) eqn:E; [apply Nat.ltb_lt in E; lia|].
  rewrite drop_drop. replace (s - from + o) with (s + o - from) by lia.
  by rewrite IH.
Qed.

(** Induction along the loop of [parse]: one character, or a CRLF pair. *)
Lemma parse_loop_ind (P : rstring → Prop) :
  P [] →
  (∀ c rest, (c ≠ CR ∨ head rest ≠ Some LF) → P rest → P (c :: rest)) →
  (∀ rest, P rest → P (CR :: LF :: rest)) →
  ∀ s, P s.
Proof.
  intros Hnil Hone Htwo s.
  assert (∀ n t, length t ≤ n → P t) as H; [|by apply (H (length s))].
  induction n as [|n IH]; intros [|c rest] Hlen; simpl in *; try done; [lia|].
  destruct (decide (c = CR)) as [->|Hc]; [|apply Hone; [by left|apply IH; lia]].
  destruct rest as [|d rest]; [apply Hone; [by right|done]|].
  destruct (decide (d = LF)) as [->|Hd].
  - apply Htwo, IH. simpl in Hlen. lia.
  - apply Hone; [right; simpl; congruence|apply IH; lia].
Qed.

(** The equations of the loop. *)
Lemma parse_loop_crlf cur ls p rest :
  parse_loop cur ls p (CR :: LF :: rest) =
  parse_loop [] (ls ++ [mkLine cur (Some CrLf)]) (Some (default CrLf p)) rest.
Proof. done. Qed.

Lemma parse_loop_one cur ls p c rest :
  c ≠ CR ∨ head rest ≠ Some LF →
  parse_loop cur ls p (c :: rest) =
  if (c =? CR)%N then parse_loop [] (ls ++ [mkLine cur (Some Cr)]) (Some (default Cr p)) rest
  else if (c =? LF)%N then parse_loop [] (ls ++ [mkLine cur (Some Lf)]) (Some (default Lf p)) rest
  else parse_loop (cur ++ [c]) ls p rest.
Proof.
  intros H. simpl. destruct (N.eqb_spec c CR) as [->|]; [|done].
  destruct H as [H|H]; [done|]. destruct rest as [|d rest]; [done|].
  simpl in H. destruct (N.eqb_spec d LF); [congruence|done].
Qed.

Lemma parse_loop_print s cur ls p :
  concat (map print_line (fst (parse_loop cur ls p s))) =
  concat (map print_line ls) ++ cur ++ s.
Proof.
  revert cur ls p. induction s as [|c rest Hc IH|rest IH] using parse_loop_ind; intros cur ls p.
  - simpl. destruct cur as [|c cur]; simpl; [by rewrite !app_nil_r|].
    rewrite map_app, concat_app. simpl. unfold print_line. simpl. by rewrite !app_nil_r.
  - rewrite parse_loop_one by done. destruct (N.eqb_spec c CR) as [->|]; [|destruct (N.eqb_spec c LF) as [->|]];
      rewrite IH, ?map_app, ?concat_app; simpl; unfold print_line; simpl;
      by rewrite ?app_nil_r, <- ?app_assoc.
  - rewrite parse_loop_crlf, IH, map_app, concat_app. simpl. unfold print_line. simpl.
    by rewrite ?app_nil_r, <- ?app_assoc.
Qed.

(** No terminator inside the text of a line. *)
Definition clean_text (t : rstring) : Prop := CR ∉ t ∧ LF ∉ t.

Lemma parse_loop_clean s cur ls p :
  clean_text cur → Forall (clean_text ∘ text) ls →
  Forall (clean_text ∘ text) (fst (parse_loop cur ls p s)).
Proof.
  revert cur ls p. induction s as [|c rest Hc IH|rest IH] using parse_loop_ind; intros cur ls p Hcur Hls.
  - simpl. destruct (is_empty cur); [done|]. apply Forall_app. split; [done|by constructor].
  - rewrite parse_loop_one by done. assert (clean_text []) as Hnil by (split; apply not_elem_of_nil).
    destruct (N.eqb_spec c CR) as [->|Hcr]; [|destruct (N.eqb_spec c LF) as [->|Hlf]]; apply IH; try done.
    1,2: apply Forall_app; split; [done|by constructor].
    destruct Hcur. split; rewrite elem_of_app, list_elem_of_singleton; naive_solver.
  - rewrite parse_loop_crlf. apply IH; [split; apply not_elem_of_nil|].
    apply Forall_app. split; [done|by constructor].
Qed.

(** Every line but the last has a terminator. *)
Lemma parse_loop_endings s cur ls p :
  Forall (λ l, is_Some (ending l)) ls →
  ∃ ls' t, fst (parse_loop cur ls p s) = ls' ++ t ∧
    Forall (λ l, is_Some (ending l)) ls' ∧ (t = [] ∨ ∃ u, u ≠ [] ∧ t = [mkLine u None]).
Proof.
  revert cur ls p. induction s as [|c rest Hc IH|rest IH] using parse_loop_ind; intros cur ls p Hls.
  - exists ls. simpl. destruct cur as [|c cur]; simpl.
    + exists []. rewrite app_nil_r. auto.
    + eexists. split_and!; [done..|]. right. by exists (c :: cur).
  - rewrite parse_loop_one by done.
    destruct (N.eqb_spec c CR); [|destruct (N.eqb_spec c LF)]; apply IH; try done;
      apply Forall_app; by repeat constructor.
  - rewrite parse_loop_crlf. apply IH. apply Forall_app; by repeat constructor.
Qed.

Lemma line_texts_clean s : Forall clean_text (line_texts (parse s)).
Proof.
  unfold line_texts. apply Forall_fmap, parse_loop_clean; [split; apply not_elem_of_nil|done].
Qed.

Lemma fill_ending_texts p ls : map text (map (fill_ending p) ls) = map text ls.
Proof. rewrite map_map. done. Qed.

Lemma length_line_texts f : length (line_texts f) = length (source_lines f).
Proof. apply length_fmap. Qed.

(** The shared result of the replacement step. *)
Lemma apply_replacements_file_splice f rs :
  separated (length (line_texts f)) 0 rs →
  apply_replacements_file f rs =
  Some (mkFile (map (fill_ending (preferred_ending f))
     (splice (λ t, mkLine t (Some (preferred_ending f))) 0 (source_lines f) rs))
     (preferred_ending f)).
Proof.
  intros H. unfold apply_replacements_file.
  by rewrite (apply_loop_splice _ (length (line_texts f))).
Qed.

(** ** Properties *)

(** parsing a file into terminated lines and writing the lines back is the
    identity on every file contents, whatever mix of LF, CRLF and CR it uses;
    the texts of the lines hold no terminator and every line but the last has
    one. *)
Theorem source_file_roundtrip s :
  into_contents (parse s) = s ∧
  Forall clean_text (line_texts (parse s)) ∧
  (∀ ls l, source_lines (parse s) = ls ++ [l] → Forall (λ k, is_Some (ending k)) ls).
Proof.
  split_and!.
  - unfold into_contents, parse. simpl. by rewrite parse_loop_print.
  - apply line_texts_clean.
  - intros ls l Hl. destruct (parse_loop_endings s [] [] None) as (ls' & t & Hp & Hls & Ht); [done|].
    unfold parse in Hl. simpl in Hl. rewrite Hp in Hl. destruct Ht as [->|(u & _ & ->)].
    + rewrite app_nil_r in Hl. subst. by apply Forall_app in Hls as [? _].
    + by apply app_snoc_inj in Hl as [-> _].
Qed.

(** replacing disjoint runs of lines in source order never fails: the lines
    outside the replaced runs keep their text and their terminator, the new
    lines get the preferred terminator, a missing terminator is completed with
    the preferred one, and the texts are those of the specification [splice]. *)
Theorem apply_replacements_file_spec f rs :
  separated (length (line_texts f)) 0 rs →
  ∃ f', apply_replacements_file f rs = Some f' ∧
    line_texts f' = splice id 0 (line_texts f) rs ∧
    source_lines f' = map (fill_ending (preferred_ending f))
      (splice (λ t, mkLine t (Some (preferred_ending f))) 0 (source_lines f) rs) ∧
    Forall (λ l, is_Some (ending l)) (source_lines f').
Proof.
  intros H. eexists. split; [by apply apply_replacements_file_splice|]. split_and!.
  - unfold line_texts. simpl. rewrite fill_ending_texts, splice_fmap. done.
  - done.
  - simpl. apply Forall_fmap, Forall_forall. intros l _. by eexists.
Qed.

Definition sample_file : SourceFile := parse (str "a" ++ [CR; LF] ++ str "b" ++ [LF] ++ str "c").
Definition sample_replacements : list Replacement := [(1, 1, [str "x"; str "y"])].

Lemma apply_replacements_file_spec_witness :
  into_contents sample_file = str "a" ++ [CR; LF] ++ str "b" ++ [LF] ++ str "c" ∧
  (∃ f', apply_replacements_file sample_file sample_replacements = Some f' ∧
    line_texts f' = [str "a"; str "x"; str "y"; str "c"]).
Proof.
  split; [vm_compute; reflexivity|].
  destruct (apply_replacements_file_spec sample_file sample_replacements) as (f' & H & Ht & _).
  - vm_compute. lia.
  - exists f'. split; [exact H|]. rewrite Ht. vm_compute. reflexivity.
Defined.
