(* ===== verification/FileUpdate.v ===== *)
(** * Updating one file

    Models [sofia-rs/apply-patch/src/file_update.rs]: turning the chunks of an
    update hunk into replacements, applying them in the two update modes, and
    the resulting contents. *)

From stdpp Require Import base list numbers strings.
From S2P Require Import Prelude PatchParser PatchSpec SeekSequence TextFile.

(** ** Errors of [lib.rs] *)
Inductive ErrorKind := NotFound | AlreadyExists | InvalidInput | OtherKind.

#[global] Instance ErrorKind_eq_dec : EqDecision ErrorKind.
Proof. solve_decision. Defined.

Record io_error := mkIoError { io_kind : ErrorKind; io_message : rstring }.

Inductive ApplyPatchError :=
| EParse (e : ParseError)
| EIo (context : rstring) (source : io_error)
| EComputeReplacements (message : rstring)
| EPathUri (message : rstring)
| EImplicitInvocation.

(** A Rust computation either fails with an error value or panics. *)
Inductive fail (E : Type) : Type :=
| Fail (e : E)
| Panic.
Arguments Fail {E} e.
Arguments Panic {E}.

(** ** [compute_replacements] *)
Definition context_not_found (ctx_line path : rstring) : ApplyPatchError :=
  EComputeReplacements (str "Failed to find context '" ++ ctx_line ++ str "' in " ++ path).
Definition lines_not_found (path : rstring) (old : list rstring) : ApplyPatchError :=
  EComputeReplacements (str "Failed to find expected lines in " ++ path ++ str ":" ++ [LF] ++
                        join [LF] old).

Definition last_is_empty (ls : list rstring) : bool := is_some_and (last ls) is_empty.

(** [&v[..v.len() - 1]]. *)
Definition drop_last {A} (l : list A) : list A := take (length l - 1) l.

(** The insertion point of a chunk without old lines. *)
Definition insertion_index (original_lines : list rstring) (m : ApplyPatchFileUpdateMode) : nat :=
  match m with
  | NormalizeToLf =>
      if last_is_empty original_lines then length original_lines - 1 else length original_lines
  | PreserveLineEndings => length original_lines
  end.

(** The loop over [context_line_indices] in [PreserveLineEndings] mode: the runs
    between context lines become replacements.  [None] is an underflow of
    [old_context - old_start] or an inverted slice of [new_slice]. *)
Fixpoint context_replacements (start_idx pattern_len : nat) (new_slice : list rstring)
    (idx : list (nat * nat)) (old_start new_start : nat) : option (list Replacement) :=
  let tail_run :=
    if bool_decide (old_start = pattern_len ∧ new_start = length new_slice) then []
    else [(start_idx + old_start, pattern_len - old_start, drop new_start new_slice)] in
  match idx with
  | [] => Some tail_run
  | (old_context, new_context) :: idx' =>
      if (pattern_len <=? old_context) || (length new_slice <=? new_context) then Some tail_run
      else if (old_context <? old_start) || (new_context <? new_start) then None
      else
        rest ← context_replacements start_idx pattern_len new_slice idx'
                 (S old_context) (S new_context);
        Some ((if bool_decide (old_start = old_context ∧ new_start = new_context) then []
               else [(start_idx + old_start, old_context - old_start,
                      take (new_context - new_start) (drop new_start new_slice))]) ++ rest)
  end.

(** The search for [old_lines]: a failed search whose pattern ends in an empty
    line is retried without it (and without the empty last new line). *)
Definition locate_old_lines (original_lines : list rstring) (chunk : UpdateFileChunk)
    (line_index : nat) (m : ApplyPatchFileUpdateMode)
    : option nat * list rstring * list rstring :=
  let pattern := old_lines chunk in
  let new_slice := new_lines chunk in
  match seek_sequence original_lines pattern line_index (is_end_of_file chunk) m with
  | Some i => (Some i, pattern, new_slice)
  | None =>
      if last_is_empty pattern then
        let pattern' := drop_last pattern in
        let new_slice' := if last_is_empty new_slice then drop_last new_slice else new_slice in
        (seek_sequence original_lines pattern' line_index (is_end_of_file chunk) m,
         pattern', new_slice')
      else (None, pattern, new_slice)
  end.

(** One iteration of the loop over the chunks: the new [line_index] and the
    replacements it pushes. *)
Definition compute_chunk (original_lines : list rstring) (path : rstring)
    (m : ApplyPatchFileUpdateMode) (line_index : nat) (chunk : UpdateFileChunk)
    : result (fail ApplyPatchError) (nat * list Replacement) :=
  line_index ← match change_context chunk with
               | None => Ok line_index
               | Some ctx_line =>
                   match seek_sequence original_lines [ctx_line] line_index false m with
                   | Some idx => Ok (idx + 1)
                   | None => Err (Fail (context_not_found ctx_line path))
                   end
               end;
  if is_empty (old_lines chunk) then
    Ok (line_index, [(insertion_index original_lines m, 0, new_lines chunk)])
  else
    match locate_old_lines original_lines chunk line_index m with
    | (Some start_idx, pattern, new_slice) =>
        rs ← match m with
             | NormalizeToLf => Ok [(start_idx, length pattern, new_slice)]
             | PreserveLineEndings =>
                 ok_or (context_replacements start_idx (length pattern) new_slice
                          (context_line_indices chunk) 0 0) Panic
             end;
        Ok (start_idx + length pattern, rs)
    | (None, _, _) => Err (Fail (lines_not_found path (old_lines chunk)))
    end.

Fixpoint compute_loop (original_lines : list rstring) (path : rstring)
    (m : ApplyPatchFileUpdateMode) (line_index : nat) (chunks : list UpdateFileChunk)
    : result (fail ApplyPatchError) (list Replacement) :=
  match chunks with
  | [] => Ok []
  | chunk :: chunks' =>
      p ← compute_chunk original_lines path m line_index chunk;
      rest ← compute_loop original_lines path m (fst p) chunks';
      Ok (snd p ++ rest)
  end.

(** [replacements.sort_by_key(|(index, _, _)| *index)], a stable sort. *)
Definition repl_start (r : Replacement) : nat := fst (fst r).

Fixpoint insert_sorted (r : Replacement) (rs : list Replacement) : list Replacement :=
  match rs with
  | [] => [r]
  | r' :: rs' =>
      if repl_start r <? repl_start r' then r :: r' :: rs' else r' :: insert_sorted r rs'
  end.

Definition sort_replacements (rs : list Replacement) : list Replacement :=
  foldl (flip insert_sorted) [] rs.

Definition compute_replacements (original_lines : list rstring) (path : rstring)
    (chunks : list UpdateFileChunk) (m : ApplyPatchFileUpdateMode)
    : result (fail ApplyPatchError) (list Replacement) :=
  rs ← compute_loop original_lines path m 0 chunks;
  Ok (sort_replacements rs).

(** ** [apply_replacements] of the [NormalizeToLf] mode *)

(** [for _ in 0..old_len { if start_idx < lines.len() { lines.remove(start_idx) } }]. *)
Fixpoint remove_lines (old_len start_idx : nat) (ls : list rstring) : list rstring :=
  match old_len with
  | 0 => ls
  | S n => remove_lines n start_idx (if start_idx <? length ls then delete start_idx ls else ls)
  end.

(** [lines.insert(start_idx + offset, new_line)] for each line of the segment;
    [Vec::insert] panics past the end. *)
Fixpoint insert_lines (at_idx : nat) (new_segment ls : list rstring) : option (list rstring) :=
  match new_segment with
  | [] => Some ls
  | l :: new_segment' =>
      if at_idx <=? length ls
      then insert_lines (S at_idx) new_segment' (take at_idx ls ++ l :: drop at_idx ls)
      else None
  end.

(** The loop over [replacements.iter().rev()]: the last replacement first. *)
Fixpoint apply_replacements (ls : list rstring) (replacements : list Replacement)
    : option (list rstring) :=
  match replacements with
  | [] => Some ls
  | (start_idx, old_len, new_segment) :: replacements' =>
      ls' ← apply_replacements ls replacements';
      insert_lines start_idx new_segment (remove_lines old_len start_idx ls')
  end.

(** ** [derive_new_contents_from_chunks], after the file has been read *)
Definition split_lines_lf (contents : rstring) : list rstring :=
  let ls := split_on LF contents in
  if last_is_empty ls then drop_last ls else ls.

Definition join_lines_lf (ls : list rstring) : rstring :=
  join [LF] (if last_is_empty ls then ls else ls ++ [[]]).

Definition derive_new_contents (path_text original_contents : rstring)
    (chunks : list UpdateFileChunk) (m : ApplyPatchFileUpdateMode)
    : result (fail ApplyPatchError) rstring :=
  match m with
  | NormalizeToLf =>
      let original_lines := split_lines_lf original_contents in
      rs ← compute_replacements original_lines path_text chunks m;
      new ← ok_or (apply_replacements original_lines rs) Panic;
      Ok (join_lines_lf new)
  | PreserveLineEndings =>
      let source_file := parse original_contents in
      rs ← compute_replacements (line_texts source_file) path_text chunks m;
      f ← ok_or (apply_replacements_file source_file rs) Panic;
      Ok (into_contents f)
  end.
