(* ===== verification/FileUpdateSpec.v ===== *)
(** * Correctness of file updates

    Replacements computed from well-formed chunks never make the update panic;
    in [PreserveLineEndings] mode they are disjoint and in source order, so the
    update is exactly the specification [splice]; the in-place algorithm of the
    [NormalizeToLf] mode agrees with it on disjoint replacements. *)

From stdpp Require Import base list numbers strings sorting.
From S2P Require Import Prelude PatchParser PatchSpec SeekSequence TextFile FileUpdate.

(** ** The [PreserveLineEndings] mode *)

(** The replacements in the order they are pushed: those of chunks with old
    lines advance through the file, those of chunks without go to its end. *)
Fixpoint chain (len li : nat) (rs : list Replacement) : Prop :=
  match rs with
  | [] => True
  | (s, o, _) :: rs' =>
      (s = len ∧ o = 0 ∧ chain len li rs') ∨ (li ≤ s ∧ s + o ≤ len ∧ chain len (s + o) rs')
  end.

Lemma chain_weaken len li li' rs : li' ≤ li → chain len li rs → chain len li' rs.
Proof.
  revert li li'. induction rs as [|[[s o] n] rs IH]; intros li li' Hle; simpl; [done|].
  intros [(-> & -> & Hc)|(? & ? & Hc)]; [left; eauto|right; split_and!; [lia|done|done]].
Qed.

Lemma chain_app len hi lo rs1 rs2 :
  separated hi lo rs1 → hi ≤ len → chain len hi rs2 → chain len lo (rs1 ++ rs2).
Proof.
  revert lo. induction rs1 as [|[[s o] n] rs1 IH]; intros lo; simpl.
  - intros. by apply chain_weaken with hi.
  - intros (? & ? & Hs) Hhi Hc. right. split_and!; [done|lia|eauto].
Qed.

Lemma context_replacements_separated st plen new_slice idx os ns old new :
  context_ok os ns idx old new → os ≤ plen →
  ∃ rs, context_replacements st plen new_slice idx os ns = Some rs ∧
        separated (st + plen) (st + os) rs.
Proof.
  revert os ns. induction idx as [|[oc nc] idx IH]; intros os ns Hok Hle; simpl.
  { eexists. split; [done|]. case_bool_decide; simpl; lia. }
  destruct Hok as (Ho & Hn & _ & Hok).
  destruct ((plen <=? oc) || (length new_slice <=? nc)) eqn:Eb.
  { eexists. split; [done|]. case_bool_decide; simpl; lia. }
  apply orb_false_iff in Eb as [Eb _]. apply Nat.leb_gt in Eb.
  replace ((oc <? os) || (nc <? ns)) with false
    by (symmetry; apply orb_false_iff; rewrite !Nat.ltb_ge; done).
  destruct (IH (S oc) (S nc) Hok ltac:(lia)) as (rs & -> & Hsep). simpl.
  eexists. split; [done|]. case_bool_decide; simpl.
  - apply separated_weaken with (st + S oc); [lia|done].
  - split_and!; [lia|lia|]. apply separated_weaken with (st + S oc); [lia|done].
Qed.

Lemma search_start_preserve ls pattern start eof :
  start ≤ search_start ls pattern start eof PreserveLineEndings.
Proof. unfold search_start. destruct (eof && _); lia. Qed.

Lemma seek_preserve ls pattern start eof i :
  seek_sequence ls pattern start eof PreserveLineEndings = Some i → start ≤ length ls →
  start ≤ i ∧ i + length pattern ≤ length ls.
Proof.
  intros H Hs. destruct (decide (pattern = [])) as [->|Hne].
  - unfold seek_sequence in H. simpl in H. simplify_eq. simpl. lia.
  - apply seek_sequence_bounds in H as (H1 & H2 & _); [|done].
    pose proof (search_start_preserve ls pattern start eof). lia.
Qed.

Lemma locate_preserve ls chunk li i pattern new_slice :
  locate_old_lines ls chunk li PreserveLineEndings = (Some i, pattern, new_slice) →
  li ≤ length ls → li ≤ i ∧ i + length pattern ≤ length ls.
Proof.
  unfold locate_old_lines. intros H Hli.
  destruct (seek_sequence _ (old_lines chunk) _ _ _) as [j|] eqn:E.
  - simplify_eq. by apply seek_preserve in E.
  - destruct (last_is_empty (old_lines chunk)); simplify_eq.
    match goal with H : seek_sequence _ _ _ _ _ = Some _ |- _ => by apply seek_preserve in H end.
Qed.

(** One chunk: the line index advances inside the file, and the replacements
    either sit between the old and the new index or insert at the end. *)
Definition chunk_step_ok (len li : nat) (r : result (fail ApplyPatchError) (nat * list Replacement))
    : Prop :=
  match r with
  | Ok (li', rs) =>
      li ≤ li' ≤ len ∧
      ((∃ lo, li ≤ lo ∧ separated li' lo rs) ∨ ∃ n, rs = [(len, 0, n)])
  | Err (Fail _) => True
  | Err Panic => False
  end.

Lemma compute_chunk_preserve ls path li chunk :
  chunk_wf chunk → li ≤ length ls →
  chunk_step_ok (length ls) li (compute_chunk ls path PreserveLineEndings li chunk).
Proof.
  intros Hwf Hli. unfold compute_chunk.
  set (ctx := match change_context chunk with None => _ | Some _ => _ end).
  assert (match ctx with
          | Ok li' => li ≤ li' ≤ length ls | Err (Fail _) => True | Err Panic => False
          end) as Hctx.
  { unfold ctx. destruct (change_context chunk) as [c|]; [|lia].
    destruct (seek_sequence ls [c] li false _) as [i|] eqn:E; [|done].
    apply seek_preserve in E; [|done]. simpl in E. lia. }
  destruct ctx as [li'|[e|]]; [|done..]. simpl.
  destruct (is_empty (old_lines chunk)).
  { simpl. split; [lia|]. right. by eexists. }
  destruct (locate_old_lines ls chunk li' PreserveLineEndings) as [[[i|] pattern] new_slice] eqn:El;
    [|done].
  apply locate_preserve in El as [Hi Hlen]; [|lia].
  destruct (context_replacements_separated i (length pattern) new_slice
    (context_line_indices chunk) 0 0 _ _ Hwf ltac:(lia)) as (rs & -> & Hsep).
  simpl. split; [lia|]. left. exists i. rewrite Nat.add_0_r in Hsep. split; [lia|done].
Qed.

Lemma compute_loop_preserve ls path li chunks :
  Forall chunk_wf chunks → li ≤ length ls →
  match compute_loop ls path PreserveLineEndings li chunks with
  | Ok rs => chain (length ls) li rs
  | Err (Fail _) => True
  | Err Panic => False
  end.
Proof.
  intros Hwf. revert li. induction Hwf as [|c chunks Hc Hwf IH]; intros li Hli; simpl; [done|].
  pose proof (compute_chunk_preserve ls path li c Hc Hli) as Hstep.
  destruct (compute_chunk _ _ _ _ _) as [[li' rs]|[e|]]; [|done..]. simpl in *.
  destruct Hstep as [Hli' Hrs]. specialize (IH li' ltac:(lia)).
  destruct (compute_loop _ _ _ _ _) as [rest|[e|]]; [|done..]. simpl.
  destruct Hrs as [(lo & Hlo & Hsep)|[n ->]].
  - apply chain_weaken with lo; [done|]. apply chain_app with li'; [done|lia|done].
  - simpl. left. split_and!; [done..|]. apply chain_weaken with li'; [lia|done].
Qed.

(** *** Sorting a chain *)
Lemma insert_sorted_end r rs :
  Forall (λ r', repl_start r' ≤ repl_start r) rs → insert_sorted r rs = rs ++ [r].
Proof.
  induction 1 as [|r' rs Hr Hrs IH]; simpl; [done|].
  destruct (repl_start r <? repl_start r') eqn:E; [apply Nat.ltb_lt in E; lia|]. by rewrite IH.
Qed.

Lemma insert_sorted_middle r rs1 rs2 :
  Forall (λ r', repl_start r' ≤ repl_start r) rs1 →
  Forall (λ r', repl_start r < repl_start r') rs2 →
  insert_sorted r (rs1 ++ rs2) = rs1 ++ r :: rs2.
Proof.
  intros H1 H2. induction H1 as [|r' rs1 Hr Hrs IH]; simpl.
  - destruct H2 as [|r' rs2 Hr' H2]; [done|]. simpl.
    destruct (repl_start r <? repl_start r') eqn:E; [done|apply Nat.ltb_ge in E; lia].
  - destruct (repl_start r <? repl_start r') eqn:E; [apply Nat.ltb_lt in E; lia|]. by rewrite IH.
Qed.

Lemma separated_app hi mid lo rs1 rs2 :
  separated mid lo rs1 → mid ≤ hi → separated hi mid rs2 → separated hi lo (rs1 ++ rs2).
Proof.
  revert lo. induction rs1 as [|[[s o] n] rs1 IH]; intros lo; simpl.
  - intros. by apply separated_weaken with mid.
  - intros (? & ? & ?) ? ?. split_and!; [done|lia|eauto].
Qed.

Lemma separated_starts hi lo rs : separated hi lo rs → Forall (λ r, repl_start r ≤ hi) rs.
Proof.
  revert lo. induction rs as [|[[s o] n] rs IH]; intros lo; simpl; [done|].
  intros (? & ? & Hs). constructor; [unfold repl_start; simpl; lia|eauto].
Qed.

Lemma separated_from_le hi lo rs : separated hi lo rs → lo ≤ hi.
Proof.
  revert lo. induction rs as [|[[s o] n] rs IH]; intros lo; simpl; [done|].
  intros (? & ? & Hs%IH). lia.
Qed.

Definition at_end (len : nat) (r : Replacement) : Prop := repl_start r = len ∧ snd (fst r) = 0.

Lemma separated_at_end len rs : Forall (at_end len) rs → separated len len rs.
Proof.
  induction 1 as [|[[s o] n] rs [Hs Ho] Hrs IH]; unfold repl_start in *; simpl in *; [done|].
  subst. rewrite Nat.add_0_r. auto.
Qed.

Lemma sort_chain len li rs A B :
  separated li 0 A → Forall (at_end len) B → li ≤ len → chain len li rs →
  separated len 0 (foldl (flip insert_sorted) (A ++ B) rs).
Proof.
  revert li A B. induction rs as [|[[s o] n] rs IH]; intros li A B HA HB Hli Hc.
  { simpl. apply separated_app with li; [done..|].
    apply separated_weaken with len; [done|]. by apply separated_at_end. }
  assert (Forall (λ r, repl_start r ≤ len) (A ++ B)) as Hall.
  { apply Forall_app. split.
    - eapply Forall_impl; [by eapply separated_starts|]. simpl. lia.
    - eapply Forall_impl; [done|]. intros r [-> _]. lia. }
  cbn [foldl]. unfold flip at 2.
  destruct (decide (s = len ∧ o = 0)) as [[-> ->]|Hne].
  { rewrite insert_sorted_end by done. rewrite <- app_assoc.
    apply IH with li; [done| |done|].
    - apply Forall_app. split; [done|]. by repeat constructor.
    - destruct Hc as [(_ & _ & Hc)|(? & ? & Hc)]; [done|]. by apply chain_weaken with (len + 0); [lia|]. }
  destruct Hc as [(? & ? & _)|(Hs & Ho & Hc)]; [naive_solver|].
  assert (s < len) by (destruct (decide (s = len)); [subst; exfalso; apply Hne; lia|lia]).
  rewrite insert_sorted_middle.
  - change (A ++ (s, o, n) :: B) with (A ++ [(s, o, n)] ++ B). rewrite app_assoc.
    apply IH with (s + o); [|done|done|done].
    apply separated_app with li; [done|lia|]. simpl. lia.
  - eapply Forall_impl; [by eapply separated_starts|]. unfold repl_start. simpl. lia.
  - eapply Forall_impl; [done|]. intros r [-> _]. unfold repl_start. simpl. lia.
Qed.

Lemma compute_replacements_preserve ls path chunks :
  Forall chunk_wf chunks →
  match compute_replacements ls path chunks PreserveLineEndings with
  | Ok rs => separated (length ls) 0 rs
  | Err (Fail _) => True
  | Err Panic => False
  end.
Proof.
  intros Hwf. unfold compute_replacements.
  pose proof (compute_loop_preserve ls path 0 chunks Hwf ltac:(lia)) as H.
  destruct (compute_loop _ _ _ _ _) as [rs|[e|]]; [|done..]. simpl.
  apply (sort_chain _ 0 rs [] []); [simpl; lia|done|lia|done].
Qed.

(** ** The [NormalizeToLf] mode *)
Lemma remove_lines_take_drop n start ls :
  start ≤ length ls → remove_lines n start ls = take start ls ++ drop (start + n) ls.
Proof.
  revert ls. induction n as [|n IH]; intros ls Hs; simpl.
  - by rewrite Nat.add_0_r, take_drop.
  - destruct (start <? length ls) eqn:E.
    + apply Nat.ltb_lt in E. assert (length (delete start ls) = length ls - 1) as Hd.
      { rewrite length_delete; [done|by apply lookup_lt_is_Some]. }
      rewrite IH by lia. rewrite delete_take_drop. rewrite take_app_le
        by (rewrite length_take; lia). rewrite take_take, Nat.min_id.
      f_equal. rewrite drop_app_ge by (rewrite length_take; lia).
      rewrite length_take, drop_drop. f_equal. lia.
    + apply Nat.ltb_ge in E. rewrite IH by done. f_equal. rewrite !drop_ge by lia. done.
Qed.

Lemma insert_lines_app at_idx seg ls :
  at_idx ≤ length ls → insert_lines at_idx seg ls = Some (take at_idx ls ++ seg ++ drop at_idx ls).
Proof.
  revert at_idx ls. induction seg as [|l seg IH]; intros i ls Hi; simpl.
  - by rewrite take_drop.
  - apply Nat.leb_le in Hi as Hb. rewrite Hb.
    rewrite IH by (rewrite length_app, length_take; simpl; rewrite length_drop; lia).
    assert (S i = length (take i ls ++ [l])) as Hl by (rewrite length_app, length_take; simpl; lia).
    change (take i ls ++ l :: drop i ls) with (take i ls ++ [l] ++ drop i ls).
    rewrite (app_assoc (take i ls) [l]), Hl, take_app_length, drop_app_length.
    by rewrite <- app_assoc.
Qed.

Lemma apply_replacements_cons ls r rs ls' :
  apply_replacements ls rs = Some ls' → repl_start r ≤ length ls' →
  apply_replacements ls (r :: rs) =
  Some (take (repl_start r) ls' ++ snd r ++ drop (repl_start r + snd (fst r)) ls').
Proof.
  destruct r as [[s o] n]. unfold repl_start. simpl. intros -> Hs. simpl.
  rewrite remove_lines_take_drop by done. rewrite insert_lines_app.
  - rewrite take_app_le by (rewrite length_take; lia).
    rewrite take_take, Nat.min_id. f_equal. f_equal. f_equal.
    rewrite drop_app_ge by (rewrite length_take; lia).
    rewrite length_take, Nat.min_l by done. by rewrite Nat.sub_diag.
  - rewrite length_app, length_take. lia.
Qed.

(** Replacements in increasing order of their start, all inside the file. *)
Fixpoint starts_sorted (len from : nat) (rs : list Replacement) : Prop :=
  match rs with
  | [] => from ≤ len
  | r :: rs' => from ≤ repl_start r ∧ starts_sorted len (repl_start r) rs'
  end.

(** The lines before the first start are untouched, so no index is out of range. *)
Lemma apply_replacements_total ls from rs :
  starts_sorted (length ls) from rs →
  ∃ ls', apply_replacements ls rs = Some ls' ∧ take from ls' = take from ls ∧ from ≤ length ls'.
Proof.
  revert from. induction rs as [|r rs IH]; intros from; cbn [starts_sorted].
  { intros. by exists ls. }
  intros [Hr Hs]. destruct (IH _ Hs) as (ls' & Ha & Ht & Hl).
  eexists. split; [by apply apply_replacements_cons|].
  assert (length (take (repl_start r) ls') = repl_start r) as Hlt by (rewrite length_take; lia).
  split.
  - rewrite take_app_le by lia. rewrite take_take, Nat.min_l by done.
    apply (f_equal (take from)) in Ht. by rewrite !take_take, Nat.min_l in Ht.
  - rewrite length_app. lia.
Qed.

Lemma insert_sorted_starts len r from rs :
  from ≤ repl_start r ≤ len → starts_sorted len from rs →
  starts_sorted len from (insert_sorted r rs).
Proof.
  revert from. induction rs as [|r' rs IH]; intros from Hr; simpl; [lia|].
  intros [Hr' Hs]. destruct (repl_start r <? repl_start r') eqn:E; simpl.
  - apply Nat.ltb_lt in E. split_and!; [lia|lia|done].
  - apply Nat.ltb_ge in E. split; [done|]. apply IH; [lia|done].
Qed.

Lemma sort_replacements_sorted len rs :
  Forall (λ r, repl_start r ≤ len) rs → starts_sorted len 0 (sort_replacements rs).
Proof.
  unfold sort_replacements. intros Hrs.
  assert (∀ acc, starts_sorted len 0 acc → starts_sorted len 0 (foldl (flip insert_sorted) acc rs))
    as H; [|apply H; simpl; lia].
  induction Hrs as [|r rs Hr Hrs IH]; intros acc Hacc; simpl; [done|].
  apply IH. apply insert_sorted_starts; [lia|done].
Qed.

Lemma seek_start_le ls pattern start eof m i :
  seek_sequence ls pattern start eof m = Some i → start ≤ length ls →
  i + length pattern ≤ length ls.
Proof.
  intros H Hs. destruct (decide (pattern = [])) as [->|Hne].
  - unfold seek_sequence in H. simpl in *. simplify_eq. lia.
  - by apply seek_sequence_bounds in H as (? & _).
Qed.

Lemma insertion_index_le ls m : insertion_index ls m ≤ length ls.
Proof. unfold insertion_index. destruct m; [case_match|]; lia. Qed.

Lemma compute_chunk_normalize ls path li chunk :
  li ≤ length ls →
  match compute_chunk ls path NormalizeToLf li chunk with
  | Ok (li', rs) => li' ≤ length ls ∧ Forall (λ r, repl_start r ≤ length ls) rs
  | Err (Fail _) => True
  | Err Panic => False
  end.
Proof.
  intros Hli. unfold compute_chunk.
  set (ctx := match change_context chunk with None => _ | Some _ => _ end).
  assert (match ctx with
          | Ok li' => li' ≤ length ls | Err (Fail _) => True | Err Panic => False
          end) as Hctx.
  { unfold ctx. destruct (change_context chunk) as [c|]; [|lia].
    destruct (seek_sequence ls [c] li false _) as [i|] eqn:E; [|done].
    apply seek_start_le in E; [|done]. simpl in E. lia. }
  destruct ctx as [li'|[e|]]; [|done..]. cbn [mbind result_bind].
  destruct (is_empty (old_lines chunk)).
  { split; [done|]. repeat constructor. apply insertion_index_le. }
  destruct (locate_old_lines ls chunk li' NormalizeToLf) as [[[i|] pattern] new_slice] eqn:El;
    [|done]. cbn [mbind result_bind].
  assert (i + length pattern ≤ length ls) as Hi.
  { unfold locate_old_lines in El.
    repeat case_match; simplify_eq;
      match goal with H : seek_sequence _ _ _ _ _ = Some _ |- _ => by apply seek_start_le in H end. }
  split; [done|]. repeat constructor. unfold repl_start. simpl. lia.
Qed.

Lemma compute_replacements_normalize ls path chunks :
  match compute_replacements ls path chunks NormalizeToLf with
  | Ok rs => starts_sorted (length ls) 0 rs
  | Err (Fail _) => True
  | Err Panic => False
  end.
Proof.
  unfold compute_replacements.
  assert (∀ li, li ≤ length ls →
    match compute_loop ls path NormalizeToLf li chunks with
    | Ok rs => Forall (λ r, repl_start r ≤ length ls) rs
    | Err (Fail _) => True
    | Err Panic => False
    end) as H.
  { induction chunks as [|c chunks IH]; intros li Hli; simpl; [constructor|].
    pose proof (compute_chunk_normalize ls path li c Hli) as Hc.
    destruct (compute_chunk _ _ _ _ _) as [[li' rs]|[e|]]; [|done..]. simpl in *.
    destruct Hc as [Hli' Hrs]. specialize (IH li' Hli').
    destruct (compute_loop _ _ _ _ _) as [rest|[e|]]; [|done..]. simpl.
    by apply Forall_app. }
  specialize (H 0 ltac:(lia)).
  destruct (compute_loop _ _ _ _ _) as [rs|[e|]]; [|done..]. simpl.
  by apply sort_replacements_sorted.
Qed.

(** *** The in-place algorithm agrees with the specification *)
Lemma apply_replacements_from ls from rs :
  separated (length ls) from rs →
  apply_replacements ls rs = Some (take from ls ++ splice id from (drop from ls) rs).
Proof.
  revert from. induction rs as [|[[s o] n] rs IH]; intros from.
  { intros _. simpl. by rewrite take_drop. }
  intros (Hs & Ho & Hsep). pose proof (IH _ Hsep) as Happ.
  rewrite (apply_replacements_cons _ _ _ _ Happ).
  2: { unfold repl_start. simpl. rewrite length_app, length_take. lia. }
  unfold repl_start. cbn [fst snd splice]. f_equal.
  assert (length (take (s + o) ls) = s + o) as Hl by (rewrite length_take; lia).
  rewrite take_app_le by lia. rewrite take_take, Nat.min_l by lia.
  rewrite (drop_app_ge _ _ (s + o)) by lia. rewrite Hl, Nat.sub_diag, drop_0.
  rewrite drop_drop. replace (from + (s + o - from)) with (s + o) by lia.
  rewrite map_id, (app_assoc (take from ls)). f_equal.
  rewrite <- (take_drop from (take s ls)), take_take, Nat.min_l by lia.
  by rewrite skipn_firstn_comm.
Qed.

Lemma derive_new_contents_no_panic path_text contents chunks m :
  Forall chunk_wf chunks → derive_new_contents path_text contents chunks m ≠ Err Panic.
Proof.
  intros Hwf. destruct m; simpl.
  - pose proof (compute_replacements_normalize (split_lines_lf contents) path_text chunks) as H.
    destruct (compute_replacements _ _ _ _) as [rs|[e|]]; [|done..]. simpl.
    by destruct (apply_replacements_total _ _ _ H) as (ls' & -> & _).
  - pose proof (compute_replacements_preserve (line_texts (parse contents)) path_text chunks Hwf) as H.
    destruct (compute_replacements _ _ _ _) as [rs|[e|]]; [|done..]. simpl.
    by rewrite apply_replacements_file_splice.
Qed.

(** ** Properties *)

(** no patch that [parse_patch] accepts can make the update of a file panic,
    whatever the contents of the file and in both update modes: every index
    computation and slice of the update stays in range. *)
Theorem parsed_update_never_panics patch args path mv chunks path_text contents m :
  parse_patch patch = Ok args → UpdateFile path mv chunks ∈ arg_hunks args →
  derive_new_contents path_text contents chunks m ≠ Err Panic.
Proof.
  intros Hp Hin. apply derive_new_contents_no_panic.
  pose proof (parse_patch_ok_wf patch args Hp) as Hwf.
  rewrite Forall_forall in Hwf. apply Hwf in Hin as [_ Hc].
  eapply Forall_impl; [done|]. by intros c [? _].
Qed.

Definition sample_chunks : list UpdateFileChunk :=
  match arg_hunks sample_args with UpdateFile _ _ cs :: _ => cs | _ => [] end.

Lemma parsed_update_never_panics_witness :
  length sample_chunks = 1 ∧
  derive_new_contents (str "/a.rs") (str "fn a() {") sample_chunks PreserveLineEndings ≠ Err Panic.
Proof.
  split; [reflexivity|].
  apply (parsed_update_never_panics sample_patch sample_args (str "a.rs") None).
  - apply sample_args_parsed.
  - left.
Defined.

(** C4: a successful update in [PreserveLineEndings] mode is the specification:
    the computed replacements are disjoint, in source order and inside the file,
    and the new contents are the old lines with their own terminators outside
    the replaced runs and the new lines with the preferred terminator inside. *)
Theorem preserve_update_refines_splice path_text contents chunks new :
  Forall chunk_wf chunks →
  derive_new_contents path_text contents chunks PreserveLineEndings = Ok new →
  let f := parse contents in
  ∃ rs, compute_replacements (line_texts f) path_text chunks PreserveLineEndings = Ok rs ∧
    separated (length (line_texts f)) 0 rs ∧
    new = concat (map (λ l, print_line (fill_ending (preferred_ending f) l))
            (splice (λ t, mkLine t (Some (preferred_ending f))) 0 (source_lines f) rs)).
Proof.
  intros Hwf. cbn zeta. simpl.
  pose proof (compute_replacements_preserve (line_texts (parse contents)) path_text chunks Hwf) as H.
  destruct (compute_replacements _ _ _ _) as [rs|[e|]]; [|done..]. simpl.
  rewrite apply_replacements_file_splice by done. simpl. intros [= <-].
  exists rs. split_and!; [done..|]. unfold into_contents. simpl. by rewrite map_map.
Qed.

Definition sample_chunk : UpdateFileChunk :=
  mkChunk None [str "a"; str "b"] [str "a"; str "x"] [(0, 0)] false.
Definition sample_contents : rstring := str "a" ++ [CR; LF] ++ str "b" ++ [LF].

Lemma preserve_update_refines_splice_witness :
  derive_new_contents (str "/f") sample_contents [sample_chunk] PreserveLineEndings =
    Ok (str "a" ++ [CR; LF] ++ str "x" ++ [CR; LF]) ∧
  (let f := parse sample_contents in
   ∃ rs, compute_replacements (line_texts f) (str "/f") [sample_chunk] PreserveLineEndings = Ok rs ∧
    separated (length (line_texts f)) 0 rs ∧
    str "a" ++ [CR; LF] ++ str "x" ++ [CR; LF] =
      concat (map (λ l, print_line (fill_ending (preferred_ending f) l))
            (splice (λ t, mkLine t (Some (preferred_ending f))) 0 (source_lines f) rs))).
Proof.
  split; [vm_compute; reflexivity|].
  apply (preserve_update_refines_splice (str "/f") sample_contents [sample_chunk]).
  - repeat constructor. by exists (str "a").
  - vm_compute. reflexivity.
Defined.

(** the in-place algorithm of the [NormalizeToLf] mode (removing and
    inserting lines one by one, last replacement first) computes the
    specification [splice] on disjoint replacements in source order, and never
    indexes out of range on any replacements sorted by their start. *)
Theorem apply_replacements_splice ls rs :
  (separated (length ls) 0 rs → apply_replacements ls rs = Some (splice id 0 ls rs)) ∧
  (starts_sorted (length ls) 0 rs → is_Some (apply_replacements ls rs)).
Proof.
  split.
  - intros H. by rewrite (apply_replacements_from ls 0).
  - intros H. by destruct (apply_replacements_total ls 0 rs H) as (ls' & -> & _).
Qed.

Definition sample_rs : list Replacement := [(0, 1, [str "x"; str "y"]); (2, 0, [str "z"])].

Lemma apply_replacements_splice_witness :
  apply_replacements [str "a"; str "b"] sample_rs = Some [str "x"; str "y"; str "b"; str "z"] ∧
  is_Some (apply_replacements [str "a"; str "b"] sample_rs).
Proof.
  split.
  - rewrite (proj1 (apply_replacements_splice [str "a"; str "b"] sample_rs)).
    + vm_compute. reflexivity.
    + vm_compute. lia.
  - apply (proj2 (apply_replacements_splice [str "a"; str "b"] sample_rs)). vm_compute. lia.
Defined.

Lemma join_lf_terminated ls : join [LF] (ls ++ [[]]) = [] ∨ last (join [LF] (ls ++ [[]])) = Some LF.
Proof.
  destruct (decide (ls = [])) as [->|Hne]; [by left|]. right.
  rewrite join_app by done. simpl. apply last_snoc.
Qed.

(** An update in [NormalizeToLf] mode always yields a file that is empty or ends in
    a line feed. *)
Lemma normalize_update_terminated path_text contents chunks new :
  derive_new_contents path_text contents chunks NormalizeToLf = Ok new →
  new = [] ∨ last new = Some LF.
Proof.
  simpl. destruct (compute_replacements _ _ _ _) as [rs|]; [|done]. simpl.
  destruct (apply_replacements _ _) as [ls|]; [|done]. simpl. intros [= <-].
  unfold join_lines_lf, last_is_empty.
  destruct (last ls) as [l|] eqn:El; [|apply (join_lf_terminated ls)].
  destruct l as [|c l]; [|apply (join_lf_terminated ls)].
  apply last_Some in El as [ls' ->]. apply join_lf_terminated.
Qed.

Lemma normalize_update_terminated_witness :
  ∃ new, derive_new_contents (str "/f") sample_contents
           [mkChunk None [str "b"] [str "x"] [] false] NormalizeToLf = Ok new ∧
    (new = [] ∨ last new = Some LF).
Proof.
  eexists. split; [vm_compute; reflexivity|].
  apply (normalize_update_terminated (str "/f") sample_contents
    [mkChunk None [str "b"] [str "x"] [] false]). vm_compute. reflexivity.
Defined.

(** The chunks [-a -b +x] and, anchored at the end of the file, [-b +y]. *)
Definition overlapping_chunks (y : rstring) : list UpdateFileChunk :=
  [mkChunk None [str "a"; str "b"] [str "x"] [] false;
   mkChunk None [str "b"] [y] [] true].

(** in [NormalizeToLf] mode a chunk anchored at the end of the file is located
    from the end even when an earlier chunk already consumed those lines; the two
    replacements overlap, the update succeeds, and the added line [y] is lost.
    The [PreserveLineEndings] mode reports the missing lines instead. *)
Theorem normalize_overlap_loses_addition y :
  let contents := str "a" ++ [LF] ++ str "b" ++ [LF] in
  derive_new_contents (str "/f") contents (overlapping_chunks y) NormalizeToLf =
    Ok (str "x" ++ [LF]) ∧
  derive_new_contents (str "/f") contents (overlapping_chunks y) PreserveLineEndings =
    Err (Fail (lines_not_found (str "/f") [str "b"])).
Proof. split; vm_compute; reflexivity. Qed.
