(* ===== verification/ApplyPatch.v ===== *)
(** * Applying a patch to a file system

    Models [sofia-rs/apply-patch/src/lib.rs]: the hunks of a parsed patch are
    applied one after the other to an [ExecutorFileSystem], and the committed
    mutations are recorded in an [AppliedPatchDelta] that says whether it is an
    exact account of what happened.  The file system trait of
    [sofia-rs/file-system/src/lib.rs] and the path operations of
    [sofia-rs/utils/path-uri] are interfaces (type classes); the code runs in a
    state and error monad over the file system and the delta. *)

From stdpp Require Import base list numbers strings gmap.
From S2P Require Import Prelude PatchParser FileUpdate SeekSequence.

(** ** Interfaces *)

(** What the code uses of [PathUri]: [join] fails with the message of a
    [PathUriParseError], [uri_native] is [inferred_native_path_string]. *)
Class PathUriOps (PathUri : Type) := {
  uri_eq_dec :: EqDecision PathUri;
  uri_countable :: Countable PathUri;
  uri_join : PathUri → rstring → result rstring PathUri;
  uri_parent : PathUri → option PathUri;
  uri_native : PathUri → rstring;
}.

Record ReadFileOptions := mkReadOpts { read_follow_symlinks : bool }.
Record WriteFileOptions := mkWriteOpts { write_follow_symlinks : bool }.
Record GetMetadataOptions := mkMetaOpts { meta_follow_symlinks : bool }.
Record CreateDirectoryOptions := mkDirOpts { dir_recursive : bool; dir_follow_symlinks : bool }.
Record RemoveOptions := mkRemoveOpts {
  remove_recursive : bool; remove_force : bool; remove_follow_symlinks : bool }.

Record FileMetadata := mkMetadata {
  is_directory : bool;
  is_file : bool;
  is_symlink : bool;
  file_size : N;
  created_at_ms : Z;
  modified_at_ms : Z;
}.

(** The operations of [ExecutorFileSystem] the code calls.  [F] is the state of
    the file system; operations that can change it return the new state also
    when they fail. *)
Class ExecutorFileSystem (PathUri Sandbox F : Type) := {
  read_file_text : F → PathUri → ReadFileOptions → option Sandbox → result io_error rstring;
  get_metadata : F → PathUri → GetMetadataOptions → option Sandbox → result io_error FileMetadata;
  write_file : F → PathUri → rstring → WriteFileOptions → option Sandbox →
               result io_error unit * F;
  create_directory : F → PathUri → CreateDirectoryOptions → option Sandbox →
                     result io_error unit * F;
  remove : F → PathUri → RemoveOptions → option Sandbox → result io_error unit * F;
}.

(** [std::io::Write], one [writeln!] at a time. *)
Class IoWrite (W : Type) := {
  writeln : W → rstring → result io_error unit * W;
}.

(** ** Options *)
Record ApplyPatchOptions := mkOptions {
  update_file_mode : ApplyPatchFileUpdateMode;
  follow_symlinks : bool;
}.
Definition default_options : ApplyPatchOptions := mkOptions NormalizeToLf true.

(** [apply_patch_file_update_mode_from_env], on the value of the variable. *)
Definition apply_patch_file_update_mode_from_env (var : option rstring)
    : ApplyPatchFileUpdateMode :=
  if is_some_and var (str_eqb (str "1")) then PreserveLineEndings else NormalizeToLf.

(** ** Deltas and errors *)
Section Deltas.
Context {PathUri : Type}.

Inductive AppliedPatchFileChange :=
| ChangeAdd (content : rstring) (overwritten_content : option rstring)
| ChangeDelete (content : rstring)
| ChangeUpdate (move_path : option PathUri) (old_content : rstring)
    (overwritten_move_content : option rstring) (new_content : rstring).

Record AppliedPatchChange := mkChange {
  change_path : PathUri;
  change_change : AppliedPatchFileChange;
}.

Record AppliedPatchDelta := mkDelta {
  changes : list AppliedPatchChange;
  exact : bool;
}.

Definition empty_delta : AppliedPatchDelta := mkDelta [] true.
Definition delta_append (d other : AppliedPatchDelta) : AppliedPatchDelta :=
  mkDelta (changes d ++ changes other) (exact d && exact other).

(** [ApplyPatchFailure]. *)
Record ApplyPatchFailure := mkFailure {
  failure_error : ApplyPatchError;
  failure_delta : AppliedPatchDelta;
}.
Definition without_delta (e : ApplyPatchError) : ApplyPatchFailure := mkFailure e empty_delta.
End Deltas.
Arguments AppliedPatchFileChange : clear implicits.
Arguments AppliedPatchChange : clear implicits.
Arguments AppliedPatchDelta : clear implicits.
Arguments ApplyPatchFailure : clear implicits.

(** The [anyhow::Error]s of the code: an [io::Error] under a context, an
    [ApplyPatchError], a [PathUriParseError] and a message. *)
Inductive AnyhowError :=
| AnyContext (context : rstring) (source : io_error)
| AnyApply (e : ApplyPatchError)
| AnyPathUri (message : rstring)
| AnyMsg (message : rstring).

(** The [Display] implementations. *)
Definition parse_error_display (e : ParseError) : rstring :=
  match e with
  | InvalidPatchError m => str "invalid patch: " ++ m
  | InvalidHunkError m n => str "invalid hunk at line " ++ dec (N.of_nat n) ++ str ", " ++ m
  end.

Definition apply_patch_error_display (e : ApplyPatchError) : rstring :=
  match e with
  | EParse e => parse_error_display e
  | EIo context source => context ++ str ": " ++ io_message source
  | EComputeReplacements m => m
  | EPathUri m => m
  | EImplicitInvocation =>
      str "patch detected without explicit call to apply_patch. Rerun as [" ++ [34%N] ++
      str "apply_patch" ++ [34%N] ++ str ", " ++ [34%N] ++ str "<patch>" ++ [34%N] ++ str "]"
  end.

Definition anyhow_display (e : AnyhowError) : rstring :=
  match e with
  | AnyContext context _ => context
  | AnyApply e => apply_patch_error_display e
  | AnyPathUri m => m
  | AnyMsg m => m
  end.

(** [error.downcast_ref::<std::io::Error>()]. *)
Definition downcast_io (e : AnyhowError) : option io_error :=
  match e with AnyContext _ source => Some source | _ => None end.

(** [impl From<std::io::Error> for ApplyPatchError]. *)
Definition apply_patch_error_from_io (e : io_error) : ApplyPatchError :=
  EIo (str "I/O error") e.

Record AffectedPaths := mkAffected {
  added : list rstring;
  modified : list rstring;
  deleted : list rstring;
}.
Definition push_added (p : rstring) (a : AffectedPaths) : AffectedPaths :=
  mkAffected (added a ++ [p]) (modified a) (deleted a).
Definition push_modified (p : rstring) (a : AffectedPaths) : AffectedPaths :=
  mkAffected (added a) (modified a ++ [p]) (deleted a).
Definition push_deleted (p : rstring) (a : AffectedPaths) : AffectedPaths :=
  mkAffected (added a) (modified a) (deleted a ++ [p]).

(** ** The monad of the patch application *)
Section Apply.
Context {PathUri Sandbox F : Type} `{!PathUriOps PathUri}
  `{!ExecutorFileSystem PathUri Sandbox F}.
Context (sandbox : option Sandbox).

Local Notation delta := (AppliedPatchDelta PathUri).
Local Notation state := (F * delta)%type.

Definition prog (A : Type) : Type := state → result (fail AnyhowError) A * state.

#[global] Instance prog_ret : MRet prog := λ A a s, (Ok a, s).
#[global] Instance prog_bind : MBind prog := λ A B f m s,
  match m s with
  | (Ok a, s') => f a s'
  | (Err e, s') => (Err e, s')
  end.

(** [return Err(e)]. *)
Definition throw {A} (e : AnyhowError) : prog A := λ s, (Err (Fail e), s).
(** The [?] operator. *)
Definition try_ {A} (r : result (fail AnyhowError) A) : prog A := λ s, (r, s).
(** [.with_context(|| context)?] on an [io::Result]. *)
Definition with_context {A} (context : rstring) (r : result io_error A) : prog A :=
  try_ (map_err (λ e, Fail (AnyContext context e)) r).
(** A read-only and a mutating operation of the file system. *)
Definition fs_get {A} (op : F → A) : prog A := λ s, (Ok (op (fst s)), s).
Definition fs_do {A} (op : F → A * F) : prog A := λ s,
  let '(a, f) := op (fst s) in (Ok a, (f, snd s)).
Definition and_exact (b : bool) : prog unit := λ s,
  (Ok tt, (fst s, mkDelta (changes (snd s)) (exact (snd s) && b))).
Definition change_count : prog nat := λ s, (Ok (length (changes (snd s))), s).
Definition push_change (c : AppliedPatchChange PathUri) : prog unit := λ s,
  (Ok tt, (fst s, mkDelta (changes (snd s) ++ [c]) (exact (snd s)))).
Definition set_change (i : nat) (c : AppliedPatchChange PathUri) : prog unit := λ s,
  (Ok tt, (fst s, mkDelta (<[i:=c]> (changes (snd s))) (exact (snd s)))).

(** [try_write!]: a failed write makes the delta inexact. *)
Definition try_write {A} (m : prog A) : prog A := λ s,
  match m s with
  | (Err (Fail e), (f, d)) => (Err (Fail e), (f, mkDelta (changes d) false))
  | r => r
  end.

(** ** Helpers *)
Definition ensure_not_directory (path : PathUri) (fl : bool) : prog (result io_error unit) :=
  metadata ← fs_get (λ f, get_metadata f path (mkMetaOpts fl) sandbox);
  mret (match metadata with
        | Err e => Err e
        | Ok md =>
            if is_directory md
            then Err (mkIoError InvalidInput (str "path is a directory"))
            else Ok tt
        end).

Definition remove_failure_was_side_effect_free (path : PathUri) (expected : option rstring)
    (fl : bool) : prog bool :=
  match expected with
  | Some expected_content =>
      r ← fs_get (λ f, read_file_text f path (mkReadOpts fl) sandbox);
      mret (match r with Ok content => str_eqb content expected_content | Err _ => false end)
  | None => mret false
  end.

Definition note_existing_path_delta_support (path : PathUri) (fl : bool) : prog unit :=
  metadata ← fs_get (λ f, get_metadata f path (mkMetaOpts fl) sandbox);
  match metadata with
  | Ok md => if is_file md && negb (is_symlink md) then mret tt else and_exact false
  | Err e => if bool_decide (io_kind e = NotFound) then mret tt else and_exact false
  end.

Definition read_optional_file_text_for_delta (path : PathUri) (fl : bool)
    : prog (option rstring) :=
  _ ← note_existing_path_delta_support path fl;
  r ← fs_get (λ f, read_file_text f path (mkReadOpts fl) sandbox);
  match r with
  | Ok content => mret (Some content)
  | Err e =>
      if bool_decide (io_kind e = NotFound) then mret None
      else _ ← and_exact false; mret None
  end.

Definition failed_write (path : PathUri) : rstring :=
  str "Failed to write file " ++ uri_native path.

Definition write_file_with_missing_parent_retry (path : PathUri) (contents : rstring) (fl : bool)
    : prog unit :=
  r ← fs_do (λ f, write_file f path contents (mkWriteOpts fl) sandbox);
  match r with
  | Ok tt => mret tt
  | Err err =>
      if bool_decide (io_kind err = NotFound) then
        _ ← match uri_parent path with
            | Some parent =>
                c ← fs_do (λ f, create_directory f parent (mkDirOpts true fl) sandbox);
                with_context (str "Failed to create parent directories for " ++ uri_native path) c
            | None => mret tt
            end;
        w ← fs_do (λ f, write_file f path contents (mkWriteOpts fl) sandbox);
        with_context (failed_write path) w
      else with_context (failed_write path) (Err err)
  end.

(** [AppliedPatch] and [derive_new_contents_from_chunks] of [file_update.rs]. *)
Record AppliedPatch := mkApplied { original_contents : rstring; new_contents : rstring }.

Definition derive_new_contents_from_chunks (path : PathUri) (chunks : list UpdateFileChunk)
    (m : ApplyPatchFileUpdateMode) (fl : bool) (f : F)
    : result (fail ApplyPatchError) AppliedPatch :=
  original ← map_err
               (λ e, Fail (EIo (str "Failed to read file to update " ++ uri_native path) e))
               (read_file_text f path (mkReadOpts fl) sandbox);
  new ← derive_new_contents (uri_native path) original chunks m;
  Ok (mkApplied original new).

(** [?] from [ApplyPatchError] into [anyhow::Error]. *)
Definition anyhow_fail (e : fail ApplyPatchError) : fail AnyhowError :=
  match e with Fail e => Fail (AnyApply e) | Panic => Panic end.

(** [Hunk::resolve_path] of [parser.rs]. *)
Definition resolve_path (cwd : PathUri) (h : Hunk) : result rstring PathUri :=
  uri_join cwd (hunk_source_path h).

(** ** The body of the loop, one definition for each kind of hunk *)
Definition apply_add_file (path_uri : PathUri) (contents : rstring) (fl : bool) : prog unit :=
  overwritten_content ← read_optional_file_text_for_delta path_uri fl;
  _ ← try_write (write_file_with_missing_parent_retry path_uri contents fl);
  push_change (mkChange path_uri (ChangeAdd contents overwritten_content)).

Definition apply_delete_file (path_uri : PathUri) (fl : bool) : prog unit :=
  let context := str "Failed to delete file " ++ uri_native path_uri in
  _ ← note_existing_path_delta_support path_uri fl;
  read ← fs_get (λ f, read_file_text f path_uri (mkReadOpts fl) sandbox);
  let deleted_content := result_ok read in
  _ ← (if is_ok read then mret tt else and_exact false);
  nd ← ensure_not_directory path_uri fl;
  _ ← with_context context nd;
  r ← fs_do (λ f, remove f path_uri (mkRemoveOpts false false fl) sandbox);
  match r with
  | Err error =>
      free ← remove_failure_was_side_effect_free path_uri deleted_content fl;
      _ ← and_exact free;
      throw (AnyContext context error)
  | Ok tt =>
      match deleted_content with
      | Some content => push_change (mkChange path_uri (ChangeDelete content))
      | None => mret tt
      end
  end.

(** The branch of an update with a [move_path]. *)
Definition apply_move (path_uri dest_uri : PathUri) (ap : AppliedPatch) (fl : bool) : prog unit :=
  let context := str "Failed to remove original " ++ uri_native path_uri in
  overwritten_move_content ← read_optional_file_text_for_delta dest_uri fl;
  _ ← try_write (write_file_with_missing_parent_retry dest_uri (new_contents ap) fl);
  dest_write_change_index ← change_count;
  _ ← push_change (mkChange dest_uri (ChangeAdd (new_contents ap) overwritten_move_content));
  nd ← ensure_not_directory path_uri fl;
  _ ← with_context context nd;
  r ← fs_do (λ f, remove f path_uri (mkRemoveOpts false false fl) sandbox);
  match r with
  | Err error =>
      free ← remove_failure_was_side_effect_free path_uri (Some (original_contents ap)) fl;
      _ ← and_exact free;
      throw (AnyContext context error)
  | Ok tt =>
      set_change dest_write_change_index
        (mkChange path_uri
           (ChangeUpdate (Some dest_uri) (original_contents ap) overwritten_move_content
              (new_contents ap)))
  end.

(** The branch of an update in place. *)
Definition apply_update_in_place (path_uri : PathUri) (ap : AppliedPatch) (fl : bool)
    : prog unit :=
  _ ← try_write
        (w ← fs_do (λ f, write_file f path_uri (new_contents ap) (mkWriteOpts fl) sandbox);
         with_context (failed_write path_uri) w);
  push_change (mkChange path_uri
    (ChangeUpdate None (original_contents ap) None (new_contents ap))).

Definition apply_update_file (cwd path_uri : PathUri) (move_path : option rstring)
    (chunks : list UpdateFileChunk) (m : ApplyPatchFileUpdateMode) (fl : bool) : prog unit :=
  _ ← note_existing_path_delta_support path_uri fl;
  derived ← fs_get (derive_new_contents_from_chunks path_uri chunks m fl);
  ap ← try_ (map_err anyhow_fail derived);
  match move_path with
  | Some dest =>
      dest_uri ← try_ (map_err (λ e, Fail (AnyPathUri e)) (uri_join cwd dest));
      apply_move path_uri dest_uri ap fl
  | None => apply_update_in_place path_uri ap fl
  end.

Definition apply_hunk (options : ApplyPatchOptions) (cwd : PathUri) (hunk : Hunk)
    (affected : AffectedPaths) : prog AffectedPaths :=
  let affected_path := hunk_path hunk in
  path_uri ← try_ (map_err (λ e, Fail (AnyPathUri e)) (resolve_path cwd hunk));
  match hunk with
  | AddFile _ contents =>
      _ ← apply_add_file path_uri contents (follow_symlinks options);
      mret (push_added affected_path affected)
  | DeleteFile _ =>
      _ ← apply_delete_file path_uri (follow_symlinks options);
      mret (push_deleted affected_path affected)
  | UpdateFile _ move_path chunks =>
      _ ← apply_update_file cwd path_uri move_path chunks (update_file_mode options)
            (follow_symlinks options);
      mret (push_modified affected_path affected)
  end.

Fixpoint apply_hunk_loop (options : ApplyPatchOptions) (cwd : PathUri) (hunks : list Hunk)
    (affected : AffectedPaths) : prog AffectedPaths :=
  match hunks with
  | [] => mret affected
  | hunk :: hunks' =>
      affected' ← apply_hunk options cwd hunk affected;
      apply_hunk_loop options cwd hunks' affected'
  end.

Definition apply_hunks_to_files (hunks : list Hunk) (options : ApplyPatchOptions)
    (cwd : PathUri) : prog AffectedPaths :=
  if is_empty hunks then throw (AnyMsg (str "No files were modified."))
  else apply_hunk_loop options cwd hunks (mkAffected [] [] []).

(** ** The entry points, with their output *)
Context {W : Type} `{!IoWrite W}.

Fixpoint write_lines (ls : list rstring) (out : W) : result io_error unit * W :=
  match ls with
  | [] => (Ok tt, out)
  | l :: ls' =>
      match writeln out l with
      | (Ok _, out') => write_lines ls' out'
      | (Err e, out') => (Err e, out')
      end
  end.

Definition print_summary (affected : AffectedPaths) (out : W) : result io_error unit * W :=
  write_lines
    ([str "Success. Updated the following files:"] ++
     map (λ p, str "A " ++ p) (added affected) ++
     map (λ p, str "M " ++ p) (modified affected) ++
     map (λ p, str "D " ++ p) (deleted affected)) out.

(** The file system, [stdout] and [stderr]. *)
Record world := mkWorld { w_fs : F; w_stdout : W; w_stderr : W }.

Definition reported_error (error : AnyhowError) : ApplyPatchError :=
  match downcast_io error with
  | Some io => apply_patch_error_from_io io
  | None => EIo (anyhow_display error) (mkIoError OtherKind (anyhow_display error))
  end.

Definition apply_hunks_with_options (hunks : list Hunk) (options : ApplyPatchOptions)
    (cwd : PathUri) (w : world)
    : result (fail (ApplyPatchFailure PathUri)) delta * world :=
  match apply_hunks_to_files hunks options cwd (w_fs w, empty_delta) with
  | (Ok affected, (f, d)) =>
      let '(r, out) := print_summary affected (w_stdout w) in
      let w' := mkWorld f out (w_stderr w) in
      match r with
      | Ok _ => (Ok d, w')
      | Err e => (Err (Fail (mkFailure (apply_patch_error_from_io e) d)), w')
      end
  | (Err (Fail error), (f, d)) =>
      let '(r, err) := writeln (w_stderr w) (anyhow_display error) in
      let w' := mkWorld f (w_stdout w) err in
      match r with
      | Ok _ => (Err (Fail (mkFailure (reported_error error) d)), w')
      | Err e => (Err (Fail (mkFailure (apply_patch_error_from_io e) d)), w')
      end
  | (Err Panic, (f, _)) => (Err Panic, mkWorld f (w_stdout w) (w_stderr w))
  end.

Definition parse_error_report (e : ParseError) : rstring :=
  match e with
  | InvalidPatchError m => str "Invalid patch: " ++ m
  | InvalidHunkError m n =>
      str "Invalid patch hunk on line " ++ dec (N.of_nat n) ++ str ": " ++ m
  end.

Definition apply_patch_with_options (patch : rstring) (options : ApplyPatchOptions)
    (cwd : PathUri) (w : world)
    : result (fail (ApplyPatchFailure PathUri)) delta * world :=
  match parse_patch patch with
  | Ok source => apply_hunks_with_options (arg_hunks source) options cwd w
  | Err e =>
      let '(r, err) := writeln (w_stderr w) (parse_error_report e) in
      let w' := mkWorld (w_fs w) (w_stdout w) err in
      match r with
      | Ok _ => (Err (Fail (without_delta (EParse e))), w')
      | Err io => (Err (Fail (without_delta (apply_patch_error_from_io io))), w')
      end
  end.

Definition apply_patch (patch : rstring) (cwd : PathUri) (w : world)
    : result (fail (ApplyPatchFailure PathUri)) delta * world :=
  apply_patch_with_options patch default_options cwd w.

Definition apply_hunks (hunks : list Hunk) (cwd : PathUri) (w : world)
    : result (fail (ApplyPatchFailure PathUri)) delta * world :=
  apply_hunks_with_options hunks default_options cwd w.
End Apply.

Arguments prog : clear implicits.
Arguments world : clear implicits.
