(* ===== verification/Delta.v ===== *)
(** * The meaning of an applied delta

    An [AppliedPatchDelta] of [sofia-rs/apply-patch/src/lib.rs] is a log of
    committed changes.  This file gives the log its meaning on views of a file
    system (the text each path holds): replaying it forward, undoing it, and
    what it is for a log to record the contents it overwrote.  It is the
    contract between the patch application, which produces deltas, and the turn
    diff tracker, which consumes them. *)

From stdpp Require Import base list numbers strings.
From S2P Require Import Prelude ApplyPatch.

Section Delta.
Context {PathUri : Type} `{!EqDecision PathUri}.
Local Notation change := (AppliedPatchChange PathUri).

(** The text of each path, [None] where there is no readable text file. *)
Definition fview : Type := PathUri → option rstring.

(** Extensional equality of views. *)
Record fview_eqv (v w : fview) : Prop := fview_ext { fview_at : ∀ q, v q = w q }.

#[global] Instance fview_equiv : Equiv fview := fview_eqv.
#[global] Instance fview_equivalence : Equivalence (≡@{fview}).
Proof.
  split; [by intros v; split|by intros v w [H]; split|].
  intros u v w [H1] [H2]. split. intros q. by rewrite H1, H2.
Qed.

Definition upd (v : fview) (p : PathUri) (o : option rstring) : fview :=
  λ q, if decide (q = p) then o else v q.

#[global] Instance upd_proper : Proper ((≡) ==> eq ==> eq ==> (≡)) upd.
Proof.
  intros v w [H] p ? <- o ? <-. split. intros q. unfold upd. case_decide; [done|apply H].
Qed.

Lemma upd_eq v p o : upd v p o p = o.
Proof. unfold upd. by case_decide. Qed.
Lemma upd_ne v p o q : q ≠ p → upd v p o q = v q.
Proof. unfold upd. by case_decide. Qed.
Lemma upd_upd v p o o' : upd (upd v p o) p o' ≡ upd v p o'.
Proof. split. intros q. unfold upd. by case_decide. Qed.
Lemma upd_comm v p q o o' : p ≠ q → upd (upd v p o) q o' ≡ upd (upd v q o') p o.
Proof. intros Hne. split. intros r. unfold upd. repeat case_decide; congruence. Qed.
Lemma upd_same v p o : v p = o → upd v p o ≡ v.
Proof. intros <-. split. intros q. unfold upd. case_decide; congruence. Qed.

Definition replay_change (v : fview) (c : change) : fview :=
  let p := change_path c in
  match change_change c with
  | ChangeAdd content _ => upd v p (Some content)
  | ChangeDelete _ => upd v p None
  | ChangeUpdate None _ _ new => upd v p (Some new)
  | ChangeUpdate (Some dest) _ _ new => upd (upd v dest (Some new)) p None
  end.

Definition undo_change (c : change) (v : fview) : fview :=
  let p := change_path c in
  match change_change c with
  | ChangeAdd _ overwritten => upd v p overwritten
  | ChangeDelete content => upd v p (Some content)
  | ChangeUpdate None old _ _ => upd v p (Some old)
  | ChangeUpdate (Some dest) old overwritten _ => upd (upd v dest overwritten) p (Some old)
  end.

(** The contents a change claims to have replaced are the ones it replaced. *)
Definition recorded (v : fview) (c : change) : Prop :=
  let p := change_path c in
  match change_change c with
  | ChangeAdd _ overwritten => v p = overwritten
  | ChangeDelete content => v p = Some content
  | ChangeUpdate None old _ _ => v p = Some old
  | ChangeUpdate (Some dest) old overwritten _ => v p = Some old ∧ v dest = overwritten
  end.

Definition replay (v : fview) (cs : list change) : fview := foldl replay_change v cs.
Definition undo (cs : list change) (v : fview) : fview := foldr undo_change v cs.

Fixpoint log_recorded (v : fview) (cs : list change) : Prop :=
  match cs with
  | [] => True
  | c :: cs' => recorded v c ∧ log_recorded (replay_change v c) cs'
  end.

#[global] Instance replay_change_proper : Proper ((≡) ==> eq ==> (≡)) replay_change.
Proof.
  intros v w H c ? <-. destruct c as [p [| |[dest|]]]; unfold replay_change; simpl; by rewrite H.
Qed.
#[global] Instance undo_change_proper : Proper (eq ==> (≡) ==> (≡)) undo_change.
Proof.
  intros c ? <- v w H. destruct c as [p [| |[dest|]]]; unfold undo_change; simpl; by rewrite H.
Qed.
#[global] Instance recorded_proper : Proper ((≡) ==> eq ==> iff) recorded.
Proof.
  intros v w [H] [p c] ? <-. unfold recorded. simpl. by destruct c as [| |[dest|]]; rewrite ?H.
Qed.
#[global] Instance replay_proper : Proper ((≡) ==> eq ==> (≡)) replay.
Proof.
  intros v w H cs ? <-. revert v w H. induction cs as [|c cs IH]; [done|].
  intros v w H. simpl. apply IH. by rewrite H.
Qed.
#[global] Instance undo_proper : Proper (eq ==> (≡) ==> (≡)) undo.
Proof. intros cs ? <- v w H. induction cs as [|c cs IH]; [done|]. simpl. by rewrite IH. Qed.
#[global] Instance log_recorded_proper : Proper ((≡) ==> eq ==> iff) log_recorded.
Proof.
  intros v w H cs ? <-. revert v w H. induction cs as [|c cs IH]; [done|].
  intros v w H. simpl. rewrite (recorded_proper v w H c c eq_refl).
  by rewrite (IH _ _ (replay_change_proper v w H c c eq_refl)).
Qed.

Lemma replay_app v cs1 cs2 : replay v (cs1 ++ cs2) = replay (replay v cs1) cs2.
Proof. apply foldl_app. Qed.

Lemma log_recorded_app v cs1 cs2 :
  log_recorded v (cs1 ++ cs2) ↔ log_recorded v cs1 ∧ log_recorded (replay v cs1) cs2.
Proof. revert v. induction cs1 as [|c cs1 IH]; intros v; simpl; [tauto|]. rewrite IH. tauto. Qed.

Lemma undo_replay_change v c : recorded v c → undo_change c (replay_change v c) ≡ v.
Proof.
  destruct c as [p c]. unfold recorded, undo_change, replay_change. simpl.
  destruct c as [content o|content|[dest|] old o new]; simpl; intros H;
    [by rewrite upd_upd, upd_same..| |by rewrite upd_upd, upd_same].
  destruct H as [Hp Hd]. destruct (decide (p = dest)) as [<-|Hne].
  - by rewrite !upd_upd, upd_same.
  - by rewrite (upd_comm _ p dest), upd_upd, upd_upd, (upd_same v dest), upd_same by congruence.
Qed.

Lemma undo_replay v cs : log_recorded v cs → undo cs (replay v cs) ≡ v.
Proof.
  revert v. induction cs as [|c cs IH]; [done|]. intros v [Hc Hcs]. simpl.
  rewrite IH by done. by apply undo_replay_change.
Qed.
End Delta.
Arguments fview : clear implicits.
