(* ===== verification/ApplySpec.v ===== *)
(** * Correctness of the patch application

    Theorems about [ApplyPatch.v] against an abstract file system: the final
    file system refines a pure meaning of the hunks, an exact delta is a
    faithful and reversible account of every mutation, also when the
    application fails half-way, and no accepted patch makes it panic. *)

From stdpp Require Import base list numbers strings gmap.
From S2P Require Import Prelude PatchParser PatchSpec FileUpdate FileUpdateSpec SeekSequence ApplyPatch Delta.

(** ** What the code relies on of a file system

    An alias-free file system seen through [read_file_text]: a successful
    [write_file] or [remove] changes the text of its path and of no other one, a
    write refused with [NotFound] changes nothing, creating directories changes
    no text, and a failed [remove] leaves the other paths alone and writes no
    text to its own.  Nothing is assumed of the other failed writes. *)
#[local] Set Default Proof Using "Type*".
#[local] Arguments str : simpl never.
#[local] Arguments ensure_not_directory : simpl never.
#[local] Arguments remove_failure_was_side_effect_free : simpl never.

Section View.
Context {PathUri Sandbox F : Type} `{!PathUriOps PathUri}
  `{!ExecutorFileSystem PathUri Sandbox F}.
Context (sandbox : option Sandbox) (fl : bool).

Definition view (f : F) : fview PathUri := λ p,
  result_ok (read_file_text f p (mkReadOpts fl) sandbox).

Class FileSystemLaws := {
  law_write_ok f p c f' :
    write_file f p c (mkWriteOpts fl) sandbox = (Ok tt, f') → view f' ≡ upd (view f) p (Some c);
  law_write_not_found f p c e f' :
    write_file f p c (mkWriteOpts fl) sandbox = (Err e, f') → io_kind e = NotFound →
    view f' ≡ view f;
  law_create_directory f p r f' :
    create_directory f p (mkDirOpts true fl) sandbox = (r, f') → view f' ≡ view f;
  law_remove_ok f p f' :
    remove f p (mkRemoveOpts false false fl) sandbox = (Ok tt, f') → view f' ≡ upd (view f) p None;
  law_remove_err f p e f' q :
    remove f p (mkRemoveOpts false false fl) sandbox = (Err e, f') →
    view f' q = view f q ∨ q = p ∧ view f' q = None;
}.

(** ** The pure meaning of hunks *)
Definition hunk_meaning (m : ApplyPatchFileUpdateMode) (cwd : PathUri) (v : fview PathUri)
    (h : Hunk) : option (fview PathUri) :=
  p ← result_ok (uri_join cwd (hunk_source_path h));
  match h with
  | AddFile _ contents => Some (upd v p (Some contents))
  | DeleteFile _ => Some (upd v p None)
  | UpdateFile _ move_path chunks =>
      old ← v p;
      new ← result_ok (derive_new_contents (uri_native p) old chunks m);
      match move_path with
      | None => Some (upd v p (Some new))
      | Some dest =>
          d ← result_ok (uri_join cwd dest);
          Some (upd (upd v d (Some new)) p None)
      end
  end.

Fixpoint hunks_meaning (m : ApplyPatchFileUpdateMode) (cwd : PathUri) (v : fview PathUri)
    (hs : list Hunk) : option (fview PathUri) :=
  match hs with
  | [] => Some v
  | h :: hs' => v' ← hunk_meaning m cwd v h; hunks_meaning m cwd v' hs'
  end.

Definition opt_view_equiv (o o' : option (fview PathUri)) : Prop :=
  match o, o' with
  | Some v, Some v' => v ≡ v'
  | None, None => True
  | _, _ => False
  end.

Lemma hunk_meaning_proper m cwd v w h :
  v ≡ w → opt_view_equiv (hunk_meaning m cwd v h) (hunk_meaning m cwd w h).
Proof.
  intros H. unfold hunk_meaning. destruct (uri_join _ _) as [p|]; simpl; [|done].
  destruct h as [? c|?|? mv cs]; simpl; [by apply upd_proper..|].
  rewrite (fview_at _ _ H p). destruct (w p) as [old|]; simpl; [|done].
  destruct (derive_new_contents _ _ _ _) as [new|]; simpl; [|done].
  destruct mv as [d|]; simpl; [|by apply upd_proper].
  destruct (uri_join cwd d) as [d'|]; simpl; [|done]. by repeat apply upd_proper.
Qed.

Lemma hunks_meaning_proper m cwd v w hs :
  v ≡ w → opt_view_equiv (hunks_meaning m cwd v hs) (hunks_meaning m cwd w hs).
Proof.
  revert v w. induction hs as [|h hs IH]; intros v w H; [done|]. simpl.
  pose proof (hunk_meaning_proper m cwd v w h H) as Hh.
  destruct (hunk_meaning m cwd v h), (hunk_meaning m cwd w h); try done. simpl. by apply IH.
Qed.

(** ** Specifications of the helpers *)
Context `{Laws : !FileSystemLaws}.
Local Notation delta := (AppliedPatchDelta PathUri).
Implicit Types (f : F) (d : delta).

(** A delta that lost exactness only through [b]. *)
Definition with_exact d (b : bool) : delta := mkDelta (changes d) (exact d && b).

Lemma note_spec p f d :
  ∃ b, note_existing_path_delta_support sandbox p fl (f, d) = (Ok tt, (f, with_exact d b)).
Proof.
  unfold note_existing_path_delta_support, fs_get, mbind, prog_bind. simpl.
  destruct d as [cs ex].
  destruct (get_metadata f p (mkMetaOpts fl) sandbox) as [md|e].
  - destruct (is_file md && negb (is_symlink md)); [exists true|by exists false].
    unfold with_exact. simpl. by rewrite andb_true_r.
  - case_bool_decide; [exists true|by exists false].
    unfold with_exact. simpl. by rewrite andb_true_r.
Qed.

Lemma with_exact_with_exact d b b' : with_exact (with_exact d b) b' = with_exact d (b && b').
Proof. unfold with_exact. simpl. by rewrite andb_assoc. Qed.

Lemma read_optional_spec p f d :
  ∃ b o, read_optional_file_text_for_delta sandbox p fl (f, d) = (Ok o, (f, with_exact d b)) ∧
    (b = true → view f p = o).
Proof.
  unfold read_optional_file_text_for_delta. unfold mbind at 1, prog_bind at 1.
  destruct (note_spec p f d) as [b ->].
  unfold fs_get, and_exact, mbind, prog_bind. simpl. unfold view.
  destruct (read_file_text f p (mkReadOpts fl) sandbox) as [t|e] eqn:Er.
  - exists b, (Some t). by rewrite ?Er.
  - case_bool_decide; [by exists b, None|].
    exists (b && false), None. split; [by rewrite <- with_exact_with_exact|].
    by rewrite andb_false_r.
Qed.

Lemma write_retry_spec p c f d :
  ∃ r f', write_file_with_missing_parent_retry sandbox p c fl (f, d) = (r, (f', d)) ∧
    match r with
    | Ok _ => view f' ≡ upd (view f) p (Some c)
    | Err e => e ≠ Panic
    end.
Proof.
  unfold write_file_with_missing_parent_retry, fs_do, with_context, try_, mbind, prog_bind. simpl.
  destruct (write_file f p c (mkWriteOpts fl) sandbox) as [[[]|e] f1] eqn:E1; simpl.
  { exists (Ok tt), f1. split; [done|]. by apply law_write_ok. }
  case_bool_decide as Hk; [|eexists _, f1; by split].
  pose proof (law_write_not_found _ _ _ _ _ E1 Hk) as Hf1.
  assert (∀ f2, view f2 ≡ view f → ∃ r f',
    (let '(r2, f3) := write_file f2 p c (mkWriteOpts fl) sandbox in
     (map_err (λ e, Fail (AnyContext (failed_write p) e)) r2, (f3, d))) = (r, (f', d)) ∧
    match r with Ok _ => view f' ≡ upd (view f) p (Some c) | Err e => e ≠ Panic end) as Hw.
  { intros f2 Hf2. destruct (write_file f2 p c (mkWriteOpts fl) sandbox) as [[[]|e2] f3] eqn:E3;
      simpl; eexists _, f3; (split; [done|]); [|done].
    simpl. rewrite (law_write_ok _ _ _ _ E3). by rewrite Hf2. }
  destruct (uri_parent p) as [parent|]; simpl.
  - destruct (create_directory f1 parent (mkDirOpts true fl) sandbox) as [[[]|e2] f2] eqn:E2; simpl.
    + pose proof (law_create_directory _ _ _ _ E2) as Hf2.
      destruct (Hw f2) as (r & f' & H & Hr); [by rewrite Hf2|].
      destruct (write_file f2 p c (mkWriteOpts fl) sandbox) as [r2 f3]. simpl in *. eauto.
    + eexists _, f2. by split.
  - destruct (Hw f1) as (r & f' & H & Hr); [done|].
    destruct (write_file f1 p c (mkWriteOpts fl) sandbox) as [r2 f3]. simpl in *. eauto.
Qed.

Lemma ensure_spec p f d : ∃ r, ensure_not_directory sandbox p fl (f, d) = (Ok r, (f, d)).
Proof. eexists. done. Qed.

Lemma side_effect_free_spec p o f d :
  ∃ b, remove_failure_was_side_effect_free sandbox p o fl (f, d) = (Ok b, (f, d)) ∧
    (b = true → o = view f p).
Proof.
  unfold remove_failure_was_side_effect_free, view. destruct o as [t|]; [|by exists false].
  unfold fs_get, mbind, prog_bind. simpl. eexists. split; [done|].
  destruct (read_file_text f p (mkReadOpts fl) sandbox) as [t'|]; [|done].
  intros ?. breflect. by subst.
Qed.

(** ** One hunk

    [accounts f d f' d']: when the delta is still exact, it was exact before and
    it grew by changes that record what they overwrote and whose replay is what
    happened to the file system. *)
Definition accounts f d f' d' : Prop :=
  exact d' = true →
  exact d = true ∧
  ∃ cs, changes d' = changes d ++ cs ∧ log_recorded (view f) cs ∧ view f' ≡ replay (view f) cs.

Lemma accounts_refl f d b : accounts f d f (with_exact d b).
Proof.
  intros H. simpl in H. breflect. split; [done|]. exists []. by rewrite app_nil_r.
Qed.

Lemma accounts_trans f1 d1 f2 d2 f3 d3 :
  accounts f1 d1 f2 d2 → accounts f2 d2 f3 d3 → accounts f1 d1 f3 d3.
Proof.
  intros H12 H23 H3. destruct (H23 H3) as (H2 & cs2 & E2 & R2 & V2).
  destruct (H12 H2) as (H1 & cs1 & E1 & R1 & V1). split; [done|].
  exists (cs1 ++ cs2). rewrite E2, E1, <- app_assoc, replay_app, log_recorded_app.
  split_and!; [done..| |by rewrite V2, V1]. by rewrite <- V1.
Qed.

Lemma accounts_inexact f d f' d' : exact d' = false → accounts f d f' d'.
Proof. intros H H'. congruence. Qed.

Lemma accounts_one f d f' d' b c :
  d' = mkDelta (changes d ++ [c]) (exact d && b) →
  (b = true → recorded (view f) c) → view f' ≡ replay_change (view f) c →
  accounts f d f' d'.
Proof.
  intros -> Hr Hv H. simpl in H. breflect. split; [done|].
  exists [c]. split_and!; [done|split; [by apply Hr|done]|done].
Qed.

Lemma apply_add_spec p c f d :
  ∃ r f' d', apply_add_file sandbox p c fl (f, d) = (r, (f', d')) ∧
    accounts f d f' d' ∧ r ≠ Err Panic ∧ (r = Ok tt → view f' ≡ upd (view f) p (Some c)).
Proof.
  unfold apply_add_file. unfold mbind at 1, prog_bind at 1.
  destruct (read_optional_spec p f d) as (b & o & -> & Ho).
  unfold mbind at 1, prog_bind at 1, try_write.
  destruct (write_retry_spec p c f (with_exact d b)) as (r & f' & -> & Hr).
  destruct r as [[]|[e|]]; [| |done].
  - eexists _, f', _. split; [done|]. split_and!; [|done..].
    by eapply accounts_one; [done| |].
  - eexists _, f', _. split; [done|]. split_and!; [by apply accounts_inexact|done..].
Qed.

Lemma accounts_frame f d f' b :
  (b = true → view f' ≡ view f) → accounts f d f' (with_exact d b).
Proof.
  intros Hv H. simpl in H. breflect. split; [done|]. exists []. rewrite app_nil_r.
  split_and!; [done..|]. by apply Hv.
Qed.

(** A failed removal whose path still has a text left every path alone. *)
Lemma remove_err_view f p e f' t :
  remove f p (mkRemoveOpts false false fl) sandbox = (Err e, f') →
  view f' p = Some t → view f' ≡ view f.
Proof.
  intros Hr Hp. split. intros q. destruct (law_remove_err _ _ _ _ q Hr) as [|[-> ?]]; congruence.
Qed.

Lemma apply_delete_spec p f d :
  ∃ r f' d', apply_delete_file sandbox p fl (f, d) = (r, (f', d')) ∧
    accounts f d f' d' ∧ r ≠ Err Panic ∧ (r = Ok tt → view f' ≡ upd (view f) p None).
Proof.
  unfold apply_delete_file. unfold mbind at 1, prog_bind at 1.
  destruct (note_spec p f d) as [b ->].
  unfold mbind at 1, prog_bind at 1, fs_get at 1. simpl.
  set (rd := read_file_text f p (mkReadOpts fl) sandbox).
  assert (∃ b', (b' = true → is_ok rd = true) ∧
    (if is_ok rd then mret tt else and_exact false) (f, with_exact d b) =
      (Ok tt, (f, with_exact d b'))) as (b' & Hb' & Hd).
  { destruct (is_ok rd); [by exists b|]. exists (b && false).
    split; [by rewrite andb_false_r|]. by rewrite <- with_exact_with_exact. }
  unfold mbind at 1, prog_bind at 1. rewrite Hd. clear Hd b.
  unfold mbind at 1, prog_bind at 1.
  destruct (ensure_spec p f (with_exact d b')) as [[[]|e] ->].
  2: { eexists _, f, _. split; [done|]. split_and!; [apply accounts_refl|done..]. }
  unfold mbind at 1, prog_bind at 1. simpl.
  unfold mbind at 1, prog_bind at 1, fs_do. simpl.
  destruct (remove f p (mkRemoveOpts false false fl) sandbox) as [[[]|e] f'] eqn:Erm; simpl.
  - pose proof (law_remove_ok _ _ _ Erm) as Hv.
    destruct rd as [content|] eqn:Erd; simpl.
    + eexists _, f', _. split; [done|]. split_and!; [|done..].
      eapply accounts_one; [done| |done]. intros _. unfold recorded. simpl. unfold view.
      unfold rd in Erd. by rewrite Erd.
    + eexists _, f', _. split; [done|]. split_and!; [|done..].
      apply accounts_inexact. simpl. destruct b'; [by specialize (Hb' eq_refl)|]. apply andb_false_r.
  - unfold mbind at 1, prog_bind at 1.
    destruct (side_effect_free_spec p (result_ok rd) f' (with_exact d b')) as (b2 & -> & Hb2).
    eexists _, f', (with_exact d (b' && b2)).
    split; [by rewrite <- with_exact_with_exact|]. split_and!; [|done..].
    apply accounts_frame. intros ?. breflect. destruct rd as [t|]; [|by specialize (Hb' H)].
    eapply remove_err_view; [done|]. symmetry. by apply Hb2.
Qed.

Lemma set_change_last d c c' :
  <[length (changes d) := c']> (changes d ++ [c]) = changes d ++ [c'].
Proof. rewrite insert_app_r_alt by done. by rewrite Nat.sub_diag. Qed.

Lemma apply_move_spec p dest ap f d :
  view f p = Some (original_contents ap) →
  ∃ r f' d', apply_move sandbox p dest ap fl (f, d) = (r, (f', d')) ∧
    accounts f d f' d' ∧ r ≠ Err Panic ∧
    (r = Ok tt → view f' ≡ upd (upd (view f) dest (Some (new_contents ap))) p None).
Proof.
  intros Hold. unfold apply_move. unfold mbind at 1, prog_bind at 1.
  destruct (read_optional_spec dest f d) as (b & o & -> & Ho).
  unfold mbind at 1, prog_bind at 1, try_write.
  destruct (write_retry_spec dest (new_contents ap) f (with_exact d b)) as (r & f1 & -> & Hr).
  destruct r as [[]|[e|]]; [| |done].
  2: { eexists _, f1, _. split; [done|]. split_and!; [by apply accounts_inexact|done..]. }
  unfold mbind at 1, prog_bind at 1, change_count at 1. simpl.
  unfold mbind at 1, prog_bind at 1, push_change at 1. simpl.
  set (c := mkChange dest (ChangeAdd (new_contents ap) o)).
  set (d1 := mkDelta (changes d ++ [c]) (exact d && b)).
  assert (accounts f d f1 d1) as H1 by by eapply accounts_one.
  unfold mbind at 1, prog_bind at 1.
  destruct (ensure_spec p f1 d1) as [[[]|e] ->].
  2: { eexists _, f1, _. split; [done|]. split_and!; [done..]. }
  unfold mbind at 1, prog_bind at 1. cbn [with_context try_ map_err].
  unfold mbind at 1, prog_bind at 1, fs_do. cbn [fst snd].
  destruct (remove f1 p (mkRemoveOpts false false fl) sandbox) as [[[]|e] f2] eqn:Erm; cbn [fst snd].
  - pose proof (law_remove_ok _ _ _ Erm) as Hv. rewrite Hr in Hv.
    eexists _, f2, _. split; [done|]. split_and!; [|done..].
    eapply (accounts_one _ _ _ _ b); [unfold d1; simpl; by rewrite set_change_last| |done].
    intros Hb. split; [done|by apply Ho].
  - unfold mbind at 1, prog_bind at 1.
    destruct (side_effect_free_spec p (Some (original_contents ap)) f2 d1) as (b2 & -> & Hb2).
    eexists _, f2, (with_exact d1 b2). split; [done|]. split_and!; [|done..].
    eapply accounts_trans; [exact H1|]. apply accounts_frame. intros Hb.
    eapply remove_err_view; [done|]. symmetry. by apply Hb2.
Qed.

Lemma apply_in_place_spec p ap f d :
  view f p = Some (original_contents ap) →
  ∃ r f' d', apply_update_in_place sandbox p ap fl (f, d) = (r, (f', d')) ∧
    accounts f d f' d' ∧ r ≠ Err Panic ∧
    (r = Ok tt → view f' ≡ upd (view f) p (Some (new_contents ap))).
Proof.
  intros Hold. unfold apply_update_in_place, try_write, fs_do, mbind, prog_bind. simpl.
  destruct (write_file f p (new_contents ap) (mkWriteOpts fl) sandbox) as [[[]|e] f'] eqn:E; simpl.
  - pose proof (law_write_ok _ _ _ _ E) as Hv.
    eexists _, f', _. split; [done|]. split_and!; [|done..].
    eapply (accounts_one _ _ _ _ true); [by rewrite andb_true_r| |done].
    by intros _.
  - eexists _, f', _. split; [done|]. split_and!; [by apply accounts_inexact|done..].
Qed.

(** The outcome of a hunk from file system [f] and delta [d]. *)
Definition hunk_outcome (cwd : PathUri) (m : ApplyPatchFileUpdateMode) (hs : list Hunk) {A}
    f d (out : result (fail AnyhowError) A * (F * delta)) : Prop :=
  let '(r, (f', d')) := out in
  accounts f d f' d' ∧
  (Forall hunk_wf hs → r ≠ Err Panic) ∧
  (is_ok r = true → ∃ v, hunks_meaning m cwd (view f) hs = Some v ∧ view f' ≡ v).

Lemma derive_from_chunks_spec p cs m f :
  match derive_new_contents_from_chunks sandbox p cs m fl f with
  | Ok ap => view f p = Some (original_contents ap) ∧
      derive_new_contents (uri_native p) (original_contents ap) cs m = Ok (new_contents ap)
  | Err Panic => ¬ Forall chunk_wf cs
  | Err (Fail _) => True
  end.
Proof.
  unfold derive_new_contents_from_chunks, view.
  destruct (read_file_text f p (mkReadOpts fl) sandbox) as [t|]; simpl; [|done].
  pose proof (derive_new_contents_no_panic (uri_native p) t cs m) as Hp.
  destruct (derive_new_contents _ _ _ _) as [new|[e|]] eqn:E; simpl; [by rewrite E|done|].
  intros H. by apply Hp.
Qed.

Lemma apply_update_spec cwd p mv cs m f d path :
  uri_join cwd path = Ok p →
  hunk_outcome cwd m [UpdateFile path mv cs] f d
    (apply_update_file sandbox cwd p mv cs m fl (f, d)).
Proof.
  intros Hj. unfold apply_update_file. unfold mbind at 1, prog_bind at 1.
  destruct (note_spec p f d) as [b ->].
  unfold mbind at 1, prog_bind at 1, fs_get. cbn [fst snd].
  unfold mbind at 1, prog_bind at 1, try_.
  pose proof (derive_from_chunks_spec p cs m f) as Hd.
  destruct (derive_new_contents_from_chunks sandbox p cs m fl f) as [ap|[e|]]; cbn [map_err anyhow_fail].
  2: { split_and!; [apply accounts_refl|done..]. }
  2: { split_and!; [apply accounts_refl| |done]. intros Hwf. apply Forall_cons in Hwf as [[_ H] _].
       destruct Hd. eapply Forall_impl; [done|]. by intros c [? _]. }
  destruct Hd as [Hold Hnew].
  destruct mv as [dest|].
  - unfold mbind at 1, prog_bind at 1, try_.
    destruct (uri_join cwd dest) as [dest_uri|e] eqn:Ed; cbn [map_err].
    2: { split_and!; [apply accounts_refl|done..]. }
    destruct (apply_move_spec p dest_uri ap f (with_exact d b) Hold)
      as (r & f' & d' & -> & Ha & Hp & Hv).
    split_and!; [eapply accounts_trans; [apply (accounts_refl f d b)|done]|done|].
    intros Hok. destruct r as [[]|]; [|done]. eexists. split; [|by apply Hv].
    simpl. unfold hunk_meaning. simpl. rewrite Hj. simpl. rewrite Hold. simpl. rewrite Hnew. simpl.
    by rewrite Ed.
  - destruct (apply_in_place_spec p ap f (with_exact d b) Hold)
      as (r & f' & d' & -> & Ha & Hp & Hv).
    split_and!; [eapply accounts_trans; [apply (accounts_refl f d b)|done]|done|].
    intros Hok. destruct r as [[]|]; [|done]. eexists. split; [|by apply Hv].
    simpl. unfold hunk_meaning. simpl. rewrite Hj. simpl. rewrite Hold. simpl. by rewrite Hnew.
Qed.

Lemma hunk_outcome_map {A B} cwd m hs f d (g : A → prog PathUri F B) (k : A → B)
    (out : result (fail AnyhowError) A * (F * delta)) :
  hunk_outcome cwd m hs f d out → (∀ a s, g a s = (Ok (k a), s)) →
  hunk_outcome cwd m hs f d
    (match out with (Ok a, s') => g a s' | (Err e, s') => (Err e, s') end).
Proof.
  destruct out as [[a|e] [f' d']]; intros (Ha & Hp & Hm) Hg; [by rewrite Hg|].
  split_and!; [done| |done]. intros Hwf [= ->]. by apply Hp.
Qed.

Lemma apply_hunk_spec o cwd h aff f d :
  follow_symlinks o = fl →
  hunk_outcome cwd (update_file_mode o) [h] f d (apply_hunk sandbox o cwd h aff (f, d)).
Proof.
  intros Ho. unfold apply_hunk. unfold mbind at 1, prog_bind at 1, try_, resolve_path.
  destruct (uri_join cwd (hunk_source_path h)) as [p|e] eqn:Ej; cbn [map_err].
  2: { split_and!; [|done..]. intros Hx. split; [done|]. exists []. by rewrite app_nil_r. }
  rewrite Ho. destruct h as [path c|path|path mv cs]; simpl in Ej.
  - unfold mbind, prog_bind.
    destruct (apply_add_spec p c f d) as (r & f' & d' & -> & Ha & Hp & Hv).
    destruct r as [[]|e]; (split_and!; [done|intros _; congruence|]); [|done]. intros _.
    eexists. split; [|by apply Hv]. simpl. unfold hunk_meaning. simpl. by rewrite Ej.
  - unfold mbind, prog_bind.
    destruct (apply_delete_spec p f d) as (r & f' & d' & -> & Ha & Hp & Hv).
    destruct r as [[]|e]; (split_and!; [done|intros _; congruence|]); [|done]. intros _.
    eexists. split; [|by apply Hv]. simpl. unfold hunk_meaning. simpl. by rewrite Ej.
  - set (path' := hunk_path _).
    apply (hunk_outcome_map _ _ _ _ _ (λ _, mret (push_modified path' aff))
             (λ _, push_modified path' aff)); [|done].
    by apply apply_update_spec.
Qed.

Lemma hunks_meaning_cons m cwd f h hs v f1 v2 :
  hunks_meaning m cwd (view f) [h] = Some v → view f1 ≡ v →
  hunks_meaning m cwd (view f1) hs = Some v2 →
  ∃ v3, hunks_meaning m cwd (view f) (h :: hs) = Some v3 ∧ v2 ≡ v3.
Proof.
  simpl. destruct (hunk_meaning m cwd (view f) h) as [v1|]; simpl; [|done].
  intros [= ->] Hv H2. pose proof (hunks_meaning_proper m cwd _ _ hs Hv) as Hm.
  rewrite H2 in Hm. destruct (hunks_meaning m cwd v hs) as [v3|]; [|done]. eauto.
Qed.

Lemma apply_hunk_loop_spec o cwd hs aff f d :
  follow_symlinks o = fl →
  hunk_outcome cwd (update_file_mode o) hs f d (apply_hunk_loop sandbox o cwd hs aff (f, d)).
Proof.
  intros Ho. revert aff f d. induction hs as [|h hs IH]; intros aff f d.
  { split_and!; [|done|by intros _; exists (view f)]. intros Hx. split; [done|].
    exists []. by rewrite app_nil_r. }
  cbn [apply_hunk_loop]. unfold mbind, prog_bind.
  pose proof (apply_hunk_spec o cwd h aff f d Ho) as Hh.
  destruct (apply_hunk sandbox o cwd h aff (f, d)) as [[aff'|e] [f1 d1]].
  2: { destruct Hh as (Ha & Hp & _). split_and!; [done| |done]. intros [Hwf _]%Forall_cons.
       apply Hp. by apply Forall_singleton. }
  specialize (IH aff' f1 d1).
  destruct (apply_hunk_loop sandbox o cwd hs aff' (f1, d1)) as [r [f2 d2]].
  destruct Hh as (Ha & _ & Hm), IH as (Ha2 & Hp2 & Hm2). split_and!.
  - by eapply accounts_trans.
  - intros [_ Hwf]%Forall_cons. by apply Hp2.
  - intros Hok. destruct (Hm eq_refl) as (v & Ev & Hv), (Hm2 Hok) as (v2 & Ev2 & Hv2).
    destruct (hunks_meaning_cons _ _ _ _ _ _ _ _ Ev Hv Ev2) as (v3 & E3 & H3).
    exists v3. split; [done|]. by rewrite Hv2.
Qed.

Lemma apply_hunks_to_files_spec o cwd hs f d :
  follow_symlinks o = fl →
  hunk_outcome cwd (update_file_mode o) hs f d (apply_hunks_to_files sandbox hs o cwd (f, d)).
Proof.
  intros Ho. unfold apply_hunks_to_files. destruct hs as [|h hs]; simpl.
  - split_and!; [|done..]. intros Hx. split; [done|]. exists []. by rewrite app_nil_r.
  - by apply (apply_hunk_loop_spec o cwd (h :: hs)).
Qed.

(** ** The entry point *)
Context {W : Type} `{!IoWrite W}.

(** The delta a caller gets, from a success or from a failure. *)
Definition outcome_delta (r : result (fail (ApplyPatchFailure PathUri)) delta) : option delta :=
  match r with
  | Ok d => Some d
  | Err (Fail e) => Some (failure_delta e)
  | Err Panic => None
  end.

Lemma apply_hunks_with_options_spec o cwd hs (w : world F W) :
  follow_symlinks o = fl →
  let '(r, w') := apply_hunks_with_options sandbox hs o cwd w in
  (Forall hunk_wf hs → r ≠ Err Panic) ∧
  (∀ d, outcome_delta r = Some d → accounts (w_fs w) empty_delta (w_fs w') d) ∧
  (is_ok r = true → ∃ v, hunks_meaning (update_file_mode o) cwd (view (w_fs w)) hs = Some v ∧
                         view (w_fs w') ≡ v).
Proof.
  intros Ho. unfold apply_hunks_with_options.
  pose proof (apply_hunks_to_files_spec o cwd hs (w_fs w) empty_delta Ho) as H.
  destruct (apply_hunks_to_files sandbox hs o cwd _) as [[aff|[e|]] [f d]];
    destruct H as (Ha & Hp & Hm).
  - destruct (print_summary aff (w_stdout w)) as [[[]|e] out];
      (split_and!; [done|by intros ? [= <-]|by intros _; apply Hm]).
  - destruct (writeln (w_stderr w) (anyhow_display e)) as [[[]|e'] out];
      (split_and!; [done|by intros ? [= <-]|done]).
  - split_and!; [|done..]. intros Hwf _. by apply Hp.
Qed.

Lemma apply_patch_with_options_spec o cwd patch (w : world F W) :
  follow_symlinks o = fl →
  let '(r, w') := apply_patch_with_options sandbox patch o cwd w in
  r ≠ Err Panic ∧
  (∀ d, outcome_delta r = Some d → accounts (w_fs w) empty_delta (w_fs w') d) ∧
  (is_ok r = true → ∃ args v, parse_patch patch = Ok args ∧
     hunks_meaning (update_file_mode o) cwd (view (w_fs w)) (arg_hunks args) = Some v ∧
     view (w_fs w') ≡ v).
Proof.
  intros Ho. unfold apply_patch_with_options.
  destruct (parse_patch patch) as [args|e] eqn:Ep.
  - pose proof (apply_hunks_with_options_spec o cwd (arg_hunks args) w Ho) as H.
    destruct (apply_hunks_with_options _ _ _ _ _) as [r w']. destruct H as (Hp & Ha & Hm).
    split_and!; [apply Hp; by eapply parse_patch_ok_wf|done|].
    intros Hok. destruct (Hm Hok) as (v & ? & ?). eauto.
  - assert (accounts (w_fs w) empty_delta (w_fs w) empty_delta).
    { intros _. split; [done|]. by exists []. }
    destruct (writeln (w_stderr w) (parse_error_report e)) as [[[]|e'] out];
      (split_and!; [done|by intros ? [= <-]|done]).
Qed.
End View.

(** ** Properties *)

(** C1: whatever happens during the application of a patch (success, a failed
    operation half-way, a failed write of the summary), a delta that is still
    marked exact is a faithful account of the mutations: replaying its changes on
    the initial file system gives the final one, and undoing them on the final
    one restores the initial one, for every path. *)
Theorem exact_delta_accounts {PathUri Sandbox F W : Type} `{!PathUriOps PathUri}
    `{!ExecutorFileSystem PathUri Sandbox F} `{!IoWrite W} (sandbox : option Sandbox)
    (o : ApplyPatchOptions) `{!FileSystemLaws sandbox (follow_symlinks o)}
    (patch : rstring) (cwd : PathUri) (w w' : world F W) r d :
  apply_patch_with_options sandbox patch o cwd w = (r, w') →
  outcome_delta r = Some d → exact d = true →
  let v := view sandbox (follow_symlinks o) (w_fs w) in
  let v' := view sandbox (follow_symlinks o) (w_fs w') in
  v' ≡ replay v (changes d) ∧ v ≡ undo (changes d) v' ∧ log_recorded v (changes d).
Proof.
  intros Hr Hd Hx v v'.
  pose proof (apply_patch_with_options_spec sandbox _ o cwd patch w eq_refl) as H.
  rewrite Hr in H. destruct H as (_ & H & _).
  destruct (H d Hd Hx) as (_ & cs & Ecs & Hl & Hv). simpl in Ecs. subst cs.
  split_and!; [done| |done]. unfold v, v'. by rewrite Hv, undo_replay.
Qed.

(** C2: a patch application that reports success leaves the file system in the
    state that the pure meaning of the parsed hunks, applied in order, gives: each
    added path holds its contents, each deleted path is gone, each updated path
    holds what the update derives from its old contents. *)
Theorem apply_patch_refines_meaning {PathUri Sandbox F W : Type} `{!PathUriOps PathUri}
    `{!ExecutorFileSystem PathUri Sandbox F} `{!IoWrite W} (sandbox : option Sandbox)
    (o : ApplyPatchOptions) `{!FileSystemLaws sandbox (follow_symlinks o)}
    (patch : rstring) (cwd : PathUri) (w w' : world F W) d :
  apply_patch_with_options sandbox patch o cwd w = (Ok d, w') →
  ∃ args v, parse_patch patch = Ok args ∧
    hunks_meaning (update_file_mode o) cwd (view sandbox (follow_symlinks o) (w_fs w))
      (arg_hunks args) = Some v ∧
    view sandbox (follow_symlinks o) (w_fs w') ≡ v.
Proof.
  intros Hr. pose proof (apply_patch_with_options_spec sandbox _ o cwd patch w eq_refl) as H.
  rewrite Hr in H. by apply H.
Qed.

(** applying a patch never panics, on any input text. *)
Theorem apply_patch_never_panics {PathUri Sandbox F W : Type} `{!PathUriOps PathUri}
    `{!ExecutorFileSystem PathUri Sandbox F} `{!IoWrite W} (sandbox : option Sandbox)
    (o : ApplyPatchOptions) `{!FileSystemLaws sandbox (follow_symlinks o)}
    (patch : rstring) (cwd : PathUri) (w : world F W) :
  fst (apply_patch_with_options sandbox patch o cwd w) ≠ Err Panic.
Proof.
  pose proof (apply_patch_with_options_spec sandbox _ o cwd patch w eq_refl) as H.
  destruct (apply_patch_with_options _ _ _ _ _) as [r w']. by destruct H.
Qed.

(** an update hunk whose move target resolves to the updated path itself
    deletes the file: the new contents are written and the path is then removed as
    the original of the move, and the application reports success. *)
Theorem self_move_deletes {PathUri Sandbox F : Type} `{!PathUriOps PathUri}
    `{!ExecutorFileSystem PathUri Sandbox F} (sandbox : option Sandbox)
    (o : ApplyPatchOptions) `{!FileSystemLaws sandbox (follow_symlinks o)}
    (cwd p : PathUri) path dest chunks (f f' : F) d d' affected :
  uri_join cwd path = Ok p → uri_join cwd dest = Ok p →
  apply_hunks_to_files sandbox [UpdateFile path (Some dest) chunks] o cwd (f, d) =
    (Ok affected, (f', d')) →
  view sandbox (follow_symlinks o) f' p = None.
Proof.
  intros Hp Hd Hr.
  pose proof (apply_hunks_to_files_spec sandbox _ o cwd [UpdateFile path (Some dest) chunks] f d
    eq_refl) as H.
  rewrite Hr in H. destruct H as (_ & _ & Hm). destruct (Hm eq_refl) as (v & Ev & [Hv]).
  rewrite Hv. clear Hm Hv. simpl in Ev. unfold hunk_meaning in Ev. simpl in Ev.
  rewrite Hp in Ev. simpl in Ev. destruct (view _ _ f p) as [old|]; [|done]. simpl in Ev.
  destruct (derive_new_contents _ _ _ _) as [new|]; [|done]. simpl in Ev.
  rewrite Hd in Ev. simplify_eq/=. by rewrite upd_eq.
Qed.
