(* ===== verification/ApplyMemory.v ===== *)
(** * An in-memory file system

    A concrete [ExecutorFileSystem]: a finite map of files and a set of
    directories, with [NotFound] for a missing parent as on a real disk.  It
    satisfies the laws the theorems of [ApplySpec.v] assume, and the patches below
    run on it. *)

From stdpp Require Import base list numbers strings gmap.
From S2P Require Import Prelude PatchParser PatchSpec FileUpdate SeekSequence ApplyPatch Delta ApplySpec.

Definition SLASH : N := 47%N.

Record memory := mkMemory { files : gmap rstring rstring; dirs : gset rstring }.

(** Paths are their own text; [join] appends, [parent] cuts at the last slash. *)
#[global] Instance memory_uri : PathUriOps rstring := {|
  uri_join cwd p := Ok (cwd ++ [SLASH] ++ p);
  uri_parent p := fst <$> rsplit_once SLASH p;
  uri_native p := p;
|}.

Definition not_found : io_error := mkIoError NotFound (str "No such file or directory").
Definition is_a_directory : io_error := mkIoError OtherKind (str "Is a directory").

Definition memory_read (m : memory) (p : rstring) : result io_error rstring :=
  match files m !! p with
  | Some t => Ok t
  | None => if bool_decide (p ∈ dirs m) then Err is_a_directory else Err not_found
  end.

Definition memory_metadata (m : memory) (p : rstring) : result io_error FileMetadata :=
  match files m !! p with
  | Some t => Ok (mkMetadata false true false (str_len t) 0 0)
  | None => if bool_decide (p ∈ dirs m) then Ok (mkMetadata true false false 0 0 0)
            else Err not_found
  end.

Definition memory_write (m : memory) (p t : rstring) : result io_error unit * memory :=
  if bool_decide (p ∈ dirs m) then (Err is_a_directory, m)
  else if is_some_and (uri_parent p) (λ d, bool_decide (d ∈ dirs m))
  then (Ok tt, mkMemory (<[p:=t]> (files m)) (dirs m))
  else (Err not_found, m).

Definition memory_create (m : memory) (p : rstring) : result io_error unit * memory :=
  if bool_decide (is_Some (files m !! p)) then (Err (mkIoError AlreadyExists p), m)
  else (Ok tt, mkMemory (files m) ({[p]} ∪ dirs m)).

Definition memory_remove (m : memory) (p : rstring) : result io_error unit * memory :=
  match files m !! p with
  | Some _ => (Ok tt, mkMemory (delete p (files m)) (dirs m))
  | None => (Err not_found, m)
  end.

#[global] Instance memory_fs : ExecutorFileSystem rstring unit memory := {|
  read_file_text m p _ _ := memory_read m p;
  get_metadata m p _ _ := memory_metadata m p;
  write_file m p t _ _ := memory_write m p t;
  create_directory m p _ _ := memory_create m p;
  remove m p _ _ := memory_remove m p;
|}.

Lemma memory_view m p : view (None : option unit) true m p = files m !! p.
Proof.
  unfold view. simpl. unfold memory_read. destruct (files m !! p); [done|]. by case_bool_decide.
Qed.

#[global] Instance memory_laws : FileSystemLaws (None : option unit) true.
Proof.
  split; simpl.
  - intros m p c m'. unfold memory_write. case_bool_decide; [done|].
    destruct (is_some_and _ _); [|done]. intros [= <-]. split. intros q.
    rewrite memory_view. unfold upd. rewrite memory_view. simpl.
    case_decide; subst; by simplify_map_eq.
  - intros m p c e m'. unfold memory_write. case_bool_decide; [intros [= <- <-]; done|].
    destruct (is_some_and _ _); [done|]. by intros [= <- <-].
  - intros m p r m'. unfold memory_create. case_bool_decide; [by intros [= <- <-]|].
    intros [= <- <-]. split. intros q. by rewrite !memory_view.
  - intros m p m'. unfold memory_remove. destruct (files m !! p); [|done]. intros [= <-].
    split. intros q. rewrite memory_view. unfold upd. rewrite memory_view. simpl.
    case_decide; subst; by simplify_map_eq.
  - intros m p e m' q. unfold memory_remove. destruct (files m !! p); [done|].
    intros [= <- <-]. by left.
Qed.

#[global] Instance memory_writer : IoWrite (list rstring) := {|
  writeln out l := (Ok tt, out ++ [l]);
|}.

(** ** A run *)
Definition demo_files : memory :=
  mkMemory {[ str "/a" := str "one" ++ [LF] ++ str "two" ++ [LF] ]} {[ [] ]}.

(** Adds [d/b] below a directory that does not exist yet and renames [a] to [c]
    with a changed line. *)
Definition demo_patch : rstring :=
  join [LF] [BEGIN_PATCH_MARKER; ADD_FILE_MARKER ++ str "d/b"; str "+new";
             UPDATE_FILE_MARKER ++ str "a"; MOVE_TO_MARKER ++ str "c"; str "@@"; str " one";
             str "-two"; str "+TWO"; END_PATCH_MARKER].

Definition demo_world : world memory (list rstring) := mkWorld demo_files [] [].

Definition demo_delta : AppliedPatchDelta rstring :=
  mkDelta
    [mkChange (str "/d/b") (ChangeAdd (str "new" ++ [LF]) None);
     mkChange (str "/a") (ChangeUpdate (Some (str "/c")) (str "one" ++ [LF] ++ str "two" ++ [LF])
                            None (str "one" ++ [LF] ++ str "TWO" ++ [LF]))] true.

Definition run_patch (patch : rstring) (w : world memory (list rstring)) :=
  apply_patch_with_options (None : option unit) patch default_options [] w.

Definition demo_world' : world memory (list rstring) := snd (run_patch demo_patch demo_world).

Lemma demo_run : run_patch demo_patch demo_world = (Ok demo_delta, demo_world').
Proof. vm_compute. reflexivity. Qed.

Lemma exact_delta_accounts_witness :
  exact demo_delta = true ∧ w_stdout demo_world' =
    [str "Success. Updated the following files:"; str "A d/b"; str "M c"] ∧
  (view (None : option unit) true (w_fs demo_world') ≡
     replay (view (None : option unit) true demo_files) (changes demo_delta)) ∧
  (view (None : option unit) true demo_files ≡
     undo (changes demo_delta) (view (None : option unit) true (w_fs demo_world'))) ∧
  log_recorded (view (None : option unit) true demo_files) (changes demo_delta).
Proof.
  split; [reflexivity|]. split; [vm_compute; reflexivity|].
  apply (exact_delta_accounts None default_options demo_patch [] demo_world demo_world'
           (Ok demo_delta) demo_delta); [apply demo_run|reflexivity..].
Defined.

Lemma apply_patch_refines_meaning_witness :
  ∃ args v, parse_patch demo_patch = Ok args ∧
    hunks_meaning NormalizeToLf [] (view (None : option unit) true demo_files) (arg_hunks args) =
      Some v ∧
    view (None : option unit) true (w_fs demo_world') ≡ v.
Proof.
  apply (apply_patch_refines_meaning None default_options demo_patch [] demo_world demo_world'
           demo_delta). apply demo_run.
Defined.

Lemma apply_patch_never_panics_witness :
  fst (run_patch demo_patch demo_world) ≠ Err Panic.
Proof. apply (apply_patch_never_panics None default_options demo_patch [] demo_world). Defined.

Definition self_move_chunks : list UpdateFileChunk :=
  [mkChunk None [str "two"] [str "TWO"] [] false].

Definition self_move_run :=
  apply_hunks_to_files (None : option unit) [UpdateFile (str "a") (Some (str "a")) self_move_chunks]
    default_options [] (demo_files, empty_delta).

Lemma self_move_deletes_witness :
  view (None : option unit) true demo_files (str "/a") =
    Some (str "one" ++ [LF] ++ str "two" ++ [LF]) ∧
  fst self_move_run = Ok (mkAffected [] [str "a"] []) ∧
  exact (snd (snd self_move_run)) = true ∧
  view (None : option unit) true (fst (snd self_move_run)) (str "/a") = None.
Proof.
  split; [vm_compute; reflexivity|]. split; [vm_compute; reflexivity|].
  split; [vm_compute; reflexivity|].
  apply (self_move_deletes None default_options [] (str "/a") (str "a") (str "a") self_move_chunks
           demo_files (fst (snd self_move_run)) empty_delta (snd (snd self_move_run))
           (mkAffected [] [str "a"] [])); [reflexivity..|].
  vm_compute. reflexivity.
Defined.
