(* ===== verification/TurnDiffTracker.v ===== *)
(** * The turn diff tracker

    Models [sofia-rs/core/src/turn_diff_tracker.rs]: the net text diff of a turn,
    accumulated from the deltas of the patches that were applied, without
    rereading the file system. *)

From stdpp Require Import base list numbers strings gmap.
From S2P Require Import Prelude ApplyPatch.

Definition ZERO_OID : rstring := repeat 48%N 40.
Definition DEV_NULL := str "/dev/null".
Definition REGULAR_FILE_MODE := str "100644".
Definition U64_MODULUS : N := (2 ^ 64)%N.

Record TrackedContent := mkContent { content : rstring; revision : N }.

#[local] Set Default Proof Using "Type*".

Section Tracker.
Context {PathUri : Type} `{!PathUriOps PathUri}.

Record TrackedPath := mkTracked { environment_id : rstring; tracked_path : PathUri }.

#[global] Instance TrackedPath_eq_dec : EqDecision TrackedPath.
Proof. solve_decision. Defined.
#[global] Instance TrackedPath_countable : Countable TrackedPath.
Proof.
  apply (inj_countable' (λ p, (environment_id p, tracked_path p)) (λ p, mkTracked p.1 p.2)).
  by intros [].
Defined.

Record DiffCacheKey := mkKey {
  left_path : TrackedPath; left_revision : option N;
  right_path : TrackedPath; right_revision : option N;
}.

#[global] Instance DiffCacheKey_eq_dec : EqDecision DiffCacheKey.
Proof. solve_decision. Defined.
#[global] Instance DiffCacheKey_countable : Countable DiffCacheKey.
Proof.
  apply (inj_countable' (λ k, (left_path k, left_revision k, right_path k, right_revision k))
           (λ k, mkKey k.1.1.1 k.1.1.2 k.1.2 k.2)).
  by intros [].
Defined.

Record TurnDiffTracker := mkTracker {
  valid : bool;
  display_roots_by_environment : gmap rstring PathUri;
  baseline_by_path : gmap TrackedPath TrackedContent;
  current_by_path : gmap TrackedPath TrackedContent;
  origin_by_current_path : gmap TrackedPath TrackedPath;
  next_revision : N;
  rendered_diffs : gmap DiffCacheKey (option rstring);
  unified_diff : option rstring;
  (** The renderings so far; the source counts them in tests only. *)
  rendered_diff_count : nat;
}.

Definition default_tracker : TurnDiffTracker := mkTracker true ∅ ∅ ∅ ∅ 0 ∅ None 0.
Definition with_environment_display_roots (roots : list (rstring * PathUri)) : TurnDiffTracker :=
  mkTracker true (foldl (λ m r, <[fst r := snd r]> m) ∅ roots) ∅ ∅ ∅ 0 ∅ None 0.

Implicit Types t : TurnDiffTracker.

(** Field updates. *)
Definition set_baseline m t :=
  mkTracker (valid t) (display_roots_by_environment t) m (current_by_path t)
    (origin_by_current_path t) (next_revision t) (rendered_diffs t) (unified_diff t)
    (rendered_diff_count t).
Definition set_current m t :=
  mkTracker (valid t) (display_roots_by_environment t) (baseline_by_path t) m
    (origin_by_current_path t) (next_revision t) (rendered_diffs t) (unified_diff t)
    (rendered_diff_count t).
Definition set_origin m t :=
  mkTracker (valid t) (display_roots_by_environment t) (baseline_by_path t) (current_by_path t)
    m (next_revision t) (rendered_diffs t) (unified_diff t)
    (rendered_diff_count t).
Definition set_next_revision n t :=
  mkTracker (valid t) (display_roots_by_environment t) (baseline_by_path t) (current_by_path t)
    (origin_by_current_path t) n (rendered_diffs t) (unified_diff t)
    (rendered_diff_count t).
Definition set_diffs r u n t :=
  mkTracker (valid t) (display_roots_by_environment t) (baseline_by_path t) (current_by_path t)
    (origin_by_current_path t) (next_revision t) r u n.

Definition invalidate t : TurnDiffTracker :=
  mkTracker false (display_roots_by_environment t) (baseline_by_path t) (current_by_path t)
    (origin_by_current_path t) (next_revision t) ∅ None (rendered_diff_count t).

Definition get_unified_diff t : option rstring := unified_diff t.
Definition has_unified_diff t : bool :=
  match unified_diff t with Some _ => true | None => false end.

(** [tracked_content]: stamps a content with a fresh revision, a [u64]. *)
Definition tracked_content (c : rstring) t : TrackedContent * TurnDiffTracker :=
  (mkContent c (next_revision t),
   set_next_revision ((next_revision t + 1) mod U64_MODULUS) t).

Definition insert_baseline (p : TrackedPath) (c : rstring) t : TurnDiffTracker :=
  let '(tc, t) := tracked_content c t in set_baseline (<[p:=tc]> (baseline_by_path t)) t.
Definition insert_current (p : TrackedPath) (c : rstring) t : TurnDiffTracker :=
  let '(tc, t) := tracked_content c t in set_current (<[p:=tc]> (current_by_path t)) t.

Definition contains_key {V} (p : TrackedPath) (m : gmap TrackedPath V) : bool :=
  match m !! p with Some _ => true | None => false end.

(** ** Applying one change *)
Definition apply_add (path : TrackedPath) (c : rstring) (overwritten : option rstring) t
    : TurnDiffTracker :=
  let t := set_origin (delete path (origin_by_current_path t)) t in
  let t :=
    if negb (contains_key path (current_by_path t)) && negb (contains_key path (baseline_by_path t))
    then match overwritten with Some o => insert_baseline path o t | None => t end
    else t in
  insert_current path c t.

Definition apply_delete (path : TrackedPath) (c : rstring) t : TurnDiffTracker :=
  let removed := contains_key path (current_by_path t) in
  let t := set_current (delete path (current_by_path t)) t in
  let t := if negb removed && negb (contains_key path (baseline_by_path t))
           then insert_baseline path c t else t in
  set_origin (delete path (origin_by_current_path t)) t.

Definition apply_update (source : TrackedPath) (move_path : option TrackedPath)
    (old : rstring) (overwritten : option rstring) (new : rstring) t : TurnDiffTracker :=
  let t :=
    if negb (contains_key source (current_by_path t)) &&
       negb (contains_key source (baseline_by_path t))
    then insert_baseline source old t else t in
  match move_path with
  | Some dest =>
      let t :=
        if negb (contains_key dest (current_by_path t)) &&
           negb (contains_key dest (baseline_by_path t))
        then match overwritten with Some o => insert_baseline dest o t | None => t end
        else t in
      let origin := default source (origin_by_current_path t !! source) in
      let t := set_origin (delete source (origin_by_current_path t)) t in
      let t := set_current (delete source (current_by_path t)) t in
      let t := insert_current dest new t in
      let t := set_origin (delete dest (origin_by_current_path t)) t in
      if bool_decide (dest = origin) then t
      else set_origin (<[dest:=origin]> (origin_by_current_path t)) t
  | None => insert_current source new t
  end.

Definition apply_change (env : rstring) (c : AppliedPatchChange PathUri) t : TurnDiffTracker :=
  let source_path := mkTracked env (change_path c) in
  match change_change c with
  | ChangeAdd content overwritten => apply_add source_path content overwritten t
  | ChangeDelete content => apply_delete source_path content t
  | ChangeUpdate move_path old overwritten new =>
      apply_update source_path (mkTracked env <$> move_path) old overwritten new t
  end.

(** ** Rendering *)

(** [PathUri::relative_path_from], the blob id of the [sha1] crate and the
    unified diff of the [similar] crate, with its two header lines.  The diff is
    computed against a deadline ([DIFF_TIMEOUT]), so that it depends on the clock: it is
    a function of the number of the rendering as well. *)
Context (relative_path_from : PathUri → PathUri → option rstring).
Context (git_blob_oid : rstring → rstring).
Context (similar_unified_diff : nat → rstring → rstring → rstring → rstring → rstring).

Definition display_path t (p : TrackedPath) : rstring :=
  let display :=
    default (uri_native (tracked_path p))
      (root ← display_roots_by_environment t !! environment_id p;
       relative_path_from (tracked_path p) root) in
  if (1 <? size (display_roots_by_environment t)) && negb (is_empty (environment_id p))
  then environment_id p ++ str "/" ++ display
  else display.

Definition to_forward_slashes (s : rstring) : rstring :=
  map (λ c, if (c =? 92)%N then 47%N else c) s.

(** The text and the count of renderings after it. *)
Definition render_diff t (count : nat) (lpath : TrackedPath) (left_content : option rstring)
    (rpath : TrackedPath) (right_content : option rstring) : option rstring * nat :=
  if bool_decide (left_content = right_content) then (None, count) else
  let left_display := to_forward_slashes (display_path t lpath) in
  let right_display := to_forward_slashes (display_path t rpath) in
  let oid := λ c, match c with Some c => git_blob_oid c | None => ZERO_OID end in
  let mode :=
         match left_content, right_content with
         | None, Some _ => Some (str "new file mode " ++ REGULAR_FILE_MODE ++ [LF])
         | Some _, None => Some (str "deleted file mode " ++ REGULAR_FILE_MODE ++ [LF])
         | Some _, Some _ => Some []
         | None, None => None
         end in
  let old_header := if left_content then str "a/" ++ left_display else DEV_NULL in
  let new_header := if right_content then str "b/" ++ right_display else DEV_NULL in
  (mode ← mode;
   Some (str "diff --git a/" ++ left_display ++ str " b/" ++ right_display ++ [LF] ++
        mode ++
        str "index " ++ oid left_content ++ str ".." ++ oid right_content ++ [LF] ++
        similar_unified_diff count old_header new_header
          (default [] left_content) (default [] right_content)),
   S count).

(** [HashMap] iteration: some order of the entries, not specified. *)
Context (hash_order : ∀ V, gmap TrackedPath V → list (TrackedPath * V)).

Definition is_rename_pair t (dest origin : TrackedPath) : bool :=
  negb (bool_decide (dest = origin) ||
        contains_key origin (current_by_path t) ||
        negb (contains_key dest (current_by_path t)) ||
        negb (contains_key origin (baseline_by_path t)) ||
        contains_key dest (baseline_by_path t)).

(** [rename_pairs], from origins to destinations; a later pair replaces an
    earlier one of the same origin. *)
Definition rename_pairs t : gmap TrackedPath TrackedPath :=
  foldl (λ m '(dest, origin), if is_rename_pair t dest origin then <[origin:=dest]> m else m)
    ∅ (hash_order _ (origin_by_current_path t)).

Record refresh_state := mkRefresh {
  handled : gset TrackedPath;
  previous_diffs : gmap DiffCacheKey (option rstring);
  new_diffs : gmap DiffCacheKey (option rstring);
  aggregated : rstring;
  render_count : nat;
}.

Definition push_diff (agg : rstring) (rendered : option rstring) : rstring :=
  match rendered with
  | None => agg
  | Some diff => let agg := agg ++ diff in if ends_with [LF] agg then agg else agg ++ [LF]
  end.

(** One iteration of the loop over the sorted paths. *)
Definition refresh_path t (pairs : gmap TrackedPath TrackedPath) (st : refresh_state)
    (path : TrackedPath) : refresh_state :=
  if bool_decide (path ∈ handled st) then st else
  let handled := {[path]} ∪ handled st in
  if bool_decide (path ∈ (map_to_list pairs).*2)
  then mkRefresh handled (previous_diffs st) (new_diffs st) (aggregated st) (render_count st) else
  let '(handled, rpath) :=
    match pairs !! path with Some dest => ({[dest]} ∪ handled, dest) | None => (handled, path) end in
  let left_content := baseline_by_path t !! path in
  let right_content := current_by_path t !! rpath in
  let key := mkKey path (revision <$> left_content) rpath (revision <$> right_content) in
  let '(rendered, count) :=
    match previous_diffs st !! key with
    | Some r => (r, render_count st)
    | None => render_diff t (render_count st) path (content <$> left_content) rpath (content <$> right_content)
    end in
  mkRefresh handled (delete key (previous_diffs st)) (<[key:=rendered]> (new_diffs st))
    (push_diff (aggregated st) rendered) count.

Definition refresh_paths t : list TrackedPath :=
  dedup (sort_by (λ p q, str_leb (display_path t p) (display_path t q))
    ((hash_order _ (baseline_by_path t)).*1 ++ (hash_order _ (current_by_path t)).*1)).

Definition refresh_unified_diff t : TurnDiffTracker :=
  let st := foldl (refresh_path t (rename_pairs t)) (mkRefresh ∅ (rendered_diffs t) ∅ [] (rendered_diff_count t)) (refresh_paths t) in
  set_diffs (new_diffs st) (if is_empty (aggregated st) then None else Some (aggregated st))
    (render_count st) t.

Definition track_delta (env : rstring) (d : AppliedPatchDelta PathUri) t : TurnDiffTracker :=
  if negb (valid t) then t
  else if negb (exact d) then invalidate t
  else refresh_unified_diff (foldl (λ t c, apply_change env c t) t (changes d)).

(** ** The updates of [core/src/tools/events.rs] *)
Inductive TurnDiffTrackerUpdate :=
| UpdateTrack (env : option rstring) (delta : AppliedPatchDelta PathUri)
| UpdateInvalidate
| UpdateNone.

Definition tracker_update_for_known_delta (env : option rstring) (d : AppliedPatchDelta PathUri)
    : TurnDiffTrackerUpdate :=
  if exact d && is_empty (changes d) then UpdateNone else UpdateTrack env d.

(** The tracker part of [emit_patch_end]: the new tracker and the text of the
    [TurnDiff] event, if one is sent. *)
Definition emit_patch_end (u : TurnDiffTrackerUpdate) t : TurnDiffTracker * option rstring :=
  let had_unified_diff := has_unified_diff t in
  let '(t', tracker_changed) :=
    match u with
    | UpdateTrack env d => (track_delta (default [] env) d t, true)
    | UpdateInvalidate => (invalidate t, true)
    | UpdateNone => (t, false)
    end in
  (t', if tracker_changed && (had_unified_diff || has_unified_diff t')
       then Some (default [] (get_unified_diff t')) else None).
End Tracker.

Arguments TrackedPath : clear implicits.
Arguments TurnDiffTracker PathUri {_}.
Arguments TurnDiffTrackerUpdate : clear implicits.
