(* ===== verification/TrackerSpec.v ===== *)
(** * Correctness of the turn diff tracker

    The two maps of the tracker are the net change of the turn, the diff is made of
    renderings of their contents that stay as they are while the contents do, and changes
    that cancel out show no diff. *)

From stdpp Require Import base list numbers strings gmap.
From S2P Require Import Prelude FileUpdate ApplyPatch Delta TurnDiffTracker.

#[local] Set Default Proof Using "Type*".
#[local] Arguments str : simpl never.

Section Net.
Context {PathUri : Type} `{!PathUriOps PathUri}.
Local Notation tracker := (TurnDiffTracker PathUri).
Local Notation view := (fview (TrackedPath PathUri)).
Implicit Types (t : tracker) (p q : TrackedPath PathUri) (i c b k : view).

(** The contents of the two maps. *)
Definition base t : view := λ p, content <$> baseline_by_path t !! p.
Definition curr t : view := λ p, content <$> current_by_path t !! p.

(** [i] is the file system when the turn began, [c] the one now: a tracked path
    has its initial text in the baseline and its text now in the current map, and
    the other paths did not change. *)
Definition net_at (i c b k : option rstring) : Prop :=
  match b, k with
  | None, None => i = c
  | _, _ => i = b ∧ c = k
  end.
Definition net i c b k : Prop := ∀ p, net_at (i p) (c p) (b p) (k p).
Definition net_inv i c t : Prop := net i c (base t) (curr t).

(** The baseline entry of a path that is tracked for the first time. *)
Definition ensure_base b k p (o : option rstring) : view :=
  match b p, k p with
  | None, None => upd b p o
  | _, _ => b
  end.

#[global] Instance net_proper : Proper ((≡) ==> (≡) ==> (≡) ==> (≡) ==> iff) net.
Proof.
  intros i i' [Hi] c c' [Hc] b b' [Hb] k k' [Hk]. unfold net.
  by setoid_rewrite Hi; setoid_rewrite Hc; setoid_rewrite Hb; setoid_rewrite Hk.
Qed.

#[global] Instance net_inv_proper : Proper ((≡) ==> (≡) ==> eq ==> iff) net_inv.
Proof. intros i i' Hi c c' Hc t ? <-. unfold net_inv. by rewrite Hi, Hc. Qed.

#[global] Instance ensure_base_proper :
  Proper ((≡) ==> (≡) ==> eq ==> eq ==> (≡)) ensure_base.
Proof.
  intros b b' Hb k k' [Hk] p ? <- o ? <-. unfold ensure_base.
  rewrite (fview_at _ _ Hb p), Hk. destruct (b' p), (k' p); by rewrite ?Hb.
Qed.

Lemma net_step i c b k p o x :
  net i c b k → c p = o → net i (upd c p x) (ensure_base b k p o) (upd k p x).
Proof.
  intros H Ho q. specialize (H q). unfold net_at, ensure_base, upd in *.
  destruct (decide (q = p)) as [->|Hne].
  - destruct (b p) as [y|] eqn:Eb, (k p) as [z|] eqn:Ek; rewrite ?Eb; rewrite ?decide_True by done;
      destruct x, o; destruct_and?; split_and?; congruence.
  - destruct (b p), (k p); rewrite ?decide_False by done; done.
Qed.

(** ** The changes on the two maps *)
Lemma base_insert_baseline p x t : base (insert_baseline p x t) ≡ upd (base t) p (Some x).
Proof.
  split. intros q. unfold base, upd. simpl. case_decide; subst; by simplify_map_eq.
Qed.
Lemma curr_insert_current p x t : curr (insert_current p x t) ≡ upd (curr t) p (Some x).
Proof.
  split. intros q. unfold curr, upd. simpl. case_decide; subst; by simplify_map_eq.
Qed.
Lemma curr_delete p t :
  curr (set_current (delete p (current_by_path t)) t) ≡ upd (curr t) p None.
Proof.
  split. intros q. unfold curr, upd. simpl. case_decide; subst; by simplify_map_eq.
Qed.

(** The guarded insertion into the baseline. *)
Definition track_base p (o : option rstring) t : tracker :=
  if negb (contains_key p (current_by_path t)) && negb (contains_key p (baseline_by_path t))
  then match o with Some o => insert_baseline p o t | None => t end
  else t.

Lemma track_base_curr p o t : curr (track_base p o t) = curr t.
Proof. unfold track_base. by destruct (_ && _), o. Qed.

Lemma track_base_base p o t : base (track_base p o t) ≡ ensure_base (base t) (curr t) p o.
Proof.
  unfold track_base, ensure_base, contains_key, base at 2, curr.
  destruct (current_by_path t !! p) eqn:Ek, (baseline_by_path t !! p) eqn:Eb; simpl; try done.
  destruct o; [by rewrite base_insert_baseline|].
  rewrite upd_same; [done|]. unfold base. by rewrite Eb.
Qed.

Lemma apply_add_maps p x o t :
  base (apply_add p x o t) ≡ ensure_base (base t) (curr t) p o ∧
  curr (apply_add p x o t) ≡ upd (curr t) p (Some x).
Proof.
  set (t1 := set_origin (delete p (origin_by_current_path t)) t).
  change (apply_add p x o t) with (insert_current p x (track_base p o t1)). split.
  - change (base (insert_current p x (track_base p o t1))) with (base (track_base p o t1)).
    by rewrite track_base_base.
  - by rewrite curr_insert_current, track_base_curr.
Qed.

Lemma apply_update_in_place_maps p old o x t :
  base (apply_update p None old o x t) ≡ ensure_base (base t) (curr t) p (Some old) ∧
  curr (apply_update p None old o x t) ≡ upd (curr t) p (Some x).
Proof.
  change (apply_update p None old o x t) with (insert_current p x (track_base p (Some old) t)).
  split.
  - change (base (insert_current p x (track_base p (Some old) t)))
      with (base (track_base p (Some old) t)).
    by rewrite track_base_base.
  - by rewrite curr_insert_current, track_base_curr.
Qed.

Lemma apply_delete_maps p x t :
  base (apply_delete p x t) ≡ ensure_base (base t) (curr t) p (Some x) ∧
  curr (apply_delete p x t) ≡ upd (curr t) p None.
Proof.
  rewrite <- curr_delete.
  assert (ensure_base (base t) (curr t) p (Some x) ≡ base (track_base p (Some x) t)) as ->
    by by rewrite track_base_base.
  unfold apply_delete, track_base.
  split; destruct (contains_key p (current_by_path t)), (contains_key p (baseline_by_path t)) eqn:E;
    simpl; rewrite ?E; done.
Qed.

Lemma apply_move_maps p dest old o x t :
  base (apply_update p (Some dest) old o x t) ≡
    ensure_base (ensure_base (base t) (curr t) p (Some old)) (curr t) dest o ∧
  curr (apply_update p (Some dest) old o x t) ≡ upd (upd (curr t) p None) dest (Some x).
Proof.
  set (t1 := track_base p (Some old) t). set (t2 := track_base dest o t1).
  set (t3 := set_current (delete p (current_by_path t2))
               (set_origin (delete p (origin_by_current_path t2)) t2)).
  set (t4 := apply_update p (Some dest) old o x t).
  assert (base t4 = base t2 ∧ curr t4 = curr (insert_current dest x t3)) as [-> ->].
  { unfold t4, apply_update. fold (track_base p (Some old) t). fold t1.
    fold (track_base dest o t1). fold t2. cbv zeta. by case_bool_decide. }
  split.
  - unfold t2. rewrite track_base_base. unfold t1. by rewrite track_base_curr, track_base_base.
  - rewrite curr_insert_current. unfold t3.
    change (curr (set_current (delete p (current_by_path t2))
              (set_origin (delete p (origin_by_current_path t2)) t2)))
      with (curr (set_current (delete p (current_by_path t2)) t2)).
    rewrite curr_delete. unfold t2, t1. by rewrite !track_base_curr.
Qed.

(** A change seen as a change of tracked paths. *)
Definition lift_change (env : rstring) (ch : AppliedPatchChange PathUri)
    : AppliedPatchChange (TrackedPath PathUri) :=
  mkChange (mkTracked env (change_path ch))
    match change_change ch with
    | ChangeAdd x o => ChangeAdd x o
    | ChangeDelete x => ChangeDelete x
    | ChangeUpdate mv old o x => ChangeUpdate (mkTracked env <$> mv) old o x
    end.

Definition not_self_move (ch : AppliedPatchChange PathUri) : Prop :=
  match change_change ch with
  | ChangeUpdate (Some dest) _ _ _ => dest ≠ change_path ch
  | _ => True
  end.

Lemma apply_change_net env ch i c t :
  net_inv i c t → recorded c (lift_change env ch) → not_self_move ch →
  net_inv i (replay_change c (lift_change env ch)) (apply_change env ch t).
Proof.
  destruct ch as [path ch]. unfold net_inv, recorded, not_self_move, replay_change, apply_change.
  simpl. set (p := mkTracked env path).
  destruct ch as [x o|x|[dest|] old o x]; simpl; intros H Hr Hs.
  - destruct (apply_add_maps p x o t) as [-> ->]. by apply net_step.
  - destruct (apply_delete_maps p x t) as [-> ->]. by apply net_step.
  - destruct (apply_move_maps p (mkTracked env dest) old o x t) as [-> ->].
    destruct Hr as [Hp Hd]. set (d := mkTracked env dest) in *.
    assert (d ≠ p) as Hne by (unfold d, p; congruence).
    pose proof (net_step _ _ _ _ p (Some old) None H Hp) as H1.
    apply (net_step _ _ _ _ d o (Some x)) in H1; [|by rewrite upd_ne].
    rewrite upd_comm by done.
    unfold ensure_base at 1 in H1. rewrite (upd_ne _ p None d) in H1 by done. exact H1.
  - destruct (apply_update_in_place_maps p old o x t) as [-> ->]. by apply net_step.
Qed.

Lemma apply_changes_net env chs i c t :
  net_inv i c t → log_recorded c (lift_change env <$> chs) → Forall not_self_move chs →
  net_inv i (replay c (lift_change env <$> chs)) (foldl (λ t ch, apply_change env ch t) t chs).
Proof.
  revert c t. induction chs as [|ch chs IH]; intros c t H Hl Hs; [done|].
  simpl in *. destruct Hl as [Hr Hl]. apply Forall_cons in Hs as [Hs Hs'].
  apply IH; [|done..]. by apply apply_change_net.
Qed.
End Net.

(** ** Rendering and its cache *)
Lemma push_diffs_none rs : Forall (eq None) rs → foldl push_diff [] rs = [].
Proof. by induction 1 as [|? rs <- _ IH]. Qed.

Lemma push_diff_nil agg r : push_diff agg r = [] → agg = [] ∧ None = r.
Proof.
  destruct r as [d|]; simpl; [|done]. destruct (ends_with _ _) eqn:E; intros Hn.
  - by rewrite Hn in E.
  - by apply app_nil in Hn as [_ ?].
Qed.

Lemma push_diffs_nil agg rs : foldl push_diff agg rs = [] → agg = [] ∧ Forall (eq None) rs.
Proof.
  revert agg. induction rs as [|r rs IH]; intros agg; [done|]. simpl.
  intros [Hn Hrs]%IH. apply push_diff_nil in Hn as [-> ?]. auto.
Qed.

Section Render.
Context {PathUri : Type} `{!PathUriOps PathUri}.
Context (relative_path_from : PathUri → PathUri → option rstring).
Context (git_blob_oid : rstring → rstring).
Context (similar_unified_diff : nat → rstring → rstring → rstring → rstring → rstring).
Context (hash_order : ∀ V, gmap (TrackedPath PathUri) V → list (TrackedPath PathUri * V)).
Local Notation tracker := (TurnDiffTracker PathUri).
Local Notation tpath := (TrackedPath PathUri).
Local Notation render_with := (render_diff relative_path_from git_blob_oid similar_unified_diff).
Local Notation step_path := (refresh_path relative_path_from git_blob_oid similar_unified_diff).
Local Notation refresh := (refresh_unified_diff relative_path_from git_blob_oid
                             similar_unified_diff hash_order).
Local Notation track := (track_delta relative_path_from git_blob_oid
                             similar_unified_diff hash_order).
Implicit Types (t : tracker) (p q : tpath).

(** The reference: which pairs of paths are compared, in which order. *)
Fixpoint diff_pairs (pairs : gmap tpath tpath) (handled : gset tpath) (paths : list tpath)
    : list (tpath * tpath) :=
  match paths with
  | [] => []
  | path :: rest =>
      if bool_decide (path ∈ handled) then diff_pairs pairs handled rest
      else if bool_decide (path ∈ (map_to_list pairs).*2)
      then diff_pairs pairs ({[path]} ∪ handled) rest
      else match pairs !! path with
           | Some dest => (path, dest) :: diff_pairs pairs ({[dest]} ∪ ({[path]} ∪ handled)) rest
           | None => (path, path) :: diff_pairs pairs ({[path]} ∪ handled) rest
           end
  end.

Definition diffed_pairs t : list (tpath * tpath) :=
  diff_pairs (rename_pairs hash_order t) ∅ (refresh_paths relative_path_from hash_order t).

(** The text of the [n]-th rendering, and of a pair with the contents now. *)
Definition render t (n : nat) p (x : option rstring) q (y : option rstring) : option rstring :=
  fst (render_with t n p x q y).
Definition render_pair t (n : nat) (lr : tpath * tpath) : option rstring :=
  render t n (fst lr) (base t (fst lr)) (snd lr) (curr t (snd lr)).

(** The key under which the section of a pair is kept. *)
Definition section_key t (lr : tpath * tpath) : DiffCacheKey :=
  mkKey (fst lr) (revision <$> baseline_by_path t !! fst lr) (snd lr) (revision <$> current_by_path t !! snd lr).
Definition section t (lr : tpath * tpath) : option rstring := default None (rendered_diffs t !! section_key t lr).

Definition join_sections (rs : list (option rstring)) : option rstring :=
  let agg := foldl push_diff [] rs in if is_empty agg then None else Some agg.

(** The diff is made of the sections of the pairs, and every section is a rendering of the
    contents now: one of those counted, unless there is nothing to show. *)
Definition rendering_of t (bound : nat) (lr : tpath * tpath) (r : option rstring) : Prop :=
  ∃ n, r = render_pair t n lr ∧ (is_Some r → n < bound).
Definition diff_current t : Prop :=
  unified_diff t = join_sections (section t <$> diffed_pairs t) ∧
  ∀ lr, lr ∈ diffed_pairs t → ∃ r,
    rendered_diffs t !! section_key t lr = Some r ∧ rendering_of t (rendered_diff_count t) lr r.

(** Every revision stands for one content, and a cached rendering is the one of
    the contents its revisions stand for. *)
Definition stamped (content_of : N → rstring) (next : N) (tc : TrackedContent) : Prop :=
  (revision tc < next)%N ∧ content tc = content_of (revision tc).

Definition cached (content_of : N → rstring) t (bound : nat) (k : DiffCacheKey) (r : option rstring) : Prop :=
  (∀ n, left_revision k = Some n ∨ right_revision k = Some n → (n < next_revision t)%N) ∧
  ∃ n, r = render t n (left_path k) (content_of <$> left_revision k)
                      (right_path k) (content_of <$> right_revision k) ∧ (is_Some r → n < bound).

Record cache_by (content_of : N → rstring) t : Prop := {
  cb_base p tc : baseline_by_path t !! p = Some tc → stamped content_of (next_revision t) tc;
  cb_curr p tc : current_by_path t !! p = Some tc → stamped content_of (next_revision t) tc;
  cb_diffs k r : rendered_diffs t !! k = Some r → cached content_of t (rendered_diff_count t) k r;
}.

(** The cache invariant, with room for [n] more revisions. *)
Definition cache_inv (n : N) t : Prop :=
  (∃ content_of, cache_by content_of t) ∧ (next_revision t + n < U64_MODULUS)%N.

Lemma cache_inv_weaken n m t : (m ≤ n)%N → cache_inv n t → cache_inv m t.
Proof. intros ? [??]. split; [done|]. lia. Qed.

(** Stamping a content. *)
Definition bind_revision (content_of : N → rstring) (n : N) (x : rstring) : N → rstring :=
  λ m, if (m =? n)%N then x else content_of m.

Lemma stamped_bind content_of n x tc :
  stamped content_of n tc → stamped (bind_revision content_of n x) (n + 1) tc.
Proof.
  intros [Hlt Hc]. unfold stamped, bind_revision. split; [lia|].
  destruct (N.eqb_spec (revision tc) n); [lia|done].
Qed.

Lemma stamped_fresh content_of n x : stamped (bind_revision content_of n x) (n + 1) (mkContent x n).
Proof. unfold stamped, bind_revision. simpl. rewrite N.eqb_refl. split; [lia|done]. Qed.

Lemma bind_revision_map content_of n x (o : option N) :
  (∀ m, o = Some m → (m < n)%N) → bind_revision content_of n x <$> o = content_of <$> o.
Proof.
  intros H. destruct o as [m|]; [|done]. simpl. unfold bind_revision.
  specialize (H m eq_refl). destruct (N.eqb_spec m n); [lia|done].
Qed.

Lemma cached_bind content_of x t t' bound k r :
  display_roots_by_environment t' = display_roots_by_environment t →
  next_revision t' = (next_revision t + 1)%N →
  cached content_of t bound k r → cached (bind_revision content_of (next_revision t) x) t' bound k r.
Proof.
  intros Hd Hn (Hk & n & -> & Hb). split.
  - intros m Hm. specialize (Hk m Hm). lia.
  - exists n. rewrite !bind_revision_map by naive_solver.
    assert (Hr : ∀ p y q z, render t' n p y q z = render t n p y q z)
      by (intros; unfold render, render_diff, display_path; by rewrite Hd).
    by rewrite Hr.
Qed.

Lemma cached_mono content_of t bound bound' k r :
  bound ≤ bound' → cached content_of t bound k r → cached content_of t bound' k r.
Proof. intros Hle (Hk & n & Hr & Hb). split; [done|]. exists n. split; [done|]. intros ?%Hb. lia. Qed.

Lemma tracked_content_next n t :
  cache_inv (n + 1) t →
  next_revision (snd (tracked_content [] t)) = (next_revision t + 1)%N.
Proof. intros [_ H]. simpl. apply N.mod_small. lia. Qed.

Lemma insert_baseline_cache n p x t :
  cache_inv (n + 1) t → cache_inv n (insert_baseline p x t).
Proof.
  intros H. pose proof (tracked_content_next n t H) as Hn. simpl in Hn.
  destruct H as [[co [Hb Hc Hd]] Hlt]. split; [|simpl; rewrite Hn; lia].
  exists (bind_revision co (next_revision t) x). split; simpl.
  - intros q tc. rewrite Hn. rewrite lookup_insert_Some.
    intros [[<- <-]|[_ ?]]; [apply stamped_fresh|eapply stamped_bind, Hb; done].
  - intros q tc ?. rewrite Hn. eapply stamped_bind, Hc; done.
  - intros k r ?. eapply cached_bind; [done| |by apply Hd]. done.
Qed.

Lemma insert_current_cache n p x t :
  cache_inv (n + 1) t → cache_inv n (insert_current p x t).
Proof.
  intros H. pose proof (tracked_content_next n t H) as Hn. simpl in Hn.
  destruct H as [[co [Hb Hc Hd]] Hlt]. split; [|simpl; rewrite Hn; lia].
  exists (bind_revision co (next_revision t) x). split; simpl.
  - intros q tc ?. rewrite Hn. eapply stamped_bind, Hb; done.
  - intros q tc. rewrite Hn. rewrite lookup_insert_Some.
    intros [[<- <-]|[_ ?]]; [apply stamped_fresh|eapply stamped_bind, Hc; done].
  - intros k r ?. eapply cached_bind; [done| |by apply Hd]. done.
Qed.

Lemma delete_current_cache n p t :
  cache_inv n t → cache_inv n (set_current (delete p (current_by_path t)) t).
Proof.
  intros [[co [Hb Hc Hd]] Hlt]. split; [|done]. exists co. split; simpl; [done| |done].
  intros q tc [_ ?]%lookup_delete_Some. by eapply Hc.
Qed.

Lemma set_origin_cache n m t : cache_inv n t → cache_inv n (set_origin m t).
Proof. intros [[co [Hb Hc Hd]] Hlt]. split; [|done]. by exists co. Qed.

Lemma track_base_cache n p o t : cache_inv (n + 1) t → cache_inv n (track_base p o t).
Proof.
  intros H. unfold track_base. destruct (_ && _), o; try (by apply insert_baseline_cache);
    (eapply cache_inv_weaken; [|done]; lia).
Qed.

Lemma apply_change_cache n env ch t : cache_inv (n + 3) t → cache_inv n (apply_change env ch t).
Proof.
  intros H. unfold apply_change. set (p := mkTracked env (change_path ch)).
  assert (cache_inv (n + 1 + 1 + 1) t) as H3 by (eapply cache_inv_weaken; [|done]; lia).
  assert (cache_inv (n + 1 + 1) t) as H2 by (eapply cache_inv_weaken; [|done]; lia).
  destruct (change_change ch) as [x o|x|[dest|] old o x]; simpl.
  - by apply insert_current_cache, (track_base_cache _ p o), set_origin_cache.
  - unfold apply_delete. apply set_origin_cache. destruct (_ && _).
    + apply insert_baseline_cache, delete_current_cache. eapply cache_inv_weaken; [|done]; lia.
    + apply delete_current_cache. eapply cache_inv_weaken; [|done]; lia.
  - unfold apply_update. fold (track_base p (Some old) t). set (t1 := track_base p (Some old) t).
    fold (track_base (mkTracked env dest) o t1). set (t2 := track_base (mkTracked env dest) o t1).
    assert (cache_inv (n + 1) t2) by by apply track_base_cache, track_base_cache.
    cbv zeta. case_bool_decide; [apply set_origin_cache|do 2 apply set_origin_cache];
      apply insert_current_cache;
      apply (delete_current_cache _ p (set_origin (delete p (origin_by_current_path t2)) t2));
      by apply set_origin_cache.
  - apply insert_current_cache. by apply (track_base_cache _ p (Some old)).
Qed.

Lemma apply_changes_cache n env chs t :
  cache_inv (n + 3 * N.of_nat (length chs)) t →
  cache_inv n (foldl (λ t ch, apply_change env ch t) t chs).
Proof.
  revert t. induction chs as [|ch chs IH]; intros t H.
  - eapply cache_inv_weaken; [|done]. simpl. lia.
  - simpl. apply IH, apply_change_cache. eapply cache_inv_weaken; [|done]. simpl length. lia.
Qed.

(** *** The loop *)
Lemma render_count_mono t n p x q y r m : render_with t n p x q y = (r, m) → n ≤ m ∧ (is_Some r → n < m).
Proof.
  unfold render_diff. case_bool_decide; intros [= <- <-]; [|split; [lia|intros; lia]].
  split; [lia|]. by intros [? ?].
Qed.

(** One iteration that renders or reuses the section of a pair. *)
Definition render_step t (st : refresh_state) (h : gset tpath) (lr : tpath * tpath) : refresh_state :=
  let key := section_key t lr in
  let '(rendered, count) :=
    match previous_diffs st !! key with
    | Some r => (r, render_count st)
    | None => render_with t (render_count st) (fst lr) (base t (fst lr)) (snd lr) (curr t (snd lr))
    end in
  mkRefresh h (delete key (previous_diffs st)) (<[key:=rendered]> (new_diffs st))
    (push_diff (aggregated st) rendered) count.

Lemma step_path_cases t pairs st path :
  (path ∈ handled st ∧ step_path t pairs st path = st ∧
   ∀ rest, diff_pairs pairs (handled st) (path :: rest) = diff_pairs pairs (handled st) rest) ∨
  ∃ h, path ∉ handled st ∧ path ∈ h ∧ handled st ⊆ h ∧
   ((step_path t pairs st path =
       mkRefresh h (previous_diffs st) (new_diffs st) (aggregated st) (render_count st) ∧
     ∀ rest, diff_pairs pairs (handled st) (path :: rest) = diff_pairs pairs h rest) ∨
    ∃ rpath, step_path t pairs st path = render_step t st h (path, rpath) ∧
     ∀ rest, diff_pairs pairs (handled st) (path :: rest) = (path, rpath) :: diff_pairs pairs h rest).
Proof.
  unfold refresh_path. cbn [diff_pairs]. case_bool_decide as Hh; [by left|right].
  case_bool_decide as Hd.
  - exists ({[path]} ∪ handled st). split_and!; [done|set_solver..|]. by left.
  - destruct (pairs !! path) as [dest|].
    + exists ({[dest]} ∪ ({[path]} ∪ handled st)). split_and!; [done|set_solver..|]. right. by exists dest.
    + exists ({[path]} ∪ handled st). split_and!; [done|set_solver..|]. right. by exists path.
Qed.

(** What is kept for a path that is handled does not change any more. *)
Lemma refresh_handled t pairs paths st k :
  left_path k ∈ handled st → new_diffs (foldl (step_path t pairs) st paths) !! k = new_diffs st !! k.
Proof.
  revert st. induction paths as [|path paths IH]; intros st Hk; [done|]. cbn [foldl].
  destruct (step_path_cases t pairs st path) as [(_ & -> & _)|(h & Hn & Hp & Hsub & Hc)]; [by apply IH|].
  destruct Hc as [(-> & _)|(rpath & -> & _)]; [by rewrite IH by (simpl; set_solver)|].
  unfold render_step. destruct (match previous_diffs st !! _ with Some _ => _ | None => _ end) as [r count].
  rewrite IH by (simpl; set_solver). simpl. rewrite lookup_insert_ne; [done|]. intros <-. done.
Qed.

(** The loop, from the sections [old] kept before: every pair gets its section. *)
Record loop_ok content_of t (old : gmap DiffCacheKey (option rstring)) (st : refresh_state) : Prop := {
  lo_previous k : left_path k ∉ handled st → previous_diffs st !! k = old !! k;
  lo_old k r : previous_diffs st !! k = Some r → cached content_of t (render_count st) k r;
  lo_new k r : new_diffs st !! k = Some r → left_path k ∈ handled st ∧ cached content_of t (render_count st) k r;
  lo_stable k r r' : new_diffs st !! k = Some r → old !! k = Some r' → r = r';
}.

Lemma section_cached content_of t bound lr r :
  cache_by content_of t → cached content_of t bound (section_key t lr) r ↔ rendering_of t bound lr r.
Proof.
  intros Hc. unfold cached, rendering_of, render_pair, base, curr. cbn [section_key left_path right_path left_revision right_revision].
  assert (content_of <$> (revision <$> baseline_by_path t !! fst lr) = content <$> baseline_by_path t !! fst lr) as ->.
  { destruct (baseline_by_path t !! fst lr) as [tc|] eqn:E; [|done]. simpl. by destruct (cb_base _ _ Hc _ _ E) as [_ ->]. }
  assert (content_of <$> (revision <$> current_by_path t !! snd lr) = content <$> current_by_path t !! snd lr) as ->.
  { destruct (current_by_path t !! snd lr) as [tc|] eqn:E; [|done]. simpl. by destruct (cb_curr _ _ Hc _ _ E) as [_ ->]. }
  split; [by intros [_ ?]|]. intros Hr. split; [|done].
  intros m [Hm|Hm]; apply fmap_Some in Hm as (tc & E & ->);
    [by destruct (cb_base _ _ Hc _ _ E)|by destruct (cb_curr _ _ Hc _ _ E)].
Qed.

Lemma render_step_ok content_of t old st h path rpath :
  cache_by content_of t → loop_ok content_of t old st → path ∉ handled st → path ∈ h → handled st ⊆ h →
  let st' := render_step t st h (path, rpath) in
  loop_ok content_of t old st' ∧
  ∃ r, new_diffs st' !! section_key t (path, rpath) = Some r ∧ aggregated st' = push_diff (aggregated st) r.
Proof.
  intros Hc [Hp Ho Hn Hs] Hpath Hh Hsub. unfold render_step. set (key := section_key t (path, rpath)).
  destruct (match previous_diffs st !! key with Some _ => _ | None => _ end) as [r count] eqn:E.
  assert (Hcount : render_count st ≤ count ∧ cached content_of t count key r ∧ ∀ r', old !! key = Some r' → r = r').
  { destruct (previous_diffs st !! key) as [r0|] eqn:E0; simplify_eq.
    - split_and!; [done|by apply Ho|]. intros r'. rewrite <- Hp by done. rewrite E0. by intros [= <-].
    - destruct (render_count_mono _ _ _ _ _ _ _ _ E) as [Hle Hlt]. split_and!; [done| |].
      + apply section_cached; [done|]. exists (render_count st). split; [|done]. unfold render_pair, render. by rewrite E.
      + intros r'. rewrite <- Hp by done. by rewrite E0. }
  destruct Hcount as (Hle & Hk & Hstable). cbv zeta. cbn [handled previous_diffs new_diffs aggregated render_count]. split.
  - split; cbn [handled previous_diffs new_diffs aggregated render_count].
    + intros k Hk'. rewrite lookup_delete_ne; [apply Hp; set_solver|]. intros <-. by apply Hk'.
    + intros k r0 [_ Hr]%lookup_delete_Some. eapply cached_mono; [exact Hle|]. by apply Ho.
    + intros k r0 [[<- <-]|[_ Hr]]%lookup_insert_Some; [done|]. destruct (Hn _ _ Hr). split; [set_solver|by eapply cached_mono].
    + intros k r0 r' [[<- <-]|[_ Hr]]%lookup_insert_Some; [by apply Hstable|by eapply Hs].
  - exists r. by rewrite lookup_insert_eq.
Qed.

Lemma refresh_loop content_of t old pairs paths st :
  cache_by content_of t → loop_ok content_of t old st →
  let st' := foldl (step_path t pairs) st paths in
  let kept lr := default None (new_diffs st' !! section_key t lr) in
  loop_ok content_of t old st' ∧
  aggregated st' = foldl push_diff (aggregated st) (kept <$> diff_pairs pairs (handled st) paths) ∧
  ∀ lr, lr ∈ diff_pairs pairs (handled st) paths → is_Some (new_diffs st' !! section_key t lr).
Proof.
  intros Hc. revert st. induction paths as [|path paths IH]; intros st Hok.
  { split_and!; [done|done|]. by intros lr ?%elem_of_nil. }
  cbn [foldl]. destruct (step_path_cases t pairs st path) as [(_ & -> & ->)|(h & Hn & Hp & Hsub & Hcase)]; [by apply IH|].
  destruct Hcase as [(-> & ->)|(rpath & -> & ->)].
  { apply (IH (mkRefresh _ _ _ _ _)). destruct Hok as [H1 H2 H3 H4].
    split; cbn [handled previous_diffs new_diffs aggregated render_count]; [|done| |done].
    - intros k Hk. apply H1. set_solver.
    - intros k r Hr. destruct (H3 _ _ Hr). split; [set_solver|done]. }
  destruct (render_step_ok content_of t old st h path rpath Hc Hok Hn Hp Hsub) as (Hok' & r & Hr & Hagg).
  assert (handled (render_step t st h (path, rpath)) = h) as Hh.
  { unfold render_step. by destruct (match previous_diffs st !! _ with Some _ => _ | None => _ end). }
  destruct (IH _ Hok') as (Hl & Ha & Hin). rewrite Hh in Ha, Hin.
  assert (Hkept : new_diffs (foldl (step_path t pairs) (render_step t st h (path, rpath)) paths) !!
    section_key t (path, rpath) = Some r) by (rewrite refresh_handled; [done|by rewrite Hh]).
  split_and!; [done| |].
  - rewrite Ha, Hagg. cbn [fmap list_fmap foldl]. by rewrite Hkept.
  - intros lr [->|Hlr]%elem_of_cons; [by rewrite Hkept|by apply Hin].
Qed.

Lemma refresh_cache n t :
  cache_inv n t → diff_current (refresh t) ∧ cache_inv n (refresh t) ∧
  ∀ k r r', rendered_diffs t !! k = Some r → rendered_diffs (refresh t) !! k = Some r' → r' = r.
Proof.
  intros [[co Hc] Hlt].
  destruct (refresh_loop co t (rendered_diffs t) (rename_pairs hash_order t)
    (refresh_paths relative_path_from hash_order t) (mkRefresh ∅ (rendered_diffs t) ∅ [] (rendered_diff_count t)) Hc)
    as ([_ _ Hnew Hst] & Ha & Hin).
  { split; cbn [handled previous_diffs new_diffs aggregated render_count]; [done|apply (cb_diffs _ _ Hc)|..]; done. }
  cbn [handled aggregated] in Ha, Hin.
  assert (Hcr : cache_by co (refresh t)) by (split; [apply Hc..|]; intros k r Hr; by apply (Hnew k r)).
  split_and!.
  - split.
    + unfold join_sections, refresh_unified_diff. cbn [unified_diff set_diffs]. by rewrite Ha.
    + intros lr Hlr. destruct (Hin lr Hlr) as [r Hr]. exists r. split; [exact Hr|].
      apply (section_cached co _ _ _ _ Hcr). by apply (Hnew _ _ Hr).
  - split; [|done]. by exists co.
  - intros k r r' Hk Hk'. by apply (Hst k r' r).
Qed.

(** ** Runs of the tracker *)
Definition track_deltas (log : list (rstring * AppliedPatchDelta PathUri)) t : tracker :=
  foldl (λ t ed, track (fst ed) (snd ed) t) t log.

Definition lift_delta (ed : rstring * AppliedPatchDelta PathUri)
    : list (AppliedPatchChange tpath) := lift_change (fst ed) <$> changes (snd ed).
Definition lift_log (log : list (rstring * AppliedPatchDelta PathUri))
    : list (AppliedPatchChange tpath) := log ≫= lift_delta.

Definition trackable (ed : rstring * AppliedPatchDelta PathUri) : Prop :=
  exact (snd ed) = true ∧ Forall not_self_move (changes (snd ed)).

Lemma apply_change_valid env ch t : valid (apply_change env ch t) = valid t.
Proof.
  unfold apply_change, apply_add, apply_delete, apply_update.
  destruct (change_change ch) as [x [o|]|x|[dest|] old [o|] x]; simpl;
    repeat (case_bool_decide || destruct (_ && _)); done.
Qed.

Lemma apply_changes_valid env chs t :
  valid (foldl (λ t ch, apply_change env ch t) t chs) = valid t.
Proof.
  revert t. induction chs as [|ch chs IH]; intros t; [done|]. simpl.
  by rewrite IH, apply_change_valid.
Qed.

Lemma track_net env d i c t :
  trackable (env, d) → valid t = true → net_inv i c t → log_recorded c (lift_delta (env, d)) →
  valid (track env d t) = true ∧ net_inv i (replay c (lift_delta (env, d))) (track env d t).
Proof.
  intros [Hx Hs] Hv Hn Hl. simpl in *. unfold track_delta. rewrite Hv, Hx. simpl.
  rewrite apply_changes_valid. split; [done|]. by apply (apply_changes_net env (changes d)).
Qed.

Lemma track_deltas_net log i c t :
  Forall trackable log → valid t = true → net_inv i c t → log_recorded c (lift_log log) →
  valid (track_deltas log t) = true ∧ net_inv i (replay c (lift_log log)) (track_deltas log t).
Proof.
  revert c t. induction log as [|[env d] log IH]; intros c t Hf Hv Hn Hl; [done|].
  apply Forall_cons in Hf as [Hd Hf]. simpl in Hl. apply log_recorded_app in Hl as [Hl1 Hl2].
  destruct (track_net env d i c t) as [Hv' Hn']; [done..|].
  simpl. unfold lift_log. simpl. rewrite replay_app. by apply IH.
Qed.

Definition log_size (log : list (rstring * AppliedPatchDelta PathUri)) : N :=
  N.of_nat (sum_list_with (λ ed, length (changes (snd ed))) log).

Lemma apply_changes_diffs env chs t :
  rendered_diffs (foldl (λ t ch, apply_change env ch t) t chs) = rendered_diffs t.
Proof.
  revert t. induction chs as [|ch chs IH]; intros t; [done|]. simpl. rewrite IH.
  unfold apply_change, apply_add, apply_delete, apply_update.
  destruct (change_change ch) as [x [o|]|x|[dest|] old [o|] x]; simpl;
    repeat (case_bool_decide || destruct (_ && _)); done.
Qed.

Lemma track_cache n env d t :
  valid t = true → exact d = true →
  cache_inv (n + 3 * N.of_nat (length (changes d))) t →
  let t' := track env d t in
  diff_current t' ∧ cache_inv n t' ∧
  ∀ k r r', rendered_diffs t !! k = Some r → rendered_diffs t' !! k = Some r' → r' = r.
Proof.
  intros Hv Hx H. unfold track_delta. rewrite Hv, Hx. simpl.
  apply apply_changes_cache with (env := env) in H. apply refresh_cache in H.
  by rewrite apply_changes_diffs in H.
Qed.

Lemma track_deltas_cache n log t :
  Forall (λ ed, exact (snd ed) = true) log → valid t = true →
  cache_inv (n + 3 * log_size log) t → diff_current t →
  let t' := track_deltas log t in valid t' = true ∧ diff_current t' ∧ cache_inv n t'.
Proof.
  revert t. induction log as [|[env d] log IH]; intros t Hf Hv H Hd.
  { split_and!; [done..|]. eapply cache_inv_weaken; [|done]. lia. }
  apply Forall_cons in Hf as [Hx Hf]. simpl.
  destruct (track_cache (n + 3 * log_size log) env d t) as (Hd' & H' & _); [done..| |].
  { eapply cache_inv_weaken; [|done]. unfold log_size. simpl. lia. }
  apply IH; [done| |done|done]. unfold track_delta. simpl in Hx. rewrite Hv, Hx. simpl.
  by rewrite apply_changes_valid.
Qed.

Lemma cache_inv_start roots n : (n < U64_MODULUS)%N →
  cache_inv n (with_environment_display_roots roots).
Proof. intros H. split; [|done]. by exists (λ _, []). Qed.

Lemma net_inv_start roots i : net_inv i i (with_environment_display_roots roots).
Proof. done. Qed.

(** ** When there is no diff *)
Context (hash_order_perm : ∀ V (m : gmap tpath V), hash_order V m ≡ₚ map_to_list m).

Lemma no_pairs_start roots : diffed_pairs (with_environment_display_roots roots) = [].
Proof.
  unfold diffed_pairs, refresh_paths. simpl.
  pose proof (hash_order_perm TrackedContent ∅) as H. rewrite map_to_list_empty in H.
  apply Permutation_nil_r in H. by rewrite H.
Qed.

Lemma diff_current_start roots : diff_current (with_environment_display_roots roots).
Proof. unfold diff_current. rewrite no_pairs_start. split; [done|]. by intros lr ?%elem_of_nil. Qed.

Lemma render_none t n p x q y : None = render t n p x q y ↔ x = y.
Proof.
  unfold render, render_diff. case_bool_decide; [naive_solver|].
  destruct x, y; simpl; naive_solver.
Qed.

Lemma join_sections_none rs : join_sections rs = None ↔ Forall (eq None) rs.
Proof.
  unfold join_sections. split.
  - destruct (foldl push_diff [] rs) eqn:E; [|done]. intros _. by apply push_diffs_nil in E as [_ ?].
  - intros H. by rewrite push_diffs_none.
Qed.

(** Nothing is shown when the contents of all pairs agree. *)
Lemma diff_none_iff t :
  diff_current t → unified_diff t = None ↔ ∀ lr, lr ∈ diffed_pairs t → base t (fst lr) = curr t (snd lr).
Proof.
  intros [-> Hs]. rewrite join_sections_none, Forall_fmap, Forall_forall.
  apply forall_proper. intros lr. split; intros H Hin; specialize (H Hin);
    destruct (Hs lr Hin) as (r & Hr & n & E & _).
  - change (None = section t lr) in H. unfold section in H. rewrite Hr in H. simpl in H. rewrite <- H in E. by apply render_none in E.
  - change (None = section t lr). unfold section. rewrite Hr. simpl. rewrite E. by apply render_none.
Qed.

Lemma diff_pairs_no_rename h paths lr :
  lr ∈ diff_pairs ∅ h paths ↔ ∃ p, lr = (p, p) ∧ p ∈ paths ∧ p ∉ h.
Proof.
  revert h. induction paths as [|path paths IH]; intros h; cbn [diff_pairs].
  { split; [by intros ?%elem_of_nil|]. by intros (p & _ & ?%elem_of_nil & _). }
  rewrite map_to_list_empty, lookup_empty. case_bool_decide as Hh.
  - rewrite IH. setoid_rewrite elem_of_cons. split; [naive_solver|].
    intros (p & -> & [->|?] & ?); [done|eauto].
  - rewrite bool_decide_false by apply not_elem_of_nil.
    rewrite elem_of_cons, IH. setoid_rewrite elem_of_cons. split.
    + intros [->|(p & -> & ? & ?)]; [eauto|]. exists p. set_solver.
    + intros (p & -> & [->|?] & ?); [by left|].
      destruct (decide (p = path)) as [->|]; [by left|]. right. exists p. set_solver.
Qed.

Lemma elem_of_refresh_paths t p :
  p ∈ refresh_paths relative_path_from hash_order t ↔
  is_Some (baseline_by_path t !! p) ∨ is_Some (current_by_path t !! p).
Proof.
  unfold refresh_paths. rewrite elem_of_dedup, sort_by_perm, elem_of_app.
  assert (∀ (m : gmap tpath TrackedContent), p ∈ (hash_order _ m).*1 ↔ is_Some (m !! p)) as H.
  { intros m. rewrite (hash_order_perm _ m), list_elem_of_fmap. split.
    - intros ([q x] & -> & Hin). apply elem_of_map_to_list in Hin. simpl. eauto.
    - intros [x Hx]. exists (p, x). by rewrite elem_of_map_to_list. }
  by rewrite !H.
Qed.

Lemma no_rename_pairs i c t : net_inv i c t → c ≡ i → rename_pairs hash_order t = ∅.
Proof.
  intros Hn [Hc]. unfold rename_pairs.
  induction (hash_order _ (origin_by_current_path t)) as [|[dest origin] l IH]; [done|].
  cbn [foldl]. enough (is_rename_pair t dest origin = false) as -> by done.
  unfold is_rename_pair. specialize (Hn origin). unfold net_at, base, curr in Hn.
  unfold contains_key.
  destruct (baseline_by_path t !! origin) eqn:Eb, (current_by_path t !! origin) eqn:Ek;
    rewrite ?orb_true_r, ?orb_true_l; try done.
  - simpl in Hn. destruct Hn as [Hi Hk]. rewrite Hc, Hi in Hk. done.
Qed.

Lemma diff_none_net i c t :
  diff_current t → net_inv i c t → rename_pairs hash_order t = ∅ → unified_diff t = None ↔ c ≡ i.
Proof.
  intros Hd Hn Hr. rewrite diff_none_iff by done. unfold diffed_pairs. rewrite Hr.
  setoid_rewrite diff_pairs_no_rename. setoid_rewrite elem_of_refresh_paths. split.
  - intros H. split. intros p. specialize (H (p, p)). specialize (Hn p). simpl in H.
    unfold net_at, base, curr in *.
    destruct (baseline_by_path t !! p) eqn:Eb, (current_by_path t !! p) eqn:Ek; simpl in *;
      [..|done]; destruct Hn as [-> ->]; symmetry; apply H; exists p;
      (split_and!; [done|rewrite Eb, Ek; eauto|set_solver]).
  - intros [Hc] lr (p & -> & Hp & _). simpl. specialize (Hn p). specialize (Hc p). unfold net_at in Hn.
    destruct (base t p), (curr t p); naive_solver congruence.
Qed.

Lemma start_cache m log roots :
  Forall (λ ed, exact (snd ed) = true) log → (m + 3 * log_size log < U64_MODULUS)%N →
  let t := track_deltas log (with_environment_display_roots roots) in
  valid t = true ∧ diff_current t ∧ cache_inv m t.
Proof.
  intros Hx Hs. apply track_deltas_cache; [done..| |apply diff_current_start].
  by apply cache_inv_start.
Qed.

Lemma track_invalid log t :
  valid t = false → unified_diff t = None → track_deltas log t = t.
Proof using Type.
  intros Hv Hu. induction log as [|[env d] log IH]; [done|]. simpl.
  unfold track_delta. by rewrite Hv.
Qed.

(** ** Properties *)

(** after any sequence of exact deltas without self-moves, whose changes
    record what they overwrote, the tracker holds the net change of the turn: for
    every path of every environment, the baseline is the text before the turn and
    the current map the text now, and the paths it does not track did not change. *)
Theorem tracker_is_net_change log roots i :
  Forall trackable log → log_recorded i (lift_log log) →
  let t := track_deltas log (with_environment_display_roots roots) in
  valid t = true ∧ net_inv i (replay i (lift_log log)) t.
Proof using Type. intros Hf Hl. by apply track_deltas_net. Qed.

(** C20: After any sequence of exact deltas (fewer than [2^64 / 3] changes, so that no
    revision is reused) the unified diff is made of the sections kept for the pairs of
    paths compared, each a rendering of the texts before the turn and now: one of the
    renderings made in the turn, whose form may depend on how far the diff got before its
    deadline.  A section is not rendered again while its contents stay: when the next delta
    leaves the revisions of a pair as they are, its section stays the same text. *)
Theorem tracker_sections_current log roots env d :
  Forall (λ ed, exact (snd ed) = true) log → exact d = true →
  (3 * (log_size log + N.of_nat (length (changes d))) < U64_MODULUS)%N →
  let t := track_deltas log (with_environment_display_roots roots) in
  let t' := track env d t in
  (unified_diff t = join_sections (section t <$> diffed_pairs t) ∧
   ∀ lr, lr ∈ diffed_pairs t →
     ∃ n, section t lr = render_pair t n lr ∧ (is_Some (section t lr) → n < rendered_diff_count t)) ∧
  ∀ lr, lr ∈ diffed_pairs t → lr ∈ diffed_pairs t' → section_key t' lr = section_key t lr →
    section t' lr = section t lr.
Proof.
  intros Hx Hd Hs t t'. destruct (start_cache (3 * N.of_nat (length (changes d))) log roots Hx) as (Hv & Hdc & Hc); [lia|].
  fold t in Hv, Hdc, Hc. destruct (track_cache 0 env d t Hv Hd) as ((_ & Hs') & _ & Hst); [done|].
  destruct Hdc as [Hu Hsec]. split; [split; [done|]|].
  - intros lr Hin. destruct (Hsec lr Hin) as (r & Hr & n & E & Hn). exists n. unfold section. by rewrite Hr.
  - intros lr Hin Hin' Hk. destruct (Hsec lr Hin) as (r & Hr & _). destruct (Hs' lr Hin') as (r' & Hr' & _).
    unfold section. rewrite Hr. fold t' in Hr'. rewrite Hr'. simpl. eapply Hst; [exact Hr|]. by rewrite <- Hk.
Qed.

(** a turn whose changes cancel out shows no diff, and when no rename is
    pending, showing no diff means that every file is as it was before the turn. *)
Theorem tracker_no_diff_iff log roots i :
  Forall trackable log → log_recorded i (lift_log log) → (3 * log_size log < U64_MODULUS)%N →
  let t := track_deltas log (with_environment_display_roots roots) in
  let c := replay i (lift_log log) in
  (c ≡ i → get_unified_diff t = None) ∧
  (rename_pairs hash_order t = ∅ → get_unified_diff t = None → c ≡ i).
Proof.
  intros Hf Hl Hs t c.
  destruct (track_deltas_net log i i (with_environment_display_roots roots)) as [_ Hn]; [done..|].
  destruct (start_cache 0 log roots) as (_ & Hd & _); [|lia|].
  { eapply Forall_impl; [done|]. by intros ? [? _]. }
  unfold get_unified_diff, t. split.
  - intros Hc. apply (diff_none_net i c); [done..| |done]. by eapply no_rename_pairs.
  - intros Hr. by apply diff_none_net.
Qed.

(** one inexact delta suppresses the diff for the rest of the turn. *)
Theorem inexact_delta_suppresses log1 log2 env d t :
  exact d = false → valid (track_deltas log1 t) = true →
  let t' := track_deltas (log1 ++ (env, d) :: log2) t in
  valid t' = false ∧ get_unified_diff t' = None.
Proof using Type.
  intros Hx Hv. unfold track_deltas. rewrite foldl_app. cbn [foldl fst snd].
  fold (track_deltas log1 t). unfold track_delta at 2 4. rewrite Hv, Hx. simpl.
  fold (track_deltas log2 (invalidate (track_deltas log1 t))).
  by rewrite track_invalid.
Qed.

(** The text a client shows: the last [TurnDiff] event it received. *)
Fixpoint shown_diff (us : list (TurnDiffTrackerUpdate PathUri)) (shown : rstring) t
    : rstring * tracker :=
  match us with
  | [] => (shown, t)
  | u :: us' =>
      let '(t', event) := emit_patch_end relative_path_from git_blob_oid similar_unified_diff
                            hash_order u t in
      shown_diff us' (default shown event) t'
  end.

(** a client that keeps the text of the last [TurnDiff] event always shows
    the tracker's diff, although events are sent only when one may have changed. *)
Theorem turn_diff_events_faithful us roots :
  let '(shown, t) := shown_diff us [] (with_environment_display_roots roots) in
  shown = default [] (get_unified_diff t).
Proof using Type.
  assert (∀ shown t, shown = default [] (unified_diff t) →
    let '(shown, t) := shown_diff us shown t in shown = default [] (unified_diff t)) as H;
    [|by apply H].
  induction us as [|u us IH]; intros shown t H; [done|]. simpl.
  unfold emit_patch_end, has_unified_diff. destruct u as [env d| |]; simpl.
  - apply IH. destruct (unified_diff t), (unified_diff (track (default [] env) d t)) eqn:E;
      unfold get_unified_diff; simpl; rewrite ?E; done.
  - apply IH. destruct (unified_diff t); simpl; done.
  - by apply IH.
Qed.
End Render.
