(* ===== verification/TurnSpec.v ===== *)
(** * A turn: applying patches and tracking their diff

    Composes the patch application with the turn diff tracker the way
    [sofia-rs/core/src/tools/runtimes/apply_patch.rs] and
    [sofia-rs/core/src/tools/events.rs] do: the delta of every patch, also of one
    that failed half-way, is handed to the tracker. *)

From stdpp Require Import base list numbers strings gmap.
From S2P Require Import Prelude PatchParser FileUpdate SeekSequence ApplyPatch Delta ApplySpec ApplyMemory TurnDiffTracker TrackerSpec.

#[local] Set Default Proof Using "Type*".
#[local] Arguments str : simpl never.

Section Lift.
Context {PathUri : Type} `{!PathUriOps PathUri}.
Implicit Types (v : fview PathUri) (ch : AppliedPatchChange PathUri).

(** The view of one environment as a view of tracked paths. *)
Definition env_view (env : rstring) v : fview (TrackedPath PathUri) := λ p,
  if decide (environment_id p = env) then v (tracked_path p) else None.

#[global] Instance env_view_proper : Proper (eq ==> (≡) ==> (≡)) env_view.
Proof. intros env ? <- v w [H]. split. intros p. unfold env_view. by rewrite H. Qed.

Lemma env_view_at env v p : env_view env v (mkTracked env p) = v p.
Proof. unfold env_view. simpl. by rewrite decide_True. Qed.

Lemma env_view_upd env v p o : env_view env (upd v p o) ≡ upd (env_view env v) (mkTracked env p) o.
Proof.
  split. intros [e q]. unfold env_view, upd. simpl.
  destruct (decide (e = env)) as [->|], (decide (q = p)) as [->|];
    repeat case_decide; congruence.
Qed.

Lemma env_view_replay_change env v ch :
  env_view env (replay_change v ch) ≡ replay_change (env_view env v) (lift_change env ch).
Proof.
  destruct ch as [p [x o|x|[dest|] old o x]]; unfold replay_change; simpl;
    by rewrite !env_view_upd.
Qed.

Lemma env_view_replay env v chs :
  env_view env (replay v chs) ≡ replay (env_view env v) (lift_change env <$> chs).
Proof.
  revert v. induction chs as [|ch chs IH]; intros v; [done|]. simpl.
  by rewrite IH, env_view_replay_change.
Qed.

Lemma env_view_recorded env v ch :
  recorded v ch → recorded (env_view env v) (lift_change env ch).
Proof.
  destruct ch as [p [x o|x|[dest|] old o x]]; unfold recorded; simpl; by rewrite !env_view_at.
Qed.

Lemma env_view_log_recorded env v chs :
  log_recorded v chs → log_recorded (env_view env v) (lift_change env <$> chs).
Proof.
  revert v. induction chs as [|ch chs IH]; intros v; [done|]. simpl. intros [Hr Hl].
  split; [by apply env_view_recorded|]. rewrite <- env_view_replay_change. by apply IH.
Qed.
End Lift.

Section Turn.
Context {PathUri Sandbox F W : Type} `{!PathUriOps PathUri}
  `{!ExecutorFileSystem PathUri Sandbox F} `{!IoWrite W}.
Context (relative_path_from : PathUri → PathUri → option rstring).
Context (git_blob_oid : rstring → rstring).
Context (similar_unified_diff : nat → rstring → rstring → rstring → rstring → rstring).
Context (hash_order : ∀ V, gmap (TrackedPath PathUri) V → list (TrackedPath PathUri * V)).
Context (sandbox : option Sandbox) (o : ApplyPatchOptions) (cwd : PathUri) (env : rstring).
Context `{Laws : !FileSystemLaws sandbox (follow_symlinks o)}.
Local Notation tracker := (TurnDiffTracker PathUri).
Local Notation emit := (emit_patch_end relative_path_from git_blob_oid similar_unified_diff
                          hash_order).

(** The patches of a turn in order; the deltas are returned for the statements. *)
Fixpoint run_turn (patches : list rstring) (w : world F W) (t : tracker)
    : world F W * tracker * list (AppliedPatchDelta PathUri) :=
  match patches with
  | [] => (w, t, [])
  | patch :: patches' =>
      let '(r, w') := apply_patch_with_options sandbox patch o cwd w in
      let d := default empty_delta (outcome_delta r) in
      let t' := fst (emit (tracker_update_for_known_delta (Some env) d) t) in
      let '(w'', t'', log) := run_turn patches' w' t' in
      (w'', t'', d :: log)
  end.

Lemma emit_valid d t :
  valid (fst (emit (tracker_update_for_known_delta (Some env) d) t)) = true →
  exact d = true ∧ valid t = true.
Proof.
  unfold tracker_update_for_known_delta. destruct (exact d) eqn:Ex; simpl.
  - destruct (is_empty (changes d)); simpl; [done|]. unfold track_delta. rewrite Ex. simpl.
    destruct (valid t) eqn:Ev; simpl; [done|]. by rewrite Ev.
  - unfold track_delta. rewrite Ex. simpl. destruct (valid t) eqn:Ev; simpl; [done|]. by rewrite Ev.
Qed.

Lemma run_turn_valid patches w t w' t' log :
  run_turn patches w t = (w', t', log) → valid t' = true → valid t = true.
Proof.
  revert w t log. induction patches as [|patch patches IH]; intros w t log; simpl.
  { by intros [= <- <- <-]. }
  destruct (apply_patch_with_options _ _ _ _ _) as [r w1].
  destruct (run_turn patches _ _) as [[w2 t2] log2] eqn:E. intros [= -> -> <-] Hv.
  by eapply emit_valid, IH.
Qed.

Lemma emit_net d i c t :
  valid t = true → exact d = true → Forall not_self_move (changes d) → net_inv i c t →
  log_recorded c (lift_change env <$> changes d) →
  net_inv i (replay c (lift_change env <$> changes d))
    (fst (emit (tracker_update_for_known_delta (Some env) d) t)).
Proof.
  intros Hv Hx Hs Hn Hl. unfold tracker_update_for_known_delta. rewrite Hx. cbn [andb].
  destruct (is_empty (changes d)) eqn:Ee; cbn [emit_patch_end fst default].
  - by destruct (changes d).
  - by eapply (track_net _ _ _ _ env d i c t).
Qed.

Lemma run_turn_net patches w t w' t' log i :
  run_turn patches w t = (w', t', log) → valid t' = true →
  Forall (λ d, Forall not_self_move (changes d)) log →
  net_inv i (env_view env (view sandbox (follow_symlinks o) (w_fs w))) t →
  net_inv i (env_view env (view sandbox (follow_symlinks o) (w_fs w'))) t'.
Proof.
  revert w t log. induction patches as [|patch patches IH]; intros w t log; simpl.
  { by intros [= <- <- <-]. }
  pose proof (apply_patch_with_options_spec sandbox _ o cwd patch w eq_refl) as Ha.
  destruct (apply_patch_with_options _ _ _ _ _) as [r w1]. destruct Ha as (Hp & Ha & _).
  destruct (run_turn patches _ _) as [[w2 t2] log2] eqn:E. intros [= -> -> <-] Hv Hs Hn.
  apply Forall_cons in Hs as [Hs1 Hs2].
  pose proof (run_turn_valid _ _ _ _ _ _ E Hv) as [Hx Hvt]%emit_valid.
  eapply IH; [done..|]. destruct (outcome_delta r) as [d|] eqn:Ed; [|by destruct r as [|[]]].
  simpl in *. destruct (Ha d eq_refl Hx) as (_ & cs & Ecs & Hl & Hv1). simpl in Ecs. subst cs.
  rewrite Hv1, env_view_replay. apply emit_net; [done..|]. by apply env_view_log_recorded.
Qed.

(** C5: end to end, on any alias-free file system: after any sequence of patches,
    successful or not, if the tracker is still valid and no update moved a file
    onto itself, the tracker holds the net change of the file system: the text of
    every path before the turn and after it, without having read the disk. *)
Theorem turn_tracks_file_system patches roots w w' t' log :
  run_turn patches w (with_environment_display_roots roots) = (w', t', log) →
  valid t' = true → Forall (λ d, Forall not_self_move (changes d)) log →
  net_inv (env_view env (view sandbox (follow_symlinks o) (w_fs w)))
          (env_view env (view sandbox (follow_symlinks o) (w_fs w'))) t'.
Proof. intros Hr Hv Hs. by eapply run_turn_net. Qed.
End Turn.

(** ** Witnesses on the in-memory file system *)
Definition memory_relative (p root : rstring) : option rstring := strip_prefix (root ++ [SLASH]) p.
Definition memory_oid (c : rstring) : rstring := dec (str_len c).
(** Every rendering is different. *)
Definition memory_diff (n : nat) (old_header new_header x y : rstring) : rstring :=
  str "--- " ++ old_header ++ [LF] ++ str "+++ " ++ new_header ++ [LF] ++
  str "-" ++ x ++ str "+" ++ y ++ str "@ " ++ dec (N.of_nat n) ++ [LF].
Definition memory_order V (m : gmap (TrackedPath rstring) V) : list (TrackedPath rstring * V) :=
  map_to_list m.

Lemma memory_order_perm V (m : gmap (TrackedPath rstring) V) : memory_order V m ≡ₚ map_to_list m.
Proof. done. Qed.

(** A second patch, whose second hunk fails after the first was applied: the
    line [three] is not in the file. *)
Definition failing_patch : rstring :=
  join [LF] [BEGIN_PATCH_MARKER; DELETE_FILE_MARKER ++ str "d/b";
             UPDATE_FILE_MARKER ++ str "c"; str "@@"; str "-three"; END_PATCH_MARKER].
Definition failing_delta : AppliedPatchDelta rstring :=
  mkDelta [mkChange (str "/d/b") (ChangeDelete (str "new" ++ [LF]))] true.

Definition demo_turn (patches : list rstring) :=
  run_turn (W := list rstring) memory_relative memory_oid memory_diff memory_order
    (None : option unit) default_options ([] : rstring) (str "env") patches demo_world
    (with_environment_display_roots []).

Definition turn_world (patches : list rstring) : world memory (list rstring) :=
  fst (fst (demo_turn patches)).
Definition turn_tracker (patches : list rstring) : TurnDiffTracker rstring :=
  snd (fst (demo_turn patches)).
Definition turn_log (patches : list rstring) := snd (demo_turn patches).

Definition demo_patches : list rstring := [demo_patch; failing_patch].

Lemma turn_log_demo : turn_log demo_patches = [demo_delta; failing_delta].
Proof. vm_compute. reflexivity. Qed.

Lemma turn_tracks_file_system_witness :
  net_inv (env_view (str "env") (view (None : option unit) true demo_files))
    (env_view (str "env") (view (None : option unit) true (w_fs (turn_world demo_patches))))
    (turn_tracker demo_patches).
Proof.
  apply (turn_tracks_file_system (W := list rstring) memory_relative memory_oid memory_diff
    memory_order (None : option unit) default_options ([] : rstring) (str "env") demo_patches []
    demo_world (turn_world demo_patches) (turn_tracker demo_patches) (turn_log demo_patches)).
  - unfold turn_world, turn_tracker, turn_log. fold (demo_turn demo_patches).
    destruct (demo_turn demo_patches) as [[]]. reflexivity.
  - vm_compute. reflexivity.
  - rewrite turn_log_demo. repeat constructor. discriminate.
Defined.

(** a move of a file onto itself makes the tracker and the file system
    disagree: the delta is exact, the tracker stays valid and shows the new
    contents of a file that no longer exists. *)
Theorem self_move_tracker_diverges :
  let '(w, t, log) := demo_turn
    [join [LF] [BEGIN_PATCH_MARKER; UPDATE_FILE_MARKER ++ str "a"; MOVE_TO_MARKER ++ str "a";
                str "@@"; str "-two"; str "+TWO"; END_PATCH_MARKER]] in
  forallb exact log = true ∧ valid t = true ∧
  curr t (mkTracked (str "env") (str "/a")) = Some (str "one" ++ [LF] ++ str "TWO" ++ [LF]) ∧
  view (None : option unit) true (w_fs w) (str "/a") = None.
Proof. vm_compute. auto. Qed.

(** Witnesses of the tracker's own properties. *)
Definition demo_log : list (rstring * AppliedPatchDelta rstring) := [(str "env", demo_delta)].
Definition demo_init : fview (TrackedPath rstring) :=
  env_view (str "env") (view (None : option unit) true demo_files).
Definition demo_tracker : TurnDiffTracker rstring :=
  track_deltas memory_relative memory_oid memory_diff memory_order demo_log
    (with_environment_display_roots []).

Lemma demo_trackable : Forall trackable demo_log.
Proof. constructor; [|constructor]. split; [done|]. repeat constructor. discriminate. Qed.

Lemma demo_recorded : log_recorded demo_init (lift_log demo_log).
Proof. vm_compute. auto. Qed.

Lemma tracker_is_net_change_witness :
  valid demo_tracker = true ∧ net_inv demo_init (replay demo_init (lift_log demo_log)) demo_tracker.
Proof.
  apply (tracker_is_net_change memory_relative memory_oid memory_diff memory_order demo_log []
           demo_init); [apply demo_trackable|apply demo_recorded].
Defined.

(** A second delta changes [d/b]: the section of the file moved from [a] to [c], which
    was the first to be rendered, is kept, and that of [d/b] is the third rendering. *)
Definition edit_delta : AppliedPatchDelta rstring :=
  mkDelta [mkChange (str "/d/b") (ChangeUpdate None (str "new" ++ [LF]) None (str "newer" ++ [LF]))] true.
Definition edited_tracker : TurnDiffTracker rstring :=
  track_delta memory_relative memory_oid memory_diff memory_order (str "env") edit_delta demo_tracker.
Definition moved_pair : TrackedPath rstring * TrackedPath rstring :=
  (mkTracked (str "env") (str "/a"), mkTracked (str "env") (str "/c")).

Lemma tracker_sections_current_witness :
  rendered_diff_count demo_tracker = 2 ∧ rendered_diff_count edited_tracker = 3 ∧
  unified_diff demo_tracker =
    join_sections (section demo_tracker <$> diffed_pairs memory_relative memory_order demo_tracker) ∧
  (∃ n, section demo_tracker moved_pair = render_pair memory_relative memory_oid memory_diff demo_tracker n moved_pair ∧
    (is_Some (section demo_tracker moved_pair) → n < 2)) ∧
  section edited_tracker moved_pair = section demo_tracker moved_pair ∧
  is_Some (section demo_tracker moved_pair).
Proof.
  assert (Hx : Forall (λ ed, exact (snd ed) = true) demo_log) by (constructor; [reflexivity|constructor]).
  assert (Hn : (3 * (log_size demo_log + N.of_nat (length (changes edit_delta))) < U64_MODULUS)%N)
    by (vm_compute; reflexivity).
  destruct (tracker_sections_current memory_relative memory_oid memory_diff memory_order memory_order_perm
    demo_log [] (str "env") edit_delta Hx eq_refl Hn) as [[Hu Hr] Hs].
  assert (Hin : moved_pair ∈ diffed_pairs memory_relative memory_order demo_tracker)
    by (apply (bool_decide_unpack _); vm_compute; exact I).
  split; [vm_compute; reflexivity|]. split; [vm_compute; reflexivity|]. split; [exact Hu|]. split; [exact (Hr _ Hin)|].
  split; [|vm_compute; eauto].
  apply (Hs moved_pair Hin); [|vm_compute; reflexivity].
  apply (bool_decide_unpack _); vm_compute; exact I.
Defined.

Lemma tracker_no_diff_iff_witness :
  (replay demo_init (lift_log demo_log) ≡ demo_init → get_unified_diff demo_tracker = None) ∧
  (rename_pairs memory_order demo_tracker = ∅ → get_unified_diff demo_tracker = None →
   replay demo_init (lift_log demo_log) ≡ demo_init).
Proof.
  apply (tracker_no_diff_iff memory_relative memory_oid memory_diff memory_order
           memory_order_perm demo_log [] demo_init);
    [apply demo_trackable|apply demo_recorded|vm_compute; reflexivity].
Defined.

Lemma inexact_delta_suppresses_witness :
  let t' := track_deltas memory_relative memory_oid memory_diff memory_order
              (demo_log ++ (str "env", mkDelta [] false) :: demo_log)
              (with_environment_display_roots []) in
  valid t' = false ∧ get_unified_diff t' = None.
Proof.
  apply (inexact_delta_suppresses memory_relative memory_oid memory_diff memory_order demo_log
           demo_log (str "env") (mkDelta [] false) (with_environment_display_roots []));
    [reflexivity|vm_compute; reflexivity].
Defined.
