(* ===== verification/ExecRule.v ===== *)
(** * Rules of the execution policy

    Models [sofia-rs/execpolicy/src/decision.rs], [error.rs],
    [executable_name.rs] and the data, matchers and host normalisation of
    [rule.rs]. *)

From stdpp Require Import base list numbers strings.
From S2P Require Import Prelude.

(** ** [decision.rs]: ordered by strictness *)
Inductive Decision := Allow | Prompt | Forbidden.

#[global] Instance Decision_eq_dec : EqDecision Decision.
Proof. solve_decision. Defined.

(** [#[derive(Ord)]]: the order of the declaration. *)
Definition decision_rank (d : Decision) : nat :=
  match d with Allow => 0 | Prompt => 1 | Forbidden => 2 end.
Definition decision_max (d e : Decision) : Decision :=
  if decision_rank d <=? decision_rank e then e else d.

(** ** [error.rs] *)
Record TextPosition := mkPosition { line : N; column : N }.
Record TextRange := mkRange { range_start : TextPosition; range_end : TextPosition }.
Record ErrorLocation := mkLocation { loc_path : rstring; loc_range : TextRange }.

Inductive Error :=
| InvalidDecision (m : rstring)
| InvalidPattern (m : rstring)
| InvalidExample (m : rstring)
| InvalidRule (m : rstring)
| ExampleDidNotMatch (rules examples : list rstring) (location : option ErrorLocation)
| ExampleDidMatch (rule example : rstring) (location : option ErrorLocation)
| Starlark (m : rstring).

Definition with_location (e : Error) (l : ErrorLocation) : Error :=
  match e with
  | ExampleDidNotMatch rules examples None => ExampleDidNotMatch rules examples (Some l)
  | ExampleDidMatch rule example None => ExampleDidMatch rule example (Some l)
  | other => other
  end.

Definition decision_parse (raw : rstring) : result Error Decision :=
  if str_eqb raw (str "allow") then Ok Allow
  else if str_eqb raw (str "prompt") then Ok Prompt
  else if str_eqb raw (str "forbidden") then Ok Forbidden
  else Err (InvalidDecision raw).

(** ** [executable_name.rs], with [cfg(windows)] as a parameter *)
Definition WINDOWS_EXECUTABLE_SUFFIXES : list rstring :=
  [str ".exe"; str ".cmd"; str ".bat"; str ".com"].

Fixpoint strip_first_suffix (suffixes : list rstring) (raw : rstring) : rstring :=
  match suffixes with
  | [] => raw
  | suffix :: suffixes' => default (strip_first_suffix suffixes' raw) (strip_suffix suffix raw)
  end.

Definition executable_lookup_key (windows : bool) (raw : rstring) : rstring :=
  if windows then strip_first_suffix WINDOWS_EXECUTABLE_SUFFIXES (to_ascii_lowercase raw) else raw.

(** What the code uses of [Path] and [AbsolutePathBuf]. *)
Class AbsPathOps (AbsPath : Type) := {
  abs_eq_dec :: EqDecision AbsPath;
  abs_try_from : rstring → result rstring AbsPath;
  abs_file_name : AbsPath → option rstring;
  path_is_absolute : rstring → bool;
  path_component_count : rstring → nat;
  path_file_name : rstring → option rstring;
}.

Definition executable_path_lookup_key `{AbsPathOps AbsPath} (windows : bool) (p : AbsPath)
    : option rstring := executable_lookup_key windows <$> abs_file_name p.

(** ** [rule.rs] *)
Inductive PatternToken :=
| Single (expected : rstring)
| Alts (alternatives : list rstring).

Definition token_matches (t : PatternToken) (token : rstring) : bool :=
  match t with
  | Single expected => str_eqb expected token
  | Alts alternatives => existsb (λ alt, str_eqb alt token) alternatives
  end.

Definition token_alternatives (t : PatternToken) : list rstring :=
  match t with Single expected => [expected] | Alts alternatives => alternatives end.

Record PrefixPattern := mkPattern { first : rstring; rest : list PatternToken }.

(** The loop over [self.rest.iter().zip(&cmd[1..pattern_length])]. *)
Fixpoint tokens_match (pattern : list PatternToken) (cmd : list rstring) : bool :=
  match pattern, cmd with
  | t :: pattern', c :: cmd' => token_matches t c && tokens_match pattern' cmd'
  | _, _ => true
  end.

Definition matches_prefix (p : PrefixPattern) (cmd : list rstring) : option (list rstring) :=
  let pattern_length := length (rest p) + 1 in
  if length cmd <? pattern_length then None else
  match cmd with
  | [] => None
  | c :: args =>
      if negb (str_eqb c (first p)) then None
      else if tokens_match (rest p) (take (pattern_length - 1) args)
      then Some (take pattern_length cmd) else None
  end.

Section RuleMatch.
Context {AbsPath : Type}.

Inductive RuleMatch :=
| PrefixRuleMatch (matched_prefix : list rstring) (decision : Decision)
    (resolved_program : option AbsPath) (justification : option rstring)
| HeuristicsRuleMatch (command : list rstring) (decision : Decision).

Definition match_decision (m : RuleMatch) : Decision :=
  match m with
  | PrefixRuleMatch _ d _ _ => d
  | HeuristicsRuleMatch _ d => d
  end.

Definition with_resolved_program (p : AbsPath) (m : RuleMatch) : RuleMatch :=
  match m with
  | PrefixRuleMatch prefix d _ j => PrefixRuleMatch prefix d (Some p) j
  | other => other
  end.
End RuleMatch.
Arguments RuleMatch : clear implicits.

Record PrefixRule := mkRule {
  pattern : PrefixPattern;
  rule_decision : Decision;
  justification : option rstring;
}.

(** [impl Rule for PrefixRule], the only implementation of the trait. *)
Definition program (r : PrefixRule) : rstring := first (pattern r).
Definition rule_matches {AbsPath} (r : PrefixRule) (cmd : list rstring)
    : option (RuleMatch AbsPath) :=
  prefix ← matches_prefix (pattern r) cmd;
  Some (PrefixRuleMatch prefix (rule_decision r) None (justification r)).

Inductive NetworkRuleProtocol := Http | Https | Socks5Tcp | Socks5Udp.

#[global] Instance NetworkRuleProtocol_eq_dec : EqDecision NetworkRuleProtocol.
Proof. solve_decision. Defined.

Definition protocol_parse (raw : rstring) : result Error NetworkRuleProtocol :=
  if str_eqb raw (str "http") then Ok Http
  else if str_eqb raw (str "https") || str_eqb raw (str "https_connect") ||
          str_eqb raw (str "http-connect") then Ok Https
  else if str_eqb raw (str "socks5_tcp") then Ok Socks5Tcp
  else if str_eqb raw (str "socks5_udp") then Ok Socks5Udp
  else Err (InvalidRule (str "network_rule protocol must be one of http, https, socks5_tcp, socks5_udp (got "
                         ++ raw ++ str ")")).

Definition as_policy_string (p : NetworkRuleProtocol) : rstring :=
  match p with
  | Http => str "http"
  | Https => str "https"
  | Socks5Tcp => str "socks5_tcp"
  | Socks5Udp => str "socks5_udp"
  end.

Record NetworkRule := mkNetworkRule {
  host : rstring;
  protocol : NetworkRuleProtocol;
  network_decision : Decision;
  network_justification : option rstring;
}.

(** *** [normalize_network_rule_host] *)
Definition COLON : N := 58%N.
Definition DOT : N := 46%N.
Definition STAR : N := 42%N.

Definition all_digits (s : rstring) : bool := forallb is_ascii_digit s.
Definition port_ok (s : rstring) : bool := negb (is_empty s) && all_digits s.
Definition has_char (c : N) (s : rstring) : bool := existsb (N.eqb c) s.
Definition count_char (c : N) (s : rstring) : nat := length (filter (λ x, x = c) s).

Definition HOST_EMPTY := InvalidRule (str "network_rule host cannot be empty").
Definition HOST_PATH :=
  InvalidRule (str "network_rule host must be a hostname or IP literal (without scheme or path)").
Definition HOST_BRACKET :=
  InvalidRule (str "network_rule host has an invalid bracketed IPv6 literal").
Definition HOST_SUFFIX (raw : rstring) :=
  InvalidRule (str "network_rule host contains an unsupported suffix: " ++ raw).
Definition HOST_WILDCARD :=
  InvalidRule (str "network_rule host must be a specific host; wildcards are not allowed").
Definition HOST_SPACE := InvalidRule (str "network_rule host cannot contain whitespace").

(** The host without brackets or port. *)
Definition strip_port (raw host : rstring) : result Error rstring :=
  match strip_prefix (str "[") host with
  | Some stripped =>
      match split_once 93 stripped with
      | None => Err HOST_BRACKET
      | Some (inside, suffix) =>
          let ok := is_some_and (strip_prefix [COLON] suffix) port_ok in
          if negb (is_empty suffix) && negb ok then Err (HOST_SUFFIX raw) else Ok inside
      end
  | None =>
      if count_char COLON host =? 1 then
        match rsplit_once COLON host with
        | Some (candidate, port) =>
            if negb (is_empty candidate) && port_ok port then Ok candidate else Ok host
        | None => Ok host
        end
      else Ok host
  end.

Definition normalize_network_rule_host (raw : rstring) : result Error rstring :=
  let host := trim raw in
  if is_empty host then Err HOST_EMPTY else
  if contains (str "://") host || has_char 47 host || has_char 63 host || has_char 35 host
  then Err HOST_PATH else
  host ← strip_port raw host;
  let normalized := to_ascii_lowercase (trim (trim_end_matches DOT host)) in
  if is_empty normalized then Err HOST_EMPTY
  else if has_char STAR normalized then Err HOST_WILDCARD
  else if existsb is_whitespace normalized then Err HOST_SPACE
  else Ok normalized.
