(* ===== verification/ExecPolicy.v ===== *)
(** * The execution policy

    Models [sofia-rs/execpolicy/src/policy.rs]: the rules keyed by program, the
    network rules, the host executables, and the evaluation of commands. *)

From stdpp Require Import base list numbers strings gmap.
From S2P Require Import Prelude ExecRule.

Record MatchOptions := mkMatchOptions { resolve_host_executables : bool }.
Definition default_match_options : MatchOptions := mkMatchOptions false.

(** [MultiMap<String, RuleRef>]: the rules of a program in insertion order. *)
Abbreviation rule_map := (gmap rstring (list PrefixRule)).
Definition multi_insert (program : rstring) (r : PrefixRule) (m : rule_map) : rule_map :=
  <[program := default [] (m !! program) ++ [r]]> m.

Section Policy.
Context {AbsPath : Type} `{!AbsPathOps AbsPath}.

Record Policy := mkPolicy {
  rules_by_program : rule_map;
  network_rules : list NetworkRule;
  host_executables_by_name : gmap rstring (list AbsPath);
}.

Definition empty_policy : Policy := mkPolicy ∅ [] ∅.

(** ** Construction *)
Definition add_prefix_rule (prefix : list rstring) (d : Decision) (p : Policy)
    : result Error Policy :=
  match prefix with
  | [] => Err (InvalidPattern (str "prefix cannot be empty"))
  | first_token :: rest =>
      let rule := mkRule (mkPattern first_token (map Single rest)) d None in
      Ok (mkPolicy (multi_insert first_token rule (rules_by_program p)) (network_rules p)
            (host_executables_by_name p))
  end.

Definition justification_empty (j : option rstring) : bool :=
  is_some_and j (λ raw, is_empty (trim raw)).

Definition add_network_rule (host : rstring) (protocol : NetworkRuleProtocol) (d : Decision)
    (justification : option rstring) (p : Policy) : result Error Policy :=
  host ← normalize_network_rule_host host;
  if justification_empty justification
  then Err (InvalidRule (str "justification cannot be empty"))
  else Ok (mkPolicy (rules_by_program p)
             (network_rules p ++ [mkNetworkRule host protocol d justification])
             (host_executables_by_name p)).

Definition set_host_executable_paths (name : rstring) (paths : list AbsPath) (p : Policy)
    : Policy :=
  mkPolicy (rules_by_program p) (network_rules p)
    (<[name:=paths]> (host_executables_by_name p)).

(** The rules of the overlay are inserted one by one after the rules of the base;
    [HashMap::extend] lets the overlay's host executables win. *)
Definition insert_all (m : rule_map) (program_rules : rstring * list PrefixRule) : rule_map :=
  foldl (λ m r, multi_insert (fst program_rules) r m) m (snd program_rules).

Definition merge_overlay (p overlay : Policy) : Policy :=
  mkPolicy
    (foldl insert_all (rules_by_program p) (map_to_list (rules_by_program overlay)))
    (network_rules p ++ network_rules overlay)
    (host_executables_by_name overlay ∪ host_executables_by_name p).

(** ** Network domains *)
Definition retain_ne (host : rstring) (entries : list rstring) : list rstring :=
  filter (λ entry, entry ≠ host) entries.
Definition upsert_domain (entries : list rstring) (host : rstring) : list rstring :=
  retain_ne host entries ++ [host].

Definition compile_rule (ad : list rstring * list rstring) (rule : NetworkRule)
    : list rstring * list rstring :=
  match network_decision rule with
  | Allow => (upsert_domain (fst ad) (host rule), retain_ne (host rule) (snd ad))
  | Forbidden => (retain_ne (host rule) (fst ad), upsert_domain (snd ad) (host rule))
  | Prompt => ad
  end.

Definition compiled_network_domains (p : Policy) : list rstring * list rstring :=
  foldl compile_rule ([], []) (network_rules p).

(** ** Allowed prefixes *)
Definition render_pattern_token (t : PatternToken) : rstring :=
  match t with
  | Single value => value
  | Alts alternatives => str "[" ++ join (str "|") alternatives ++ str "]"
  end.

Definition allowed_prefix (r : PrefixRule) : option (list rstring) :=
  if bool_decide (rule_decision r = Allow)
  then Some (first (pattern r) :: map render_pattern_token (rest (pattern r))) else None.

(** [Ord for Vec<String>]. *)
Fixpoint strs_leb (l k : list rstring) : bool :=
  match l, k with
  | [], _ => true
  | _ :: _, [] => false
  | s :: l', t :: k' => if str_eqb s t then strs_leb l' k' else str_leb s t
  end.

Definition get_allowed_prefixes (p : Policy) : list (list rstring) :=
  dedup (sort_by strs_leb
    (map_to_list (rules_by_program p) ≫= λ pr, omap allowed_prefix (snd pr))).

(** ** Matching commands *)
Context (windows : bool).

Definition match_exact_rules (p : Policy) (cmd : list rstring) : option (list (RuleMatch AbsPath)) :=
  first ← head cmd;
  Some (match rules_by_program p !! first with
        | Some rules => omap (λ r, rule_matches r cmd) rules
        | None => []
        end).

Definition match_host_executable_rules (p : Policy) (cmd : list rstring)
    : list (RuleMatch AbsPath) :=
  match cmd with
  | [] => []
  | first :: args =>
      match abs_try_from first with
      | Err _ => []
      | Ok program =>
          match executable_path_lookup_key windows program with
          | None => []
          | Some basename =>
              match rules_by_program p !! basename with
              | None => []
              | Some rules =>
                  if is_some_and (host_executables_by_name p !! basename)
                       (λ paths, negb (existsb (λ path, bool_decide (path = program)) paths))
                  then []
                  else with_resolved_program program <$>
                         omap (λ r, rule_matches r (basename :: args)) rules
              end
          end
      end
  end.

Definition non_empty {A} (l : list A) : option (list A) :=
  if is_empty l then None else Some l.

(** [heuristics_fallback] is a callback, [None] when there is none. *)
Definition matches_for_command_with_options (p : Policy) (cmd : list rstring)
    (heuristics_fallback : option (list rstring → Decision)) (options : MatchOptions)
    : list (RuleMatch AbsPath) :=
  let exact := match_exact_rules p cmd ≫= non_empty in
  let resolved :=
    if resolve_host_executables options
    then non_empty (match_host_executable_rules p cmd) else None in
  let matched_rules := default [] (match exact with Some m => Some m | None => resolved end) in
  match heuristics_fallback with
  | Some fallback =>
      if is_empty matched_rules then [HeuristicsRuleMatch cmd (fallback cmd)] else matched_rules
  | None => matched_rules
  end.

Definition matches_for_command (p : Policy) (cmd : list rstring)
    (heuristics_fallback : option (list rstring → Decision)) : list (RuleMatch AbsPath) :=
  matches_for_command_with_options p cmd heuristics_fallback default_match_options.

(** ** Evaluation *)
Record Evaluation := mkEvaluation {
  eval_decision : Decision;
  matched_rules : list (RuleMatch AbsPath);
}.

Definition is_match (e : Evaluation) : bool :=
  existsb (λ m, match m with HeuristicsRuleMatch _ _ => false | _ => true end) (matched_rules e).

(** [iter().max()]. *)
Fixpoint max_decision (ds : list Decision) : option Decision :=
  match ds with
  | [] => None
  | d :: ds' => Some (match max_decision ds' with Some e => decision_max d e | None => d end)
  end.

(** [None] is the panic of [expect]. *)
Definition from_matches (ms : list (RuleMatch AbsPath)) : option Evaluation :=
  d ← max_decision (map match_decision ms); Some (mkEvaluation d ms).

Definition check_with_options (p : Policy) (cmd : list rstring)
    (fallback : list rstring → Decision) (options : MatchOptions) : option Evaluation :=
  from_matches (matches_for_command_with_options p cmd (Some fallback) options).

Definition check (p : Policy) (cmd : list rstring) (fallback : list rstring → Decision)
    : option Evaluation := check_with_options p cmd fallback default_match_options.

Definition check_multiple_with_options (p : Policy) (commands : list (list rstring))
    (fallback : list rstring → Decision) (options : MatchOptions) : option Evaluation :=
  from_matches
    (commands ≫= λ cmd, matches_for_command_with_options p cmd (Some fallback) options).

Definition check_multiple (p : Policy) (commands : list (list rstring))
    (fallback : list rstring → Decision) : option Evaluation :=
  check_multiple_with_options p commands fallback default_match_options.
End Policy.
Arguments Policy : clear implicits.
Arguments Evaluation : clear implicits.
