(* ===== verification/ExecPolicySpec.v ===== *)
(** * Correctness of the execution policy

    Theorems about [ExecRule.v] and [ExecPolicy.v]: what a rule matches, that an
    evaluation always exists and is the strictest of its matches, how overlays and
    added rules change it, and what the compiled network domains are. *)

From stdpp Require Import base list numbers strings gmap.
From S2P Require Import Prelude ExecRule ExecPolicy.

#[local] Set Default Proof Using "Type*".
#[local] Arguments str : simpl never.

(** ** Decisions *)
Lemma decision_max_l d e : decision_rank d ≤ decision_rank (decision_max d e).
Proof. by destruct d, e; compute; lia. Qed.
Lemma decision_max_r d e : decision_rank e ≤ decision_rank (decision_max d e).
Proof. by destruct d, e; compute; lia. Qed.
Lemma decision_max_cases d e : decision_max d e = d ∨ decision_max d e = e.
Proof. destruct d, e; auto. Qed.
Lemma decision_rank_inj d e : decision_rank d = decision_rank e → d = e.
Proof. by destruct d, e. Qed.

(** [d] is the strictest of [ds]. *)
Definition strictest (d : Decision) (ds : list Decision) : Prop :=
  d ∈ ds ∧ ∀ e, e ∈ ds → decision_rank e ≤ decision_rank d.

Lemma max_decision_strictest ds d : max_decision ds = Some d ↔ strictest d ds.
Proof.
  revert d. induction ds as [|e ds IH]; intros d; simpl.
  { split; [done|]. by intros [?%elem_of_nil _]. }
  unfold strictest. setoid_rewrite elem_of_cons. destruct (max_decision ds) as [m|] eqn:Em.
  - destruct (IH m) as [[Hm Hmax] _]; [done|]. split.
    + intros [= <-]. split.
      * destruct (decision_max_cases e m) as [-> | ->]; auto.
      * intros f [->|Hf]; [apply decision_max_l|].
        etrans; [by apply Hmax|]. apply decision_max_r.
    + intros [Hd Hall]. f_equal. apply decision_rank_inj. apply Nat.le_antisymm.
      * destruct (decision_max_cases e m) as [-> | ->]; auto.
      * destruct Hd as [->|Hd]; [apply decision_max_l|].
        etrans; [by apply Hmax|]. apply decision_max_r.
  - assert (ds = []) as -> by (by destruct ds; [|simpl in Em; destruct (max_decision ds)]).
    split.
    + intros [= <-]. split; [auto|]. intros f [->|?%elem_of_nil]; [done|done].
    + intros [[->|?%elem_of_nil] _]; done.
Qed.

Lemma max_decision_None ds : max_decision ds = None ↔ ds = [].
Proof. destruct ds; simpl; [done|]. by destruct (max_decision ds). Qed.

Lemma strictest_app d e ds es :
  strictest d ds → strictest e es → strictest (decision_max d e) (ds ++ es).
Proof.
  intros [Hd Hds] [He Hes]. split.
  - rewrite elem_of_app. destruct (decision_max_cases d e) as [-> | ->]; auto.
  - intros f [Hf|Hf]%elem_of_app.
    + etrans; [by apply Hds|]. apply decision_max_l.
    + etrans; [by apply Hes|]. apply decision_max_r.
Qed.

Lemma max_decision_app ds es :
  max_decision (ds ++ es) =
  match max_decision ds, max_decision es with
  | Some d, Some e => Some (decision_max d e)
  | Some d, None => Some d
  | None, o => o
  end.
Proof.
  destruct (max_decision ds) as [d|] eqn:Ed.
  - destruct (max_decision es) as [e|] eqn:Ee.
    + apply max_decision_strictest. apply strictest_app; by apply max_decision_strictest.
    + apply max_decision_None in Ee as ->. by rewrite app_nil_r.
  - by apply max_decision_None in Ed as ->.
Qed.

(** ** Patterns *)
Lemma token_matches_alternatives t c : token_matches t c = true ↔ c ∈ token_alternatives t.
Proof.
  destruct t as [s|alts]; simpl.
  - unfold str_eqb. rewrite bool_decide_eq_true, list_elem_of_singleton. naive_solver.
  - rewrite existsb_exists. setoid_rewrite <- list_elem_of_In.
    split; [intros (x & ? & Hx); breflect; by subst|]. intros H. exists c.
    split; [done|]. apply bool_decide_eq_true. done.
Qed.

Lemma tokens_match_Forall2 ts cs :
  length ts = length cs →
  tokens_match ts cs = true ↔ Forall2 (λ t c, c ∈ token_alternatives t) ts cs.
Proof.
  revert cs. induction ts as [|t ts IH]; intros [|c cs]; simpl; try done.
  intros [= Hl]. rewrite andb_true_iff, IH, token_matches_alternatives by done.
  by rewrite Forall2_cons.
Qed.

Definition pattern_of (p : PrefixPattern) : list PatternToken := Single (first p) :: rest p.

Lemma matches_prefix_iff p cmd pre :
  matches_prefix p cmd = Some pre ↔
  pre `prefix_of` cmd ∧ Forall2 (λ t c, c ∈ token_alternatives t) (pattern_of p) pre.
Proof.
  unfold matches_prefix, pattern_of. rewrite Nat.add_1_r. split.
  - destruct (Nat.ltb_spec (length cmd) (S (length (rest p)))) as [|Hlen]; [done|].
    destruct cmd as [|c args]; [done|]. simpl in Hlen.
    destruct (str_eqb c (first p)) eqn:Ec; [|done]. simpl. rewrite Nat.sub_0_r.
    destruct (tokens_match _ _) eqn:Et; [|done]. intros [= <-]. breflect. subst c. split.
    + exists (drop (length (rest p)) args). simpl. by rewrite take_drop.
    + constructor; [by apply list_elem_of_singleton|].
      apply tokens_match_Forall2; [|done]. rewrite length_take. lia.
  - intros [[k ->] Hf]. apply Forall2_cons_inv_l in Hf as (c & pre' & Hc & Hf & ->).
    apply list_elem_of_singleton in Hc as ->. pose proof (Forall2_length _ _ _ Hf) as Hl.
    replace (length ((first p :: pre') ++ k) <? S (length (rest p))) with false
      by (symmetry; apply Nat.ltb_ge; simpl; rewrite length_app; lia).
    simpl. rewrite str_eqb_refl. simpl. rewrite Nat.sub_0_r, Hl, take_app_length.
    by rewrite (proj2 (tokens_match_Forall2 _ _ Hl)).
Qed.

(** ** Policies *)
Section PolicySpec.
Context {AbsPath : Type} `{!AbsPathOps AbsPath}.
Implicit Types (p q : Policy AbsPath) (cmd : list rstring) (fb : list rstring → Decision).

(** The rules of a program. *)
Definition rules_of p (prog : rstring) : list PrefixRule := default [] (rules_by_program p !! prog).

(** The matches of the rules keyed by the first token of the command. *)
Definition exact_matches p cmd : list (RuleMatch AbsPath) :=
  match cmd with
  | [] => []
  | c :: _ => omap (λ r, rule_matches r cmd) (rules_of p c)
  end.

Lemma match_exact_rules_non_empty p cmd :
  match_exact_rules p cmd ≫= non_empty = non_empty (exact_matches p cmd).
Proof.
  unfold match_exact_rules, exact_matches, rules_of. destruct cmd as [|c args]; [done|]. simpl.
  by destruct (rules_by_program p !! c).
Qed.

Lemma non_empty_Some {A} (l k : list A) : non_empty l = Some k ↔ l = k ∧ l ≠ [].
Proof. destruct l; unfold non_empty; simpl; naive_solver. Qed.
Lemma non_empty_None {A} (l : list A) : non_empty l = None ↔ l = [].
Proof. by destruct l. Qed.

Context (windows : bool).
Local Notation all_matches := (matches_for_command_with_options windows).

Lemma matches_exact p cmd (fb : option (list rstring → Decision)) options :
  exact_matches p cmd ≠ [] → all_matches p cmd fb options = exact_matches p cmd.
Proof.
  intros Hne. unfold matches_for_command_with_options. rewrite match_exact_rules_non_empty.
  rewrite (proj2 (non_empty_Some (exact_matches p cmd) _) (conj eq_refl Hne)). simpl.
  destruct fb; [|done]. by destruct (exact_matches p cmd).
Qed.

Lemma matches_default p cmd fb :
  all_matches p cmd (Some fb) default_match_options =
  if is_empty (exact_matches p cmd) then [HeuristicsRuleMatch cmd (fb cmd)]
  else exact_matches p cmd.
Proof.
  unfold matches_for_command_with_options. rewrite match_exact_rules_non_empty. simpl.
  by destruct (exact_matches p cmd).
Qed.

Lemma matches_nonempty p cmd fb options : all_matches p cmd (Some fb) options ≠ [].
Proof.
  unfold matches_for_command_with_options.
  destruct (is_empty _) eqn:E; [done|]. by destruct (default [] _).
Qed.

Lemma from_matches_Some (ms : list (RuleMatch AbsPath)) e :
  from_matches ms = Some e ↔
  matched_rules e = ms ∧ strictest (eval_decision e) (map match_decision ms).
Proof.
  unfold from_matches. rewrite <- max_decision_strictest.
  destruct (max_decision _) as [d|]; simpl; destruct e; naive_solver.
Qed.

Lemma from_matches_None (ms : list (RuleMatch AbsPath)) : from_matches ms = None ↔ ms = [].
Proof.
  unfold from_matches.
  destruct (max_decision _) as [d|] eqn:E; simpl.
  - split; [done|]. intros ->. done.
  - apply max_decision_None, fmap_nil_inv in E as ->. done.
Qed.

(** *** Overlays *)
Lemma multi_insert_lookup (prog : rstring) (r : PrefixRule) (m : rule_map) (k : rstring) :
  default [] (multi_insert prog r m !! k) =
  default [] (m !! k) ++ (if decide (k = prog) then [r] else []).
Proof.
  unfold multi_insert. case_decide; subst; simplify_map_eq; [done|]. by rewrite app_nil_r.
Qed.

Lemma insert_all_lookup (m : rule_map) (prog : rstring) (rs : list PrefixRule) (k : rstring) :
  default [] (insert_all m (prog, rs) !! k) =
  default [] (m !! k) ++ (if decide (k = prog) then rs else []).
Proof.
  unfold insert_all. simpl. revert m. induction rs as [|r rs IH]; intros m; simpl.
  - case_decide; by rewrite app_nil_r.
  - rewrite IH, multi_insert_lookup. case_decide; by rewrite <- app_assoc.
Qed.

Lemma merge_fold_lookup (l : list (rstring * list PrefixRule)) (m : rule_map) (k : rstring) :
  NoDup l.*1 →
  default [] (foldl insert_all m l !! k) =
  default [] (m !! k) ++ default [] (list_to_map (M := rule_map) l !! k).
Proof.
  revert m. induction l as [|[prog rs] l IH]; intros m Hnd; simpl; [by rewrite app_nil_r|].
  apply NoDup_cons in Hnd as [Hn Hnd]. rewrite IH by done. rewrite insert_all_lookup.
  rewrite <- app_assoc. f_equal. case_decide; subst.
  - rewrite lookup_insert_eq, (not_elem_of_list_to_map_1 _ _ Hn). apply app_nil_r.
  - by rewrite lookup_insert_ne.
Qed.

Lemma merge_rules_of p q k : rules_of (merge_overlay p q) k = rules_of p k ++ rules_of q k.
Proof.
  unfold rules_of, merge_overlay. simpl.
  rewrite merge_fold_lookup by apply NoDup_fst_map_to_list.
  by rewrite list_to_map_to_list.
Qed.

Lemma merge_exact_matches p q cmd :
  exact_matches (merge_overlay p q) cmd = exact_matches p cmd ++ exact_matches q cmd.
Proof.
  unfold exact_matches. destruct cmd as [|c args]; [done|].
  by rewrite merge_rules_of, omap_app.
Qed.

Lemma exact_match_prefix_rules p cmd m :
  m ∈ exact_matches p cmd ↔
  ∃ r prefix, r ∈ rules_of p (default [] (head cmd)) ∧ matches_prefix (pattern r) cmd = Some prefix ∧
    m = PrefixRuleMatch prefix (rule_decision r) None (justification r).
Proof.
  unfold exact_matches. destruct cmd as [|c args]; simpl.
  - split; [by intros ?%elem_of_nil|]. intros (r & prefix & _ & H & _).
    unfold matches_prefix in H. by destruct (_ <? _).
  - rewrite list_elem_of_omap. unfold rule_matches. split.
    + intros (r & Hr & Hm). destruct (matches_prefix _ _) as [prefix|] eqn:E; [|done].
      simpl in Hm. simplify_eq. eauto.
    + intros (r & prefix & Hr & Hm & ->). exists r. by rewrite Hm.
Qed.

(** *** Rule matches *)
Definition is_prefix_match (m : RuleMatch AbsPath) : bool :=
  match m with HeuristicsRuleMatch _ _ => false | _ => true end.

Lemma exact_matches_prefix p cmd : Forall (λ m, is_prefix_match m = true) (exact_matches p cmd).
Proof.
  apply Forall_forall. intros m (r & prefix & _ & _ & ->)%exact_match_prefix_rules. done.
Qed.

Lemma host_matches_prefix p cmd :
  Forall (λ m, is_prefix_match m = true) (match_host_executable_rules windows p cmd).
Proof.
  unfold match_host_executable_rules. destruct cmd as [|c args]; [constructor|].
  destruct (abs_try_from c) as [prog|]; [|constructor].
  destruct (executable_path_lookup_key windows prog) as [basename|]; [|constructor].
  destruct (rules_by_program p !! basename) as [rules|]; [|constructor].
  destruct (is_some_and _ _); [constructor|].
  apply Forall_fmap, Forall_forall. intros m (r & _ & Hm)%list_elem_of_omap.
  unfold rule_matches in Hm. destruct (matches_prefix _ _); [|done]. by simplify_eq/=.
Qed.

Lemma matches_cases p cmd fb options :
  all_matches p cmd (Some fb) options = [HeuristicsRuleMatch cmd (fb cmd)] ∨
  Forall (λ m, is_prefix_match m = true) (all_matches p cmd (Some fb) options).
Proof.
  unfold matches_for_command_with_options. rewrite match_exact_rules_non_empty.
  destruct (is_empty _) eqn:E; [by left|]. right.
  destruct (non_empty (exact_matches p cmd)) as [ms|] eqn:Ex.
  - apply non_empty_Some in Ex as [<- _]. apply exact_matches_prefix.
  - destruct (resolve_host_executables options); [|constructor].
    destruct (non_empty (match_host_executable_rules windows p cmd)) eqn:Eh; [|constructor].
    apply non_empty_Some in Eh as [<- _]. apply host_matches_prefix.
Qed.

Lemma is_match_exists (e : Evaluation AbsPath) :
  is_match e = existsb is_prefix_match (matched_rules e).
Proof. done. Qed.

Lemma is_match_default p cmd fb e :
  check windows p cmd fb = Some e →
  is_match e = negb (is_empty (exact_matches p cmd)).
Proof.
  intros [Hm _]%from_matches_Some. rewrite is_match_exists, Hm, matches_default.
  pose proof (exact_matches_prefix p cmd) as Hf.
  destruct (exact_matches p cmd) as [|m ms]; [done|]. simpl.
  apply Forall_cons in Hf as [-> _]. done.
Qed.

Lemma check_exact p cmd fb e :
  exact_matches p cmd ≠ [] →
  check windows p cmd fb = Some e ↔ from_matches (exact_matches p cmd) = Some e.
Proof. intros Hne. unfold check, check_with_options. by rewrite matches_exact. Qed.

Lemma check_decision p cmd fb options :
  eval_decision <$> check_with_options windows p cmd fb options =
  max_decision (map match_decision (all_matches p cmd (Some fb) options)).
Proof. unfold check_with_options, from_matches. by destruct (max_decision _). Qed.

Lemma check_multiple_flat p cmds fb options :
  max_decision (map match_decision
    (cmds ≫= λ cmd, all_matches p cmd (Some fb) options)) =
  max_decision (omap (λ c, eval_decision <$> check_with_options windows p c fb options) cmds).
Proof.
  induction cmds as [|c cmds IH]; [done|].
  rewrite bind_cons, map_app, max_decision_app, IH, <- check_decision. simpl.
  destruct (eval_decision <$> check_with_options windows p c fb options) as [d|] eqn:E; [|done].
  assert (∀ ds, match max_decision ds with
    | Some e => Some (decision_max d e) | None => Some d end = max_decision (d :: ds)) as H
    by (intros ds; simpl; by destruct (max_decision ds)).
  apply H.
Qed.

(** *** Added rules *)
Lemma add_prefix_rules_of prefix d p p' k :
  add_prefix_rule prefix d p = Ok p' →
  rules_of p' k = rules_of p k ++
    (if decide (head prefix = Some k)
     then [mkRule (mkPattern k (map Single (tail prefix))) d None] else []).
Proof.
  destruct prefix as [|c args]; simpl; [done|]. intros [= <-]. unfold rules_of. simpl.
  rewrite multi_insert_lookup. repeat case_decide; naive_solver.
Qed.

Lemma single_pattern_matches c args cmd pre :
  matches_prefix (mkPattern c (map Single args)) cmd = Some pre ↔
  pre = c :: args ∧ c :: args `prefix_of` cmd.
Proof.
  rewrite matches_prefix_iff. unfold pattern_of. simpl.
  change (Single c :: map Single args) with (Single <$> (c :: args)).
  rewrite Forall2_fmap_l. split.
  - intros [Hp Hf]. enough (pre = c :: args) as -> by done. clear Hp.
    induction Hf as [|x y l k Hx _ IH]; [done|]. simpl in Hx.
    apply list_elem_of_singleton in Hx as ->. by rewrite IH.
  - intros [-> Hp]. split; [done|]. apply Forall2_same_length_lookup_2; [done|].
    intros i x y Hx Hy. simplify_eq. by apply list_elem_of_singleton.
Qed.

Lemma add_prefix_exact_matches prefix d p p' cmd :
  add_prefix_rule prefix d p = Ok p' →
  exact_matches p' cmd = exact_matches p cmd ++
    (if decide (prefix `prefix_of` cmd) then [PrefixRuleMatch prefix d None None] else []).
Proof.
  intros Ha. unfold exact_matches. destruct cmd as [|c args].
  { destruct prefix as [|x xs]; [done|]. case_decide as Hp; [|done].
    by apply prefix_nil_inv in Hp. }
  rewrite (add_prefix_rules_of _ _ _ _ c Ha), omap_app. f_equal.
  destruct prefix as [|x xs]; [done|]. simpl.
  destruct (decide (Some x = Some c)) as [[= ->]|Hne]; simpl.
  - unfold rule_matches. simpl.
    destruct (matches_prefix (mkPattern c (map Single xs)) (c :: args)) as [pre|] eqn:E; simpl.
    + apply single_pattern_matches in E as [-> Hp]. by rewrite decide_True.
    + rewrite decide_False; [done|]. intros Hp.
      rewrite (proj2 (single_pattern_matches c xs (c :: args) _) (conj eq_refl Hp)) in E. done.
  - rewrite decide_False; [done|]. intros Hp. apply Hne. by apply prefix_cons_inv_1 in Hp as ->.
Qed.

(** *** Network domains *)

(** The decision of the last rule for a host that is not a prompt. *)
Definition host_verdict (rules : list NetworkRule) (h : rstring) : option Decision :=
  last (omap (λ r, if decide (host r = h ∧ network_decision r ≠ Prompt)
                   then Some (network_decision r) else None) rules).

Lemma host_verdict_snoc rules r h :
  host_verdict (rules ++ [r]) h =
  if decide (host r = h ∧ network_decision r ≠ Prompt) then Some (network_decision r)
  else host_verdict rules h.
Proof.
  unfold host_verdict. rewrite omap_app. simpl. case_decide; simpl.
  - apply last_snoc.
  - by rewrite app_nil_r.
Qed.

Lemma elem_of_retain_ne h x l : x ∈ retain_ne h l ↔ x ≠ h ∧ x ∈ l.
Proof. unfold retain_ne. by rewrite list_elem_of_filter. Qed.

Lemma elem_of_upsert h x l : x ∈ upsert_domain l h ↔ x = h ∨ x ∈ l.
Proof.
  unfold upsert_domain. rewrite elem_of_app, elem_of_retain_ne, list_elem_of_singleton.
  destruct (decide (x = h)); naive_solver.
Qed.

Lemma NoDup_retain_ne h l : NoDup l → NoDup (retain_ne h l).
Proof. unfold retain_ne. apply NoDup_filter. Qed.

Lemma NoDup_upsert h l : NoDup l → NoDup (upsert_domain l h).
Proof.
  intros H. apply NoDup_app. split_and!; [by apply NoDup_retain_ne| |apply NoDup_singleton].
  intros x Hx ->%list_elem_of_singleton. apply elem_of_retain_ne in Hx as [? _]. done.
Qed.

Lemma compile_rules_verdict rules :
  let ad := foldl compile_rule ([], []) rules in
  NoDup (fst ad) ∧ NoDup (snd ad) ∧
  ∀ h, (h ∈ fst ad ↔ host_verdict rules h = Some Allow) ∧
       (h ∈ snd ad ↔ host_verdict rules h = Some Forbidden).
Proof.
  induction rules as [|r rules IH] using rev_ind; simpl.
  { split_and!; [constructor..|]. intros h. rewrite !elem_of_nil. done. }
  rewrite foldl_snoc. destruct (foldl compile_rule ([], []) rules) as [al de].
  destruct IH as (Ha & Hd & IH). simpl in *.
  unfold compile_rule. destruct (network_decision r) eqn:Er; simpl.
  - split_and!; [by apply NoDup_upsert|by apply NoDup_retain_ne|]. intros h.
    rewrite elem_of_upsert, elem_of_retain_ne, host_verdict_snoc, Er.
    destruct (IH h) as [-> ->]. case_decide; naive_solver.
  - split_and!; [done..|]. intros h. rewrite host_verdict_snoc, Er.
    rewrite decide_False by naive_solver. apply IH.
  - split_and!; [by apply NoDup_retain_ne|by apply NoDup_upsert|]. intros h.
    rewrite elem_of_upsert, elem_of_retain_ne, host_verdict_snoc, Er.
    destruct (IH h) as [-> ->]. case_decide; naive_solver.
Qed.

(** ** Properties *)

(** checking a command always gives an evaluation (the panic of an empty list
    of matches is unreachable), its decision is the strictest of its matched
    rules, and it falls back to the heuristics exactly when no rule matches. *)
Theorem check_decision_strictest p cmd fb options :
  ∃ e, check_with_options windows p cmd fb options = Some e ∧
    matched_rules e ≠ [] ∧
    strictest (eval_decision e) (map match_decision (matched_rules e)) ∧
    (is_match e = false ↔ matched_rules e = [HeuristicsRuleMatch cmd (fb cmd)]).
Proof.
  destruct (check_with_options windows p cmd fb options) as [e|] eqn:E.
  2: { apply from_matches_None in E. by apply matches_nonempty in E. }
  exists e. apply from_matches_Some in E as [Hm Hs]. rewrite is_match_exists, Hm.
  split_and!; [done|apply matches_nonempty|done|].
  pose proof (matches_nonempty p cmd fb options) as Hne.
  destruct (matches_cases p cmd fb options) as [-> | Hf]; [done|].
  destruct (all_matches p cmd (Some fb) options) as [|m ms]; [done|].
  apply Forall_cons in Hf as [Hm1 _]. simpl. rewrite Hm1. split; [done|]. intros [= -> _]. done.
Qed.

(** checking several commands panics exactly on the empty sequence, and
    otherwise decides the strictest of the decisions of the single commands. *)
Theorem check_multiple_strictest p cmds fb options :
  (check_multiple_with_options windows p cmds fb options = None ↔ cmds = []) ∧
  eval_decision <$> check_multiple_with_options windows p cmds fb options =
    max_decision (omap (λ c, eval_decision <$> check_with_options windows p c fb options) cmds).
Proof.
  split.
  - unfold check_multiple_with_options. rewrite from_matches_None.
    destruct cmds as [|c cmds]; [done|]. simpl. split; [|done].
    intros [H _]%app_nil. by apply matches_nonempty in H.
  - rewrite <- check_multiple_flat. unfold check_multiple_with_options, from_matches.
    by destruct (max_decision _).
Qed.

(** without host resolution the rules that match a command are exactly the
    rules keyed by its first token whose pattern accepts a prefix of the command
    token by token, each token being one of the alternatives. *)
Theorem rule_match_iff p cmd m :
  m ∈ matches_for_command windows p cmd None ↔
  ∃ r prefix, r ∈ rules_of p (default [] (head cmd)) ∧ prefix `prefix_of` cmd ∧
    Forall2 (λ t c, c ∈ token_alternatives t) (pattern_of (pattern r)) prefix ∧
    m = PrefixRuleMatch prefix (rule_decision r) None (justification r).
Proof.
  assert (matches_for_command windows p cmd None = exact_matches p cmd) as ->.
  { unfold matches_for_command, matches_for_command_with_options.
    rewrite match_exact_rules_non_empty. simpl. by destruct (exact_matches p cmd). }
  rewrite exact_match_prefix_rules. setoid_rewrite matches_prefix_iff. naive_solver.
Qed.

(** an overlay can only tighten what the base policy decides by a rule: if a
    rule of the base matches the command, the merged policy keeps all its matches,
    adds those of the overlay and decides at least as strictly. *)
Theorem overlay_never_loosens p q cmd fb e :
  check windows p cmd fb = Some e → is_match e = true →
  ∃ e', check windows (merge_overlay p q) cmd fb = Some e' ∧
    matched_rules e' = matched_rules e ++ exact_matches q cmd ∧
    decision_rank (eval_decision e) ≤ decision_rank (eval_decision e').
Proof.
  intros He Hi. rewrite (is_match_default _ _ _ _ He) in Hi.
  assert (exact_matches p cmd ≠ []) as Hne by by destruct (exact_matches p cmd).
  apply check_exact in He; [|done]. apply from_matches_Some in He as [Hm [Hin _]].
  destruct (check windows (merge_overlay p q) cmd fb) as [e'|] eqn:E'.
  2: { apply from_matches_None in E'. by apply matches_nonempty in E'. }
  exists e'. apply check_exact in E'.
  2: { rewrite merge_exact_matches. intros [? _]%app_nil. done. }
  apply from_matches_Some in E' as [Hm' [_ Hmax]]. split_and!; [done| |].
  - by rewrite Hm', Hm, merge_exact_matches.
  - apply Hmax. rewrite merge_exact_matches, map_app. apply elem_of_app. by left.
Qed.

(** adding a prefix rule is refused only for the empty prefix; it makes every
    command that starts with the prefix match and be decided at least as strictly
    as the rule says, and leaves every other command alone. *)
Theorem add_prefix_rule_effect prefix d p fb :
  prefix ≠ [] →
  ∃ p', add_prefix_rule prefix d p = Ok p' ∧
    ∀ cmd,
      (prefix `prefix_of` cmd →
       ∃ e, check windows p' cmd fb = Some e ∧ is_match e = true ∧
         decision_rank d ≤ decision_rank (eval_decision e)) ∧
      (¬ prefix `prefix_of` cmd → check windows p' cmd fb = check windows p cmd fb).
Proof.
  intros Hne. destruct (add_prefix_rule prefix d p) as [p'|] eqn:Ha; [|by destruct prefix].
  exists p'. split; [done|]. intros cmd. split.
  - intros Hp. pose proof (add_prefix_exact_matches _ _ _ _ cmd Ha) as Hm.
    rewrite decide_True in Hm by done.
    destruct (check windows p' cmd fb) as [e|] eqn:E.
    2: { apply from_matches_None in E. by apply matches_nonempty in E. }
    exists e. rewrite (is_match_default _ _ _ _ E). split_and!; [done| |].
    + rewrite Hm. by destruct (exact_matches p cmd).
    + apply check_exact in E; [|rewrite Hm; by destruct (exact_matches p cmd)].
      apply from_matches_Some in E as [_ [_ Hmax]]. apply Hmax. rewrite Hm, map_app.
      apply elem_of_app. right. by apply list_elem_of_singleton.
  - intros Hp. pose proof (add_prefix_exact_matches _ _ _ _ cmd Ha) as Hm.
    rewrite decide_False, app_nil_r in Hm by done.
    unfold check, check_with_options. by rewrite !matches_default, Hm.
Qed.

(** the compiled network domains are two lists without duplicates; a host is
    allowed exactly when its last rule that is not a prompt allows it, and denied
    exactly when that rule forbids it, so the lists are disjoint. *)
Theorem compiled_domains_verdict p :
  let '(allowed, denied) := compiled_network_domains p in
  NoDup allowed ∧ NoDup denied ∧
  ∀ h, (h ∈ allowed ↔ host_verdict (network_rules p) h = Some Allow) ∧
       (h ∈ denied ↔ host_verdict (network_rules p) h = Some Forbidden).
Proof.
  unfold compiled_network_domains. pose proof (compile_rules_verdict (network_rules p)) as H.
  by destruct (foldl compile_rule ([], []) (network_rules p)).
Qed.
End PolicySpec.

(** ** Normalised hosts *)
Lemma rsplit_once_Some c s a b : rsplit_once c s = Some (a, b) → s = a ++ c :: b ∧ c ∉ b.
Proof.
  unfold rsplit_once. destruct (split_once c (reverse s)) as [[x y]|] eqn:E; simpl; [|done].
  intros [= <- <-]. apply split_once_Some in E as [E Hx].
  rewrite elem_of_reverse. split; [|done].
  rewrite <- (reverse_involutive s), E, reverse_app, reverse_cons. by rewrite <- app_assoc.
Qed.

Lemma strip_port_incl raw s h : strip_port raw s = Ok h → ∀ c, c ∈ h → c ∈ s.
Proof.
  unfold strip_port. destruct (strip_prefix (str "[") s) as [t|] eqn:E.
  - apply strip_prefix_Some in E as ->.
    destruct (split_once 93 t) as [[inside suffix]|] eqn:Es; [|done].
    destruct (_ && _); [done|]. intros [= <-] c Hc. apply split_once_Some in Es as [-> _]. set_solver.
  - destruct (_ =? 1); [|by intros [= <-]].
    destruct (rsplit_once COLON s) as [[a b]|] eqn:Er; [|by intros [= <-]].
    destruct (_ && _); [|by intros [= <-]]. intros [= <-] c Hc.
    apply rsplit_once_Some in Er as [-> _]. set_solver.
Qed.

Lemma drop_while_incl P s c : c ∈ drop_while P s → c ∈ s.
Proof.
  induction s as [|x s IH]; simpl; [done|]. destruct (P x); [|done]. intros ?%IH. by right.
Qed.
Lemma drop_end_while_incl P s c : c ∈ drop_end_while P s → c ∈ s.
Proof.
  unfold drop_end_while. rewrite elem_of_reverse. intros H%drop_while_incl.
  by rewrite elem_of_reverse in H.
Qed.
Lemma trim_incl s c : c ∈ trim s → c ∈ s.
Proof. unfold trim. intros H%drop_end_while_incl. by eapply drop_while_incl. Qed.

Lemma has_char_false c s : has_char c s = false ↔ c ∉ s.
Proof.
  unfold has_char. rewrite <- not_true_iff_false, existsb_exists.
  setoid_rewrite <- list_elem_of_In. setoid_rewrite N.eqb_eq. naive_solver.
Qed.

Lemma lowercase_char_idemp c : to_ascii_lowercase_char (to_ascii_lowercase_char c) =
  to_ascii_lowercase_char c.
Proof.
  unfold to_ascii_lowercase_char. destruct ((65 <=? c) && (c <=? 90))%N eqn:E; [|by rewrite E].
  breflect. apply N.leb_le in H, H0.
  destruct ((65 <=? c + 32) && (c + 32 <=? 90))%N eqn:E'; [|done].
  breflect. apply N.leb_le in H1, H2. lia.
Qed.

Lemma lowercase_char_other c d :
  (d < 65)%N → to_ascii_lowercase_char c = d → c = d.
Proof.
  unfold to_ascii_lowercase_char. intros Hd. destruct (_ && _) eqn:E; [|done].
  breflect. apply N.leb_le in H, H0. lia.
Qed.

(** The characters a policy host may have. *)
Definition host_char (c : N) : bool :=
  negb (is_whitespace c) && negb (c =? STAR)%N && negb (c =? 47)%N && negb (c =? 63)%N &&
  negb (c =? 35)%N && (to_ascii_lowercase_char c =? c)%N.

Lemma contains_slash s : (47 ∉ s)%N → contains (str "://") s = false.
Proof.
  intros H. unfold contains. destruct (find_sub (str "://") s) as [i|] eqn:E; [|done].
  exfalso. apply H. revert i E. induction s as [|c s IH]; intros i; [done|].
  cbn [find_sub]. destruct (starts_with (str "://") (c :: s)) eqn:Es.
  - intros _. apply starts_with_true in Es as [t ->]. apply elem_of_app. left. right. left.
  - destruct (find_sub (str "://") s) as [j|] eqn:Ej; [|done]. intros _. right.
    apply (IH ltac:(set_solver) j eq_refl).
Qed.

Lemma normalize_host_chars raw h :
  normalize_network_rule_host raw = Ok h → h ≠ [] ∧ Forall (λ c, host_char c = true) h.
Proof.
  unfold normalize_network_rule_host. destruct (is_empty (trim raw)); [done|].
  destruct (_ || _ || _ || _) eqn:Eo; [done|]. breflect.
  destruct (strip_port raw (trim raw)) as [s|] eqn:Es; [|done]. simpl.
  set (n := to_ascii_lowercase _). destruct (is_empty n) eqn:En; [done|].
  destruct (has_char STAR n) eqn:Est; [done|]. destruct (existsb is_whitespace n) eqn:Ew; [done|].
  intros [= <-]. split; [by destruct n|]. apply Forall_forall. intros c Hc.
  assert (∀ d, d ∉ trim raw → (d < 65)%N → c ≠ d) as Hd.
  { intros d Hd Hlt ->. apply Hd. unfold n, to_ascii_lowercase in Hc.
    apply list_elem_of_fmap in Hc as (x & Hx & Hin). symmetry in Hx.
    apply lowercase_char_other in Hx as ->; [|done].
    eapply strip_port_incl; [done|]. eapply drop_end_while_incl. by eapply trim_incl. }
  rewrite has_char_false in *.
  assert (to_ascii_lowercase_char c = c) as Hl.
  { unfold n, to_ascii_lowercase in Hc. apply list_elem_of_fmap in Hc as (x & -> & _).
    apply lowercase_char_idemp. }
  assert (is_whitespace c = false) as Hw.
  { apply not_true_iff_false. intros Hw. rewrite <- not_true_iff_false in Ew. apply Ew.
    apply existsb_exists. exists c. split; [by apply list_elem_of_In|done]. }
  unfold host_char. rewrite Hw, Hl, N.eqb_refl. simpl.
  rewrite (proj2 (N.eqb_neq c STAR)) by (intros ->; done).
  rewrite !(proj2 (N.eqb_neq c _)) by (apply Hd; [done|lia]). done.
Qed.

Lemma host_char_spec c :
  host_char c = true →
  is_whitespace c = false ∧ c ≠ STAR ∧ c ≠ 47%N ∧ c ≠ 63%N ∧ c ≠ 35%N ∧
  to_ascii_lowercase_char c = c.
Proof.
  unfold host_char. rewrite !andb_true_iff, !negb_true_iff, !N.eqb_neq, N.eqb_eq. naive_solver.
Qed.

Lemma host_chars_trim h : Forall (λ c, host_char c = true) h → trim h = h.
Proof.
  intros H. apply trim_id.
  - unfold no_leading_ws. destruct h as [|c h]; [done|]. apply Forall_cons in H as [H _].
    apply (host_char_spec c H).
  - unfold no_trailing_ws. destruct (last h) as [c|] eqn:E; [|done].
    apply last_Some in E as [l ->]. apply Forall_app in H as [_ H].
    rewrite Forall_singleton in H. apply (host_char_spec c H).
Qed.

Lemma host_chars_lowercase h : Forall (λ c, host_char c = true) h → to_ascii_lowercase h = h.
Proof.
  induction 1 as [|c h Hc _ IH]; [done|]. simpl. rewrite IH.
  by apply host_char_spec in Hc as (_ & _ & _ & _ & _ & ->).
Qed.

Lemma host_chars_not_in h c :
  Forall (λ c, host_char c = true) h → host_char c = false → c ∉ h.
Proof. rewrite Forall_forall. intros H Hc Hin. apply H in Hin. congruence. Qed.

Lemma normalize_host_fixed h :
  h ≠ [] → Forall (λ c, host_char c = true) h → strip_port h h = Ok h → last h ≠ Some DOT →
  normalize_network_rule_host h = Ok h.
Proof.
  intros Hne Hc Hs Hd. unfold normalize_network_rule_host.
  rewrite host_chars_trim by done. replace (is_empty h) with false by by destruct h.
  assert (∀ c, host_char c = false → has_char c h = false) as Hn.
  { intros c Hf. apply has_char_false. by apply host_chars_not_in. }
  rewrite contains_slash by (by apply host_chars_not_in).
  rewrite !Hn by done. simpl. rewrite Hs. simpl.
  assert (trim_end_matches DOT h = h) as ->.
  { unfold trim_end_matches. destruct (snoc_nil_cases h) as [->|(l & x & ->)]; [done|].
    apply drop_end_while_snoc_false. rewrite last_snoc in Hd. apply N.eqb_neq. congruence. }
  rewrite host_chars_trim, host_chars_lowercase by done.
  replace (is_empty h) with false by by destruct h. rewrite Hn by done.
  destruct (existsb is_whitespace h) eqn:E; [|done].
  apply existsb_exists in E as (c & Hin & Hw). apply list_elem_of_In in Hin.
  rewrite Forall_forall in Hc. apply Hc, host_char_spec in Hin. naive_solver congruence.
Qed.

(** a host accepted for a network rule is not empty and has no white space,
    wildcard, scheme, path, query or fragment character and no upper-case ASCII
    letter; and normalising it again does not change it, provided it carries no
    port or bracket and does not end in a dot. *)
Theorem normalized_host_canonical raw h :
  normalize_network_rule_host raw = Ok h →
  h ≠ [] ∧ Forall (λ c, host_char c = true) h ∧
  (strip_port h h = Ok h → last h ≠ Some DOT → normalize_network_rule_host h = Ok h).
Proof.
  intros H. apply normalize_host_chars in H as [Hne Hc]. split_and!; [done..|].
  intros Hs Hd. by apply normalize_host_fixed.
Qed.

Lemma normalized_host_canonical_witness :
  normalize_network_rule_host (str " API.GitHub.com.:443 ") = Ok (str "api.github.com") ∧
  normalize_network_rule_host (str "api.github.com") = Ok (str "api.github.com").
Proof.
  split; [vm_compute; reflexivity|].
  apply (normalized_host_canonical (str " API.GitHub.com.:443 ") (str "api.github.com"));
    vm_compute; [reflexivity|reflexivity|discriminate].
Defined.

(** ** Witnesses, with Unix paths *)
Definition unix_components (p : rstring) : list rstring :=
  filter (λ c, c ≠ [] ∧ c ≠ str ".") (split_on 47 p).
Definition unix_is_absolute (p : rstring) : bool := starts_with (str "/") p.
Definition unix_file_name (p : rstring) : option rstring :=
  c ← last (unix_components p); if bool_decide (c = str "..") then None else Some c.

Record unix_path := mkUnixPath { unix_text : rstring }.

#[global] Instance unix_path_eq_dec : EqDecision unix_path.
Proof. solve_decision. Defined.

#[global] Instance unix_paths : AbsPathOps unix_path := {|
  abs_try_from p :=
    if unix_is_absolute p then Ok (mkUnixPath p) else Err (str "path is not absolute");
  abs_file_name p := unix_file_name (unix_text p);
  path_is_absolute := unix_is_absolute;
  path_component_count p :=
    (if unix_is_absolute p then 1 else 0) + length (unix_components p);
  path_file_name := unix_file_name;
|}.

Definition git_status : list rstring := [str "git"; str "status"].
Definition demo_base : Policy unix_path :=
  mkPolicy {[ str "git" := [mkRule (mkPattern (str "git") []) Prompt None] ]} [] ∅.
Definition demo_overlay : Policy unix_path :=
  mkPolicy {[ str "git" := [mkRule (mkPattern (str "git") [Alts [str "status"; str "log"]]) Allow None] ]}
    [] ∅.
Definition always_forbid (_ : list rstring) : Decision := Forbidden.

(** The overlay allows [git status], the base prompts for [git]: it is prompted. *)
Lemma overlay_never_loosens_witness :
  ∃ e', check false (merge_overlay demo_base demo_overlay) git_status always_forbid = Some e' ∧
    matched_rules e' = [PrefixRuleMatch [str "git"] Prompt None None] ++
      exact_matches demo_overlay git_status ∧
    decision_rank Prompt ≤ decision_rank (eval_decision e').
Proof.
  apply (overlay_never_loosens false demo_base demo_overlay git_status always_forbid
           (mkEvaluation Prompt [PrefixRuleMatch [str "git"] Prompt None None]));
    vm_compute; reflexivity.
Defined.

Lemma add_prefix_rule_effect_witness :
  ∃ p', add_prefix_rule git_status Forbidden demo_base = Ok p' ∧
    ∀ cmd,
      (git_status `prefix_of` cmd →
       ∃ e, check false p' cmd always_forbid = Some e ∧ is_match e = true ∧
         decision_rank Forbidden ≤ decision_rank (eval_decision e)) ∧
      (¬ git_status `prefix_of` cmd →
       check false p' cmd always_forbid = check false demo_base cmd always_forbid).
Proof.
  apply (add_prefix_rule_effect false git_status Forbidden demo_base always_forbid). discriminate.
Defined.
