(* ===== verification/ExecParser.v ===== *)
(** * The policy parser

    Models [sofia-rs/execpolicy/src/parser.rs] and the example validation of
    [rule.rs].  A policy file is a Starlark program; its evaluation is the
    [starlark] crate's, so it is a parameter: the sequence of calls of the three
    builtins that the program makes, and the error that ends it, if any.  The
    builtins, the builder they fill and the validation of the examples are the
    code's own. *)

From stdpp Require Import base list numbers strings gmap.
From S2P Require Import Prelude ExecRule ExecPolicy.

(** Starlark values, as far as the builtins look at them. *)
Inductive Value :=
| VStr (s : rstring)
| VList (items : list Value)
| VOther (type_name : rstring).

Definition get_type (v : Value) : rstring :=
  match v with VStr _ => str "string" | VList _ => str "list" | VOther t => t end.
Definition unpack_str (v : Value) : option rstring :=
  match v with VStr s => Some s | _ => None end.

(** The arguments of a call of each builtin. *)
Inductive BuiltinCall :=
| CallPrefixRule (pattern : list Value) (decision : option rstring)
    (match_ not_match : option (list Value)) (justification : option rstring)
    (location : option ErrorLocation)
| CallNetworkRule (host protocol decision : rstring) (justification : option rstring)
| CallHostExecutable (name : rstring) (paths : list Value).

(** ** Arguments *)
Definition parse_alternative (v : Value) : result Error rstring :=
  ok_or (unpack_str v)
    (InvalidPattern (str "pattern alternative must be a string (got " ++ get_type v ++ str ")")).

Definition parse_pattern_token (v : Value) : result Error PatternToken :=
  match v with
  | VStr s => Ok (Single s)
  | VList items =>
      tokens ← collect parse_alternative items;
      match tokens with
      | [] => Err (InvalidPattern (str "pattern alternatives cannot be empty"))
      | [single] => Ok (Single single)
      | _ => Ok (Alts tokens)
      end
  | VOther _ =>
      Err (InvalidPattern (str "pattern element must be a string or list of strings (got " ++
                           get_type v ++ str ")"))
  end.

Definition parse_pattern (pattern : list Value) : result Error (list PatternToken) :=
  tokens ← collect parse_pattern_token pattern;
  if is_empty tokens then Err (InvalidPattern (str "pattern cannot be empty")) else Ok tokens.

Definition parse_network_rule_decision (raw : rstring) : result Error Decision :=
  if str_eqb raw (str "deny") then Ok Forbidden else decision_parse raw.

Definition parse_justification (j : option rstring) : result Error (option rstring) :=
  if justification_empty j then Err (InvalidRule (str "justification cannot be empty")) else Ok j.

Definition parse_list_token (v : Value) : result Error rstring :=
  ok_or (unpack_str v)
    (InvalidExample (str "example tokens must be strings (got " ++ get_type v ++ str ")")).

Definition parse_list_example (items : list Value) : result Error (list rstring) :=
  tokens ← collect parse_list_token items;
  if is_empty tokens then Err (InvalidExample (str "example cannot be an empty list")) else Ok tokens.

Definition attach_validation_location (e : Error) (l : option ErrorLocation) : Error :=
  match l with Some l => with_location e l | None => e end.

Section Parser.
Context {AbsPath : Type} `{!AbsPathOps AbsPath} (windows : bool).

(** The [shlex] crate, [Debug] renderings in messages, and the evaluation of a
    program by the [starlark] crate: a parse error, or the calls made and the
    error that ended the evaluation.  [starlark_error] is the message of an
    error raised by a builtin. *)
Context (shlex_split : rstring → option (list rstring)).
Context (shlex_try_join : list rstring → option rstring).
Context (rule_debug : PrefixRule → rstring) (match_debug : RuleMatch AbsPath → rstring).
Context (starlark_run : rstring → rstring → result rstring (list BuiltinCall * option rstring)).
Context (starlark_error : Error → rstring).

Definition parse_string_example (raw : rstring) : result Error (list rstring) :=
  tokens ← ok_or (shlex_split raw)
             (InvalidExample (str "example string has invalid shell syntax"));
  if is_empty tokens then Err (InvalidExample (str "example cannot be an empty string"))
  else Ok tokens.

Definition parse_example (v : Value) : result Error (list rstring) :=
  match v with
  | VStr raw => parse_string_example raw
  | VList items => parse_list_example items
  | VOther _ =>
      Err (InvalidExample (str "example must be a string or list of strings (got " ++
                           get_type v ++ str ")"))
  end.

Definition parse_examples (examples : list Value) : result Error (list (list rstring)) :=
  collect parse_example examples.

(** [r#match.map(parse_examples).transpose()?.unwrap_or_default()]. *)
Definition parse_optional_examples (o : option (list Value)) : result Error (list (list rstring)) :=
  match o with None => Ok [] | Some examples => parse_examples examples end.

Definition parse_literal_absolute_path (raw : rstring) : result Error AbsPath :=
  if negb (path_is_absolute raw)
  then Err (InvalidRule (str "host_executable paths must be absolute (got " ++ raw ++ str ")"))
  else map_err (λ error, InvalidRule (str "invalid absolute path `" ++ raw ++ str "`: " ++ error))
         (abs_try_from raw).

Definition validate_host_executable_name (name : rstring) : result Error unit :=
  if is_empty name then Err (InvalidRule (str "host_executable name cannot be empty"))
  else if negb (path_component_count name =? 1) || negb (bool_decide (path_file_name name = Some name))
  then Err (InvalidRule (str "host_executable name must be a bare executable name (got " ++ name ++
                         str ")"))
  else Ok tt.

(** ** Validation of examples ([rule.rs]) *)
Definition example_options : MatchOptions := mkMatchOptions true.

Definition render_example (example : list rstring) : rstring :=
  default (str "unable to render example") (shlex_try_join example).

Definition validate_match_examples (p : Policy AbsPath) (rules : list PrefixRule)
    (matches : list (list rstring)) : result Error unit :=
  let unmatched := filter (λ example,
    matches_for_command_with_options windows p example None example_options = []) matches in
  if is_empty unmatched then Ok tt
  else Err (ExampleDidNotMatch (map rule_debug rules) (map render_example unmatched) None).

Fixpoint validate_not_match_examples (p : Policy AbsPath) (not_matches : list (list rstring))
    : result Error unit :=
  match not_matches with
  | [] => Ok tt
  | example :: not_matches' =>
      match head (matches_for_command_with_options windows p example None example_options) with
      | Some rule => Err (ExampleDidMatch (match_debug rule) (render_example example) None)
      | None => validate_not_match_examples p not_matches'
      end
  end.

(** ** The builder *)
Record PendingExampleValidation := mkPending {
  pending_rules : list PrefixRule;
  pending_matches : list (list rstring);
  pending_not_matches : list (list rstring);
  pending_location : option ErrorLocation;
}.

Record PolicyBuilder := mkBuilder {
  b_rules : rule_map;
  b_network_rules : list NetworkRule;
  b_host_executables : gmap rstring (list AbsPath);
  pending_example_validations : list PendingExampleValidation;
}.

Definition new_builder : PolicyBuilder := mkBuilder ∅ [] ∅ [].

Definition add_rule (b : PolicyBuilder) (r : PrefixRule) : PolicyBuilder :=
  mkBuilder (multi_insert (program r) r (b_rules b)) (b_network_rules b) (b_host_executables b)
    (pending_example_validations b).
Definition builder_add_network_rule (r : NetworkRule) (b : PolicyBuilder) : PolicyBuilder :=
  mkBuilder (b_rules b) (b_network_rules b ++ [r]) (b_host_executables b)
    (pending_example_validations b).
Definition add_host_executable (name : rstring) (paths : list AbsPath) (b : PolicyBuilder)
    : PolicyBuilder :=
  mkBuilder (b_rules b) (b_network_rules b) (<[name:=paths]> (b_host_executables b))
    (pending_example_validations b).
Definition add_pending_example_validation (v : PendingExampleValidation) (b : PolicyBuilder)
    : PolicyBuilder :=
  mkBuilder (b_rules b) (b_network_rules b) (b_host_executables b)
    (pending_example_validations b ++ [v]).

(** The policy of the rules of one call, with the host executables of the file. *)
Definition validation_policy (b : PolicyBuilder) (v : PendingExampleValidation)
    : Policy AbsPath :=
  mkPolicy (foldl (λ m r, multi_insert (program r) r m) ∅ (pending_rules v)) []
    (b_host_executables b).

Definition validate_pending (b : PolicyBuilder) (v : PendingExampleValidation)
    : result Error unit :=
  let p := validation_policy b v in
  let attach := map_err (λ e, attach_validation_location e (pending_location v)) in
  _ ← attach (validate_not_match_examples p (pending_not_matches v));
  attach (validate_match_examples p (pending_rules v) (pending_matches v)).

Definition validate_pending_examples_from (b : PolicyBuilder) (start : nat) : result Error unit :=
  _ ← collect (validate_pending b) (drop start (pending_example_validations b)); Ok tt.

Definition build (b : PolicyBuilder) : Policy AbsPath :=
  mkPolicy (b_rules b) (b_network_rules b) (b_host_executables b).

(** ** The builtins *)
Definition prefix_rule (pattern : list Value) (decision : option rstring)
    (match_ not_match : option (list Value)) (justification : option rstring)
    (location : option ErrorLocation) (b : PolicyBuilder) : result Error PolicyBuilder :=
  decision ← match decision with Some raw => decision_parse raw | None => Ok Allow end;
  justification ← parse_justification justification;
  pattern_tokens ← parse_pattern pattern;
  matches ← parse_optional_examples match_;
  not_matches ← parse_optional_examples not_match;
  match pattern_tokens with
  | [] => Err (InvalidPattern (str "pattern cannot be empty"))
  | first_token :: rest =>
      let rules := map (λ head, mkRule (mkPattern head rest) decision justification)
                     (token_alternatives first_token) in
      let b := add_pending_example_validation (mkPending rules matches not_matches location) b in
      Ok (foldl add_rule b rules)
  end.

Definition network_rule (host protocol decision : rstring) (justification : option rstring)
    (b : PolicyBuilder) : result Error PolicyBuilder :=
  protocol ← protocol_parse protocol;
  decision ← parse_network_rule_decision decision;
  justification ← parse_justification justification;
  host ← normalize_network_rule_host host;
  Ok (builder_add_network_rule (mkNetworkRule host protocol decision justification) b).

Definition parse_host_path (name : rstring) (v : Value) : result Error AbsPath :=
  raw ← ok_or (unpack_str v)
          (InvalidRule (str "host_executable paths must be strings (got " ++ get_type v ++ str ")"));
  path ← parse_literal_absolute_path raw;
  let wrong := InvalidRule (str "host_executable path `" ++ raw ++ str "` must have basename `" ++
                            name ++ str "`") in
  match executable_path_lookup_key windows path with
  | None => Err wrong
  | Some path_name =>
      if negb (str_eqb path_name (executable_lookup_key windows name)) then Err wrong else Ok path
  end.

(** The loop over [paths.items], without duplicates. *)
Fixpoint parse_host_paths (name : rstring) (paths : list Value) (parsed : list AbsPath)
    : result Error (list AbsPath) :=
  match paths with
  | [] => Ok parsed
  | v :: paths' =>
      path ← parse_host_path name v;
      parse_host_paths name paths'
        (if existsb (λ existing, bool_decide (existing = path)) parsed then parsed
         else parsed ++ [path])
  end.

Definition host_executable (name : rstring) (paths : list Value) (b : PolicyBuilder)
    : result Error PolicyBuilder :=
  _ ← validate_host_executable_name name;
  parsed_paths ← parse_host_paths name paths [];
  Ok (add_host_executable (executable_lookup_key windows name) parsed_paths b).

Definition run_builtin (c : BuiltinCall) (b : PolicyBuilder) : result Error PolicyBuilder :=
  match c with
  | CallPrefixRule pattern d m nm j l => prefix_rule pattern d m nm j l b
  | CallNetworkRule h p d j => network_rule h p d j b
  | CallHostExecutable name paths => host_executable name paths b
  end.

(** The calls of the program, up to the first builtin that fails; the builder is
    shared, so what was added before a failure stays. *)
Fixpoint run_builtins (calls : list BuiltinCall) (b : PolicyBuilder)
    : result Error unit * PolicyBuilder :=
  match calls with
  | [] => (Ok tt, b)
  | c :: calls' =>
      match run_builtin c b with
      | Ok b' => run_builtins calls' b'
      | Err e => (Err (Starlark (starlark_error e)), b)
      end
  end.

(** [PolicyParser::parse], on the builder of the parser. *)
Definition policy_parse (policy_identifier policy_file_contents : rstring) (b : PolicyBuilder)
    : result Error unit * PolicyBuilder :=
  let pending_validation_count := length (pending_example_validations b) in
  match starlark_run policy_identifier policy_file_contents with
  | Err m => (Err (Starlark m), b)
  | Ok (calls, failure) =>
      match run_builtins calls b with
      | (Err e, b') => (Err e, b')
      | (Ok _, b') =>
          match failure with
          | Some m => (Err (Starlark m), b')
          | None => (validate_pending_examples_from b' pending_validation_count, b')
          end
      end
  end.
End Parser.
Arguments PolicyBuilder : clear implicits.
