(* ===== verification/ExecParserSpec.v ===== *)
(** * Correctness of the policy parser

    Theorems about [ExecParser.v]: a policy file that parses has had its examples
    validated, and the examples hold of the policy that is built. *)

From stdpp Require Import base list numbers strings gmap.
From S2P Require Import Prelude ExecRule ExecPolicy ExecPolicySpec ExecParser.

#[local] Set Default Proof Using "Type*".
#[local] Arguments str : simpl never.
#[local] Arguments matches_for_command_with_options : simpl never.

Section Spec.
Context {AbsPath : Type} `{!AbsPathOps AbsPath} (windows : bool).
Implicit Types (p q : Policy AbsPath) (b : PolicyBuilder AbsPath) (cmd ex : list rstring).
Local Notation matches := (matches_for_command_with_options windows).

(** ** Policies with more rules match more *)

(** A rule that resolves the program of [cmd] through the host executables. *)
Definition host_match p cmd (r : PrefixRule) : Prop :=
  ∃ c args prog basename pre,
    cmd = c :: args ∧ abs_try_from c = Ok prog ∧
    executable_path_lookup_key windows prog = Some basename ∧
    r ∈ rules_of p basename ∧
    is_some_and (host_executables_by_name p !! basename)
      (λ paths, negb (existsb (λ path, bool_decide (path = prog)) paths)) = false ∧
    matches_prefix (pattern r) (basename :: args) = Some pre.

Lemma host_matches_not_nil p cmd :
  match_host_executable_rules windows p cmd ≠ [] ↔ ∃ r, host_match p cmd r.
Proof.
  unfold match_host_executable_rules, host_match. split.
  - destruct cmd as [|c args]; [done|]. destruct (abs_try_from c) as [prog|] eqn:Ea; [|done].
    destruct (executable_path_lookup_key windows prog) as [basename|] eqn:Ek; [|done].
    destruct (rules_by_program p !! basename) as [rules|] eqn:Er; [|done].
    destruct (is_some_and _ _) eqn:Eh; [done|].
    destruct (omap _ rules) as [|m ms] eqn:Eo; [done|]. intros _.
    assert (m ∈ omap (λ r, rule_matches (AbsPath := AbsPath) r (basename :: args)) rules) as Hm
      by (rewrite Eo; left).
    apply list_elem_of_omap in Hm as (r & Hr & Hm). unfold rule_matches in Hm.
    destruct (matches_prefix (pattern r) (basename :: args)) as [pre|] eqn:Ep; [|done].
    exists r, c, args, prog, basename, pre. split_and!; try done.
    unfold rules_of. by rewrite Er.
  - intros (r & c & args & prog & basename & pre & -> & -> & -> & Hr & Hh & Hp).
    unfold rules_of in Hr. destruct (rules_by_program p !! basename) as [rules|] eqn:Er;
      [|by apply elem_of_nil in Hr]. simpl in Hr. rewrite Hh. intros Hn%fmap_nil_inv.
    assert (PrefixRuleMatch pre (rule_decision r) None (justification r) ∈
      omap (λ r, rule_matches (AbsPath := AbsPath) r (basename :: args)) rules) as Hin.
    { apply list_elem_of_omap. exists r. split; [done|]. unfold rule_matches. by rewrite Hp. }
    rewrite Hn in Hin. by apply elem_of_nil in Hin.
Qed.

Lemma matches_not_nil p cmd options :
  matches p cmd None options ≠ [] ↔
  exact_matches p cmd ≠ [] ∨
  (resolve_host_executables options = true ∧ ∃ r, host_match p cmd r).
Proof.
  rewrite <- host_matches_not_nil. unfold matches_for_command_with_options.
  rewrite match_exact_rules_non_empty.
  destruct (exact_matches p cmd) as [|m ms]; simpl.
  - destruct (resolve_host_executables options); [|naive_solver].
    destruct (match_host_executable_rules windows p cmd); naive_solver.
  - naive_solver.
Qed.

Lemma matches_mono p q cmd options :
  (∀ k r, r ∈ rules_of p k → r ∈ rules_of q k) →
  host_executables_by_name p = host_executables_by_name q →
  matches p cmd None options ≠ [] → matches q cmd None options ≠ [].
Proof.
  intros Hr Hh. rewrite !matches_not_nil. intros [Hne|[Ho [r H]]].
  - left. destruct (exact_matches p cmd) as [|m ms] eqn:E; [done|].
    assert (m ∈ exact_matches p cmd) as Hm by (rewrite E; left).
    apply exact_match_prefix_rules in Hm as (r & prefix & Hin & Hp & ->).
    assert (PrefixRuleMatch prefix (rule_decision r) None (justification r) ∈ exact_matches q cmd)
      as Hq by (apply exact_match_prefix_rules; eauto 6).
    intros Hn. rewrite Hn in Hq. by apply elem_of_nil in Hq.
  - right. split; [done|]. exists r. destruct H as (c & args & prog & basename & pre & H).
    exists c, args, prog, basename, pre. rewrite <- Hh. naive_solver.
Qed.

(** ** The builder *)

(** Every rule whose examples are pending is in the builder. *)
Definition pending_included b : Prop :=
  ∀ v r, v ∈ pending_example_validations b → r ∈ pending_rules v →
    r ∈ rules_of (build b) (program r).

Lemma add_rules_effect rules b :
  pending_example_validations (foldl add_rule b rules) = pending_example_validations b ∧
  b_host_executables (foldl add_rule b rules) = b_host_executables b ∧
  (∀ k r, r ∈ rules_of (build b) k → r ∈ rules_of (build (foldl add_rule b rules)) k) ∧
  (∀ r, r ∈ rules → r ∈ rules_of (build (foldl add_rule b rules)) (program r)).
Proof.
  revert b. induction rules as [|r rules IH]; intros b; simpl.
  { split_and!; [done..|]. by intros r ?%elem_of_nil. }
  destruct (IH (add_rule b r)) as (Hp & Hh & Hmono & Hin).
  assert (∀ k r', r' ∈ rules_of (build (add_rule b r)) k ↔
    r' ∈ rules_of (build b) k ∨ (k = program r ∧ r' = r)) as Hadd.
  { intros k r'. unfold rules_of. simpl. rewrite multi_insert_lookup, elem_of_app.
    case_decide; [rewrite list_elem_of_singleton|rewrite elem_of_nil]; naive_solver. }
  split_and!; [by rewrite Hp|by rewrite Hh| |].
  - intros k r' Hr'. apply Hmono, Hadd. by left.
  - intros r' [->|Hr']%elem_of_cons; [|by apply Hin]. apply Hmono, Hadd. by right.
Qed.

Context (shlex_split : rstring → option (list rstring)).
Context (shlex_try_join : list rstring → option rstring).
Context (rule_debug : PrefixRule → rstring) (match_debug : RuleMatch AbsPath → rstring).
Context (starlark_run : rstring → rstring → result rstring (list BuiltinCall * option rstring)).
Context (starlark_error : Error → rstring).
Local Notation run_call := (run_builtin windows shlex_split).
Local Notation run := (run_builtins windows shlex_split starlark_error).
Local Notation parse := (policy_parse windows shlex_split shlex_try_join rule_debug match_debug
                           starlark_run starlark_error).

Lemma run_builtin_inv c b b' :
  run_call c b = Ok b' → pending_included b → pending_included b'.
Proof.
  unfold run_builtin. destruct c as [pat d m nm j l|h pr d j|name paths].
  - unfold prefix_rule.
    destruct (match d with Some raw => decision_parse raw | None => Ok Allow end) as [d'|]; [|done].
    simpl. destruct (parse_justification j) as [j'|]; [|done]. simpl.
    destruct (parse_pattern pat) as [tokens|]; [|done]. simpl.
    destruct (parse_optional_examples shlex_split m) as [ms|]; [|done]. simpl.
    destruct (parse_optional_examples shlex_split nm) as [nms|]; [|done]. simpl.
    destruct tokens as [|t rest]; [done|]. intros [= <-] Hb.
    set (rules := map _ (token_alternatives t)). set (v := mkPending rules ms nms l).
    destruct (add_rules_effect rules (add_pending_example_validation v b)) as (Hp & _ & Hmono & Hin).
    intros w r. rewrite Hp. simpl. rewrite elem_of_app, list_elem_of_singleton.
    intros [Hw| ->] Hr; [|by apply Hin]. apply Hmono. by apply (Hb w r).
  - unfold network_rule. destruct (protocol_parse pr); [|done]. simpl.
    destruct (parse_network_rule_decision d); [|done]. simpl.
    destruct (parse_justification j); [|done]. simpl.
    destruct (normalize_network_rule_host h); [|done]. intros [= <-] Hb. exact Hb.
  - unfold host_executable. destruct (validate_host_executable_name name); [|done]. simpl.
    destruct (parse_host_paths windows name paths []); [|done]. intros [= <-] Hb. exact Hb.
Qed.

Lemma run_builtins_inv calls b r b' :
  run calls b = (r, b') → pending_included b → pending_included b'.
Proof.
  revert b. induction calls as [|c calls IH]; intros b; simpl; [by intros [= <- <-]|].
  destruct (run_call c b) as [b1|e] eqn:E; [|by intros [= <- <-]].
  intros Hr Hb. by eapply IH, run_builtin_inv.
Qed.

Lemma validate_not_match_Ok p exs :
  validate_not_match_examples windows shlex_try_join match_debug p exs = Ok tt →
  ∀ ex, ex ∈ exs → matches p ex None example_options = [].
Proof.
  induction exs as [|e exs IH]; [by intros _ ex ?%elem_of_nil|]. simpl.
  destruct (matches p e None example_options) as [|m ms] eqn:E; simpl; [|done].
  intros H ex [->|Hex]%elem_of_cons; [done|by apply IH].
Qed.

Lemma validate_match_Ok p rules exs :
  validate_match_examples windows shlex_try_join rule_debug p rules exs = Ok tt →
  ∀ ex, ex ∈ exs → matches p ex None example_options ≠ [].
Proof.
  unfold validate_match_examples. destruct (is_empty _) eqn:E; [|done]. intros _ ex Hex Hn.
  assert (ex ∈ filter (λ ex, matches p ex None example_options = []) exs) as H
    by by apply list_elem_of_filter.
  destruct (filter _ exs); [by apply elem_of_nil in H|done].
Qed.

Lemma collect_Ok {E A B} (f : A → result E B) l bs a :
  collect f l = Ok bs → a ∈ l → ∃ y, f a = Ok y.
Proof.
  revert bs. induction l as [|x l IH]; intros bs; simpl; [by intros _ ?%elem_of_nil|].
  destruct (f x) as [y|] eqn:Ef; simpl; [|done]. destruct (collect f l) as [ys|]; [|done].
  intros _ [->|Hin]%elem_of_cons; [eauto|]. by apply (IH ys).
Qed.

Lemma map_err_Ok {E E' A} (f : E → E') (r : result E A) a : map_err f r = Ok a → r = Ok a.
Proof. destruct r; simpl; congruence. Qed.

Lemma validation_policy_included b v k r :
  pending_included b → v ∈ pending_example_validations b →
  r ∈ rules_of (validation_policy b v) k → r ∈ rules_of (build b) k.
Proof.
  intros Hb Hv Hr. assert (r ∈ pending_rules v ∧ k = program r) as [Hin ->]; [|by apply (Hb v)].
  clear Hb Hv. revert Hr. unfold rules_of, validation_policy. simpl.
  assert (∀ rules (m : rule_map), r ∈ default [] (foldl (λ m r, multi_insert (program r) r m) m rules !! k)
    → r ∈ default [] (m !! k) ∨ (r ∈ rules ∧ k = program r)) as H.
  { induction rules as [|x rules IH]; intros m; simpl; [by left|].
    intros [Hm|[? ?]]%IH; [|right; split; [by right|done]].
    rewrite multi_insert_lookup, elem_of_app in Hm. destruct Hm as [?|Hm]; [by left|].
    case_decide; [|by apply elem_of_nil in Hm]. apply list_elem_of_singleton in Hm as ->.
    right. split; [left|done]. }
  intros [Hr|?]%H; [|done]. rewrite lookup_empty in Hr. by apply elem_of_nil in Hr.
Qed.

(** after a policy file has been parsed, every example of each of its prefix
    rules that should match matches the policy that is built from the parser, and
    every example that should not match is matched by none of the rule's
    alternatives, with the host executables of the whole file. *)
Theorem parsed_examples_hold identifier contents b b' :
  pending_included b →
  parse identifier contents b = (Ok tt, b') →
  pending_included b' ∧
  ∀ v, v ∈ drop (length (pending_example_validations b)) (pending_example_validations b') →
    (∀ ex, ex ∈ pending_matches v → matches (build b') ex None example_options ≠ []) ∧
    (∀ ex, ex ∈ pending_not_matches v →
       matches (validation_policy b' v) ex None example_options = []).
Proof.
  intros Hb. unfold policy_parse. destruct (starlark_run identifier contents) as [[calls fl]|]; [|done].
  destruct (run calls b) as [[u|e] b1] eqn:Er; [|done]. destruct fl; [done|].
  intros [= Hval ->]. pose proof (run_builtins_inv _ _ _ _ Er Hb) as Hb'. split; [done|].
  intros v Hv. unfold validate_pending_examples_from in Hval.
  destruct (collect _ _) as [us|] eqn:Ec; [|done]. destruct (collect_Ok _ _ _ v Ec Hv) as [y Hy].
  unfold validate_pending in Hy.
  destruct (map_err _ (validate_not_match_examples _ _ _ _ _)) as [[]|] eqn:En; [|done].
  simpl in Hy. destruct y. apply map_err_Ok in En, Hy. split.
  - intros ex Hex.
    apply (matches_mono (validation_policy b' v) (build b')); [|done|by eapply validate_match_Ok].
    intros k r. apply validation_policy_included; [done|].
    rewrite <- (take_drop (length (pending_example_validations b)) (pending_example_validations b')).
    apply elem_of_app. by right.
  - by apply validate_not_match_Ok.
Qed.
End Spec.

(** ** Witness: a file with one rule and its examples *)
Definition demo_calls : list BuiltinCall :=
  [CallHostExecutable (str "git") [VStr (str "/usr/bin/git")];
   CallPrefixRule [VStr (str "git"); VList [VStr (str "status"); VStr (str "log")]]
     (Some (str "prompt"))
     (Some [VList [VStr (str "git"); VStr (str "log")];
            VList [VStr (str "/usr/bin/git"); VStr (str "status")]])
     (Some [VList [VStr (str "git"); VStr (str "push")];
            VList [VStr (str "/tmp/git"); VStr (str "status")]])
     None None].

Definition demo_parse : result Error unit * PolicyBuilder unix_path :=
  policy_parse false (λ _, None) (λ _, None) (λ _, []) (λ _, [])
    (λ _ _, Ok (demo_calls, None)) (λ _, []) [] [] new_builder.

Lemma parsed_examples_hold_witness :
  fst demo_parse = Ok tt ∧ length (pending_example_validations (snd demo_parse)) = 1 ∧
  pending_included (snd demo_parse) ∧
  ∀ v, v ∈ drop 0 (pending_example_validations (snd demo_parse)) →
    (∀ ex, ex ∈ pending_matches v →
       matches_for_command_with_options false (build (snd demo_parse)) ex None example_options ≠ []) ∧
    (∀ ex, ex ∈ pending_not_matches v →
       matches_for_command_with_options false (validation_policy (snd demo_parse) v) ex None
         example_options = []).
Proof.
  split; [vm_compute; reflexivity|]. split; [vm_compute; reflexivity|].
  apply (parsed_examples_hold false (λ _, None) (λ _, None) (λ _, []) (λ _, [])
    (λ _ _, Ok (demo_calls, None)) (λ _, []) [] [] new_builder (snd demo_parse)).
  - intros v r Hv. apply elem_of_nil in Hv. destruct Hv.
  - vm_compute. reflexivity.
Defined.
