(* ===== verification/ExecAmend.v ===== *)
(** * Amending a policy file

    Models [sofia-rs/execpolicy/src/amend.rs]: appending an allow rule or a
    network rule to a policy file under an advisory lock, without duplicates. *)

From stdpp Require Import base list numbers strings.
From S2P Require Import Prelude FileUpdate ExecRule ExecPolicy.

(** Errors; [path] and [dir] are the texts of the paths. *)
Inductive AmendError :=
| EmptyPrefix
| InvalidNetworkRule (m : rstring)
| MissingParent (path : rstring)
| CreatePolicyDir (dir : rstring) (source : io_error)
| SerializePrefix (source : rstring)
| SerializeNetworkRule (source : rstring)
| OpenPolicyFile (path : rstring) (source : io_error)
| WritePolicyFile (path : rstring) (source : io_error)
| LockPolicyFile (path : rstring) (source : io_error)
| SeekPolicyFile (path : rstring) (source : io_error)
| ReadPolicyFile (path : rstring) (source : io_error).

(** The operations of [std::fs] the code uses, on a disk [F]; [fs_open_append]
    is [OpenOptions::new().create(true).read(true).append(true).open(path)], and
    [fs_append] is [write_all] on that handle. *)
Class PolicyDisk (F : Type) := {
  path_parent : rstring → option rstring;
  fs_create_dir : F → rstring → result io_error unit * F;
  fs_open_append : F → rstring → result io_error unit * F;
  fs_lock : F → rstring → result io_error unit;
  fs_seek_start : F → rstring → result io_error unit;
  fs_read_to_string : F → rstring → result io_error rstring;
  fs_append : F → rstring → rstring → result io_error unit * F;
}.

(** [Display for Error], for the errors of the host normalisation. *)
Definition error_display (e : Error) : rstring :=
  match e with
  | InvalidDecision m => str "invalid decision: " ++ m
  | InvalidPattern m => str "invalid pattern element: " ++ m
  | InvalidExample m => str "invalid example: " ++ m
  | InvalidRule m => str "invalid rule: " ++ m
  | _ => []
  end.

Section Amend.
Context {F : Type} `{!PolicyDisk F}.

(** [serde_json::to_string] of a string. *)
Context (json_string : rstring → result rstring rstring).

Definition quoted (s : rstring) : rstring := [34%N] ++ s ++ [34%N].

Definition append_locked_line (policy_path line : rstring) (f : F) : result AmendError unit * F :=
  let '(opened, f) := fs_open_append f policy_path in
  match opened with
  | Err e => (Err (OpenPolicyFile policy_path e), f)
  | Ok _ =>
  match fs_lock f policy_path with
  | Err e => (Err (LockPolicyFile policy_path e), f)
  | Ok _ =>
  match fs_seek_start f policy_path with
  | Err e => (Err (SeekPolicyFile policy_path e), f)
  | Ok _ =>
  match fs_read_to_string f policy_path with
  | Err e => (Err (ReadPolicyFile policy_path e), f)
  | Ok contents =>
      if existsb (str_eqb line) (lines contents) then (Ok tt, f) else
      let '(newline, f) :=
        if negb (is_empty contents) && negb (ends_with [LF] contents)
        then fs_append f policy_path [LF] else (Ok tt, f) in
      match newline with
      | Err e => (Err (WritePolicyFile policy_path e), f)
      | Ok _ =>
          let '(written, f) := fs_append f policy_path (line ++ [LF]) in
          (map_err (WritePolicyFile policy_path) written, f)
      end
  end end end end.

Definition append_rule_line (policy_path rule : rstring) (f : F) : result AmendError unit * F :=
  match path_parent policy_path with
  | None => (Err (MissingParent policy_path), f)
  | Some dir =>
      let '(created, f) := fs_create_dir f dir in
      match created with
      | Ok _ => append_locked_line policy_path rule f
      | Err e =>
          if bool_decide (io_kind e = AlreadyExists) then append_locked_line policy_path rule f
          else (Err (CreatePolicyDir dir e), f)
      end
  end.

(** The line of an allow rule. *)
Definition prefix_rule_line (prefix : list rstring) : result AmendError rstring :=
  tokens ← map_err SerializePrefix (collect json_string prefix);
  Ok (str "prefix_rule(pattern=[" ++ join (str ", ") tokens ++ str "], decision=" ++
      quoted (str "allow") ++ str ")").

Definition blocking_append_allow_prefix_rule (policy_path : rstring) (prefix : list rstring) (f : F)
    : result AmendError unit * F :=
  if is_empty prefix then (Err EmptyPrefix, f) else
  match prefix_rule_line prefix with
  | Err e => (Err e, f)
  | Ok rule => append_rule_line policy_path rule f
  end.

Definition amend_decision (d : Decision) : rstring :=
  match d with Allow => str "allow" | Prompt => str "prompt" | Forbidden => str "deny" end.

(** The line of a network rule. *)
Definition network_rule_line (host : rstring) (protocol : NetworkRuleProtocol) (d : Decision)
    (justification : option rstring) : result AmendError rstring :=
  host ← map_err (λ e, InvalidNetworkRule (error_display e)) (normalize_network_rule_host host);
  if justification_empty justification
  then Err (InvalidNetworkRule (str "justification cannot be empty")) else
  let json := λ s, map_err SerializeNetworkRule (json_string s) in
  host ← json host;
  protocol ← json (as_policy_string protocol);
  decision ← json (amend_decision d);
  let args := [str "host=" ++ host; str "protocol=" ++ protocol; str "decision=" ++ decision] in
  args ← match justification with
         | None => Ok args
         | Some j => j ← json j; Ok (args ++ [str "justification=" ++ j])
         end;
  Ok (str "network_rule(" ++ join (str ", ") args ++ str ")").

Definition blocking_append_network_rule (policy_path host : rstring)
    (protocol : NetworkRuleProtocol) (d : Decision) (justification : option rstring) (f : F)
    : result AmendError unit * F :=
  match network_rule_line host protocol d justification with
  | Err e => (Err e, f)
  | Ok rule => append_rule_line policy_path rule f
  end.
End Amend.

(** * Correctness of amending a policy file

    An amendment adds its line once and keeps the rest of the file, and a network
    rule that was added in memory and appended to the file is read back as the
    same rule. *)

From stdpp Require Import base list numbers strings gmap.
From S2P Require Import Prelude FileUpdate ExecRule ExecPolicy ExecPolicySpec ExecParser.

#[local] Set Default Proof Using "Type*".
#[local] Arguments str : simpl never.

(** ** The text of an amended file *)

(** The text with its last line terminated. *)
Definition terminated (s : rstring) : rstring :=
  if is_empty s || ends_with [LF] s then s else s ++ [LF].

Lemma terminated_end s : terminated s = [] ∨ last (terminated s) = Some LF.
Proof.
  unfold terminated. destruct s as [|c s]; [by left|]. right. simpl.
  destruct (ends_with [LF] (c :: s)) eqn:E.
  - apply ends_with_true in E as [t ->]. apply last_snoc.
  - change (c :: s ++ [LF]) with ((c :: s) ++ [LF]). apply last_snoc.
Qed.

(** The text after an amendment. *)
Definition amended (old line : rstring) : rstring :=
  if bool_decide (line ∈ lines old) then old else terminated old ++ line ++ [LF].

Lemma existsb_str_eqb l ls : existsb (str_eqb l) ls = bool_decide (l ∈ ls).
Proof.
  apply eq_bool_prop_intro. rewrite bool_decide_spec, Is_true_true, existsb_exists.
  setoid_rewrite <- list_elem_of_In. unfold str_eqb.
  split; [intros (x & ? & ?); breflect; by subst|]. intros H. exists l.
  split; [done|]. by apply bool_decide_eq_true.
Qed.

Lemma amended_lines old line :
  plain_line line → line ∉ lines old →
  lines (amended old line) = lines (terminated old) ++ [line].
Proof.
  intros Hp Hn. unfold amended. rewrite bool_decide_false by done.
  apply lines_append_line; [apply terminated_end|done].
Qed.

Lemma amended_in old line : plain_line line → line ∈ lines (amended old line).
Proof.
  intros Hp. destruct (decide (line ∈ lines old)) as [Hin|Hn].
  - unfold amended. by rewrite bool_decide_true.
  - rewrite amended_lines by done. set_solver.
Qed.

Lemma amended_prefix old line : old `prefix_of` amended old line.
Proof.
  unfold amended, terminated. case_bool_decide; [done|].
  destruct (_ || _); [by apply prefix_app_r|]. rewrite <- app_assoc. by apply prefix_app_r.
Qed.

Lemma join_no_lf sep ls : LF ∉ sep → Forall (λ l, LF ∉ l) ls → LF ∉ join sep ls.
Proof.
  intros Hs H. induction H as [|l ls Hl Hls IH]; [apply not_elem_of_nil|].
  destruct ls as [|x xs]; [done|]. rewrite join_cons by done. set_solver.
Qed.

(** ** What the code relies on of a disk *)
Section Disk.
Context {F : Type} `{!PolicyDisk F}.

Definition text_of (f : F) (p : rstring) : option rstring := result_ok (fs_read_to_string f p).

(** Opening for append creates a missing file empty and changes no text, an
    append adds its data at the end of the file and nothing else, creating a
    directory changes no text. *)
Class PolicyDiskLaws := {
  law_create_dir f d r f' q : fs_create_dir f d = (r, f') → text_of f' q = text_of f q;
  law_open f p f' t :
    fs_open_append f p = (Ok tt, f') → text_of f' p = Some t → t = default [] (text_of f p);
  law_open_other f p r f' q : fs_open_append f p = (r, f') → q ≠ p → text_of f' q = text_of f q;
  law_append f p d f' t :
    fs_append f p d = (Ok tt, f') → text_of f p = Some t → text_of f' p = Some (t ++ d);
  law_append_other f p d r f' q : fs_append f p d = (r, f') → q ≠ p → text_of f' q = text_of f q;
}.

Context `{Laws : !PolicyDiskLaws}.

Lemma append_locked_line_spec path line f f' :
  append_locked_line path line f = (Ok tt, f') →
  text_of f' path = Some (amended (default [] (text_of f path)) line) ∧
  ∀ q, q ≠ path → text_of f' q = text_of f q.
Proof.
  unfold append_locked_line. destruct (fs_open_append f path) as [[[]|] f1] eqn:E1; [|done].
  destruct (fs_lock f1 path); [|done]. destruct (fs_seek_start f1 path); [|done].
  destruct (fs_read_to_string f1 path) as [old|] eqn:Er; [|done].
  assert (text_of f1 path = Some old) as Ht by (unfold text_of; by rewrite Er).
  assert (default [] (text_of f path) = old) as -> by (symmetry; by eapply law_open).
  assert (∀ q, q ≠ path → text_of f1 q = text_of f q) as Ho by (intros q; by eapply law_open_other).
  rewrite existsb_str_eqb. unfold amended. case_bool_decide as Hin; [by intros [= <-]|].
  assert (∃ r f2, (if negb (is_empty old) && negb (ends_with [LF] old)
    then fs_append f1 path [LF] else (Ok tt, f1)) = (r, f2) ∧
    (r = Ok tt → text_of f2 path = Some (terminated old)) ∧
    ∀ q, q ≠ path → text_of f2 q = text_of f1 q) as (r & f2 & -> & Ht2 & Ho2).
  { unfold terminated. rewrite <- negb_orb. destruct (is_empty old || ends_with [LF] old); simpl.
    - by exists (Ok tt), f1.
    - destruct (fs_append f1 path [LF]) as [r f2] eqn:E2. exists r, f2. split; [done|]. split.
      + intros ->. by eapply law_append.
      + intros q. by eapply law_append_other. }
  destruct r as [[]|]; [|done]. specialize (Ht2 eq_refl).
  destruct (fs_append f2 path (line ++ [LF])) as [[[]|] f3] eqn:E3; [|done].
  intros [= <-]. split; [by eapply law_append|].
  intros q Hq. rewrite (law_append_other _ _ _ _ _ _ E3 Hq). by rewrite Ho2, Ho.
Qed.

Lemma append_rule_line_spec path line f f' :
  append_rule_line path line f = (Ok tt, f') →
  text_of f' path = Some (amended (default [] (text_of f path)) line) ∧
  ∀ q, q ≠ path → text_of f' q = text_of f q.
Proof.
  unfold append_rule_line. destruct (path_parent path) as [dir|]; [|done].
  destruct (fs_create_dir f dir) as [r f1] eqn:E.
  assert (∀ q, text_of f1 q = text_of f q) as Hq by (intros q; by eapply law_create_dir).
  destruct r as [u|e].
  - intros [H Ho]%append_locked_line_spec. rewrite Hq in H. split; [done|].
    intros q Hne. by rewrite Ho, Hq.
  - case_bool_decide; [|done].
    intros [Hl Ho]%append_locked_line_spec. rewrite Hq in Hl. split; [done|].
    intros q Hne. by rewrite Ho, Hq.
Qed.

(** ** The lines *)
Context (json_string : rstring → result rstring rstring).

(** JSON text escapes control characters. *)
Context (json_no_newline : ∀ s t, json_string s = Ok t → LF ∉ t).

Lemma collect_no_lf l ts : collect json_string l = Ok ts → Forall (λ t, LF ∉ t) ts.
Proof.
  revert ts. induction l as [|s l IH]; intros ts; simpl; [by intros [= <-]|].
  destruct (json_string s) as [t|] eqn:E; [|done]. simpl.
  destruct (collect json_string l) as [ts'|]; [|done]. simpl. intros [= <-].
  constructor; [by eapply json_no_newline|by apply IH].
Qed.

Lemma ok_inj {E A} (a b : A) : (Ok a : result E A) = Ok b → a = b.
Proof. congruence. Qed.

(** Splits [LF ∉ a ++ b] down to literals, which evaluate. *)
Ltac no_lf :=
  repeat match goal with |- LF ∉ _ ++ _ => apply not_elem_of_app; split end;
  try (apply (bool_decide_unpack _); vm_compute; exact I).

Lemma prefix_rule_line_plain prefix line :
  prefix_rule_line json_string prefix = Ok line → plain_line line.
Proof.
  unfold prefix_rule_line. destruct (collect json_string prefix) as [ts|] eqn:E; [|done].
  cbn [map_err mbind result_bind]. intros <-%ok_inj. apply collect_no_lf in E. split.
  - no_lf. apply join_no_lf; [|done]. no_lf.
  - rewrite !app_assoc, last_app. done.
Qed.

Lemma network_rule_line_plain host protocol d j line :
  network_rule_line json_string host protocol d j = Ok line → plain_line line.
Proof.
  unfold network_rule_line.
  destruct (normalize_network_rule_host host) as [h|]; [|done]. cbn [map_err mbind result_bind].
  destruct (justification_empty j); [done|].
  destruct (json_string h) as [h'|] eqn:Eh; [|done]. cbn [map_err mbind result_bind].
  destruct (json_string (as_policy_string protocol)) as [p'|] eqn:Ep; [|done].
  cbn [map_err mbind result_bind].
  destruct (json_string (amend_decision d)) as [d'|] eqn:Ed; [|done]. cbn [map_err mbind result_bind].
  apply json_no_newline in Eh, Ep, Ed.
  set (args := [str "host=" ++ h'; str "protocol=" ++ p'; str "decision=" ++ d']).
  assert (Forall (λ l, LF ∉ l) args) as Ha by (repeat constructor; no_lf; done).
  assert (∀ args', Forall (λ l, LF ∉ l) args' →
    plain_line (str "network_rule(" ++ join (str ", ") args' ++ str ")")) as Hl.
  { intros args' Hf. split.
    - no_lf. apply join_no_lf; [|done]. no_lf.
    - rewrite !app_assoc, last_app. done. }
  destruct j as [j|]; cbn [mbind result_bind].
  - destruct (json_string j) as [j'|] eqn:Ej; [|done]. cbn [map_err mbind result_bind].
    intros <-%ok_inj. apply Hl, Forall_app. split; [done|]. apply Forall_singleton.
    no_lf. by eapply json_no_newline.
  - intros <-%ok_inj. by apply Hl.
Qed.

(** ** Properties *)

(** An amendment of a policy file and the line it writes. *)
Definition amends (path : rstring) (f f' : F) (line : rstring) : Prop :=
  (∃ prefix, blocking_append_allow_prefix_rule json_string path prefix f = (Ok tt, f') ∧
     prefix_rule_line json_string prefix = Ok line) ∨
  (∃ host protocol d j,
     blocking_append_network_rule json_string path host protocol d j f = (Ok tt, f') ∧
     network_rule_line json_string host protocol d j = Ok line).

Lemma amends_spec path f f' line :
  amends path f f' line →
  plain_line line ∧ text_of f' path = Some (amended (default [] (text_of f path)) line) ∧
  ∀ q, q ≠ path → text_of f' q = text_of f q.
Proof.
  intros [(prefix & Ha & Hl)|(host & protocol & d & j & Ha & Hl)].
  - unfold blocking_append_allow_prefix_rule in Ha. destruct (is_empty prefix); [done|].
    rewrite Hl in Ha. split; [by eapply prefix_rule_line_plain|]. by apply append_rule_line_spec.
  - unfold blocking_append_network_rule in Ha. rewrite Hl in Ha.
    split; [by eapply network_rule_line_plain|]. by apply append_rule_line_spec.
Qed.

(** amending a policy file adds the line of the rule once: a line that is
    already there leaves the file as it is, a new one is added after the existing
    lines (of which only the last may get its missing terminator); the old text is
    kept as a prefix, other files are untouched, and repeating the amendment
    changes nothing. *)
Theorem amend_adds_line_once path f f' line :
  amends path f f' line →
  let old := default [] (text_of f path) in
  ∃ new, text_of f' path = Some new ∧ old `prefix_of` new ∧ line ∈ lines new ∧
    (line ∈ lines old → new = old) ∧
    (line ∉ lines old → lines new = lines (terminated old) ++ [line]) ∧
    (∀ q, q ≠ path → text_of f' q = text_of f q) ∧
    (∀ f'', amends path f' f'' line → text_of f'' path = Some new).
Proof.
  intros Ha old. apply amends_spec in Ha as (Hp & Ht & Ho). exists (amended old line).
  split_and!; [done|apply amended_prefix|by apply amended_in| |by apply amended_lines|done|].
  - intros Hin. unfold amended. by rewrite bool_decide_true.
  - intros f'' Ha. apply amends_spec in Ha as (_ & Ht' & _). rewrite Ht', Ht. simpl. f_equal.
    unfold amended at 1. by rewrite bool_decide_true by by apply amended_in.
Qed.
End Disk.

(** ** Reading an amended network rule back *)
Lemma protocol_parse_print p : protocol_parse (as_policy_string p) = Ok p.
Proof. by destruct p; vm_compute. Qed.

Lemma decision_parse_print d : parse_network_rule_decision (amend_decision d) = Ok d.
Proof. by destruct d; vm_compute. Qed.

(** a network rule whose normalised host carries no port or bracket and does
    not end in a dot means the same in memory and in the file: evaluating the line
    an amendment writes adds exactly the rule that [add_network_rule] adds. *)
Theorem amended_network_rule_reloads {AbsPath : Type} `{!AbsPathOps AbsPath}
    (raw h : rstring) protocol d j (p p' : Policy AbsPath) (b : PolicyBuilder AbsPath) :
  normalize_network_rule_host raw = Ok h → strip_port h h = Ok h → last h ≠ Some DOT →
  add_network_rule raw protocol d j p = Ok p' →
  ∃ r b', network_rules p' = network_rules p ++ [r] ∧
    network_rule h (as_policy_string protocol) (amend_decision d) j b = Ok b' ∧
    b_network_rules b' = b_network_rules b ++ [r].
Proof.
  intros Hn Hs Hd. unfold add_network_rule. rewrite Hn. simpl.
  destruct (justification_empty j) eqn:Ej; [done|]. intros [= <-]. simpl.
  apply normalize_host_chars in Hn as [Hne Hc].
  exists (mkNetworkRule h protocol d j). eexists. split; [done|].
  unfold network_rule, parse_justification.
  rewrite protocol_parse_print, decision_parse_print, Ej, (normalize_host_fixed h) by done.
  done.
Qed.

(** the condition on the host is needed: a trailing dot hides a port from the
    first normalisation and not from the second, so the rule that is added in
    memory is for another host than the one read back from the amended file. *)
Theorem network_rule_host_drift :
  normalize_network_rule_host (str "example.com:443.") = Ok (str "example.com:443") ∧
  normalize_network_rule_host (str "example.com:443") = Ok (str "example.com").
Proof. split; vm_compute; reflexivity. Qed.

(** ** Witnesses: a disk with one file per path *)
#[global] Instance map_disk : PolicyDisk (gmap rstring rstring) := {|
  path_parent p := fst <$> rsplit_once 47 p;
  fs_create_dir f _ := (Err (mkIoError AlreadyExists (str "File exists")), f);
  fs_open_append f p := (Ok tt, if decide (is_Some (f !! p)) then f else <[p:=[]]> f);
  fs_lock _ _ := Ok tt;
  fs_seek_start _ _ := Ok tt;
  fs_read_to_string f p := ok_or (f !! p) (mkIoError NotFound (str "No such file"));
  fs_append f p d := (Ok tt, <[p := default [] (f !! p) ++ d]> f);
|}.

Lemma map_disk_text (f : gmap rstring rstring) p : text_of f p = f !! p.
Proof. unfold text_of. simpl. by destruct (f !! p). Qed.

#[global] Instance map_disk_laws : PolicyDiskLaws (F := gmap rstring rstring).
Proof.
  split; intros; rewrite ?map_disk_text in *; simpl in *; simplify_eq/=; try done.
  - case_decide as Hs; [by simplify_option_eq|]. simplify_map_eq.
    apply eq_None_not_Some in Hs. by rewrite Hs.
  - case_decide; [done|]. by simplify_map_eq.
  - by simplify_map_eq.
  - by simplify_map_eq.
Qed.

(** A JSON writer for strings without special characters. *)
Definition plain_json (s : rstring) : result rstring rstring :=
  if existsb (λ c, (c <? 32)%N || (c =? 34)%N || (c =? 92)%N) s then Err (str "escape needed")
  else Ok ([34%N] ++ s ++ [34%N]).

Lemma plain_json_no_newline s t : plain_json s = Ok t → LF ∉ t.
Proof.
  unfold plain_json. destruct (existsb _ s) eqn:E; [done|]. intros <-%ok_inj Hin.
  rewrite !elem_of_app, !list_elem_of_singleton in Hin. destruct Hin as [H|[H|H]]; [done| |done].
  rewrite <- not_true_iff_false, existsb_exists in E. apply E. exists LF.
  split; [by apply list_elem_of_In|done].
Qed.

Definition demo_path : rstring := str "/rules/default.rules".
Definition demo_disk : gmap rstring rstring :=
  {[ demo_path := str "prefix_rule(pattern=[], decision=)" ]}.
Definition demo_disk' : gmap rstring rstring :=
  snd (blocking_append_allow_prefix_rule plain_json demo_path [str "git"; str "status"] demo_disk).
Definition demo_line : rstring :=
  default [] (result_ok (prefix_rule_line plain_json [str "git"; str "status"])).

Lemma amend_adds_line_once_witness :
  let old := default [] (text_of demo_disk demo_path) in
  ∃ new, text_of demo_disk' demo_path = Some new ∧ old `prefix_of` new ∧ demo_line ∈ lines new ∧
    (demo_line ∈ lines old → new = old) ∧
    (demo_line ∉ lines old → lines new = lines (terminated old) ++ [demo_line]) ∧
    (∀ q, q ≠ demo_path → text_of demo_disk' q = text_of demo_disk q) ∧
    (∀ f'', amends plain_json demo_path demo_disk' f'' demo_line →
       text_of f'' demo_path = Some new).
Proof.
  apply (amend_adds_line_once plain_json plain_json_no_newline demo_path demo_disk demo_disk'
           demo_line).
  left. exists [str "git"; str "status"]. split; vm_compute; reflexivity.
Defined.

Lemma amended_network_rule_reloads_witness :
  ∃ p' r b',
    add_network_rule (str "API.example.com:443") Https Forbidden None
      (empty_policy : Policy unix_path) = Ok p' ∧
    network_rules p' = [] ++ [r] ∧
    network_rule (str "api.example.com") (as_policy_string Https) (amend_decision Forbidden) None
      (new_builder : PolicyBuilder unix_path) = Ok b' ∧
    b_network_rules b' = [] ++ [r].
Proof.
  destruct (add_network_rule (str "API.example.com:443") Https Forbidden None
    (empty_policy : Policy unix_path)) as [p'|] eqn:E; [|vm_compute in E; discriminate].
  destruct (amended_network_rule_reloads (str "API.example.com:443") (str "api.example.com")
    Https Forbidden None empty_policy p' new_builder) as (r & b' & H1 & H2 & H3).
  - vm_compute. reflexivity.
  - vm_compute. reflexivity.
  - vm_compute. discriminate.
  - exact E.
  - exists p', r, b'. split; [reflexivity|]. split; [exact H1|]. split; [exact H2|exact H3].
Defined.
