(* ===== verification/StreamInline.v ===== *)
(** * Streaming parser for hidden inline tags

    Models [sofia-rs/utils/stream-parser/src/stream_text.rs],
    [inline_hidden_tag.rs] and [citation.rs].  Offsets are counted in characters:
    the code only uses byte offsets of character boundaries of the same buffer, so
    the order and the slices are the same; the one comparison of byte lengths of
    different delimiters uses [str_len]. *)

From stdpp Require Import base list numbers strings.
From S2P Require Import Prelude.

(** ** [stream_text.rs] *)
Record StreamTextChunk (T : Type) := mkStreamChunk { visible_text : rstring; extracted : list T }.
Arguments mkStreamChunk {T} _ _.
Arguments visible_text {T} _.
Arguments extracted {T} _.

Definition empty_chunk {T} : StreamTextChunk T := mkStreamChunk [] [].
Definition stream_chunk_is_empty {T} (c : StreamTextChunk T) : bool :=
  is_empty (visible_text c) && is_empty (extracted c).

(** What a consumer accumulates from two chunks. *)
Definition chunk_app {T} (a b : StreamTextChunk T) : StreamTextChunk T :=
  mkStreamChunk (visible_text a ++ visible_text b) (extracted a ++ extracted b).

(** The trait, on parser states [P]. *)
Class StreamTextParser (P T : Type) := {
  push_str : P → rstring → StreamTextChunk T * P;
  stream_finish : P → StreamTextChunk T * P;
}.

(** ** [inline_hidden_tag.rs] *)
Section Inline.
Context {T : Type}.

Record ExtractedInlineTag := mkExtracted { ext_tag : T; ext_content : rstring }.
Record InlineTagSpec := mkInlineSpec {
  inline_tag : T; inline_open : rstring; inline_close : rstring }.
Record ActiveTag := mkActive {
  active_inline_tag : T; active_close : rstring; active_content : rstring }.

Record InlineHiddenTagParser := mkInline {
  inline_specs : list InlineTagSpec;
  pending : rstring;
  active : option ActiveTag;
}.

(** [new]: [None] is a failed assertion. *)
Definition new_inline (specs : list InlineTagSpec) : option InlineHiddenTagParser :=
  if negb (is_empty specs) &&
     forallb (λ s, negb (is_empty (inline_open s)) && negb (is_empty (inline_close s))) specs
  then Some (mkInline specs [] None) else None.

(** [longest_suffix_prefix_len]: [for k in (1..=max).rev()], [0] when none fits. *)
Fixpoint lsp_from (k : nat) (s needle : rstring) : nat :=
  match k with
  | 0 => 0
  | S k' => if ends_with (take k needle) s then k else lsp_from k' s needle
  end.
Definition longest_suffix_prefix_len (s needle : rstring) : nat :=
  lsp_from (length s `min` (length needle - 1)) s needle.

(** A candidate of [find_next_open]: position, byte length of the opener, index. *)
Definition open_lt (a b : nat * N * nat) : bool :=
  let '(pos_a, len_a, idx_a) := a in
  let '(pos_b, len_b, idx_b) := b in
  (pos_a <? pos_b) ||
  ((pos_a =? pos_b) && ((len_b <? len_a)%N || ((len_b =? len_a)%N && (idx_a <? idx_b)))).

(** [min_by]: the first of the least candidates. *)
Fixpoint min_open (best : nat * N * nat) (l : list (nat * N * nat)) : nat * N * nat :=
  match l with
  | [] => best
  | c :: l' => min_open (if open_lt c best then c else best) l'
  end.

Definition open_candidates (specs : list InlineTagSpec) (s : rstring) : list (nat * N * nat) :=
  omap (λ p, pos ← find_sub (inline_open (snd p)) s;
             Some (pos, str_len (inline_open (snd p)), fst p))
    (imap (λ i spec, (i, spec)) specs).

Definition find_next_open (p : InlineHiddenTagParser) : option (nat * nat) :=
  match open_candidates (inline_specs p) (pending p) with
  | [] => None
  | c :: l => let '(pos, _, idx) := min_open c l in Some (pos, idx)
  end.

Definition max_open_prefix_suffix_len (p : InlineHiddenTagParser) : nat :=
  foldr Nat.max 0
    (map (λ spec, longest_suffix_prefix_len (pending p) (inline_open spec)) (inline_specs p)).

(** One iteration of the loop of [push_str]: the parser, what it emits, and
    whether to continue. *)
Definition push_step (p : InlineHiddenTagParser)
    : InlineHiddenTagParser * StreamTextChunk ExtractedInlineTag * bool :=
  match active p with
  | Some a =>
      match find_sub (active_close a) (pending p) with
      | Some close_idx =>
          (mkInline (inline_specs p) (drop (close_idx + length (active_close a)) (pending p)) None,
           mkStreamChunk []
             [mkExtracted (active_inline_tag a) (active_content a ++ take close_idx (pending p))],
           true)
      | None =>
          let keep := longest_suffix_prefix_len (pending p) (active_close a) in
          let n := length (pending p) - keep in
          (mkInline (inline_specs p) (drop n (pending p))
             (Some (mkActive (active_inline_tag a) (active_close a)
                      (active_content a ++ take n (pending p)))),
           empty_chunk, false)
      end
  | None =>
      match find_next_open p with
      | Some (open_idx, spec_idx) =>
          match inline_specs p !! spec_idx with
          | Some spec =>
              (mkInline (inline_specs p)
                 (drop (open_idx + length (inline_open spec)) (pending p))
                 (Some (mkActive (inline_tag spec) (inline_close spec) [])),
               mkStreamChunk (take open_idx (pending p)) [], true)
          | None => (p, empty_chunk, false)
          end
      | None =>
          let n := length (pending p) - max_open_prefix_suffix_len p in
          (mkInline (inline_specs p) (drop n (pending p)) None,
           mkStreamChunk (take n (pending p)) [], false)
      end
  end.

(** The loop; every iteration that continues removes a delimiter from [pending],
    so its length bounds the iterations. *)
Fixpoint push_loop (fuel : nat) (p : InlineHiddenTagParser)
    : StreamTextChunk ExtractedInlineTag * InlineHiddenTagParser :=
  match fuel with
  | 0 => (empty_chunk, p)
  | S fuel' =>
      let '(p', out, continue) := push_step p in
      if continue then
        let '(out', p'') := push_loop fuel' p' in (chunk_app out out', p'')
      else (out, p')
  end.

Definition inline_push_str (p : InlineHiddenTagParser) (chunk : rstring)
    : StreamTextChunk ExtractedInlineTag * InlineHiddenTagParser :=
  let p := mkInline (inline_specs p) (pending p ++ chunk) (active p) in
  push_loop (S (length (pending p))) p.

Definition inline_finish (p : InlineHiddenTagParser)
    : StreamTextChunk ExtractedInlineTag * InlineHiddenTagParser :=
  match active p with
  | Some a =>
      (mkStreamChunk [] [mkExtracted (active_inline_tag a) (active_content a ++ pending p)],
       mkInline (inline_specs p) [] None)
  | None => (mkStreamChunk (pending p) [], mkInline (inline_specs p) [] None)
  end.
End Inline.
Arguments ExtractedInlineTag : clear implicits.
Arguments InlineTagSpec : clear implicits.
Arguments ActiveTag : clear implicits.
Arguments InlineHiddenTagParser : clear implicits.

#[global] Instance inline_stream T : StreamTextParser (InlineHiddenTagParser T) (ExtractedInlineTag T) :=
  {| push_str := inline_push_str; stream_finish := inline_finish |}.

(** ** [citation.rs] *)
Inductive CitationTag := Citation.
Definition CITATION_OPEN := str "<oai-mem-citation>".
Definition CITATION_CLOSE := str "</oai-mem-citation>".

Record CitationStreamParser := mkCitation { citation_inner : InlineHiddenTagParser CitationTag }.

Definition citation_spec : InlineTagSpec CitationTag :=
  mkInlineSpec Citation CITATION_OPEN CITATION_CLOSE.
Definition new_citation : CitationStreamParser := mkCitation (mkInline [citation_spec] [] None).

Definition citation_chunk (c : StreamTextChunk (ExtractedInlineTag CitationTag))
    : StreamTextChunk rstring :=
  mkStreamChunk (visible_text c) (map ext_content (extracted c)).

#[global] Instance citation_stream : StreamTextParser CitationStreamParser rstring :=
  {| push_str p chunk := let '(out, inner) := push_str (citation_inner p) chunk in
                         (citation_chunk out, mkCitation inner);
     stream_finish p := let '(out, inner) := stream_finish (citation_inner p) in
                 (citation_chunk out, mkCitation inner) |}.

Definition strip_citations (text : rstring) : rstring * list rstring :=
  let '(out, p) := push_str new_citation text in
  let '(tail, _) := stream_finish p in
  (visible_text out ++ visible_text tail, extracted out ++ extracted tail).

(** * Correctness of the hidden tag parser

    With one tag, as the citation parser uses it, the streaming parser computes the
    batch meaning of the whole text however the text is cut into chunks. *)

From stdpp Require Import base list numbers strings.
From S2P Require Import Prelude.

#[local] Set Default Proof Using "Type*".
#[local] Arguments str : simpl never.

(** ** Occurrences of a delimiter *)
Definition occ (d s : rstring) (i : nat) : Prop := ∃ u, drop i s = d ++ u.

Lemma starts_with_occ d s i : starts_with d (drop i s) = true ↔ occ d s i.
Proof. apply starts_with_true. Qed.

Lemma occ_length d s i : d ≠ [] → occ d s i → i + length d ≤ length s.
Proof.
  intros Hd [u Hu]. apply (f_equal length) in Hu. rewrite length_drop, length_app in Hu.
  destruct d; [done|]. simpl in *. lia.
Qed.

Lemma find_sub_Some_occ d s i : find_sub d s = Some i → occ d s i ∧ ∀ j, j < i → ¬ occ d s j.
Proof.
  revert i. induction s as [|c s IH]; intros i; cbn [find_sub].
  - destruct (starts_with d []) eqn:E; [|done]. intros [= <-].
    split; [by apply (starts_with_occ d [] 0)|lia].
  - destruct (starts_with d (c :: s)) eqn:E.
    + intros [= <-]. split; [by apply (starts_with_occ d (c :: s) 0)|lia].
    + destruct (find_sub d s) as [k|]; [|done]. intros [= <-].
      destruct (IH k eq_refl) as [Hk Hlt]. split; [exact Hk|].
      intros [|j] Hj.
      * rewrite <- starts_with_occ. simpl. by rewrite E.
      * apply (Hlt j). lia.
Qed.

Lemma find_sub_None_occ d s i : find_sub d s = None → ¬ occ d s i.
Proof.
  revert i. induction s as [|c s IH]; intros i; cbn [find_sub].
  - destruct (starts_with d []) eqn:E; [done|]. intros _.
    rewrite <- starts_with_occ, drop_nil. by rewrite E.
  - destruct (starts_with d (c :: s)) eqn:E; [done|].
    destruct (find_sub d s); [done|]. intros _. destruct i as [|i].
    + rewrite <- starts_with_occ. simpl. by rewrite E.
    + by apply IH.
Qed.

Lemma find_sub_unique d s i :
  occ d s i → (∀ j, j < i → ¬ occ d s j) → find_sub d s = Some i.
Proof.
  intros Hi Hlt. destruct (find_sub d s) as [k|] eqn:E.
  - apply find_sub_Some_occ in E as [Hk Hklt]. f_equal.
    destruct (Nat.lt_trichotomy k i) as [H|[H|H]]; [|done|].
    + by destruct (Hlt k H).
    + by destruct (Hklt i H).
  - by destruct (find_sub_None_occ d s i E).
Qed.

Lemma occ_app d s t i : d ≠ [] → occ d s i → occ d (s ++ t) i.
Proof.
  intros Hd Hi. pose proof (occ_length d s i Hd Hi). destruct Hi as [u Hu].
  exists (u ++ t). rewrite drop_app_le by lia. by rewrite Hu, app_assoc.
Qed.

Lemma occ_app_inv d s t i : i + length d ≤ length s → occ d (s ++ t) i → occ d s i.
Proof.
  intros Hle [u Hu]. rewrite drop_app_le in Hu by lia.
  exists (drop (length d) (drop i s)).
  rewrite <- (take_drop (length d) (drop i s)) at 1. f_equal.
  apply (f_equal (take (length d))) in Hu.
  rewrite take_app_le in Hu by (rewrite length_drop; lia). by rewrite take_app_length in Hu.
Qed.

Lemma find_sub_app d s t i :
  d ≠ [] → find_sub d s = Some i → find_sub d (s ++ t) = Some i.
Proof.
  intros Hd [Hi Hlt]%find_sub_Some_occ. apply find_sub_unique; [by apply occ_app|].
  intros j Hj Ho. apply (Hlt j Hj). pose proof (occ_length d s i Hd Hi).
  apply (occ_app_inv d s t); [lia|done].
Qed.

(** ** The longest suffix that may start a delimiter *)
Definition is_lsp (s d : rstring) (k : nat) : Prop :=
  k < length d ∧ take k d `suffix_of` s ∧
  ∀ k', k' < length d → take k' d `suffix_of` s → k' ≤ k.

Lemma is_lsp_unique s d k k' : is_lsp s d k → is_lsp s d k' → k = k'.
Proof. intros (H1 & H2 & H3) (G1 & G2 & G3). apply Nat.le_antisymm; auto. Qed.

Lemma ends_with_suffix p s : ends_with p s = true ↔ p `suffix_of` s.
Proof. rewrite ends_with_true. done. Qed.

Lemma lsp_spec s d : d ≠ [] → is_lsp s d (longest_suffix_prefix_len s d).
Proof.
  intros Hd. assert (0 < length d) as Hpos by (destruct d; simpl; [done|lia]).
  unfold longest_suffix_prefix_len.
  assert (∀ k, k < length d →
    let r := lsp_from k s d in
    r ≤ k ∧ take r d `suffix_of` s ∧ ∀ k', k' ≤ k → take k' d `suffix_of` s → k' ≤ r) as H.
  { induction k as [|k IH]; intros Hk; cbn [lsp_from].
    - split_and!; [lia|apply suffix_nil|intros; lia].
    - destruct (ends_with (take (S k) d) s) eqn:E.
      + split_and!; [lia|by apply ends_with_suffix|done].
      + destruct (IH ltac:(lia)) as (H1 & H2 & H3). split_and!; [lia|done|].
        intros k' Hk' Hs. destruct (decide (k' = S k)) as [->|]; [|apply H3; [lia|done]].
        apply ends_with_suffix in Hs. congruence. }
  set (m := length s `min` (length d - 1)).
  assert (m < length d) as Hm by (unfold m; lia).
  destruct (H m Hm) as (H1 & H2 & H3).
  split_and!; [by eapply Nat.le_lt_trans|done|].
  intros k' Hk' Hs. apply H3; [|done].
  apply suffix_length in Hs as Hl. rewrite length_take in Hl. unfold m. lia.
Qed.

(** What is kept of a buffer without the delimiter, and what is released. *)
Definition kept (d s : rstring) : rstring :=
  drop (length s - longest_suffix_prefix_len s d) s.
Definition released (d s : rstring) : rstring :=
  take (length s - longest_suffix_prefix_len s d) s.

Lemma released_kept d s : released d s ++ kept d s = s.
Proof. apply take_drop. Qed.

Lemma length_kept d s : d ≠ [] → length (kept d s) = longest_suffix_prefix_len s d.
Proof.
  intros Hd. destruct (lsp_spec s d Hd) as (H1 & Hs & _).
  apply suffix_length in Hs. rewrite length_take in Hs. unfold kept. rewrite length_drop. lia.
Qed.

(** A suffix of [s ++ t] that starts the delimiter lies in [kept d s ++ t]. *)
Lemma crossing_le d s t k :
  d ≠ [] → k < length d → take k d `suffix_of` s ++ t → k ≤ length (kept d s) + length t.
Proof.
  intros Hd Hk Hs. rewrite length_kept by done.
  destruct (lsp_spec s d Hd) as (_ & _ & Hmax).
  destruct (decide (k ≤ length t)) as [|Hgt]; [lia|].
  enough (k - length t ≤ longest_suffix_prefix_len s d) by lia.
  apply Hmax; [lia|]. destruct Hs as [u Hu].
  assert (s ++ t = (u ++ take (k - length t) d) ++ drop (k - length t) (take k d)) as E.
  { rewrite Hu, <- app_assoc. f_equal.
    rewrite <- (take_drop (k - length t) (take k d)) at 1. by rewrite take_take, Nat.min_l by lia. }
  apply app_inj_2 in E as [-> _]; [by exists u|].
  rewrite length_drop, length_take. lia.
Qed.

(** Occurrences in [s ++ t] when [s] has none start in [kept d s]. *)
Lemma occ_after_released d s t j :
  d ≠ [] → find_sub d s = None → occ d (s ++ t) j → length (released d s) ≤ j.
Proof.
  intros Hd Hn Ho. pose proof (occ_length d (s ++ t) j Hd Ho) as Hlen. rewrite length_app in Hlen.
  destruct (decide (j + length d ≤ length s)) as [Hin|Hout].
  { destruct (find_sub_None_occ d s j Hn). by eapply occ_app_inv. }
  destruct (decide (length s ≤ j)) as [Hge|Hlt].
  { unfold released. rewrite length_take. lia. }
  destruct Ho as [u Hu]. rewrite drop_app_le in Hu by lia.
  assert (drop j s = take (length s - j) d) as Hp.
  { apply (f_equal (take (length s - j))) in Hu.
    rewrite take_app_le in Hu by (rewrite length_drop; lia).
    rewrite take_ge in Hu by (rewrite length_drop; lia).
    rewrite take_app_le in Hu by lia. done. }
  destruct (lsp_spec s d Hd) as (_ & _ & Hmax).
  assert (length s - j ≤ longest_suffix_prefix_len s d) as Hle.
  { apply Hmax; [lia|]. rewrite <- Hp. exists (take j s). by rewrite take_drop. }
  unfold released. rewrite length_take. lia.
Qed.

Lemma drop_released d s t j :
  drop (length (released d s) + j) (s ++ t) = drop j (kept d s ++ t).
Proof.
  rewrite <- (released_kept d s) at 2. rewrite <- app_assoc, <- drop_drop.
  by rewrite drop_app_length.
Qed.

Lemma take_released d s t j :
  take (length (released d s) + j) (s ++ t) = released d s ++ take j (kept d s ++ t).
Proof.
  rewrite <- (released_kept d s) at 2. rewrite <- app_assoc. by rewrite take_app_add.
Qed.

Lemma find_sub_kept d s t :
  d ≠ [] → find_sub d s = None →
  find_sub d (s ++ t) = (λ j, length (released d s) + j) <$> find_sub d (kept d s ++ t).
Proof.
  intros Hd Hn.
  assert (∀ j, occ d (s ++ t) (length (released d s) + j) ↔ occ d (kept d s ++ t) j) as Hiff.
  { intros j. unfold occ. by rewrite drop_released. }
  destruct (find_sub d (kept d s ++ t)) as [j|] eqn:E; simpl.
  - apply find_sub_Some_occ in E as [Hj Hlt]. apply find_sub_unique; [by apply Hiff|].
    intros i Hi Ho. pose proof (occ_after_released d s t i Hd Hn Ho).
    apply (Hlt (i - length (released d s))); [lia|]. apply Hiff.
    by replace (length (released d s) + (i - length (released d s))) with i by lia.
  - destruct (find_sub d (s ++ t)) as [i|] eqn:E'; [|done]. exfalso.
    apply find_sub_Some_occ in E' as [Ho _].
    pose proof (occ_after_released d s t i Hd Hn Ho).
    apply (find_sub_None_occ _ _ (i - length (released d s)) E), Hiff.
    by replace (length (released d s) + (i - length (released d s))) with i by lia.
Qed.

Lemma lsp_kept d s t :
  d ≠ [] →
  longest_suffix_prefix_len (s ++ t) d = longest_suffix_prefix_len (kept d s ++ t) d.
Proof.
  intros Hd. apply (is_lsp_unique (s ++ t) d); [by apply lsp_spec|].
  destruct (lsp_spec (kept d s ++ t) d Hd) as (H1 & H2 & H3).
  assert (kept d s ++ t `suffix_of` s ++ t) as Hsuf.
  { exists (released d s). by rewrite app_assoc, released_kept. }
  split_and!; [done|by etrans|].
  intros k Hk Hs. apply H3; [done|].
  pose proof (crossing_le d s t k Hd Hk Hs) as Hle.
  destruct (suffix_weak_total _ _ _ Hs Hsuf) as [|Hrev]; [done|].
  apply suffix_length_eq in Hrev as ->; [done|].
  rewrite length_take, length_app. lia.
Qed.

(** ** The parser with one tag *)
Lemma chunk_app_assoc {T} (a b c : StreamTextChunk T) :
  chunk_app a (chunk_app b c) = chunk_app (chunk_app a b) c.
Proof. unfold chunk_app. simpl. by rewrite !app_assoc. Qed.
Lemma chunk_app_empty_l {T} (a : StreamTextChunk T) : chunk_app empty_chunk a = a.
Proof. by destruct a. Qed.

Section OneTag.
Context {T : Type} (spec : InlineTagSpec T).
Context (Hopen : inline_open spec ≠ []) (Hclose : inline_close spec ≠ []).
Local Notation out := (StreamTextChunk (ExtractedInlineTag T)).

(** The states of the parser: the content read so far of an open tag, if one is
    open, and the pending text. *)
Definition one_tag (a : option rstring) (s : rstring) : InlineHiddenTagParser T :=
  mkInline [spec] s
    (match a with Some c => Some (mkActive (inline_tag spec) (inline_close spec) c) | None => None end).

(** The delimiter that is looked for. *)
Definition delim (a : option rstring) : rstring :=
  match a with Some _ => inline_close spec | None => inline_open spec end.

Lemma delim_ne a : delim a ≠ [].
Proof. by destruct a. Qed.

(** What is emitted for the text [x] in front of a delimiter and which mode
    follows, and what happens to text [x] that is released without one. *)
Definition at_delim (a : option rstring) (x : rstring) : out * option rstring :=
  match a with
  | Some c => (mkStreamChunk [] [mkExtracted (inline_tag spec) (c ++ x)], None)
  | None => (mkStreamChunk x [], Some [])
  end.
Definition release (a : option rstring) (x : rstring) : out * option rstring :=
  match a with
  | Some c => (empty_chunk, Some (c ++ x))
  | None => (mkStreamChunk x [], None)
  end.

Lemma push_step_one a s :
  push_step (one_tag a s) =
  match find_sub (delim a) s with
  | Some i =>
      (one_tag (snd (at_delim a (take i s))) (drop (i + length (delim a)) s),
       fst (at_delim a (take i s)), true)
  | None =>
      (one_tag (snd (release a (released (delim a) s))) (kept (delim a) s),
       fst (release a (released (delim a) s)), false)
  end.
Proof.
  destruct a as [c|]; unfold push_step; simpl; [by destruct (find_sub _ s)|].
  unfold find_next_open, open_candidates. simpl.
  destruct (find_sub (inline_open spec) s) as [i|] eqn:E; simpl; [done|].
  unfold max_open_prefix_suffix_len. simpl. by rewrite Nat.max_0_r.
Qed.

Lemma release_at_delim a x y :
  let r := release a x in
  chunk_app (fst r) (fst (at_delim (snd r) y)) = fst (at_delim a (x ++ y)) ∧
  snd (at_delim (snd r) y) = snd (at_delim a (x ++ y)) ∧ delim (snd r) = delim a.
Proof.
  destruct a as [c|]; simpl; [|by unfold chunk_app].
  by rewrite chunk_app_empty_l, app_assoc.
Qed.

Lemma release_release a x y :
  let r := release a x in
  chunk_app (fst r) (fst (release (snd r) y)) = fst (release a (x ++ y)) ∧
  snd (release (snd r) y) = snd (release a (x ++ y)).
Proof.
  destruct a as [c|]; simpl; [|by unfold chunk_app]. by rewrite app_assoc.
Qed.

(** More text after a buffer without the delimiter: the same as first releasing
    what can be released. *)
Lemma push_step_release a s t :
  find_sub (delim a) s = None →
  let r := release a (released (delim a) s) in
  let '(p1, o1, b1) := push_step (one_tag a (s ++ t)) in
  let '(p2, o2, b2) := push_step (one_tag (snd r) (kept (delim a) s ++ t)) in
  p1 = p2 ∧ o1 = chunk_app (fst r) o2 ∧ b1 = b2.
Proof.
  intros Hn r. pose proof (delim_ne a) as Hd.
  assert (delim (snd r) = delim a) as Hdr by by destruct a.
  rewrite !push_step_one, Hdr, (find_sub_kept (delim a) s t Hd Hn).
  destruct (find_sub (delim a) (kept (delim a) s ++ t)) as [j|]; simpl.
  - rewrite take_released, <- Nat.add_assoc, drop_released.
    destruct (release_at_delim a (released (delim a) s) (take j (kept (delim a) s ++ t)))
      as (<- & <- & _). done.
  - assert (released (delim a) (s ++ t) =
      released (delim a) s ++ released (delim a) (kept (delim a) s ++ t) ∧
      kept (delim a) (s ++ t) = kept (delim a) (kept (delim a) s ++ t)) as [-> ->].
    { assert (length (s ++ t) - longest_suffix_prefix_len (s ++ t) (delim a) =
        length (released (delim a) s) + (length (kept (delim a) s ++ t) -
          longest_suffix_prefix_len (kept (delim a) s ++ t) (delim a))) as E.
      { rewrite (lsp_kept (delim a) s t Hd).
        pose proof (length_kept (delim a) (kept (delim a) s ++ t) Hd) as Hk.
        unfold kept at 1 in Hk. rewrite length_drop in Hk.
        rewrite <- (released_kept (delim a) s) at 1. rewrite <- app_assoc, length_app. lia. }
      split; [unfold released at 1|unfold kept at 1]; rewrite E; [apply take_released|apply drop_released]. }
    destruct (release_release a (released (delim a) s)
      (released (delim a) (kept (delim a) s ++ t))) as [<- <-]. done.
Qed.

Lemma push_loop_S n p :
  push_loop (S n) p =
  let '(p', o, continue) := push_step (T := T) p in
  if continue then let '(o', p'') := push_loop n p' in (chunk_app o o', p'') else (o, p').
Proof. done. Qed.

Lemma push_loop_release n a s t :
  find_sub (delim a) s = None →
  let r := release a (released (delim a) s) in
  push_loop (S n) (one_tag a (s ++ t)) =
  let '(o, q) := push_loop (S n) (one_tag (snd r) (kept (delim a) s ++ t)) in
  (chunk_app (fst r) o, q).
Proof.
  intros Hn r. rewrite !push_loop_S.
  pose proof (push_step_release a s t Hn) as H. cbn zeta in H. fold r in H.
  destruct (push_step (one_tag a (s ++ t))) as [[p1 o1] b1].
  destruct (push_step (one_tag (snd r) (kept (delim a) s ++ t))) as [[p2 o2] b2].
  destruct H as (-> & -> & ->). destruct b2; [|done].
  destruct (push_loop n p2) as [o q]. by rewrite chunk_app_assoc.
Qed.

(** Enough fuel is enough. *)
Lemma push_loop_fuel n m a s :
  length s < n → length s < m → push_loop n (one_tag a s) = push_loop m (one_tag a s).
Proof.
  revert m a s. induction n as [|n IH]; intros m a s Hn Hm; [lia|].
  destruct m as [|m]; [lia|]. rewrite !push_loop_S, push_step_one.
  destruct (find_sub (delim a) s) as [i|] eqn:E; [|done].
  apply find_sub_Some_occ in E as [Ho _]. pose proof (occ_length _ _ _ (delim_ne a) Ho).
  pose proof (delim_ne a). assert (0 < length (delim a)) by (destruct (delim a); simpl; [done|lia]).
  rewrite (IH m); [done|rewrite length_drop; lia..].
Qed.

(** Pushing [t] after [s] is pushing [s ++ t]. *)
Lemma push_loop_app n m k a s t :
  length s < n → length (s ++ t) < m → length (s ++ t) < k →
  let '(o1, p1) := push_loop n (one_tag a s) in
  ∃ a1 s1, p1 = one_tag a1 s1 ∧ length s1 ≤ length s ∧
    push_loop m (one_tag a (s ++ t)) =
    let '(o2, p2) := push_loop k (one_tag a1 (s1 ++ t)) in (chunk_app o1 o2, p2).
Proof.
  revert m a s. induction n as [|n IH]; intros m a s Hn Hm Hk; [lia|].
  rewrite push_loop_S, push_step_one. pose proof (delim_ne a) as Hd.
  destruct (find_sub (delim a) s) as [i|] eqn:E.
  - pose proof (find_sub_Some_occ _ _ _ E) as [Ho _]. pose proof (occ_length _ _ _ Hd Ho) as Hl.
    assert (0 < length (delim a)) by (destruct (delim a); simpl; [done|lia]).
    destruct m as [|m]; [lia|].
    specialize (IH m (snd (at_delim a (take i s))) (drop (i + length (delim a)) s)).
    rewrite !length_app, length_drop in IH. rewrite length_app in Hm, Hk.
    specialize (IH ltac:(lia) ltac:(lia) ltac:(lia)).
    rewrite (push_loop_S m), push_step_one, (find_sub_app _ _ t _ Hd E).
    rewrite take_app_le by lia. rewrite drop_app_le by lia.
    destruct (push_loop n _) as [o1 p1]. destruct IH as (a1 & s1 & -> & Hl1 & ->).
    exists a1, s1. split_and!; [done|lia|]. destruct (push_loop k _) as [o2 p2].
    by rewrite chunk_app_assoc.
  - exists (snd (release a (released (delim a) s))), (kept (delim a) s).
    split_and!; [done| |].
    + unfold kept. rewrite length_drop. lia.
    + destruct m as [|m]; [lia|]. rewrite push_loop_release by done.
      rewrite (push_loop_fuel (S m) k); [done| |];
        rewrite length_app in *; unfold kept; rewrite length_drop; lia.
Qed.

(** The states reached from the start. *)
Definition one_tag_state (p : InlineHiddenTagParser T) : Prop := ∃ a s, p = one_tag a s.

Lemma inline_push_app p x y :
  one_tag_state p →
  let '(o1, p1) := inline_push_str p x in
  one_tag_state p1 ∧
  inline_push_str p (x ++ y) =
  let '(o2, p2) := inline_push_str p1 y in (chunk_app o1 o2, p2).
Proof.
  intros (a & s & ->). unfold inline_push_str.
  change (mkInline (inline_specs (one_tag a s)) (pending (one_tag a s) ++ x) (active (one_tag a s)))
    with (one_tag a (s ++ x)).
  change (mkInline (inline_specs (one_tag a s)) (pending (one_tag a s) ++ x ++ y)
            (active (one_tag a s))) with (one_tag a (s ++ x ++ y)).
  rewrite app_assoc. set (m := S (length (pending (one_tag a ((s ++ x) ++ y))))).
  pose proof (push_loop_app (S (length (pending (one_tag a (s ++ x))))) m m a (s ++ x) y
    ltac:(simpl; lia) ltac:(unfold m; simpl; lia) ltac:(unfold m; simpl; lia)) as H.
  destruct (push_loop _ (one_tag a (s ++ x))) as [o1 p1].
  destruct H as (a1 & s1 & -> & Hl & H). split; [by exists a1, s1|]. rewrite H.
  change (mkInline (inline_specs (one_tag a1 s1)) (pending (one_tag a1 s1) ++ y)
            (active (one_tag a1 s1))) with (one_tag a1 (s1 ++ y)).
  rewrite (push_loop_fuel m (S (length (pending (one_tag a1 (s1 ++ y)))))); [done| |simpl; lia].
  unfold m. simpl. rewrite !length_app in *. lia.
Qed.

(** ** The batch meaning of a text *)
Definition close_text (a : option rstring) (s : rstring) : out :=
  match a with
  | Some c => mkStreamChunk [] [mkExtracted (inline_tag spec) (c ++ s)]
  | None => mkStreamChunk s []
  end.

Fixpoint tag_meaning (fuel : nat) (a : option rstring) (s : rstring) : out :=
  match fuel with
  | 0 => empty_chunk
  | S fuel' =>
      match find_sub (delim a) s with
      | Some i => chunk_app (fst (at_delim a (take i s)))
                    (tag_meaning fuel' (snd (at_delim a (take i s))) (drop (i + length (delim a)) s))
      | None => close_text a s
      end
  end.

Definition all_output (op : out * InlineHiddenTagParser T) : out :=
  chunk_app (fst op) (fst (inline_finish (snd op))).

Lemma finish_release a x y :
  chunk_app (fst (release a x)) (fst (inline_finish (one_tag (snd (release a x)) y))) =
  close_text a (x ++ y).
Proof.
  destruct a as [c|]; unfold inline_finish, chunk_app; simpl; [by rewrite app_assoc|done].
Qed.

Lemma push_loop_meaning n a s :
  length s < n → all_output (push_loop n (one_tag a s)) = tag_meaning n a s.
Proof.
  revert a s. induction n as [|n IH]; intros a s Hn; [lia|].
  rewrite push_loop_S, push_step_one. cbn [tag_meaning].
  destruct (find_sub (delim a) s) as [i|] eqn:E.
  - apply find_sub_Some_occ in E as [Ho _]. pose proof (occ_length _ _ _ (delim_ne a) Ho).
    pose proof (delim_ne a). assert (0 < length (delim a)) by (destruct (delim a); simpl; [done|lia]).
    rewrite <- IH by (rewrite length_drop; lia).
    destruct (push_loop n _) as [o q]. unfold all_output. simpl. by rewrite chunk_app_assoc.
  - unfold all_output. cbn [fst snd]. rewrite finish_release. by rewrite released_kept.
Qed.

Lemma tag_meaning_fuel n m a s :
  length s < n → length s < m → tag_meaning n a s = tag_meaning m a s.
Proof.
  intros Hn Hm. rewrite <- !push_loop_meaning by done. by rewrite (push_loop_fuel n m).
Qed.
End OneTag.

(** ** Streams of chunks *)
Section Streams.
Context {P T : Type} `{!StreamTextParser P T}.

Fixpoint push_all (p : P) (chunks : list rstring) : StreamTextChunk T * P :=
  match chunks with
  | [] => (empty_chunk, p)
  | c :: chunks' =>
      let '(o, p) := push_str p c in
      let '(o', p) := push_all p chunks' in (chunk_app o o', p)
  end.

(** What a consumer has accumulated at the end of the stream. *)
Definition stream_all (p : P) (chunks : list rstring) : StreamTextChunk T :=
  let '(o, p) := push_all p chunks in chunk_app o (fst (stream_finish p)).
End Streams.

Section Citations.
Local Notation st := (one_tag citation_spec).

Lemma citation_delims : inline_open citation_spec ≠ [] ∧ inline_close citation_spec ≠ [].
Proof. done. Qed.

Definition citation_state (p : CitationStreamParser) : Prop :=
  one_tag_state citation_spec (citation_inner p).

Lemma citation_chunk_app a b :
  citation_chunk (chunk_app a b) = chunk_app (citation_chunk a) (citation_chunk b).
Proof. unfold citation_chunk, chunk_app. simpl. by rewrite map_app. Qed.

Lemma citation_push_app p x y :
  citation_state p →
  let '(o1, p1) := push_str p x in
  citation_state p1 ∧ push_str p (x ++ y) = let '(o2, p2) := push_str p1 y in (chunk_app o1 o2, p2).
Proof.
  destruct p as [q]. unfold citation_state. simpl. intros Hq.
  pose proof (inline_push_app citation_spec (proj1 citation_delims) (proj2 citation_delims) q x y Hq)
    as H.
  destruct (inline_push_str q x) as [o1 q1]. destruct H as [Hq1 ->]. split; [done|].
  simpl. destruct (inline_push_str q1 y) as [o2 q2]. by rewrite citation_chunk_app.
Qed.

Lemma citation_push_all p c chunks :
  citation_state p →
  push_all p (c :: chunks) = push_str p (c ++ concat chunks).
Proof.
  revert p c. induction chunks as [|d chunks IH]; intros p c Hp.
  - cbn [push_all concat]. rewrite app_nil_r. destruct (push_str p c) as [[v e] p'].
    unfold chunk_app. simpl. by rewrite !app_nil_r.
  - cbn [push_all concat]. pose proof (citation_push_app p c (d ++ concat chunks) Hp) as H.
    destruct (push_str p c) as [o1 p1]. destruct H as [Hp1 ->]. rewrite <- IH by done. done.
Qed.

(** The assertions of [InlineHiddenTagParser::new] hold for the citation tag. *)
Lemma new_citation_checked : new_inline [citation_spec] = Some (citation_inner new_citation).
Proof. done. Qed.

Lemma new_citation_state : citation_state new_citation.
Proof. by exists None, []. Qed.

Definition citation_meaning (text : rstring) : StreamTextChunk rstring :=
  citation_chunk (tag_meaning citation_spec (S (length text)) None text).

Lemma citation_all_output text :
  (let '(o, p) := push_str new_citation text in chunk_app o (fst (stream_finish p))) =
  citation_meaning text.
Proof.
  unfold citation_meaning.
  rewrite <- (push_loop_meaning citation_spec (proj1 citation_delims) (proj2 citation_delims)) by lia.
  unfold all_output, push_str, stream_finish, citation_stream, push_str, stream_finish,
    inline_stream, inline_push_str.
  change (mkInline (inline_specs (citation_inner new_citation)) (pending (citation_inner new_citation) ++ text)
    (active (citation_inner new_citation))) with (st None text).
  change (length (pending (st None text))) with (length text).
  destruct (push_loop (S (length text)) (st None text)) as [o q]. cbn [citation_inner fst snd].
  destruct (inline_finish q) as [o' q']. by rewrite citation_chunk_app.
Qed.

Lemma strip_citations_output text :
  strip_citations text = (visible_text (citation_meaning text), extracted (citation_meaning text)).
Proof.
  rewrite <- citation_all_output. unfold strip_citations.
  destruct (push_str new_citation text) as [o p]. destruct (stream_finish p) as [o' p']. done.
Qed.

Lemma citation_stream_meaning chunks :
  stream_all new_citation chunks = citation_meaning (concat chunks).
Proof.
  rewrite <- citation_all_output. unfold stream_all. destruct chunks as [|c chunks].
  - vm_compute. done.
  - rewrite (citation_push_all new_citation c chunks new_citation_state). cbn [concat].
    by destruct (push_str new_citation (c ++ concat chunks)) as [o p].
Qed.

Lemma strip_citations_stream chunks :
  strip_citations (concat chunks) =
  (visible_text (stream_all new_citation chunks), extracted (stream_all new_citation chunks)).
Proof. by rewrite strip_citations_output, citation_stream_meaning. Qed.

(** the visible text and the citations a consumer accumulates from a stream do
    not depend on how the text is cut into chunks, even inside a tag: they are
    those of [strip_citations] on the whole text. *)
Theorem citation_chunking chunks :
  let out := stream_all new_citation chunks in
  (visible_text out, extracted out) = strip_citations (concat chunks).
Proof.
  cbn zeta. by rewrite strip_citations_stream.
Qed.

(** stripping citations is the batch recursion on the first tag: text without
    an opening tag is visible as it is, the text between an opening tag and the
    first closing tag after it is a citation, and an unclosed tag takes the rest. *)
Theorem strip_citations_recursion text :
  strip_citations text =
  match find_sub CITATION_OPEN text with
  | None => (text, [])
  | Some i =>
      let body := drop (i + length CITATION_OPEN) text in
      match find_sub CITATION_CLOSE body with
      | None => (take i text, [body])
      | Some j =>
          let '(v, cs) := strip_citations (drop (j + length CITATION_CLOSE) body) in
          (take i text ++ v, take j body :: cs)
      end
  end.
Proof.
  rewrite strip_citations_output. unfold citation_meaning. cbn [tag_meaning delim].
  change (inline_open citation_spec) with CITATION_OPEN.
  destruct (find_sub CITATION_OPEN text) as [i|] eqn:Ei; [|done].
  pose proof (find_sub_Some_occ _ _ _ Ei) as [Ho _].
  pose proof (occ_length CITATION_OPEN text i ltac:(done) Ho) as Hi.
  cbn zeta. set (body := drop (i + length CITATION_OPEN) text).
  assert (length body + 18 ≤ length text) as Hb.
  { unfold body. rewrite length_drop. change (length CITATION_OPEN) with 18 in *. lia. }
  cbn [at_delim fst snd]. destruct (length text) as [|n]; [lia|]. cbn [tag_meaning delim].
  change (inline_close citation_spec) with CITATION_CLOSE.
  destruct (find_sub CITATION_CLOSE body) as [j|] eqn:Ej.
  - rewrite strip_citations_output. unfold citation_meaning.
    set (rest := drop (j + length CITATION_CLOSE) body). cbn [at_delim fst snd].
    rewrite (tag_meaning_fuel citation_spec (proj1 citation_delims) (proj2 citation_delims)
      n (S (length rest)) None rest).
    + done.
    + unfold rest. rewrite length_drop. change (length CITATION_CLOSE) with 19. lia.
    + lia.
  - unfold citation_chunk, chunk_app. simpl. by rewrite app_nil_r.
Qed.
End Citations.
