(* ===== verification/StreamPlan.v ===== *)
(** * Streaming parser for tagged line blocks and assistant text

    Models [sofia-rs/utils/stream-parser/src/tagged_line_parser.rs],
    [proposed_plan.rs] and [assistant_text.rs]. *)

From stdpp Require Import base list numbers strings.
From S2P Require Import Prelude StreamInline.

(** ** [tagged_line_parser.rs] *)
Section TaggedLines.
Context {T : Type} `{EqDecision T}.

Record TagSpec := mkTagSpec { spec_open : rstring; spec_close : rstring; spec_tag : T }.

Inductive TaggedLineSegment :=
  | Normal (text : rstring)
  | TagStart (tag : T)
  | TagDelta (tag : T) (text : rstring)
  | TagEnd (tag : T).

Record TaggedLineParser := mkTagged {
  tl_specs : list TagSpec;
  active_tag : option T;
  detect_tag : bool;
  line_buffer : rstring;
}.

Definition new_tagged (specs : list TagSpec) : TaggedLineParser := mkTagged specs None true [].

(** Segments are kept in order: [segments.last_mut()] is [last], and an append to
    the text of the last segment is [update_last]. *)
Definition push_segment (segments : list TaggedLineSegment) (segment : TaggedLineSegment)
    : list TaggedLineSegment :=
  match segment with
  | Normal delta =>
      if is_empty delta then segments
      else match last segments with
           | Some (Normal existing) => update_last (λ _, Normal (existing ++ delta)) segments
           | _ => segments ++ [Normal delta]
           end
  | TagDelta tag delta =>
      if is_empty delta then segments
      else match last segments with
           | Some (TagDelta existing_tag existing) =>
               if decide (existing_tag = tag)
               then update_last (λ _, TagDelta existing_tag (existing ++ delta)) segments
               else segments ++ [TagDelta tag delta]
           | _ => segments ++ [TagDelta tag delta]
           end
  | TagStart tag => segments ++ [TagStart tag]
  | TagEnd tag => segments ++ [TagEnd tag]
  end.

Definition push_text (p : TaggedLineParser) (text : rstring) (segments : list TaggedLineSegment)
    : list TaggedLineSegment :=
  match active_tag p with
  | Some tag => push_segment segments (TagDelta tag text)
  | None => push_segment segments (Normal text)
  end.

Definition is_tag_prefix (specs : list TagSpec) (slug : rstring) : bool :=
  let slug := trim_end slug in
  existsb (λ spec, starts_with slug (spec_open spec) || starts_with slug (spec_close spec)) specs.

Definition match_open (specs : list TagSpec) (slug : rstring) : option T :=
  spec_tag <$> List.find (λ spec, str_eqb (spec_open spec) slug) specs.
Definition match_close (specs : list TagSpec) (slug : rstring) : option T :=
  spec_tag <$> List.find (λ spec, str_eqb (spec_close spec) slug) specs.

(** [line.strip_suffix('\n').unwrap_or(&line)], trimmed on both sides. *)
Definition line_slug (line : rstring) : rstring :=
  trim_end (trim_start (default line (strip_suffix [LF] line))).

Definition finish_line (p : TaggedLineParser) (segments : list TaggedLineSegment)
    : TaggedLineParser * list TaggedLineSegment :=
  let line := line_buffer p in
  let slug := line_slug line in
  let specs := tl_specs p in
  match match_open specs slug, active_tag p with
  | Some tag, None => (mkTagged specs (Some tag) true [], push_segment segments (TagStart tag))
  | _, _ =>
      match match_close specs slug with
      | Some tag =>
          if decide (active_tag p = Some tag)
          then (mkTagged specs None true [], push_segment segments (TagEnd tag))
          else (mkTagged specs (active_tag p) true [], push_text p line segments)
      | None => (mkTagged specs (active_tag p) true [], push_text p line segments)
      end
  end.

(** The loop over the characters of a delta, with the pending run of text. *)
Fixpoint parse_chars (p : TaggedLineParser) (run : rstring) (segments : list TaggedLineSegment)
    (delta : rstring) : TaggedLineParser * list TaggedLineSegment :=
  match delta with
  | [] => (p, if is_empty run then segments else push_text p run segments)
  | ch :: delta' =>
      if detect_tag p then
        let segments := if is_empty run then segments else push_text p run segments in
        let p := mkTagged (tl_specs p) (active_tag p) true (line_buffer p ++ [ch]) in
        if N.eqb ch LF then
          let '(p', segments') := finish_line p segments in parse_chars p' [] segments' delta'
        else
          let slug := trim_start (line_buffer p) in
          if is_empty slug || is_tag_prefix (tl_specs p) slug
          then parse_chars p [] segments delta'
          else
            let buffered := line_buffer p in
            let p := mkTagged (tl_specs p) (active_tag p) false [] in
            parse_chars p [] (push_text p buffered segments) delta'
      else
        let run := run ++ [ch] in
        if N.eqb ch LF then
          parse_chars (mkTagged (tl_specs p) (active_tag p) true (line_buffer p)) []
            (push_text p run segments) delta'
        else parse_chars p run segments delta'
  end.

Definition tagged_parse (p : TaggedLineParser) (delta : rstring)
    : TaggedLineParser * list TaggedLineSegment := parse_chars p [] [] delta.

Definition tagged_finish (p : TaggedLineParser) : TaggedLineParser * list TaggedLineSegment :=
  let '(active, segments) :=
    if is_empty (line_buffer p) then (active_tag p, [])
    else
      let buffered := line_buffer p in
      let slug := line_slug buffered in
      match match_open (tl_specs p) slug, active_tag p with
      | Some tag, None => (Some tag, push_segment [] (TagStart tag))
      | _, _ =>
          match match_close (tl_specs p) slug with
          | Some tag =>
              if decide (active_tag p = Some tag) then (None, push_segment [] (TagEnd tag))
              else (active_tag p, push_text p buffered [])
          | None => (active_tag p, push_text p buffered [])
          end
      end in
  let segments := match active with
                  | Some tag => push_segment segments (TagEnd tag)
                  | None => segments
                  end in
  (mkTagged (tl_specs p) None true [], segments).
End TaggedLines.
Arguments TagSpec : clear implicits.
Arguments TaggedLineSegment : clear implicits.
Arguments TaggedLineParser : clear implicits.

(** ** [proposed_plan.rs] *)
Definition OPEN_TAG := str "<proposed_plan>".
Definition CLOSE_TAG := str "</proposed_plan>".

Inductive PlanTag := ProposedPlan.
#[global] Instance PlanTag_eq_dec : EqDecision PlanTag.
Proof. solve_decision. Defined.

Inductive ProposedPlanSegment :=
  | PlanNormal (text : rstring)
  | ProposedPlanStart
  | ProposedPlanDelta (text : rstring)
  | ProposedPlanEnd.

Record ProposedPlanParser := mkPlan { plan_parser : TaggedLineParser PlanTag }.

Definition plan_spec : TagSpec PlanTag := mkTagSpec OPEN_TAG CLOSE_TAG ProposedPlan.
Definition new_plan : ProposedPlanParser := mkPlan (new_tagged [plan_spec]).

Definition map_segment (s : TaggedLineSegment PlanTag) : ProposedPlanSegment :=
  match s with
  | Normal text => PlanNormal text
  | TagStart ProposedPlan => ProposedPlanStart
  | TagDelta ProposedPlan text => ProposedPlanDelta text
  | TagEnd ProposedPlan => ProposedPlanEnd
  end.

(** The loop of [map_segments], on the output built so far. *)
Fixpoint map_segments_from (out : StreamTextChunk ProposedPlanSegment)
    (segments : list (TaggedLineSegment PlanTag)) : StreamTextChunk ProposedPlanSegment :=
  match segments with
  | [] => out
  | segment :: rest =>
      let mapped := map_segment segment in
      let visible := match mapped with
                     | PlanNormal text => visible_text out ++ text
                     | _ => visible_text out
                     end in
      map_segments_from (mkStreamChunk visible (extracted out ++ [mapped])) rest
  end.
Definition map_segments : list (TaggedLineSegment PlanTag) → StreamTextChunk ProposedPlanSegment :=
  map_segments_from empty_chunk.

#[global] Instance plan_stream : StreamTextParser ProposedPlanParser ProposedPlanSegment :=
  {| push_str p chunk := let '(q, segs) := tagged_parse (plan_parser p) chunk in
                         (map_segments segs, mkPlan q);
     stream_finish p := let '(q, segs) := tagged_finish (plan_parser p) in
                        (map_segments segs, mkPlan q) |}.

Definition strip_proposed_plan_blocks (text : rstring) : rstring :=
  let '(out, p) := push_str new_plan text in
  visible_text out ++ visible_text (fst (stream_finish p)).

(** The loop of [extract_proposed_plan_text]: the plan text and [saw_plan_block]. *)
Definition extract_step (acc : rstring * bool) (segment : ProposedPlanSegment) : rstring * bool :=
  match segment with
  | ProposedPlanStart => ([], true)
  | ProposedPlanDelta delta => (fst acc ++ delta, snd acc)
  | ProposedPlanEnd | PlanNormal _ => acc
  end.
Definition extract_proposed_plan_text (text : rstring) : option rstring :=
  let '(out, p) := push_str new_plan text in
  let '(plan_text, saw_plan_block) :=
    foldl extract_step ([], false) (extracted out ++ extracted (fst (stream_finish p))) in
  if saw_plan_block then Some plan_text else None.

(** ** [assistant_text.rs] *)
Record AssistantTextChunk := mkAssistantChunk {
  at_visible_text : rstring;
  at_citations : list rstring;
  at_plan_segments : list ProposedPlanSegment;
}.

Definition assistant_chunk_is_empty (c : AssistantTextChunk) : bool :=
  is_empty (at_visible_text c) && is_empty (at_citations c) && is_empty (at_plan_segments c).

Record AssistantTextStreamParser := mkAssistant {
  plan_mode : bool;
  at_citation_parser : CitationStreamParser;
  at_plan_parser : ProposedPlanParser;
}.

Definition new_assistant (mode : bool) : AssistantTextStreamParser :=
  mkAssistant mode new_citation new_plan.

Definition parse_visible_text (mode : bool) (plan : ProposedPlanParser) (visible : rstring)
    : AssistantTextChunk * ProposedPlanParser :=
  if negb mode then (mkAssistantChunk visible [] [], plan)
  else
    let '(plan_chunk, plan') := push_str plan visible in
    (mkAssistantChunk (visible_text plan_chunk) [] (extracted plan_chunk), plan').

Definition assistant_push_str (p : AssistantTextStreamParser) (chunk : rstring)
    : AssistantTextChunk * AssistantTextStreamParser :=
  let '(citation_chunk, citations) := push_str (at_citation_parser p) chunk in
  let '(out, plan) := parse_visible_text (plan_mode p) (at_plan_parser p) (visible_text citation_chunk) in
  (mkAssistantChunk (at_visible_text out) (extracted citation_chunk) (at_plan_segments out),
   mkAssistant (plan_mode p) citations plan).

Definition assistant_finish (p : AssistantTextStreamParser)
    : AssistantTextChunk * AssistantTextStreamParser :=
  let '(citation_chunk, citations) := stream_finish (at_citation_parser p) in
  let '(out, plan) := parse_visible_text (plan_mode p) (at_plan_parser p) (visible_text citation_chunk) in
  let '(out, plan) :=
    if plan_mode p then
      let '(tail, plan') := stream_finish plan in
      (if negb (stream_chunk_is_empty tail)
       then mkAssistantChunk (at_visible_text out ++ visible_text tail) (at_citations out)
              (at_plan_segments out ++ extracted tail)
       else out, plan')
    else (out, plan) in
  (mkAssistantChunk (at_visible_text out) (extracted citation_chunk) (at_plan_segments out),
   mkAssistant (plan_mode p) citations plan).
