(* ===== verification/StreamPlanSpec.v ===== *)
(** * Correctness of the plan block parser and of the assistant text parser

    A text is cut into lines; a line whose trimmed text is a tag opens or closes a
    block and every other line is text of the block it stands in.  The streaming
    parser computes exactly these segments, up to the split of text into adjacent
    segments, however the text arrives. *)

From stdpp Require Import base list numbers strings.
From S2P Require Import Prelude StreamInline StreamPlan.

#[local] Arguments str : simpl never.
Declare Scope segment_scope.

Lemma starts_with_trans p q s :
  (∃ r, q = p ++ r) → starts_with q s = true → starts_with p s = true.
Proof.
  rewrite !starts_with_true. intros [r ->] [r' ->]. exists (r ++ r'). by rewrite app_assoc.
Qed.

Lemma trim_start_app s t : trim_start s ≠ [] → trim_start (s ++ t) = trim_start s ++ t.
Proof.
  unfold trim_start. induction s as [|c s IH]; [done|]. cbn [drop_while app].
  destruct (is_whitespace c); [exact IH|done].
Qed.

(** The trimmed text of a prefix is a prefix of the trimmed text, as long as it
    has some. *)
Lemma trim_prefix s t : trim_start s ≠ [] → ∃ r, trim_end (trim_start (s ++ t)) = trim_end (trim_start s) ++ r.
Proof.
  intros Hs. rewrite (trim_start_app s t Hs).
  set (w := trim_start s).
  destruct (drop_end_while_prefix is_whitespace w) as [x [Hw _]].
  destruct (drop_end_while_prefix is_whitespace (w ++ t)) as [y [Hwt Hy]].
  fold (trim_end w) in Hw. fold (trim_end (w ++ t)) in Hwt.
  assert (trim_end w ++ x ++ t = trim_end (w ++ t) ++ y) as E.
  { by rewrite <- Hwt, app_assoc, <- Hw. }
  apply app_eq_inv in E as [[k [E1 E2]]|[k [E1 E2]]].
  - destruct (snoc_nil_cases k) as [->|[k' [c ->]]].
    + exists []. by rewrite app_nil_r in *.
    + exfalso. pose proof (no_trailing_ws_trim_end w) as Hn. rewrite E1, app_assoc in Hn.
      unfold no_trailing_ws in Hn. rewrite last_snoc in Hn.
      rewrite E2, !Forall_app, Forall_singleton in Hy.
      destruct Hy as [[_ Hy] _]. congruence.
  - by exists k.
Qed.

(** ** Segments up to the split of text *)
Section Segments.
Context {T : Type} `{EqDecision T}.
Notation seg := (TaggedLineSegment T).

(** Pushing segments one by one onto [a]; [glue []] coalesces adjacent text. *)
Definition glue (a b : list seg) : list seg := foldl push_segment a b.

Lemma glue_app a b c : glue a (b ++ c) = glue (glue a b) c.
Proof. apply foldl_app. Qed.

Lemma push_segment_merge (segs : list seg) x y :
  push_segment (push_segment segs (Normal x)) (Normal y) = push_segment segs (Normal (x ++ y)).
Proof.
  destruct x as [|c x]; [done|]. destruct y as [|d y]; [by rewrite app_nil_r|].
  cbn [push_segment is_empty app]. destruct (last segs) as [s|] eqn:E.
  - apply last_Some in E as [l ->]. destruct s; rewrite ?update_last_snoc, ?last_snoc, ?update_last_snoc; try done.
    by rewrite <- app_assoc.
  - by rewrite last_snoc, update_last_snoc.
Qed.

Lemma push_segment_merge_tag (segs : list seg) t x y :
  push_segment (push_segment segs (TagDelta t x)) (TagDelta t y) = push_segment segs (TagDelta t (x ++ y)).
Proof.
  destruct x as [|c x]; [done|]. destruct y as [|d y]; [by rewrite app_nil_r|].
  cbn [push_segment is_empty app]. destruct (last segs) as [s|] eqn:E.
  - apply last_Some in E as [l ->]. destruct s; rewrite ?last_snoc, ?update_last_snoc, ?decide_True by done; try done.
    case_decide; subst; rewrite ?update_last_snoc, ?last_snoc, ?decide_True, ?update_last_snoc by done; [|done].
    by rewrite <- app_assoc.
  - by rewrite last_snoc, decide_True, update_last_snoc.
Qed.

Lemma glue_push a l s : glue a (push_segment l s) = push_segment (glue a l) s.
Proof.
  assert (∀ s', glue a (l ++ [s']) = push_segment (glue a l) s') as Hs.
  { intros s'. by rewrite glue_app. }
  destruct s as [d| |t d|]; cbn [push_segment]; [| | |].
  2,4: apply Hs.
  - destruct d as [|c d]; [done|]. cbn [is_empty].
    destruct (last l) as [[e| | |]|] eqn:E; try apply Hs.
    apply last_Some in E as [l' ->]. rewrite update_last_snoc, !glue_app. cbn [glue foldl].
    exact (eq_sym (push_segment_merge _ e (c :: d))).
  - destruct d as [|c d]; [done|]. cbn [is_empty].
    destruct (last l) as [[|?|t' e|?]|] eqn:E; try apply Hs.
    case_decide; [|apply Hs]. subst.
    apply last_Some in E as [l' ->]. rewrite update_last_snoc, !glue_app. cbn [glue foldl].
    exact (eq_sym (push_segment_merge_tag _ t e (c :: d))).
Qed.

Lemma glue_glue a b : glue a (glue [] b) = glue a b.
Proof.
  induction b as [|s b IH] using rev_ind; [done|].
  rewrite !glue_app. cbn [glue foldl]. change (foldl push_segment [] b) with (glue [] b).
  by rewrite glue_push, IH.
Qed.

(** Two lists of segments that differ only in the split of their text. *)
Definition same_segments (x y : list seg) : Prop := glue [] x = glue [] y.

Lemma same_segments_glue x y : same_segments x y ↔ ∀ a, glue a x = glue a y.
Proof.
  split; [|by intros H; apply H]. intros H a. by rewrite <- (glue_glue a x), H, glue_glue.
Qed.

#[global] Instance same_segments_equiv : Equivalence same_segments.
Proof. split; unfold same_segments; [done|by intros x y ->|by intros x y z -> ->]. Qed.
#[global] Instance app_same_segments : Proper (same_segments ==> same_segments ==> same_segments) app.
Proof.
  intros x x' Hx y y' Hy. unfold same_segments. rewrite !glue_app, Hx.
  by apply same_segments_glue.
Qed.

Lemma glue_same x : same_segments (glue [] x) x.
Proof. apply glue_glue. Qed.
End Segments.
Infix "≈" := same_segments (at level 70) : segment_scope.
#[local] Open Scope segment_scope.

(** ** The meaning of a text, line by line *)
Section Lines.
Context {T : Type} `{EqDecision T} (specs : list (TagSpec T)).
Notation seg := (TaggedLineSegment T).

Definition text_segment (active : option T) (text : rstring) : seg :=
  match active with Some tag => TagDelta tag text | None => Normal text end.

(** One line with its terminator: a tag line outside or inside a block, or text. *)
Definition line_meaning (active : option T) (line : rstring) : list seg * option T :=
  match match_open specs (line_slug line), active with
  | Some tag, None => ([TagStart tag], Some tag)
  | _, _ =>
      match match_close specs (line_slug line) with
      | Some tag => if decide (active = Some tag) then ([TagEnd tag], None)
                    else ([text_segment active line], active)
      | None => ([text_segment active line], active)
      end
  end.

Definition close_block (active : option T) : list seg :=
  match active with Some tag => [TagEnd tag] | None => [] end.

(** The pieces of a text between line feeds: all but the last end a line; a last
    line without line feed counts too, and an open block is closed at the end. *)
Fixpoint block_meaning (active : option T) (pieces : list rstring) : list seg :=
  match pieces with
  | [] => close_block active
  | [piece] =>
      if is_empty piece then close_block active
      else let '(segs, active') := line_meaning active piece in segs ++ close_block active'
  | piece :: rest =>
      let '(segs, active') := line_meaning active (piece ++ [LF]) in
      segs ++ block_meaning active' rest
  end.

(** ** One character at a time *)
Notation tparser := (TaggedLineParser T).

(** A character handled on its own, with the text of a run emitted at once. *)
Definition char_step (p : tparser) (c : N) : tparser * list seg :=
  let '(mkTagged _ active detect buffer) := p in
  if detect then
    let buffer := buffer ++ [c] in
    if N.eqb c LF then
      let '(segs, active') := line_meaning active buffer in (mkTagged specs active' true [], segs)
    else if is_empty (trim_start buffer) || is_tag_prefix specs (trim_start buffer)
    then (mkTagged specs active true buffer, [])
    else (mkTagged specs active false [], [text_segment active buffer])
  else (mkTagged specs active (N.eqb c LF) buffer, [text_segment active [c]]).

Fixpoint char_steps (p : tparser) (s : rstring) : tparser * list seg :=
  match s with
  | [] => (p, [])
  | c :: s' => let '(p', x) := char_step p c in
               let '(p'', y) := char_steps p' s' in (p'', x ++ y)
  end.

Lemma push_text_glue (p : tparser) run segs :
  push_text p run segs = glue segs [text_segment (active_tag p) run].
Proof. unfold push_text, text_segment. by destruct (active_tag p). Qed.

Lemma text_segment_app active x y :
  [text_segment active x] ++ [text_segment active y] ≈ [text_segment active (x ++ y)].
Proof.
  unfold same_segments. rewrite glue_app. destruct active as [t|]; cbn [text_segment glue foldl].
  - apply push_segment_merge_tag.
  - apply push_segment_merge.
Qed.

Lemma text_segment_nil active : [text_segment active []] ≈ [].
Proof. by destruct active. Qed.

Lemma finish_line_meaning active detect buffer segs :
  finish_line (mkTagged specs active detect buffer) segs =
  let '(e, active') := line_meaning active buffer in (mkTagged specs active' true [], glue segs e).
Proof.
  unfold finish_line, line_meaning. cbn [tl_specs active_tag line_buffer].
  destruct (match_open specs (line_slug buffer)), active, (match_close specs (line_slug buffer));
    try case_decide;
    rewrite ?push_text_glue; done.
Qed.

Lemma glue_text_nil (a : list seg) active z : glue a (text_segment active [] :: z) = glue a z.
Proof. by destruct active. Qed.

(** The loop of [parse] is the machine on single characters; a pending run is
    empty, or text of a line that is known not to be a tag. *)
Lemma parse_chars_steps s : ∀ active detect buffer run segs,
  (run ≠ [] → detect = false) →
  let p := mkTagged specs active detect buffer in
  parse_chars p run segs s =
  (fst (char_steps p s), glue segs (text_segment active run :: snd (char_steps p s))).
Proof.
  induction s as [|c s IH]; intros active detect buffer run segs Hrun; cbn zeta.
  - cbn [parse_chars char_steps fst snd]. f_equal.
    rewrite push_text_glue. destruct run; [cbn [is_empty]|done].
    by rewrite glue_text_nil.
  - cbn [parse_chars char_steps char_step detect_tag tl_specs active_tag line_buffer].
    destruct detect.
    + destruct run as [|]; [|by discriminate Hrun]. cbn [is_empty].
      rewrite glue_text_nil.
      destruct (N.eqb c LF).
      * rewrite finish_line_meaning. destruct (line_meaning active (buffer ++ [c])) as [e a'].
        rewrite IH by done. destruct (char_steps _ s) as [p' y]. cbn [fst snd].
        by rewrite glue_text_nil, glue_app.
      * destruct (is_empty _ || _).
        -- rewrite IH by done. destruct (char_steps _ s) as [p' y]. cbn [fst snd app].
           by rewrite glue_text_nil.
        -- rewrite IH by done. destruct (char_steps _ s) as [p' y]. cbn [fst snd app].
           rewrite push_text_glue.
           by rewrite glue_text_nil.
    + assert (∀ y, glue segs (text_segment active run :: [text_segment active [c]] ++ y) =
        glue segs (text_segment active (run ++ [c]) :: y)) as Hm.
      { intros y. apply same_segments_glue.
        by rewrite (app_assoc [text_segment active run] _ y : _ :: _ ++ y = _), text_segment_app. }
      destruct (N.eqb c LF).
      * rewrite IH by done. rewrite push_text_glue. destruct (char_steps _ s) as [p' y].
        cbn [fst snd]. rewrite Hm.
        by rewrite glue_text_nil.
      * rewrite IH by done. destruct (char_steps _ s) as [p' y]. cbn [fst snd]. by rewrite Hm.
Qed.
Lemma char_steps_app p s t :
  char_steps p (s ++ t) =
  let '(p', x) := char_steps p s in let '(p'', y) := char_steps p' t in (p'', x ++ y).
Proof.
  revert p. induction s as [|c s IH]; intros p; cbn [char_steps app].
  - by destruct (char_steps p t).
  - destruct (char_step p c) as [p1 x]. rewrite IH. destruct (char_steps p1 s) as [p2 y].
    destruct (char_steps p2 t) as [p3 z]. by rewrite app_assoc.
Qed.

(** The start of a line has text that no tag starts with. *)
Definition not_tag (u : rstring) : Prop :=
  ∃ s t, u = s ++ t ∧ trim_start s ≠ [] ∧ is_tag_prefix specs (trim_start s) = false.

Lemma not_tag_prefix u r :
  not_tag u → match_open specs (trim_end (trim_start (u ++ r))) = None ∧
              match_close specs (trim_end (trim_start (u ++ r))) = None.
Proof.
  intros (s & t & -> & Hs & Hp). rewrite <- app_assoc.
  destruct (trim_prefix s (t ++ r) Hs) as [k Hk].
  unfold is_tag_prefix in Hp. rewrite Hk. clear Hk. unfold match_open, match_close.
  induction specs as [|spec l IH]; [done|]. cbn [existsb List.find] in *.
  apply orb_false_iff in Hp as [Hp Hl]. apply orb_false_iff in Hp as [Ho Hc].
  destruct (IH Hl) as [IHo IHc]. split.
  - destruct (str_eqb (spec_open spec) _) eqn:E; [|exact IHo].
    apply bool_decide_eq_true in E. by rewrite E, starts_with_app in Ho.
  - destruct (str_eqb (spec_close spec) _) eqn:E; [|exact IHc].
    apply bool_decide_eq_true in E. by rewrite E, starts_with_app in Hc.
Qed.

Lemma line_slug_lf u : line_slug (u ++ [LF]) = trim_end (trim_start u).
Proof.
  unfold line_slug. by rewrite (proj2 (strip_suffix_Some [LF] (u ++ [LF]) u) eq_refl).
Qed.

Lemma line_slug_no_lf u : LF ∉ u → line_slug u = trim_end (trim_start u).
Proof.
  intros Hu. unfold line_slug. destruct (strip_suffix [LF] u) as [v|] eqn:E; [|done].
  apply strip_suffix_Some in E as ->. apply not_elem_of_app in Hu as [_ Hu].
  by rewrite list_elem_of_singleton in Hu.
Qed.

Lemma not_tag_line active u r :
  not_tag u → line_slug (u ++ r) = trim_end (trim_start u) →
  line_meaning active (u ++ r) = ([text_segment active (u ++ r)], active).
Proof.
  intros Hu Hr. destruct (not_tag_prefix u [] Hu) as [Ho Hc]. rewrite app_nil_r in *.
  unfold line_meaning. by rewrite Hr, Ho, Hc.
Qed.

(** A part of a line is either all in the buffer, or text. *)
Lemma char_steps_part active u :
  LF ∉ u →
  char_steps (mkTagged specs active true []) u = (mkTagged specs active true u, []) ∨
  ∃ e, char_steps (mkTagged specs active true []) u = (mkTagged specs active false [], e) ∧
       e ≈ [text_segment active u] ∧ not_tag u.
Proof.
  induction u as [|c u IH] using rev_ind; intros Hu; [by left|].
  apply not_elem_of_app in Hu as [Hu Hc]. rewrite list_elem_of_singleton in Hc.
  assert (N.eqb c LF = false) as Hlf by (apply N.eqb_neq; congruence).
  rewrite char_steps_app. destruct (IH Hu) as [->|(e & -> & He & Hn)]; cbn [char_steps char_step].
  - rewrite Hlf. destruct (is_empty (trim_start (u ++ [c]))) eqn:Ee; [by left|].
    destruct (is_tag_prefix specs (trim_start (u ++ [c]))) eqn:Ep; [by left|].
    right. eexists. split; [done|]. split; [done|].
    exists (u ++ [c]), []. rewrite app_nil_r. by destruct (trim_start (u ++ [c])).
  - right. rewrite Hlf. eexists. split; [done|]. split.
    + rewrite He, app_nil_r. apply text_segment_app.
    + destruct Hn as (s & t & -> & Hs & Hp). exists s, (t ++ [c]). by rewrite app_assoc.
Qed.

Lemma char_steps_line active u :
  LF ∉ u →
  let '(e, active') := line_meaning active (u ++ [LF]) in
  ∃ e', char_steps (mkTagged specs active true []) (u ++ [LF]) = (mkTagged specs active' true [], e') ∧
        e' ≈ e.
Proof.
  intros Hu. rewrite char_steps_app.
  destruct (char_steps_part active u Hu) as [->|(e & -> & He & Hn)]; cbn [char_steps char_step];
    rewrite N.eqb_refl.
  - destruct (line_meaning active (u ++ [LF])) as [e a']. eexists. split; [done|].
    by rewrite app_nil_r.
  - rewrite (not_tag_line active u [LF] Hn (line_slug_lf u)). eexists. split; [done|].
    rewrite He, app_nil_r. apply text_segment_app.
Qed.

Definition last_line (active : option T) (piece : rstring) : list seg :=
  if is_empty piece then close_block active
  else let '(segs, active') := line_meaning active piece in segs ++ close_block active'.

Lemma tagged_finish_meaning active detect buffer :
  snd (tagged_finish (mkTagged specs active detect buffer)) ≈ last_line active buffer.
Proof.
  unfold tagged_finish, last_line, line_meaning. cbn [tl_specs active_tag line_buffer].
  destruct (is_empty buffer).
  - by destruct active.
  - destruct (match_open specs (line_slug buffer)), active, (match_close specs (line_slug buffer));
      try case_decide; simplify_eq; cbn [snd]; rewrite ?push_text_glue; unfold same_segments;
      cbn [close_block text_segment]; rewrite ?app_nil_r; try apply glue_glue; try done.
    all: try (rewrite <- glue_push; apply glue_glue).
Qed.

(** The machine followed by [finish] has the line by line meaning. *)
Lemma char_steps_blocks pieces active :
  pieces ≠ [] → Forall (λ u, LF ∉ u) pieces →
  let '(p, x) := char_steps (mkTagged specs active true []) (join [LF] pieces) in
  x ++ snd (tagged_finish p) ≈ block_meaning active pieces.
Proof.
  revert active. induction pieces as [|u pieces IH]; [done|].
  intros active _ [Hu Hps]%Forall_cons. destruct pieces as [|v pieces].
  - cbn [join block_meaning]. fold (last_line active u).
    destruct (char_steps_part active u Hu) as [->|(e & -> & He & Hn)].
    + apply tagged_finish_meaning.
    + rewrite He, tagged_finish_meaning. unfold last_line.
      assert (is_empty u = false) as ->.
      { destruct Hn as (s & t & -> & Hs & _). by destruct s. }
      pose proof (not_tag_line active u [] Hn) as H. rewrite app_nil_r in H.
      by rewrite H by (by apply line_slug_no_lf).
  - rewrite join_cons by done. rewrite (app_assoc u [LF]), char_steps_app.
    change (block_meaning active (u :: v :: pieces)) with
      (let '(segs, active') := line_meaning active (u ++ [LF]) in
       segs ++ block_meaning active' (v :: pieces)).
    pose proof (char_steps_line active u Hu) as Hl.
    destruct (line_meaning active (u ++ [LF])) as [e a']. destruct Hl as (e' & -> & He).
    specialize (IH a' ltac:(done) Hps). destruct (char_steps _ (join _ _)) as [p x].
    by rewrite <- app_assoc, He, IH.
Qed.
End Lines.

(** ** Reading segments *)

(** A reader of segments that does not see the split of text. *)
Definition split_blind {T A} (f : A → TaggedLineSegment T → A) : Prop :=
  (∀ a, f a (Normal []) = a) ∧ (∀ a t, f a (TagDelta t []) = a) ∧
  (∀ a x y, f (f a (Normal x)) (Normal y) = f a (Normal (x ++ y))) ∧
  (∀ a t x y, f (f a (TagDelta t x)) (TagDelta t y) = f a (TagDelta t (x ++ y))).

Lemma foldl_push_segment {T A} `{EqDecision T} (f : A → TaggedLineSegment T → A) a l s :
  split_blind f → foldl f a (push_segment l s) = f (foldl f a l) s.
Proof.
  intros (Hn & Ht & Hnn & Htt). destruct s as [d| |t d|]; cbn [push_segment];
    try by rewrite foldl_snoc.
  - destruct d as [|c d]; [by rewrite Hn|]. cbn [is_empty].
    destruct (last l) as [[e| | |]|] eqn:E; try by rewrite foldl_snoc.
    apply last_Some in E as [l' ->]. by rewrite update_last_snoc, !foldl_snoc, Hnn.
  - destruct d as [|c d]; [by rewrite Ht|]. cbn [is_empty].
    destruct (last l) as [[|?|t' e|?]|] eqn:E; try by rewrite foldl_snoc.
    case_decide; [|by rewrite foldl_snoc]. subst.
    apply last_Some in E as [l' ->]. by rewrite update_last_snoc, !foldl_snoc, Htt.
Qed.

Lemma foldl_same_segments {T A} `{EqDecision T} (f : A → TaggedLineSegment T → A) a x y :
  split_blind f → x ≈ y → foldl f a x = foldl f a y.
Proof.
  intros Hf Hxy. assert (∀ z, foldl f a (glue [] z) = foldl f a z) as Hg.
  { intros z. induction z as [|s z IH] using rev_ind; [done|].
    rewrite glue_app, foldl_snoc. cbn [foldl]. rewrite <- IH. by apply foldl_push_segment. }
  by rewrite <- (Hg x), Hxy, Hg.
Qed.

(** The text outside blocks, and the text of the last block. *)
Definition normal_step {T} (v : rstring) (s : TaggedLineSegment T) : rstring :=
  match s with Normal text => v ++ text | _ => v end.
Definition normal_text {T} (segs : list (TaggedLineSegment T)) : rstring := foldl normal_step [] segs.
Definition plan_step (acc : rstring * bool) (s : TaggedLineSegment PlanTag) : rstring * bool :=
  extract_step acc (map_segment s).
Definition last_plan (segs : list (TaggedLineSegment PlanTag)) : option rstring :=
  let '(plan_text, saw) := foldl plan_step ([], false) segs in if saw then Some plan_text else None.

Lemma normal_step_blind {T} : split_blind (@normal_step T).
Proof. repeat split; intros; cbn [normal_step]; rewrite ?app_nil_r, ?app_assoc; done. Qed.

Lemma plan_step_blind : split_blind plan_step.
Proof.
  repeat split.
  - intros [? ?] []. unfold plan_step. cbn. by rewrite app_nil_r.
  - intros [? ?] [] x y. unfold plan_step. cbn. by rewrite app_assoc.
Qed.

Lemma normal_step_from {T} v (segs : list (TaggedLineSegment T)) :
  foldl normal_step v segs = v ++ normal_text segs.
Proof.
  unfold normal_text. induction segs as [|s segs IH] using rev_ind; [by rewrite app_nil_r|].
  rewrite !foldl_snoc, IH. destruct s; cbn [normal_step]; by rewrite ?app_assoc.
Qed.

Lemma map_segments_spec segs :
  map_segments segs = mkStreamChunk (normal_text segs) (map map_segment segs).
Proof.
  assert (∀ out, map_segments_from out segs =
    mkStreamChunk (foldl normal_step (visible_text out) segs)
      (extracted out ++ map map_segment segs)) as H; [|apply H].
  induction segs as [|s segs IH]; intros [v e]; cbn [map_segments_from map foldl].
  - by rewrite app_nil_r.
  - rewrite IH. cbn [visible_text extracted]. rewrite <- app_assoc.
    by destruct s as [?|[]|[] ?|[]].
Qed.

Lemma map_segments_app x y : map_segments (x ++ y) = chunk_app (map_segments x) (map_segments y).
Proof.
  rewrite !map_segments_spec. unfold chunk_app, normal_text. cbn [visible_text extracted].
  by rewrite map_app, foldl_app, normal_step_from.
Qed.

(** ** Streams through the plan parser *)
Section Plans.
Local Notation specs := [plan_spec].
Local Notation steps := (char_steps specs).

Definition plan_blocks (text : rstring) : list (TaggedLineSegment PlanTag) :=
  block_meaning specs None (split_on LF text).

Definition plan_state (p : TaggedLineParser PlanTag) : Prop :=
  ∃ active detect buffer, p = mkTagged specs active detect buffer.

Lemma char_steps_state p s : plan_state p → plan_state (fst (steps p s)).
Proof.
  revert p. induction s as [|c s IH]; intros p Hp; [done|]. cbn [char_steps].
  destruct (char_step specs p c) as [p' x] eqn:E.
  assert (plan_state p') as Hp'.
  { destruct p as [sp a d b]. unfold char_step in E.
    destruct d, (N.eqb c LF); try destruct (line_meaning _ _ _); try destruct (is_empty _ || _);
      simplify_eq; by eexists _, _, _. }
  specialize (IH p' Hp'). by destruct (steps p' s).
Qed.

Lemma plan_push_steps p chunk :
  plan_state p →
  push_str (mkPlan p) chunk =
  (map_segments (glue [] (snd (steps p chunk))), mkPlan (fst (steps p chunk))).
Proof.
  intros (a & d & b & ->). unfold push_str, plan_stream, tagged_parse. cbn [plan_parser].
  rewrite (parse_chars_steps specs chunk a d b [] []) by done. by rewrite glue_text_nil.
Qed.

Lemma plan_push_all p chunks :
  plan_state p →
  ∃ segs, push_all (mkPlan p) chunks = (map_segments segs, mkPlan (fst (steps p (concat chunks)))) ∧
          segs ≈ snd (steps p (concat chunks)).
Proof.
  revert p. induction chunks as [|c chunks IH]; intros p Hp; [by exists []|].
  cbn [push_all concat]. rewrite plan_push_steps by done. rewrite char_steps_app.
  pose proof (char_steps_state p c Hp) as Hp'. destruct (steps p c) as [p' x]. cbn [fst snd] in *.
  destruct (IH p' Hp') as (segs & -> & Hs). destruct (steps p' (concat chunks)) as [p'' y].
  exists (glue [] x ++ segs). split; [by rewrite map_segments_app|].
  cbn [snd] in *. by rewrite glue_same, Hs.
Qed.

Lemma plan_stream_blocks chunks :
  ∃ segs, stream_all new_plan chunks = map_segments segs ∧ segs ≈ plan_blocks (concat chunks).
Proof.
  assert (plan_state (new_tagged specs)) as Hn by (by eexists _, _, _).
  destruct (plan_push_all _ chunks Hn) as (segs & Hp & Hs). unfold stream_all, new_plan.
  rewrite Hp. unfold stream_finish, plan_stream. cbn [plan_parser].
  pose proof (char_steps_blocks specs (split_on LF (concat chunks)) None
    (split_on_not_nil _ _)) as Hb.
  rewrite join_split_on in Hb.
  destruct (steps (new_tagged specs) (concat chunks)) as [p x] eqn:E.
  unfold new_tagged in E. rewrite E in Hb. cbn [fst snd] in *.
  destruct (tagged_finish p) as [q tail]. exists (segs ++ tail).
  split; [by rewrite map_segments_app|]. rewrite Hs. apply Hb.
  apply Forall_forall. intros u. apply split_on_elem.
Qed.

Lemma stream_all_single {P T} `{!StreamTextParser P T} (p : P) text :
  stream_all p [text] =
  let '(out, q) := push_str p text in chunk_app out (fst (stream_finish q)).
Proof.
  unfold stream_all. cbn [push_all]. destruct (push_str p text) as [[v e] q].
  unfold chunk_app. cbn [visible_text extracted empty_chunk]. by rewrite !app_nil_r.
Qed.
Lemma strip_blocks text : strip_proposed_plan_blocks text = normal_text (plan_blocks text).
Proof.
  destruct (plan_stream_blocks [text]) as (segs & Hs & Hb). cbn [concat] in Hb.
  rewrite app_nil_r in Hb.
  rewrite stream_all_single in Hs. unfold strip_proposed_plan_blocks.
  destruct (push_str new_plan text) as [out q].
  apply (f_equal visible_text) in Hs. rewrite map_segments_spec in Hs. cbn [visible_text] in Hs.
  unfold normal_text. rewrite <- (foldl_same_segments _ [] _ _ normal_step_blind Hb). exact Hs.
Qed.

Lemma foldl_map_segment segs acc :
  foldl extract_step acc (map map_segment segs) = foldl plan_step acc segs.
Proof. revert acc. induction segs as [|s segs IH]; intros acc; [done|]. apply IH. Qed.

Lemma extract_blocks text : extract_proposed_plan_text text = last_plan (plan_blocks text).
Proof.
  destruct (plan_stream_blocks [text]) as (segs & Hs & Hb). cbn [concat] in Hb.
  rewrite app_nil_r in Hb.
  rewrite stream_all_single in Hs. unfold extract_proposed_plan_text.
  destruct (push_str new_plan text) as [out q].
  apply (f_equal extracted) in Hs. rewrite map_segments_spec in Hs.
  change (extracted out ++ extracted (fst (stream_finish q)) = map map_segment segs) in Hs.
  rewrite Hs, foldl_map_segment.
  unfold last_plan. by rewrite (foldl_same_segments _ _ _ _ plan_step_blind Hb).
Qed.


(** A line of text inside and around a block, and a tag with text after it. *)
Example plan_blocks_example :
  extract_proposed_plan_text (str "a" ++ LF :: str " <proposed_plan> " ++ LF :: str "<proposed_plan> x" ++
    LF :: str "</proposed_plan>" ++ LF :: str "b") = Some (str "<proposed_plan> x" ++ [LF]).
Proof. vm_compute. reflexivity. Qed.
End Plans.

(** ** Streams through the assistant text parser *)
Section Assistant.
Definition assistant_app (a b : AssistantTextChunk) : AssistantTextChunk :=
  mkAssistantChunk (at_visible_text a ++ at_visible_text b) (at_citations a ++ at_citations b)
    (at_plan_segments a ++ at_plan_segments b).

(** What a consumer has accumulated at the end of a stream. *)
Fixpoint assistant_all (p : AssistantTextStreamParser) (chunks : list rstring) : AssistantTextChunk :=
  match chunks with
  | [] => fst (assistant_finish p)
  | c :: chunks' => let '(o, p') := assistant_push_str p c in assistant_app o (assistant_all p' chunks')
  end.

(** The visible texts of the citation parser, one per chunk and one at the end. *)
Fixpoint visible_chunks (p : CitationStreamParser) (chunks : list rstring) : list rstring :=
  match chunks with
  | [] => [visible_text (fst (stream_finish p))]
  | c :: chunks' => let '(o, p') := push_str p c in visible_text o :: visible_chunks p' chunks'
  end.

Lemma stream_all_cons {P T} `{!StreamTextParser P T} (p : P) c chunks :
  stream_all p (c :: chunks) = let '(o, p') := push_str p c in chunk_app o (stream_all p' chunks).
Proof.
  unfold stream_all. cbn [push_all]. destruct (push_str p c) as [o p'].
  destruct (push_all p' chunks) as [o' p'']. by rewrite chunk_app_assoc.
Qed.

Lemma visible_chunks_concat p chunks :
  concat (visible_chunks p chunks) = visible_text (stream_all p chunks).
Proof.
  revert p. induction chunks as [|c chunks IH]; intros p.
  - unfold stream_all. cbn [visible_chunks concat push_all]. by rewrite app_nil_r.
  - rewrite stream_all_cons. cbn [visible_chunks]. destruct (push_str p c) as [o p'].
    cbn [concat]. by rewrite IH.
Qed.

Lemma assistant_plain chunks c pl :
  assistant_all (mkAssistant false c pl) chunks =
  mkAssistantChunk (visible_text (stream_all c chunks)) (extracted (stream_all c chunks)) [].
Proof.
  revert c. induction chunks as [|x chunks IH]; intros c.
  - unfold stream_all. cbn [assistant_all push_all]. unfold assistant_finish. cbn [at_citation_parser].
    by destruct (stream_finish c) as [[v e] c'].
  - rewrite stream_all_cons. cbn [assistant_all]. unfold assistant_push_str. cbn [at_citation_parser].
    destruct (push_str c x) as [o c']. cbn [plan_mode parse_visible_text negb at_plan_parser].
    by rewrite IH.
Qed.

Lemma assistant_plan chunks c pl :
  assistant_all (mkAssistant true c pl) chunks =
  mkAssistantChunk (visible_text (stream_all pl (visible_chunks c chunks)))
    (extracted (stream_all c chunks)) (extracted (stream_all pl (visible_chunks c chunks))).
Proof.
  revert c pl. induction chunks as [|x chunks IH]; intros c pl.
  - cbn [assistant_all visible_chunks]. rewrite stream_all_single.
    unfold stream_all, assistant_finish. cbn [push_all at_citation_parser at_plan_parser plan_mode].
    destruct (stream_finish c) as [[v e] c']. unfold parse_visible_text. cbn [negb fst visible_text].
    destruct (push_str pl v) as [o pl']. destruct (stream_finish pl') as [[tv te] pl''].
    cbn [fst]. destruct tv, te; cbn; by rewrite ?app_nil_r.
  - rewrite stream_all_cons. cbn [assistant_all visible_chunks]. unfold assistant_push_str.
    cbn [at_citation_parser at_plan_parser plan_mode].
    destruct (push_str c x) as [o c']. unfold parse_visible_text. cbn [negb].
    rewrite stream_all_cons. destruct (push_str pl (visible_text o)) as [po pl'].
    by rewrite IH.
Qed.
(** however the text of an assistant message is cut into chunks, the consumer
    gets the citations of the whole text, and, of the text without them, the plan
    blocks by line in plan mode and all of it otherwise. *)
Theorem assistant_text_meaning mode chunks :
  let out := assistant_all (new_assistant mode) chunks in
  let '(visible, citations) := strip_citations (concat chunks) in
  at_citations out = citations ∧
  if mode then
    at_visible_text out = strip_proposed_plan_blocks visible ∧
    ∃ segs, at_plan_segments out = map map_segment segs ∧ segs ≈ plan_blocks visible
  else at_visible_text out = visible ∧ at_plan_segments out = [].
Proof.
  cbn zeta. rewrite strip_citations_stream. unfold new_assistant. destruct mode.
  - rewrite assistant_plan. cbn [at_citations at_visible_text at_plan_segments].
    rewrite <- visible_chunks_concat, strip_blocks.
    destruct (plan_stream_blocks (visible_chunks new_citation chunks)) as (segs & -> & Hb).
    rewrite map_segments_spec. cbn [visible_text extracted]. split; [done|].
    split; [|by exists segs]. by apply (foldl_same_segments _ [] _ _ normal_step_blind).
  - by rewrite assistant_plain.
Qed.
End Assistant.
