(* ===== verification/StreamUtf8.v ===== *)
(** * Streams of bytes

    Models [sofia-rs/utils/stream-parser/src/utf8_stream.rs] over any stream text
    parser, and what it uses of the standard library: [str::from_utf8] with the
    [valid_up_to] and [error_len] of its error.  A [u8] is a number in [N]. *)

From stdpp Require Import base list numbers strings.
From S2P Require Import Prelude StreamInline.

(** ** [str::from_utf8] *)
Definition in_range (lo hi b : N) : bool := ((lo <=? b) && (b <=? hi))%N.
Definition is_cont (b : N) : bool := in_range 128 191 b.

(** The second byte of a sequence of three or four bytes, after the first. *)
Definition second_of_three (b0 b1 : N) : bool :=
  (N.eqb b0 224 && in_range 160 191 b1) || (in_range 225 236 b0 && in_range 128 191 b1) ||
  (N.eqb b0 237 && in_range 128 159 b1) || (in_range 238 239 b0 && in_range 128 191 b1).
Definition second_of_four (b0 b1 : N) : bool :=
  (N.eqb b0 240 && in_range 144 191 b1) || (in_range 241 243 b0 && in_range 128 191 b1) ||
  (N.eqb b0 244 && in_range 128 143 b1).

Definition char2 (b0 b1 : N) : N := (b0 mod 32 * 64 + b1 mod 64)%N.
Definition char3 (b0 b1 b2 : N) : N := (b0 mod 16 * 4096 + b1 mod 64 * 64 + b2 mod 64)%N.
Definition char4 (b0 b1 b2 b3 : N) : N :=
  (b0 mod 8 * 262144 + b1 mod 64 * 4096 + b2 mod 64 * 64 + b3 mod 64)%N.

(** How a scan ends: at the end of the input, inside a sequence that may go on, or
    at a sequence that cannot. *)
Inductive scan_end := ScanDone | ScanIncomplete | ScanInvalid (error_len : nat).

(** The characters decoded, the bytes they take, and the end. *)
Definition scanned : Type := rstring * nat * scan_end.
Definition scan_char (c : N) (n : nat) (r : scanned) : scanned :=
  let '(text, valid_up_to, e) := r in (c :: text, n + valid_up_to, e).
Definition scan_stop (e : scan_end) : scanned := ([], 0, e).

Fixpoint utf8_scan (bs : list N) : scanned :=
  match bs with
  | [] => scan_stop ScanDone
  | b0 :: bs0 =>
      if (b0 <? 128)%N then scan_char b0 1 (utf8_scan bs0)
      else if in_range 194 223 b0 then
        match bs0 with
        | [] => scan_stop ScanIncomplete
        | b1 :: bs1 =>
            if is_cont b1 then scan_char (char2 b0 b1) 2 (utf8_scan bs1)
            else scan_stop (ScanInvalid 1)
        end
      else if in_range 224 239 b0 then
        match bs0 with
        | [] => scan_stop ScanIncomplete
        | b1 :: bs1 =>
            if second_of_three b0 b1 then
              match bs1 with
              | [] => scan_stop ScanIncomplete
              | b2 :: bs2 =>
                  if is_cont b2 then scan_char (char3 b0 b1 b2) 3 (utf8_scan bs2)
                  else scan_stop (ScanInvalid 2)
              end
            else scan_stop (ScanInvalid 1)
        end
      else if in_range 240 244 b0 then
        match bs0 with
        | [] => scan_stop ScanIncomplete
        | b1 :: bs1 =>
            if second_of_four b0 b1 then
              match bs1 with
              | [] => scan_stop ScanIncomplete
              | b2 :: bs2 =>
                  if is_cont b2 then
                    match bs2 with
                    | [] => scan_stop ScanIncomplete
                    | b3 :: bs3 =>
                        if is_cont b3 then scan_char (char4 b0 b1 b2 b3) 4 (utf8_scan bs3)
                        else scan_stop (ScanInvalid 3)
                    end
                  else scan_stop (ScanInvalid 2)
              end
            else scan_stop (ScanInvalid 1)
        end
      else scan_stop (ScanInvalid 1)
  end.

Record Utf8Error := mkUtf8Error { valid_up_to : nat; error_len : option nat }.

Definition from_utf8 (bs : list N) : result Utf8Error rstring :=
  match utf8_scan bs with
  | (text, _, ScanDone) => Ok text
  | (_, n, ScanIncomplete) => Err (mkUtf8Error n None)
  | (_, n, ScanInvalid k) => Err (mkUtf8Error n (Some k))
  end.

(** ** [utf8_stream.rs] *)
Inductive Utf8StreamParserError :=
  | InvalidUtf8 (valid_up_to error_len : nat)
  | IncompleteUtf8AtEof.

(** The [Display] implementation. *)
Definition utf8_error_display (e : Utf8StreamParserError) : rstring :=
  match e with
  | InvalidUtf8 n k =>
      str "invalid UTF-8 in streamed bytes at offset " ++ dec (N.of_nat n) ++
      str " (error length " ++ dec (N.of_nat k) ++ str ")"
  | IncompleteUtf8AtEof => str "incomplete UTF-8 code point at end of stream"
  end.

Section Utf8.
Context {P T : Type} `{!StreamTextParser P T}.

Record Utf8StreamParser := mkUtf8 { utf8_inner : P; pending_utf8 : list N }.

Definition new_utf8 (inner : P) : Utf8StreamParser := mkUtf8 inner [].

Definition push_bytes (p : Utf8StreamParser) (chunk : list N)
    : result Utf8StreamParserError (StreamTextChunk T) * Utf8StreamParser :=
  let old_len := length (pending_utf8 p) in
  let buffered := pending_utf8 p ++ chunk in
  match from_utf8 buffered with
  | Ok text =>
      let '(out, inner) := push_str (utf8_inner p) text in (Ok out, mkUtf8 inner [])
  | Err err =>
      match error_len err with
      | Some k =>
          (Err (InvalidUtf8 (valid_up_to err) k), mkUtf8 (utf8_inner p) (take old_len buffered))
      | None =>
          let n := valid_up_to err in
          if n =? 0 then (Ok empty_chunk, mkUtf8 (utf8_inner p) buffered)
          else
            match from_utf8 (take n buffered) with
            | Ok text =>
                let '(out, inner) := push_str (utf8_inner p) text in
                (Ok out, mkUtf8 inner (drop n buffered))
            | Err prefix_err =>
                (Err (InvalidUtf8 (valid_up_to prefix_err) (default 0 (error_len prefix_err))),
                 mkUtf8 (utf8_inner p) (take old_len buffered))
            end
      end
  end.

(** The error of undecoded bytes in [finish] and [into_inner]. *)
Definition leftover_error (err : Utf8Error) : Utf8StreamParserError :=
  match error_len err with
  | Some k => InvalidUtf8 (valid_up_to err) k
  | None => IncompleteUtf8AtEof
  end.

Definition utf8_finish (p : Utf8StreamParser)
    : result Utf8StreamParserError (StreamTextChunk T) * Utf8StreamParser :=
  let close out p :=
    let '(tail, inner) := stream_finish (utf8_inner p) in
    (Ok (chunk_app out tail), mkUtf8 inner (pending_utf8 p)) in
  if is_empty (pending_utf8 p) then close empty_chunk p
  else
    match from_utf8 (pending_utf8 p) with
    | Err err => (Err (leftover_error err), p)
    | Ok text =>
        let '(out, inner) := push_str (utf8_inner p) text in close out (mkUtf8 inner [])
    end.

Definition into_inner (p : Utf8StreamParser) : result Utf8StreamParserError P :=
  if is_empty (pending_utf8 p) then Ok (utf8_inner p)
  else match from_utf8 (pending_utf8 p) with
       | Ok _ => Ok (utf8_inner p)
       | Err err => Err (leftover_error err)
       end.

Definition into_inner_lossy (p : Utf8StreamParser) : P := utf8_inner p.
End Utf8.
Arguments Utf8StreamParser : clear implicits.

(** * Correctness of byte streams

    The scanner decodes exactly the UTF-8 encodings of texts, and the byte parser
    in front of any lawful stream parser is transparent: it succeeds exactly on
    streams of valid bytes, and then gives the output of the text they encode,
    however the bytes are cut. *)

From stdpp Require Import base list numbers strings.
From S2P Require Import Prelude StreamInline StreamPlan StreamPlanSpec.

#[local] Set Default Proof Using "Type*".
(** [lia] with division and remainder. *)
Ltac Zify.zify_post_hook ::= Z.to_euclidean_division_equations.
#[local] Open Scope N_scope.

(** ** The encoding *)
Definition is_scalar (c : N) : bool := (c <? 0xD800) || ((0xE000 <=? c) && (c <? 0x110000)).

Definition encode_char (c : N) : list N :=
  if c <? 0x80 then [c]
  else if c <? 0x800 then [192 + c / 64; 128 + c mod 64]
  else if c <? 0x10000 then [224 + c / 4096; 128 + c / 64 mod 64; 128 + c mod 64]
  else [240 + c / 262144; 128 + c / 4096 mod 64; 128 + c / 64 mod 64; 128 + c mod 64].

Definition encode (s : rstring) : list N := concat (map encode_char s).
Definition scalars (s : rstring) : Prop := Forall (λ c, is_scalar c = true) s.

Lemma if_true {A} (b : bool) (x y : A) : b = true → (if b then x else y) = x.
Proof. by intros ->. Qed.
Lemma if_false {A} (b : bool) (x y : A) : b = false → (if b then x else y) = y.
Proof. by intros ->. Qed.

Lemma is_scalar_range c :
  is_scalar c = true ↔ c < 0xD800 ∨ (0xE000 ≤ c ∧ c < 0x110000).
Proof. unfold is_scalar. rewrite orb_true_iff, andb_true_iff, !N.ltb_lt, N.leb_le. done. Qed.

Lemma in_range_true lo hi b : in_range lo hi b = true ↔ lo ≤ b ∧ b ≤ hi.
Proof. unfold in_range. rewrite andb_true_iff, !N.leb_le. done. Qed.
Lemma in_range_false lo hi b : in_range lo hi b = false ↔ b < lo ∨ hi < b.
Proof. unfold in_range. rewrite andb_false_iff, !N.leb_gt. done. Qed.

Lemma second_of_three_true b0 b1 :
  second_of_three b0 b1 = true ↔
  (b0 = 224 ∧ 160 ≤ b1 ≤ 191) ∨ (225 ≤ b0 ≤ 236 ∧ 128 ≤ b1 ≤ 191) ∨
  (b0 = 237 ∧ 128 ≤ b1 ≤ 159) ∨ (238 ≤ b0 ≤ 239 ∧ 128 ≤ b1 ≤ 191).
Proof.
  unfold second_of_three. rewrite !orb_true_iff, !andb_true_iff, !in_range_true, !N.eqb_eq. tauto.
Qed.
Lemma second_of_four_true b0 b1 :
  second_of_four b0 b1 = true ↔
  (b0 = 240 ∧ 144 ≤ b1 ≤ 191) ∨ (241 ≤ b0 ≤ 243 ∧ 128 ≤ b1 ≤ 191) ∨
  (b0 = 244 ∧ 128 ≤ b1 ≤ 143).
Proof.
  unfold second_of_four. rewrite !orb_true_iff, !andb_true_iff, !in_range_true, !N.eqb_eq. tauto.
Qed.

(** Scanning the encoding of one character. *)
Lemma scan_encode_char c bs :
  is_scalar c = true →
  utf8_scan (encode_char c ++ bs) = scan_char c (length (encode_char c)) (utf8_scan bs).
Proof.
  intros Hc%is_scalar_range. unfold encode_char.
  destruct (N.ltb_spec c 0x80) as [H1|H1].
  { cbn [app utf8_scan]. by rewrite if_true by (by apply N.ltb_lt). }
  destruct (N.ltb_spec c 0x800) as [H2|H2].
  { cbn [app utf8_scan]. rewrite if_false by (apply N.ltb_ge; lia).
    rewrite if_true by (apply in_range_true; lia).
    rewrite if_true by (apply in_range_true; lia).
    cbn [length]. f_equal. unfold char2. lia. }
  destruct (N.ltb_spec c 0x10000) as [H3|H3].
  { cbn [app utf8_scan]. rewrite if_false by (apply N.ltb_ge; lia).
    rewrite if_false by (apply in_range_false; lia).
    rewrite if_true by (apply in_range_true; lia).
    rewrite if_true by (apply second_of_three_true; lia).
    rewrite if_true by (apply in_range_true; lia).
    cbn [length]. f_equal. unfold char3. lia. }
  cbn [app utf8_scan]. rewrite if_false by (apply N.ltb_ge; lia).
  rewrite if_false by (apply in_range_false; lia).
  rewrite if_false by (apply in_range_false; lia).
  rewrite if_true by (apply in_range_true; lia).
  rewrite if_true by (apply second_of_four_true; lia).
  rewrite if_true by (apply in_range_true; lia).
  rewrite if_true by (apply in_range_true; lia).
  cbn [length]. f_equal. unfold char4. lia.
Qed.

(** The characters the scanner decodes have the bytes it read. *)
Lemma encode_char2 b0 b1 :
  194 ≤ b0 ≤ 223 → 128 ≤ b1 ≤ 191 →
  is_scalar (char2 b0 b1) = true ∧ encode_char (char2 b0 b1) = [b0; b1].
Proof.
  intros H0 H1. assert (char2 b0 b1 = (b0 - 192) * 64 + (b1 - 128)) as -> by (unfold char2; lia).
  split; [apply is_scalar_range; lia|]. unfold encode_char.
  rewrite if_false by (apply N.ltb_ge; lia). rewrite if_true by (apply N.ltb_lt; lia).
  repeat f_equal; lia.
Qed.

Lemma encode_char3 b0 b1 b2 :
  second_of_three b0 b1 = true → 128 ≤ b2 ≤ 191 →
  is_scalar (char3 b0 b1 b2) = true ∧ encode_char (char3 b0 b1 b2) = [b0; b1; b2].
Proof.
  intros H0%second_of_three_true H2.
  assert (char3 b0 b1 b2 = (b0 - 224) * 4096 + (b1 - 128) * 64 + (b2 - 128)) as -> by (unfold char3; lia).
  split; [apply is_scalar_range; lia|]. unfold encode_char.
  rewrite if_false by (apply N.ltb_ge; lia). rewrite if_false by (apply N.ltb_ge; lia).
  rewrite if_true by (apply N.ltb_lt; lia). repeat f_equal; lia.
Qed.

Lemma encode_char4 b0 b1 b2 b3 :
  second_of_four b0 b1 = true → 128 ≤ b2 ≤ 191 → 128 ≤ b3 ≤ 191 →
  is_scalar (char4 b0 b1 b2 b3) = true ∧ encode_char (char4 b0 b1 b2 b3) = [b0; b1; b2; b3].
Proof.
  intros H0%second_of_four_true H2 H3.
  assert (char4 b0 b1 b2 b3 = (b0 - 240) * 262144 + (b1 - 128) * 4096 + (b2 - 128) * 64 + (b3 - 128))
    as -> by (unfold char4; lia).
  split; [apply is_scalar_range; lia|]. unfold encode_char.
  rewrite if_false by (apply N.ltb_ge; lia). rewrite if_false by (apply N.ltb_ge; lia).
  rewrite if_false by (apply N.ltb_ge; lia). repeat f_equal; lia.
Qed.

(** A sequence that cannot go on stays invalid whatever follows. *)
Definition stuck (bs : list N) (e : scan_end) : Prop :=
  utf8_scan bs = scan_stop e ∧
  match e with
  | ScanDone => False
  | ScanIncomplete => True
  | ScanInvalid _ => ∀ more, utf8_scan (bs ++ more) = scan_stop e
  end.

(** The scan of a byte string that stops at once, by the tests that failed. *)
Ltac stuck_at e :=
  right; exists e; split; [|try exact I]; intros; cbn [utf8_scan app];
  repeat match goal with H : ?b = _ :> bool |- context [?b] => rewrite H end; reflexivity.

Definition starts_well (bs : list N) : Prop :=
  (∃ c rest, is_scalar c = true ∧ bs = encode_char c ++ rest) ∨ (∃ e, stuck bs e).

Lemma scan_view3 b0 bs0 :
  b0 <? 128 = false → in_range 194 223 b0 = false → in_range 224 239 b0 = true →
  starts_well (b0 :: bs0).
Proof.
  intros E0 E2 E3. destruct bs0 as [|b1 bs1]; [stuck_at ScanIncomplete|].
  destruct (second_of_three b0 b1) eqn:C1; [|stuck_at (ScanInvalid 1)].
  destruct bs1 as [|b2 bs2]; [stuck_at ScanIncomplete|].
  destruct (is_cont b2) eqn:C2; [|stuck_at (ScanInvalid 2)].
  left. exists (char3 b0 b1 b2), bs2. apply in_range_true in C2.
  by destruct (encode_char3 b0 b1 b2 C1) as [? ->]; [lia|].
Qed.

Lemma scan_view4 b0 bs0 :
  b0 <? 128 = false → in_range 194 223 b0 = false → in_range 224 239 b0 = false →
  in_range 240 244 b0 = true → starts_well (b0 :: bs0).
Proof.
  intros E0 E2 E3 E4. destruct bs0 as [|b1 bs1]; [stuck_at ScanIncomplete|].
  destruct (second_of_four b0 b1) eqn:C1; [|stuck_at (ScanInvalid 1)].
  destruct bs1 as [|b2 bs2]; [stuck_at ScanIncomplete|].
  destruct (is_cont b2) eqn:C2; [|stuck_at (ScanInvalid 2)].
  destruct bs2 as [|b3 bs3]; [stuck_at ScanIncomplete|].
  destruct (is_cont b3) eqn:C3; [|stuck_at (ScanInvalid 3)].
  left. exists (char4 b0 b1 b2 b3), bs3. apply in_range_true in C2, C3.
  by destruct (encode_char4 b0 b1 b2 b3 C1) as [? ->]; [lia|lia|].
Qed.

(** The start of any byte string: nothing, a character, or a bad sequence. *)
Lemma scan_view bs : bs = [] ∨ starts_well bs.
Proof.
  destruct bs as [|b0 bs0]; [by left|]. right.
  destruct (b0 <? 128) eqn:E0.
  { left. exists b0, bs0. unfold encode_char. rewrite E0. apply N.ltb_lt in E0.
    split; [apply is_scalar_range; lia|done]. }
  destruct (in_range 194 223 b0) eqn:E2.
  { destruct bs0 as [|b1 bs1]; [stuck_at ScanIncomplete|].
    destruct (is_cont b1) eqn:C1; [|stuck_at (ScanInvalid 1)].
    left. exists (char2 b0 b1), bs1. apply in_range_true in E2, C1.
    by destruct (encode_char2 b0 b1) as [? ->]; [lia|lia|]. }
  destruct (in_range 224 239 b0) eqn:E3; [by apply scan_view3|].
  destruct (in_range 240 244 b0) eqn:E4; [by apply scan_view4|stuck_at (ScanInvalid 1)].
Qed.

(** ** Scanning whole strings *)
#[local] Close Scope N_scope.

Lemma encode_app s t : encode (s ++ t) = encode s ++ encode t.
Proof. unfold encode. by rewrite map_app, concat_app. Qed.

Lemma encode_char_nonempty c : encode_char c ≠ [].
Proof. unfold encode_char. by repeat case_match. Qed.

Lemma length_encode s : N.of_nat (length (encode s)) = str_len s.
Proof.
  induction s as [|c s IH]; [done|]. cbn [encode map concat str_len]. fold (encode s).
  rewrite length_app, Nat2N.inj_add, IH. f_equal. unfold encode_char, char_len.
  by destruct (c <? 0x80)%N, (c <? 0x800)%N, (c <? 0x10000)%N.
Qed.

Definition scan_text (s : rstring) (r : scanned) : scanned :=
  let '(text, n, e) := r in (s ++ text, length (encode s) + n, e).

Lemma scan_encode s bs :
  scalars s → utf8_scan (encode s ++ bs) = scan_text s (utf8_scan bs).
Proof.
  intros Hs. induction s as [|c s IH].
  { change (encode [] ++ bs) with bs. by destruct (utf8_scan bs) as [[? ?] ?]. }
  apply Forall_cons in Hs as [Hc Hs]. cbn [encode map concat]. fold (encode s).
  rewrite <- app_assoc, scan_encode_char, (IH Hs) by done.
  destruct (utf8_scan bs) as [[t n] e]. cbn [scan_char scan_text encode map concat app].
  fold (encode s). by rewrite length_app, Nat.add_assoc.
Qed.

(** Every byte string is the encoding of some text and then nothing or a bad
    sequence, and the scan says so. *)
Lemma scan_split bs :
  ∃ s rest e, scalars s ∧ bs = encode s ++ rest ∧ utf8_scan bs = (s, length (encode s), e) ∧
    ((rest = [] ∧ e = ScanDone) ∨ stuck rest e).
Proof.
  induction bs as [bs IH] using (induction_ltof1 _ length). unfold ltof in IH.
  destruct (scan_view bs) as [->|[(c & rest & Hc & ->)|(e & He)]].
  - exists [], [], ScanDone. split_and!; [constructor|done|done|by left].
  - destruct (IH rest) as (s & r & e & Hs & Hr & Hscan & He).
    { rewrite length_app. pose proof (encode_char_nonempty c). destruct (encode_char c); [done|].
      cbn [length]. lia. }
    exists (c :: s), r, e. cbn [encode map concat]. fold (encode s). split_and!; [by constructor| | |done].
    + by rewrite Hr, app_assoc.
    + by rewrite scan_encode_char, Hscan, length_app by done.
  - exists [], bs, e. split_and!; [constructor|done|by destruct He|by right].
Qed.

(** The text of an encoding is unique, and no encoding has a bad sequence. *)
Lemma encode_stuck s rest e t more :
  scalars s → scalars t → stuck rest e → e ≠ ScanIncomplete ∨ more = [] →
  encode t ≠ encode s ++ rest ++ more.
Proof.
  intros Hs Ht [Hr He] Hm H. pose proof (scan_encode t [] Ht) as H1. rewrite app_nil_r, H in H1.
  rewrite scan_encode in H1 by done.
  assert (utf8_scan (rest ++ more) = scan_stop e) as Hr'.
  { destruct e; [done| |apply He]. destruct Hm as [?| ->]; [done|]. by rewrite app_nil_r. }
  rewrite Hr' in H1. cbn in H1. destruct e; naive_solver.
Qed.

Lemma encode_inj s t : scalars s → scalars t → encode s = encode t → s = t.
Proof.
  intros Hs Ht H. pose proof (scan_encode s [] Hs) as H1. pose proof (scan_encode t [] Ht) as H2.
  rewrite H, H2 in H1. cbn in H1. rewrite !app_nil_r in H1. by injection H1.
Qed.

(** [from_utf8] on any byte string. *)
Lemma from_utf8_view bs :
  ∃ s rest, scalars s ∧ bs = encode s ++ rest ∧
    ((rest = [] ∧ from_utf8 bs = Ok s) ∨
     (stuck rest ScanIncomplete ∧ from_utf8 bs = Err (mkUtf8Error (length (encode s)) None)) ∨
     (∃ k, stuck rest (ScanInvalid k) ∧
           from_utf8 bs = Err (mkUtf8Error (length (encode s)) (Some k)))).
Proof.
  destruct (scan_split bs) as (s & rest & e & Hs & Hbs & Hscan & He). exists s, rest.
  unfold from_utf8. rewrite Hscan. split_and!; [done|done|].
  destruct He as [[-> ->]|He]; [by left|]. right.
  destruct e as [| |k]; [by destruct He|by left|right; by exists k].
Qed.

Lemma from_utf8_encode s : scalars s → from_utf8 (encode s) = Ok s.
Proof.
  intros Hs. unfold from_utf8. pose proof (scan_encode s [] Hs) as H. rewrite app_nil_r in H.
  rewrite H. cbn. by rewrite app_nil_r.
Qed.

(** ** The byte parser over a lawful stream parser *)

(** What a client may rely on of a stream parser: on states that satisfy [inv], a
    push of nothing does nothing, and pushing two texts one after the other is
    pushing them at once, with outputs compared by [same]. *)
Class StreamLaws (P T : Type) `{!StreamTextParser P T}
    (same : relation (StreamTextChunk T)) (inv : P → Prop) : Prop := {
  law_equiv :: Equivalence same;
  law_proper :: Proper (same ==> same ==> same) chunk_app;
  law_inv p s : inv p → inv (snd (push_str p s));
  law_nil p : inv p → same (fst (push_str p [])) empty_chunk ∧ snd (push_str p []) = p;
  law_app p s t : inv p →
    let q := snd (push_str p s) in
    same (fst (push_str p (s ++ t))) (chunk_app (fst (push_str p s)) (fst (push_str q t))) ∧
    snd (push_str p (s ++ t)) = snd (push_str q t);
}.

Section ByteStreams.
Context {P T : Type} `{!StreamTextParser P T} (same : relation (StreamTextChunk T)) (inv : P → Prop).
Context `{Laws : !StreamLaws P T same inv}.

(** What a consumer gets from chunks of bytes up to the first error. *)
Fixpoint utf8_all (p : Utf8StreamParser P) (chunks : list (list N))
    : result Utf8StreamParserError (StreamTextChunk T) :=
  match chunks with
  | [] => fst (utf8_finish p)
  | c :: chunks' =>
      match push_bytes p c with
      | (Err e, _) => Err e
      | (Ok o, p') => o' ← utf8_all p' chunks'; Ok (chunk_app o o')
      end
  end.

(** The undecoded bytes between two pushes: none, or the start of a character. *)
Definition partial (r : list N) : Prop := r = [] ∨ stuck r ScanIncomplete.

Lemma encode_nil_length s : length (encode s) = 0 → s = [].
Proof.
  destruct s as [|c s]; [done|]. cbn [encode map concat]. rewrite length_app.
  pose proof (encode_char_nonempty c). destruct (encode_char c); [done|]. cbn [length]. lia.
Qed.

(** One push decodes what is complete, or fails and leaves the parser as it was. *)
Lemma push_bytes_spec p r c :
  inv p →
  ∃ s rest, scalars s ∧ r ++ c = encode s ++ rest ∧
    ((partial rest ∧ ∃ o, push_bytes (mkUtf8 p r) c = (Ok o, mkUtf8 (snd (push_str p s)) rest) ∧
                          same o (fst (push_str p s))) ∨
     (∃ k, stuck rest (ScanInvalid k) ∧
           push_bytes (mkUtf8 p r) c = (Err (InvalidUtf8 (length (encode s)) k), mkUtf8 p r))).
Proof.
  intros Hp. unfold push_bytes. cbn [pending_utf8 utf8_inner].
  destruct (from_utf8_view (r ++ c)) as (s & rest & Hs & Hb & Hv).
  exists s, rest. split_and!; [done|done|].
  destruct Hv as [[-> ->]|[[Hst ->]|(k & Hst & ->)]]; cbn [error_len valid_up_to].
  - left. split; [by left|]. exists (fst (push_str p s)). by destruct (push_str p s).
  - left. split; [by right|]. destruct (Nat.eqb_spec (length (encode s)) 0) as [H0|H0].
    + apply encode_nil_length in H0 as ->. destruct (law_nil p Hp) as [Ho Hq].
      exists empty_chunk. by rewrite Hb, Hq.
    + rewrite Hb, take_app_length, drop_app_length, from_utf8_encode by done.
      exists (fst (push_str p s)). by destruct (push_str p s).
  - right. exists k. split; [done|]. by rewrite take_app_length.
Qed.

Lemma encode_suffix t s r :
  scalars s → scalars t → encode t = encode s ++ r → ∃ t', scalars t' ∧ r = encode t'.
Proof.
  intros Hs Ht H. destruct (scan_split r) as (s' & rest & e & Hs' & -> & _ & [[-> _]|He]).
  - exists s'. by rewrite app_nil_r.
  - exfalso. apply (encode_stuck (s ++ s') rest e t []); [by apply Forall_app|done|done|by right|].
    by rewrite H, encode_app, app_nil_r, app_assoc.
Qed.

Definition text_output (p : P) (s : rstring) : StreamTextChunk T :=
  chunk_app (fst (push_str p s)) (fst (stream_finish (snd (push_str p s)))).

Lemma utf8_finish_spec p r :
  inv p → partial r →
  match fst (utf8_finish (mkUtf8 p r)) with
  | Ok o => r = [] ∧ same o (text_output p [])
  | Err e => e = IncompleteUtf8AtEof ∧ stuck r ScanIncomplete
  end.
Proof.
  intros Hp Hr. unfold utf8_finish. cbn [pending_utf8 utf8_inner]. destruct r as [|b r].
  - cbn [is_empty]. destruct (law_nil p Hp) as [Ho Hq]. unfold text_output. rewrite Hq.
    destruct (stream_finish p) as [tail q]. cbn [fst]. split; [done|]. by rewrite Ho.
  - destruct Hr as [|Hst]; [done|]. cbn [is_empty]. unfold from_utf8. by rewrite (proj1 Hst).
Qed.

Lemma utf8_all_spec chunks : ∀ p r,
  inv p → partial r →
  match utf8_all (mkUtf8 p r) chunks with
  | Ok o => ∃ s, scalars s ∧ r ++ concat chunks = encode s ∧ same o (text_output p s)
  | Err _ => ∀ s, scalars s → encode s ≠ r ++ concat chunks
  end.
Proof.
  induction chunks as [|c chunks IH]; intros p r Hp Hr; cbn [utf8_all concat].
  { pose proof (utf8_finish_spec p r Hp Hr) as H. rewrite app_nil_r.
    destruct (fst (utf8_finish (mkUtf8 p r))) as [o|e].
    - destruct H as [-> H]. exists []. split_and!; [constructor|done|done].
    - intros s Hs He. apply (encode_stuck [] r ScanIncomplete s []); [constructor|done|apply H|by right|].
      by rewrite app_nil_r. }
  rewrite app_assoc.
  destruct (push_bytes_spec p r c Hp) as (s & rest & Hs & -> & [[Hpr (o & -> & Ho)]|(k & Hst & ->)]).
  - specialize (IH (snd (push_str p s)) rest (law_inv p s Hp) Hpr). rewrite <- app_assoc.
    destruct (utf8_all _ chunks) as [o'|e]; simpl.
    + destruct IH as (s' & Hs' & -> & Ho'). exists (s ++ s').
      split_and!; [by apply Forall_app|by rewrite encode_app|].
      unfold text_output in *. destruct (law_app p s s' Hp) as [Happ Hq].
      by rewrite Happ, Hq, Ho, Ho', chunk_app_assoc.
    + intros t Ht He. destruct (encode_suffix t s _ Hs Ht He) as (t' & Ht' & Heq).
      by apply (IH t').
  - intros t Ht. rewrite <- app_assoc. apply (encode_stuck s rest (ScanInvalid k)); try done. by left.
Qed.
(** in front of a stream parser that obeys the laws, the byte parser accepts
    exactly the streams of bytes that are the UTF-8 encoding of a text, wherever
    the bytes are cut, and then the output is that of the text pushed at once; any
    other stream ends in an error. *)
Theorem utf8_stream_transparent p chunks :
  inv p →
  match utf8_all (new_utf8 p) chunks with
  | Ok o => ∃ s, scalars s ∧ concat chunks = encode s ∧ same o (stream_all p [s])
  | Err _ => ∀ s, scalars s → concat chunks ≠ encode s
  end.
Proof.
  intros Hp. pose proof (utf8_all_spec chunks p [] Hp (or_introl eq_refl)) as H. unfold new_utf8.
  destruct (utf8_all (mkUtf8 p []) chunks) as [o|e]; cbn [app] in H.
  - destruct H as (s & Hs & He & Ho). exists s. rewrite stream_all_single. unfold text_output in Ho.
    by destruct (push_str p s).
  - intros s Hs He. by apply (H s).
Qed.

(** A push that fails leaves the parser as it was. *)
Lemma push_bytes_rollback (q q' : Utf8StreamParser P) c e : push_bytes q c = (Err e, q') → q' = q.
Proof using Type.
  destruct q as [p r]. unfold push_bytes. cbn [pending_utf8 utf8_inner].
  rewrite take_app_length. intros H.
  repeat (case_match; simplify_eq; try done).
Qed.
End ByteStreams.

(** ** The parsers obey the laws *)
Lemma app_self_nil {A} (x y : list A) : x = x ++ y → y = [].
Proof.
  intros H%(f_equal length). rewrite length_app in H. destruct y; [done|]. cbn [length] in H. lia.
Qed.

Definition citation_inv (p : CitationStreamParser) : Prop :=
  citation_state p ∧ push_str p [] = (empty_chunk, p).

Lemma citation_push_nil p x : citation_state p →
  push_str (snd (push_str p x)) [] = (empty_chunk, snd (push_str p x)).
Proof.
  intros Hp. pose proof (citation_push_app p x [] Hp) as H. rewrite app_nil_r in H.
  destruct (push_str p x) as [[v e] p1]. destruct H as [_ H]. cbn [snd].
  destruct (push_str p1 []) as [[v' e'] p2]. unfold chunk_app in H. cbn [visible_text extracted] in H.
  injection H as Hv He <-. apply app_self_nil in Hv, He. by subst.
Qed.

#[global] Instance citation_laws : StreamLaws CitationStreamParser rstring eq citation_inv.
Proof.
  split; try apply _.
  - intros p s [Hp _]. split; [|by apply citation_push_nil].
    pose proof (citation_push_app p s [] Hp) as H. destruct (push_str p s) as [o q]. apply H.
  - intros p [_ ->]. done.
  - intros p s t [Hp _]. cbn zeta. pose proof (citation_push_app p s t Hp) as H.
    destruct (push_str p s) as [o q]. destruct H as [_ ->]. cbn [fst snd].
    by destruct (push_str q t).
Qed.

Lemma new_citation_inv : citation_inv new_citation.
Proof. split; [exact new_citation_state|]. vm_compute. reflexivity. Qed.

(** Plan segments up to the split of text. *)
Definition unmap_segment (s : ProposedPlanSegment) : TaggedLineSegment PlanTag :=
  match s with
  | PlanNormal text => Normal text
  | ProposedPlanStart => TagStart ProposedPlan
  | ProposedPlanDelta text => TagDelta ProposedPlan text
  | ProposedPlanEnd => TagEnd ProposedPlan
  end.
Definition same_plan (o o' : StreamTextChunk ProposedPlanSegment) : Prop :=
  visible_text o = visible_text o' ∧
  same_segments (map unmap_segment (extracted o)) (map unmap_segment (extracted o')).

Lemma unmap_map_segments segs : map unmap_segment (map map_segment segs) = segs.
Proof.
  rewrite map_map. induction segs as [|s segs IH]; [done|]. cbn [map]. rewrite IH.
  by destruct s as [?|[]|[] ?|[]].
Qed.

Lemma map_segments_same x y : same_segments x y → same_plan (map_segments x) (map_segments y).
Proof.
  intros H. rewrite !map_segments_spec. split; cbn [visible_text extracted].
  - by apply (foldl_same_segments _ [] _ _ normal_step_blind).
  - by rewrite !unmap_map_segments.
Qed.

Definition plan_inv (p : ProposedPlanParser) : Prop := plan_state (plan_parser p).

#[global] Instance same_plan_equiv : Equivalence same_plan.
Proof.
  split; [by intros o|intros o o' [H H']; split; by symmetry|].
  intros o o' o'' [H H'] [G G']. split; by etrans.
Qed.

#[global] Instance plan_laws : StreamLaws ProposedPlanParser ProposedPlanSegment same_plan plan_inv.
Proof.
  split; try apply _.
  - intros a a' [Hv He] b b' [Gv Ge]. split; cbn [chunk_app visible_text extracted].
    + by rewrite Hv, Gv.
    + rewrite !map_app. by rewrite He, Ge.
  - intros [p] s Hp. rewrite plan_push_steps by done. by apply char_steps_state.
  - intros [p] Hp. by rewrite plan_push_steps by done.
  - intros [p] s t Hp. cbn zeta. rewrite !plan_push_steps by done. cbn [fst snd].
    rewrite plan_push_steps by (by apply char_steps_state). rewrite char_steps_app.
    destruct (char_steps _ p s) as [q x]. cbn [fst snd]. destruct (char_steps _ q t) as [q' y].
    cbn [fst snd]. split; [|done]. rewrite <- map_segments_app. apply map_segments_same.
    by rewrite !glue_same.
Qed.

Lemma utf8_stream_transparent_witness :
  citation_inv new_citation ∧
  match utf8_all (new_utf8 new_citation) [[195%N]; [169; 60]%N] with
  | Ok o => ∃ s, scalars s ∧ concat [[195%N]; [169; 60]%N] = encode s ∧ o = stream_all new_citation [s]
  | Err _ => ∀ s, scalars s → concat [[195%N]; [169; 60]%N] ≠ encode s
  end.
Proof.
  split; [exact new_citation_inv|].
  exact (utf8_stream_transparent eq citation_inv new_citation [[195%N]; [169; 60]%N] new_citation_inv).
Defined.

(** A character cut in two, a bad byte that is rolled back, and a missing end. *)
Example utf8_split_char :
  utf8_all (new_utf8 new_citation) [[195%N]; [169; 60]%N] = Ok (mkStreamChunk [233; 60]%N []) ∧
  utf8_all (new_utf8 new_citation) [[97; 128]%N] = Err (InvalidUtf8 1 1) ∧
  utf8_all (new_utf8 new_citation) [[226; 130]%N] = Err IncompleteUtf8AtEof.
Proof. vm_compute. done. Qed.
