(* ===== verification/HeadTailBuffer.v ===== *)
(** * The head and tail buffer of command output

    Models [sofia-rs/core/src/unified_exec/head_tail_buffer.rs]: a buffer that
    keeps the first and the last bytes of an output and counts the bytes it drops
    in between.  Lengths of vectors are [nat]; the count of dropped bytes is a
    [usize] that saturates. *)

From stdpp Require Import base list numbers strings.
From S2P Require Import Prelude Machine.

(** [format_output_omission_marker] of [unified_exec/mod.rs]. *)
Definition format_output_omission_marker (omitted_bytes : N) : rstring :=
  str "... " ++ dec omitted_bytes ++ str " bytes omitted ...".

Definition UNIFIED_EXEC_OUTPUT_MAX_BYTES : N := (1024 * 1024)%N.

Section HeadTail.
Context (MAX_BYTES : nat).

Record HeadTailBuffer := mkHeadTail { ht_head : list N; ht_tail : list N; omitted_bytes : N }.

Definition default_head_tail : HeadTailBuffer := mkHeadTail [] [] 0.

Definition HEAD_BUDGET : nat := MAX_BYTES / 2.
Definition TAIL_BUDGET : nat := MAX_BYTES - HEAD_BUDGET.

Definition retained_bytes (b : HeadTailBuffer) : N := sat_add USIZE_MAX (len (ht_head b)) (len (ht_tail b)).
Definition total_bytes (b : HeadTailBuffer) : N :=
  sat_add USIZE_MAX (retained_bytes b) (omitted_bytes b).

(** The buffer and the bytes that did not fit. *)
Definition fill_head (b : HeadTailBuffer) (chunk : list N) : HeadTailBuffer * list N :=
  let remaining_head := HEAD_BUDGET - length (ht_head b) in
  let '(chunk_head, chunk_tail) :=
    if remaining_head <=? length chunk then (take remaining_head chunk, drop remaining_head chunk)
    else (chunk, []) in
  (mkHeadTail (ht_head b ++ chunk_head) (ht_tail b) (omitted_bytes b), chunk_tail).

Definition push_tail (b : HeadTailBuffer) (chunk : list N) : HeadTailBuffer :=
  let tail := ht_tail b in
  let remaining_tail := TAIL_BUDGET - length tail in
  let excess_tail := length chunk - remaining_tail in
  let omitted := sat_add USIZE_MAX (omitted_bytes b) (N.of_nat excess_tail) in
  let '(tail, chunk) :=
    if excess_tail <? length tail then (drop excess_tail tail, chunk)
    else ([], drop (excess_tail - length tail) chunk) in
  mkHeadTail (ht_head b) (tail ++ chunk) omitted.

Definition push_chunk (b : HeadTailBuffer) (chunk : list N) : HeadTailBuffer :=
  let '(b, chunk) := fill_head b chunk in push_tail b chunk.

Definition to_bytes (b : HeadTailBuffer) : list N := ht_head b ++ ht_tail b.

(** The marker is ASCII, so its bytes are its characters. *)
Definition to_bytes_with_omission_marker (b : HeadTailBuffer) : list N :=
  if (omitted_bytes b =? 0)%N then to_bytes b
  else ht_head b ++ [LF] ++ format_output_omission_marker (omitted_bytes b) ++ [LF] ++ ht_tail b.

(** [push_buffer]; [split] is where the ring buffer of the appended tail is cut
    into its two slices. *)
Definition push_buffer (split : nat) (self buffer : HeadTailBuffer) : HeadTailBuffer :=
  let self := mkHeadTail (ht_head self) (ht_tail self)
                (sat_add USIZE_MAX (omitted_bytes self) (omitted_bytes buffer)) in
  let '(self, overflow) :=
    if is_empty (ht_head self)
    then (mkHeadTail (ht_head buffer) (ht_tail self) (omitted_bytes self), [])
    else fill_head self (ht_head buffer) in
  if length (ht_tail buffer) =? TAIL_BUDGET then
    mkHeadTail (ht_head self) (ht_tail buffer)
      (sat_add USIZE_MAX (sat_add USIZE_MAX (omitted_bytes self) (len (ht_tail self))) (len overflow))
  else
    let self := push_tail self overflow in
    if is_empty (ht_tail self)
    then mkHeadTail (ht_head self) (ht_tail buffer) (omitted_bytes self)
    else push_tail (push_tail self (take split (ht_tail buffer))) (drop split (ht_tail buffer)).

(** ** The specification: what is kept of an output *)
Definition summary_of (s : list N) : HeadTailBuffer :=
  let rest := drop HEAD_BUDGET s in
  mkHeadTail (take HEAD_BUDGET s) (drop (length rest - TAIL_BUDGET) rest)
    (N.of_nat (length rest - TAIL_BUDGET) `min` USIZE_MAX)%N.

Lemma summary_nil : summary_of [] = default_head_tail.
Proof. unfold summary_of. by rewrite drop_nil, take_nil. Qed.

(** A tail pushed onto the summary of an output whose head is full. *)
Lemma push_tail_summary s c :
  HEAD_BUDGET ≤ length s → push_tail (summary_of s) c = summary_of (s ++ c).
Proof.
  intros Hs. unfold push_tail, summary_of. cbn [ht_head ht_tail omitted_bytes].
  rewrite take_app_le, drop_app_le by lia.
  set (r := drop HEAD_BUDGET s). rewrite !length_drop, length_app.
  assert (length r - (length r - TAIL_BUDGET) = length r `min` TAIL_BUDGET) as -> by lia.
  set (x := length c - (TAIL_BUDGET - length r `min` TAIL_BUDGET)).
  destruct (x <? length r `min` TAIL_BUDGET) eqn:E.
  - apply Nat.ltb_lt in E. f_equal; [|unfold sat_add; lia].
    rewrite drop_drop, <- drop_app_le by lia. f_equal. lia.
  - apply Nat.ltb_ge in E. f_equal; [|unfold sat_add; lia].
    rewrite drop_app_ge by lia. cbn [app]. f_equal. lia.
Qed.

Lemma fill_head_summary s c :
  fill_head (summary_of s) c =
  (mkHeadTail (take HEAD_BUDGET (s ++ c)) (ht_tail (summary_of s)) (omitted_bytes (summary_of s)),
   drop (HEAD_BUDGET - length s) c).
Proof.
  unfold fill_head, summary_of. cbn [ht_head ht_tail omitted_bytes]. rewrite length_take, take_app.
  assert (HEAD_BUDGET - HEAD_BUDGET `min` length s = HEAD_BUDGET - length s) as -> by lia.
  destruct (HEAD_BUDGET - length s <=? length c) eqn:E; [done|].
  apply Nat.leb_gt in E. by rewrite (take_ge c), (drop_ge c) by lia.
Qed.
Lemma summary_short s :
  length s ≤ HEAD_BUDGET → summary_of s = mkHeadTail s [] 0.
Proof.
  intros Hs. unfold summary_of. rewrite (drop_ge s), take_ge by lia. by rewrite drop_nil.
Qed.

(** After the head is filled, the rest is a tail pushed onto a summary. *)
Lemma fill_head_split s c :
  ∃ s', s' ++ drop (HEAD_BUDGET - length s) c = s ++ c ∧
        fst (fill_head (summary_of s) c) = summary_of s' ∧
        (HEAD_BUDGET ≤ length s' ∨ drop (HEAD_BUDGET - length s) c = []).
Proof.
  rewrite fill_head_summary. cbn [fst]. destruct (decide (HEAD_BUDGET ≤ length s)) as [H|H].
  - exists s. assert (HEAD_BUDGET - length s = 0) as -> by lia.
    rewrite drop_0, take_app_le by lia. split_and!; [done|done|by left].
  - exists (s ++ take (HEAD_BUDGET - length s) c).
    rewrite <- app_assoc, take_drop. split; [done|].
    rewrite (summary_short s) by lia. cbn [ht_tail omitted_bytes].
    rewrite summary_short by (rewrite length_app, length_take; lia).
    rewrite (take_app_ge s c) by lia. split; [done|].
    destruct (decide (HEAD_BUDGET - length s ≤ length c)).
    + left. rewrite length_app, length_take. lia.
    + right. apply drop_ge. lia.
Qed.

Lemma push_tail_nil b : length (ht_tail b) ≤ TAIL_BUDGET → (omitted_bytes b ≤ USIZE_MAX)%N → push_tail b [] = b.
Proof.
  intros Ht Ho. destruct b as [h t o]. unfold push_tail. cbn [ht_head ht_tail omitted_bytes length] in *.
  rewrite drop_nil. cbn [Nat.sub N.of_nat]. destruct t as [|x t]; cbn [length Nat.ltb Nat.leb].
  - f_equal. unfold sat_add. lia.
  - simpl. rewrite app_nil_r. f_equal. unfold sat_add. lia.
Qed.

Lemma summary_bounds s :
  length (ht_head (summary_of s)) ≤ HEAD_BUDGET ∧ length (ht_tail (summary_of s)) ≤ TAIL_BUDGET ∧
  (omitted_bytes (summary_of s) ≤ USIZE_MAX)%N.
Proof.
  unfold summary_of. cbn [ht_head ht_tail omitted_bytes]. rewrite length_take, length_drop. lia.
Qed.

Lemma push_chunk_summary s c : push_chunk (summary_of s) c = summary_of (s ++ c).
Proof.
  unfold push_chunk. destruct (fill_head_split s c) as (s' & Hs & Hf & Hc).
  rewrite fill_head_summary in *. cbn [fst] in Hf. rewrite Hf, <- Hs.
  destruct Hc as [Hc| ->]; [by apply push_tail_summary|].
  rewrite app_nil_r. apply push_tail_nil; apply summary_bounds.
Qed.

(** ** Appending a buffer *)
Definition add_omitted (n : N) (b : HeadTailBuffer) : HeadTailBuffer :=
  mkHeadTail (ht_head b) (ht_tail b) (sat_add USIZE_MAX (omitted_bytes b) n).

Lemma budgets : HEAD_BUDGET ≤ TAIL_BUDGET.
Proof. unfold TAIL_BUDGET, HEAD_BUDGET. pose proof (Nat.div_mod MAX_BYTES 2 ltac:(lia)). lia. Qed.

Lemma fill_head_add n b c :
  fill_head (add_omitted n b) c = (add_omitted n (fst (fill_head b c)), snd (fill_head b c)).
Proof. unfold fill_head, add_omitted. cbn [ht_head ht_tail omitted_bytes]. by destruct (_ <=? _). Qed.

(** The head of the appended buffer: what fits goes to the head, the rest is left
    to be pushed as a tail. *)
Lemma append_head s u n :
  length u ≤ HEAD_BUDGET →
  ∃ s' overflow, s' ++ overflow = s ++ u ∧ (HEAD_BUDGET ≤ length s' ∨ overflow = []) ∧
    (if is_empty (ht_head (summary_of s))
     then (mkHeadTail u (ht_tail (summary_of s)) (omitted_bytes (add_omitted n (summary_of s))), [])
     else fill_head (add_omitted n (summary_of s)) u) = (add_omitted n (summary_of s'), overflow).
Proof.
  intros Hu. destruct (is_empty (ht_head (summary_of s))) eqn:E.
  - cbn [ht_head summary_of] in E. destruct (decide (HEAD_BUDGET = 0)) as [H0|H0].
    + destruct u; [|cbn [length] in Hu; lia]. exists s, []. split_and!; [done|by right|].
      unfold add_omitted, summary_of. cbn [ht_head ht_tail omitted_bytes]. by rewrite H0, take_0.
    + assert (s = []) as ->. { destruct s; [done|]. by destruct HEAD_BUDGET. }
      exists u, []. rewrite (summary_short u Hu), summary_short by (cbn; lia).
      split_and!; [by rewrite app_nil_r|by right|done].
  - destruct (fill_head_split s u) as (s' & Hs & Hf & Hc).
    exists s', (drop (HEAD_BUDGET - length s) u). split_and!; [done|done|].
    by rewrite fill_head_add, Hf, fill_head_summary.
Qed.

Lemma push_tail_add n b c : push_tail (add_omitted n b) c = add_omitted n (push_tail b c).
Proof.
  unfold push_tail, add_omitted. cbn [ht_head ht_tail omitted_bytes].
  destruct (_ <? _); cbn [ht_head ht_tail omitted_bytes]; f_equal; unfold sat_add; lia.
Qed.

Lemma push_buffer_full s u r :
  TAIL_BUDGET ≤ length r → HEAD_BUDGET ≤ length s →
  mkHeadTail (ht_head (summary_of s)) (drop (length r - TAIL_BUDGET) r)
    (sat_add USIZE_MAX
      (sat_add USIZE_MAX
        (omitted_bytes (add_omitted (N.of_nat (length r - TAIL_BUDGET) `min` USIZE_MAX) (summary_of s)))
        (len (ht_tail (summary_of s)))) (len u)) =
  summary_of (s ++ u ++ r).
Proof.
  intros Hr Hs. unfold summary_of, add_omitted, len. cbn [ht_head ht_tail omitted_bytes].
  rewrite take_app_le, drop_app_le by lia. rewrite !length_app, !length_drop.
  f_equal; [|unfold sat_add; lia].
  rewrite app_assoc, drop_app_ge by (rewrite length_app, length_drop; lia).
  f_equal. rewrite length_app, length_drop. lia.
Qed.

(** The tail of the appended buffer is all of its bytes past the head. *)
Lemma push_buffer_partial split s r :
  length r < TAIL_BUDGET → r = [] ∨ HEAD_BUDGET ≤ length s →
  (if is_empty (ht_tail (summary_of s))
   then mkHeadTail (ht_head (summary_of s)) r (omitted_bytes (summary_of s))
   else push_tail (push_tail (summary_of s) (take split r)) (drop split r)) = summary_of (s ++ r).
Proof.
  intros Hr Hs. destruct (is_empty (ht_tail (summary_of s))) eqn:E.
  - assert (length s ≤ HEAD_BUDGET) as Hl.
    { unfold summary_of in E. cbn [ht_tail] in E.
      assert (length (drop (length (drop HEAD_BUDGET s) - TAIL_BUDGET) (drop HEAD_BUDGET s)) = 0)
        as H by (by destruct (drop _ _)).
      rewrite !length_drop in H. lia. }
    rewrite summary_short by done. cbn [ht_head ht_tail omitted_bytes].
    destruct Hs as [-> |Hs]; [by rewrite app_nil_r, summary_short|].
    unfold summary_of. rewrite (take_app_length' s), (drop_app_length' s) by lia.
    assert (length r - TAIL_BUDGET = 0) as -> by lia. done.
  - assert (HEAD_BUDGET ≤ length s) as Hl.
    { destruct (decide (length s ≤ HEAD_BUDGET)); [|lia]. by rewrite summary_short in E by done. }
    rewrite push_tail_summary by done. rewrite push_tail_summary by (rewrite length_app; lia).
    by rewrite <- app_assoc, take_drop.
Qed.

Lemma push_buffer_summary split s t :
  push_buffer split (summary_of s) (summary_of t) = summary_of (s ++ t).
Proof.
  set (u := take HEAD_BUDGET t). set (r := drop HEAD_BUDGET t).
  assert (length u ≤ HEAD_BUDGET) as Hu by (unfold u; rewrite length_take; lia).
  assert (t = u ++ r) as Ht by (by unfold u, r; rewrite take_drop).
  assert (r = [] ∨ length u = HEAD_BUDGET) as Hur.
  { unfold u, r. rewrite length_take. destruct (decide (length t ≤ HEAD_BUDGET)); [left; by apply drop_ge|lia]. }
  unfold push_buffer. change (ht_head (summary_of t)) with u.
  change (ht_tail (summary_of t)) with (drop (length r - TAIL_BUDGET) r).
  change (omitted_bytes (summary_of t)) with (N.of_nat (length r - TAIL_BUDGET) `min` USIZE_MAX)%N.
  set (n := (N.of_nat (length r - TAIL_BUDGET) `min` USIZE_MAX)%N).
  change (mkHeadTail (ht_head (summary_of s)) (ht_tail (summary_of s)) (sat_add USIZE_MAX (omitted_bytes (summary_of s)) n))
    with (add_omitted n (summary_of s)).
  change (ht_head (add_omitted n (summary_of s))) with (ht_head (summary_of s)).
  change (ht_tail (add_omitted n (summary_of s))) with (ht_tail (summary_of s)).
  destruct (append_head s u n Hu) as (s' & o & Hso & Hc & ->).
  rewrite length_drop.
  destruct (Nat.eqb_spec (length r - (length r - TAIL_BUDGET)) TAIL_BUDGET) as [Hf|Hf].
  - assert (HEAD_BUDGET ≤ length s') as Hs'.
    { destruct Hc as [Hc| ->]; [done|]. rewrite app_nil_r in Hso. subst s'. rewrite length_app.
      pose proof budgets. destruct Hur as [-> |]; [cbn [length] in Hf|]; lia. }
    rewrite Ht, (app_assoc s u r), <- Hso, <- app_assoc. apply push_buffer_full; [lia|done].
  - assert (n = 0%N) as -> by (unfold n; lia).
    assert (drop (length r - TAIL_BUDGET) r = r) as ->.
    { assert (length r - TAIL_BUDGET = 0) as -> by lia. done. }
    rewrite push_tail_add.
    assert (push_tail (summary_of s') o = summary_of (s ++ u)) as ->.
    { rewrite <- Hso. destruct Hc as [Hc| ->]; [by apply push_tail_summary|].
      rewrite app_nil_r. apply push_tail_nil; apply summary_bounds. }
    assert (∀ b, (omitted_bytes b ≤ USIZE_MAX)%N → add_omitted 0 b = b) as Hadd.
    { intros [h tl om] Hb. unfold add_omitted. cbn [omitted_bytes] in *. f_equal. unfold sat_add. lia. }
    rewrite Hadd by apply summary_bounds. rewrite Ht, app_assoc.
    apply push_buffer_partial; [lia|]. destruct Hur; [by left|right]. rewrite length_app. lia.
Qed.
(** ** Buffers built from outputs *)

(** The ways a buffer comes about: empty, a chunk pushed, another buffer appended. *)
Inductive buffer_build :=
  | BEmpty
  | BChunk (b : buffer_build) (chunk : list N)
  | BAppend (split : nat) (b b' : buffer_build).

Fixpoint run_build (b : buffer_build) : HeadTailBuffer :=
  match b with
  | BEmpty => default_head_tail
  | BChunk b chunk => push_chunk (run_build b) chunk
  | BAppend split b b' => push_buffer split (run_build b) (run_build b')
  end.

(** The whole output, of which the buffer keeps a part. *)
Fixpoint build_output (b : buffer_build) : list N :=
  match b with
  | BEmpty => []
  | BChunk b chunk => build_output b ++ chunk
  | BAppend _ b b' => build_output b ++ build_output b'
  end.

Lemma run_summary b : run_build b = summary_of (build_output b).
Proof.
  induction b as [|b IH c|k b IH b' IH']; cbn [run_build build_output].
  - by rewrite summary_nil.
  - by rewrite IH, push_chunk_summary.
  - by rewrite IH, IH', push_buffer_summary.
Qed.

(** C23: a buffer, however it was filled from chunks and from other buffers, depends
    only on the output it has seen: it holds the first [HEAD_BUDGET] bytes, the last
    [TAIL_BUDGET] bytes of the rest, and the number of bytes dropped in between. *)
Theorem buffer_is_summary b :
  let s := build_output b in
  let rest := drop HEAD_BUDGET s in
  ht_head (run_build b) = take HEAD_BUDGET s ∧
  (∃ dropped, rest = dropped ++ ht_tail (run_build b) ∧
     length (ht_tail (run_build b)) = length rest `min` TAIL_BUDGET ∧
     omitted_bytes (run_build b) = (len dropped `min` USIZE_MAX)%N).
Proof.
  cbn zeta. rewrite run_summary. split; [done|]. unfold summary_of. cbn [ht_tail omitted_bytes].
  set (rest := drop HEAD_BUDGET (build_output b)).
  exists (take (length rest - TAIL_BUDGET) rest). split_and!; [by rewrite take_drop| |].
  - rewrite length_drop. lia.
  - unfold len. rewrite length_take. lia.
Qed.

(** the buffer never keeps more than [MAX_BYTES] bytes, its total is the size of
    the output (saturating), and what is shown is the whole output when it fits and
    otherwise its two ends around a marker with the number of missing bytes. *)
Theorem buffer_bounded b :
  let s := build_output b in
  length (to_bytes (run_build b)) ≤ MAX_BYTES ∧
  ((N.of_nat MAX_BYTES ≤ USIZE_MAX)%N → total_bytes (run_build b) = (len s `min` USIZE_MAX)%N) ∧
  (length s ≤ MAX_BYTES → to_bytes_with_omission_marker (run_build b) = s) ∧
  (MAX_BYTES < length s →
     to_bytes_with_omission_marker (run_build b) =
     take HEAD_BUDGET s ++ [LF] ++
       format_output_omission_marker (N.of_nat (length s - MAX_BYTES) `min` USIZE_MAX) ++ [LF] ++
       drop (length s - TAIL_BUDGET) s).
Proof.
  cbn zeta. rewrite run_summary. set (s := build_output b).
  assert (HEAD_BUDGET + TAIL_BUDGET = MAX_BYTES) as HM.
  { unfold TAIL_BUDGET, HEAD_BUDGET. pose proof (Nat.div_mod MAX_BYTES 2 ltac:(lia)). lia. }
  unfold to_bytes_with_omission_marker, to_bytes, total_bytes, retained_bytes, summary_of, len.
  cbn [ht_head ht_tail omitted_bytes]. rewrite length_app, length_take, !length_drop.
  split_and!; [lia|unfold sat_add; lia| |].
  - intros Hs. rewrite (proj2 (N.eqb_eq _ _)) by lia.
    assert (length s - HEAD_BUDGET - TAIL_BUDGET = 0) as -> by lia. by rewrite drop_0, take_drop.
  - intros Hs. rewrite (proj2 (N.eqb_neq _ _)) by (pose proof USIZE_MAX_pos; lia).
    rewrite drop_drop.
    assert (length s - HEAD_BUDGET - TAIL_BUDGET = length s - MAX_BYTES) as -> by lia.
    do 5 f_equal. lia.
Qed.
End HeadTail.

Lemma buffer_bounded_witness :
  length (build_output (BChunk BEmpty (replicate 10 97%N))) = 10 ∧
  to_bytes_with_omission_marker (run_build 4 (BChunk BEmpty (replicate 10 97%N))) =
  take 2 (replicate 10 97%N) ++ [LF] ++ format_output_omission_marker 6 ++ [LF] ++ drop 8 (replicate 10 97%N).
Proof.
  split; [done|].
  destruct (buffer_bounded 4 (BChunk BEmpty (replicate 10 97%N))) as (_ & _ & _ & H).
  apply H. simpl. lia.
Defined.
