(* ===== verification/Truncate.v ===== *)
(** * Truncation of text

    Models [sofia-rs/utils/string/src/truncate.rs] and the text helpers of
    [sofia-rs/utils/string/src/lib.rs].  Byte offsets and counts are [usize] values
    in [N]; a slice at an offset that is not a character boundary is a panic
    ([None]). *)

From stdpp Require Import base list numbers strings.
From S2P Require Import Prelude Machine.

(** ** Slices at byte offsets *)

(** [&s[..n]] and [&s[n..]]. *)
Fixpoint slice_to (n : N) (s : rstring) : option rstring :=
  if (n =? 0)%N then Some []
  else match s with
       | [] => None
       | c :: s' => if (char_len c <=? n)%N then (c ::.) <$> slice_to (n - char_len c) s' else None
       end.
Fixpoint slice_from (n : N) (s : rstring) : option rstring :=
  if (n =? 0)%N then Some s
  else match s with
       | [] => None
       | c :: s' => if (char_len c <=? n)%N then slice_from (n - char_len c) s' else None
       end.

(** ** [truncate.rs] *)
Definition APPROX_BYTES_PER_TOKEN : N := 4.

Definition approx_token_count (text : rstring) : N :=
  (sat_add USIZE_MAX (str_len text) (APPROX_BYTES_PER_TOKEN - 1) / APPROX_BYTES_PER_TOKEN)%N.
Definition approx_bytes_for_tokens (tokens : N) : N :=
  sat_mul USIZE_MAX tokens APPROX_BYTES_PER_TOKEN.
Definition approx_tokens_from_byte_count (bytes : N) : N :=
  (sat_add U64_MAX bytes (APPROX_BYTES_PER_TOKEN - 1) / APPROX_BYTES_PER_TOKEN)%N.

(** The variables of the loop of [split_string]. *)
Record split_state := mkSplit {
  prefix_end : N;
  suffix_start : N;
  removed_chars : N;
  suffix_started : bool;
}.

Definition split_step (beginning_bytes tail_start_target idx : N) (ch : N) (st : split_state)
    : split_state :=
  let char_end := (idx + char_len ch)%N in
  if (char_end <=? beginning_bytes)%N
  then mkSplit char_end (suffix_start st) (removed_chars st) (suffix_started st)
  else if (tail_start_target <=? idx)%N then
    if negb (suffix_started st) then mkSplit (prefix_end st) idx (removed_chars st) true else st
  else mkSplit (prefix_end st) (suffix_start st) (sat_add USIZE_MAX (removed_chars st) 1)
         (suffix_started st).

(** [for (idx, ch) in s.char_indices()]. *)
Fixpoint split_loop (beginning_bytes tail_start_target idx : N) (s : rstring) (st : split_state)
    : split_state :=
  match s with
  | [] => st
  | ch :: s' =>
      split_loop beginning_bytes tail_start_target (idx + char_len ch)%N s'
        (split_step beginning_bytes tail_start_target idx ch st)
  end.

Definition split_string (s : rstring) (beginning_bytes end_bytes : N)
    : option (N * rstring * rstring) :=
  if is_empty s then Some (0%N, [], [])
  else
    let len := str_len s in
    let tail_start_target := (len - end_bytes)%N in
    let st := split_loop beginning_bytes tail_start_target 0 s (mkSplit 0 len 0 false) in
    let start := if (suffix_start st <? prefix_end st)%N then prefix_end st else suffix_start st in
    before ← slice_to (prefix_end st) s;
    after ← slice_from start s;
    Some (removed_chars st, before, after).

Definition split_budget (budget : N) : N * N :=
  let left_budget := (budget / 2)%N in (left_budget, budget - left_budget)%N.

(** […] *)
Definition ELLIPSIS : rstring := [8230%N].
Definition format_truncation_marker (use_tokens : bool) (removed_count : N) : rstring :=
  if use_tokens then ELLIPSIS ++ dec removed_count ++ str " tokens truncated" ++ ELLIPSIS
  else ELLIPSIS ++ dec removed_count ++ str " chars truncated" ++ ELLIPSIS.

Definition removed_units (use_tokens : bool) (removed_bytes removed_chars : N) : N :=
  if use_tokens then approx_tokens_from_byte_count removed_bytes else removed_chars.

Definition assemble_truncated_output (prefix suffix marker : rstring) : rstring :=
  prefix ++ marker ++ suffix.

Definition truncate_with_byte_estimate (s : rstring) (max_bytes : N) (use_tokens : bool)
    : option rstring :=
  if is_empty s then Some []
  else
    let total_chars := len s in
    if (max_bytes =? 0)%N
    then Some (format_truncation_marker use_tokens (removed_units use_tokens (str_len s) total_chars))
    else if (str_len s <=? max_bytes)%N then Some s
    else
      let total_bytes := str_len s in
      let '(left_budget, right_budget) := split_budget max_bytes in
      '(removed_chars, before, after) ← split_string s left_budget right_budget;
      let marker := format_truncation_marker use_tokens
                      (removed_units use_tokens (total_bytes - max_bytes) removed_chars) in
      Some (assemble_truncated_output before after marker).

Definition truncate_middle_chars (s : rstring) (max_bytes : N) : option rstring :=
  truncate_with_byte_estimate s max_bytes false.

Definition truncate_middle_with_token_budget (s : rstring) (max_tokens : N)
    : option (rstring * option N) :=
  if is_empty s then Some ([], None)
  else if (0 <? max_tokens)%N && (str_len s <=? approx_bytes_for_tokens max_tokens)%N
  then Some (s, None)
  else
    truncated ← truncate_with_byte_estimate s (approx_bytes_for_tokens max_tokens) true;
    let total_tokens := approx_token_count s in
    Some (if str_eqb truncated s then (truncated, None) else (truncated, Some total_tokens)).

(** ** [lib.rs] *)

(** The loop of [take_bytes_at_char_boundary]: [last_ok]. *)
Fixpoint last_boundary (maxb i last_ok : N) (s : rstring) : N :=
  match s with
  | [] => last_ok
  | ch :: s' =>
      let nb := (i + char_len ch)%N in
      if (maxb <? nb)%N then last_ok else last_boundary maxb nb nb s'
  end.

Definition take_bytes_at_char_boundary (s : rstring) (maxb : N) : option rstring :=
  if (str_len s <=? maxb)%N then Some s else slice_to (last_boundary maxb 0 0 s) s.

Definition is_ascii_alphanumeric (c : N) : bool :=
  is_ascii_digit c || ((65 <=? c) && (c <=? 90))%N || ((97 <=? c) && (c <=? 122))%N.

Definition is_tag_char (c : N) : bool :=
  is_ascii_alphanumeric c || bool_decide (c ∈ str "._-/").

Definition MAX_LEN : N := 256.
Definition sanitize_metric_tag_value (value : rstring) : option rstring :=
  let sanitized := map (λ ch, if is_tag_char ch then ch else 95%N) value in
  let trimmed := drop_end_while (N.eqb 95) (drop_while (N.eqb 95) sanitized) in
  if is_empty trimmed || forallb (λ ch, negb (is_ascii_alphanumeric ch)) trimmed
  then Some (str "unspecified")
  else if (str_len trimmed <=? MAX_LEN)%N then Some trimmed
  else slice_to MAX_LEN trimmed.

Definition parse_markdown_hash_location_point (point : rstring)
    : option (rstring * option rstring) :=
  point ← strip_prefix (str "L") point;
  match split_once 67 point with
  | Some (line, column) => Some (line, Some column)
  | None => Some (point, None)
  end.

Definition push_point (p : rstring * option rstring) : rstring :=
  fst p ++ match snd p with Some column => str ":" ++ column | None => [] end.

Definition normalize_markdown_hash_location_suffix (suffix : rstring) : option rstring :=
  fragment ← strip_prefix (str "#") suffix;
  let '(start, end_) :=
    match split_once 45 fragment with
    | Some (start, end_) => (start, Some end_)
    | None => (fragment, None)
    end in
  start_point ← parse_markdown_hash_location_point start;
  match end_ with
  | Some e =>
      end_point ← parse_markdown_hash_location_point e;
      Some (str ":" ++ push_point start_point ++ str "-" ++ push_point end_point)
  | None => Some (str ":" ++ push_point start_point)
  end.

(** * Correctness of text truncation

    A truncated text is the longest beginning and the longest end that fit their
    halves of the budget, around a marker that counts what is missing; no slice
    panics. *)

From stdpp Require Import base list numbers strings.
From S2P Require Import Prelude Machine.

#[local] Arguments str : simpl never.

(** ** Slices at boundaries *)
Lemma char_len_pos c : (0 < char_len c)%N.
Proof. unfold char_len. by repeat case_match. Qed.

Lemma str_len_app s t : str_len (s ++ t) = (str_len s + str_len t)%N.
Proof. induction s as [|c s IH]; cbn [str_len app]; [done|]. rewrite IH. lia. Qed.

Lemma slice_to_app s t : slice_to (str_len s) (s ++ t) = Some s.
Proof.
  induction s as [|c s IH]; cbn [str_len app]; [by destruct t|].
  pose proof (char_len_pos c). cbn [slice_to].
  rewrite (proj2 (N.eqb_neq _ _)) by lia. rewrite (proj2 (N.leb_le _ _)) by lia.
  replace (char_len c + str_len s - char_len c)%N with (str_len s) by lia. by rewrite IH.
Qed.

Lemma slice_from_app s t : slice_from (str_len s) (s ++ t) = Some t.
Proof.
  induction s as [|c s IH]; cbn [str_len app]; [by destruct t|].
  pose proof (char_len_pos c). cbn [slice_from].
  rewrite (proj2 (N.eqb_neq _ _)) by lia. rewrite (proj2 (N.leb_le _ _)) by lia.
  replace (char_len c + str_len s - char_len c)%N with (str_len s) by lia. done.
Qed.

(** ** The longest beginning within a budget *)
(** The first character past a beginning does not fit the budget. *)
Definition longest_beginning (b : N) (p rest : rstring) : Prop :=
  (str_len p ≤ b)%N ∧ ∀ c rest', rest = c :: rest' → (b < str_len p + char_len c)%N.

Lemma last_boundary_spec maxb pre s :
  (str_len pre ≤ maxb)%N →
  ∃ p rest, s = p ++ rest ∧ longest_beginning maxb (pre ++ p) rest ∧
            last_boundary maxb (str_len pre) (str_len pre) s = str_len (pre ++ p).
Proof.
  revert pre. induction s as [|c s IH]; intros pre Hpre; cbn [last_boundary].
  - exists [], []. rewrite (app_nil_r pre). split_and!; [done|by split|done].
  - destruct (N.ltb_spec maxb (str_len pre + char_len c)) as [H|H].
    + exists [], (c :: s). rewrite (app_nil_r pre). split_and!; [done| |done].
      split; [done|]. intros d r [= <- <-]. done.
    + destruct (IH (pre ++ [c])) as (p & rest & -> & Hl & Hb).
      { rewrite str_len_app. cbn. lia. }
      exists (c :: p), rest. rewrite str_len_app in Hb. cbn [str_len] in Hb.
      replace (char_len c + 0)%N with (char_len c) in Hb by lia.
      rewrite <- app_assoc in *. split_and!; [done|done|exact Hb].
Qed.

(** ** The loop of [split_string] *)
Section Split.
Context (b target : N).

(** Once the suffix has started, nothing changes. *)
Lemma split_loop_suffix s idx pe ss rc :
  (b < idx)%N ∨ s = [] ∨ (∃ c s', s = c :: s' ∧ (b < idx + char_len c)%N) → (target ≤ idx)%N →
  split_loop b target idx s (mkSplit pe ss rc true) = mkSplit pe ss rc true.
Proof.
  revert idx. induction s as [|c s IH]; intros idx Hb Ht; [done|]. cbn [split_loop].
  assert (b < idx + char_len c)%N as Hc by (destruct Hb as [?|[?|(?&?&[= <- <-]&?)]]; try done; lia).
  unfold split_step. rewrite (proj2 (N.leb_gt _ _)) by done. rewrite (proj2 (N.leb_le _ _)) by done.
  cbn [suffix_started negb]. apply IH; [by left|lia].
Qed.

(** Past the beginning: the middle up to the target is counted. *)
Lemma split_loop_middle s idx pe ss rc :
  s = [] ∨ (∃ c s', s = c :: s' ∧ (b < idx + char_len c)%N) → (rc ≤ USIZE_MAX)%N →
  ∃ mid suf, s = mid ++ suf ∧
    (suf = [] ∨ (target ≤ idx + str_len mid)%N) ∧
    (∀ m c, mid = m ++ [c] → (idx + str_len m < target)%N) ∧
    split_loop b target idx s (mkSplit pe ss rc false) =
      if is_empty suf then mkSplit pe ss ((rc + len mid) `min` USIZE_MAX)%N false
      else mkSplit pe (idx + str_len mid)%N ((rc + len mid) `min` USIZE_MAX)%N true.
Proof.
  revert idx rc. induction s as [|c s IH]; intros idx rc Hb Hrc.
  { exists [], []. split_and!; [done|by left|by intros []|]. cbn [split_loop is_empty].
    f_equal. unfold len. cbn [length]. lia. }
  assert (b < idx + char_len c)%N as Hc by (destruct Hb as [?|(?&?&[= <- <-]&?)]; done).
  cbn [split_loop]. unfold split_step. rewrite (proj2 (N.leb_gt _ _)) by done.
  destruct (N.leb_spec target idx) as [Ht|Ht].
  - exists [], (c :: s). split_and!; [done|right; cbn; lia|by intros []|].
    cbn [suffix_started negb prefix_end removed_chars is_empty str_len].
    rewrite split_loop_suffix by (try (by left); lia).
    f_equal; unfold len; cbn [length]; lia.
  - cbn [prefix_end suffix_start removed_chars suffix_started].
    destruct (IH (idx + char_len c)%N (sat_add USIZE_MAX rc 1)) as (mid & suf & -> & Hs & Hm & ->).
    { destruct s as [|d s]; [by left|right]. exists d, s. split; [done|]. lia. }
    { apply sat_add_le. }
    exists (c :: mid), suf. split_and!; [done| | |].
    + destruct Hs as [?|Hs]; [by left|right]. cbn [str_len]. lia.
    + intros [|d m] e H; cbn [app] in H; injection H as <- Hmid; cbn [str_len]; [lia|].
      specialize (Hm m e Hmid). lia.
    + assert ((sat_add USIZE_MAX rc 1 + len mid) `min` USIZE_MAX =
        (rc + len (c :: mid)) `min` USIZE_MAX)%N as -> by (unfold sat_add, len; cbn [length]; lia).
      destruct (is_empty suf); [done|]. f_equal. cbn [str_len]. lia.
Qed.

(** The whole loop: a beginning, a middle and an end. *)
Lemma split_loop_spec s pre ss :
  (str_len pre ≤ b)%N →
  ∃ p mid suf, s = p ++ mid ++ suf ∧ longest_beginning b (pre ++ p) (mid ++ suf) ∧
    (suf = [] ∨ (target ≤ str_len (pre ++ p ++ mid))%N) ∧
    (∀ m c, mid = m ++ [c] → (str_len (pre ++ p ++ m) < target)%N) ∧
    split_loop b target (str_len pre) s (mkSplit (str_len pre) ss 0 false) =
      if is_empty suf then mkSplit (str_len (pre ++ p)) ss (len mid `min` USIZE_MAX)%N false
      else mkSplit (str_len (pre ++ p)) (str_len (pre ++ p ++ mid)) (len mid `min` USIZE_MAX)%N true.
Proof.
  revert pre. induction s as [|c s IH]; intros pre Hpre.
  { exists [], [], []. rewrite (app_nil_r pre). split_and!; [done|by split|by left|by intros []|done]. }
  destruct (N.leb_spec (str_len pre + char_len c) b) as [H|H].
  - destruct (IH (pre ++ [c])) as (p & mid & suf & -> & Hl & Hs & Hm & Hloop).
    { rewrite str_len_app. cbn. lia. }
    assert (str_len (pre ++ [c]) = str_len pre + char_len c)%N as Hc by (rewrite str_len_app; cbn; lia).
    exists (c :: p), mid, suf. rewrite <- !app_assoc in Hs, Hl.
    rewrite <- (app_assoc pre [c] p), <- (app_assoc pre [c] (p ++ mid)) in Hloop.
    split_and!; [done|done|exact Hs| |].
    + intros m d Hmid. specialize (Hm m d Hmid). by rewrite <- app_assoc in Hm.
    + cbn [split_loop]. unfold split_step. rewrite (proj2 (N.leb_le _ _)) by done.
      cbn [suffix_start removed_chars suffix_started]. rewrite <- Hc. exact Hloop.
  - destruct (split_loop_middle (c :: s) (str_len pre) (str_len pre) ss 0)
      as (mid & suf & Hsplit & Hs & Hm & Hloop).
    { right. by exists c, s. }
    { lia. }
    exists [], mid, suf. rewrite (app_nil_r pre), <- Hsplit. cbn [app]. split_and!; [done| | | |].
    + split; [done|]. by intros d r [= <- <-].
    + destruct Hs as [?|Hs]; [by left|right]. by rewrite str_len_app.
    + intros m d Hmid. rewrite str_len_app. by apply (Hm m d).
    + by rewrite Hloop, str_len_app.
Qed.
End Split.

(** The split of a string: nothing panics, and the count is of the middle. *)
Lemma split_string_spec s b e :
  s ≠ [] →
  ∃ p mid suf, s = p ++ mid ++ suf ∧ longest_beginning b p (mid ++ suf) ∧
    (str_len suf ≤ e)%N ∧
    (∀ m c, mid = m ++ [c] → (e < char_len c + str_len suf)%N) ∧
    split_string s b e = Some ((len mid `min` USIZE_MAX)%N, p, suf).
Proof.
  intros Hs. unfold split_string. destruct s as [|c0 s0]; [done|]. cbn [is_empty].
  set (s := c0 :: s0) in *.
  destruct (split_loop_spec b (str_len s - e) s [] (str_len s)) as (p & mid & suf & Hsplit & Hl & Hsuf & Hm & Hloop).
  { cbn. lia. }
  cbn [app] in *. change (str_len []) with 0%N in Hloop. rewrite Hloop. exists p, mid, suf.
  assert (str_len s = str_len (p ++ mid) + str_len suf)%N as Hlen.
  { by rewrite Hsplit, app_assoc, str_len_app. }
  split_and!; [done|done| | |].
  - destruct Hsuf as [-> |Hsuf]; [cbn; lia|lia].
  - intros m c Hmid. specialize (Hm m c Hmid). rewrite Hmid, app_assoc, str_len_app in Hlen.
    cbn [str_len] in Hlen. lia.
  - assert (str_len p ≤ str_len (p ++ mid))%N as Hle by (rewrite str_len_app; lia).
    assert (prefix_end (if is_empty suf then mkSplit (str_len p) (str_len s) (len mid `min` USIZE_MAX)%N false
      else mkSplit (str_len p) (str_len (p ++ mid)) (len mid `min` USIZE_MAX)%N true) = str_len p) as ->
      by (by destruct suf).
    assert (suffix_start (if is_empty suf then mkSplit (str_len p) (str_len s) (len mid `min` USIZE_MAX)%N false
      else mkSplit (str_len p) (str_len (p ++ mid)) (len mid `min` USIZE_MAX)%N true) = str_len (p ++ mid)) as ->.
    { destruct suf; [|done]. cbn [is_empty suffix_start str_len] in *. lia. }
    rewrite (proj2 (N.ltb_ge _ _)) by done.
    rewrite Hsplit at 1. rewrite slice_to_app. rewrite Hsplit, app_assoc, slice_from_app. cbn.
    by destruct suf.
Qed.

(** ** Properties *)
Lemma half_le (n : N) : (n / 2 ≤ n)%N.
Proof. apply N.Div0.div_le_upper_bound. lia. Qed.

Lemma truncate_short s max use_tokens :
  (0 < max)%N → (str_len s ≤ max)%N → truncate_with_byte_estimate s max use_tokens = Some s.
Proof.
  intros Hm Hs. unfold truncate_with_byte_estimate. destruct s as [|c s]; [done|]. cbn [is_empty].
  rewrite (proj2 (N.eqb_neq _ _)) by lia. by rewrite (proj2 (N.leb_le _ _)).
Qed.

Lemma truncate_long s max use_tokens :
  (0 < max)%N → (max < str_len s)%N →
  ∃ p mid suf, s = p ++ mid ++ suf ∧ mid ≠ [] ∧ longest_beginning (max / 2) p (mid ++ suf) ∧
    (str_len suf ≤ max - max / 2)%N ∧
    (∀ m c, mid = m ++ [c] → (max - max / 2 < char_len c + str_len suf)%N) ∧
    truncate_with_byte_estimate s max use_tokens =
      Some (p ++ format_truncation_marker use_tokens
                   (removed_units use_tokens (str_len s - max) (len mid `min` USIZE_MAX)) ++ suf).
Proof.
  intros Hm Hs. assert (s ≠ []) as Hne by (intros ->; cbn [str_len] in Hs; lia). unfold truncate_with_byte_estimate.
  destruct (split_string_spec s (max / 2) (max - max / 2) Hne) as (p & mid & suf & Hsplit & Hl & Hsuf & Hend & He).
  exists p, mid, suf. split_and!; [done| |done|done|done|].
  - intros ->. destruct Hl as [Hp _]. rewrite Hsplit, str_len_app in Hs. cbn [app] in Hs.
    pose proof (half_le max). lia.
  - destruct (is_empty s) eqn:E; [by destruct s|]. rewrite (proj2 (N.eqb_neq _ _)) by lia.
    rewrite (proj2 (N.leb_gt _ _)) by done. unfold split_budget. rewrite He. done.
Qed.

(** C40: truncation to a byte budget never slices inside a character, keeps a text
    that fits, and otherwise keeps the longest beginning within half of the budget and
    the longest end within the other half, so at most [max_bytes] bytes of the text,
    with a marker in place of the missing middle that counts its characters. *)
Theorem truncate_middle_chars_spec s max_bytes :
  (0 < max_bytes)%N →
  ((str_len s ≤ max_bytes)%N → truncate_middle_chars s max_bytes = Some s) ∧
  ((max_bytes < str_len s)%N →
   ∃ p mid suf, s = p ++ mid ++ suf ∧ mid ≠ [] ∧
     longest_beginning (max_bytes / 2) p (mid ++ suf) ∧
     (str_len suf ≤ max_bytes - max_bytes / 2)%N ∧
     (∀ m c, mid = m ++ [c] → (max_bytes - max_bytes / 2 < char_len c + str_len suf)%N) ∧
     truncate_middle_chars s max_bytes =
       Some (p ++ format_truncation_marker false (len mid `min` USIZE_MAX) ++ suf) ∧
     (str_len p + str_len suf ≤ max_bytes)%N).
Proof.
  intros Hm. split; [by apply truncate_short|]. intros Hs.
  destruct (truncate_long s max_bytes false Hm Hs) as (p & mid & suf & Hsplit & Hmid & Hl & Hsuf & Hend & He).
  exists p, mid, suf. split_and!; try done. destruct Hl as [Hp _]. pose proof (half_le max_bytes). lia.
Qed.

Lemma truncate_middle_chars_spec_witness :
  truncate_middle_chars (str "abcdefghij") 4 = Some (str "ab" ++ format_truncation_marker false 6 ++ str "ij") ∧
  ∃ p mid suf, str "abcdefghij" = p ++ mid ++ suf ∧ mid ≠ [].
Proof.
  split; [vm_compute; reflexivity|].
  destruct (truncate_middle_chars_spec (str "abcdefghij") 4) as [_ H]; [reflexivity|].
  destruct H as (p & mid & suf & H1 & H2 & _); [reflexivity|]. by exists p, mid, suf.
Defined.

(** The token budget: a text is reported as truncated, with its token count, exactly
    when it changed. *)
Lemma truncate_tokens_spec s max_tokens :
  ∃ r, truncate_middle_with_token_budget s max_tokens =
       Some (r, if str_eqb r s then None else Some (approx_token_count s)) ∧
       ((0 < max_tokens)%N → (str_len s ≤ approx_bytes_for_tokens max_tokens)%N → r = s).
Proof.
  unfold truncate_middle_with_token_budget. destruct (is_empty s) eqn:E.
  { destruct s; [|done]. exists []. by rewrite str_eqb_refl. }
  destruct ((0 <? max_tokens)%N && (str_len s <=? approx_bytes_for_tokens max_tokens)%N) eqn:F.
  { exists s. by rewrite str_eqb_refl. }
  assert (∃ r, truncate_with_byte_estimate s (approx_bytes_for_tokens max_tokens) true = Some r) as [r Hr].
  { destruct (decide (approx_bytes_for_tokens max_tokens = 0%N)) as [->|H0].
    - unfold truncate_with_byte_estimate. rewrite E. by eexists.
    - destruct (decide (str_len s ≤ approx_bytes_for_tokens max_tokens)%N).
      + exists s. apply truncate_short; lia.
      + destruct (truncate_long s (approx_bytes_for_tokens max_tokens) true) as (p & mid & suf & _ & _ & _ & _ & _ & ->);
          [lia|lia|]. by eexists. }
  exists r. rewrite Hr. cbn. split; [by destruct (str_eqb r s)|].
  intros H1 H2. apply andb_false_iff in F as [F|F]; [apply N.ltb_ge in F|apply N.leb_gt in F]; lia.
Qed.

(** A prefix within a byte budget is the longest one. *)
Lemma take_bytes_spec s maxb :
  ∃ p rest, s = p ++ rest ∧ longest_beginning maxb p rest ∧ take_bytes_at_char_boundary s maxb = Some p.
Proof.
  unfold take_bytes_at_char_boundary. destruct (N.leb_spec (str_len s) maxb) as [H|H].
  - exists s, []. rewrite app_nil_r. split_and!; [done|by split|done].
  - destruct (last_boundary_spec maxb [] s) as (p & rest & Hs & Hl & Hb); [cbn; lia|].
    cbn [app] in *. change (str_len []) with 0%N in Hb. exists p, rest. split_and!; [done|done|].
    rewrite Hb. rewrite Hs at 1. apply slice_to_app.
Qed.
