(* ===== verification/Protocol.v ===== *)
(** * Response items

    The data of [sofia-rs/protocol/src/models.rs] that makes up the history of a
    conversation, [ResponseItemId], the envelope of [sofia-rs/history/src/lib.rs]
    and the truncation policy of [protocol.rs].  JSON values ([serde_json]) and the
    records of executed tool calls, which the modelled code only carries along, are
    type parameters. *)

From stdpp Require Import base list numbers strings gmap.
From S2P Require Import Prelude Machine Truncate.

Inductive ImageDetail := DetailAuto | DetailLow | DetailHigh | DetailOriginal.

Inductive ContentItem :=
  | InputText (text : rstring)
  | InputImage (image_url : rstring) (detail : option ImageDetail)
  | InputAudio (audio_url : rstring)
  | OutputText (text : rstring).

Inductive AgentMessageInputContent :=
  | AgentInputText (text : rstring)
  | AgentEncryptedContent (encrypted_content : rstring).

Inductive MessagePhase := Commentary | FinalAnswer.

(** [ContentItemKind] and [ResponseItemId] are strings. *)
Definition ContentItemKind := rstring.
Definition ResponseItemId := rstring.

Definition with_suffix (prefix suffix : rstring) : ResponseItemId := prefix ++ str "_" ++ suffix.

Inductive LocalShellStatus := ShellCompleted | ShellInProgress | ShellIncomplete.
Record LocalShellExecAction := mkShellExec {
  shell_command : list rstring;
  shell_timeout_ms : option N;
  shell_working_directory : option rstring;
  shell_env : option (gmap rstring rstring);
  shell_user : option rstring;
}.
Inductive LocalShellAction := ShellExec (action : LocalShellExecAction).

Inductive WebSearchAction :=
  | WebSearch (query : option rstring) (queries : option (list rstring))
  | WebOpenPage (url : option rstring)
  | WebFindInPage (url pattern : option rstring)
  | WebOther.

Inductive ReasoningItemReasoningSummary := SummaryText (text : rstring).
Inductive ReasoningItemContent := ReasoningText (text : rstring) | ReasoningPlainText (text : rstring).

Inductive ReasoningEffort :=
  | EffortNone | EffortMinimal | EffortLow | EffortMedium | EffortHigh | EffortXHigh | EffortMax
  | EffortUltra | EffortPersistent | EffortCustom (value : rstring).
Record ConfigurationReasoning := mkConfigReasoning { effort : ReasoningEffort }.

Inductive FunctionCallOutputContentItem :=
  | OutInputText (text : rstring)
  | OutInputImage (image_url : rstring) (detail : option ImageDetail)
  | OutInputAudio (audio_url : rstring)
  | OutEncryptedContent (encrypted_content : rstring).

Inductive FunctionCallOutputBody :=
  | BodyText (text : rstring)
  | BodyContentItems (items : list FunctionCallOutputContentItem).

Record FunctionCallOutputPayload := mkPayload {
  body : FunctionCallOutputBody;
  success : option bool;
}.

Definition payload_from_text (content : rstring) : FunctionCallOutputPayload :=
  mkPayload (BodyText content) None.

Section Items.
Context {J C : Type}.

Record InternalChatMessageMetadataPassthrough := mkPassthrough {
  turn_id : option rstring;
  create_time : option J;
  content_item_kinds : option (list ContentItemKind);
  cell_id : option rstring;
  executed_tool_calls : option (list C);
  tool_calls_complete : option bool;
}.

Definition default_passthrough : InternalChatMessageMetadataPassthrough :=
  mkPassthrough None None None None None None.

Notation passthrough := (option InternalChatMessageMetadataPassthrough).

Inductive ResponseItem :=
  | AdditionalTools (id : option ResponseItemId) (role : rstring) (tools : list J)
  | Message (id : option ResponseItemId) (role : rstring) (content : list ContentItem)
      (phase : option MessagePhase) (meta : passthrough)
  | AgentMessage (id : option ResponseItemId) (author recipient : rstring)
      (content : list AgentMessageInputContent) (meta : passthrough)
  | Reasoning (id : option ResponseItemId) (summary : list ReasoningItemReasoningSummary)
      (content : option (list ReasoningItemContent)) (encrypted_content : option rstring)
      (meta : passthrough)
  | LocalShellCall (id : option ResponseItemId) (call_id : option rstring)
      (status : LocalShellStatus) (action : LocalShellAction) (meta : passthrough)
  | FunctionCall (id : option ResponseItemId) (name : rstring) (namespace : option rstring)
      (arguments : rstring) (encrypted_function_args : option (list rstring)) (call_id : rstring)
      (meta : passthrough)
  | ToolSearchCall (id : option ResponseItemId) (call_id : option rstring) (status : option rstring)
      (execution : rstring) (arguments : J) (meta : passthrough)
  | FunctionCallOutput (id : option ResponseItemId) (call_id name namespace : option rstring)
      (output : FunctionCallOutputPayload) (meta : passthrough)
  | CustomToolCall (id : option ResponseItemId) (status : option rstring) (call_id name : rstring)
      (namespace : option rstring) (input : rstring) (meta : passthrough)
  | CustomToolCallOutput (id : option ResponseItemId) (call_id : rstring) (name : option rstring)
      (output : FunctionCallOutputPayload) (meta : passthrough)
  | ToolSearchOutput (id : option ResponseItemId) (call_id : option rstring)
      (status execution : rstring) (tools : list J) (meta : passthrough)
  | WebSearchCall (id : option ResponseItemId) (status : option rstring)
      (action : option WebSearchAction) (meta : passthrough)
  | ImageGenerationCall (id : option ResponseItemId) (status : rstring)
      (revised_prompt : option rstring) (image_result : rstring) (meta : passthrough)
  | Compaction (id : option ResponseItemId) (encrypted_content : rstring) (meta : passthrough)
  | ConfigurationUpdate (reasoning : ConfigurationReasoning)
  | CompactionTrigger
  | ContextCompaction (id : option ResponseItemId) (encrypted_content : option rstring)
      (meta : passthrough)
  | OtherItem.

(** [CodexHarnessMetadata] and [ResponseItemEnvelope]. *)
Record CodexHarnessMetadata := mkHarness {
  client_authored : bool;
  fallback_token_limit_override : option N;
  harness_authored_configuration : bool;
  compaction_model_hash : option rstring;
  user_input_order : option N;
  inherited_user_message : bool;
}.

Record ResponseItemEnvelope := mkEnvelope {
  env_item : ResponseItem;
  env_metadata : option CodexHarnessMetadata;
}.
Definition new_envelope (item : ResponseItem) : ResponseItemEnvelope := mkEnvelope item None.
End Items.
Arguments InternalChatMessageMetadataPassthrough : clear implicits.
Arguments ResponseItem : clear implicits.
Arguments ResponseItemEnvelope : clear implicits.

(** [InputModality] of [openai_models.rs]. *)
Inductive InputModality := ModalityText | ModalityImage | ModalityAudio.
#[global] Instance InputModality_eq_dec : EqDecision InputModality.
Proof. solve_decision. Defined.

(** [TruncationPolicy] of [protocol.rs]. *)
Inductive TruncationPolicy := Bytes (limit : N) | Tokens (limit : N).

Definition token_budget (policy : TruncationPolicy) : N :=
  match policy with
  | Bytes bytes => approx_tokens_from_byte_count bytes
  | Tokens tokens => tokens
  end.
Definition byte_budget (policy : TruncationPolicy) : N :=
  match policy with
  | Bytes bytes => bytes
  | Tokens tokens => approx_bytes_for_tokens tokens
  end.
