(* ===== verification/OutputTruncation.v ===== *)
(** * Truncation of tool output

    Models [sofia-rs/utils/output-truncation/src/lib.rs]: the byte and token
    budgets applied to the text of a tool output and to its content items.  The
    estimate of the tokens of an audio URL is a parameter, as in the code. *)

From stdpp Require Import base list numbers strings.
From S2P Require Import Prelude Machine Truncate Protocol.

(** [None] is the panic of a slice. *)
Definition truncate_text (content : rstring) (policy : TruncationPolicy) : option rstring :=
  match policy with
  | Bytes bytes => truncate_middle_chars content bytes
  | Tokens tokens => fst <$> truncate_middle_with_token_budget content tokens
  end.

Definition formatted_truncate_text (content : rstring) (policy : TruncationPolicy)
    : option rstring :=
  if (str_len content <=? byte_budget policy)%N then Some content
  else
    let original_token_count := approx_token_count content in
    let total_lines := len (lines content) in
    result ← truncate_text content policy;
    Some (str "Warning: truncated output (original token count: " ++ dec original_token_count ++
          str ")" ++ [LF] ++ str "Total output lines: " ++ dec total_lines ++ [LF; LF] ++ result).

Definition text_of_item (item : FunctionCallOutputContentItem) : option rstring :=
  match item with OutInputText text => Some text | _ => None end.

(** The loop that joins the text segments: no separator while the text is empty. *)
Fixpoint join_segments (combined : rstring) (segments : list rstring) : rstring :=
  match segments with
  | [] => combined
  | text :: rest =>
      join_segments ((if negb (is_empty combined) then combined ++ [LF] else combined) ++ text) rest
  end.

Definition formatted_truncate_text_content_items_with_policy
    (items : list FunctionCallOutputContentItem) (policy : TruncationPolicy)
    : option (list FunctionCallOutputContentItem * option N) :=
  let text_segments := omap text_of_item items in
  if is_empty text_segments then Some (items, None)
  else
    let combined := join_segments [] text_segments in
    if (str_len combined <=? byte_budget policy)%N then Some (items, None)
    else
      let original_token_count := approx_token_count combined in
      text ← formatted_truncate_text combined policy;
      Some (OutInputText text ::
              omap (λ item, match item with OutInputText _ => None | _ => Some item end) items,
            Some original_token_count).

Section Items.
Context (estimate_audio_token_count : rstring → N).

Definition snippet_policy (policy : TruncationPolicy) (remaining_budget : N) : TruncationPolicy :=
  match policy with Bytes _ => Bytes remaining_budget | Tokens _ => Tokens remaining_budget end.
Definition text_cost (policy : TruncationPolicy) (text : rstring) : N :=
  match policy with Bytes _ => str_len text | Tokens _ => approx_token_count text end.
Definition audio_cost (policy : TruncationPolicy) (audio_url : rstring) : N :=
  let token_cost := estimate_audio_token_count audio_url in
  match policy with Bytes _ => approx_bytes_for_tokens token_cost | Tokens _ => token_cost end.

(** The variables of the loop. *)
Record items_state := mkItems {
  it_out : list FunctionCallOutputContentItem;
  remaining_budget : N;
  omitted_text_items : nat;
  omitted_audio_items : nat;
}.

Definition push_item (item : FunctionCallOutputContentItem) (remaining : N) (st : items_state)
    : items_state :=
  mkItems (it_out st ++ [item]) remaining (omitted_text_items st) (omitted_audio_items st).
Definition omit_text (remaining : N) (st : items_state) : items_state :=
  mkItems (it_out st) remaining (S (omitted_text_items st)) (omitted_audio_items st).
Definition omit_audio (st : items_state) : items_state :=
  mkItems (it_out st) (remaining_budget st) (omitted_text_items st) (S (omitted_audio_items st)).

Definition items_step (policy : TruncationPolicy) (item : FunctionCallOutputContentItem)
    (st : items_state) : option items_state :=
  match item with
  | OutInputText text =>
      if is_empty text then Some st
      else if (remaining_budget st =? 0)%N then Some (omit_text 0 st)
      else
        let cost := text_cost policy text in
        if (cost <=? remaining_budget st)%N
        then Some (push_item item (remaining_budget st - cost) st)
        else
          snippet ← truncate_text text (snippet_policy policy (remaining_budget st));
          Some (if is_empty snippet then omit_text 0 st else push_item (OutInputText snippet) 0 st)
  | OutInputAudio audio_url =>
      let cost := audio_cost policy audio_url in
      if (cost <=? remaining_budget st)%N
      then Some (push_item item (remaining_budget st - cost) st)
      else Some (omit_audio st)
  | OutInputImage _ _ | OutEncryptedContent _ => Some (push_item item (remaining_budget st) st)
  end.

Fixpoint items_loop (policy : TruncationPolicy) (items : list FunctionCallOutputContentItem)
    (st : items_state) : option items_state :=
  match items with
  | [] => Some st
  | item :: rest => st' ← items_step policy item st; items_loop policy rest st'
  end.

Definition omitted_note (n : nat) (kind : rstring) : list FunctionCallOutputContentItem :=
  if 0 <? n
  then [OutInputText (str "[omitted " ++ dec (N.of_nat n) ++ str " " ++ kind ++ str " items ...]")]
  else [].

Definition truncate_function_output_items_with_policy
    (items : list FunctionCallOutputContentItem) (policy : TruncationPolicy)
    : option (list FunctionCallOutputContentItem) :=
  let budget := match policy with Bytes _ => byte_budget policy | Tokens _ => token_budget policy end in
  st ← items_loop policy items (mkItems [] budget 0 0);
  Some (it_out st ++ omitted_note (omitted_text_items st) (str "text") ++
        omitted_note (omitted_audio_items st) (str "audio")).

Definition truncate_function_output_payload (output : FunctionCallOutputPayload)
    (policy : TruncationPolicy) : option FunctionCallOutputPayload :=
  match body output with
  | BodyText text =>
      text ← truncate_text text policy; Some (mkPayload (BodyText text) (success output))
  | BodyContentItems items =>
      items ← truncate_function_output_items_with_policy items policy;
      Some (mkPayload (BodyContentItems items) (success output))
  end.
End Items.

Definition approx_tokens_from_byte_count_i64 (bytes : Z) : Z :=
  if (bytes <=? 0)%Z then 0%Z
  else (Z.of_N (approx_tokens_from_byte_count (Z.to_N bytes `min` USIZE_MAX)) `min` I64_MAX)%Z.

(** ** Properties *)

(** Truncation of text never panics. *)
Lemma truncate_text_total content policy : ∃ r, truncate_text content policy = Some r.
Proof.
  destruct policy as [n|n]; cbn [truncate_text].
  - destruct (decide (n = 0%N)) as [->|Hn].
    { unfold truncate_middle_chars, truncate_with_byte_estimate. destruct (is_empty content); by eexists. }
    destruct (decide (str_len content ≤ n)%N).
    + exists content. apply truncate_short; lia.
    + destruct (truncate_long content n false) as (p & mid & suf & _ & _ & _ & _ & _ & H); [lia|lia|].
      by eexists.
  - destruct (truncate_tokens_spec content n) as (r & -> & _). by exists r.
Qed.

(** How many bytes one unit of the budget stands for. *)
Definition unit_bytes (policy : TruncationPolicy) : N :=
  match policy with Bytes _ => 1 | Tokens _ => 4 end.
Definition policy_limit (policy : TruncationPolicy) : N :=
  match policy with Bytes n | Tokens n => n end.
Definition policy_marker (policy : TruncationPolicy) (n : N) : rstring :=
  format_truncation_marker (match policy with Bytes _ => false | Tokens _ => true end) n.

Lemma div4_lt n r : (r < n / 4)%N → (4 * r + 4 ≤ n)%N.
Proof. intros H. pose proof (N.Div0.mul_div_le n 4). lia. Qed.

Lemma approx_token_count_gt text r :
  (r < approx_token_count text)%N → (4 * r < str_len text)%N.
Proof.
  unfold approx_token_count, sat_add, APPROX_BYTES_PER_TOKEN. intros H%div4_lt. lia.
Qed.

Lemma approx_token_count_bytes text :
  (str_len text + 3 ≤ USIZE_MAX)%N → (str_len text ≤ 4 * approx_token_count text)%N.
Proof.
  intros H. unfold approx_token_count, sat_add, APPROX_BYTES_PER_TOKEN.
  replace ((str_len text + (4 - 1)) `min` USIZE_MAX)%N with (str_len text + 3)%N by lia.
  pose proof (N.div_mod (str_len text + 3) 4 ltac:(lia)).
  pose proof (N.mod_lt (str_len text + 3) 4 ltac:(lia)). lia.
Qed.

(** A snippet takes the rest of the budget and the marker. *)
Lemma snippet_bound text policy r :
  (0 < r)%N → (r < text_cost policy text)%N →
  ∃ out k, truncate_text text (snippet_policy policy r) = Some out ∧
    (str_len out ≤ unit_bytes policy * r + str_len (policy_marker policy k))%N.
Proof.
  intros Hr Hc. destruct policy as [n|n]; cbn [truncate_text snippet_policy text_cost unit_bytes] in *.
  - destruct (truncate_long text r false Hr Hc) as (p & mid & suf & _ & _ & [Hp _] & Hsuf & _ & He).
    eexists _, (len mid `min` USIZE_MAX)%N. split; [exact He|]. rewrite !str_len_app.
    pose proof (half_le r). unfold policy_marker. cbn [removed_units]. lia.
  - apply approx_token_count_gt in Hc. unfold truncate_middle_with_token_budget.
    set (m := approx_bytes_for_tokens r). assert (0 < m ∧ m ≤ 4 * r)%N as [Hm Hmr].
    { unfold m, approx_bytes_for_tokens, sat_mul, APPROX_BYTES_PER_TOKEN. pose proof USIZE_MAX_pos. lia. }
    destruct (is_empty text) eqn:E; [destruct text; [cbn [str_len] in Hc; lia|done]|].
    rewrite (proj2 (N.leb_gt (str_len text) m)) by lia. rewrite andb_false_r.
    destruct (truncate_long text m true Hm) as (p & mid & suf & _ & _ & [Hp _] & Hsuf & _ & He); [lia|].
    lazymatch type of He with _ = Some ?x =>
      exists x, (removed_units true (str_len text - m) (len mid `min` USIZE_MAX)) end.
    split; [rewrite He; cbn; by destruct (str_eqb _ _)|]. rewrite !str_len_app. pose proof (half_le m). unfold policy_marker. cbn [removed_units]. lia.
Qed.

Definition text_bytes (items : list FunctionCallOutputContentItem) : N :=
  foldr N.add 0%N (map str_len (omap text_of_item items)).

Lemma text_bytes_app a b : text_bytes (a ++ b) = (text_bytes a + text_bytes b)%N.
Proof.
  unfold text_bytes. rewrite omap_app, map_app. induction (map str_len (omap text_of_item a)); cbn; lia.
Qed.

(** Items that no budget touches, audio items, and texts that are not empty. *)
Definition is_opaque (i : FunctionCallOutputContentItem) : bool :=
  match i with OutInputImage _ _ | OutEncryptedContent _ => true | _ => false end.
Definition is_audio (i : FunctionCallOutputContentItem) : bool :=
  match i with OutInputAudio _ => true | _ => false end.
Definition is_text (i : FunctionCallOutputContentItem) : bool :=
  match i with OutInputText t => negb (is_empty t) | _ => false end.
Definition count_items (P : FunctionCallOutputContentItem → bool) (l : list FunctionCallOutputContentItem) : nat :=
  length (List.filter P l).

Lemma count_items_app P a b : count_items P (a ++ b) = count_items P a + count_items P b.
Proof. unfold count_items. by rewrite List.filter_app, length_app. Qed.

Section Budget.
Context (audio : rstring → N) (policy : TruncationPolicy).

Definition fits_memory (i : FunctionCallOutputContentItem) : Prop :=
  match i with OutInputText t => (str_len t + 3 ≤ USIZE_MAX)%N | _ => True end.

(** What the loop keeps true: before a text is cut, the bytes kept and the rest of
    the budget stay within the budget; after it, only the marker comes on top. *)
Definition within (budget : N) (st : items_state) : Prop :=
  (text_bytes (it_out st) + unit_bytes policy * remaining_budget st ≤ unit_bytes policy * budget)%N ∨
  (remaining_budget st = 0%N ∧
   ∃ k, text_bytes (it_out st) ≤ unit_bytes policy * budget + str_len (policy_marker policy k))%N.

(** What a step accounts for. *)
Definition accounts (item : FunctionCallOutputContentItem) (st st' : items_state) : Prop :=
  List.filter is_opaque (it_out st') = List.filter is_opaque (it_out st ++ [item]) ∧
  count_items is_text (it_out st') + omitted_text_items st' =
    count_items is_text (it_out st ++ [item]) + omitted_text_items st ∧
  count_items is_audio (it_out st') + omitted_audio_items st' =
    count_items is_audio (it_out st ++ [item]) + omitted_audio_items st.

Lemma text_cost_bytes t :
  (str_len t + 3 ≤ USIZE_MAX)%N → (str_len t ≤ unit_bytes policy * text_cost policy t)%N.
Proof.
  intros H. destruct policy as [n|n]; cbn [unit_bytes text_cost]; [lia|].
  by apply approx_token_count_bytes.
Qed.

Lemma text_bytes_singleton i : text_bytes [i] = match i with OutInputText t => str_len t | _ => 0%N end.
Proof. destruct i; unfold text_bytes; cbn; lia. Qed.

Lemma accounts_push item r st : accounts item st (push_item item r st).
Proof. done. Qed.

Lemma accounts_same item st st' :
  it_out st' = it_out st →
  omitted_text_items st' = (if is_text item then 1 else 0) + omitted_text_items st →
  omitted_audio_items st' = (if is_audio item then 1 else 0) + omitted_audio_items st →
  is_opaque item = false → accounts item st st'.
Proof.
  intros Ho Ht Ha Hq. unfold accounts. rewrite Ho, Ht, Ha, !count_items_app, List.filter_app.
  unfold count_items. cbn [List.filter]. rewrite Hq, app_nil_r.
  destruct (is_text item), (is_audio item); cbn [length]; split_and!; lia || done.
Qed.

Lemma within_other budget item r st :
  text_of_item item = None → (r ≤ remaining_budget st)%N →
  within budget st → within budget (push_item item r st).
Proof.
  intros Hi Hr Hw. unfold within in *. cbn [it_out remaining_budget push_item].
  rewrite text_bytes_app, text_bytes_singleton.
  replace (match item with OutInputText t => str_len t | _ => 0%N end) with 0%N by (by destruct item).
  rewrite N.add_0_r. destruct Hw as [Hw|[Hz Hw]]; [left; nia|right; split; [lia|done]].
Qed.

Lemma text_step_spec budget text st :
  text ≠ [] → (str_len text + 3 ≤ USIZE_MAX)%N → (remaining_budget st ≠ 0)%N → within budget st →
  ∃ st', items_step audio policy (OutInputText text) st = Some st' ∧ within budget st' ∧
         accounts (OutInputText text) st st'.
Proof.
  intros Hne Hmem H0 Hw. assert (is_empty text = false) as E by (by destruct text).
  unfold items_step. rewrite E, (proj2 (N.eqb_neq _ _)) by done.
  destruct Hw as [Hw|[? _]]; [|lia].
  destruct (N.leb_spec (text_cost policy text) (remaining_budget st)) as [Hc|Hc].
  { eexists. split_and!; [done| |by apply accounts_push]. left. cbn [it_out remaining_budget push_item].
    rewrite text_bytes_app, text_bytes_singleton. pose proof (text_cost_bytes text Hmem). nia. }
  destruct (snippet_bound text policy (remaining_budget st)) as (out & k & Ht & Hk); [lia|done|].
  rewrite Ht. eexists. split; [done|]. destruct (is_empty out) eqn:Eo.
  - split; [|by apply accounts_same; cbn; rewrite ?E].
    right. cbn [it_out remaining_budget omit_text]. split; [done|]. exists k. lia.
  - split.
    + right. cbn [it_out remaining_budget push_item]. split; [done|]. exists k.
      rewrite text_bytes_app, text_bytes_singleton. lia.
    + unfold accounts. cbn [push_item it_out omitted_text_items omitted_audio_items].
      rewrite !count_items_app, !List.filter_app. unfold count_items.
      cbn [List.filter is_opaque is_text is_audio]. by rewrite E, Eo.
Qed.

Lemma items_step_spec budget item st :
  fits_memory item → within budget st →
  ∃ st', items_step audio policy item st = Some st' ∧ within budget st' ∧ accounts item st st'.
Proof.
  intros Hmem Hw. destruct item as [text|url d|url|e].
  - destruct (decide (text = [])) as [->|Hne].
    { exists st. split_and!; [done|done|]. by apply accounts_same. }
    destruct (decide (remaining_budget st = 0%N)) as [H0|H0]; [|by apply text_step_spec].
    exists (omit_text 0 st). assert (is_empty text = false) as E by (by destruct text).
    split_and!; [by unfold items_step; rewrite E, H0| |by apply accounts_same; cbn; rewrite ?E].
    unfold within in *. cbn [it_out remaining_budget omit_text]. rewrite H0 in Hw. intuition.
  - eexists. split_and!; [done|by apply within_other|by apply accounts_push].
  - unfold items_step.
    destruct (N.leb_spec (audio_cost audio policy url) (remaining_budget st)) as [Hc|Hc].
    + eexists. split_and!; [done|apply within_other; [done|lia|done]|by apply accounts_push].
    + exists (omit_audio st). split_and!; [done|done|]. by apply accounts_same.
  - eexists. split_and!; [done|by apply within_other|by apply accounts_push].
Qed.

(** The items of a list that a truncated list accounts for. *)
Lemma items_loop_spec budget items st :
  Forall fits_memory items → within budget st →
  ∃ st', items_loop audio policy items st = Some st' ∧ within budget st' ∧
    List.filter is_opaque (it_out st') = List.filter is_opaque (it_out st ++ items) ∧
    count_items is_text (it_out st') + omitted_text_items st' =
      count_items is_text (it_out st ++ items) + omitted_text_items st ∧
    count_items is_audio (it_out st') + omitted_audio_items st' =
      count_items is_audio (it_out st ++ items) + omitted_audio_items st.
Proof.
  intros Hmem. revert st. induction Hmem as [|item items Hi Hmem IH]; intros st Hw; cbn [items_loop].
  { exists st. by rewrite app_nil_r. }
  destruct (items_step_spec budget item st Hi Hw) as (st1 & -> & Hw1 & Ho & Ht & Ha). cbn.
  destruct (IH st1 Hw1) as (st2 & -> & Hw2 & Ho2 & Ht2 & Ha2). exists st2.
  rewrite List.filter_app, Ho, <- List.filter_app, <- app_assoc in Ho2.
  rewrite count_items_app in Ht2, Ha2. split_and!; [done|done|done| |].
  - change (item :: items) with ([item] ++ items). rewrite app_assoc, count_items_app. lia.
  - change (item :: items) with ([item] ++ items). rewrite app_assoc, count_items_app. lia.
Qed.

(** The total cost, and the list when the budget is enough for it. *)
Fixpoint total_cost (items : list FunctionCallOutputContentItem) : N :=
  match items with
  | [] => 0
  | OutInputText t :: rest => (if is_empty t then 0 else text_cost policy t) + total_cost rest
  | OutInputAudio url :: rest => audio_cost audio policy url + total_cost rest
  | _ :: rest => total_cost rest
  end%N.
Definition not_empty_text (i : FunctionCallOutputContentItem) : bool :=
  match i with OutInputText t => negb (is_empty t) | _ => true end.

Lemma text_cost_pos t : t ≠ [] → (0 < text_cost policy t)%N.
Proof.
  destruct t as [|c t]; [done|]. intros _. destruct policy as [n|n]; cbn [text_cost].
  - cbn [str_len]. pose proof (char_len_pos c). lia.
  - unfold approx_token_count, sat_add, APPROX_BYTES_PER_TOKEN. cbn [str_len]. pose proof (char_len_pos c).
    apply N.div_str_pos. split; [lia|]. apply N.min_glb; [lia|done].
Qed.

Lemma items_loop_fits items st :
  (total_cost items ≤ remaining_budget st)%N →
  ∃ r, items_loop audio policy items st =
       Some (mkItems (it_out st ++ List.filter not_empty_text items) r
               (omitted_text_items st) (omitted_audio_items st)).
Proof.
  revert st. induction items as [|item items IH]; intros st Hc; cbn [items_loop total_cost List.filter] in *.
  { exists (remaining_budget st). rewrite app_nil_r. by destruct st. }
  destruct item as [text|url d|url|e]; cbn [items_step not_empty_text].
  - destruct (is_empty text) eqn:E; cbn [negb]; [by apply IH|].
    assert (0 < text_cost policy text)%N by (apply text_cost_pos; by destruct text).
    rewrite (proj2 (N.eqb_neq _ _)), (proj2 (N.leb_le _ _)) by lia. cbn.
    destruct (IH (push_item (OutInputText text) (remaining_budget st - text_cost policy text) st)) as [r ->];
      [cbn; lia|]. exists r. cbn. by rewrite <- app_assoc.
  - destruct (IH (push_item (OutInputImage url d) (remaining_budget st) st)) as [r Hr]; [done|].
    exists r. cbn in *. by rewrite Hr, <- app_assoc.
  - rewrite (proj2 (N.leb_le _ _)) by lia. cbn.
    destruct (IH (push_item (OutInputAudio url) (remaining_budget st - audio_cost audio policy url) st)) as [r ->];
      [cbn; lia|]. exists r. cbn. by rewrite <- app_assoc.
  - destruct (IH (push_item (OutEncryptedContent e) (remaining_budget st) st)) as [r Hr]; [done|].
    exists r. cbn in *. by rewrite Hr, <- app_assoc.
Qed.

(** truncating the content items of a tool output to a budget never panics; it
    keeps every image and encrypted item in order, keeps text within the budget plus
    one marker, reports exactly the texts and audio items it left out, and changes
    nothing but empty texts when everything fits. *)
Theorem truncate_items_within_budget items :
  Forall fits_memory items →
  ∃ kept nt na,
    truncate_function_output_items_with_policy audio items policy =
      Some (kept ++ omitted_note nt (str "text") ++ omitted_note na (str "audio")) ∧
    (∃ k, (text_bytes kept ≤ unit_bytes policy * policy_limit policy + str_len (policy_marker policy k))%N) ∧
    List.filter is_opaque kept = List.filter is_opaque items ∧
    count_items is_text kept + nt = count_items is_text items ∧
    count_items is_audio kept + na = count_items is_audio items ∧
    ((total_cost items ≤ policy_limit policy)%N →
       kept = List.filter not_empty_text items ∧ nt = 0 ∧ na = 0).
Proof.
  intros Hmem. unfold truncate_function_output_items_with_policy.
  replace (match policy with Bytes _ => byte_budget policy | Tokens _ => token_budget policy end)
    with (policy_limit policy) by (by destruct policy).
  set (st0 := mkItems [] (policy_limit policy) 0 0).
  destruct (items_loop_spec (policy_limit policy) items st0 Hmem) as (st & Hl & Hw & Ho & Ht & Ha).
  { left. cbn. lia. }
  cbn [it_out st0 app omitted_text_items omitted_audio_items] in Ho, Ht, Ha. rewrite Hl.
  exists (it_out st), (omitted_text_items st), (omitted_audio_items st).
  split_and!; [done| |done|lia|lia|].
  - destruct Hw as [Hw|[_ Hw]]; [|done]. exists 0%N. lia.
  - intros Hc. destruct (items_loop_fits items st0 Hc) as [r Hr]. rewrite Hl in Hr.
    injection Hr as ->. done.
Qed.
End Budget.

Lemma truncate_items_within_budget_witness :
  Forall fits_memory [OutInputText (str "abcdef"); OutInputImage [] None; OutInputText (str "xyz")] ∧
  ∃ kept nt na,
    truncate_function_output_items_with_policy (λ _, 0%N)
      [OutInputText (str "abcdef"); OutInputImage [] None; OutInputText (str "xyz")] (Bytes 4) =
    Some (kept ++ omitted_note nt (str "text") ++ omitted_note na (str "audio")) ∧
    count_items is_text kept + nt = 2.
Proof.
  assert (Forall fits_memory [OutInputText (str "abcdef"); OutInputImage [] None; OutInputText (str "xyz")]) as H.
  { repeat constructor; cbn; done. }
  split; [exact H|].
  destruct (truncate_items_within_budget (λ _, 0%N) (Bytes 4) _ H) as (kept & nt & na & H1 & _ & _ & H2 & _).
  exists kept, nt, na. split; [exact H1|exact H2].
Defined.
