(* ===== verification/Normalize.v ===== *)
(** * Normalization of the conversation history

    Models [sofia-rs/core/src/context_manager/normalize.rs], the part of
    [history.rs] that calls it ([normalize_history], [remove_first_item]), the
    annotated content of [sofia-rs/context-fragments/src/annotated_content.rs] and
    [core/src/context/unsupported_media.rs]: before a prompt is sent, every tool
    call must have an output and every output a call, and media the model does not
    support is replaced by text. *)

From stdpp Require Import base list numbers strings.
From S2P Require Import Prelude Protocol.

(** ** [annotated_content.rs] *)
Record AnnotatedContent := mkAnnotated { an_content : ContentItem; an_kind : ContentItemKind }.

(** Zips with the classifications, then with [unknown] forever. *)
Fixpoint zip_kinds (content : list ContentItem) (kinds : list ContentItemKind) : list AnnotatedContent :=
  match content, kinds with
  | [], _ => []
  | c :: cs, [] => mkAnnotated c (str "unknown") :: zip_kinds cs []
  | c :: cs, k :: ks => mkAnnotated c k :: zip_kinds cs ks
  end.

(** ** [unsupported_media.rs] *)
Record UnsupportedMedia := mkUnsupported { media_text : rstring; media_kind : rstring }.
Definition UNSUPPORTED_IMAGE : UnsupportedMedia :=
  mkUnsupported (str "image content omitted because you do not support image input")
    (str "images.unsupported").
Definition UNSUPPORTED_AUDIO : UnsupportedMedia :=
  mkUnsupported (str "audio content omitted because you do not support audio input")
    (str "audio.unsupported").
(** [render]: the markers are empty.  [render_fragment().into_parts().1]. *)
Definition media_render (m : UnsupportedMedia) : rstring := media_text m.
Definition media_annotated (m : UnsupportedMedia) : AnnotatedContent :=
  mkAnnotated (InputText (media_render m)) (media_kind m).

Section Normalize.
Context {J C : Type}.
Notation item := (ResponseItem J C).
Notation envelope := (ResponseItemEnvelope J C).

(** [error_or_panic] panics in builds with debug assertions: [None]. *)
Context (debug_assertions : bool).
(** [Uuid::new_v5] of the synthetic output namespace, printed. *)
Context (uuid_v5 : rstring → rstring).

Definition error_or_panic : option unit := if debug_assertions then None else Some tt.

Definition to_annotated_content (i : item) : option (list AnnotatedContent) :=
  match i with
  | Message _ _ content _ meta =>
      Some (zip_kinds content (default [] (meta ≫= content_item_kinds)))
  | _ => None
  end.

Definition set_kinds (kinds : list ContentItemKind) (m : InternalChatMessageMetadataPassthrough J C)
    : InternalChatMessageMetadataPassthrough J C :=
  mkPassthrough (turn_id m) (create_time m) (Some kinds) (cell_id m) (executed_tool_calls m)
    (tool_calls_complete m).

Definition set_annotated_content (i : item) (annotated : list AnnotatedContent) : item :=
  match i with
  | Message id role _ phase meta =>
      Message id role (map an_content annotated) phase
        (Some (set_kinds (map an_kind annotated) (default default_passthrough meta)))
  | _ => i
  end.

(** ** [ensure_call_outputs_present] *)
Definition function_output_id (i : item) : option rstring :=
  match i with FunctionCallOutput _ (Some call_id) _ _ _ _ => Some call_id | _ => None end.
Definition tool_search_output_id (i : item) : option rstring :=
  match i with ToolSearchOutput _ (Some call_id) _ _ _ _ => Some call_id | _ => None end.
Definition custom_tool_output_id (i : item) : option rstring :=
  match i with CustomToolCallOutput _ call_id _ _ _ => Some call_id | _ => None end.

Definition synthetic_output_id (prefix : rstring) (item_id : option rstring) : option ResponseItemId :=
  source_id ← item_id;
  if is_empty source_id then None
  else Some (with_suffix prefix (uuid_v5 (prefix ++ str ":" ++ source_id))).

Definition function_output (id : option ResponseItemId) (call_id : rstring) : envelope :=
  new_envelope (FunctionCallOutput (synthetic_output_id (str "fco") id) (Some call_id) None None
                  (payload_from_text (str "aborted")) None).
Definition tool_search_output (id : option ResponseItemId) (call_id : rstring) : envelope :=
  new_envelope (ToolSearchOutput (synthetic_output_id (str "tso") id) (Some call_id)
                  (str "completed") (str "client") [] None).
Definition custom_tool_output (id : option ResponseItemId) (call_id : rstring) : envelope :=
  new_envelope (CustomToolCallOutput (synthetic_output_id (str "ctco") id) call_id None
                  (payload_from_text (str "aborted")) None).

Definition contains_id (ids : list rstring) (id : rstring) : bool := bool_decide (id ∈ ids).

(** One item of the scan for missing outputs: nothing, or the output to insert. *)
Definition missing_output (function_ids tool_search_ids custom_ids : list rstring) (i : item)
    : option (option envelope) :=
  match i with
  | FunctionCall id _ _ _ _ call_id _ =>
      Some (if contains_id function_ids call_id then None else Some (function_output id call_id))
  | ToolSearchCall id (Some call_id) _ _ _ _ =>
      Some (if contains_id tool_search_ids call_id then None else Some (tool_search_output id call_id))
  | CustomToolCall id _ call_id _ _ _ _ =>
      if contains_id custom_ids call_id then Some None
      else _ ← error_or_panic; Some (Some (custom_tool_output id call_id))
  | LocalShellCall id (Some call_id) _ _ _ =>
      if contains_id function_ids call_id then Some None
      else _ ← error_or_panic; Some (Some (function_output id call_id))
  | _ => Some None
  end.

(** [missing_outputs_to_insert], from position [idx] on. *)
Fixpoint missing_outputs_from (function_ids tool_search_ids custom_ids : list rstring) (idx : nat)
    (items : list envelope) : option (list (nat * envelope)) :=
  match items with
  | [] => Some []
  | e :: rest =>
      m ← missing_output function_ids tool_search_ids custom_ids (env_item e);
      ms ← missing_outputs_from function_ids tool_search_ids custom_ids (S idx) rest;
      Some (match m with Some o => (idx, o) :: ms | None => ms end)
  end.

(** [Vec::insert] panics past the end. *)
Definition vec_insert {A} (i : nat) (x : A) (l : list A) : option (list A) :=
  if i <=? length l then Some (take i l ++ x :: drop i l) else None.

(** [for (idx, output) in missing.into_iter().rev()]. *)
Fixpoint insert_outputs (missing : list (nat * envelope)) (items : list envelope)
    : option (list envelope) :=
  match missing with
  | [] => Some items
  | (idx, o) :: rest => items' ← insert_outputs rest items; vec_insert (idx + 1) o items'
  end.

Definition ensure_call_outputs_present (items : list envelope) : option (list envelope) :=
  let its := map env_item items in
  missing ← missing_outputs_from (omap function_output_id its) (omap tool_search_output_id its)
              (omap custom_tool_output_id its) 0 items;
  insert_outputs missing items.

(** ** [remove_orphan_outputs] *)
Definition function_call_id (i : item) : option rstring :=
  match i with
  | FunctionCall _ _ _ _ _ call_id _ => Some call_id
  | LocalShellCall _ (Some call_id) _ _ _ => Some call_id
  | _ => None
  end.
Definition tool_search_call_id (i : item) : option rstring :=
  match i with ToolSearchCall _ (Some call_id) _ _ _ _ => Some call_id | _ => None end.
Definition custom_tool_call_id (i : item) : option rstring :=
  match i with CustomToolCall _ _ call_id _ _ _ _ => Some call_id | _ => None end.

Definition is_orphan (function_ids tool_search_ids custom_ids : list rstring) (i : item) : bool :=
  match i with
  | FunctionCallOutput _ (Some call_id) _ _ _ _ => negb (contains_id function_ids call_id)
  | CustomToolCallOutput _ call_id _ _ _ => negb (contains_id custom_ids call_id)
  | ToolSearchOutput _ (Some call_id) _ execution _ _ =>
      negb (str_eqb execution (str "server")) && negb (contains_id tool_search_ids call_id)
  | _ => false
  end.

Fixpoint orphan_positions_from (function_ids tool_search_ids custom_ids : list rstring)
    (position : nat) (items : list envelope) : option (list nat) :=
  match items with
  | [] => Some []
  | e :: rest =>
      let orphan := is_orphan function_ids tool_search_ids custom_ids (env_item e) in
      _ ← (if orphan then error_or_panic else Some tt);
      ps ← orphan_positions_from function_ids tool_search_ids custom_ids (S position) rest;
      Some (if orphan then position :: ps else ps)
  end.

(** [items.retain] with the peekable positions. *)
Fixpoint retain_loop (position : nat) (orphan_positions : list nat) (items : list envelope)
    : list envelope :=
  match items with
  | [] => []
  | e :: rest =>
      let retain := negb (bool_decide (head orphan_positions = Some position)) in
      if retain then e :: retain_loop (S position) orphan_positions rest
      else retain_loop (S position) (tail orphan_positions) rest
  end.

Definition remove_orphan_outputs (items : list envelope) : option (list envelope) :=
  let its := map env_item items in
  positions ← orphan_positions_from (omap function_call_id its) (omap tool_search_call_id its)
                (omap custom_tool_call_id its) 0 items;
  Some (if is_empty positions then items else retain_loop 0 positions items).

(** ** [remove_corresponding_for] *)
Fixpoint remove_first_matching (P : item → bool) (items : list envelope) : list envelope :=
  match items with
  | [] => []
  | e :: rest => if P (env_item e) then rest else e :: remove_first_matching P rest
  end.

Definition has_id (f : item → option rstring) (call_id : rstring) (i : item) : bool :=
  bool_decide (f i = Some call_id).
Definition function_call_only_id (i : item) : option rstring :=
  match i with FunctionCall _ _ _ _ _ call_id _ => Some call_id | _ => None end.
Definition local_shell_call_id (i : item) : option rstring :=
  match i with LocalShellCall _ (Some call_id) _ _ _ => Some call_id | _ => None end.

Definition remove_corresponding_for (items : list envelope) (i : item) : list envelope :=
  match i with
  | FunctionCall _ _ _ _ _ call_id _ =>
      remove_first_matching (has_id function_output_id call_id) items
  | FunctionCallOutput _ (Some call_id) _ _ _ _ =>
      if existsb (λ e, has_id function_call_only_id call_id (env_item e)) items
      then remove_first_matching (has_id function_call_only_id call_id) items
      else remove_first_matching (has_id local_shell_call_id call_id) items
  | ToolSearchCall _ (Some call_id) _ _ _ _ =>
      remove_first_matching (has_id tool_search_output_id call_id) items
  | ToolSearchOutput _ (Some call_id) _ _ _ _ =>
      remove_first_matching (has_id tool_search_call_id call_id) items
  | CustomToolCall _ _ call_id _ _ _ _ =>
      remove_first_matching (has_id custom_tool_output_id call_id) items
  | CustomToolCallOutput _ call_id _ _ _ =>
      remove_first_matching (has_id custom_tool_call_id call_id) items
  | LocalShellCall _ (Some call_id) _ _ _ =>
      remove_first_matching (has_id function_output_id call_id) items
  | _ => items
  end.

(** The items of the history after [remove_first_item]. *)
Definition remove_first_item (items : list envelope) : list envelope :=
  match items with
  | [] => []
  | removed :: rest => remove_corresponding_for rest (env_item removed)
  end.

(** ** Unsupported media *)
Definition map_item (f : item → item) (e : envelope) : envelope := mkEnvelope (f (env_item e)) (env_metadata e).

Definition strip_message (is_media : ContentItem → bool) (m : UnsupportedMedia) (i : item) : item :=
  match to_annotated_content i with
  | Some content =>
      set_annotated_content i
        (map (λ a, if is_media (an_content a) then media_annotated m else a) content)
  | None => i
  end.

Definition strip_payload (is_media : FunctionCallOutputContentItem → bool) (m : UnsupportedMedia)
    (output : FunctionCallOutputPayload) : FunctionCallOutputPayload :=
  match body output with
  | BodyText _ => output
  | BodyContentItems items =>
      mkPayload (BodyContentItems
        (map (λ i, if is_media i then OutInputText (media_render m) else i) items)) (success output)
  end.

Definition is_input_image (c : ContentItem) : bool :=
  match c with InputImage _ _ => true | _ => false end.
Definition is_input_audio (c : ContentItem) : bool :=
  match c with InputAudio _ => true | _ => false end.
Definition is_output_image (c : FunctionCallOutputContentItem) : bool :=
  match c with OutInputImage _ _ => true | _ => false end.
Definition is_output_audio (c : FunctionCallOutputContentItem) : bool :=
  match c with OutInputAudio _ => true | _ => false end.

Definition strip_image (i : item) : item :=
  match i with
  | Message _ _ _ _ _ => strip_message is_input_image UNSUPPORTED_IMAGE i
  | FunctionCallOutput id call_id name namespace output meta =>
      FunctionCallOutput id call_id name namespace
        (strip_payload is_output_image UNSUPPORTED_IMAGE output) meta
  | CustomToolCallOutput id call_id name output meta =>
      CustomToolCallOutput id call_id name (strip_payload is_output_image UNSUPPORTED_IMAGE output) meta
  | ImageGenerationCall id status revised_prompt _ meta =>
      ImageGenerationCall id status revised_prompt [] meta
  | _ => i
  end.
Definition strip_images_when_unsupported (input_modalities : list InputModality)
    (items : list envelope) : list envelope :=
  if bool_decide (ModalityImage ∈ input_modalities) then items else map (map_item strip_image) items.

Definition strip_audio (i : item) : item :=
  match i with
  | Message _ _ _ _ _ => strip_message is_input_audio UNSUPPORTED_AUDIO i
  | FunctionCallOutput id call_id name namespace output meta =>
      FunctionCallOutput id call_id name namespace
        (strip_payload is_output_audio UNSUPPORTED_AUDIO output) meta
  | CustomToolCallOutput id call_id name output meta =>
      CustomToolCallOutput id call_id name (strip_payload is_output_audio UNSUPPORTED_AUDIO output) meta
  | _ => i
  end.
Definition strip_audio_when_unsupported (input_modalities : list InputModality)
    (items : list envelope) : list envelope :=
  if bool_decide (ModalityAudio ∈ input_modalities) then items else map (map_item strip_audio) items.

(** [normalize_history] of [history.rs]. *)
Definition normalize_history (input_modalities : list InputModality) (items : list envelope)
    : option (list envelope) :=
  items ← ensure_call_outputs_present items;
  items ← remove_orphan_outputs items;
  Some (strip_audio_when_unsupported input_modalities
          (strip_images_when_unsupported input_modalities items)).
End Normalize.
