(* ===== verification/NormalizeSpec.v ===== *)
(** * Normalized histories pair every call with an output

    The keys of calls and outputs, what [ensure_call_outputs_present] and
    [remove_orphan_outputs] compute, and the theorems on [normalize_history] and
    [remove_first_item] of [Normalize.v]. *)

From stdpp Require Import base list numbers strings sets.
From S2P Require Import Prelude Protocol Normalize.

#[local] Set Default Proof Using "Type*".

(** ** Keys: a call and its output share one *)
Inductive CallKind := KFunction | KSearch | KCustom.
#[global] Instance CallKind_eq_dec : EqDecision CallKind.
Proof. solve_decision. Defined.
Abbreviation key := (CallKind * rstring)%type.

Section Spec.
Context {J C : Type}.
Notation item := (ResponseItem J C).
Notation envelope := (ResponseItemEnvelope J C).

Definition call_key (i : item) : option key :=
  match i with
  | FunctionCall _ _ _ _ _ call_id _ => Some (KFunction, call_id)
  | LocalShellCall _ (Some call_id) _ _ _ => Some (KFunction, call_id)
  | ToolSearchCall _ (Some call_id) _ _ _ _ => Some (KSearch, call_id)
  | CustomToolCall _ _ call_id _ _ _ _ => Some (KCustom, call_id)
  | _ => None
  end.
Definition output_key (i : item) : option key :=
  match i with
  | FunctionCallOutput _ (Some call_id) _ _ _ _ => Some (KFunction, call_id)
  | ToolSearchOutput _ (Some call_id) _ _ _ _ => Some (KSearch, call_id)
  | CustomToolCallOutput _ call_id _ _ _ => Some (KCustom, call_id)
  | _ => None
  end.
(** Tool searches that ran on the server have no call in the history. *)
Definition server_side (i : item) : bool :=
  match i with
  | ToolSearchOutput _ _ _ execution _ _ => str_eqb execution (str "server")
  | _ => false
  end.

Definition calls (items : list envelope) : list key := omap (λ e, call_key (env_item e)) items.
Definition outputs (items : list envelope) : list key := omap (λ e, output_key (env_item e)) items.

Definition paired (items : list envelope) : Prop :=
  (∀ k, k ∈ calls items → k ∈ outputs items) ∧
  (∀ e k, e ∈ items → output_key (env_item e) = Some k → server_side (env_item e) = false →
     k ∈ calls items).

Definition no_images (i : item) : Prop :=
  match i with
  | Message _ _ content _ _ => Forall (λ c, is_input_image c = false) content
  | FunctionCallOutput _ _ _ _ (mkPayload (BodyContentItems l) _) _
  | CustomToolCallOutput _ _ _ (mkPayload (BodyContentItems l) _) _ =>
      Forall (λ c, is_output_image c = false) l
  | ImageGenerationCall _ _ _ data _ => data = []
  | _ => True
  end.
Definition no_audio (i : item) : Prop :=
  match i with
  | Message _ _ content _ _ => Forall (λ c, is_input_audio c = false) content
  | FunctionCallOutput _ _ _ _ (mkPayload (BodyContentItems l) _) _
  | CustomToolCallOutput _ _ _ (mkPayload (BodyContentItems l) _) _ =>
      Forall (λ c, is_output_audio c = false) l
  | _ => True
  end.

(** ** Keys as the code collects them *)
Lemma keys_of_kind (f : item → option rstring) (g : item → option key) kind (items : list envelope) id :
  (∀ i, f i = Some id ↔ g i = Some (kind, id)) →
  contains_id (omap f (map env_item items)) id
  = bool_decide ((kind, id) ∈ omap (λ e, g (env_item e)) items).
Proof.
  intros Hfg. unfold contains_id. apply bool_decide_ext. rewrite !list_elem_of_omap. split.
  - intros (i & Hi & Hf). apply list_elem_of_fmap in Hi as (e & -> & He).
    exists e. split; [done|]. by apply Hfg.
  - intros (e & He & Hg). exists (env_item e). split; [by apply list_elem_of_fmap_2|]. by apply Hfg.
Qed.

Ltac by_item := intros i; destruct i as [| | | |? [|]| |? [|]|? [|]| | |? [|]| | | | | | |];
  simpl; naive_solver.

Lemma function_outputs items id :
  contains_id (omap function_output_id (map env_item items)) id
  = bool_decide ((KFunction, id) ∈ outputs items).
Proof. apply keys_of_kind. by_item. Qed.
Lemma search_outputs items id :
  contains_id (omap tool_search_output_id (map env_item items)) id
  = bool_decide ((KSearch, id) ∈ outputs items).
Proof. apply keys_of_kind. by_item. Qed.
Lemma custom_outputs items id :
  contains_id (omap custom_tool_output_id (map env_item items)) id
  = bool_decide ((KCustom, id) ∈ outputs items).
Proof. apply keys_of_kind. by_item. Qed.
Lemma function_calls items id :
  contains_id (omap function_call_id (map env_item items)) id
  = bool_decide ((KFunction, id) ∈ calls items).
Proof. apply keys_of_kind. by_item. Qed.
Lemma search_calls items id :
  contains_id (omap tool_search_call_id (map env_item items)) id
  = bool_decide ((KSearch, id) ∈ calls items).
Proof. apply keys_of_kind. by_item. Qed.
Lemma custom_calls items id :
  contains_id (omap custom_tool_call_id (map env_item items)) id
  = bool_decide ((KCustom, id) ∈ calls items).
Proof. apply keys_of_kind. by_item. Qed.

Section Uuid.
Context (uuid_v5 : rstring → rstring).

(** The output inserted after a call that has none. *)
Definition synthetic (i : item) : option envelope :=
  match i with
  | FunctionCall id _ _ _ _ call_id _ => Some (function_output uuid_v5 id call_id)
  | LocalShellCall id (Some call_id) _ _ _ => Some (function_output uuid_v5 id call_id)
  | ToolSearchCall id (Some call_id) _ _ _ _ => Some (tool_search_output uuid_v5 id call_id)
  | CustomToolCall id _ call_id _ _ _ _ => Some (custom_tool_output uuid_v5 id call_id)
  | _ => None
  end.

Definition missing_of (outs : list key) (i : item) : option envelope :=
  k ← call_key i; if bool_decide (k ∈ outs) then None else synthetic i.
Definition expand (outs : list key) (e : envelope) : list envelope :=
  e :: option_list (missing_of outs (env_item e)).
Definition orphan (cs : list key) (i : item) : bool :=
  match output_key i with
  | Some k => negb (server_side i) && negb (bool_decide (k ∈ cs))
  | None => false
  end.

Lemma synthetic_spec i k :
  call_key i = Some k →
  ∃ o, synthetic i = Some o ∧ output_key (env_item o) = Some k ∧ call_key (env_item o) = None ∧
    server_side (env_item o) = false.
Proof.
  destruct i as [| | | |? [|]| |? [|]|? [|]| | |? [|]| | | | | | |]; simpl; intros; simplify_eq;
    by eexists.
Qed.

Lemma missing_output_ok dbg (items : list envelope) i m :
  let its := map env_item items in
  missing_output dbg uuid_v5 (omap function_output_id its) (omap tool_search_output_id its)
    (omap custom_tool_output_id its) i = Some m →
  m = missing_of (outputs items) i.
Proof.
  cbv zeta. unfold missing_output, missing_of, error_or_panic.
  destruct i as [| | | |? [|]| |? [|]|? [|]| | |? [|]| | | | | | |]; try by intros [= <-].
  all: rewrite ?function_outputs, ?search_outputs, ?custom_outputs; cbn [call_key synthetic mbind option_bind];
    case_bool_decide; destruct dbg; by intros [= <-].
Qed.

Lemma missing_output_runs dbg (items : list envelope) i :
  (dbg = false ∨ missing_of (outputs items) i = None) →
  let its := map env_item items in
  missing_output dbg uuid_v5 (omap function_output_id its) (omap tool_search_output_id its)
    (omap custom_tool_output_id its) i = Some (missing_of (outputs items) i).
Proof.
  cbv zeta. unfold missing_output, missing_of, error_or_panic.
  destruct i as [| | | |? [|]| |? [|]|? [|]| | |? [|]| | | | | | |]; try done.
  all: rewrite ?function_outputs, ?search_outputs, ?custom_outputs; cbn [call_key synthetic mbind option_bind];
    case_bool_decide; destruct dbg; intros [?|?]; done.
Qed.

(** ** [ensure_call_outputs_present] inserts each missing output after its call *)
Lemma insert_outputs_spec dbg (all : list envelope) items pre ms :
  let its := map env_item all in
  missing_outputs_from dbg uuid_v5 (omap function_output_id its) (omap tool_search_output_id its)
    (omap custom_tool_output_id its) (length pre) items = Some ms →
  insert_outputs ms (pre ++ items) = Some (pre ++ (items ≫= expand (outputs all))).
Proof.
  cbv zeta. revert pre ms. induction items as [|e items IH]; intros pre ms; simpl.
  { by intros [= <-]. }
  intros H. apply bind_Some in H as (m & Hm & H). apply bind_Some in H as (ms' & Hms & [= <-]).
  apply missing_output_ok in Hm as ->.
  assert (Hrest : insert_outputs ms' (pre ++ e :: items)
                  = Some ((pre ++ [e]) ++ (items ≫= expand (outputs all)))).
  { change (e :: items) with ([e] ++ items). rewrite (assoc_L (++)). apply IH. by rewrite length_app, Nat.add_comm. }
  unfold expand at 1. destruct (missing_of _ _) as [o|]; simpl.
  - rewrite Hrest. simpl. unfold vec_insert.
    replace (length pre + 1) with (length (pre ++ [e])) by (rewrite length_app; simpl; lia).
    rewrite (proj2 (Nat.leb_le _ _)) by (rewrite (length_app (pre ++ [e])); lia).
    by rewrite take_app_length, drop_app_length, <- (assoc_L (++)).
  - by rewrite Hrest, <- (assoc_L (++)).
Qed.

Lemma missing_outputs_run dbg (all items : list envelope) idx :
  (dbg = false ∨ Forall (λ e, missing_of (outputs all) (env_item e) = None) items) →
  let its := map env_item all in
  is_Some (missing_outputs_from dbg uuid_v5 (omap function_output_id its)
    (omap tool_search_output_id its) (omap custom_tool_output_id its) idx items).
Proof.
  cbv zeta. revert idx. induction items as [|e items IH]; intros idx Hd; simpl; [by eexists|].
  rewrite missing_output_runs by (destruct Hd as [|Hd]; [by left|right; by inversion Hd]).
  simpl. destruct (IH (S idx)) as [ms ->]; [destruct Hd as [|Hd]; [by left|right; by inversion Hd]|].
  by eexists.
Qed.

Lemma ensure_outputs_spec dbg items :
  (dbg = false ∨ Forall (λ e, missing_of (outputs items) (env_item e) = None) items) →
  ensure_call_outputs_present dbg uuid_v5 items = Some (items ≫= expand (outputs items)).
Proof.
  intros Hd. unfold ensure_call_outputs_present.
  destruct (missing_outputs_run dbg items items 0 Hd) as [ms Hms]. cbv zeta in Hms. rewrite Hms. simpl.
  by apply (insert_outputs_spec dbg items items [] ms).
Qed.

(** ** [remove_orphan_outputs] keeps exactly the others *)
Lemma is_orphan_spec (items : list envelope) i :
  let its := map env_item items in
  is_orphan (omap function_call_id its) (omap tool_search_call_id its) (omap custom_tool_call_id its) i
  = orphan (calls items) i.
Proof.
  cbv zeta. unfold is_orphan, orphan.
  destruct i as [| | | |? [|]| |? [|]|? [|]| | |? [|]| | | | | | |]; simpl; try done;
    by rewrite ?function_calls, ?search_calls, ?custom_calls.
Qed.

Definition not_orphan (cs : list key) (e : envelope) : Prop := orphan cs (env_item e) = false.
#[global] Instance not_orphan_dec cs e : Decision (not_orphan cs e).
Proof. unfold not_orphan. apply _. Defined.

Lemma orphan_positions_ok dbg (all items : list envelope) pos ps :
  let its := map env_item all in
  orphan_positions_from dbg (omap function_call_id its) (omap tool_search_call_id its)
    (omap custom_tool_call_id its) pos items = Some ps →
  Forall (λ p, pos ≤ p) ps ∧
  retain_loop pos ps items = filter (not_orphan (calls all)) items ∧
  (ps = [] → items = filter (not_orphan (calls all)) items).
Proof.
  cbv zeta. revert pos ps. induction items as [|e items IH]; intros pos ps; simpl.
  { by intros [= <-]. }
  rewrite is_orphan_spec. intros H. apply bind_Some in H as (u & _ & H).
  apply bind_Some in H as (ps' & Hps & [= <-]). apply IH in Hps as (Hge & Hret & Hnil).
  rewrite filter_cons. destruct (orphan _ (env_item e)) eqn:Ho.
  - rewrite !decide_False by (unfold not_orphan; congruence). simpl. rewrite bool_decide_eq_true_2 by done. simpl.
    split_and!; [|done|done]. constructor; [done|]. eapply Forall_impl; [exact Hge|]. simpl; lia.
  - rewrite !decide_True by done. rewrite bool_decide_eq_false_2; simpl.
    + split_and!; [eapply Forall_impl; [exact Hge|simpl; lia]|by rewrite Hret|].
      intros ->. by rewrite <- Hnil.
    + destruct ps' as [|p ps']; [done|]. simpl. intros [= ->]. inversion Hge; lia.
Qed.

Lemma orphan_positions_run dbg (all items : list envelope) pos :
  (dbg = false ∨ Forall (not_orphan (calls all)) items) →
  let its := map env_item all in
  is_Some (orphan_positions_from dbg (omap function_call_id its) (omap tool_search_call_id its)
    (omap custom_tool_call_id its) pos items).
Proof.
  cbv zeta. revert pos. induction items as [|e items IH]; intros pos Hd; simpl; [by eexists|].
  rewrite is_orphan_spec. unfold error_or_panic.
  destruct (IH (S pos)) as [ps ->]; [destruct Hd as [|Hd]; [by left|right; by inversion Hd]|].
  destruct Hd as [->|Hd]; [destruct (orphan _ _); by eexists|].
  inversion Hd as [|?? He]; subst. rewrite He. by eexists.
Qed.

Lemma remove_orphan_spec dbg items :
  (dbg = false ∨ Forall (not_orphan (calls items)) items) →
  remove_orphan_outputs dbg items = Some (filter (not_orphan (calls items)) items).
Proof.
  intros Hd. unfold remove_orphan_outputs.
  destruct (orphan_positions_run dbg items items 0 Hd) as [ps Hps]. cbv zeta in Hps. rewrite Hps. simpl.
  apply orphan_positions_ok in Hps as (_ & Hret & Hnil).
  destruct ps; simpl; [by rewrite <- Hnil|by rewrite Hret].
Qed.

(** ** Pairing *)
Lemma elem_of_calls (items : list envelope) k :
  k ∈ calls items ↔ ∃ e, e ∈ items ∧ call_key (env_item e) = Some k.
Proof. apply list_elem_of_omap. Qed.
Lemma elem_of_outputs (items : list envelope) k :
  k ∈ outputs items ↔ ∃ e, e ∈ items ∧ output_key (env_item e) = Some k.
Proof. apply list_elem_of_omap. Qed.

Lemma call_not_output (i : item) k : call_key i = Some k → output_key i = None.
Proof. by destruct i as [| | | |? [|]| |? [|]|? [|]| | |? [|]| | | | | | |]. Qed.

Lemma elem_of_expand outs items (e : envelope) :
  e ∈ (items ≫= expand outs) ↔
  e ∈ items ∨ ∃ c, c ∈ items ∧ missing_of outs (env_item c) = Some e.
Proof.
  rewrite list_elem_of_bind. unfold expand. split.
  - intros (c & [->|He]%elem_of_cons & Hc); [by left|].
    right. exists c. split; [done|]. destruct (missing_of _ _); [|by apply elem_of_nil in He].
    apply list_elem_of_singleton in He. by subst.
  - intros [He|(c & Hc & Hm)]; [exists e|exists c]; (split; [|done]).
    + apply elem_of_cons. by left.
    + rewrite Hm. apply elem_of_cons. right. by apply list_elem_of_singleton.
Qed.

Lemma missing_of_spec outs (i : item) o :
  missing_of outs i = Some o →
  ∃ k, call_key i = Some k ∧ k ∉ outs ∧ output_key (env_item o) = Some k ∧
    call_key (env_item o) = None ∧ server_side (env_item o) = false.
Proof.
  intros H. apply bind_Some in H as (k & Hk & H). case_bool_decide; [done|].
  destruct (synthetic_spec i k Hk) as (o' & Ho & ?). exists k. by simplify_eq.
Qed.

Lemma calls_expand outs items k : k ∈ calls (items ≫= expand outs) ↔ k ∈ calls items.
Proof.
  rewrite !elem_of_calls. split.
  - intros (e & [He|(c & Hc & Hm)]%elem_of_expand & Hk); [by exists e|].
    apply missing_of_spec in Hm as (? & ? & ? & ? & ? & ?). congruence.
  - intros (e & He & Hk). exists e. split; [apply elem_of_expand; by left|done].
Qed.

Lemma orphan_true cs (i : item) :
  orphan cs i = true ↔ ∃ k, output_key i = Some k ∧ server_side i = false ∧ k ∉ cs.
Proof.
  unfold orphan. destruct (output_key i) as [k|]; [|naive_solver].
  rewrite andb_true_iff, !negb_true_iff, bool_decide_eq_false. naive_solver.
Qed.

Lemma calls_filter cs items k : k ∈ calls (filter (not_orphan cs) items) ↔ k ∈ calls items.
Proof.
  rewrite !elem_of_calls. apply exist_proper. intros e. rewrite list_elem_of_filter. split; [naive_solver|].
  intros [He Hk]. split; [split; [|done]|done]. unfold not_orphan.
  apply not_true_iff_false. rewrite orphan_true. intros (k' & Hk' & _).
  by rewrite (call_not_output _ _ Hk) in Hk'.
Qed.

(** What normalization does to the list, before media is stripped. *)
Definition normal_form (items : list envelope) : list envelope :=
  let expanded := items ≫= expand (outputs items) in
  filter (not_orphan (calls expanded)) expanded.

Lemma normal_form_paired items : paired (normal_form items).
Proof.
  unfold normal_form. set (ex := items ≫= _). split.
  - intros k Hk. rewrite calls_filter in Hk. assert (Hin := Hk). unfold ex in Hin.
    rewrite calls_expand in Hin. apply elem_of_outputs.
    assert (∃ e, e ∈ ex ∧ output_key (env_item e) = Some k) as (e & He & Hek).
    { destruct (decide (k ∈ outputs items)) as [Ho|Ho].
      - apply elem_of_outputs in Ho as (e & He & ?). exists e. split; [|done]. apply elem_of_expand. by left.
      - apply elem_of_calls in Hin as (c & Hc & Hck).
        destruct (synthetic_spec _ _ Hck) as (o & Hs & Hok & _). exists o. split; [|done].
        apply elem_of_expand. right. exists c. split; [done|]. unfold missing_of. rewrite Hck. simpl.
        by rewrite bool_decide_eq_false_2. }
    exists e. split; [|done]. apply list_elem_of_filter. split; [|done]. unfold not_orphan.
    apply not_true_iff_false. rewrite orphan_true. intros (k' & ? & _ & ?). by simplify_eq.
  - intros e k He Hk Hs. rewrite calls_filter. apply list_elem_of_filter in He as [Ho _].
    apply dec_stable. intros Hn. unfold not_orphan in Ho. apply not_true_iff_false in Ho.
    apply Ho, orphan_true. by exists k.
Qed.

(** A paired history has nothing to insert and nothing to remove. *)
Lemma paired_nothing_missing items :
  paired items → Forall (λ e, missing_of (outputs items) (env_item e) = None) items.
Proof.
  intros [Hc _]. apply Forall_forall. intros e He. unfold missing_of.
  destruct (call_key (env_item e)) as [k|] eqn:Hk; [|done]. simpl.
  rewrite bool_decide_eq_true_2; [done|]. apply Hc, elem_of_calls. by exists e.
Qed.
Lemma paired_no_orphan items : paired items → Forall (not_orphan (calls items)) items.
Proof.
  intros [_ Ho]. apply Forall_forall. intros e He. unfold not_orphan. apply not_true_iff_false.
  rewrite orphan_true. intros (k & Hk & Hs & Hn). by apply Hn, (Ho e).
Qed.
Lemma expand_nothing outs (items : list envelope) :
  Forall (λ e, missing_of outs (env_item e) = None) items → (items ≫= expand outs) = items.
Proof. induction 1 as [|e l He _ IH]; [done|]. rewrite bind_cons, IH. unfold expand. by rewrite He. Qed.
Lemma filter_all {A} (P : A → Prop) `{∀ x, Decision (P x)} (l : list A) :
  Forall P l → filter P l = l.
Proof. induction 1; [done|]. rewrite filter_cons_True by done. by f_equal. Qed.

(** ** Stripping media *)
Lemma strip_keys (i : item) :
  (call_key (strip_image i) = call_key i ∧ output_key (strip_image i) = output_key i ∧
   server_side (strip_image i) = server_side i) ∧
  (call_key (strip_audio i) = call_key i ∧ output_key (strip_audio i) = output_key i ∧
   server_side (strip_audio i) = server_side i).
Proof. by destruct i. Qed.

Definition keeps_keys (f : item → item) : Prop := ∀ i,
  call_key (f i) = call_key i ∧ output_key (f i) = output_key i ∧ server_side (f i) = server_side i.

Lemma map_keys f items :
  keeps_keys f → calls (map (map_item f) items) = calls items ∧
  outputs (map (map_item f) items) = outputs items.
Proof.
  intros Hf. split; (induction items as [|e l IH]; [done|]); simpl;
    destruct (Hf (env_item e)) as (Hc & Ho & _); by rewrite ?Hc, ?Ho, IH.
Qed.
Lemma map_paired f items : keeps_keys f → paired items → paired (map (map_item f) items).
Proof.
  intros Hf [Hc Ho]. destruct (map_keys f items Hf) as [Ec Eo]. split.
  - by rewrite Ec, Eo.
  - rewrite Ec. intros e k He Hk Hs. apply list_elem_of_fmap in He as (e' & -> & He').
    destruct (Hf (env_item e')) as (_ & Hk' & Hs'). cbn [env_item map_item] in Hk, Hs.
    apply (Ho e'); congruence.
Qed.

(** The media pass that [normalize_history] ends with, on one item. *)
Definition strip_media (modalities : list InputModality) (i : item) : item :=
  let i := if bool_decide (ModalityImage ∈ modalities) then i else strip_image i in
  if bool_decide (ModalityAudio ∈ modalities) then i else strip_audio i.

Lemma strip_media_spec modalities (items : list envelope) :
  strip_audio_when_unsupported modalities (strip_images_when_unsupported modalities items)
  = map (map_item (strip_media modalities)) items.
Proof.
  unfold strip_audio_when_unsupported, strip_images_when_unsupported, strip_media.
  induction items as [|e l IH]; [by repeat case_bool_decide|]. destruct e.
  repeat case_bool_decide; simpl in *; by rewrite <- IH.
Qed.
Lemma strip_media_keys modalities : keeps_keys (strip_media modalities).
Proof.
  intros i. unfold strip_media. destruct (strip_keys i) as [[Hc1 [Ho1 Hs1]] [Hc2 [Ho2 Hs2]]].
  destruct (strip_keys (strip_image i)) as [_ [Hc3 [Ho3 Hs3]]].
  repeat case_bool_decide; split_and!; congruence.
Qed.

Lemma map_replaced {A} (P : A → bool) (t : A) (l : list A) :
  P t = false → Forall (λ a, P a = false) (map (λ a, if P a then t else a) l).
Proof. intros Ht. apply Forall_map, Forall_true. intros a. destruct (P a) eqn:E; [done|exact E]. Qed.
Lemma map_kept {A} (P Q : A → bool) (t : A) (l : list A) :
  Q t = false → Forall (λ a, Q a = false) l →
  Forall (λ a, Q a = false) (map (λ a, if P a then t else a) l).
Proof. intros Ht Hl. apply Forall_map. eapply Forall_impl; [exact Hl|]. intros a ?; simpl; by destruct (P a). Qed.
Lemma map_id_on {A} (P : A → bool) (t : A) (l : list A) :
  Forall (λ a, P a = false) l → map (λ a, if P a then t else a) l = l.
Proof. induction 1 as [|a l' Ha _ IH]; [done|]. simpl. by rewrite Ha, IH. Qed.

(** The classification of a message stripped once is as long as its content. *)
Definition annotated (i : item) : Prop :=
  match i with
  | Message _ _ content _ meta =>
      ∃ m ks, meta = Some m ∧ content_item_kinds m = Some ks ∧ length ks = length content
  | _ => True
  end.

Lemma zip_kinds_exact content ks :
  length ks = length content →
  map an_content (zip_kinds content ks) = content ∧ map an_kind (zip_kinds content ks) = ks.
Proof.
  revert ks. induction content as [|c cs IH]; intros [|k ks]; try done. simpl. intros [= Hl].
  destruct (IH ks Hl) as [-> ->]. done.
Qed.
Lemma zip_kinds_content content ks : map an_content (zip_kinds content ks) = content.
Proof. revert ks. induction content as [|c cs IH]; intros [|k ks]; simpl; by rewrite ?IH. Qed.

(** Replacing media in annotated content replaces it in the content. *)
Lemma strip_content (P : ContentItem → bool) m (l : list AnnotatedContent) :
  map an_content (map (λ a, if P (an_content a) then media_annotated m else a) l)
  = map (λ c, if P c then InputText (media_render m) else c) (map an_content l).
Proof. induction l as [|a l IH]; [done|]. simpl. rewrite IH. by destruct (P (an_content a)). Qed.

Lemma strip_message_clean (P : ContentItem → bool) m (i : item) :
  annotated i →
  match i with Message _ _ content _ _ => Forall (λ c, P c = false) content | _ => True end →
  strip_message P m i = i.
Proof.
  destruct i as [|id role content phase meta| | | | | | | | | | | | | | | |]; try done.
  intros (md & ks & -> & Hks & Hlen) Hc. unfold strip_message. simpl. rewrite Hks. simpl.
  destruct (zip_kinds_exact content ks Hlen) as [Hz1 Hz2].
  rewrite (map_id_on (λ a, P (an_content a)));
    [|rewrite <- Hz1 in Hc; by rewrite Forall_map in Hc].
  rewrite Hz1, Hz2. destruct md; simpl in *. by subst.
Qed.

Lemma strip_message_annotated P m (i : item) : annotated (strip_message P m i).
Proof.
  destruct i; try done. unfold strip_message. cbn [to_annotated_content set_annotated_content annotated].
  do 2 eexists. split_and!; [done|done|].
  simpl. by rewrite !length_map.
Qed.

Lemma strip_payload_clean (P : FunctionCallOutputContentItem → bool) m (o : FunctionCallOutputPayload) :
  match body o with BodyContentItems l => Forall (λ c, P c = false) l | _ => True end →
  strip_payload P m o = o.
Proof. destruct o as [[]]; simpl; [done|]. intros H. unfold strip_payload. simpl. by rewrite map_id_on. Qed.

Lemma strip_image_no_images (i : item) : no_images (strip_image i).
Proof.
  destruct i as [|? ? content ? meta| | | | | |? ? ? ? [[|l] ?]| |? ? ? [[|l] ?]| | | | | | | |]; simpl; try done.
  - rewrite strip_content, zip_kinds_content. by apply (map_replaced is_input_image).
  - by apply (map_replaced is_output_image).
  - by apply (map_replaced is_output_image).
Qed.
Lemma strip_audio_no_audio (i : item) : no_audio (strip_audio i).
Proof.
  destruct i as [|? ? content ? meta| | | | | |? ? ? ? [[|l] ?]| |? ? ? [[|l] ?]| | | | | | | |]; simpl; try done.
  - rewrite strip_content, zip_kinds_content. by apply (map_replaced is_input_audio).
  - by apply (map_replaced is_output_audio).
  - by apply (map_replaced is_output_audio).
Qed.
Lemma strip_audio_keeps_no_images (i : item) : no_images i → no_images (strip_audio i).
Proof.
  destruct i as [|? ? content ? meta| | | | | |? ? ? ? [[|l] ?]| |? ? ? [[|l] ?]| | | | | | | |]; simpl; try done.
  - rewrite strip_content, zip_kinds_content. by apply (map_kept is_input_audio is_input_image).
  - by apply (map_kept is_output_audio is_output_image).
  - by apply (map_kept is_output_audio is_output_image).
Qed.

Lemma strip_image_clean (i : item) : annotated i → no_images i → strip_image i = i.
Proof.
  intros Ha Hn.
  destruct i as [|? ? content ? meta| | | | | |? ? ? ? [[|l] ?]| |? ? ? [[|l] ?]| | | | | | | |]; simpl in *; try done.
  - by apply strip_message_clean.
  - by rewrite strip_payload_clean.
  - by rewrite strip_payload_clean.
  - by subst.
Qed.
Lemma strip_audio_clean (i : item) : annotated i → no_audio i → strip_audio i = i.
Proof.
  intros Ha Hn.
  destruct i as [|? ? content ? meta| | | | | |? ? ? ? [[|l] ?]| |? ? ? [[|l] ?]| | | | | | | |]; simpl in *; try done.
  - by apply strip_message_clean.
  - by rewrite strip_payload_clean.
  - by rewrite strip_payload_clean.
Qed.
Lemma strip_annotated (i : item) : annotated (strip_image i) ∧ annotated (strip_audio i).
Proof. destruct i; split; try done; apply strip_message_annotated. Qed.

(** What is left of media after [strip_media], and that it has nothing more to do. *)
Lemma strip_media_clean modalities (i : item) :
  (ModalityImage ∉ modalities → no_images (strip_media modalities i)) ∧
  (ModalityAudio ∉ modalities → no_audio (strip_media modalities i)).
Proof.
  unfold strip_media. split; intros ?.
  - rewrite (bool_decide_eq_false_2 (ModalityImage ∈ _)) by done.
    case_bool_decide; [apply strip_image_no_images|].
    apply strip_audio_keeps_no_images, strip_image_no_images.
  - rewrite (bool_decide_eq_false_2 (ModalityAudio ∈ _)) by done. apply strip_audio_no_audio.
Qed.
Lemma strip_media_idemp modalities (i : item) :
  strip_media modalities (strip_media modalities i) = strip_media modalities i.
Proof.
  destruct (strip_media_clean modalities i) as [Hi Ha]. unfold strip_media in *.
  destruct (bool_decide_reflect (ModalityImage ∈ modalities)), (bool_decide_reflect (ModalityAudio ∈ modalities));
    [done| | |].
  - apply strip_audio_clean; [apply strip_annotated|by apply Ha].
  - apply strip_image_clean; [apply strip_annotated|by apply Hi].
  - rewrite (strip_image_clean (strip_audio _)) by (by apply strip_annotated || by apply Hi).
    apply strip_audio_clean; [apply strip_annotated|by apply Ha].
Qed.

Lemma normalize_spec dbg modalities items :
  (dbg = false ∨ paired items) →
  normalize_history dbg uuid_v5 modalities items
  = Some (map (map_item (strip_media modalities)) (normal_form items)).
Proof.
  intros Hd. unfold normalize_history. rewrite ensure_outputs_spec; simpl.
  2: { destruct Hd; [by left|right; by apply paired_nothing_missing]. }
  rewrite remove_orphan_spec; simpl.
  - by rewrite strip_media_spec.
  - destruct Hd as [|Hp]; [by left|right].
    rewrite expand_nothing by by apply paired_nothing_missing. by apply paired_no_orphan.
Qed.

Lemma normal_form_fixed items : paired items → normal_form items = items.
Proof.
  intros Hp. unfold normal_form. rewrite expand_nothing by by apply paired_nothing_missing.
  apply filter_all, paired_no_orphan, Hp.
Qed.
End Uuid.

(** ** Removing the oldest item *)
Lemma remove_first_matching_spec (P : item → bool) (items : list envelope) :
  (∃ l1 x l2, items = l1 ++ x :: l2 ∧ P (env_item x) = true ∧
     remove_first_matching P items = l1 ++ l2) ∨
  ((∀ e, e ∈ items → P (env_item e) = false) ∧ remove_first_matching P items = items).
Proof.
  induction items as [|e items IH]; simpl.
  { right. split; [|done]. by intros ? ?%elem_of_nil. }
  destruct (P (env_item e)) eqn:HP.
  - left. by exists [], e, items.
  - destruct IH as [(l1 & x & l2 & -> & Hx & ->)|[Hno ->]].
    + left. by exists (e :: l1), x, l2.
    + right. split; [|done]. intros e' [->|He]%elem_of_cons; auto.
Qed.

(** [f] is the counterpart of key [k] that is removed from [items]. *)
Definition drops (f : item → option key) (k : key) (items out : list envelope) : Prop :=
  (∃ l1 x l2, items = l1 ++ x :: l2 ∧ f (env_item x) = Some k ∧ out = l1 ++ l2) ∨
  ((∀ e, e ∈ items → f (env_item e) ≠ Some k) ∧ out = items).

Lemma remove_first_drops (g : item → option rstring) (f : item → option key) kind id items :
  (∀ i, g i = Some id ↔ f i = Some (kind, id)) →
  drops f (kind, id) items (remove_first_matching (has_id g id) items).
Proof.
  intros Hgf. unfold drops. destruct (remove_first_matching_spec (has_id g id) items)
    as [(l1 & x & l2 & ? & Hx & ?)|[Hno ?]]; [left|right].
  - exists l1, x, l2. split_and!; [done| |done]. apply Hgf. by apply bool_decide_eq_true in Hx.
  - split; [|done]. intros e He Hf. apply Hgf in Hf. specialize (Hno e He).
    by apply bool_decide_eq_false in Hno.
Qed.

(** The output of a function call takes away a function call, else a local shell call. *)
Lemma remove_call_drops id (items : list envelope) :
  drops call_key (KFunction, id) items
    (if existsb (λ e, has_id function_call_only_id id (env_item e)) items
     then remove_first_matching (has_id function_call_only_id id) items
     else remove_first_matching (has_id local_shell_call_id id) items).
Proof.
  unfold drops. destruct (existsb _ items) eqn:Hex.
  - apply existsb_exists in Hex as (e & He%list_elem_of_In & Hid).
    destruct (remove_first_matching_spec (has_id function_call_only_id id) items)
      as [(l1 & x & l2 & ? & Hx & ?)|[Hno _]]; [left|by rewrite Hno in Hid].
    exists l1, x, l2. split_and!; [done| |done]. apply bool_decide_eq_true in Hx.
    destruct (env_item x); naive_solver.
  - assert (Hno : ∀ e, e ∈ items → function_call_only_id (env_item e) ≠ Some id).
    { intros e He Hf. apply not_true_iff_false in Hex. apply Hex, existsb_exists. exists e.
      split; [by apply list_elem_of_In|by apply bool_decide_eq_true]. }
    destruct (remove_first_matching_spec (has_id local_shell_call_id id) items)
      as [(l1 & x & l2 & ? & Hx & ?)|[Hno2 ?]]; [left|right].
    + exists l1, x, l2. split_and!; [done| |done]. apply bool_decide_eq_true in Hx.
      destruct (env_item x) as [| | | |? [|]| | | | | | | | | | | | |]; naive_solver.
    + split; [|done]. intros e He. specialize (Hno e He). specialize (Hno2 e He).
      apply bool_decide_eq_false in Hno2.
      destruct (env_item e) as [| | | |? [|]| |? [|]|? [|]| | |? [|]| | | | | | |]; naive_solver.
Qed.

Lemma remove_corresponding_spec items (i : item) :
  match call_key i, output_key i with
  | Some k, _ => drops output_key k items (remove_corresponding_for items i)
  | None, Some k => drops call_key k items (remove_corresponding_for items i)
  | None, None => remove_corresponding_for items i = items
  end.
Proof.
  destruct i as [| | | |? [|]| |? [|]|? [|]| | |? [|]| | | | | | |]; simpl; try done.
  all: first [apply remove_call_drops | apply remove_first_drops; by_item].
Qed.

Lemma calls_cons e (items : list envelope) :
  calls (e :: items) = option_list (call_key (env_item e)) ++ calls items.
Proof. unfold calls. simpl. by destruct (call_key (env_item e)). Qed.
Lemma outputs_cons e (items : list envelope) :
  outputs (e :: items) = option_list (output_key (env_item e)) ++ outputs items.
Proof. unfold outputs. simpl. by destruct (output_key (env_item e)). Qed.
Lemma keys_app (f : item → option key) (l1 l2 : list envelope) :
  omap (λ e, f (env_item e)) (l1 ++ l2)
  = omap (λ e, f (env_item e)) l1 ++ omap (λ e, f (env_item e)) l2.
Proof. apply omap_app. Qed.

(** Dropping the unique carrier of a key drops the key and nothing else. *)
Lemma drops_keys f k (items out : list envelope) :
  drops f k items out → NoDup (omap (λ e, f (env_item e)) items) →
  NoDup (omap (λ e, f (env_item e)) out) ∧
  ∀ k', k' ∈ omap (λ e, f (env_item e)) out ↔ k' ∈ omap (λ e, f (env_item e)) items ∧ k' ≠ k.
Proof.
  intros [(l1 & x & l2 & -> & Hx & ->)|[Hno ->]] Hnd.
  - rewrite keys_app in *. cbn [omap list_omap] in Hnd. rewrite Hx in Hnd.
    apply NoDup_app in Hnd as (H1 & H12 & H2). apply NoDup_cons in H2 as [Hk H2].
    split; [apply NoDup_app; set_solver|]. intros k'. rewrite keys_app.
    cbn [omap list_omap]. rewrite Hx. set_solver.
  - split; [done|]. intros k'. split; [|naive_solver]. intros Hk'. split; [done|]. intros ->.
    apply list_elem_of_omap in Hk' as (e & He & Hf). by apply (Hno e).
Qed.
(** The other keys are untouched when the dropped item has none. *)
Lemma drops_other (f g : item → option key) k (items out : list envelope) :
  (∀ i k, f i = Some k → g i = None) → drops f k items out →
  omap (λ e, g (env_item e)) out = omap (λ e, g (env_item e)) items ∧
  (∀ e, e ∈ out → e ∈ items).
Proof.
  intros Hfg [(l1 & x & l2 & -> & Hx & ->)|[_ ->]]; [|done]. rewrite !keys_app. simpl.
  rewrite (Hfg _ _ Hx). split; [done|]. intros e. rewrite !elem_of_app, elem_of_cons. tauto.
Qed.
Lemma output_not_call (i : item) k : output_key i = Some k → call_key i = None.
Proof. by destruct i as [| | | |? [|]| |? [|]|? [|]| | |? [|]| | | | | | |]. Qed.
End Spec.

(** C22: Normalizing a history for a prompt never panics in a release build, and
    computes what a simple reference computes: each call without an output is
    followed by a synthetic one, outputs without a call are dropped, and everything
    else stays in order.  In the result every call has an output, every output that
    did not come from the server has a call, and no item carries images or audio the
    model does not support. *)
Theorem normalize_history_paired {J C} uuid_v5 modalities (items : list (ResponseItemEnvelope J C)) :
  ∃ out, normalize_history false uuid_v5 modalities items = Some out ∧
    out = map (map_item (strip_media modalities)) (normal_form uuid_v5 items) ∧
    paired out ∧
    ∀ e, e ∈ out →
      (ModalityImage ∉ modalities → no_images (env_item e)) ∧
      (ModalityAudio ∉ modalities → no_audio (env_item e)).
Proof.
  eexists. split; [by apply normalize_spec; left|]. split_and!; [done| |].
  - apply map_paired; [apply strip_media_keys|apply normal_form_paired].
  - intros e He. apply list_elem_of_fmap in He as (e' & -> & _). apply strip_media_clean.
Qed.

(** A history that was normalized stays as it is when it is normalized again, for
    the same modalities, and with debug assertions this does not panic either. *)
Theorem normalize_history_idempotent {J C} uuid_v5 modalities (items out : list (ResponseItemEnvelope J C)) debug :
  normalize_history false uuid_v5 modalities items = Some out →
  normalize_history debug uuid_v5 modalities out = Some out.
Proof.
  rewrite normalize_spec by by left. intros [= <-]. set (nf := normal_form uuid_v5 items).
  assert (Hp : paired (map (map_item (strip_media modalities)) nf)).
  { apply map_paired; [apply strip_media_keys|apply normal_form_paired]. }
  rewrite normalize_spec by by right. rewrite normal_form_fixed by done. f_equal.
  rewrite map_map. apply map_ext. intros [i md]. unfold map_item. simpl. by rewrite strip_media_idemp.
Qed.

(** When call ids are used once, dropping the oldest item of a paired history
    together with its counterpart leaves a paired history, in which ids are still
    used once. *)
Theorem remove_first_item_paired {J C} (items : list (ResponseItemEnvelope J C)) :
  paired items → NoDup (calls items) → NoDup (outputs items) →
  paired (remove_first_item items) ∧
  NoDup (calls (remove_first_item items)) ∧ NoDup (outputs (remove_first_item items)).
Proof.
  destruct items as [|e items]; [done|]. intros [Hc Ho] Hndc Hndo. cbn [remove_first_item].
  pose proof (remove_corresponding_spec items (env_item e)) as Hrm.
  set (out := remove_corresponding_for _ _) in *. rewrite calls_cons, outputs_cons in *.
  assert (Ho' : ∀ e' k', e' ∈ items → output_key (env_item e') = Some k' →
    server_side (env_item e') = false → k' ∈ option_list (call_key (env_item e)) ++ calls items).
  { intros e' k' He'. apply Ho. by right. }
  destruct (call_key (env_item e)) as [k|] eqn:Hk; simpl in *.
  - rewrite (call_not_output _ _ Hk) in Hc, Hndo. simpl in *. apply NoDup_cons in Hndc as [Hkc Hndc].
    destruct (drops_keys _ _ _ _ Hrm Hndo) as [Hndo' Hout].
    destruct (drops_other _ call_key _ _ _ output_not_call Hrm) as [Hcalls Hsub].
    unfold paired, calls, outputs in *. rewrite Hcalls. split_and!; [| |done|done].
    + intros k' Hk'. apply Hout. split; [apply Hc; by right|]. by intros ->.
    + intros e' k' He' Hk' Hs.
      assert (Hin : k' ∈ omap (λ e, output_key (env_item e)) out)
        by (apply list_elem_of_omap; by exists e').
      apply Hout in Hin as [_ Hne]. specialize (Ho' e' k' (Hsub _ He') Hk' Hs).
      by apply elem_of_cons in Ho' as [?|?].
  - destruct (output_key (env_item e)) as [k|] eqn:Hok; simpl in *; [|by subst out; rewrite Hrm].
    apply NoDup_cons in Hndo as [Hko Hndo].
    destruct (drops_keys _ _ _ _ Hrm Hndc) as [Hndc' Hcalls].
    destruct (drops_other _ output_key _ _ _ call_not_output Hrm) as [Hout Hsub].
    unfold paired, calls, outputs in *. rewrite Hout. split_and!; [| |done|done].
    + intros k' [Hk' Hne]%Hcalls. apply Hc in Hk'. by apply elem_of_cons in Hk' as [?|?].
    + intros e' k' He' Hk' Hs. apply Hcalls. split; [by apply (Ho' e' k'); [apply Hsub| |]|]. intros ->.
      apply Hko, list_elem_of_omap. exists e'. split; [by apply Hsub|done].
Qed.

(** ** A concrete history *)
Definition sample_call : ResponseItemEnvelope unit unit :=
  new_envelope (FunctionCall (Some (str "fc_1")) (str "shell") None (str "{}") None (str "call_1") None).
Definition sample_message : ResponseItemEnvelope unit unit :=
  new_envelope (Message None (str "user") [InputImage (str "data:,") None; InputText (str "hi")] None None).
Definition sample_orphan : ResponseItemEnvelope unit unit :=
  new_envelope (CustomToolCallOutput None (str "call_9") None (payload_from_text (str "x")) None).
Definition sample_history : list (ResponseItemEnvelope unit unit) :=
  [sample_call; sample_message; sample_orphan].
Definition sample_normal : list (ResponseItemEnvelope unit unit) :=
  default [] (normalize_history false id [ModalityText] sample_history).

Lemma normalize_history_idempotent_witness :
  normalize_history true id [ModalityText] sample_normal = Some sample_normal ∧ length sample_normal = 3.
Proof.
  split; [|by vm_compute].
  apply (normalize_history_idempotent id [ModalityText] sample_history). by vm_compute.
Defined.

Lemma remove_first_item_paired_witness :
  paired (remove_first_item sample_normal) ∧ length (remove_first_item sample_normal) = 1.
Proof.
  split; [|by vm_compute].
  assert (Ec : calls sample_normal = [(KFunction, str "call_1")]) by by vm_compute.
  assert (Eo : outputs sample_normal = [(KFunction, str "call_1")]) by by vm_compute.
  apply (remove_first_item_paired sample_normal).
  - split; [by rewrite Ec, Eo|]. rewrite Ec. intros e k He Hk _. rewrite <- Eo.
    apply list_elem_of_omap. by exists e.
  - rewrite Ec. apply NoDup_singleton.
  - rewrite Eo. apply NoDup_singleton.
Defined.
