(* ===== verification/Readiness.v ===== *)
(** * The readiness flag

    Models [sofia-rs/utils/readiness/src/lib.rs]: a flag that tasks subscribe to,
    that a subscriber's token marks ready, and that other tasks wait for.  The
    operations run concurrently, so each is a sequence of atomic steps (one access
    to the atomics, the token lock or the watch channel each) and the tasks of a
    program are interleaved in every possible order.  The watch channel of [tokio]
    is an interface with its documented laws. *)

From stdpp Require Import base list numbers gmap.
From S2P Require Import Prelude Machine.

#[local] Set Default Proof Using "Type*".
#[local] Open Scope Z_scope.

(** ** [tokio::sync::watch] for [bool] values *)
Class WatchOps (W R : Type) := {
  watch_channel : bool → W * R;
  watch_subscribe : W → W * R;
  watch_send : W → bool → W;
  watch_borrow : W → R → bool;
  (** [None]: nothing new yet, the task sleeps. *)
  watch_changed : W → R → option W;
  watch_drop : W → R → W;
}.

(** The documentation of [watch]: the last value sent, the connected receivers and
    the receivers that have not seen that value.  A [send] without receivers fails
    and its value is not made available to later receivers; a new receiver has seen
    the current value. *)
Class WatchLaws (W R : Type) `{WatchOps W R} := {
  value : W → bool;
  live : W → R → Prop;
  unseen : W → R → bool;
  channel_law v : let '(w, r) := watch_channel v in value w = v ∧ ∀ r', live w r' ↔ r' = r;
  subscribe_law w : let '(w', r) := watch_subscribe w in
    value w' = value w ∧ ¬ live w r ∧ (∀ r', live w' r' ↔ live w r' ∨ r' = r) ∧
    unseen w' r = false ∧ ∀ r', r' ≠ r → unseen w' r' = unseen w r';
  send_closed_law w v : (∀ r, ¬ live w r) →
    value (watch_send w v) = value w ∧ ∀ r, ¬ live (watch_send w v) r;
  send_law w v r : live w r →
    value (watch_send w v) = v ∧ (∀ r', live (watch_send w v) r' ↔ live w r') ∧
    ∀ r', live w r' → unseen (watch_send w v) r' = true;
  borrow_law w r : live w r → watch_borrow w r = value w;
  changed_law w r : live w r →
    match watch_changed w r with
    | Some w' => unseen w r = true ∧ value w' = value w ∧ (∀ r', live w' r' ↔ live w r') ∧
        unseen w' r = false ∧ ∀ r', r' ≠ r → unseen w' r' = unseen w r'
    | None => unseen w r = false
    end;
  drop_law w r : live w r →
    value (watch_drop w r) = value w ∧ (∀ r', live (watch_drop w r) r' ↔ live w r' ∧ r' ≠ r) ∧
    ∀ r', r' ≠ r → unseen (watch_drop w r) r' = unseen w r';
}.

(** ** The flag *)
Definition Token := Z.

(** [AtomicI32::fetch_add] wraps around. *)
Definition wrap_i32 (z : Z) : Z := (z + 2 ^ 31) mod 2 ^ 32 - 2 ^ 31.

Inductive ReadinessError := TokenLockFailed | FlagAlreadyReady.

(** The loop of [subscribe] that looks for a token that is not [0] and not in use:
    the token, the next id and the tokens after it. *)
Fixpoint token_loop (fuel : nat) (next_id : Z) (tokens : gset Z) : option (Token * Z) :=
  match fuel with
  | O => None
  | S fuel' =>
      let token := next_id in
      if bool_decide (token ≠ 0 ∧ token ∉ tokens) then Some (token, wrap_i32 (next_id + 1))
      else token_loop fuel' (wrap_i32 (next_id + 1)) tokens
  end.
Definition token_fuel (tokens : gset Z) : nat := S (S (size tokens)).

Section Flag.
Context {W R : Type} `{WatchOps W R}.

(** [tokens] is behind the lock, which is held by a task or free. *)
Record ReadinessFlag := mkFlag {
  ready : bool;
  next_id : Z;
  tokens : gset Z;
  lock : option nat;
  tx : W;
}.

(** [ReadinessFlag::new]: the first receiver is dropped at its end. *)
Definition new_flag : ReadinessFlag :=
  let '(w, rx) := watch_channel false in mkFlag false 1 ∅ None (watch_drop w rx).

Definition set_ready (f : ReadinessFlag) : ReadinessFlag :=
  mkFlag true (next_id f) (tokens f) (lock f) (tx f).
Definition set_next_id (n : Z) (f : ReadinessFlag) : ReadinessFlag :=
  mkFlag (ready f) n (tokens f) (lock f) (tx f).
Definition set_tokens (t : gset Z) (f : ReadinessFlag) : ReadinessFlag :=
  mkFlag (ready f) (next_id f) t (lock f) (tx f).
Definition set_lock (l : option nat) (f : ReadinessFlag) : ReadinessFlag :=
  mkFlag (ready f) (next_id f) (tokens f) l (tx f).
Definition set_tx (w : W) (f : ReadinessFlag) : ReadinessFlag :=
  mkFlag (ready f) (next_id f) (tokens f) (lock f) w.

(** ** Where a task is: [Is...] is [is_ready], called by a task ([k = false]) or by
    [wait_ready] ([k = true]); [Sub...], [Mark...] and [Wait...] the others. *)
Inductive pc :=
  | IsLoad (k : bool)
  | IsTryLock (k : bool)
  | IsSwap (k : bool)
  | IsDrop (k was_ready : bool)
  | IsSend (k : bool)
  | IsRelease (k : bool)
  | IsLoadAgain (k : bool)
  | IsDone (b : bool)
  | SubLoad
  | SubLock
  | SubCheck
  | SubLoop
  | SubUnlock (token : option Token)
  | SubDone (r : result ReadinessError Token)
  | MarkLoad (token : Token)
  | MarkLock (token : Token)
  | MarkRemove (token : Token)
  | MarkStore
  | MarkClear
  | MarkUnlock (marked : bool)
  | MarkSend
  | MarkDone (r : result ReadinessError bool)
  | WaitSubscribe
  | WaitBorrow (rx : R)
  | WaitChanged (rx : R)
  | WaitBorrowAgain (rx : R)
  | WaitDone
  | Cancelled.

Definition is_return (k b : bool) : pc :=
  if k then (if b then WaitDone else WaitSubscribe) else IsDone b.

(** The calls of the trait. *)
Definition is_ready : pc := IsLoad false.
Definition subscribe : pc := SubLoad.
Definition mark_ready (token : Token) : pc := MarkLoad token.
Definition wait_ready : pc := IsLoad true.

(** The next step of task [i]; [None] when it is done or sleeps. *)
Definition thread_step (i : nat) (f : ReadinessFlag) (p : pc) : option (ReadinessFlag * pc) :=
  match p with
  | IsLoad k => Some (f, if ready f then is_return k true else IsTryLock k)
  | IsTryLock k =>
      match lock f with
      | Some _ => Some (f, IsLoadAgain k)
      | None => Some (set_lock (Some i) f,
                      if bool_decide (tokens f = ∅) then IsSwap k else IsRelease k)
      end
  | IsSwap k => Some (set_ready f, IsDrop k (ready f))
  | IsDrop k was_ready =>
      Some (set_lock None f, if was_ready then is_return k true else IsSend k)
  | IsSend k => Some (set_tx (watch_send (tx f) true) f, is_return k true)
  | IsRelease k => Some (set_lock None f, IsLoadAgain k)
  | IsLoadAgain k => Some (f, is_return k (ready f))
  | SubLoad => Some (f, if ready f then SubDone (Err FlagAlreadyReady) else SubLock)
  | SubLock => match lock f with Some _ => None | None => Some (set_lock (Some i) f, SubCheck) end
  | SubCheck => Some (f, if ready f then SubUnlock None else SubLoop)
  | SubLoop =>
      '(token, next) ← token_loop (token_fuel (tokens f)) (next_id f) (tokens f);
      Some (set_tokens ({[token]} ∪ tokens f) (set_next_id next f), SubUnlock (Some token))
  | SubUnlock token => Some (set_lock None f, SubDone (ok_or token FlagAlreadyReady))
  | MarkLoad token =>
      Some (f, if ready f then MarkDone (Ok false)
               else if token =? 0 then MarkDone (Ok false) else MarkLock token)
  | MarkLock token =>
      match lock f with Some _ => None | None => Some (set_lock (Some i) f, MarkRemove token) end
  | MarkRemove token =>
      if bool_decide (token ∈ tokens f)
      then Some (set_tokens (tokens f ∖ {[token]}) f, MarkStore)
      else Some (f, MarkUnlock false)
  | MarkStore => Some (set_ready f, MarkClear)
  | MarkClear => Some (set_tokens ∅ f, MarkUnlock true)
  | MarkUnlock marked =>
      Some (set_lock None f, if marked then MarkSend else MarkDone (Ok false))
  | MarkSend => Some (set_tx (watch_send (tx f) true) f, MarkDone (Ok true))
  | WaitSubscribe => let '(w, rx) := watch_subscribe (tx f) in Some (set_tx w f, WaitBorrow rx)
  | WaitBorrow rx =>
      if watch_borrow (tx f) rx then Some (set_tx (watch_drop (tx f) rx) f, WaitDone)
      else Some (f, WaitChanged rx)
  | WaitChanged rx => w ← watch_changed (tx f) rx; Some (set_tx w f, WaitBorrowAgain rx)
  | WaitBorrowAgain rx =>
      if watch_borrow (tx f) rx then Some (set_tx (watch_drop (tx f) rx) f, WaitDone)
      else Some (f, WaitChanged rx)
  | IsDone _ | SubDone _ | MarkDone _ | WaitDone | Cancelled => None
  end.

(** The lock of [with_tokens] is given up after [LOCK_TIMEOUT]. *)
Definition timeout_step (p : pc) : option pc :=
  match p with
  | SubLock => Some (SubDone (Err TokenLockFailed))
  | MarkLock _ => Some (MarkDone (Err TokenLockFailed))
  | _ => None
  end.
(** A future may be dropped where it awaits. *)
Definition cancel_step (f : ReadinessFlag) (p : pc) : option (ReadinessFlag * pc) :=
  match p with
  | SubLock | MarkLock _ => Some (f, Cancelled)
  | WaitChanged rx => Some (set_tx (watch_drop (tx f) rx) f, Cancelled)
  | _ => None
  end.

(** ** Programs: a flag and the tasks that called it *)
Record System := mkSystem { flag : ReadinessFlag; pool : list pc }.

Definition is_call (p : pc) : Prop :=
  match p with IsLoad _ | SubLoad | MarkLoad _ => True | _ => False end.

Definition advance (s : System) (i : nat) (f : ReadinessFlag) (p : pc) : System :=
  mkSystem f (<[i := p]> (pool s)).

Inductive step (s : System) : System → Prop :=
  | step_call p : is_call p → step s (mkSystem (flag s) (pool s ++ [p]))
  | step_run i p f' p' : pool s !! i = Some p → thread_step i (flag s) p = Some (f', p') →
      step s (advance s i f' p')
  | step_timeout i p p' : pool s !! i = Some p → timeout_step p = Some p' →
      step s (advance s i (flag s) p')
  | step_cancel i p f' p' : pool s !! i = Some p → cancel_step (flag s) p = Some (f', p') →
      step s (advance s i f' p').

Inductive steps (s : System) : System → Prop :=
  | steps_refl : steps s s
  | steps_next s1 s2 : steps s s1 → step s1 s2 → steps s s2.

Definition initial : System := mkSystem new_flag [].
Definition reachable (s : System) : Prop := steps initial s.

(** An executable schedule: each entry calls an operation or runs a task. *)
Inductive event := ECall (p : pc) | ERun (i : nat).
Definition exec (s : System) (e : event) : option System :=
  match e with
  | ECall p => match p with
               | IsLoad _ | SubLoad | MarkLoad _ => Some (mkSystem (flag s) (pool s ++ [p]))
               | _ => None
               end
  | ERun i =>
      p ← pool s !! i;
      '(f', p') ← thread_step i (flag s) p;
      Some (advance s i f' p')
  end.
Fixpoint exec_all (s : System) (es : list event) : option System :=
  match es with
  | [] => Some s
  | e :: es' => s' ← exec s e; exec_all s' es'
  end.

Lemma exec_step s e s' : exec s e = Some s' → step s s'.
Proof.
  destruct e as [p|i]; simpl.
  - intros Hs. destruct p; simplify_eq; by apply step_call.
  - intros Hs. apply bind_Some in Hs as (p & Hp & Hs). apply bind_Some in Hs as ([f' p'] & Ht & [= <-]).
    by eapply step_run.
Qed.
Lemma exec_all_steps s es s' : exec_all s es = Some s' → steps s s'.
Proof.
  assert (Htrans : ∀ s1 s2 s3, step s1 s2 → steps s2 s3 → steps s1 s3).
  { intros s1 s2 s3 H12 H23. induction H23 as [|s4 s5 _ IH Hs].
    - by eapply steps_next; [apply steps_refl|].
    - by eapply steps_next. }
  revert s. induction es as [|e es IH]; intros s; simpl.
  - intros [= <-]. apply steps_refl.
  - intros Hs. apply bind_Some in Hs as (s1 & He & Hs). eapply Htrans; [by eapply exec_step|by apply IH].
Qed.
End Flag.
Arguments ReadinessFlag : clear implicits.
Arguments pc : clear implicits.
Arguments System : clear implicits.
Arguments event : clear implicits.

(** ** A watch channel that satisfies the laws

    The value, and for each connected receiver whether it has news. *)
Record MemWatch := mkWatch { w_value : bool; w_news : gmap nat bool }.
#[global] Instance mem_watch_ops : WatchOps MemWatch nat := {
  watch_channel v := (mkWatch v {[0%nat := false]}, 0%nat);
  watch_subscribe w :=
    let r := fresh (dom (w_news w)) in (mkWatch (w_value w) (<[r := false]> (w_news w)), r);
  watch_send w v :=
    if bool_decide (w_news w = ∅) then w else mkWatch v ((λ _, true) <$> w_news w);
  watch_borrow w r := w_value w;
  watch_changed w r :=
    match w_news w !! r with
    | Some true => Some (mkWatch (w_value w) (<[r := false]> (w_news w)))
    | _ => None
    end;
  watch_drop w r := mkWatch (w_value w) (delete r (w_news w));
}.

#[global, program] Instance mem_watch_laws : WatchLaws MemWatch nat := {
  value := w_value;
  live w r := is_Some (w_news w !! r);
  unseen w r := default false (w_news w !! r);
}.
Next Obligation.
  intros v. split; [done|]. intros r'. simpl. rewrite lookup_singleton_is_Some. naive_solver.
Qed.
Next Obligation.
  intros w. simpl. pose proof (is_fresh (dom (w_news w))) as Hf. set (r := fresh _) in *.
  rewrite not_elem_of_dom in Hf. split_and!; [done|rewrite Hf; by intros [??]| | |].
  - intros r'. rewrite lookup_insert_is_Some. destruct (decide (r = r')); naive_solver.
  - by rewrite lookup_insert_eq.
  - intros r' Hr. by rewrite lookup_insert_ne.
Qed.
Next Obligation.
  intros w v Hno. simpl. rewrite bool_decide_eq_true_2; [done|].
  apply map_eq. intros r. rewrite lookup_empty. apply eq_None_not_Some, Hno.
Qed.
Next Obligation.
  intros w v r Hr. simpl. rewrite bool_decide_eq_false_2; simpl.
  - split_and!; [done| |]; intros r'; rewrite lookup_fmap; [by rewrite fmap_is_Some|].
    by intros [b ->].
  - intros He. destruct Hr as [b Hb]. cbn in Hb. by rewrite He in Hb.
Qed.
Next Obligation. done. Qed.
Next Obligation.
  intros w r [b Hb]. simpl. rewrite Hb. destruct b; simpl; [|done]. split_and!; try done.
  - intros r'. rewrite lookup_insert_is_Some. destruct (decide (r = r')); naive_solver.
  - by rewrite lookup_insert_eq.
  - intros r' Hr. by rewrite lookup_insert_ne.
Qed.
Next Obligation.
  intros w r Hr. simpl. split_and!; [done| |].
  - intros r'. rewrite lookup_delete_is_Some. naive_solver.
  - intros r' Hne. by rewrite lookup_delete_ne.
Qed.
