(* ===== verification/ReadinessSpec.v ===== *)
(** * The readiness flag: one winner, unique tokens, released waiters

    The invariants of the reachable states of [Readiness.v], the termination of the
    token loop, the release of waiters and the wakeup that is lost. *)

From stdpp Require Import base list numbers gmap.
From S2P Require Import Prelude Machine Readiness.

#[local] Set Default Proof Using "Type*".
#[local] Open Scope Z_scope.

(** ** Tokens *)
Definition in_i32 (z : Z) : Prop := - 2 ^ 31 ≤ z < 2 ^ 31.

Lemma wrap_i32_range z : in_i32 (wrap_i32 z).
Proof. unfold in_i32, wrap_i32. pose proof (Z.mod_pos_bound (z + 2 ^ 31) (2 ^ 32)). lia. Qed.
Lemma wrap_i32_id z : in_i32 z → wrap_i32 z = z.
Proof. unfold in_i32, wrap_i32. intros ?. rewrite Z.mod_small; lia. Qed.
Lemma wrap_i32_add a b : wrap_i32 (wrap_i32 a + b) = wrap_i32 (a + b).
Proof.
  unfold wrap_i32. f_equal.
  replace ((a + 2 ^ 31) mod 2 ^ 32 - 2 ^ 31 + b + 2 ^ 31) with ((a + 2 ^ 31) mod 2 ^ 32 + b) by lia.
  rewrite Zplus_mod_idemp_l. f_equal. lia.
Qed.
(** Fewer than [2^32] consecutive ids are different. *)
Lemma wrap_i32_inj n a b :
  0 ≤ a < 2 ^ 32 → 0 ≤ b < 2 ^ 32 → wrap_i32 (n + a) = wrap_i32 (n + b) → a = b.
Proof.
  unfold wrap_i32. intros Ha Hb Heq.
  assert (H : (n + a + 2 ^ 31) mod 2 ^ 32 = (n + b + 2 ^ 31) mod 2 ^ 32) by lia.
  pose proof (Z.div_mod (n + a + 2 ^ 31) (2 ^ 32) ltac:(lia)).
  pose proof (Z.div_mod (n + b + 2 ^ 31) (2 ^ 32) ltac:(lia)). nia.
Qed.

Lemma token_loop_spec fuel n (toks : gset Z) :
  in_i32 n →
  match token_loop fuel n toks with
  | Some (t, n') => t ≠ 0 ∧ t ∉ toks ∧ in_i32 t ∧ in_i32 n'
  | None => ∀ k, (k < fuel)%nat → wrap_i32 (n + Z.of_nat k) ∈ ({[0]} ∪ toks : gset Z)
  end.
Proof.
  revert n. induction fuel as [|fuel IH]; intros n Hn; cbn [token_loop]; [intros; lia|].
  case_bool_decide as Hok.
  - destruct Hok as [??]. split_and!; try done. apply wrap_i32_range.
  - specialize (IH (wrap_i32 (n + 1)) (wrap_i32_range _)).
    destruct (token_loop fuel _ toks) as [[??]|]; [done|]. intros [|k] Hk.
    + rewrite Z.add_0_r, wrap_i32_id by done. apply dec_stable. set_solver.
    + specialize (IH k ltac:(lia)). rewrite wrap_i32_add in IH.
      replace (n + Z.of_nat (S k)) with (n + 1 + Z.of_nat k) by lia. done.
Qed.

Lemma token_loop_some fuel n (toks : gset Z) t n' :
  in_i32 n → token_loop fuel n toks = Some (t, n') → t ≠ 0 ∧ t ∉ toks ∧ in_i32 t ∧ in_i32 n'.
Proof. intros Hn H. pose proof (token_loop_spec fuel n toks Hn) as Hs. by rewrite H in Hs. Qed.

Lemma token_loop_finds n (toks : gset Z) :
  in_i32 n → Z.of_nat (size toks) < 2 ^ 32 - 1 →
  is_Some (token_loop (token_fuel toks) n toks).
Proof.
  intros Hn Hsize. pose proof (token_loop_spec (token_fuel toks) n toks Hn) as Hspec.
  destruct (token_loop _ n toks); [by eexists|]. exfalso.
  set (cands := (λ k, wrap_i32 (n + Z.of_nat k)) <$> seq 0 (token_fuel toks)).
  assert (Hnd : NoDup cands).
  { apply NoDup_fmap_2_strong; [|apply NoDup_seq]. intros a b Ha%elem_of_seq Hb%elem_of_seq Heq.
    unfold token_fuel in *. apply wrap_i32_inj in Heq; lia. }
  assert (Hsub : (list_to_set cands : gset Z) ⊆ {[0]} ∪ toks).
  { intros t Ht%elem_of_list_to_set. apply list_elem_of_fmap in Ht as (k & -> & Hk%elem_of_seq).
    apply Hspec. lia. }
  apply subseteq_size in Hsub. rewrite size_list_to_set in Hsub by done.
  unfold cands in Hsub. rewrite length_fmap, length_seq in Hsub. unfold token_fuel in *.
  rewrite size_union_alt, size_singleton in Hsub.
  pose proof (subseteq_size (toks ∖ {[0]}) toks ltac:(set_solver)). lia.
Qed.

#[local] Arguments token_loop : simpl never.

Section Spec.
Context {W R : Type} `{Hops : WatchOps W R}.
Notation state := (System W R).
Notation flag_t := (ReadinessFlag W).
Notation pct := (pc R).

(** ** One step of one task *)
Definition moves (i : nat) (f : flag_t) (p : pct) (f' : flag_t) (p' : pct) : Prop :=
  thread_step i f p = Some (f', p') ∨ (f' = f ∧ timeout_step p = Some p') ∨
  cancel_step f p = Some (f', p').

(** An invariant holds when calls and moves keep it. *)
Lemma steps_invariant (I : state → Prop) s s' :
  I s →
  (∀ s p, I s → is_call p → I (mkSystem (flag s) (pool s ++ [p]))) →
  (∀ s i p f' p', I s → pool s !! i = Some p → moves i (flag s) p f' p' → I (advance s i f' p')) →
  steps s s' → I s'.
Proof.
  intros Hi Hcall Hmove Hsteps. induction Hsteps as [|s1 s2 _ IH Hs]; [done|].
  destruct Hs as [p Hp|i p f' p' Hp Ht|i p p' Hp Ht|i p f' p' Hp Ht]; [by apply Hcall| | |];
    eapply Hmove; try done; [by left|right; left; done|right; right; done].
Qed.

Lemma steps_trans (s1 s2 s3 : state) : steps s1 s2 → steps s2 s3 → steps s1 s3.
Proof. intros H12 H23. induction H23; [done|]. by eapply steps_next. Qed.

Definition holding (p : pct) : bool :=
  match p with
  | IsSwap _ | IsDrop _ _ | IsRelease _ | SubCheck | SubLoop | SubUnlock _ | MarkRemove _
  | MarkStore | MarkClear | MarkUnlock _ => true
  | _ => false
  end.
(** The task that made the flag ready, from then on. *)
Definition winner (p : pct) : bool :=
  match p with
  | IsDrop _ false | IsSend _ | MarkClear | MarkUnlock true | MarkSend | MarkDone (Ok true) => true
  | _ => false
  end.
Definition issued (p : pct) : option Token :=
  match p with SubUnlock (Some t) | SubDone (Ok t) => Some t | _ => None end.

Definition local (f : flag_t) (p : pct) : Prop :=
  (winner p = true → ready f = true) ∧
  match p with
  | IsSwap _ => tokens f = ∅
  | SubLoop | MarkStore => ready f = false
  | _ => True
  end.

Record Inv (s : state) : Prop := {
  inv_lock i p : pool s !! i = Some p → holding p = true → lock (flag s) = Some i;
  inv_local i p : pool s !! i = Some p → local (flag s) p;
  inv_ready : ready (flag s) = true → tokens (flag s) = ∅ ∨ ∃ j, pool s !! j = Some MarkClear;
  inv_range : in_i32 (next_id (flag s)) ∧ ∀ t, t ∈ tokens (flag s) → t ≠ 0 ∧ in_i32 t;
  inv_winner i j p q : pool s !! i = Some p → pool s !! j = Some q →
    winner p = true → winner q = true → i = j;
  inv_tokens i p t : pool s !! i = Some p → issued p = Some t →
    t ≠ 0 ∧ (ready (flag s) = false → t ∈ tokens (flag s) ∨ ∃ j, pool s !! j = Some MarkStore);
  inv_issued i j p q t : pool s !! i = Some p → pool s !! j = Some q →
    issued p = Some t → issued q = Some t → i = j;
}.

(** What a call of [is_ready] returns to is none of these. *)
Lemma return_holding k b : holding (is_return k b) = false.
Proof. by destruct k, b. Qed.
Lemma return_winner k b : winner (is_return k b) = false.
Proof. by destruct k, b. Qed.
Lemma return_issued k b : issued (is_return k b) = None.
Proof. by destruct k, b. Qed.
Lemma return_local k b (f : flag_t) : local f (is_return k b).
Proof. by destruct k, b. Qed.
Hint Rewrite return_holding return_winner return_issued : ready.

(** All the moves of a task. *)
Ltac move_cases H :=
  destruct H as [H|[[-> H]|H]];
  match type of H with _ ?p = Some _ => destruct p | _ _ ?p = Some _ => destruct p
                    | _ _ _ ?p = Some _ => destruct p end;
  simpl in H; repeat (split_match_in H || simplify_eq/=);
  try (apply bind_Some in H as ([??] & ? & H) || apply bind_Some in H as (? & ? & H));
  repeat (split_match_in H || simplify_eq/=).
Ltac done_case := intros; autorewrite with ready in *; simplify_eq/=; intuition (congruence || eauto).

(** What a step leaves alone, of a task that does not hold the lock. *)
Lemma move_frame i f p f' p' :
  moves i f p f' p' → holding p = false →
  ready f' = ready f ∧ tokens f' = tokens f ∧ next_id f' = next_id f ∧ (lock f' = lock f ∨ lock f = None).
Proof. intros Hm. move_cases Hm; done_case. Qed.
Lemma move_ready i f p f' p' : moves i f p f' p' → ready f = true → ready f' = true.
Proof. intros Hm. move_cases Hm; done_case. Qed.
Lemma move_lock i f p f' p' :
  moves i f p f' p' → holding p' = true → lock f' = Some i ∨ (holding p = true ∧ lock f' = lock f).
Proof. intros Hm. move_cases Hm; repeat split_match; done_case. Qed.

(** What the moving task becomes. *)
Lemma move_local i f p f' p' :
  moves i f p f' p' → local f p → (p ≠ MarkClear → ready f = true → holding p = true → tokens f = ∅) →
  local f' p'.
Proof.
  intros Hm [Hw Hl] Hr. move_cases Hm; try apply return_local; split; repeat split_match; done_case.
  - by apply bool_decide_eq_true in Heqb.
  - apply not_true_iff_false. intros Hrdy. apply bool_decide_eq_true in Heqb.
    rewrite H in Heqb by done. set_solver.
Qed.
Lemma move_becomes_ready i f p f' p' :
  moves i f p f' p' → local f p → ready f = false → ready f' = true →
  (p' = MarkClear ∨ tokens f' = ∅).
Proof. intros Hm [_ Hl] Hf. move_cases Hm; done_case. Qed.
Lemma move_stays_ready i f p f' p' :
  moves i f p f' p' → local f p → ready f = true →
  (tokens f = ∅ ∨ p = MarkClear) → tokens f' = ∅.
Proof.
  intros Hm [_ Hl] Hf. move_cases Hm; done_case.
  apply bool_decide_eq_true in Heqb. set_solver.
Qed.
Lemma move_range i f p f' p' :
  moves i f p f' p' → in_i32 (next_id f) ∧ (∀ t, t ∈ tokens f → t ≠ 0 ∧ in_i32 t) →
  in_i32 (next_id f') ∧ (∀ t, t ∈ tokens f' → t ≠ 0 ∧ in_i32 t).
Proof.
  intros Hm [Hn Ht]. move_cases Hm; try done.
  - match goal with H : token_loop _ _ _ = _ |- _ =>
      apply (token_loop_some _ _ _ _ _ Hn) in H as (?&?&?&?) end.
    split; [done|]. intros t' [->%elem_of_singleton|?]%elem_of_union; auto.
  - split; [done|]. intros t' [? _]%elem_of_difference. by apply Ht.
Qed.
Lemma move_winner i f p f' p' :
  moves i f p f' p' → local f p → winner p' = true → winner p = true ∨ ready f = false.
Proof.
  intros Hm [_ Hl]. move_cases Hm; repeat split_match; done_case; destruct (ready f); eauto.
Qed.
Lemma move_issued i f p f' p' t :
  moves i f p f' p' → in_i32 (next_id f) → issued p' = Some t →
  issued p = Some t ∨ (p = SubLoop ∧ t ≠ 0 ∧ t ∉ tokens f ∧ t ∈ tokens f').
Proof.
  intros Hm Hn. move_cases Hm; repeat split_match; try done_case.
  - match goal with H : token_loop _ _ _ = _ |- _ =>
      apply (token_loop_some _ _ _ _ _ Hn) in H as (?&?&?&?) end.
    right. split_and!; [done..|]. apply elem_of_union_l, elem_of_singleton_2. done.
Qed.
Lemma move_tokens i f p f' p' t :
  moves i f p f' p' → local f p → ready f' = false → t ∈ tokens f → t ∈ tokens f' ∨ p' = MarkStore.
Proof.
  intros Hm [Hw _]. move_cases Hm; done_case. left. set_solver.
Qed.
Lemma move_store i f p f' p' :
  moves i f p f' p' → p = MarkStore → ready f' = true.
Proof. intros Hm. move_cases Hm; done_case. Qed.

(** ** The invariant *)
Lemma call_neutral (p : pct) (f : flag_t) :
  is_call p → holding p = false ∧ winner p = false ∧ issued p = None ∧ local f p.
Proof. by destruct p. Qed.

(** The tasks after a move are the moved one and the others. *)
Lemma advance_lookup (s : state) i f' p' j q :
  pool (advance s i f' p') !! j = Some q → (j = i ∧ q = p') ∨ (j ≠ i ∧ pool s !! j = Some q).
Proof. simpl. intros [(?&?&?)|[??]]%list_lookup_insert_Some; naive_solver. Qed.
Lemma advance_other (s : state) i f' p' j q :
  j ≠ i → pool s !! j = Some q → pool (advance s i f' p') !! j = Some q.
Proof. intros ??. simpl. by rewrite list_lookup_insert_ne. Qed.
Lemma advance_self (s : state) i p f' p' :
  pool s !! i = Some p → pool (advance s i f' p') !! i = Some p'.
Proof. intros ?%lookup_lt_Some. simpl. by apply list_lookup_insert_eq. Qed.
Lemma call_lookup (s : state) p j q :
  (pool s ++ [p]) !! j = Some q → pool s !! j = Some q ∨ q = p.
Proof. intros [?|[_ H]]%lookup_app_Some; [by left|right]. by apply list_lookup_singleton_Some in H as [_ ?]. Qed.

Lemma inv_call (s : state) p : Inv s → is_call p → Inv (mkSystem (flag s) (pool s ++ [p])).
Proof.
  intros [Hlock Hloc Hrdy Hrng Hwin Htok Hiss] Hp.
  destruct (call_neutral p (flag s) Hp) as (Eh & Ew & Ei & El).
  assert (Happ : ∀ j q, pool s !! j = Some q → (pool s ++ [p]) !! j = Some q).
  { intros. by apply lookup_app_l_Some. }
  split; simpl; intros *; try (intros [Hi| ->]%call_lookup); try (intros [Hj| ->]%call_lookup);
    try congruence; try done; eauto.
  - intros [?|[j ?]]%Hrdy; eauto.
  - intros [? Ht]%(Htok _ _ _ Hi). split; [done|]. intros [?|[j ?]]%Ht; eauto.
Qed.

Section Move.
Context (s : state) (i : nat) (p : pct) (f' : flag_t) (p' : pct).
Context (HI : Inv s) (Hp : pool s !! i = Some p) (Hm : moves i (flag s) p f' p').

Lemma move_excludes j q :
  pool s !! j = Some q → holding q = true → holding p = true → j = i.
Proof.
  intros Hj Hq H. assert (H1 := inv_lock s HI _ _ Hp H). assert (H2 := inv_lock s HI _ _ Hj Hq). congruence.
Qed.
Lemma move_keeps_others j q :
  j ≠ i → pool s !! j = Some q → holding q = true →
  ready f' = ready (flag s) ∧ tokens f' = tokens (flag s) ∧
  (lock f' = lock (flag s) ∨ lock (flag s) = None).
Proof.
  intros Hne Hj Hq. destruct (holding p) eqn:H.
  - destruct Hne. by eapply move_excludes.
  - destruct (move_frame _ _ _ _ _ Hm H) as (? & ? & _ & ?). done.
Qed.

Lemma move_inv_lock j q :
  pool (advance s i f' p') !! j = Some q → holding q = true → lock f' = Some j.
Proof.
  intros [[-> ->]|[Hne Hj]]%advance_lookup Hq.
  - destruct (move_lock _ _ _ _ _ Hm Hq) as [?|[? ->]]; [done|]. by eapply inv_lock.
  - destruct (move_keeps_others j q Hne Hj Hq) as (_ & _ & [->|Hn]); [by eapply inv_lock|].
    rewrite (inv_lock s HI _ _ Hj Hq) in Hn. done.
Qed.
Lemma move_inv_local j q : pool (advance s i f' p') !! j = Some q → local f' q.
Proof.
  intros [[-> ->]|[Hne Hj]]%advance_lookup.
  - eapply move_local; [done|by eapply inv_local|]. intros Hne Hr Hh.
    destruct (inv_ready s HI Hr) as [?|[j Hj]]; [done|]. exfalso. apply Hne.
    assert (j = i) as -> by by eapply move_excludes. congruence.
  - destruct (inv_local s HI _ _ Hj) as [Hw Hq]. split; [intros; by eapply move_ready; eauto|].
    destruct q; try done; destruct (move_keeps_others j _ Hne Hj eq_refl) as (Er & Et & _); congruence.
Qed.
Lemma move_inv_ready :
  ready f' = true → tokens f' = ∅ ∨ ∃ j, pool (advance s i f' p') !! j = Some MarkClear.
Proof.
  intros Hr'. assert (Hl := inv_local s HI _ _ Hp). destruct (ready (flag s)) eqn:Hr.
  - destruct (inv_ready s HI Hr) as [He|[j Hj]]; [left; by eapply move_stays_ready; eauto|].
    destruct (decide (j = i)) as [->|Hne].
    + left. simplify_eq. eapply move_stays_ready; eauto.
    + right. exists j. by eapply advance_other.
  - destruct (move_becomes_ready _ _ _ _ _ Hm Hl Hr Hr') as [->|?]; [|by left].
    right. exists i. by eapply advance_self.
Qed.
Lemma move_inv_winner j q :
  j ≠ i → pool s !! j = Some q → winner p' = true → winner q = true → False.
Proof.
  intros Hne Hj H1 H2. assert (Hl := inv_local s HI _ _ Hp).
  destruct (move_winner _ _ _ _ _ Hm Hl H1) as [?|Hr]; [by apply Hne; eapply inv_winner|].
  destruct (inv_local s HI _ _ Hj) as [Hw _]. rewrite Hw in Hr by done. done.
Qed.
Lemma move_inv_tokens t j q :
  pool s !! j = Some q → issued q = Some t →
  ready f' = false → t ∈ tokens f' ∨ ∃ j, pool (advance s i f' p') !! j = Some MarkStore.
Proof.
  intros Hj Hq Hr'. destruct (inv_tokens s HI _ _ _ Hj Hq) as [_ Ht].
  assert (Hr : ready (flag s) = false).
  { apply not_true_iff_false. intros Hr. apply (move_ready _ _ _ _ _ Hm) in Hr. congruence. }
  destruct (Ht Hr) as [Hin|[j' Hj']].
  - destruct (move_tokens _ _ _ _ _ _ Hm (inv_local s HI _ _ Hp) Hr' Hin) as [?| ->]; [by left|].
    right. exists i. by eapply advance_self.
  - right. exists j'. apply advance_other; [|done]. intros ->. simplify_eq.
    assert (H3 := move_store _ _ _ _ _ Hm eq_refl). congruence.
Qed.
Lemma move_inv_issued t j q :
  j ≠ i → pool s !! j = Some q → issued p' = Some t → issued q = Some t → False.
Proof.
  intros Hne Hj H1 H2.
  destruct (move_issued _ _ _ _ _ _ Hm (proj1 (inv_range s HI)) H1) as [?|(Ep & _ & Hnot & _)];
    [by apply Hne; eapply inv_issued|].
  destruct (inv_tokens s HI _ _ _ Hj H2) as [_ Ht]. destruct (inv_local s HI _ _ Hp) as [_ Hl].
  destruct Ht as [?|[j' Hj']]; [by rewrite Ep in Hl|done|].
  assert (j' = i) as -> by (eapply move_excludes; [done..|by rewrite Ep]). congruence.
Qed.

Lemma inv_move : Inv (advance s i f' p').
Proof.
  split.
  - apply move_inv_lock.
  - apply move_inv_local.
  - apply move_inv_ready.
  - eapply move_range; [done|]. by apply inv_range.
  - intros j1 j2 q1 q2 [[-> ->]|[Hn1 Hj1]]%advance_lookup [[-> ->]|[Hn2 Hj2]]%advance_lookup Hw1 Hw2;
      [done|exfalso; by eapply move_inv_winner..|by eapply inv_winner].
  - intros j q t [[-> ->]|[Hne Hj]]%advance_lookup Hq.
    + destruct (move_issued _ _ _ _ _ _ Hm (proj1 (inv_range s HI)) Hq) as [Hi|(_ & ? & _ & ?)];
        [|by split; [|left]].
      split; [by eapply inv_tokens|]. by eapply move_inv_tokens.
    + split; [by eapply inv_tokens|]. by eapply move_inv_tokens.
  - intros j1 j2 q1 q2 t [[-> ->]|[Hn1 Hj1]]%advance_lookup [[-> ->]|[Hn2 Hj2]]%advance_lookup H1 H2;
      [done|exfalso; by eapply move_inv_issued..|by eapply inv_issued].
Qed.
End Move.

Lemma inv_initial : Inv (initial : state).
Proof.
  unfold initial, new_flag. destruct (watch_channel false) as [w r].
  split; simpl; intros *; done.
Qed.
Lemma reachable_inv (s : state) : reachable s → Inv s.
Proof.
  intros Hs. eapply (steps_invariant Inv); [apply inv_initial|apply inv_call| |exact Hs].
  intros *. apply inv_move.
Qed.

(** Ready is not reversible. *)
Lemma steps_ready (s s' : state) : steps s s' → ready (flag s) = true → ready (flag s') = true.
Proof.
  intros Hs Hr. eapply (steps_invariant (λ s, ready (flag s) = true)); try done.
  intros. by eapply move_ready.
Qed.

(** ** Waiters and the channel *)
Context `{Hlaws : !WatchLaws W R}.

Definition rx_of (p : pct) : option R :=
  match p with WaitBorrow r | WaitChanged r | WaitBorrowAgain r => Some r | _ => None end.

Definition sending (p : pct) : bool := match p with IsSend _ | MarkSend => true | _ => false end.

Record ChannelInv (s : state) : Prop := {
  ch_live i p r : pool s !! i = Some p → rx_of p = Some r → live (tx (flag s)) r;
  ch_own i j p q r : pool s !! i = Some p → pool s !! j = Some q →
    rx_of p = Some r → rx_of q = Some r → i = j;
  ch_news i r : value (tx (flag s)) = true → pool s !! i = Some (WaitChanged r) →
    unseen (tx (flag s)) r = true;
}.

Lemma send_true_keeps w : value w = true → value (watch_send w true) = true.
Proof.
  intros Hv. destruct (value (watch_send w true)) eqn:E; [done|].
  destruct (send_closed_law w true) as [Hc _]; [|congruence].
  intros r Hr. destruct (send_law w true r Hr) as [? _]. congruence.
Qed.
Lemma return_rx k b : rx_of (is_return k b) = None.
Proof. by destruct k, b. Qed.
Hint Rewrite return_rx : ready.

(** What a move does to the channel, seen by the tasks that own other receivers. *)
Definition quiet (w w' : W) (p p' : pct) : Prop :=
  (value w' = true → value w = true) ∧ (value w = true → value w' = true) ∧
  (∀ r, live w r → rx_of p ≠ Some r → live w' r ∧ unseen w' r = unseen w r) ∧
  (∀ r, rx_of p' = Some r → live w' r ∧ (rx_of p = Some r ∨ ¬ live w r)).

Lemma quiet_same w (p p' : pct) :
  (∀ r, rx_of p' = Some r → rx_of p = Some r ∧ live w r) → quiet w w p p'.
Proof. intros H. split_and!; try done. intros r Hr. destruct (H r Hr). eauto. Qed.
Lemma quiet_drop w r (p p' : pct) :
  live w r → rx_of p = Some r → rx_of p' = None → quiet w (watch_drop w r) p p'.
Proof.
  intros Hr Hp Hp'. destruct (drop_law w r Hr) as (Hv & Hl & Hu). split_and!; try congruence.
  intros r' Hr' Hne. rewrite Hl. assert (r' ≠ r) by congruence. auto.
Qed.

Lemma return_not_changed k b (r : R) : is_return k b ≠ WaitChanged r.
Proof. by destruct k, b. Qed.

Lemma quiet_subscribe w w' r :
  watch_subscribe w = (w', r) → quiet w w' WaitSubscribe (WaitBorrow r).
Proof.
  intros E. pose proof (subscribe_law w) as Hs. rewrite E in Hs. destruct Hs as (Hv & Hn & Hl & _ & Hu).
  split_and!; try congruence.
  - intros r' Hr' _. rewrite Hl. split; [by left|]. apply Hu. by intros ->.
  - intros r' [= <-]. rewrite Hl. split; [by right|by right].
Qed.
Lemma quiet_changed w w' r :
  live w r → watch_changed w r = Some w' → quiet w w' (WaitChanged r) (WaitBorrowAgain r).
Proof.
  intros Hr E. pose proof (changed_law w r Hr) as Hs. rewrite E in Hs.
  destruct Hs as (_ & Hv & Hl & _ & Hu). split_and!; try congruence.
  - intros r' Hr' Hne. rewrite Hl. split; [done|]. apply Hu. intros ->. by apply Hne.
  - intros r' [= <-]. rewrite Hl. split; [done|by left].
Qed.
Lemma quiet_recheck f (p : pct) rx :
  rx_of p = Some rx → (∀ r, Some rx = Some r → live (tx f) r) → watch_borrow (tx f) rx = false →
  (∀ r, WaitChanged rx = WaitChanged r → value (tx f) = true → False) ∧
  (quiet (tx f) (tx f) p (WaitChanged rx) ∨
   (tx f = watch_send (tx f) true ∧ false = true ∧ Some rx = None)).
Proof.
  intros Hp Hlive Hb. rewrite borrow_law in Hb by auto. split; [congruence|].
  left. apply quiet_same. simpl. naive_solver.
Qed.

Lemma move_channel i f p f' p' :
  moves i f p f' p' → (∀ r, rx_of p = Some r → live (tx f) r) →
  (∀ r, p' = WaitChanged r → value (tx f') = true → False) ∧
  (quiet (tx f) (tx f') p p' ∨ (tx f' = watch_send (tx f) true ∧ sending p = true ∧ rx_of p' = None)).
Proof.
  intros Hm Hlive. move_cases Hm;
    try (split; [by intros ? ?%return_not_changed|]);
    try (split; [done|]);
    try (left; apply quiet_same; intros; autorewrite with ready in *; naive_solver);
    try (right; autorewrite with ready; done);
    try (left; apply quiet_drop; naive_solver).
  - left. by apply quiet_subscribe.
  - by apply quiet_recheck.
  - left. by apply quiet_changed; [apply Hlive|].
  - by apply quiet_recheck.
Qed.

Lemma channel_call (s : state) p :
  ChannelInv s → is_call p → ChannelInv (mkSystem (flag s) (pool s ++ [p])).
Proof.
  intros [Hl Ho Hn] Hp. assert (Hrx : rx_of p = None) by by destruct p.
  split; simpl; intros *; try (intros [Hi| ->]%call_lookup); try (intros [Hj| ->]%call_lookup);
    try congruence; eauto.
  intros Hv [Hi|Heq]%call_lookup; [eauto|]. by subst.
Qed.

Lemma channel_move (s : state) i p f' p' :
  ChannelInv s → pool s !! i = Some p → moves i (flag s) p f' p' → ChannelInv (advance s i f' p').
Proof.
  intros [Hl Ho Hn] Hp Hm. destruct (move_channel _ _ _ _ _ Hm (λ r, Hl i p r Hp)) as [Hnc Hch].
  assert (Hkeep : ∀ j q r, j ≠ i → pool s !! j = Some q → rx_of q = Some r →
    live (tx f') r ∧ rx_of p' ≠ Some r ∧
    (value (tx f') = true → q = WaitChanged r → unseen (tx f') r = true)).
  { intros j q r Hne Hj Hr. assert (Hlr := Hl _ _ _ Hj Hr).
    assert (Hpr : rx_of p ≠ Some r) by (intros ?; apply Hne; eauto).
    destruct Hch as [(Hv & _ & Hk & Hp')|(Hw & Hp1 & Hp2)].
    - destruct (Hk r Hlr Hpr) as [? Hu]. split_and!; [done|by intros [_ [?|?]]%Hp'|].
      intros Hv' ->. rewrite Hu. eauto.
    - destruct (send_law (tx (flag s)) true r Hlr) as (_ & Hl' & Hu).
      rewrite Hw, Hp2. split_and!; [by apply Hl'|done|eauto]. }
  split.
  - intros j q r [[-> ->]|[Hne Hj]]%advance_lookup Hr; [|by eapply Hkeep].
    destruct Hch as [(_ & _ & _ & Hp')|(_ & _ & Hp')]; [by apply Hp'|congruence].
  - intros j1 j2 q1 q2 r [[-> ->]|[Hn1 Hj1]]%advance_lookup [[-> ->]|[Hn2 Hj2]]%advance_lookup H1 H2;
      [done| | |by eapply Ho].
    + by destruct (Hkeep _ _ _ Hn2 Hj2 H2) as (_ & ? & _).
    + by destruct (Hkeep _ _ _ Hn1 Hj1 H1) as (_ & ? & _).
  - intros j r Hv [[-> <-]|[Hne Hj]]%advance_lookup; [by destruct (Hnc r)|].
    destruct (Hkeep _ _ r Hne Hj eq_refl) as (_ & _ & ?). eauto.
Qed.

Lemma channel_initial : ChannelInv (initial : state).
Proof. split; simpl; intros *; done. Qed.
Lemma reachable_channel (s : state) : reachable s → ChannelInv s.
Proof.
  intros Hs. eapply (steps_invariant ChannelInv); [apply channel_initial|apply channel_call| |exact Hs].
  intros *. apply channel_move.
Qed.

(** The channel of a ready flag is not reset. *)
Lemma move_value i f p f' p' :
  moves i f p f' p' → (∀ r, rx_of p = Some r → live (tx f) r) →
  (value (tx f) = true → value (tx f') = true) ∧
  (value (tx f) = false → sending p = false → value (tx f') = false).
Proof.
  intros Hm Hl. destruct (move_channel _ _ _ _ _ Hm Hl) as [_ [(H1 & H2 & _)|(-> & Hs & _)]].
  - split; [done|]. destruct (value (tx f')); [|done]. intros Hf _. by rewrite H1 in Hf.
  - split; [apply send_true_keeps|congruence].
Qed.

(** How many more steps a waiter takes once the channel holds [true]. *)
Definition rank (p : pct) : nat :=
  match p with WaitBorrow _ | WaitBorrowAgain _ => 1 | WaitChanged _ => 2 | _ => 0 end.
Definition settled (p : pct) : Prop := p = WaitDone ∨ p = Cancelled.

Lemma waiting_step i (f : flag_t) p r :
  rx_of p = Some r → live (tx f) r → value (tx f) = true →
  (p = WaitChanged r → unseen (tx f) r = true) →
  ∃ f' p', thread_step i f p = Some (f', p') ∧ (rank p' < rank p)%nat.
Proof.
  intros Hr Hl Hv Hu. destruct p; simplify_eq/=; rewrite ?borrow_law, ?Hv by done.
  - do 2 eexists. split; [done|]. simpl. lia.
  - pose proof (changed_law (tx f) r Hl) as Hc. destruct (watch_changed (tx f) r); simpl.
    + do 2 eexists. split; [done|]. simpl. lia.
    + rewrite Hu in Hc by done. done.
  - do 2 eexists. split; [done|]. simpl. lia.
Qed.

Definition heard (i : nat) (s : state) : Prop :=
  ChannelInv s ∧ value (tx (flag s)) = true ∧
  ∃ p, pool s !! i = Some p ∧ (settled p ∨ is_Some (rx_of p)).

Lemma waiting_moves i f p f' p' :
  moves i f p f' p' → is_Some (rx_of p) → settled p' ∨ is_Some (rx_of p').
Proof.
  unfold settled. intros Hm [r Hr]. move_cases Hm; try done; eauto.
Qed.
Lemma settled_moves i f p f' p' : moves i f p f' p' → settled p → False.
Proof. intros Hm Hs. move_cases Hm; destruct Hs as [|]; simplify_eq. Qed.

Lemma heard_steps i (s s' : state) : heard i s → steps s s' → heard i s'.
Proof.
  intros Hh. apply (steps_invariant (heard i)); [done| |].
  - intros s1 q (Hc & Hv & p & Hp & Hw) Hq. split; [by apply channel_call|]. split; [done|].
    exists p. split; [by apply lookup_app_l_Some|done].
  - intros s1 j q f' q' (Hc & Hv & p & Hp & Hw) Hj Hm. split; [by eapply channel_move|]. split.
    + by apply (move_value _ _ _ _ _ Hm (λ r, ch_live s1 Hc j q r Hj)).
    + destruct (decide (j = i)) as [->|Hne]; simplify_eq.
      * exists q'. split; [by eapply advance_self|].
        destruct Hw as [Hs|Hw]; [by destruct (settled_moves _ _ _ _ _ Hm)|by eapply waiting_moves].
      * exists p. split; [by apply advance_other|done].
Qed.

(** ** A wait that is never woken *)
Definition deaf (i : nat) (s : state) : Prop :=
  Inv s ∧ ChannelInv s ∧ ready (flag s) = true ∧ value (tx (flag s)) = false ∧
  (∀ j q, pool s !! j = Some q → winner q = true → q = MarkDone (Ok true)) ∧
  ∃ p, pool s !! i = Some p ∧ (p = WaitSubscribe ∨ is_Some (rx_of p) ∨ p = Cancelled).

Lemma deaf_moves i f p f' p' :
  moves i f p f' p' → value (tx f) = false → (∀ r, rx_of p = Some r → live (tx f) r) →
  p = WaitSubscribe ∨ is_Some (rx_of p) ∨ p = Cancelled →
  p' = WaitSubscribe ∨ is_Some (rx_of p') ∨ p' = Cancelled.
Proof.
  intros Hm Hv Hl Hp. move_cases Hm; try (by destruct Hp as [|[[]|]]); eauto.
  - rewrite borrow_law in Heqb by auto. congruence.
  - rewrite borrow_law in Heqb by auto. congruence.
Qed.
Lemma done_moves i f p f' p' r : moves i f p f' p' → p = MarkDone r → False.
Proof. intros Hm Hp. move_cases Hm. Qed.

Lemma deaf_steps i (s s' : state) : deaf i s → steps s s' → deaf i s'.
Proof.
  intros Hh. apply (steps_invariant (deaf i)); [done| |].
  - intros s1 q (HI & Hc & Hr & Hv & Hw & p & Hp & Hs) Hq. unfold deaf. split_and!; try done.
    + by apply inv_call.
    + by apply channel_call.
    + intros j q' [Hj| ->]%call_lookup; [eauto|]. by destruct q.
    + exists p. split; [by apply lookup_app_l_Some|done].
  - intros s1 j q f' q' (HI & Hc & Hr & Hv & Hw & p & Hp & Hs) Hj Hm.
    assert (Hl := λ r, ch_live s1 Hc j q r Hj).
    assert (Hnw : winner q = false).
    { apply not_true_iff_false. intros H. eapply done_moves; [done|by eapply Hw]. }
    unfold deaf. split_and!.
    + by eapply inv_move.
    + by eapply channel_move.
    + by eapply move_ready.
    + apply (move_value _ _ _ _ _ Hm Hl); [done|]. by destruct q.
    + intros j' r [[-> ->]|[_ Hj']]%advance_lookup Hwr; [|eauto].
      destruct (move_winner _ _ _ _ _ Hm (inv_local s1 HI _ _ Hj) Hwr) as [?|?]; congruence.
    + destruct (decide (j = i)) as [->|Hne]; simplify_eq.
      * exists q'. split; [by eapply advance_self|]. by eapply deaf_moves.
      * exists p. split; [by apply advance_other|done].
Qed.
End Spec.

(** ** A concrete program: a subscriber, a waiter and a task that marks the flag ready *)
Definition sample_events : list (event nat) :=
  [ECall SubLoad; ERun 0; ERun 0; ERun 0; ERun 0; ERun 0;
   ECall (IsLoad true); ERun 1; ERun 1; ERun 1; ERun 1;
   ECall (MarkLoad 1); ERun 2; ERun 2; ERun 2; ERun 2; ERun 2; ERun 2].
Definition sample_run (es : list (event nat)) : System MemWatch nat :=
  default initial (exec_all initial es).
(** The flag is announced before the waiter connects. *)
Definition sample_late : System MemWatch nat := sample_run (sample_events ++ [ERun 2]).

Lemma sample_reachable es s : exec_all (initial : System MemWatch nat) es = Some s → reachable s.
Proof. apply exec_all_steps. Qed.

(** The loop of [subscribe] that draws a token ends: while fewer than [2^32 - 1]
    tokens are in use, it finds one that is not zero and not in use within two rounds
    more than there are tokens in use, also when the [i32] counter wraps around. *)
Theorem subscribe_token_loop_terminates next (toks : gset Z) :
  in_i32 next → Z.of_nat (size toks) < 2 ^ 32 - 1 →
  ∃ token next', token_loop (token_fuel toks) next toks = Some (token, next') ∧
    token ≠ 0 ∧ token ∉ toks ∧ in_i32 token ∧ in_i32 next'.
Proof.
  intros Hn Hs. destruct (token_loop_finds next toks Hn Hs) as [[t n'] E]. exists t, n'.
  split; [done|]. by eapply token_loop_some.
Qed.
Lemma subscribe_token_loop_terminates_witness :
  ∃ token next', token_loop (token_fuel {[- 2 ^ 31; 2 ^ 31 - 1]}) (2 ^ 31 - 1) {[- 2 ^ 31; 2 ^ 31 - 1]}
    = Some (token, next') ∧ token ≠ 0 ∧ token ∉ ({[- 2 ^ 31; 2 ^ 31 - 1]} : gset Z) ∧
    in_i32 token ∧ in_i32 next'.
Proof.
  apply subscribe_token_loop_terminates; [by vm_compute|].
  replace (size _) with 2%nat by (by vm_compute). lia.
Defined.

(** C25: In every interleaving of calls, a flag that is ready stays ready; at most one
    call of [mark_ready] returns [true]; the tokens handed out are not zero and differ
    from each other; and when the flag is ready and nobody holds the lock, no token is
    left to mark it again. *)
Theorem readiness_flag_safe {W R} `{WatchOps W R} (s s' : System W R) :
  reachable s → steps s s' →
  (ready (flag s) = true → ready (flag s') = true) ∧
  (∀ i j, pool s' !! i = Some (MarkDone (Ok true)) → pool s' !! j = Some (MarkDone (Ok true)) → i = j) ∧
  (∀ i token, pool s' !! i = Some (SubDone (Ok token)) → token ≠ 0 ∧
     ∀ j, pool s' !! j = Some (SubDone (Ok token)) → j = i) ∧
  (ready (flag s') = true → lock (flag s') = None → tokens (flag s') = ∅).
Proof.
  intros Hs Hss. assert (HI := reachable_inv s' (steps_trans _ _ _ Hs Hss)). split_and!.
  - by apply steps_ready.
  - intros i j Hi Hj. by eapply (inv_winner s' HI).
  - intros i t Hi. split; [by eapply (inv_tokens s' HI)|]. intros j Hj. by eapply (inv_issued s' HI).
  - intros Hr Hl. destruct (inv_ready s' HI Hr) as [?|[j Hj]]; [done|].
    assert (Hh := inv_lock s' HI _ _ Hj eq_refl). congruence.
Qed.
Lemma readiness_flag_safe_witness :
  tokens (flag sample_late) = ∅ ∧ ready (flag sample_late) = true.
Proof.
  split; [|by vm_compute].
  apply (readiness_flag_safe sample_late sample_late); [|apply steps_refl|by vm_compute|by vm_compute].
  apply (sample_reachable (sample_events ++ [ERun 2])). by vm_compute.
Defined.

(** A task in [wait_ready] that is connected to the channel when the flag is
    announced is released: whatever the other tasks do from then on, the waiter has
    returned, was cancelled, or can take a step that brings it closer to returning
    (two steps at most). *)
Theorem waiter_released {W R} `{WatchLaws W R} (s s' : System W R) i p j q f1 q1 :
  reachable s →
  pool s !! i = Some p → is_Some (rx_of p) →
  pool s !! j = Some q → sending q = true → thread_step j (flag s) q = Some (f1, q1) →
  steps (advance s j f1 q1) s' →
  ∃ p', pool s' !! i = Some p' ∧
    (p' = WaitDone ∨ p' = Cancelled ∨
     ∃ f'' p'', thread_step i (flag s') p' = Some (f'', p'') ∧ (rank p'' < rank p' ≤ 2)%nat).
Proof.
  intros Hr Hi [r Hp] Hj Hq Ht Hs. assert (Hc := reachable_channel s Hr).
  assert (Hm : moves j (flag s) q f1 q1) by by left.
  assert (Hne : i ≠ j) by (intros ->; simplify_eq; by destruct p).
  assert (Hsend : tx f1 = watch_send (tx (flag s)) true) by (destruct q; simplify_eq/=; done).
  assert (Hh : heard i (advance s j f1 q1)).
  { split; [by eapply channel_move|]. split.
    - simpl. rewrite Hsend. by apply (send_law (tx (flag s)) true r), (ch_live s Hc i p).
    - exists p. split; [by apply advance_other|]. right. by exists r. }
  apply (heard_steps i _ s') in Hh as (Hc' & Hv & p' & Hp' & Hw); [|done].
  exists p'. split; [done|]. destruct Hw as [[->| ->]|[r' Hr']]; [by left|by right; left|].
  right. right. destruct (waiting_step i (flag s') p' r' Hr') as (f'' & p'' & Ht' & Hrank); try done.
  - by eapply ch_live.
  - intros ->. by eapply ch_news.
  - exists f'', p''. split_and!; [done|done|]. destruct p'; simpl; lia.
Qed.

(** The waiter sleeps when the flag is announced. *)
Definition sample_mid : System MemWatch nat := sample_run (sample_events ++ [ERun 1; ERun 1]).
Lemma waiter_released_witness :
  ∃ p', pool (sample_run (sample_events ++ [ERun 1; ERun 1; ERun 2])) !! 1%nat = Some p' ∧
    (p' = WaitDone ∨ p' = Cancelled ∨
     ∃ f'' p'', thread_step 1 (flag (sample_run (sample_events ++ [ERun 1; ERun 1; ERun 2]))) p'
       = Some (f'', p'') ∧ (rank p'' < rank p' ≤ 2)%nat).
Proof.
  eapply (waiter_released sample_mid _ 1 (WaitChanged 0%nat) 2 MarkSend).
  - apply (sample_reachable (sample_events ++ [ERun 1; ERun 1])). by vm_compute.
  - by vm_compute.
  - by eexists.
  - by vm_compute.
  - done.
  - by vm_compute.
  - replace (advance _ _ _ _) with (sample_run (sample_events ++ [ERun 1; ERun 1; ERun 2])) by by vm_compute.
    apply steps_refl.
Defined.

(** A wakeup can be lost.  When the flag is ready and was announced while nobody
    was connected to the channel, a task in [wait_ready] that had seen the flag not
    ready and is about to connect never returns, whatever the other tasks do. *)
Theorem wait_ready_lost_wakeup {W R} `{WatchLaws W R} (s s' : System W R) i :
  reachable s → ready (flag s) = true → value (tx (flag s)) = false →
  (∀ j q, pool s !! j = Some q → winner q = true → q = MarkDone (Ok true)) →
  pool s !! i = Some WaitSubscribe → steps s s' →
  ready (flag s') = true ∧ ∃ p, pool s' !! i = Some p ∧ p ≠ WaitDone.
Proof.
  intros Hr Hrdy Hv Hw Hi Hs.
  assert (Hd : deaf i s).
  { unfold deaf. split_and!; try done; [by apply reachable_inv|by apply reachable_channel|].
    exists WaitSubscribe. auto. }
  apply (deaf_steps i s s') in Hd as (_ & _ & ? & _ & _ & p & Hp & Hcase); [|done].
  split; [done|]. exists p. split; [done|]. intros ->. by destruct Hcase as [|[[]|]].
Qed.
Lemma wait_ready_lost_wakeup_witness :
  ready (flag sample_late) = true ∧ ∃ p, pool sample_late !! 1%nat = Some p ∧ p ≠ WaitDone.
Proof.
  apply (wait_ready_lost_wakeup sample_late sample_late 1).
  - apply (sample_reachable (sample_events ++ [ERun 2])). by vm_compute.
  - by vm_compute.
  - by vm_compute.
  - replace (pool sample_late) with ([SubDone (Ok 1); WaitSubscribe; MarkDone (Ok true)] : list (pc nat))
      by (by vm_compute).
    intros [|[|[|]]] q; simpl; intros; by simplify_eq.
  - by vm_compute.
  - apply steps_refl.
Defined.
