(* ===== verification/PasteBurst.v ===== *)
(** * Paste-burst detection

    Models [sofia-rs/tui/src/bottom_pane/paste_burst.rs]: on terminals that deliver a
    paste as single keys, a timed state machine holds back the first character and
    buffers fast streams until they can be inserted as one paste.  The machine never
    touches the text; the second part states the protocol its documentation asks of
    the caller and proves that under it no character is lost, duplicated or
    reordered, and that held text is released after the timeout. *)

From stdpp Require Import base list numbers strings.
From S2P Require Import Prelude Machine Truncate.

#[local] Open Scope N_scope.
#[local] Set Default Proof Using "Type*".

(** [Instant] and [Duration], in nanoseconds; [duration_since] saturates at zero. *)
Abbreviation Instant := N.
Abbreviation Duration := N.
Definition from_millis (ms : N) : Duration := ms * 1000000.
Definition duration_since (now earlier : Instant) : Duration := now - earlier.

Definition PASTE_BURST_MIN_CHARS : N := 3.
Definition PASTE_ENTER_SUPPRESS_WINDOW : Duration := from_millis 120.
Definition PASTE_BURST_CHAR_INTERVAL : Duration := from_millis 8.
Definition PASTE_BURST_ACTIVE_IDLE_TIMEOUT (windows : bool) : Duration :=
  if windows then from_millis 60 else from_millis 8.

Record PasteBurst := mkBurst {
  last_plain_char_time : option Instant;
  consecutive_plain_char_burst : N;
  burst_window_until : option Instant;
  buffer : rstring;
  active : bool;
  pending_first_char : option (N * Instant);
}.
Definition default_burst : PasteBurst := mkBurst None 0 None [] false None.

Inductive CharDecision :=
  | BeginBuffer (retro_chars : N)
  | BufferAppend
  | RetainFirstChar
  | BeginBufferFromPending.
Record RetroGrab := mkGrab { start_byte : N; grabbed : rstring }.
Inductive FlushResult := FlushPaste (s : rstring) | FlushTyped (c : N) | FlushNone.

Definition recommended_flush_delay : Duration := PASTE_BURST_CHAR_INTERVAL + from_millis 1.

Section Machine.
Context (windows : bool).

Definition is_active_internal (b : PasteBurst) : bool := active b || negb (is_empty (buffer b)).
Definition is_active (b : PasteBurst) : bool :=
  is_active_internal b || match pending_first_char b with Some _ => true | None => false end.

Definition note_plain_char (now : Instant) (b : PasteBurst) : PasteBurst :=
  let n :=
    match last_plain_char_time b with
    | Some prev =>
        if duration_since now prev <=? PASTE_BURST_CHAR_INTERVAL
        then sat_add U16_MAX (consecutive_plain_char_burst b) 1 else 1
    | None => 1
    end in
  mkBurst (Some now) n (burst_window_until b) (buffer b) (active b) (pending_first_char b).

(** [self.burst_window_until = Some(now + PASTE_ENTER_SUPPRESS_WINDOW)]. *)
Definition extend_window (now : Instant) (b : PasteBurst) : PasteBurst :=
  mkBurst (last_plain_char_time b) (consecutive_plain_char_burst b)
    (Some (now + PASTE_ENTER_SUPPRESS_WINDOW)) (buffer b) (active b) (pending_first_char b).

Definition on_plain_char (ch : N) (now : Instant) (b : PasteBurst) : PasteBurst * CharDecision :=
  let b := note_plain_char now b in
  if active b then (extend_window now b, BufferAppend)
  else
    let held_fast :=
      match pending_first_char b with
      | Some (held, held_at) =>
          if duration_since now held_at <=? PASTE_BURST_CHAR_INTERVAL then Some held else None
      | None => None
      end in
    match held_fast with
    | Some held =>
        (extend_window now
           (mkBurst (last_plain_char_time b) (consecutive_plain_char_burst b)
              (burst_window_until b) (buffer b ++ [held]) true None),
         BeginBufferFromPending)
    | None =>
        if PASTE_BURST_MIN_CHARS <=? consecutive_plain_char_burst b
        then (b, BeginBuffer (consecutive_plain_char_burst b - 1))
        else (mkBurst (last_plain_char_time b) (consecutive_plain_char_burst b)
                (burst_window_until b) (buffer b) (active b) (Some (ch, now)),
              RetainFirstChar)
    end.

Definition on_plain_char_no_hold (now : Instant) (b : PasteBurst) : PasteBurst * option CharDecision :=
  let b := note_plain_char now b in
  if active b then (extend_window now b, Some BufferAppend)
  else if PASTE_BURST_MIN_CHARS <=? consecutive_plain_char_burst b
  then (b, Some (BeginBuffer (consecutive_plain_char_burst b - 1)))
  else (b, None).

Definition flush_if_due (now : Instant) (b : PasteBurst) : PasteBurst * FlushResult :=
  let timeout :=
    if is_active_internal b then PASTE_BURST_ACTIVE_IDLE_TIMEOUT windows
    else PASTE_BURST_CHAR_INTERVAL in
  let timed_out := is_some_and (last_plain_char_time b) (λ t, timeout <? duration_since now t) in
  if timed_out && is_active_internal b then
    (mkBurst (last_plain_char_time b) (consecutive_plain_char_burst b) (burst_window_until b)
       [] false (pending_first_char b), FlushPaste (buffer b))
  else if timed_out then
    match pending_first_char b with
    | Some (ch, _) =>
        (mkBurst (last_plain_char_time b) (consecutive_plain_char_burst b) (burst_window_until b)
           (buffer b) (active b) None, FlushTyped ch)
    | None => (b, FlushNone)
    end
  else (b, FlushNone).

Definition append_newline_if_active (now : Instant) (b : PasteBurst) : PasteBurst * bool :=
  if is_active b then
    let buf :=
      match pending_first_char b with Some (held, _) => buffer b ++ [held] | None => buffer b end in
    (mkBurst (last_plain_char_time b) (consecutive_plain_char_burst b)
       (Some (now + PASTE_ENTER_SUPPRESS_WINDOW)) (buf ++ [LF]) true None, true)
  else (b, false).

Definition newline_should_insert_instead_of_submit (now : Instant) (b : PasteBurst) : bool :=
  is_active b || is_some_and (burst_window_until b) (λ until, now <=? until).
Definition direct_insert_newline_should_insert (now : Instant) (b : PasteBurst) : bool :=
  newline_should_insert_instead_of_submit now b ||
  is_some_and (last_plain_char_time b) (λ t, duration_since now t <=? PASTE_BURST_CHAR_INTERVAL).

Definition begin_with_retro_grabbed (grabbed : rstring) (now : Instant) (b : PasteBurst) : PasteBurst :=
  mkBurst (last_plain_char_time b) (consecutive_plain_char_burst b)
    (Some (now + PASTE_ENTER_SUPPRESS_WINDOW)) (buffer b ++ grabbed) true (pending_first_char b).

Definition append_char_to_buffer (ch : N) (now : Instant) (b : PasteBurst) : PasteBurst :=
  mkBurst (last_plain_char_time b) (consecutive_plain_char_burst b)
    (Some (now + PASTE_ENTER_SUPPRESS_WINDOW)) (buffer b ++ [ch]) (active b) (pending_first_char b).

Definition try_append_char_if_active (ch : N) (now : Instant) (b : PasteBurst) : PasteBurst * bool :=
  if active b || negb (is_empty (buffer b)) then (append_char_to_buffer ch now b, true) else (b, false).

(** [str::char_indices]. *)
Fixpoint char_indices_from (idx : N) (s : rstring) : list (N * N) :=
  match s with
  | [] => []
  | c :: s' => (idx, c) :: char_indices_from (idx + char_len c) s'
  end.
Definition retro_start_index (before : rstring) (retro_chars : N) : N :=
  if retro_chars =? 0 then str_len before
  else match reverse (char_indices_from 0 before) !! N.to_nat (retro_chars - 1) with
       | Some (idx, _) => idx
       | None => 0
       end.

(** [None]: the slice [before[start_byte..]] panics. *)
Definition decide_begin_buffer (now : Instant) (before : rstring) (retro_chars : N) (b : PasteBurst)
    : option (PasteBurst * option RetroGrab) :=
  let start := retro_start_index before retro_chars in
  grab ← slice_from start before;
  let looks_pastey := existsb is_whitespace grab || (16 <=? len grab) in
  Some (if looks_pastey then (begin_with_retro_grabbed grab now b, Some (mkGrab start grab))
        else (b, None)).

Definition flush_before_modified_input (b : PasteBurst) : PasteBurst * option rstring :=
  if negb (is_active b) then (b, None)
  else
    let out :=
      match pending_first_char b with Some (ch, _) => buffer b ++ [ch] | None => buffer b end in
    (mkBurst (last_plain_char_time b) (consecutive_plain_char_burst b) (burst_window_until b)
       [] false None, Some out).

Definition clear_window_after_non_char (b : PasteBurst) : PasteBurst :=
  mkBurst None 0 None (buffer b) false None.
Definition clear_after_explicit_paste (b : PasteBurst) : PasteBurst :=
  mkBurst None 0 None [] false None.

(** ** The protocol of the caller

    A caller keeps the text before the cursor and feeds the machine.  A paste ends
    with [clear_after_explicit_paste].  The caller may be unable to take text back
    ([retract], for example in an overwrite mode); it then forgets the burst and
    inserts the character. *)
Record Caller := mkCaller { text : rstring; burst : PasteBurst }.

Definition paste (s : rstring) (c : Caller) : Caller :=
  mkCaller (text c ++ s) (clear_after_explicit_paste (burst c)).
Definition insert (s : rstring) (c : Caller) : Caller := mkCaller (text c ++ s) (burst c).

Definition tick (now : Instant) (c : Caller) : Caller :=
  let '(b, r) := flush_if_due now (burst c) in
  let c := mkCaller (text c) b in
  match r with FlushPaste s => paste s c | FlushTyped ch => insert [ch] c | FlushNone => c end.

Definition flush_modified (c : Caller) : Caller :=
  let '(b, r) := flush_before_modified_input (burst c) in
  let c := mkCaller (text c) b in
  match r with Some s => paste s c | None => c end.

Definition buffer_char (ch : N) (now : Instant) (c : Caller) : Caller :=
  mkCaller (text c) (append_char_to_buffer ch now (burst c)).

(** [BeginBuffer]: take the typed prefix back into the buffer, or insert. *)
Definition begin_buffer (retract : bool) (ch : N) (retro_chars : N) (now : Instant) (c : Caller)
    : option Caller :=
  '(b, grab) ← decide_begin_buffer now (text c) retro_chars (burst c);
  match grab with
  | Some g =>
      if is_empty (grabbed g) || retract then
        kept ← slice_to (start_byte g) (text c);
        Some (buffer_char ch now (mkCaller kept b))
      else Some (insert [ch] (flush_modified (mkCaller (text c) (clear_after_explicit_paste b))))
  | None => Some (insert [ch] (flush_modified (mkCaller (text c) b)))
  end.

Definition ascii_char (retract : bool) (ch : N) (now : Instant) (c : Caller) : option Caller :=
  let c := tick now c in
  let '(b, d) := on_plain_char ch now (burst c) in
  let c := mkCaller (text c) b in
  match d with
  | BufferAppend | BeginBufferFromPending => Some (buffer_char ch now c)
  | RetainFirstChar => Some c
  | BeginBuffer retro_chars => begin_buffer retract ch retro_chars now c
  end.

Definition other_char (retract : bool) (ch : N) (now : Instant) (c : Caller) : option Caller :=
  let c := tick now c in
  let '(b, appended) := try_append_char_if_active ch now (burst c) in
  let c := mkCaller (text c) b in
  if appended then Some c
  else
    let c := flush_modified c in
    let '(b, d) := on_plain_char_no_hold now (burst c) in
    let c := mkCaller (text c) b in
    match d with
    | Some BufferAppend => Some (buffer_char ch now c)
    | Some (BeginBuffer retro_chars) => begin_buffer retract ch retro_chars now c
    | _ => Some (insert [ch] (flush_modified c))
    end.

Definition enter (now : Instant) (c : Caller) : Caller :=
  let c := tick now c in
  let '(b, appended) := append_newline_if_active now (burst c) in
  if appended then mkCaller (text c) b else insert [LF] c.

Definition other_key (now : Instant) (c : Caller) : Caller :=
  let c := flush_modified (tick now c) in
  mkCaller (text c) (clear_window_after_non_char (burst c)).

Inductive key :=
  | KChar (ascii retract : bool) (ch : N)
  | KEnter
  | KOther
  | KTick.
Definition on_key (now : Instant) (k : key) (c : Caller) : option Caller :=
  match k with
  | KChar true retract ch => ascii_char retract ch now c
  | KChar false retract ch => other_char retract ch now c
  | KEnter => Some (enter now c)
  | KOther => Some (other_key now c)
  | KTick => Some (tick now c)
  end.
Fixpoint on_keys (ks : list (Instant * key)) (c : Caller) : option Caller :=
  match ks with
  | [] => Some c
  | (now, k) :: ks' => c' ← on_key now k c; on_keys ks' c'
  end.

Definition typed (k : key) : rstring :=
  match k with KChar _ _ ch => [ch] | KEnter => [LF] | KOther | KTick => [] end.

(** Everything the user typed, in order: text, buffer, held character. *)
Definition held (b : PasteBurst) : rstring :=
  buffer b ++ match pending_first_char b with Some (ch, _) => [ch] | None => [] end.
Definition whole (c : Caller) : rstring := text c ++ held (burst c).

Record burst_ok (b : PasteBurst) : Prop := {
  ok_buffer : buffer b ≠ [] → active b = true;
  ok_pending ch t : pending_first_char b = Some (ch, t) →
    active b = false ∧ last_plain_char_time b = Some t;
  ok_time : is_active b = true → is_Some (last_plain_char_time b);
}.

(** ** Proofs *)
Lemma active_pending_none b : burst_ok b → active b = true → pending_first_char b = None.
Proof.
  intros Hb Ha. destruct (pending_first_char b) as [[ch t]|] eqn:E; [|done].
  destruct (ok_pending b Hb ch t E). congruence.
Qed.
Lemma inactive_buffer b : burst_ok b → active b = false → buffer b = [].
Proof. intros Hb Ha. destruct (buffer b) eqn:E; [done|]. rewrite (ok_buffer b Hb) in Ha; [done|]. by rewrite E. Qed.
Lemma internal_is_active b : burst_ok b → is_active_internal b = active b.
Proof.
  intros Hb. unfold is_active_internal. destruct (active b) eqn:Ha; [done|].
  by rewrite inactive_buffer.
Qed.
Lemma cleared_ok b : burst_ok (clear_after_explicit_paste b).
Proof. by split. Qed.
(** A machine that holds nothing is well formed whatever its timing. *)
Lemma empty_ok t n w : burst_ok (mkBurst t n w [] false None).
Proof. by split. Qed.
(** One that buffers needs a time. *)
Lemma buffering_ok t n w buf : burst_ok (mkBurst (Some t) n w buf true None).
Proof. by split. Qed.

Lemma tick_spec now c :
  burst_ok (burst c) →
  burst_ok (burst (tick now c)) ∧ whole (tick now c) = whole c ∧
  (∀ ch t, pending_first_char (burst (tick now c)) = Some (ch, t) →
     duration_since now t ≤ PASTE_BURST_CHAR_INTERVAL).
Proof.
  destruct c as [tx b]. unfold tick, whole, held. simpl. intros Hb. unfold flush_if_due.
  rewrite internal_is_active by done. destruct (active b) eqn:Ha.
  - rewrite (active_pending_none b) by done. destruct (is_some_and _ _); simpl.
    + split_and!; [apply cleared_ok| |done]. by rewrite !app_nil_r.
    + split_and!; [done| |]; rewrite (active_pending_none b); done.
  - assert (Hbuf := inactive_buffer b Hb Ha). rewrite andb_false_r.
    destruct (is_some_and _ _) eqn:Hdue; destruct (pending_first_char b) as [[ch t]|] eqn:Hp; simpl;
      rewrite ?Hp, ?Hbuf, ?Ha, ?app_nil_r; split_and!; try done; try apply empty_ok.
    intros ? ? [= <- <-]. destruct (ok_pending b Hb ch t Hp) as [_ Ht]. rewrite Ht in Hdue. simpl in Hdue.
    by apply N.ltb_ge in Hdue.
Qed.

Lemma flush_modified_spec c :
  burst_ok (burst c) →
  burst_ok (burst (flush_modified c)) ∧ text (flush_modified c) = whole c ∧
  held (burst (flush_modified c)) = [] ∧ is_active (burst (flush_modified c)) = false.
Proof.
  destruct c as [tx b]. unfold flush_modified, flush_before_modified_input, whole, held. simpl. intros Hb.
  destruct (is_active b) eqn:Ha; simpl.
  - split_and!; [apply cleared_ok| |done|done]. by destruct (pending_first_char b) as [[??]|]; rewrite ?app_nil_r.
  - apply orb_false_iff in Ha as [Hi Hp] .  pose proof Hi as Hi'. rewrite internal_is_active in Hi by done.
    destruct (pending_first_char b) as [|] eqn:Hpend; [done|].
    rewrite (inactive_buffer b), !app_nil_r by done.
    split_and!; [done|done|done|]. unfold is_active. by rewrite Hi', Hpend.
Qed.

(** Where a grab starts: the last [retro_chars] characters. *)
Lemma char_indices_length idx s : length (char_indices_from idx s) = length s.
Proof. revert idx. induction s as [|c s IH]; intros idx; simpl; by rewrite ?IH. Qed.
Lemma char_indices_lookup idx s i :
  (i < length s)%nat → ∃ c, char_indices_from idx s !! i = Some (idx + str_len (take i s), c).
Proof.
  revert idx i. induction s as [|c s IH]; intros idx [|i]; simpl; intros Hi; try lia.
  - exists c. by rewrite N.add_0_r.
  - destruct (IH (idx + char_len c) i ltac:(lia)) as [c' ->]. exists c'. by rewrite N.add_assoc.
Qed.
Lemma retro_start_spec before retro :
  retro_start_index before retro = str_len (take (length before - N.to_nat retro) before).
Proof.
  unfold retro_start_index. destruct (N.eqb_spec retro 0) as [->|Hne].
  { rewrite Nat.sub_0_r, take_ge; done. }
  destruct (decide (N.to_nat (retro - 1) < length before)%nat) as [Hlt|Hge].
  - rewrite reverse_lookup by by rewrite char_indices_length. rewrite char_indices_length.
    destruct (char_indices_lookup 0 before (length before - S (N.to_nat (retro - 1)))) as [c Hc]; [lia|].
    rewrite Hc, N.add_0_l. do 2 f_equal. lia.
  - rewrite lookup_ge_None_2 by (rewrite length_reverse, char_indices_length; lia).
    replace (_ - _)%nat with 0%nat by lia. by rewrite take_0.
Qed.

Lemma decide_begin_spec now before retro b :
  ∃ kept grab, before = kept ++ grab ∧ retro_start_index before retro = str_len kept ∧
    (decide_begin_buffer now before retro b = Some (b, None) ∨
     decide_begin_buffer now before retro b
     = Some (begin_with_retro_grabbed grab now b, Some (mkGrab (str_len kept) grab))).
Proof.
  set (k := (length before - N.to_nat retro)%nat).
  exists (take k before), (drop k before). rewrite take_drop. split; [done|].
  split; [apply retro_start_spec|]. unfold decide_begin_buffer. rewrite retro_start_spec. fold k.
  rewrite <- (take_drop k before) at 2 4. rewrite slice_from_app. simpl.
  destruct (_ || _); [right|left]; done.
Qed.

(** Inserting after everything held was flushed. *)
Lemma insert_spec s c :
  burst_ok (burst c) →
  burst_ok (burst (insert s (flush_modified c))) ∧ whole (insert s (flush_modified c)) = whole c ++ s.
Proof.
  intros Hb. destruct (flush_modified_spec c Hb) as (H1 & H2 & H3 & _). split; [done|].
  unfold insert, whole at 1. simpl. by rewrite H3, H2, app_nil_r.
Qed.

Lemma begin_buffer_spec retract ch retro now c n w :
  burst c = mkBurst (Some now) n w [] false None →
  ∃ c', begin_buffer retract ch retro now c = Some c' ∧ burst_ok (burst c') ∧
    whole c' = text c ++ [ch].
Proof.
  intros Hb. unfold begin_buffer.
  destruct (decide_begin_spec now (text c) retro (burst c)) as (kept & grab & Ht & _ & [E|E]); rewrite E; simpl.
  - eexists. split; [done|]. rewrite Hb.
    destruct (insert_spec [ch] (mkCaller (text c) (mkBurst (Some now) n w [] false None))) as [H1 H2];
      [apply empty_ok|]. split; [done|]. rewrite H2. unfold whole, held. simpl. by rewrite app_nil_r.
  - destruct (is_empty grab || retract).
    + assert (Hk : slice_to (str_len kept) (text c) = Some kept) by (rewrite Ht; apply slice_to_app).
      rewrite Hk. simpl. eexists. split; [done|]. rewrite Hb. simpl. split.
      * apply buffering_ok.
      * unfold whole, held. simpl. by rewrite app_nil_r, Ht, <- (assoc_L (++)).
    + eexists. split; [done|].
      destruct (insert_spec [ch] (mkCaller (text c) (clear_after_explicit_paste
        (begin_with_retro_grabbed grab now (burst c))))) as [H1 H2]; [apply cleared_ok|].
      split; [done|]. rewrite H2. unfold whole, held. simpl. by rewrite app_nil_r.
Qed.

Lemma ascii_char_spec retract ch now c :
  burst_ok (burst c) →
  ∃ c', ascii_char retract ch now c = Some c' ∧ burst_ok (burst c') ∧ whole c' = whole c ++ [ch].
Proof.
  intros Hb. unfold ascii_char. destruct (tick_spec now c Hb) as (Hb1 & <- & Hfresh).
  destruct (tick now c) as [tx b]. simpl in *. unfold on_plain_char, note_plain_char.
  cbn [active pending_first_char last_plain_char_time consecutive_plain_char_burst buffer burst_window_until].
  set (n := match last_plain_char_time b with Some _ => _ | None => _ end).
  destruct (active b) eqn:Ha.
  - eexists. split; [done|]. simpl. rewrite (active_pending_none b) by done.
    split; [apply buffering_ok|]. unfold whole, held. simpl.
    rewrite (active_pending_none b) by done. by rewrite !app_nil_r, (assoc_L (++)).
  - assert (Hbuf := inactive_buffer b Hb1 Ha). destruct (pending_first_char b) as [[h t]|] eqn:Hp.
    + rewrite (proj2 (N.leb_le _ _)) by by eapply Hfresh. eexists. split; [done|].
      split; [apply buffering_ok|]. unfold whole, held. simpl. rewrite Hp, Hbuf. simpl. by rewrite <- (assoc_L (++)).
    + rewrite Hbuf. assert (Hw : whole (mkCaller tx b) = tx).
      { unfold whole, held. simpl. by rewrite Hp, Hbuf, app_nil_r. }
      rewrite Hw. destruct (PASTE_BURST_MIN_CHARS <=? n).
      * by apply (begin_buffer_spec retract ch (n - 1) now
                    (mkCaller tx (mkBurst (Some now) n (burst_window_until b) [] false None)) n
                    (burst_window_until b)).
      * eexists. split; [done|]. split; [|done]. split; simpl; [done| |by eexists].
        by intros ? ? [= <- <-].
Qed.

Lemma other_char_spec retract ch now c :
  burst_ok (burst c) →
  ∃ c', other_char retract ch now c = Some c' ∧ burst_ok (burst c') ∧ whole c' = whole c ++ [ch].
Proof.
  intros Hb. unfold other_char. destruct (tick_spec now c Hb) as (Hb1 & <- & _).
  destruct (tick now c) as [tx b]. simpl in *. unfold try_append_char_if_active.
  fold (is_active_internal b). rewrite internal_is_active by done. destruct (active b) eqn:Ha.
  - eexists. split; [done|]. assert (Hp := active_pending_none b Hb1 Ha).
    unfold append_char_to_buffer, whole, held. simpl. rewrite Ha, Hp.
    destruct (ok_time b Hb1) as [t ->]; [unfold is_active; by rewrite internal_is_active, Ha|].
    split; [apply buffering_ok|]. by rewrite !app_nil_r, (assoc_L (++)).
  - destruct (flush_modified_spec (mkCaller tx b) Hb1) as (H1 & H2 & H3 & H4).
    destruct (flush_modified (mkCaller tx b)) as [tx' b']. simpl in *.
    apply orb_false_iff in H4 as [H4 H5]. rewrite internal_is_active in H4 by done.
    destruct (pending_first_char b') as [|] eqn:Hp; [done|].
    assert (Hbuf := inactive_buffer b' H1 H4). unfold on_plain_char_no_hold, note_plain_char. simpl.
    rewrite H4, Hbuf, Hp. rewrite <- H2.
    set (n := match last_plain_char_time b' with Some _ => _ | None => _ end).
    destruct (PASTE_BURST_MIN_CHARS <=? n).
    + by apply (begin_buffer_spec retract ch (n - 1) now
                  (mkCaller tx' (mkBurst (Some now) n (burst_window_until b') [] false None)) n
                  (burst_window_until b')).
    + eexists. split; [done|].
      destruct (insert_spec [ch] (mkCaller tx' (mkBurst (Some now) n (burst_window_until b') [] false None)))
        as [H6 H7]; [apply empty_ok|].
      split; [done|]. rewrite H7. unfold whole, held. simpl. by rewrite app_nil_r.
Qed.

Lemma enter_spec now c :
  burst_ok (burst c) → burst_ok (burst (enter now c)) ∧ whole (enter now c) = whole c ++ [LF].
Proof.
  intros Hb. unfold enter. destruct (tick_spec now c Hb) as (Hb1 & <- & _).
  destruct (tick now c) as [tx b]. simpl in *. unfold append_newline_if_active.
  destruct (is_active b) eqn:Ha; simpl.
  - destruct (ok_time b Hb1 Ha) as [t ->]. split; [apply buffering_ok|].
    unfold whole, held. simpl. destruct (pending_first_char b) as [[ch ?]|]; by rewrite ?app_nil_r, <- !(assoc_L (++)).
  - split; [done|]. apply orb_false_iff in Ha as [H4 H5]. rewrite internal_is_active in H4 by done.
    unfold whole, held. simpl. destruct (pending_first_char b); [done|].
    by rewrite (inactive_buffer b), !app_nil_r.
Qed.

Lemma other_key_spec now c :
  burst_ok (burst c) → burst_ok (burst (other_key now c)) ∧ whole (other_key now c) = whole c.
Proof.
  intros Hb. unfold other_key. destruct (tick_spec now c Hb) as (Hb1 & <- & _).
  destruct (flush_modified_spec (tick now c) Hb1) as (H1 & H2 & H3 & _).
  apply app_nil in H3 as [H3 _]. unfold clear_window_after_non_char, whole at 1, held. simpl. rewrite H3.
  split; [apply empty_ok|]. by rewrite !app_nil_r.
Qed.

Lemma on_key_spec now k c :
  burst_ok (burst c) →
  ∃ c', on_key now k c = Some c' ∧ burst_ok (burst c') ∧ whole c' = whole c ++ typed k.
Proof.
  intros Hb. destruct k as [[] retract ch| | |]; simpl.
  - by apply ascii_char_spec.
  - by apply other_char_spec.
  - eexists. split; [done|]. by apply enter_spec.
  - eexists. split; [done|]. rewrite app_nil_r. by apply other_key_spec.
  - eexists. split; [done|]. rewrite app_nil_r. destruct (tick_spec now c Hb) as (?&?&_). done.
Qed.

Lemma on_keys_spec ks c :
  burst_ok (burst c) →
  ∃ c', on_keys ks c = Some c' ∧ burst_ok (burst c') ∧
    whole c' = whole c ++ concat (map (λ tk, typed tk.2) ks).
Proof.
  revert c. induction ks as [|[now k] ks IH]; intros c Hb; simpl.
  { exists c. by rewrite app_nil_r. }
  destruct (on_key_spec now k c Hb) as (c1 & -> & Hb1 & Hw1). simpl.
  destruct (IH c1 Hb1) as (c2 & -> & Hb2 & Hw2). exists c2. split_and!; [done|done|].
  by rewrite Hw2, Hw1, <- (assoc_L (++)).
Qed.

(** Once the timeout is over, a tick releases what is held. *)
Lemma tick_releases now t c :
  burst_ok (burst c) → last_plain_char_time (burst c) = Some t →
  t + (PASTE_BURST_ACTIVE_IDLE_TIMEOUT windows `max` PASTE_BURST_CHAR_INTERVAL) < now →
  held (burst (tick now c)) = [].
Proof.
  destruct c as [tx b]. unfold tick, held. simpl. intros Hb Ht Hnow. unfold flush_if_due.
  rewrite internal_is_active, Ht by done. simpl.
  rewrite (proj2 (N.ltb_lt _ _)) by (unfold duration_since; destruct (active b); lia).
  destruct (active b) eqn:Ha; simpl; [done|].
  destruct (pending_first_char b) as [[ch ?]|] eqn:Hp; simpl; by rewrite ?Hp, (inactive_buffer b).
Qed.
End Machine.

(** Under the documented protocol, whatever keys arrive at whatever times, the
    paste-burst machine never panics and never loses, duplicates or reorders a typed
    character: the text, the buffered burst and the held character together are
    exactly what was typed.  (A caller that cannot take inserted text back is
    included.) *)
Theorem paste_burst_conserves windows (ks : list (Instant * key)) (start : rstring) :
  ∃ c, on_keys windows ks (mkCaller start default_burst) = Some c ∧
    whole c = start ++ concat (map (λ tk, typed tk.2) ks).
Proof.
  destruct (on_keys_spec windows ks (mkCaller start default_burst)) as (c & Hc & _ & Hw).
  { apply empty_ok. }
  exists c. split; [done|]. rewrite Hw. unfold whole, held. simpl. by rewrite app_nil_r.
Qed.

(** Nothing stays held: when the idle timeout has passed since the last plain
    character, one tick puts everything that was typed into the text. *)
Theorem paste_burst_releases windows (ks : list (Instant * key)) (start : rstring) c now :
  on_keys windows ks (mkCaller start default_burst) = Some c →
  (∀ t, last_plain_char_time (burst c) = Some t →
     t + (PASTE_BURST_ACTIVE_IDLE_TIMEOUT windows `max` PASTE_BURST_CHAR_INTERVAL) < now) →
  text (tick windows now c) = start ++ concat (map (λ tk, typed tk.2) ks).
Proof.
  intros Hc Ht. destruct (on_keys_spec windows ks (mkCaller start default_burst)) as (c' & Hc' & Hb & Hw).
  { apply empty_ok. }
  simplify_eq. destruct (tick_spec windows now c Hb) as (_ & Hwhole & _).
  assert (Hh : held (burst (tick windows now c)) = []).
  { destruct (last_plain_char_time (burst c)) as [t|] eqn:E.
    - eapply tick_releases; eauto.
    - assert (Ha : is_active (burst c) = false).
      { apply not_true_iff_false. intros Ha. destruct (ok_time _ Hb Ha). congruence. }
      apply orb_false_iff in Ha as [Hi Hp]. unfold tick, flush_if_due. rewrite E. simpl. unfold held.
      rewrite internal_is_active in Hi by done. rewrite (inactive_buffer _ Hb Hi).
      by destruct (pending_first_char (burst c)). }
  unfold whole in Hwhole at 1. rewrite Hh, app_nil_r in Hwhole. rewrite Hwhole, Hw.
  unfold whole, held. simpl. by rewrite app_nil_r.
Qed.

Definition sample_keys : list (Instant * key) :=
  [(from_millis 100, KChar true true 104); (from_millis 101, KChar true true 105);
   (from_millis 102, KEnter); (from_millis 103, KChar false true 233)].
Lemma paste_burst_releases_witness :
  text (tick true (from_millis 200)
          (default (mkCaller [] default_burst) (on_keys true sample_keys (mkCaller [] default_burst))))
  = [104; 105; LF; 233].
Proof.
  apply (paste_burst_releases true sample_keys []); [by vm_compute|].
  intros t Ht. assert (E : Some (from_millis 101) = Some t) by (rewrite <- Ht; by vm_compute).
  injection E as <-. by vm_compute.
Defined.
