(* ===== verification/ScrollState.v ===== *)
(** * Selection and scrolling of list menus

    Models [sofia-rs/tui/src/bottom_pane/scroll_state.rs].  Indices are [usize]: sums
    that may overflow are checked and [None] is the panic of the standard library. *)

From stdpp Require Import base list numbers.
From S2P Require Import Prelude Machine.

#[local] Open Scope N_scope.

Record ScrollState := mkScroll { selected_idx : option N; scroll_top : N }.

(** [+] on [usize], with overflow checks. *)
Definition checked_add (a b : N) : option N := if a + b <=? USIZE_MAX then Some (a + b) else None.

Definition new_scroll : ScrollState := mkScroll None 0.
Definition reset_scroll (s : ScrollState) : ScrollState := mkScroll None 0.

(** [clear_if_empty]: the state after it and whether the list is empty. *)
Definition clear_if_empty (l : N) (s : ScrollState) : ScrollState * bool :=
  if negb (l =? 0) then (s, false) else (mkScroll None 0, true).

(** Each method returns early when the list is empty. *)
Definition unless_empty (l : N) (s : ScrollState) (k : ScrollState → option ScrollState)
    : option ScrollState :=
  let '(s, empty) := clear_if_empty l s in if empty then Some s else k s.

Definition select (i : N) (s : ScrollState) : ScrollState := mkScroll (Some i) (scroll_top s).

Definition clamp_selection (l : N) (s : ScrollState) : option ScrollState :=
  unless_empty l s (λ s, Some (select (default 0 (selected_idx s) `min` (l - 1)) s)).

Definition move_up_wrap (l : N) (s : ScrollState) : option ScrollState :=
  unless_empty l s (λ s,
    Some (select (match selected_idx s with
                  | Some idx => if 0 <? idx then idx - 1 else l - 1
                  | None => 0
                  end) s)).

Definition move_down_wrap (l : N) (s : ScrollState) : option ScrollState :=
  unless_empty l s (λ s,
    match selected_idx s with
    | Some idx => next ← checked_add idx 1; Some (select (if next <? l then next else 0) s)
    | None => Some (select 0 s)
    end).

Definition ensure_visible (l visible_rows : N) (s : ScrollState) : option ScrollState :=
  if (l =? 0) || (visible_rows =? 0) then Some (mkScroll (selected_idx s) 0)
  else match selected_idx s with
       | Some sel =>
           if sel <? scroll_top s then Some (mkScroll (Some sel) sel)
           else
             end_row ← checked_add (scroll_top s) visible_rows;
             if end_row - 1 <? sel
             then sel' ← checked_add sel 1; Some (mkScroll (Some sel) (sel' - visible_rows))
             else Some s
       | None => Some (mkScroll None 0)
       end.

Definition page_up_clamped (l visible_rows : N) (s : ScrollState) : option ScrollState :=
  unless_empty l s (λ s,
    let step := visible_rows `max` 1 in
    let current := default 0 (selected_idx s) `min` (l - 1) in
    ensure_visible l visible_rows (select (current - step) s)).

Definition page_down_clamped (l visible_rows : N) (s : ScrollState) : option ScrollState :=
  unless_empty l s (λ s,
    let step := visible_rows `max` 1 in
    let current := default 0 (selected_idx s) `min` (l - 1) in
    ensure_visible l visible_rows (select (sat_add USIZE_MAX current step `min` (l - 1)) s)).

Definition jump_top (l visible_rows : N) (s : ScrollState) : option ScrollState :=
  unless_empty l s (λ s, ensure_visible l visible_rows (select 0 s)).
Definition jump_bottom (l visible_rows : N) (s : ScrollState) : option ScrollState :=
  unless_empty l s (λ s, ensure_visible l visible_rows (select (l - 1) s)).

(** ** Proofs *)
Inductive scroll_op :=
  | OpReset | OpClamp | OpUp | OpDown | OpPageUp (rows : N) | OpPageDown (rows : N) | OpTop (rows : N)
  | OpBottom (rows : N) | OpEnsure (rows : N).
Definition run_op (l : N) (o : scroll_op) (s : ScrollState) : option ScrollState :=
  match o with
  | OpReset => Some (reset_scroll s)
  | OpClamp => clamp_selection l s
  | OpUp => move_up_wrap l s
  | OpDown => move_down_wrap l s
  | OpPageUp rows => page_up_clamped l rows s
  | OpPageDown rows => page_down_clamped l rows s
  | OpTop rows => jump_top l rows s
  | OpBottom rows => jump_bottom l rows s
  | OpEnsure rows => ensure_visible l rows s
  end.
Fixpoint run_ops (l : N) (os : list scroll_op) (s : ScrollState) : option ScrollState :=
  match os with [] => Some s | o :: os' => s' ← run_op l o s; run_ops l os' s' end.

Definition op_rows (o : scroll_op) : N :=
  match o with
  | OpPageUp r | OpPageDown r | OpTop r | OpBottom r | OpEnsure r => r
  | _ => 0
  end.

(** The selection and the first row are rows of the list. *)
Definition scroll_ok (l : N) (s : ScrollState) : Prop :=
  (∀ i, selected_idx s = Some i → i < l) ∧ (scroll_top s = 0 ∨ scroll_top s < l).

(** The selected row is in the window. *)
Definition selection_visible (rows : N) (s : ScrollState) : Prop :=
  ∀ i, selected_idx s = Some i → scroll_top s <= i < scroll_top s + rows.

Lemma checked_add_ok a b : a + b <= USIZE_MAX → checked_add a b = Some (a + b).
Proof. intros H. unfold checked_add. by rewrite (proj2 (N.leb_le _ _)). Qed.

Lemma ensure_visible_ok l rows s :
  l + rows <= USIZE_MAX → scroll_ok l s →
  ∃ s', ensure_visible l rows s = Some s' ∧ scroll_ok l s' ∧ selected_idx s' = selected_idx s ∧
    (0 < rows → selection_visible rows s').
Proof.
  intros Hmax [Hsel Htop]. unfold ensure_visible, scroll_ok, selection_visible. destruct s as [[i|] top]; simpl in *.
  - specialize (Hsel i eq_refl). destruct (N.eqb_spec l 0); [lia|]. destruct (N.eqb_spec rows 0); simpl.
    { eexists. split; [done|]. simpl. split_and!; naive_solver lia. }
    destruct (N.ltb_spec i top); simpl.
    { eexists. split; [done|]. simpl. split_and!; naive_solver lia. }
    rewrite (checked_add_ok top rows), (checked_add_ok i 1) by lia. cbn [mbind option_bind].
    destruct (N.ltb_spec (top + rows - 1) i).
    + eexists. split; [done|]. simpl. split_and!; naive_solver lia.
    + eexists. split; [done|]. simpl. split_and!; naive_solver lia.
  - destruct (_ || _); eexists; (split; [done|]); simpl; split_and!; try done; by left.
Qed.

Lemma select_ok l i s : scroll_ok l s → i < l → scroll_ok l (select i s).
Proof. intros [_ ?] ?. split; simpl; [|done]. naive_solver. Qed.

(** An operation on a list that is not empty. *)
Lemma unless_empty_ok l s k :
  (0 < l → ∃ s', k s = Some s' ∧ scroll_ok l s') → ∃ s', unless_empty l s k = Some s' ∧ scroll_ok l s'.
Proof.
  intros Hk. unfold unless_empty, clear_if_empty. destruct (N.eqb_spec l 0); simpl; [|apply Hk; lia].
  eexists. split; [done|]. split; simpl; [done|by left].
Qed.
(** One that selects a row and scrolls to it. *)
Lemma select_visible_ok l rows i s :
  l + rows <= USIZE_MAX → scroll_ok l s → i < l →
  ∃ s', ensure_visible l rows (select i s) = Some s' ∧ scroll_ok l s'.
Proof.
  intros. destruct (ensure_visible_ok l rows (select i s)) as (s' & ? & ? & _); [done|by apply select_ok|].
  eauto.
Qed.

Lemma run_op_ok l o s :
  l + op_rows o <= USIZE_MAX → scroll_ok l s → ∃ s', run_op l o s = Some s' ∧ scroll_ok l s'.
Proof.
  intros Hmax Hok. destruct o; simpl in *; try (apply unless_empty_ok; intros Hl);
    try (apply select_visible_ok; [done|done|lia]).
  - eexists. split; [done|]. split; simpl; [done|by left].
  - eexists. split; [done|]. apply select_ok; [done|lia].
  - eexists. split; [done|]. apply select_ok; [done|]. destruct Hok as [Hs _].
    destruct (selected_idx s) as [i|]; [|lia]. specialize (Hs i eq_refl). destruct (N.ltb_spec 0 i); lia.
  - destruct Hok as [Hs ?]. destruct (selected_idx s) as [i|] eqn:E.
    + specialize (Hs i eq_refl). rewrite checked_add_ok by lia. cbn [mbind option_bind]. eexists. split; [done|].
      split; simpl; [|done]. intros ? [= <-]. destruct (N.ltb_spec (i + 1) l); lia.
    + eexists. split; [done|]. split; simpl; [|done]. intros ? [= <-]. lia.
  - destruct (ensure_visible_ok l rows s Hmax Hok) as (s' & ? & ? & _). eauto.
Qed.

Lemma run_ops_ok l os s :
  (∀ o, o ∈ os → l + op_rows o <= USIZE_MAX) → scroll_ok l s →
  ∃ s', run_ops l os s = Some s' ∧ scroll_ok l s'.
Proof.
  revert s. induction os as [|o os IH]; intros s Hmax Hok; simpl; [eauto|].
  destruct (run_op_ok l o s) as (s1 & -> & Hok1); [apply Hmax; by left|done|]. simpl.
  apply IH; [|done]. intros. apply Hmax. by right.
Qed.

(** However the user navigates a list of [l] rows, no operation panics, the
    selection and the first row shown stay rows of the list, and scrolling to the
    selection shows it, as long as the list and the window fit a [usize]. *)
Theorem scroll_selection_in_range l rows os :
  l + rows <= USIZE_MAX → 0 < rows → (∀ o, o ∈ os → l + op_rows o <= USIZE_MAX) →
  ∃ s s', run_ops l os new_scroll = Some s ∧ scroll_ok l s ∧
    ensure_visible l rows s = Some s' ∧ scroll_ok l s' ∧
    selected_idx s' = selected_idx s ∧ selection_visible rows s'.
Proof.
  intros Hmax Hrows Hops. destruct (run_ops_ok l os new_scroll Hops) as (s & Hs & Hok).
  { split; simpl; [done|by left]. }
  destruct (ensure_visible_ok l rows s Hmax Hok) as (s' & Hs' & Hok' & Hsel & Hvis).
  exists s, s'. auto 7.
Qed.
Lemma scroll_selection_in_range_witness :
  ∃ s s', run_ops 10 [OpClamp; OpUp; OpPageUp 4; OpDown] new_scroll = Some s ∧ scroll_ok 10 s ∧
    ensure_visible 10 4 s = Some s' ∧ scroll_ok 10 s' ∧
    selected_idx s' = selected_idx s ∧ selection_visible 4 s'.
Proof.
  apply (scroll_selection_in_range 10 4); [by vm_compute|done|].
  intros o Ho. repeat (apply elem_of_cons in Ho as [->|Ho]; [by vm_compute|]). by apply elem_of_nil in Ho.
Defined.
