(* ===== verification/CommandSafety.v ===== *)
(** * Dangerous commands

    Models [sofia-rs/shell-command/src/command_safety/is_dangerous_command.rs] and
    [windows_dangerous_commands.rs]: the classifier that decides whether a command
    may run without asking, looking through [sudo], [env], [trap] and shell scripts.
    The shell grammar (tree-sitter, behind [parse_shell_lc_literal_commands]),
    [shlex], the [regex] and the [url] crates are parameters. *)

From stdpp Require Import base list numbers strings.
From S2P Require Import Prelude ExecRule Truncate.

(** ** Strings *)

(** [str::split] on the characters that satisfy [P]. *)
Fixpoint split_by (P : N → bool) (s : rstring) : list rstring :=
  match s with
  | [] => [[]]
  | x :: s' =>
      if P x then [] :: split_by P s'
      else match split_by P s' with [] => [[x]] | p :: ps => (x :: p) :: ps end
  end.
(** [str::rsplit(P).next()]. *)
Definition last_piece (P : N → bool) (s : rstring) : rstring := default [] (last (split_by P s)).
(** [str::trim_matches(c)]. *)
Definition trim_matches (c : N) (s : rstring) : rstring :=
  drop_end_while (N.eqb c) (drop_while (N.eqb c) s).
(** [str::eq_ignore_ascii_case]. *)
Definition eq_ignore_ascii_case (s t : rstring) : bool :=
  str_eqb (to_ascii_lowercase s) (to_ascii_lowercase t).
Definition is_ascii_alphabetic (c : N) : bool :=
  ((65 <=? c) && (c <=? 90) || (97 <=? c) && (c <=? 122))%N.
(** [matches!(s, "a" | "b" | ...)]. *)
Definition one_of (s : rstring) (alternatives : list rstring) : bool :=
  existsb (str_eqb s) alternatives.

(** ** [windows_dangerous_commands.rs] *)
Section Windows.
Context (shlex_split : rstring → option (list rstring)).
(** The first group of the regular expression of [looks_like_url]. *)
Context (url_capture : rstring → option rstring).
(** [Url::parse(s).ok()] and its [scheme]. *)
Context (url_scheme : rstring → option rstring).

Definition is_path_separator (c : N) : bool := (c =? 47)%N || (c =? 92)%N.

(** A drive letter in front of the name: [[drive, b':', ..]]. *)
Definition strip_drive (name : rstring) : rstring :=
  match name with
  | drive :: colon :: rest => if is_ascii_alphabetic drive && (colon =? 58)%N then rest else name
  | _ => name
  end.

Definition executable_basename (exe : rstring) : option rstring :=
  let name := last_piece is_path_separator exe in
  if is_empty name then None
  else
    let name := strip_drive name in
    if negb (is_empty name) then Some (to_ascii_lowercase name) else None.

Definition is_powershell_executable (exe : rstring) : bool :=
  is_some_and (executable_basename exe)
    (λ name, one_of name [str "powershell"; str "powershell.exe"; str "pwsh"; str "pwsh.exe"]).

Definition is_browser_executable (name : rstring) : bool :=
  one_of name [str "chrome"; str "chrome.exe"; str "msedge"; str "msedge.exe"; str "firefox";
               str "firefox.exe"; str "iexplore"; str "iexplore.exe"].

Definition looks_like_url (token : rstring) : bool :=
  let lowercase_token := to_ascii_lowercase token in
  let start :=
    match find_sub (str "https://") lowercase_token with
    | Some i => Some i
    | None => find_sub (str "http://") lowercase_token
    end in
  let urlish := match start with Some i => drop i token | None => token end in
  let candidate := default urlish (url_capture urlish) in
  is_some_and (url_scheme candidate) (λ scheme, one_of scheme [str "http"; str "https"]).

Definition args_have_url (args : list rstring) : bool := existsb looks_like_url args.

Definition has_flag_cmd (flag : rstring) (args : list rstring) : bool :=
  existsb (λ a, eq_ignore_ascii_case a flag) args.
Definition has_force_flag_cmd : list rstring → bool := has_flag_cmd (str "/f").
Definition has_recursive_flag_cmd : list rstring → bool := has_flag_cmd (str "/s").
Definition has_quiet_flag_cmd : list rstring → bool := has_flag_cmd (str "/q").

(** *** PowerShell *)
Definition DELETE_CMDLETS : list rstring :=
  [str "remove-item"; str "ri"; str "rm"; str "del"; str "erase"; str "rd"; str "rmdir"].
Definition is_seg_sep (c : N) : bool :=
  existsb (N.eqb c) [59; 124; 38; 10; 13; 9]%N.
Definition is_soft_sep (c : N) : bool :=
  existsb (N.eqb c) [123; 125; 40; 41; 91; 93; 44; 59]%N.

(** [segments.last_mut()] gets the trimmed word, when it is not empty. *)
Definition push_word (segments : list (list rstring)) (cur : rstring) : list (list rstring) :=
  let s := trim cur in
  if is_empty s then segments else update_last (λ seg, seg ++ [s]) segments.

(** The inner loop over the characters of one token: the segments and [cur]. *)
Fixpoint segment_chars (tok : rstring) (segments : list (list rstring)) (cur : rstring)
    : list (list rstring) * rstring :=
  match tok with
  | [] => (segments, cur)
  | ch :: tok' =>
      if is_seg_sep ch then
        let segments := push_word segments cur in
        let segments :=
          match last segments with
          | Some seg => if negb (is_empty seg) then segments ++ [[]] else segments
          | None => segments
          end in
        segment_chars tok' segments []
      else segment_chars tok' segments (cur ++ [ch])
  end.
Fixpoint build_segments (tokens : list rstring) (segments : list (list rstring))
    : list (list rstring) :=
  match tokens with
  | [] => segments
  | tok :: tokens' =>
      let '(segments, cur) := segment_chars tok segments [] in
      build_segments tokens' (push_word segments cur)
  end.

Definition segment_atoms (seg : list rstring) : list rstring :=
  List.filter (λ s, negb (is_empty s)) (map trim (seg ≫= split_by is_soft_sep)).
Definition is_delete_atom (a : rstring) : bool := existsb (eq_ignore_ascii_case a) DELETE_CMDLETS.
Definition is_force_atom (a : rstring) : bool :=
  eq_ignore_ascii_case a (str "-force") ||
  is_some_and (slice_to 7 a) (λ p, eq_ignore_ascii_case p (str "-force:")).

Definition has_force_delete_cmdlet (tokens : list rstring) : bool :=
  existsb (λ seg, let atoms := segment_atoms seg in
                  existsb is_delete_atom atoms && existsb is_force_atom atoms)
    (build_segments tokens [[]]).

Definition is_dangerous_powershell_words (words : list rstring) : bool :=
  let tokens_lc := map (λ t, to_ascii_lowercase (trim_matches 34 (trim_matches 39 t))) words in
  let has_url := args_have_url words in
  if has_url &&
     existsb (λ t, one_of t [str "start-process"; str "start"; str "saps"; str "invoke-item"; str "ii"] ||
                   contains (str "start-process") t || contains (str "invoke-item") t) tokens_lc
  then true
  else if has_url &&
          existsb (λ t, contains (str "shellexecute") t || contains (str "shell.application") t) tokens_lc
  then true
  else
    let by_first :=
      match head tokens_lc with
      | Some first =>
          str_eqb first (str "rundll32") &&
            existsb (contains (str "url.dll,fileprotocolhandler")) tokens_lc && has_url ||
          str_eqb first (str "mshta") && has_url ||
          is_browser_executable first && has_url ||
          one_of first [str "explorer"; str "explorer.exe"] && has_url
      | None => false
      end in
    if by_first then true else has_force_delete_cmdlet tokens_lc.

(** [None]: not an invocation that carries a script. *)
Fixpoint parse_powershell_invocation (args : list rstring) : option (list rstring) :=
  match args with
  | [] => None
  | arg :: rest =>
      let lower := to_ascii_lowercase arg in
      if one_of lower [str "-command"; str "/command"; str "-c"] then
        match rest with
        | [script] => shlex_split script
        | _ => None
        end
      else if starts_with (str "-command:") lower || starts_with (str "/command:") lower then
        if is_empty rest then '(_, script) ← split_once 58 arg; shlex_split script else None
      else if starts_with (str "-") lower then parse_powershell_invocation rest
      else Some args
  end.

Definition is_dangerous_powershell (command : list rstring) : bool :=
  match command with
  | [] => false
  | exe :: rest =>
      if negb (is_powershell_executable exe) then false
      else match parse_powershell_invocation rest with
           | None => false
           | Some tokens => is_dangerous_powershell_words tokens
           end
  end.

(** *** [cmd.exe] *)

(** The loop over [char_indices]: the parts before [start], and the characters from
    [start] on. *)
Fixpoint split_operators_loop (token : rstring) (current : rstring) : list rstring :=
  match token with
  | [] => if is_empty current then [] else [current]
  | ch :: rest =>
      if (ch =? 38)%N || (ch =? 124)%N then
        (if is_empty current then [] else [current]) ++
        match rest with
        | next :: rest' =>
            if (next =? ch)%N then [ch; next] :: split_operators_loop rest' []
            else [ch] :: split_operators_loop rest []
        | [] => [[ch]]
        end
      else split_operators_loop rest (current ++ [ch])
  end.
Definition split_embedded_cmd_operators (token : rstring) : list rstring :=
  List.filter (λ s, negb (is_empty (trim s))) (split_operators_loop token []).

(** The options before the body: [None] when an unknown token comes first. *)
Fixpoint cmd_body (args : list rstring) : option (list rstring) :=
  match args with
  | [] => Some []
  | arg :: rest =>
      let lower := to_ascii_lowercase arg in
      if one_of lower [str "/c"; str "/r"; str "-c"] then Some rest
      else if starts_with (str "/") lower then cmd_body rest
      else None
  end.

(** [[T]::split] of a vector. *)
Fixpoint split_list (P : rstring → bool) (l : list rstring) : list (list rstring) :=
  match l with
  | [] => [[]]
  | x :: l' =>
      if P x then [] :: split_list P l'
      else match split_list P l' with [] => [[x]] | seg :: segs => (x :: seg) :: segs end
  end.
Definition CMD_SEPARATORS : list rstring := [str "&"; str "&&"; str "|"; str "||"].

Definition is_dangerous_cmd_segment (segment : list rstring) : bool :=
  match segment with
  | [] => false
  | cmd :: _ =>
      eq_ignore_ascii_case cmd (str "start") && args_have_url segment ||
      (eq_ignore_ascii_case cmd (str "del") || eq_ignore_ascii_case cmd (str "erase")) &&
        has_force_flag_cmd segment ||
      (eq_ignore_ascii_case cmd (str "rd") || eq_ignore_ascii_case cmd (str "rmdir")) &&
        has_recursive_flag_cmd segment && has_quiet_flag_cmd segment
  end.

Definition is_dangerous_cmd (command : list rstring) : bool :=
  match command with
  | [] => false
  | exe :: rest =>
      match executable_basename exe with
      | None => false
      | Some base =>
          if negb (str_eqb base (str "cmd")) && negb (str_eqb base (str "cmd.exe")) then false
          else match cmd_body rest with
               | None | Some [] => false
               | Some remaining =>
                   let cmd_tokens :=
                     match remaining with
                     | [only] => default [only] (shlex_split only)
                     | _ => remaining
                     end in
                   let tokens := cmd_tokens ≫= split_embedded_cmd_operators in
                   existsb is_dangerous_cmd_segment
                     (split_list (λ t, one_of t CMD_SEPARATORS) tokens)
               end
      end
  end.

Definition is_direct_gui_launch (command : list rstring) : bool :=
  match command with
  | [] => false
  | exe :: rest =>
      match executable_basename exe with
      | None => false
      | Some base =>
          one_of base [str "explorer"; str "explorer.exe"] && args_have_url rest ||
          one_of base [str "mshta"; str "mshta.exe"] && args_have_url rest ||
          (str_eqb base (str "rundll32") || str_eqb base (str "rundll32.exe")) &&
            existsb (λ t, contains (str "url.dll,fileprotocolhandler") (to_ascii_lowercase t)) rest &&
            args_have_url rest ||
          is_browser_executable base && args_have_url rest
      end
  end.

Definition is_dangerous_command_windows (command : list rstring) : bool :=
  is_dangerous_powershell command || is_dangerous_cmd command || is_direct_gui_launch command.

(** ** [is_dangerous_command.rs] *)
Context (parse_shell_lc_literal_commands : list rstring → option (list (list rstring))).

Inductive DangerousCommandPlatform := Posix | Windows.
Inductive DangerousCommandMatch := ForcedRm | OtherMatch.

Definition MAX_DANGEROUS_COMMAND_WRAPPER_DEPTH : nat := 8.

Definition executable_name_lookup_key (raw : rstring) (platform : DangerousCommandPlatform)
    : option rstring :=
  match platform with
  | Posix =>
      let name := last_piece (N.eqb 47) raw in if is_empty name then None else Some name
  | Windows =>
      let name := last_piece is_path_separator raw in
      if is_empty name then None
      else
        let name := to_ascii_lowercase (strip_drive name) in
        match omap (λ suffix, strip_suffix suffix name) WINDOWS_EXECUTABLE_SUFFIXES with
        | stripped :: _ => Some stripped
        | [] => if negb (is_empty name) then Some name else None
        end
  end.

Fixpoint take_while_not_dashes (args : list rstring) : list rstring :=
  match args with
  | [] => []
  | arg :: rest => if negb (str_eqb arg (str "--")) then arg :: take_while_not_dashes rest else []
  end.
Definition is_force_option (arg : rstring) : bool :=
  str_eqb arg (str "--force") ||
  is_some_and (strip_prefix (str "-") arg)
    (λ flags, negb (starts_with (str "-") flags) && has_char 102 flags).
Definition rm_args_include_force_option (args : list rstring) : bool :=
  existsb is_force_option (take_while_not_dashes args).

(** What [env] runs: the arguments after options and assignments.  The loop of
    [dangerous_command_match_for_env], as the remaining slice. *)
Definition is_env_prefix (argument : rstring) : bool :=
  one_of argument [str "-i"; str "--ignore-environment"] ||
  is_some_and (split_once 61 argument)
    (λ nv, negb (is_empty (fst nv)) && negb (starts_with (str "-") (fst nv))).
Fixpoint env_command (args : list rstring) : list rstring :=
  match args with
  | [] => []
  | argument :: rest =>
      if str_eqb argument (str "--") then rest
      else if is_env_prefix argument then env_command rest
      else args
  end.

(** The shell command of a [trap] action. *)
Definition trap_command (args : list rstring) : option (list rstring) :=
  let args := match args with
              | a :: rest => if str_eqb a (str "--") then rest else args
              | [] => args
              end in
  action ← head args;
  if starts_with (str "-") action then None else Some [str "sh"; str "-c"; action].

(** [Iterator::find_map]. *)
Fixpoint find_map {A B} (f : A → option B) (l : list A) : option B :=
  match l with
  | [] => None
  | a :: l' => match f a with Some b => Some b | None => find_map f l' end
  end.

(** The functions below call [dangerous_command_match_with_depth] one level deeper;
    [deeper] is that call. *)
Definition dangerous_command_match_for_env
    (deeper : list rstring → option DangerousCommandMatch) (command : list rstring)
    : option DangerousCommandMatch := deeper (env_command (tail command)).

Definition dangerous_command_match_for_trap
    (deeper : list rstring → option DangerousCommandMatch) (command : list rstring)
    : option DangerousCommandMatch :=
  match trap_command (tail command) with Some c => deeper c | None => None end.

Definition dangerous_command_match_for_exec
    (deeper : list rstring → option DangerousCommandMatch) (platform : DangerousCommandPlatform)
    (command : list rstring) : option DangerousCommandMatch :=
  match head command ≫= λ c, executable_name_lookup_key c platform with
  | Some name =>
      if str_eqb name (str "rm") && rm_args_include_force_option (tail command) then Some ForcedRm
      else if str_eqb name (str "sudo") then deeper (tail command)
      else if str_eqb name (str "env") then dangerous_command_match_for_env deeper command
      else if str_eqb name (str "trap") then dangerous_command_match_for_trap deeper command
      else None
  | None => None
  end.

(** [dangerous_command_match_with_depth] with [left] levels left: at [0] the depth
    exceeds the maximum. *)
Fixpoint match_levels (platform : DangerousCommandPlatform) (left : nat) (command : list rstring)
    : option DangerousCommandMatch :=
  match left with
  | O => Some OtherMatch
  | S left' =>
      match dangerous_command_match_for_exec (match_levels platform left') platform command with
      | Some m => Some m
      | None =>
          match match parse_shell_lc_literal_commands command with
                | Some commands => find_map (match_levels platform left') commands
                | None => None
                end with
          | Some m => Some m
          | None =>
              match platform with
              | Windows => if is_dangerous_command_windows command then Some OtherMatch else None
              | Posix => None
              end
          end
      end
  end.

Definition dangerous_command_match_with_depth (command : list rstring) (wrapper_depth : nat)
    (platform : DangerousCommandPlatform) : option DangerousCommandMatch :=
  match_levels platform (MAX_DANGEROUS_COMMAND_WRAPPER_DEPTH + 1 - wrapper_depth) command.

Definition dangerous_command_match_for_platform (command : list rstring)
    (platform : DangerousCommandPlatform) : option DangerousCommandMatch :=
  dangerous_command_match_with_depth command 0 platform.

Definition dangerous_powershell_words_match (command : list rstring)
    (platform : DangerousCommandPlatform) : option DangerousCommandMatch :=
  match platform with
  | Windows => if is_dangerous_powershell_words command then Some OtherMatch else None
  | Posix => None
  end.
End Windows.
