(* ===== verification/CommandSafetySpec.v ===== *)
(** * Wrapping cannot hide a dangerous command

    The relation between a command and the commands it runs, and the theorem that
    the classifier of [CommandSafety.v] finds nothing exactly when no command that is
    run, through at most eight wrappers, is dangerous, and there are no deeper
    wrappers. *)

From stdpp Require Import base list numbers strings relations.
From S2P Require Import Prelude ExecRule CommandSafety.

#[local] Set Default Proof Using "Type*".

Section Spec.
Context (shlex_split : rstring → option (list rstring)) (url_capture url_scheme : rstring → option rstring).
Context (parse_literal : list rstring → option (list (list rstring))).
Context (platform : DangerousCommandPlatform).
Notation levels := (match_levels shlex_split url_capture url_scheme parse_literal platform).
Notation windows_dangerous := (is_dangerous_command_windows shlex_split url_capture url_scheme).

Definition named (name : rstring) (command : list rstring) : Prop :=
  (head command ≫= λ c, executable_name_lookup_key c platform) = Some name.

(** One wrapper: what a command runs. *)
Inductive runs (command : list rstring) : list rstring → Prop :=
  | runs_sudo : named (str "sudo") command → runs command (tail command)
  | runs_env : named (str "env") command → runs command (env_command (tail command))
  | runs_trap inner : named (str "trap") command → trap_command (tail command) = Some inner →
      runs command inner
  | runs_script commands inner : parse_literal command = Some commands → inner ∈ commands →
      runs command inner.

(** A command that is dangerous by itself. *)
Definition forced_rm (command : list rstring) : Prop :=
  named (str "rm") command ∧ rm_args_include_force_option (tail command) = true.
Definition dangerous (command : list rstring) : Prop :=
  forced_rm command ∨ (platform = Windows ∧ windows_dangerous command = true).

Lemma find_map_None {A B} (f : A → option B) l : find_map f l = None ↔ ∀ a, a ∈ l → f a = None.
Proof.
  induction l as [|a l IH]; simpl.
  - split; [|done]. by intros _ ? ?%elem_of_nil.
  - setoid_rewrite elem_of_cons. destruct (f a) eqn:E; naive_solver.
Qed.
Lemma find_map_Some {A B} (f : A → option B) l b :
  find_map f l = Some b → ∃ a, a ∈ l ∧ f a = Some b.
Proof.
  induction l as [|a l IH]; simpl; [done|]. setoid_rewrite elem_of_cons.
  destruct (f a) eqn:E; [naive_solver|]. intros (x & ? & ?)%IH. eauto.
Qed.

(** The dispatch on the name of the program. *)
Lemma for_exec_cases deeper command m :
  dangerous_command_match_for_exec deeper platform command = Some m →
  (m = ForcedRm ∧ forced_rm command) ∨ ∃ inner, runs command inner ∧ deeper inner = Some m.
Proof.
  unfold dangerous_command_match_for_exec.
  destruct (head command ≫= _) as [name|] eqn:Hn; [|done].
  destruct (str_eqb name (str "rm") && _) eqn:Hrm.
  { apply andb_true_iff in Hrm as [->%bool_decide_eq_true ?]. intros [= <-]. by left. }
  destruct (str_eqb name (str "sudo")) eqn:Hsudo.
  { apply bool_decide_eq_true in Hsudo as ->. intros. right. eexists. split; [by apply runs_sudo|done]. }
  destruct (str_eqb name (str "env")) eqn:Henv.
  { apply bool_decide_eq_true in Henv as ->. intros. right. eexists. split; [by apply runs_env|done]. }
  destruct (str_eqb name (str "trap")) eqn:Htrap; [|done].
  apply bool_decide_eq_true in Htrap as ->. unfold dangerous_command_match_for_trap.
  destruct (trap_command (tail command)) eqn:E; [|done]. intros. right.
  eexists. split; [by eapply runs_trap|done].
Qed.

Lemma for_exec_None deeper command :
  dangerous_command_match_for_exec deeper platform command = None →
  ¬ forced_rm command ∧
  (named (str "sudo") command → deeper (tail command) = None) ∧
  (named (str "env") command → deeper (env_command (tail command)) = None) ∧
  (∀ inner, named (str "trap") command → trap_command (tail command) = Some inner → deeper inner = None).
Proof.
  unfold dangerous_command_match_for_exec, forced_rm, named. intros H. split_and!.
  - intros [Hn Hf]. rewrite Hn in H. by rewrite Hf in H.
  - intros Hn. by rewrite Hn in H.
  - intros Hn. by rewrite Hn in H.
  - intros inner Hn Ht. rewrite Hn in H. simpl in H. unfold dangerous_command_match_for_trap in H.
    by rewrite Ht in H.
Qed.

Lemma levels_S left command :
  levels (S left) command =
  match dangerous_command_match_for_exec (levels left) platform command with
  | Some m => Some m
  | None =>
      match match parse_literal command with
            | Some commands => find_map (levels left) commands | None => None end with
      | Some m => Some m
      | None => match platform with
                | Windows => if windows_dangerous command then Some OtherMatch else None
                | Posix => None
                end
      end
  end.
Proof. done. Qed.

Lemma levels_None left command :
  levels left command = None →
  ∃ left', left = S left' ∧ ¬ dangerous command ∧ ∀ inner, runs command inner → levels left' inner = None.
Proof.
  destruct left as [|left]; [done|]. rewrite levels_S.
  destruct (dangerous_command_match_for_exec _ _ _) eqn:He; [done|].
  destruct (for_exec_None _ _ He) as (Hrm & Hsudo & Henv & Htrap).
  intros H. exists left. split; [done|].
  assert (Hp : ∀ commands, parse_literal command = Some commands → find_map (levels left) commands = None).
  { intros commands E. rewrite E in H. by destruct (find_map _ commands). }
  split.
  - intros [?|[-> Hw]]; [done|]. rewrite Hw in H.
    destruct (parse_literal command) as [commands|]; [|done]. by rewrite Hp in H.
  - intros inner [?|?|? ? ?|commands ? Hc Hin]; eauto.
    eapply find_map_None; [by apply Hp|done].
Qed.

Lemma levels_Some left command m :
  levels left command = Some m →
  (∃ inner, nsteps runs left command inner) ∨
  ∃ n inner, n < left ∧ nsteps runs n command inner ∧ dangerous inner ∧
    (m = ForcedRm → forced_rm inner).
Proof.
  revert command. induction left as [|left IH]; intros command.
  { intros _. left. exists command. constructor. }
  assert (Hrec : ∀ inner, runs command inner → levels left inner = Some m →
    (∃ inner, nsteps runs (S left) command inner) ∨
    ∃ n inner, n < S left ∧ nsteps runs n command inner ∧ dangerous inner ∧ (m = ForcedRm → forced_rm inner)).
  { intros inner Hr [(i & Hi)|(n & i & Hn & Hi & ?)]%IH.
    - left. exists i. by eapply nsteps_l.
    - right. exists (S n), i. split; [lia|]. split; [by eapply nsteps_l|done]. }
  rewrite levels_S. destruct (dangerous_command_match_for_exec _ _ _) eqn:He.
  { intros [= ->]. apply for_exec_cases in He as [[-> Hf]|(inner & Hr & Hl)]; [|by eapply Hrec].
    right. exists 0, command. split_and!; [lia|constructor|by left|done]. }
  destruct (match parse_literal command with Some _ => _ | None => _ end) eqn:Hp.
  { intros [= ->]. destruct (parse_literal command) as [commands|] eqn:Hc; [|done].
    apply find_map_Some in Hp as (inner & Hin & Hl). eapply Hrec; [by eapply runs_script|done]. }
  destruct platform eqn:Epl; [done|]. destruct (windows_dangerous command) eqn:Hw; [|done].
  intros [= <-]. right. exists 0, command. split_and!; [lia|constructor| |done]. right. done.
Qed.

Lemma levels_None_nsteps left command n inner :
  levels left command = None → nsteps runs n command inner → n < left ∧ ¬ dangerous inner.
Proof.
  revert left command. induction n as [|n IH]; intros left command Hl Hs.
  - inversion Hs; subst.
    apply levels_None in Hl as (left' & -> & ? & _). split; [lia|done].
  - inversion Hs as [|? ? mid ? Hr Hs']; subst.
    apply levels_None in Hl as (left' & -> & _ & Hd).
    destruct (IH left' mid (Hd _ Hr) Hs'). split; [lia|done].
Qed.

Lemma levels_None_iff left command :
  levels left command = None ↔
  ∀ n inner, nsteps runs n command inner → n < left ∧ ¬ dangerous inner.
Proof.
  split; [intros Hl n inner; by apply levels_None_nsteps|].
  intros H. destruct (levels left command) as [m|] eqn:E; [|done]. exfalso.
  apply levels_Some in E as [(inner & Hs)|(n & inner & _ & Hs & Hd & _)].
  - destruct (H _ _ Hs). lia.
  - by destruct (H _ _ Hs).
Qed.


(** The report of a forced [rm] is not a guess: one is run. *)
Lemma forced_rm_reported command :
  dangerous_command_match_for_platform shlex_split url_capture url_scheme parse_literal command platform
    = Some ForcedRm →
  (∃ n inner, nsteps runs n command inner ∧ forced_rm inner) ∨
  ∃ inner, nsteps runs (S MAX_DANGEROUS_COMMAND_WRAPPER_DEPTH) command inner.
Proof.
  intros [(inner & ?)|(n & inner & _ & ? & _ & Hf)]%levels_Some; [right|left]; eauto.
Qed.
End Spec.

(** ** Examples *)
Definition no_parser {A B} (_ : A) : option B := None.
Definition posix_match (command : list rstring) : option DangerousCommandMatch :=
  dangerous_command_match_for_platform no_parser no_parser no_parser no_parser command Posix.

Lemma classifier_examples :
  posix_match [str "sudo"; str "env"; str "A=b"; str "/bin/rm"; str "-rf"; str "x"] = Some ForcedRm ∧
  posix_match [str "rm"; str "--"; str "-f"] = None ∧
  posix_match (replicate 9 (str "sudo") ++ [str "ls"]) = Some OtherMatch ∧
  posix_match (replicate 8 (str "sudo") ++ [str "ls"]) = None.
Proof. by vm_compute. Qed.
