(* ===== verification/ShellDetect.v ===== *)
(** * Unix paths and the detection of shells

    [std::path::Path] on Unix, as far as the shell code uses it, and models of
    [detect_shell_type] ([sofia-rs/shell-command/src/shell_detect.rs]) and of
    [extract_powershell_command] ([powershell.rs]).  The parser of PowerShell scripts
    (tree-sitter) is a parameter where it is used. *)

From stdpp Require Import base list numbers strings.
From S2P Require Import Prelude ExecRule CommandSafety.

#[local] Arguments str : simpl never.

(** ** [std::path] on Unix *)
Inductive Component := RootDir | CurDir | ParentDir | Normal (name : rstring).

#[global] Instance Component_eq_dec : EqDecision Component.
Proof. solve_decision. Defined.

Definition SLASH : N := 47%N.

(** Empty pieces and [.] are skipped, a leading [.] of a relative path is not. *)
Definition piece_component (s : rstring) : option Component :=
  if is_empty s || str_eqb s (str ".") then None
  else Some (if str_eqb s (str "..") then ParentDir else Normal s).

Definition has_root (p : rstring) : bool := starts_with [SLASH] p.

Definition path_components (p : rstring) : list Component :=
  let pieces := split_on SLASH p in
  (if has_root p then [RootDir] else if bool_decide (head pieces = Some (str ".")) then [CurDir] else [])
  ++ omap piece_component pieces.

(** [PartialEq for Path] compares components. *)
Definition path_eqb (p q : rstring) : bool := bool_decide (path_components p = path_components q).

(** The components of [Path::parent]; [None] for a root and for the empty path. *)
Definition parent_components (p : rstring) : option (list Component) :=
  c ← last (path_components p);
  match c with RootDir => None | _ => Some (removelast (path_components p)) end.

Definition file_name_of (p : rstring) : option rstring :=
  c ← last (path_components p); match c with Normal name => Some name | _ => None end.

(** [Path::file_stem]: up to the last dot, unless that dot starts the name. *)
Definition file_stem (p : rstring) : option rstring :=
  name ← file_name_of p;
  Some (match rsplit_once DOT name with
        | Some (before, _) => if is_empty before then name else before
        | None => name
        end).

(** ** [detect_shell_type] *)
Inductive ShellType := Zsh | Bash | PowerShellType | Sh | CmdType.

Definition shell_of_name (s : rstring) : option ShellType :=
  if str_eqb s (str "zsh") then Some Zsh
  else if str_eqb s (str "sh") then Some Sh
  else if str_eqb s (str "cmd") then Some CmdType
  else if str_eqb s (str "bash") then Some Bash
  else if str_eqb s (str "pwsh") || str_eqb s (str "powershell") then Some PowerShellType
  else None.

(** The recursion, with fuel; the outer [None] is the end of the fuel. *)
Fixpoint detect_loop (fuel : nat) (shell_path : rstring) : option (option ShellType) :=
  match fuel with
  | O => None
  | S fuel' =>
      match shell_of_name shell_path with
      | Some t => Some (Some t)
      | None =>
          match file_stem shell_path with
          | Some shell_name =>
              if negb (path_eqb shell_name shell_path) then detect_loop fuel' shell_name
              else Some None
          | None => Some None
          end
      end
  end.

Definition detect_shell_type (shell_path : rstring) : option ShellType :=
  default None (detect_loop (S (length shell_path)) shell_path).

(** ** [extract_powershell_command] *)
Definition POWERSHELL_FLAGS : list rstring := [str "-nologo"; str "-noprofile"; str "-command"; str "-c"].

Fixpoint find_script (args : list rstring) : option rstring :=
  match args with
  | flag :: ((script :: _) as rest) =>
      if negb (one_of (to_ascii_lowercase flag) POWERSHELL_FLAGS) then None
      else if eq_ignore_ascii_case flag (str "-Command") || eq_ignore_ascii_case flag (str "-c")
      then Some script
      else find_script rest
  | _ => None
  end.

Definition extract_powershell_command (command : list rstring) : option (rstring * rstring) :=
  if length command <? 3 then None else
  match command with
  | [] => None
  | shell :: args =>
      match detect_shell_type shell with
      | Some PowerShellType => script ← find_script args; Some (shell, script)
      | _ => None
      end
  end.

(** ** Properties *)

(** Pieces of a split are no longer than the text. *)
Lemma join_piece_length c ps p : p ∈ ps → length p ≤ length (join [c] ps).
Proof.
  induction ps as [|q ps IH]; intros H; [by apply elem_of_nil in H|].
  apply elem_of_cons in H as [->|H].
  - destruct ps; [done|]. rewrite join_cons by done. rewrite length_app. lia.
  - rewrite join_cons by (intros ->; by apply elem_of_nil in H).
    rewrite !length_app. specialize (IH H). lia.
Qed.

Lemma split_on_length c s p : p ∈ split_on c s → length p ≤ length s.
Proof. intros H%(join_piece_length c). by rewrite join_split_on in H. Qed.

Lemma split_on_whole c s p : p ∈ split_on c s → length p = length s → p = s.
Proof.
  intros H. rewrite <- (join_split_on c s) at 1 2. generalize dependent (split_on c s). intros ps H.
  destruct ps as [|q [|q' ps]]; [by apply elem_of_nil in H|by apply list_elem_of_singleton in H as ->|].
  rewrite join_cons by done. rewrite !length_app. intros Hl. cbn [length] in Hl.
  apply elem_of_cons in H as [->|H]; [lia|]. apply (join_piece_length c) in H. lia.
Qed.

Lemma file_name_piece p name : file_name_of p = Some name → name ∈ split_on SLASH p.
Proof.
  unfold file_name_of. destruct (last (path_components p)) as [c|] eqn:E; [|done]. simpl.
  destruct c as [| | |n]; try done. intros [= ->].
  apply last_Some in E as [l E]. assert (H : Normal name ∈ path_components p).
  { rewrite E. apply elem_of_app. right. by apply list_elem_of_singleton. }
  unfold path_components in H. apply elem_of_app in H as [H|H].
  - destruct (has_root p); [by apply list_elem_of_singleton in H|].
    destruct (bool_decide _); [by apply list_elem_of_singleton in H|by apply elem_of_nil in H].
  - apply list_elem_of_omap in H as (s & Hs & Hc). unfold piece_component in Hc.
    destruct (_ || _); [done|]. destruct (str_eqb s _); by simplify_eq.
Qed.

Lemma rsplit_once_length c s a b : rsplit_once c s = Some (a, b) → length a < length s.
Proof.
  unfold rsplit_once. destruct (split_once c (reverse s)) as [[x y]|] eqn:E; simpl; [|done].
  intros [= <- <-]. rewrite length_reverse, <- (length_reverse s).
  revert x y E. induction (reverse s) as [|d t IH]; intros x y; simpl; [done|].
  destruct (d =? c)%N; [intros [= <- <-]; lia|].
  destruct (split_once c t) as [[x' y']|]; simpl; [|done]. intros [= <- <-].
  specialize (IH _ _ eq_refl). lia.
Qed.

Lemma file_stem_shorter p stem :
  file_stem p = Some stem → path_eqb stem p = false → length stem < length p.
Proof.
  unfold file_stem. destruct (file_name_of p) as [name|] eqn:E; [|done]. simpl.
  intros H Hne. injection H as Hstem. apply file_name_piece in E.
  pose proof (split_on_length _ _ _ E) as Hl.
  assert (Hs : length stem ≤ length name ∧ (length stem = length name → stem = name)).
  { destruct (rsplit_once DOT name) as [[before after]|] eqn:Er; [|by subst].
    apply rsplit_once_length in Er. destruct (is_empty before); subst; [done|]. split; lia. }
  destruct (decide (length stem = length p)) as [He|]; [|lia].
  assert (stem = name) by (apply Hs; lia). subst name.
  apply split_on_whole in E; [|done]. subst. unfold path_eqb in Hne. by rewrite bool_decide_true in Hne.
Qed.

Lemma detect_loop_total fuel p : length p < fuel → is_Some (detect_loop fuel p).
Proof.
  revert p. induction fuel as [|fuel IH]; intros p Hl; [lia|]. simpl.
  destruct (shell_of_name p); [done|]. destruct (file_stem p) as [stem|] eqn:Es; [|done].
  destruct (path_eqb stem p) eqn:Ee; [done|]. simpl. apply IH.
  pose proof (file_stem_shorter _ _ Es Ee). lia.
Qed.

Lemma detect_loop_more fuel fuel' p t :
  detect_loop fuel p = Some t → fuel ≤ fuel' → detect_loop fuel' p = Some t.
Proof.
  revert fuel' p. induction fuel as [|fuel IH]; intros fuel' p; [done|].
  intros H Hle. destruct fuel' as [|fuel']; [lia|]. simpl in *.
  destruct (shell_of_name p); [done|]. destruct (file_stem p); [|done].
  destruct (negb _); [|done]. apply IH; [done|lia].
Qed.

(** the detection of a shell from a path always ends: the recursion on file stems
    shortens the path, and the result satisfies the recursive equation of the code. *)
Theorem detect_shell_type_terminates shell_path :
  (∀ fuel, length shell_path < fuel → detect_loop fuel shell_path = Some (detect_shell_type shell_path)) ∧
  detect_shell_type shell_path =
    match shell_of_name shell_path with
    | Some t => Some t
    | None =>
        match file_stem shell_path with
        | Some shell_name =>
            if path_eqb shell_name shell_path then None else detect_shell_type shell_name
        | None => None
        end
    end.
Proof.
  assert (Hf : ∀ p fuel, length p < fuel → detect_loop fuel p = Some (detect_shell_type p)).
  { intros p fuel Hl. unfold detect_shell_type.
    destruct (detect_loop_total (S (length p)) p) as [t Ht]; [lia|]. rewrite Ht. simpl.
    by apply (detect_loop_more (S (length p))). }
  split; [apply Hf|].
  unfold detect_shell_type at 1. cbn [detect_loop]. destruct (shell_of_name shell_path); [done|].
  destruct (file_stem shell_path) as [stem|] eqn:Es; [|done].
  destruct (path_eqb stem shell_path) eqn:Ee; [done|]. simpl.
  rewrite Hf; [done|]. by apply file_stem_shorter.
Qed.

Lemma detect_examples :
  detect_shell_type (str "/bin/bash") = Some Bash ∧
  detect_shell_type (str "./pwsh.exe") = Some PowerShellType ∧
  detect_shell_type (str "/opt/zsh.old.bin") = Some Zsh ∧
  detect_shell_type (str "/bin/..") = None ∧
  detect_shell_type (str "bash/") = None ∧
  extract_powershell_command [str "pwsh"; str "-NoProfile"; str "-c"; str "ls"] = Some (str "pwsh", str "ls") ∧
  extract_powershell_command [str "pwsh"; str "-File"; str "-c"; str "ls"] = None.
Proof. by vm_compute. Qed.
