(* ===== verification/Permissions.v ===== *)
(** * Permissions

    The data of [sofia-rs/protocol/src/] that the approval of commands reads: approval
    policies ([protocol.rs]), sandbox permissions and permission profiles
    ([models.rs]), and file system policies ([permissions.rs]) with the question
    whether they allow writing everywhere. *)

From stdpp Require Import base list numbers strings.
From S2P Require Import Prelude.

(** ** Approval policies *)
Record GranularApprovalConfig := mkGranular {
  sandbox_approval : bool;
  granular_rules : bool;
  skill_approval : bool;
  request_permissions : bool;
  mcp_elicitations : bool;
}.
Definition allows_sandbox_approval (g : GranularApprovalConfig) : bool := sandbox_approval g.
Definition allows_rules_approval (g : GranularApprovalConfig) : bool := granular_rules g.

Inductive AskForApproval :=
| UnlessTrusted
| OnRequest
| Granular (granular_config : GranularApprovalConfig)
| Never.

Inductive SandboxPermissions := UseDefault | RequireEscalated | WithAdditionalPermissions.
Definition requests_sandbox_override (p : SandboxPermissions) : bool :=
  match p with UseDefault => false | _ => true end.

Definition requires_escalated_permissions (p : SandboxPermissions) : bool :=
  match p with RequireEscalated => true | _ => false end.

Inductive WindowsSandboxLevel := WindowsDisabled | RestrictedToken | Elevated.
Inductive NetworkSandboxPolicy := NetworkRestricted | NetworkEnabled.

(** ** Paths *)
Inductive PathConvention := PosixPaths | WindowsPaths.
#[global] Instance PathConvention_eq_dec : EqDecision PathConvention.
Proof. solve_decision. Defined.

(** [PathConvention::native]. *)
Definition native (windows : bool) : PathConvention := if windows then WindowsPaths else PosixPaths.

(** What the policies ask of a [PathUri]. *)
Class PathUriView (PathUri : Type) := {
  path_uri_eqb : PathUri → PathUri → bool;
  infer_path_convention : PathUri → option PathConvention;
  lexical_depth : PathUri → option nat;
  path_uri_parent : PathUri → option PathUri;
  path_uri_basename : PathUri → option rstring;
}.

(** ** File system policies *)
Inductive FileSystemAccessMode := Read | Write | Deny.
#[global] Instance FileSystemAccessMode_eq_dec : EqDecision FileSystemAccessMode.
Proof. solve_decision. Defined.
Definition can_write (a : FileSystemAccessMode) : bool := match a with Write => true | _ => false end.
(** The derived [PartialOrd] follows the declaration: [Read < Write < Deny]. *)
Definition access_rank (a : FileSystemAccessMode) : nat :=
  match a with Read => 0 | Write => 1 | Deny => 2 end.
Definition access_gtb (a b : FileSystemAccessMode) : bool := access_rank b <? access_rank a.

Inductive FileSystemSpecialPath :=
| Root
| Minimal
| ProjectRoots (subpath : option rstring)
| Tmpdir
| SlashTmp
| UnknownSpecial (path : rstring) (subpath : option rstring).

Inductive FileSystemSandboxEntryMissingPathBehavior := SkipMissing.
Inductive FileSystemSandboxKind := Restricted | Unrestricted | ExternalSandbox.

Section Policies.
Context {PathUri : Type} `{!PathUriView PathUri}.

Inductive FileSystemPath :=
| Path (path : PathUri)
| GlobPattern (pattern : rstring)
| Special (value : FileSystemSpecialPath).

Record FileSystemSandboxEntry := mkEntry {
  entry_path : FileSystemPath;
  entry_access : FileSystemAccessMode;
  missing_path_behavior : option FileSystemSandboxEntryMissingPathBehavior;
}.

Record FileSystemSandboxPolicy := mkSandboxPolicy {
  sandbox_kind : FileSystemSandboxKind;
  glob_scan_max_depth : option nat;
  sandbox_entries : list FileSystemSandboxEntry;
}.

Definition unrestricted_policy : FileSystemSandboxPolicy := mkSandboxPolicy Unrestricted None [].
Definition external_sandbox_policy : FileSystemSandboxPolicy := mkSandboxPolicy ExternalSandbox None [].

(** ** Write access to everything *)
Definition is_restricted (p : FileSystemSandboxPolicy) : bool :=
  match sandbox_kind p with Restricted => true | _ => false end.

Definition has_root_access (p : FileSystemSandboxPolicy) (predicate : FileSystemAccessMode → bool) : bool :=
  is_restricted p &&
  existsb (λ entry, match entry_path entry with
                    | Special Root => predicate (entry_access entry)
                    | _ => false
                    end) (sandbox_entries p).

Definition has_denied_read_restrictions (unix : bool) (p : FileSystemSandboxPolicy) : bool :=
  is_restricted p &&
  existsb (λ entry,
    bool_decide (entry_access entry = Deny) &&
    negb (match entry_path entry with Special SlashTmp => negb unix | _ => false end))
    (sandbox_entries p).

Definition special_paths_share_target (l r : FileSystemSpecialPath) : bool :=
  match l, r with
  | Root, Root | Minimal, Minimal | Tmpdir, Tmpdir | SlashTmp, SlashTmp => true
  | ProjectRoots l, ProjectRoots r => bool_decide (l = r)
  | UnknownSpecial l lsub, UnknownSpecial r rsub =>
      str_eqb l r && bool_decide (lsub = rsub)
  | _, _ => false
  end.

Definition special_path_matches_path_uri (value : FileSystemSpecialPath) (path : PathUri) : bool :=
  match value with
  | Root => bool_decide (is_Some (lexical_depth path)) && bool_decide (path_uri_parent path = None)
  | SlashTmp =>
      bool_decide (infer_path_convention path = Some PosixPaths) &&
      bool_decide (lexical_depth path = Some 1) &&
      bool_decide (path_uri_basename path = Some (str "tmp"))
  | _ => false
  end.

Definition file_system_paths_share_target (l r : FileSystemPath) (convention : PathConvention)
    : bool :=
  match l, r with
  | Path l, Path r => path_uri_eqb l r
  | Special l, Special r => special_paths_share_target l r
  | Path path, Special value | Special value, Path path =>
      bool_decide (infer_path_convention path = Some convention) &&
      special_path_matches_path_uri value path
  | GlobPattern l, GlobPattern r => str_eqb l r
  | _, _ => false
  end.

Definition has_same_target_write_override (p : FileSystemSandboxPolicy)
    (entry : FileSystemSandboxEntry) (convention : PathConvention) : bool :=
  existsb (λ candidate,
    can_write (entry_access candidate) &&
    access_gtb (entry_access candidate) (entry_access entry) &&
    file_system_paths_share_target (entry_path candidate) (entry_path entry) convention)
    (sandbox_entries p).

Definition narrows_write (p : FileSystemSandboxPolicy) (convention : PathConvention)
    (entry : FileSystemSandboxEntry) : bool :=
  if can_write (entry_access entry) then false else
  match entry_path entry with
  | Path _ => negb (has_same_target_write_override p entry convention)
  | GlobPattern _ => true
  | Special Root => bool_decide (entry_access entry = Deny)
  | Special (Minimal | UnknownSpecial _ _) => false
  | Special SlashTmp =>
      match convention with
      | WindowsPaths => false
      | PosixPaths => negb (has_same_target_write_override p entry convention)
      end
  | Special _ => negb (has_same_target_write_override p entry convention)
  end.

Definition has_write_narrowing_entries (p : FileSystemSandboxPolicy) (convention : PathConvention) : bool :=
  is_restricted p && existsb (narrows_write p convention) (sandbox_entries p).

Definition has_full_disk_write_access_for_convention (p : FileSystemSandboxPolicy)
    (convention : option PathConvention) : bool :=
  match sandbox_kind p with
  | Unrestricted | ExternalSandbox => true
  | Restricted =>
      is_some_and convention (λ convention,
        has_root_access p can_write && negb (has_write_narrowing_entries p convention))
  end.

Definition has_full_disk_write_access (windows : bool) (p : FileSystemSandboxPolicy) : bool :=
  has_full_disk_write_access_for_convention p (Some (native windows)).

(** ** Permission profiles *)
Inductive ManagedFileSystemPermissions :=
| ManagedRestricted (entries : list FileSystemSandboxEntry) (glob_scan_max_depth : option nat)
| ManagedUnrestricted.

Definition to_sandbox_policy (m : ManagedFileSystemPermissions) : FileSystemSandboxPolicy :=
  match m with
  | ManagedRestricted entries depth => mkSandboxPolicy Restricted depth entries
  | ManagedUnrestricted => unrestricted_policy
  end.

Inductive PermissionProfile :=
| Managed (file_system : ManagedFileSystemPermissions) (network : NetworkSandboxPolicy)
| Disabled
| External (network : NetworkSandboxPolicy).

Definition file_system_sandbox_policy (p : PermissionProfile) : FileSystemSandboxPolicy :=
  match p with
  | Managed file_system _ => to_sandbox_policy file_system
  | Disabled => unrestricted_policy
  | External _ => external_sandbox_policy
  end.

(** ** Properties *)

(** A deny entry is never overridden by a write entry. *)
Lemma deny_not_overridden p entry convention :
  entry_access entry = Deny → has_same_target_write_override p entry convention = false.
Proof.
  intros H. unfold has_same_target_write_override. apply not_true_iff_false.
  rewrite existsb_exists. intros (c & _ & Hc). rewrite H in Hc.
  destruct (entry_access c); simpl in Hc; done.
Qed.
End Policies.
Arguments FileSystemPath : clear implicits.
Arguments FileSystemSandboxEntry : clear implicits.
Arguments FileSystemSandboxPolicy : clear implicits.
Arguments ManagedFileSystemPermissions : clear implicits.
Arguments PermissionProfile : clear implicits.
