(* ===== verification/ExecApproval.v ===== *)
(** * Approval of commands

    Models [sofia-rs/core/src/exec_policy.rs] with its modules [model_policy.rs] and
    [executable_identity.rs]: from the execution policy, the heuristics for commands
    no rule matches, the approval policy and the sandbox, it decides whether a command
    runs, needs an approval or is refused, and proposes amendments of the policy.

    The parsers of shell and PowerShell scripts (tree-sitter), [shlex] and the crates
    behind the classifier of dangerous commands are the class [ShellCrates].  The
    comparison of executables is the one of a Unix build. *)

From stdpp Require Import base list numbers strings gmap.
From S2P Require Import Prelude ExecRule ExecPolicy ExecAmend CommandSafety ShellDetect Permissions.

#[local] Arguments str : simpl never.

(** ** Constants *)
Definition PROMPT_CONFLICT_REASON : rstring :=
  str "approval required by policy, but AskForApproval is set to Never".
Definition REJECT_SANDBOX_APPROVAL_REASON : rstring :=
  str "approval required by policy, but AskForApproval::Granular.sandbox_approval is false".
Definition REJECT_RULES_APPROVAL_REASON : rstring :=
  str "approval required by policy rule, but AskForApproval::Granular.rules is false".
Definition RULES_DIR_NAME : rstring := str "rules".
Definition DEFAULT_POLICY_FILE : rstring := str "default.rules".

Definition BANNED_PREFIX_SUGGESTIONS : list (list rstring) :=
  [[str "/bin/bash"]; [str "/bin/bash"; str "-c"]; [str "/bin/bash"; str "-lc"]; [str "/bin/sh"];
    [str "/bin/sh"; str "-c"]; [str "/bin/sh"; str "-lc"]; [str "/bin/zsh"];
    [str "/bin/zsh"; str "-c"]; [str "/bin/zsh"; str "-lc"]; [str "Rscript"]; [str "bash"];
    [str "bash"; str "-c"]; [str "bash"; str "-lc"]; [str "bun"]; [str "bun"; str "-e"];
    [str "bun"; str "run"]; [str "cmd"]; [str "cmd"; str "/c"]; [str "cmd"; str "/k"];
    [str "cmd.exe"]; [str "cmd.exe"; str "/c"]; [str "cmd.exe"; str "/k"]; [str "dash"];
    [str "dash"; str "-c"]; [str "deno"]; [str "deno"; str "eval"]; [str "env"]; [str "fish"];
    [str "fish"; str "-c"]; [str "git"]; [str "julia"]; [str "julia"; str "-e"]; [str "ksh"];
    [str "ksh"; str "-c"]; [str "lua"]; [str "lua"; str "-e"]; [str "node"];
    [str "node"; str "-e"]; [str "nodejs"]; [str "nodejs"; str "-e"]; [str "npm"; str "run"];
    [str "osascript"]; [str "perl"]; [str "perl"; str "-e"]; [str "php"]; [str "php"; str "-r"];
    [str "pnpm"; str "run"]; [str "powershell"]; [str "powershell"; str "-Command"];
    [str "powershell"; str "-EncodedCommand"]; [str "powershell"; str "-File"];
    [str "powershell"; str "-c"]; [str "powershell.exe"]; [str "powershell.exe"; str "-Command"];
    [str "powershell.exe"; str "-EncodedCommand"]; [str "powershell.exe"; str "-File"];
    [str "powershell.exe"; str "-c"]; [str "pwsh"]; [str "pwsh"; str "-Command"];
    [str "pwsh"; str "-EncodedCommand"]; [str "pwsh"; str "-File"]; [str "pwsh"; str "-c"];
    [str "pwsh"; str "-e"]; [str "pwsh"; str "-ec"]; [str "pwsh"; str "-f"]; [str "py"];
    [str "py"; str "-3"]; [str "pypy"]; [str "pypy3"]; [str "python"]; [str "python"; str "-"];
    [str "python"; str "-c"]; [str "python3"]; [str "python3"; str "-"];
    [str "python3"; str "-c"]; [str "pythonw"]; [str "pyw"]; [str "rm"]; [str "ruby"];
    [str "ruby"; str "-e"]; [str "sh"]; [str "sh"; str "-c"]; [str "sh"; str "-lc"]; [str "sudo"];
    [str "yarn"; str "run"]; [str "zsh"]; [str "zsh"; str "-c"]; [str "zsh"; str "-lc"]].

(** ** Data *)
Inductive ExecPolicyCommandOrigin := GenericOrigin | PowerShellOrigin.

Record ExecPolicyCommands := mkCommands {
  commands : list (list rstring);
  command_origin : ExecPolicyCommandOrigin;
}.

(** The prefix that would be added as an allow rule. *)
Record ExecPolicyAmendment := mkAmendment { amendment_command : list rstring }.

Inductive ExecApprovalRequirement :=
| Skip (bypass_sandbox : bool) (proposed_execpolicy_amendment : option ExecPolicyAmendment)
| NeedsApproval (reason : option rstring)
    (proposed_execpolicy_amendment : option ExecPolicyAmendment)
| ApprovalForbidden (reason : rstring).

Inductive AllowPrefixRules := Honor | IgnoreForCyberModel.

Record Shell := mkShell { shell_type : ShellType; shell_path : rstring }.

(** The crates and the grammars behind the interpretation of command lines. *)
Class ShellCrates := {
  shlex_split : rstring → option (list rstring);
  shlex_try_join : list rstring → option rstring;
  url_capture : rstring → option rstring;
  url_scheme : rstring → option rstring;
  parse_shell_lc_literal_commands : list rstring → option (list (list rstring));
  parse_shell_lc_plain_commands : list rstring → option (list (list rstring));
  try_parse_powershell_commands : rstring → option (list (list rstring));
}.

(** [Iterator::max_by_key]: the last of the greatest. *)
Fixpoint max_by_key {A} (key : A → nat) (l : list A) : option A :=
  match l with
  | [] => None
  | x :: l' =>
      Some (match max_by_key key l' with
            | Some y => if key x <=? key y then y else x
            | None => x
            end)
  end.

(** [PathBuf::push] on Unix. *)
Definition path_join (p q : rstring) : rstring :=
  if has_root q then q else if is_empty p || ends_with [SLASH] p then p ++ q else p ++ [SLASH] ++ q.

(** ** [core/src/tools/sandboxing.rs] *)
Definition proposed_execpolicy_amendment (r : ExecApprovalRequirement) : option ExecPolicyAmendment :=
  match r with
  | NeedsApproval _ (Some prefix) => Some prefix
  | Skip _ (Some prefix) => Some prefix
  | _ => None
  end.

Inductive SandboxOverride := NoOverride | BypassSandboxFirstAttempt.

Section Sandboxing.
Context {PathUri : Type} (unix : bool).
Implicit Types (policy : FileSystemSandboxPolicy PathUri).

Definition default_exec_approval_requirement (approval : AskForApproval)
    (policy : FileSystemSandboxPolicy PathUri) : ExecApprovalRequirement :=
  let needs_approval :=
    match approval with
    | Never => false
    | OnRequest | Granular _ => match sandbox_kind policy with Restricted => true | _ => false end
    | UnlessTrusted => true
    end in
  if needs_approval
     && match approval with Granular g => negb (allows_sandbox_approval g) | _ => false end
  then ApprovalForbidden (str "approval policy disallowed sandbox approval prompt")
  else if needs_approval then NeedsApproval None None else Skip false None.

Definition unsandboxed_execution_allowed (policy : FileSystemSandboxPolicy PathUri) : bool :=
  negb (has_denied_read_restrictions unix policy).

Definition sandbox_override_for_first_attempt (permissions : SandboxPermissions)
    (requirement : ExecApprovalRequirement) (policy : FileSystemSandboxPolicy PathUri) : SandboxOverride :=
  if negb (unsandboxed_execution_allowed policy) then NoOverride
  else match requirement with
       | Skip true _ => BypassSandboxFirstAttempt
       | _ => if requires_escalated_permissions permissions then BypassSandboxFirstAttempt else NoOverride
       end.

Definition sandbox_permissions_preserving_denied_reads (permissions : SandboxPermissions)
    (policy : FileSystemSandboxPolicy PathUri) : SandboxPermissions :=
  if requires_escalated_permissions permissions && negb (unsandboxed_execution_allowed policy)
  then UseDefault else permissions.
End Sandboxing.

Section Approval.
Context {AbsPath : Type} `{!AbsPathOps AbsPath} {PathUri : Type} `{!PathUriView PathUri}.
Context `{!ShellCrates} (windows : bool).
Implicit Types (policy exec_policy : Policy AbsPath) (matched : list (RuleMatch AbsPath)).

Record ZshForkConfig := mkZshFork { shell_zsh_path : AbsPath; main_execve_wrapper_exe : AbsPath }.
Inductive UnifiedExecShellMode := Direct | ZshFork (config : ZshForkConfig).

Record ExecApprovalRequest := mkRequest {
  req_command : list rstring;
  approval_policy : AskForApproval;
  permission_profile : PermissionProfile PathUri;
  environment_policy : option (Policy AbsPath);
  windows_sandbox_level : WindowsSandboxLevel;
  sandbox_permissions : SandboxPermissions;
  prefix_rule : option (list rstring);
  allow_prefix_rules : AllowPrefixRules;
}.

Record UnmatchedCommandContext := mkUnmatched {
  unmatched_approval_policy : AskForApproval;
  unmatched_permission_profile : PermissionProfile PathUri;
  unmatched_windows_sandbox_level : WindowsSandboxLevel;
  unmatched_sandbox_permissions : SandboxPermissions;
  unmatched_command_origin : ExecPolicyCommandOrigin;
}.

(** ** The policy in force *)

(** The manager holds the current policy ([ArcSwap]). *)
Record ExecPolicyManager := mkManager { current : Policy AbsPath }.

Definition is_allow_prefix (r : PrefixRule) : bool := bool_decide (rule_decision r = Allow).

Definition without_allow_prefixes (program_rules : rstring * list PrefixRule) : rstring * list PrefixRule :=
  (fst program_rules, List.filter (λ r, negb (is_allow_prefix r)) (snd program_rules)).

Definition current_for_prefix_rules (m : ExecPolicyManager) (allow : AllowPrefixRules) : Policy AbsPath :=
  match allow with
  | Honor => current m
  | IgnoreForCyberModel =>
      mkPolicy
        (foldl insert_all ∅ (without_allow_prefixes <$> map_to_list (rules_by_program (current m))))
        (network_rules (current m)) (host_executables_by_name (current m))
  end.

Definition current_for_environment (m : ExecPolicyManager) (environment : option (Policy AbsPath))
    (allow : AllowPrefixRules) : Policy AbsPath :=
  let policy := current_for_prefix_rules m allow in
  match environment with Some e => merge_overlay policy e | None => policy end.

(** ** Heuristics for commands no rule matches *)
Definition is_policy_match (m : RuleMatch AbsPath) : bool :=
  match m with PrefixRuleMatch _ _ _ _ => true | HeuristicsRuleMatch _ _ => false end.

(** A policy match with the given decision. *)
Definition is_policy_decision (d : Decision) (m : RuleMatch AbsPath) : bool :=
  is_policy_match m && bool_decide (match_decision m = d).

Definition prompt_is_rejected_by_policy (approval : AskForApproval) (prompt_is_rule : bool)
    : option rstring :=
  match approval with
  | Never => Some PROMPT_CONFLICT_REASON
  | OnRequest => None
  | UnlessTrusted => None
  | Granular granular_config =>
      if prompt_is_rule then
        if negb (allows_rules_approval granular_config) then Some REJECT_RULES_APPROVAL_REASON else None
      else if negb (allows_sandbox_approval granular_config) then Some REJECT_SANDBOX_APPROVAL_REASON
      else None
  end.

Definition dangerous_command_match_for_origin (command : list rstring)
    (origin : ExecPolicyCommandOrigin) (platform : DangerousCommandPlatform)
    : option DangerousCommandMatch :=
  match origin with
  | GenericOrigin =>
      dangerous_command_match_for_platform shlex_split url_capture url_scheme
        parse_shell_lc_literal_commands command platform
  | PowerShellOrigin => dangerous_powershell_words_match url_capture url_scheme command platform
  end.

Definition dangerous_command_match_for_heuristics (e : Evaluation AbsPath) (d : Decision)
    (origin : ExecPolicyCommandOrigin) (platform : DangerousCommandPlatform)
    : option DangerousCommandMatch :=
  find_map (λ m, match m with
    | HeuristicsRuleMatch command matched_decision =>
        if bool_decide (matched_decision = d)
        then dangerous_command_match_for_origin command origin platform else None
    | _ => None
    end) (matched_rules e).

Definition profile_has_managed_filesystem_restrictions (profile : PermissionProfile PathUri) : bool :=
  let policy := file_system_sandbox_policy profile in
  match profile with Managed _ _ => true | _ => false end
  && match sandbox_kind policy with Restricted => true | _ => false end
  && negb (has_full_disk_write_access windows policy).

Definition render_decision_for_unmatched_command_for_platform (command : list rstring)
    (context : UnmatchedCommandContext) (platform : DangerousCommandPlatform) : Decision :=
  let dangerous_command_match :=
    dangerous_command_match_for_origin command (unmatched_command_origin context) platform in
  let policy := file_system_sandbox_policy (unmatched_permission_profile context) in
  let windows_managed_fs_restrictions_without_sandbox_backend :=
    windows
    && match unmatched_windows_sandbox_level context with WindowsDisabled => true | _ => false end
    && profile_has_managed_filesystem_restrictions (unmatched_permission_profile context) in
  if bool_decide (is_Some dangerous_command_match) || windows_managed_fs_restrictions_without_sandbox_backend
  then match unmatched_approval_policy context with Never => Forbidden | _ => Prompt end
  else
  match unmatched_approval_policy context with
  | Never => Allow
  | UnlessTrusted => Prompt
  | OnRequest | Granular _ =>
      match sandbox_kind policy with
      | Unrestricted | ExternalSandbox => Allow
      | Restricted =>
          if requests_sandbox_override (unmatched_sandbox_permissions context) then Prompt else Allow
      end
  end.

(** ** From a command line to commands *)
Definition parse_powershell_command_into_plain_commands (command : list rstring)
    : option (list (list rstring)) :=
  shell_script ← extract_powershell_command command; try_parse_powershell_commands (snd shell_script).

Definition commands_for_exec_policy_for_platform (command : list rstring)
    (platform : DangerousCommandPlatform) : ExecPolicyCommands :=
  match parse_shell_lc_plain_commands command ≫= non_empty with
  | Some commands => mkCommands commands GenericOrigin
  | None =>
      match match platform with
            | Windows => parse_powershell_command_into_plain_commands command ≫= non_empty
            | Posix => None
            end with
      | Some commands => mkCommands commands PowerShellOrigin
      | None => mkCommands [command] GenericOrigin
      end
  end.

(** ** Amendments *)
Definition heuristics_with (d : Decision) (m : RuleMatch AbsPath) : option ExecPolicyAmendment :=
  match m with
  | HeuristicsRuleMatch command e =>
      if bool_decide (e = d) then Some (mkAmendment command) else None
  | _ => None
  end.

Definition try_derive_execpolicy_amendment_for_prompt_rules (matched : list (RuleMatch AbsPath))
    : option ExecPolicyAmendment :=
  if existsb (is_policy_decision Prompt) matched then None
  else find_map (heuristics_with Prompt) matched.

Definition try_derive_execpolicy_amendment_for_allow_rules (matched : list (RuleMatch AbsPath))
    : option ExecPolicyAmendment :=
  if existsb is_policy_match matched then None else find_map (heuristics_with Allow) matched.

(** [None] is a panic of [check_with_options]. *)
Definition check_allows (exec_policy : Policy AbsPath) (fallback : list rstring → Decision)
    (options : MatchOptions) (command : list rstring) : option bool :=
  e ← check_with_options windows exec_policy command fallback options;
  Some (bool_decide (eval_decision e = Allow)).

(** [Iterator::all], which stops at the first command that is not allowed. *)
Fixpoint all_allowed (exec_policy : Policy AbsPath) (fallback : list rstring → Decision)
    (options : MatchOptions) (cmds : list (list rstring)) : option bool :=
  match cmds with
  | [] => Some true
  | c :: cmds' =>
      match check_allows exec_policy fallback options c with
      | Some true => all_allowed exec_policy fallback options cmds'
      | other => other
      end
  end.

Definition prefix_rule_would_approve_all_commands (exec_policy : Policy AbsPath)
    (prefix : list rstring) (cmds : list (list rstring)) (fallback : list rstring → Decision)
    (options : MatchOptions) : option bool :=
  match add_prefix_rule prefix Allow exec_policy with
  | Err _ => Some false
  | Ok policy_with_prefix_rule => all_allowed policy_with_prefix_rule fallback options cmds
  end.

Definition derive_requested_execpolicy_amendment_from_prefix_rule (prefix : option (list rstring))
    (matched : list (RuleMatch AbsPath)) (exec_policy : Policy AbsPath) (cmds : list (list rstring))
    (fallback : list rstring → Decision) (options : MatchOptions)
    : option (option ExecPolicyAmendment) :=
  match prefix with
  | None => Some None
  | Some prefix =>
      if is_empty prefix then Some None
      else if existsb (λ banned, bool_decide (prefix = banned)) BANNED_PREFIX_SUGGESTIONS
      then Some None
      else if existsb is_policy_match matched then Some None
      else
        approves ← prefix_rule_would_approve_all_commands exec_policy prefix cmds fallback options;
        Some (if (approves : bool) then Some (mkAmendment prefix) else None)
  end.

(** ** Reasons *)
Definition BACKTICK : rstring := [96%N].
Definition render_shlex_command (args : list rstring) : rstring :=
  default (join (str " ") args) (shlex_try_join args).

(** The policy matches with a decision: prefix and justification. *)
Definition prefix_with (d : Decision) (m : RuleMatch AbsPath) : option (list rstring * option rstring) :=
  match m with
  | PrefixRuleMatch matched_prefix e _ justification =>
      if bool_decide (e = d) then Some (matched_prefix, justification) else None
  | _ => None
  end.

Definition most_specific (d : Decision) (e : Evaluation AbsPath) : option (list rstring * option rstring) :=
  max_by_key (λ pj, length (fst pj)) (omap (prefix_with d) (matched_rules e)).

Definition derive_prompt_reason (command_args : list rstring) (e : Evaluation AbsPath) : option rstring :=
  let command := BACKTICK ++ render_shlex_command command_args ++ BACKTICK in
  match most_specific Prompt e with
  | Some (_, Some justification) => Some (command ++ str " requires approval: " ++ justification)
  | Some (_, None) => Some (command ++ str " requires approval by policy")
  | None => None
  end.

Definition dangerous_command_rejection_reason (m : DangerousCommandMatch) : rstring :=
  match m with
  | ForcedRm => str "rm -f style commands are not permitted. Use a safer approach"
  | OtherMatch => str "blocked by policy"
  end.

Definition derive_forbidden_reason (command_args : list rstring) (e : Evaluation AbsPath)
    (dangerous_command_match : option DangerousCommandMatch) : rstring :=
  let command := BACKTICK ++ render_shlex_command command_args ++ BACKTICK in
  match most_specific Forbidden e with
  | Some (_, Some justification) => command ++ str " rejected: " ++ justification
  | Some (matched_prefix, None) =>
      command ++ str " rejected: policy forbids commands starting with " ++
      BACKTICK ++ render_shlex_command matched_prefix ++ BACKTICK
  | None =>
      match dangerous_command_match with
      | Some m => command ++ str " rejected: " ++ dangerous_command_rejection_reason m
      | None => command ++ str " rejected: blocked by policy"
      end
  end.

Definition derive_rejected_prompt_reason (fallback_reason : rstring)
    (dangerous_command_match : option DangerousCommandMatch) : rstring :=
  match dangerous_command_match with
  | Some ForcedRm => dangerous_command_rejection_reason ForcedRm
  | Some OtherMatch | None => fallback_reason
  end.

(** ** The requirement of a command *)
Definition match_options : MatchOptions := mkMatchOptions true.

Definition unmatched_context (req : ExecApprovalRequest) (origin : ExecPolicyCommandOrigin)
    : UnmatchedCommandContext :=
  mkUnmatched (approval_policy req) (permission_profile req) (windows_sandbox_level req)
    (sandbox_permissions req) origin.

Definition exec_policy_fallback (req : ExecApprovalRequest) (origin : ExecPolicyCommandOrigin)
    (platform : DangerousCommandPlatform) (cmd : list rstring) : Decision :=
  render_decision_for_unmatched_command_for_platform cmd (unmatched_context req origin) platform.

Definition explicitly_allowed (exec_policy : Policy AbsPath) (command : list rstring) : bool :=
  existsb (is_policy_decision Allow)
    (matches_for_command_with_options windows exec_policy command None match_options).

(** [allow_prefix_rules == AllowPrefixRules::Honor]. *)
Definition auto_amendment_allowed (req : ExecApprovalRequest) : bool :=
  match allow_prefix_rules req with Honor => true | IgnoreForCyberModel => false end.

(** The [match] on the decision of the evaluation. *)
Definition requirement_for (req : ExecApprovalRequest) (cmds : ExecPolicyCommands)
    (platform : DangerousCommandPlatform) (exec_policy : Policy AbsPath) (e : Evaluation AbsPath)
    (requested_amendment : option ExecPolicyAmendment) : ExecApprovalRequirement :=
  let origin := command_origin cmds in
  match eval_decision e with
  | Forbidden =>
      ApprovalForbidden
        (derive_forbidden_reason (req_command req) e
           (dangerous_command_match_for_heuristics e Forbidden origin platform))
  | Prompt =>
      let prompt_is_rule := existsb (is_policy_decision Prompt) (matched_rules e) in
      match prompt_is_rejected_by_policy (approval_policy req) prompt_is_rule with
      | Some reason =>
          if prompt_is_rule then ApprovalForbidden reason
          else ApprovalForbidden (derive_rejected_prompt_reason reason
                 (dangerous_command_match_for_heuristics e Prompt origin platform))
      | None =>
          NeedsApproval (derive_prompt_reason (req_command req) e)
            (match requested_amendment with
             | Some a => Some a
             | None =>
                 if auto_amendment_allowed req
                 then try_derive_execpolicy_amendment_for_prompt_rules (matched_rules e) else None
             end)
      end
  | Allow =>
      Skip (forallb (explicitly_allowed exec_policy) (commands cmds))
        (if auto_amendment_allowed req
         then try_derive_execpolicy_amendment_for_allow_rules (matched_rules e) else None)
  end.

Definition create_exec_approval_requirement_for_parsed_commands (m : ExecPolicyManager)
    (req : ExecApprovalRequest) (cmds : ExecPolicyCommands) (platform : DangerousCommandPlatform)
    : option ExecApprovalRequirement :=
  let exec_policy := current_for_environment m (environment_policy req) (allow_prefix_rules req) in
  let fallback := exec_policy_fallback req (command_origin cmds) platform in
  e ← check_multiple_with_options windows exec_policy (commands cmds) fallback match_options;
  requested_amendment ←
    (if auto_amendment_allowed req
     then derive_requested_execpolicy_amendment_from_prefix_rule (prefix_rule req) (matched_rules e)
            exec_policy (commands cmds) fallback match_options
     else Some None);
  Some (requirement_for req cmds platform exec_policy e requested_amendment).

Definition create_exec_approval_requirement_for_command_platform (m : ExecPolicyManager)
    (req : ExecApprovalRequest) (platform : DangerousCommandPlatform) : option ExecApprovalRequirement :=
  create_exec_approval_requirement_for_parsed_commands m req
    (commands_for_exec_policy_for_platform (req_command req) platform) platform.

(** ** Commands for a shell, in a Unix build *)
Definition is_system_shell (executable : rstring) : bool :=
  is_some_and (parent_components executable) (λ parent,
    bool_decide (parent = path_components (str "/bin")) ||
    bool_decide (parent = path_components (str "/usr/bin"))).

Definition shell_approval_command (command : list rstring) (configured_shell : Shell)
    (shell_mode : UnifiedExecShellMode) : list rstring :=
  match command with
  | [] => command
  | executable :: _ =>
      if path_eqb executable (shell_path configured_shell) || is_system_shell executable
         || match shell_mode with ZshFork _ => true | Direct => false end
      then command else [executable]
  end.

Definition shell_policy_commands (command : list rstring) (platform : DangerousCommandPlatform)
    : ExecPolicyCommands :=
  match platform with
  | Windows =>
      match extract_powershell_command command with
      | Some (_, script) =>
          mkCommands (default [command] (try_parse_powershell_commands script)) PowerShellOrigin
      | None => commands_for_exec_policy_for_platform command platform
      end
  | Posix => commands_for_exec_policy_for_platform command platform
  end.

Definition with_command (req : ExecApprovalRequest) (command : list rstring) : ExecApprovalRequest :=
  mkRequest command (approval_policy req) (permission_profile req) (environment_policy req)
    (windows_sandbox_level req) (sandbox_permissions req) (prefix_rule req) (allow_prefix_rules req).

Definition create_exec_approval_requirement_for_shell (m : ExecPolicyManager)
    (req : ExecApprovalRequest) (configured_shell : Shell) (shell_mode : UnifiedExecShellMode)
    (platform : DangerousCommandPlatform) : option ExecApprovalRequirement :=
  let command := req_command req in
  let executable := shell_approval_command command configured_shell shell_mode in
  if length executable =? length command
  then create_exec_approval_requirement_for_command_platform m req platform
  else
    let policy_commands := shell_policy_commands command platform in
    create_exec_approval_requirement_for_parsed_commands m (with_command req executable)
      (mkCommands (executable :: commands policy_commands) (command_origin policy_commands)) platform.

(** ** Updates *)
Inductive ExecPolicyUpdateError :=
| AppendRule (path : rstring) (source : AmendError)
| JoinBlockingTask (source : rstring)
| AddRule (source : Error).

Definition default_policy_path (sofia_home : rstring) : rstring :=
  path_join (path_join sofia_home RULES_DIR_NAME) DEFAULT_POLICY_FILE.

Context {F : Type} `{!PolicyDisk F} (json_string : rstring → result rstring rstring).

(** Both updates run under the update lock, so no other update comes between the
    reading of the current policy and its replacement; the semaphore behind the lock is
    never closed, and the blocking task, which does not panic, is joined.  [None] is a
    panic. *)
Definition append_amendment_and_update (sofia_home : rstring) (amendment : ExecPolicyAmendment)
    (m : ExecPolicyManager) (f : F) : option (result ExecPolicyUpdateError unit * ExecPolicyManager * F) :=
  let policy_path := default_policy_path sofia_home in
  let '(appended, f) :=
    blocking_append_allow_prefix_rule json_string policy_path (amendment_command amendment) f in
  match appended with
  | Err e => Some (Err (AppendRule policy_path e), m, f)
  | Ok _ =>
      e ← check_multiple_with_options windows (current m) [amendment_command amendment]
            (λ _, Forbidden) match_options;
      let already_allowed :=
        bool_decide (eval_decision e = Allow) && existsb (is_policy_decision Allow) (matched_rules e) in
      if already_allowed then Some (Ok tt, m, f)
      else match add_prefix_rule (amendment_command amendment) Allow (current m) with
           | Err e => Some (Err (AddRule e), m, f)
           | Ok updated_policy => Some (Ok tt, mkManager updated_policy, f)
           end
  end.

Definition append_network_rule_and_update (sofia_home host : rstring) (protocol : NetworkRuleProtocol)
    (d : Decision) (justification : option rstring) (m : ExecPolicyManager) (f : F)
    : result ExecPolicyUpdateError unit * ExecPolicyManager * F :=
  let policy_path := default_policy_path sofia_home in
  let '(appended, f) :=
    blocking_append_network_rule json_string policy_path host protocol d justification f in
  match appended with
  | Err e => (Err (AppendRule policy_path e), m, f)
  | Ok _ =>
      match add_network_rule host protocol d justification (current m) with
      | Err e => (Err (AddRule e), m, f)
      | Ok updated_policy => (Ok tt, mkManager updated_policy, f)
      end
  end.
End Approval.
Arguments ExecApprovalRequest : clear implicits.
Arguments ExecPolicyManager : clear implicits.
Arguments UnmatchedCommandContext : clear implicits.
Arguments UnifiedExecShellMode : clear implicits.
