(* ===== verification/ExecApprovalSpec.v ===== *)
(** * Correctness of the approval of commands

    Which commands run without asking, which need an approval and which are refused,
    stated over the rules that match a command; what ignoring allow rules changes; and
    what an accepted amendment achieves. *)

From stdpp Require Import base list numbers strings gmap relations.
From S2P Require Import Prelude FileUpdate ExecRule ExecPolicy ExecPolicySpec ExecAmend CommandSafety CommandSafetySpec ShellDetect Permissions ExecApproval.

#[local] Set Default Proof Using "Type*".
#[local] Arguments str : simpl never.

Section Spec.
Context {AbsPath : Type} {abs_ops : AbsPathOps AbsPath} {PathUri : Type} {uri_view : PathUriView PathUri}.
Context {crates : ShellCrates} (windows : bool).
Implicit Types (P Q : Policy AbsPath) (cmd : list rstring) (fb : list rstring → Decision).
Implicit Types (req : ExecApprovalRequest AbsPath PathUri).

(** ** Matches and decisions *)

(** The rules of a policy that match a command. *)
Definition policy_matches P cmd : list (RuleMatch AbsPath) :=
  matches_for_command_with_options windows P cmd None match_options.

Definition matches_with P fb cmd : list (RuleMatch AbsPath) :=
  matches_for_command_with_options windows P cmd (Some fb) match_options.

Lemma matches_with_eq P fb cmd :
  matches_with P fb cmd =
  if is_empty (policy_matches P cmd) then [HeuristicsRuleMatch cmd (fb cmd)] else policy_matches P cmd.
Proof. done. Qed.

Lemma policy_matches_eq P cmd :
  policy_matches P cmd =
  match exact_matches P cmd with [] => match_host_executable_rules windows P cmd | ms => ms end.
Proof.
  unfold policy_matches, matches_for_command_with_options. rewrite match_exact_rules_non_empty.
  destruct (exact_matches P cmd); [|done]. simpl.
  by destruct (match_host_executable_rules windows P cmd).
Qed.

Lemma policy_matches_prefix P cmd m : m ∈ policy_matches P cmd → is_policy_match m = true.
Proof.
  rewrite policy_matches_eq. intros Hm. change (is_prefix_match m = true).
  pose proof (exact_matches_prefix P cmd) as He. pose proof (host_matches_prefix windows P cmd) as Hh.
  rewrite Forall_forall in He, Hh. destruct (exact_matches P cmd); auto.
Qed.

(** How strictly a policy decides a command. *)
Definition decided P fb cmd (d : Decision) : Prop := ∃ m, m ∈ matches_with P fb cmd ∧ match_decision m = d.

Lemma strictest_Allow ds : strictest Allow ds ↔ ds ≠ [] ∧ ∀ d, d ∈ ds → d = Allow.
Proof.
  split.
  - intros [Hin Hmax]. split; [intros ->; by apply elem_of_nil in Hin|].
    intros d Hd%Hmax. by destruct d; simpl in Hd; try lia.
  - intros [Hne H]. destruct ds as [|d ds]; [done|]. split.
    + rewrite <- (H d) by by left. left.
    + intros e ->%H. done.
Qed.

Lemma strictest_Forbidden ds : strictest Forbidden ds ↔ Forbidden ∈ ds.
Proof.
  split; [by intros [? _]|]. intros H. split; [done|]. intros e _. destruct e; simpl; lia.
Qed.

Lemma check_multiple_Some P cmds fb :
  cmds ≠ [] → ∃ e, check_multiple_with_options windows P cmds fb match_options = Some e ∧
    matched_rules e = cmds ≫= matches_with P fb ∧
    strictest (eval_decision e) (map match_decision (cmds ≫= matches_with P fb)).
Proof.
  intros Hne. destruct (check_multiple_with_options windows P cmds fb match_options) as [e|] eqn:E.
  - exists e. split; [done|]. apply from_matches_Some in E. done.
  - apply from_matches_None in E. destruct cmds as [|c cmds]; [done|].
    rewrite bind_cons in E. apply app_nil in E as [E _]. by apply matches_nonempty in E.
Qed.

Lemma elem_of_matches P fb cmds m :
  m ∈ (cmds ≫= matches_with P fb) ↔ ∃ cmd, cmd ∈ cmds ∧ m ∈ matches_with P fb cmd.
Proof. rewrite list_elem_of_bind. naive_solver. Qed.

Lemma decision_in P fb cmds m :
  (∃ cmd, cmd ∈ cmds ∧ m ∈ matches_with P fb cmd) →
  match_decision m ∈ map match_decision (cmds ≫= matches_with P fb).
Proof. intros ?%elem_of_matches. by apply (list_elem_of_fmap_2 match_decision). Qed.

Lemma check_multiple_decision P cmds fb e :
  cmds ≠ [] → check_multiple_with_options windows P cmds fb match_options = Some e →
  (eval_decision e = Allow ↔ ∀ cmd m, cmd ∈ cmds → m ∈ matches_with P fb cmd → match_decision m = Allow) ∧
  (eval_decision e = Forbidden ↔ ∃ cmd, cmd ∈ cmds ∧ decided P fb cmd Forbidden).
Proof.
  intros Hne He. destruct (check_multiple_Some P cmds fb Hne) as (e' & He' & _ & Hs).
  rewrite He in He'. injection He' as <-.
  pose proof Hs as [Hin Hmax]. split; split.
  - intros Ha cmd m Hc Hm. rewrite Ha in Hs. apply strictest_Allow in Hs as [_ Hs]. apply Hs.
    apply decision_in. eauto.
  - intros Hall. apply list_elem_of_fmap in Hin as (m & -> & Hm).
    apply elem_of_matches in Hm as (cmd & ? & ?). eauto.
  - intros Hf. rewrite Hf in Hin. apply list_elem_of_fmap in Hin as (m & Hd & Hm).
    apply elem_of_matches in Hm as (cmd & ? & ?). exists cmd. split; [done|]. exists m. done.
  - intros (cmd & Hc & m & Hm & Hd).
    assert (Hr : decision_rank (match_decision m) ≤ decision_rank (eval_decision e)).
    { apply Hmax. apply decision_in. eauto. }
    rewrite Hd in Hr. by destruct (eval_decision e); simpl in Hr; try lia.
Qed.

(** ** The specification *)

(** A command all of whose matching rules, of which there are some, allow it. *)
Definition trusted_by_rules P cmd : Prop :=
  policy_matches P cmd ≠ [] ∧ ∀ m, m ∈ policy_matches P cmd → match_decision m = Allow.

(** Nothing a command runs, through any wrappers, is dangerous. *)
Definition harmless (origin : ExecPolicyCommandOrigin) (platform : DangerousCommandPlatform) cmd : Prop :=
  match origin with
  | GenericOrigin =>
      ∀ n inner, nsteps (runs parse_shell_lc_literal_commands platform) n cmd inner →
        n ≤ MAX_DANGEROUS_COMMAND_WRAPPER_DEPTH ∧
        ¬ dangerous shlex_split url_capture url_scheme platform inner
  | PowerShellOrigin =>
      platform = Windows → is_dangerous_powershell_words url_capture url_scheme cmd = false
  end.

(** Managed restrictions that no Windows sandbox enforces. *)
Definition unenforced_restrictions req : Prop :=
  windows = true ∧ windows_sandbox_level req = WindowsDisabled ∧
  profile_has_managed_filesystem_restrictions windows (permission_profile req) = true.

(** The approval policy lets commands without rules run: always when nobody can be
    asked, never for untrusted projects, and otherwise unless the command asks to leave
    a restricted sandbox. *)
Definition policy_lets_run req : Prop :=
  match approval_policy req with
  | Never => True
  | UnlessTrusted => False
  | OnRequest | Granular _ =>
      sandbox_permissions req = UseDefault ∨
      sandbox_kind (file_system_sandbox_policy (permission_profile req)) ≠ Restricted
  end.

Definition runs_unmatched req origin platform P cmd : Prop :=
  policy_matches P cmd = [] ∧ harmless origin platform cmd ∧ ¬ unenforced_restrictions req ∧
  policy_lets_run req.

(** The commands that run without asking, and those that are refused whatever the user
    would say. *)
Definition cleared req origin platform P cmd : Prop :=
  trusted_by_rules P cmd ∨ runs_unmatched req origin platform P cmd.

Definition refused req origin platform P cmd : Prop :=
  (∃ m, m ∈ policy_matches P cmd ∧ match_decision m = Forbidden) ∨
  (policy_matches P cmd = [] ∧ approval_policy req = Never ∧
   (¬ harmless origin platform cmd ∨ unenforced_restrictions req)).

(** Whether the approval policy allows a question, which a rule or the sandbox raises. *)
Definition may_ask (approval : AskForApproval) (rule_prompts : Prop) : Prop :=
  match approval with
  | Never => False
  | OnRequest | UnlessTrusted => True
  | Granular g => (rule_prompts → granular_rules g = true) ∧ (¬ rule_prompts → sandbox_approval g = true)
  end.

Definition rule_prompts P (cmds : list (list rstring)) : Prop :=
  ∃ cmd m, cmd ∈ cmds ∧ m ∈ policy_matches P cmd ∧ match_decision m = Prompt.

(** ** The heuristics *)
Lemma harmless_iff origin platform cmd :
  dangerous_command_match_for_origin cmd origin platform = None ↔ harmless origin platform cmd.
Proof.
  destruct origin; simpl.
  - unfold dangerous_command_match_for_platform, dangerous_command_match_with_depth.
    rewrite Nat.sub_0_r, levels_None_iff. setoid_rewrite Nat.add_1_r. by setoid_rewrite Nat.lt_succ_r.
  - unfold dangerous_powershell_words_match. destruct platform; [done|].
    destruct (is_dangerous_powershell_words _ _ _); naive_solver.
Qed.


(** The guard of the heuristics. *)
Definition guard req origin platform cmd : bool :=
  bool_decide (is_Some (dangerous_command_match_for_origin cmd origin platform)) ||
  windows && match windows_sandbox_level req with WindowsDisabled => true | _ => false end
    && profile_has_managed_filesystem_restrictions windows (permission_profile req).

Lemma unenforced_iff req :
  windows && match windows_sandbox_level req with WindowsDisabled => true | _ => false end
    && profile_has_managed_filesystem_restrictions windows (permission_profile req) = true ↔
  unenforced_restrictions req.
Proof.
  unfold unenforced_restrictions. rewrite !andb_true_iff.
  destruct (windows_sandbox_level req); naive_solver.
Qed.

Lemma guard_true req origin platform cmd :
  guard req origin platform cmd = true ↔ ¬ harmless origin platform cmd ∨ unenforced_restrictions req.
Proof.
  unfold guard. rewrite orb_true_iff, unenforced_iff, bool_decide_eq_true, <- harmless_iff.
  by rewrite not_eq_None_Some.
Qed.

Lemma guard_false req origin platform cmd :
  guard req origin platform cmd = false ↔ harmless origin platform cmd ∧ ¬ unenforced_restrictions req.
Proof.
  unfold guard. rewrite orb_false_iff, <- unenforced_iff, not_true_iff_false, <- harmless_iff.
  rewrite bool_decide_eq_false, <- eq_None_not_Some. done.
Qed.

Lemma fallback_eq req origin platform cmd :
  exec_policy_fallback windows req origin platform cmd =
  if guard req origin platform cmd
  then match approval_policy req with Never => Forbidden | _ => Prompt end
  else match approval_policy req with
       | Never => Allow
       | UnlessTrusted => Prompt
       | OnRequest | Granular _ =>
           match sandbox_kind (file_system_sandbox_policy (permission_profile req)) with
           | Unrestricted | ExternalSandbox => Allow
           | Restricted => if requests_sandbox_override (sandbox_permissions req) then Prompt else Allow
           end
       end.
Proof. done. Qed.

Lemma fallback_Allow req origin platform cmd :
  exec_policy_fallback windows req origin platform cmd = Allow ↔
  harmless origin platform cmd ∧ ¬ unenforced_restrictions req ∧ policy_lets_run req.
Proof.
  rewrite (assoc and), <- guard_false, fallback_eq. unfold policy_lets_run.
  destruct (guard req origin platform cmd).
  { split; [by destruct (approval_policy req)|]. by intros [? _]. }
  destruct (approval_policy req), (sandbox_kind (file_system_sandbox_policy (permission_profile req))),
    (sandbox_permissions req); naive_solver.
Qed.

Lemma fallback_Forbidden req origin platform cmd :
  exec_policy_fallback windows req origin platform cmd = Forbidden ↔
  approval_policy req = Never ∧ (¬ harmless origin platform cmd ∨ unenforced_restrictions req).
Proof.
  rewrite <- guard_true, fallback_eq.
  destruct (guard req origin platform cmd), (approval_policy req); try naive_solver;
    destruct (sandbox_kind (file_system_sandbox_policy (permission_profile req))),
      (requests_sandbox_override (sandbox_permissions req)); naive_solver.
Qed.

(** ** Commands *)
Section Request.
Context (req : ExecApprovalRequest AbsPath PathUri) (origin : ExecPolicyCommandOrigin).
Context (platform : DangerousCommandPlatform) (P : Policy AbsPath).
Notation fb := (exec_policy_fallback windows req origin platform).

Lemma cleared_iff cmd :
  (∀ m, m ∈ matches_with P fb cmd → match_decision m = Allow) ↔ cleared req origin platform P cmd.
Proof.
  rewrite matches_with_eq. unfold cleared, trusted_by_rules, runs_unmatched.
  rewrite <- (fallback_Allow req origin platform cmd).
  destruct (policy_matches P cmd) as [|m ms] eqn:E; cbn [is_empty].
  - split.
    + intros Hall. right. split; [done|]. apply (Hall (HeuristicsRuleMatch cmd (fb cmd))). left.
    + intros [[? _]|[_ Hf]]; [done|]. by intros m ->%list_elem_of_singleton.
  - split; [intros Hall; by left|]. intros [[_ Hall]|[? _]]; done.
Qed.

Lemma refused_iff cmd : decided P fb cmd Forbidden ↔ refused req origin platform P cmd.
Proof.
  unfold decided, refused. rewrite matches_with_eq, <- (fallback_Forbidden req origin platform cmd).
  destruct (policy_matches P cmd) as [|m ms] eqn:E; cbn [is_empty].
  - split.
    + intros (m & ->%list_elem_of_singleton & Hd). by right.
    + intros [(m & Hm%elem_of_nil & _)|[_ Hf]]; [done|]. eexists. split; [left|done].
  - split; [intros Hd; by left|]. intros [?|[? _]]; done.
Qed.

Lemma policy_decision_true d (m : RuleMatch AbsPath) :
  is_policy_decision d m = true ↔ is_policy_match m = true ∧ match_decision m = d.
Proof. unfold is_policy_decision. by rewrite andb_true_iff, bool_decide_eq_true. Qed.

Lemma rule_prompts_iff cmds :
  existsb (is_policy_decision Prompt) (cmds ≫= matches_with P fb) = true ↔ rule_prompts P cmds.
Proof.
  rewrite existsb_exists. setoid_rewrite <- list_elem_of_In. setoid_rewrite elem_of_matches.
  setoid_rewrite policy_decision_true. unfold rule_prompts. split.
  - intros (m & (cmd & Hc & Hm) & Hp & Hd). rewrite matches_with_eq in Hm.
    destruct (is_empty (policy_matches P cmd)); [|by exists cmd, m].
    by apply list_elem_of_singleton in Hm as ->.
  - intros (cmd & m & Hc & Hm & Hd). exists m. pose proof (policy_matches_prefix _ _ _ Hm).
    split; [|done]. exists cmd. split; [done|]. rewrite matches_with_eq.
    by destruct (policy_matches P cmd); [apply elem_of_nil in Hm|].
Qed.
End Request.

(** ** The requirement *)
Lemma all_allowed_total P fb options cmds : is_Some (all_allowed windows P fb options cmds).
Proof.
  induction cmds as [|c cmds IH]; [done|]. simpl. unfold check_allows, check_with_options.
  destruct (from_matches _) as [e|] eqn:E; simpl; [by case_bool_decide|].
  apply from_matches_None in E. by apply matches_nonempty in E.
Qed.

Lemma derive_requested_total prefix matched P cmds fb options :
  is_Some (derive_requested_execpolicy_amendment_from_prefix_rule windows prefix matched P cmds fb options).
Proof.
  unfold derive_requested_execpolicy_amendment_from_prefix_rule. destruct prefix as [prefix|]; [|done].
  destruct (is_empty prefix); [done|]. destruct (existsb _ _); [done|]. destruct (existsb _ _); [done|].
  unfold prefix_rule_would_approve_all_commands. destruct (add_prefix_rule _ _ _) as [Q|]; [|done].
  by destruct (all_allowed_total Q fb options cmds) as [b ->].
Qed.

Notation create := (create_exec_approval_requirement_for_parsed_commands windows).
Notation policy_of m req := (current_for_environment m (environment_policy req) (allow_prefix_rules req)).

(** The requirement is computed from the evaluation and a suggested amendment. *)
Lemma create_eq m req cmds platform :
  commands cmds ≠ [] →
  ∃ e a, check_multiple_with_options windows (policy_of m req) (commands cmds)
           (exec_policy_fallback windows req (command_origin cmds) platform) match_options = Some e ∧
    (if auto_amendment_allowed req
     then derive_requested_execpolicy_amendment_from_prefix_rule windows (prefix_rule req) (matched_rules e)
            (policy_of m req) (commands cmds)
            (exec_policy_fallback windows req (command_origin cmds) platform) match_options
     else Some None) = Some a ∧
    create m req cmds platform = Some (requirement_for windows req cmds platform (policy_of m req) e a).
Proof.
  intros Hne. unfold create_exec_approval_requirement_for_parsed_commands.
  destruct (check_multiple_Some (policy_of m req) (commands cmds)
    (exec_policy_fallback windows req (command_origin cmds) platform) Hne) as (e & -> & _). simpl.
  exists e. destruct (auto_amendment_allowed req); [|by exists None].
  destruct (derive_requested_total (prefix_rule req) (matched_rules e) (policy_of m req) (commands cmds)
    (exec_policy_fallback windows req (command_origin cmds) platform) match_options) as [a Ha].
  exists a. by rewrite Ha.
Qed.

Lemma rejected_iff approval b :
  prompt_is_rejected_by_policy approval b = None ↔ may_ask approval (b = true).
Proof.
  unfold prompt_is_rejected_by_policy, may_ask, allows_rules_approval, allows_sandbox_approval.
  destruct approval as [| |[[] [] ? ? ?]|]; simpl; destruct b; naive_solver.
Qed.

Lemma requirement_skip_iff req cmds platform P e a :
  (∃ b x, requirement_for windows req cmds platform P e a = Skip b x) ↔ eval_decision e = Allow.
Proof.
  unfold requirement_for. destruct (eval_decision e); [naive_solver| |naive_solver].
  destruct (prompt_is_rejected_by_policy _ _); [destruct (existsb _ _)|]; naive_solver.
Qed.

Lemma requirement_ask_iff req cmds platform P e a :
  (∃ reason x, requirement_for windows req cmds platform P e a = NeedsApproval reason x) ↔
  eval_decision e = Prompt ∧
  may_ask (approval_policy req) (existsb (is_policy_decision Prompt) (matched_rules e) = true).
Proof.
  rewrite <- rejected_iff. unfold requirement_for. destruct (eval_decision e); [naive_solver| |naive_solver].
  destruct (prompt_is_rejected_by_policy _ _); [destruct (existsb _ _)|]; naive_solver.
Qed.

Lemma may_ask_proper approval (A B : Prop) : (A ↔ B) → may_ask approval A ↔ may_ask approval B.
Proof. intros HAB. destruct approval; simpl; by rewrite ?HAB. Qed.

Definition approval_outcome_of m req (cmds : ExecPolicyCommands) platform (r : ExecApprovalRequirement) : Prop :=
  let P := policy_of m req in
  let cs := commands cmds in
  ((∃ b a, r = Skip b a) ↔ ∀ cmd, cmd ∈ cs → cleared req (command_origin cmds) platform P cmd) ∧
  ((∃ reason a, r = NeedsApproval reason a) ↔
     ¬ (∀ cmd, cmd ∈ cs → cleared req (command_origin cmds) platform P cmd) ∧
     (∀ cmd, cmd ∈ cs → ¬ refused req (command_origin cmds) platform P cmd) ∧
     may_ask (approval_policy req) (rule_prompts P cs)) ∧
  (∀ a, r = Skip true a → ∀ cmd, cmd ∈ cs → trusted_by_rules P cmd).

Lemma explicitly_allowed_trusted req origin platform P cmd :
  cleared req origin platform P cmd → explicitly_allowed windows P cmd = true → trusted_by_rules P cmd.
Proof.
  intros [?|[Hnil _]]; [done|]. unfold explicitly_allowed. fold (policy_matches P cmd). by rewrite Hnil.
Qed.

Lemma parsed_outcome m req cmds platform :
  commands cmds ≠ [] →
  ∃ r, create m req cmds platform = Some r ∧ approval_outcome_of m req cmds platform r.
Proof.
  intros Hne. destruct (create_eq m req cmds platform Hne) as (e & a & He & _ & ->).
  eexists. split; [done|]. unfold approval_outcome_of.
  destruct (check_multiple_decision _ _ _ _ Hne He) as [HA HF].
  destruct (check_multiple_Some (policy_of m req) (commands cmds)
    (exec_policy_fallback windows req (command_origin cmds) platform) Hne) as (e' & He' & Hm & _).
  rewrite He in He'. injection He' as <-.
  assert (Hcl : eval_decision e = Allow ↔
    ∀ cmd, cmd ∈ commands cmds → cleared req (command_origin cmds) platform (policy_of m req) cmd).
  { rewrite HA. setoid_rewrite <- cleared_iff. naive_solver. }
  setoid_rewrite refused_iff in HF.
  assert (Hp : eval_decision e = Prompt ↔ eval_decision e ≠ Allow ∧ eval_decision e ≠ Forbidden)
    by (destruct (eval_decision e); naive_solver).
  split_and!.
  - by rewrite requirement_skip_iff.
  - rewrite requirement_ask_iff, Hp, Hm, Hcl, HF.
    rewrite (may_ask_proper _ _ _ (rule_prompts_iff req (command_origin cmds) platform _ _)). naive_solver.
  - intros x Hr cmd Hc. assert (Ha : eval_decision e = Allow) by (eapply requirement_skip_iff; eauto).
    unfold requirement_for in Hr. rewrite Ha in Hr. injection Hr as Hb _.
    rewrite forallb_forall in Hb. eapply explicitly_allowed_trusted; [by apply Hcl|].
    apply Hb. by apply list_elem_of_In.
Qed.

Lemma commands_for_exec_policy_nonempty command platform :
  commands (commands_for_exec_policy_for_platform command platform) ≠ [].
Proof.
  unfold commands_for_exec_policy_for_platform.
  destruct (parse_shell_lc_plain_commands command ≫= non_empty) as [cs|] eqn:E.
  - destruct (parse_shell_lc_plain_commands command); [|done]. by apply non_empty_Some in E as [-> ?].
  - destruct platform; [done|].
    destruct (parse_powershell_command_into_plain_commands command) as [cs|]; [|done]. simpl.
    destruct (non_empty cs) eqn:En; [|done]. by apply non_empty_Some in En as [-> ?].
Qed.

(** C7: What becomes of a command.  It runs without asking exactly when each of its
    parsed commands is either allowed by all of its matching rules, or matched by no
    rule, harmless through all wrappers, and let through by the approval policy and the
    sandbox; an approval is asked for exactly when some command is not cleared, none
    is refused, and the approval policy allows this kind of question; otherwise it is
    forbidden.  The sandbox is bypassed only when rules allow every command.  The code
    never panics. *)
Theorem approval_outcome m req platform :
  ∃ r, create_exec_approval_requirement_for_command_platform windows m req platform = Some r ∧
    approval_outcome_of m req (commands_for_exec_policy_for_platform (req_command req) platform) platform r.
Proof. apply parsed_outcome, commands_for_exec_policy_nonempty. Qed.

(** An executable that is neither the configured shell nor in a system directory is
    judged by itself: the command runs without asking only when the bare executable is
    cleared, as well as everything it claims to run, and outside the sandbox only when
    rules allow the bare executable. *)
Theorem unfamiliar_executable_judged m req configured_shell platform executable arg args :
  req_command req = executable :: arg :: args →
  path_eqb executable (shell_path configured_shell) = false → is_system_shell executable = false →
  let inner := shell_policy_commands (req_command req) platform in
  ∃ r, create_exec_approval_requirement_for_shell windows m req configured_shell Direct platform = Some r ∧
    ((∃ b a, r = Skip b a) ↔
       cleared req (command_origin inner) platform (policy_of m req) [executable] ∧
       ∀ cmd, cmd ∈ commands inner → cleared req (command_origin inner) platform (policy_of m req) cmd) ∧
    (∀ a, r = Skip true a → trusted_by_rules (policy_of m req) [executable]).
Proof.
  intros Hc Hs Hsys inner. unfold create_exec_approval_requirement_for_shell, shell_approval_command.
  subst inner. rewrite Hc, Hs, Hsys. cbn [orb length Nat.eqb].
  set (inner := shell_policy_commands (executable :: arg :: args) platform).
  destruct (parsed_outcome m (with_command req [executable])
    (mkCommands ([executable] :: commands inner) (command_origin inner)) platform) as (r & Hr & Hskip & _ & Hby);
    [done|].
  exists r. split; [exact Hr|]. split.
  - rewrite Hskip. cbn [commands command_origin]. setoid_rewrite elem_of_cons. split.
    + intros Hall. split; [apply (Hall [executable]); by left|]. intros cmd Hin. apply (Hall cmd). by right.
    + intros [He Hin] cmd [->|?]; [exact He|by apply Hin].
  - intros a Ha. apply (Hby a Ha). left.
Qed.

(** A command that runs without asking leaves the sandbox in its first attempt only
    when no reads are denied, and each of its commands is allowed by rules, or
    escalation was requested and either the sandbox restricts nothing, or the approval
    policy refuses sandbox questions (such requests are rejected before). *)
Theorem first_attempt_bypass_justified m req platform unix b a :
  create_exec_approval_requirement_for_command_platform windows m req platform = Some (Skip b a) →
  let policy := file_system_sandbox_policy (permission_profile req) in
  sandbox_override_for_first_attempt unix (sandbox_permissions req) (Skip b a) policy
    = BypassSandboxFirstAttempt →
  has_denied_read_restrictions unix policy = false ∧
  ∀ cmd, cmd ∈ commands (commands_for_exec_policy_for_platform (req_command req) platform) →
    trusted_by_rules (policy_of m req) cmd ∨
    sandbox_permissions req = RequireEscalated ∧
    (sandbox_kind policy ≠ Restricted ∨ is_Some (prompt_is_rejected_by_policy (approval_policy req) false)).
Proof.
  intros Hr policy Ho.
  destruct (parsed_outcome m req (commands_for_exec_policy_for_platform (req_command req) platform) platform)
    as (r & Hr' & Hskip & _ & Hby); [apply commands_for_exec_policy_nonempty|].
  unfold create_exec_approval_requirement_for_command_platform in Hr. rewrite Hr in Hr'. injection Hr' as <-.
  unfold sandbox_override_for_first_attempt, unsandboxed_execution_allowed in Ho. rewrite negb_involutive in Ho.
  destruct (has_denied_read_restrictions unix policy); [done|]. split; [done|].
  intros cmd Hc. destruct b; [left; by eapply Hby|].
  destruct (proj1 Hskip (ex_intro _ _ (ex_intro _ _ eq_refl)) cmd Hc) as [?|(_ & _ & _ & Hrun)]; [by left|].
  right. unfold policy_lets_run in Hrun.
  destruct (sandbox_permissions req); try done. split; [done|].
  destruct (approval_policy req) as [| |g|]; [done| | |right; by eexists];
    destruct Hrun as [?|?]; try done; by left.
Qed.

(** ** Host executables *)

(** The program whose rules apply to a command given by an absolute path. *)
Definition host_program P cmd : option (AbsPath * rstring) :=
  match cmd with
  | [] => None
  | c :: _ =>
      match abs_try_from c with
      | Err _ => None
      | Ok prog =>
          match executable_path_lookup_key windows prog with
          | None => None
          | Some b =>
              if is_some_and (host_executables_by_name P !! b)
                   (λ paths, negb (existsb (λ path, bool_decide (path = prog)) paths))
              then None else Some (prog, b)
          end
      end
  end.

Lemma host_matches_eq P cmd :
  match_host_executable_rules windows P cmd =
  match host_program P cmd with
  | Some (prog, b) => with_resolved_program prog <$> omap (λ r, rule_matches r (b :: tail cmd)) (rules_of P b)
  | None => []
  end.
Proof.
  unfold match_host_executable_rules, host_program, rules_of. destruct cmd as [|c args]; [done|].
  destruct (abs_try_from c) as [prog|]; [|done].
  destruct (executable_path_lookup_key windows prog) as [b|]; [|done].
  destruct (rules_by_program P !! b) as [rules|] eqn:E; destruct (is_some_and _ _);
    cbn [default tail]; by rewrite ?E.
Qed.

Lemma host_match_iff P cmd m :
  m ∈ match_host_executable_rules windows P cmd ↔
  ∃ prog b r prefix, host_program P cmd = Some (prog, b) ∧ r ∈ rules_of P b ∧
    matches_prefix (pattern r) (b :: tail cmd) = Some prefix ∧
    m = PrefixRuleMatch prefix (rule_decision r) (Some prog) (justification r).
Proof.
  rewrite host_matches_eq. destruct (host_program P cmd) as [[prog b]|].
  - rewrite list_elem_of_fmap. setoid_rewrite list_elem_of_omap. unfold rule_matches. split.
    + intros (x & -> & r & Hr & Hm). destruct (matches_prefix _ _) as [prefix|] eqn:E; [|done].
      simpl in Hm. simplify_eq. eauto 10.
    + intros (? & ? & r & prefix & [= <- <-] & Hr & Hm & ->).
      eexists. split; [|exists r; split; [done|]; rewrite Hm; done]. done.
  - split; [by intros ?%elem_of_nil|]. naive_solver.
Qed.

(** ** Dropping allow rules *)

(** [Q] has the rules of [P] except for some that allow. *)
Definition fewer_allow P Q : Prop :=
  host_executables_by_name Q = host_executables_by_name P ∧
  ∀ k r, (r ∈ rules_of Q k → r ∈ rules_of P k) ∧
         (r ∈ rules_of P k → r ∈ rules_of Q k ∨ rule_decision r = Allow).

Lemma fewer_allow_host P Q cmd : fewer_allow P Q → host_program Q cmd = host_program P cmd.
Proof. intros [Hh _]. unfold host_program. by rewrite Hh. Qed.

Lemma fewer_allow_exact P Q cmd m :
  fewer_allow P Q →
  (m ∈ exact_matches Q cmd → m ∈ exact_matches P cmd) ∧
  (m ∈ exact_matches P cmd → m ∈ exact_matches Q cmd ∨ match_decision m = Allow).
Proof.
  intros [_ Hr]. rewrite !exact_match_prefix_rules. split.
  - intros (r & prefix & Hin & ? & ->). exists r, prefix. split; [by apply Hr|done].
  - intros (r & prefix & Hin & ? & ->). destruct (proj2 (Hr _ r) Hin); [left|by right]. eauto.
Qed.

Lemma fewer_allow_host_matches P Q cmd m :
  fewer_allow P Q →
  (m ∈ match_host_executable_rules windows Q cmd → m ∈ match_host_executable_rules windows P cmd) ∧
  (m ∈ match_host_executable_rules windows P cmd →
   m ∈ match_host_executable_rules windows Q cmd ∨ match_decision m = Allow).
Proof.
  intros HPQ. rewrite !host_match_iff, (fewer_allow_host P Q cmd HPQ). destruct HPQ as [_ Hr]. split.
  - intros (prog & b & r & prefix & Hp & Hin & ? & ->). exists prog, b, r, prefix.
    split_and!; try done. by apply Hr.
  - intros (prog & b & r & prefix & Hp & Hin & ? & ->).
    destruct (proj2 (Hr _ r) Hin); [left|by right]. eauto 10.
Qed.

Lemma nil_of_incl {A} (l k : list A) : (∀ x, x ∈ l → x ∈ k) → k = [] → l = [].
Proof. intros Hi ->. destruct l as [|x l]; [done|]. exfalso. apply (not_elem_of_nil x), Hi. left. Qed.

Lemma fewer_allow_policy_nil P Q cmd :
  fewer_allow P Q → policy_matches P cmd = [] → policy_matches Q cmd = [].
Proof.
  intros HPQ. rewrite !policy_matches_eq. intros HP.
  assert (He : exact_matches P cmd = []) by by destruct (exact_matches P cmd).
  rewrite He in HP.
  rewrite (nil_of_incl (exact_matches Q cmd) _ (λ m, proj1 (fewer_allow_exact P Q cmd m HPQ)) He).
  exact (nil_of_incl _ _ (λ m, proj1 (fewer_allow_host_matches P Q cmd m HPQ)) HP).
Qed.

Lemma fewer_allow_policy P Q cmd m :
  fewer_allow P Q → m ∈ policy_matches P cmd → m ∈ policy_matches Q cmd ∨ match_decision m = Allow.
Proof.
  intros HPQ. rewrite !policy_matches_eq.
  destruct (exact_matches P cmd) as [|x xs] eqn:EP.
  - rewrite (nil_of_incl (exact_matches Q cmd) _ (λ m, proj1 (fewer_allow_exact P Q cmd m HPQ)) EP).
    by apply fewer_allow_host_matches.
  - rewrite <- EP. intros Hm. destruct (proj2 (fewer_allow_exact P Q cmd m HPQ) Hm) as [Hq|]; [left|by right].
    by destruct (exact_matches Q cmd); [apply elem_of_nil in Hq|].
Qed.

Lemma fewer_allow_matches P Q fb cmd m :
  fewer_allow P Q → m ∈ matches_with P fb cmd →
  ∃ m', m' ∈ matches_with Q fb cmd ∧ decision_rank (match_decision m) ≤ decision_rank (match_decision m').
Proof.
  intros HPQ Hm. assert (Hany : ∃ m', m' ∈ matches_with Q fb cmd).
  { pose proof (matches_nonempty windows Q cmd fb match_options) as Hne. fold (matches_with Q fb cmd) in Hne.
    destruct (matches_with Q fb cmd) as [|x xs]; [done|]. exists x. left. }
  destruct Hany as [x Hx].
  destruct (decide (match_decision m = Allow)) as [Ha|Hna].
  { exists x. split; [done|]. rewrite Ha. simpl. lia. }
  exists m. split; [|done]. rewrite matches_with_eq in *.
  destruct (policy_matches P cmd) as [|y ys] eqn:EP; cbn [is_empty] in Hm.
  - by rewrite (fewer_allow_policy_nil P Q cmd HPQ EP).
  - rewrite <- EP in Hm. destruct (fewer_allow_policy P Q cmd m HPQ Hm) as [Hq|]; [|done].
    by destruct (policy_matches Q cmd); [apply elem_of_nil in Hq|].
Qed.

Lemma fewer_allow_check P Q fb cmds :
  fewer_allow P Q → cmds ≠ [] →
  ∃ e e', check_multiple_with_options windows P cmds fb match_options = Some e ∧
    check_multiple_with_options windows Q cmds fb match_options = Some e' ∧
    decision_rank (eval_decision e) ≤ decision_rank (eval_decision e').
Proof.
  intros HPQ Hne. destruct (check_multiple_Some P cmds fb Hne) as (e & He & _ & Hs & _).
  destruct (check_multiple_Some Q cmds fb Hne) as (e' & He' & _ & _ & Hmax).
  exists e, e'. split_and!; [done..|].
  apply list_elem_of_fmap in Hs as (m & -> & Hm). apply elem_of_matches in Hm as (cmd & Hc & Hm).
  destruct (fewer_allow_matches P Q fb cmd m HPQ Hm) as (m' & Hm' & Hr).
  etrans; [done|]. apply Hmax, decision_in. eauto.
Qed.

(** The policy of a model that ignores allow rules. *)
Lemma ignore_rules_of (m : ExecPolicyManager AbsPath) k :
  rules_of (current_for_prefix_rules m IgnoreForCyberModel) k =
  List.filter (λ r, negb (is_allow_prefix r)) (rules_of (current m) k).
Proof.
  unfold rules_of. cbn [current_for_prefix_rules rules_by_program].
  assert (Hfst : (without_allow_prefixes <$> map_to_list (rules_by_program (current m))).*1 =
    (map_to_list (rules_by_program (current m))).*1).
  { rewrite <- list_fmap_compose. by apply list_fmap_ext. }
  rewrite merge_fold_lookup by (rewrite Hfst; apply NoDup_fst_map_to_list).
  rewrite lookup_empty. cbn [default app].
  change without_allow_prefixes with
    (prod_map (A := rstring) id (List.filter (λ r, negb (is_allow_prefix r)))).
  rewrite list_to_map_fmap, list_to_map_to_list, lookup_fmap.
  by destruct (rules_by_program (current m) !! k).
Qed.

Lemma ignore_fewer_allow m : fewer_allow (current m) (current_for_prefix_rules m IgnoreForCyberModel).
Proof.
  split; [done|]. intros k r. rewrite ignore_rules_of, !list_elem_of_In, filter_In. split; [naive_solver|].
  intros Hr. unfold is_allow_prefix. destruct (decide (rule_decision r = Allow)) as [?|Hn]; [by right|].
  left. split; [done|]. by rewrite bool_decide_false.
Qed.

Lemma merge_fewer_allow P Q E : fewer_allow P Q → fewer_allow (merge_overlay P E) (merge_overlay Q E).
Proof.
  intros [Hh Hr]. split; [by simpl; rewrite Hh|]. intros k r. rewrite !merge_rules_of, !elem_of_app.
  destruct (Hr k r). naive_solver.
Qed.

Lemma environment_fewer_allow m env :
  fewer_allow (current_for_environment m env Honor) (current_for_environment m env IgnoreForCyberModel).
Proof.
  unfold current_for_environment. destruct env; [apply merge_fewer_allow|]; apply ignore_fewer_allow.
Qed.

Lemma policy_match_rule P cmd x :
  x ∈ policy_matches P cmd → ∃ k r, r ∈ rules_of P k ∧ match_decision x = rule_decision r.
Proof.
  rewrite policy_matches_eq. intros Hx.
  assert (Hor : x ∈ exact_matches P cmd ∨ x ∈ match_host_executable_rules windows P cmd)
    by (destruct (exact_matches P cmd); auto).
  destruct Hor as [(r & ? & ? & ? & ->)%exact_match_prefix_rules|(? & b & r & ? & ? & ? & ? & ->)%host_match_iff];
    eauto.
Qed.

(** A model that ignores saved allow rules is treated at least as strictly: whatever
    the commands and the heuristics, the policy in force decides at least as strictly as
    with the allow rules; nothing it does leads to a proposal to amend the policy; and
    without an environment policy it never bypasses the sandbox. *)
Theorem cyber_model_untrusting m req platform :
  let cmds := commands (commands_for_exec_policy_for_platform (req_command req) platform) in
  (∀ fb, ∃ e e',
     check_multiple_with_options windows (current_for_environment m (environment_policy req) Honor) cmds fb
       match_options = Some e ∧
     check_multiple_with_options windows (current_for_environment m (environment_policy req) IgnoreForCyberModel)
       cmds fb match_options = Some e' ∧
     decision_rank (eval_decision e) ≤ decision_rank (eval_decision e')) ∧
  (allow_prefix_rules req = IgnoreForCyberModel →
   ∃ r, create_exec_approval_requirement_for_command_platform windows m req platform = Some r ∧
     proposed_execpolicy_amendment r = None ∧
     (environment_policy req = None → ∀ a, r ≠ Skip true a)).
Proof.
  intros cmds. pose proof (commands_for_exec_policy_nonempty (req_command req) platform) as Hne. split.
  { intros fb. apply fewer_allow_check; [apply environment_fewer_allow|done]. }
  intros Hi. unfold create_exec_approval_requirement_for_command_platform.
  destruct (create_eq m req (commands_for_exec_policy_for_platform (req_command req) platform) platform Hne)
    as (e & a & He & Ha & Hr).
  destruct (parsed_outcome m req (commands_for_exec_policy_for_platform (req_command req) platform) platform Hne)
    as (r & Hr' & _ & _ & Hby).
  rewrite Hr in Hr'. injection Hr' as <-. eexists. split; [done|].
  assert (Hau : auto_amendment_allowed req = false) by (unfold auto_amendment_allowed; by rewrite Hi).
  rewrite Hau in Ha. injection Ha as <-. split.
  - unfold requirement_for. rewrite Hau. destruct (eval_decision e); [done| |done].
    destruct (prompt_is_rejected_by_policy _ _); [by destruct (existsb _ _)|done].
  - intros Henv x Hx. fold cmds in Hne.
    assert (∃ cmd, cmd ∈ cmds) as [cmd Hcmd] by (destruct cmds as [|c ?]; [done|]; exists c; left).
    destruct (Hby x Hx cmd Hcmd) as [Hm Hall].
    unfold current_for_environment in Hm, Hall. rewrite Henv, Hi in Hm, Hall.
    destruct (policy_matches _ cmd) as [|y ys] eqn:Ey; [done|].
    destruct (policy_match_rule (current_for_prefix_rules m IgnoreForCyberModel) cmd y) as (k & r & Hin & Hd);
      [rewrite Ey; left|].
    rewrite ignore_rules_of, list_elem_of_In, filter_In in Hin. destruct Hin as [_ Hn].
    unfold is_allow_prefix in Hn. rewrite bool_decide_true in Hn; [done|]. rewrite <- Hd. apply Hall. left.
Qed.

(** ** Amendments *)
Lemma prefix_extends p c d pre :
  c `prefix_of` d → matches_prefix p c = Some pre → matches_prefix p d = Some pre.
Proof. rewrite !matches_prefix_iff. intros ? [??]. split; [by etrans|done]. Qed.

Lemma exact_extends P c d : c `prefix_of` d → exact_matches P c ≠ [] → exact_matches P d ≠ [].
Proof.
  intros Hp Hc. destruct (exact_matches P c) as [|x xs] eqn:E; [done|].
  assert (Hx : x ∈ exact_matches P c) by (rewrite E; left).
  apply exact_match_prefix_rules in Hx as (r & pre & Hr & Hm & ->).
  assert (Hh : head c = head d).
  { destruct c as [|y c]; [by unfold exact_matches in E|]. destruct Hp as [k ->]. done. }
  intros Hnil. apply (not_elem_of_nil (PrefixRuleMatch (AbsPath := AbsPath) pre (rule_decision r) None (justification r))).
  rewrite <- Hnil. apply exact_match_prefix_rules. exists r, pre. rewrite <- Hh.
  split_and!; [done| |done]. by eapply prefix_extends.
Qed.

Lemma host_extends P c d :
  c `prefix_of` d → match_host_executable_rules windows P c ≠ [] → match_host_executable_rules windows P d ≠ [].
Proof.
  intros Hp Hc. destruct (match_host_executable_rules windows P c) as [|x xs] eqn:E; [done|].
  assert (Hx : x ∈ match_host_executable_rules windows P c) by (rewrite E; left).
  apply host_match_iff in Hx as (prog & b & r & pre & Hh & Hr & Hm & ->).
  destruct c as [|y c]; [done|]. destruct Hp as [k ->].
  assert (Hin : PrefixRuleMatch pre (rule_decision r) (Some prog) (justification r)
    ∈ match_host_executable_rules windows P ((y :: c) ++ k)).
  { apply host_match_iff. exists prog, b, r, pre. split_and!; try done.
    eapply prefix_extends; [|done]. by exists k. }
  intros Hnil. rewrite Hnil in Hin. by apply elem_of_nil in Hin.
Qed.

Lemma policy_nil P cmd :
  policy_matches P cmd = [] ↔ exact_matches P cmd = [] ∧ match_host_executable_rules windows P cmd = [].
Proof. rewrite policy_matches_eq. destruct (exact_matches P cmd); naive_solver. Qed.

Lemma match_extends P c d :
  c `prefix_of` d → policy_matches P c ≠ [] → policy_matches P d ≠ [].
Proof.
  intros Hp Hc [He Hh]%policy_nil. apply Hc, policy_nil. split.
  - destruct (decide (exact_matches P c = [])) as [|Hn]; [done|]. by destruct (exact_extends P c d Hp Hn).
  - destruct (match_host_executable_rules windows P c) eqn:E; [done|].
    destruct (host_extends P c d Hp); by rewrite ?E.
Qed.

Lemma added_host_program a d P P' cmd :
  add_prefix_rule a d P = Ok P' → host_program P' cmd = host_program P cmd.
Proof. destruct a as [|x xs]; [done|]. intros [= <-]. done. Qed.

Lemma added_fewer_allow a P P' : add_prefix_rule a Allow P = Ok P' → fewer_allow P' P.
Proof.
  intros Ha. split; [by destruct a as [|x xs]; [|injection Ha as <-]|].
  intros k r. rewrite (add_prefix_rules_of _ _ _ _ k Ha), elem_of_app. split; [by left|].
  intros [?|Hr]; [by left|right]. case_decide; [|by apply elem_of_nil in Hr].
  by apply list_elem_of_singleton in Hr as ->.
Qed.

(** A command that only the new rule matches. *)
Lemma new_rule_matches a P P' cmd :
  add_prefix_rule a Allow P = Ok P' → policy_matches P cmd = [] → policy_matches P' cmd ≠ [] →
  a `prefix_of` cmd ∨ ∃ prog b, host_program P cmd = Some (prog, b) ∧ a `prefix_of` b :: tail cmd.
Proof.
  intros Ha [He Hh]%policy_nil Hn. rewrite policy_nil in Hn.
  rewrite (add_prefix_exact_matches _ _ _ _ cmd Ha), He in Hn. cbn [app] in Hn.
  destruct (decide (a `prefix_of` cmd)); [by left|right].
  destruct (match_host_executable_rules windows P' cmd) as [|x xs] eqn:E; [by destruct Hn|].
  assert (Hx : x ∈ match_host_executable_rules windows P' cmd) by (rewrite E; left).
  apply host_match_iff in Hx as (prog & b & r & pre & Hp & Hr & Hm & ->).
  rewrite (added_host_program _ _ _ _ _ Ha) in Hp. exists prog, b. split; [done|].
  rewrite (add_prefix_rules_of _ _ _ _ b Ha), elem_of_app in Hr. destruct Hr as [Hr|Hr].
  - exfalso. apply (not_elem_of_nil (PrefixRuleMatch pre (rule_decision r) (Some prog) (justification r))).
    rewrite <- Hh. apply host_match_iff. by exists prog, b, r, pre.
  - destruct a as [|y ys]; [done|]. cbn [head tail] in Hr. case_decide as Hy; [|by apply elem_of_nil in Hr].
    injection Hy as ->. apply list_elem_of_singleton in Hr as ->.
    by apply single_pattern_matches in Hm as [-> ?].
Qed.

Lemma added_trusted a P P' :
  add_prefix_rule a Allow P = Ok P' → policy_matches P a = [] → trusted_by_rules P' a.
Proof.
  intros Ha [He _]%policy_nil. unfold trusted_by_rules. rewrite policy_matches_eq.
  rewrite (add_prefix_exact_matches _ _ _ _ a Ha), He, decide_True by done. cbn [app].
  split; [done|]. by intros m ->%list_elem_of_singleton.
Qed.

Lemma check_allows_true P fb cmd :
  check_allows windows P fb match_options cmd = Some true →
  ∀ m, m ∈ matches_with P fb cmd → match_decision m = Allow.
Proof.
  unfold check_allows, check_with_options. destruct (from_matches _) as [e|] eqn:E; [|done]. simpl.
  intros [= Hb%bool_decide_eq_true]. apply from_matches_Some in E as [_ Hs]. rewrite Hb in Hs.
  apply strictest_Allow in Hs as [_ Hs]. intros m Hm. apply Hs.
  by apply (list_elem_of_fmap_2 match_decision).
Qed.

Lemma all_allowed_true P fb cmds :
  all_allowed windows P fb match_options cmds = Some true →
  ∀ cmd m, cmd ∈ cmds → m ∈ matches_with P fb cmd → match_decision m = Allow.
Proof.
  induction cmds as [|c cmds IH]; [by intros _ ? ? ?%elem_of_nil|]. simpl.
  destruct (check_allows windows P fb match_options c) as [[]|] eqn:Ec; [|done..].
  intros Hall cmd m [->|Hin]%elem_of_cons; [by eapply check_allows_true|eauto].
Qed.

(** The source of a prompt that no rule raises. *)
Lemma heuristics_in P fb cmds c d :
  HeuristicsRuleMatch c d ∈ (cmds ≫= matches_with P fb) →
  c ∈ cmds ∧ policy_matches P c = [] ∧ d = fb c.
Proof.
  intros (cmd & Hc & Hm)%elem_of_matches. rewrite matches_with_eq in Hm.
  destruct (policy_matches P cmd) as [|x xs] eqn:E; cbn [is_empty] in Hm.
  - apply list_elem_of_singleton in Hm. injection Hm as -> ->. done.
  - rewrite <- E in Hm. apply policy_matches_prefix in Hm. done.
Qed.

Lemma no_policy_match P fb cmds :
  existsb is_policy_match (cmds ≫= matches_with P fb) = false → ∀ cmd, cmd ∈ cmds → policy_matches P cmd = [].
Proof.
  intros He cmd Hc. destruct (policy_matches P cmd) as [|x xs] eqn:E; [done|]. exfalso.
  rewrite <- not_true_iff_false, existsb_exists in He. apply He. exists x.
  assert (Hx : x ∈ policy_matches P cmd) by (rewrite E; left).
  split; [|by eapply policy_matches_prefix]. apply list_elem_of_In, elem_of_matches.
  exists cmd. split; [done|]. rewrite matches_with_eq, E. left.
Qed.

(** The amendment the caller asked for. *)
Definition requested_amendment P fb (cmds : list (list rstring)) (a : list rstring) : Prop :=
  a ≠ [] ∧ a ∉ BANNED_PREFIX_SUGGESTIONS ∧ (∀ cmd, cmd ∈ cmds → policy_matches P cmd = []) ∧
  ∃ P', add_prefix_rule a Allow P = Ok P' ∧
    ∀ cmd m, cmd ∈ cmds → m ∈ matches_with P' fb cmd → match_decision m = Allow.

Lemma derive_requested_spec prefix P fb cmds a :
  derive_requested_execpolicy_amendment_from_prefix_rule windows prefix (cmds ≫= matches_with P fb) P cmds fb
    match_options = Some (Some a) →
  requested_amendment P fb cmds (amendment_command a).
Proof.
  unfold derive_requested_execpolicy_amendment_from_prefix_rule. destruct prefix as [prefix|]; [|done].
  destruct (is_empty prefix) eqn:Ee; [done|]. destruct (existsb _ BANNED_PREFIX_SUGGESTIONS) eqn:Eb; [done|].
  destruct (existsb is_policy_match _) eqn:Em; [done|].
  unfold prefix_rule_would_approve_all_commands.
  destruct (add_prefix_rule prefix Allow P) as [P'|] eqn:Ea; [|done].
  destruct (all_allowed _ _ _ _ _) as [[]|] eqn:Eall; [|done..]. intros [= <-]. cbn [amendment_command].
  split_and!.
  - by intros ->.
  - intros Hin. rewrite <- not_true_iff_false, existsb_exists in Eb. apply Eb. exists prefix.
    split; [by apply list_elem_of_In|by apply bool_decide_eq_true].
  - exact (no_policy_match _ _ _ Em).
  - exists P'. split; [done|]. by apply all_allowed_true.
Qed.

Lemma derive_prompt_spec P fb cmds a :
  try_derive_execpolicy_amendment_for_prompt_rules (cmds ≫= matches_with P fb) = Some a →
  amendment_command a ∈ cmds ∧ policy_matches P (amendment_command a) = [].
Proof.
  unfold try_derive_execpolicy_amendment_for_prompt_rules. destruct (existsb _ _); [done|].
  intros (x & Hx & Hh)%find_map_Some. destruct x as [|c d]; [done|]. simpl in Hh.
  case_bool_decide; [|done]. injection Hh as <-. by apply heuristics_in in Hx as (? & ? & _).
Qed.

Lemma proposed_cases m req cmds platform reason a :
  commands cmds ≠ [] →
  create m req cmds platform = Some (NeedsApproval reason (Some a)) →
  let P := policy_of m req in
  let fb := exec_policy_fallback windows req (command_origin cmds) platform in
  allow_prefix_rules req = Honor ∧ (∃ c x, c ∈ commands cmds ∧ x ∈ matches_with P fb c ∧ match_decision x = Prompt) ∧
  (requested_amendment P fb (commands cmds) (amendment_command a) ∨
   amendment_command a ∈ commands cmds ∧ policy_matches P (amendment_command a) = []).
Proof.
  intros Hne Hc P fb. destruct (create_eq m req cmds platform Hne) as (e & req_a & He & Ha & Hr).
  rewrite Hc in Hr. injection Hr as Hr. symmetry in Hr.
  destruct (check_multiple_Some P (commands cmds) fb Hne) as (e' & He' & Hm & [Hs _]).
  subst P fb. rewrite He in He'. injection He' as <-.
  assert (Hp : eval_decision e = Prompt) by (eapply requirement_ask_iff; eauto).
  unfold requirement_for in Hr. rewrite Hp in Hr.
  destruct (prompt_is_rejected_by_policy _ _); [by destruct (existsb _ _)|]. injection Hr as _ Hr.
  assert (Hau : auto_amendment_allowed req = true).
  { destruct (auto_amendment_allowed req); [done|]. injection Ha as <-. done. }
  rewrite Hau in Ha, Hr. split_and!.
  - unfold auto_amendment_allowed in Hau. by destruct (allow_prefix_rules req).
  - rewrite Hp in Hs. apply list_elem_of_fmap in Hs as (x & Hx & Hin).
    apply elem_of_matches in Hin as (c & ? & ?). eauto.
  - rewrite Hm in Ha, Hr. destruct req_a as [ra|].
    + injection Hr as ->. left. by apply derive_requested_spec in Ha.
    + right. by apply derive_prompt_spec in Hr.
Qed.

(** File names are not absolute paths. *)
Definition names_relative : Prop :=
  ∀ p k, executable_path_lookup_key windows p = Some k → ∃ error, abs_try_from k = Err error.

(** A requested prefix that some rule already matches would not have been proposed. *)
Lemma requested_unmatched P fb cmds a c x :
  names_relative → requested_amendment P fb cmds a → c ∈ cmds → x ∈ matches_with P fb c →
  match_decision x = Prompt → policy_matches P a = [].
Proof.
  intros Hrel (Hne & _ & Hnone & P' & Ha & Hall) Hc Hx Hp.
  assert (Hn' : policy_matches P' c ≠ []).
  { intros Hnil. rewrite matches_with_eq, (Hnone c Hc) in Hx. apply list_elem_of_singleton in Hx as ->.
    specialize (Hall c (HeuristicsRuleMatch c (fb c)) Hc). rewrite matches_with_eq, Hnil in Hall.
    simpl in Hp, Hall. rewrite Hall in Hp; [done|left]. }
  destruct (new_rule_matches a P P' c Ha (Hnone c Hc) Hn') as [Hpre|(prog & b & Hh & Hpre)].
  - destruct (policy_matches P a) eqn:E; [done|]. destruct (match_extends P a c Hpre); [by rewrite E|].
    by apply Hnone.
  - apply policy_nil. destruct a as [|y ys]; [done|].
    assert (y = b) as -> by by apply prefix_cons_inv_1 in Hpre.
    pose proof (Hnone c Hc) as [_ Hhc]%policy_nil. rewrite host_matches_eq, Hh in Hhc.
    apply fmap_nil_inv in Hhc. split.
    + destruct (decide (exact_matches P (b :: ys) = [])) as [|Hex]; [done|].
      by destruct (exact_extends P _ _ Hpre Hex).
    + rewrite host_matches_eq. unfold host_program.
      destruct c as [|c0 cs]; [done|]. unfold host_program in Hh.
      destruct (abs_try_from c0) as [prog'|]; [|done].
      destruct (executable_path_lookup_key windows prog') as [k|] eqn:Ek; [|done].
      destruct (is_some_and _ _); [done|]. injection Hh as -> ->.
      destruct (Hrel _ _ Ek) as [err ->]. done.
Qed.

(** Adding a rule below an overlay has the effect of adding it to the merged policy. *)
Lemma add_below_overlay a m m' env P' :
  add_prefix_rule a Allow (current m) = Ok (current m') →
  add_prefix_rule a Allow (current_for_environment m env Honor) = Ok P' →
  fewer_allow (current_for_environment m' env Honor) P'.
Proof.
  intros Hm HP. unfold current_for_environment, current_for_prefix_rules in *.
  destruct env as [E|]; [|rewrite Hm in HP; injection HP as <-; split; [done|auto]].
  assert (Hh : host_executables_by_name P' = host_executables_by_name (merge_overlay (current m) E))
    by (destruct a; [done|by injection HP as <-]).
  assert (Hh' : host_executables_by_name (current m') = host_executables_by_name (current m))
    by (destruct a; [done|by injection Hm as <-]).
  split; [rewrite Hh; simpl; by rewrite Hh'|]. intros k r.
  rewrite (add_prefix_rules_of _ _ _ _ k HP), !merge_rules_of, (add_prefix_rules_of _ _ _ _ k Hm), !elem_of_app.
  tauto.
Qed.

Lemma fewer_allow_trusted P Q cmd : fewer_allow P Q → trusted_by_rules Q cmd → trusted_by_rules P cmd.
Proof.
  intros HPQ [Hne Hall]. split.
  - intros Hnil. by apply Hne, (fewer_allow_policy_nil P Q).
  - intros x Hx. destruct (fewer_allow_policy P Q cmd x HPQ Hx); [by apply Hall|done].
Qed.

Lemma fewer_allow_all P Q fb cmd :
  fewer_allow P Q → (∀ x, x ∈ matches_with Q fb cmd → match_decision x = Allow) →
  ∀ x, x ∈ matches_with P fb cmd → match_decision x = Allow.
Proof.
  intros HPQ Hall x Hx. destruct (fewer_allow_matches P Q fb cmd x HPQ Hx) as (y & Hy & Hr).
  rewrite (Hall y Hy) in Hr. by destruct (match_decision x); simpl in Hr; [|lia..].
Qed.

(** What is allowed after an amendment was added below an overlay. *)
Lemma amended_policy req m m' a :
  allow_prefix_rules req = Honor → a ≠ [] →
  add_prefix_rule a Allow (current m) = Ok (current m') →
  ∃ P', add_prefix_rule a Allow (policy_of m req) = Ok P' ∧ fewer_allow (policy_of m' req) P'.
Proof.
  intros Hh Hne Hadd. rewrite Hh.
  destruct (add_prefix_rule a Allow (current_for_environment m (environment_policy req) Honor)) as [P'|] eqn:E;
    [|by destruct a].
  exists P'. split; [done|]. by eapply add_below_overlay.
Qed.

Lemma amended_monotone m m' env a :
  m' = m ∨ add_prefix_rule a Allow (current m) = Ok (current m') →
  fewer_allow (current_for_environment m' env Honor) (current_for_environment m env Honor).
Proof.
  assert (Hrefl : ∀ P, fewer_allow P P) by (intros P; split; [done|auto]).
  unfold current_for_environment, current_for_prefix_rules.
  intros [->|Hadd]; [apply Hrefl|]. destruct env; [apply merge_fewer_allow|]; by eapply added_fewer_allow.
Qed.

Context {F : Type} {disk : PolicyDisk F} (json_string : rstring → result rstring rstring).
Notation append := (append_amendment_and_update windows json_string).

(** Appending a rule either finds it allowed already and changes nothing, or adds it. *)
Lemma append_cases sofia_home a m f m' f' :
  append sofia_home a m f = Some (Ok tt, m', f') →
  m' = m ∧ trusted_by_rules (current m) (amendment_command a) ∨
  add_prefix_rule (amendment_command a) Allow (current m) = Ok (current m').
Proof.
  intros Hap. unfold append_amendment_and_update in Hap.
  destruct (blocking_append_allow_prefix_rule _ _ _ _) as [[|] f1]; [|done].
  destruct (check_multiple_Some (current m) [amendment_command a] (λ _, Forbidden))
    as (e & He & Hm & Hs); [done|].
  rewrite He in Hap. simpl in Hap. case_bool_decide as Hd; simpl in Hap.
  2: { right. destruct (add_prefix_rule _ _ _) as [P'|]; by simplify_eq/=. }
  destruct (existsb (is_policy_decision Allow) (matched_rules e)) eqn:Ex.
  2: { right. destruct (add_prefix_rule _ _ _) as [P'|]; by simplify_eq/=. }
  left. split; [by simplify_eq/=|].
  assert (Hall : ∀ x, x ∈ matches_with (current m) (λ _, Forbidden) (amendment_command a) → match_decision x = Allow).
  { intros x Hx. rewrite Hd in Hs. apply strictest_Allow in Hs as [_ Hs]. apply Hs, decision_in.
    exists (amendment_command a). split; [by left|done]. }
  unfold trusted_by_rules. rewrite matches_with_eq in Hall.
  destruct (policy_matches (current m) (amendment_command a)) as [|y ys]; cbn [is_empty] in Hall.
  - by specialize (Hall _ (list_elem_of_here _ _)).
  - split; [done|exact Hall].
Qed.

(** C19: An accepted amendment has its effect.  When the requirement of a command proposes
    an amendment and appending it succeeds, the same command under the same request, with
    its environment policy if it has one, afterwards runs without asking; or else the
    command line has several commands, and the amendment is one of them, now allowed by a
    rule.  The one exception needs an environment policy: when the policy of the session
    alone already allows the amendment, nothing is added, and the command asks as before.
    No command line is decided more strictly than before, in any environment.  The file
    names of executables are assumed not to be absolute paths. *)
Theorem accepted_amendment_effective sofia_home m req platform reason a f m' f' :
  names_relative →
  create_exec_approval_requirement_for_command_platform windows m req platform
    = Some (NeedsApproval reason (Some a)) →
  append sofia_home a m f = Some (Ok tt, m', f') →
  let cmds := commands (commands_for_exec_policy_for_platform (req_command req) platform) in
  ((is_Some (environment_policy req) ∧ m' = m ∧ trusted_by_rules (current m) (amendment_command a)) ∨
   ∃ r, create_exec_approval_requirement_for_command_platform windows m' req platform = Some r ∧
    ((∃ b x, r = Skip b x) ∨
     amendment_command a ∈ cmds ∧ length cmds ≠ 1 ∧ trusted_by_rules (policy_of m' req) (amendment_command a))) ∧
  (∀ env fb cs, cs ≠ [] → ∃ e' e,
     check_multiple_with_options windows (current_for_environment m' env Honor) cs fb match_options = Some e' ∧
     check_multiple_with_options windows (current_for_environment m env Honor) cs fb match_options = Some e ∧
     decision_rank (eval_decision e') ≤ decision_rank (eval_decision e)).
Proof.
  intros Hrel Hc Hap cmds.
  set (pc := commands_for_exec_policy_for_platform (req_command req) platform) in *.
  assert (Hne : commands pc ≠ []) by apply commands_for_exec_policy_nonempty.
  destruct (proposed_cases m req pc platform reason a Hne Hc) as (Hh & (c & x & Hcin & Hx & Hp) & Hcase).
  assert (Hnil : policy_matches (policy_of m req) (amendment_command a) = []).
  { destruct Hcase as [Hreq|[_ ?]]; [|done]. by eapply requested_unmatched. }
  pose proof (append_cases _ _ _ _ _ _ Hap) as Happ. split.
  2: { intros env fb cs Hcs. apply fewer_allow_check; [|done]. apply (amended_monotone m m' env (amendment_command a)). tauto. }
  destruct Happ as [[-> Ht]|Hadd].
  { left. split; [|done]. unfold current_for_environment in Hnil. rewrite Hh in Hnil.
    destruct (environment_policy req); [done|]. by destruct Ht. }
  right. assert (Hane : amendment_command a ≠ []) by (intros Hz; by rewrite Hz in Hadd).
  destruct (amended_policy req m m' _ Hh Hane Hadd) as (P' & HP' & Hfew).
  destruct (parsed_outcome m' req pc platform Hne) as (r & Hr & Hskip & _). exists r. split; [exact Hr|].
  destruct Hcase as [(_ & _ & _ & P2 & Ha & Hall)|[Hin _]].
  - left. apply Hskip. intros cmd Hcmd. rewrite HP' in Ha. injection Ha as <-.
    apply cleared_iff. eapply fewer_allow_all; [done|]. intros y. by apply Hall.
  - pose proof (fewer_allow_trusted _ _ _ Hfew (added_trusted _ _ _ HP' Hnil)) as Ht.
    destruct (decide (length cmds = 1)) as [Hl|]; [left|by right].
    apply Hskip. intros cmd Hcmd. left. subst cmds. destruct (commands pc) as [|z [|]]; try done.
    apply list_elem_of_singleton in Hin, Hcmd. by subst.
Qed.
End Spec.

(** ** Witnesses, with Unix paths and without script parsers *)
Definition text_pieces (p : rstring) : list rstring := filter (λ s, s ≠ []) (split_on SLASH p).
#[global] Instance text_uris : PathUriView rstring := {|
  path_uri_eqb := str_eqb;
  infer_path_convention _ := Some PosixPaths;
  lexical_depth p := Some (length (text_pieces p));
  path_uri_parent p :=
    match text_pieces p with [] => None | ps => Some (SLASH :: join [SLASH] (removelast ps)) end;
  path_uri_basename p := last (text_pieces p);
|}.

#[local] Instance no_crates : ShellCrates := {|
  shlex_split _ := None; shlex_try_join _ := None; url_capture _ := None; url_scheme _ := None;
  parse_shell_lc_literal_commands _ := None; parse_shell_lc_plain_commands _ := None;
  try_parse_powershell_commands _ := None;
|}.

Lemma unix_names_relative : names_relative (AbsPath := unix_path) false.
Proof.
  intros p k Hk.
  unfold executable_path_lookup_key in Hk. simpl in Hk.
  destruct (unix_file_name (unix_text p)) as [name|] eqn:E; [|done]. injection Hk as <-.
  unfold unix_file_name in E. destruct (last (unix_components (unix_text p))) as [c|] eqn:El; [|done].
  simpl in E. destruct (bool_decide _); [done|]. injection E as ->.
  apply last_Some in El as [l El]. assert (Hin : name ∈ unix_components (unix_text p)).
  { rewrite El. apply elem_of_app. right. by apply list_elem_of_singleton. }
  unfold unix_components in Hin. apply list_elem_of_filter in Hin as [_ Hin].
  apply split_on_elem in Hin. simpl. unfold unix_is_absolute.
  destruct (starts_with (str "/") name) eqn:Es; [|eauto].
  apply starts_with_true in Es as [t ->]. destruct Hin. apply elem_of_app. left. left.
Qed.

Definition cargo_test : list rstring := [str "cargo"; str "test"].
Definition demo_request (command : list rstring) (permissions : SandboxPermissions)
    : ExecApprovalRequest unix_path rstring :=
  mkRequest command OnRequest (Managed (ManagedRestricted [] None) NetworkRestricted) None WindowsDisabled
    permissions (Some [str "cargo"]) Honor.
Definition empty_manager : ExecPolicyManager unix_path := mkManager empty_policy.
Definition cargo_manager : ExecPolicyManager unix_path :=
  mkManager (mkPolicy {[ str "cargo" := [mkRule (mkPattern (str "cargo") []) Allow None] ]} [] ∅).
Definition cargo_amendment : ExecPolicyAmendment := mkAmendment [str "cargo"].

(** An environment policy that brings a rule of its own. *)
Definition docs_environment : Policy unix_path :=
  mkPolicy {[ str "man" := [mkRule (mkPattern (str "man") []) Allow None] ]} [] ∅.
Definition environment_request (command : list rstring) (env : Policy unix_path)
    : ExecApprovalRequest unix_path rstring :=
  mkRequest command OnRequest (Managed (ManagedRestricted [] None) NetworkRestricted) (Some env) WindowsDisabled
    RequireEscalated (Some [str "cargo"]) Honor.

Lemma accepted_amendment_effective_witness :
  let req := environment_request cargo_test docs_environment in
  let cmds := commands (commands_for_exec_policy_for_platform (req_command req) Posix) in
  let P := current_for_environment cargo_manager (environment_policy req) (allow_prefix_rules req) in
  (is_Some (environment_policy req) ∧ cargo_manager = empty_manager ∧
     trusted_by_rules false (current empty_manager) (amendment_command cargo_amendment)) ∨
  ∃ r, create_exec_approval_requirement_for_command_platform false cargo_manager req Posix = Some r ∧
    ((∃ b x, r = Skip b x) ∨
     amendment_command cargo_amendment ∈ cmds ∧ length cmds ≠ 1 ∧
     trusted_by_rules false P (amendment_command cargo_amendment)).
Proof.
  intros req cmds P.
  set (f' := snd (default (Ok tt, empty_manager, ∅) (append_amendment_and_update false plain_json (str "/home")
        cargo_amendment empty_manager (∅ : gmap rstring rstring)))).
  assert (Hap : append_amendment_and_update false plain_json (str "/home") cargo_amendment empty_manager
    (∅ : gmap rstring rstring) = Some (Ok tt, cargo_manager, f')) by (vm_compute; reflexivity).
  assert (Hc : create_exec_approval_requirement_for_command_platform false empty_manager req Posix
    = Some (NeedsApproval None (Some cargo_amendment))) by (vm_compute; reflexivity).
  exact (proj1 (accepted_amendment_effective false plain_json (str "/home") empty_manager req Posix None
    cargo_amendment ∅ cargo_manager f' unix_names_relative Hc Hap)).
Defined.

(** The exception: the policy of the session allows [git] at its usual path, the
    environment knows another path only.  The command at the usual path asks and an
    amendment is proposed; accepting it changes nothing, and the command asks again. *)
Definition usual_git : list rstring := [str "/usr/bin/git"; str "status"].
Definition git_paths (p : rstring) : gmap rstring (list unix_path) :=
  {[ str "git" := [mkUnixPath p] ]}.
Definition git_manager : ExecPolicyManager unix_path :=
  mkManager (mkPolicy {[ str "git" := [mkRule (mkPattern (str "git") []) Allow None] ]} []
    (git_paths (str "/usr/bin/git"))).
Definition git_environment : Policy unix_path := mkPolicy ∅ [] (git_paths (str "/opt/git")).
Definition git_amendment : ExecPolicyAmendment := mkAmendment usual_git.

Example overlay_amendment_without_effect :
  let req := environment_request usual_git git_environment in
  let asks := Some (NeedsApproval None (Some git_amendment)) in
  create_exec_approval_requirement_for_command_platform false git_manager req Posix = asks ∧
  ∃ f', append_amendment_and_update false plain_json (str "/home") git_amendment git_manager
    (∅ : gmap rstring rstring) = Some (Ok tt, git_manager, f').
Proof. split; [by vm_compute|]. eexists. vm_compute. reflexivity. Qed.

Lemma unfamiliar_executable_judged_witness :
  let req := demo_request [str "/tmp/bash"; str "-c"; str "ls"] UseDefault in
  let shell := mkShell Bash (str "/opt/bash") in
  let inner := shell_policy_commands (req_command req) Posix in
  let P := current_for_environment empty_manager (environment_policy req) (allow_prefix_rules req) in
  ∃ r, create_exec_approval_requirement_for_shell false empty_manager req shell Direct Posix = Some r ∧
    ((∃ b a, r = Skip b a) ↔
       cleared false req (command_origin inner) Posix P [str "/tmp/bash"] ∧
       ∀ cmd, cmd ∈ commands inner → cleared false req (command_origin inner) Posix P cmd) ∧
    (∀ a, r = Skip true a → trusted_by_rules false P [str "/tmp/bash"]).
Proof.
  intros req shell inner P.
  assert (Hs : path_eqb (str "/tmp/bash") (shell_path shell) = false) by (vm_compute; reflexivity).
  assert (Hsys : is_system_shell (str "/tmp/bash") = false) by (vm_compute; reflexivity).
  exact (unfamiliar_executable_judged false empty_manager req shell Posix
    (str "/tmp/bash") (str "-c") [str "ls"] eq_refl Hs Hsys).
Defined.

Lemma first_attempt_bypass_justified_witness :
  let req := demo_request cargo_test UseDefault in
  let policy := file_system_sandbox_policy (permission_profile req) in
  has_denied_read_restrictions true policy = false ∧
  ∀ cmd, cmd ∈ commands (commands_for_exec_policy_for_platform (req_command req) Posix) →
    trusted_by_rules false
      (current_for_environment cargo_manager (environment_policy req) (allow_prefix_rules req)) cmd ∨
    sandbox_permissions req = RequireEscalated ∧
    (sandbox_kind policy ≠ Restricted ∨ is_Some (prompt_is_rejected_by_policy (approval_policy req) false)).
Proof.
  intros req policy.
  assert (Hr : create_exec_approval_requirement_for_command_platform false cargo_manager req Posix
    = Some (Skip true None)) by (vm_compute; reflexivity).
  exact (first_attempt_bypass_justified false cargo_manager req Posix true true None Hr eq_refl).
Defined.

(** An executable outside the system directories is not trusted by its name, and a path
    that leaves a system directory is not in it. *)
Lemma shell_identity_examples :
  is_system_shell (str "/bin/bash") = true ∧ is_system_shell (str "/usr//bin/./zsh") = true ∧
  is_system_shell (str "/bin/../workspace/bash") = false ∧ is_system_shell (str "bash") = false.
Proof. by vm_compute. Qed.
