(* ===== verification/ReverseScanner.v ===== *)
(** * Reading records from the end of a file

    Models [sofia-rs/rollout/src/reverse_jsonl_scanner.rs]: a scanner that reads a file
    of newline separated records in chunks from its end and returns the records last
    first, skipping blank records and, on request, records that are too long without
    buffering them.  The reader is the interface [ReadSeek] ([std::io::Read] and
    [std::io::Seek]), JSON decoding is a parameter. *)

From stdpp Require Import base list numbers strings.
From S2P Require Import Prelude Machine FileUpdate.

#[local] Set Default Proof Using "Type*".

(** ** The reader *)
Class ReadSeek (R : Type) := {
  seek_end : R → result io_error N * R;
  seek_start : N → R → result io_error N * R;
  read_exact : nat → R → result io_error (list N) * R;
}.

(** A reader of a file with fixed contents and a position. *)
Class ReadSeekLaws (R : Type) `{!ReadSeek R} := {
  contents : R → list N;
  position : R → nat;
  seek_end_ok r : ∃ r', seek_end r = (Ok (len (contents r)), r') ∧ contents r' = contents r;
  seek_start_ok p r : ∃ r', seek_start p r = (Ok p, r') ∧ contents r' = contents r ∧ position r' = N.to_nat p;
  read_exact_ok n r : position r + n ≤ length (contents r) →
    ∃ r', read_exact n r = (Ok (take n (drop (position r) (contents r))), r') ∧ contents r' = contents r;
}.

(** ** The scanner *)
Definition READ_CHUNK_SIZE : N := 64 * 1024.

Inductive ScanOutcome (E T : Type) := Parsed (value : T) | Rejected (error : E).
Arguments Parsed {E T} _.
Arguments Rejected {E T} _.

(** [u8::is_ascii_whitespace]. *)
Definition is_ascii_whitespace (c : N) : bool :=
  ((c =? 32) || (c =? 9) || (c =? 10) || (c =? 12) || (c =? 13))%N.

(** [Iterator::rposition]. *)
Fixpoint rposition (P : N → bool) (l : list N) : option nat :=
  match l with
  | [] => None
  | x :: l' =>
      match rposition P l' with
      | Some i => Some (S i)
      | None => if P x then Some 0 else None
      end
  end.

Section Scanner.
Context {R : Type} `{!ReadSeek R} {E T : Type} (from_slice : list N → result E T).

Record ReverseJsonlScanner := mkScanner {
  reader : R;
  next_chunk_end : N;
  chunk_position : nat;
  chunk : list N;
  record_reversed : list N;
  max_record_bytes : option N;
  discarding_oversized_record : bool;
}.
Implicit Types s : ReverseJsonlScanner.

Definition new_at (r : R) (end_byte_offset : N) : result io_error ReverseJsonlScanner :=
  let '(file_len, r) := seek_end r in
  file_len ← file_len;
  if (file_len <? end_byte_offset)%N
  then Err (mkIoError InvalidInput (str "reverse JSONL scan end is past the file"))
  else Ok (mkScanner r end_byte_offset 0 (replicate (N.to_nat READ_CHUNK_SIZE) 0%N) [] None false).

Definition new_scanner (r : R) : result io_error ReverseJsonlScanner :=
  let '(next_chunk_end, r) := seek_end r in
  next_chunk_end ← next_chunk_end;
  new_at r next_chunk_end.

Definition with_max_record_bytes (max : N) (s : ReverseJsonlScanner) : ReverseJsonlScanner :=
  mkScanner (reader s) (next_chunk_end s) (chunk_position s) (chunk s) (record_reversed s) (Some max)
    (discarding_oversized_record s).

Definition set_record (rr : list N) (discarding : bool) (s : ReverseJsonlScanner) : ReverseJsonlScanner :=
  mkScanner (reader s) (next_chunk_end s) (chunk_position s) (chunk s) rr (max_record_bytes s) discarding.
Definition set_position (p : nat) (s : ReverseJsonlScanner) : ReverseJsonlScanner :=
  mkScanner (reader s) (next_chunk_end s) p (chunk s) (record_reversed s) (max_record_bytes s)
    (discarding_oversized_record s).

Definition record_outcome (record : list N) : option (ScanOutcome E T) :=
  if forallb is_ascii_whitespace record then None
  else Some (match from_slice record with Ok value => Parsed value | Err error => Rejected error end).

Definition finish_record (s : ReverseJsonlScanner)
    : option (ScanOutcome E T) * ReverseJsonlScanner :=
  (record_outcome (reverse (record_reversed s)), set_record [] (discarding_oversized_record s) s).

(** The handling of a fragment, alike in both branches of the loop. *)
Definition take_fragment (fragment : list N) (s : ReverseJsonlScanner) : ReverseJsonlScanner :=
  if discarding_oversized_record s then s
  else if is_some_and (max_record_bytes s)
            (λ max, (max <? sat_add USIZE_MAX (len (record_reversed s)) (len fragment))%N)
  then set_record [] true s
  else set_record (record_reversed s ++ reverse fragment) false s.

(** Reading the chunk before the last one. *)
Definition load_chunk (s : ReverseJsonlScanner) : result io_error unit * ReverseJsonlScanner :=
  let read_size := (next_chunk_end s `min` READ_CHUNK_SIZE)%N in
  let next := (next_chunk_end s - read_size)%N in
  let with_reader r data p :=
    mkScanner r next p data (record_reversed s) (max_record_bytes s) (discarding_oversized_record s) in
  let '(sought, r) := seek_start next (reader s) in
  match sought with
  | Err e => (Err e, with_reader r (chunk s) (chunk_position s))
  | Ok _ =>
      let '(data, r) := read_exact (N.to_nat read_size) r in
      match data with
      | Err e => (Err e, with_reader r (chunk s) (chunk_position s))
      | Ok data => (Ok tt, with_reader r (data ++ drop (N.to_nat read_size) (chunk s)) (N.to_nat read_size))
      end
  end.

Inductive flow := Return (result : result io_error (option (ScanOutcome E T))) | Continue.

(** The part of the loop that looks for a newline in the loaded chunk. *)
Definition scan_chunk (s : ReverseJsonlScanner) : flow * ReverseJsonlScanner :=
  let loaded := take (chunk_position s) (chunk s) in
  match rposition (N.eqb LF) loaded with
  | Some newline_position =>
      let s := set_position newline_position (take_fragment (drop (newline_position + 1) loaded) s) in
      if discarding_oversized_record s then (Continue, set_record (record_reversed s) false s)
      else
        let '(outcome, s) := finish_record s in
        (match outcome with Some o => Return (Ok (Some o)) | None => Continue end, s)
  | None => (Continue, set_position 0 (take_fragment loaded s))
  end.

(** One round of the loop. *)
Definition scan_round (s : ReverseJsonlScanner) : flow * ReverseJsonlScanner :=
  if chunk_position s =? 0 then
    if (next_chunk_end s =? 0)%N then
      if discarding_oversized_record s
      then (Return (Ok None), set_record (record_reversed s) false s)
      else let '(outcome, s) := finish_record s in (Return (Ok outcome), s)
    else
      let '(loaded, s) := load_chunk s in
      match loaded with
      | Err e => (Return (Err e), s)
      | Ok _ => scan_chunk s
      end
  else scan_chunk s.

(** The loop, with fuel; [None] is the end of the fuel. *)
Fixpoint scan_loop (fuel : nat) (s : ReverseJsonlScanner)
    : option (result io_error (option (ScanOutcome E T)) * ReverseJsonlScanner) :=
  match fuel with
  | O => None
  | S fuel' =>
      match scan_round s with
      | (Return r, s) => Some (r, s)
      | (Continue, s) => scan_loop fuel' s
      end
  end.

(** The bytes still to be looked at. *)
Definition unread (s : ReverseJsonlScanner) : nat := N.to_nat (next_chunk_end s) + chunk_position s.

Definition scan_next (s : ReverseJsonlScanner)
    : option (result io_error (option (ScanOutcome E T)) * ReverseJsonlScanner) :=
  scan_loop (S (unread s)) s.
End Scanner.
Arguments ReverseJsonlScanner : clear implicits.
Arguments flow : clear implicits.

(** Records decoded in two steps. *)
Definition scan_next_rollout_line {R} `{!ReadSeek R} {E V L} (from_slice : list N → result E V)
    (decode_rollout_line : V → result E L) (s : ReverseJsonlScanner R)
    : option (result io_error (option (ScanOutcome E L)) * ReverseJsonlScanner R) :=
  '(r, s) ← scan_next from_slice s;
  Some (match r with
        | Err e => Err e
        | Ok None => Ok None
        | Ok (Some (Parsed value)) =>
            Ok (Some (match decode_rollout_line value with Ok line => Parsed line | Err error => Rejected error end))
        | Ok (Some (Rejected error)) => Ok (Some (Rejected error))
        end, s).

(** ** Splitting at the last newline *)
Lemma rposition_Some P l i :
  rposition P l = Some i →
  ∃ x, l = take i l ++ x :: drop (i + 1) l ∧ P x = true ∧ Forall (λ y, P y = false) (drop (i + 1) l) ∧ i < length l.
Proof.
  revert i. induction l as [|x l IH]; intros i; simpl; [done|].
  destruct (rposition P l) as [j|] eqn:Ej.
  - intros [= <-]. destruct (IH j eq_refl) as (y & Hl & Hy & Hf & Hj). exists y. simpl.
    split; [by rewrite <- Hl|]. split; [done|]. split; [done|lia].
  - destruct (P x) eqn:Ex; [|done]. intros [= <-]. exists x. simpl. rewrite drop_0.
    split_and!; [done..| |lia].
    clear -Ej. induction l as [|y l IH]; [constructor|]. simpl in Ej.
    destruct (rposition P l) eqn:El; [done|]. destruct (P y) eqn:Ey; [done|]. constructor; [done|auto].
Qed.

Lemma rposition_None P l : rposition P l = None → Forall (λ y, P y = false) l.
Proof.
  induction l as [|y l IH]; simpl; [constructor|].
  destruct (rposition P l) eqn:El; [done|]. destruct (P y) eqn:Ey; [done|]. constructor; auto.
Qed.

Lemma Forall_not_LF l : Forall (λ y, (LF =? y)%N = false) l → LF ∉ l.
Proof. rewrite Forall_forall. intros H Hin. by specialize (H _ Hin). Qed.

Lemma split_on_snoc s t : LF ∉ t → split_on LF (s ++ LF :: t) = split_on LF s ++ [t].
Proof. intros H. by rewrite split_on_app_any, (split_on_none LF t H). Qed.

(** The pieces before the last line break, and the text after it. *)
Definition complete (s : list N) : list (list N) := removelast (split_on LF s).
Definition partial (s : list N) : list N := List.last (split_on LF s) [].

Lemma split_complete s : split_on LF s = complete s ++ [partial s].
Proof. apply app_removelast_last, split_on_not_nil. Qed.

Lemma complete_partial_LF s t :
  LF ∉ t → complete (s ++ LF :: t) = split_on LF s ∧ partial (s ++ LF :: t) = t.
Proof.
  intros H. unfold complete, partial. rewrite split_on_snoc by done.
  by rewrite removelast_last, List.last_last.
Qed.

Lemma complete_partial_app s t :
  LF ∉ t → complete (s ++ t) = complete s ∧ partial (s ++ t) = partial s ++ t.
Proof.
  intros Ht.
  assert (Hs : split_on LF (s ++ t) = complete s ++ [partial s ++ t]).
  { destruct (decide (LF ∈ s)) as [Hin|Hn].
    - destruct (rposition (N.eqb LF) s) as [i|] eqn:Ei.
      + apply rposition_Some in Ei as (x & Hl & Hx%N.eqb_eq & Hf%Forall_not_LF & _). subst x.
        rewrite Hl. destruct (complete_partial_LF (take i s) (drop (i + 1) s) Hf) as [-> ->].
        rewrite <- app_assoc. simpl. rewrite split_on_snoc; [done|].
        rewrite elem_of_app. by intros [?|?].
      + by apply rposition_None, Forall_not_LF in Ei.
    - unfold complete, partial. rewrite (split_on_none LF s Hn). simpl.
      rewrite split_on_none; [done|]. rewrite elem_of_app. by intros [?|?]. }
  unfold complete at 1, partial at 1. rewrite Hs. by rewrite removelast_last, List.last_last.
Qed.

(** ** The specification *)
Section Spec.
Context {R : Type} `{!ReadSeek R} `{!ReadSeekLaws R} {E T : Type} (from_slice : list N → result E T).
Notation scanner := (ReverseJsonlScanner R).
Notation outcome_of := (record_outcome from_slice).
Implicit Types s : scanner.

(** The outcomes of the records of a text, last record first: records longer than the
    limit and blank records are left out. *)
Definition within (max : option N) (record : list N) : bool :=
  negb (is_some_and max (λ m, (m <? len record)%N)).
Definition kept_outcome (max : option N) (record : list N) : option (ScanOutcome E T) :=
  if within max record then outcome_of record else None.
Definition records_reversed (max : option N) (text : list N) : list (ScanOutcome E T) :=
  omap (kept_outcome max) (reverse (split_on LF text)).

(** What is left to return: [dead] says that the current record is being skipped, [pend]
    is the part of it that was read. *)
Definition todo (max : option N) (dead : bool) (pend text : list N) : list (ScanOutcome E T) :=
  omap (kept_outcome max)
    ((if dead then [] else [partial text ++ pend]) ++ reverse (complete text)).

Lemma todo_start max text : todo max false [] text = records_reversed max text.
Proof.
  unfold todo, records_reversed. rewrite app_nil_r, split_complete, reverse_app. done.
Qed.

Lemma kept_outcome_nil max : kept_outcome max [] = None.
Proof. unfold kept_outcome, record_outcome. by destruct (within max []). Qed.

Lemma records_reversed_nil max : records_reversed max [] = [].
Proof.
  unfold records_reversed. change (reverse (split_on LF [])) with [@nil N].
  change (omap (kept_outcome max) [[]]) with
    (match kept_outcome max [] with Some o => [o] | None => [] end).
  by rewrite kept_outcome_nil.
Qed.

Lemma todo_newline max dead pend before fragment :
  LF ∉ fragment →
  todo max dead pend (before ++ LF :: fragment) =
  omap (kept_outcome max) (if dead then [] else [fragment ++ pend]) ++ records_reversed max before.
Proof.
  intros H. unfold todo, records_reversed.
  destruct (complete_partial_LF before fragment H) as [-> ->]. by rewrite omap_app.
Qed.

Lemma todo_fragment max pend base fragment :
  LF ∉ fragment → todo max false pend (base ++ fragment) = todo max false (fragment ++ pend) base.
Proof.
  intros H. unfold todo. destruct (complete_partial_app base fragment H) as [-> ->].
  by rewrite <- app_assoc.
Qed.

Lemma todo_dead max pend base fragment :
  LF ∉ fragment → todo max true pend (base ++ fragment) = todo max true pend base.
Proof. intros H. unfold todo. by destruct (complete_partial_app base fragment H) as [-> _]. Qed.

(** A record that is too long is not returned. *)
Lemma todo_oversized max pend text :
  within max pend = false → todo max false pend text = todo max true pend text.
Proof.
  intros Hw. unfold todo. rewrite omap_app. simpl. unfold kept_outcome at 1.
  assert (within max (partial text ++ pend) = false) as ->; [|done].
  unfold within in *. destruct max as [m|]; [|done]. simpl in *.
  apply negb_false_iff, N.ltb_lt. apply negb_false_iff, N.ltb_lt in Hw. rewrite len_app. lia.
Qed.

(** ** The loop *)
Definition abs_todo s (text : list N) : list (ScanOutcome E T) :=
  todo (max_record_bytes s) (discarding_oversized_record s) (reverse (record_reversed s)) text.

Definition remaining_text s : list N :=
  take (N.to_nat (next_chunk_end s)) (contents (reader s)) ++ take (chunk_position s) (chunk s).

(** The invariant of a scanner of a file with contents [c]. *)
Record scan_inv (c : list N) s : Prop := {
  inv_contents : contents (reader s) = c;
  inv_end : (next_chunk_end s ≤ len c)%N;
  inv_position : chunk_position s ≤ length (chunk s);
  inv_record : LF ∉ record_reversed s;
  inv_within : within (max_record_bytes s) (reverse (record_reversed s)) = true;
  inv_discarding : discarding_oversized_record s = true → record_reversed s = [];
  inv_size : (len (record_reversed s) + N.of_nat (unread s) ≤ USIZE_MAX)%N;
}.

Lemma len_reverse {A} (l : list A) : len (reverse l) = len l.
Proof. unfold len. by rewrite length_reverse. Qed.

(** A fragment moves from the text to the current record. *)
Lemma take_fragment_spec fragment s base :
  LF ∉ fragment → (len (record_reversed s) + len fragment ≤ USIZE_MAX)%N → LF ∉ record_reversed s →
  within (max_record_bytes s) (reverse (record_reversed s)) = true →
  (discarding_oversized_record s = true → record_reversed s = []) →
  ∃ rr dead, take_fragment fragment s = set_record rr dead s ∧
    abs_todo (set_record rr dead s) base = abs_todo s (base ++ fragment) ∧
    LF ∉ rr ∧ within (max_record_bytes s) (reverse rr) = true ∧ (dead = true → rr = []) ∧
    (len rr ≤ len (record_reversed s) + len fragment)%N.
Proof.
  intros Hf Hsize Hlf Hw Hd. unfold take_fragment, abs_todo.
  destruct (discarding_oversized_record s) eqn:Edead; simpl.
  { exists (record_reversed s), true. split; [by destruct s; simpl in *; subst|].
    rewrite todo_dead by done. split_and!; auto; lia. }
  unfold sat_add. rewrite N.min_l by done.
  destruct (is_some_and _ _) eqn:Eover; simpl.
  - exists [], true. split; [done|]. rewrite todo_fragment by done. rewrite todo_oversized.
    + split_and!; try done; [apply not_elem_of_nil|destruct (max_record_bytes s); [by destruct n|done]|unfold len; simpl; lia].
    + unfold within. apply negb_false_iff. rewrite <- Eover. destruct (max_record_bytes s); [|done]. simpl.
      rewrite len_app, len_reverse. f_equal. lia.
  - exists (record_reversed s ++ reverse fragment), false. split; [done|].
    rewrite todo_fragment by done. rewrite reverse_app, reverse_involutive. split_and!; try done.
    + rewrite elem_of_app, elem_of_reverse. by intros [?|?].
    + unfold within. apply negb_true_iff. rewrite <- Eover. destruct (max_record_bytes s); [|done]. simpl.
      rewrite len_app, len_reverse. f_equal. lia.
    + rewrite len_app, len_reverse. lia.
Qed.

Lemma records_cons (max : option N) pend before :
  within max pend = true →
  todo max false pend (before ++ [LF]) =
  match outcome_of pend with Some o => [o] | None => [] end ++ records_reversed max before.
Proof.
  intros Hw. rewrite (todo_newline max false pend before []) by apply not_elem_of_nil. simpl.
  unfold kept_outcome at 1. rewrite Hw. by destruct (outcome_of pend).
Qed.

(** What a round does to the outcomes that are left. *)
Definition round_ok (c : list N) s (f : flow E T) s' : Prop :=
  match f with
  | Continue =>
      scan_inv c s' ∧ unread s' < unread s ∧ abs_todo s' (remaining_text s') = abs_todo s (remaining_text s)
  | Return (Ok (Some o)) =>
      scan_inv c s' ∧ unread s' ≤ unread s ∧
      abs_todo s (remaining_text s) = o :: abs_todo s' (remaining_text s')
  | Return (Ok None) =>
      scan_inv c s' ∧ unread s' = 0 ∧ abs_todo s (remaining_text s) = [] ∧ abs_todo s' (remaining_text s') = []
  | Return (Err _) => False
  end.

Lemma set_record_inv c s rr dead p :
  scan_inv c s → p ≤ chunk_position s → LF ∉ rr →
  within (max_record_bytes s) (reverse rr) = true → (dead = true → rr = []) →
  (len rr + N.of_nat p ≤ len (record_reversed s) + N.of_nat (chunk_position s))%N →
  scan_inv c (set_position p (set_record rr dead s)).
Proof.
  intros [Hc He Hp Hr Hw Hd Hs] Hle Hlf Hw' Hd' Hsz. split; simpl; try done; [lia|].
  unfold unread in *. simpl. lia.
Qed.

Lemma scan_chunk_ok c s f s' :
  scan_inv c s → 0 < chunk_position s → scan_chunk from_slice s = (f, s') → round_ok c s f s'.
Proof.
  intros Hinv Hpos. pose proof Hinv as [Hc He Hp Hr Hw Hd Hsz]. unfold scan_chunk, unread in *.
  set (loaded := take (chunk_position s) (chunk s)).
  assert (Hlen : length loaded = chunk_position s) by (unfold loaded; rewrite length_take; lia).
  destruct (rposition (N.eqb LF) loaded) as [i|] eqn:Ei.
  - apply rposition_Some in Ei as (x & Hl & Hx%N.eqb_eq & Hf%Forall_not_LF & Hi). subst x.
    assert (Hti : take i (chunk s) = take i loaded) by (unfold loaded; rewrite take_take; f_equal; lia).
    assert (Hfl : length (drop (i + 1) loaded) = chunk_position s - (i + 1)) by (rewrite length_drop; lia).
    set (before := take (N.to_nat (next_chunk_end s)) (contents (reader s)) ++ take i loaded).
    destruct (take_fragment_spec (drop (i + 1) loaded) s (before ++ [LF])) as (rr & dead & -> & Htodo & Hlf & Hw' & Hd' & Hsz');
      [done|unfold len in *; lia|done..|].
    assert (Htext : remaining_text s = (before ++ [LF]) ++ drop (i + 1) loaded).
    { unfold remaining_text, before. fold loaded. rewrite Hl at 1. by rewrite <- !app_assoc. }
    assert (Hrest : ∀ rr' d, remaining_text (set_position i (set_record rr' d s)) = before)
      by (intros; unfold remaining_text, before; simpl; by rewrite Hti).
    assert (Hinv' : ∀ d, scan_inv c (set_position i (set_record [] d s))).
    { intros d. apply set_record_inv; [done|lia|apply not_elem_of_nil| |done|unfold len; simpl; lia].
      destruct (max_record_bytes s) as [[]|]; done. }
    rewrite <- Htext in Htodo. unfold abs_todo in Htodo. simpl in Htodo. simpl.
    destruct dead; simpl.
    + rewrite (Hd' eq_refl) in *. intros [= <- <-].
      change (set_record [] false (set_position i (set_record [] true s)))
        with (set_position i (set_record [] false s)).
      split; [apply Hinv'|]. split; [unfold unread; simpl; lia|].
      unfold abs_todo. rewrite Hrest. simpl. rewrite todo_start, <- Htodo.
      rewrite (todo_newline _ true [] before []) by apply not_elem_of_nil. done.
    + rewrite (records_cons _ _ _ Hw') in Htodo.
      change (set_record [] false (set_position i (set_record rr false s)))
        with (set_position i (set_record [] false s)).
      destruct (outcome_of (reverse rr)) as [o|]; intros [= <- <-]; simpl in Htodo.
      * split; [apply Hinv'|]. split; [unfold unread; simpl; lia|].
        unfold abs_todo. rewrite Hrest. simpl. by rewrite todo_start, <- Htodo.
      * split; [apply Hinv'|]. split; [unfold unread; simpl; lia|].
        unfold abs_todo. rewrite Hrest. simpl. by rewrite todo_start, <- Htodo.
  - apply rposition_None, Forall_not_LF in Ei. intros [= <- <-].
    destruct (take_fragment_spec loaded s (take (N.to_nat (next_chunk_end s)) (contents (reader s))))
      as (rr & dead & -> & Htodo & Hlf & Hw' & Hd' & Hsz'); [done|unfold len in *; lia|done..|].
    split; [apply set_record_inv; [done|lia|done..|unfold len in *; lia]|].
    split; [unfold unread; simpl; lia|]. unfold remaining_text at 1. simpl. rewrite take_0, app_nil_r. exact Htodo.
Qed.

Lemma load_chunk_ok c s :
  scan_inv c s → chunk_position s = 0 → next_chunk_end s ≠ 0%N →
  ∃ s', load_chunk s = (Ok tt, s') ∧ scan_inv c s' ∧ 0 < chunk_position s' ∧ unread s' = unread s ∧
    remaining_text s' = remaining_text s ∧ abs_todo s' = abs_todo s.
Proof.
  intros [Hc He Hp Hr Hw Hd Hsz] Hpos Hend. unfold load_chunk.
  set (rs := (next_chunk_end s `min` READ_CHUNK_SIZE)%N). set (next := (next_chunk_end s - rs)%N).
  assert (0 < rs ≤ next_chunk_end s)%N as Hrs by (unfold rs, READ_CHUNK_SIZE; lia).
  destruct (seek_start_ok next (reader s)) as (r1 & -> & Hc1 & Hpos1).
  destruct (read_exact_ok (N.to_nat rs) r1) as (r2 & -> & Hc2).
  { rewrite Hpos1, Hc1, Hc. unfold len in He. unfold next. lia. }
  rewrite Hpos1, Hc1. eexists. split; [done|]. set (data := take _ _).
  assert (Hdata : length data = N.to_nat rs).
  { unfold data. rewrite length_take, length_drop, Hc. unfold len in He. unfold next. lia. }
  assert (Hu : N.to_nat next + N.to_nat rs = N.to_nat (next_chunk_end s)) by (unfold next; lia).
  split; [|split; [simpl; lia|split; [unfold unread; simpl; lia|split; [|done]]]].
  - split; simpl; try done; [by rewrite Hc2, Hc1|unfold next; lia|rewrite length_app; lia|].
    unfold unread in *. simpl. lia.
  - unfold remaining_text. simpl. rewrite Hpos, take_0, app_nil_r, take_app_length' by done.
    rewrite Hc2, Hc1. unfold data. rewrite <- Hu. apply take_take_drop.
Qed.

Lemma scan_round_ok c s f s' : scan_inv c s → scan_round from_slice s = (f, s') → round_ok c s f s'.
Proof.
  intros Hinv. unfold scan_round. destruct (Nat.eqb_spec (chunk_position s) 0) as [Hp|Hp].
  2: { apply scan_chunk_ok; [done|lia]. }
  destruct (N.eqb_spec (next_chunk_end s) 0) as [He|He].
  - assert (Htext : remaining_text s = []).
    { unfold remaining_text. by rewrite Hp, He, !take_0. }
    pose proof Hinv as [_ _ _ _ Hw Hd _].
    assert (Hinv' : scan_inv c (set_record [] false s)).
    { replace (set_record [] false s) with (set_position (chunk_position s) (set_record [] false s))
        by by destruct s.
      apply set_record_inv; [done|lia|apply not_elem_of_nil| |done|unfold len; simpl; lia].
      destruct (max_record_bytes s) as [[]|]; done. }
    assert (Hdone : abs_todo (set_record [] false s) (remaining_text (set_record [] false s)) = []).
    { change (remaining_text (set_record [] false s)) with (remaining_text s). rewrite Htext.
      unfold abs_todo. cbn [set_record max_record_bytes discarding_oversized_record record_reversed].
      rewrite todo_start. apply records_reversed_nil. }
    destruct (discarding_oversized_record s) eqn:Edead.
    + intros [= <- <-]. rewrite (Hd eq_refl). split; [done|]. split; [unfold unread; simpl; lia|].
      split; [|done]. rewrite Htext. unfold abs_todo. by rewrite Edead.
    + unfold finish_record. rewrite Edead. intros [= <- <-].
      assert (Hs : abs_todo s (remaining_text s) =
        match outcome_of (reverse (record_reversed s)) with Some o => [o] | None => [] end).
      { rewrite Htext. unfold abs_todo. rewrite Edead. unfold todo. simpl. unfold kept_outcome. rewrite Hw.
        by destruct (outcome_of _). }
      destruct (outcome_of _) as [o|]; simpl.
      * split; [done|]. split; [done|]. rewrite Hs. by rewrite Hdone.
      * split; [done|]. split; [unfold unread; simpl; lia|]. done.
  - destruct (load_chunk_ok c s Hinv Hp He) as (s1 & -> & Hinv1 & Hpos1 & Hu & Ht & Ha).
    intros Hr. apply (scan_chunk_ok c) in Hr; [|done..]. unfold round_ok in *. rewrite Hu, Ht, Ha in Hr. exact Hr.
Qed.

Lemma scan_loop_ok c fuel s :
  scan_inv c s → unread s < fuel →
  ∃ o s', scan_loop from_slice fuel s = Some (Ok o, s') ∧ scan_inv c s' ∧
    match o with
    | Some o => abs_todo s (remaining_text s) = o :: abs_todo s' (remaining_text s')
    | None => abs_todo s (remaining_text s) = [] ∧ abs_todo s' (remaining_text s') = []
    end.
Proof.
  revert s. induction fuel as [|fuel IH]; intros s Hinv Hu; [lia|]. cbn [scan_loop].
  destruct (scan_round from_slice s) as [f s1] eqn:Er. apply (scan_round_ok c) in Er; [|done].
  destruct f as [[[o|]|]|]; simpl in Er.
  - destruct Er as (? & _ & ?). by exists (Some o), s1.
  - destruct Er as (? & _ & ? & ?). by exists None, s1.
  - done.
  - destruct Er as (Hinv1 & Hu1 & Ht). destruct (IH s1 Hinv1) as (o & s2 & ? & ? & Ho); [lia|].
    exists o, s2. rewrite <- Ht. done.
Qed.

(** The sequence of results of repeated calls, up to the first [None]. *)
Inductive scans : scanner → list (ScanOutcome E T) → Prop :=
  | scans_end s s' : scan_next from_slice s = Some (Ok None, s') → scans s []
  | scans_record s o s' os :
      scan_next from_slice s = Some (Ok (Some o), s') → scans s' os → scans s (o :: os).

Lemma scans_todo c s : scan_inv c s → scans s (abs_todo s (remaining_text s)).
Proof.
  remember (abs_todo s (remaining_text s)) as os eqn:Eos. revert s Eos.
  induction os as [|o os IH]; intros s Eos Hinv.
  - destruct (scan_loop_ok c (S (unread s)) s Hinv) as (r & s' & Hr & _ & Ho); [lia|].
    destruct r; [by rewrite Ho in Eos|]. by eapply scans_end.
  - destruct (scan_loop_ok c (S (unread s)) s Hinv) as (r & s' & Hr & Hinv' & Ho); [lia|].
    destruct r as [o'|]; [|destruct Ho as [Ho _]; by rewrite Ho in Eos].
    rewrite Ho in Eos. injection Eos as -> ->. eapply scans_record; [done|]. by apply IH.
Qed.

Lemma new_at_inv r end_ s :
  (end_ ≤ USIZE_MAX)%N → new_at r end_ = Ok s →
  (end_ ≤ len (contents r))%N ∧ scan_inv (contents r) s ∧
  remaining_text s = take (N.to_nat end_) (contents r) ∧ max_record_bytes s = None ∧
  record_reversed s = [] ∧ discarding_oversized_record s = false ∧ chunk_position s = 0.
Proof.
  intros Hsz. unfold new_at. generalize (replicate (N.to_nat READ_CHUNK_SIZE) 0%N). intros buffer.
  destruct (seek_end_ok r) as (r' & -> & Hc). simpl.
  destruct (N.ltb_spec (len (contents r)) end_) as [|Hle]; [done|]. intros [= <-].
  split_and!; try done.
  - split; simpl; try done; [lia|apply not_elem_of_nil|]. unfold unread, len. simpl. lia.
  - unfold remaining_text. simpl. by rewrite Hc, take_0, app_nil_r.
Qed.

(** C38: Whatever the contents of the file and however they fall into chunks, a scanner
    that starts at a byte offset returns, call by call, exactly the records of the text
    before the offset in reverse order, without blank records and without records longer
    than the limit, and then [None]; every call returns, without an error. *)
Theorem reverse_scan_refines_split r end_ (max : option N) s :
  (end_ ≤ USIZE_MAX)%N → new_at r end_ = Ok s →
  scans (match max with Some m => with_max_record_bytes m s | None => s end)
    (records_reversed max (take (N.to_nat end_) (contents r))).
Proof.
  intros Hsz Hnew. destruct (new_at_inv r end_ s Hsz Hnew) as (_ & Hinv & Ht & Hm & Hrr & Hd & Hp).
  rewrite <- Ht, <- todo_start. destruct max as [m|].
  - assert (Hinv' : scan_inv (contents r) (with_max_record_bytes m s)).
    { destruct Hinv as [? ? ? ? ? ? ?]. split; simpl; try done. rewrite Hrr. by destruct m. }
    pose proof (scans_todo _ _ Hinv') as Hs. unfold abs_todo in Hs. simpl in Hs.
    rewrite Hrr, Hd in Hs. exact Hs.
  - pose proof (scans_todo _ _ Hinv) as Hs. unfold abs_todo in Hs. rewrite Hm, Hrr, Hd in Hs. exact Hs.
Qed.

(** The results are determined by the scanner. *)
Lemma scans_det s os os' : scans s os → scans s os' → os = os'.
Proof.
  intros H. revert os'. induction H as [s s1 Hs|s o s1 os Hs _ IH]; intros os' H';
    inversion H'; subst; rewrite Hs in *; simplify_eq; [done|]. f_equal. auto.
Qed.
End Spec.

(** ** A reader of a text in memory, as [std::io::Cursor] *)
Record Cursor := mkCursor { cursor_bytes : list N; cursor_position : nat }.
#[global] Instance cursor_reader : ReadSeek Cursor := {|
  seek_end r := (Ok (len (cursor_bytes r)), mkCursor (cursor_bytes r) (length (cursor_bytes r)));
  seek_start p r := (Ok p, mkCursor (cursor_bytes r) (N.to_nat p));
  read_exact n r :=
    if cursor_position r + n <=? length (cursor_bytes r)
    then (Ok (take n (drop (cursor_position r) (cursor_bytes r))),
          mkCursor (cursor_bytes r) (cursor_position r + n))
    else (Err (mkIoError OtherKind (str "failed to fill whole buffer")), r);
|}.
#[global, program] Instance cursor_laws : ReadSeekLaws Cursor := {|
  contents := cursor_bytes; position := cursor_position;
|}.
Next Obligation. intros r. eexists. done. Qed.
Next Obligation. intros p r. eexists. done. Qed.
Next Obligation. intros n r H. simpl in *. apply Nat.leb_le in H. rewrite H. eexists. done. Qed.

Definition demo_bytes : list N := str "first" ++ [LF] ++ str "  " ++ [LF] ++ str "a longer record" ++ [LF] ++ str "end".
Definition demo_scanner : ReverseJsonlScanner Cursor :=
  mkScanner (mkCursor demo_bytes 28) 28 0 (replicate (N.to_nat READ_CHUNK_SIZE) 0%N) [] None false.

Lemma reverse_scan_refines_split_witness :
  scans (E := unit) Ok (with_max_record_bytes 10 demo_scanner) [Parsed (str "end"); Parsed (str "first")].
Proof.
  assert (Hn : new_at (mkCursor demo_bytes 0) 28 = Ok demo_scanner).
  { unfold new_at, demo_scanner. generalize (replicate (N.to_nat READ_CHUNK_SIZE) 0%N). intros buffer.
    vm_compute. reflexivity. }
  exact (reverse_scan_refines_split (E := unit) Ok (mkCursor demo_bytes 0) 28 (Some 10%N) demo_scanner
    ltac:(vm_compute; discriminate) Hn).
Defined.
