(* ===== verification/TableDetect.v ===== *)
(** * Pipe tables and fenced code blocks in markdown source

    Models [sofia-rs/tui/src/table_detect.rs]: the recognition of the header and
    delimiter lines of a pipe table, and the tracker of fenced code blocks.  Where the code
    counts or skips bytes, the characters that matter are ASCII, which are one byte each
    and never part of another character, so the model works on characters. *)

From stdpp Require Import base list numbers strings.
From S2P Require Import Prelude Machine.

Definition PIPE : N := 124%N.
Definition BACKSLASH : N := 92%N.
Definition BACKTICK : N := 96%N.
Definition TILDE : N := 126%N.
Definition SPACE : N := 32%N.

(** [s.strip_prefix(p).unwrap_or(s)] and the same for suffixes. *)
Definition strip_prefix_or (p s : rstring) : rstring :=
  match strip_prefix p s with Some r => r | None => s end.
Definition strip_suffix_or (p s : rstring) : rstring :=
  match strip_suffix p s with Some r => r | None => s end.

(** The bytes [start..i] of the source are the segment [seg]; the byte after a backslash
    is skipped, and the other bytes of a longer character are no separators. *)
Fixpoint split_pipe_loop (seg s : rstring) : list rstring :=
  match s with
  | [] => [seg]
  | c :: s' =>
      if (c =? BACKSLASH)%N then
        match s' with
        | [] => [seg ++ [c]]
        | d :: s'' => split_pipe_loop (seg ++ [c; d]) s''
        end
      else if (c =? PIPE)%N then seg :: split_pipe_loop [] s'
      else split_pipe_loop (seg ++ [c]) s'
  end.
Definition split_unescaped_pipe (content : rstring) : list rstring := split_pipe_loop [] content.

Definition parse_table_segments (line : rstring) : option (list rstring) :=
  let trimmed := trim line in
  if is_empty trimmed then None else
  let has_outer_pipe := starts_with [PIPE] trimmed || ends_with [PIPE] trimmed in
  let content := strip_suffix_or [PIPE] (strip_prefix_or [PIPE] trimmed) in
  let raw_segments := split_unescaped_pipe content in
  if negb has_outer_pipe && (length raw_segments <=? 1) then None else
  let segments := map trim raw_segments in
  if is_empty segments then None else Some segments.

Definition is_table_header_line (line : rstring) : bool :=
  is_some_and (parse_table_segments line) (existsb (λ s, negb (is_empty s))).

Definition is_table_delimiter_segment (segment : rstring) : bool :=
  let trimmed := trim segment in
  if is_empty trimmed then false else
  let without_ends := strip_suffix_or (str ":") (strip_prefix_or (str ":") trimmed) in
  (3 <=? str_len without_ends)%N && forallb (N.eqb 45) without_ends.

Definition is_table_delimiter_line (line : rstring) : bool :=
  is_some_and (parse_table_segments line) (forallb is_table_delimiter_segment).

(** ** Fenced code blocks *)
Inductive FenceKind := Outside | Markdown | Other.
#[global] Instance FenceKind_eq_dec : EqDecision FenceKind.
Proof. solve_decision. Defined.

Record FenceTracker := mkTracker { fence_state : option (N * nat * FenceKind) }.

Definition new_tracker : FenceTracker := mkTracker None.

(** [take_while(..).count()] of one character. *)
Fixpoint run_length (c : N) (s : rstring) : nat :=
  match s with
  | d :: s' => if (d =? c)%N then S (run_length c s') else 0
  | [] => 0
  end.

Definition parse_fence_marker (line : rstring) : option (N * nat) :=
  match line with
  | [] => None
  | first :: _ =>
      if negb (first =? BACKTICK)%N && negb (first =? TILDE)%N then None
      else
        let n := run_length first line in
        if n <? 3 then None else Some (first, n)
  end.

(** The first word of [split_whitespace]. *)
Definition first_word (s : rstring) : rstring :=
  let s := trim_start s in
  take (length s - length (drop_while (λ c, negb (is_whitespace c)) s)) s.

Definition is_markdown_fence_info (trimmed_line : rstring) (marker_len : nat) : bool :=
  let info := first_word (drop marker_len trimmed_line) in
  str_eqb (to_ascii_lowercase info) (str "md") || str_eqb (to_ascii_lowercase info) (str "markdown").

(** The loop that peels [>] markers; every round removes a character. *)
Fixpoint strip_quote_loop (fuel : nat) (rest : rstring) : rstring :=
  match fuel with
  | O => rest
  | S fuel' =>
      match strip_prefix (str ">") rest with
      | None => rest
      | Some stripped => strip_quote_loop fuel' (trim_start (strip_prefix_or [SPACE] stripped))
      end
  end.
Definition strip_blockquote_prefix (line : rstring) : rstring :=
  strip_quote_loop (S (length line)) (trim_start line).

Definition advance_fence (t : FenceTracker) (raw_line : rstring) : FenceTracker :=
  let leading_spaces := run_length SPACE raw_line in
  if 3 <? leading_spaces then t else
  let fence_scan_text := strip_blockquote_prefix (drop leading_spaces raw_line) in
  match parse_fence_marker fence_scan_text with
  | None => t
  | Some (marker, n) =>
      match fence_state t with
      | Some (open_char, open_len, _) =>
          if (marker =? open_char)%N && (open_len <=? n) && is_empty (trim (drop n fence_scan_text))
          then mkTracker None else t
      | None =>
          mkTracker (Some (marker, n, if is_markdown_fence_info fence_scan_text n then Markdown else Other))
      end
  end.

Definition kind (t : FenceTracker) : FenceKind :=
  match fence_state t with Some (_, _, k) => k | None => Outside end.

(** ** Lemmas *)
(** Splitting loses nothing: joined with pipes the segments are the line again. *)
Lemma split_pipe_loop_not_nil seg s : split_pipe_loop seg s ≠ [].
Proof.
  revert seg. induction s as [s IH] using (induction_ltof1 _ length); unfold ltof in IH.
  intros seg. destruct s as [|c s]; simpl; [done|]. destruct (c =? BACKSLASH)%N.
  - destruct s as [|d s]; [done|]. apply IH. simpl. lia.
  - destruct (c =? PIPE)%N; [done|]. apply IH. simpl. lia.
Qed.

Lemma split_pipe_loop_join seg s : join [PIPE] (split_pipe_loop seg s) = seg ++ s.
Proof.
  revert seg. induction s as [s IH] using (induction_ltof1 _ length); unfold ltof in IH.
  intros seg. destruct s as [|c s]; simpl; [by rewrite app_nil_r|].
  destruct (c =? BACKSLASH)%N.
  - destruct s as [|d s]; [done|]. rewrite IH by (simpl; lia). by rewrite <- app_assoc.
  - destruct (N.eqb_spec c PIPE) as [->|].
    + rewrite join_cons by apply split_pipe_loop_not_nil. rewrite IH by (simpl; lia). done.
    + rewrite IH by (simpl; lia). by rewrite <- app_assoc.
Qed.

Lemma split_unescaped_pipe_join content : join [PIPE] (split_unescaped_pipe content) = content.
Proof. apply split_pipe_loop_join. Qed.

Lemma parse_table_segments_nil : parse_table_segments [] = None.
Proof. done. Qed.

(** The fuel of the loop over quote markers is enough. *)
Lemma drop_while_length P s : length (drop_while P s) ≤ length s.
Proof. induction s as [|c s IH]; simpl; [lia|]. destruct (P c); simpl; lia. Qed.

Lemma strip_quote_loop_shorter rest stripped :
  strip_prefix (str ">") rest = Some stripped →
  length (trim_start (strip_prefix_or [SPACE] stripped)) < length rest.
Proof.
  intros ->%strip_prefix_Some. rewrite length_app. unfold trim_start.
  pose proof (drop_while_length is_whitespace (strip_prefix_or [SPACE] stripped)) as H.
  assert (length (strip_prefix_or [SPACE] stripped) ≤ length stripped).
  { unfold strip_prefix_or. destruct (strip_prefix _ _) eqn:E; [|lia].
    apply strip_prefix_Some in E. subst. rewrite length_app. lia. }
  change (length (str ">")) with 1. lia.
Qed.

Lemma strip_quote_loop_fuel fuel fuel' rest :
  length rest < fuel → fuel ≤ fuel' → strip_quote_loop fuel rest = strip_quote_loop fuel' rest.
Proof.
  revert fuel' rest. induction fuel as [|fuel IH]; intros fuel' rest Hr Hf; [lia|].
  destruct fuel' as [|fuel']; [lia|]. cbn [strip_quote_loop].
  destruct (strip_prefix (str ">") rest) as [stripped|] eqn:E; [|done].
  apply IH; [|lia]. apply strip_quote_loop_shorter in E. lia.
Qed.

(** What is left of a line has no quote marker in front. *)
Lemma strip_quote_loop_done fuel rest :
  length rest < fuel → starts_with (str ">") (strip_quote_loop fuel rest) = false.
Proof.
  revert rest. induction fuel as [|fuel IH]; intros rest Hr; [lia|]. cbn [strip_quote_loop].
  destruct (strip_prefix (str ">") rest) as [stripped|] eqn:E.
  - apply IH. apply strip_quote_loop_shorter in E. lia.
  - unfold starts_with. by rewrite E.
Qed.

Lemma strip_blockquote_prefix_done line : starts_with (str ">") (strip_blockquote_prefix line) = false.
Proof. apply strip_quote_loop_done. pose proof (drop_while_length is_whitespace line). unfold trim_start. lia. Qed.
