(* ===== verification/TableHoldback.v ===== *)
(** * Holding back tables while they stream

    Models [sofia-rs/tui/src/streaming/table_holdback.rs]: the incremental scanner that
    decides from which byte of the source on the rendered lines stay mutable, and the
    stateless scan of a whole source that the module keeps as a reference.  The main
    theorem is that both agree on every stream of complete lines. *)

From stdpp Require Import base list numbers strings.
From S2P Require Import Prelude Machine TableDetect.

Inductive TableHoldbackState :=
  | NoTable
  | PendingHeader (header_start : N)
  | Confirmed (table_start : N).

Record PreviousLineState := mkPrevious {
  prev_start : N;
  prev_fence : FenceKind;
  prev_is_header : bool;
}.

Record TableHoldbackScanner := mkHoldback {
  source_offset : N;
  fence_tracker : FenceTracker;
  previous_line : option PreviousLineState;
  pending_header_start : option N;
  confirmed_table_start : option N;
}.

Definition new_holdback : TableHoldbackScanner := mkHoldback 0 new_tracker None None None.

(** [reset] replaces the scanner by a new one. *)
Definition reset_holdback (_ : TableHoldbackScanner) : TableHoldbackScanner := new_holdback.

Definition holdback_state (s : TableHoldbackScanner) : TableHoldbackState :=
  match confirmed_table_start s, pending_header_start s with
  | Some table_start, _ => Confirmed table_start
  | None, Some header_start => PendingHeader header_start
  | None, None => NoTable
  end.

Definition table_candidate_text (line : rstring) : option rstring :=
  let stripped := trim (strip_blockquote_prefix line) in
  match parse_table_segments stripped with Some _ => Some stripped | None => None end.

Definition is_other (k : FenceKind) : bool := bool_decide (k = Other).

Definition push_line (s : TableHoldbackScanner) (source_line : rstring) : TableHoldbackScanner :=
  let line := strip_suffix_or [LF] source_line in
  let source_start := source_offset s in
  let fence_kind := kind (fence_tracker s) in
  let candidate_text := if is_other fence_kind then None else table_candidate_text line in
  let is_header := is_some_and candidate_text is_table_header_line in
  let is_delimiter := is_some_and candidate_text is_table_delimiter_line in
  let '(confirmed, pending) :=
    match confirmed_table_start s, previous_line s with
    | None, Some previous =>
        if negb (is_other (prev_fence previous)) && negb (is_other fence_kind) &&
           prev_is_header previous && is_delimiter
        then (Some (prev_start previous), None)
        else (confirmed_table_start s, pending_header_start s)
    | _, _ => (confirmed_table_start s, pending_header_start s)
    end in
  let pending :=
    if bool_decide (confirmed = None) && negb (is_empty (trim line)) then
      if negb (is_other fence_kind) && is_header then Some source_start else None
    else pending in
  mkHoldback (sat_add USIZE_MAX (source_offset s) (str_len source_line))
    (advance_fence (fence_tracker s) line) (Some (mkPrevious source_start fence_kind is_header)) pending confirmed.

(** [str::split_inclusive('\n')]. *)
Fixpoint split_inclusive (s : rstring) : list rstring :=
  match s with
  | [] => []
  | c :: s' =>
      if (c =? LF)%N then [c] :: split_inclusive s'
      else match split_inclusive s' with
           | [] => [[c]]
           | l :: ls => (c :: l) :: ls
           end
  end.

Definition push_source_chunk (s : TableHoldbackScanner) (source_chunk : rstring) : TableHoldbackScanner :=
  if is_empty source_chunk then s else foldl push_line s (split_inclusive source_chunk).

(** ** The stateless scan *)
Record ParsedLine := mkParsed {
  parsed_text : rstring;
  fence_context : FenceKind;
  parsed_start : N;
}.

Fixpoint parse_lines_loop (tracker : FenceTracker) (source_start : N) (raw_lines : list rstring) : list ParsedLine :=
  match raw_lines with
  | [] => []
  | raw_line :: rest =>
      mkParsed raw_line (kind tracker) source_start ::
      parse_lines_loop (advance_fence tracker raw_line)
        (sat_add USIZE_MAX (sat_add USIZE_MAX source_start (str_len raw_line)) 1) rest
  end.
Definition parse_lines_with_fence_state (source : rstring) : list ParsedLine :=
  parse_lines_loop new_tracker 0 (split_on LF source).

(** The test of a pair of neighbouring lines. *)
Definition confirms (header_line delimiter_line : ParsedLine) : bool :=
  if is_other (fence_context header_line) || is_other (fence_context delimiter_line) then false
  else match table_candidate_text (parsed_text header_line), table_candidate_text (parsed_text delimiter_line) with
       | Some header_text, Some delimiter_text =>
           is_table_header_line header_text && is_table_delimiter_line delimiter_text
       | _, _ => false
       end.

(** The loop over [windows(2)]. *)
Fixpoint find_table (ls : list ParsedLine) : option N :=
  match ls with
  | header_line :: (delimiter_line :: _) as rest =>
      if confirms header_line delimiter_line then Some (parsed_start header_line) else find_table rest
  | _ => None
  end.

Definition header_candidate (line : ParsedLine) : bool :=
  negb (is_other (fence_context line)) &&
  is_some_and (table_candidate_text (parsed_text line)) is_table_header_line.

Definition nonblank (line : ParsedLine) : bool := negb (is_empty (trim (parsed_text line))).

Definition table_holdback_state (source : rstring) : TableHoldbackState :=
  let lines := parse_lines_with_fence_state source in
  match find_table lines with
  | Some table_start => Confirmed table_start
  | None =>
      match List.find nonblank (reverse lines) with
      | Some line => if header_candidate line then PendingHeader (parsed_start line) else NoTable
      | None => NoTable
      end
  end.

(** ** Chunks of complete lines *)
Definition complete_lines (chunk : rstring) : Prop := chunk = [] ∨ ∃ s, chunk = s ++ [LF].
Definition text_of (ls : list rstring) : rstring := concat (map (λ l, l ++ [LF]) ls).

Lemma text_of_app ls ls' : text_of (ls ++ ls') = text_of ls ++ text_of ls'.
Proof. unfold text_of. by rewrite map_app, concat_app. Qed.

Lemma text_of_cons l ls : text_of (l :: ls) = l ++ LF :: text_of ls.
Proof. unfold text_of. simpl. by rewrite <- app_assoc. Qed.

Lemma split_inclusive_line l s : LF ∉ l → split_inclusive (l ++ LF :: s) = (l ++ [LF]) :: split_inclusive s.
Proof.
  induction l as [|c l IH]; intros Hl; [done|]. simpl.
  apply not_elem_of_cons in Hl as [Hc Hl]. destruct (N.eqb_spec c LF) as [->|]; [done|]. by rewrite IH.
Qed.

Lemma split_inclusive_text ls :
  Forall (λ l, LF ∉ l) ls → split_inclusive (text_of ls) = map (λ l, l ++ [LF]) ls.
Proof.
  induction 1 as [|l ls Hl _ IH]; [done|]. rewrite text_of_cons, split_inclusive_line by done.
  simpl. by rewrite IH.
Qed.

Lemma split_on_text ls : Forall (λ l, LF ∉ l) ls → split_on LF (text_of ls) = ls ++ [[]].
Proof.
  induction 1 as [|l ls Hl _ IH]; [done|]. rewrite text_of_cons, split_on_app by done. by rewrite IH.
Qed.

Lemma join_LF_text ls : ls ≠ [] → join [LF] ls ++ [LF] = text_of ls.
Proof.
  induction ls as [|l ls IH]; intros H; [done|]. destruct (decide (ls = [])) as [->|Hn].
  - unfold text_of. simpl. by rewrite app_nil_r.
  - rewrite join_cons, text_of_cons, <- !app_assoc by done. by rewrite IH.
Qed.

Lemma complete_lines_text chunk :
  complete_lines chunk → ∃ ls, chunk = text_of ls ∧ Forall (λ l, LF ∉ l) ls.
Proof.
  intros [->|[s ->]]; [by exists []|]. exists (split_on LF s). split.
  - rewrite <- join_LF_text by apply split_on_not_nil. by rewrite join_split_on.
  - apply Forall_forall. intros l. apply split_on_elem.
Qed.

Lemma complete_chunks_text chunks :
  Forall complete_lines chunks →
  ∃ ls, concat chunks = text_of ls ∧ Forall (λ l, LF ∉ l) ls ∧
    ∀ s, foldl push_source_chunk s chunks = foldl push_line s (map (λ l, l ++ [LF]) ls).
Proof.
  induction 1 as [|c cs Hc _ (ls' & Ht' & Hf' & Hs')]; [by exists []|].
  destruct (complete_lines_text c Hc) as (ls & -> & Hf). exists (ls ++ ls').
  rewrite text_of_app. split; [simpl; by rewrite Ht'|]. split; [by apply Forall_app|]. intros s.
  rewrite map_app, foldl_app. cbn [foldl]. rewrite Hs'. f_equal. unfold push_source_chunk.
  destruct ls as [|l ls]; [done|]. rewrite text_of_cons. replace (is_empty _) with false by (by destruct l).
  rewrite <- text_of_cons. by rewrite split_inclusive_text.
Qed.

(** ** What the scanner has seen *)
Definition next_start (o : N) (l : rstring) : N := sat_add USIZE_MAX (sat_add USIZE_MAX o (str_len l)) 1.
Definition parsed (ls : list rstring) : list ParsedLine := parse_lines_loop new_tracker 0 ls.

Lemma parse_lines_loop_app t o ls ls' :
  parse_lines_loop t o (ls ++ ls') =
  parse_lines_loop t o ls ++ parse_lines_loop (foldl advance_fence t ls) (foldl next_start o ls) ls'.
Proof. revert t o. induction ls as [|l ls IH]; intros t o; simpl; [done|]. by rewrite IH. Qed.

Lemma parsed_snoc ls l :
  parsed (ls ++ [l]) =
  parsed ls ++ [mkParsed l (kind (foldl advance_fence new_tracker ls)) (foldl next_start 0%N ls)].
Proof. apply parse_lines_loop_app. Qed.

Lemma find_table_snoc ps x :
  find_table (ps ++ [x]) =
  match find_table ps with
  | Some t => Some t
  | None => match last ps with Some p => if confirms p x then Some (parsed_start p) else None | None => None end
  end.
Proof.
  induction ps as [|p ps IH]; [done|]. destruct ps as [|q ps]; [by simpl; destruct (confirms p x)|].
  change (find_table ((p :: q :: ps) ++ [x]))
    with (if confirms p q then Some (parsed_start p) else find_table ((q :: ps) ++ [x])).
  change (find_table (p :: q :: ps)) with (if confirms p q then Some (parsed_start p) else find_table (q :: ps)).
  change (last (p :: q :: ps)) with (last (q :: ps)). destruct (confirms p q); [done|]. apply IH.
Qed.

Definition is_delimiter_candidate (line : ParsedLine) : bool :=
  is_some_and (if is_other (fence_context line) then None else table_candidate_text (parsed_text line))
    is_table_delimiter_line.

Lemma header_candidate_alt line :
  header_candidate line =
  is_some_and (if is_other (fence_context line) then None else table_candidate_text (parsed_text line))
    is_table_header_line.
Proof. unfold header_candidate. by destruct (is_other _). Qed.

Lemma confirms_alt p x :
  confirms p x =
  negb (is_other (fence_context p)) && negb (is_other (fence_context x)) && header_candidate p &&
  is_delimiter_candidate x.
Proof.
  unfold confirms, header_candidate, is_delimiter_candidate.
  destruct (is_other (fence_context p)), (is_other (fence_context x)); try done; simpl.
  destruct (table_candidate_text (parsed_text p)), (table_candidate_text (parsed_text x)); simpl; try done.
  by rewrite andb_false_r.
Qed.

Definition prev_of (p : ParsedLine) : PreviousLineState :=
  mkPrevious (parsed_start p) (fence_context p) (header_candidate p).
Definition pending_of (ps : list ParsedLine) : option N :=
  match List.find nonblank (reverse ps) with
  | Some line => if header_candidate line then Some (parsed_start line) else None
  | None => None
  end.

Lemma pending_of_snoc ps x :
  pending_of (ps ++ [x]) =
  if nonblank x then if header_candidate x then Some (parsed_start x) else None else pending_of ps.
Proof. unfold pending_of. rewrite reverse_snoc. simpl. by destruct (nonblank x). Qed.

(** The scanner after the lines [ls]. *)
Record scanned (ls : list rstring) (s : TableHoldbackScanner) : Prop := {
  scanned_offset : source_offset s = foldl next_start 0%N ls;
  scanned_tracker : fence_tracker s = foldl advance_fence new_tracker ls;
  scanned_previous : previous_line s = prev_of <$> last (parsed ls);
  scanned_confirmed : confirmed_table_start s = find_table (parsed ls);
  scanned_pending : confirmed_table_start s = None → pending_header_start s = pending_of (parsed ls);
}.

Lemma strip_suffix_or_LF l : strip_suffix_or [LF] (l ++ [LF]) = l.
Proof.
  unfold strip_suffix_or. destruct (strip_suffix [LF] (l ++ [LF])) as [r|] eqn:E.
  - apply strip_suffix_Some, app_snoc_inj in E. by destruct E.
  - exfalso. assert (strip_suffix [LF] (l ++ [LF]) = Some l) by by apply strip_suffix_Some. congruence.
Qed.

Lemma str_len_snoc_LF l : str_len (l ++ [LF]) = (str_len l + 1)%N.
Proof. induction l as [|c l IH]; [done|]. cbn [app str_len]. rewrite IH. lia. Qed.

Lemma push_line_scanned ls s l : scanned ls s → scanned (ls ++ [l]) (push_line s (l ++ [LF])).
Proof.
  intros [Ho Ht Hp Hc Hpend].
  set (x := mkParsed l (kind (foldl advance_fence new_tracker ls)) (foldl next_start 0%N ls)).
  assert (Hx : parsed (ls ++ [l]) = parsed ls ++ [x]) by apply parsed_snoc.
  unfold push_line. rewrite strip_suffix_or_LF, str_len_snoc_LF, Ho, Ht.
  change (is_some_and _ is_table_delimiter_line) with (is_delimiter_candidate x).
  change (is_some_and _ is_table_header_line) with
    (is_some_and (if is_other (fence_context x) then None else table_candidate_text (parsed_text x)) is_table_header_line).
  rewrite <- header_candidate_alt.
  change (kind (foldl advance_fence new_tracker ls)) with (fence_context x).
  assert (Hconf : find_table (parsed ls ++ [x]) =
    match confirmed_table_start s, previous_line s with
    | None, Some previous =>
        if negb (is_other (prev_fence previous)) && negb (is_other (fence_context x)) &&
           prev_is_header previous && is_delimiter_candidate x
        then Some (prev_start previous) else confirmed_table_start s
    | _, _ => confirmed_table_start s
    end).
  { rewrite find_table_snoc, Hc, Hp. destruct (find_table (parsed ls)); [done|].
    destruct (last (parsed ls)) as [p|]; simpl; [|done]. by rewrite confirms_alt. }
  assert (Hpend' : ∀ (c : option N) pend,
    (c = None → confirmed_table_start s = None ∧ pend = pending_of (parsed ls)) → c = None →
    (if bool_decide (c = None) && negb (is_empty (trim l)) then
       if negb (is_other (fence_context x)) && header_candidate x then Some (foldl next_start 0%N ls) else None
     else pend) = pending_of (parsed ls ++ [x])).
  { intros c pend Hcp ->. destruct (Hcp eq_refl) as [_ ->]. rewrite pending_of_snoc. unfold nonblank.
    rewrite bool_decide_true by done. simpl. destruct (is_empty (trim l)); simpl; [done|].
    unfold header_candidate. simpl. by destruct (is_other _). }
  assert (Hoff : sat_add USIZE_MAX (foldl next_start 0%N ls) (str_len l + 1) = foldl next_start 0%N (ls ++ [l])).
  { rewrite foldl_app. cbn [foldl]. unfold next_start at 2, sat_add. lia. }
  assert (Htr : advance_fence (foldl advance_fence new_tracker ls) l = foldl advance_fence new_tracker (ls ++ [l])) by by rewrite foldl_app.
  assert (Hprev : Some (mkPrevious (foldl next_start 0%N ls) (fence_context x) (header_candidate x)) =
    prev_of <$> last (parsed (ls ++ [l]))) by by rewrite Hx, last_snoc.
  destruct (confirmed_table_start s) as [t|] eqn:Es; [|destruct (previous_line s) as [pr|] eqn:Epr;
    [destruct (_ && is_delimiter_candidate x) eqn:Ed|]]; (split; [done..|rewrite Hx; done|rewrite Hx; cbn [confirmed_table_start pending_header_start]]);
    intros Hn; try done; apply Hpend'; auto.
Qed.

Lemma foldl_scanned ls : scanned ls (foldl push_line new_holdback (map (λ l, l ++ [LF]) ls)).
Proof.
  induction ls as [|l ls IH] using rev_ind; [by split|].
  rewrite map_app, foldl_app. apply push_line_scanned, IH.
Qed.

(** The empty line after the last line break is no part of a table. *)
Lemma parsed_blank_end ls :
  find_table (parsed (ls ++ [[]])) = find_table (parsed ls) ∧
  pending_of (parsed (ls ++ [[]])) = pending_of (parsed ls).
Proof.
  rewrite parsed_snoc. split; [|by rewrite pending_of_snoc].
  rewrite find_table_snoc. destruct (find_table _); [done|]. destruct (last _) as [p|]; [|done].
  rewrite confirms_alt. unfold is_delimiter_candidate at 1. cbn [parsed_text].
  change (table_candidate_text []) with (@None rstring). by destruct (is_other (fence_context p)), (is_other _), (header_candidate p).
Qed.

(** However a source of complete lines is cut into chunks of complete lines, the
    incremental scanner ends in the state that the stateless scan computes from the whole
    source: the same table or pending header, at the same byte offset. *)
Theorem incremental_holdback_matches_scan chunks :
  Forall complete_lines chunks →
  holdback_state (foldl push_source_chunk new_holdback chunks) = table_holdback_state (concat chunks).
Proof.
  intros Hc. destruct (complete_chunks_text chunks Hc) as (ls & -> & Hls & ->).
  destruct (foldl_scanned ls) as [_ _ _ Hconf Hpend].
  unfold table_holdback_state, parse_lines_with_fence_state. rewrite split_on_text by done.
  fold (parsed (ls ++ [[]])). destruct (parsed_blank_end ls) as [Hf Hp].
  unfold holdback_state. rewrite Hf, <- Hconf. destruct (confirmed_table_start _) eqn:E; [done|].
  rewrite Hpend, <- Hp by done. unfold pending_of. destruct (List.find nonblank _) as [x|]; [|done].
  by destruct (header_candidate x).
Qed.

Definition demo_chunks : list rstring :=
  [str "Intro" ++ [LF] ++ str "```sh" ++ [LF] ++ str "a | b" ++ [LF]; str "```" ++ [LF]; [];
   str "> | A | B |" ++ [LF]; str "> |---|:---:|" ++ [LF] ++ str "> | 1 | 2 |" ++ [LF]].

Lemma incremental_holdback_matches_scan_witness :
  holdback_state (foldl push_source_chunk new_holdback demo_chunks) = Confirmed 22 ∧
  table_holdback_state (concat demo_chunks) = Confirmed 22.
Proof.
  assert (Hc : Forall complete_lines demo_chunks).
  { apply Forall_cons. split; [right; by exists (removelast (str "Intro" ++ [LF] ++ str "```sh" ++ [LF] ++ str "a | b" ++ [LF]))|].
    apply Forall_cons. split; [right; by exists (str "```")|]. apply Forall_cons. split; [by left|].
    apply Forall_cons. split; [right; by exists (str "> | A | B |")|]. apply Forall_cons. split; [|done].
    right. by exists (str "> |---|:---:|" ++ [LF] ++ str "> | 1 | 2 |"). }
  pose proof (incremental_holdback_matches_scan demo_chunks Hc) as H.
  split; [|rewrite <- H]; vm_compute; reflexivity.
Defined.
