(* ===== verification/StreamRender.v ===== *)
(** * Incremental rendering of streamed markdown

    Models [sofia-rs/tui/src/streaming/code_fence.rs] (the fast path for an open code
    fence) and [streaming/render.rs] (rendering that keeps completed blocks), with
    [raw_lines_from_source] of [history_cell/mod.rs].  The markdown renderer and the syntax
    highlighter are the interface [RenderOps]; the working directory and the
    visualization context of a stream are part of it, and [syntax_theme_revision()] is an
    argument.  A slice that panics is [None]. *)

From stdpp Require Import base list numbers strings.
From S2P Require Import Prelude Machine Truncate TableDetect TableHoldback.

#[local] Set Default Proof Using "Type*".

(** [HistoryRenderMode]. *)
Inductive HistoryRenderMode := Rich | Raw.
#[global] Instance HistoryRenderMode_eq_dec : EqDecision HistoryRenderMode.
Proof. solve_decision. Defined.

Record StreamingMarkdownRender (L : Type) := mkStreaming {
  md_lines : list L;
  last_top_level_block_start : option N;
  md_has_reference_link_definition : bool;
  first_top_level_block_is_html : bool;
}.
Arguments mkStreaming {L} _ _ _ _.
Arguments md_lines {L} _.
Arguments last_top_level_block_start {L} _.
Arguments md_has_reference_link_definition {L} _.
Arguments first_top_level_block_is_html {L} _.

(** The renderer of a stream: lines are [L], a highlighter of code is [H]. *)
Class RenderOps (L H : Type) := {
  plain_text_line : rstring → L;
  blank_line : L;
  (** [render_markdown_agent_with_links_cwd_and_visualizations] *)
  render_agent : rstring → option N → list L;
  (** [render_streaming_markdown_agent_with_links_and_cwd] *)
  render_streaming : rstring → option N → StreamingMarkdownRender L;
  (** Whether the stream has an [InlineVisualizationContext]. *)
  has_visualization_context : bool;
  (** [StreamingCodeHighlighter::new] and [append]; a code line is indented by an empty span. *)
  highlighter_new : rstring → rstring → N → option H;
  highlighter_append : H → rstring → option (H * list L);
  (** The title of a proposed plan and the indentation and style of its lines. *)
  plan_title : L;
  plan_style_line : L → L;
}.

Definition slice_range (a b : N) (s : rstring) : option rstring :=
  t ← slice_to b s; slice_from a t.

(** [history_cell::raw_lines_from_source]. *)
Definition raw_lines_from_source (source : rstring) : list rstring :=
  if is_empty source then []
  else
    let parts := split_on LF source in
    if ends_with [LF] source then removelast parts else parts.

Definition DIRECTIVE_PREFIX : rstring := str "::sofia-inline-vis{".
Definition CONTENT_REFERENCE_PREFIX : rstring := [0xe200%N] ++ str "visualize" ++ [0xe202%N].
Definition contains_inline_visualization (markdown : rstring) : bool :=
  contains DIRECTIVE_PREFIX markdown || contains CONTENT_REFERENCE_PREFIX markdown.

(** ** [code_fence.rs] *)
Definition MAX_HIGHLIGHT_LINE_BYTES : N := 4096.
Definition TAB : N := 9%N.

Definition has_possible_closing_line (source : rstring) (marker : N) (marker_len : nat) : bool :=
  existsb (λ line, marker_len <=? run_length marker (drop_while (λ c, (c =? SPACE) || (c =? TAB))%N line))
    (lines source).

(** [contains] of a set of characters. *)
Definition contains_any (cs : list N) (s : rstring) : bool := existsb (λ c, existsb (N.eqb c) cs) s.

(** [trim_matches] with a set of characters. *)
Definition trim_any (cs : list N) (s : rstring) : rstring :=
  drop_end_while (λ c, existsb (N.eqb c) cs) (drop_while (λ c, existsb (N.eqb c) cs) s).

(** The first piece of [split] at a set of characters. *)
Fixpoint first_piece (cs : list N) (s : rstring) : rstring :=
  match s with
  | [] => []
  | c :: s' => if existsb (N.eqb c) cs then [] else c :: first_piece cs s'
  end.

Definition checked_sub (a b : N) : option N := if (b <=? a)%N then Some (a - b)%N else None.
Definition checked_add_usize (a b : N) : option N := if (a + b <=? USIZE_MAX)%N then Some (a + b)%N else None.

Section Render.
Context {L H : Type} {render_ops : RenderOps L H}.

Record OpenCodeFence := mkFence {
  marker : N;
  marker_len : nat;
  language : rstring;
  content_start : N;
  source_len : N;
  theme_revision : N;
  highlighter : option H;
}.

Definition detect (theme : N) (source : rstring) (source_len theme_revision : N) : option OpenCodeFence :=
  marker ← head source;
  if negb (marker =? BACKTICK)%N && negb (marker =? TILDE)%N then None else
  '(opening, code) ← split_once LF source;
  let marker_len := run_length marker opening in
  if (marker_len <? 3) || negb (ends_with [LF] source) || negb (theme_revision =? theme)%N ||
     contains_any [CR; 0%N] source
  then None else
  let info := trim_any [SPACE; TAB; 11%N; 12%N] (drop marker_len opening) in
  if contains_any (str "&\") info || ((marker =? BACKTICK)%N && contains_any [BACKTICK] info) then None else
  let language := first_piece [44%N; SPACE; TAB] info in
  if is_empty language then None else
  if (MAX_HIGHLIGHT_LINE_BYTES <? str_len language)%N || has_possible_closing_line code marker marker_len
  then None else
  content_start ← checked_sub source_len (str_len code);
  Some (mkFence marker marker_len language content_start source_len theme_revision None).

(** The outer [None] is a panic, the inner one the [None] of the code. *)
Definition fence_append (theme : N) (self : OpenCodeFence) (raw_source committed_source : rstring)
    : option (option (OpenCodeFence * list L)) :=
  if negb (bool_decide (checked_add_usize (source_len self) (str_len committed_source) = Some (str_len raw_source))) ||
     negb (ends_with committed_source raw_source) || contains_any [CR; 0%N] committed_source ||
     has_possible_closing_line committed_source (marker self) (marker_len self) ||
     negb (theme_revision self =? theme)%N
  then Some None
  else
    hl ← (match highlighter self with
          | Some hl => Some (Some hl)
          | None =>
              code ← slice_range (content_start self) (source_len self) raw_source;
              Some (highlighter_new code (language self) (theme_revision self))
          end);
    match hl with
    | None => Some None
    | Some hl =>
        match highlighter_append hl committed_source with
        | None => Some None
        | Some (hl, lines) =>
            Some (Some (mkFence (marker self) (marker_len self) (language self) (content_start self)
                          (str_len raw_source) (theme_revision self) (Some hl), lines))
        end
    end.

(** ** [render.rs] *)
Record StreamingRender := mkRender {
  render_lines : list L;
  stable_source_len : N;
  stable_rendered_len : nat;
  has_reference_link_definition : bool;
  has_inline_visualization_directive : bool;
  open_code_fence : option OpenCodeFence;
}.

Definition new_render : StreamingRender := mkRender [] 0 0 false false None.

Definition render_source (source : rstring) (width : option N) (mode : HistoryRenderMode) : list L :=
  match mode with
  | Rich => render_agent source width
  | Raw => map plain_text_line (raw_lines_from_source source)
  end.

Definition recompute (source : rstring) (width : option N) (mode : HistoryRenderMode) : StreamingRender :=
  let directive := contains_inline_visualization source in
  match mode with
  | Rich =>
      if negb has_visualization_context && negb directive then
        let rendered := render_streaming source width in
        mkRender (md_lines rendered) 0 0 (md_has_reference_link_definition rendered) directive None
      else mkRender (render_source source width mode) 0 0 false directive None
  | Raw => mkRender (render_source source width mode) 0 0 false directive None
  end.

(** The end of [append]: the pending source is rendered and what it completes is kept. *)
Definition append_pending (theme : N) (raw_source : rstring) (width : option N) (mode : HistoryRenderMode)
    (directive : bool) (r : StreamingRender) : option StreamingRender :=
  pending_source ← slice_from (stable_source_len r) raw_source;
  let pending := render_streaming pending_source width in
  if md_has_reference_link_definition pending then Some (recompute raw_source width mode)
  else
    let final_block_start := default 0%N (last_top_level_block_start pending) in
    final_block ← slice_from final_block_start pending_source;
    let fence := detect theme final_block (str_len raw_source) theme in
    stable ← (match last_top_level_block_start pending with
              | Some boundary =>
                  newly_stable_source ← slice_to boundary pending_source;
                  Some (Some (boundary, length (render_source newly_stable_source width mode)))
              | None => Some None
              end);
    let kept := take (stable_rendered_len r) (render_lines r) in
    let kept :=
      if negb (is_empty kept) && (negb (is_empty (md_lines pending)) || negb (is_empty (trim pending_source))) &&
         negb (first_top_level_block_is_html pending)
      then kept ++ [blank_line] else kept in
    Some (mkRender (kept ++ md_lines pending)
            (match stable with Some (boundary, _) => stable_source_len r + boundary | None => stable_source_len r end)%N
            (match stable with Some (_, n) => length kept + n | None => stable_rendered_len r end)
            false directive fence).

Definition render_append (theme : N) (raw_source committed_source : rstring) (width : option N)
    (mode : HistoryRenderMode) (r : StreamingRender) : option StreamingRender :=
  match mode with
  | Raw =>
      Some (mkRender (render_lines r ++ map plain_text_line (raw_lines_from_source committed_source))
              (stable_source_len r) (stable_rendered_len r) (has_reference_link_definition r)
              (has_inline_visualization_directive r) (open_code_fence r))
  | Rich =>
      let directive := has_inline_visualization_directive r || contains_inline_visualization committed_source in
      if directive then Some (recompute raw_source width mode)
      else if has_reference_link_definition r then Some (recompute raw_source width mode)
      else
        fenced ← (match open_code_fence r with
                  | Some fence => fence_append theme fence raw_source committed_source
                  | None => Some None
                  end);
        match fenced with
        | Some (fence, lines) =>
            Some (mkRender (render_lines r ++ lines) (stable_source_len r) (stable_rendered_len r)
                    (has_reference_link_definition r) directive (Some fence))
        | None => append_pending theme raw_source width mode directive r
        end
  end.
End Render.
Arguments OpenCodeFence : clear implicits.
Arguments StreamingRender : clear implicits.

(** * Correctness of incremental rendering

    The state of [StreamRender.v] stays consistent with the committed source: an open code
    fence covers exactly the code after its opening line and that code holds no line
    that could close it, the stable boundary is a character boundary, and in raw mode the
    lines are those of the whole source. *)


#[local] Set Default Proof Using "Type*".

(** ** Text of complete lines *)
Lemma complete_lines_text_of ls : complete_lines (text_of ls).
Proof.
  destruct ls as [|l ls] using rev_ind; [by left|]. right. rewrite text_of_app.
  exists (text_of ls ++ l). unfold text_of at 2. simpl. by rewrite app_nil_r, app_assoc.
Qed.

Lemma complete_lines_app a b : complete_lines a → complete_lines b → complete_lines (a ++ b).
Proof.
  intros Ha [->|[s ->]]; [by rewrite app_nil_r|]. right. exists (a ++ s). by rewrite app_assoc.
Qed.

Lemma complete_lines_suffix a b : complete_lines (a ++ b) → complete_lines b.
Proof.
  intros [[_ ->]%app_eq_nil|[s Hs]]; [by left|].
  destruct b as [|x b _] using rev_ind; [by left|]. right.
  rewrite app_assoc in Hs. apply app_snoc_inj in Hs as [_ ->]. by exists b.
Qed.

Lemma ends_with_LF s : s ≠ [] → complete_lines s → ends_with [LF] s = true.
Proof. intros Hn [->|[t ->]]; [done|]. apply ends_with_true. by exists t. Qed.

Lemma ends_with_complete s : ends_with [LF] s = true → complete_lines s.
Proof. intros [r ->]%ends_with_true. right. by exists r. Qed.

Lemma raw_lines_text ls : Forall (λ l, LF ∉ l) ls → raw_lines_from_source (text_of ls) = ls.
Proof.
  intros Hls. destruct ls as [|l ls]; [done|]. unfold raw_lines_from_source.
  assert (text_of (l :: ls) ≠ []) as Hn by (rewrite text_of_cons; by destruct l).
  replace (is_empty (text_of (l :: ls))) with false by (by destruct (text_of (l :: ls))).
  rewrite ends_with_LF by (done || apply complete_lines_text_of).
  rewrite split_on_text by done. apply removelast_last.
Qed.

Lemma raw_lines_app a b :
  complete_lines a → complete_lines b →
  raw_lines_from_source (a ++ b) = raw_lines_from_source a ++ raw_lines_from_source b.
Proof.
  intros (la & -> & Ha)%complete_lines_text (lb & -> & Hb)%complete_lines_text.
  rewrite <- text_of_app, !raw_lines_text; try done. by apply Forall_app.
Qed.

Lemma lines_app_complete a b : complete_lines a → lines (a ++ b) = lines a ++ lines b.
Proof.
  intros [->|[s ->]]; [done|]. rewrite <- app_assoc. cbn [app]. rewrite !lines_app_lf.
  change (lines []) with (@nil rstring). by rewrite app_nil_r.
Qed.

Lemma slice_range_app a b d : slice_range (str_len a) (str_len (a ++ b)) (a ++ b ++ d) = Some b.
Proof. unfold slice_range. rewrite app_assoc, slice_to_app. simpl. apply slice_from_app. Qed.

Lemma split_once_parts c s a b : split_once c s = Some (a, b) → s = a ++ c :: b.
Proof.
  revert a b. induction s as [|x s IH]; intros a b; simpl; [done|].
  destruct (N.eqb_spec x c) as [->|]; [by intros [= <- <-]|].
  destruct (split_once c s) as [[a' b']|] eqn:E; simpl; [|done]. intros [= <- <-].
  by rewrite (IH a' b') at 1.
Qed.

Lemma has_possible_closing_app a b m n :
  complete_lines a →
  has_possible_closing_line (a ++ b) m n =
  has_possible_closing_line a m n || has_possible_closing_line b m n.
Proof. intros Ha. unfold has_possible_closing_line. by rewrite lines_app_complete, existsb_app. Qed.

Section Spec.
Context {L H : Type} {render_ops : RenderOps L H}.

(** ** The open fence *)
(** A fence that is open at the end of [raw]. *)
Record fence_ok (raw : rstring) (f : OpenCodeFence H) : Prop := {
  fence_source : source_len f = str_len raw;
  fence_marker : 3 ≤ marker_len f;
  fence_code : ∃ before code, raw = before ++ code ∧ content_start f = str_len before ∧
    complete_lines code ∧ contains_any [CR; 0%N] code = false ∧
    has_possible_closing_line code (marker f) (marker_len f) = false;
}.

Lemma contains_any_app cs a b : contains_any cs (a ++ b) = contains_any cs a || contains_any cs b.
Proof. apply existsb_app. Qed.

Lemma detect_ok theme before source f :
  detect theme source (str_len (before ++ source)) theme = Some f → fence_ok (before ++ source) f.
Proof.
  unfold detect. destruct (head source) as [m|]; [|done]. cbn [mbind option_bind].
  destruct (negb _ && _); [done|]. destruct (split_once LF source) as [[opening code]|] eqn:Es; [|done].
  apply split_once_parts in Es. cbn [mbind option_bind].
  destruct ((_ <? 3) || _ || _ || _) eqn:E1; [done|].
  destruct (contains_any _ _ || _); [done|]. destruct (is_empty _); [done|].
  destruct ((_ <? _)%N || _) eqn:E2; [done|].
  destruct (checked_sub _ _) as [start|] eqn:E3; [|done]. intros [= <-].
  apply orb_false_iff in E1 as [[[E1 Ee%negb_false_iff]%orb_false_iff _]%orb_false_iff Ec].
  apply orb_false_iff in E2 as [_ E2]. apply Nat.ltb_ge in E1.
  unfold checked_sub in E3. destruct (N.leb_spec (str_len code) (str_len (before ++ source))) as [Hle|]; [|done].
  injection E3 as <-. split; cbn [source_len marker_len marker content_start]; [done|done|].
  exists (before ++ opening ++ [LF]), code. split; [rewrite Es; by rewrite <- !app_assoc|].
  split.
  { rewrite Es. replace (before ++ opening ++ LF :: code) with ((before ++ opening ++ [LF]) ++ code)
      by by rewrite <- !app_assoc. rewrite (str_len_app _ code). lia. }
  split; [|split; [|done]].
  - apply ends_with_complete in Ee. rewrite Es in Ee.
    replace (opening ++ LF :: code) with ((opening ++ [LF]) ++ code) in Ee by by rewrite <- app_assoc.
    by apply complete_lines_suffix in Ee.
  - rewrite Es in Ec. rewrite contains_any_app in Ec. apply orb_false_iff in Ec as [_ Ec].
    simpl in Ec. exact Ec.
Qed.

Lemma fence_append_ok theme raw committed f :
  fence_ok raw f → complete_lines committed →
  ∃ r, fence_append theme f (raw ++ committed) committed = Some r ∧
    ∀ f' ls, r = Some (f', ls) → fence_ok (raw ++ committed) f'.
Proof.
  intros [Hs Hm (before & code & Hraw & Hst & Hcomp & Hcr & Hclose)] Hc. unfold fence_append.
  destruct (_ || negb (theme_revision f =? theme)%N) eqn:E; [by exists None|].
  apply orb_false_iff in E as [[[_ Ecr]%orb_false_iff Ecl]%orb_false_iff _].
  assert (Hsl : slice_range (content_start f) (source_len f) (raw ++ committed) = Some code).
  { rewrite Hst, Hs, Hraw, <- app_assoc. apply slice_range_app. }
  rewrite Hsl. cbn [mbind option_bind].
  assert (Hf' : ∀ hl, fence_ok (raw ++ committed)
    (mkFence (marker f) (marker_len f) (language f) (content_start f) (str_len (raw ++ committed)) (theme_revision f) hl)).
  { intros hl. split; cbn [source_len marker_len marker content_start]; [done..|].
    exists before, (code ++ committed). split; [by rewrite Hraw, app_assoc|]. split; [done|].
    split; [by apply complete_lines_app|]. rewrite contains_any_app, Hcr, has_possible_closing_app by done.
    by rewrite Hclose. }
  destruct (highlighter f) as [hl|]; cbn [mbind option_bind].
  - destruct (highlighter_append hl committed) as [[hl' ls]|]; eexists; split; [done| |done|]; [|done].
    intros f' ls' [= <- <-]. apply Hf'.
  - destruct (highlighter_new _ _ _) as [hl|]; [|by exists None].
    destruct (highlighter_append hl committed) as [[hl' ls]|]; eexists; split; [done| |done|]; [|done].
    intros f' ls' [= <- <-]. apply Hf'.
Qed.

(** ** The incremental render *)
(** A block start reported by the renderer is an offset between two characters of the
    source it was given. *)
Class RenderLaws : Prop :=
  block_start_boundary s w b :
    last_top_level_block_start (render_streaming s w) = Some b → ∃ p q, s = p ++ q ∧ b = str_len p.
Context {render_laws : RenderLaws}.

Record render_ok (m : HistoryRenderMode) (raw : rstring) (r : StreamingRender L H) : Prop := {
  render_stable : ∃ before after, raw = before ++ after ∧ stable_source_len r = str_len before;
  render_fence f : open_code_fence r = Some f → m = Rich ∧ fence_ok raw f;
  render_raw : m = Raw → render_lines r = map plain_text_line (raw_lines_from_source raw);
}.

Lemma new_render_ok m : render_ok m [] new_render.
Proof. split; [by exists [], []|done|done]. Qed.

Lemma recompute_ok raw w m : render_ok m raw (recompute raw w m).
Proof.
  unfold recompute. destruct m; [destruct (negb _ && _)|]; (split; [by exists [], raw|done|done]).
Qed.

Lemma append_pending_ok theme raw w directive (r : StreamingRender L H) :
  (∃ before after, raw = before ++ after ∧ stable_source_len r = str_len before) →
  ∃ r', append_pending theme raw w Rich directive r = Some r' ∧ render_ok Rich raw r'.
Proof.
  intros (before & after & Hraw & Hst). unfold append_pending.
  assert (Hsl : slice_from (stable_source_len r) raw = Some after) by (rewrite Hst, Hraw; apply slice_from_app).
  rewrite Hsl. cbn [mbind option_bind].
  destruct (md_has_reference_link_definition _); [eexists; split; [done|apply recompute_ok]|].
  destruct (last_top_level_block_start (render_streaming after w)) as [b|] eqn:Eb; cbn [default from_option id].
  - apply block_start_boundary in Eb as (p & q & Hpq & ->). rewrite Hpq, slice_from_app.
    cbn [mbind option_bind]. rewrite slice_to_app. cbn [mbind option_bind]. eexists. split; [done|].
    split; cbn [stable_source_len open_code_fence render_lines]; [|intros f Hf; split; [done|]|done].
    + exists (before ++ p), q. split; [by rewrite Hraw, Hpq, app_assoc|]. rewrite str_len_app. lia.
    + rewrite Hraw, Hpq, app_assoc. apply (detect_ok theme (before ++ p) q).
      rewrite <- Hf. f_equal. by rewrite Hraw, Hpq, app_assoc.
  - change (slice_from 0 after) with (slice_from (str_len []) ([] ++ after)). rewrite slice_from_app.
    cbn [mbind option_bind]. eexists. split; [done|].
    split; cbn [stable_source_len open_code_fence render_lines]; [by exists before, after|intros f Hf; split; [done|]|done].
    rewrite Hraw. apply (detect_ok theme before after). rewrite <- Hf. by rewrite Hraw.
Qed.

Lemma render_append_ok theme raw committed w m (r : StreamingRender L H) :
  complete_lines raw → complete_lines committed → render_ok m raw r →
  ∃ r', render_append theme (raw ++ committed) committed w m r = Some r' ∧ render_ok m (raw ++ committed) r'.
Proof.
  intros Hraw Hc [(before & after & Hba & Hst) Hf Hr]. unfold render_append.
  assert (Hst' : ∃ b a, raw ++ committed = b ++ a ∧ stable_source_len r = str_len b).
  { exists before, (after ++ committed). by rewrite Hba, app_assoc. }
  destruct m.
  - destruct (_ || _); [eexists; split; [done|apply recompute_ok]|].
    destruct (has_reference_link_definition r); [eexists; split; [done|apply recompute_ok]|].
    destruct (open_code_fence r) as [f|].
    + destruct (fence_append_ok theme raw committed f) as (res & -> & Hres); [by apply Hf|done|].
      cbn [mbind option_bind]. destruct res as [[f' ls]|]; [|by apply append_pending_ok].
      eexists. split; [done|]. split; cbn [stable_source_len open_code_fence render_lines]; [done| |done].
      intros f'' [= <-]. split; [done|]. by eapply Hres.
    + cbn [mbind option_bind]. by apply append_pending_ok.
  - eexists. split; [done|]. split; cbn [stable_source_len open_code_fence render_lines]; [done| |].
    + intros f Hfe. destruct (Hf f Hfe) as [? _]. done.
    + intros _. by rewrite Hr, raw_lines_app, map_app.
Qed.
End Spec.
Arguments RenderLaws L H {render_ops}.
