(* ===== verification/StreamCore.v ===== *)
(** * Streaming of messages and plans

    Models [sofia-rs/tui/src/markdown_stream.rs] (the collector of complete lines),
    [streaming/mod.rs] (the queue of lines), [streaming/controller.rs] (the two-region
    stream and its controllers), [streaming/chunking.rs] (the adaptive pacing) and
    [streaming/commit_tick.rs] (a tick over both controllers).  Instants and durations are
    milliseconds.  An operation is [None] where the code panics. *)

From stdpp Require Import base list numbers strings.
From S2P Require Import Prelude Machine Truncate TableDetect TableHoldback StreamRender.

#[local] Set Default Proof Using "Type*".

(** ** The collector *)
Record MarkdownStreamCollector := mkCollector {
  buffer : rstring;
  committed_source_len : N;
  collector_width : option N;
}.

Definition new_collector (width : option N) : MarkdownStreamCollector := mkCollector [] 0 width.
Definition collector_set_width (width : option N) (c : MarkdownStreamCollector) : MarkdownStreamCollector :=
  mkCollector (buffer c) (committed_source_len c) width.
Definition clear_collector (c : MarkdownStreamCollector) : MarkdownStreamCollector :=
  mkCollector [] 0 (collector_width c).
Definition collector_push_delta (delta : rstring) (c : MarkdownStreamCollector) : MarkdownStreamCollector :=
  mkCollector (buffer c ++ delta) (committed_source_len c) (collector_width c).

(** [str::rfind] of a line feed, a byte offset. *)
Fixpoint rfind_LF (s : rstring) : option N :=
  match s with
  | [] => None
  | c :: s' =>
      match rfind_LF s' with
      | Some i => Some (char_len c + i)%N
      | None => if (c =? LF)%N then Some 0%N else None
      end
  end.

Definition commit_complete_source (c : MarkdownStreamCollector) : option (N * N) * MarkdownStreamCollector :=
  match rfind_LF (buffer c) with
  | None => (None, c)
  | Some idx =>
      let commit_end := (idx + 1)%N in
      let commit_start := committed_source_len c in
      if (commit_end <=? commit_start)%N then (None, c)
      else (Some (commit_start, commit_end), mkCollector (buffer c) commit_end (collector_width c))
  end.

Definition committed_source (c : MarkdownStreamCollector) : option rstring :=
  slice_to (committed_source_len c) (buffer c).

Definition finalize_and_take_source (c : MarkdownStreamCollector) : rstring * MarkdownStreamCollector :=
  let out := buffer c in
  (if negb (is_empty out) && negb (ends_with [LF] out) then out ++ [LF] else out, clear_collector c).

Section Stream.
Context {L H : Type} {render_ops : RenderOps L H}.

(** ** The queue *)
Record QueuedLine := mkQueued { queued_line : L; enqueued_at : N }.

Record StreamState := mkState {
  collector : MarkdownStreamCollector;
  queued_lines : list QueuedLine;
  has_seen_delta : bool;
}.

Definition new_state (width : option N) : StreamState := mkState (new_collector width) [] false.
Definition clear_state (s : StreamState) : StreamState := mkState (clear_collector (collector s)) [] false.
Definition set_queue (q : list QueuedLine) (s : StreamState) : StreamState :=
  mkState (collector s) q (has_seen_delta s).
Definition set_collector (c : MarkdownStreamCollector) (s : StreamState) : StreamState :=
  mkState c (queued_lines s) (has_seen_delta s).

Definition queue_step (s : StreamState) : list L * StreamState :=
  match queued_lines s with
  | [] => ([], s)
  | queued :: rest => ([queued_line queued], set_queue rest s)
  end.
Definition drain_n (max_lines : nat) (s : StreamState) : list L * StreamState :=
  let end_ := max_lines `min` length (queued_lines s) in
  (map queued_line (take end_ (queued_lines s)), set_queue (drop end_ (queued_lines s)) s).
Definition clear_queue (s : StreamState) : StreamState := set_queue [] s.
Definition is_idle (s : StreamState) : bool := is_empty (queued_lines s).
Definition queued_len (s : StreamState) : nat := length (queued_lines s).
(** [saturating_duration_since] is the truncated difference. *)
Definition oldest_queued_age (now : N) (s : StreamState) : option N :=
  (λ queued, now - enqueued_at queued)%N <$> head (queued_lines s).
Definition enqueue (now : N) (lines : list L) (s : StreamState) : StreamState :=
  set_queue (queued_lines s ++ map (λ line, mkQueued line now) lines) s.

(** ** The two-region stream *)
Record StablePrefixLenCache := mkCache {
  cache_source_start : N;
  cache_width : option N;
  cache_stable_prefix_len : nat;
}.

Record StreamCore := mkCore {
  state : StreamState;
  width : option N;
  render : StreamingRender L H;
  enqueued_stable_len : nat;
  emitted_stable_len : nat;
  render_mode : HistoryRenderMode;
  stable_prefix_len_cache : option StablePrefixLenCache;
  holdback_scanner : TableHoldbackScanner;
}.
Implicit Types c : StreamCore.

Definition new_core (width : option N) (mode : HistoryRenderMode) : StreamCore :=
  mkCore (new_state width) width new_render 0 0 mode None new_holdback.

Definition with_state (s : StreamState) c : StreamCore :=
  mkCore s (width c) (render c) (enqueued_stable_len c) (emitted_stable_len c) (render_mode c)
    (stable_prefix_len_cache c) (holdback_scanner c).
Definition with_lens (enqueued emitted : nat) c : StreamCore :=
  mkCore (state c) (width c) (render c) enqueued emitted (render_mode c)
    (stable_prefix_len_cache c) (holdback_scanner c).
Definition with_cache (cache : option StablePrefixLenCache) c : StreamCore :=
  mkCore (state c) (width c) (render c) (enqueued_stable_len c) (emitted_stable_len c) (render_mode c)
    cache (holdback_scanner c).
Definition with_layout (w : option N) (mode : HistoryRenderMode) c : StreamCore :=
  mkCore (state c) w (render c) (enqueued_stable_len c) (emitted_stable_len c) mode
    (stable_prefix_len_cache c) (holdback_scanner c).
Definition with_render (r : StreamingRender L H) (scanner : TableHoldbackScanner) c : StreamCore :=
  mkCore (state c) (width c) r (enqueued_stable_len c) (emitted_stable_len c) (render_mode c)
    (stable_prefix_len_cache c) scanner.

(** [&self.render.lines[a..b]]. *)
Definition line_range (a b : nat) (ls : list L) : option (list L) :=
  if (a <=? b) && (b <=? length ls) then Some (take (b - a) (drop a ls)) else None.

(** The render of the prefix on a cache miss. *)
Definition render_stable_prefix (source_start : N) c : option (nat * StreamCore) :=
  source ← committed_source (collector (state c));
  prefix ← slice_to (source_start `min` str_len source)%N source;
  let stable_prefix_len := length (render_agent prefix (width c)) in
  Some (stable_prefix_len, with_cache (Some (mkCache source_start (width c) stable_prefix_len)) c).

Definition stable_prefix_len_for_source_start (source_start : N) c : option (nat * StreamCore) :=
  match stable_prefix_len_cache c with
  | Some cache =>
      if (cache_source_start cache =? source_start)%N && bool_decide (cache_width cache = width c)
      then Some (cache_stable_prefix_len cache, c) else render_stable_prefix source_start c
  | None => render_stable_prefix source_start c
  end.

Definition tail_budget_from_source_start (source_start : N) c : option (nat * StreamCore) :=
  if (source_start =? 0)%N then Some (length (render_lines (render c)), c)
  else
    source ← committed_source (collector (state c));
    '(stable_prefix_len, c) ← stable_prefix_len_for_source_start (source_start `min` str_len source)%N c;
    Some (length (render_lines (render c)) - stable_prefix_len, c).

Definition active_tail_budget_lines c : option (nat * StreamCore) :=
  match render_mode c with
  | Raw => Some (0, c)
  | Rich =>
      match holdback_state (holdback_scanner c) with
      | Confirmed start | PendingHeader start => tail_budget_from_source_start start c
      | NoTable => Some (0, c)
      end
  end.

Definition compute_target_stable_len c : option (nat * StreamCore) :=
  '(tail_budget, c) ← active_tail_budget_lines c;
  Some ((length (render_lines (render c)) - tail_budget) `max` emitted_stable_len c, c).

(** Enqueueing the rendered lines [a..b]. *)
Definition enqueue_range (now : N) (a b : nat) c : option StreamCore :=
  ls ← line_range a b (render_lines (render c));
  Some (with_state (enqueue now ls (state c)) c).

Definition rebuild_from (now : N) (target_stable_len : nat) c : option StreamCore :=
  let c := with_state (clear_queue (state c)) c in
  c ← (if emitted_stable_len c <? target_stable_len
       then enqueue_range now (emitted_stable_len c) target_stable_len c else Some c);
  Some (with_lens target_stable_len (emitted_stable_len c) c).

Definition sync_stable_queue (now : N) c : option (bool * StreamCore) :=
  '(target_stable_len, c) ← compute_target_stable_len c;
  if target_stable_len <? enqueued_stable_len c then
    c ← rebuild_from now target_stable_len c;
    Some (0 <? queued_len (state c), c)
  else if target_stable_len =? enqueued_stable_len c then Some (false, c)
  else
    c ← enqueue_range now (enqueued_stable_len c) target_stable_len c;
    Some (true, with_lens target_stable_len (emitted_stable_len c) c).

Definition rebuild_stable_queue_from_render (now : N) c : option StreamCore :=
  '(target_stable_len, c) ← compute_target_stable_len c;
  rebuild_from now target_stable_len c.

Definition core_push_delta (theme now : N) (delta : rstring) c : option (bool * StreamCore) :=
  let seen := has_seen_delta (state c) || negb (is_empty delta) in
  let col := collector_push_delta delta (collector (state c)) in
  let '(range, col) :=
    if existsb (N.eqb LF) delta then commit_complete_source col else (None, col) in
  let c := with_state (mkState col (queued_lines (state c)) seen) c in
  match range with
  | None => Some (false, c)
  | Some (start, end_) =>
      source ← committed_source col;
      committed ← slice_range start end_ source;
      let scanner := push_source_chunk (holdback_scanner c) committed in
      r ← render_append theme source committed (width c) (render_mode c) (render c);
      sync_stable_queue now (with_render r scanner c)
  end.

Definition finalize_remaining c : (list L * rstring) * StreamCore :=
  let '(source, col) := finalize_and_take_source (collector (state c)) in
  let rendered := render_source source (width c) (render_mode c) in
  ((drop (emitted_stable_len c `min` length rendered) rendered, source),
   with_state (set_collector col (state c)) c).

Definition tick c : list L * StreamCore :=
  let '(ls, s) := queue_step (state c) in
  let c := with_state s c in
  (ls, with_lens (enqueued_stable_len c) (emitted_stable_len c + length ls) c).

Definition tick_batch (max_lines : nat) c : list L * StreamCore :=
  if max_lines =? 0 then ([], c)
  else
    let '(ls, s) := drain_n max_lines (state c) in
    let c := with_state s c in
    (ls, if is_empty ls then c else with_lens (enqueued_stable_len c) (emitted_stable_len c + length ls) c).

Definition core_is_idle c : bool := is_idle (state c).
Definition core_queued_lines c : nat := queued_len (state c).
Definition core_oldest_queued_age (now : N) c : option N := oldest_queued_age now (state c).

Definition current_tail_lines c : list L :=
  drop (enqueued_stable_len c `min` length (render_lines (render c))) (render_lines (render c)).
Definition has_tail c : bool := enqueued_stable_len c <? length (render_lines (render c)).

(** The number of emitted lines after a new layout of [n] lines. *)
Definition clamp_emitted (had_pending_queue : bool) (emitted n : nat) : nat :=
  let emitted := emitted `min` n in
  if had_pending_queue && (emitted =? n) && (0 <? emitted) then emitted - 1 else emitted.

(** The common end of [set_width] and [set_render_mode]. *)
Definition relayout (now : N) (had_pending_queue had_live_tail : bool) c : option StreamCore :=
  source ← committed_source (collector (state c));
  if is_empty source then Some c
  else
    let r := recompute source (width c) (render_mode c) in
    let n := length (render_lines r) in
    let emitted := clamp_emitted had_pending_queue (emitted_stable_len c) n in
    let c := with_lens (enqueued_stable_len c) emitted (with_render r (holdback_scanner c) c) in
    let c := with_state (clear_queue (state c)) c in
    if (0 <? emitted) && negb had_pending_queue && negb had_live_tail
    then Some (with_lens n emitted c)
    else rebuild_stable_queue_from_render now c.

Definition core_set_width (now : N) (w : option N) c : option StreamCore :=
  if bool_decide (width c = w) then Some c
  else
    let s := set_collector (collector_set_width w (collector (state c))) (state c) in
    relayout now (0 <? queued_len (state c)) (has_tail c) (with_state s (with_layout w (render_mode c) c)).

Definition core_set_render_mode (now : N) (mode : HistoryRenderMode) c : option StreamCore :=
  if bool_decide (render_mode c = mode) then Some c
  else relayout now (0 <? queued_len (state c)) (has_tail c) (with_layout (width c) mode c).

Definition reset_core c : StreamCore :=
  mkCore (clear_state (state c)) (width c) new_render 0 0 (render_mode c) None new_holdback.

(** [clear_queue] of both controllers. *)
Definition core_clear_queue c : StreamCore :=
  with_lens (emitted_stable_len c) (emitted_stable_len c) (with_state (clear_queue (state c)) c).

(** ** The controllers *)
Inductive HistoryCell :=
  | AgentMessageCell (cell_lines : list L) (is_first_line : bool)
  | ProposedPlanStreamCell (cell_lines : list L) (is_stream_continuation : bool).

Record StreamController := mkController { core : StreamCore; header_emitted : bool }.

Definition new_controller (width : option N) (mode : HistoryRenderMode) : StreamController :=
  mkController (new_core width mode) false.

Definition emit (lines : list L) (t : StreamController) : option HistoryCell * StreamController :=
  if is_empty lines then (None, t)
  else (Some (AgentMessageCell lines (negb (header_emitted t))), mkController (core t) true).

Definition controller_push (theme now : N) (delta : rstring) (t : StreamController) : option (bool * StreamController) :=
  '(b, c) ← core_push_delta theme now delta (core t); Some (b, mkController c (header_emitted t)).

Definition controller_finalize (t : StreamController) : (option HistoryCell * option rstring) * StreamController :=
  let '((remaining, source), c) := finalize_remaining (core t) in
  let t := mkController c (header_emitted t) in
  if is_empty source then ((None, None), mkController (reset_core (core t)) (header_emitted t))
  else
    let '(out, t) := emit remaining t in
    ((out, Some source), mkController (reset_core (core t)) (header_emitted t)).

Definition on_commit_tick (t : StreamController) : (option HistoryCell * bool) * StreamController :=
  let '(ls, c) := tick (core t) in
  let '(cell, t) := emit ls (mkController c (header_emitted t)) in
  ((cell, core_is_idle (core t)), t).

Definition on_commit_tick_batch (max_lines : nat) (t : StreamController)
    : (option HistoryCell * bool) * StreamController :=
  let '(ls, c) := tick_batch max_lines (core t) in
  let '(cell, t) := emit ls (mkController c (header_emitted t)) in
  ((cell, core_is_idle (core t)), t).

Definition tail_starts_stream (t : StreamController) : bool :=
  negb (header_emitted t) && (enqueued_stable_len (core t) =? 0).

Record PlanStreamController := mkPlanController {
  plan_core : StreamCore;
  plan_header_emitted : bool;
  top_padding_emitted : bool;
}.

Definition new_plan_controller (width : option N) (mode : HistoryRenderMode) : PlanStreamController :=
  mkPlanController (new_core width mode) false false.

Definition space_line : L := plain_text_line [SPACE].

Definition render_display_lines (lines : list L) (include_bottom_padding : bool) (t : PlanStreamController) : list L :=
  (if plan_header_emitted t then [] else [plan_title; space_line]) ++
  map plan_style_line
    ((if top_padding_emitted t then [] else [space_line]) ++ lines ++
     (if include_bottom_padding then [space_line] else [])).

Definition plan_emit (lines : list L) (include_bottom_padding : bool) (t : PlanStreamController)
    : option HistoryCell * PlanStreamController :=
  if is_empty lines && negb include_bottom_padding then (None, t)
  else (Some (ProposedPlanStreamCell (render_display_lines lines include_bottom_padding t) (plan_header_emitted t)),
        mkPlanController (plan_core t) true true).

Definition plan_push (theme now : N) (delta : rstring) (t : PlanStreamController) : option (bool * PlanStreamController) :=
  '(b, c) ← core_push_delta theme now delta (plan_core t);
  Some (b, mkPlanController c (plan_header_emitted t) (top_padding_emitted t)).

Definition plan_finalize (t : PlanStreamController) : (option HistoryCell * option rstring) * PlanStreamController :=
  let '((remaining, source), c) := finalize_remaining (plan_core t) in
  let t := mkPlanController c (plan_header_emitted t) (top_padding_emitted t) in
  let reset t := mkPlanController (reset_core (plan_core t)) (plan_header_emitted t) (top_padding_emitted t) in
  if is_empty source then ((None, None), reset t)
  else
    let '(out, t) := plan_emit remaining true t in
    ((out, Some source), reset t).

Definition plan_on_commit_tick (t : PlanStreamController) : (option HistoryCell * bool) * PlanStreamController :=
  let '(ls, c) := tick (plan_core t) in
  let '(cell, t) := plan_emit ls false (mkPlanController c (plan_header_emitted t) (top_padding_emitted t)) in
  ((cell, core_is_idle (plan_core t)), t).

Definition plan_on_commit_tick_batch (max_lines : nat) (t : PlanStreamController)
    : (option HistoryCell * bool) * PlanStreamController :=
  let '(ls, c) := tick_batch max_lines (plan_core t) in
  let '(cell, t) := plan_emit ls false (mkPlanController c (plan_header_emitted t) (top_padding_emitted t)) in
  ((cell, core_is_idle (plan_core t)), t).

Definition plan_tail_starts_stream (t : PlanStreamController) : bool :=
  negb (plan_header_emitted t) && (enqueued_stable_len (plan_core t) =? 0).

Definition current_tail_display_lines (t : PlanStreamController) : list L :=
  let lines := current_tail_lines (plan_core t) in
  if is_empty lines then [] else render_display_lines lines false t.
End Stream.
Arguments QueuedLine : clear implicits.
Arguments StreamState : clear implicits.
Arguments StreamCore : clear implicits.
Arguments HistoryCell : clear implicits.
Arguments StreamController : clear implicits.
Arguments PlanStreamController : clear implicits.
