(* ===== verification/StreamCoreSpec.v ===== *)
(** * Correctness of streaming

    The invariant of a stream and its preservation by every operation, which shows that
    no slice panics; what is emitted; and the replay after a resize. *)

From stdpp Require Import base list numbers strings.
From S2P Require Import Prelude Machine Truncate TableDetect TableHoldback StreamRender StreamCore.

#[local] Set Default Proof Using "Type*".

(** ** Offsets of the scanner *)
Lemma text_of_snoc ls l : text_of (ls ++ [l]) = text_of ls ++ l ++ [LF].
Proof. rewrite text_of_app. unfold text_of at 2. simpl. by rewrite app_nil_r. Qed.

Lemma next_start_text ls :
  (str_len (text_of ls) ≤ USIZE_MAX)%N → foldl next_start 0%N ls = str_len (text_of ls).
Proof.
  induction ls as [|l ls IH] using rev_ind; [done|]. rewrite text_of_snoc, foldl_app, str_len_app.
  cbn [foldl]. intros Hle. rewrite str_len_snoc_LF in *.
  rewrite IH by lia. unfold next_start, sat_add. lia.
Qed.

Lemma parsed_start_boundary ls x :
  (str_len (text_of ls) ≤ USIZE_MAX)%N → x ∈ parsed ls → ∃ p q, text_of ls = p ++ q ∧ parsed_start x = str_len p.
Proof.
  induction ls as [|l ls IH] using rev_ind; [by intros _ ?%not_elem_of_nil|].
  rewrite parsed_snoc, text_of_snoc, str_len_app. intros Hle [Hx|Hx%list_elem_of_singleton]%elem_of_app.
  - destruct IH as (p & q & -> & ->); [lia|done|]. exists p, (q ++ l ++ [LF]). by rewrite <- app_assoc.
  - exists (text_of ls), (l ++ [LF]). split; [done|]. subst x. cbn [parsed_start]. apply next_start_text. lia.
Qed.

Lemma find_table_elem ps n : find_table ps = Some n → ∃ x, x ∈ ps ∧ parsed_start x = n.
Proof.
  induction ps as [|x ps IH] using rev_ind; [done|]. rewrite find_table_snoc.
  destruct (find_table ps) as [t|].
  - intros [= <-]. destruct IH as (y & Hy & <-); [done|]. exists y. rewrite elem_of_app. auto.
  - destruct (last ps) as [p|] eqn:El; [|done]. destruct (confirms p x); [|done]. intros [= <-].
    exists p. split; [|done]. apply elem_of_app. left. apply last_Some_snoc in El as [ps' ->].
    apply elem_of_app. right. by apply list_elem_of_singleton.
Qed.

Lemma pending_of_elem ps n : pending_of ps = Some n → ∃ x, x ∈ ps ∧ parsed_start x = n.
Proof.
  unfold pending_of. destruct (List.find nonblank (reverse ps)) as [x|] eqn:E; [|done].
  destruct (header_candidate x); [|done]. intros [= <-]. exists x. split; [|done].
  apply find_some in E as [E _]. apply list_elem_of_In in E. by rewrite elem_of_reverse in E.
Qed.

Lemma holdback_boundary ls s n :
  scanned ls s → (str_len (text_of ls) ≤ USIZE_MAX)%N →
  (holdback_state s = Confirmed n ∨ holdback_state s = PendingHeader n) →
  ∃ p q, text_of ls = p ++ q ∧ n = str_len p.
Proof.
  intros [_ _ _ Hc Hp] Hle Hs. unfold holdback_state in Hs.
  assert (∃ x, x ∈ parsed ls ∧ parsed_start x = n) as (x & Hx & <-).
  { destruct (confirmed_table_start s) as [t|] eqn:E.
    - destruct Hs as [[= ->]|]; [|done]. by apply find_table_elem.
    - destruct (pending_header_start s) as [t|]; [|by destruct Hs]. destruct Hs as [|[= ->]]; [done|].
      apply pending_of_elem. by rewrite <- Hp. }
  by apply parsed_start_boundary.
Qed.

(** Pushing the chunk that completes the lines [ls']. *)
Lemma push_source_chunk_scanned ls ls' s :
  scanned ls s → Forall (λ l, LF ∉ l) ls' → scanned (ls ++ ls') (push_source_chunk s (text_of ls')).
Proof.
  intros Hs Hls'.
  assert (push_source_chunk s (text_of ls') = foldl push_line s (map (λ l, l ++ [LF]) ls')) as ->.
  { unfold push_source_chunk. rewrite split_inclusive_text by done. destruct ls' as [|l ls']; [done|].
    rewrite text_of_cons. by destruct l. }
  clear Hls'. revert ls s Hs. induction ls' as [|l ls' IH]; intros ls s Hs; [by rewrite app_nil_r|].
  cbn [map foldl]. rewrite (app_assoc ls [l] ls' : ls ++ l :: ls' = _). apply IH. by apply push_line_scanned.
Qed.

(** ** The last line break *)
Lemma rfind_LF_text s :
  match rfind_LF s with
  | Some i => ∃ ls rest, s = text_of ls ++ rest ∧ Forall (λ l, LF ∉ l) ls ∧ LF ∉ rest ∧ (i + 1)%N = str_len (text_of ls)
  | None => LF ∉ s
  end.
Proof.
  induction s as [|c s IH]; simpl; [apply not_elem_of_nil|].
  destruct (rfind_LF s) as [i|].
  - destruct IH as (ls & rest & -> & Hls & Hrest & Hi). destruct (N.eqb_spec c LF) as [->|Hc].
    + exists ([] :: ls), rest. split; [by rewrite text_of_cons|].
      split; [constructor; [apply not_elem_of_nil|done]|]. split; [done|]. rewrite text_of_cons. cbn [app str_len]. lia.
    + destruct ls as [|l ls]; [simpl in Hi; lia|]. exists ((c :: l) :: ls), rest.
      rewrite !text_of_cons in *. split; [done|]. apply Forall_cons in Hls as [Hl Hls].
      split; [constructor; [|done]; rewrite elem_of_cons; naive_solver|]. split; [done|]. cbn [app str_len]. lia.
  - destruct (N.eqb_spec c LF) as [->|Hc].
    + exists [[]], s. split_and!; try done. repeat constructor. apply not_elem_of_nil.
    + rewrite elem_of_cons. naive_solver.
Qed.

Section Spec.
Context {L H : Type} {render_ops : RenderOps L H} {render_laws : RenderLaws L H}.
Abbreviation stream_core := (StreamCore L H).
Implicit Types c : stream_core.

(** ** The invariant *)
(** A remembered prefix length is the one a fresh render gives. *)
Definition cache_ok (source : rstring) (k : option StablePrefixLenCache) : Prop :=
  match k with
  | Some k => ∃ p q, source = p ++ q ∧ cache_source_start k = str_len p ∧
      cache_stable_prefix_len k = length (render_agent p (cache_width k))
  | None => True
  end.

(** The stream has committed the lines [ls] and holds the incomplete line [rest]. *)
Record core_ok (ls : list rstring) (rest : rstring) c : Prop := {
  ok_buffer : buffer (collector (state c)) = text_of ls ++ rest;
  ok_committed : committed_source_len (collector (state c)) = str_len (text_of ls);
  ok_lines : Forall (λ l, LF ∉ l) ls;
  ok_rest : LF ∉ rest;
  ok_size : (str_len (text_of ls) ≤ USIZE_MAX)%N;
  ok_scanner : scanned ls (holdback_scanner c);
  ok_render : render_ok (render_mode c) (text_of ls) (render c);
  ok_fresh : ls = [] → render c = new_render;
  ok_cache : cache_ok (text_of ls) (stable_prefix_len_cache c);
  ok_emitted : emitted_stable_len c ≤ enqueued_stable_len c;
  ok_queue : length (queued_lines (state c)) + emitted_stable_len c ≤ enqueued_stable_len c;
}.

Lemma new_core_ok w m : core_ok [] [] (new_core w m).
Proof. split; try done; [apply not_elem_of_nil|apply new_render_ok]. Qed.

Lemma committed_source_ok ls rest c :
  core_ok ls rest c → committed_source (collector (state c)) = Some (text_of ls).
Proof. intros [Hb Hc]. unfold committed_source. rewrite Hb, Hc. apply slice_to_app. Qed.

Lemma str_len_prefix_le (p q : rstring) : (str_len p ≤ str_len (p ++ q))%N.
Proof. rewrite str_len_app. lia. Qed.

(** Changes of the cache, of the queue and of the number of enqueued lines. *)
Lemma with_cache_ok ls rest c k : core_ok ls rest c → cache_ok (text_of ls) k → core_ok ls rest (with_cache k c).
Proof. intros [] Hk. by split. Qed.

Definition with_queue (q : list (QueuedLine L)) (enqueued : nat) c : stream_core :=
  with_lens enqueued (emitted_stable_len c) (with_state (set_queue q (state c)) c).

Lemma with_queue_ok ls rest c q n :
  core_ok ls rest c → length q + emitted_stable_len c ≤ n → core_ok ls rest (with_queue q n c).
Proof. intros [] Hq. split; try done; simpl; lia. Qed.

(** The length of the stable prefix does not depend on the cache. *)
Lemma stable_prefix_ok ls rest c p q :
  core_ok ls rest c → text_of ls = p ++ q →
  ∃ k, stable_prefix_len_for_source_start (str_len p) c =
    Some (length (render_agent p (width c)), with_cache k c) ∧ core_ok ls rest (with_cache k c).
Proof.
  intros Hc Hpq. unfold stable_prefix_len_for_source_start.
  assert (Hmiss : render_stable_prefix (str_len p) c =
    Some (length (render_agent p (width c)),
          with_cache (Some (mkCache (str_len p) (width c) (length (render_agent p (width c))))) c)).
  { unfold render_stable_prefix. rewrite (committed_source_ok ls rest c Hc). cbn [mbind option_bind].
    rewrite N.min_l by (rewrite Hpq; apply str_len_prefix_le). by rewrite Hpq, slice_to_app. }
  rewrite Hmiss. clear Hmiss.
  assert (Hnew : core_ok ls rest
    (with_cache (Some (mkCache (str_len p) (width c) (length (render_agent p (width c))))) c)).
  { apply with_cache_ok; [done|]. by exists p, q. }
  destruct (stable_prefix_len_cache c) as [k|] eqn:Ek; [|by eexists].
  destruct (_ && _) eqn:E; [|by eexists].
  apply andb_true_iff in E as [E1%N.eqb_eq E2%bool_decide_eq_true].
  exists (Some k). replace (with_cache (Some k) c) with c by (rewrite <- Ek; by destruct c).
  split; [|done]. pose proof (ok_cache _ _ _ Hc) as Hk. rewrite Ek in Hk.
  destruct Hk as (p' & q' & Hpq' & Hst & ->). rewrite E2.
  assert (slice_to (str_len p) (text_of ls) = Some p) as H1 by (rewrite Hpq; apply slice_to_app).
  assert (slice_to (str_len p') (text_of ls) = Some p') as H2 by (rewrite Hpq'; apply slice_to_app).
  rewrite <- Hst, E1, H1 in H2. by injection H2 as ->.
Qed.

Lemma tail_budget_ok ls rest c p q :
  core_ok ls rest c → text_of ls = p ++ q →
  ∃ n k, tail_budget_from_source_start (str_len p) c = Some (n, with_cache k c) ∧ core_ok ls rest (with_cache k c).
Proof.
  intros Hc Hpq. unfold tail_budget_from_source_start. destruct (str_len p =? 0)%N.
  { exists (length (render_lines (render c))), (stable_prefix_len_cache c).
    replace (with_cache (stable_prefix_len_cache c) c) with c by by destruct c. done. }
  rewrite (committed_source_ok ls rest c Hc). cbn [mbind option_bind].
  rewrite N.min_l by (rewrite Hpq; apply str_len_prefix_le).
  destruct (stable_prefix_ok ls rest c p q Hc Hpq) as (k & -> & Hk). cbn [mbind option_bind]. by eexists _, k.
Qed.

Lemma compute_target_ok ls rest c :
  core_ok ls rest c →
  ∃ t k, compute_target_stable_len c = Some (t, with_cache k c) ∧ core_ok ls rest (with_cache k c) ∧
    emitted_stable_len c ≤ t ≤ length (render_lines (render c)) `max` emitted_stable_len c ∧
    (render_mode c = Raw → t = length (render_lines (render c)) `max` emitted_stable_len c).
Proof.
  intros Hc. unfold compute_target_stable_len.
  assert (∃ n k, active_tail_budget_lines c = Some (n, with_cache k c) ∧ core_ok ls rest (with_cache k c) ∧
    (render_mode c = Raw → n = 0)) as (n & k & -> & Hk & Hraw).
  { assert (Hsame : ∃ k, (0, c) = (0, with_cache k c) ∧ core_ok ls rest (with_cache k c)).
    { exists (stable_prefix_len_cache c). replace (with_cache (stable_prefix_len_cache c) c) with c by by destruct c. done. }
    destruct Hsame as (k0 & Hk0 & Hok0). unfold active_tail_budget_lines.
    destruct (render_mode c); [|exists 0, k0; by rewrite <- Hk0].
    destruct (holdback_state (holdback_scanner c)) as [|n|n] eqn:Eh; [exists 0, k0; by rewrite <- Hk0|..].
    all: edestruct (holdback_boundary ls (holdback_scanner c) n) as (p & q & Hpq & ->);
      [apply Hc|apply Hc|auto|].
    all: destruct (tail_budget_ok ls rest c p q Hc Hpq) as (b & k & -> & Hk); by exists b, k. }
  cbn [mbind option_bind]. eexists _, k. split; [done|]. split; [done|]. simpl.
  split; [lia|]. intros ->%Hraw. f_equal. lia.
Qed.

(** ** The queue *)
Lemma line_range_ok (a b : nat) (ls : list L) :
  a ≤ b → b ≤ length ls → line_range a b ls = Some (take (b - a) (drop a ls)).
Proof. intros Ha Hb. unfold line_range. apply Nat.leb_le in Ha, Hb. by rewrite Ha, Hb. Qed.

Definition queue_of (now : N) (ls : list L) : list (QueuedLine L) := map (λ line, mkQueued line now) ls.

Lemma rebuild_from_ok ls rest c now t :
  core_ok ls rest c → emitted_stable_len c ≤ t →
  t ≤ length (render_lines (render c)) `max` emitted_stable_len c →
  ∃ q, rebuild_from now t c = Some (with_queue q t c) ∧ core_ok ls rest (with_queue q t c) ∧
    map queued_line q = take (t - emitted_stable_len c) (drop (emitted_stable_len c) (render_lines (render c))).
Proof.
  intros Hc Ht Hle. unfold rebuild_from. cbn [emitted_stable_len with_state].
  destruct (Nat.ltb_spec (emitted_stable_len c) t) as [Hlt|Hge].
  - unfold enqueue_range. cbn [render with_state]. rewrite line_range_ok by lia. cbn [mbind option_bind].
    set (new := take _ _). exists (queue_of now new). split; [done|]. split.
    + apply with_queue_ok; [done|]. unfold queue_of, new. rewrite length_map, length_take, length_drop. lia.
    + unfold queue_of. rewrite map_map. apply map_id.
  - exists []. split; [done|]. split; [apply with_queue_ok; [done|simpl; lia]|].
    replace (t - emitted_stable_len c) with 0 by lia. by rewrite take_0.
Qed.

(** After a synchronization the queue holds the lines up to the target: rebuilt, kept, or extended. *)
Lemma sync_ok ls rest c now :
  core_ok ls rest c →
  ∃ b t k q, sync_stable_queue now c = Some (b, with_queue q t (with_cache k c)) ∧
    core_ok ls rest (with_queue q t (with_cache k c)) ∧
    (render_mode c = Raw → t = length (render_lines (render c)) `max` emitted_stable_len c) ∧
    (if t <? enqueued_stable_len c
     then map queued_line q = take (t - emitted_stable_len c) (drop (emitted_stable_len c) (render_lines (render c)))
     else map queued_line q = map queued_line (queued_lines (state c)) ++
            take (t - enqueued_stable_len c) (drop (enqueued_stable_len c) (render_lines (render c)))).
Proof.
  intros Hc. destruct (compute_target_ok ls rest c Hc) as (t & k & Ht & Hk & Hb & Hraw).
  unfold sync_stable_queue. rewrite Ht. cbn [mbind option_bind].
  change (enqueued_stable_len (with_cache k c)) with (enqueued_stable_len c).
  destruct (Nat.ltb_spec t (enqueued_stable_len c)) as [Hlt|Hge].
  - destruct (rebuild_from_ok ls rest (with_cache k c) now t Hk) as (q & -> & Hq & Hm); [simpl; lia..|].
    cbn [mbind option_bind]. exists (0 <? queued_len (state (with_queue q t (with_cache k c)))), t, k, q.
    split; [done|]. split; [done|]. split; [done|]. apply Nat.ltb_lt in Hlt. by rewrite Hlt.
  - pose proof Hge as Hge'. apply Nat.ltb_ge in Hge'.
    destruct (Nat.eqb_spec t (enqueued_stable_len c)) as [->|Hne].
    + exists false, (enqueued_stable_len c), k, (queued_lines (state c)).
      replace (with_queue (queued_lines (state c)) (enqueued_stable_len c) (with_cache k c)) with (with_cache k c)
        by (destruct c as [[]]; done).
      split; [done|]. split; [done|]. split; [done|]. rewrite Hge', Nat.sub_diag, take_0, app_nil_r. done.
    + unfold enqueue_range. cbn [render with_cache]. pose proof (ok_emitted _ _ _ Hc).
      rewrite line_range_ok by lia. cbn [mbind option_bind]. set (new := take _ _).
      exists true, t, k, (queued_lines (state c) ++ queue_of now new). split; [done|]. split; [|split; [done|]].
      * apply with_queue_ok; [done|]. rewrite length_app. unfold queue_of, new.
        rewrite length_map, length_take, length_drop. pose proof (ok_queue _ _ _ Hc). simpl. lia.
      * rewrite Hge', map_app. f_equal. unfold queue_of. rewrite map_map. apply map_id.
Qed.

(** ** The operations *)
Lemma text_of_rest_unique (ls ls' : list rstring) (r r' : rstring) :
  Forall (λ l, LF ∉ l) ls → Forall (λ l, LF ∉ l) ls' → LF ∉ r → LF ∉ r' →
  text_of ls ++ r = text_of ls' ++ r' → ls = ls' ∧ r = r'.
Proof.
  intros Hls Hls' Hr Hr' Heq.
  assert (Hsp : ∀ ls r, Forall (λ l, LF ∉ l) ls → LF ∉ r → split_on LF (text_of ls ++ r) = ls ++ [r]).
  { clear. induction 1 as [|l ls Hl _ IH]; intros Hr; [by apply split_on_none|].
    rewrite text_of_cons, <- app_assoc. cbn [app]. rewrite split_on_app by done. by rewrite IH. }
  pose proof (Hsp ls r Hls Hr) as H1. rewrite Heq, (Hsp ls' r' Hls' Hr') in H1.
  by apply app_snoc_inj in H1 as [-> ->].
Qed.

Lemma existsb_LF s : existsb (N.eqb LF) s = false ↔ LF ∉ s.
Proof.
  rewrite <- not_true_iff_false, existsb_exists. split.
  - intros Hn Hin. apply Hn. exists LF. split; [by apply list_elem_of_In|apply N.eqb_refl].
  - intros Hn (x & Hx%list_elem_of_In & Hxe%N.eqb_eq). by subst.
Qed.

(** The lines a delta completes, and what is left incomplete. *)
Lemma delta_lines (rest delta : rstring) :
  ∃ new rest', rest ++ delta = text_of new ++ rest' ∧ Forall (λ l, LF ∉ l) new ∧ LF ∉ rest'.
Proof.
  pose proof (rfind_LF_text (rest ++ delta)) as Hr. destruct (rfind_LF _).
  - destruct Hr as (new & rest' & ? & ? & ? & _). by exists new, rest'.
  - by exists [], (rest ++ delta).
Qed.

Lemma rfind_LF_lines new rest :
  Forall (λ l, LF ∉ l) new → LF ∉ rest →
  rfind_LF (text_of new ++ rest) = if is_empty new then None else Some (str_len (text_of new) - 1)%N.
Proof.
  intros Hnew Hrest. pose proof (rfind_LF_text (text_of new ++ rest)) as Hr.
  destruct (rfind_LF (text_of new ++ rest)) as [i|].
  - destruct Hr as (ls & rest' & Heq & Hls & Hrest' & Hi).
    apply text_of_rest_unique in Heq as [-> ->]; try done. destruct ls; [simpl in Hi; lia|].
    simpl is_empty. f_equal. lia.
  - destruct new as [|l new]; [done|]. exfalso. apply Hr. rewrite text_of_cons.
    apply elem_of_app. left. apply elem_of_app. right. by left.
Qed.

(** A delta that completes the lines [new]. *)
Lemma push_delta_ok ls rest c theme now delta new rest' :
  core_ok ls rest c → rest ++ delta = text_of new ++ rest' → Forall (λ l, LF ∉ l) new → LF ∉ rest' →
  (str_len (text_of (ls ++ new)) ≤ USIZE_MAX)%N →
  ∃ b c', core_push_delta theme now delta c = Some (b, c') ∧ core_ok (ls ++ new) rest' c' ∧
    emitted_stable_len c' = emitted_stable_len c ∧ render_mode c' = render_mode c ∧ width c' = width c ∧
    (new = [] → queued_lines (state c') = queued_lines (state c) ∧ render c' = render c ∧
       enqueued_stable_len c' = enqueued_stable_len c) ∧
    (render_mode c = Raw → new ≠ [] →
      enqueued_stable_len c' = length (render_lines (render c')) `max` emitted_stable_len c ∧
      (enqueued_stable_len c ≤ length (render_lines (render c')) →
       map queued_line (queued_lines (state c')) = map queued_line (queued_lines (state c)) ++
         drop (enqueued_stable_len c) (render_lines (render c')))).
Proof.
  intros Hc Heq Hnew Hrest' Hsize. pose proof Hc as [Hb Hcl Hls Hrest Hsz Hscan Hren Hfresh Hcache Hem Hq].
  unfold core_push_delta.
  assert (Hbuf : buffer (collector_push_delta delta (collector (state c))) = text_of (ls ++ new) ++ rest').
  { simpl. rewrite Hb, text_of_app, <- !app_assoc. f_equal. exact Heq. }
  assert (Hls' : Forall (λ l, LF ∉ l) (ls ++ new)) by by apply Forall_app.
  set (seen := _ || _).
  assert (Hquiet : new = [] → core_ok (ls ++ new) rest'
    (with_state (mkState (collector_push_delta delta (collector (state c))) (queued_lines (state c)) seen) c)).
  { intros ->. rewrite app_nil_r in *. by split. }
  destruct (existsb (N.eqb LF) delta) eqn:El.
  - assert (Hn : new ≠ []).
    { intros ->. apply not_false_iff_true in El. apply El, existsb_LF. intros Hin. apply Hrest'.
      change (text_of [] ++ rest') with rest' in Heq. rewrite <- Heq. apply elem_of_app. by right. }
    assert (Hpos : (0 < str_len (text_of new))%N).
    { destruct new as [|l new]; [done|]. rewrite text_of_cons, str_len_app. cbn [str_len].
      change (char_len LF) with 1%N. lia. }
    unfold commit_complete_source. rewrite Hbuf, rfind_LF_lines by done.
    replace (is_empty (ls ++ new)) with false by (destruct ls; [by destruct new|done]).
    cbn [committed_source_len collector_push_delta]. rewrite Hcl.
    rewrite text_of_app in *. rewrite str_len_app in *.
    replace (str_len (text_of ls) + str_len (text_of new) - 1 + 1)%N
      with (str_len (text_of ls) + str_len (text_of new))%N by lia.
    destruct (N.leb_spec (str_len (text_of ls) + str_len (text_of new)) (str_len (text_of ls))); [lia|].
    unfold committed_source. cbn [buffer committed_source_len].
    rewrite <- str_len_app, slice_to_app. cbn [mbind option_bind].
    replace (slice_range (str_len (text_of ls)) (str_len (text_of ls ++ text_of new)) (text_of ls ++ text_of new))
      with (Some (text_of new))
      by (symmetry; pose proof (slice_range_app (text_of ls) (text_of new) []) as Hs; by rewrite app_nil_r in Hs).
    cbn [mbind option_bind]. cbn [with_state render width render_mode holdback_scanner].
    destruct (render_append_ok theme (text_of ls) (text_of new) (width c) (render_mode c) (render c))
      as (r & -> & Hr); [apply complete_lines_text_of..|done|]. cbn [mbind option_bind].
    set (c1 := with_render _ _ _).
    assert (Hc1 : core_ok (ls ++ new) rest' c1).
    { split; unfold c1; cbn; rewrite ?text_of_app, ?str_len_app; try done; [by apply push_source_chunk_scanned| |].
      - intros [_ ->]%app_eq_nil. done.
      - destruct (stable_prefix_len_cache c) as [k|]; [|done]. destruct Hcache as (p & q & Hpq & ? & ?).
        exists p, (q ++ text_of new). by rewrite Hpq, <- app_assoc. }
    destruct (sync_ok (ls ++ new) rest' c1 now Hc1) as (b & t & k & q & -> & Hok & Hraw & Hqs).
    eexists b, _. split; [done|]. split; [done|]. split; [done|]. split; [done|]. split; [done|].
    split; [done|]. intros Hm _. split; [by apply Hraw|]. simpl. intros Hle.
    rewrite (Hraw Hm) in Hqs. simpl in Hqs.
    replace (_ <? enqueued_stable_len c) with false in Hqs by (symmetry; apply Nat.ltb_ge; lia).
    rewrite Hqs. f_equal. apply take_ge. rewrite length_drop. lia.
  - assert (new = []) as ->.
    { apply existsb_LF in El. assert (LF ∉ rest ++ delta) as Hno by (rewrite elem_of_app; naive_solver).
      destruct new as [|l new]; [done|]. exfalso. apply Hno. rewrite Heq, text_of_cons.
      apply elem_of_app. left. apply elem_of_app. right. by left. }
    eexists false, _. split; [done|]. split; [by apply Hquiet|]. split_and!; done.
Qed.

Lemma relayout_ok ls rest c now (pending tail : bool) w m col :
  core_ok ls rest c → buffer col = buffer (collector (state c)) →
  committed_source_len col = committed_source_len (collector (state c)) →
  ∃ c', relayout now pending tail (with_state (set_collector col (state c)) (with_layout w m c)) = Some c' ∧
    core_ok ls rest c'.
Proof.
  intros [Hb Hcl Hls Hrest Hsz Hscan Hren Hfresh Hcache Hem Hq] Hb' Hcl'. unfold relayout.
  set (c1 := with_state _ _).
  assert (Hsrc : committed_source (collector (state c1)) = Some (text_of ls)).
  { unfold committed_source, c1. simpl. rewrite Hb', Hcl', Hb, Hcl. apply slice_to_app. }
  rewrite Hsrc. cbn [mbind option_bind].
  destruct (is_empty (text_of ls)) eqn:Ee.
  - assert (ls = []) as -> by (destruct ls as [|l ls]; [done|]; rewrite text_of_cons in Ee; by destruct l).
    eexists. split; [done|]. split; unfold c1; simpl; rewrite ?Hb', ?Hcl'; try done.
    rewrite Hfresh by done. apply new_render_ok.
  - set (r := recompute _ _ _). set (emitted := clamp_emitted _ _ _).
    assert (Hemit : emitted ≤ emitted_stable_len c ∧ emitted ≤ length (render_lines r)).
    { unfold emitted, clamp_emitted, c1. cbn. destruct (_ && _ && _); lia. }
    set (c2 := with_state (clear_queue _) _).
    assert (Hc2 : ∀ n, emitted ≤ n → core_ok ls rest (with_lens n emitted c2)).
    { intros n Hn. split; unfold c2, c1; cbn; rewrite ?Hb', ?Hcl'; try done; [apply recompute_ok|].
      intros ->. done. }
    destruct (_ && negb pending && negb tail).
    + eexists. split; [done|]. apply Hc2. cbn. lia.
    + specialize (Hc2 (enqueued_stable_len c) ltac:(lia)).
      replace (with_lens (enqueued_stable_len c) emitted c2) with c2 in Hc2 by done.
      unfold rebuild_stable_queue_from_render.
      destruct (compute_target_ok ls rest c2 Hc2) as (t & k & -> & Hk & Ht & _). cbn [mbind option_bind].
      destruct (rebuild_from_ok ls rest (with_cache k c2) now t Hk) as (q & -> & Hq' & _); [cbn in *; lia..|].
      by eexists.
Qed.

(** ** Sequences of operations *)
Inductive stream_op :=
  | OpPush (theme now : N) (delta : rstring)
  | OpTick
  | OpTickBatch (max_lines : nat)
  | OpSetWidth (now : N) (w : option N)
  | OpSetRenderMode (now : N) (m : HistoryRenderMode)
  | OpClearQueue
  | OpFinalize.

(** An operation, with the lines it emits; [finalize] of a controller also resets the stream. *)
Definition run_op (op : stream_op) c : option (list L * stream_core) :=
  match op with
  | OpPush theme now delta => '(_, c) ← core_push_delta theme now delta c; Some ([], c)
  | OpTick => Some (tick c)
  | OpTickBatch n => Some (tick_batch n c)
  | OpSetWidth now w => c ← core_set_width now w c; Some ([], c)
  | OpSetRenderMode now m => c ← core_set_render_mode now m c; Some ([], c)
  | OpClearQueue => Some ([], core_clear_queue c)
  | OpFinalize => let '((remaining, _), c) := finalize_remaining c in Some (remaining, reset_core c)
  end.

Fixpoint run_ops (ops : list stream_op) c : option (list L * stream_core) :=
  match ops with
  | [] => Some ([], c)
  | op :: ops =>
      '(out, c) ← run_op op c;
      '(out', c) ← run_ops ops c;
      Some (out ++ out', c)
  end.

Definition pushed (op : stream_op) : rstring := match op with OpPush _ _ delta => delta | _ => [] end.

Lemma core_ok_size ls rest c : core_ok ls rest c → buffer (collector (state c)) = text_of ls ++ rest.
Proof. by intros []. Qed.

Lemma tick_ok ls rest c : core_ok ls rest c → core_ok ls rest (snd (tick c)).
Proof.
  intros [Hb Hcl Hls Hrest Hsz Hscan Hren Hfresh Hcache Hem Hq]. unfold tick, queue_step.
  destruct (queued_lines (state c)) as [|x q] eqn:E; split; cbn; rewrite ?E; try done; cbn in *; lia.
Qed.

Lemma tick_batch_ok ls rest c n : core_ok ls rest c → core_ok ls rest (snd (tick_batch n c)).
Proof.
  intros Hc. pose proof Hc as [Hb Hcl Hls Hrest Hsz Hscan Hren Hfresh Hcache Hem Hq]. unfold tick_batch, drain_n.
  destruct (n =? 0); [done|]. destruct (is_empty _) eqn:E; cbn [snd].
  - split; cbn; try done. rewrite length_drop. lia.
  - split; cbn; try done; rewrite length_map, length_take, ?length_drop; lia.
Qed.

Lemma reset_ok c : core_ok [] [] (reset_core c).
Proof. split; try done; [apply not_elem_of_nil|apply new_render_ok]. Qed.

Lemma stream_op_ok ls rest c op :
  core_ok ls rest c → (str_len (text_of ls ++ rest) + str_len (pushed op) ≤ USIZE_MAX)%N →
  ∃ out c' ls' rest', run_op op c = Some (out, c') ∧ core_ok ls' rest' c' ∧
    (str_len (text_of ls' ++ rest') ≤ str_len (text_of ls ++ rest) + str_len (pushed op))%N.
Proof.
  intros Hc Hsz. destruct op; cbn [run_op pushed] in *.
  - destruct (delta_lines rest delta) as (new & rest' & Heq & Hnew & Hrest').
    assert (Hlen : (str_len (text_of (ls ++ new) ++ rest') = str_len (text_of ls ++ rest) + str_len delta)%N).
    { rewrite text_of_app, <- app_assoc, <- Heq, app_assoc. apply str_len_app. }
    edestruct (push_delta_ok ls rest c theme now delta new rest') as (b & c' & -> & Hok & _); [done..| |].
    { rewrite str_len_app in Hlen. lia. }
    cbn [mbind option_bind]. exists [], c', (ls ++ new), rest'. split; [done|]. split; [done|]. lia.
  - destruct (tick c) as [out c'] eqn:E. exists out, c', ls, rest. split; [done|].
    split; [|simpl; lia]. change c' with (snd (out, c')). rewrite <- E. by apply tick_ok.
  - destruct (tick_batch max_lines c) as [out c'] eqn:E. exists out, c', ls, rest. split; [done|].
    split; [|simpl; lia]. change c' with (snd (out, c')). rewrite <- E. by apply tick_batch_ok.
  - unfold core_set_width. destruct (bool_decide _); [exists [], c, ls, rest; split_and!; [done..|simpl; lia]|].
    edestruct (relayout_ok ls rest c now) as (c' & -> & Hok); [done|..|]; cycle 2.
    { cbn [mbind option_bind]. exists [], c', ls, rest. split_and!; [done..|simpl; lia]. }
    all: done.
  - unfold core_set_render_mode. destruct (bool_decide _); [exists [], c, ls, rest; split_and!; [done..|simpl; lia]|].
    replace (with_layout (width c) m c) with
      (with_state (set_collector (collector (state c)) (state c)) (with_layout (width c) m c)) by (by destruct c as [[]]).
    edestruct (relayout_ok ls rest c now) as (c' & -> & Hok); [done|..|]; cycle 2.
    { cbn [mbind option_bind]. exists [], c', ls, rest. split_and!; [done..|simpl; lia]. }
    all: done.
  - exists [], (core_clear_queue c), ls, rest. split; [done|]. split; [|simpl; lia].
    destruct Hc. split; cbn; try done.
  - unfold finalize_remaining. destruct (finalize_and_take_source _) as [source col].
    eexists _, _, [], []. split; [done|]. split; [apply reset_ok|]. simpl. lia.
Qed.

Lemma stream_ops_ok ls rest c ops :
  core_ok ls rest c → (str_len (text_of ls ++ rest) + str_len (concat (map pushed ops)) ≤ USIZE_MAX)%N →
  ∃ out c' ls' rest', run_ops ops c = Some (out, c') ∧ core_ok ls' rest' c'.
Proof.
  revert ls rest c. induction ops as [|op ops IH]; intros ls rest c Hc Hsz; [by exists [], c, ls, rest|].
  cbn [map concat] in Hsz. rewrite (str_len_app (pushed op)) in Hsz.
  destruct (stream_op_ok ls rest c op Hc) as (out & c1 & ls1 & rest1 & Hr & Hc1 & Hsz1); [lia|].
  destruct (IH ls1 rest1 c1 Hc1) as (out' & c2 & ls2 & rest2 & Hr2 & Hc2); [lia|].
  exists (out ++ out'), c2, ls2, rest2. split; [|done]. cbn [run_ops]. by rewrite Hr; simpl; rewrite Hr2.
Qed.

(** C26: Whatever text streams in, however it is cut into deltas, and however ticks,
    resizes, mode changes, queue clearing and finalization fall between the deltas, no
    slice of the stream panics, and the invariant holds after it: the scanner, the render
    and the cache agree with the committed lines, the emitted lines are at most the
    enqueued ones and the queue is no longer than their difference. *)
Theorem stream_never_panics w m ops :
  (str_len (concat (map pushed ops)) ≤ USIZE_MAX)%N →
  ∃ out c ls rest, run_ops ops (new_core w m) = Some (out, c) ∧ core_ok ls rest c.
Proof. intros Hsz. by apply (stream_ops_ok [] [] (new_core w m)); [apply new_core_ok|]. Qed.

(** ** Raw streams *)
Definition plain_op (op : stream_op) : bool :=
  match op with OpPush _ _ _ | OpTick | OpTickBatch _ => true | _ => false end.

(** In raw mode every committed line is emitted or queued, in order. *)
Record raw_ok (out : list L) c : Prop := {
  raw_mode : render_mode c = Raw;
  raw_output : out ++ map queued_line (queued_lines (state c)) = render_lines (render c);
  raw_enqueued : enqueued_stable_len c = length (render_lines (render c));
  raw_emitted : emitted_stable_len c = length out;
}.

Lemma raw_take out n c :
  raw_ok out c → raw_ok (out ++ map queued_line (take n (queued_lines (state c))))
    (with_lens (enqueued_stable_len c) (emitted_stable_len c + length (take n (queued_lines (state c))))
       (with_state (set_queue (drop n (queued_lines (state c))) (state c)) c)).
Proof.
  intros [Hm Ho He Hem]. split; cbn; [done| |done|].
  - rewrite <- app_assoc, <- map_app, take_drop. done.
  - rewrite length_app, length_map. lia.
Qed.

Lemma raw_op_ok ls rest c op out :
  core_ok ls rest c → raw_ok out c → plain_op op = true →
  (str_len (text_of ls ++ rest) + str_len (pushed op) ≤ USIZE_MAX)%N →
  ∃ out' c' ls' rest', run_op op c = Some (out', c') ∧ core_ok ls' rest' c' ∧ raw_ok (out ++ out') c' ∧
    text_of ls' ++ rest' = (text_of ls ++ rest) ++ pushed op.
Proof.
  intros Hc Hraw Hop Hsz. destruct op; try done; cbn [run_op pushed] in *.
  - destruct (delta_lines rest delta) as (new & rest' & Heq & Hnew & Hrest').
    assert (Hlen : text_of (ls ++ new) ++ rest' = (text_of ls ++ rest) ++ delta).
    { by rewrite text_of_app, <- app_assoc, <- Heq, app_assoc. }
    edestruct (push_delta_ok ls rest c theme now delta new rest')
      as (b & c' & -> & Hok & Hem & Hmode & _ & Hsame & Hnewq); [done..| |].
    { rewrite <- str_len_app, <- Hlen, str_len_app in Hsz. lia. }
    cbn [mbind option_bind]. exists [], c', (ls ++ new), rest'. rewrite app_nil_r.
    split; [done|]. split; [done|]. split; [|done]. destruct Hraw as [Hm Ho He Hemit].
    destruct (decide (new = [])) as [Hn|Hn].
    + destruct (Hsame Hn) as (Hq & Hr & Hen). split; rewrite ?Hmode, ?Hq, ?Hr, ?Hen, ?Hem; done.
    + destruct (Hnewq Hm Hn) as [Hen Hq].
      assert (Hren : ∃ more, render_lines (render c') = render_lines (render c) ++ more).
      { rewrite (render_raw _ _ _ (ok_render _ _ _ Hok)) by congruence.
        rewrite (render_raw _ _ _ (ok_render _ _ _ Hc)) by done.
        rewrite text_of_app, raw_lines_app, map_app by apply complete_lines_text_of. by eexists. }
      destruct Hren as [more Hmore].
      assert (Hl : length out ≤ length (render_lines (render c))) by (rewrite <- Ho, length_app; lia).
      rewrite Hmore, length_app in Hen. specialize (Hq ltac:(rewrite Hmore, length_app; lia)).
      split; [congruence| | |congruence].
      * rewrite Hq, app_assoc, Ho, Hmore, He. by rewrite drop_app_length.
      * rewrite Hen, Hmore, length_app. lia.
  - exists (map queued_line (take 1 (queued_lines (state c)))).
    eexists _, ls, rest. rewrite app_nil_r. split; [|split; [|split; [apply (raw_take out 1 c Hraw)|done]]].
    + unfold tick, queue_step. destruct (queued_lines (state c)) as [|x q] eqn:E; [|done].
      destruct c as [[col q s] ? ? ? ? ? ? ?]. cbn in *. subst q. done.
    + pose proof (tick_ok ls rest c Hc) as Ht. unfold tick, queue_step in Ht.
      destruct (queued_lines (state c)) as [|x q] eqn:E; [|done].
      destruct c as [[col q s] ? ? ? ? ? ? ?]. cbn in *. subst q. done.
  - pose proof (tick_batch_ok ls rest c max_lines Hc) as Ht.
    destruct (tick_batch max_lines c) as [out' c'] eqn:E. cbn [snd] in Ht.
    exists out', c', ls, rest. rewrite app_nil_r. split; [done|]. split; [done|]. split; [|done].
    unfold tick_batch, drain_n in E. destruct (Nat.eqb_spec max_lines 0) as [|Hne]; [injection E as <- <-; by rewrite app_nil_r|].
    set (n := max_lines `min` length (queued_lines (state c))) in E.
    assert (Hn : length (map queued_line (take n (queued_lines (state c)))) = length (take n (queued_lines (state c))))
      by apply length_map.
    pose proof (raw_take out n c Hraw) as Hr. injection E as <- <-.
    destruct (is_empty (map queued_line (take n (queued_lines (state c))))) eqn:Ee; [|by rewrite Hn].
    assert (length (take n (queued_lines (state c))) = 0) as H0
      by (rewrite <- Hn; by destruct (map queued_line (take n (queued_lines (state c))))).
    rewrite H0, Nat.add_0_r in Hr. destruct Hr. by split.
Qed.

Lemma raw_ops_ok ls rest c ops out :
  core_ok ls rest c → raw_ok out c → forallb plain_op ops = true →
  (str_len (text_of ls ++ rest) + str_len (concat (map pushed ops)) ≤ USIZE_MAX)%N →
  ∃ out' c' ls' rest', run_ops ops c = Some (out', c') ∧ core_ok ls' rest' c' ∧ raw_ok (out ++ out') c' ∧
    text_of ls' ++ rest' = (text_of ls ++ rest) ++ concat (map pushed ops).
Proof.
  revert ls rest c out. induction ops as [|op ops IH]; intros ls rest c out Hc Hr Hp Hsz.
  { exists [], c, ls, rest. rewrite !app_nil_r. done. }
  cbn [map concat forallb] in *. rewrite (str_len_app (pushed op)) in Hsz. apply andb_true_iff in Hp as [Hp Hps].
  destruct (raw_op_ok ls rest c op out) as (o1 & c1 & ls1 & rest1 & Hop & Hc1 & Hr1 & Ht1); [done..|lia|].
  destruct (IH ls1 rest1 c1 (out ++ o1)) as (o2 & c2 & ls2 & rest2 & Hops & Hc2 & Hr2 & Ht2); [done..| |].
  { rewrite Ht1, str_len_app. lia. }
  exists (o1 ++ o2), c2, ls2, rest2. cbn [run_ops]. rewrite Hop. cbn [mbind option_bind]. rewrite Hops.
  split; [done|]. split; [done|]. rewrite app_assoc. split; [done|]. by rewrite Ht2, Ht1, app_assoc.
Qed.

(** The text of a stream with its last line completed. *)
Definition terminated (text : rstring) : rstring :=
  if negb (is_empty text) && negb (ends_with [LF] text) then text ++ [LF] else text.

Lemma terminated_text ls rest :
  Forall (λ l, LF ∉ l) ls → LF ∉ rest →
  terminated (text_of ls ++ rest) = text_of (ls ++ if is_empty rest then [] else [rest]).
Proof.
  intros Hls Hrest. unfold terminated. destruct (decide (rest = [])) as [->|Hn].
  - rewrite !app_nil_r. cbn [is_empty]. rewrite ?app_nil_r. destruct (decide (ls = [])) as [->|Hl]; [done|].
    rewrite ends_with_LF, andb_false_r; [done| |apply complete_lines_text_of].
    destruct ls as [|l ls]; [done|]. rewrite text_of_cons. by destruct l.
  - replace (is_empty (text_of ls ++ rest)) with false by (destruct (text_of ls); [by destruct rest|done]).
    replace (is_empty rest) with false by by destruct rest. rewrite text_of_snoc, app_assoc.
    destruct (ends_with [LF] (text_of ls ++ rest)) eqn:E; [|done]. exfalso.
    apply ends_with_true in E as [r E]. destruct rest as [|x rest _] using rev_ind; [done|].
    rewrite app_assoc in E. apply app_snoc_inj in E as [_ ->]. apply Hrest. apply elem_of_app. right. by left.
Qed.

(** C27: In raw mode a stream shows the source: whatever deltas arrive and whenever ticks
    drain the queue, the lines emitted by the ticks followed by the lines that finalization
    returns are exactly the lines of the whole text, each once and in order. *)
Theorem raw_stream_emits_source w ops :
  forallb plain_op ops = true → (str_len (concat (map pushed ops)) ≤ USIZE_MAX)%N →
  ∃ out c remaining c', run_ops ops (new_core w Raw) = Some (out, c) ∧
    finalize_remaining c = ((remaining, terminated (concat (map pushed ops))), c') ∧
    out ++ remaining = map plain_text_line (raw_lines_from_source (terminated (concat (map pushed ops)))).
Proof.
  intros Hp Hsz.
  destruct (raw_ops_ok [] [] (new_core w Raw) ops []) as (out & c & ls & rest & Hrun & Hc & [Hm Ho _ Hem] & Ht);
    [apply new_core_ok|by split|done|done|].
  change ((text_of [] ++ []) ++ concat (map pushed ops)) with (concat (map pushed ops)) in Ht.
  cbn [app] in Ho, Hem. exists out, c. unfold finalize_remaining, finalize_and_take_source.
  fold (terminated (buffer (collector (state c)))). rewrite (ok_buffer _ _ _ Hc), Ht.
  eexists _, _. split; [done|]. split; [done|]. rewrite Hm, Hem. cbn [render_source].
  rewrite <- Ht, terminated_text by apply Hc.
  set (final := map plain_text_line _).
  assert (∃ more, final = out ++ more) as [more ->].
  { exists (map queued_line (queued_lines (state c)) ++ map plain_text_line (if is_empty rest then [] else [rest])).
    rewrite app_assoc, (Ho : out ++ _ = _), (render_raw _ _ _ (ok_render _ _ _ Hc) Hm), <- map_app.
    unfold final. rewrite !raw_lines_text; [done|apply Hc|]. apply Forall_app. split; [apply Hc|].
    destruct rest; constructor; [apply Hc|constructor]. }
  rewrite length_app, Nat.min_l by lia. by rewrite drop_app_length.
Qed.
End Spec.

(** ** A concrete renderer: lines wrapped at the width; the two lines of a link reference
    definition disappear, as in CommonMark *)
Fixpoint wrap (fuel n : nat) (l : rstring) : list rstring :=
  match fuel with
  | O => [l]
  | S fuel' => if length l <=? n then [l] else take n l :: wrap fuel' n (drop n l)
  end.
Definition wrap_line (w : option N) (l : rstring) : list rstring :=
  match w with
  | Some n => if (n =? 0)%N then [l] else wrap (length l) (N.to_nat n) l
  | None => [l]
  end.
Fixpoint drop_definitions (ls : list rstring) : list rstring :=
  match ls with
  | a :: (b :: rest) as tail =>
      if ends_with (str "]:") a && starts_with (str "/") b then drop_definitions rest else a :: drop_definitions tail
  | _ => ls
  end.
Definition wrap_source (s : rstring) (w : option N) : list rstring :=
  mjoin (map (wrap_line w) (drop_definitions (raw_lines_from_source s))).
#[global] Instance wrap_ops : RenderOps rstring unit := {|
  plain_text_line := id; blank_line := []; render_agent := wrap_source;
  render_streaming s w := mkStreaming (wrap_source s w) None false false;
  has_visualization_context := false; highlighter_new _ _ _ := None; highlighter_append _ _ := None;
  plan_title := str "Proposed Plan"; plan_style_line l := str "  " ++ l;
|}.
#[global] Instance wrap_laws : RenderLaws rstring unit.
Proof. intros s w b. done. Qed.

Definition table_ops : list stream_op :=
  [OpPush 0 0 (str "Intro" ++ [LF] ++ str "| A | B |" ++ [LF]); OpTick; OpPush 0 5 (str "|---|---|" ++ [LF] ++ str "| 1");
   OpSetWidth 6 (Some 4%N); OpTickBatch 3; OpSetRenderMode 7 Raw; OpTick; OpFinalize].

Lemma stream_never_panics_witness :
  ∃ out c ls rest, run_ops (L := rstring) (H := unit) table_ops (new_core (Some 20%N) Rich) = Some (out, c) ∧
    core_ok ls rest c.
Proof.
  assert (Hsz : (str_len (concat (map pushed table_ops)) ≤ USIZE_MAX)%N) by (vm_compute; discriminate).
  exact (stream_never_panics (L := rstring) (H := unit) (Some 20%N) Rich table_ops Hsz).
Defined.

Definition raw_ops : list stream_op :=
  [OpPush 0 0 (str "one" ++ [LF] ++ str "t"); OpPush 0 1 (str "wo" ++ [LF] ++ [LF]); OpTick; OpTickBatch 1;
   OpPush 0 2 (str "last")].

Lemma raw_stream_emits_source_witness :
  ∃ out c remaining c', run_ops (L := rstring) (H := unit) raw_ops (new_core None Raw) = Some (out, c) ∧
    finalize_remaining c = ((remaining, terminated (concat (map pushed raw_ops))), c') ∧
    out ++ remaining = map plain_text_line (raw_lines_from_source (terminated (concat (map pushed raw_ops)))).
Proof.
  assert (Hp : forallb plain_op raw_ops = true) by (vm_compute; reflexivity).
  assert (Hsz : (str_len (concat (map pushed raw_ops)) ≤ USIZE_MAX)%N) by (vm_compute; discriminate).
  exact (raw_stream_emits_source (L := rstring) (H := unit) None raw_ops Hp Hsz).
Defined.

(** A resize after everything was emitted leaves the number of emitted lines below the
    number of lines of the new layout; finalization then emits the text once more in part. *)
Example resize_replays_emitted_text :
  fst <$> run_ops (L := rstring) (H := unit)
    [OpPush 0 0 (str "abcdefgh" ++ [LF]); OpTick; OpSetWidth 1 (Some 4%N); OpTick; OpFinalize]
    (new_core (Some 8%N) Rich) = Some [str "abcdefgh"; str "efgh"].
Proof. vm_compute. reflexivity. Qed.

(** The documented bound of the enqueued lines by the rendered lines fails when later
    source makes emitted lines disappear. *)
Example enqueued_beyond_render :
  (λ p, (enqueued_stable_len (snd p), length (render_lines (render (snd p))))) <$>
    run_ops (L := rstring) (H := unit)
      [OpPush 0 0 (str "[x]:" ++ [LF]); OpTick; OpPush 0 1 (str "/url" ++ [LF])] (new_core None Rich) = Some (1, 0).
Proof. vm_compute. reflexivity. Qed.
