(* ===== verification/StreamPacing.v ===== *)
(** * Pacing of streamed lines

    Models [sofia-rs/tui/src/streaming/chunking.rs] (the policy that drains one line per
    tick, or everything when the queue lags behind) and [streaming/commit_tick.rs] (a tick
    over the message and the plan stream).  Instants and durations are milliseconds. *)

From stdpp Require Import base list numbers strings.
From S2P Require Import Prelude Machine StreamRender StreamCore.

#[local] Set Default Proof Using "Type*".

(** ** [chunking.rs] *)
Definition ENTER_QUEUE_DEPTH_LINES : nat := 8.
Definition ENTER_OLDEST_AGE : N := 120.
Definition EXIT_QUEUE_DEPTH_LINES : nat := 2.
Definition EXIT_OLDEST_AGE : N := 40.
Definition EXIT_HOLD : N := 250.
Definition REENTER_CATCH_UP_HOLD : N := 250.
Definition SEVERE_QUEUE_DEPTH_LINES : nat := 64.
Definition SEVERE_OLDEST_AGE : N := 300.

Inductive ChunkingMode := Smooth | CatchUp.
#[global] Instance ChunkingMode_eq_dec : EqDecision ChunkingMode.
Proof. solve_decision. Defined.

Record QueueSnapshot := mkSnapshot { snapshot_queued_lines : nat; oldest_age : option N }.
Inductive DrainPlan := Single | Batch (max_lines : nat).
Record ChunkingDecision := mkDecision {
  decision_mode : ChunkingMode;
  entered_catch_up : bool;
  drain_plan : DrainPlan;
}.

Record AdaptiveChunkingPolicy := mkPolicy {
  mode : ChunkingMode;
  below_exit_threshold_since : option N;
  last_catch_up_exit_at : option N;
}.

Definition default_policy : AdaptiveChunkingPolicy := mkPolicy Smooth None None.
(** [reset] of the policy. *)
Definition reset_policy (_ : AdaptiveChunkingPolicy) : AdaptiveChunkingPolicy := default_policy.

Definition should_enter_catch_up (snapshot : QueueSnapshot) : bool :=
  (ENTER_QUEUE_DEPTH_LINES <=? snapshot_queued_lines snapshot) ||
  is_some_and (oldest_age snapshot) (λ oldest, (ENTER_OLDEST_AGE <=? oldest)%N).
Definition should_exit_catch_up (snapshot : QueueSnapshot) : bool :=
  (snapshot_queued_lines snapshot <=? EXIT_QUEUE_DEPTH_LINES) &&
  is_some_and (oldest_age snapshot) (λ oldest, (oldest <=? EXIT_OLDEST_AGE)%N).
Definition is_severe_backlog (snapshot : QueueSnapshot) : bool :=
  (SEVERE_QUEUE_DEPTH_LINES <=? snapshot_queued_lines snapshot) ||
  is_some_and (oldest_age snapshot) (λ oldest, (SEVERE_OLDEST_AGE <=? oldest)%N).

Definition reentry_hold_active (now : N) (p : AdaptiveChunkingPolicy) : bool :=
  is_some_and (last_catch_up_exit_at p) (λ exit, (now - exit <? REENTER_CATCH_UP_HOLD)%N).

Definition maybe_enter_catch_up (snapshot : QueueSnapshot) (now : N) (p : AdaptiveChunkingPolicy)
    : bool * AdaptiveChunkingPolicy :=
  if negb (should_enter_catch_up snapshot) then (false, p)
  else if reentry_hold_active now p && negb (is_severe_backlog snapshot) then (false, p)
  else (true, mkPolicy CatchUp None None).

Definition maybe_exit_catch_up (snapshot : QueueSnapshot) (now : N) (p : AdaptiveChunkingPolicy)
    : AdaptiveChunkingPolicy :=
  if negb (should_exit_catch_up snapshot) then mkPolicy (mode p) None (last_catch_up_exit_at p)
  else
    match below_exit_threshold_since p with
    | Some since =>
        if (EXIT_HOLD <=? now - since)%N then mkPolicy Smooth None (Some now) else p
    | None => mkPolicy (mode p) (Some now) (last_catch_up_exit_at p)
    end.

Definition note_catch_up_exit (now : N) (p : AdaptiveChunkingPolicy) : AdaptiveChunkingPolicy :=
  match mode p with
  | CatchUp => mkPolicy (mode p) (below_exit_threshold_since p) (Some now)
  | Smooth => p
  end.

Definition decide (snapshot : QueueSnapshot) (now : N) (p : AdaptiveChunkingPolicy)
    : ChunkingDecision * AdaptiveChunkingPolicy :=
  if snapshot_queued_lines snapshot =? 0 then
    let p := note_catch_up_exit now p in
    let p := mkPolicy Smooth None (last_catch_up_exit_at p) in
    (mkDecision (mode p) false Single, p)
  else
    let '(entered, p) :=
      match mode p with
      | Smooth => maybe_enter_catch_up snapshot now p
      | CatchUp => (false, maybe_exit_catch_up snapshot now p)
      end in
    let plan :=
      match mode p with
      | Smooth => Single
      | CatchUp => Batch (snapshot_queued_lines snapshot `max` 1)
      end in
    (mkDecision (mode p) entered plan, p).

(** ** [commit_tick.rs] *)
Inductive CommitTickScope := AnyMode | CatchUpOnly.
#[global] Instance CommitTickScope_eq_dec : EqDecision CommitTickScope.
Proof. solve_decision. Defined.

Definition max_duration (lhs rhs : option N) : option N :=
  match lhs, rhs with
  | Some l, Some r => Some (l `max` r)%N
  | Some l, None => Some l
  | None, Some r => Some r
  | None, None => None
  end.

Section Tick.
Context {L H : Type} {render_ops : RenderOps L H}.
Abbreviation stream := (StreamController L H).
Abbreviation plan_stream := (PlanStreamController L H).

Record CommitTickOutput := mkOutput {
  cells : list (HistoryCell L);
  has_controller : bool;
  all_idle : bool;
}.
Definition default_output : CommitTickOutput := mkOutput [] false true.

Definition stream_queue_snapshot (s : option stream) (p : option plan_stream) (now : N) : QueueSnapshot :=
  let '(n, age) :=
    match s with
    | Some t => (core_queued_lines (core t), max_duration None (core_oldest_queued_age now (core t)))
    | None => (0, None)
    end in
  let '(n, age) :=
    match p with
    | Some t => (n + core_queued_lines (plan_core t), max_duration age (core_oldest_queued_age now (plan_core t)))
    | None => (n, age)
    end in
  mkSnapshot n age.

(** The transition is logged, which has no effect on the state. *)
Definition resolve_chunking_plan (snapshot : QueueSnapshot) (now : N) (p : AdaptiveChunkingPolicy)
    : ChunkingDecision * AdaptiveChunkingPolicy := decide snapshot now p.

Definition drain_stream_controller (t : stream) (plan : DrainPlan) : (option (HistoryCell L) * bool) * stream :=
  match plan with
  | Single => on_commit_tick t
  | Batch max_lines => on_commit_tick_batch max_lines t
  end.
Definition drain_plan_stream_controller (t : plan_stream) (plan : DrainPlan)
    : (option (HistoryCell L) * bool) * plan_stream :=
  match plan with
  | Single => plan_on_commit_tick t
  | Batch max_lines => plan_on_commit_tick_batch max_lines t
  end.

Definition push_cell (cell : option (HistoryCell L)) (cs : list (HistoryCell L)) : list (HistoryCell L) :=
  match cell with Some cell => cs ++ [cell] | None => cs end.

(** The two halves of [apply_commit_tick_plan]. *)
Definition apply_to_stream (plan : DrainPlan) (s : option stream) (out : CommitTickOutput)
    : CommitTickOutput * option stream :=
  match s with
  | Some t =>
      let '((cell, idle), t) := drain_stream_controller t plan in
      (mkOutput (push_cell cell (cells out)) true (all_idle out && idle), Some t)
  | None => (out, None)
  end.
Definition apply_to_plan_stream (plan : DrainPlan) (p : option plan_stream) (out : CommitTickOutput)
    : CommitTickOutput * option plan_stream :=
  match p with
  | Some t =>
      let '((cell, idle), t) := drain_plan_stream_controller t plan in
      (mkOutput (push_cell cell (cells out)) true (all_idle out && idle), Some t)
  | None => (out, None)
  end.

Definition apply_commit_tick_plan (plan : DrainPlan) (s : option stream) (p : option plan_stream)
    : CommitTickOutput * (option stream * option plan_stream) :=
  let '(out, s) := apply_to_stream plan s default_output in
  let '(out, p) := apply_to_plan_stream plan p out in
  (out, (s, p)).

Definition run_commit_tick (policy : AdaptiveChunkingPolicy) (s : option stream) (p : option plan_stream)
    (scope : CommitTickScope) (now : N)
    : CommitTickOutput * (AdaptiveChunkingPolicy * (option stream * option plan_stream)) :=
  let snapshot := stream_queue_snapshot s p now in
  let '(decision, policy) := resolve_chunking_plan snapshot now policy in
  if bool_decide (scope = CatchUpOnly) && negb (bool_decide (decision_mode decision = CatchUp))
  then (default_output, (policy, (s, p)))
  else let '(out, sp) := apply_commit_tick_plan (drain_plan decision) s p in (out, (policy, sp)).
End Tick.
Arguments CommitTickOutput : clear implicits.
