(* ===== verification/StreamPacingSpec.v ===== *)
(** * Correctness of the pacing

    The hysteresis of the policy, and that ticks show every queued line, in order, within
    as many ticks as there are lines. *)

From Stdlib Require Import Sorting.Sorted.
From stdpp Require Import base list numbers strings.
From S2P Require Import Prelude Machine StreamRender StreamCore StreamCoreSpec StreamPacing.

#[local] Set Default Proof Using "Type*".

(** ** The policy *)
Definition observe (p : AdaptiveChunkingPolicy) (x : QueueSnapshot * N) : AdaptiveChunkingPolicy :=
  snd (decide (fst x) (snd x) p).
(** The policy after a sequence of observations. *)
Definition policy_after (steps : list (QueueSnapshot * N)) : AdaptiveChunkingPolicy := foldl observe default_policy steps.

Lemma policy_after_snoc steps x : policy_after (steps ++ [x]) = observe (policy_after steps) x.
Proof. unfold policy_after. by rewrite foldl_app. Qed.

(** The observations since the start of the quiet window. *)
Definition quiet_since (steps : list (QueueSnapshot * N)) (t : N) : Prop :=
  ∃ older s quiet, steps = older ++ (s, t) :: quiet ∧
    Forall (λ x, should_exit_catch_up (fst x) = true) ((s, t) :: quiet).

Definition exit_at (steps : list (QueueSnapshot * N)) (t : N) : Prop :=
  ∃ older s newer, steps = older ++ (s, t) :: newer ∧
    mode (policy_after older) = CatchUp ∧ mode (policy_after (older ++ [(s, t)])) = Smooth.

Lemma exit_at_snoc steps x t :
  exit_at (steps ++ [x]) t →
  exit_at steps t ∨ t = snd x ∧ mode (policy_after steps) = CatchUp ∧ mode (policy_after (steps ++ [x])) = Smooth.
Proof.
  intros (older & s & newer & Heq & Hc & Hs). destruct newer as [|y newer _] using rev_ind.
  - apply app_snoc_inj in Heq as [-> ->]. by right.
  - left. rewrite app_comm_cons, app_assoc in Heq. apply app_snoc_inj in Heq as [-> ->].
    by exists older, s, newer.
Qed.

Lemma quiet_since_snoc steps s t t' :
  quiet_since steps t → should_exit_catch_up s = true → quiet_since (steps ++ [(s, t')]) t.
Proof.
  intros (older & s0 & quiet & -> & Hq) Hs. exists older, s0, (quiet ++ [(s, t')]).
  rewrite <- app_assoc. split; [done|]. rewrite app_comm_cons. apply Forall_app. split; [done|]. by constructor.
Qed.

(** The remembered times: a window is quiet since its start; the last exit is the latest. *)
Definition times_sorted (steps : list (QueueSnapshot * N)) : Prop :=
  StronglySorted (λ x y, snd x ≤ snd y)%N steps.

Record policy_ok (steps : list (QueueSnapshot * N)) (p : AdaptiveChunkingPolicy) : Prop := {
  policy_smooth : mode p = Smooth → below_exit_threshold_since p = None;
  policy_quiet t : below_exit_threshold_since p = Some t → quiet_since steps t;
  policy_exit t : mode p = Smooth → exit_at steps t → ∃ t', last_catch_up_exit_at p = Some t' ∧ (t ≤ t')%N;
}.

Lemma times_sorted_snoc steps x :
  times_sorted (steps ++ [x]) → times_sorted steps ∧ Forall (λ y, snd y ≤ snd x)%N steps.
Proof.
  induction steps as [|y steps IH]; intros Hs; [by split; constructor|].
  inversion Hs as [|? ? Hs' Hf]; subst. destruct (IH Hs') as [Hs1 Hf1].
  apply Forall_app in Hf as [Hf Hx]. split; [by constructor|].
  constructor; [by inversion Hx|done].
Qed.

Lemma policy_after_ok steps : times_sorted steps → policy_ok steps (policy_after steps).
Proof.
  induction steps as [|x steps IH] using rev_ind; intros Hsort.
  { split; [done|done|]. intros t _ (older & s & newer & Heq & _). by destruct older. }
  apply times_sorted_snoc in Hsort as [Hsort Hle]. specialize (IH Hsort).
  assert (Hearly : ∀ t, exit_at steps t → (t ≤ snd x)%N).
  { intros t (older & s & newer & -> & _). rewrite Forall_forall in Hle. apply (Hle (s, t)).
    apply elem_of_app. right. by left. }
  destruct IH as [Hsm Hq He].
  assert (Hexit : ∀ p', policy_after (steps ++ [x]) = p' →
    (mode p' = Smooth → mode (policy_after steps) = CatchUp → last_catch_up_exit_at p' = Some (snd x)) →
    (mode p' = Smooth → mode (policy_after steps) = Smooth →
       last_catch_up_exit_at p' = last_catch_up_exit_at (policy_after steps)) →
    ∀ t, mode p' = Smooth → exit_at (steps ++ [x]) t → ∃ t', last_catch_up_exit_at p' = Some t' ∧ (t ≤ t')%N).
  { intros p' Hp' Hc Hs t Hm Ht. destruct (mode (policy_after steps)) eqn:Em.
    - rewrite (Hs Hm eq_refl). apply exit_at_snoc in Ht as [Ht|(_ & ? & _)]; [by apply He|congruence].
    - rewrite (Hc Hm eq_refl). exists (snd x). split; [done|]. apply exit_at_snoc in Ht as [Ht|(-> & _)]; [by apply Hearly|done]. }
  specialize (Hexit _ eq_refl). rewrite policy_after_snoc in *. destruct x as [s now].
  set (p := policy_after steps) in *. clearbody p. destruct p as [m below exit].
  unfold observe, decide in *. simpl in *.
  destruct (snapshot_queued_lines s =? 0); [|destruct m].
  - split; [done|done|]. apply Hexit; destruct m; done.
  - rewrite (Hsm eq_refl) in *. unfold maybe_enter_catch_up in *.
    destruct (negb _); [|destruct (_ && _)]; (split; simpl; [done|done|by apply Hexit]).
  - unfold maybe_exit_catch_up in *. simpl in *. destruct (should_exit_catch_up s) eqn:Es; simpl in *; [|by split].
    destruct below as [since|]; simpl in *.
    + destruct (_ <=? _)%N; (split; simpl; [done| |by apply Hexit]); [done|].
      intros t [= <-]. apply quiet_since_snoc; auto.
    + split; simpl; [done| |done]. intros t [= <-]. exists steps, s, []. split; [done|]. by constructor.
Qed.

(** The two gears of the pacing do not flap.  In any sequence of observations at
    non-decreasing times, the policy leaves catch-up with lines still queued only when all
    observations of the last 250 ms or more were below the exit thresholds; and it enters
    catch-up only above the enter thresholds, and within 250 ms of an exit only for a
    severe backlog. *)
Theorem catch_up_hysteresis steps snapshot now :
  times_sorted (steps ++ [(snapshot, now)]) →
  let p := policy_after steps in
  let p' := snd (decide snapshot now p) in
  (mode p = CatchUp → mode p' = Smooth → snapshot_queued_lines snapshot ≠ 0 →
   should_exit_catch_up snapshot = true ∧
   ∃ t, quiet_since steps t ∧ (t + EXIT_HOLD ≤ now)%N) ∧
  (mode p = Smooth → mode p' = CatchUp →
   should_enter_catch_up snapshot = true ∧
   ∀ t, exit_at steps t → is_severe_backlog snapshot = true ∨ (t + REENTER_CATCH_UP_HOLD ≤ now)%N).
Proof.
  intros [Hsort _]%times_sorted_snoc p p'. destruct (policy_after_ok steps Hsort) as [_ Hq He].
  fold p in Hq, He. clearbody p. destruct p as [m below exit]. unfold p', decide. simpl in *.
  destruct (Nat.eqb_spec (snapshot_queued_lines snapshot) 0) as [|Hn]; simpl; [by split|]. split.
  - intros -> Hs _. unfold maybe_exit_catch_up in Hs. simpl in Hs.
    destruct (should_exit_catch_up snapshot); [|done]. simpl in Hs. split; [done|].
    destruct below as [since|]; [|done]. destruct (N.leb_spec EXIT_HOLD (now - since)) as [Hle|]; [|done].
    exists since. split; [by apply Hq|]. unfold EXIT_HOLD in *. lia.
  - intros -> Hs. unfold maybe_enter_catch_up in Hs. simpl in Hs.
    destruct (should_enter_catch_up snapshot); [|done]. simpl in Hs. split; [done|]. intros t Ht.
    destruct (He t eq_refl Ht) as (t' & -> & Hle). unfold reentry_hold_active in Hs. simpl in Hs.
    destruct (is_severe_backlog snapshot); [by left|]. right.
    destruct (N.ltb_spec (now - t') REENTER_CATCH_UP_HOLD) as [|Hge]; [done|].
    unfold REENTER_CATCH_UP_HOLD in *. lia.
Qed.

Definition demo_steps : list (QueueSnapshot * N) :=
  [(mkSnapshot 9 (Some 10), 0); (mkSnapshot 1 (Some 5), 20); (mkSnapshot 2 (Some 30), 150)]%N.

Lemma catch_up_hysteresis_witness :
  should_exit_catch_up (mkSnapshot 1 (Some 0%N)) = true ∧ ∃ t, quiet_since demo_steps t ∧ (t + EXIT_HOLD ≤ 270)%N.
Proof.
  assert (Hs : times_sorted (demo_steps ++ [(mkSnapshot 1 (Some 0%N), 270%N)])).
  { repeat constructor; simpl; lia. }
  pose proof (catch_up_hysteresis demo_steps (mkSnapshot 1 (Some 0%N)) 270%N Hs) as [H _].
  apply H; vm_compute; [reflexivity|reflexivity|discriminate].
Defined.

(** ** Ticks *)
Section Ticks.
Context {L H : Type} {render_ops : RenderOps L H}.
Abbreviation stream := (StreamController L H).
Abbreviation plan_stream := (PlanStreamController L H).

Definition core_queue (c : StreamCore L H) : list L := map queued_line (queued_lines (state c)).
Definition queue_of_stream (s : option stream) : list L := match s with Some t => core_queue (core t) | None => [] end.
Definition queue_of_plan (p : option plan_stream) : list L :=
  match p with Some t => core_queue (plan_core t) | None => [] end.

(** The lines that a stream shows for the drained lines [ls]. *)
Definition message_text (ls : list L) : list L := ls.
Definition plan_text (p : option plan_stream) (ls : list L) : list L :=
  match p with
  | Some t => if is_empty ls then [] else render_display_lines ls false t
  | None => []
  end.
Definition message_cell_lines (cs : list (HistoryCell L)) : list L :=
  concat (map (λ cell, match cell with AgentMessageCell ls _ => ls | _ => [] end) cs).
Definition plan_cell_lines (cs : list (HistoryCell L)) : list L :=
  concat (map (λ cell, match cell with ProposedPlanStreamCell ls _ => ls | _ => [] end) cs).

Definition drain_count (plan : DrainPlan) : nat := match plan with Single => 1 | Batch n => n end.

Lemma tick_queue (c : StreamCore L H) :
  fst (tick c) = take 1 (core_queue c) ∧ core_queue (snd (tick c)) = drop 1 (core_queue c).
Proof. unfold tick, queue_step, core_queue. by destruct (queued_lines (state c)) as [|x q] eqn:E; cbn; rewrite ?E. Qed.

Lemma tick_batch_queue n (c : StreamCore L H) :
  fst (tick_batch n c) = take n (core_queue c) ∧ core_queue (snd (tick_batch n c)) = drop n (core_queue c).
Proof.
  unfold tick_batch, drain_n, core_queue. destruct (Nat.eqb_spec n 0) as [->|]; [by rewrite take_0, drop_0|].
  cbn [fst snd]. set (q := queued_lines (state c)).
  assert (Ht : take (n `min` length q) q = take n q).
  { destruct (Nat.le_ge_cases n (length q)); [by rewrite Nat.min_l by lia|].
    rewrite Nat.min_r by lia. by rewrite !take_ge by lia. }
  assert (Hd : drop (n `min` length q) q = drop n q).
  { destruct (Nat.le_ge_cases n (length q)); [by rewrite Nat.min_l by lia|].
    rewrite Nat.min_r by lia. by rewrite !drop_ge by lia. }
  rewrite Ht, Hd, firstn_map, skipn_map. split; [done|]. by destruct (is_empty _).
Qed.

(** A drain of a message stream. *)
Lemma drain_stream_spec (t : stream) plan :
  let '((cell, idle), t') := drain_stream_controller t plan in
  let k := drain_count plan in
  queue_of_stream (Some t') = drop k (core_queue (core t)) ∧
  idle = is_empty (drop k (core_queue (core t))) ∧
  message_cell_lines (push_cell cell []) = take k (core_queue (core t)) ∧
  plan_cell_lines (push_cell cell []) = [].
Proof.
  assert (Hidle : ∀ c : StreamCore L H, core_is_idle c = is_empty (core_queue c)).
  { intros c. unfold core_is_idle, is_idle, core_queue. by destruct (queued_lines (state c)). }
  assert (Hgen : ∀ k ls (c : StreamCore L H), ls = take k (core_queue (core t)) → core_queue c = drop k (core_queue (core t)) →
    let '(cell, t') := emit ls (mkController c (header_emitted t)) in
    queue_of_stream (Some t') = drop k (core_queue (core t)) ∧
    core_is_idle (core t') = is_empty (drop k (core_queue (core t))) ∧
    message_cell_lines (push_cell cell []) = take k (core_queue (core t)) ∧ plan_cell_lines (push_cell cell []) = []).
  { intros k ls c -> Hc. unfold emit. destruct (is_empty (take k _)) eqn:E; cbn; rewrite Hidle, Hc.
    - by destruct (take k (core_queue (core t))).
    - by rewrite app_nil_r. }
  unfold drain_stream_controller. destruct plan as [|n].
  - unfold on_commit_tick. pose proof (tick_queue (core t)) as [H1 H2].
    destruct (tick (core t)) as [ls c]. cbn [fst snd] in *. specialize (Hgen 1 ls c H1 H2).
    destruct (emit ls _) as [cell t']. done.
  - unfold on_commit_tick_batch. pose proof (tick_batch_queue n (core t)) as [H1 H2].
    destruct (tick_batch n (core t)) as [ls c]. cbn [fst snd] in *. specialize (Hgen n ls c H1 H2).
    destruct (emit ls _) as [cell t']. done.
Qed.

(** A drain of a plan stream. *)
Lemma drain_plan_stream_spec (t : plan_stream) plan :
  let '((cell, idle), t') := drain_plan_stream_controller t plan in
  let k := drain_count plan in
  queue_of_plan (Some t') = drop k (core_queue (plan_core t)) ∧
  idle = is_empty (drop k (core_queue (plan_core t))) ∧
  plan_cell_lines (push_cell cell []) = plan_text (Some t) (take k (core_queue (plan_core t))) ∧
  message_cell_lines (push_cell cell []) = [] ∧
  (∀ ls, plan_text (Some t) (take k (core_queue (plan_core t))) ++ plan_text (Some t') ls =
         plan_text (Some t) (take k (core_queue (plan_core t)) ++ ls)).
Proof.
  assert (Hidle : ∀ c : StreamCore L H, core_is_idle c = is_empty (core_queue c)).
  { intros c. unfold core_is_idle, is_idle, core_queue. by destruct (queued_lines (state c)). }
  assert (Hgen : ∀ k ls (c : StreamCore L H), ls = take k (core_queue (plan_core t)) →
    core_queue c = drop k (core_queue (plan_core t)) →
    let '(cell, t') := plan_emit ls false (mkPlanController c (plan_header_emitted t) (top_padding_emitted t)) in
    queue_of_plan (Some t') = drop k (core_queue (plan_core t)) ∧
    core_is_idle (plan_core t') = is_empty (drop k (core_queue (plan_core t))) ∧
    plan_cell_lines (push_cell cell []) = plan_text (Some t) (take k (core_queue (plan_core t))) ∧
    message_cell_lines (push_cell cell []) = [] ∧
    (∀ ls, plan_text (Some t) (take k (core_queue (plan_core t))) ++ plan_text (Some t') ls =
           plan_text (Some t) (take k (core_queue (plan_core t)) ++ ls))).
  { intros k ls c -> Hc. unfold plan_emit. rewrite andb_true_r.
    set (ls := take k _). destruct (is_empty ls) eqn:E; cbn; rewrite Hidle, Hc.
    - assert (ls = []) as -> by by destruct ls. done.
    - rewrite app_nil_r, E. split; [done|]. split; [done|]. split; [done|]. split; [done|]. intros ls'.
      assert (is_empty (ls ++ ls') = false) as -> by by destruct ls.
      unfold render_display_lines. cbn [plan_header_emitted top_padding_emitted].
      destruct ls' as [|x ls']; [by rewrite !app_nil_r|]. cbn [is_empty app].
      rewrite !app_nil_r, <- app_assoc. f_equal. by rewrite <- map_app, <- app_assoc. }
  unfold drain_plan_stream_controller. destruct plan as [|n].
  - unfold plan_on_commit_tick. pose proof (tick_queue (plan_core t)) as [H1 H2].
    destruct (tick (plan_core t)) as [ls c]. cbn [fst snd] in *. specialize (Hgen 1 ls c H1 H2).
    destruct (plan_emit ls _ _) as [cell t']. done.
  - unfold plan_on_commit_tick_batch. pose proof (tick_batch_queue n (plan_core t)) as [H1 H2].
    destruct (tick_batch n (plan_core t)) as [ls c]. cbn [fst snd] in *. specialize (Hgen n ls c H1 H2).
    destruct (plan_emit ls _ _) as [cell t']. done.
Qed.

Lemma message_cell_lines_push cell (cs : list (HistoryCell L)) :
  message_cell_lines (push_cell cell cs) = message_cell_lines cs ++ message_cell_lines (push_cell cell []).
Proof.
  destruct cell as [cell|]; simpl; [|by rewrite app_nil_r]. unfold message_cell_lines.
  by rewrite map_app, concat_app.
Qed.
Lemma plan_cell_lines_push cell (cs : list (HistoryCell L)) :
  plan_cell_lines (push_cell cell cs) = plan_cell_lines cs ++ plan_cell_lines (push_cell cell []).
Proof.
  destruct cell as [cell|]; simpl; [|by rewrite app_nil_r]. unfold plan_cell_lines.
  by rewrite map_app, concat_app.
Qed.

Lemma plan_text_nil (p : option plan_stream) : plan_text p [] = [].
Proof. by destruct p. Qed.

(** The effect of a drain plan on both streams. *)
Lemma apply_plan_spec plan (s : option stream) (p : option plan_stream) :
  let '(out, (s', p')) := apply_commit_tick_plan plan s p in
  let k := drain_count plan in
  queue_of_stream s' = drop k (queue_of_stream s) ∧ queue_of_plan p' = drop k (queue_of_plan p) ∧
  all_idle out = is_empty (drop k (queue_of_stream s)) && is_empty (drop k (queue_of_plan p)) ∧
  message_cell_lines (cells out) = take k (queue_of_stream s) ∧
  plan_cell_lines (cells out) = plan_text p (take k (queue_of_plan p)) ∧
  (∀ ls, plan_text p (take k (queue_of_plan p)) ++ plan_text p' ls =
         plan_text p (take k (queue_of_plan p) ++ ls)).
Proof.
  unfold apply_commit_tick_plan. set (k := drain_count plan).
  assert (Hs : let '(out, s') := apply_to_stream plan s default_output in
    queue_of_stream s' = drop k (queue_of_stream s) ∧ all_idle out = is_empty (drop k (queue_of_stream s)) ∧
    message_cell_lines (cells out) = take k (queue_of_stream s) ∧ plan_cell_lines (cells out) = []).
  { unfold apply_to_stream. destruct s as [t|]; [|cbn [queue_of_stream]; by rewrite drop_nil, take_nil].
    pose proof (drain_stream_spec t plan) as Hd. destruct (drain_stream_controller t plan) as [[cell idle] t']. exact Hd. }
  destruct (apply_to_stream plan s default_output) as [out s']. destruct Hs as (Hq & Hi & Hm & Hp).
  unfold apply_to_plan_stream. destruct p as [t|].
  - pose proof (drain_plan_stream_spec t plan) as Hd.
    destruct (drain_plan_stream_controller t plan) as [[cell idle] t']. fold k in Hd.
    destruct Hd as (Hq' & Hi' & Hp' & Hm' & Hc'). cbn [cells all_idle].
    rewrite message_cell_lines_push, plan_cell_lines_push, Hm, Hm', Hp, Hp', app_nil_r, Hi, Hi'. done.
  - cbn [queue_of_plan plan_text]. rewrite drop_nil, ?take_nil, andb_true_r. done.
Qed.

Lemma snapshot_count (s : option stream) (p : option plan_stream) now :
  snapshot_queued_lines (stream_queue_snapshot s p now) = length (queue_of_stream s) + length (queue_of_plan p).
Proof.
  unfold stream_queue_snapshot, queue_of_stream, queue_of_plan, core_queue, core_queued_lines, queued_len.
  destruct s, p; simpl; rewrite ?length_map; lia.
Qed.

(** In catch-up the plan drains everything that was counted. *)
Lemma decide_plan snapshot now p :
  let '(d, p') := decide snapshot now p in
  decision_mode d = mode p' ∧ 1 ≤ drain_count (drain_plan d) ∧
  (mode p' = CatchUp → snapshot_queued_lines snapshot ≤ drain_count (drain_plan d)).
Proof.
  unfold decide. destruct (_ =? 0); [simpl; done|].
  destruct (match mode p with Smooth => _ | CatchUp => _ end) as [entered p'].
  cbn [decision_mode drain_plan]. destruct (mode p'); simpl; split_and!; try done; lia.
Qed.

(** A tick drains the heads of both queues, and everything in catch-up. *)
Lemma commit_tick_spec policy (s : option stream) (p : option plan_stream) now :
  let '(out, (policy', (s', p'))) := run_commit_tick policy s p AnyMode now in
  ∃ k, 1 ≤ k ∧ (mode policy' = CatchUp → length (queue_of_stream s) ≤ k ∧ length (queue_of_plan p) ≤ k) ∧
  queue_of_stream s' = drop k (queue_of_stream s) ∧ queue_of_plan p' = drop k (queue_of_plan p) ∧
  all_idle out = is_empty (drop k (queue_of_stream s)) && is_empty (drop k (queue_of_plan p)) ∧
  message_cell_lines (cells out) = take k (queue_of_stream s) ∧
  plan_cell_lines (cells out) = plan_text p (take k (queue_of_plan p)) ∧
  (∀ ls, plan_text p (take k (queue_of_plan p)) ++ plan_text p' ls =
         plan_text p (take k (queue_of_plan p) ++ ls)).
Proof.
  unfold run_commit_tick, resolve_chunking_plan.
  pose proof (decide_plan (stream_queue_snapshot s p now) now policy) as Hd.
  destruct (decide (stream_queue_snapshot s p now) now policy) as [d policy'].
  destruct Hd as (_ & Hk & Hall). rewrite snapshot_count in Hall. cbn [andb].
  pose proof (apply_plan_spec (drain_plan d) s p) as Ha.
  change (bool_decide (AnyMode = CatchUpOnly)) with false. cbn [andb].
  destruct (apply_commit_tick_plan (drain_plan d) s p) as [out [s' p']].
  exists (drain_count (drain_plan d)). split; [done|]. split; [|done]. intros Hm. specialize (Hall Hm). lia.
Qed.

(** Ticks at the given times; the cells they produce. *)
Fixpoint run_ticks (times : list N) (policy : AdaptiveChunkingPolicy) (s : option stream) (p : option plan_stream)
    : list (HistoryCell L) * (option stream * option plan_stream) :=
  match times with
  | [] => ([], (s, p))
  | now :: times =>
      let '(out, (policy, (s, p))) := run_commit_tick policy s p AnyMode now in
      let '(cs, sp) := run_ticks times policy s p in
      (cells out ++ cs, sp)
  end.

Lemma message_cell_lines_app (cs cs' : list (HistoryCell L)) :
  message_cell_lines (cs ++ cs') = message_cell_lines cs ++ message_cell_lines cs'.
Proof. unfold message_cell_lines. rewrite map_app. apply concat_app. Qed.
Lemma plan_cell_lines_app (cs cs' : list (HistoryCell L)) :
  plan_cell_lines (cs ++ cs') = plan_cell_lines cs ++ plan_cell_lines cs'.
Proof. unfold plan_cell_lines. rewrite map_app. apply concat_app. Qed.

(** C35: Queued lines are shown.  Whatever the state of the policy and whenever the ticks
    come, as many ticks as the longer queue has lines show every queued line of the
    message and of the plan stream exactly once and in order, and leave both queues empty. *)
Theorem ticks_show_every_line times policy (s : option stream) (p : option plan_stream) :
  length (queue_of_stream s) ≤ length times → length (queue_of_plan p) ≤ length times →
  let '(cs, (s', p')) := run_ticks times policy s p in
  message_cell_lines cs = message_text (queue_of_stream s) ∧
  plan_cell_lines cs = plan_text p (queue_of_plan p) ∧
  queue_of_stream s' = [] ∧ queue_of_plan p' = [].
Proof.
  revert policy s p. induction times as [|now times IH]; intros policy s p Hs Hp; cbn [run_ticks length] in *.
  - apply Nat.le_0_r, length_zero_iff_nil in Hs, Hp. rewrite Hs, Hp, plan_text_nil. done.
  - pose proof (commit_tick_spec policy s p now) as Ht.
    destruct (run_commit_tick policy s p AnyMode now) as [out [policy' [s' p']]].
    destruct Ht as (k & Hk & _ & Hqs & Hqp & _ & Hm & Hpl & Hcont).
    specialize (IH policy' s' p'). rewrite Hqs, Hqp, !length_drop in IH.
    specialize (IH ltac:(lia) ltac:(lia)). destruct (run_ticks times policy' s' p') as [cs [s2 p2]].
    destruct IH as (Hm2 & Hpl2 & Hs2 & Hp2). unfold message_text in *.
    rewrite message_cell_lines_app, plan_cell_lines_app, Hm, Hm2, Hpl, Hpl2, Hcont, !take_drop. done.
Qed.
End Ticks.

(** ** A concrete run *)
Definition queued_core (ls : list rstring) : StreamCore rstring unit :=
  mkCore (mkState (new_collector None) (map (λ l, mkQueued l 0%N) ls) true) None new_render (length ls) 0 Rich None
    TableHoldback.new_holdback.

Lemma ticks_show_every_line_witness :
  let '(cs, (s', p')) := run_ticks [1%N; 2%N; 500%N] default_policy
      (Some (mkController (queued_core [str "a"; str "b"]) false))
      (Some (mkPlanController (queued_core [str "x"; str "y"; str "z"]) false false)) in
  message_cell_lines cs = [str "a"; str "b"] ∧
  plan_cell_lines cs = [str "Proposed Plan"; str " "; str "   "; str "  x"; str "  y"; str "  z"] ∧
  queue_of_stream s' = [] ∧ queue_of_plan p' = [].
Proof.
  assert (H1 : length (queue_of_stream (Some (mkController (queued_core [str "a"; str "b"]) false))) ≤ 3)
    by (vm_compute; lia).
  assert (H2 : length (queue_of_plan (Some (mkPlanController (queued_core [str "x"; str "y"; str "z"]) false false))) ≤ 3)
    by (vm_compute; lia).
  exact (ticks_show_every_line [1%N; 2%N; 500%N] default_policy _ _ H1 H2).
Defined.
