(* ===== verification/Bash.v ===== *)
(** * Plain and literal commands of a shell script

    Models [sofia-rs/shell-command/src/bash.rs]: the walks over the syntax tree of a
    script that give the commands of a script of plain words, and the literal words of the
    commands of any script.  A syntax tree of the tree-sitter crate is the type [node]; the
    parser is a parameter. *)

From Stdlib Require Import Sorting.Sorted.
From stdpp Require Import base list numbers strings sorting.
From S2P Require Import Prelude Machine Truncate StreamRender ShellDetect.

#[local] Set Default Proof Using "Type*".
#[local] Arguments str : simpl never.

(** A node with its children in source order; [utf8_text] is the slice of the source. *)
Inductive node := mkNode (node_kind : rstring) (is_named node_has_error : bool) (start_byte end_byte : N)
  (children : list node).

Definition node_kind (n : node) : rstring := let '(mkNode k _ _ _ _ _) := n in k.
Definition is_named (n : node) : bool := let '(mkNode _ b _ _ _ _) := n in b.
Definition node_has_error (n : node) : bool := let '(mkNode _ _ e _ _ _) := n in e.
Definition start_byte (n : node) : N := let '(mkNode _ _ _ s _ _) := n in s.
Definition end_byte (n : node) : N := let '(mkNode _ _ _ _ e _) := n in e.
Definition children (n : node) : list node := let '(mkNode _ _ _ _ _ cs) := n in cs.

Definition named_children (n : node) : list node := List.filter is_named (children n).
Definition utf8_text (src : rstring) (n : node) : option rstring := slice_range (start_byte n) (end_byte n) src.

Definition kind_is (k : string) (n : node) : bool := str_eqb (node_kind n) (str k).
Definition kind_in (ks : list rstring) (n : node) : bool := existsb (str_eqb (node_kind n)) ks.

Definition ALLOWED_KINDS : list rstring :=
  [str "program"; str "list"; str "pipeline"; str "command"; str "command_name"; str "word"; str "string";
   str "string_content"; str "raw_string"; str "number"; str "concatenation"].
Definition ALLOWED_PUNCT_TOKENS : list rstring := [str "&&"; str "||"; str ";"; str "|"; [34%N]; str "'"].

(** The characters that a shell may expand or remove in a word. *)
Definition EXPANDED_CHARS : list N := str "{}*?[]\~^#$`".

Definition is_literal_text (word : rstring) : bool :=
  negb (starts_with (str "=") word) && negb (contains_any EXPANDED_CHARS word).

Definition is_literal_word_or_number (src : rstring) (n : node) : bool :=
  kind_in [str "word"; str "number"] n && is_empty (named_children n) &&
  is_some_and (utf8_text src n) is_literal_text.

(** [windows(2)] of the bytes: a backslash before a character that it escapes in quotes. *)
Fixpoint has_quoted_escape (s : rstring) : bool :=
  match s with
  | a :: (b :: _) as tail => ((a =? 92) && existsb (N.eqb b) [36; 96; 34; 92; 10])%N || has_quoted_escape tail
  | _ => false
  end.

Definition strip_quotes (q s : rstring) : option rstring := t ← strip_prefix q s; strip_suffix q t.

Definition parse_double_quoted_string (src : rstring) (n : node) : option rstring :=
  if negb (kind_is "string" n) then None
  else if negb (forallb (kind_is "string_content") (named_children n)) then None
  else
    raw ← utf8_text src n;
    stripped ← strip_quotes [34%N] raw;
    if has_quoted_escape stripped then None else Some stripped.

Definition parse_raw_string (src : rstring) (n : node) : option rstring :=
  if negb (kind_is "raw_string" n) then None
  else raw ← utf8_text src n; strip_quotes (str "'") raw.

(** ** Plain commands *)
(** A part of a concatenation. *)
Definition plain_part (src : rstring) (part : node) : option rstring :=
  if kind_in [str "word"; str "number"] part then utf8_text src part
  else if kind_is "string" part then parse_double_quoted_string src part
  else if kind_is "raw_string" part then parse_raw_string src part
  else None.

Definition plain_word (src : rstring) (child : node) : option rstring :=
  if kind_is "command_name" child then
    word_node ← head (named_children child);
    if kind_is "word" word_node then utf8_text src word_node else None
  else if kind_in [str "word"; str "number"] child then utf8_text src child
  else if kind_is "string" child then parse_double_quoted_string src child
  else if kind_is "raw_string" child then parse_raw_string src child
  else if kind_is "concatenation" child then
    parts ← mapM (plain_part src) (named_children child);
    let concatenated := concat parts in
    if is_empty concatenated then None else Some concatenated
  else None.

Definition parse_plain_command_from_node (src : rstring) (cmd : node) : option (list rstring) :=
  if kind_is "command" cmd then mapM (plain_word src) (named_children cmd) else None.

(** The test of a node in the walk. *)
Definition node_allowed (src : rstring) (n : node) : bool :=
  if is_named n then
    kind_in ALLOWED_KINDS n &&
    (negb (kind_in [str "word"; str "number"] n) || is_literal_word_or_number src n)
  else
    negb (contains_any (str "&;|") (node_kind n) && negb (kind_in ALLOWED_PUNCT_TOKENS n)) &&
    (kind_in ALLOWED_PUNCT_TOKENS n || is_empty (trim (node_kind n))).

(** The loop over the stack, whose top is the head of the list; the outer [None] is the
    end of the fuel. *)
Fixpoint walk_loop (src : rstring) (fuel : nat) (stack : list node) (command_nodes : list node)
    : option (option (list node)) :=
  match stack with
  | [] => Some (Some command_nodes)
  | n :: stack =>
      match fuel with
      | O => None
      | S fuel' =>
          if node_allowed src n
          then walk_loop src fuel' (reverse (children n) ++ stack)
                 (if is_named n && kind_is "command" n then command_nodes ++ [n] else command_nodes)
          else Some None
      end
  end.

(** The number of nodes of a tree. *)
Fixpoint size (n : node) : nat :=
  let '(mkNode _ _ _ _ _ cs) := n in S (list_sum (map size cs)).

Definition start_leb (a b : node) : bool := (start_byte a <=? start_byte b)%N.

Definition try_parse_word_only_commands_sequence (root : node) (src : rstring) : option (list (list rstring)) :=
  if node_has_error root then None
  else
    command_nodes ← mjoin (walk_loop src (size root) [root] []);
    mapM (parse_plain_command_from_node src) (sort_by start_leb command_nodes).

(** ** Literal commands *)
(** Concatenations may nest; the recursion goes to the parts. *)
Fixpoint parse_literal_shell_word (src : rstring) (n : node) : option rstring :=
  if kind_in [str "word"; str "number"] n && is_literal_word_or_number src n then utf8_text src n
  else if kind_is "string" n then parse_double_quoted_string src n
  else if kind_is "raw_string" n then parse_raw_string src n
  else if kind_is "concatenation" n then
    let '(mkNode _ _ _ _ _ cs) := n in
    let fix parts (l : list node) : option rstring :=
      match l with
      | [] => Some []
      | c :: l =>
          if is_named c then
            p ← parse_literal_shell_word src c;
            rest ← parts l;
            Some (p ++ rest)
          else parts l
      end in
    concatenated ← parts cs;
    if is_empty concatenated then None else Some concatenated
  else None.

(** The loop over the children of a command. *)
Fixpoint literal_words (src : rstring) (cs : list node) (found : bool) (words : list rstring)
    : option (list rstring) :=
  match cs with
  | [] => if found then Some words else None
  | child :: cs =>
      if kind_is "command_name" child then
        name_node ← head (named_children child);
        command_name ← parse_literal_shell_word src name_node;
        literal_words src cs true (words ++ [command_name])
      else
        literal_words src cs found
          (if found then match parse_literal_shell_word src child with
                         | Some word => words ++ [word]
                         | None => words
                         end
           else words)
  end.

Definition parse_literal_command_from_node (src : rstring) (cmd : node) : option (list rstring) :=
  if kind_is "command" cmd then literal_words src (named_children cmd) false [] else None.

Fixpoint literal_loop (src : rstring) (fuel : nat) (stack : list node) (commands : list (list rstring))
    : option (list (list rstring)) :=
  match stack with
  | [] => Some commands
  | n :: stack =>
      match fuel with
      | O => None
      | S fuel' =>
          literal_loop src fuel' (reverse (named_children n) ++ stack)
            (if kind_is "command" n then
               match parse_literal_command_from_node src n with
               | Some command => commands ++ [command]
               | None => commands
               end
             else commands)
      end
  end.

(** ** Invocations of a shell *)
Section Invocation.
(** [try_parse_shell]: the root of the tree of the bash grammar. *)
Context (try_parse_shell : rstring → option node).

Definition extract_bash_command (command : list rstring) : option (rstring * rstring) :=
  match command with
  | [shell; flag; script] =>
      if negb (str_eqb flag (str "-lc") || str_eqb flag (str "-c")) ||
         negb (match detect_shell_type shell with Some Zsh | Some Bash | Some Sh => true | _ => false end)
      then None else Some (shell, script)
  | _ => None
  end.

Definition parse_shell_script_into_commands (script : rstring) : option (list (list rstring)) :=
  tree ← try_parse_shell script; try_parse_word_only_commands_sequence tree script.

(** [parse_shell_lc_plain_commands]. *)
Definition bash_plain_commands (command : list rstring) : option (list (list rstring)) :=
  '(_, script) ← extract_bash_command command; parse_shell_script_into_commands script.

(** [parse_shell_lc_literal_commands]. *)
Definition bash_literal_commands (command : list rstring) : option (list (list rstring)) :=
  '(_, script) ← extract_bash_command command;
  root ← try_parse_shell script;
  if node_has_error root then None else literal_loop script (size root) [root] [].
End Invocation.

(** * Correctness of the parsing of scripts

    The walk with a stack and the sorting afterwards compute the commands in the order of
    the document, and the plain commands of a script are commands that the classifier of
    dangerous commands sees. *)

#[local] Set Default Proof Using "Type*".
#[local] Arguments str : simpl never.

(** ** Orders of the nodes *)
Lemma node_children_ind (P : node → Prop) :
  (∀ k b e s t cs, Forall P cs → P (mkNode k b e s t cs)) → ∀ n, P n.
Proof.
  intros Hstep. fix IH 1. intros [k b e s t cs]. apply Hstep.
  induction cs as [|c cs IHcs]; constructor; [apply IH|exact IHcs].
Qed.

(** The nodes in the order of the document, and in the order of the walks. *)
Fixpoint doc_order (n : node) : list node :=
  let '(mkNode _ _ _ _ _ cs) := n in n :: concat (map doc_order cs).
Fixpoint visit (n : node) : list node :=
  let '(mkNode _ _ _ _ _ cs) := n in n :: concat (reverse (map visit cs)).
Fixpoint visit_named (n : node) : list node :=
  let '(mkNode _ _ _ _ _ cs) := n in n :: concat (reverse (map (λ c, if is_named c then visit_named c else []) cs)).

Lemma map_reverse {A B} (f : A → B) l : map f (reverse l) = reverse (map f l).
Proof. apply (fmap_reverse f). Qed.

Lemma visit_children n : visit n = n :: concat (map visit (reverse (children n))).
Proof. destruct n as [k b e s t cs]. simpl. f_equal. f_equal. by rewrite map_reverse. Qed.

Lemma concat_drop_unnamed cs :
  concat (map (λ c, if is_named c then visit_named c else []) cs) = concat (map visit_named (List.filter is_named cs)).
Proof. induction cs as [|c cs IH]; simpl; [done|]. destruct (is_named c); simpl; by rewrite IH. Qed.

Lemma filter_reverse_list {A} (P : A → bool) l : List.filter P (reverse l) = reverse (List.filter P l).
Proof.
  induction l as [|x l IH]; [done|]. rewrite reverse_cons, List.filter_app, IH. simpl.
  destruct (P x); [by rewrite reverse_cons|by rewrite app_nil_r].
Qed.

Lemma visit_named_children n : visit_named n = n :: concat (map visit_named (reverse (named_children n))).
Proof.
  destruct n as [k b e s t cs]. simpl. f_equal. unfold named_children. simpl.
  rewrite <- filter_reverse_list, <- concat_drop_unnamed. f_equal. by rewrite map_reverse.
Qed.

Lemma concat_reverse_perm {A} (ls : list (list A)) : concat (reverse ls) ≡ₚ concat ls.
Proof.
  induction ls as [|l ls IH]; [done|]. rewrite reverse_cons, concat_app. simpl.
  rewrite app_nil_r, IH. apply Permutation_app_comm.
Qed.

Lemma concat_map_perm {A B} (f g : A → list B) l :
  Forall (λ x, f x ≡ₚ g x) l → concat (map f l) ≡ₚ concat (map g l).
Proof. induction 1 as [|x l Hx _ IH]; simpl; [done|]. by rewrite Hx, IH. Qed.

Lemma visit_perm n : visit n ≡ₚ doc_order n.
Proof.
  induction n as [k b e s t cs IH] using node_children_ind. simpl. constructor.
  rewrite concat_reverse_perm. by apply concat_map_perm.
Qed.

Lemma size_children n : size n = S (list_sum (map size (children n))).
Proof. by destruct n. Qed.

Lemma list_sum_reverse l : list_sum (reverse l) = list_sum l.
Proof. induction l as [|x l IH]; [done|]. rewrite reverse_cons, list_sum_app. simpl. lia. Qed.

Lemma list_sum_filter_le (f : node → nat) P l : list_sum (map f (List.filter P l)) ≤ list_sum (map f l).
Proof. induction l as [|x l IH]; simpl; [lia|]. destruct (P x); simpl; lia. Qed.

(** ** The walks *)
Definition is_command (n : node) : bool := is_named n && kind_is "command" n.

Lemma walk_loop_spec src fuel stack acc :
  list_sum (map size stack) ≤ fuel →
  walk_loop src fuel stack acc =
  Some (if forallb (node_allowed src) (concat (map visit stack))
        then Some (acc ++ List.filter is_command (concat (map visit stack))) else None).
Proof.
  revert stack acc. induction fuel as [|fuel IH]; intros stack acc Hf.
  { destruct stack as [|n stack]; [by simpl; rewrite app_nil_r|]. simpl in Hf. rewrite size_children in Hf. lia. }
  destruct stack as [|n stack]; [by simpl; rewrite app_nil_r|].
  cbn [walk_loop map concat]. rewrite visit_children. cbn [app forallb List.filter].
  destruct (node_allowed src n); [|done]. simpl andb. rewrite IH.
  - rewrite map_app, concat_app. fold (is_command n).
    destruct (is_command n); [|done]. by rewrite <- app_assoc.
  - simpl in Hf. rewrite size_children in Hf. rewrite map_app, list_sum_app.
    rewrite map_reverse, list_sum_reverse. lia.
Qed.

Lemma omap_head {A B} (f : A → option B) x l :
  omap f (x :: l) = match f x with Some y => y :: omap f l | None => omap f l end.
Proof. done. Qed.

Definition literal_of (src : rstring) (n : node) : option (list rstring) :=
  if kind_is "command" n then parse_literal_command_from_node src n else None.

Lemma literal_loop_spec src fuel stack acc :
  list_sum (map size stack) ≤ fuel →
  literal_loop src fuel stack acc = Some (acc ++ omap (literal_of src) (concat (map visit_named stack))).
Proof.
  revert stack acc. induction fuel as [|fuel IH]; intros stack acc Hf.
  { destruct stack as [|n stack]; [by simpl; rewrite app_nil_r|]. simpl in Hf. rewrite size_children in Hf. lia. }
  destruct stack as [|n stack]; [by simpl; rewrite app_nil_r|].
  cbn [literal_loop map concat]. rewrite visit_named_children, IH.
  - rewrite map_app, concat_app. cbn [app]. rewrite omap_head. unfold literal_of at 2.
    destruct (kind_is "command" n); [|done].
    destruct (parse_literal_command_from_node src n); [by rewrite <- app_assoc|done].
  - simpl in Hf. rewrite size_children in Hf. rewrite map_app, list_sum_app.
    rewrite map_reverse, list_sum_reverse.
    pose proof (list_sum_filter_le size is_named (children n)). unfold named_children. lia.
Qed.

(** ** Sorting *)
Definition start_le (a b : node) : Prop := (start_byte a ≤ start_byte b)%N.
Definition start_lt (a b : node) : Prop := (start_byte a < start_byte b)%N.

Lemma insert_by_sorted n l : StronglySorted start_le l → StronglySorted start_le (insert_by start_leb n l).
Proof.
  induction 1 as [|m l Hs IH Hf]; simpl; [by repeat constructor|].
  unfold start_leb at 1. destruct (N.leb_spec (start_byte m) (start_byte n)) as [Hle|Hlt].
  - constructor; [done|]. rewrite insert_by_perm. by constructor.
  - constructor; [by constructor|]. constructor; [unfold start_le; lia|].
    eapply Forall_impl; [exact Hf|]. unfold start_le. intros; lia.
Qed.

Lemma sort_by_sorted l : StronglySorted start_le (sort_by start_leb l).
Proof.
  unfold sort_by. assert (StronglySorted start_le []) as H by constructor. revert H. generalize (@nil node).
  induction l as [|n l IH]; intros acc Hs; simpl; [done|]. by apply IH, insert_by_sorted.
Qed.

Lemma strict_le l : StronglySorted start_lt l → StronglySorted start_le l.
Proof.
  induction 1 as [|m k _ IH Hf]; constructor; [done|].
  eapply Forall_impl; [exact Hf|]. unfold start_le, start_lt. intros; lia.
Qed.

Lemma strict_inj l x y :
  StronglySorted start_lt l → x ∈ l → y ∈ l → start_byte x = start_byte y → x = y.
Proof.
  induction 1 as [|m k _ IH Hf]; [by intros ?%not_elem_of_nil|]. rewrite Forall_forall in Hf.
  unfold start_lt in Hf. rewrite !elem_of_cons. intros [->|Hx] [->|Hy] Heq; [done|..|by apply IH].
  - specialize (Hf y Hy). lia.
  - specialize (Hf x Hx). lia.
Qed.

(** A list in strict order is the sorting of each of its permutations. *)
Lemma sort_by_strict l l' : StronglySorted start_lt l → l' ≡ₚ l → sort_by start_leb l' = l.
Proof.
  intros Hl Hp. apply (StronglySorted_unique_strong start_le);
    [|apply sort_by_sorted|by apply strict_le|by rewrite sort_by_perm].
  intros x y Hx Hy H1 H2. rewrite sort_by_perm, Hp in Hx. apply (strict_inj l); [done..|].
  unfold start_le in *. lia.
Qed.

Lemma filter_perm (P : node → bool) l l' : l ≡ₚ l' → List.filter P l ≡ₚ List.filter P l'.
Proof.
  induction 1 as [|x l l' _ IH|x y l|l1 l2 l3 _ IH1 _ IH2]; simpl; [done|..].
  - destruct (P x); [by constructor|done].
  - destruct (P x), (P y); try done. constructor.
  - by rewrite IH1.
Qed.

Lemma forallb_perm (P : node → bool) l l' : l ≡ₚ l' → forallb P l = forallb P l'.
Proof.
  intros Hp. apply eq_true_iff_eq. rewrite !forallb_forall.
  split; intros H x Hx; apply H; rewrite <- list_elem_of_In in *; by rewrite Hp in *.
Qed.

(** ** Plain commands in the order of the document *)
(** The commands of a tree from its first line to its last. *)
Definition commands_in_order (root : node) : list node := List.filter is_command (doc_order root).

Definition plain_reference (root : node) (src : rstring) : option (list (list rstring)) :=
  if node_has_error root then None
  else if forallb (node_allowed src) (doc_order root)
  then mapM (parse_plain_command_from_node src) (commands_in_order root)
  else None.

(** The commands of a script of plain words: for every tree whose commands start one
    after the other, the walk with its stack and the sorting accept exactly the trees in
    which every node is allowed and every command is plain, and return the words of the
    commands in the order of the document. *)
Theorem word_only_commands_in_order root src :
  StronglySorted start_lt (commands_in_order root) →
  try_parse_word_only_commands_sequence root src = plain_reference root src.
Proof.
  intros Hs. unfold try_parse_word_only_commands_sequence, plain_reference.
  destruct (node_has_error root); [done|]. rewrite walk_loop_spec by (simpl; lia).
  cbn [map concat app]. rewrite app_nil_r, (forallb_perm _ _ _ (visit_perm root)).
  destruct (forallb _ _); [|done].
  change (mjoin (Some (Some ?l))) with (Some l). cbn [mbind option_bind].
  rewrite (sort_by_strict (commands_in_order root)); [done..|]. apply filter_perm, visit_perm.
Qed.

(** ** Plain commands are literal commands *)
Lemma Forall2_in_l {A B} (P Q : A → B → Prop) l k :
  Forall2 P l k → (∀ x y, x ∈ l → P x y → Q x y) → Forall2 Q l k.
Proof.
  induction 1 as [|x y l k Hxy _ IH]; intros HPQ; constructor.
  - apply HPQ; [by left|done].
  - apply IH. intros x' y' Hx'. apply HPQ. by right.
Qed.

Lemma doc_order_children n m : m ∈ children n → ∀ x, x ∈ doc_order m → x ∈ doc_order n.
Proof.
  destruct n as [k b e s t cs]. simpl. intros Hm x Hx. right.
  apply list_elem_of_In, in_concat. exists (doc_order m). split; [|by apply list_elem_of_In].
  apply in_map. by apply list_elem_of_In.
Qed.

Lemma doc_order_self n : n ∈ doc_order n.
Proof. destruct n. simpl. by left. Qed.

Lemma elem_named_children n m : m ∈ named_children n → m ∈ children n ∧ is_named m = true.
Proof. unfold named_children. rewrite !list_elem_of_In. apply filter_In. Qed.

(** Shape of the trees of the bash grammar: anonymous nodes are tokens without children;
    the named children of a command are assignments and redirections, its name, and its
    arguments. *)
Record tree_shape (root : node) : Prop := {
  shape_root : is_named root = true;
  shape_tokens n : n ∈ doc_order root → is_named n = false → children n = [];
  shape_commands n : n ∈ doc_order root → is_command n = true →
    ∃ before name args, named_children n = before ++ name :: args ∧
      Forall (λ c, kind_in ALLOWED_KINDS c = false) before ∧ kind_is "command_name" name = true ∧
      Forall (λ c, kind_is "command_name" c = false) args;
}.

(** The equation of the recursion, with the loop over the parts as a map. *)
Lemma parse_literal_shell_word_eq src n :
  parse_literal_shell_word src n =
  if kind_in [str "word"; str "number"] n && is_literal_word_or_number src n then utf8_text src n
  else if kind_is "string" n then parse_double_quoted_string src n
  else if kind_is "raw_string" n then parse_raw_string src n
  else if kind_is "concatenation" n then
    parts ← mapM (parse_literal_shell_word src) (named_children n);
    if is_empty (concat parts) then None else Some (concat parts)
  else None.
Proof.
  destruct n as [k b e s t cs]. cbn [parse_literal_shell_word].
  destruct (_ && _); [done|]. destruct (kind_is "string" _); [done|]. destruct (kind_is "raw_string" _); [done|].
  destruct (kind_is "concatenation" _); [|done]. unfold named_children. cbn [children].
  set (parts := fix parts l := match l with [] => Some [] | c :: l => _ end).
  assert (Hp : ∀ l, parts l = @concat N <$> mapM (parse_literal_shell_word src) (List.filter is_named l)).
  { induction l as [|c l IH]; [done|]. simpl. destruct (is_named c); [|exact IH]. cbn [mapM].
    simpl. destruct (parse_literal_shell_word src c) as [p|]; [|done]. simpl. rewrite IH.
    by destruct (mapM _ _). }
  rewrite Hp. by destruct (mapM _ _).
Qed.

Section Literal.
Context (src : rstring).

Lemma kind_in_literal n :
  node_allowed src n = true → is_named n = true → kind_in [str "word"; str "number"] n = true →
  is_literal_word_or_number src n = true.
Proof.
  unfold node_allowed. intros Ha Hn Hk. rewrite Hn, Hk in Ha. apply andb_true_iff in Ha as [_ Ha]. exact Ha.
Qed.

(** A plain part is literal, with the same text. *)
Lemma plain_part_literal n w :
  node_allowed src n = true → is_named n = true → plain_part src n = Some w → parse_literal_shell_word src n = Some w.
Proof.
  intros Ha Hn. unfold plain_part. rewrite parse_literal_shell_word_eq.
  destruct (kind_in [str "word"; str "number"] n) eqn:E1.
  { by rewrite (kind_in_literal n). }
  simpl andb. cbv iota. destruct (kind_is "string" n); [done|]. by destruct (kind_is "raw_string" n).
Qed.

Lemma plain_word_literal n w :
  (∀ x, x ∈ doc_order n → node_allowed src x = true) → is_named n = true → kind_is "command_name" n = false →
  plain_word src n = Some w → parse_literal_shell_word src n = Some w.
Proof.
  intros Ha Hn Hk. unfold plain_word. rewrite Hk.
  assert (Hself : node_allowed src n = true) by apply Ha, doc_order_self.
  destruct (kind_in [str "word"; str "number"] n) eqn:E1.
  { intros Hw. apply plain_part_literal; [done..|]. unfold plain_part. by rewrite E1. }
  destruct (kind_is "string" n) eqn:E2.
  { intros Hw. apply plain_part_literal; [done..|]. unfold plain_part. by rewrite E1, E2. }
  destruct (kind_is "raw_string" n) eqn:E3.
  { intros Hw. apply plain_part_literal; [done..|]. unfold plain_part. by rewrite E1, E2, E3. }
  destruct (kind_is "concatenation" n) eqn:E4; [|done]. intros Hw.
  destruct (mapM (plain_part src) (named_children n)) as [parts|] eqn:Ep; [|done].
  assert (Hl : mapM (parse_literal_shell_word src) (named_children n) = Some parts).
  { apply mapM_Some in Ep. apply mapM_Some. eapply Forall2_in_l; [exact Ep|].
    intros x y Hx Hxy. apply elem_named_children in Hx as [Hx Hxn]. apply plain_part_literal; [|done|done].
    apply Ha, (doc_order_children n x); [done|apply doc_order_self]. }
  rewrite parse_literal_shell_word_eq, E1, E2, E3, E4, Hl. exact Hw.
Qed.

Lemma plain_name_literal n w :
  (∀ x, x ∈ doc_order n → node_allowed src x = true) → kind_is "command_name" n = true → plain_word src n = Some w →
  (name_node ← head (named_children n); parse_literal_shell_word src name_node) = Some w.
Proof.
  intros Ha Hk. unfold plain_word. rewrite Hk. destruct (head (named_children n)) as [m|] eqn:Em; [|done]. simpl.
  destruct (kind_is "word" m) eqn:Ew; [|done]. intros Hw.
  assert (m ∈ named_children n) as [Hm Hn]%elem_named_children.
  { destruct (named_children n); [done|]. injection Em as ->. by left. }
  apply plain_part_literal; [|done|].
  - apply Ha, (doc_order_children n m); [done|apply doc_order_self].
  - unfold plain_part, kind_in. unfold kind_is in Ew. simpl. by rewrite Ew.
Qed.

Lemma literal_words_args args ws words :
  Forall2 (λ c w, kind_is "command_name" c = false ∧ parse_literal_shell_word src c = Some w) args ws →
  literal_words src args true words = Some (words ++ ws).
Proof.
  intros Hf. revert words. induction Hf as [|c w args ws [Hk Hw] _ IH]; intros words; simpl.
  { by rewrite app_nil_r. }
  rewrite Hk, Hw, IH. by rewrite <- app_assoc.
Qed.

Lemma plain_command_literal root n ws :
  tree_shape root → (∀ x, x ∈ doc_order root → node_allowed src x = true) →
  n ∈ doc_order root → (∀ x, x ∈ doc_order n → x ∈ doc_order root) → is_command n = true →
  parse_plain_command_from_node src n = Some ws → parse_literal_command_from_node src n = Some ws.
Proof.
  intros Hshape Ha Hn Hsub Hc. unfold parse_plain_command_from_node, parse_literal_command_from_node.
  assert (kind_is "command" n = true) as -> by (by apply andb_true_iff in Hc as [_ ?]).
  destruct (shape_commands root Hshape n Hn Hc) as (before & name & args & Hch & Hbefore & Hname & Hargs).
  assert (Hall : ∀ c, c ∈ named_children n → is_named c = true ∧ ∀ x, x ∈ doc_order c → node_allowed src x = true).
  { intros c [Hcc Hcn]%elem_named_children. split; [done|]. intros x Hx. apply Ha, Hsub.
    by apply (doc_order_children n c). }
  rewrite Hch in *. destruct before as [|x before].
  2: { inversion Hbefore as [|? ? Hx _]; subst. destruct (Hall x) as [Hxn Hxa]; [by left|].
       specialize (Hxa x (doc_order_self x)). unfold node_allowed in Hxa. rewrite Hxn, Hx in Hxa. done. }
  cbn [app] in *. intros Hm. apply mapM_Some in Hm. inversion Hm as [|? w ? ws' Hw Hws]; subst.
  cbn [literal_words]. rewrite Hname.
  destruct (Hall name) as [_ Hna]; [by left|].
  pose proof (plain_name_literal name w Hna Hname Hw) as Hl.
  destruct (head (named_children name)) as [m|]; [|done]. simpl in Hl |- *. rewrite Hl. simpl.
  change (w :: ws') with ([w] ++ ws'). apply literal_words_args.
  rewrite Forall_forall in Hargs. eapply Forall2_in_l; [exact Hws|]. intros c v Hcin Hv.
  split; [by apply Hargs|]. destruct (Hall c) as [Hcn Hca]; [by right|].
  apply plain_word_literal; auto.
Qed.
End Literal.

Lemma visit_named_perm n :
  (∀ m, m ∈ doc_order n → is_named m = false → children m = []) → is_named n = true →
  visit_named n ≡ₚ List.filter is_named (doc_order n).
Proof.
  induction n as [k b e s t cs IH] using node_children_ind. intros Ht Hn. cbn [visit_named doc_order List.filter].
  rewrite Hn. constructor. rewrite concat_reverse_perm.
  assert (Hcs : ∀ c m, c ∈ cs → m ∈ doc_order c → is_named m = false → children m = []).
  { intros c m Hc Hm. apply Ht. by apply (doc_order_children (mkNode k b e s t cs) c). }
  clear Ht Hn. induction IH as [|c cs Hc _ IHcs]; [done|]. cbn [map concat]. rewrite List.filter_app.
  rewrite IHcs by (intros c' m Hc'; apply Hcs; by right). apply Permutation_app_tail.
  destruct (is_named c) eqn:Ec.
  - apply Hc; [|done]. intros m. apply Hcs. by left.
  - assert (children c = []) as Hno by (apply (Hcs c c); [by left|apply doc_order_self|done]).
    destruct c as [k' b' e' s' t' cs']. simpl in Hno. subst cs'. simpl in *. by rewrite Ec.
Qed.

Lemma omap_perm {A B} (f : A → option B) l l' : l ≡ₚ l' → omap f l ≡ₚ omap f l'.
Proof.
  induction 1 as [|x l l' _ IH|x y l|l1 l2 l3 _ IH1 _ IH2]; rewrite ?omap_head; [done|..].
  - destruct (f x); [by constructor|done].
  - destruct (f x), (f y); try done. constructor.
  - by rewrite IH1.
Qed.

Lemma omap_literal_commands src l :
  omap (literal_of src) (List.filter is_named l) = omap (parse_literal_command_from_node src) (List.filter is_command l).
Proof.
  induction l as [|n l IH]; [done|]. unfold is_command at 1. cbn [List.filter].
  destruct (is_named n); simpl andb; [|exact IH]. rewrite omap_head. unfold literal_of at 1.
  destruct (kind_is "command" n) eqn:E; [|exact IH]. rewrite omap_head, IH. done.
Qed.

Lemma mapM_omap {A B} (f g : A → option B) l r :
  mapM f l = Some r → (∀ x y, x ∈ l → f x = Some y → g x = Some y) → omap g l = r.
Proof.
  intros Hm%mapM_Some. induction Hm as [|x y l r Hxy _ IH]; intros Hg; [done|].
  rewrite omap_head, (Hg x y) by (done || by left). f_equal. apply IH. intros x' y' Hx'. apply Hg. by right.
Qed.

Lemma doc_order_trans n m x : m ∈ doc_order n → x ∈ doc_order m → x ∈ doc_order n.
Proof.
  induction n as [k b e s t cs IH] using node_children_ind. cbn [doc_order]. intros Hm Hx.
  apply elem_of_cons in Hm as [->|Hm]; [done|]. right.
  apply list_elem_of_In, in_concat in Hm as (l & Hl & Hm). apply in_map_iff in Hl as (c & <- & Hc).
  apply list_elem_of_In, in_concat. exists (doc_order c). split; [by apply in_map|].
  apply list_elem_of_In. rewrite Forall_forall in IH. apply IH; [by apply list_elem_of_In|by apply list_elem_of_In|done].
Qed.

(** What is known of the trees of the grammar. *)
Definition grammar_ok (try_parse_shell : rstring → option node) : Prop :=
  ∀ script root, try_parse_shell script = Some root →
    tree_shape root ∧ StronglySorted start_lt (commands_in_order root).

(** C34: The commands for which a shell invocation is approved are commands that the
    classifier of dangerous commands sees: when a script is understood as plain commands,
    its literal commands are the same commands, word for word. *)
Theorem plain_commands_are_literal (try_parse_shell : rstring → option node) command cs :
  grammar_ok try_parse_shell → bash_plain_commands try_parse_shell command = Some cs →
  ∃ ls, bash_literal_commands try_parse_shell command = Some ls ∧ ls ≡ₚ cs.
Proof.
  intros Hg. unfold bash_plain_commands, bash_literal_commands, parse_shell_script_into_commands.
  destruct (extract_bash_command command) as [[shell script]|]; [|done]. cbn [mbind option_bind].
  destruct (try_parse_shell script) as [root|] eqn:Et; [|done]. cbn [mbind option_bind].
  destruct (Hg script root Et) as [Hshape Hsort]. rewrite word_only_commands_in_order by done.
  unfold plain_reference. destruct (node_has_error root); [done|].
  destruct (forallb (node_allowed script) (doc_order root)) eqn:Ea; [|done]. intros Hm.
  rewrite literal_loop_spec by (simpl; lia). eexists. split; [done|]. cbn [map concat app]. rewrite app_nil_r.
  assert (Ha : ∀ x, x ∈ doc_order root → node_allowed script x = true).
  { intros x Hx. rewrite forallb_forall in Ea. apply Ea. by apply list_elem_of_In. }
  rewrite (omap_perm _ _ _ (visit_named_perm root (shape_tokens root Hshape) (shape_root root Hshape))).
  rewrite omap_literal_commands. fold (commands_in_order root).
  rewrite (mapM_omap _ (parse_literal_command_from_node script) _ _ Hm); [done|].
  intros n ws Hn. apply list_elem_of_In, filter_In in Hn as [Hn Hc]. apply list_elem_of_In in Hn.
  apply (plain_command_literal script root); try done. intros x. by apply doc_order_trans.
Qed.

(** ** A concrete tree *)
Definition token (k : string) (s e : N) : node := mkNode (str k) false false s e [].
Definition word_at (s e : N) : node := mkNode (str "word") true false s e [].
Definition name_at (s e : N) : node := mkNode (str "command_name") true false s e [word_at s e].
(** [ls -g'*.py' && pwd] *)
Definition demo_script : rstring := str "ls -g'*.py' && pwd".
Definition demo_tree : node :=
  mkNode (str "program") true false 0 18
    [mkNode (str "list") true false 0 18
       [mkNode (str "command") true false 0 11
          [name_at 0 2; mkNode (str "concatenation") true false 3 11
             [word_at 3 5; mkNode (str "raw_string") true false 5 11 []]];
        token "&&" 12 14;
        mkNode (str "command") true false 15 18 [name_at 15 18]]].
Definition demo_parser (s : rstring) : option node := if str_eqb s demo_script then Some demo_tree else None.

Lemma demo_order : StronglySorted start_lt (commands_in_order demo_tree).
Proof. repeat constructor. Qed.

Lemma word_only_commands_in_order_witness :
  try_parse_word_only_commands_sequence demo_tree demo_script =
    Some [[str "ls"; str "-g*.py"]; [str "pwd"]].
Proof. rewrite (word_only_commands_in_order demo_tree demo_script demo_order). vm_compute. reflexivity. Defined.

Lemma demo_shape : tree_shape demo_tree.
Proof.
  split; [done|..].
  - intros n Hn. vm_compute in Hn. repeat (apply elem_of_cons in Hn as [->|Hn]; [done|]). by apply not_elem_of_nil in Hn.
  - intros n Hn. change (doc_order demo_tree) with (doc_order demo_tree) in Hn. vm_compute in Hn.
    repeat (apply elem_of_cons in Hn as [->|Hn]; [try discriminate|]); [..|by apply not_elem_of_nil in Hn].
    all: intros _; eexists [], _, _; split; [vm_compute; reflexivity|]; (split; [constructor|]);
      (split; [vm_compute; reflexivity|]); repeat constructor.
Qed.

Lemma plain_commands_are_literal_witness :
  ∃ ls, bash_literal_commands demo_parser [str "/bin/bash"; str "-lc"; demo_script] = Some ls ∧
    ls ≡ₚ [[str "ls"; str "-g*.py"]; [str "pwd"]].
Proof.
  assert (Hg : grammar_ok demo_parser).
  { intros script root. unfold demo_parser. destruct (str_eqb script demo_script); [|done]. intros [= <-].
    split; [apply demo_shape|apply demo_order]. }
  assert (Hp : bash_plain_commands demo_parser [str "/bin/bash"; str "-lc"; demo_script] =
    Some [[str "ls"; str "-g*.py"]; [str "pwd"]]) by (vm_compute; reflexivity).
  exact (plain_commands_are_literal demo_parser _ _ Hg Hp).
Defined.
