(* ===== verification/AbsolutePath.v ===== *)
(** * Absolute paths

    Models [sofia-rs/utils/absolute-path/src/absolutize.rs] and the constructors of
    [AbsolutePathBuf] in [lib.rs] on Unix, over the components of [std::path].  A path is
    its text; the buffer that is built by pushing components is their list. *)

From stdpp Require Import base list numbers strings.
From S2P Require Import Prelude Machine.

#[local] Set Default Proof Using "Type*".
#[local] Arguments str : simpl never.

(** ** [std::path] on Unix *)
Inductive PathComponent := RootDir | CurDir | ParentDir | Normal (name : rstring).

Definition path_has_root (p : rstring) : bool := starts_with (str "/") p.

(** The component of one piece between separators; [None] for the ones that are skipped. *)
Definition path_piece (piece : rstring) : option PathComponent :=
  if is_empty piece || str_eqb piece (str ".") then None
  else if str_eqb piece (str "..") then Some ParentDir
  else Some (Normal piece).

(** [Path::components]: a [.] counts only in front of a relative path. *)
Definition components (p : rstring) : list PathComponent :=
  let pieces := split_on 47 p in
  let front :=
    if path_has_root p then [RootDir]
    else match pieces with piece :: _ => if str_eqb piece (str ".") then [CurDir] else [] | [] => [] end in
  front ++ omap path_piece pieces.

(** The buffer: whether it is rooted, and its names. *)
Record PathBuf := mkPathBuf { rooted : bool; names : list rstring }.
Definition path_push (c : PathComponent) (b : PathBuf) : PathBuf :=
  match c with
  | RootDir => mkPathBuf true []
  | CurDir => mkPathBuf (rooted b) (names b ++ [str "."])
  | ParentDir => mkPathBuf (rooted b) (names b ++ [str ".."])
  | Normal name => mkPathBuf (rooted b) (names b ++ [name])
  end.
Definition path_pop (b : PathBuf) : PathBuf := mkPathBuf (rooted b) (removelast (names b)).
Definition path_text (b : PathBuf) : rstring := (if rooted b then str "/" else []) ++ join (str "/") (names b).

(** [Path::join]. *)
Definition join_path (base path : rstring) : rstring :=
  if path_has_root path then path
  else if is_empty base || ends_with (str "/") base then base ++ path
  else base ++ str "/" ++ path.

(** ** [absolutize.rs] *)
Definition normalize_step (normalized : PathBuf) (c : PathComponent) : PathBuf :=
  match c with
  | CurDir => normalized
  | ParentDir => path_pop normalized
  | RootDir | Normal _ => path_push c normalized
  end.
Definition normalize_buf (p : rstring) : PathBuf := foldl normalize_step (mkPathBuf false []) (components p).
Definition normalize_path (p : rstring) : rstring :=
  let normalized := path_text (normalize_buf p) in
  if is_empty normalized then str "." else normalized.

Definition path_with_base (path base_path : rstring) : rstring :=
  if path_has_root path then path else join_path base_path path.
Definition absolutize_from (path base_path : rstring) : rstring := normalize_path (path_with_base path base_path).

(** [current_dir] is the result of [std::env::current_dir]. *)
Definition absolutize (current_dir : option rstring) (path : rstring) : option rstring :=
  if path_has_root path then Some (normalize_path path) else absolutize_from path <$> current_dir.

(** ** [AbsolutePathBuf] *)
(** [home] is the home directory of the thread or else of the user. *)
Definition maybe_expand_home_directory (home : option rstring) (path : rstring) : rstring :=
  match strip_prefix (str "~") path, home with
  | Some rest, Some home =>
      if is_empty rest then home
      else match strip_prefix (str "/") rest with
           | Some rest => join_path home (drop_while (N.eqb 47) rest)
           | None => path
           end
  | _, _ => path
  end.

Definition resolve_path_against_base (home : option rstring) (path base_path : rstring) : rstring :=
  absolutize_from (maybe_expand_home_directory home path) base_path.
Definition from_absolute_path (home current_dir : option rstring) (path : rstring) : option rstring :=
  absolutize current_dir (maybe_expand_home_directory home path).
Definition from_absolute_path_checked (home : option rstring) (path : rstring) : option rstring :=
  let expanded := maybe_expand_home_directory home path in
  if path_has_root expanded then Some (absolutize_from expanded (str "/")) else None.

Example normalize_examples :
  normalize_path (str "/path/to/./123/../456") = str "/path/to/456" ∧
  normalize_path (str "/../a//b/") = str "/a/b" ∧
  absolutize_from (str "path/to/123/456") (str "/base") = str "/base/path/to/123/456" ∧
  absolutize_from (str "../x") (str "/base/dir") = str "/base/x" ∧
  normalize_path (str "a/..") = str ".".
Proof. repeat split; reflexivity. Qed.

(** ** Normalized paths *)
(** A name is a component of its own. *)
Definition plain_name (n : rstring) : Prop := (47%N ∉ n) ∧ n ≠ [] ∧ n ≠ str "." ∧ n ≠ str "..".

Lemma piece_component_name piece n : path_piece piece = Some (Normal n) → n = piece ∧ piece ≠ [] ∧ piece ≠ str "." ∧ piece ≠ str "..".
Proof.
  unfold path_piece, str_eqb. destruct piece; [done|]. cbn [is_empty orb].
  repeat case_bool_decide; naive_solver.
Qed.

Lemma piece_component_plain n : plain_name n → path_piece n = Some (Normal n).
Proof.
  intros (_ & Hne & Hdot & Hdots). unfold path_piece, str_eqb. destruct n; [done|]. cbn [is_empty orb].
  by rewrite !bool_decide_eq_false_2.
Qed.

Definition plain_buf (b : PathBuf) : Prop := Forall plain_name (names b).

Definition plain_component (c : PathComponent) : Prop := match c with Normal n => plain_name n | _ => True end.

Lemma components_plain p : Forall plain_component (components p).
Proof.
  unfold components. rewrite Forall_app. split.
  - destruct (path_has_root p); [by repeat constructor|]. destruct (split_on 47 p) as [|piece ?]; [constructor|].
    destruct (str_eqb piece (str ".")); by repeat constructor.
  - rewrite Forall_forall. intros c Hc. apply list_elem_of_omap in Hc as (piece & Hin & Hp).
    destruct c; try done. apply piece_component_name in Hp as (-> & ? & ? & ?). split; [by eapply split_on_elem|done].
Qed.

Lemma removelast_Forall {A} (P : A → Prop) l : Forall P l → Forall P (removelast l).
Proof.
  induction 1 as [|x l Hx Hl IH]; [constructor|]. destruct l; [constructor|]. constructor; [done|exact IH].
Qed.

Lemma normalize_step_plain b c : plain_component c → plain_buf b → plain_buf (normalize_step b c).
Proof.
  unfold plain_buf. destruct c; cbn [normalize_step path_push path_pop names plain_component]; try done.
  - intros _. apply removelast_Forall.
  - intros Hn Hb. apply Forall_app. split; [done|]. by constructor.
Qed.

Lemma normalize_fold_plain cs b : Forall plain_component cs → plain_buf b → plain_buf (foldl normalize_step b cs).
Proof.
  intros Hcs. revert b. induction Hcs as [|c cs Hc Hcs IH]; intros b Hb; [done|].
  apply IH. by apply normalize_step_plain.
Qed.

Lemma normalize_fold_rooted cs b : rooted b = true → rooted (foldl normalize_step b cs) = true.
Proof.
  revert b. induction cs as [|c cs IH]; intros b Hb; [done|]. apply IH. by destruct c.
Qed.

Lemma normalize_buf_ok p : path_has_root p = true → rooted (normalize_buf p) = true ∧ plain_buf (normalize_buf p).
Proof.
  intros Hp. split.
  - unfold normalize_buf, components. rewrite Hp. cbn [app foldl]. by apply normalize_fold_rooted.
  - apply normalize_fold_plain; [apply components_plain|constructor].
Qed.

Lemma omap_plain ns : Forall plain_name ns → omap path_piece ns = map Normal ns.
Proof. induction 1 as [|n ns Hn Hns IH]; [done|]. cbn. by rewrite piece_component_plain, IH. Qed.

Lemma rooted_text_root ns : path_has_root (path_text (mkPathBuf true ns)) = true.
Proof. reflexivity. Qed.

Lemma components_text ns :
  Forall plain_name ns → components (path_text (mkPathBuf true ns)) = RootDir :: map Normal ns.
Proof.
  intros Hns. unfold components. rewrite rooted_text_root. cbn [path_text rooted names app]. f_equal.
  change (str "/" ++ join (str "/") ns) with ([] ++ 47%N :: join [47%N] ns). rewrite split_on_app by apply not_elem_of_nil.
  destruct (decide (ns = [])) as [->|Hne]; [reflexivity|].
  rewrite split_on_join; [by apply (omap_plain ns)|done|]. by eapply Forall_impl; [exact Hns|intros ? []].
Qed.

Lemma normalize_plain_fold ns b :
  foldl normalize_step b (map Normal ns) = mkPathBuf (rooted b) (names b ++ ns).
Proof.
  revert b. induction ns as [|n ns IH]; intros [r l]; cbn [map foldl normalize_step path_push rooted names].
  - by rewrite app_nil_r.
  - rewrite IH. cbn [rooted names]. by rewrite <- app_assoc.
Qed.

(** The text of a rooted buffer of plain names is a fixed point. *)
Lemma normalize_path_text ns :
  Forall plain_name ns → normalize_path (path_text (mkPathBuf true ns)) = path_text (mkPathBuf true ns).
Proof.
  intros Hns. unfold normalize_path, normalize_buf. rewrite components_text by done.
  cbn [foldl normalize_step path_push]. by rewrite normalize_plain_fold.
Qed.

Lemma path_has_root_true p : path_has_root p = true ↔ ∃ r, p = 47%N :: r.
Proof.
  unfold path_has_root. rewrite starts_with_true. change (str "/") with [47%N]. cbn [app]. naive_solver.
Qed.

Lemma path_join_root base path : path_has_root base = true → path_has_root (join_path base path) = true.
Proof.
  intros [r ->]%path_has_root_true. unfold join_path. destruct (path_has_root path) eqn:E; [done|].
  apply path_has_root_true. destruct (_ || _); cbn [app]; eauto.
Qed.

Lemma absolutize_rooted cwd path p :
  (∀ d, cwd = Some d → path_has_root d = true) → absolutize cwd path = Some p →
  ∃ q, path_has_root q = true ∧ p = normalize_path q.
Proof.
  intros Hcwd. unfold absolutize, absolutize_from, path_with_base. destruct (path_has_root path) eqn:E.
  - intros [= <-]. eauto.
  - destruct cwd as [d|]; [|done]. cbn. intros [= <-]. eauto using path_join_root.
Qed.

(** an [AbsolutePathBuf] is in normal form: its components are the root and names none
    of which is empty, [.] or [..], and normalizing it again changes nothing. *)
Theorem absolute_paths_are_normal home cwd path p :
  (∀ d, cwd = Some d → path_has_root d = true) → from_absolute_path home cwd path = Some p →
  ∃ ns, Forall plain_name ns ∧ components p = RootDir :: map Normal ns ∧ normalize_path p = p.
Proof.
  intros Hcwd H. apply absolutize_rooted in H as (q & Hq & ->); [|done].
  destruct (normalize_buf_ok q Hq) as [Hr Hp]. exists (names (normalize_buf q)). split; [done|].
  assert (normalize_path q = path_text (mkPathBuf true (names (normalize_buf q)))) as ->.
  { unfold normalize_path. destruct (normalize_buf q) as [r ns]. cbn in Hr. by subst r. }
  split; [by apply components_text|by apply normalize_path_text].
Qed.

Lemma absolute_paths_are_normal_witness :
  ∃ ns, Forall plain_name ns ∧ components (str "/home/me/b") = RootDir :: map Normal ns ∧
        normalize_path (str "/home/me/b") = str "/home/me/b".
Proof.
  assert (from_absolute_path (Some (str "/home/me")) (Some (str "/work")) (str "~/a/../b") = Some (str "/home/me/b"))
    as H by (vm_compute; reflexivity).
  refine (absolute_paths_are_normal (Some (str "/home/me")) (Some (str "/work")) (str "~/a/../b") _ _ H).
  intros d [= <-]. vm_compute. reflexivity.
Defined.
