(* ===== verification/IpAddr.v ===== *)
(** * IP addresses

    [std::net] as far as the network proxy uses it: the parser of [IpAddr] and the
    classification of addresses; and the functions of
    [sofia-rs/network-proxy/src/policy.rs] that decide which addresses are not public, with
    the theorem that relates their masks to ranges of addresses. *)

From stdpp Require Import base list numbers strings.
From S2P Require Import Prelude Machine.

#[local] Arguments str : simpl never.

(** An IPv4 address is its 32 bit number, an IPv6 address the list of its eight segments. *)
Definition Ipv4Addr : Type := N.
Definition Ipv6Addr : Type := list N.
Inductive IpAddr := V4 (ip : Ipv4Addr) | V6 (ip : Ipv6Addr).
#[global] Instance IpAddr_eq_dec : EqDecision IpAddr.
Proof. unfold Ipv4Addr, Ipv6Addr. solve_decision. Defined.

(** ** The parser of the standard library *)
(** [char::to_digit]. *)
Definition to_digit (radix c : N) : option N :=
  let d := (if is_ascii_digit c then c - 48
            else let l := to_ascii_lowercase_char c in
                 if (97 <=? l) && (l <=? 122) then l - 87 else radix)%N in
  if (d <? radix)%N then Some d else None.

(** The digits in front: their value, their number and the rest. *)
Fixpoint read_digits (radix value : N) (count : nat) (s : rstring) : N * nat * rstring :=
  match s with
  | [] => (value, count, [])
  | c :: s' =>
      match to_digit radix c with
      | Some d => read_digits radix (value * radix + d)%N (S count) s'
      | None => (value, count, s)
      end
  end.

(** [read_number]; [max] is the greatest value of the integer type. *)
Definition read_number (radix : N) (max_digits : nat) (allow_zero_prefix : bool) (max : N) (s : rstring)
    : option (N * rstring) :=
  let '(value, count, rest) := read_digits radix 0 0 s in
  if (max_digits <? count) || (count =? 0) then None
  else if negb allow_zero_prefix && starts_with (str "0") s && (1 <? count) then None
  else if (value <=? max)%N then Some (value, rest) else None.

(** [read_separator]: nothing before the first item. *)
Definition read_separator {A} (sep : N) (index : nat) (inner : rstring → option (A * rstring)) (s : rstring)
    : option (A * rstring) :=
  if index =? 0 then inner s else rest ← strip_prefix [sep] s; inner rest.

Definition read_ipv4_addr (s : rstring) : option (Ipv4Addr * rstring) :=
  let octet index := read_separator 46 index (read_number 10 3 false 255) in
  '(a, s) ← octet 0 s;
  '(b, s) ← octet 1 s;
  '(c, s) ← octet 2 s;
  '(d, s) ← octet 3 s;
  Some (((a * 256 + b) * 256 + c) * 256 + d, s)%N.

(** [read_groups]: at most [limit] groups from index [i] on, the flag says that an IPv4
    address ended them. *)
Fixpoint read_groups (limit i : nat) (s : rstring) : list N * bool * rstring :=
  match limit with
  | O => ([], false, s)
  | S limit' =>
      let v4 := if 1 <=? limit' then read_separator 58 i read_ipv4_addr s else None in
      match v4 with
      | Some (ip, rest) => ([ip / 65536; ip mod 65536]%N, true, rest)
      | None =>
          match read_separator 58 i (read_number 16 4 true 65535) s with
          | Some (g, rest) => let '(gs, v4, rest) := read_groups limit' (S i) rest in (g :: gs, v4, rest)
          | None => ([], false, s)
          end
      end
  end.

Definition read_ipv6_addr (s : rstring) : option (Ipv6Addr * rstring) :=
  let '(front, front_ipv4, s) := read_groups 8 0 s in
  if length front =? 8 then Some (front, s)
  else if front_ipv4 then None
  else
    s ← strip_prefix (str "::") s;
    let '(back, _, s) := read_groups (8 - (length front + 1)) 0 s in
    Some (front ++ replicate (8 - length front - length back) 0%N ++ back, s).

(** [str::parse::<IpAddr>()]; the whole text has to be used. *)
Definition parse_ip (s : rstring) : option IpAddr :=
  let addr :=
    match read_ipv4_addr s with
    | Some (ip, rest) => Some (V4 ip, rest)
    | None => '(ip, rest) ← read_ipv6_addr s; Some (V6 ip, rest)
    end in
  '(ip, rest) ← addr;
  if is_empty rest then Some ip else None.

(** ** Classification *)
Definition octet (i : N) (ip : Ipv4Addr) : N := (N.land (N.shiftr ip (8 * (3 - i))) 255)%N.

Definition v4_is_unspecified (ip : Ipv4Addr) : bool := (ip =? 0)%N.
Definition v4_is_loopback (ip : Ipv4Addr) : bool := (octet 0 ip =? 127)%N.
Definition v4_is_private (ip : Ipv4Addr) : bool :=
  ((octet 0 ip =? 10) || ((octet 0 ip =? 172) && (16 <=? octet 1 ip) && (octet 1 ip <=? 31)) ||
   ((octet 0 ip =? 192) && (octet 1 ip =? 168)))%N.
Definition v4_is_link_local (ip : Ipv4Addr) : bool := ((octet 0 ip =? 169) && (octet 1 ip =? 254))%N.
Definition v4_is_multicast (ip : Ipv4Addr) : bool := ((224 <=? octet 0 ip) && (octet 0 ip <=? 239))%N.
Definition v4_is_broadcast (ip : Ipv4Addr) : bool := (ip =? 0xffffffff)%N.

Definition segment (i : nat) (ip : Ipv6Addr) : N := nth i ip 0%N.
Definition v6_is_loopback (ip : Ipv6Addr) : bool := bool_decide (ip = [0; 0; 0; 0; 0; 0; 0; 1]%N).
Definition v6_is_unspecified (ip : Ipv6Addr) : bool := bool_decide (ip = [0; 0; 0; 0; 0; 0; 0; 0]%N).
Definition v6_is_multicast (ip : Ipv6Addr) : bool := (N.shiftr (segment 0 ip) 8 =? 255)%N.
Definition v6_is_unique_local (ip : Ipv6Addr) : bool := (N.land (segment 0 ip) 0xfe00 =? 0xfc00)%N.
Definition v6_is_unicast_link_local (ip : Ipv6Addr) : bool := (N.land (segment 0 ip) 0xffc0 =? 0xfe80)%N.
(** [to_ipv4]: of a compatible or a mapped address. *)
Definition to_ipv4 (ip : Ipv6Addr) : option Ipv4Addr :=
  match ip with
  | [0; 0; 0; 0; 0; f; ab; cd]%N => if ((f =? 0) || (f =? 0xffff))%N then Some (ab * 65536 + cd)%N else None
  | _ => None
  end.

Definition ip_is_loopback (ip : IpAddr) : bool :=
  match ip with V4 ip => v4_is_loopback ip | V6 ip => v6_is_loopback ip end.

(** ** [policy.rs] *)
Definition ipv4_of (a b c d : N) : Ipv4Addr := (((a * 256 + b) * 256 + c) * 256 + d)%N.

Definition ipv4_in_cidr (ip base : Ipv4Addr) (prefix : N) : bool :=
  let mask := (if prefix =? 0 then 0 else N.land (N.shiftl 0xffffffff (32 - prefix)) 0xffffffff)%N in
  (N.land ip mask =? N.land base mask)%N.

Definition is_non_public_ipv4 (ip : Ipv4Addr) : bool :=
  v4_is_loopback ip || v4_is_private ip || v4_is_link_local ip || v4_is_unspecified ip ||
  v4_is_multicast ip || v4_is_broadcast ip ||
  ipv4_in_cidr ip (ipv4_of 0 0 0 0) 8 || ipv4_in_cidr ip (ipv4_of 100 64 0 0) 10 ||
  ipv4_in_cidr ip (ipv4_of 192 0 0 0) 24 || ipv4_in_cidr ip (ipv4_of 192 0 2 0) 24 ||
  ipv4_in_cidr ip (ipv4_of 198 18 0 0) 15 || ipv4_in_cidr ip (ipv4_of 198 51 100 0) 24 ||
  ipv4_in_cidr ip (ipv4_of 203 0 113 0) 24 || ipv4_in_cidr ip (ipv4_of 240 0 0 0) 4.

Definition is_non_public_ipv6 (ip : Ipv6Addr) : bool :=
  match to_ipv4 ip with
  | Some v4 => is_non_public_ipv4 v4 || v6_is_loopback ip
  | None =>
      v6_is_loopback ip || v6_is_unspecified ip || v6_is_multicast ip || v6_is_unique_local ip ||
      v6_is_unicast_link_local ip
  end.

Definition is_non_public_ip (ip : IpAddr) : bool :=
  match ip with V4 ip => is_non_public_ipv4 ip | V6 ip => is_non_public_ipv6 ip end.

Example parse_ip_examples :
  parse_ip (str "127.0.0.1") = Some (V4 (ipv4_of 127 0 0 1)) ∧ parse_ip (str "127.0.0.01") = None ∧
  parse_ip (str "::1") = Some (V6 [0; 0; 0; 0; 0; 0; 0; 1]%N) ∧
  parse_ip (str "::ffff:10.0.0.1") = Some (V6 [0; 0; 0; 0; 0; 65535; 2560; 1]%N) ∧
  parse_ip (str "fe80::1:2:3:4:5:6:7") = None ∧ parse_ip (str "1.2.3.4.") = None ∧
  parse_ip (str "2001:db8::8a2e:370:7334") = Some (V6 [8193; 3512; 0; 0; 0; 35374; 880; 29492]%N).
Proof. by vm_compute. Qed.

(** ** Ranges *)
Definition ip_in_range (lo hi ip : N) : bool := ((lo <=? ip) && (ip <=? hi))%N.

(** The non-public IPv4 ranges of RFC 6890 and RFC 1112. *)
Definition NON_PUBLIC_IPV4 : list (N * N) := [
  (ipv4_of 0 0 0 0, ipv4_of 0 255 255 255); (ipv4_of 10 0 0 0, ipv4_of 10 255 255 255);
  (ipv4_of 100 64 0 0, ipv4_of 100 127 255 255); (ipv4_of 127 0 0 0, ipv4_of 127 255 255 255);
  (ipv4_of 169 254 0 0, ipv4_of 169 254 255 255); (ipv4_of 172 16 0 0, ipv4_of 172 31 255 255);
  (ipv4_of 192 0 0 0, ipv4_of 192 0 0 255); (ipv4_of 192 0 2 0, ipv4_of 192 0 2 255);
  (ipv4_of 192 168 0 0, ipv4_of 192 168 255 255); (ipv4_of 198 18 0 0, ipv4_of 198 19 255 255);
  (ipv4_of 198 51 100 0, ipv4_of 198 51 100 255); (ipv4_of 203 0 113 0, ipv4_of 203 0 113 255);
  (ipv4_of 224 0 0 0, ipv4_of 255 255 255 255)].

Definition non_public_range (ip : Ipv4Addr) : bool :=
  existsb (λ r, ip_in_range (fst r) (snd r) ip) NON_PUBLIC_IPV4.

Lemma octet_div i ip : octet i ip = ((ip / 2 ^ (8 * (3 - i))) mod 256)%N.
Proof. unfold octet. rewrite N.shiftr_div_pow2. change 255%N with (N.ones 8). by rewrite N.land_ones. Qed.

(** A mask of the upper bits compares the numbers without their lower bits. *)
Lemma mask_high k ip :
  (k ≤ 32)%N → (ip < 2 ^ 32)%N →
  N.land ip (N.land (N.shiftl 0xffffffff k) 0xffffffff) = (ip / 2 ^ k * 2 ^ k)%N.
Proof.
  intros Hk Hip. rewrite <- N.shiftr_div_pow2, <- N.shiftl_mul_pow2. apply N.bits_inj. intros i.
  change 0xffffffff%N with (N.ones 32). rewrite !N.land_spec.
  destruct (N.lt_ge_cases i k) as [Hi|Hi].
  - rewrite !N.shiftl_spec_low by done. by rewrite andb_false_r.
  - rewrite !N.shiftl_spec_high' by done. rewrite N.shiftr_spec'. replace (i - k + k)%N with i by lia.
    destruct (N.lt_ge_cases i 32) as [H32|H32].
    + rewrite !N.ones_spec_low by lia. by rewrite !andb_true_r.
    + assert (N.testbit ip i = false) as ->; [|done].
      destruct (N.eq_dec ip 0%N) as [->|Hn]; [apply N.bits_0|]. apply N.bits_above_log2.
      apply N.lt_le_trans with 32%N; [|done]. apply N.log2_lt_pow2; lia.
Qed.

Lemma cidr_range k c ip :
  (k ≤ 32)%N → (k ≠ 32)%N → (ip < 2 ^ 32)%N → (c * 2 ^ k < 2 ^ 32)%N →
  ipv4_in_cidr ip (c * 2 ^ k)%N (32 - k)%N = ip_in_range (c * 2 ^ k)%N (c * 2 ^ k + (2 ^ k - 1))%N ip.
Proof.
  intros Hk Hk' Hip Hc. unfold ipv4_in_cidr. destruct (N.eqb_spec (32 - k) 0) as [|_]; [lia|].
  replace (32 - (32 - k))%N with k by lia. rewrite !mask_high by done.
  rewrite N.div_mul by (apply N.pow_nonzero; done).
  assert (0 < 2 ^ k)%N as Hpos by (apply N.neq_0_lt_0, N.pow_nonzero; done).
  apply eq_true_iff_eq. unfold ip_in_range. rewrite andb_true_iff, N.eqb_eq, !N.leb_le.
  pose proof (N.div_mod ip (2 ^ k) ltac:(lia)) as Hd. pose proof (N.mod_lt ip (2 ^ k) ltac:(lia)) as Hm.
  clear Hip Hc Hk Hk'. revert Hpos Hd Hm. generalize (2 ^ k)%N. intros b Hpos Hd Hm.
  generalize dependent (ip mod b)%N. generalize (ip / b)%N. intros q r Hd Hm. split.
  - intros Heq. lia.
  - intros [H1 H2]. assert (q = c) as ->; [|done].
    destruct (N.lt_trichotomy q c) as [Hlt|[->|Hlt]]; [exfalso|done|exfalso]; nia.
Qed.

Lemma cidr_is k c ip base top prefix :
  base = (c * 2 ^ k)%N → top = (c * 2 ^ k + (2 ^ k - 1))%N → prefix = (32 - k)%N → (k < 32)%N →
  (ip < 2 ^ 32)%N → (base < 2 ^ 32)%N → ipv4_in_cidr ip base prefix = ip_in_range base top ip.
Proof. intros -> -> -> Hk Hip Hb. apply cidr_range; [lia|lia|done|done]. Qed.

Ltac Zify.zify_post_hook ::= Z.to_euclidean_division_equations.

Lemma std_ranges ip :
  (ip < 2 ^ 32)%N →
  v4_is_loopback ip = ip_in_range (ipv4_of 127 0 0 0) (ipv4_of 127 255 255 255) ip ∧
  v4_is_private ip = ip_in_range (ipv4_of 10 0 0 0) (ipv4_of 10 255 255 255) ip ||
    ip_in_range (ipv4_of 172 16 0 0) (ipv4_of 172 31 255 255) ip ||
    ip_in_range (ipv4_of 192 168 0 0) (ipv4_of 192 168 255 255) ip ∧
  v4_is_link_local ip = ip_in_range (ipv4_of 169 254 0 0) (ipv4_of 169 254 255 255) ip ∧
  v4_is_multicast ip = ip_in_range (ipv4_of 224 0 0 0) (ipv4_of 239 255 255 255) ip.
Proof.
  intros Hip.
  unfold v4_is_loopback, v4_is_private, v4_is_link_local, v4_is_multicast. rewrite !octet_div.
  change (8 * (3 - 0))%N with 24%N. change (8 * (3 - 1))%N with 16%N.
  unfold ip_in_range, ipv4_of. change (2 ^ 24)%N with 16777216%N. change (2 ^ 16)%N with 65536%N.
  change (2 ^ 32)%N with 4294967296%N in Hip.
  split_and!; apply eq_true_iff_eq;
    rewrite ?orb_true_iff, ?andb_true_iff, ?N.eqb_eq, ?N.leb_le; lia.
Qed.

(** The tests of the standard library and the masks of the code classify an IPv4
    address as non-public exactly when it lies in one of the reserved ranges. *)
Theorem non_public_ipv4_ranges ip :
  (ip < 2 ^ 32)%N → is_non_public_ipv4 ip = non_public_range ip.
Proof.
  intros Hip. destruct (std_ranges ip Hip) as (Hl & Hp & Hk & Hm).
  unfold is_non_public_ipv4, non_public_range. rewrite Hl, Hp, Hk, Hm.
  rewrite (cidr_is 24%N 0%N ip (ipv4_of 0 0 0 0) (ipv4_of 0 255 255 255) 8) by done.
  rewrite (cidr_is 22%N 401%N ip (ipv4_of 100 64 0 0) (ipv4_of 100 127 255 255) 10) by done.
  rewrite (cidr_is 8%N 12582912%N ip (ipv4_of 192 0 0 0) (ipv4_of 192 0 0 255) 24) by done.
  rewrite (cidr_is 8%N 12582914%N ip (ipv4_of 192 0 2 0) (ipv4_of 192 0 2 255) 24) by done.
  rewrite (cidr_is 17%N 25353%N ip (ipv4_of 198 18 0 0) (ipv4_of 198 19 255 255) 15) by done.
  rewrite (cidr_is 8%N 12989284%N ip (ipv4_of 198 51 100 0) (ipv4_of 198 51 100 255) 24) by done.
  rewrite (cidr_is 8%N 13303921%N ip (ipv4_of 203 0 113 0) (ipv4_of 203 0 113 255) 24) by done.
  rewrite (cidr_is 28%N 15%N ip (ipv4_of 240 0 0 0) (ipv4_of 255 255 255 255) 4) by done.
  unfold v4_is_unspecified, v4_is_broadcast.
  apply eq_true_iff_eq. cbn [existsb NON_PUBLIC_IPV4 fst snd]. unfold ip_in_range.
  rewrite ?orb_true_iff, ?andb_true_iff, ?N.eqb_eq, ?N.leb_le.
  change (2 ^ 32)%N with 4294967296%N in Hip. unfold ipv4_of. lia.
Qed.

Lemma non_public_ipv4_ranges_witness : is_non_public_ipv4 (ipv4_of 100 64 0 1) = non_public_range (ipv4_of 100 64 0 1).
Proof.
  assert ((ipv4_of 100 64 0 1 < 2 ^ 32)%N) as H by (apply N.ltb_lt; vm_compute; reflexivity).
  exact (non_public_ipv4_ranges _ H).
Defined.
