(* ===== verification/NetPolicy.v ===== *)
(** * Hosts and domain patterns of the network proxy

    Models [sofia-rs/network-proxy/src/policy.rs] (with [IpAddr.v]): the normalization of
    hosts, the compilation of domain patterns and the comparison of patterns.  Globs
    (globset) and the parser of URL hosts are interfaces. *)

From stdpp Require Import base list numbers strings.
From S2P Require Import Prelude Machine IpAddr.

#[local] Set Default Proof Using "Type*".
#[local] Arguments str : simpl never.

(** [str::split_once] with a text. *)
Definition split_once_str (pat s : rstring) : option (rstring * rstring) :=
  i ← find_sub pat s; Some (take i s, drop (i + length pat) s).

Definition char_count (c : N) (s : rstring) : nat := length (List.filter (N.eqb c) s).

(** ** Hosts *)
Definition is_ip (host : rstring) : bool := bool_decide (is_Some (parse_ip host)).

Definition unscoped_ip_literal (host : rstring) : option rstring :=
  '(ip, _) ← split_once 37 host; if is_ip ip then Some ip else None.

(** One delimiter of the loop. *)
Definition scoped_literal (delimiter host : rstring) : option rstring :=
  '(ip, scope) ← split_once_str delimiter host;
  if is_ip ip then Some (ip ++ str "%" ++ scope) else None.

Definition normalize_ip_literal (host : rstring) : option rstring :=
  if is_ip host then Some host
  else match scoped_literal (str "%25") host with
       | Some h => Some h
       | None => scoped_literal (str "%") host
       end.

Definition normalize_dns_host_or_ip_literal (host : rstring) : rstring :=
  let host := trim_end_matches 46 (to_ascii_lowercase host) in
  match normalize_ip_literal host with Some ip => ip | None => host end.

(** [normalize_host] of the proxy. *)
Definition proxy_normalize_host (host : rstring) : rstring :=
  let host := trim host in
  match (if starts_with (str "[") host then find_sub (str "]") host else None) with
  | Some end_ => normalize_dns_host_or_ip_literal (drop 1 (take end_ host))
  | None =>
      if char_count 58 host =? 1
      then normalize_dns_host_or_ip_literal (default [] (head (split_on 58 host)))
      else normalize_dns_host_or_ip_literal host
  end.

(** [Host::parse]; a [Host] is its normalized text. *)
Definition host_parse (input : rstring) : option rstring :=
  let normalized := proxy_normalize_host input in
  if is_empty normalized then None else Some normalized.

Definition unscoped_or_self (host : rstring) : rstring := default host (unscoped_ip_literal host).

Definition is_loopback_host (host : rstring) : bool :=
  let host := unscoped_or_self host in
  if str_eqb host (str "localhost") then true
  else match parse_ip host with Some ip => ip_is_loopback ip | None => false end.

(** ** Patterns *)
Definition normalize_pattern (pattern : rstring) : rstring :=
  let pattern := trim pattern in
  if str_eqb pattern (str "*") then str "*"
  else
    match strip_prefix (str "**.") pattern with
    | Some domain => str "**." ++ proxy_normalize_host domain
    | None =>
        match strip_prefix (str "*.") pattern with
        | Some domain => str "*." ++ proxy_normalize_host domain
        | None => proxy_normalize_host pattern
        end
    end.

Inductive DomainPattern :=
  | ApexAndSubdomains (domain : rstring)
  | SubdomainsOnly (domain : rstring)
  | Exact (domain : rstring).

Definition parse_domain (domain : rstring) (build : rstring → DomainPattern) : DomainPattern :=
  let domain := trim domain in
  if is_empty domain then Exact [] else build domain.

(** [DomainPattern::parse]. *)
Definition domain_pattern_parse (input : rstring) : DomainPattern :=
  let input := trim input in
  if is_empty input then Exact []
  else
    match strip_prefix (str "**.") input with
    | Some domain => parse_domain domain ApexAndSubdomains
    | None =>
        match strip_prefix (str "*.") input with
        | Some domain => parse_domain domain SubdomainsOnly
        | None => Exact input
        end
    end.

Definition expand_domain_pattern (pattern : rstring) : list rstring :=
  match domain_pattern_parse pattern with
  | Exact domain => [domain]
  | SubdomainsOnly domain => [str "?*." ++ domain]
  | ApexAndSubdomains domain => [domain; str "?*." ++ domain]
  end.

Definition is_global_wildcard_domain_pattern (pattern : rstring) : bool :=
  existsb (str_eqb (str "*")) (expand_domain_pattern (normalize_pattern pattern)).

(** ** Comparison of patterns *)
Definition normalize_domain (domain : rstring) : rstring := to_ascii_lowercase (trim_end_matches 46 domain).
Definition domain_eq (left right : rstring) : bool := str_eqb (normalize_domain left) (normalize_domain right).
Definition is_subdomain_or_equal (child parent : rstring) : bool :=
  let child := normalize_domain child in
  let parent := normalize_domain parent in
  if str_eqb child parent then true else ends_with (str "." ++ parent) child.
Definition is_strict_subdomain (child parent : rstring) : bool :=
  let child := normalize_domain child in
  let parent := normalize_domain parent in
  negb (str_eqb child parent) && ends_with (str "." ++ parent) child.

Definition allows (self candidate : DomainPattern) : bool :=
  match self with
  | Exact domain => match candidate with Exact candidate => domain_eq candidate domain | _ => false end
  | SubdomainsOnly domain =>
      match candidate with
      | Exact candidate => is_strict_subdomain candidate domain
      | SubdomainsOnly candidate => is_subdomain_or_equal candidate domain
      | ApexAndSubdomains candidate => is_strict_subdomain candidate domain
      end
  | ApexAndSubdomains domain =>
      match candidate with
      | Exact candidate | SubdomainsOnly candidate | ApexAndSubdomains candidate =>
          is_subdomain_or_equal candidate domain
      end
  end.

(** The crates: [globset], case-insensitive, and [url::Host]. *)
Class NetCrates := {
  (** [GlobBuilder::build] succeeds. *)
  glob_ok : rstring → bool;
  (** [GlobSetBuilder::build] succeeds. *)
  globset_ok : list rstring → bool;
  glob_matches : rstring → rstring → bool;
  (** [UrlHost::parse], printed again. *)
  url_host : rstring → option rstring;
}.

Section Crates.
Context {net_crates : NetCrates}.

(** A set of globs matches what one of them matches. *)
Definition GlobSet : Type := list rstring.
Definition globset_is_match (set : GlobSet) (host : rstring) : bool := existsb (λ g, glob_matches g host) set.

Inductive GlobalWildcard := AllowGlobal | RejectGlobal.

(** The loop over the candidates of a pattern; [seen] and the builder. *)
Fixpoint add_candidates (candidates seen builder : list rstring) : option (list rstring * list rstring) :=
  match candidates with
  | [] => Some (seen, builder)
  | candidate :: rest =>
      if existsb (str_eqb candidate) seen then add_candidates rest seen builder
      else if glob_ok candidate then add_candidates rest (candidate :: seen) (builder ++ [candidate])
      else None
  end.

Fixpoint compile_loop (policy : GlobalWildcard) (patterns seen builder : list rstring) : option (list rstring) :=
  match patterns with
  | [] => Some builder
  | pattern :: rest =>
      if (match policy with RejectGlobal => true | AllowGlobal => false end) && is_global_wildcard_domain_pattern pattern
      then None
      else
        '(seen, builder) ← add_candidates (expand_domain_pattern (normalize_pattern pattern)) seen builder;
        compile_loop policy rest seen builder
  end.

Definition compile_globset_with_policy (patterns : list rstring) (policy : GlobalWildcard) : option GlobSet :=
  builder ← compile_loop policy patterns [] []; if globset_ok builder then Some builder else None.
Definition compile_allowlist_globset (patterns : list rstring) : option GlobSet :=
  compile_globset_with_policy patterns AllowGlobal.
Definition compile_denylist_globset (patterns : list rstring) : option GlobSet :=
  compile_globset_with_policy patterns RejectGlobal.

Definition parse_domain_for_constraints (domain : rstring) : rstring :=
  let domain := trim_end_matches 46 (trim domain) in
  if is_empty domain then []
  else
    let host :=
      if starts_with (str "[") domain && ends_with (str "]") domain then drop 1 (take (length domain - 1) domain)
      else domain in
    if existsb (λ c, existsb (N.eqb c) (str "*?%")) host then domain
    else default [] (url_host host).

Definition parse_for_constraints (input : rstring) : DomainPattern :=
  let input := trim input in
  if is_empty input then Exact []
  else
    match strip_prefix (str "**.") input with
    | Some domain => ApexAndSubdomains (parse_domain_for_constraints domain)
    | None =>
        match strip_prefix (str "*.") input with
        | Some domain => SubdomainsOnly (parse_domain_for_constraints domain)
        | None => Exact (parse_domain_for_constraints input)
        end
    end.
End Crates.

(** ** The comparison of domains *)
Lemma subdomain_iff child parent :
  is_subdomain_or_equal child parent = true ↔
  normalize_domain child = normalize_domain parent ∨
  ∃ s, normalize_domain child = s ++ str "." ++ normalize_domain parent.
Proof.
  unfold is_subdomain_or_equal, str_eqb. destruct (bool_decide _) eqn:E.
  - apply bool_decide_eq_true in E. naive_solver.
  - apply bool_decide_eq_false in E. rewrite ends_with_true. naive_solver.
Qed.

Lemma strict_subdomain_iff child parent :
  is_strict_subdomain child parent = true ↔ ∃ s, normalize_domain child = s ++ str "." ++ normalize_domain parent.
Proof.
  unfold is_strict_subdomain, str_eqb. rewrite andb_true_iff, negb_true_iff, bool_decide_eq_false, ends_with_true.
  split; [naive_solver|]. intros [s Hs]. split; [|by exists s]. intros Heq. rewrite Heq in Hs.
  apply (f_equal length) in Hs. rewrite !length_app in Hs. change (length (str ".")) with 1 in Hs. lia.
Qed.

(** A name below a name that is below a domain is below the domain. *)
Lemma below_trans (host child parent s s' : rstring) :
  host = s' ++ str "." ++ child → child = s ++ str "." ++ parent →
  host = (s' ++ str "." ++ s) ++ str "." ++ parent.
Proof. intros -> ->. by rewrite <- !app_assoc. Qed.

(** ** Compiled patterns *)
Section Compiled.
Context {net_crates : NetCrates}.

(** The globs of a pattern. *)
Abbreviation pattern_globs p := (expand_domain_pattern (normalize_pattern p)).

Lemma add_candidates_elem candidates seen builder seen' builder' :
  (∀ g, g ∈ seen ↔ g ∈ builder) → add_candidates candidates seen builder = Some (seen', builder') →
  (∀ g, g ∈ seen' ↔ g ∈ builder') ∧ ∀ g, g ∈ builder' ↔ g ∈ builder ∨ g ∈ candidates.
Proof.
  revert seen builder. induction candidates as [|c cs IH]; intros seen builder Hs; cbn [add_candidates].
  { intros [= <- <-]. split; [done|]. intros g. rewrite elem_of_nil. tauto. }
  destruct (existsb (str_eqb c) seen) eqn:E.
  - intros H. destruct (IH _ _ Hs H) as [? Hb]. split; [done|]. intros g. rewrite Hb, elem_of_cons.
    apply existsb_exists in E as (x & Hx%list_elem_of_In & Heq%bool_decide_eq_true). subst x. naive_solver.
  - destruct (glob_ok c); [|done]. intros H. destruct (IH (c :: seen) (builder ++ [c])) with (2 := H) as [? Hb].
    { intros g. rewrite elem_of_cons, elem_of_app, list_elem_of_singleton, Hs. tauto. }
    split; [done|]. intros g. rewrite Hb, elem_of_cons, elem_of_app, list_elem_of_singleton. tauto.
Qed.

Lemma compile_loop_elem policy patterns seen builder set :
  (∀ g, g ∈ seen ↔ g ∈ builder) → compile_loop policy patterns seen builder = Some set →
  ∀ g, g ∈ set ↔ g ∈ builder ∨ ∃ p, p ∈ patterns ∧ g ∈ pattern_globs p.
Proof.
  revert seen builder. induction patterns as [|p ps IH]; intros seen builder Hs; cbn [compile_loop].
  { intros [= <-] g. setoid_rewrite elem_of_nil. naive_solver. }
  destruct (_ && _); [done|]. destruct (add_candidates _ _ _) as [[seen' builder']|] eqn:E; [|done]. cbn.
  destruct (add_candidates_elem _ _ _ _ _ Hs E) as [Hs' Hb]. intros H g. rewrite (IH _ _ Hs' H g), Hb.
  setoid_rewrite elem_of_cons. naive_solver.
Qed.

Lemma compiled_match patterns set host :
  compile_allowlist_globset patterns = Some set →
  globset_is_match set host = true ↔ ∃ p g, p ∈ patterns ∧ g ∈ pattern_globs p ∧ glob_matches g host = true.
Proof.
  unfold compile_allowlist_globset, compile_globset_with_policy.
  destruct (compile_loop _ _ _ _) as [b|] eqn:E; [|done]. cbn. destruct (globset_ok b); [|done]. intros [= <-].
  unfold globset_is_match. rewrite existsb_exists. setoid_rewrite <- list_elem_of_In.
  setoid_rewrite (compile_loop_elem _ _ [] [] _ (λ _, reflexivity _) E). setoid_rewrite elem_of_nil. naive_solver.
Qed.
End Compiled.

(** ** Plain patterns

    An optional [*.] or [**.] before a name of letters, digits, hyphens and dots that does
    not start with a dot and that the parser of URL hosts leaves as it is, up to case and
    dots at its end.  (It rewrites a name such as [1.2.3], which it reads as an address.) *)
Definition domain_char (c : N) : bool :=
  is_ascii_digit c || ((97 <=? to_ascii_lowercase_char c) && (to_ascii_lowercase_char c <=? 122))%N ||
  (c =? 45)%N || (c =? 46)%N.
Definition wildcard_prefixes : list rstring := [[]; str "*."; str "**."].

Section Plain.
Context {net_crates : NetCrates}.

Definition plain_domain (d : rstring) : Prop :=
  d ≠ [] ∧ Forall (λ c, domain_char c = true) d ∧ head d ≠ Some 46%N ∧
  url_host (trim_end_matches 46 d) = Some (normalize_domain d).
Definition plain_pattern (p : rstring) : Prop :=
  ∃ pre d, trim p = pre ++ d ∧ pre ∈ wildcard_prefixes ∧ plain_domain d.

(** What the source relies on of the globs that it builds, on hosts in ASCII. *)
Class GlobLaws := {
  literal_glob d h : Forall (λ c, domain_char c = true) d → Forall (λ c, c < 128)%N h →
    glob_matches d h = true ↔ to_ascii_lowercase h = to_ascii_lowercase d;
  subdomain_glob d h : Forall (λ c, domain_char c = true) d → Forall (λ c, c < 128)%N h →
    glob_matches (str "?*." ++ d) h = true ↔
    ∃ s, s ≠ [] ∧ to_ascii_lowercase h = s ++ str "." ++ to_ascii_lowercase d;
}.

Lemma domain_char_range c : domain_char c = true → (45 <= c <= 122)%N ∧ c ≠ 47%N ∧ c ≠ 58%N ∧ c ≠ 63%N ∧ c ≠ 91%N ∧ c ≠ 93%N.
Proof.
  unfold domain_char, is_ascii_digit, to_ascii_lowercase_char. rewrite !orb_true_iff, !andb_true_iff, !N.leb_le, !N.eqb_eq.
  destruct (N.leb_spec 65 c), (N.leb_spec c 90); cbn [andb]; lia.
Qed.

Lemma domain_char_lower c : domain_char c = true → domain_char (to_ascii_lowercase_char c) = true.
Proof.
  unfold domain_char. rewrite !orb_true_iff, !andb_true_iff, !N.leb_le, !N.eqb_eq. unfold is_ascii_digit, to_ascii_lowercase_char.
  rewrite !andb_true_iff, !N.leb_le.
  destruct (N.leb_spec 65 c), (N.leb_spec c 90); cbn [andb]; repeat case_match; rewrite ?andb_true_iff, ?andb_false_iff, ?N.leb_le, ?N.leb_gt in *; lia.
Qed.

Lemma lower_idemp s : to_ascii_lowercase (to_ascii_lowercase s) = to_ascii_lowercase s.
Proof.
  unfold to_ascii_lowercase. rewrite map_map. apply map_ext. intros c. unfold to_ascii_lowercase_char.
  destruct (N.leb_spec 65 c), (N.leb_spec c 90); cbn [andb]; repeat case_match; rewrite ?andb_true_iff, ?N.leb_le in *; lia.
Qed.

Lemma drop_while_map (P : N → bool) (f : N → N) s :
  (∀ c, P (f c) = P c) → drop_while P (map f s) = map f (drop_while P s).
Proof. intros Hf. induction s as [|c s IH]; [done|]. cbn. rewrite Hf. by destruct (P c). Qed.

Lemma lower_dot c : (46 =? to_ascii_lowercase_char c)%N = (46 =? c)%N.
Proof.
  unfold to_ascii_lowercase_char. destruct (N.leb_spec 65 c), (N.leb_spec c 90); cbn [andb]; try done.
  destruct (N.eqb_spec 46 (c + 32)), (N.eqb_spec 46 c); lia.
Qed.

Lemma trim_dots_lower s : trim_end_matches 46 (to_ascii_lowercase s) = normalize_domain s.
Proof.
  unfold normalize_domain, trim_end_matches, drop_end_while, to_ascii_lowercase.
  change (map to_ascii_lowercase_char s) with (to_ascii_lowercase_char <$> s). rewrite <- fmap_reverse.
  etrans; [apply (f_equal reverse), drop_while_map, lower_dot|]. symmetry. apply fmap_reverse.
Qed.

Lemma normalize_domain_idemp s : normalize_domain (normalize_domain s) = normalize_domain s.
Proof.
  rewrite <- trim_dots_lower at 1. unfold normalize_domain at 1. rewrite lower_idemp.
  change (to_ascii_lowercase (trim_end_matches 46 s)) with (normalize_domain s).
  rewrite <- trim_dots_lower. apply drop_end_while_idemp.
Qed.

(** Domains as both parsers leave them. *)
Definition settled (d : rstring) : Prop :=
  d ≠ [] ∧ Forall (λ c, domain_char c = true) d ∧ head d ≠ Some 46%N ∧ normalize_domain d = d ∧ to_ascii_lowercase d = d.

Lemma plain_settled d : plain_domain d → settled (normalize_domain d).
Proof.
  intros (Hne & Hc & Hh & _). destruct (drop_end_while_prefix (N.eqb 46) d) as (t & Ht & Hdots).
  fold (trim_end_matches 46 d) in Ht.
  assert (Hne' : trim_end_matches 46 d ≠ []).
  { intros E. rewrite E in Ht. simpl in Ht. subst t. destruct d as [|c d]; [done|].
    apply Forall_cons in Hdots as [<-%N.eqb_eq _]. done. }
  split_and!.
  - unfold normalize_domain. by destruct (trim_end_matches 46 d).
  - unfold normalize_domain, to_ascii_lowercase. rewrite Forall_map.
    rewrite Ht in Hc. apply Forall_app in Hc as [Hc _]. eapply Forall_impl; [exact Hc|]. apply domain_char_lower.
  - unfold normalize_domain. destruct (trim_end_matches 46 d) as [|c u] eqn:E; [done|]. rewrite Ht in Hh. cbn in Hh |- *.
    intros [= Hx]. pose proof (lower_dot c) as Hl. rewrite Hx in Hl. symmetry in Hl. apply N.eqb_eq in Hl. congruence.
  - apply normalize_domain_idemp.
  - apply lower_idemp.
Qed.

(** Nothing of a name of domain characters is white space, a bracket, a colon or a per cent sign. *)
Lemma plain_trim d : Forall (λ c, domain_char c = true) d → trim d = d.
Proof.
  intros Hc. assert (Hw : ∀ c, c ∈ d → is_whitespace c = false).
  { intros c Hin. rewrite Forall_forall in Hc. apply Hc, domain_char_range in Hin. unfold is_whitespace.
    apply not_true_iff_false. rewrite !orb_true_iff, !andb_true_iff, !N.leb_le, !N.eqb_eq. lia. }
  apply trim_id.
  - destruct d as [|c d]; [done|]. apply Hw. left.
  - unfold no_trailing_ws. destruct (last d) as [c|] eqn:E; [|done]. apply Hw. apply last_Some in E as [l ->].
    apply elem_of_app. right. left.
Qed.
Lemma plain_absent c d : Forall (λ c, domain_char c = true) d → domain_char c = false → c ∉ d.
Proof. rewrite Forall_forall. intros Hd Hc Hin%Hd. congruence. Qed.

Lemma find_sub_absent c pat s : c ∉ s → find_sub (c :: pat) s = None.
Proof.
  induction s as [|x s IH]; [done|]. intros [Hne Hs]%not_elem_of_cons. cbn [find_sub]. unfold starts_with.
  cbn [strip_prefix]. destruct (N.eqb_spec c x); [done|]. by rewrite IH.
Qed.

Lemma char_count_absent c s : c ∉ s → char_count c s = 0.
Proof.
  unfold char_count. induction s as [|x s IH]; [done|]. intros [Hne Hs]%not_elem_of_cons. cbn.
  destruct (N.eqb_spec c x); [done|]. by apply IH.
Qed.

Lemma starts_with_absent c p s : c ∉ s → starts_with (c :: p) s = false.
Proof.
  intros Hs. apply not_true_iff_false. rewrite starts_with_true. intros [r ->]. apply Hs. left.
Qed.

Lemma plain_ip_literal d :
  Forall (λ c, domain_char c = true) d → match normalize_ip_literal d with Some ip => ip | None => d end = d.
Proof.
  intros Hd. unfold normalize_ip_literal. destruct (is_ip d); [done|].
  assert (H37 : 37%N ∉ d) by by apply plain_absent.
  unfold scoped_literal, split_once_str. change (str "%25") with (37%N :: str "25"). change (str "%") with (37%N :: str "").
  by rewrite !find_sub_absent.
Qed.

Lemma plain_normalize d : Forall (λ c, domain_char c = true) d → proxy_normalize_host d = normalize_domain d.
Proof.
  intros Hd. unfold proxy_normalize_host. rewrite plain_trim by done.
  change (str "[") with (91%N :: str ""). rewrite starts_with_absent by by apply plain_absent.
  rewrite char_count_absent by by apply plain_absent. cbn [Nat.eqb].
  unfold normalize_dns_host_or_ip_literal. rewrite trim_dots_lower. apply plain_ip_literal.
  destruct (drop_end_while_prefix (N.eqb 46) d) as (t & Ht & _). rewrite Ht in Hd. apply Forall_app in Hd as [Hd _].
  unfold normalize_domain, to_ascii_lowercase. rewrite Forall_map. eapply Forall_impl; [exact Hd|]. apply domain_char_lower.
Qed.

Lemma plain_constraint d : plain_domain d → parse_domain_for_constraints d = normalize_domain d.
Proof.
  intros Hd. pose proof (plain_settled d Hd) as (Hne' & _). destruct Hd as (Hne & Hc & Hh & Hu).
  unfold parse_domain_for_constraints. rewrite plain_trim by done.
  destruct (drop_end_while_prefix (N.eqb 46) d) as (t & Ht & _). fold (trim_end_matches 46 d) in Ht.
  rewrite Ht in Hc. apply Forall_app in Hc as [Hc _]. unfold normalize_domain in Hne'.
  destruct (is_empty (trim_end_matches 46 d)) eqn:Ee; [by destruct (trim_end_matches 46 d)|].
  change (str "[") with (91%N :: str ""). rewrite starts_with_absent by by apply plain_absent. cbn [andb].
  destruct (existsb _ _) eqn:Ex; [|by rewrite Hu].
  apply existsb_exists in Ex as (c & Hin%list_elem_of_In & Hb). rewrite Forall_forall in Hc. apply Hc, domain_char_range in Hin.
  apply existsb_exists in Hb as (x & Hx & Heq%N.eqb_eq). subst x. vm_compute in Hx.
  destruct Hx as [<-|[<-|[<-|[]]]]; lia.
Qed.

Lemma plain_no_wildcard s : Forall (λ c, domain_char c = true) s → strip_prefix (str "*.") s = None ∧
  strip_prefix (str "**.") s = None ∧ str_eqb s (str "*") = false.
Proof.
  intros Hs. assert (Hn : 42%N ∉ s) by by apply plain_absent.
  assert (Hp : ∀ t, strip_prefix (42%N :: t) s = None) by (intros t; apply strip_prefix_None; intros r ->; apply Hn; left).
  split_and!; [apply (Hp (str "."))|apply (Hp (str "*."))|].
  apply bool_decide_eq_false. intros ->. apply Hn. vm_compute. left.
Qed.

Lemma plain_trim_app pre d :
  Forall (λ c, domain_char c = true) d → d ≠ [] → no_leading_ws (pre ++ d) → trim (pre ++ d) = pre ++ d.
Proof.
  intros Hd Hne Hl. apply trim_id; [done|]. apply no_trailing_ws_app; [done|].
  rewrite <- (plain_trim d Hd). apply no_trailing_ws_trim_end.
Qed.

Lemma is_empty_false {A} (l : list A) : l ≠ [] → is_empty l = false.
Proof. by destruct l. Qed.

(** On plain patterns the parser behind the globs and the parser behind the comparison agree. *)
Lemma plain_parse p :
  plain_pattern p →
  domain_pattern_parse (normalize_pattern p) = parse_for_constraints p ∧
  ∃ d, settled d ∧ parse_for_constraints p ∈ [Exact d; SubdomainsOnly d; ApexAndSubdomains d].
Proof.
  intros (pre & d & Hp & Hpre & Hd). pose proof (plain_settled d Hd) as Hs.
  pose proof (plain_constraint d Hd) as Hcon. destruct Hd as (Hne & Hc & _).
  pose proof (plain_normalize d Hc) as Hnorm. pose proof Hs as (HDne & HDc & _).
  destruct (plain_no_wildcard d Hc) as (Hw1 & Hw2 & Hw3). destruct (plain_no_wildcard _ HDc) as (HW1 & HW2 & HW3).
  unfold normalize_pattern, parse_for_constraints. rewrite Hp. unfold domain_pattern_parse, parse_domain.
  apply elem_of_cons in Hpre as [-> | Hpre]; [|apply elem_of_cons in Hpre as [-> | ->%list_elem_of_singleton] ].
  - cbn [app].
    rewrite Hw1, Hw2, Hw3, Hnorm, Hcon, plain_trim, HW1, HW2, !is_empty_false by done.
    split; [done|]. eexists. split; [exact Hs|]. left.
  - change (strip_prefix (str "**.") (str "*." ++ d)) with (@None rstring). rewrite !strip_prefix_app.
    change (str_eqb (str "*." ++ d) (str "*")) with false. cbn iota. rewrite Hnorm, Hcon, plain_trim_app by done.
    change (strip_prefix (str "**.") (str "*." ++ normalize_domain d)) with (@None rstring). rewrite strip_prefix_app, plain_trim by done.
    rewrite !is_empty_false by done. split; [done|]. eexists. split; [exact Hs|]. right. left.
  - rewrite !strip_prefix_app. change (str_eqb (str "**." ++ d) (str "*")) with false. cbn iota.
    rewrite Hnorm, Hcon, plain_trim_app by done. rewrite strip_prefix_app, plain_trim by done.
    rewrite !is_empty_false by done. split; [done|]. eexists. split; [exact Hs|]. do 2 right. left.
Qed.

(** The hosts of the globs of a pattern over a settled domain. *)
Context {laws : GlobLaws}.

Definition reaches (q : DomainPattern) (h : rstring) : Prop :=
  let below d := ∃ s, s ≠ [] ∧ h = s ++ str "." ++ d in
  match q with
  | Exact d => h = d
  | SubdomainsOnly d => below d
  | ApexAndSubdomains d => h = d ∨ below d
  end.

Lemma plain_reaches p h :
  plain_pattern p → Forall (λ c, c < 128)%N h →
  (∃ g, g ∈ expand_domain_pattern (normalize_pattern p) ∧ glob_matches g h = true) ↔
  reaches (parse_for_constraints p) (to_ascii_lowercase h).
Proof.
  intros Hp Hh. destruct (plain_parse p Hp) as (Heq & d & (_ & Hc & _ & _ & Hl) & Hq).
  unfold expand_domain_pattern. rewrite Heq.
  assert (Hlit : glob_matches d h = true ↔ to_ascii_lowercase h = d) by (rewrite literal_glob by done; by rewrite Hl).
  assert (Hsub : glob_matches (str "?*." ++ d) h = true ↔ ∃ s, s ≠ [] ∧ to_ascii_lowercase h = s ++ str "." ++ d)
    by (rewrite subdomain_glob by done; by rewrite Hl).
  apply elem_of_cons in Hq as [-> | Hq]; [|apply elem_of_cons in Hq as [-> | ->%list_elem_of_singleton] ]; cbn [reaches].
  - rewrite <- Hlit. setoid_rewrite list_elem_of_singleton. naive_solver.
  - rewrite <- Hsub. setoid_rewrite list_elem_of_singleton. naive_solver.
  - rewrite <- Hlit, <- Hsub. setoid_rewrite elem_of_cons. setoid_rewrite list_elem_of_singleton. naive_solver.
Qed.

(** A settled domain below another one has a name in front of the dot. *)
Lemma below_settled (c d s : rstring) : settled c → c = s ++ str "." ++ d → s ≠ [].
Proof. intros (_ & _ & Hh & _) ->. by destruct s. Qed.

(** A plain pattern reaches no host that a pattern which allows it does not reach. *)
Lemma allows_reaches p q h :
  plain_pattern p → plain_pattern q → allows (parse_for_constraints p) (parse_for_constraints q) = true →
  reaches (parse_for_constraints q) h → reaches (parse_for_constraints p) h.
Proof.
  intros Hp Hq. destruct (plain_parse p Hp) as (_ & d & Hd & Hpd). destruct (plain_parse q Hq) as (_ & c & Hc & Hqc).
  assert (Hback : ∀ s s', s ≠ [] → c = s' ++ str "." ++ d → h = s ++ str "." ++ c → ∃ t, t ≠ [] ∧ h = t ++ str "." ++ d).
  { intros s s' Hs E ->. exists (s ++ str "." ++ s'). split; [by destruct s|]. rewrite E. by rewrite <- !app_assoc. }
  pose proof Hc as (_ & _ & _ & Hcn & _). pose proof Hd as (_ & _ & _ & Hdn & _).
  assert (Heq : domain_eq c d = true → c = d) by (unfold domain_eq; rewrite Hcn, Hdn; by intros ?%bool_decide_eq_true).
  assert (Hlow : is_subdomain_or_equal c d = true → c = d ∨ ∃ s, c = s ++ str "." ++ d) by (rewrite subdomain_iff; by rewrite Hcn, Hdn).
  assert (Hstr : is_strict_subdomain c d = true → ∃ s, c = s ++ str "." ++ d) by (rewrite strict_subdomain_iff; by rewrite Hcn, Hdn).
  assert (Hne : ∀ s, c = s ++ str "." ++ d → s ≠ []) by (intros s; by apply below_settled).
  clear Hcn Hdn. revert Hpd Hqc. rewrite !elem_of_cons, !elem_of_nil.
  intros [-> | [-> | [-> | []] ] ] [-> | [-> | [-> | []] ] ]; cbn [allows reaches]; try done; intros Ha;
    first [apply Heq in Ha as <- | apply Hlow in Ha as [<- | [s' E] ] | apply Hstr in Ha as [s' E] ];
    try specialize (Hne _ E); try done; intros Hr;
    try destruct Hr as [-> | Hr]; try destruct Hr as (s & Hs & Hr);
    try (match type of Hr with h = c => rewrite E in Hr end); eauto 6.
Qed.
End Plain.
