(* ===== verification/NetConfig.v ===== *)
(** * Configuration of the network proxy

    Models [sofia-rs/network-proxy/src/config.rs]: the settings with their domain and socket
    permissions, the operations on them, and how the addresses the proxy listens on are
    computed.  The data of the hooks is that of [mitm_hook.rs].  [url::Url] is an interface;
    maps that are ordered in the code are [gmap]s whose keys are sorted where the order is
    visible; messages of errors are constructors. *)

From stdpp Require Import base list numbers strings gmap.
From S2P Require Import Prelude Machine AbsolutePath IpAddr NetPolicy.

#[local] Set Default Proof Using "Type*".
#[local] Arguments str : simpl never.

(** ** Hooks, as they are configured *)
Record InjectedHeaderConfig := mkInjectedHeaderConfig {
  ih_name : rstring; ih_secret_env_var : option rstring; ih_secret_file : option rstring; ih_prefix : option rstring }.
Record MitmHookActionsConfig := mkMitmHookActionsConfig {
  ac_strip_request_headers : list rstring; ac_inject_request_headers : list InjectedHeaderConfig }.
(** A body is the text of its JSON value. *)
Record MitmHookMatchConfig := mkMitmHookMatchConfig {
  mc_methods : list rstring;
  mc_path_prefixes : list rstring;
  mc_query : gmap rstring (list rstring);
  mc_headers : gmap rstring (list rstring);
  mc_body : option rstring }.
Record MitmHookConfig := mkMitmHookConfig {
  hc_host : rstring; hc_matcher : MitmHookMatchConfig; hc_actions : MitmHookActionsConfig }.
#[global] Instance InjectedHeaderConfig_eq_dec : EqDecision InjectedHeaderConfig.
Proof. solve_decision. Defined.
#[global] Instance MitmHookActionsConfig_eq_dec : EqDecision MitmHookActionsConfig.
Proof. solve_decision. Defined.
#[global] Instance MitmHookMatchConfig_eq_dec : EqDecision MitmHookMatchConfig.
Proof. solve_decision. Defined.
#[global] Instance MitmHookConfig_eq_dec : EqDecision MitmHookConfig.
Proof. solve_decision. Defined.

(** ** Permissions *)
Inductive NetworkDomainPermission := PermNone | PermAllow | PermDeny.
#[global] Instance NetworkDomainPermission_eq_dec : EqDecision NetworkDomainPermission.
Proof. solve_decision. Defined.

(** The order of the variants. *)
Definition permission_rank (p : NetworkDomainPermission) : nat :=
  match p with PermNone => 0 | PermAllow => 1 | PermDeny => 2 end.

Record NetworkDomainPermissionEntry := mkEntry { pattern : rstring; permission : NetworkDomainPermission }.
#[global] Instance NetworkDomainPermissionEntry_eq_dec : EqDecision NetworkDomainPermissionEntry.
Proof. solve_decision. Defined.
Definition NetworkDomainPermissions : Type := list NetworkDomainPermissionEntry.

(** The loop of [effective_entries]: the patterns in the order of their first entries, and
    the strictest permission of each. *)
Fixpoint effective_loop (entries : NetworkDomainPermissions) (order : list rstring)
    (perms : gmap rstring NetworkDomainPermission) : list rstring * gmap rstring NetworkDomainPermission :=
  match entries with
  | [] => (order, perms)
  | entry :: rest =>
      let order := if bool_decide (is_Some (perms !! pattern entry)) then order else order ++ [pattern entry] in
      let permission_ := default (permission entry) (perms !! pattern entry) in
      let permission_ :=
        if permission_rank permission_ <? permission_rank (permission entry) then permission entry else permission_ in
      effective_loop rest order (<[pattern entry := permission_]> perms)
  end.

(** The permissions in that order; each is taken out of the map. *)
Fixpoint take_effective (order : list rstring) (perms : gmap rstring NetworkDomainPermission)
    : NetworkDomainPermissions :=
  match order with
  | [] => []
  | p :: rest =>
      match perms !! p with
      | Some permission_ => mkEntry p permission_ :: take_effective rest (delete p perms)
      | None => take_effective rest perms
      end
  end.

Definition effective_entries (entries : NetworkDomainPermissions) : NetworkDomainPermissions :=
  let '(order, perms) := effective_loop entries [] ∅ in take_effective order perms.

Inductive NetworkUnixSocketPermission := SocketAllow | SocketDeny.
#[global] Instance NetworkUnixSocketPermission_eq_dec : EqDecision NetworkUnixSocketPermission.
Proof. solve_decision. Defined.
(** [NetworkUnixSocketPermissions]. *)
Notation NetworkUnixSocketPermissions := (gmap rstring NetworkUnixSocketPermission).

(** ** Settings *)
Inductive NetworkMode := Limited | Full.
#[global] Instance NetworkMode_eq_dec : EqDecision NetworkMode.
Proof. solve_decision. Defined.

Definition allows_method (self : NetworkMode) (method : rstring) : bool :=
  match self with
  | Full => true
  | Limited => existsb (str_eqb method) [str "GET"; str "HEAD"; str "OPTIONS"]
  end.

Record NetworkProxyConfig := mkConfig {
  enabled : bool;
  proxy_url : rstring;
  enable_socks5 : bool;
  socks_url : rstring;
  enable_socks5_udp : bool;
  allow_upstream_proxy : bool;
  dangerously_allow_non_loopback_proxy : bool;
  dangerously_allow_all_unix_sockets : bool;
  mode : NetworkMode;
  domains : option NetworkDomainPermissions;
  unix_sockets : option NetworkUnixSocketPermissions;
  allow_local_binding : bool;
  mitm : bool;
  credential_broker : bool;
  credential_broker_openai_host : option rstring;
  dangerously_allow_plaintext_credential_injection : bool;
  mitm_hooks : list MitmHookConfig }.
#[global] Instance NetworkProxyConfig_eq_dec : EqDecision NetworkProxyConfig.
Proof.
  unfold NetworkDomainPermissions. solve_decision.
Defined.

Definition default_proxy_url : rstring := str "http://127.0.0.1:3128".
Definition default_socks_url : rstring := str "http://127.0.0.1:8081".

Definition config_default : NetworkProxyConfig :=
  mkConfig false default_proxy_url true default_socks_url true true false false Full None None false false false None
    false [].

(** Assignments to fields. *)
Definition set_enabled (b : bool) (c : NetworkProxyConfig) : NetworkProxyConfig :=
  let 'mkConfig _ u s su sd up nl au m d us lb mi cb oh pi hs := c in mkConfig b u s su sd up nl au m d us lb mi cb oh pi hs.
Definition with_mode (m : NetworkMode) (c : NetworkProxyConfig) : NetworkProxyConfig :=
  let 'mkConfig e u s su sd up nl au _ d us lb mi cb oh pi hs := c in mkConfig e u s su sd up nl au m d us lb mi cb oh pi hs.
Definition set_domains (d : option NetworkDomainPermissions) (c : NetworkProxyConfig) : NetworkProxyConfig :=
  let 'mkConfig e u s su sd up nl au m _ us lb mi cb oh pi hs := c in mkConfig e u s su sd up nl au m d us lb mi cb oh pi hs.
Definition set_unix_sockets (us : option NetworkUnixSocketPermissions) (c : NetworkProxyConfig) : NetworkProxyConfig :=
  let 'mkConfig e u s su sd up nl au m d _ lb mi cb oh pi hs := c in mkConfig e u s su sd up nl au m d us lb mi cb oh pi hs.
Definition set_mitm (b : bool) (c : NetworkProxyConfig) : NetworkProxyConfig :=
  let 'mkConfig e u s su sd up nl au m d us lb _ cb oh pi hs := c in mkConfig e u s su sd up nl au m d us lb b cb oh pi hs.
Definition set_credential_broker (b : bool) (c : NetworkProxyConfig) : NetworkProxyConfig :=
  let 'mkConfig e u s su sd up nl au m d us lb mi _ oh pi hs := c in mkConfig e u s su sd up nl au m d us lb mi b oh pi hs.
Definition set_openai_host (oh : option rstring) (c : NetworkProxyConfig) : NetworkProxyConfig :=
  let 'mkConfig e u s su sd up nl au m d us lb mi cb _ pi hs := c in mkConfig e u s su sd up nl au m d us lb mi cb oh pi hs.
Definition set_flags (up all lb : bool) (c : NetworkProxyConfig) : NetworkProxyConfig :=
  let 'mkConfig e u s su sd _ nl _ m d us _ mi cb oh pi hs := c in mkConfig e u s su sd up nl all m d us lb mi cb oh pi hs.

Definition set_credential_broker_enabled (enabled : bool) (c : NetworkProxyConfig) : NetworkProxyConfig :=
  let c := set_credential_broker enabled c in set_mitm (mitm c || enabled) c.

(** [Some] of a list that is not empty. *)
Definition non_empty_list {A} (l : list A) : option (list A) := if is_empty l then None else Some l.

Definition has_permission (p : NetworkDomainPermission) (e : NetworkDomainPermissionEntry) : bool :=
  bool_decide (permission e = p).

Definition domain_entries (p : NetworkDomainPermission) (c : NetworkProxyConfig) : option (list rstring) :=
  entries ← domains c;
  non_empty_list (map pattern (List.filter (has_permission p) (effective_entries entries))).
Definition allowed_domains : NetworkProxyConfig → option (list rstring) := domain_entries PermAllow.
Definition denied_domains : NetworkProxyConfig → option (list rstring) := domain_entries PermDeny.

(** The entries of an ordered map. *)
Definition btree_entries {A} (m : gmap rstring A) : list (rstring * A) :=
  sort_by (λ a b, str_leb a.1 b.1) (map_to_list m).

Definition allow_unix_sockets (c : NetworkProxyConfig) : list rstring :=
  match unix_sockets c with
  | Some entries => map fst (List.filter (λ e, bool_decide (e.2 = SocketAllow)) (btree_entries entries))
  | None => []
  end.

Fixpoint push_entries (entries : list rstring) (p : NetworkDomainPermission) (l : NetworkDomainPermissions)
    : NetworkDomainPermissions :=
  match entries with
  | [] => l
  | entry :: rest =>
      push_entries rest p
        (if existsb (λ e, str_eqb (pattern e) entry && has_permission p e) l then l else l ++ [mkEntry entry p])
  end.

Definition set_domain_entries (entries : list rstring) (p : NetworkDomainPermission) (c : NetworkProxyConfig)
    : NetworkProxyConfig :=
  let l := List.filter (λ e, negb (has_permission p e)) (default [] (domains c)) in
  set_domains (non_empty_list (push_entries entries p l)) c.
Definition set_allowed_domains (l : list rstring) : NetworkProxyConfig → NetworkProxyConfig :=
  set_domain_entries l PermAllow.
Definition set_denied_domains (l : list rstring) : NetworkProxyConfig → NetworkProxyConfig :=
  set_domain_entries l PermDeny.

Definition upsert_domain_permission (host : rstring) (p : NetworkDomainPermission) (normalize : rstring → rstring)
    (c : NetworkProxyConfig) : NetworkProxyConfig :=
  let normalized_host := normalize host in
  let l := List.filter (λ e, negb (str_eqb (normalize (pattern e)) normalized_host)) (default [] (domains c)) in
  set_domains (non_empty_list (l ++ [mkEntry host p])) c.

Definition non_empty_map {A} (m : gmap rstring A) : option (gmap rstring A) :=
  if bool_decide (m = ∅) then None else Some m.

Definition set_unix_socket_entries (entries : list rstring) (p : NetworkUnixSocketPermission) (c : NetworkProxyConfig)
    : NetworkProxyConfig :=
  let m := filter (λ e, e.2 ≠ p) (default ∅ (unix_sockets c)) in
  set_unix_sockets (non_empty_map (foldl (λ m e, <[e := p]> m) m entries)) c.
Definition set_allow_unix_sockets (l : list rstring) : NetworkProxyConfig → NetworkProxyConfig :=
  set_unix_socket_entries l SocketAllow.

(** ** Addresses *)
Record SocketAddr := mkSocketAddr { sa_ip : IpAddr; sa_port : N }.
Definition loopback_v4 : IpAddr := V4 (ipv4_of 127 0 0 1).

Definition clamp_non_loopback (addr : SocketAddr) (allow_non_loopback : bool) : SocketAddr :=
  if ip_is_loopback (sa_ip addr) then addr
  else if allow_non_loopback then addr
  else mkSocketAddr loopback_v4 (sa_port addr).

Definition clamp_bind_addrs (http_addr socks_addr : SocketAddr) (cfg : NetworkProxyConfig) : SocketAddr * SocketAddr :=
  let http_addr := clamp_non_loopback http_addr (dangerously_allow_non_loopback_proxy cfg) in
  let socks_addr := clamp_non_loopback socks_addr (dangerously_allow_non_loopback_proxy cfg) in
  if is_empty (allow_unix_sockets cfg) && negb (dangerously_allow_all_unix_sockets cfg) then (http_addr, socks_addr)
  else (mkSocketAddr loopback_v4 (sa_port http_addr), mkSocketAddr loopback_v4 (sa_port socks_addr)).

Record RuntimeConfig := mkRuntimeConfig { http_addr : SocketAddr; socks_addr : SocketAddr }.

(** Errors; the text of a message is determined by its constructor. *)
Inductive ConfigError :=
  | ExpectedAbsolutePath (path : rstring)
  | InvalidAllowUnixSocket (index : nat) (cause : ConfigError)
  | MissingHost (address : rstring)
  | InvalidProxyUrl (url : rstring) (cause : ConfigError)
  | InvalidSocksUrl (url : rstring) (cause : ConfigError)
  | ProxyPortNotFixed
  | SocksPortNotFixed
  | NormalizePath (path : rstring).

(** What the process sees: the home directory and the working directory. *)
Class HostEnv := { env_home : option rstring; env_current_dir : option rstring }.

(** [url::Url]. *)
Record Url := mkUrl {
  scheme : rstring; username : rstring; password : option rstring; host_str : option rstring; url_port : option N }.
Class UrlCrate := url_parse : rstring → option Url.

(** [str::parse::<u16>]. *)
Fixpoint decimal (acc : N) (s : rstring) : option N :=
  match s with
  | [] => Some acc
  | c :: s' => if is_ascii_digit c then decimal (acc * 10 + (c - 48))%N s' else None
  end.
Definition parse_u16 (s : rstring) : option N :=
  let digits := default s (strip_prefix (str "+") s) in
  if is_empty digits then None
  else n ← decimal 0 digits; if (n <=? U16_MAX)%N then Some n else None.

Definition ascii_case_eq (a b : rstring) : bool := str_eqb (to_ascii_lowercase a) (to_ascii_lowercase b).

Record SocketAddressParts := mkParts { p_host : rstring; p_port : N }.

Definition parse_host_port_fallback (input : rstring) (default_port : N) : result ConfigError SocketAddressParts :=
  let without_scheme := match split_once_str (str "://") input with Some (_, rest) => rest | None => input end in
  let host_port := default without_scheme (head (split_on 47 without_scheme)) in
  let host_port := match rsplit_once 64 host_port with Some (_, rest) => rest | None => host_port end in
  match (if starts_with (str "[") host_port then find_sub (str "]") host_port else None) with
  | Some end_ =>
      let host := drop 1 (take end_ host_port) in
      let port := default default_port (rest ← strip_prefix (str ":") (drop (end_ + 1) host_port); parse_u16 rest) in
      if is_empty host then Err (MissingHost input) else Ok (mkParts host port)
  | None =>
      match (if char_count 58 host_port =? 1 then rsplit_once 58 host_port else None) with
      | Some (host, port) =>
          if is_empty host then Err (MissingHost input) else Ok (mkParts host (default default_port (parse_u16 port)))
      | None => if is_empty host_port then Err (MissingHost input) else Ok (mkParts host_port default_port)
      end
  end.

Definition is_bracket (c : N) : bool := ((c =? 91) || (c =? 93))%N.

Section Env.
Context {host_env : HostEnv} {url_crate : UrlCrate}.

Definition trusted_credential_broker_host (base_url : rstring) : option rstring :=
  url ← url_parse base_url;
  if str_eqb (scheme url) (str "https") && is_empty (username url) && bool_decide (password url = None)
  then proxy_normalize_host <$> host_str url else None.

Definition set_credential_broker_openai_base_url (base_url : option rstring) (c : NetworkProxyConfig)
    : NetworkProxyConfig :=
  set_openai_host (base_url ≫= trusted_credential_broker_host) c.

Inductive ValidatedUnixSocketPath := Native (path : rstring) | UnixStyleAbsolute (path : rstring).

Definition unix_style_parse (value : rstring) : option rstring :=
  if starts_with (str "/") value then Some value else None.

(** [ValidatedUnixSocketPath::parse]. *)
Definition socket_path_parse (socket_path : rstring) : result ConfigError ValidatedUnixSocketPath :=
  if path_has_root socket_path
  then path ← ok_or (from_absolute_path env_home env_current_dir socket_path) (NormalizePath socket_path); Ok (Native path)
  else match unix_style_parse socket_path with
       | Some path => Ok (UnixStyleAbsolute path)
       | None => Err (ExpectedAbsolutePath socket_path)
       end.

Fixpoint validate_socket_paths (index : nat) (paths : list rstring) : result ConfigError unit :=
  match paths with
  | [] => Ok tt
  | p :: rest =>
      _ ← map_err (InvalidAllowUnixSocket index) (socket_path_parse p); validate_socket_paths (S index) rest
  end.
Definition validate_unix_socket_allowlist_paths (cfg : NetworkProxyConfig) : result ConfigError unit :=
  validate_socket_paths 0 (allow_unix_sockets cfg).

Definition parse_host_port (url : rstring) (default_port : N) : result ConfigError SocketAddressParts :=
  let trimmed := trim url in
  if is_empty trimmed then Err (MissingHost url)
  else if (match parse_ip trimmed with Some (V6 _) => true | _ => false end) && negb (starts_with (str "[") trimmed)
  then Ok (mkParts trimmed default_port)
  else
    let candidate := if contains (str "://") trimmed then trimmed else str "http://" ++ trimmed in
    match (parsed ← url_parse candidate; host ← host_str parsed; Some (host, url_port parsed)) with
    | Some (host, port) =>
        let host := drop_end_while is_bracket (drop_while is_bracket host) in
        if is_empty host then Err (MissingHost url) else Ok (mkParts host (default default_port port))
    | None => parse_host_port_fallback trimmed default_port
    end.

Definition resolve_addr (url : rstring) (default_port : N) : result ConfigError SocketAddr :=
  addr_parts ← parse_host_port url default_port;
  let host := if ascii_case_eq (p_host addr_parts) (str "localhost") then str "127.0.0.1" else p_host addr_parts in
  match parse_ip host with
  | Some ip => Ok (mkSocketAddr ip (p_port addr_parts))
  | None => Ok (mkSocketAddr loopback_v4 (p_port addr_parts))
  end.

Definition resolve_runtime (cfg : NetworkProxyConfig) : result ConfigError RuntimeConfig :=
  _ ← validate_unix_socket_allowlist_paths cfg;
  http_addr ← map_err (InvalidProxyUrl (proxy_url cfg)) (resolve_addr (proxy_url cfg) 3128);
  socks_addr ← map_err (InvalidSocksUrl (socks_url cfg)) (resolve_addr (socks_url cfg) 8081);
  let '(http_addr, socks_addr) := clamp_bind_addrs http_addr socks_addr cfg in
  Ok (mkRuntimeConfig http_addr socks_addr).

Definition managed_proxy_ports (cfg : NetworkProxyConfig) : result ConfigError (list N) :=
  runtime ← resolve_runtime cfg;
  if (sa_port (http_addr runtime) =? 0)%N then Err ProxyPortNotFixed
  else
    ports ← (if enable_socks5 cfg
             then if (sa_port (socks_addr runtime) =? 0)%N then Err SocksPortNotFixed
                  else Ok [sa_port (http_addr runtime); sa_port (socks_addr runtime)]
             else Ok [sa_port (http_addr runtime)]);
    Ok (dedup (sort_by N.leb ports)).

Definition format_host_and_port (host : rstring) (port : N) : rstring :=
  if contains (str ":") host then str "[" ++ host ++ str "]:" ++ dec port else host ++ str ":" ++ dec port.

Definition host_and_port_from_network_addr (value : rstring) (default_port : N) : rstring :=
  let trimmed := trim value in
  if is_empty trimmed then str "<missing>"
  else match parse_host_port trimmed default_port with
       | Ok parts => format_host_and_port (p_host parts) (p_port parts)
       | Err _ => format_host_and_port trimmed default_port
       end.
End Env.

(** ** Effective permissions *)
(** The stricter of two permissions. *)
Definition stricter (acc : option NetworkDomainPermission) (q : NetworkDomainPermission) : NetworkDomainPermission :=
  let r := default q acc in if permission_rank r <? permission_rank q then q else r.

(** The strictest permission that the entries give a pattern. *)
Fixpoint strictest_permission (p : rstring) (acc : option NetworkDomainPermission) (entries : NetworkDomainPermissions)
    : option NetworkDomainPermission :=
  match entries with
  | [] => acc
  | e :: rest => strictest_permission p (if decide (pattern e = p) then Some (stricter acc (permission e)) else acc) rest
  end.

Lemma effective_loop_perms entries order perms p :
  (effective_loop entries order perms).2 !! p = strictest_permission p (perms !! p) entries.
Proof.
  revert order perms. induction entries as [|[p0 q0] entries IH]; intros order perms; [done|].
  cbn [effective_loop strictest_permission pattern permission]. rewrite IH. f_equal.
  destruct (decide (p0 = p)) as [->|Hne]; [by rewrite lookup_insert_eq|by rewrite lookup_insert_ne].
Qed.

Lemma effective_loop_order entries order perms :
  NoDup order → (∀ p, p ∈ order ↔ is_Some (perms !! p)) →
  NoDup (effective_loop entries order perms).1 ∧
  (∀ p, p ∈ (effective_loop entries order perms).1 ↔ is_Some ((effective_loop entries order perms).2 !! p)).
Proof.
  revert order perms. induction entries as [|[p0 q0] entries IH]; intros order perms Hnd Hdom; [done|].
  cbn [effective_loop pattern permission]. case_bool_decide as Hp; apply IH.
  - done.
  - intros p. destruct (decide (p0 = p)) as [->|Hne]; [rewrite lookup_insert_eq|rewrite lookup_insert_ne by done; apply Hdom].
    rewrite Hdom. naive_solver.
  - apply NoDup_app. split; [done|]. split; [|apply NoDup_singleton]. intros p Hin ->%list_elem_of_singleton.
    by apply Hp, Hdom.
  - intros p. rewrite elem_of_app, list_elem_of_singleton, Hdom.
    destruct (decide (p0 = p)) as [->|Hne]; [rewrite lookup_insert_eq|rewrite lookup_insert_ne by done]; naive_solver.
Qed.

Lemma take_effective_omap order perms :
  NoDup order → take_effective order perms = omap (λ p, mkEntry p <$> perms !! p) order.
Proof.
  intros Hnd. revert perms. induction Hnd as [|p order Hp Hnd IH]; intros perms; [done|].
  cbn [take_effective omap list_omap]. destruct (perms !! p) as [q|] eqn:E; cbn; [|apply IH]. f_equal. rewrite IH.
  clear IH Hnd. induction order as [|p' order IH']; [done|]. cbn.
  assert (p ≠ p') by (intros ->; by apply Hp; left).
  rewrite lookup_delete_ne by done. rewrite IH' by (intros ?; by apply Hp; right). done.
Qed.

Lemma effective_entries_elem entries p q :
  mkEntry p q ∈ effective_entries entries ↔ strictest_permission p None entries = Some q.
Proof.
  unfold effective_entries. destruct (effective_loop_order entries [] ∅) as [Hnd Hdom]; [constructor|..].
  { intros p'. rewrite lookup_empty. split; [intros []%not_elem_of_nil|intros [? [=]]]. }
  pose proof (effective_loop_perms entries [] ∅ p) as Hp. rewrite lookup_empty in Hp. revert Hnd Hdom Hp.
  destruct (effective_loop entries [] ∅) as [order perms]. cbn [fst snd]. intros Hnd Hdom Hp.
  rewrite take_effective_omap, list_elem_of_omap by done. rewrite <- Hp. split.
  - intros (p' & _ & Hq). destruct (perms !! p') eqn:E; [|done]. cbn in Hq. by simplify_eq.
  - intros Hq. exists p. rewrite Hdom, Hq. eauto.
Qed.

Lemma effective_entries_NoDup entries : NoDup (map pattern (effective_entries entries)).
Proof.
  unfold effective_entries. destruct (effective_loop_order entries [] ∅) as [Hnd Hdom]; [constructor|..].
  { intros p'. rewrite lookup_empty. split; [intros []%not_elem_of_nil|intros [? [=]]]. }
  revert Hnd Hdom. destruct (effective_loop entries [] ∅) as [order perms]. cbn [fst snd]. intros Hnd Hdom.
  rewrite take_effective_omap by done.
  assert (map pattern (omap (λ p, mkEntry p <$> perms !! p) order) = order) as ->; [|done].
  assert (∀ p, p ∈ order → is_Some (perms !! p)) as Hsome by (intros p; apply Hdom). clear Hnd Hdom.
  induction order as [|p order IH]; [done|]. cbn. destruct (Hsome p) as [q ->]; [by left|]. cbn. f_equal.
  apply IH. intros p' Hp'. apply Hsome. by right.
Qed.

Lemma stricter_cases acc q :
  (stricter acc q = q ∨ acc = Some (stricter acc q)) ∧ permission_rank q ≤ permission_rank (stricter acc q) ∧
  (∀ r, acc = Some r → permission_rank r ≤ permission_rank (stricter acc q)).
Proof.
  unfold stricter. destruct acc as [r|]; cbn [from_option id]; [|rewrite Nat.ltb_irrefl; (split; [by left|]); (split; [lia|]); intros ? [=]].
  destruct (Nat.ltb_spec (permission_rank r) (permission_rank q)); (split; [by auto|]); (split; [lia|]);
    intros ? [= <-]; lia.
Qed.

Lemma strictest_Some p acc entries q :
  strictest_permission p acc entries = Some q →
  (acc = Some q ∨ mkEntry p q ∈ entries) ∧ (∀ r, acc = Some r → permission_rank r ≤ permission_rank q) ∧
  (∀ r, mkEntry p r ∈ entries → permission_rank r ≤ permission_rank q).
Proof.
  revert acc. induction entries as [|[p0 q0] entries IH]; intros acc; cbn [strictest_permission pattern permission].
  { intros ->. split; [by left|]. split; [by intros ? [= ->]|intros ? []%not_elem_of_nil]. }
  intros H. apply IH in H as (Hin & Hacc & Hent). destruct (decide (p0 = p)) as [->|Hne].
  - destruct (stricter_cases acc q0) as (Hs & Hq0 & Hr). pose proof (Hacc _ eq_refl) as Hle. repeat split.
    + destruct Hin as [[= <-]|Hin]; [|right; by right]. destruct Hs as [->|Hs]; [right; by left|by left].
    + intros r Hacc'. apply Hr in Hacc'. lia.
    + intros r [[= ->]|Hin']%elem_of_cons; [lia|by apply Hent].
  - repeat split; [destruct Hin; [by left|right; by right]|done|].
    intros r [[= ]|Hin']%elem_of_cons; [done|by apply Hent].
Qed.

Lemma strictest_is_Some p acc entries :
  is_Some (strictest_permission p acc entries) ↔ is_Some acc ∨ ∃ r, mkEntry p r ∈ entries.
Proof.
  revert acc. induction entries as [|[p0 q0] entries IH]; intros acc; cbn [strictest_permission pattern permission].
  { split; [by left|]. by intros [?|[? []%not_elem_of_nil]]. }
  rewrite IH. setoid_rewrite elem_of_cons. destruct (decide (p0 = p)) as [->|Hne]; naive_solver.
Qed.

Lemma rank_inj p q : permission_rank p = permission_rank q → p = q.
Proof. by destruct p, q. Qed.

Lemma effective_entries_iff entries p q :
  mkEntry p q ∈ effective_entries entries ↔
  mkEntry p q ∈ entries ∧ ∀ r, mkEntry p r ∈ entries → permission_rank r ≤ permission_rank q.
Proof.
  rewrite effective_entries_elem. split.
  - intros H. apply strictest_Some in H as ([[=]|Hin] & _ & Hle). done.
  - intros [Hin Hle]. destruct (strictest_permission p None entries) as [q'|] eqn:E.
    + apply strictest_Some in E as ([[=]|Hin'] & _ & Hle'). f_equal. apply rank_inj.
      apply Hle in Hin'. apply Hle' in Hin. lia.
    + assert (is_Some (strictest_permission p None entries)) as [? ?] by (apply strictest_is_Some; eauto). congruence.
Qed.

(** the effective entries give each pattern one permission, the strictest of its
    entries, so that a denial always wins over an allowance and an allowance over nothing. *)
Theorem effective_entries_strictest entries :
  NoDup (map pattern (effective_entries entries)) ∧
  (∀ p q, mkEntry p q ∈ effective_entries entries ↔
     mkEntry p q ∈ entries ∧ ∀ r, mkEntry p r ∈ entries → permission_rank r ≤ permission_rank q).
Proof. split; [apply effective_entries_NoDup|apply effective_entries_iff]. Qed.

(** ** Allowed and denied domains *)
Definition entries_of (c : NetworkProxyConfig) : NetworkDomainPermissions := default [] (domains c).
Definition allowed_list (c : NetworkProxyConfig) : list rstring := default [] (allowed_domains c).
Definition denied_list (c : NetworkProxyConfig) : list rstring := default [] (denied_domains c).

Lemma default_non_empty {A} (l : list A) : default [] (non_empty_list l) = l.
Proof. by destruct l. Qed.

Lemma non_empty_list_None {A} (l : list A) : non_empty_list l = None ↔ l = [].
Proof. by destruct l. Qed.

Lemma domain_entries_elem p c d :
  d ∈ default [] (domain_entries p c) ↔ mkEntry d p ∈ effective_entries (entries_of c).
Proof.
  unfold domain_entries, entries_of. destruct (domains c) as [entries|]; cbn [mbind option_bind from_option];
    [|split; intros []%not_elem_of_nil].
  rewrite default_non_empty, list_elem_of_In, in_map_iff. unfold has_permission. split.
  - intros ([d' p'] & Hd & [Hin Hp]%filter_In). cbn in Hd, Hp. apply bool_decide_eq_true in Hp. subst.
    by apply list_elem_of_In.
  - intros Hin%list_elem_of_In. eexists; split; [|apply filter_In; split; [exact Hin|]]; [done|].
    by apply bool_decide_eq_true.
Qed.

Lemma denied_elem c d : d ∈ denied_list c ↔ mkEntry d PermDeny ∈ entries_of c.
Proof.
  unfold denied_list, denied_domains. rewrite domain_entries_elem, effective_entries_iff. split; [naive_solver|].
  intros H. split; [done|]. intros [] _; cbn; lia.
Qed.

Lemma allowed_elem c d :
  d ∈ allowed_list c ↔ mkEntry d PermAllow ∈ entries_of c ∧ mkEntry d PermDeny ∉ entries_of c.
Proof.
  unfold allowed_list, allowed_domains. rewrite domain_entries_elem, effective_entries_iff. split.
  - intros [Hin Hle]. split; [done|]. intros Hd. apply Hle in Hd. cbn in Hd. lia.
  - intros [Hin Hd]. split; [done|]. intros [] Hr; cbn; [lia|lia|done].
Qed.

Lemma allowed_domains_None c : allowed_domains c = None ↔ allowed_list c = [].
Proof.
  unfold allowed_list, allowed_domains, domain_entries. destruct (domains c) as [entries|]; cbn; [|done].
  by rewrite default_non_empty, non_empty_list_None.
Qed.

Lemma filter_elem {A} (f : A → bool) (l : list A) x : x ∈ List.filter f l ↔ x ∈ l ∧ f x = true.
Proof. by rewrite !list_elem_of_In, filter_In. Qed.

Lemma entries_of_set l c : entries_of (set_domains (non_empty_list l) c) = l.
Proof. unfold entries_of. destruct c. cbn. apply default_non_empty. Qed.

(** After an update the host has the permission that was asked for. *)
Lemma upsert_entries host p normalize c e :
  e ∈ entries_of (upsert_domain_permission host p normalize c) ↔
  e = mkEntry host p ∨ (e ∈ entries_of c ∧ normalize (pattern e) ≠ normalize host).
Proof.
  unfold upsert_domain_permission. rewrite entries_of_set, elem_of_app, list_elem_of_singleton, filter_elem.
  unfold str_eqb, entries_of. rewrite negb_true_iff, bool_decide_eq_false. naive_solver.
Qed.

(** ** Listeners *)
Lemma clamp_loopback addr : ip_is_loopback (sa_ip (clamp_non_loopback addr false)) = true.
Proof. unfold clamp_non_loopback. by destruct (ip_is_loopback (sa_ip addr)) eqn:E. Qed.

Definition sockets_enabled (cfg : NetworkProxyConfig) : Prop :=
  allow_unix_sockets cfg ≠ [] ∨ dangerously_allow_all_unix_sockets cfg = true.

Section Listeners.
Context {host_env : HostEnv} {url_crate : UrlCrate}.

(** the proxy listens on loopback addresses only, unless the configuration allows other
    addresses explicitly and no Unix socket can be reached through the proxy. *)
Theorem listeners_on_loopback cfg rc :
  resolve_runtime cfg = Ok rc → dangerously_allow_non_loopback_proxy cfg = false ∨ sockets_enabled cfg →
  ip_is_loopback (sa_ip (http_addr rc)) = true ∧ ip_is_loopback (sa_ip (socks_addr rc)) = true.
Proof.
  unfold resolve_runtime. intros H Hcfg.
  destruct (validate_unix_socket_allowlist_paths cfg); [|done]. cbn [mbind result_bind] in H.
  destruct (map_err _ (resolve_addr (proxy_url cfg) 3128)) as [h|]; [|done]. cbn [mbind result_bind] in H.
  destruct (map_err _ (resolve_addr (socks_url cfg) 8081)) as [s|]; [|done]. cbn [mbind result_bind] in H.
  unfold clamp_bind_addrs in H. destruct (_ && _) eqn:E; injection H as <-; [|done]. cbn [http_addr socks_addr].
  apply andb_true_iff in E as [Hs Ha%negb_true_iff]. destruct Hcfg as [->|[Hne|Hall]].
  - split; apply clamp_loopback.
  - by destruct (allow_unix_sockets cfg).
  - congruence.
Qed.
End Listeners.

Definition example_env : HostEnv := {| env_home := None; env_current_dir := None |}.
(** No text is a URL: every address takes the fallback. *)
Definition no_url : UrlCrate := λ _, None.
Definition example_config : NetworkProxyConfig :=
  set_allow_unix_sockets [str "/var/run/docker.sock"]
    (let 'mkConfig e u s su sd up _ au m d us lb mi cb oh pi hs := config_default in
     mkConfig e (str "http://0.0.0.0:8080/") s su sd up true au m d us lb mi cb oh pi hs).

Example resolved_addresses :
  resolve_addr (url_crate := no_url) (str "http://u:p@0.0.0.0:8080/x") 3128 =
    Ok (mkSocketAddr (V4 0%N) 8080) ∧
  resolve_addr (url_crate := no_url) (str "[::1]:99999") 3128 =
    Ok (mkSocketAddr (V6 [0; 0; 0; 0; 0; 0; 0; 1]%N) 3128) ∧
  resolve_addr (url_crate := no_url) (str "http://:80") 3128 = Err (MissingHost (str "http://:80")) ∧
  host_and_port_from_network_addr (url_crate := no_url) (str "2001:db8::1") 80 = str "[2001:db8::1]:80".
Proof. repeat split; vm_compute; reflexivity. Qed.

Lemma listeners_on_loopback_witness :
  ip_is_loopback (sa_ip (mkSocketAddr loopback_v4 8080)) = true ∧
  ip_is_loopback (sa_ip (mkSocketAddr loopback_v4 8081)) = true.
Proof.
  assert (resolve_runtime (host_env := example_env) (url_crate := no_url) example_config =
          Ok (mkRuntimeConfig (mkSocketAddr loopback_v4 8080) (mkSocketAddr loopback_v4 8081))) as H
    by (vm_compute; reflexivity).
  assert (allow_unix_sockets example_config ≠ []) as Hs by (vm_compute; discriminate).
  exact (listeners_on_loopback (host_env := example_env) (url_crate := no_url) example_config _ H (or_intror (or_introl Hs))).
Defined.
