(* ===== verification/MitmHook.v ===== *)
(** * Hooks of the network proxy

    Models [sofia-rs/network-proxy/src/mitm_hook.rs] and [authorization_path.rs]: the
    validation and compilation of hooks, and the choice of the hook of a request.  Headers
    ([http]), globs ([globset]) and the query parser ([form_urlencoded]) are an interface. *)

From stdpp Require Import base list numbers strings gmap.
From S2P Require Import Prelude Machine AbsolutePath IpAddr NetPolicy NetConfig.

#[local] Set Default Proof Using "Type*".
#[local] Arguments str : simpl never.

(** ** [authorization_path.rs] *)
Definition decode_hex_digit (byte : N) : option N :=
  (if (48 <=? byte) && (byte <=? 57) then Some (byte - 48)
   else if (97 <=? byte) && (byte <=? 102) then Some (byte - 97 + 10)
   else if (65 <=? byte) && (byte <=? 70) then Some (byte - 65 + 10)
   else None)%N.

(** The loop over the bytes of a segment.  A character that is not ASCII has only bytes
    that are neither special nor digits, so that it counts like one of them. *)
Fixpoint safe_segment_loop (s : rstring) (decoded_dots : nat) (has_non_dot : bool) : bool :=
  match s with
  | [] => has_non_dot || negb ((decoded_dots =? 1) || (decoded_dots =? 2))
  | c :: rest =>
      if (c =? 46)%N then safe_segment_loop rest (S decoded_dots) has_non_dot
      else if (c =? 92)%N then false
      else if (c =? 37)%N then
        match rest with
        | h :: l :: rest =>
            match decode_hex_digit h, decode_hex_digit l with
            | Some high, Some low =>
                let decoded := N.lor (N.shiftl high 4) low in
                if ((decoded =? 37) || (decoded =? 47) || (decoded =? 92))%N then false
                else if (decoded =? 46)%N then safe_segment_loop rest (S decoded_dots) has_non_dot
                else safe_segment_loop rest decoded_dots true
            | _, _ => false
            end
        | _ => false
        end
      else safe_segment_loop rest decoded_dots true
  end.
Definition is_safe_segment_for_authorization (segment : rstring) : bool := safe_segment_loop segment 0 false.
Definition is_safe_for_authorization (path : rstring) : bool :=
  forallb is_safe_segment_for_authorization (split_on 47 path).

(** Decoding of a segment, as an upstream server does it. *)
Fixpoint percent_decode (s : rstring) : option (list N) :=
  match s with
  | [] => Some []
  | c :: rest =>
      if (c =? 37)%N then
        match rest with
        | h :: l :: rest =>
            high ← decode_hex_digit h; low ← decode_hex_digit l;
            d ← percent_decode rest; Some (N.lor (N.shiftl high 4) low :: d)
        | _ => None
        end
      else d ← percent_decode rest; Some (c :: d)
  end.

(** The decoded segment is not a relative one and has neither a separator nor an escape. *)
Definition unambiguous (decoded : list N) : Prop :=
  37%N ∉ decoded ∧ 47%N ∉ decoded ∧ 92%N ∉ decoded ∧ decoded ≠ str "." ∧ decoded ≠ str "..".

(** The result of the loop in terms of the decoded bytes still to come. *)
Definition decoded_ok (dots : nat) (non_dot : bool) (d : list N) : Prop :=
  37%N ∉ d ∧ 47%N ∉ d ∧ 92%N ∉ d ∧
  (non_dot = true ∨ (∃ c, c ∈ d ∧ c ≠ 46%N) ∨ (dots + length d ≠ 1 ∧ dots + length d ≠ 2)).

Lemma decoded_ok_nil dots non_dot : decoded_ok dots non_dot [] ↔ (non_dot || negb ((dots =? 1) || (dots =? 2))) = true.
Proof.
  unfold decoded_ok. rewrite orb_true_iff, negb_true_iff, orb_false_iff, !Nat.eqb_neq. cbn [length].
  rewrite Nat.add_0_r. split.
  - intros (_ & _ & _ & [?|[(? & []%not_elem_of_nil & _)|?]]); tauto.
  - intros H. do 3 (split; [apply not_elem_of_nil|]). tauto.
Qed.

Lemma decoded_ok_dot dots non_dot d : decoded_ok dots non_dot (46%N :: d) ↔ decoded_ok (S dots) non_dot d.
Proof.
  unfold decoded_ok. rewrite !not_elem_of_cons. cbn [length]. rewrite <- plus_n_Sm. setoid_rewrite elem_of_cons.
  naive_solver.
Qed.

Lemma decoded_ok_cons dots non_dot c d :
  c ≠ 46%N → decoded_ok dots non_dot (c :: d) ↔ (c ≠ 37 ∧ c ≠ 47 ∧ c ≠ 92)%N ∧ decoded_ok dots true d.
Proof.
  intros Hc. unfold decoded_ok. rewrite !not_elem_of_cons. split; [naive_solver|].
  intros ((? & ? & ?) & ? & ? & ? & _). repeat split; try done; try congruence. right. left. exists c. split; [by left|done].
Qed.

Lemma bind_cons_iff (o : option (list N)) c (P : list N → Prop) :
  (∃ d, (e ← o; Some (c :: e)) = Some d ∧ P d) ↔ (∃ e, o = Some e ∧ P (c :: e)).
Proof. destruct o; cbn; naive_solver. Qed.

(** One byte of the decoded segment, against the segment loop. *)
Lemma safe_byte_iff c rest dots non_dot :
  (∀ dots non_dot, safe_segment_loop rest dots non_dot = true ↔
     ∃ d, percent_decode rest = Some d ∧ decoded_ok dots non_dot d) →
  (if ((c =? 37) || (c =? 47) || (c =? 92))%N then false
   else if (c =? 46)%N then safe_segment_loop rest (S dots) non_dot
   else safe_segment_loop rest dots true) = true ↔
  ∃ e, percent_decode rest = Some e ∧ decoded_ok dots non_dot (c :: e).
Proof.
  intros IH. destruct (N.eqb_spec c 46) as [->|H46].
  - cbn. rewrite IH. setoid_rewrite decoded_ok_dot. done.
  - setoid_rewrite decoded_ok_cons; [|done].
    destruct (N.eqb_spec c 37), (N.eqb_spec c 47), (N.eqb_spec c 92); cbn [orb];
      rewrite ?IH; naive_solver.
Qed.

Lemma safe_segment_iff s dots non_dot : 47%N ∉ s →
  safe_segment_loop s dots non_dot = true ↔ ∃ d, percent_decode s = Some d ∧ decoded_ok dots non_dot d.
Proof.
  remember (length s) as n eqn:Hn. revert s dots non_dot Hn.
  induction n as [n IH] using lt_wf_ind. intros s dots non_dot -> Hs.
  assert (∀ r, length r < length s → 47%N ∉ r → ∀ dots non_dot, safe_segment_loop r dots non_dot = true ↔
    ∃ d, percent_decode r = Some d ∧ decoded_ok dots non_dot d) as IHr by (intros; by eapply IH). clear IH.
  destruct s as [|c rest]; [cbn; rewrite <- decoded_ok_nil; naive_solver|].
  apply not_elem_of_cons in Hs as [Hc Hs]. cbn [safe_segment_loop percent_decode].
  destruct (N.eqb_spec c 37) as [->|H37].
  - cbn [N.eqb Pos.eqb]. destruct rest as [|h [|l rest]]; [naive_solver..|].
    apply not_elem_of_cons in Hs as [_ [_ Hs]%not_elem_of_cons].
    destruct (decode_hex_digit h) as [high|]; [|naive_solver]. cbn [mbind option_bind].
    destruct (decode_hex_digit l) as [low|]; [|naive_solver]. cbn [mbind option_bind].
    rewrite bind_cons_iff. apply safe_byte_iff. apply IHr; [cbn; lia|done].
  - rewrite bind_cons_iff, <- safe_byte_iff; [|apply IHr; [cbn; lia|done]].
    destruct (N.eqb_spec c 37), (N.eqb_spec c 47), (N.eqb_spec c 92), (N.eqb_spec c 46); subst; done.
Qed.

Lemma decoded_ok_unambiguous d : decoded_ok 0 false d ↔ unambiguous d.
Proof.
  unfold decoded_ok, unambiguous. cbn [Nat.add]. do 3 (apply and_iff_compat_l). split.
  - intros [[=]|[(c & Hin & Hc)|[H1 H2]]].
    + split; intros ->; apply list_elem_of_In in Hin; cbn in Hin; naive_solver.
    + split; intros ->; [by apply H1|by apply H2].
  - intros [H1 H2]. right. destruct d as [|a [|b [|x d]]]; [right; cbn; lia|..|right; cbn; lia].
    + left. exists a. split; [by left|]. by intros ->.
    + destruct (decide (a = 46%N)) as [->|?]; [|left; exists a; split; [by left|done]].
      left. exists b. split; [right; by left|]. by intros ->.
Qed.

(** C28: a path is accepted for authorization exactly when every segment of it can be
    decoded, to something that is not [.] or [..] and in which neither a separator nor
    another escape is left. *)
Theorem authorization_path_iff path :
  is_safe_for_authorization path = true ↔
  Forall (λ s, ∃ d, percent_decode s = Some d ∧ unambiguous d) (split_on 47 path).
Proof.
  unfold is_safe_for_authorization. rewrite forallb_forall, Forall_forall. unfold is_safe_segment_for_authorization.
  split; intros H s Hs; (assert (47%N ∉ s) as Hn by (eapply split_on_elem, list_elem_of_In; first [exact Hs|by apply list_elem_of_In])).
  - apply list_elem_of_In, H in Hs. apply safe_segment_iff in Hs as (d & Hd & Hok); [|done].
    exists d. by rewrite <- decoded_ok_unambiguous.
  - apply safe_segment_iff; [done|]. apply list_elem_of_In, H in Hs as (d & Hd & Hok).
    exists d. by rewrite decoded_ok_unambiguous.
Qed.

Example authorization_paths :
  is_safe_for_authorization (str "/repos/a%20b/...") = true ∧ is_safe_for_authorization (str "/a/%2e%2E/b") = false ∧
  is_safe_for_authorization (str "/a%2fb") = false ∧ is_safe_for_authorization (str "/a%252e") = false ∧
  is_safe_for_authorization (str "/a%") = false ∧ is_safe_for_authorization (str "/a/./b") = false.
Proof. repeat split; reflexivity. Qed.

(** ** Hooks *)
Definition PATTERN_PREFIX : rstring := str "pattern:".
Definition LITERAL_PREFIX : rstring := str "literal:".

(** A compiled glob is its pattern and the option that it was built with. *)
Record CompiledGlobMatcher := mkGlob { glob_pattern : rstring; literal_separator : bool }.
Inductive PathMatcher := Prefix (prefix : rstring) | PathGlob (glob : CompiledGlobMatcher).
Inductive ValueMatcher := ExactValue (value : rstring) | ValueGlob (glob : CompiledGlobMatcher).
Inductive MatcherPattern := LiteralPattern (s : rstring) | GlobPattern (s : rstring).

Record QueryConstraint := mkQueryConstraint { qc_name : rstring; qc_values : list ValueMatcher }.
Record HeaderConstraint := mkHeaderConstraint { hd_name : rstring; hd_values : list ValueMatcher }.
Inductive SecretSource := EnvVar (name : rstring) | SecretFile (path : rstring).
Record ResolvedInjectedHeader := mkInjected { ri_name : rstring; ri_value : rstring; ri_source : SecretSource }.
Record MitmHookActions := mkActions {
  strip_request_headers : list rstring; inject_request_headers : list ResolvedInjectedHeader }.
Record MitmHookMatcher := mkMatcher {
  hm_methods : list rstring; hm_path_prefixes : list PathMatcher;
  hm_query : list QueryConstraint; hm_headers : list HeaderConstraint }.
Record MitmHook := mkHook { hook_host : rstring; hook_matcher : MitmHookMatcher; hook_actions : MitmHookActions }.

(** [MitmHooksByHost]. *)
Notation MitmHooksByHost := (gmap rstring (list MitmHook)).

Inductive HookEvaluation := NoHooksForHost | Matched (actions : MitmHookActions) | HookedHostNoMatch.

(** A request: its method, the path and query of its target and its headers. *)
Record Request := mkRequest {
  req_method : rstring; req_path : rstring; req_query : option rstring; req_headers : list (rstring * rstring) }.

(** Errors; the text of a message is determined by its constructor. *)
Inductive HookError :=
  | HooksNeedMitm
  | InvalidHookField (index : nat) (field : rstring) (cause : HookError)
  | EmptyHost | WildcardHost | EmptyMethod | EmptyPathPrefix | EmptyGlob
  | InvalidGlob (pattern : rstring)
  | EmptyQueryKey | NoQueryValues (name : rstring)
  | InvalidHeaderName (name : rstring) | InvalidHeaderValue (name : rstring)
  | BodyNotSupported
  | EmptySecretEnvVar | EmptySecretFile | RelativeSecretFile (path : rstring) | OneSecretExpected
  | MissingEnvVar (name : rstring) | SecretUnreadable (path : rstring)
  | EmptyField.

(** The crates. *)
Class HookCrates := {
  (** [HeaderName::from_bytes], in lower case. *)
  header_name : rstring → option rstring;
  (** [HeaderValue::from_str] succeeds. *)
  header_value_ok : rstring → bool;
  (** [HeaderValue::to_str]. *)
  header_to_str : rstring → option rstring;
  (** [GlobBuilder::build] with [backslash_escape] succeeds, and what the glob matches. *)
  hook_glob_ok : bool → rstring → bool;
  hook_glob_matches : bool → rstring → rstring → bool;
  (** [form_urlencoded::parse]. *)
  form_urlencoded_parse : rstring → list (rstring * rstring);
  (** [env::var], and [fs::read_to_string]. *)
  env_var : rstring → option rstring;
  read_file : rstring → option rstring;
}.

Definition to_ascii_uppercase : rstring → rstring :=
  map (λ c, if (97 <=? c) && (c <=? 122) then c - 32 else c)%N.

Section Hooks.
Context {host_env : HostEnv} {hook_crates : HookCrates}.
#[local] Abbreviation res := (result HookError).

Definition glob_is_match (g : CompiledGlobMatcher) (candidate : rstring) : bool :=
  hook_glob_matches (literal_separator g) (glob_pattern g) candidate.
Definition path_matcher_matches (candidate : rstring) (m : PathMatcher) : bool :=
  match m with Prefix prefix => starts_with prefix candidate | PathGlob g => glob_is_match g candidate end.
Definition value_matcher_matches (candidate : rstring) (m : ValueMatcher) : bool :=
  match m with ExactValue value => str_eqb value candidate | ValueGlob g => glob_is_match g candidate end.

Definition parse_matcher_pattern (p : rstring) : res MatcherPattern :=
  match strip_prefix LITERAL_PREFIX p with
  | Some literal => Ok (LiteralPattern literal)
  | None =>
      match strip_prefix PATTERN_PREFIX p with
      | None => Ok (LiteralPattern p)
      | Some g => if is_empty g then Err EmptyGlob else Ok (GlobPattern g)
      end
  end.

Definition compile_glob_matcher (p : rstring) (separator : bool) : res CompiledGlobMatcher :=
  if hook_glob_ok separator p then Ok (mkGlob p separator) else Err (InvalidGlob p).

Definition compile_path_matcher (prefix : rstring) : res PathMatcher :=
  m ← parse_matcher_pattern prefix;
  match m with
  | LiteralPattern prefix => if is_empty prefix then Err EmptyPathPrefix else Ok (Prefix prefix)
  | GlobPattern p => g ← compile_glob_matcher p true; Ok (PathGlob g)
  end.
Definition compile_path_matchers (l : list rstring) : res (list PathMatcher) := collect compile_path_matcher l.

Definition compile_value_matcher (value : rstring) : res ValueMatcher :=
  m ← parse_matcher_pattern value;
  match m with
  | LiteralPattern value => Ok (ExactValue value)
  | GlobPattern p => g ← compile_glob_matcher p false; Ok (ValueGlob g)
  end.
Definition compile_value_matchers (l : list rstring) : res (list ValueMatcher) := collect compile_value_matcher l.

Definition normalize_hook_host (host : rstring) : res rstring :=
  let normalized := proxy_normalize_host host in
  if is_empty normalized then Err EmptyHost
  else if contains (str "*") normalized then Err WildcardHost
  else Ok normalized.

Definition normalize_method (method : rstring) : res rstring :=
  let normalized := to_ascii_uppercase (trim method) in
  if is_empty normalized then Err EmptyMethod else Ok normalized.
Definition normalize_methods (l : list rstring) : res (list rstring) := collect normalize_method l.

Definition normalize_query_name (name : rstring) : res rstring := if is_empty name then Err EmptyQueryKey else Ok name.

Definition parse_header_name (name : rstring) : res rstring := ok_or (header_name name) (InvalidHeaderName name).

Definition parse_secret_file (path : rstring) : res rstring :=
  if is_empty (trim path) then Err EmptySecretFile
  else if negb (path_has_root path) then Err (RelativeSecretFile path)
  else ok_or (from_absolute_path env_home env_current_dir path) (RelativeSecretFile path).

(** A loop that checks every item. *)
Fixpoint check_all {A} (check : A → res unit) (l : list A) : res unit :=
  match l with [] => Ok tt | a :: rest => _ ← check a; check_all check rest end.

Definition validate_query_constraint (q : rstring * list rstring) : res unit :=
  normalized ← normalize_query_name q.1;
  if is_empty normalized then Err EmptyQueryKey
  else if is_empty q.2 then Err (NoQueryValues q.1)
  else _ ← compile_value_matchers q.2; Ok tt.
Definition validate_query_constraints (query : gmap rstring (list rstring)) : res unit :=
  check_all validate_query_constraint (btree_entries query).

Definition validate_header_constraints (headers : gmap rstring (list rstring)) : res unit :=
  check_all (λ h, _ ← parse_header_name h.1; _ ← compile_value_matchers h.2; Ok tt) (btree_entries headers).

Definition validate_strip_request_headers (names : list rstring) : res unit :=
  check_all (λ name, _ ← parse_header_name name; Ok tt) names.

Definition validate_injected_header (header : InjectedHeaderConfig) : res unit :=
  _ ← parse_header_name (ih_name header);
  match ih_secret_env_var header, ih_secret_file header with
  | Some secret_env_var, None => if is_empty (trim secret_env_var) then Err EmptySecretEnvVar else Ok tt
  | None, Some secret_file => _ ← parse_secret_file secret_file; Ok tt
  | _, _ => Err OneSecretExpected
  end.
Definition validate_injected_headers (headers : list InjectedHeaderConfig) : res unit :=
  check_all validate_injected_header headers.

(** The context of an error. *)
Definition hook_field {A} (index : nat) (name : string) : res A → res A := map_err (InvalidHookField index (str name)).

(** One iteration of the loop over the hooks. *)
Definition validate_hook (hook_index : nat) (hook : MitmHookConfig) : res unit :=
  host ← hook_field hook_index "host" (normalize_hook_host (hc_host hook));
  methods ← hook_field hook_index "match.methods" (normalize_methods (mc_methods (hc_matcher hook)));
  if is_empty methods then Err (InvalidHookField hook_index (str "match.methods") EmptyField) else
  path_prefixes ← hook_field hook_index "match.path_prefixes" (compile_path_matchers (mc_path_prefixes (hc_matcher hook)));
  if is_empty path_prefixes then Err (InvalidHookField hook_index (str "match.path_prefixes") EmptyField) else
  if bool_decide (is_Some (mc_body (hc_matcher hook))) then Err (InvalidHookField hook_index (str "match.body") BodyNotSupported) else
  _ ← hook_field hook_index "match.query" (validate_query_constraints (mc_query (hc_matcher hook)));
  _ ← hook_field hook_index "match.headers" (validate_header_constraints (mc_headers (hc_matcher hook)));
  _ ← hook_field hook_index "actions.strip_request_headers" (validate_strip_request_headers (ac_strip_request_headers (hc_actions hook)));
  _ ← hook_field hook_index "actions.inject_request_headers" (validate_injected_headers (ac_inject_request_headers (hc_actions hook)));
  if is_empty host then Err (InvalidHookField hook_index (str "host") EmptyField) else Ok tt.

Fixpoint validate_hooks (index : nat) (hooks : list MitmHookConfig) : res unit :=
  match hooks with [] => Ok tt | hook :: rest => _ ← validate_hook index hook; validate_hooks (S index) rest end.

Definition validate_mitm_hook_config (config : NetworkProxyConfig) : res unit :=
  if is_empty (mitm_hooks config) then Ok tt
  else if negb (mitm config) then Err HooksNeedMitm
  else validate_hooks 0 (mitm_hooks config).

(** The resolvers of [compile_mitm_hooks]. *)
Definition read_secret_file (path : rstring) : res rstring :=
  value ← ok_or (read_file path) (SecretUnreadable path); Ok (trim value).

Definition compile_injected_header (header : InjectedHeaderConfig) : res ResolvedInjectedHeader :=
  name ← parse_header_name (ih_name header);
  '(secret, source) ←
    match ih_secret_env_var header, ih_secret_file header with
    | Some name, None => value ← ok_or (env_var name) (MissingEnvVar name); Ok (value, EnvVar name)
    | None, Some secret_file =>
        path ← parse_secret_file secret_file; value ← read_secret_file path; Ok (value, SecretFile path)
    | _, _ => Err OneSecretExpected
    end;
  let value := default [] (ih_prefix header) ++ secret in
  if header_value_ok value then Ok (mkInjected name value source) else Err (InvalidHeaderValue (ih_name header)).

(** One iteration of [compile_mitm_hooks_with_resolvers]. *)
Definition compile_hook (hook : MitmHookConfig) : res MitmHook :=
  host ← normalize_hook_host (hc_host hook);
  methods ← normalize_methods (mc_methods (hc_matcher hook));
  path_prefixes ← compile_path_matchers (mc_path_prefixes (hc_matcher hook));
  query ← collect (λ q, name ← normalize_query_name q.1; values ← compile_value_matchers q.2;
                         Ok (mkQueryConstraint name values)) (btree_entries (mc_query (hc_matcher hook)));
  headers ← collect (λ h, name ← parse_header_name h.1; values ← compile_value_matchers h.2;
                           Ok (mkHeaderConstraint name values)) (btree_entries (mc_headers (hc_matcher hook)));
  strip ← collect parse_header_name (ac_strip_request_headers (hc_actions hook));
  inject ← collect compile_injected_header (ac_inject_request_headers (hc_actions hook));
  Ok (mkHook host (mkMatcher methods path_prefixes query headers) (mkActions strip inject)).

(** [hooks_by_host.entry(host).or_default().push(hook)]. *)
Definition add_hook (hook : MitmHook) (m : MitmHooksByHost) : MitmHooksByHost :=
  <[hook_host hook := default [] (m !! hook_host hook) ++ [hook]]> m.

Fixpoint compile_hooks (hooks : list MitmHookConfig) (m : MitmHooksByHost) : res MitmHooksByHost :=
  match hooks with [] => Ok m | hook :: rest => h ← compile_hook hook; compile_hooks rest (add_hook h m) end.

Definition compile_mitm_hooks (config : NetworkProxyConfig) : res MitmHooksByHost :=
  _ ← validate_mitm_hook_config config; compile_hooks (mitm_hooks config) ∅.

(** ** The hook of a request *)
(** The values of a key of the query are those of the pairs with that key. *)
Definition query_constraint_matches (actual : list (rstring * rstring)) (q : QueryConstraint) : bool :=
  existsb (λ v, str_eqb v.1 (qc_name q) && existsb (value_matcher_matches v.2) (qc_values q)) actual.
Definition query_matches (constraints : list QueryConstraint) (req : Request) : bool :=
  if is_empty constraints then true
  else forallb (query_constraint_matches (form_urlencoded_parse (default [] (req_query req)))) constraints.

Definition header_constraint_matches (req : Request) (h : HeaderConstraint) : bool :=
  let actual := map snd (List.filter (λ v, str_eqb v.1 (hd_name h)) (req_headers req)) in
  if is_empty actual then false
  else if is_empty (hd_values h) then true
  else existsb (λ v, is_some_and (header_to_str v) (λ c, existsb (value_matcher_matches c) (hd_values h))) actual.
Definition headers_match (constraints : list HeaderConstraint) (req : Request) : bool :=
  forallb (header_constraint_matches req) constraints.

Definition path_matches (prefixes : list PathMatcher) (path : rstring) : bool :=
  existsb (path_matcher_matches path) prefixes.

Definition hook_matches (hook : MitmHook) (req : Request) : bool :=
  let method := to_ascii_uppercase (req_method req) in
  if negb (existsb (λ allowed, str_eqb allowed method) (hm_methods (hook_matcher hook))) then false
  else if negb (is_safe_for_authorization (req_path req)) ||
          negb (path_matches (hm_path_prefixes (hook_matcher hook)) (req_path req)) then false
  else if negb (query_matches (hm_query (hook_matcher hook)) req) then false
  else headers_match (hm_headers (hook_matcher hook)) req.

Fixpoint first_match (hooks : list MitmHook) (req : Request) : HookEvaluation :=
  match hooks with
  | [] => HookedHostNoMatch
  | hook :: rest => if hook_matches hook req then Matched (hook_actions hook) else first_match rest req
  end.

Definition evaluate_mitm_hooks (hooks_by_host : MitmHooksByHost) (host : rstring) (req : Request) : HookEvaluation :=
  match hooks_by_host !! proxy_normalize_host host with
  | None => NoHooksForHost
  | Some hooks => first_match hooks req
  end.

(** ** The hooks of a host *)
Definition of_host (host : rstring) (hook : MitmHook) : bool := str_eqb (hook_host hook) host.

(** The choice of a hook from the list of all compiled hooks. *)
Definition reference_evaluate (hooks : list MitmHook) (host : rstring) (req : Request) : HookEvaluation :=
  let host := proxy_normalize_host host in
  if existsb (of_host host) hooks
  then match List.find (λ h, of_host host h && hook_matches h req) hooks with
       | Some hook => Matched (hook_actions hook)
       | None => HookedHostNoMatch
       end
  else NoHooksForHost.

Lemma compile_hooks_collect hooks m m' :
  compile_hooks hooks m = Ok m' → ∃ hs, collect compile_hook hooks = Ok hs ∧ m' = foldl (flip add_hook) m hs.
Proof.
  revert m. induction hooks as [|hook hooks IH]; intros m; cbn [compile_hooks collect].
  - intros [= <-]. by exists [].
  - destruct (compile_hook hook) as [h|e]; [|done]. cbn [mbind result_bind]. intros H.
    apply IH in H as (hs & -> & ->). by exists (h :: hs).
Qed.

(** The hooks of a host, in their order. *)
Lemma no_hook_filter (P : MitmHook → bool) hs : existsb P hs = false → List.filter P hs = [].
Proof. induction hs as [|h hs IH]; [done|]. cbn. destruct (P h); [done|]. apply IH. Qed.

Lemma add_hook_lookup h m host :
  add_hook h m !! host = if of_host host h then Some (default [] (m !! host) ++ [h]) else m !! host.
Proof.
  unfold add_hook, of_host, str_eqb. case_bool_decide as Hh; [subst; by rewrite lookup_insert_eq|].
  by rewrite lookup_insert_ne.
Qed.

Lemma add_hooks_lookup hs m host :
  foldl (flip add_hook) m hs !! host =
  if existsb (of_host host) hs then Some (default [] (m !! host) ++ List.filter (of_host host) hs) else m !! host.
Proof.
  revert m. induction hs as [|h hs IH]; intros m; [done|]. cbn [foldl existsb List.filter]. rewrite IH.
  change (flip add_hook m h) with (add_hook h m). rewrite add_hook_lookup. destruct (of_host host h); [|done].
  cbn [from_option orb id]. rewrite <- app_assoc. destruct (existsb (of_host host) hs) eqn:E; [done|].
  by rewrite (no_hook_filter _ _ E).
Qed.

Lemma first_match_find P hs req :
  first_match (List.filter P hs) req =
  match List.find (λ h, P h && hook_matches h req) hs with
  | Some hook => Matched (hook_actions hook)
  | None => HookedHostNoMatch
  end.
Proof.
  induction hs as [|h hs IH]; [done|]. cbn [List.filter List.find]. destruct (P h); [|exact IH].
  cbn [first_match andb]. by destruct (hook_matches h req).
Qed.

(** once the hooks of a configuration are compiled, the hook of a request is the first
    one of its host that matches it, in the order of the configuration, whatever the order
    of the hooks of other hosts; a request to a host without hooks has none. *)
Theorem hook_choice_in_order config m :
  compile_mitm_hooks config = Ok m →
  ∃ hs, collect compile_hook (mitm_hooks config) = Ok hs ∧
        ∀ host req, evaluate_mitm_hooks m host req = reference_evaluate hs host req.
Proof.
  unfold compile_mitm_hooks. destruct (validate_mitm_hook_config config); [|done]. cbn [mbind result_bind].
  intros (hs & Hhs & ->)%compile_hooks_collect. exists hs. split; [done|]. intros host req.
  unfold evaluate_mitm_hooks, reference_evaluate. rewrite add_hooks_lookup, lookup_empty. cbn [from_option app].
  destruct (existsb _ hs); [|done]. apply first_match_find.
Qed.

Lemma hook_matches_safe hook req : hook_matches hook req = true → is_safe_for_authorization (req_path req) = true.
Proof.
  unfold hook_matches. destruct (negb (existsb _ _)); [done|]. destruct (is_safe_for_authorization _); [done|]. done.
Qed.

(** ** Errors of compilation *)
(** The secret of a header: the value of the variable, or the trimmed text of the file. *)
Definition secret_of (header : InjectedHeaderConfig) (secret : rstring) : Prop :=
  match ih_secret_env_var header, ih_secret_file header with
  | Some name, None => env_var name = Some secret
  | None, Some file => ∃ path text, parse_secret_file file = Ok path ∧ read_file path = Some text ∧ secret = trim text
  | _, _ => False
  end.
Definition header_text (header : InjectedHeaderConfig) (secret : rstring) : rstring := default [] (ih_prefix header) ++ secret.

(** What is wrong with the secret of a header: the variable is not set, the file cannot be
    read, or the secret after its prefix is not the value of a header. *)
Definition secret_problem (header : InjectedHeaderConfig) (e : HookError) : Prop :=
  (∃ name, ih_secret_env_var header = Some name ∧ env_var name = None ∧ e = MissingEnvVar name) ∨
  (∃ file path, ih_secret_file header = Some file ∧ parse_secret_file file = Ok path ∧ read_file path = None ∧
     e = SecretUnreadable path) ∨
  (∃ secret, secret_of header secret ∧ header_value_ok (header_text header secret) = false ∧
     e = InvalidHeaderValue (ih_name header)).

Definition fails_with {A} (P : HookError → Prop) (r : res A) : Prop := ∀ e, r = Err e → P e.

Lemma fails_bind {A B} P (m : res A) (f : A → res B) :
  fails_with P m → (∀ a, m = Ok a → fails_with P (f a)) → fails_with P (m ≫= f).
Proof. intros Hm Hf e. destruct m as [a|e'] eqn:E; cbn; [by apply Hf|]. by intros [= <-]; apply Hm. Qed.

Lemma fails_Ok {A} P (a : A) : fails_with P (Ok a).
Proof. by intros e [=]. Qed.

Lemma fails_is_ok {A} P (m : res A) : is_ok m = true → fails_with P m.
Proof. intros H e ->. done. Qed.

Lemma check_all_Forall {A} (check : A → res unit) l :
  is_ok (check_all check l) = true → Forall (λ a, is_ok (check a) = true) l.
Proof.
  induction l as [|a l IH]; cbn; [constructor|]. destruct (check a) as [[]|] eqn:E; [|done].
  cbn. intros H. constructor; [by rewrite E|by apply IH].
Qed.

Lemma collect_fails {A B} P (f : A → res B) l :
  Forall (λ a, fails_with P (f a)) l → fails_with P (collect f l).
Proof.
  induction 1 as [|a l Ha Hl IH]; cbn [collect]; [apply fails_Ok|].
  apply fails_bind; [done|]. intros b _. apply fails_bind; [done|]. intros bs _. apply fails_Ok.
Qed.

Lemma is_ok_map_err {E F A} (f : E → F) (r : result E A) : is_ok (map_err f r) = is_ok r.
Proof. by destruct r. Qed.

Lemma is_ok_bind {A B} (m : res A) (f : A → res B) :
  is_ok (m ≫= f) = true → ∃ a, m = Ok a ∧ is_ok (f a) = true.
Proof. destruct m; cbn; [eauto|done]. Qed.

(** A header that was validated. *)
Lemma compile_injected_fails header :
  is_ok (validate_injected_header header) = true → fails_with (secret_problem header) (compile_injected_header header).
Proof.
  unfold validate_injected_header, compile_injected_header. intros (name & -> & H)%is_ok_bind. cbn [mbind result_bind].
  assert (∀ (secret : rstring) name' source, secret_of header secret → fails_with (secret_problem header)
    (if header_value_ok (default [] (ih_prefix header) ++ secret)
     then Ok (mkInjected name' (default [] (ih_prefix header) ++ secret) source) else Err (InvalidHeaderValue (ih_name header)))) as Hv.
  { intros secret name' source Hs e. destruct (header_value_ok _) eqn:E; [done|]. intros [= <-]. right; right. by exists secret. }
  unfold secret_of in Hv. destruct (ih_secret_env_var header) as [v|] eqn:Ev, (ih_secret_file header) as [f|] eqn:Ef; try done.
  - destruct (env_var v) as [value|] eqn:E; cbn; [by apply Hv|]. intros e [= <-]. left. by exists v.
  - apply is_ok_bind in H as (path & Hp & _). rewrite Hp. cbn [mbind result_bind]. unfold read_secret_file.
    destruct (read_file path) as [value|] eqn:E; cbn; [apply Hv; by exists path, value|].
    intros e [= <-]. right; left. by exists f, path.
Qed.

(** A header that was compiled. *)
Lemma compile_injected_Ok header h :
  compile_injected_header header = Ok h →
  ∃ secret, secret_of header secret ∧ header_name (ih_name header) = Some (ri_name h) ∧ ri_value h = header_text header secret ∧
            header_value_ok (ri_value h) = true.
Proof.
  unfold compile_injected_header, parse_header_name, secret_of, header_text.
  destruct (header_name (ih_name header)) as [name|]; cbn; [|done].
  destruct (ih_secret_env_var header) as [v|], (ih_secret_file header) as [f|]; cbn; try done.
  - destruct (env_var v) as [secret|]; cbn; [|done]. destruct (header_value_ok _) eqn:E; [|done].
    intros [= <-]. cbn. eauto.
  - destruct (parse_secret_file f) as [path|]; cbn; [|done]. unfold read_secret_file.
    destruct (read_file path) as [text|] eqn:Er; cbn; [|done]. destruct (header_value_ok _) eqn:E; [|done].
    intros [= <-]. cbn. exists (trim text). eauto 10.
Qed.

Lemma validate_hook_parts index hook :
  is_ok (validate_hook index hook) = true →
  is_ok (normalize_hook_host (hc_host hook)) = true ∧
  is_ok (normalize_methods (mc_methods (hc_matcher hook))) = true ∧
  is_ok (compile_path_matchers (mc_path_prefixes (hc_matcher hook))) = true ∧
  is_ok (validate_query_constraints (mc_query (hc_matcher hook))) = true ∧
  is_ok (validate_header_constraints (mc_headers (hc_matcher hook))) = true ∧
  is_ok (validate_strip_request_headers (ac_strip_request_headers (hc_actions hook))) = true ∧
  is_ok (validate_injected_headers (ac_inject_request_headers (hc_actions hook))) = true.
Proof.
  unfold validate_hook, hook_field. intros H.
  repeat match goal with
  | H : is_ok (map_err ?f ?m ≫= _) = true |- _ =>
      destruct m eqn:?; cbn [map_err mbind result_bind] in H; [|done]
  | H : is_ok (if ?b then Err _ else _) = true |- _ => destruct b; [done|]
  end. done.
Qed.

(** The first problem with a secret of a hook. *)
Definition hook_problem (hook : MitmHookConfig) (e : HookError) : Prop :=
  ∃ header, header ∈ ac_inject_request_headers (hc_actions hook) ∧ secret_problem header e.

Lemma compile_hook_fails index hook :
  is_ok (validate_hook index hook) = true → fails_with (hook_problem hook) (compile_hook hook).
Proof.
  intros (Hh & Hm & Hp & Hq%check_all_Forall & Hd%check_all_Forall & Hs%check_all_Forall & Hi%check_all_Forall)%validate_hook_parts.
  unfold compile_hook.
  apply fails_bind; [by apply fails_is_ok|intros host _].
  apply fails_bind; [by apply fails_is_ok|intros methods _].
  apply fails_bind; [by apply fails_is_ok|intros prefixes _].
  apply fails_bind; [apply collect_fails; eapply Forall_impl; [exact Hq|]|intros query _].
  { intros q (name & Hn & Hv)%is_ok_bind. rewrite Hn. cbn [mbind result_bind].
    destruct (is_empty name); [done|]. destruct (is_empty q.2); [done|]. apply is_ok_bind in Hv as (vs & -> & _).
    apply fails_Ok. }
  apply fails_bind; [apply collect_fails; eapply Forall_impl; [exact Hd|]|intros headers _].
  { intros h (name & -> & Hv)%is_ok_bind. apply is_ok_bind in Hv as (vs & -> & _). apply fails_Ok. }
  apply fails_bind; [apply collect_fails; eapply Forall_impl; [exact Hs|]|intros strip _].
  { intros n (name & -> & _)%is_ok_bind. apply fails_Ok. }
  apply fails_bind; [apply collect_fails|intros inject _; apply fails_Ok].
  rewrite Forall_forall in Hi |- *. intros header Hin e He. exists header. split; [done|].
  by apply (compile_injected_fails header (Hi header Hin)).
Qed.

Lemma compile_hook_inject hook h :
  compile_hook hook = Ok h →
  normalize_hook_host (hc_host hook) = Ok (hook_host h) ∧
  collect compile_injected_header (ac_inject_request_headers (hc_actions hook)) = Ok (inject_request_headers (hook_actions h)).
Proof.
  unfold compile_hook. intros H.
  repeat match goal with
  | H : (?m ≫= _) = Ok _ |- _ => destruct m eqn:?; cbn [mbind result_bind] in H; [|done]
  end. by injection H as <-.
Qed.

Lemma collect_elem {A B} (f : A → res B) l bs a :
  collect f l = Ok bs → a ∈ l → ∃ b, b ∈ bs ∧ f a = Ok b.
Proof using Type.
  revert bs. induction l as [|x l IH]; intros bs; [by intros _ ?%not_elem_of_nil|]. cbn [collect].
  destruct (f x) as [b|] eqn:E; cbn; [|done]. destruct (collect f l) as [bs'|]; cbn; [|done]. intros [= <-].
  intros [->|H]%elem_of_cons; [exists b; by split; [left|]|].
  destruct (IH bs' eq_refl H) as (b' & Hb & ?). exists b'. by split; [right|].
Qed.

Lemma validate_hooks_Forall index hooks :
  is_ok (validate_hooks index hooks) = true → Forall (λ h, ∃ i, is_ok (validate_hook i h) = true) hooks.
Proof.
  revert index. induction hooks as [|h hooks IH]; intros index; [constructor|]. cbn [validate_hooks].
  intros (u & Hu & H)%is_ok_bind. constructor; [exists index; by rewrite Hu|by eapply IH].
Qed.

Lemma compile_hooks_fails hooks m :
  Forall (λ h, ∃ i, is_ok (validate_hook i h) = true) hooks →
  fails_with (λ e, ∃ hook, hook ∈ hooks ∧ hook_problem hook e) (compile_hooks hooks m).
Proof.
  intros H. revert m. induction H as [|h hooks [i Hi] Hs IH]; intros m; cbn [compile_hooks]; [apply fails_Ok|].
  apply fails_bind.
  - intros e He. exists h. split; [by left|by apply (compile_hook_fails i h Hi)].
  - intros hook _ e (h' & Hin & ?)%IH. exists h'. split; [by right|done].
Qed.

(** C37: hooks that are valid compile, unless a header of one of them has a secret that is
    missing or unusable: its variable is not set, its file cannot be read, or the secret
    after the prefix is not the value of a header; the error names that secret.  When they
    compile, every header has its secret, and the host of its hook has a hook that injects
    the header under its name with the prefix and the secret for its value. *)
Theorem valid_hooks_compile config :
  validate_mitm_hook_config config = Ok tt →
  match compile_mitm_hooks config with
  | Err e => ∃ hook header, hook ∈ mitm_hooks config ∧ header ∈ ac_inject_request_headers (hc_actions hook) ∧
               secret_problem header e
  | Ok m => ∀ hook header, hook ∈ mitm_hooks config → header ∈ ac_inject_request_headers (hc_actions hook) →
      ∃ secret host hooks h injected, secret_of header secret ∧ normalize_hook_host (hc_host hook) = Ok host ∧
        m !! host = Some hooks ∧ h ∈ hooks ∧ injected ∈ inject_request_headers (hook_actions h) ∧
        header_name (ih_name header) = Some (ri_name injected) ∧
        ri_value injected = header_text header secret ∧ header_value_ok (ri_value injected) = true
  end.
Proof.
  unfold compile_mitm_hooks. intros Hv. rewrite Hv. cbn [mbind result_bind]. destruct (compile_hooks _ _) as [m|e] eqn:E.
  - apply compile_hooks_collect in E as (hs & Hhs & ->). intros hook header Hin Hheader.
    destruct (collect_elem _ _ _ _ Hhs Hin) as (h & Hh & [Hhost Hinj]%compile_hook_inject).
    destruct (collect_elem _ _ _ _ Hinj Hheader) as (injected & Hi & (secret & Hs & Hn & Hval & Hok)%compile_injected_Ok).
    assert (of_host (hook_host h) h = true) as Hof by apply str_eqb_refl.
    exists secret, (hook_host h), (List.filter (of_host (hook_host h)) hs), h, injected. split_and!; try done.
    + rewrite add_hooks_lookup, lookup_empty. destruct (existsb _ hs) eqn:Ex; [done|].
      apply not_true_iff_false in Ex as []. apply existsb_exists. exists h. split; [by apply list_elem_of_In|done].
    + apply list_elem_of_In, List.filter_In. split; [by apply list_elem_of_In|done].
  - destruct (compile_hooks_fails (mitm_hooks config) ∅) with (e := e) as (hook & Hin & header & ? & ?); [|done|by exists hook, header].
    unfold validate_mitm_hook_config in Hv.
    destruct (mitm_hooks config) as [|h hooks]; [constructor|]. cbn [is_empty] in Hv.
    destruct (negb (mitm config)); [done|]. apply (validate_hooks_Forall 0). by rewrite Hv.
Qed.
End Hooks.

(** ** A configuration *)
(** Names are lower-cased, globs are literal, one variable is set. *)
Definition example_hooks_crates : HookCrates := {|
  header_name := λ s, if is_empty s then None else Some (to_ascii_lowercase s);
  header_value_ok := λ _, true;
  header_to_str := Some;
  hook_glob_ok := λ _ _, true;
  hook_glob_matches := λ _ p s, str_eqb p s;
  form_urlencoded_parse := λ _, [];
  env_var := λ s, if str_eqb s (str "TOKEN") then Some (str "secret") else None;
  read_file := λ _, None;
|}.

Definition example_hook (variable : string) : MitmHookConfig :=
  mkMitmHookConfig (str "API.example.com.")
    (mkMitmHookMatchConfig [str "get"] [str "/v1/"] ∅ ∅ None)
    (mkMitmHookActionsConfig [str "Authorization"]
       [mkInjectedHeaderConfig (str "Authorization") (Some (str variable)) None (Some (str "Bearer "))]).

Definition hooks_config (hooks : list MitmHookConfig) : NetworkProxyConfig :=
  let 'mkConfig e u s su sd up nl au m d us lb _ cb oh pi _ := config_default in
  mkConfig e u s su sd up nl au m d us lb true cb oh pi hooks.

Definition example_actions : MitmHookActions :=
  mkActions [str "authorization"] [mkInjected (str "authorization") (str "Bearer secret") (EnvVar (str "TOKEN"))].
Definition example_compiled_hook : MitmHook :=
  mkHook (str "api.example.com") (mkMatcher [str "GET"] [Prefix (str "/v1/")] [] []) example_actions.

Lemma hook_choice_in_order_witness :
  ∃ hs, collect (compile_hook (host_env := example_env) (hook_crates := example_hooks_crates)) [example_hook "TOKEN"] = Ok hs ∧
        ∀ host req, evaluate_mitm_hooks (hook_crates := example_hooks_crates)
                      {[str "api.example.com" := [example_compiled_hook]]} host req =
                    reference_evaluate (hook_crates := example_hooks_crates) hs host req.
Proof.
  assert (compile_mitm_hooks (host_env := example_env) (hook_crates := example_hooks_crates)
            (hooks_config [example_hook "TOKEN"]) = Ok {[str "api.example.com" := [example_compiled_hook]]})
    as H by (vm_compute; reflexivity).
  exact (hook_choice_in_order (host_env := example_env) (hook_crates := example_hooks_crates) _ _ H).
Defined.

Lemma valid_hooks_compile_witness :
  ∃ hook header, hook ∈ mitm_hooks (hooks_config [example_hook "TOKEN"; example_hook "OTHER"]) ∧
    header ∈ ac_inject_request_headers (hc_actions hook) ∧
    secret_problem (host_env := example_env) (hook_crates := example_hooks_crates) header (MissingEnvVar (str "OTHER")).
Proof.
  assert (validate_mitm_hook_config (host_env := example_env) (hook_crates := example_hooks_crates)
            (hooks_config [example_hook "TOKEN"; example_hook "OTHER"]) = Ok tt) as Hv by (vm_compute; reflexivity).
  assert (compile_mitm_hooks (host_env := example_env) (hook_crates := example_hooks_crates)
            (hooks_config [example_hook "TOKEN"; example_hook "OTHER"]) = Err (MissingEnvVar (str "OTHER"))) as Hc by (vm_compute; reflexivity).
  pose proof (valid_hooks_compile (host_env := example_env) (hook_crates := example_hooks_crates) _ Hv) as H.
  rewrite Hc in H. exact H.
Defined.

Example evaluated_requests :
  let hooks := {[str "api.example.com" := [example_compiled_hook]]} in
  let eval := evaluate_mitm_hooks (hook_crates := example_hooks_crates) hooks in
  eval (str "api.example.com:443") (mkRequest (str "GET") (str "/v1/items") None []) = Matched example_actions ∧
  eval (str "api.example.com") (mkRequest (str "GET") (str "/v1/%2e%2e/admin") None []) = HookedHostNoMatch ∧
  eval (str "example.com") (mkRequest (str "GET") (str "/v1/items") None []) = NoHooksForHost.
Proof. repeat split; vm_compute; reflexivity. Qed.
