(* ===== verification/NetState.v ===== *)
(** * State of the network proxy

    Models [sofia-rs/network-proxy/src/state.rs], how the settings are checked against
    managed constraints and compiled, and the operations of
    [sofia-rs/network-proxy/src/runtime.rs] on the shared state: reloading, the decision about
    a host, updates of the lists and of the mode, and the buffer of blocked requests.  An
    operation that takes the lock more than once is split where it gives it up. *)

From stdpp Require Import base list numbers strings gmap.
From S2P Require Import Prelude Machine AbsolutePath IpAddr NetPolicy NetConfig MitmHook.

#[local] Set Default Proof Using "Type*".
#[local] Arguments str : simpl never.

(** ** Constraints *)
Record NetworkProxyConstraints := mkConstraints {
  c_enabled : option bool;
  c_mode : option NetworkMode;
  c_allow_upstream_proxy : option bool;
  c_dangerously_allow_non_loopback_proxy : option bool;
  c_dangerously_allow_all_unix_sockets : option bool;
  c_allowed_domains : option (list rstring);
  c_allowlist_expansion_enabled : option bool;
  c_denied_domains : option (list rstring);
  c_denylist_expansion_enabled : option bool;
  c_allow_unix_sockets : option (list rstring);
  c_allow_local_binding : option bool }.
#[global] Instance NetworkProxyConstraints_eq_dec : EqDecision NetworkProxyConstraints.
Proof. solve_decision. Defined.
Definition constraints_default : NetworkProxyConstraints :=
  mkConstraints None None None None None None None None None None None.

(** An error is the field that it names. *)
Inductive NetworkProxyConstraintError := InvalidValue (field_name : rstring).

Definition network_mode_rank (mode : NetworkMode) : nat := match mode with Limited => 0 | Full => 1 end.

Definition validate_non_global_wildcard_domain_patterns (field_name : rstring) (patterns : list rstring)
    : result NetworkProxyConstraintError unit :=
  match List.find is_global_wildcard_domain_pattern patterns with
  | Some _ => Err (InvalidValue field_name)
  | None => Ok tt
  end.

(** [HashSet] of the entries in lower case. *)
Definition lower_set (l : list rstring) : gset rstring := list_to_set (map to_ascii_lowercase l).

(** A check that reports a field. *)
Definition ensure (ok : bool) (field_name : string) : result NetworkProxyConstraintError unit :=
  if ok then Ok tt else Err (InvalidValue (str field_name)).

(** [Some(false)] forbids, anything else permits. *)
Definition may_enable (constraint : option bool) (candidate : bool) : bool :=
  match constraint with Some false => negb candidate | Some true | None => true end.

Section State.
Context {host_env : HostEnv} {net_crates : NetCrates} {hook_crates : HookCrates}.

Definition validate_allowed_domains (constraints : NetworkProxyConstraints) (candidate : list rstring)
    (denied_domain_overrides : gset rstring) (managed : list rstring) : result NetworkProxyConstraintError unit :=
  _ ← validate_non_global_wildcard_domain_patterns (str "network.allowed_domains") managed;
  match c_allowlist_expansion_enabled constraints with
  | Some true =>
      ensure (bool_decide (lower_set managed ∖ lower_set candidate ∖ denied_domain_overrides = ∅)) "network.allowed_domains"
  | Some false =>
      ensure (bool_decide (lower_set candidate = lower_set managed ∖ denied_domain_overrides)) "network.allowed_domains"
  | None =>
      let managed_patterns := map parse_for_constraints managed in
      let invalid :=
        List.filter (λ entry, negb (existsb (λ m, allows m (parse_for_constraints entry)) managed_patterns)) candidate in
      ensure (is_empty invalid) "network.allowed_domains"
  end.

Definition validate_denied_domains (constraints : NetworkProxyConstraints) (candidate managed : list rstring)
    : result NetworkProxyConstraintError unit :=
  _ ← validate_non_global_wildcard_domain_patterns (str "network.denied_domains") managed;
  match c_denylist_expansion_enabled constraints with
  | Some false => ensure (bool_decide (lower_set candidate = lower_set managed)) "network.denied_domains"
  | Some true | None => ensure (bool_decide (lower_set managed ∖ lower_set candidate = ∅)) "network.denied_domains"
  end.

Definition validate_unix_sockets (candidate managed : list rstring) : result NetworkProxyConstraintError unit :=
  let invalid := List.filter (λ entry, negb (bool_decide (to_ascii_lowercase entry ∈ lower_set managed))) candidate in
  ensure (is_empty invalid) "network.allow_unix_sockets".

(** A check of an optional constraint. *)
Definition when_some {A} (o : option A) (check : A → result NetworkProxyConstraintError unit)
    : result NetworkProxyConstraintError unit :=
  match o with Some a => check a | None => Ok tt end.

Definition validate_policy_against_constraints (config : NetworkProxyConfig) (constraints : NetworkProxyConstraints)
    : result NetworkProxyConstraintError unit :=
  let config_allowed_domains := default [] (allowed_domains config) in
  let config_denied_domains := default [] (denied_domains config) in
  let denied_domain_overrides := lower_set config_denied_domains in
  let config_allow_unix_sockets := allow_unix_sockets config in
  _ ← map_err (λ _, InvalidValue (str "network.mitm_hooks")) (validate_mitm_hook_config config);
  _ ← validate_non_global_wildcard_domain_patterns (str "network.denied_domains") config_denied_domains;
  _ ← when_some (c_enabled constraints) (λ max_enabled,
        ensure (negb (enabled config && negb max_enabled)) "network.enabled");
  _ ← when_some (c_mode constraints) (λ max_mode,
        ensure (network_mode_rank (mode config) <=? network_mode_rank max_mode) "network.mode");
  _ ← ensure (may_enable (c_allow_upstream_proxy constraints) (allow_upstream_proxy config)) "network.allow_upstream_proxy";
  _ ← ensure (may_enable (c_dangerously_allow_non_loopback_proxy constraints)
                (dangerously_allow_non_loopback_proxy config)) "network.dangerously_allow_non_loopback_proxy";
  let allow_all_unix_sockets :=
    default (bool_decide (c_allow_unix_sockets constraints = None)) (c_dangerously_allow_all_unix_sockets constraints) in
  _ ← ensure (negb (dangerously_allow_all_unix_sockets config && negb allow_all_unix_sockets))
        "network.dangerously_allow_all_unix_sockets";
  _ ← when_some (c_allow_local_binding constraints) (λ allow_local_binding_,
        ensure (negb (allow_local_binding config && negb allow_local_binding_)) "network.allow_local_binding");
  _ ← when_some (c_allowed_domains constraints)
        (validate_allowed_domains constraints config_allowed_domains denied_domain_overrides);
  _ ← when_some (c_denied_domains constraints) (validate_denied_domains constraints config_denied_domains);
  when_some (c_allow_unix_sockets constraints) (validate_unix_sockets config_allow_unix_sockets).

(** ** Compiled state *)
Record BlockedRequest := mkBlocked {
  br_host : rstring; br_reason : rstring; br_client : option rstring; br_method : option rstring;
  br_mode : option NetworkMode; br_protocol : rstring; br_execution_id : option rstring;
  br_decision : option rstring; br_source : option rstring; br_port : option N; br_timestamp : Z }.

(** The state of the interception is the option that it was made with. *)
Record ConfigState := mkState {
  cs_config : NetworkProxyConfig;
  cs_brokerage_created_default_allowlist : bool;
  cs_allow_set : GlobSet;
  cs_deny_set : GlobSet;
  cs_mitm : option bool;
  cs_mitm_hooks : MitmHooksByHost;
  cs_constraints : NetworkProxyConstraints;
  cs_blocked : list BlockedRequest;
  cs_blocked_total : N }.

Inductive StateError :=
  | SocketPathsError (e : ConfigError) | BrokerNeedsMitm | ConstraintError (e : NetworkProxyConstraintError)
  | DenyGlobsError | AllowGlobsError | HooksError (e : HookError) | MitmInitError
  | InvalidHost | ReloadError (message : rstring).

(** [MitmState::new] succeeds. *)
Context (mitm_new_ok : bool → bool).

(** The settings that [build_config_state] compiles, and whether it made the allowlist. *)
Definition prepare_config (config : NetworkProxyConfig) (constraints : NetworkProxyConstraints)
    : NetworkProxyConfig * bool :=
  let config := if bool_decide (c_enabled constraints = Some false) then set_credential_broker false config else config in
  let brokerage_created_proxy := credential_broker config && negb (enabled config) in
  let brokerage_created_default_allowlist :=
    brokerage_created_proxy && bool_decide (allowed_domains config = None) &&
    bool_decide (c_allowed_domains constraints = None) in
  let config := if brokerage_created_proxy then set_enabled true config else config in
  let config := if brokerage_created_default_allowlist then set_allowed_domains [str "*"] config else config in
  (config, brokerage_created_default_allowlist).

Definition build_config_state (config : NetworkProxyConfig) (constraints : NetworkProxyConstraints)
    : result StateError ConfigState :=
  let '(config, brokerage_created_default_allowlist) := prepare_config config constraints in
  _ ← map_err SocketPathsError (validate_unix_socket_allowlist_paths config);
  if negb (negb (credential_broker config) || mitm config) then Err BrokerNeedsMitm else
  let allowed_domains_ := default [] (allowed_domains config) in
  let denied_domains_ := default [] (denied_domains config) in
  _ ← map_err ConstraintError
        (validate_non_global_wildcard_domain_patterns (str "network.denied_domains") denied_domains_);
  deny_set ← ok_or (compile_denylist_globset denied_domains_) DenyGlobsError;
  allow_set ← ok_or (compile_allowlist_globset allowed_domains_) AllowGlobsError;
  mitm_hooks_ ← map_err HooksError (compile_mitm_hooks config);
  mitm_ ← (if mitm config
           then if mitm_new_ok (allow_upstream_proxy config) then Ok (Some (allow_upstream_proxy config)) else Err MitmInitError
           else Ok None);
  Ok (mkState config brokerage_created_default_allowlist allow_set deny_set mitm_ mitm_hooks_ constraints [] 0).
End State.
