(* ===== verification/NetRuntime.v ===== *)
(** * Operations of the network proxy

    Models the operations of [NetworkProxyState] in
    [sofia-rs/network-proxy/src/runtime.rs] on the shared state and the decision about a
    request in [network_policy.rs].  Every definition is one section under the lock or the
    computation between two of them.  Name resolution, the file system and the decider are
    arguments. *)

From stdpp Require Import base list numbers strings gmap.
From S2P Require Import Prelude Machine AbsolutePath IpAddr NetPolicy NetConfig MitmHook NetState.

#[local] Set Default Proof Using "Type*".
#[local] Arguments str : simpl never.

Definition MAX_BLOCKED_EVENTS : nat := 200.
Definition REASON_DENIED : rstring := str "denied".
Definition REASON_NOT_ALLOWED : rstring := str "not_allowed".
Definition REASON_NOT_ALLOWED_LOCAL : rstring := str "not_allowed_local".
Definition REASON_POLICY_DENIED : rstring := str "policy_denied".

Inductive HostBlockReason := Denied | NotAllowed | NotAllowedLocal.
Inductive HostBlockDecision := Allowed | Blocked (reason : HostBlockReason).

Definition reason_as_str (r : HostBlockReason) : rstring :=
  match r with
  | Denied => REASON_DENIED
  | NotAllowed => REASON_NOT_ALLOWED
  | NotAllowedLocal => REASON_NOT_ALLOWED_LOCAL
  end.

(** ** Hosts *)
Section Hosts.
Context {net_crates : NetCrates}.

Definition globset_matches_host_or_unscoped (set : GlobSet) (host : rstring) : bool :=
  globset_is_match set host || is_some_and (unscoped_ip_literal host) (globset_is_match set).

Definition explicit_pattern_matches (normalized_host pattern : rstring) : bool :=
  let unscoped_host := unscoped_ip_literal normalized_host in
  let pattern := trim pattern in
  if str_eqb pattern (str "*") || starts_with (str "*.") pattern || starts_with (str "**.") pattern then false
  else if contains (str "*") pattern || contains (str "?") pattern then false
  else
    let normalized_pattern := proxy_normalize_host pattern in
    str_eqb normalized_pattern normalized_host || is_some_and unscoped_host (str_eqb normalized_pattern).
Definition is_explicit_local_allowlisted (allowed_domains : list rstring) (host : rstring) : bool :=
  existsb (explicit_pattern_matches host) allowed_domains.

(** The result of the lookup is [None] when it fails or takes too long. *)
Definition host_resolves_to_non_public_ip (lookup : rstring → N → option (list SocketAddr)) (host : rstring) (port : N)
    : bool :=
  match parse_ip host with
  | Some ip => is_non_public_ip ip
  | None =>
      match lookup host port with
      | Some addrs => existsb (λ addr, is_non_public_ip (sa_ip addr)) addrs
      | None => true
      end
  end.

Definition local_literal (host : rstring) : bool :=
  let host_no_scope := unscoped_or_self host in
  if is_loopback_host host then true
  else match parse_ip host_no_scope with Some ip => is_non_public_ip ip | None => false end.

(** [host_blocked], after the reload. *)
Definition host_blocked (lookup : rstring → N → option (list SocketAddr)) (st : ConfigState) (host : rstring) (port : N)
    : HostBlockDecision :=
  match host_parse host with
  | None => Blocked NotAllowed
  | Some host =>
      let allowed := allowed_domains (cs_config st) in
      let allowed_domains_empty := bool_decide (allowed = None) in
      let allowed := default [] allowed in
      if globset_matches_host_or_unscoped (cs_deny_set st) host then Blocked Denied
      else
        let is_allowlisted := globset_matches_host_or_unscoped (cs_allow_set st) host in
        let blocked_local :=
          if allow_local_binding (cs_config st) then false
          else if local_literal host then negb (is_explicit_local_allowlisted allowed host)
          else host_resolves_to_non_public_ip lookup host port in
        if blocked_local then Blocked NotAllowedLocal
        else if allowed_domains_empty || negb is_allowlisted then Blocked NotAllowed
        else Allowed
  end.
End Hosts.

(** ** The decision about a request *)
Inductive NetworkProtocol := Http | HttpsConnect | Socks5Tcp | Socks5Udp.
Inductive NetworkPolicyDecision := DenyDecision | AskDecision.
Inductive NetworkDecisionSource := BaselinePolicy | ModeGuard | ProxyState | Decider.
Definition source_as_str (s : NetworkDecisionSource) : rstring :=
  match s with
  | BaselinePolicy => str "baseline_policy" | ModeGuard => str "mode_guard"
  | ProxyState => str "proxy_state" | Decider => str "decider"
  end.
Definition decision_as_str (d : NetworkPolicyDecision) : rstring :=
  match d with DenyDecision => str "deny" | AskDecision => str "ask" end.

Record NetworkPolicyRequest := mkPolicyRequest {
  pr_protocol : NetworkProtocol; pr_host : rstring; pr_port : N; pr_environment_id : option rstring;
  pr_client_addr : option rstring; pr_method : option rstring; pr_command : option rstring;
  pr_exec_policy_hint : option rstring; pr_execution_id : option rstring }.

Inductive NetworkDecision :=
  | Allow
  | Deny (reason : rstring) (source : NetworkDecisionSource) (decision : NetworkPolicyDecision).

Definition with_source (decision : NetworkPolicyDecision) (reason : rstring) (source : NetworkDecisionSource)
    : NetworkDecision :=
  Deny (if is_empty reason then REASON_POLICY_DENIED else reason) source decision.
Definition deny_with_source : rstring → NetworkDecisionSource → NetworkDecision := with_source DenyDecision.
Definition ask_with_source : rstring → NetworkDecisionSource → NetworkDecision := with_source AskDecision.

Definition map_decider_decision (decision : NetworkDecision) : NetworkDecision :=
  match decision with
  | Allow => Allow
  | Deny reason _ decision => Deny reason Decider decision
  end.

(** What the audit of a decision says; the identifiers of the session are left out. *)
Record PolicyAuditEvent := mkAudit {
  au_decision : rstring; au_source : NetworkDecisionSource; au_reason : rstring; au_protocol : NetworkProtocol;
  au_server_address : rstring; au_server_port : N; au_method : option rstring; au_client_addr : option rstring;
  au_execution_id : option rstring; au_policy_override : bool }.

(** The identifiers that a handle of the state carries. *)
Record Attribution := mkAttribution { at_environment_id : option rstring; at_execution_id : option rstring }.

Definition set_request_ids (a : Attribution) (r : NetworkPolicyRequest) : NetworkPolicyRequest :=
  mkPolicyRequest (pr_protocol r) (pr_host r) (pr_port r)
    (match pr_environment_id r with Some e => Some e | None => at_environment_id a end)
    (pr_client_addr r) (pr_method r) (pr_command r) (pr_exec_policy_hint r) (at_execution_id a).

Definition evaluate_host_policy (host_decision : HostBlockDecision) (attribution : Attribution)
    (decider : option (NetworkPolicyRequest → NetworkDecision)) (request : NetworkPolicyRequest)
    : NetworkDecision * PolicyAuditEvent :=
  let '(decision, policy_override) :=
    match host_decision with
    | Allowed => (Allow, false)
    | Blocked NotAllowed =>
        match decider with
        | Some decide =>
            let decider_decision := map_decider_decision (decide (set_request_ids attribution request)) in
            (decider_decision, match decider_decision with Allow => true | Deny _ _ _ => false end)
        | None => (deny_with_source (reason_as_str NotAllowed) BaselinePolicy, false)
        end
    | Blocked reason => (deny_with_source (reason_as_str reason) BaselinePolicy, false)
    end in
  let '(policy_decision, source, reason) :=
    match decision with
    | Allow =>
        (str "allow", if policy_override then Decider else BaselinePolicy,
         if policy_override then reason_as_str NotAllowed else str "allow")
    | Deny reason source decision => (decision_as_str decision, source, reason)
    end in
  (decision, mkAudit policy_decision source reason (pr_protocol request) (pr_host request) (pr_port request)
               (pr_method request) (pr_client_addr request) (at_execution_id attribution) policy_override).

(** ** Operations on the shared state *)
Definition with_blocked (blocked : list BlockedRequest) (total : N) (st : ConfigState) : ConfigState :=
  let 'mkState c b al de mi mh cn _ _ := st in mkState c b al de mi mh cn blocked total.
Definition with_config (c : NetworkProxyConfig) (st : ConfigState) : ConfigState :=
  let 'mkState _ b al de mi mh cn bl t := st in mkState c b al de mi mh cn bl t.

(** [reload_if_needed]: what is read, and the write after it. *)
Definition reload_read (st : ConfigState) : list BlockedRequest * N := (cs_blocked st, cs_blocked_total st).
Definition reload_write (new_state : ConfigState) (snapshot : list BlockedRequest * N) : ConfigState :=
  with_blocked snapshot.1 snapshot.2 new_state.

(** [force_reload] keeps the events of the state that it replaces. *)
Definition force_reload_write (new_state st : ConfigState) : ConfigState :=
  with_blocked (cs_blocked st) (cs_blocked_total new_state) new_state.
Definition replace_config_state (new_state st : ConfigState) : ConfigState :=
  with_blocked (cs_blocked st) (cs_blocked_total st) new_state.

(** [record_blocked]: the section under the lock. *)
Definition set_execution_id (id : option rstring) (e : BlockedRequest) : BlockedRequest :=
  let 'mkBlocked h r c m mo p _ d s po t := e in mkBlocked h r c m mo p id d s po t.

(** [while len > MAX { pop_front }]; the loop ends because the buffer gets shorter. *)
Fixpoint trim_blocked (blocked : list BlockedRequest) : list BlockedRequest :=
  if MAX_BLOCKED_EVENTS <? length blocked
  then match blocked with [] => [] | _ :: rest => trim_blocked rest end
  else blocked.
Definition record_blocked (attribution : Attribution) (entry : BlockedRequest) (st : ConfigState) : ConfigState :=
  let entry := set_execution_id (at_execution_id attribution) entry in
  with_blocked (trim_blocked (cs_blocked st ++ [entry])) (sat_add U64_MAX (cs_blocked_total st) 1) st.

Definition blocked_snapshot (st : ConfigState) : list BlockedRequest := cs_blocked st.
Definition drain_blocked (st : ConfigState) : list BlockedRequest * ConfigState :=
  (cs_blocked st, with_blocked [] (cs_blocked_total st) st).

Definition method_allowed (st : ConfigState) (method : rstring) : bool := allows_method (mode (cs_config st)) method.

(** ** Lists of domains *)
Inductive DomainListKind := AllowList | DenyList.
Definition kind_permission (k : DomainListKind) : NetworkDomainPermission :=
  match k with AllowList => PermAllow | DenyList => PermDeny end.
Definition kind_entries (k : DomainListKind) (c : NetworkProxyConfig) : list rstring :=
  match k with AllowList => default [] (allowed_domains c) | DenyList => default [] (denied_domains c) end.
Definition kind_opposite_entries (k : DomainListKind) (c : NetworkProxyConfig) : list rstring :=
  match k with AllowList => default [] (denied_domains c) | DenyList => default [] (allowed_domains c) end.

Section Updates.
Context {host_env : HostEnv} {net_crates : NetCrates} {hook_crates : HookCrates}.
Context (mitm_new_ok : bool → bool).

(** What [update_domain_list] reads. *)
Record UpdateSnapshot := mkSnapshot {
  us_config : NetworkProxyConfig; us_constraints : NetworkProxyConstraints;
  us_blocked : list BlockedRequest; us_blocked_total : N }.
Definition update_read (st : ConfigState) : UpdateSnapshot :=
  mkSnapshot (cs_config st) (cs_constraints st) (cs_blocked st) (cs_blocked_total st).

(** What it computes from that: it is done, it fails, or it has a state to write. *)
Inductive UpdateOutcome := UpdateDone | UpdateFailed (e : StateError) | UpdateReady (new_state : ConfigState).

Definition update_compute (normalized_host : rstring) (target : DomainListKind) (s : UpdateSnapshot) : UpdateOutcome :=
  let names_host entry := str_eqb (proxy_normalize_host entry) normalized_host in
  let target_contains := existsb names_host (kind_entries target (us_config s)) in
  let opposite_contains := existsb names_host (kind_opposite_entries target (us_config s)) in
  if target_contains && negb opposite_contains then UpdateDone
  else
    let candidate :=
      upsert_domain_permission normalized_host (kind_permission target) proxy_normalize_host (us_config s) in
    match validate_policy_against_constraints candidate (us_constraints s) with
    | Err e => UpdateFailed (ConstraintError e)
    | Ok _ =>
        match build_config_state mitm_new_ok candidate (us_constraints s) with
        | Err e => UpdateFailed e
        | Ok new_state => UpdateReady (with_blocked (us_blocked s) (us_blocked_total s) new_state)
        end
    end.

(** The write: [None] when the settings changed in between, so that the loop starts again. *)
Definition update_write (s : UpdateSnapshot) (new_state st : ConfigState) : option ConfigState :=
  if bool_decide (cs_constraints st ≠ us_constraints s) || bool_decide (cs_config st ≠ us_config s) then None
  else Some new_state.

(** One round of the loop: [snapshot] was read, [st] is the state when the lock is taken
    again; [None] starts another round. *)
Definition update_domain_list_round (host : rstring) (target : DomainListKind) (snapshot : UpdateSnapshot)
    (st : ConfigState) : option (result StateError ConfigState) :=
  match host_parse host with
  | None => Some (Err InvalidHost)
  | Some normalized_host =>
      match update_compute normalized_host target snapshot with
      | UpdateDone => Some (Ok st)
      | UpdateFailed e => Some (Err e)
      | UpdateReady new_state => Ok <$> update_write snapshot new_state st
      end
  end.

(** [set_network_mode]: the constraints that are read if the mode is accepted, and the write. *)
Definition mode_compute (m : NetworkMode) (st : ConfigState) : result NetworkProxyConstraintError NetworkProxyConstraints :=
  _ ← validate_policy_against_constraints (with_mode m (cs_config st)) (cs_constraints st); Ok (cs_constraints st).
Definition mode_write (m : NetworkMode) (constraints : NetworkProxyConstraints) (st : ConfigState) : option ConfigState :=
  if bool_decide (cs_constraints st ≠ constraints) then None else Some (with_config (with_mode m (cs_config st)) st).

(** ** Unix sockets *)
(** [macos] is [unix_socket_permissions_supported], [canonicalize] that of the file system. *)
Fixpoint socket_allowed_loop (canonicalize : rstring → option rstring) (requested_abs : rstring)
    (requested_canonical : option rstring) (allowed : list rstring) : bool :=
  match allowed with
  | [] => false
  | a :: rest =>
      let continue := socket_allowed_loop canonicalize requested_abs requested_canonical rest in
      match socket_path_parse a with
      | Ok (Native allowed_path) =>
          if str_eqb allowed_path requested_abs then true
          else match requested_canonical, canonicalize allowed_path with
               | Some requested, Some allowed_canonical => if str_eqb allowed_canonical requested then true else continue
               | _, _ => continue
               end
      | Ok (UnixStyleAbsolute _) | Err _ => continue
      end
  end.

Definition is_unix_socket_allowed (macos : bool) (canonicalize : rstring → option rstring) (st : ConfigState)
    (path : rstring) : bool :=
  if negb macos then false
  else if negb (path_has_root path) then false
  else if dangerously_allow_all_unix_sockets (cs_config st) then true
  else match from_absolute_path env_home env_current_dir path with
       | None => false
       | Some requested_abs =>
           socket_allowed_loop canonicalize requested_abs (canonicalize requested_abs) (allow_unix_sockets (cs_config st))
       end.
End Updates.
