(* ===== verification/NetRuntimeSpec.v ===== *)
(** * Properties of the network proxy

    What the managed constraints guarantee of settings that were accepted, that updates,
    reloads and changes of the mode keep the shared state consistent in every interleaving,
    and which hosts can be reached. *)

From stdpp Require Import base list numbers strings gmap relations.
From S2P Require Import Prelude Machine AbsolutePath IpAddr NetPolicy NetConfig MitmHook NetState NetRuntime.

#[local] Set Default Proof Using "Type*".
#[local] Arguments str : simpl never.

Section Constraints.
Context {host_env : HostEnv} {net_crates : NetCrates} {hook_crates : HookCrates}.

(** ** Settings within their constraints *)
Definition no_global_wildcard (l : list rstring) : Prop := Forall (λ p, is_global_wildcard_domain_pattern p = false) l.

(** The allowed domains against the managed ones. *)
Definition allowed_within (expansion : option bool) (managed allowed denied : list rstring) : Prop :=
  match expansion with
  | Some true => lower_set managed ⊆ lower_set allowed ∪ lower_set denied
  | Some false => lower_set allowed = lower_set managed ∖ lower_set denied
  | None => Forall (λ e, ∃ m, m ∈ managed ∧ allows (parse_for_constraints m) (parse_for_constraints e) = true) allowed
  end.
Definition denied_within (expansion : option bool) (managed denied : list rstring) : Prop :=
  match expansion with
  | Some false => lower_set denied = lower_set managed
  | Some true | None => lower_set managed ⊆ lower_set denied
  end.

Record within (c : NetworkProxyConfig) (k : NetworkProxyConstraints) : Prop := mkWithin {
  w_hooks : validate_mitm_hook_config c = Ok tt;
  w_wildcard : no_global_wildcard (denied_list c);
  w_enabled : c_enabled k = Some false → enabled c = false;
  w_mode : ∀ m, c_mode k = Some m → network_mode_rank (mode c) ≤ network_mode_rank m;
  w_upstream : c_allow_upstream_proxy k = Some false → allow_upstream_proxy c = false;
  w_non_loopback : c_dangerously_allow_non_loopback_proxy k = Some false → dangerously_allow_non_loopback_proxy c = false;
  w_all_sockets : dangerously_allow_all_unix_sockets c = true →
    c_dangerously_allow_all_unix_sockets k = Some true ∨
    (c_dangerously_allow_all_unix_sockets k = None ∧ c_allow_unix_sockets k = None);
  w_local : c_allow_local_binding k = Some false → allow_local_binding c = false;
  w_allowed : ∀ managed, c_allowed_domains k = Some managed →
    no_global_wildcard managed ∧ allowed_within (c_allowlist_expansion_enabled k) managed (allowed_list c) (denied_list c);
  w_denied : ∀ managed, c_denied_domains k = Some managed →
    no_global_wildcard managed ∧ denied_within (c_denylist_expansion_enabled k) managed (denied_list c);
  w_sockets : ∀ managed, c_allow_unix_sockets k = Some managed →
    Forall (λ s, to_ascii_lowercase s ∈ lower_set managed) (allow_unix_sockets c) }.

(** Every check says what it checks. *)
Lemma ensure_ok b f : ensure b f = Ok tt ↔ b = true.
Proof. by destruct b. Qed.

Lemma when_some_ok {A} (o : option A) check : when_some o check = Ok tt ↔ ∀ a, o = Some a → check a = Ok tt.
Proof. destruct o; cbn; naive_solver. Qed.

Lemma seq_ok {E} (m : result E unit) {B} (f : result E B) b : (_ ← m; f) = Ok b ↔ m = Ok tt ∧ f = Ok b.
Proof. destruct m as [[]|]; cbn; naive_solver. Qed.

Lemma wildcard_ok f l : validate_non_global_wildcard_domain_patterns f l = Ok tt ↔ no_global_wildcard l.
Proof.
  unfold validate_non_global_wildcard_domain_patterns, no_global_wildcard. split.
  - destruct (List.find _ l) eqn:E; [done|]. intros _. apply Forall_forall. intros x Hx.
    by eapply List.find_none in E; [|by apply list_elem_of_In].
  - intros H. destruct (List.find _ l) eqn:E; [|done]. apply List.find_some in E as [Hin Hb].
    rewrite Forall_forall in H. apply list_elem_of_In, H in Hin. congruence.
Qed.

Lemma is_empty_filter {A} (f : A → bool) l : is_empty (List.filter (λ a, negb (f a)) l) = true ↔ Forall (λ a, f a = true) l.
Proof.
  induction l as [|a l IH]; cbn; [by split|]. rewrite Forall_cons. destruct (f a); cbn; [|naive_solver]. rewrite IH. naive_solver.
Qed.

Lemma difference_empty_iff (X Y : gset rstring) : X ∖ Y = ∅ ↔ X ⊆ Y.
Proof.
  split; [|set_solver]. intros H x Hx. destruct (decide (x ∈ Y)) as [|Hn]; [done|]. set_solver.
Qed.

Lemma missing_empty (X Y Z : gset rstring) : X ∖ Y ∖ Z = ∅ ↔ X ⊆ Y ∪ Z.
Proof. rewrite difference_empty_iff. split; intros H x Hx; [|set_solver].
  destruct (decide (x ∈ Y)); set_solver. Qed.

Lemma allowed_domains_ok k allowed denied managed :
  validate_allowed_domains k allowed (lower_set denied) managed = Ok tt ↔
  no_global_wildcard managed ∧ allowed_within (c_allowlist_expansion_enabled k) managed allowed denied.
Proof.
  unfold validate_allowed_domains, allowed_within. rewrite seq_ok, wildcard_ok. apply and_iff_compat_l.
  destruct (c_allowlist_expansion_enabled k) as [[]|]; rewrite ensure_ok, ?bool_decide_eq_true; [apply missing_empty|done|].
  rewrite is_empty_filter. apply Forall_proper; [|done]. intros e. rewrite existsb_exists. setoid_rewrite in_map_iff.
  setoid_rewrite list_elem_of_In. naive_solver.
Qed.

Lemma denied_domains_ok k denied managed :
  validate_denied_domains k denied managed = Ok tt ↔
  no_global_wildcard managed ∧ denied_within (c_denylist_expansion_enabled k) managed denied.
Proof.
  unfold validate_denied_domains, denied_within. rewrite seq_ok, wildcard_ok. apply and_iff_compat_l.
  destruct (c_denylist_expansion_enabled k) as [[]|]; rewrite ensure_ok, bool_decide_eq_true; [|done|];
    apply difference_empty_iff.
Qed.

Lemma unix_sockets_ok sockets managed :
  validate_unix_sockets sockets managed = Ok tt ↔ Forall (λ s, to_ascii_lowercase s ∈ lower_set managed) sockets.
Proof.
  unfold validate_unix_sockets. rewrite ensure_ok, is_empty_filter. apply Forall_proper; [|done].
  intros s. apply bool_decide_eq_true.
Qed.

Lemma may_enable_ok k b : may_enable k b = true ↔ (k = Some false → b = false).
Proof. destruct k as [[]|], b; cbn; naive_solver. Qed.

Lemma hooks_ok {E F} (f : E → F) (m : result E unit) : map_err f m = Ok tt ↔ m = Ok tt.
Proof. destruct m as [[]|]; naive_solver. Qed.

Lemma flag_ok a b : negb (a && negb b) = true ↔ (a = true → b = true).
Proof. destruct a, b; naive_solver. Qed.

Lemma flag_some_ok o c :
  (∀ a, o = Some a → negb (c && negb a) = true) ↔ (o = Some false → c = false).
Proof. setoid_rewrite flag_ok. destruct o as [[]|], c; naive_solver. Qed.

Lemma all_sockets_ok k b :
  negb (b && negb (default (bool_decide (c_allow_unix_sockets k = None)) (c_dangerously_allow_all_unix_sockets k))) = true ↔
  (b = true → c_dangerously_allow_all_unix_sockets k = Some true ∨
              (c_dangerously_allow_all_unix_sockets k = None ∧ c_allow_unix_sockets k = None)).
Proof.
  rewrite flag_ok. destruct (c_dangerously_allow_all_unix_sockets k) as [[]|]; cbn; [naive_solver..|].
  rewrite bool_decide_eq_true. naive_solver.
Qed.

(** The validation accepts exactly the settings that are within the constraints. *)
Lemma validate_iff c k : validate_policy_against_constraints c k = Ok tt ↔ within c k.
Proof.
  unfold validate_policy_against_constraints. fold (allowed_list c) (denied_list c).
  rewrite !seq_ok, hooks_ok, wildcard_ok, !when_some_ok, !ensure_ok, !may_enable_ok, all_sockets_ok.
  setoid_rewrite (ensure_ok _ "network.enabled"). setoid_rewrite (ensure_ok _ "network.allow_local_binding").
  rewrite !flag_some_ok. split.
  - intros (? & ? & ? & Hm & ? & ? & ? & ? & Ha & Hd & Hs). split; try done.
    + intros m Hk. by apply Nat.leb_le, (ensure_ok _ "network.mode"), Hm.
    + intros managed Hk. by apply allowed_domains_ok, Ha.
    + intros managed Hk. by apply denied_domains_ok, Hd.
    + intros managed Hk. by apply unix_sockets_ok, Hs.
  - intros [? ? ? Hm ? ? ? ? Ha Hd Hs]. do 3 (split; [done|]). split; [|do 4 (split; [done|]); split_and!].
    + intros m Hk. by apply ensure_ok, Nat.leb_le, Hm.
    + intros managed Hk. by apply allowed_domains_ok, Ha.
    + intros managed Hk. by apply denied_domains_ok, Hd.
    + intros managed Hk. by apply unix_sockets_ok, Hs.
Qed.

Lemma unscoped_ascii host ip :
  unscoped_ip_literal host = Some ip → Forall (λ c, c < 128)%N host → Forall (λ c, c < 128)%N ip.
Proof.
  unfold unscoped_ip_literal. destruct (split_once 37 host) as [[x y]|] eqn:E; [|done]. cbn.
  destruct (is_ip x); [|done]. intros [= <-] Hh. apply split_once_Some in E as [-> _]. by apply Forall_app in Hh as [? _].
Qed.

(** Lists of plain patterns of which one is within the other. *)
Lemma plain_lists_within {laws : GlobLaws} managed allowed set mset host :
  Forall plain_pattern managed → Forall plain_pattern allowed →
  Forall (λ e, ∃ m, m ∈ managed ∧ allows (parse_for_constraints m) (parse_for_constraints e) = true) allowed →
  compile_allowlist_globset allowed = Some set → compile_allowlist_globset managed = Some mset →
  Forall (λ c, c < 128)%N host →
  globset_is_match set host = true → globset_is_match mset host = true.
Proof.
  intros Hm Ha Hw Hset Hmset Hh. rewrite (compiled_match _ _ _ Hset), (compiled_match _ _ _ Hmset).
  rewrite Forall_forall in Hm, Ha, Hw. intros (e & g & He & Hg & Hmatch).
  destruct (Hw e He) as (m & Hin & Hallows). exists m.
  assert (reaches (parse_for_constraints m) (to_ascii_lowercase host)) as Hr.
  { eapply allows_reaches; [by apply Hm|by apply Ha|done|]. apply plain_reaches; eauto. }
  apply plain_reaches in Hr as (g' & ? & ?); [|by apply Hm|done]. eauto.
Qed.

(** C15: Settings that pass the validation are within the managed constraints.  A switch
    that is forbidden is off, all Unix sockets are open only when that is permitted or
    sockets are not managed at all, the mode is not above the managed one, the managed
    denials are all there, and a listed Unix socket is one of the managed ones.  Of the
    allowed domains: when the list may be expanded, every managed entry is allowed or
    denied; when it may not, the list is the managed one less what is denied; when nothing
    is said, and the entries of both lists are plain patterns, every ASCII host that the
    compiled list matches is matched by the compiled managed list. *)
Theorem accepted_settings_within_constraints {laws : GlobLaws} c k :
  validate_policy_against_constraints c k = Ok tt →
  (c_enabled k = Some false → enabled c = false) ∧
  (c_allow_local_binding k = Some false → allow_local_binding c = false) ∧
  (c_allow_upstream_proxy k = Some false → allow_upstream_proxy c = false) ∧
  (c_dangerously_allow_non_loopback_proxy k = Some false → dangerously_allow_non_loopback_proxy c = false) ∧
  (dangerously_allow_all_unix_sockets c = true →
     c_dangerously_allow_all_unix_sockets k = Some true ∨
     (c_dangerously_allow_all_unix_sockets k = None ∧ c_allow_unix_sockets k = None)) ∧
  (∀ m, c_mode k = Some m → network_mode_rank (mode c) ≤ network_mode_rank m) ∧
  (∀ managed, c_denied_domains k = Some managed → lower_set managed ⊆ lower_set (denied_list c)) ∧
  (∀ managed, c_allow_unix_sockets k = Some managed →
     ∀ s, s ∈ allow_unix_sockets c → to_ascii_lowercase s ∈ lower_set managed) ∧
  (∀ managed, c_allowed_domains k = Some managed →
     match c_allowlist_expansion_enabled k with
     | Some true => lower_set managed ⊆ lower_set (allowed_list c) ∪ lower_set (denied_list c)
     | Some false => lower_set (allowed_list c) = lower_set managed ∖ lower_set (denied_list c)
     | None => Forall plain_pattern managed → Forall plain_pattern (allowed_list c) →
         ∀ set mset host,
           compile_allowlist_globset (allowed_list c) = Some set → compile_allowlist_globset managed = Some mset →
           Forall (λ ch, ch < 128)%N host →
           globset_matches_host_or_unscoped set host = true → globset_matches_host_or_unscoped mset host = true
     end).
Proof.
  intros [? ? He Hm Hu Hn Ha Hl Hal Hd Hs]%validate_iff. do 6 (split; [done|]). split; [|split].
  - intros managed [_ Hw]%Hd. unfold denied_within in Hw. destruct (c_denylist_expansion_enabled k) as [[]|]; set_solver.
  - intros managed Hsm%Hs s Hin. rewrite Forall_forall in Hsm. by apply Hsm.
  - intros managed [_ Hw]%Hal. unfold allowed_within in Hw. destruct (c_allowlist_expansion_enabled k) as [[]|]; [done..|].
    intros Hpm Hpa set mset host Hset Hmset Hh. unfold globset_matches_host_or_unscoped. rewrite !orb_true_iff.
    destruct (unscoped_ip_literal host) as [ip|] eqn:E; cbn [is_some_and].
    + pose proof (unscoped_ascii _ _ E Hh). intros [Hx|Hx]; [left|right]; by apply (plain_lists_within managed (allowed_list c) set).
    + intros [Hx|Hx]; [left|done]. by apply (plain_lists_within managed (allowed_list c) set).
Qed.

(** ** Building the state *)
Definition same_policy (c c' : NetworkProxyConfig) : Prop :=
  mitm c' = mitm c ∧ mitm_hooks c' = mitm_hooks c ∧ mode c' = mode c ∧
  allow_upstream_proxy c' = allow_upstream_proxy c ∧
  dangerously_allow_non_loopback_proxy c' = dangerously_allow_non_loopback_proxy c ∧
  dangerously_allow_all_unix_sockets c' = dangerously_allow_all_unix_sockets c ∧
  allow_local_binding c' = allow_local_binding c ∧ unix_sockets c' = unix_sockets c.

Lemma denied_set_allowed l c d : d ∈ denied_list (set_allowed_domains l c) ↔ d ∈ denied_list c.
Proof.
  rewrite !denied_elem. unfold set_allowed_domains, set_domain_entries. rewrite entries_of_set.
  assert (∀ ps acc, mkEntry d PermDeny ∈ push_entries ps PermAllow acc ↔ mkEntry d PermDeny ∈ acc) as ->.
  { induction ps as [|p ps IH]; intros acc; cbn [push_entries]; [done|]. rewrite IH. destruct (existsb _ acc); [done|].
    rewrite elem_of_app, list_elem_of_singleton. naive_solver. }
  rewrite filter_elem. unfold entries_of. naive_solver.
Qed.

Lemma within_denied_congr c c' k :
  within c k → same_policy c c' → (∀ d, d ∈ denied_list c' ↔ d ∈ denied_list c) →
  (c_enabled k = Some false → enabled c' = false) →
  (allowed_list c' = allowed_list c ∨ c_allowed_domains k = None) → within c' k.
Proof.
  intros [Hh Hw He Hm Hu Hn Ha Hl Hal Hd Hs] (E1 & E2 & E3 & E4 & E5 & E6 & E7 & E8) Hden Hen Hall.
  assert (lower_set (denied_list c') = lower_set (denied_list c)) as Hset.
  { apply set_eq. intros x. unfold lower_set. rewrite !elem_of_list_to_set, !list_elem_of_fmap. naive_solver. }
  assert (allow_unix_sockets c' = allow_unix_sockets c) as Esock by (unfold allow_unix_sockets; by rewrite E8).
  split.
  - unfold validate_mitm_hook_config. by rewrite E1, E2.
  - unfold no_global_wildcard in *. rewrite Forall_forall in *. intros d Hin. by apply Hw, Hden.
  - done.
  - by rewrite E3.
  - by rewrite E4.
  - by rewrite E5.
  - by rewrite E6.
  - by rewrite E7.
  - intros managed Hk. destruct Hall as [->|Hnone]; [|congruence]. destruct (Hal managed Hk) as [? Hx].
    split; [done|]. revert Hx. unfold allowed_within. by rewrite Hset.
  - intros managed Hk. destruct (Hd managed Hk) as [? Hx]. split; [done|]. revert Hx. unfold denied_within. by rewrite Hset.
  - by rewrite Esock.
Qed.

Lemma set_enabled_within c k : within c k → c_enabled k ≠ Some false → within (set_enabled true c) k.
Proof.
  intros Hw Hk. eapply within_denied_congr; [exact Hw|by destruct c|by destruct c|done|left; by destruct c].
Qed.

Lemma set_broker_within b c k : within c k → within (set_credential_broker b c) k.
Proof.
  intros Hw. eapply within_denied_congr; [exact Hw|by destruct c|by destruct c| |left; by destruct c].
  intros Hk. apply (w_enabled _ _ Hw) in Hk. by destruct c.
Qed.

Lemma set_allowed_within l c k : within c k → c_allowed_domains k = None → within (set_allowed_domains l c) k.
Proof.
  intros Hw Hk. eapply within_denied_congr; [exact Hw|by destruct c|apply denied_set_allowed| |by right].
  intros He. apply (w_enabled _ _ Hw) in He. by destruct c.
Qed.

Lemma prepare_within c k : within c k → within (prepare_config c k).1 k.
Proof.
  intros Hw. unfold prepare_config. cbn [fst]. set (c1 := if bool_decide (c_enabled k = Some false) then _ else c).
  assert (within c1 k) as Hw1 by (unfold c1; destruct (bool_decide _); [by apply set_broker_within|done]).
  assert (credential_broker c1 = true → c_enabled k ≠ Some false) as Hb.
  { unfold c1. case_bool_decide; [by destruct c|done]. }
  destruct (credential_broker c1) eqn:Ecb; cbn [andb]; [|done].
  destruct (negb (enabled c1)); cbn [andb]; [|done].
  assert (within (set_enabled true c1) k) by (apply set_enabled_within; [done|by apply Hb]).
  destruct (bool_decide (allowed_domains c1 = None)); cbn [andb]; [|done].
  case_bool_decide; [by apply set_allowed_within|done].
Qed.
End Constraints.

(** ** The shared state *)
Section Shared.
Context {host_env : HostEnv} {net_crates : NetCrates} {hook_crates : HookCrates}.
Context (mitm_new_ok : bool → bool).
#[local] Abbreviation build := (build_config_state mitm_new_ok).

(** The settings are within the constraints, the sets that decide are those of the lists,
    interception is set up exactly when it is asked for, a broker has it and is enabled, and
    the buffer is bounded. *)
Record good (st : ConfigState) : Prop := mkGood {
  g_within : within (cs_config st) (cs_constraints st);
  g_allow : compile_allowlist_globset (allowed_list (cs_config st)) = Some (cs_allow_set st);
  g_deny : compile_denylist_globset (denied_list (cs_config st)) = Some (cs_deny_set st);
  g_mitm : is_Some (cs_mitm st) ↔ mitm (cs_config st) = true;
  g_broker : credential_broker (cs_config st) = true → enabled (cs_config st) = true ∧ mitm (cs_config st) = true;
  g_blocked : length (cs_blocked st) ≤ MAX_BLOCKED_EVENTS }.

Lemma set_allowed_broker l c :
  credential_broker (set_allowed_domains l c) = credential_broker c ∧ enabled (set_allowed_domains l c) = enabled c.
Proof. by destruct c. Qed.

Lemma prepare_broker c k :
  credential_broker (prepare_config c k).1 = true → enabled (prepare_config c k).1 = true.
Proof.
  unfold prepare_config. cbn [fst]. set (c1 := if bool_decide (c_enabled k = Some false) then _ else c). clearbody c1.
  destruct (credential_broker c1) eqn:Ecb; cbn [andb]; [|congruence].
  destruct (enabled c1) eqn:Een; cbn [negb andb]; [done|]. intros _.
  destruct (_ && _); [|by destruct c1]. destruct (set_allowed_broker [str "*"] (set_enabled true c1)) as [_ ->]. by destruct c1.
Qed.

Lemma build_parts c k st :
  build c k = Ok st →
  cs_config st = (prepare_config c k).1 ∧ cs_constraints st = k ∧ cs_blocked st = [] ∧ cs_blocked_total st = 0%N ∧
  compile_allowlist_globset (allowed_list (cs_config st)) = Some (cs_allow_set st) ∧
  compile_denylist_globset (denied_list (cs_config st)) = Some (cs_deny_set st) ∧
  (is_Some (cs_mitm st) ↔ mitm (cs_config st) = true) ∧
  (credential_broker (cs_config st) = true → mitm (cs_config st) = true).
Proof.
  unfold build_config_state. destruct (prepare_config c k) as [c' b]. cbn [fst]. fold (allowed_list c') (denied_list c').
  destruct (validate_unix_socket_allowlist_paths c'); [|done]. cbn [map_err mbind result_bind].
  destruct (negb _) eqn:Eb; [done|]. destruct (validate_non_global_wildcard_domain_patterns _ _); [|done].
  cbn [map_err mbind result_bind].
  destruct (compile_denylist_globset _) as [ds|] eqn:Ed; [|done]. cbn [ok_or mbind result_bind].
  destruct (compile_allowlist_globset _) as [als|] eqn:Ea; [|done]. cbn [ok_or mbind result_bind].
  destruct (compile_mitm_hooks c') as [hooks|]; [|done]. cbn [map_err mbind result_bind].
  apply negb_false_iff, orb_true_iff in Eb. rewrite negb_true_iff in Eb.
  destruct (mitm c') eqn:Em; [destruct (mitm_new_ok _); [|done]|]; cbn [mbind result_bind]; intros [= <-]; cbn;
    rewrite ?Em; (do 6 (split; [done|])); naive_solver.
Qed.

(** A state that is built from settings that were accepted is good. *)
Lemma build_good c k st : validate_policy_against_constraints c k = Ok tt → build c k = Ok st → good st.
Proof.
  intros Hv (Ec & Ek & Eb & _ & Ha & Hd & Hm & Hbr)%build_parts. split; [|done|done|done| |by rewrite Eb; cbn; lia].
  - rewrite Ec, Ek. by apply prepare_within, validate_iff.
  - intros Hc. split; [|by apply Hbr]. rewrite Ec in Hc |- *. by apply prepare_broker.
Qed.

Lemma good_with_blocked bl t st : good st → length bl ≤ MAX_BLOCKED_EVENTS → good (with_blocked bl t st).
Proof. destruct st. intros []. by constructor. Qed.

Lemma trim_blocked_length l : length (trim_blocked l) ≤ MAX_BLOCKED_EVENTS.
Proof.
  induction l as [|b l IH]; [cbn; lia|]. cbn [trim_blocked].
  destruct (Nat.ltb_spec MAX_BLOCKED_EVENTS (length (b :: l))); [exact IH|done].
Qed.

(** Only the mode of the settings changes. *)
Lemma set_mode_within m c c' k : within (with_mode m c) k → within c' k → within (with_mode m c') k.
Proof. intros [? ? ? Hm ? ? ? ? ? ? ?] []. destruct c, c'. by constructor. Qed.

Lemma good_set_mode m c st :
  within (with_mode m c) (cs_constraints st) → good st → good (with_config (with_mode m (cs_config st)) st).
Proof.
  intros Hc [Hw ? ? ? ? ?]. pose proof (set_mode_within _ _ _ _ Hc Hw) as Hw'. destruct st as [cfg ? ? ? ? ? ? ? ?].
  destruct cfg. by constructor.
Qed.

(** ** Interleavings *)
(** An operation between the lock's two sections: a reload with the state that was loaded
    and the events that were read, an update with its snapshot, a change of the mode with the
    constraints it was checked against. *)
Inductive pending :=
  | PReload (new_state : ConfigState) (snapshot : list BlockedRequest * N)
  | PUpdate (host : rstring) (target : DomainListKind) (snapshot : UpdateSnapshot)
  | PMode (m : NetworkMode) (constraints : NetworkProxyConstraints).

Record system := mkSystem { shared : ConfigState; pendings : list pending }.

(** A state that comes from outside was built from settings that were accepted. *)
Definition loaded (st : ConfigState) : Prop :=
  ∃ c k, validate_policy_against_constraints c k = Ok tt ∧ build c k = Ok st.

Inductive step : system → system → Prop :=
  | reload_reads new st ps :
      loaded new → step (mkSystem st ps) (mkSystem st (PReload new (reload_read st) :: ps))
  | reload_writes new snap st ps1 ps2 :
      step (mkSystem st (ps1 ++ PReload new snap :: ps2)) (mkSystem (reload_write new snap) (ps1 ++ ps2))
  | force_reloads new st ps :
      loaded new → step (mkSystem st ps) (mkSystem (force_reload_write new st) ps)
  | replaces new st ps :
      loaded new → step (mkSystem st ps) (mkSystem (replace_config_state new st) ps)
  | update_reads host target st ps :
      step (mkSystem st ps) (mkSystem st (PUpdate host target (update_read st) :: ps))
  | update_writes host target snap st st' ps1 ps2 :
      update_domain_list_round mitm_new_ok host target snap st = Some (Ok st') →
      step (mkSystem st (ps1 ++ PUpdate host target snap :: ps2)) (mkSystem st' (ps1 ++ ps2))
  | update_ends host target snap st ps1 ps2 :
      (∀ st', update_domain_list_round mitm_new_ok host target snap st ≠ Some (Ok st')) →
      step (mkSystem st (ps1 ++ PUpdate host target snap :: ps2)) (mkSystem st (ps1 ++ ps2))
  | mode_reads m st k ps :
      mode_compute m st = Ok k → step (mkSystem st ps) (mkSystem st (PMode m k :: ps))
  | mode_writes m k st st' ps1 ps2 :
      mode_write m k st = Some st' → step (mkSystem st (ps1 ++ PMode m k :: ps2)) (mkSystem st' (ps1 ++ ps2))
  | mode_retries m k st ps1 ps2 :
      mode_write m k st = None → step (mkSystem st (ps1 ++ PMode m k :: ps2)) (mkSystem st (ps1 ++ ps2))
  | records a entry st ps : step (mkSystem st ps) (mkSystem (record_blocked a entry st) ps)
  | drains st ps : step (mkSystem st ps) (mkSystem (drain_blocked st).2 ps).

Definition pending_ok (p : pending) : Prop :=
  match p with
  | PReload new snap => good new ∧ length snap.1 ≤ MAX_BLOCKED_EVENTS
  | PUpdate _ _ snap => length (us_blocked snap) ≤ MAX_BLOCKED_EVENTS
  | PMode m k => ∃ c, within (with_mode m c) k
  end.
Definition good_system (s : system) : Prop := good (shared s) ∧ Forall pending_ok (pendings s).

Lemma loaded_good st : loaded st → good st.
Proof. intros (c & k & Hv & Hb). by eapply build_good. Qed.

Lemma update_round_good host target snap st st' :
  good st → length (us_blocked snap) ≤ MAX_BLOCKED_EVENTS →
  update_domain_list_round mitm_new_ok host target snap st = Some (Ok st') → good st'.
Proof.
  intros Hg Hl. unfold update_domain_list_round. destruct (host_parse host) as [h|]; [|done].
  destruct (update_compute _ h target snap) as [|e|new] eqn:E; [by intros [= <-]|done|].
  unfold update_write. destruct (_ || _); [done|]. cbn. intros [= <-]. revert E. unfold update_compute.
  destruct (_ && _); [done|]. destruct (validate_policy_against_constraints _ _) as [[]|] eqn:Ev; [|done].
  destruct (build_config_state _ _ _) as [new'|] eqn:Eb; [|done]. intros [= <-].
  apply good_with_blocked; [by eapply build_good|done].
Qed.

Lemma mode_write_good m k st st' :
  good st → (∃ c, within (with_mode m c) k) → mode_write m k st = Some st' → good st'.
Proof.
  intros Hg [c Hc]. unfold mode_write. destruct (bool_decide _) eqn:E; [done|]. intros [= <-].
  apply bool_decide_eq_false in E. eapply good_set_mode; [|done]. replace (cs_constraints st) with k; [exact Hc|].
  destruct (decide (cs_constraints st = k)); [done|by destruct E].
Qed.

Lemma step_good s s' : step s s' → good_system s → good_system s'.
Proof.
  intros Hstep [Hg Hp]. destruct Hstep; cbn [shared pendings] in *; rewrite ?Forall_app, ?Forall_cons in Hp.
  all: try (destruct Hp as (Hp1 & Hp0 & Hp2); cbn [pending_ok] in Hp0).
  all: split; cbn [shared pendings]; rewrite ?Forall_app, ?Forall_cons; try done.
  - split; [|done]. split; [by apply loaded_good|apply Hg].
  - apply good_with_blocked; naive_solver.
  - apply good_with_blocked; [by apply loaded_good|apply Hg].
  - apply good_with_blocked; [by apply loaded_good|apply Hg].
  - split; [apply Hg|done].
  - by eapply update_round_good.
  - split; [|done]. unfold mode_compute in H. destruct (validate_policy_against_constraints _ _) as [[]|] eqn:E; [|done].
    injection H as <-. exists (cs_config st). by apply validate_iff.
  - by eapply mode_write_good.
  - apply good_with_blocked; [done|apply trim_blocked_length].
  - apply good_with_blocked; [done|cbn; lia].
Qed.

Lemma steps_good s s' : rtc step s s' → good_system s → good_system s'.
Proof. induction 1; eauto using step_good. Qed.

(** C14: however reloads, updates of the lists, changes of the mode and recorded requests are
    interleaved, the shared state stays within its constraints, decides with the sets of its
    own lists, and keeps at most 200 blocked requests. *)
Theorem shared_state_consistent c k st s :
  validate_policy_against_constraints c k = Ok tt → build c k = Ok st → rtc step (mkSystem st []) s →
  validate_policy_against_constraints (cs_config (shared s)) (cs_constraints (shared s)) = Ok tt ∧
  compile_allowlist_globset (allowed_list (cs_config (shared s))) = Some (cs_allow_set (shared s)) ∧
  compile_denylist_globset (denied_list (cs_config (shared s))) = Some (cs_deny_set (shared s)) ∧
  (credential_broker (cs_config (shared s)) = true → enabled (cs_config (shared s)) = true ∧ mitm (cs_config (shared s)) = true) ∧
  length (cs_blocked (shared s)) ≤ MAX_BLOCKED_EVENTS.
Proof.
  intros Hv Hb Hs. destruct (steps_good _ _ Hs) as [[] _]; [split; [by eapply build_good|constructor]|].
  by rewrite validate_iff.
Qed.
End Shared.

(** ** Hosts that can be reached *)
Section Reachable.
Context {net_crates : NetCrates}.

(** An entry that names the host itself, without a wildcard, maybe without its scope. *)
Definition names_exactly (p host : rstring) : Prop :=
  contains (str "*") (trim p) = false ∧ contains (str "?") (trim p) = false ∧
  (proxy_normalize_host (trim p) = host ∨ unscoped_ip_literal host = Some (proxy_normalize_host (trim p))).

Lemma explicit_pattern_exact p host : explicit_pattern_matches host p = true → names_exactly p host.
Proof.
  unfold explicit_pattern_matches, names_exactly. destruct (_ || _); [done|].
  destruct (contains (str "*") (trim p)); [done|]. destruct (contains (str "?") (trim p)); [done|]. cbn [orb].
  rewrite orb_true_iff. unfold str_eqb. rewrite bool_decide_eq_true. intros H. split; [done|]. split; [done|].
  destruct H as [H|H]; [by left|right]. destruct (unscoped_ip_literal host); [|done]. cbn in H.
  apply bool_decide_eq_true in H. by rewrite H.
Qed.

Lemma existsb_false_Forall {A} (f : A → bool) l : existsb f l = false ↔ Forall (λ a, f a = false) l.
Proof. induction l as [|a l IH]; cbn; [by split|]. rewrite orb_false_iff, Forall_cons, IH. done. Qed.

(** What a host that is neither denied nor local passed. *)
Lemma not_blocked_local lookup st host port h :
  host_parse host = Some h → allow_local_binding (cs_config st) = false →
  (host_blocked lookup st host port = Allowed ∨ host_blocked lookup st host port = Blocked NotAllowed) →
  globset_matches_host_or_unscoped (cs_deny_set st) h = false ∧
  if local_literal h then ∃ p, p ∈ allowed_list (cs_config st) ∧ names_exactly p h
  else host_resolves_to_non_public_ip lookup h port = false.
Proof.
  intros Hh Hl. unfold host_blocked. rewrite Hh, Hl. fold (allowed_list (cs_config st)).
  destruct (globset_matches_host_or_unscoped (cs_deny_set st) h); [naive_solver|].
  destruct (local_literal h).
  - destruct (is_explicit_local_allowlisted _ h) eqn:E; cbn [negb]; [|naive_solver]. intros _. split; [done|].
    apply existsb_exists in E as (p & Hin%list_elem_of_In & Hp). exists p. eauto using explicit_pattern_exact.
  - destruct (host_resolves_to_non_public_ip lookup h port); [naive_solver|]. done.
Qed.

Lemma resolves_public lookup h port :
  host_resolves_to_non_public_ip lookup h port = false →
  (∃ ip, parse_ip h = Some ip ∧ is_non_public_ip ip = false) ∨
  (∃ addrs, lookup h port = Some addrs ∧ Forall (λ a, is_non_public_ip (sa_ip a) = false) addrs).
Proof.
  unfold host_resolves_to_non_public_ip. destruct (parse_ip h) as [ip|]; [intros H; left; eauto|].
  destruct (lookup h port) as [addrs|]; [|done]. intros H%existsb_false_Forall. right. eauto.
Qed.

(** C13: unless local binding is on, a request that the policy allows, whatever the decider
    says, goes to a host that no deny pattern matches, and that is either a local address
    which an entry without wildcards names, or a public address, or a name all of whose
    addresses were resolved in time and are public. *)
Theorem reachable_hosts_not_private lookup st attribution decider request h :
  host_parse (pr_host request) = Some h → allow_local_binding (cs_config st) = false →
  (evaluate_host_policy (host_blocked lookup st (pr_host request) (pr_port request)) attribution decider request).1 = Allow →
  globset_matches_host_or_unscoped (cs_deny_set st) h = false ∧
  if local_literal h then ∃ p, p ∈ allowed_list (cs_config st) ∧ names_exactly p h
  else (∃ ip, parse_ip h = Some ip ∧ is_non_public_ip ip = false) ∨
       (∃ addrs, lookup h (pr_port request) = Some addrs ∧ Forall (λ a, is_non_public_ip (sa_ip a) = false) addrs).
Proof.
  intros Hh Hl Hallow. destruct (not_blocked_local lookup st (pr_host request) (pr_port request) h) as [Hd Hx]; [done|done|..].
  { revert Hallow. unfold evaluate_host_policy. destruct (host_blocked _ _ _ _) as [|[]]; cbn; [by left|done|by right|done]. }
  split; [done|]. destruct (local_literal h); [done|]. by apply resolves_public.
Qed.
End Reachable.

(** ** Examples *)
(** Globs as [*], [?*.] and exact names, URL hosts in lower case. *)
Definition example_net_crates : NetCrates := {|
  glob_ok := λ _, true;
  globset_ok := λ _, true;
  glob_matches := λ g h, str_eqb g (str "*") || str_eqb (to_ascii_lowercase h) (to_ascii_lowercase g) ||
    is_some_and (strip_prefix (str "?*.") g) (λ d,
      ends_with (str "." ++ to_ascii_lowercase d) (to_ascii_lowercase h) && (S (length d) <? length h));
  url_host := λ h, Some (to_ascii_lowercase h);
|}.

#[global] Instance example_glob_laws : GlobLaws (net_crates := example_net_crates).
Proof.
  split; intros d h Hd Hh; cbn [glob_matches example_net_crates].
  - destruct (plain_no_wildcard d Hd) as (_ & _ & ->). cbn [orb].
    assert (Hq : strip_prefix (str "?*.") d = None).
    { apply strip_prefix_None. intros r ->. apply (plain_absent 63 _ Hd); [done|]. vm_compute. left. }
    rewrite Hq. cbn. rewrite orb_false_r. apply bool_decide_eq_true.
  - change (str_eqb (str "?*." ++ d) (str "*")) with false. cbn [orb]. rewrite strip_prefix_app. cbn [is_some_and].
    assert (Hl : length (to_ascii_lowercase h) = length h) by apply length_map.
    assert (Hl' : length (to_ascii_lowercase d) = length d) by apply length_map.
    rewrite orb_true_iff, andb_true_iff, ends_with_true, Nat.ltb_lt. unfold str_eqb. rewrite bool_decide_eq_true. split.
    + intros [E|[[s E] Hlt] ].
      * exists (str "?*"). split; [done|]. rewrite E. done.
      * exists s. split; [|done]. intros ->. rewrite E, !length_app, Hl' in Hl.
        change (length (str ".")) with 1 in Hl. simpl in Hl. lia.
    + intros (s & Hs & E). right. split; [by exists s|]. rewrite <- Hl, E, !length_app, Hl'.
      change (length (str ".")) with 1. destruct s; [done|]. simpl. lia.
Qed.

Definition managed_constraints : NetworkProxyConstraints :=
  mkConstraints (Some true) (Some Full) None None None (Some [str "**.example.com"; str "10.0.0.5"]) None None None None (Some false).
Definition managed_config : NetworkProxyConfig :=
  set_allowed_domains [str "*.api.example.com"; str "10.0.0.5"] (set_enabled true config_default).

Lemma example_plain pre d :
  pre ∈ wildcard_prefixes → d ≠ [] → forallb domain_char d = true → head d ≠ Some 46%N → trim (pre ++ d) = pre ++ d →
  plain_pattern (net_crates := example_net_crates) (pre ++ d).
Proof.
  intros Hpre Hne Hd Hh Ht. exists pre, d. split; [done|]. split; [done|]. split_and!; [done| |done|done].
  apply Forall_forall. intros c Hc. rewrite forallb_forall in Hd. by apply Hd, list_elem_of_In.
Qed.

Lemma accepted_settings_within_constraints_witness :
  globset_matches_host_or_unscoped (net_crates := example_net_crates)
    [str "example.com"; str "?*.example.com"; str "10.0.0.5"] (str "X.api.example.com") = true.
Proof.
  assert (validate_policy_against_constraints (host_env := example_env) (net_crates := example_net_crates)
            (hook_crates := example_hooks_crates) managed_config managed_constraints = Ok tt) as H by (vm_compute; reflexivity).
  pose proof (accepted_settings_within_constraints (host_env := example_env) (net_crates := example_net_crates)
    (hook_crates := example_hooks_crates) (laws := example_glob_laws) _ _ H) as (_ & _ & _ & _ & _ & _ & _ & _ & Hm).
  refine (Hm _ eq_refl _ _ [str "?*.api.example.com"; str "10.0.0.5"] _ (str "X.api.example.com") _ _ _ _).
  - repeat constructor; [apply (example_plain (str "**.") (str "example.com"))|apply (example_plain [] (str "10.0.0.5"))];
      by apply (bool_decide_unpack _); vm_compute.
  - repeat constructor; [apply (example_plain (str "*.") (str "api.example.com"))|apply (example_plain [] (str "10.0.0.5"))];
      by apply (bool_decide_unpack _); vm_compute.
  - vm_compute. reflexivity.
  - vm_compute. reflexivity.
  - by apply (bool_decide_unpack _); vm_compute.
  - vm_compute. reflexivity.
Defined.

(** A pattern that is not plain can be wider than what it is compared with: [*:x.example.com]
    is below [**.example.com] for the comparison, which keeps the text as it is, and compiles
    to the glob of every host, because the text after the colon is dropped as a port. *)
Example port_pattern_matches_everything :
  let wide := set_allowed_domains [str "*:x.example.com"] (set_enabled true config_default) in
  validate_policy_against_constraints (host_env := example_env) (net_crates := example_net_crates)
    (hook_crates := example_hooks_crates) wide managed_constraints = Ok tt ∧
  compile_allowlist_globset (net_crates := example_net_crates) (allowed_list wide) = Some [str "*"] ∧
  globset_is_match (net_crates := example_net_crates) [str "*"] (str "evil.com") = true.
Proof. split_and!; vm_compute; reflexivity. Qed.

(** The state of these settings, computed. *)
Definition managed_state : ConfigState :=
  mkState managed_config false [str "?*.api.example.com"; str "10.0.0.5"] [] None ∅ managed_constraints [] 0.

Lemma managed_state_built :
  build_config_state (host_env := example_env) (net_crates := example_net_crates) (hook_crates := example_hooks_crates)
    (λ _, true) managed_config managed_constraints = Ok managed_state.
Proof. vm_compute. reflexivity. Qed.

Definition example_request (host : string) : NetworkPolicyRequest :=
  mkPolicyRequest Http (str host) 80 None None (Some (str "GET")) None None None.

Lemma reachable_hosts_not_private_witness :
  globset_matches_host_or_unscoped (net_crates := example_net_crates) (cs_deny_set managed_state) (str "10.0.0.5") = false ∧
  ∃ p, p ∈ allowed_list (cs_config managed_state) ∧ names_exactly p (str "10.0.0.5").
Proof.
  assert (host_parse (pr_host (example_request "10.0.0.5:80")) = Some (str "10.0.0.5")) as Hh by (vm_compute; reflexivity).
  assert (allow_local_binding (cs_config managed_state) = false) as Hl by (vm_compute; reflexivity).
  assert ((evaluate_host_policy (host_blocked (net_crates := example_net_crates) (λ _ _, None) managed_state
            (pr_host (example_request "10.0.0.5:80")) (pr_port (example_request "10.0.0.5:80")))
            (mkAttribution None None) None (example_request "10.0.0.5:80")).1 = Allow) as Ha by (vm_compute; reflexivity).
  exact (reachable_hosts_not_private (net_crates := example_net_crates) (λ _ _, None) managed_state _ None _ _ Hh Hl Ha).
Defined.

Example blocked_hosts :
  let blocked := host_blocked (net_crates := example_net_crates) (λ _ _, Some [mkSocketAddr (V4 (ipv4_of 192 168 0 1)) 80]) managed_state in
  blocked (str "localhost") 80%N = Blocked NotAllowedLocal ∧ blocked (str "169.254.169.254") 80%N = Blocked NotAllowedLocal ∧
  blocked (str "x.api.example.com") 80%N = Blocked NotAllowedLocal ∧ blocked (str "10.0.0.5") 80%N = Allowed ∧
  blocked (str "8.8.8.8") 80%N = Blocked NotAllowed ∧ blocked (str " ") 80%N = Blocked NotAllowed.
Proof. repeat split; vm_compute; reflexivity. Qed.

Definition example_blocked : BlockedRequest :=
  mkBlocked (str "evil.com") (str "not_allowed") None None None (str "http") None None None None 0.

(** A request that is recorded while an update computes its new state is lost, and so is its
    count: the update writes back the buffer that it had read. *)
Example update_loses_blocked_request :
  let recorded := record_blocked (mkAttribution None None) example_blocked managed_state in
  cs_blocked_total recorded = 1%N ∧ blocked_snapshot recorded = [example_blocked] ∧
  ∃ st, update_domain_list_round (host_env := example_env) (net_crates := example_net_crates)
          (hook_crates := example_hooks_crates) (λ _, true) (str "y.example.com") AllowList (update_read managed_state) recorded =
          Some (Ok st) ∧ blocked_snapshot st = [] ∧ cs_blocked_total st = 0%N.
Proof.
  split; [reflexivity|]. split; [reflexivity|]. eexists.
  split; [vm_compute; reflexivity|]. split; reflexivity.
Qed.

(** A forced reload keeps the buffer but starts the count again. *)
Example force_reload_resets_count :
  let recorded := record_blocked (mkAttribution None None) example_blocked managed_state in
  blocked_snapshot (force_reload_write managed_state recorded) = [example_blocked] ∧
  cs_blocked_total (force_reload_write managed_state recorded) = 0%N.
Proof. split; reflexivity. Qed.

Lemma shared_state_consistent_witness :
  length (cs_blocked (record_blocked (mkAttribution None None) example_blocked managed_state)) ≤ MAX_BLOCKED_EVENTS.
Proof.
  assert (validate_policy_against_constraints (host_env := example_env) (net_crates := example_net_crates)
            (hook_crates := example_hooks_crates) managed_config managed_constraints = Ok tt) as H by (vm_compute; reflexivity).
  pose proof (shared_state_consistent (host_env := example_env) (net_crates := example_net_crates)
    (hook_crates := example_hooks_crates) (λ _, true) managed_config managed_constraints managed_state
    (mkSystem (record_blocked (mkAttribution None None) example_blocked managed_state) [])
    H managed_state_built) as Hs.
  apply Hs. apply rtc_once. apply records.
Defined.
