(* ===== verification/NetEnv.v ===== *)
(** * Policies of execution environments

    Models [sofia-rs/network-proxy/src/environment_policy.rs], the restrictions that the
    owner of an execution environment adds to the settings of the controller, and
    [remote_config.rs], the settings that are sent to a remote executor, with the theorem
    that says what an attached policy does to the settings of the controller. *)

From stdpp Require Import base list numbers strings gmap.
From S2P Require Import Prelude Machine AbsolutePath IpAddr NetPolicy NetConfig.

#[local] Set Default Proof Using "Type*".
#[local] Arguments str : simpl never.

Record EnvironmentNetworkPolicy := mkEnvPolicy {
  ep_domains : option NetworkDomainPermissions;
  ep_unix_sockets : option NetworkUnixSocketPermissions;
  ep_allow_upstream_proxy : bool;
  ep_dangerously_allow_all_unix_sockets : bool;
  ep_allow_local_binding : bool;
  ep_managed_allowed_domains_only : bool }.

Definition from_config (c : NetworkProxyConfig) (managed_allowed_domains_only : bool) : EnvironmentNetworkPolicy :=
  mkEnvPolicy (domains c) (unix_sockets c) (allow_upstream_proxy c) (dangerously_allow_all_unix_sockets c)
    (allow_local_binding c) managed_allowed_domains_only.

Definition any_denied (sockets : NetworkUnixSocketPermissions) : bool :=
  existsb (λ e, bool_decide (e.2 = SocketDeny)) (btree_entries sockets).

(** The sockets of the owner that are kept. *)
Definition retained_sockets (inherited owner : NetworkUnixSocketPermissions) (inherited_permits_all : bool)
    : NetworkUnixSocketPermissions :=
  filter (λ e, e.2 = SocketDeny ∨ inherited_permits_all = true ∨ inherited !! e.1 = Some SocketAllow) owner.

(** The sockets of the controller that are put in. *)
Definition insert_inherited (inherited : list (rstring * NetworkUnixSocketPermission)) (owner_permits_all : bool)
    (m : NetworkUnixSocketPermissions) : NetworkUnixSocketPermissions :=
  foldl (λ m e, if owner_permits_all || bool_decide (e.2 = SocketDeny) then <[e.1 := e.2]> m else m) m inherited.

Definition apply_to (p : EnvironmentNetworkPolicy) (c : NetworkProxyConfig) : NetworkProxyConfig :=
  let inherited_denials := default [] (denied_domains c) in
  let c := set_domains (ep_domains p) c in
  let c := foldl (λ c d, upsert_domain_permission d PermDeny proxy_normalize_host c) c inherited_denials in
  let inherited_sockets := default ∅ (unix_sockets c) in
  let effective_sockets := default ∅ (ep_unix_sockets p) in
  let inherited_permits_all := dangerously_allow_all_unix_sockets c && negb (any_denied inherited_sockets) in
  let owner_permits_all := ep_dangerously_allow_all_unix_sockets p && negb (any_denied effective_sockets) in
  let effective_sockets := retained_sockets inherited_sockets effective_sockets inherited_permits_all in
  let effective_sockets := insert_inherited (btree_entries inherited_sockets) owner_permits_all effective_sockets in
  let c := set_unix_sockets (non_empty_map effective_sockets) c in
  set_flags (allow_upstream_proxy c && ep_allow_upstream_proxy p) (inherited_permits_all && owner_permits_all)
    (allow_local_binding c && ep_allow_local_binding p) c.

(** ** [remote_config.rs] *)
Record RemoteNetworkProxyConfig := mkRemote {
  rc_enabled : bool; rc_enable_socks5 : bool; rc_enable_socks5_udp : bool; rc_allow_upstream_proxy : bool;
  rc_dangerously_allow_all_unix_sockets : bool; rc_mode : NetworkMode;
  rc_domains : option NetworkDomainPermissions; rc_unix_sockets : option NetworkUnixSocketPermissions;
  rc_allow_local_binding : bool }.

(** The error is one message. *)
Definition from_effective_config (c : NetworkProxyConfig) : option RemoteNetworkProxyConfig :=
  if negb (enabled c) ||
     (negb (mitm c) && negb (credential_broker c) && negb (dangerously_allow_plaintext_credential_injection c) &&
      is_empty (mitm_hooks c))
  then Some (mkRemote (enabled c) (enable_socks5 c) (enable_socks5_udp c) (allow_upstream_proxy c)
               (dangerously_allow_all_unix_sockets c) (mode c) (domains c) (unix_sockets c) (allow_local_binding c))
  else None.

Definition into_network_proxy_config (r : RemoteNetworkProxyConfig) : NetworkProxyConfig :=
  mkConfig (rc_enabled r) default_proxy_url (rc_enable_socks5 r) default_socks_url (rc_enable_socks5_udp r)
    (rc_allow_upstream_proxy r) false (rc_dangerously_allow_all_unix_sockets r) (rc_mode r) (rc_domains r)
    (rc_unix_sockets r) (rc_allow_local_binding r) false false None false [].

Lemma from_effective_config_Some c r :
  from_effective_config c = Some r →
  enabled c = true → mitm c = false ∧ credential_broker c = false ∧ mitm_hooks c = [] ∧
    dangerously_allow_plaintext_credential_injection c = false.
Proof.
  unfold from_effective_config. intros H He. rewrite He in H. cbn [negb orb] in H.
  destruct (mitm c), (credential_broker c), (dangerously_allow_plaintext_credential_injection c), (mitm_hooks c); done.
Qed.

(** ** An attached policy *)
(** The runtime's test for a socket, as far as the settings go: all sockets, or an entry. *)
Definition permits_socket (all : bool) (sockets : NetworkUnixSocketPermissions) (path : rstring) : Prop :=
  all = true ∨ sockets !! path = Some SocketAllow.

(** A policy permits every socket only if it denies none. *)
Definition policy_permits (all : bool) (sockets : NetworkUnixSocketPermissions) (path : rstring) : Prop :=
  (all = true ∧ ∀ q, sockets !! q ≠ Some SocketDeny) ∨ sockets !! path = Some SocketAllow.

Lemma btree_entries_elem {A} (m : gmap rstring A) k v : (k, v) ∈ btree_entries m ↔ m !! k = Some v.
Proof. unfold btree_entries. by rewrite sort_by_perm, elem_of_map_to_list. Qed.

Lemma any_denied_false m : any_denied m = false ↔ ∀ q, m !! q ≠ Some SocketDeny.
Proof.
  unfold any_denied. rewrite <- not_true_iff_false, existsb_exists. split.
  - intros H q Hq. apply H. exists (q, SocketDeny). split; [|by apply bool_decide_eq_true].
    apply list_elem_of_In. by apply btree_entries_elem.
  - intros H ([k v] & Hin%list_elem_of_In & Hv). cbn in Hv. apply bool_decide_eq_true in Hv. subst v.
    apply btree_entries_elem in Hin. by eapply H.
Qed.

(** An entry of the result comes from the map before or from an inserted one. *)
Lemma insert_inherited_Allow l all m path :
  insert_inherited l all m !! path = Some SocketAllow →
  m !! path = Some SocketAllow ∨ (all = true ∧ (path, SocketAllow) ∈ l).
Proof.
  unfold insert_inherited. revert m. induction l as [|[k v] l IH]; intros m; cbn [foldl fst snd]; [by left|].
  intros [H|[H1 H2]]%IH; [|right; split; [done|by right]]. destruct all; cbn [orb] in H.
  - destruct (decide (k = path)) as [->|Hne].
    + rewrite lookup_insert_eq in H. injection H as ->. right. split; [done|by left].
    + rewrite lookup_insert_ne in H by done. by left.
  - case_bool_decide as Hv; [|by left]. subst v. destruct (decide (k = path)) as [->|Hne].
    + by rewrite lookup_insert_eq in H.
    + rewrite lookup_insert_ne in H by done. by left.
Qed.

Lemma insert_inherited_other l all m path :
  path ∉ map fst l → insert_inherited l all m !! path = m !! path.
Proof.
  unfold insert_inherited. revert m. induction l as [|[k v] l IH]; intros m; cbn [foldl map fst snd]; [done|].
  intros [Hne Hk]%not_elem_of_cons. rewrite IH by done. destruct (_ || _); [by rewrite lookup_insert_ne|done].
Qed.

Lemma insert_inherited_Deny l all m path :
  NoDup (map fst l) → (path, SocketDeny) ∈ l → insert_inherited l all m !! path = Some SocketDeny.
Proof.
  revert m. induction l as [|[k v] l IH]; intros m Hnd; [intros []%not_elem_of_nil|].
  cbn [map fst] in Hnd. apply NoDup_cons in Hnd as [Hk Hnd]. intros [[= -> <-]|Hin]%elem_of_cons; [|by apply IH].
  change (insert_inherited l all
    (if all || bool_decide (SocketDeny = SocketDeny) then <[k := SocketDeny]> m else m) !! k = Some SocketDeny).
  rewrite insert_inherited_other by done. rewrite bool_decide_eq_true_2, orb_true_r by done. apply lookup_insert_eq.
Qed.

Lemma btree_entries_NoDup {A} (m : gmap rstring A) : NoDup (map fst (btree_entries m)).
Proof.
  unfold btree_entries. change (map fst) with (fmap (M := list) (@fst rstring A)).
  rewrite sort_by_perm. apply NoDup_fst_map_to_list.
Qed.

Lemma retained_Allow inherited owner all path :
  retained_sockets inherited owner all !! path = Some SocketAllow →
  owner !! path = Some SocketAllow ∧ (all = true ∨ inherited !! path = Some SocketAllow).
Proof. unfold retained_sockets. rewrite map_lookup_filter_Some. naive_solver. Qed.

(** The denials of the controller, in the order in which they are put in. *)
Lemma upsert_denials l c d :
  (d ∈ l ∨ d ∈ denied_list c) →
  ∃ d', d' ∈ denied_list (foldl (λ c d, upsert_domain_permission d PermDeny proxy_normalize_host c) c l) ∧
        proxy_normalize_host d' = proxy_normalize_host d.
Proof.
  revert c d. induction l as [|x l IH]; intros c d; cbn [foldl].
  { intros [[]%not_elem_of_nil|H]. eauto. }
  intros Hd. destruct (decide (proxy_normalize_host d = proxy_normalize_host x)) as [Heq|Hne].
  - destruct (IH (upsert_domain_permission x PermDeny proxy_normalize_host c) x) as (d' & Hin & Hn).
    { right. apply denied_elem, upsert_entries. by left. }
    exists d'. by rewrite Heq.
  - apply IH. destruct Hd as [[->|Hd]%elem_of_cons|Hd]; [done|by left|right].
    apply denied_elem, upsert_entries. right. split; [by apply denied_elem|done].
Qed.

Lemma fold_upsert_fields l c :
  let c' := foldl (λ c d, upsert_domain_permission d PermDeny proxy_normalize_host c) c l in
  unix_sockets c' = unix_sockets c ∧ dangerously_allow_all_unix_sockets c' = dangerously_allow_all_unix_sockets c ∧
  allow_upstream_proxy c' = allow_upstream_proxy c ∧ allow_local_binding c' = allow_local_binding c.
Proof.
  revert c. induction l as [|x l IH]; intros c; cbn [foldl]; [done|].
  destruct (IH (upsert_domain_permission x PermDeny proxy_normalize_host c)) as (-> & -> & -> & ->). by destruct c.
Qed.

Definition sockets_of (c : NetworkProxyConfig) : NetworkUnixSocketPermissions := default ∅ (unix_sockets c).

(** The sockets that the two policies give. *)
Definition merged_sockets (inherited owner : NetworkUnixSocketPermissions) (inherited_all owner_all : bool)
    : NetworkUnixSocketPermissions :=
  insert_inherited (btree_entries inherited) owner_all (retained_sockets inherited owner inherited_all).

Lemma default_non_empty_map {A} (m : gmap rstring A) : default ∅ (non_empty_map m) = m.
Proof. unfold non_empty_map. case_bool_decide; [by subst|done]. Qed.

Lemma apply_to_fields p c :
  let inherited_all := dangerously_allow_all_unix_sockets c && negb (any_denied (sockets_of c)) in
  let owner := default ∅ (ep_unix_sockets p) in
  let owner_all := ep_dangerously_allow_all_unix_sockets p && negb (any_denied owner) in
  sockets_of (apply_to p c) = merged_sockets (sockets_of c) owner inherited_all owner_all ∧
  dangerously_allow_all_unix_sockets (apply_to p c) = inherited_all && owner_all ∧
  allow_upstream_proxy (apply_to p c) = allow_upstream_proxy c && ep_allow_upstream_proxy p ∧
  allow_local_binding (apply_to p c) = allow_local_binding c && ep_allow_local_binding p ∧
  domains (apply_to p c) =
    domains (foldl (λ c d, upsert_domain_permission d PermDeny proxy_normalize_host c) (set_domains (ep_domains p) c) (denied_list c)).
Proof.
  unfold apply_to. fold (denied_list c).
  pose proof (fold_upsert_fields (denied_list c) (set_domains (ep_domains p) c)) as (E1 & E2 & E3 & E4).
  set (c1 := foldl _ _ (denied_list c)) in *. clearbody c1.
  assert (unix_sockets c1 = unix_sockets c ∧ dangerously_allow_all_unix_sockets c1 = dangerously_allow_all_unix_sockets c ∧
    allow_upstream_proxy c1 = allow_upstream_proxy c ∧ allow_local_binding c1 = allow_local_binding c) as (F1 & F2 & F3 & F4)
    by (rewrite E1, E2, E3, E4; by destruct c).
  unfold sockets_of. rewrite <- F1, <- F2, <- F3, <- F4. clear. destruct c1. cbn. by rewrite default_non_empty_map.
Qed.

Lemma policy_permits_all all sockets path :
  all && negb (any_denied sockets) = true → policy_permits all sockets path.
Proof. intros [? ?%negb_true_iff]%andb_true_iff. left. by rewrite <- any_denied_false. Qed.

Lemma merged_Allow inherited owner ia oa path :
  merged_sockets inherited owner (ia && negb (any_denied inherited)) (oa && negb (any_denied owner)) !! path = Some SocketAllow →
  policy_permits ia inherited path ∧ policy_permits oa owner path.
Proof.
  unfold merged_sockets. intros [[Ho [Hi|Hi]]%retained_Allow|[Ha Hin%btree_entries_elem]]%insert_inherited_Allow.
  - split; [by apply policy_permits_all|by right].
  - split; by right.
  - split; [by right|by apply policy_permits_all].
Qed.

(** The entries after the denials were put in. *)
Lemma upsert_denials_allow l c d :
  mkEntry d PermAllow ∈ entries_of (foldl (λ c d, upsert_domain_permission d PermDeny proxy_normalize_host c) c l) ↔
  mkEntry d PermAllow ∈ entries_of c ∧ Forall (λ x, proxy_normalize_host x ≠ proxy_normalize_host d) l.
Proof.
  revert c. induction l as [|x l IH]; intros c; cbn [foldl]; [naive_solver|].
  rewrite IH, Forall_cons, upsert_entries. cbn [pattern]. naive_solver.
Qed.

Lemma upsert_denials_deny l c d :
  mkEntry d PermDeny ∈ entries_of (foldl (λ c d, upsert_domain_permission d PermDeny proxy_normalize_host c) c l) →
  d ∈ l ∨ mkEntry d PermDeny ∈ entries_of c.
Proof.
  revert c. induction l as [|x l IH]; intros c; cbn [foldl]; [by right|].
  intros [H|H]%IH; [left; by right|]. apply upsert_entries in H as [[= ->]|[H _]]; [left; by left|by right].
Qed.

(** The domains of a policy that is applied. *)
Lemma apply_to_domains p c :
  entries_of (apply_to p c) =
  entries_of (foldl (λ c d, upsert_domain_permission d PermDeny proxy_normalize_host c) (set_domains (ep_domains p) c) (denied_list c)).
Proof. destruct (apply_to_fields p c) as (_ & _ & _ & _ & Hd). unfold entries_of. by rewrite Hd. Qed.

Lemma apply_to_allowed p c d :
  d ∈ allowed_list (apply_to p c) ↔
  d ∈ allowed_list (set_domains (ep_domains p) c) ∧
  Forall (λ x, proxy_normalize_host x ≠ proxy_normalize_host d) (denied_list c).
Proof.
  rewrite !allowed_elem, apply_to_domains, upsert_denials_allow. split.
  - intros [[H Hl] Hn]. split_and!; [done| |done]. intros Hd. apply Hn. clear Hn H.
    revert Hd. generalize (set_domains (ep_domains p) c) as c0. generalize (denied_list c) as l, Hl.
    intros l Hl'. induction Hl' as [|x l Hx Hl' IH]; intros c0 Hd; cbn [foldl]; [done|].
    apply IH, upsert_entries. right. by split.
  - intros [[H Hn] Hl]. split; [done|]. intros [Hd|Hd]%upsert_denials_deny; [|done].
    rewrite Forall_forall in Hl. by apply (Hl d).
Qed.

(** C32: what applying the policy of an environment's owner does to the settings of the
    controller.  The allowed domains are those of the owner, whether or not the controller
    allowed them, less the hosts that the controller denies; the denied domains are those of
    both.  A socket that can be used afterwards is permitted by both policies and not denied
    by the controller, and an upstream proxy or local binding needs both. *)
Theorem attached_policy_effect p c :
  (∀ d, d ∈ allowed_list (apply_to p c) ↔
     d ∈ allowed_list (set_domains (ep_domains p) c) ∧
     Forall (λ x, proxy_normalize_host x ≠ proxy_normalize_host d) (denied_list c)) ∧
  (∀ d, d ∈ denied_list c ∨ d ∈ denied_list (set_domains (ep_domains p) c) →
     ∃ d', d' ∈ denied_list (apply_to p c) ∧ proxy_normalize_host d' = proxy_normalize_host d) ∧
  (∀ d, d ∈ denied_list (apply_to p c) → d ∈ denied_list c ∨ d ∈ denied_list (set_domains (ep_domains p) c)) ∧
  (∀ path, permits_socket (dangerously_allow_all_unix_sockets (apply_to p c)) (sockets_of (apply_to p c)) path →
     policy_permits (dangerously_allow_all_unix_sockets c) (sockets_of c) path ∧
     policy_permits (ep_dangerously_allow_all_unix_sockets p) (default ∅ (ep_unix_sockets p)) path ∧
     sockets_of c !! path ≠ Some SocketDeny) ∧
  (allow_upstream_proxy (apply_to p c) = true ↔ allow_upstream_proxy c = true ∧ ep_allow_upstream_proxy p = true) ∧
  (allow_local_binding (apply_to p c) = true ↔ allow_local_binding c = true ∧ ep_allow_local_binding p = true).
Proof.
  destruct (apply_to_fields p c) as (Hs & Ha & Hu & Hl & Hd). split_and!.
  - apply apply_to_allowed.
  - intros d Hin. destruct (upsert_denials (denied_list c) (set_domains (ep_domains p) c) d Hin) as (d' & Hd' & Hn).
    exists d'. split; [|done]. by rewrite denied_elem, apply_to_domains, <- denied_elem.
  - intros d. rewrite (denied_elem (apply_to p c)), apply_to_domains, (denied_elem (set_domains _ c)). apply upsert_denials_deny.
  - intros path. unfold permits_socket. rewrite Ha, Hs. intros [H|H].
    + apply andb_true_iff in H as [H1 H2]. split; [by apply policy_permits_all|]. split; [by apply policy_permits_all|].
      apply andb_true_iff in H1 as [_ H1%negb_true_iff]. by apply any_denied_false.
    + destruct (merged_Allow _ _ _ _ _ H). split; [done|]. split; [done|]. intros Hdeny%btree_entries_elem.
      unfold merged_sockets in H. by rewrite insert_inherited_Deny in H by (done || apply btree_entries_NoDup).
  - rewrite Hu. apply andb_true_iff.
  - rewrite Hl. apply andb_true_iff.
Qed.

Example attached_policy_example :
  let c := set_denied_domains [str "evil.com"] (set_unix_sockets (Some {[str "/a" := SocketAllow; str "/b" := SocketDeny]}) config_default) in
  let p := mkEnvPolicy (Some [mkEntry (str "evil.com") PermAllow; mkEntry (str "good.com") PermAllow])
             (Some {[str "/a" := SocketAllow; str "/b" := SocketAllow; str "/c" := SocketAllow]}) true false true false in
  allowed_domains (apply_to p c) = Some [str "good.com"] ∧ denied_domains (apply_to p c) = Some [str "evil.com"] ∧
  allow_unix_sockets (apply_to p c) = [str "/a"] ∧ allow_local_binding (apply_to p c) = false.
Proof. repeat split; vm_compute; reflexivity. Qed.
