(* ===== verification/PathUri.v ===== *)
(** * Path URIs

    Models the crate [sofia-rs/utils/path-uri/]: [PathUri], a validated [file:] URL whose
    path is inspected by segments under the convention that its shape implies, the parsing
    of native paths of both conventions, joins, containment, the opaque URIs of paths that
    have no URL, and [LegacyAppPathString], the text form of the API.  The crates [url],
    [urlencoding] and [base64] are interfaces. *)

From stdpp Require Import base list numbers strings.
From S2P Require Import Prelude StreamUtf8 CommandSafety Permissions.

#[local] Set Default Proof Using "Type*".
#[local] Arguments str : simpl never.

(** ** Crates *)
(** [url::Url].  A [file:] URL always has segments, those of its path between slashes. *)
Class UrlOps (Url : Type) := {
  Url_eq_dec :: EqDecision Url;
  Url_parse : rstring → result rstring Url;
  Url_from_file_path : rstring → option Url;
  Url_as_str : Url → rstring;
  Url_scheme : Url → rstring;
  Url_username : Url → rstring;
  Url_password : Url → option rstring;
  Url_host_str : Url → option rstring;
  Url_port : Url → option N;
  Url_path : Url → rstring;
  Url_path_segments : Url → list rstring;
  Url_query : Url → option rstring;
  Url_fragment : Url → option rstring;
  Url_set_host : Url → option rstring → option Url;
  Url_set_path : Url → rstring → Url;
  (** The operations of [path_segments_mut]. *)
  Url_clear : Url → Url;
  Url_pop_if_empty : Url → Url;
  Url_pop : Url → Url;
  Url_push : Url → rstring → Url;
}.

(** [urlencoding] on the bytes of a text, and [URL_SAFE_NO_PAD] of [base64]. *)
Class UriCodecs := {
  decode_binary : rstring → list N;
  encode_binary : list N → rstring;
  base64_encode : list N → rstring;
  base64_decode : rstring → option (list N);
}.

(** ** Standard library *)
Fixpoint utf16_units (s : rstring) : list N :=
  match s with
  | [] => []
  | c :: s =>
      if (c <? 0x10000)%N then c :: utf16_units s
      else (0xD800 + (c - 0x10000) / 0x400)%N :: (0xDC00 + (c - 0x10000) mod 0x400)%N :: utf16_units s
  end.
Definition le_bytes (unit : N) : list N := [(unit mod 256)%N; (unit / 256)%N].

(** [chunks_exact(2)] with [u16::from_le_bytes]. *)
Fixpoint le_units (bytes : list N) : list N :=
  match bytes with
  | lo :: hi :: rest => (lo + 256 * hi)%N :: le_units rest
  | _ => []
  end.

Definition REPLACEMENT : N := 0xFFFD.
Definition is_high (u : N) : bool := ((0xD800 <=? u) && (u <? 0xDC00))%N.
Definition is_low (u : N) : bool := ((0xDC00 <=? u) && (u <? 0xE000))%N.

Fixpoint from_utf16_lossy (units : list N) : rstring :=
  match units with
  | [] => []
  | u :: rest =>
      if is_high u then
        match rest with
        | v :: rest' =>
            if is_low v then (0x10000 + (u - 0xD800) * 0x400 + (v - 0xDC00))%N :: from_utf16_lossy rest'
            else REPLACEMENT :: from_utf16_lossy rest
        | [] => [REPLACEMENT]
        end
      else (if is_low u then REPLACEMENT else u) :: from_utf16_lossy rest
  end.

(** [String::from_utf8_lossy]: every maximal invalid piece becomes one replacement. *)
Fixpoint utf8_lossy (fuel : nat) (bytes : list N) : rstring :=
  match fuel, from_utf8 bytes with
  | _, Ok s => s
  | O, Err _ => []
  | S fuel, Err e =>
      let valid := default [] (result_ok (from_utf8 (take (valid_up_to e) bytes))) in
      valid ++ REPLACEMENT ::
      match error_len e with
      | Some n => utf8_lossy fuel (drop (valid_up_to e + n) bytes)
      | None => []
      end
  end.
Definition from_utf8_lossy (bytes : list N) : rstring := utf8_lossy (length bytes) bytes.

Definition is_ascii_uppercase (c : N) : bool := ((65 <=? c) && (c <=? 90))%N.
Definition to_ascii_uppercase_char (c : N) : N := if ((97 <=? c) && (c <=? 122))%N then (c - 32)%N else c.

(** [path_segments] of [PathConvention]. *)
Definition is_windows_separator (c : N) : bool := ((c =? 92) || (c =? 47))%N.
Definition is_convention_separator (convention : PathConvention) (c : N) : bool :=
  match convention with PosixPaths => (c =? 47)%N | WindowsPaths => is_windows_separator c end.
Definition convention_segments (convention : PathConvention) (path : rstring) : list rstring :=
  split_by (is_convention_separator convention) path.
Definition anchor_depth (convention : PathConvention) : nat :=
  match convention with PosixPaths => 0 | WindowsPaths => 1 end.

(** ** Windows device paths, from the crate [absolute-path] *)
Definition is_windows_drive_absolute_path (path : rstring) : bool :=
  match path with
  | drive :: colon :: sep :: _ => is_ascii_alphabetic drive && (colon =? 58)%N && is_windows_separator sep
  | _ => false
  end.

Definition normalize_windows_device_path (path : rstring) : option rstring :=
  match strip_prefix (str "\\?\UNC\") path with
  | Some unc => Some (str "\\" ++ unc)
  | None =>
      match strip_prefix (str "\\.\UNC\") path with
      | Some unc => Some (str "\\" ++ unc)
      | None =>
          let drive prefix :=
            rest ← strip_prefix (str prefix) path; if is_windows_drive_absolute_path rest then Some rest else None in
          match drive "\\?\"%string with Some rest => Some rest | None => drive "\\.\"%string end
      end
  end.

(** ** Errors *)
(** The result of code with an [unreachable!] arm. *)
Inductive checked (A : Type) := Returned (a : A) | Unreachable.
Arguments Returned {A} _.
Arguments Unreachable {A}.
#[global] Instance checked_ret : MRet checked := λ A, Returned.
#[global] Instance checked_bind : MBind checked := λ A B f m,
  match m with Returned a => f a | Unreachable => Unreachable end.
#[global] Instance checked_fmap : FMap checked := λ A B f m,
  match m with Returned a => Returned (f a) | Unreachable => Unreachable end.

Inductive PathUriParseError :=
| InvalidUri (error : rstring)
| UnsupportedScheme (scheme : rstring)
| InvalidFileUriPath (path : rstring)
| CredentialsNotAllowed
| PortNotAllowed
| QueryNotAllowed
| FragmentNotAllowed
| JoinPathMustBeDescendant (path : rstring).

Definition FILE_SCHEME : rstring := str "file".
Definition BAD_PATH_URI_PREFIX : rstring := str "file:///%00/bad/path/".

Section PathUri.
Context {Url : Type} `{!UrlOps Url} `{!UriCodecs}.

Record PathUri := mkPathUri { uri_url : Url }.
#[local] Abbreviation parsed := (result PathUriParseError).

(** ** Segments *)
(** Percent-decoded text, or the encoded spelling when it is not UTF-8. *)
Definition decode_uri_path (path : rstring) : rstring :=
  default path (result_ok (from_utf8 (decode_binary path))).

(** The bytes of the original path of a canonical bad-path URI. *)
Definition decode_bad_path_uri (url : Url) : option (list N) :=
  encoded_path ← strip_prefix BAD_PATH_URI_PREFIX (Url_as_str url);
  if is_empty encoded_path || bool_decide (47%N ∈ encoded_path) then None
  else
    path_bytes ← base64_decode encoded_path;
    if str_eqb (base64_encode path_bytes) encoded_path then Some path_bytes else None.

Definition is_windows_drive_uri_segment (segment : rstring) : bool :=
  match segment with
  | [drive; colon] => is_ascii_alphabetic drive && (colon =? 58)%N
  | [drive; percent; three; a] =>
      is_ascii_alphabetic drive && (percent =? 37)%N && (three =? 51)%N && ((a =? 65)%N || (a =? 97)%N)
  | _ => false
  end.

Definition nonempty_segments (url : Url) : list rstring :=
  List.filter (λ segment, negb (is_empty segment)) (Url_path_segments url).

Definition has_separator (convention : PathConvention) (segment : rstring) : bool :=
  existsb (λ byte, (byte =? 47)%N || (bool_decide (convention = WindowsPaths) && (byte =? 92)%N)) (decode_binary segment).
Definition containment_path_segments (url : Url) (convention : PathConvention) : option (list rstring) :=
  let segments := nonempty_segments url in
  if existsb (has_separator convention) segments then None else Some segments.

(** One segment against another; Windows ignores case. *)
Definition segment_matches (convention : PathConvention) (path base : rstring) : bool :=
  match convention with
  | PosixPaths => bool_decide (decode_binary path = decode_binary base)
  | WindowsPaths =>
      eq_ignore_ascii_case path base || eq_ignore_ascii_case (decode_uri_path path) (decode_uri_path base)
  end.
Definition native_path_segments_start_with (path_segments base_segments : list rstring) (convention : PathConvention) : bool :=
  (length base_segments <=? length path_segments) &&
  forallb (λ '(path, base), segment_matches convention path base) (zip path_segments base_segments).

Definition infer_opaque_path_convention (path_bytes : list N) : option PathConvention :=
  if starts_with [47%N] path_bytes then Some PosixPaths
  else if negb (Nat.even (length path_bytes)) then None
  else
    match le_units path_bytes with
    | first :: second :: _ =>
        let has_drive := (first <=? 255)%N && is_ascii_alphabetic first && (second =? 58)%N in
        let has_unc_prefix := ((first =? 92) && (second =? 92))%N in
        if has_drive || has_unc_prefix then Some WindowsPaths else None
    | _ => None
    end.

(** ** Inspection *)
Definition opaque_fallback_bytes (p : PathUri) : option (list N) := decode_bad_path_uri (uri_url p).
Definition PathUri_is_opaque (p : PathUri) : bool := bool_decide (is_Some (opaque_fallback_bytes p)).

Definition PathUri_infer_path_convention (p : PathUri) : option PathConvention :=
  match opaque_fallback_bytes p with
  | Some path_bytes => infer_opaque_path_convention path_bytes
  | None =>
      if bool_decide (is_Some (Url_host_str (uri_url p))) then Some WindowsPaths
      else if is_some_and (head (nonempty_segments (uri_url p))) is_windows_drive_uri_segment
      then Some WindowsPaths else Some PosixPaths
  end.

Definition PathUri_decoded_path_bytes (p : PathUri) : list N := decode_binary (Url_path (uri_url p)).

Definition windows_identity_path_bytes (p : PathUri) : option (list N) :=
  if negb (bool_decide (PathUri_infer_path_convention p = Some WindowsPaths)) || PathUri_is_opaque p ||
     existsb (has_separator WindowsPaths) (Url_path_segments (uri_url p))
  then None else Some (PathUri_decoded_path_bytes p).

(** [PartialEq]; bytes of Windows paths are compared without case. *)
Definition PathUri_eqb (p q : PathUri) : bool :=
  bool_decide (uri_url p = uri_url q) ||
  match windows_identity_path_bytes p, windows_identity_path_bytes q with
  | Some path, Some other_path =>
      bool_decide (Url_host_str (uri_url p) = Url_host_str (uri_url q)) && eq_ignore_ascii_case path other_path
  | _, _ => false
  end.

(** What [Hash] feeds to the hasher. *)
Inductive HashInput := HashUrl (url : Url) | HashWindows (host : option rstring) (length : nat) (lowercase : list N).
Definition PathUri_hash (p : PathUri) : HashInput :=
  match windows_identity_path_bytes p with
  | None => HashUrl (uri_url p)
  | Some path => HashWindows (Url_host_str (uri_url p)) (length path) (to_ascii_lowercase path)
  end.

Definition PathUri_basename (p : PathUri) : option rstring :=
  match decode_bad_path_uri (uri_url p) with
  | Some _ => None
  | None => decode_uri_path <$> last (nonempty_segments (uri_url p))
  end.

Definition PathUri_parent (p : PathUri) : option PathUri :=
  match decode_bad_path_uri (uri_url p) with
  | Some _ => None
  | None =>
      convention ← PathUri_infer_path_convention p;
      if length (nonempty_segments (uri_url p)) <=? anchor_depth convention then None
      else Some (mkPathUri (Url_pop (Url_pop_if_empty (uri_url p))))
  end.

(** [ancestors]: at most one more than the segments of the path. *)
Fixpoint ancestors_from (fuel : nat) (p : PathUri) : list PathUri :=
  p :: match fuel, PathUri_parent p with
       | S fuel', Some q => ancestors_from fuel' q
       | _, _ => []
       end.
Definition PathUri_ancestors (p : PathUri) : list PathUri :=
  ancestors_from (S (length (Url_path_segments (uri_url p)))) p.

Definition PathUri_starts_with (p base : PathUri) : bool :=
  if PathUri_eqb p base then true
  else if bool_decide (is_Some (decode_bad_path_uri (uri_url p))) || bool_decide (is_Some (decode_bad_path_uri (uri_url base)))
  then false
  else if negb (bool_decide (Url_host_str (uri_url p) = Url_host_str (uri_url base))) then false
  else
    let convention := PathUri_infer_path_convention p in
    if negb (bool_decide (convention = PathUri_infer_path_convention base)) then false
    else
      let convention := default PosixPaths convention in
      match containment_path_segments (uri_url p) convention, containment_path_segments (uri_url base) convention with
      | Some path_segments, Some base_segments => native_path_segments_start_with path_segments base_segments convention
      | _, _ => false
      end.

Definition PathUri_lexical_depth (p : PathUri) : option nat :=
  match decode_bad_path_uri (uri_url p) with
  | Some _ => None
  | None =>
      convention ← PathUri_infer_path_convention p;
      length <$> containment_path_segments (uri_url p) convention
  end.

Definition PathUri_overlaps (p other : PathUri) : option bool :=
  if PathUri_eqb p other then Some true
  else
    _ ← PathUri_lexical_depth p; _ ← PathUri_lexical_depth other;
    Some (PathUri_starts_with p other || PathUri_starts_with other p).

Definition native_separator (convention : PathConvention) : rstring :=
  match convention with PosixPaths => str "/" | WindowsPaths => str "\" end.
Definition PathUri_relative_path_from (p base : PathUri) : option rstring :=
  if PathUri_eqb p base then Some []
  else if bool_decide (is_Some (decode_bad_path_uri (uri_url p))) || bool_decide (is_Some (decode_bad_path_uri (uri_url base))) ||
          negb (bool_decide (Url_host_str (uri_url p) = Url_host_str (uri_url base))) ||
          negb (bool_decide (PathUri_infer_path_convention p = PathUri_infer_path_convention base))
  then None
  else
    convention ← PathUri_infer_path_convention p;
    path_segments ← containment_path_segments (uri_url p) convention;
    base_segments ← containment_path_segments (uri_url base) convention;
    if negb (native_path_segments_start_with path_segments base_segments convention) then None
    else Some (join (native_separator convention) (map decode_uri_path (drop (length base_segments) path_segments))).

(** ** Construction *)
Definition validate_common_known_uri (url : Url) : parsed unit :=
  if negb (is_empty (Url_username url)) || bool_decide (is_Some (Url_password url)) then Err CredentialsNotAllowed
  else if bool_decide (is_Some (Url_port url)) then Err PortNotAllowed
  else if bool_decide (is_Some (Url_query url)) then Err QueryNotAllowed
  else if bool_decide (is_Some (Url_fragment url)) then Err FragmentNotAllowed
  else Ok ().

Definition validate_file_url (url : Url) : parsed unit :=
  _ ← validate_common_known_uri url;
  if bool_decide (0%N ∈ decode_binary (Url_path url)) && negb (bool_decide (is_Some (decode_bad_path_uri url)))
  then Err (InvalidFileUriPath (Url_as_str url)) else Ok ().

(** [set_host(None)] of a [file:] URL does not fail. *)
Definition without_localhost_authority (url : Url) : Url :=
  if bool_decide (Url_host_str url = Some (str "localhost")) then default url (Url_set_host url None) else url.

Definition with_normalized_windows_drive_letter (url : Url) : Url :=
  if bool_decide (is_Some (Url_host_str url)) then url
  else
    let path := Url_path url in
    let rest := drop_while (N.eqb 47) path in
    match rest with
    | [] => url
    | letter :: after =>
        let drive := default [] (head (split_on 47 rest)) in
        if negb (is_windows_drive_uri_segment drive) || is_ascii_uppercase letter then url
        else Url_set_path url (take (length path - length rest) path ++ to_ascii_uppercase_char letter :: after)
    end.

Definition PathUri_try_from (url : Url) : parsed PathUri :=
  if negb (str_eqb (Url_scheme url) FILE_SCHEME) then Err (UnsupportedScheme (Url_scheme url))
  else
    _ ← validate_file_url url;
    Ok (mkPathUri (with_normalized_windows_drive_letter (without_localhost_authority url))).

Definition PathUri_parse (uri : rstring) : parsed PathUri :=
  url ← map_err InvalidUri (Url_parse uri); PathUri_try_from url.

(** ** Opaque URIs *)
Definition from_opaque_path_bytes (path_bytes : list N) : checked PathUri :=
  match PathUri_parse (BAD_PATH_URI_PREFIX ++ base64_encode path_bytes) with
  | Ok uri => Returned uri
  | Err _ => Unreachable
  end.
Definition windows_opaque_path_uri (path : rstring) : checked PathUri :=
  from_opaque_path_bytes (concat (map le_bytes (utf16_units path))).

(** [from_abs_path] on Unix. *)
Definition PathUri_from_abs_path (path : rstring) : checked PathUri :=
  let uri := url ← Url_from_file_path path; result_ok (PathUri_try_from url) in
  match uri with
  | Some uri =>
      if negb (bool_decide (Url_host_str (uri_url uri) = Some [])) &&
         bool_decide (PathUri_infer_path_convention uri = Some PosixPaths)
      then Returned uri else from_opaque_path_bytes (encode path)
  | None => from_opaque_path_bytes (encode path)
  end.

(** ** Native paths *)
(** The loop of [path_uri_from_segments]: kept segments, their depth, and whether the
    path ends with a separator. *)
Definition normalize_segment (convention : PathConvention) (st : list rstring * nat * bool) (segment : rstring)
    : list rstring * nat * bool :=
  let '(segments, depth, trailing) := st in
  if is_empty segment then (segments, depth, true)
  else if str_eqb segment (str ".") then (segments, depth, false)
  else if str_eqb segment (str "..") then
    if anchor_depth convention <? depth then (removelast segments, depth - 1, false) else (segments, depth, false)
  else (segments ++ [segment], S depth, false).

Definition path_uri_from_segments (convention : PathConvention) (host : option rstring) (segments : list rstring)
    : option PathUri :=
  url ← result_ok (Url_parse (str "file:///"));
  url ← match host with Some host => Url_set_host url (Some host) | None => Some url end;
  let '(normalized, depth, trailing) := foldl (normalize_segment convention) ([], 0, false) segments in
  let normalized :=
    if trailing || (bool_decide (convention = WindowsPaths) && bool_decide (host = None) &&
                    (depth =? anchor_depth convention))
    then normalized ++ [[]] else normalized in
  result_ok (PathUri_try_from (foldl Url_push (Url_clear url) normalized)).

Definition parse_posix_path (path : rstring) : checked (option PathUri) :=
  match strip_prefix (str "/") path with
  | None => Returned None
  | Some rest =>
      if bool_decide (0%N ∈ rest) then Some <$> from_opaque_path_bytes (encode (str "/" ++ rest))
      else Returned (path_uri_from_segments PosixPaths None (split_on 47 rest))
  end.

(** A namespace path such as [\\.\pipe\name] has no URL. *)
Definition uses_namespace (path : rstring) : bool :=
  match path with
  | first :: second :: namespace :: separator :: _ =>
      is_windows_separator first && is_windows_separator second && is_windows_separator separator &&
      ((namespace =? 46)%N || (namespace =? 63)%N)
  | _ => false
  end.
Definition non_empty_text (s : option rstring) : option rstring :=
  s ← s; if is_empty s then None else Some s.

Definition parse_unnormalized_windows_path (path : rstring) : checked (option PathUri) :=
  if uses_namespace path || bool_decide (0%N ∈ path) then Some <$> windows_opaque_path_uri path
  else if is_windows_drive_absolute_path path then
    Returned (path_uri_from_segments WindowsPaths None (take 2 path :: split_by is_windows_separator (drop 3 path)))
  else
    match path with
    | first :: second :: rest =>
        if is_windows_separator first && is_windows_separator second then
          let components := split_by is_windows_separator rest in
          match non_empty_text (head components), non_empty_text (components !! 1) with
          | Some host, Some share =>
              match path_uri_from_segments WindowsPaths (Some host) (share :: drop 2 components) with
              | Some uri => Returned (Some uri)
              | None => Some <$> windows_opaque_path_uri path
              end
          | _, _ => Returned None
          end
        else Returned None
    | _ => Returned None
    end.

Definition is_dots (s : rstring) : bool := is_empty s || str_eqb s (str ".") || str_eqb s (str "..").
Definition parse_windows_path (path : rstring) : checked (option PathUri) :=
  match normalize_windows_device_path path with
  | None => parse_unnormalized_windows_path path
  | Some normalized_path =>
      let bad_unc :=
        match strip_prefix (str "\\") normalized_path with
        | Some unc_path =>
            let components := split_by is_windows_separator unc_path in
            is_dots (default [] (head components)) || is_dots (default [] (components !! 1))
        | None => false
        end in
      if bad_unc then Some <$> windows_opaque_path_uri path
      else
        uri ← parse_unnormalized_windows_path normalized_path;
        match uri with
        | Some uri =>
            if bool_decide (PathUri_infer_path_convention uri = Some WindowsPaths) &&
               bool_decide (opaque_fallback_bytes uri = None) &&
               (negb (starts_with (str "\\") normalized_path) ||
                is_some_and (Url_host_str (uri_url uri)) (λ host, negb (is_empty host)))
            then Returned (Some uri) else Some <$> windows_opaque_path_uri path
        | None => Some <$> windows_opaque_path_uri path
        end
  end.

Definition from_absolute_native_path (path : rstring) (convention : PathConvention) : checked (option PathUri) :=
  uri ← match convention with PosixPaths => parse_posix_path path | WindowsPaths => parse_windows_path path end;
  match uri with
  | None => Returned None
  | Some uri =>
      if negb (bool_decide (Url_host_str (uri_url uri) = Some [])) &&
         bool_decide (PathUri_infer_path_convention uri = Some convention)
      then Returned (Some uri)
      else Some <$> match convention with
                    | PosixPaths => from_opaque_path_bytes (encode path)
                    | WindowsPaths => windows_opaque_path_uri path
                    end
  end.

(** ** Joins *)
(** A path such as [C:x], relative to the directory of its own drive. *)
Definition drive_relative (path : rstring) : bool :=
  match path with drive :: colon :: _ => is_ascii_alphabetic drive && (colon =? 58)%N | _ => false end.
Definition same_drive (url : Url) (path : rstring) : bool :=
  is_some_and (head (nonempty_segments url)) (λ segment,
    is_windows_drive_uri_segment segment && eq_ignore_ascii_case (take 1 segment) (take 1 path)).
Definition root_relative (convention : PathConvention) (path : rstring) : bool :=
  bool_decide (convention = WindowsPaths) &&
  match path with
  | first :: rest =>
      is_windows_separator first && negb (match rest with second :: _ => is_windows_separator second | [] => false end)
  | [] => false
  end.

(** [while depth > anchor_depth { segments.pop(); depth -= 1 }]. *)
Definition pop_to_anchor (convention : PathConvention) (st : Url * nat) : Url * nat :=
  (Nat.iter (st.2 - anchor_depth convention) Url_pop st.1, st.2 `min` anchor_depth convention).

(** One component of the joined path. *)
Definition join_component (convention : PathConvention) (st : Url * nat) (component : rstring) : Url * nat :=
  if is_empty component || str_eqb component (str ".") then st
  else if str_eqb component (str "..") then
    if anchor_depth convention <? st.2 then (Url_pop st.1, st.2 - 1) else st
  else (Url_push st.1 component, S st.2).

(** The URL of a relative path below another. *)
Definition join_relative (convention : PathConvention) (url : Url) (path : rstring) : Url :=
  let st := (Url_pop_if_empty url, length (nonempty_segments url)) in
  let st := if root_relative convention path then pop_to_anchor convention st else st in
  let path := match convention with PosixPaths => path | WindowsPaths => map (λ c, if (c =? 92)%N then 47%N else c) path end in
  (foldl (join_component convention) st (split_on 47 path)).1.

Definition PathUri_join (p : PathUri) (path : rstring) : checked (parsed PathUri) :=
  if bool_decide (0%N ∈ path) then Returned (Err (InvalidFileUriPath path))
  else if is_empty path then Returned (Ok p)
  else
    match PathUri_infer_path_convention p with
    | None => Returned (Err (InvalidFileUriPath (Url_as_str (uri_url p))))
    | Some convention =>
        absolute ← from_absolute_native_path path convention;
        match absolute with
        | Some absolute => Returned (Ok absolute)
        | None =>
            let on_drive := bool_decide (convention = WindowsPaths) && drive_relative path in
            if on_drive && negb (same_drive (uri_url p) path) then Returned (Err (InvalidFileUriPath path))
            else
              let path := if on_drive then drop 2 path else path in
              if PathUri_is_opaque p then Returned (Err (InvalidFileUriPath (Url_as_str (uri_url p))))
              else Returned (PathUri_try_from (join_relative convention (uri_url p) path))
        end
    end.

Definition PathUri_join_descendant (p : PathUri) (path : rstring) : checked (parsed PathUri) :=
  descendant ← PathUri_join p path;
  Returned (
    descendant ← descendant;
    let windows := bool_decide (PathUri_infer_path_convention p = Some WindowsPaths) in
    if starts_with (str "/") path ||
       windows && (starts_with (str "\") path ||
                   existsb (λ segment, bool_decide (58%N ∈ segment)) (convention_segments WindowsPaths path)) ||
       negb (PathUri_starts_with descendant p)
    then Err (JoinPathMustBeDescendant path) else Ok descendant).

(** [join_native_bytes]. *)
Definition byte_component (segments : list rstring) (component : list N) : list rstring :=
  if is_empty component || bool_decide (component = [46%N]) then segments
  else if bool_decide (component = [46%N; 46%N]) then removelast segments
  else segments ++ [encode_binary component].

Definition PathUri_join_native_bytes (p : PathUri) (path : list N) : checked (parsed PathUri) :=
  match from_utf8 path with
  | Ok path => PathUri_join p path
  | Err _ =>
      Returned (
        if negb (bool_decide (PathUri_infer_path_convention p = Some PosixPaths)) || PathUri_is_opaque p || bool_decide (0%N ∈ path)
        then Err (InvalidFileUriPath (Url_as_str (uri_url p)))
        else
          let segments :=
            if starts_with [47%N] path then []
            else List.filter (λ segment, negb (is_empty segment)) (split_on 47 (Url_path (uri_url p))) in
          let segments := foldl byte_component segments (split_on 47 path) in
          uri ← PathUri_try_from (Url_set_path (uri_url p) (str "/" ++ join (str "/") segments));
          if negb (bool_decide (PathUri_infer_path_convention uri = Some PosixPaths))
          then Err (InvalidFileUriPath (Url_as_str (uri_url uri))) else Ok uri)
  end.

(** ** [LegacyAppPathString] *)
Inductive LegacyAppPathStringError :=
| OpaqueFallback (path : rstring)
| IncompatibleConvention (path : rstring) (convention : PathConvention)
| InvalidNativePath (path : rstring) (convention : option PathConvention)
| MissingBaseConvention (cwd : rstring)
| MissingHomeDirectory (path : rstring)
| MismatchedConvention (path : rstring) (path_convention : PathConvention) (cwd : rstring) (convention : PathConvention)
| PathUriError (error : PathUriParseError).
#[local] Abbreviation legacy := (result LegacyAppPathStringError).

(** Decoded once, with replacements for what is not UTF-8. *)
Definition decode_native_segment (segment : rstring) : rstring := from_utf8_lossy (decode_binary segment).

Definition render_windows_opaque_fallback (path_bytes : list N) : option rstring :=
  if negb (Nat.even (length path_bytes)) then None
  else
    let path_wide := le_units path_bytes in
    let has_namespace_or_unc_root :=
      match path_wide with first :: second :: _ => is_windows_separator first && is_windows_separator second | _ => false end in
    if is_windows_drive_absolute_path path_wide || has_namespace_or_unc_root then Some (from_utf16_lossy path_wide) else None.

Definition render_opaque_fallback (path : PathUri) (path_bytes : list N) (convention : PathConvention) : legacy rstring :=
  ok_or (match convention with
         | PosixPaths => if starts_with [47%N] path_bytes then Some (from_utf8_lossy path_bytes) else None
         | WindowsPaths => render_windows_opaque_fallback path_bytes
         end) (OpaqueFallback (Url_as_str (uri_url path))).

Definition incompatible_convention (path : PathUri) (convention : PathConvention) : LegacyAppPathStringError :=
  IncompatibleConvention (Url_as_str (uri_url path)) convention.

Definition render_segments (separator : N) (segments : list rstring) : rstring :=
  concat (map (λ segment, separator :: decode_native_segment segment) segments).
Definition render_posix_path (path : PathUri) : legacy rstring :=
  if bool_decide (is_Some (Url_host_str (uri_url path))) then Err (incompatible_convention path PosixPaths)
  else Ok (render_segments 47 (Url_path_segments (uri_url path))).

Definition is_drive (drive : rstring) : bool :=
  match drive with [letter; colon] => is_ascii_alphabetic letter && (colon =? 58)%N | _ => false end.
Definition render_windows_path (path : PathUri) : legacy rstring :=
  let url := uri_url path in
  match Url_path_segments url with
  | [] => Err (incompatible_convention path WindowsPaths)
  | first :: segments =>
      let first := decode_native_segment first in
      prefix ←
        match Url_host_str url with
        | Some host =>
            if is_empty first then Err (incompatible_convention path WindowsPaths)
            else Ok (str "\\" ++ host ++ str "\" ++ first)
        | None => if is_drive first then Ok first else Err (incompatible_convention path WindowsPaths)
        end;
      let rendered := prefix ++ render_segments 92 segments in
      Ok (if match rendered with [_; colon] => (colon =? 58)%N | _ => false end
          then rendered ++ str "\" else rendered)
  end.

Definition LegacyAppPathString_from_path_uri (path : PathUri) (convention : PathConvention) : legacy rstring :=
  match opaque_fallback_bytes path with
  | Some path_bytes => render_opaque_fallback path path_bytes convention
  | None => match convention with PosixPaths => render_posix_path path | WindowsPaths => render_windows_path path end
  end.

Definition PathUri_inferred_native_path_string (p : PathUri) : rstring :=
  default (Url_as_str (uri_url p))
    (convention ← PathUri_infer_path_convention p; result_ok (LegacyAppPathString_from_path_uri p convention)).

Definition to_path_uri (path : rstring) (convention : PathConvention) : checked (legacy PathUri) :=
  uri ← from_absolute_native_path path convention;
  Returned (ok_or uri (InvalidNativePath path (Some convention))).

Definition infer_absolute_path_convention (path : rstring) : option PathConvention :=
  if is_windows_drive_absolute_path path || starts_with (str "\\") path then Some WindowsPaths
  else if starts_with (str "/") path then Some PosixPaths else None.

Definition join_legacy (base : PathUri) (path : rstring) : checked (legacy PathUri) :=
  joined ← PathUri_join base path; Returned (map_err PathUriError joined).

Definition home_suffix (windows : bool) (path : rstring) : option rstring :=
  match strip_prefix (str "~/") path with
  | Some suffix => Some suffix
  | None => if str_eqb path (str "~") then Some [] else if windows then strip_prefix (str "~\") path else None
  end.

Definition resolve_against (path : rstring) (cwd : PathUri) (user_home_dir : option PathUri) : checked (legacy PathUri) :=
  match PathUri_infer_path_convention cwd with
  | None => Returned (Err (MissingBaseConvention (Url_as_str (uri_url cwd))))
  | Some convention =>
      let windows := bool_decide (convention = WindowsPaths) in
      match home_suffix windows path with
      | Some suffix =>
          match user_home_dir with
          | None => Returned (Err (MissingHomeDirectory path))
          | Some home => join_legacy home (drop_while (λ c, (c =? 47)%N || (windows && (c =? 92)%N)) suffix)
          end
      | None =>
          if windows && (starts_with (str "//") path || starts_with (str "\\") path) then to_path_uri path WindowsPaths
          else
            match infer_absolute_path_convention path with
            | None => join_legacy cwd path
            | Some path_convention =>
                if bool_decide (path_convention = convention) then to_path_uri path convention
                else if bool_decide (path_convention = PosixPaths) && windows then join_legacy cwd path
                else Returned (Err (MismatchedConvention path path_convention (Url_as_str (uri_url cwd)) convention))
            end
      end
  end.

(** [TryFrom<LegacyAppPathString> for PathUri]. *)
Definition PathUri_try_from_legacy (path : rstring) : checked (legacy PathUri) :=
  match infer_absolute_path_convention path with
  | None => Returned (Err (InvalidNativePath path None))
  | Some convention => to_path_uri path convention
  end.
Definition render_for_ui (path : rstring) : checked rstring :=
  uri ← PathUri_try_from_legacy path;
  Returned (match uri with Ok uri => PathUri_inferred_native_path_string uri | Err _ => path end).
End PathUri.
Arguments PathUri : clear implicits.
Arguments HashInput : clear implicits.
