(* ===== verification/PathUriSpec.v ===== *)
(** * Correctness of path URIs

    The laws of [url] and [urlencoding] that the crate relies on, and what follows from
    them: equality agrees with hashing, the chain of ancestors ends at a root, joins of
    relative paths stay below the root of their base, a relative path joined to its base
    gives the path back, and path URIs satisfy the interface that file system policies
    are resolved against. *)

From stdpp Require Import base list numbers strings.
From S2P Require Import Prelude StreamUtf8 CommandSafety Permissions PathUri.

#[local] Set Default Proof Using "Type*".
#[local] Arguments str : simpl never.

(** ** Laws of the crates *)
Definition hex_value (c : N) : option N :=
  if ((48 <=? c) && (c <=? 57))%N then Some (c - 48)%N
  else if ((65 <=? c) && (c <=? 70))%N then Some (c - 55)%N
  else if ((97 <=? c) && (c <=? 102))%N then Some (c - 87)%N else None.
Definition percent_pair (s : rstring) : option (N * rstring) :=
  match s with
  | a :: b :: rest => x ← hex_value a; y ← hex_value b; Some ((16 * x + y)%N, rest)
  | _ => None
  end.

(** Everything of a URL but its path. *)
Definition url_base {Url} `{!UrlOps Url} (u : Url) :=
  (Url_scheme u, Url_username u, Url_password u, Url_host_str u, Url_port u, Url_query u, Url_fragment u).
(** A URL without credentials, port, query and fragment. *)
Definition bare {Url} `{!UrlOps Url} (u : Url) : Prop :=
  Url_username u = [] ∧ Url_password u = None ∧ Url_port u = None ∧ Url_query u = None ∧ Url_fragment u = None.
Definition pushable (s : rstring) : Prop := s ≠ str "." ∧ s ≠ str ".." ∧ Forall (λ c, c ∉ [9; 10; 13; 124]%N) s.

Class UrlLaws (Url : Type) `{!UrlOps Url} `{!UriCodecs} : Prop := {
  (** Percent-decoding: unencoded characters and malformed sequences are kept. *)
  decode_nil : decode_binary [] = [];
  decode_plain c s : c ≠ 37%N → decode_binary (c :: s) = encode_char c ++ decode_binary s;
  decode_percent s byte rest : percent_pair s = Some (byte, rest) → decode_binary (37%N :: s) = byte :: decode_binary rest;
  decode_malformed s : percent_pair s = None → decode_binary (37%N :: s) = 37%N :: decode_binary s;
  (** Paths are their segments after slashes. *)
  segments_not_nil u : Url_path_segments u ≠ [];
  segments_no_slash u : Forall (λ s, 47%N ∉ s) (Url_path_segments u);
  path_segments_path u : Url_path u = str "/" ++ join (str "/") (Url_path_segments u);
  host_no_slash u h : Url_host_str u = Some h → 47%N ∉ h;
  no_dot_segments u : Url_scheme u = FILE_SCHEME →
    Forall (λ s, decode_binary s ≠ encode (str ".") ∧ decode_binary s ≠ encode (str "..")) (Url_path_segments u);
  as_str_file u :
    Url_scheme u = FILE_SCHEME → bare u →
    Url_as_str u = str "file://" ++ default [] (Url_host_str u) ++ Url_path u;
  (** [path_segments_mut]. *)
  base_clear u : url_base (Url_clear u) = url_base u;
  base_pop_if_empty u : url_base (Url_pop_if_empty u) = url_base u;
  base_pop u : url_base (Url_pop u) = url_base u;
  base_push u s : url_base (Url_push u s) = url_base u;
  segments_clear u : Url_path_segments (Url_clear u) = [[]];
  segments_pop_if_empty u l : Url_path_segments u = l ++ [[]] → l ≠ [] → Url_path_segments (Url_pop_if_empty u) = l;
  segments_pop_if_empty_id u l s :
    Url_path_segments u = l ++ [s] → l = [] ∨ s ≠ [] → Url_path_segments (Url_pop_if_empty u) = Url_path_segments u;
  segments_pop u l s : Url_path_segments u = l ++ [s] → Url_path_segments (Url_pop u) = match l with [] => [[]] | _ => l end;
  segments_push u s : pushable s → ∃ e, decode_binary e = encode s ∧
    Url_path_segments (Url_push u s) = if bool_decide (Url_path_segments u = [[]]) then [e] else Url_path_segments u ++ [e];
  (** Setters, as construction uses them. *)
  set_host_None u : Url_scheme u = FILE_SCHEME → ∃ v, Url_set_host u None = Some v ∧ Url_host_str v = None ∧
    Url_path_segments v = Url_path_segments u ∧ Url_scheme v = FILE_SCHEME ∧
    (bare u → bare v);
  base_set_path u path : url_base (Url_set_path u path) = url_base u;
  segments_set_drive u l c s m :
    Url_path_segments u = l ++ (c :: s) :: m → Forall (λ x, x = []) l → is_windows_drive_uri_segment (c :: s) = true →
    Url_path_segments (Url_set_path u (str "/" ++ join (str "/") (l ++ (to_ascii_uppercase_char c :: s) :: m))) =
    l ++ (to_ascii_uppercase_char c :: s) :: m;
  (** [base64], and the URLs of opaque paths. *)
  base64_roundtrip bytes : base64_decode (base64_encode bytes) = Some bytes;
  base64_text bytes : bytes ≠ [] → base64_encode bytes ≠ [] ∧ 47%N ∉ base64_encode bytes;
  parse_bad_path bytes : ∃ u, Url_parse (BAD_PATH_URI_PREFIX ++ base64_encode bytes) = Ok u ∧ Url_scheme u = FILE_SCHEME ∧
    bare u ∧ Url_as_str u = BAD_PATH_URI_PREFIX ++ base64_encode bytes;
  (** The empty file URL. *)
  parse_root : ∃ u, Url_parse (str "file:///") = Ok u ∧ Url_scheme u = FILE_SCHEME ∧
    bare u ∧ Url_host_str u = None ∧ Url_path_segments u = [[]];
}.

Lemma split_on_incl c q s x : s ∈ split_on c q → x ∈ s → x ∈ q.
Proof.
  intros Hs Hx. rewrite <- (join_split_on c q). revert Hs. generalize (split_on c q) as l.
  induction l as [|t [|t' l] IH]; [by intros []%not_elem_of_nil|by intros ->%list_elem_of_singleton|].
  rewrite join_cons by done. intros [->|H]%elem_of_cons; rewrite !elem_of_app; [by left|right; right; auto].
Qed.

Section Spec.
Context {Url : Type} {url_ops : UrlOps Url} {codecs : UriCodecs} {url_laws : UrlLaws Url}.
#[local] Abbreviation PathUri := (PathUri Url).

(** ** Equality *)
Lemma ascii_case_eqb (s t : rstring) : eq_ignore_ascii_case s t = true ↔ to_ascii_lowercase s = to_ascii_lowercase t.
Proof. unfold eq_ignore_ascii_case. unfold str_eqb. by rewrite bool_decide_eq_true. Qed.

(** Two path URIs are equal exactly when they give the hasher the same input, on either
    platform's paths; so equality is an equivalence and agrees with hashing. *)
Theorem eqb_iff_same_hash (p q : PathUri) : PathUri_eqb p q = true ↔ PathUri_hash p = PathUri_hash q.
Proof.
  unfold PathUri_eqb, PathUri_hash. rewrite orb_true_iff, bool_decide_eq_true.
  destruct p as [u], q as [v]. cbn [uri_url]. split.
  - intros [->|H]; [done|].
    destruct (windows_identity_path_bytes (mkPathUri u)) as [x|], (windows_identity_path_bytes (mkPathUri v)) as [y|]; try done.
    apply andb_true_iff in H as [Hh Hxy]. apply bool_decide_eq_true in Hh. apply ascii_case_eqb in Hxy.
    rewrite Hh, Hxy. f_equal. rewrite <- (length_map to_ascii_lowercase_char x), <- (length_map to_ascii_lowercase_char y).
    unfold to_ascii_lowercase in Hxy. by rewrite Hxy.
  - destruct (windows_identity_path_bytes (mkPathUri u)) as [x|], (windows_identity_path_bytes (mkPathUri v)) as [y|]; try done.
    + intros [= -> _ Hxy]. right. rewrite bool_decide_eq_true_2 by done. cbn. by apply ascii_case_eqb.
    + intros [= ->]. by left.
Qed.

(** ** Decoding *)
Lemma percent_pair_app a b : percent_pair a = None → percent_pair (a ++ 47%N :: b) = None.
Proof.
  destruct a as [|x [|y a]]; cbn; intros H; [by destruct b|by destruct (hex_value x)|].
  destruct (hex_value x), (hex_value y); done.
Qed.
Lemma percent_pair_app_Some a byte rest b :
  percent_pair a = Some (byte, rest) → percent_pair (a ++ b) = Some (byte, rest ++ b) ∧ length rest < length a.
Proof.
  destruct a as [|x [|y a]]; cbn; [done..|]. destruct (hex_value x); cbn; [|done].
  destruct (hex_value y); cbn; [|done]. intros [= <- <-]. split; [done|lia].
Qed.

(** Slashes separate what is decoded. *)
Lemma decode_slash a b : decode_binary (a ++ 47%N :: b) = decode_binary a ++ 47%N :: decode_binary b.
Proof.
  induction a as [a IH] using (induction_ltof1 _ length). unfold ltof in IH. destruct a as [|c a].
  { rewrite app_nil_l, decode_nil, decode_plain by done. done. }
  rewrite <- app_comm_cons. destruct (decide (c = 37%N)) as [->|Hc].
  - destruct (percent_pair a) as [[byte rest]|] eqn:E.
    + destruct (percent_pair_app_Some _ _ _ (47%N :: b) E) as [E' Hl]. rewrite (decode_percent _ _ _ E'), (decode_percent _ _ _ E).
      rewrite IH by (cbn; lia). done.
    + rewrite (decode_malformed _ (percent_pair_app _ b E)), (decode_malformed _ E), IH by (cbn; lia). done.
  - rewrite !decode_plain, IH by (done || cbn; lia). by rewrite app_assoc.
Qed.

Lemma decode_join l : decode_binary (join (str "/") l) = join [47%N] (map decode_binary l).
Proof.
  induction l as [|s [|t l] IH]; [apply decode_nil|done|]. cbn [map]. rewrite !join_cons by done. cbn [map] in IH.
  change (str "/" ++ join (str "/") (t :: l)) with (47%N :: join (str "/") (t :: l)). rewrite decode_slash, IH. done.
Qed.

Lemma decode_nonempty s : s ≠ [] → decode_binary s ≠ [].
Proof.
  destruct s as [|c s]; [done|]. intros _. destruct (decide (c = 37%N)) as [->|Hc].
  - destruct (percent_pair s) as [[byte rest]|] eqn:E; [by rewrite (decode_percent _ _ _ E)|by rewrite (decode_malformed _ E)].
  - rewrite decode_plain by done. pose proof (encode_char_nonempty c). by destruct (encode_char c).
Qed.

Lemma elem_of_join_slash x l : x ≠ 47%N → x ∈ join [47%N] l ↔ ∃ s, s ∈ l ∧ x ∈ s.
Proof.
  intros Hx. induction l as [|s [|t l] IH].
  - cbn. split; [intros []%not_elem_of_nil|intros (s & []%not_elem_of_nil & _)].
  - cbn [join]. split; [intros H; exists s; split; [by left|done]|]. intros (s' & ->%list_elem_of_singleton & H). done.
  - rewrite join_cons by done. rewrite !elem_of_app, IH, list_elem_of_singleton. split.
    + intros [H|[?|(s' & Hs & H)]]; [exists s; split; [by left|done]|done|exists s'; split; [by right|done]].
    + intros (s' & [->|Hs]%elem_of_cons & H); [by left|right; right; by exists s'].
Qed.

(** A null byte of the path is in a segment. *)
Lemma path_nul u : 0%N ∈ decode_binary (Url_path u) ↔ ∃ s, s ∈ Url_path_segments u ∧ 0%N ∈ decode_binary s.
Proof.
  rewrite path_segments_path. change (str "/" ++ join (str "/") (Url_path_segments u)) with ([] ++ 47%N :: join (str "/") (Url_path_segments u)).
  rewrite decode_slash, decode_nil, decode_join. rewrite app_nil_l, elem_of_cons, elem_of_join_slash by done. split.
  - intros [?|(x & Hx & H)]; [done|]. apply list_elem_of_fmap in Hx as (s & -> & Hs). by exists s.
  - intros (s & Hs & H). right. exists (decode_binary s). split; [|done]. apply list_elem_of_fmap. by exists s.
Qed.

(** ** Valid URIs *)
(** The path begins with a drive whose letter is not in upper case. *)
Definition unnormalized_drive (u : Url) : bool :=
  is_some_and (head (nonempty_segments u)) (λ s, is_windows_drive_uri_segment s && negb (is_some_and (head s) is_ascii_uppercase)).

Record uri_valid (p : PathUri) : Prop := {
  valid_scheme : Url_scheme (uri_url p) = FILE_SCHEME;
  valid_common : bare (uri_url p);
  valid_nul : decode_bad_path_uri (uri_url p) = None → Forall (λ s, 0%N ∉ decode_binary s) (Url_path_segments (uri_url p));
  valid_host : Url_host_str (uri_url p) ≠ Some (str "localhost");
  valid_drive : Url_host_str (uri_url p) = None → unnormalized_drive (uri_url p) = false;
}.

Lemma common_base u v : url_base u = url_base v → bare u ↔ bare v.
Proof. unfold url_base. intros [= _ H2 H3 _ H5 H6 H7]. unfold bare. by rewrite H2, H3, H5, H6, H7. Qed.
Lemma host_base u v : url_base u = url_base v → Url_host_str u = Url_host_str v.
Proof. unfold url_base. by intros [= _ _ _ H4 _ _ _]. Qed.
Lemma scheme_base u v : url_base u = url_base v → Url_scheme u = Url_scheme v.
Proof. unfold url_base. by intros [= H1 _ _ _ _ _ _]. Qed.

(** An opaque URI has no authority and a path that begins with an encoded null. *)
Lemma opaque_shape u b :
  Url_scheme u = FILE_SCHEME → bare u → decode_bad_path_uri u = Some b →
  default [] (Url_host_str u) = [] ∧ ∃ rest, Url_path u = 47%N :: 37%N :: 48%N :: 48%N :: rest.
Proof.
  intros Hs Hc. unfold decode_bad_path_uri. rewrite (as_str_file u Hs Hc).
  destruct (strip_prefix _ _) as [rest|] eqn:E; [|done]. intros _. apply strip_prefix_Some in E.
  change BAD_PATH_URI_PREFIX with (str "file://" ++ 47%N :: str "%00/bad/path/") in E. rewrite <- app_assoc in E.
  apply app_inv_head in E.
  assert (default [] (Url_host_str u) = []) as Hh.
  { destruct (Url_host_str u) as [[|c h]|] eqn:Eh; [done| |done]. cbn in E. injection E as -> _.
    destruct (host_no_slash u _ Eh). by left. }
  split; [done|]. rewrite Hh in E. exists (str "/bad/path/" ++ rest). exact E.
Qed.

(** Only a path with a null byte is opaque. *)
Lemma not_opaque u :
  Url_scheme u = FILE_SCHEME → bare u →
  Forall (λ s, 0%N ∉ decode_binary s) (Url_path_segments u) → decode_bad_path_uri u = None.
Proof.
  intros Hs Hc Hz. destruct (decode_bad_path_uri u) as [b|] eqn:E; [|done]. exfalso.
  destruct (opaque_shape u b Hs Hc E) as (_ & rest & Hp).
  assert (0%N ∈ decode_binary (Url_path u)) as [s [Hin H0]]%path_nul.
  { rewrite Hp, decode_plain, (decode_percent _ 0 rest) by done. right. by left. }
  rewrite Forall_forall in Hz. by apply (Hz s).
Qed.

Lemma filter_snoc_nonempty l (s : rstring) :
  s ≠ [] → List.filter (λ s, negb (is_empty s)) (l ++ [s]) = List.filter (λ s, negb (is_empty s)) l ++ [s].
Proof. intros H. rewrite List.filter_app. by destruct s. Qed.
Lemma filter_snoc_empty (l : list rstring) :
  List.filter (λ s, negb (is_empty s)) (l ++ [[]]) = List.filter (λ s, negb (is_empty s)) l.
Proof. rewrite List.filter_app. cbn. apply app_nil_r. Qed.

Lemma nonempty_empties (e : list rstring) : Forall (λ x, x = []) e → List.filter (λ s, negb (is_empty s)) e = [].
Proof. induction 1 as [|x e -> He IH]; [done|exact IH]. Qed.

Lemma nonempty_pop_if_empty u : nonempty_segments (Url_pop_if_empty u) = nonempty_segments u.
Proof.
  unfold nonempty_segments. destruct (snoc_nil_cases (Url_path_segments u)) as [H|(l & s & H)]; [by destruct (segments_not_nil u)|].
  destruct (decide (l = [] ∨ s ≠ [])) as [Hd|Hd]; [by rewrite (segments_pop_if_empty_id u l s)|].
  assert (s = [] ∧ l ≠ []) as [-> Hl] by (destruct s; naive_solver).
  by rewrite (segments_pop_if_empty u l H Hl), H, filter_snoc_empty.
Qed.

(** One [pop] drops the last segment, which may be empty. *)
Lemma nonempty_pop u :
  nonempty_segments (Url_pop u) = removelast (nonempty_segments u) ∨
  nonempty_segments (Url_pop u) = nonempty_segments u ∧ last (Url_path_segments u) = Some [].
Proof.
  unfold nonempty_segments. destruct (snoc_nil_cases (Url_path_segments u)) as [H|(l & s & H)]; [by destruct (segments_not_nil u)|].
  rewrite (segments_pop u l s H), H.
  assert (List.filter (λ s, negb (is_empty s)) (match l with [] => [[]] | _ => l end) = List.filter (λ s : rstring, negb (is_empty s)) l) as ->
    by by destruct l.
  destruct (decide (s = [])) as [->|Hs]; [right; by rewrite filter_snoc_empty, last_snoc|left].
  by rewrite filter_snoc_nonempty, removelast_last.
Qed.

Lemma segments_pop_incl u s : s ∈ Url_path_segments (Url_pop u) → s = [] ∨ s ∈ Url_path_segments u.
Proof.
  destruct (snoc_nil_cases (Url_path_segments u)) as [H|(l & x & H)]; [by destruct (segments_not_nil u)|].
  rewrite (segments_pop u l x H), H. destruct l as [|y l]; [intros ->%list_elem_of_singleton; by left|].
  intros Hs. right. apply elem_of_app. by left.
Qed.
Lemma segments_pop_if_empty_incl u s : s ∈ Url_path_segments (Url_pop_if_empty u) → s ∈ Url_path_segments u.
Proof.
  destruct (snoc_nil_cases (Url_path_segments u)) as [H|(l & x & H)]; [by destruct (segments_not_nil u)|].
  destruct (decide (l = [] ∨ x ≠ [])) as [Hd|Hd]; [by rewrite (segments_pop_if_empty_id u l x)|].
  assert (x = [] ∧ l ≠ []) as [-> Hl] by (destruct x; naive_solver).
  rewrite (segments_pop_if_empty u l H Hl), H, elem_of_app. by left.
Qed.

(** ** Parents *)
Lemma parent_Some p q :
  PathUri_parent p = Some q →
  decode_bad_path_uri (uri_url p) = None ∧ q = mkPathUri (Url_pop (Url_pop_if_empty (uri_url p))) ∧
  ∃ c, PathUri_infer_path_convention p = Some c ∧ anchor_depth c < length (nonempty_segments (uri_url p)).
Proof.
  unfold PathUri_parent. destruct (decode_bad_path_uri _); [done|].
  destruct (PathUri_infer_path_convention p) as [c|]; [|done]. cbn.
  destruct (Nat.leb_spec (length (nonempty_segments (uri_url p))) (anchor_depth c)); [done|]. intros [= <-]. by eauto.
Qed.

Lemma base_parent u : url_base (Url_pop (Url_pop_if_empty u)) = url_base u.
Proof. by rewrite base_pop, base_pop_if_empty. Qed.

Lemma parent_valid p q :
  uri_valid p → PathUri_parent p = Some q → uri_valid q ∧ decode_bad_path_uri (uri_url q) = None.
Proof.
  intros Hv (Hb & -> & _)%parent_Some. cbn [uri_url]. pose proof (base_parent (uri_url p)) as Hbase.
  assert (Forall (λ s, 0%N ∉ decode_binary s) (Url_path_segments (Url_pop (Url_pop_if_empty (uri_url p))))) as Hz.
  { apply Forall_forall. intros s [->|Hs%segments_pop_if_empty_incl]%segments_pop_incl.
    - rewrite decode_nil. apply not_elem_of_nil.
    - pose proof (valid_nul p Hv Hb) as H. rewrite Forall_forall in H. by apply H. }
  assert (Url_scheme (Url_pop (Url_pop_if_empty (uri_url p))) = FILE_SCHEME) as Hs
    by (rewrite (scheme_base _ _ Hbase); apply Hv).
  assert (bare (Url_pop (Url_pop_if_empty (uri_url p)))) as Hc
    by (rewrite (common_base _ _ Hbase); apply Hv).
  split; [|by apply not_opaque]. split; cbn [uri_url]; [done..| |].
  - rewrite (host_base _ _ Hbase). apply Hv.
  - rewrite (host_base _ _ Hbase). intros Hh. pose proof (valid_drive p Hv Hh) as Hd. unfold unnormalized_drive in *.
    rewrite <- nonempty_pop_if_empty in Hd. destruct (nonempty_pop (Url_pop_if_empty (uri_url p))) as [->|[-> _]]; [|done].
    by destruct (nonempty_segments (Url_pop_if_empty (uri_url p))) as [|x [|y l]].
Qed.

(** The segments of a parent: one less, or the same when only a trailing slash went. *)
Lemma parent_segments p q :
  PathUri_parent p = Some q →
  nonempty_segments (uri_url q) = nonempty_segments (uri_url p) ∨
  nonempty_segments (uri_url q) = removelast (nonempty_segments (uri_url p)).
Proof.
  intros (_ & -> & _)%parent_Some. cbn [uri_url]. rewrite <- (nonempty_pop_if_empty (uri_url p)).
  destruct (nonempty_pop (Url_pop_if_empty (uri_url p))) as [H|[H _]]; auto.
Qed.

Lemma head_removelast {A} (l : list A) : 1 < length l → head (removelast l) = head l.
Proof. destruct l as [|a [|b l]]; cbn; [lia..|done]. Qed.

Lemma removelast_incl {A} (l : list A) x : x ∈ removelast l → x ∈ l.
Proof.
  destruct (snoc_nil_cases l) as [->|(l' & y & ->)]; [done|]. rewrite removelast_last, elem_of_app. by left.
Qed.

Lemma parent_convention p q :
  uri_valid p → PathUri_parent p = Some q → PathUri_infer_path_convention q = PathUri_infer_path_convention p.
Proof.
  intros Hv Hp. destruct (parent_valid p q Hv Hp) as [_ Hq]. pose proof (parent_segments p q Hp) as Hs.
  destruct (parent_Some p q Hp) as (Hb & -> & c & Hc & Hd). unfold PathUri_infer_path_convention, opaque_fallback_bytes in *.
  cbn [uri_url] in *. rewrite Hq, Hb in *. rewrite (host_base _ _ (base_parent (uri_url p))).
  destruct (bool_decide (is_Some (Url_host_str _))); [done|]. destruct Hs as [->| ->]; [done|].
  destruct (is_some_and (head (nonempty_segments (uri_url p))) is_windows_drive_uri_segment) eqn:E; injection Hc as <-; cbn in Hd.
  - by rewrite head_removelast, E.
  - destruct (nonempty_segments (uri_url p)) as [|a [|b l]] eqn:El; [done..|].
    rewrite head_removelast by (cbn; lia). by rewrite E.
Qed.

(** ** Ancestors *)
Lemma parent_shorter p q :
  PathUri_parent p = Some q →
  length (Url_path_segments (uri_url q)) < length (Url_path_segments (uri_url p)) ∨ Url_path_segments (uri_url q) = [[]].
Proof.
  intros (_ & -> & _)%parent_Some. cbn [uri_url]. set (v := Url_pop_if_empty (uri_url p)).
  assert (length (Url_path_segments v) ≤ length (Url_path_segments (uri_url p))) as Hle.
  { subst v. destruct (snoc_nil_cases (Url_path_segments (uri_url p))) as [H|(l & x & H)]; [by destruct (segments_not_nil (uri_url p))|].
    destruct (decide (l = [] ∨ x ≠ [])) as [Hd|Hd]; [by rewrite (segments_pop_if_empty_id _ l x)|].
    assert (x = [] ∧ l ≠ []) as [-> Hl] by (destruct x; naive_solver).
    rewrite (segments_pop_if_empty _ l H Hl), H, length_app. lia. }
  destruct (snoc_nil_cases (Url_path_segments v)) as [H|(l & x & H)]; [by destruct (segments_not_nil v)|].
  rewrite (segments_pop v l x H). rewrite H, length_app in Hle. cbn in Hle. destruct l as [|y l]; [by right|left; cbn in *; lia].
Qed.

Lemma parent_root_path p : Url_path_segments (uri_url p) = [[]] → PathUri_parent p = None.
Proof.
  intros H. unfold PathUri_parent, nonempty_segments. rewrite H. destruct (decode_bad_path_uri _); [done|].
  by destruct (PathUri_infer_path_convention p).
Qed.

Lemma take_removelast {A} n (l : list A) : n < length l → take n (removelast l) = take n l.
Proof.
  destruct (snoc_nil_cases l) as [->|(l' & y & ->)]; [done|]. rewrite removelast_last, length_app. cbn. intros H.
  by rewrite take_app_le by lia.
Qed.

Lemma parent_root_segments p q c :
  PathUri_parent p = Some q → PathUri_infer_path_convention p = Some c →
  take (anchor_depth c) (nonempty_segments (uri_url q)) = take (anchor_depth c) (nonempty_segments (uri_url p)).
Proof.
  intros Hp Hc. destruct (parent_Some p q Hp) as (_ & _ & c' & Hc' & Hd). rewrite Hc in Hc'. injection Hc' as <-.
  destruct (parent_segments p q Hp) as [->| ->]; [done|]. by apply take_removelast.
Qed.

(** The root of a path: the same authority, and the drive or share of its first segment. *)
Definition root_of (p r : PathUri) : Prop :=
  uri_valid r ∧ decode_bad_path_uri (uri_url r) = None ∧ PathUri_parent r = None ∧
  PathUri_infer_path_convention r = PathUri_infer_path_convention p ∧
  Url_host_str (uri_url r) = Url_host_str (uri_url p) ∧
  nonempty_segments (uri_url r) =
    take (anchor_depth (default PosixPaths (PathUri_infer_path_convention p))) (nonempty_segments (uri_url p)).

Lemma convention_Some p : decode_bad_path_uri (uri_url p) = None → is_Some (PathUri_infer_path_convention p).
Proof.
  unfold PathUri_infer_path_convention, opaque_fallback_bytes. intros ->. destruct (bool_decide _); [by eexists|].
  destruct (is_some_and _ _); by eexists.
Qed.

Lemma parentless_root p :
  uri_valid p → decode_bad_path_uri (uri_url p) = None → PathUri_parent p = None → root_of p p.
Proof.
  intros Hv Hb Hp. unfold root_of. split_and!; try done. destruct (convention_Some p Hb) as [c Hc].
  unfold PathUri_parent in Hp. rewrite Hb, Hc in Hp. cbn in Hp. rewrite Hc. cbn.
  destruct (Nat.leb_spec (length (nonempty_segments (uri_url p))) (anchor_depth c)); [|done]. by rewrite take_ge.
Qed.

Lemma root_of_parent p q r : uri_valid p → PathUri_parent p = Some q → root_of q r → root_of p r.
Proof.
  intros Hv Hp (H1 & H2 & H3 & H4 & H5 & H6). destruct (parent_Some p q Hp) as (Hb & Hq & c & Hc & _).
  pose proof (parent_convention p q Hv Hp) as Hcq. unfold root_of. rewrite H4, H5, H6, Hcq, Hc. cbn.
  split_and!; try done; [|by apply parent_root_segments]. subst q. cbn. apply host_base, base_parent.
Qed.

Lemma ancestors_from_last fuel p :
  uri_valid p → decode_bad_path_uri (uri_url p) = None → length (Url_path_segments (uri_url p)) < fuel →
  ∃ r, last (ancestors_from fuel p) = Some r ∧ root_of p r.
Proof.
  revert p. induction fuel as [|fuel IH]; intros p Hv Hb Hl; [lia|]. cbn [ancestors_from].
  destruct (PathUri_parent p) as [q|] eqn:Hp; [|exists p; split; [done|by apply parentless_root]].
  destruct (parent_valid p q Hv Hp) as [Hvq Hbq].
  assert (∃ r, last (ancestors_from fuel q) = Some r ∧ root_of q r) as (r & Hr & Hroot).
  { destruct (parent_shorter p q Hp) as [Hs|Hs]; [apply IH; auto; lia|].
    exists q. pose proof (parent_root_path q Hs) as Hn. split; [|by apply parentless_root].
    destruct fuel; cbn; by rewrite ?Hn. }
  exists r. split; [|by apply (root_of_parent p q)]. rewrite last_cons, Hr. done.
Qed.

(** The chain of parents of an ordinary URI ends, within one step more than its path has
    segments, at a URI without a parent that has the same convention and authority and keeps
    just the drive or share. *)
Theorem ancestors_end_at_root (p : PathUri) :
  uri_valid p → PathUri_is_opaque p = false → ∃ r, last (PathUri_ancestors p) = Some r ∧ root_of p r.
Proof.
  intros Hv Hb. unfold PathUri_ancestors. apply ancestors_from_last; [done| |lia].
  unfold PathUri_is_opaque, opaque_fallback_bytes in Hb. apply bool_decide_eq_false in Hb. by apply eq_None_not_Some.
Qed.

(** ** Case *)
Lemma lower_fixed c : (c < 65 ∨ 90 < c)%N → to_ascii_lowercase_char c = c.
Proof.
  intros H. unfold to_ascii_lowercase_char. destruct (N.leb_spec 65 c), (N.leb_spec c 90); cbn [andb]; try done. lia.
Qed.
Lemma lower_inv c d : to_ascii_lowercase_char c = d → (d < 65 ∨ 122 < d)%N → c = d.
Proof.
  unfold to_ascii_lowercase_char. destruct (N.leb_spec 65 c), (N.leb_spec c 90); cbn [andb]; intros; lia.
Qed.

Lemma lower_encode_char c : to_ascii_lowercase (encode_char c) = encode_char (to_ascii_lowercase_char c).
Proof.
  unfold encode_char at 1. destruct (N.ltb_spec c 0x80).
  - cbn. unfold encode_char. rewrite if_true; [done|]. apply N.ltb_lt. unfold to_ascii_lowercase_char.
    destruct (N.leb_spec 65 c), (N.leb_spec c 90); cbn [andb]; lia.
  - rewrite (lower_fixed c) by lia. unfold encode_char, to_ascii_lowercase. rewrite (if_false (c <? 0x80)%N) by (by apply N.ltb_ge).
    destruct (c <? 0x800)%N, (c <? 0x10000)%N; cbn [map]; repeat rewrite lower_fixed by lia; done.
Qed.
Lemma lower_encode s : to_ascii_lowercase (encode s) = encode (to_ascii_lowercase s).
Proof.
  induction s as [|c s IH]; [done|]. change (c :: s) with ([c] ++ s). unfold to_ascii_lowercase at 2. rewrite map_app, !encode_app.
  unfold to_ascii_lowercase at 1. rewrite map_app. f_equal; [|exact IH]. cbn. rewrite !app_nil_r. apply lower_encode_char.
Qed.

Lemma hex_value_lower c d : to_ascii_lowercase_char c = to_ascii_lowercase_char d → hex_value c = hex_value d.
Proof.
  assert (∀ c, hex_value (to_ascii_lowercase_char c) = hex_value c) as H; [|intros E; by rewrite <- H, E, H].
  clear. intros c. unfold to_ascii_lowercase_char. destruct (N.leb_spec 65 c), (N.leb_spec c 90); cbn [andb]; try done.
  unfold hex_value. destruct (N.leb_spec 48 (c + 32)), (N.leb_spec (c + 32) 57), (N.leb_spec 65 (c + 32)), (N.leb_spec (c + 32) 70),
    (N.leb_spec 97 (c + 32)), (N.leb_spec (c + 32) 102), (N.leb_spec 48 c), (N.leb_spec c 57), (N.leb_spec 65 c), (N.leb_spec c 70),
    (N.leb_spec 97 c), (N.leb_spec c 102); cbn [andb]; try lia; try done; f_equal; lia.
Qed.

Lemma percent_pair_lower s t :
  to_ascii_lowercase s = to_ascii_lowercase t →
  match percent_pair s, percent_pair t with
  | Some (x, s'), Some (y, t') => x = y ∧ to_ascii_lowercase s' = to_ascii_lowercase t'
  | None, None => True
  | _, _ => False
  end.
Proof.
  destruct s as [|a [|b s]], t as [|c [|d t]]; cbn; try done. intros [= Ha Hb H].
  rewrite (hex_value_lower _ _ Ha), (hex_value_lower _ _ Hb). destruct (hex_value c); cbn; [|done]. by destruct (hex_value d).
Qed.

(** Texts that differ in case decode to bytes that differ in case. *)
Lemma lower_decode s t :
  to_ascii_lowercase s = to_ascii_lowercase t → to_ascii_lowercase (decode_binary s) = to_ascii_lowercase (decode_binary t).
Proof.
  revert t. induction s as [s IH] using (induction_ltof1 _ length). unfold ltof in IH. intros t H.
  destruct s as [|c s], t as [|d t]; try done. cbn in H. injection H as Hc H. destruct (decide (c = 37%N)) as [->|Hc37].
  - assert (d = 37%N) as -> by (symmetry in Hc; apply lower_inv in Hc; [done|by left]).
    pose proof (percent_pair_lower s t H) as Hp.
    destruct (percent_pair s) as [[x s']|] eqn:Es, (percent_pair t) as [[y t']|] eqn:Et; try done.
    + destruct Hp as [-> Hp]. rewrite (decode_percent _ _ _ Es), (decode_percent _ _ _ Et). cbn. f_equal. apply IH; [|done].
      pose proof (proj2 (percent_pair_app_Some _ _ _ [] Es)). cbn. lia.
    + rewrite (decode_malformed _ Es), (decode_malformed _ Et). cbn. f_equal. apply IH; [cbn; lia|done].
  - assert (d ≠ 37%N) as Hd by (intros ->; apply lower_inv in Hc; [done|by left]).
    rewrite !decode_plain by done. unfold to_ascii_lowercase. rewrite !map_app. f_equal; [|apply IH; [cbn; lia|done]].
    fold (to_ascii_lowercase (encode_char c)) (to_ascii_lowercase (encode_char d)). rewrite !lower_encode_char. by rewrite Hc.
Qed.

(** ** Containment as a prefix *)
(** What a segment is compared by. *)
Definition segment_key (convention : PathConvention) (s : rstring) : list N :=
  match convention with PosixPaths => decode_binary s | WindowsPaths => to_ascii_lowercase (decode_binary s) end.
Definition path_keys (convention : PathConvention) (p : PathUri) : list (list N) :=
  map (segment_key convention) (nonempty_segments (uri_url p)).

(** The segments are text. *)
Definition utf8_segment (s : rstring) : Prop := is_ok (from_utf8 (decode_binary s)) = true.
Definition uri_text (p : PathUri) : Prop := Forall utf8_segment (Url_path_segments (uri_url p)).

Lemma decode_uri_text s : utf8_segment s → encode (decode_uri_path s) = decode_binary s ∧ scalars (decode_uri_path s).
Proof.
  unfold utf8_segment, decode_uri_path. destruct (from_utf8_view (decode_binary s)) as (t & rest & Ht & Hs & [[-> Hv]|[[_ Hv]|(k & _ & Hv)]]);
    rewrite Hv; cbn; [|done..]. intros _. split; [|done]. by rewrite Hs, app_nil_r.
Qed.

Lemma lower_scalars s : scalars s → scalars (to_ascii_lowercase s).
Proof.
  unfold scalars, to_ascii_lowercase. rewrite Forall_map. intros H. eapply Forall_impl; [exact H|]. intros c. cbn. rewrite !is_scalar_range.
  unfold to_ascii_lowercase_char. destruct (N.leb_spec 65 c), (N.leb_spec c 90); cbn [andb]; lia.
Qed.

Lemma segment_matches_key c s t :
  utf8_segment s → utf8_segment t → segment_matches c s t = true ↔ segment_key c s = segment_key c t.
Proof.
  intros Hs Ht. destruct c; cbn [segment_matches segment_key]; [apply bool_decide_eq_true|].
  rewrite orb_true_iff, !ascii_case_eqb. apply decode_uri_text in Hs as [Es Ss], Ht as [Et St]. rewrite <- Es, <- Et, !lower_encode.
  split.
  - intros [H| ->]; [|done]. rewrite <- !lower_encode, Es, Et. by apply lower_decode.
  - intros H. right. apply encode_inj in H; [done|by apply lower_scalars..].
Qed.

Lemma zip_matches c (ps bs : list rstring) :
  Forall utf8_segment ps → Forall utf8_segment bs →
  native_path_segments_start_with ps bs c = true ↔ map (segment_key c) bs `prefix_of` map (segment_key c) ps.
Proof.
  intros Hp Hb. unfold native_path_segments_start_with. revert ps Hp. induction Hb as [|b bs Hb Hbs IH]; intros ps Hp.
  { cbn. split; [intros _; by eexists|]. by destruct ps. }
  destruct Hp as [|p ps Hp Hps]; [cbn; split; [done|]; intros [k Hk]; done|]. specialize (IH ps Hps).
  cbn [zip zip_with map length forallb]. rewrite andb_true_iff, andb_true_iff in *.
  assert (segment_matches c p b = true ↔ segment_key c p = segment_key c b) as Hm by by apply segment_matches_key.
  rewrite Hm. split.
  - intros (Hl & <- & Hz). apply prefix_cons, IH. done.
  - intros H. pose proof (prefix_cons_inv_1 _ _ _ _ H) as Hk. apply prefix_cons_inv_2, IH in H as [Hl Hz]. done.
Qed.

(** ** Equality and containment *)
Lemma decoded_path u : decode_binary (Url_path u) = 47%N :: join [47%N] (map decode_binary (Url_path_segments u)).
Proof.
  rewrite path_segments_path. change (str "/" ++ join (str "/") (Url_path_segments u)) with ([] ++ 47%N :: join (str "/") (Url_path_segments u)).
  by rewrite decode_slash, decode_nil, decode_join.
Qed.

Lemma no_separator c s : has_separator c s = false → 47%N ∉ decode_binary s.
Proof.
  unfold has_separator. intros H Hin. apply not_true_iff_false in H. apply H, existsb_exists. exists 47%N.
  split; [by apply list_elem_of_In|done].
Qed.

Lemma windows_identity p x :
  windows_identity_path_bytes p = Some x →
  PathUri_infer_path_convention p = Some WindowsPaths ∧ decode_bad_path_uri (uri_url p) = None ∧
  Forall (λ s, has_separator WindowsPaths s = false) (Url_path_segments (uri_url p)) ∧ x = decode_binary (Url_path (uri_url p)).
Proof.
  unfold windows_identity_path_bytes, PathUri_is_opaque, opaque_fallback_bytes, PathUri_decoded_path_bytes.
  destruct (bool_decide (PathUri_infer_path_convention p = Some WindowsPaths)) eqn:Ec; [|done].
  destruct (decode_bad_path_uri (uri_url p)) eqn:Eb; [done|]. cbn.
  destruct (existsb _ _) eqn:Ex; [done|]. intros [= <-]. split_and!; [by apply bool_decide_eq_true in Ec|done| |done].
  apply Forall_forall. intros s Hs. apply not_true_iff_false. intros H.
  apply not_true_iff_false in Ex. apply Ex, existsb_exists. exists s. split; [by apply list_elem_of_In|done].
Qed.

Lemma lower_join l : to_ascii_lowercase (join [47%N] l) = join [47%N] (map to_ascii_lowercase l).
Proof.
  induction l as [|s [|t l] IH]; [done..|]. cbn [map]. rewrite !join_cons by done. unfold to_ascii_lowercase in *.
  rewrite !map_app. cbn [map] in IH. by rewrite IH.
Qed.

Lemma lower_no_slash s : 47%N ∉ s → 47%N ∉ to_ascii_lowercase s.
Proof.
  intros H (c & Hc & Hin)%list_elem_of_fmap. symmetry in Hc. apply lower_inv in Hc as ->; [done|by left].
Qed.

Lemma lowercase_path_inj (l m : list (list N)) :
  l ≠ [] → m ≠ [] → Forall (λ s, 47%N ∉ s) l → Forall (λ s, 47%N ∉ s) m →
  to_ascii_lowercase (join [47%N] l) = to_ascii_lowercase (join [47%N] m) → map to_ascii_lowercase l = map to_ascii_lowercase m.
Proof.
  intros Hl Hm Fl Fm H. rewrite !lower_join in H. apply (f_equal (split_on 47)) in H.
  rewrite !split_on_join in H; [done|by destruct m|..|by destruct l|]; rewrite Forall_map; eapply Forall_impl; eauto; intros s; apply lower_no_slash.
Qed.

(** Dropping empty segments before or after decoding is the same. *)
Lemma nonempty_keys c (l : list rstring) :
  map (segment_key c) (List.filter (λ s, negb (is_empty s)) l) = List.filter (λ s, negb (is_empty s)) (map (segment_key c) l).
Proof.
  induction l as [|s l IH]; [done|]. cbn [List.filter map].
  assert (is_empty (segment_key c s) = is_empty s) as ->.
  { destruct s as [|x s]; [by destruct c; cbn; rewrite decode_nil|].
    pose proof (decode_nonempty (x :: s)) as H. destruct c; cbn [segment_key]; destruct (decode_binary (x :: s)); cbn; try done; by destruct H. }
  destruct (is_empty s); cbn; by rewrite IH.
Qed.

Lemma eqb_same p q :
  PathUri_eqb p q = true → p = q ∨
  PathUri_infer_path_convention p = Some WindowsPaths ∧ PathUri_infer_path_convention q = Some WindowsPaths ∧
  Url_host_str (uri_url p) = Url_host_str (uri_url q) ∧ path_keys WindowsPaths p = path_keys WindowsPaths q.
Proof.
  unfold PathUri_eqb. rewrite orb_true_iff, bool_decide_eq_true. intros [H|H]; [left; by destruct p, q; cbn in H; subst|right].
  destruct (windows_identity_path_bytes p) as [x|] eqn:Ep, (windows_identity_path_bytes q) as [y|] eqn:Eq; try done.
  apply windows_identity in Ep as (Cp & _ & Fp & ->), Eq as (Cq & _ & Fq & ->).
  apply andb_true_iff in H as [Hh H]. apply bool_decide_eq_true in Hh. apply ascii_case_eqb in H. split_and!; [done..|].
  unfold path_keys, nonempty_segments. rewrite !nonempty_keys. f_equal. rewrite !decoded_path in H. cbn in H. injection H as H.
  apply lowercase_path_inj in H.
  - by rewrite !map_map in H.
  - pose proof (segments_not_nil (uri_url p)). by destruct (Url_path_segments (uri_url p)).
  - pose proof (segments_not_nil (uri_url q)). by destruct (Url_path_segments (uri_url q)).
  - rewrite Forall_map. eapply Forall_impl; [exact Fp|]. intros s. apply no_separator.
  - rewrite Forall_map. eapply Forall_impl; [exact Fq|]. intros s. apply no_separator.
Qed.

Lemma lexical_depth_Some p d :
  PathUri_lexical_depth p = Some d ↔
  decode_bad_path_uri (uri_url p) = None ∧ d = length (nonempty_segments (uri_url p)) ∧
  ∃ c, PathUri_infer_path_convention p = Some c ∧ containment_path_segments (uri_url p) c = Some (nonempty_segments (uri_url p)).
Proof.
  unfold PathUri_lexical_depth. destruct (decode_bad_path_uri (uri_url p)); [split; [done|by intros [? _]]|].
  destruct (PathUri_infer_path_convention p) as [c|]; cbn; [|split; [done|by intros (_ & _ & ? & ? & _)]].
  unfold containment_path_segments. destruct (existsb _ _) eqn:E; cbn; split.
  - done.
  - intros (_ & _ & c' & [= <-] & H). by rewrite E in H.
  - intros [= <-]. split_and!; [done..|]. exists c. by rewrite E.
  - by intros (_ & -> & _).
Qed.

Lemma containment_no_separator u c l :
  containment_path_segments u c = Some l → Forall (λ s, has_separator c s = false) l.
Proof.
  unfold containment_path_segments. destruct (existsb _ _) eqn:E; [done|]. intros [= <-]. apply Forall_forall. intros s Hs.
  apply not_true_iff_false. intros H. apply not_true_iff_false in E. apply E, existsb_exists. exists s.
  split; [by apply list_elem_of_In|done].
Qed.
Lemma no_separator_containment u c :
  Forall (λ s, has_separator c s = false) (nonempty_segments u) → containment_path_segments u c = Some (nonempty_segments u).
Proof.
  intros H. unfold containment_path_segments. destruct (existsb _ _) eqn:E; [|done].
  apply existsb_exists in E as (x & Hx & E). rewrite Forall_forall in H. apply list_elem_of_In in Hx. by rewrite (H x Hx) in E.
Qed.

Lemma identity_depth p x :
  windows_identity_path_bytes p = Some x → PathUri_lexical_depth p = Some (length (path_keys WindowsPaths p)).
Proof.
  intros (Hc & Hb & Hs & _)%windows_identity. apply lexical_depth_Some. unfold path_keys. rewrite length_map. split_and!; [done..|].
  exists WindowsPaths. split; [done|]. apply no_separator_containment. rewrite Forall_forall in *. intros s Hin. apply Hs.
  apply list_elem_of_In in Hin. apply List.filter_In in Hin as [Hin _]. by apply list_elem_of_In.
Qed.
Lemma eqb_depth p q :
  PathUri_eqb p q = true → p = q ∨ PathUri_lexical_depth p = PathUri_lexical_depth q ∧ is_Some (PathUri_lexical_depth q).
Proof.
  intros E. destruct (eqb_same p q E) as [->|(_ & _ & _ & Hk)]; [by left|]. unfold PathUri_eqb in E. apply orb_true_iff in E as [E|E].
  { apply bool_decide_eq_true in E. left. destruct p, q. cbn in E. by subst. }
  destruct (windows_identity_path_bytes p) eqn:Ep, (windows_identity_path_bytes q) eqn:Eq; try done.
  right. rewrite (identity_depth _ _ Ep), (identity_depth _ _ Eq), Hk. by eauto.
Qed.

Lemma uri_text_nonempty p : uri_text p → Forall utf8_segment (nonempty_segments (uri_url p)).
Proof.
  unfold uri_text, nonempty_segments. rewrite !Forall_forall. intros H s Hs. apply H.
  apply list_elem_of_In in Hs. apply List.filter_In in Hs as [Hs _]. by apply list_elem_of_In.
Qed.

(** Containment is a prefix. *)
Lemma starts_with_prefix (p b : PathUri) :
  uri_text p → uri_text b → is_Some (PathUri_lexical_depth p) → is_Some (PathUri_lexical_depth b) →
  PathUri_starts_with p b = true ↔
  Url_host_str (uri_url p) = Url_host_str (uri_url b) ∧
  ∃ c, PathUri_infer_path_convention p = Some c ∧ PathUri_infer_path_convention b = Some c ∧
       path_keys c b `prefix_of` path_keys c p.
Proof.
  intros Tp Tb [dp (Bp & -> & cp & Cp & Sp)%lexical_depth_Some] [db (Bb & -> & cb & Cb & Sb)%lexical_depth_Some].
  apply uri_text_nonempty in Tp, Tb. unfold PathUri_starts_with. destruct (PathUri_eqb p b) eqn:E.
  - split; [intros _|done]. apply eqb_same in E as [->|(C1 & C2 & Hh & Hk)]; [split; [done|by exists cb]|].
    split; [done|]. exists WindowsPaths. split_and!; [done..|]. by rewrite Hk.
  - rewrite Bp, Bb, Cp, Cb. cbn. destruct (bool_decide (Url_host_str _ = _)) eqn:Eh; cbn.
    2:{ apply bool_decide_eq_false in Eh. split; [done|]. by intros [? _]. }
    apply bool_decide_eq_true in Eh. destruct (bool_decide (Some cp = Some cb)) eqn:Ec; cbn.
    2:{ apply bool_decide_eq_false in Ec. split; [done|]. intros (_ & c & [= ->] & [= ->] & _). done. }
    apply bool_decide_eq_true in Ec as [= ->]. rewrite Sp, Sb, zip_matches by done. split; [intros H; split; [done|by exists cb]|].
    by intros (_ & c & [= <-] & _ & H).
Qed.

(** On paths of text that can be compared, containment is a prefix of the decoded
    segments, without case on Windows, under the same authority and convention: no
    spelling of a segment, empty segment or string prefix makes a path contain another. *)
Theorem starts_with_iff_prefix (p b : PathUri) :
  uri_text p → uri_text b → is_Some (PathUri_lexical_depth p) → is_Some (PathUri_lexical_depth b) →
  PathUri_starts_with p b = true ↔
  Url_host_str (uri_url p) = Url_host_str (uri_url b) ∧
  ∃ c, PathUri_infer_path_convention p = Some c ∧ PathUri_infer_path_convention b = Some c ∧
       path_keys c b `prefix_of` path_keys c p.
Proof. apply starts_with_prefix. Qed.

(** ** Construction *)
Lemma first_nonempty (l : list rstring) :
  (Forall (λ x, x = []) l ∧ List.filter (λ s, negb (is_empty s)) l = []) ∨
  ∃ e c s m, l = e ++ (c :: s) :: m ∧ Forall (λ x, x = []) e ∧ head (List.filter (λ s, negb (is_empty s)) l) = Some (c :: s).
Proof.
  induction l as [|[|c s] l IH]; [left; by split| |].
  - destruct IH as [[H1 H2]|(e & c & s & m & -> & He & Hh)]; [left; split; [by constructor|done]|].
    right. exists ([] :: e), c, s, m. split_and!; [done|by constructor|done].
  - right. by exists [], c, s, l.
Qed.

Lemma join_slashes (e : list rstring) x m :
  Forall (λ x, x = []) e →
  str "/" ++ join (str "/") (e ++ x :: m) = replicate (S (length e)) 47%N ++ join (str "/") (x :: m).
Proof.
  induction 1 as [|y e -> He IH]; [done|]. rewrite <- app_comm_cons, join_cons by by destruct e.
  rewrite app_nil_l. cbn [length replicate app]. f_equal. exact IH.
Qed.
Lemma drop_slashes n (c : N) (s : rstring) : c ≠ 47%N → drop_while (N.eqb 47) (replicate n 47%N ++ c :: s) = c :: s.
Proof.
  intros Hc. induction n as [|n IH]; [|exact IH]. cbn [replicate app drop_while]. by rewrite (proj2 (N.eqb_neq 47 c)) by congruence.
Qed.

Lemma head_join_split (c : N) (s : rstring) m :
  Forall (λ x, 47%N ∉ x) ((c :: s) :: m) → head (split_on 47 (join (str "/") ((c :: s) :: m))) = Some (c :: s).
Proof. intros H. change (str "/") with [47%N]. by rewrite split_on_join. Qed.

Lemma join_slashes_only (e : list rstring) : Forall (λ x, x = []) e → drop_while (N.eqb 47) (str "/" ++ join (str "/") e) = [].
Proof.
  induction 1 as [|x e -> He IH]; [done|]. destruct e as [|y e]; [done|]. rewrite join_cons by done. exact IH.
Qed.

(** Normalization only replaces the letter of a drive. *)
Lemma normalized_drive u :
  Url_host_str u = None →
  with_normalized_windows_drive_letter u = u ∧ unnormalized_drive u = false ∨
  ∃ e c s m, Url_path_segments u = e ++ (c :: s) :: m ∧ Forall (λ x, x = []) e ∧
    is_windows_drive_uri_segment (c :: s) = true ∧ is_ascii_uppercase c = false ∧
    Url_path_segments (with_normalized_windows_drive_letter u) = e ++ (to_ascii_uppercase_char c :: s) :: m ∧
    url_base (with_normalized_windows_drive_letter u) = url_base u.
Proof.
  intros Hh. unfold with_normalized_windows_drive_letter, unnormalized_drive, nonempty_segments. rewrite Hh. cbn [bool_decide].
  rewrite bool_decide_eq_false_2 by (by intros [? ?]).
  destruct (first_nonempty (Url_path_segments u)) as [[H1 H2]|(e & c & s & m & H1 & He & Hhd)].
  { left. rewrite path_segments_path, (join_slashes_only _ H1), H2. done. }
  pose proof (segments_no_slash u) as Hn. rewrite H1 in Hn. apply Forall_app in Hn as [_ Hn].
  assert (c ≠ 47%N) as Hc. { inversion Hn as [|? ? Hx _]. intros ->. apply Hx. by left. }
  assert (∃ after, ∀ x, join (str "/") ((x :: s) :: m) = x :: after) as [after Hafter].
  { exists (match m with [] => s | _ => s ++ str "/" ++ join (str "/") m end). intros x.
    destruct m; [done|by rewrite join_cons]. }
  assert (Url_path u = replicate (S (length e)) 47%N ++ c :: after) as Hpath.
  { by rewrite path_segments_path, H1, join_slashes, Hafter. }
  pose proof (head_join_split c s m Hn) as Hsp. rewrite Hafter in Hsp.
  rewrite Hhd, Hpath, (drop_slashes _ c after Hc), Hsp. cbn [is_some_and head default from_option id].
  destruct (is_windows_drive_uri_segment (c :: s)) eqn:Ed; [|by left]. destruct (is_ascii_uppercase c) eqn:Eu; [by left|]. cbn [negb orb].
  right. exists e, c, s, m. split_and!; [done..| |apply base_set_path].
  rewrite length_app, Nat.add_sub, take_app_length, <- (Hafter (to_ascii_uppercase_char c)), <- join_slashes by done.
  by apply segments_set_drive.
Qed.

Lemma upper_drive c s :
  is_windows_drive_uri_segment (c :: s) = true →
  is_windows_drive_uri_segment (to_ascii_uppercase_char c :: s) = true ∧ is_ascii_uppercase (to_ascii_uppercase_char c) = true.
Proof.
  assert (is_ascii_alphabetic c = true →
    is_ascii_alphabetic (to_ascii_uppercase_char c) = true ∧ is_ascii_uppercase (to_ascii_uppercase_char c) = true) as H.
  { unfold is_ascii_alphabetic, to_ascii_uppercase_char, is_ascii_uppercase. rewrite !orb_true_iff, !andb_true_iff, !N.leb_le.
    destruct (N.leb_spec 97 c), (N.leb_spec c 122); cbn [andb]; rewrite ?N.leb_le; lia. }
  destruct s as [|a [|b [|d [|]]]]; cbn; try done; rewrite !andb_true_iff; naive_solver.
Qed.

Lemma decode_letter c s : is_ascii_alphabetic c = true → decode_binary (c :: s) = c :: decode_binary s.
Proof.
  unfold is_ascii_alphabetic. rewrite orb_true_iff, !andb_true_iff, !N.leb_le. intros H. rewrite decode_plain by lia.
  unfold encode_char. rewrite if_true; [done|]. apply N.ltb_lt. lia.
Qed.

Lemma drive_letter c s : is_windows_drive_uri_segment (c :: s) = true → is_ascii_alphabetic c = true.
Proof. destruct s as [|a [|b [|d [|]]]]; cbn; try done; rewrite !andb_true_iff; naive_solver. Qed.

(** Two drives that differ in their letter both have no null byte, or the rest has. *)
Lemma upper_drive_nul c s :
  is_windows_drive_uri_segment (c :: s) = true → 0%N ∈ decode_binary (to_ascii_uppercase_char c :: s) → 0%N ∈ decode_binary (c :: s).
Proof.
  intros H. destruct (upper_drive c s H) as [H' Hu]. rewrite !decode_letter by (by eapply drive_letter).
  rewrite !elem_of_cons. intros [Hx|Hx]; [|by right]. rewrite <- Hx in Hu. done.
Qed.

(** The checks of the code on the parts of a URL. *)
Lemma common_iff (u : Url) : validate_common_known_uri u = Ok () ↔ bare u.
Proof using Type.
  unfold validate_common_known_uri, bare.
  destruct (Url_username u), (Url_password u), (Url_port u), (Url_query u), (Url_fragment u); cbn; naive_solver.
Qed.

Lemma validate_file_ok u :
  validate_file_url u = Ok () →
  bare u ∧ (decode_bad_path_uri u = None → Forall (λ s, 0%N ∉ decode_binary s) (Url_path_segments u)).
Proof.
  unfold validate_file_url. destruct (validate_common_known_uri u) as [[]|] eqn:Ec; cbn; [apply common_iff in Ec|done].
  destruct (bool_decide (0%N ∈ decode_binary (Url_path u))) eqn:E0; intros H; (split; [done|]); intros Hb; [by rewrite Hb in H|].
  apply bool_decide_eq_false in E0. apply Forall_forall. intros s Hs H0. apply E0, path_nul. by exists s.
Qed.

(** A URI without null bytes stays valid under the steps of construction. *)
Lemma valid_of_segments (u : Url) :
  Url_scheme u = FILE_SCHEME → bare u →
  Forall (λ s, 0%N ∉ decode_binary s) (Url_path_segments u) → Url_host_str u ≠ Some (str "localhost") →
  (Url_host_str u = None → unnormalized_drive u = false) → uri_valid (mkPathUri u).
Proof. by split. Qed.

Lemma normalize_valid u :
  Url_scheme u = FILE_SCHEME → bare u →
  (decode_bad_path_uri u = None → Forall (λ s, 0%N ∉ decode_binary s) (Url_path_segments u)) →
  Url_host_str u ≠ Some (str "localhost") → uri_valid (mkPathUri (with_normalized_windows_drive_letter u)).
Proof.
  intros Hs Hc Hz Hl. destruct (Url_host_str u) as [h|] eqn:Hh.
  { assert (with_normalized_windows_drive_letter u = u) as ->
      by (unfold with_normalized_windows_drive_letter; by rewrite Hh).
    split; cbn [uri_url]; rewrite ?Hh; done. }
  destruct (normalized_drive u Hh) as [[-> Hd]|(e & c & s & m & Hseg & He & Hdr & _ & Hseg' & Hb)].
  { split; cbn [uri_url]; rewrite ?Hh; done. }
  assert (decode_bad_path_uri u = None) as Hbad.
  { destruct (decode_bad_path_uri u) as [b|] eqn:E; [|done]. destruct (opaque_shape u b Hs Hc E) as (_ & rest & Hp).
    rewrite path_segments_path, Hseg, join_slashes in Hp by done. pose proof (drive_letter c s Hdr) as Ha.
    destruct e; cbn in Hp; [|done]. destruct m; injection Hp as -> _; done. }
  specialize (Hz Hbad). apply valid_of_segments.
  - by rewrite (scheme_base _ _ Hb).
  - by rewrite (common_base _ _ Hb).
  - rewrite Hseg'. rewrite Hseg in Hz. apply Forall_app in Hz as [H1 H2]. apply Forall_cons in H2 as [H2 H3].
    apply Forall_app. split; [done|]. constructor; [|done]. intros H0. by apply H2, upper_drive_nul.
  - by rewrite (host_base _ _ Hb), Hh.
  - intros _. unfold unnormalized_drive, nonempty_segments. rewrite Hseg', List.filter_app.
    rewrite (nonempty_empties e He). cbn [app List.filter is_empty negb head is_some_and]. destruct (upper_drive c s Hdr) as [-> ->]. done.
Qed.

(** Construction establishes validity. *)
Lemma construction_valid (u : Url) (p : PathUri) : PathUri_try_from u = Ok p → uri_valid p.
Proof.
  unfold PathUri_try_from. destruct (str_eqb (Url_scheme u) FILE_SCHEME) eqn:Es; [|done]. cbn [negb].
  apply bool_decide_eq_true in Es. destruct (validate_file_url u) as [[]|] eqn:Ev; cbn; [|done]. intros [= <-].
  destruct (validate_file_ok u Ev) as [Hc Hz]. unfold without_localhost_authority.
  destruct (bool_decide (Url_host_str u = Some (str "localhost"))) eqn:El;
    [apply bool_decide_eq_true in El|apply bool_decide_eq_false in El; by apply normalize_valid].
  destruct (set_host_None u Es) as (v & -> & Hh & Hseg & Hs & Hcv). cbn. specialize (Hcv Hc). apply normalize_valid; [done..| |by rewrite Hh].
  intros _. rewrite Hseg. apply Hz. destruct (decode_bad_path_uri u) as [b|] eqn:E; [|done].
  destruct (opaque_shape u b Es Hc E) as [Hd _]. by rewrite El in Hd.
Qed.

(** What construction changes: the authority [localhost] and the case of a drive letter. *)
Lemma normalize_parts (u : Url) :
  let v := with_normalized_windows_drive_letter u in
  Url_host_str v = Url_host_str u ∧ map to_ascii_lowercase (Url_path_segments v) = map to_ascii_lowercase (Url_path_segments u).
Proof.
  cbv zeta. destruct (Url_host_str u) as [h|] eqn:Hh.
  { unfold with_normalized_windows_drive_letter. by rewrite Hh. }
  destruct (normalized_drive u Hh) as [[-> _]|(e & c & s & m & Hseg & _ & _ & _ & Hseg' & Hb)]; [done|].
  split; [by rewrite (host_base _ _ Hb)|]. rewrite Hseg, Hseg', !map_app. cbn [map to_ascii_lowercase]. do 3 f_equal.
  unfold to_ascii_lowercase_char, to_ascii_uppercase_char.
  destruct (N.leb_spec 97 c), (N.leb_spec c 122); cbn [andb]; [|done..].
  rewrite !(proj2 (N.leb_le _ _)) by lia. rewrite (proj2 (N.leb_gt c 90)) by lia. cbn [andb]. lia.
Qed.

Lemma construction_parts (u : Url) (p : PathUri) :
  PathUri_try_from u = Ok p →
  Url_host_str (uri_url p) = (if bool_decide (Url_host_str u = Some (str "localhost")) then None else Url_host_str u) ∧
  map to_ascii_lowercase (Url_path_segments (uri_url p)) = map to_ascii_lowercase (Url_path_segments u).
Proof.
  unfold PathUri_try_from. destruct (str_eqb (Url_scheme u) FILE_SCHEME) eqn:Es; [|done]. cbn [negb].
  apply bool_decide_eq_true in Es. destruct (validate_file_url u); cbn; [|done]. intros [= <-]. cbn [uri_url].
  destruct (normalize_parts (without_localhost_authority u)) as [-> ->]. unfold without_localhost_authority.
  case_bool_decide; [|done]. destruct (set_host_None u Es) as (v & -> & Hh & Hseg & _). cbn. by rewrite Hh, Hseg.
Qed.

(** C39: Construction accepts exactly the [file:] URLs without user name, password, port,
    query and fragment whose path has no null byte, unless it is that of an opaque path.  The
    URI it gives is again such a URL, has no null byte in a segment unless it is opaque, is
    without the authority [localhost], begins with a drive letter only in upper case, and has
    the path of the URL up to the case of its letters. *)
Theorem try_from_valid (u : Url) :
  (is_ok (PathUri_try_from u) = true ↔
     Url_scheme u = FILE_SCHEME ∧ bare u ∧ (0%N ∈ decode_binary (Url_path u) → is_Some (decode_bad_path_uri u))) ∧
  ∀ p, PathUri_try_from u = Ok p →
    let v := uri_url p in
    Url_scheme v = FILE_SCHEME ∧ bare v ∧
    (decode_bad_path_uri v = None → Forall (λ s, 0%N ∉ decode_binary s) (Url_path_segments v)) ∧
    Url_host_str v = (if bool_decide (Url_host_str u = Some (str "localhost")) then None else Url_host_str u) ∧
    (Url_host_str v = None → unnormalized_drive v = false) ∧
    map to_ascii_lowercase (Url_path_segments v) = map to_ascii_lowercase (Url_path_segments u).
Proof.
  split.
  - unfold PathUri_try_from, validate_file_url, str_eqb. rewrite <- common_iff.
    destruct (bool_decide_reflect (Url_scheme u = FILE_SCHEME)); cbn [negb]; [|naive_solver].
    destruct (validate_common_known_uri u) as [[]|]; cbn [mbind result_bind]; [|naive_solver].
    destruct (bool_decide_reflect (0%N ∈ decode_binary (Url_path u))), (bool_decide_reflect (is_Some (decode_bad_path_uri u)));
      cbn; naive_solver.
  - intros p Hp. pose proof (construction_valid u p Hp) as [Hs Hc Hz Hl Hd]. destruct (construction_parts u p Hp) as [Hhost Hseg].
    by split_and!.
Qed.

(** Construction leaves a URL alone that is already in its form. *)
Lemma try_from_id u : uri_valid (mkPathUri u) → decode_bad_path_uri u = None → PathUri_try_from u = Ok (mkPathUri u).
Proof.
  intros Hv Hb. unfold PathUri_try_from. pose proof (valid_scheme _ Hv) as Hs. cbn in Hs. unfold str_eqb. rewrite Hs, bool_decide_eq_true_2 by done.
  cbn [negb]. unfold validate_file_url. pose proof (valid_common _ Hv) as Hc%common_iff. cbn in Hc. rewrite Hc. cbn [mbind result_bind].
  rewrite bool_decide_eq_false_2.
  2:{ intros (s & Hs' & H0)%path_nul. pose proof (valid_nul _ Hv Hb) as H. rewrite Forall_forall in H. by apply (H s). }
  cbn [andb mbind result_bind]. do 2 f_equal. unfold without_localhost_authority. rewrite bool_decide_eq_false_2 by apply (valid_host _ Hv).
  destruct (Url_host_str u) as [h|] eqn:Hh; [unfold with_normalized_windows_drive_letter; by rewrite Hh|].
  destruct (normalized_drive u Hh) as [[-> _]|(e & c & s & m & Hseg & He & Hdr & Hu & _)]; [done|]. exfalso.
  pose proof (valid_drive _ Hv Hh) as Hd. unfold unnormalized_drive, nonempty_segments in Hd. cbn [uri_url] in Hd. rewrite Hseg, List.filter_app in Hd.
  rewrite (nonempty_empties e He) in Hd. cbn [app List.filter is_empty negb head is_some_and] in Hd. by rewrite Hdr, Hu in Hd.
Qed.

(** ** Joins *)
Lemma ascii_in_encode b s : (b < 128)%N → b ∈ encode s → b ∈ s.
Proof.
  intros Hb. induction s as [|c s IH]; [done|]. change (c :: s) with ([c] ++ s). rewrite encode_app, !elem_of_app.
  intros [H|H]; [left|right; auto]. unfold encode in H. cbn in H. rewrite app_nil_r in H. revert H. unfold encode_char.
  destruct (N.ltb_spec c 0x80); [done|]. destruct (c <? 0x800)%N, (c <? 0x10000)%N;
    rewrite ?elem_of_cons, elem_of_nil; intros; exfalso; naive_solver lia.
Qed.

(** The characters that [push] keeps as they are given. *)
Definition plain_path (path : rstring) : Prop := Forall (λ c, c ∉ [9; 10; 13; 124]%N) path.
Definition plain_name_of (c : PathConvention) (s : rstring) : Prop :=
  plain_path s ∧ (0%N ∉ s) ∧ (47%N ∉ s) ∧ (c = WindowsPaths → 92%N ∉ s).

Lemma nonempty_push v s :
  pushable s → s ≠ [] → ∃ e, decode_binary e = encode s ∧ nonempty_segments (Url_push v s) = nonempty_segments v ++ [e] ∧
    ∀ x, x ∈ Url_path_segments (Url_push v s) → x = e ∨ x ∈ Url_path_segments v.
Proof.
  intros Hp Hs. destruct (segments_push v s Hp) as (e & He & Hseg). exists e. split; [done|].
  assert (e ≠ []) as Hne.
  { intros ->. rewrite decode_nil in He. destruct s as [|c s]; [done|]. unfold encode in He. cbn in He.
    pose proof (encode_char_nonempty c). by destruct (encode_char c). }
  unfold nonempty_segments. rewrite Hseg. destruct (bool_decide (Url_path_segments v = [[]])) eqn:E.
  - apply bool_decide_eq_true in E. rewrite E. split; [by apply (filter_snoc_nonempty [])|]. intros x ->%list_elem_of_singleton. by left.
  - split; [by apply filter_snoc_nonempty|]. intros x [H| ->%list_elem_of_singleton]%elem_of_app; [by right|by left].
Qed.

Lemma plain_no_separator c s e : plain_name_of c s → decode_binary e = encode s → has_separator c e = false.
Proof.
  intros (_ & _ & H47 & H92) He. unfold has_separator. rewrite He. apply not_true_iff_false. intros (b & Hb & H)%existsb_exists.
  apply list_elem_of_In in Hb. apply orb_true_iff in H as [->%N.eqb_eq|H]; [by apply H47, (ascii_in_encode 47)|].
  apply andb_true_iff in H as [Hc ->%N.eqb_eq]. apply bool_decide_eq_true in Hc. by apply (H92 Hc), (ascii_in_encode 92).
Qed.

(** What every step of a join keeps: all but the path, the root segments [R], and segments
    that can be compared. *)
Record join_inv (c : PathConvention) (u : Url) (R : list rstring) (v : Url) (n : nat) : Prop := {
  inv_base : url_base v = url_base u;
  inv_root : R `prefix_of` nonempty_segments v;
  inv_depth : n ≤ length (nonempty_segments v);
  inv_nul : Forall (λ s, 0%N ∉ decode_binary s) (Url_path_segments v);
  inv_separator : Forall (λ s, has_separator c s = false) (nonempty_segments v);
}.

Lemma prefix_removelast {A} (k l : list A) : k `prefix_of` l → length k < length l → k `prefix_of` removelast l.
Proof.
  intros [t ->] Hl. rewrite length_app in Hl. destruct (snoc_nil_cases t) as [->|(t' & x & ->)]; [cbn in Hl; lia|].
  rewrite app_assoc, removelast_last. by eexists.
Qed.

Lemma pop_inv c u R v n :
  join_inv c u R v n → length R ≤ anchor_depth c → anchor_depth c < n → join_inv c u R (Url_pop v) (n - 1).
Proof.
  intros [Hb Hr Hd Hz Hs] Hl Hn. split.
  - by rewrite base_pop.
  - destruct (nonempty_pop v) as [->|[-> _]]; [apply prefix_removelast; [done|lia]|done].
  - destruct (nonempty_pop v) as [->|[-> _]]; [|lia]. destruct (snoc_nil_cases (nonempty_segments v)) as [E|(l & x & E)];
      rewrite E in *; [cbn in *; lia|]. rewrite removelast_last. rewrite length_app in Hd. cbn in Hd. lia.
  - apply Forall_forall. intros s [->|H]%segments_pop_incl; [rewrite decode_nil; apply not_elem_of_nil|].
    rewrite Forall_forall in Hz. auto.
  - destruct (nonempty_pop v) as [->|[-> _]]; [|done]. apply Forall_forall. intros s H%removelast_incl.
    rewrite Forall_forall in Hs. auto.
Qed.

Lemma join_component_inv c u R v n s :
  join_inv c u R v n → length R ≤ anchor_depth c → plain_name_of c s →
  let st := join_component c (v, n) s in join_inv c u R st.1 st.2.
Proof.
  intros Hinv Hl Hplain. unfold join_component. cbn [fst snd].
  destruct (is_empty s) eqn:Ee; [done|]. destruct (str_eqb s (str ".")) eqn:E1; [done|]. cbn [orb].
  destruct (str_eqb s (str "..")) eqn:E2.
  { destruct (Nat.ltb_spec (anchor_depth c) n); [by apply pop_inv|done]. }
  apply bool_decide_eq_false in E1, E2. assert (s ≠ []) as Hne by by destruct s.
  destruct (nonempty_push v s) as (e & He & Hseg & Hin); [split_and!; [done..|apply Hplain]|done|].
  destruct Hinv as [Hb Hr Hd Hz Hs]. cbn [fst snd]. split.
  - by rewrite base_push.
  - rewrite Hseg. by apply prefix_app_r.
  - rewrite Hseg, length_app. cbn. lia.
  - apply Forall_forall. intros x [->|Hx]%Hin; [|rewrite Forall_forall in Hz; auto].
    rewrite He. intros H0%ascii_in_encode; [|done]. exact (proj1 (proj2 Hplain) H0).
  - rewrite Hseg. apply Forall_app. split; [done|]. constructor; [|done]. by eapply plain_no_separator.
Qed.

Lemma join_components_inv c u R ss v n :
  join_inv c u R v n → length R ≤ anchor_depth c → Forall (plain_name_of c) ss →
  let st := foldl (join_component c) (v, n) ss in join_inv c u R st.1 st.2.
Proof.
  intros Hinv Hl Hss. revert v n Hinv. induction Hss as [|s ss Hs Hss IH]; intros v n Hinv; [done|]. cbn [foldl].
  pose proof (join_component_inv c u R v n s Hinv Hl Hs) as H. destruct (join_component c (v, n) s) as [v' n']. by apply IH.
Qed.

Lemma pop_to_anchor_inv c u R v n :
  join_inv c u R v n → length R ≤ anchor_depth c → let st := pop_to_anchor c (v, n) in join_inv c u R st.1 st.2.
Proof.
  intros Hinv Hl. unfold pop_to_anchor. cbn [fst snd].
  assert (∀ k, k + anchor_depth c ≤ n → join_inv c u R (Nat.iter k Url_pop v) (n - k)) as Hk.
  { induction k as [|k IH]; intros Hk; [rewrite Nat.sub_0_r; exact Hinv|]. cbn [Nat.iter nat_rect].
    replace (n - S k) with (n - k - 1) by lia. apply pop_inv; [apply IH; lia|done|lia]. }
  destruct (decide (n ≤ anchor_depth c)) as [Hn|Hn].
  - replace (n - anchor_depth c) with 0 by lia. rewrite Nat.min_l by done. exact Hinv.
  - rewrite Nat.min_r by lia. replace (anchor_depth c) with (n - (n - anchor_depth c)) at 2 by lia. apply Hk. lia.
Qed.

Lemma segments_plain c path :
  plain_path path → 0%N ∉ path →
  Forall (plain_name_of c)
    (split_on 47 (match c with PosixPaths => path | WindowsPaths => map (λ c, if (c =? 92)%N then 47%N else c) path end)).
Proof.
  intros Hp H0. set (q := match c with PosixPaths => path | _ => _ end).
  assert (∀ x, x ∈ q → x = 47%N ∨ x ∈ path ∧ (c = WindowsPaths → x ≠ 92%N)) as Hq.
  { subst q. intros x Hx. destruct c; [right; by split|]. apply list_elem_of_fmap in Hx as (y & -> & Hy).
    destruct (N.eqb_spec y 92); [by left|by right]. }
  apply Forall_forall. intros s Hs. pose proof (split_on_elem _ _ _ Hs) as Hn.
  assert (∀ x, x ∈ s → x ∈ path ∧ (c = WindowsPaths → x ≠ 92%N)) as Hsx.
  { intros x Hx. destruct (Hq x) as [->|H]; [by apply (split_on_incl 47 q s)|done|done]. }
  unfold plain_path in *. rewrite Forall_forall in Hp. split_and!.
  - apply Forall_forall. intros x Hx. by apply Hp, Hsx.
  - intros H. by apply H0, Hsx.
  - done.
  - intros Hc H. by apply (proj2 (Hsx _ H) Hc).
Qed.

(** The URL of a relative join, before construction. *)
Lemma join_relative_inv (p : PathUri) c path :
  uri_valid p → PathUri_infer_path_convention p = Some c → is_Some (PathUri_lexical_depth p) → plain_path path → 0%N ∉ path →
  ∃ n, join_inv c (uri_url p) (take (anchor_depth c) (nonempty_segments (uri_url p))) (join_relative c (uri_url p) path) n.
Proof.
  intros Hv Hc [d (Hb & -> & c' & Hc' & Hcont)%lexical_depth_Some] Hp H0. rewrite Hc in Hc'. injection Hc' as <-.
  set (R := take _ _). assert (length R ≤ anchor_depth c) as Hl by (subst R; rewrite length_take; lia).
  assert (join_inv c (uri_url p) R (Url_pop_if_empty (uri_url p)) (length (nonempty_segments (uri_url p)))) as Hinv.
  { split; rewrite ?nonempty_pop_if_empty.
    - apply base_pop_if_empty.
    - apply prefix_take.
    - done.
    - apply Forall_forall. intros s Hs%segments_pop_if_empty_incl. pose proof (valid_nul p Hv Hb) as H. rewrite Forall_forall in H. auto.
    - by eapply containment_no_separator. }
  unfold join_relative. pose proof (segments_plain c path Hp H0) as Hss. destruct (root_relative c path).
  - pose proof (pop_to_anchor_inv c _ R _ _ Hinv Hl) as H. destruct (pop_to_anchor c _) as [v n]. eexists. by apply join_components_inv.
  - eexists. by apply join_components_inv.
Qed.

Lemma native_prefix c (l R : list rstring) : R `prefix_of` l → native_path_segments_start_with l R c = true.
Proof.
  intros [t ->]. unfold native_path_segments_start_with. apply andb_true_iff. split; [apply Nat.leb_le; rewrite length_app; lia|].
  induction R as [|x R IH]; [by destruct t|]. cbn [app zip zip_with forallb]. rewrite IH, andb_true_r. destruct c; cbn.
  - by apply bool_decide_eq_true.
  - apply orb_true_iff. left. by apply ascii_case_eqb.
Qed.

(** A URI whose first segments are those of a root is below it. *)
Lemma below_root (p r q : PathUri) c :
  root_of p r → PathUri_infer_path_convention p = Some c → PathUri_infer_path_convention q = Some c →
  decode_bad_path_uri (uri_url q) = None → Url_host_str (uri_url q) = Url_host_str (uri_url p) →
  Forall (λ s, has_separator c s = false) (nonempty_segments (uri_url q)) →
  take (anchor_depth c) (nonempty_segments (uri_url p)) `prefix_of` nonempty_segments (uri_url q) →
  PathUri_starts_with q r = true.
Proof.
  intros (Hv & Hb & Hp & Hc & Hh & Hseg) Hcp Hcq Hbq Hhq Hs Hpre. rewrite Hcp in Hc, Hseg. cbn in Hseg.
  unfold PathUri_starts_with. destruct (PathUri_eqb q r); [done|]. rewrite Hbq, Hb, Hhq, Hh, Hcq, Hc. cbn.
  rewrite !bool_decide_eq_true_2 by done. cbn. unfold containment_path_segments. rewrite Hseg.
  assert (∀ l, Forall (λ s, has_separator c s = false) l → existsb (has_separator c) l = false) as Hex.
  { intros l Hl. apply not_true_iff_false. intros (x & Hx & H)%existsb_exists. rewrite Forall_forall in Hl.
    apply list_elem_of_In in Hx. by rewrite (Hl x Hx) in H. }
  rewrite !Hex; [by apply native_prefix| |done]. destruct Hpre as [t Ht]. rewrite Ht in Hs. by apply Forall_app in Hs as [? _].
Qed.

Lemma drive_convention (q : PathUri) d :
  decode_bad_path_uri (uri_url q) = None → head (nonempty_segments (uri_url q)) = Some d →
  is_windows_drive_uri_segment d = true → PathUri_infer_path_convention q = Some WindowsPaths.
Proof.
  intros Hb Hh Hd. unfold PathUri_infer_path_convention, opaque_fallback_bytes. rewrite Hb, Hh. cbn. rewrite Hd. by destruct (bool_decide _).
Qed.

Lemma windows_without_host (p : PathUri) :
  decode_bad_path_uri (uri_url p) = None → PathUri_infer_path_convention p = Some WindowsPaths → Url_host_str (uri_url p) = None →
  ∃ d l, nonempty_segments (uri_url p) = d :: l ∧ is_windows_drive_uri_segment d = true.
Proof.
  unfold PathUri_infer_path_convention, opaque_fallback_bytes. intros Hb H Hh. rewrite Hb, Hh, bool_decide_eq_false_2 in H by (by intros [? ?]).
  destruct (nonempty_segments (uri_url p)) as [|d l]; [done|]. exists d, l. split; [done|]. cbn in H. by destruct (is_windows_drive_uri_segment d).
Qed.

(** The convention of what construction gives, from the URL. *)
Lemma constructed_convention (v : Url) (q : PathUri) :
  Url_scheme v = FILE_SCHEME → bare v → Forall (λ s, 0%N ∉ decode_binary s) (Url_path_segments v) →
  Url_host_str v ≠ Some (str "localhost") → PathUri_try_from v = Ok q →
  PathUri_infer_path_convention q =
    Some (if bool_decide (is_Some (Url_host_str v)) || is_some_and (head (nonempty_segments v)) is_windows_drive_uri_segment
          then WindowsPaths else PosixPaths) ∧
  is_some_and (head (nonempty_segments (uri_url q))) is_windows_drive_uri_segment =
    is_some_and (head (nonempty_segments v)) is_windows_drive_uri_segment.
Proof.
  intros Hs Hc Hz Hl Hq. pose proof (not_opaque v Hs Hc Hz) as Hb.
  assert (q = mkPathUri (with_normalized_windows_drive_letter v)) as ->.
  { unfold PathUri_try_from in Hq. destruct (negb _); [done|]. destruct (validate_file_url v); [|done]. cbn in Hq. injection Hq as <-.
    unfold without_localhost_authority. by rewrite bool_decide_eq_false_2. }
  cbn [uri_url]. destruct (Url_host_str v) as [h|] eqn:Hh.
  { assert (with_normalized_windows_drive_letter v = v) as -> by (unfold with_normalized_windows_drive_letter; by rewrite Hh).
    unfold PathUri_infer_path_convention, opaque_fallback_bytes. cbn [uri_url]. rewrite Hb, Hh. split; [|done]. by rewrite bool_decide_eq_true_2. }
  destruct (normalized_drive v Hh) as [[-> _]|(e & c & s & m & Hseg & He & Hdr & _ & Hseg' & Hbase)].
  { unfold PathUri_infer_path_convention, opaque_fallback_bytes. cbn [uri_url]. rewrite Hb, Hh. split; [|done].
    rewrite bool_decide_eq_false_2 by (by intros [? ?]). cbn [orb]. by destruct (is_some_and _ _). }
  destruct (upper_drive c s Hdr) as [Hu _].
  assert (head (nonempty_segments v) = Some (c :: s)) as ->
    by (unfold nonempty_segments; by rewrite Hseg, List.filter_app, (nonempty_empties e He)).
  assert (head (nonempty_segments (with_normalized_windows_drive_letter v)) = Some (to_ascii_uppercase_char c :: s)) as Hn
    by (unfold nonempty_segments; by rewrite Hseg', List.filter_app, (nonempty_empties e He)).
  rewrite Hn. cbn [is_some_and]. rewrite Hdr, Hu, orb_true_r. split; [|done].
  apply (drive_convention _ (to_ascii_uppercase_char c :: s)); [|done..]. cbn [uri_url].
  apply not_opaque; [by rewrite (scheme_base _ _ Hbase)|by rewrite (common_base _ _ Hbase)|]. rewrite Hseg'. rewrite Hseg in Hz.
  apply Forall_app in Hz as [H1 H2]. apply Forall_cons in H2 as [H2 H3]. apply Forall_app. split; [done|].
  constructor; [|done]. intros H0. by apply H2, upper_drive_nul.
Qed.

(** A URL that construction turned into a drive does not become a POSIX path. *)
Lemma posix_not_drive v q :
  Url_scheme v = FILE_SCHEME → bare v → Forall (λ s, 0%N ∉ decode_binary s) (Url_path_segments v) →
  Url_host_str v = None → PathUri_try_from v = Ok q → PathUri_infer_path_convention q = Some PosixPaths → unnormalized_drive v = false.
Proof.
  intros Hs Hc Hz Hh Hq Hcq. destruct (constructed_convention v q) as [Hcq' _]; [done..|by rewrite Hh|done|].
  rewrite Hcq, Hh in Hcq'. unfold unnormalized_drive. destruct (head (nonempty_segments v)) as [s|]; [|done]. cbn in *.
  by destruct (is_windows_drive_uri_segment s).
Qed.

Lemma joined_url (p q : PathUri) c v n :
  uri_valid p → decode_bad_path_uri (uri_url p) = None → PathUri_infer_path_convention p = Some c →
  join_inv c (uri_url p) (take (anchor_depth c) (nonempty_segments (uri_url p))) v n →
  PathUri_try_from v = Ok q → PathUri_infer_path_convention q = Some c → q = mkPathUri v ∧ decode_bad_path_uri v = None.
Proof.
  intros Hv Hb Hc [Hbase Hroot _ Hz _] Hq Hcq.
  assert (Url_scheme v = FILE_SCHEME) as Hs by (rewrite (scheme_base _ _ Hbase); apply Hv).
  assert (bare v) as Hcm by (rewrite (common_base _ _ Hbase); apply Hv).
  pose proof (host_base _ _ Hbase) as Hh. pose proof (not_opaque v Hs Hcm Hz) as Hbv.
  assert (uri_valid (mkPathUri v)) as Hvv.
  { apply valid_of_segments; [done..|rewrite Hh; apply Hv|]. intros Hn. destruct c; [by eapply posix_not_drive|].
    rewrite Hh in Hn. destruct (windows_without_host p Hb Hc Hn) as (d & l & Hseg & Hd).
    pose proof (valid_drive p Hv Hn) as Hdr. unfold unnormalized_drive in *. rewrite Hseg in Hdr, Hroot.
    destruct Hroot as [t Ht]. rewrite Ht. exact Hdr. }
  rewrite try_from_id in Hq by done. by injection Hq as <-.
Qed.

(** The URL that a relative path gives. *)
Lemma join_relative_url (p q : PathUri) path c :
  uri_valid p → is_Some (PathUri_lexical_depth p) → plain_path path →
  PathUri_infer_path_convention p = Some c → from_absolute_native_path (Url := Url) path c = Returned None →
  PathUri_join p path = Returned (Ok q) →
  ∃ v n, PathUri_try_from v = Ok q ∧ join_inv c (uri_url p) (take (anchor_depth c) (nonempty_segments (uri_url p))) v n.
Proof.
  intros Hv Hlex Hplain Hc Habs Hjoin. pose proof Hlex as [d (Hb & Hd & c' & Hc' & Hcont)%lexical_depth_Some].
  rewrite Hc in Hc'. injection Hc' as <-.
  unfold PathUri_join in Hjoin. destruct (bool_decide (0%N ∈ path)) eqn:E0; [done|]. apply bool_decide_eq_false in E0.
  destruct (is_empty path) eqn:Ee.
  - injection Hjoin as <-. exists (uri_url p), d. split; [destruct p; by apply try_from_id|].
    subst d. split; [done|apply prefix_take|done|by apply Hv|]. by eapply containment_no_separator.
  - rewrite Hc, Habs in Hjoin. cbn in Hjoin. destruct (bool_decide (c = WindowsPaths) && drive_relative path) eqn:Edr; cbn in Hjoin.
    + destruct (negb _); [done|]. destruct (PathUri_is_opaque p); [done|]. injection Hjoin as Hjoin.
      destruct (join_relative_inv p c (drop 2 path)) as [n Hn]; [done..| | |by eauto].
      * unfold plain_path in *. by apply Forall_drop.
      * intros H. apply E0. rewrite <- (take_drop 2 path). apply elem_of_app. by right.
    + destruct (PathUri_is_opaque p); [done|]. injection Hjoin as Hjoin.
      destruct (join_relative_inv p c path) as [n Hn]; [done..|]. by eauto.
Qed.

(** A join keeps the convention of the base, or names a drive below the POSIX root. *)
Lemma joined_convention (p q : PathUri) c v n :
  uri_valid p → decode_bad_path_uri (uri_url p) = None → PathUri_infer_path_convention p = Some c →
  join_inv c (uri_url p) (take (anchor_depth c) (nonempty_segments (uri_url p))) v n → PathUri_try_from v = Ok q →
  PathUri_infer_path_convention q = Some c ∨
  c = PosixPaths ∧ PathUri_infer_path_convention q = Some WindowsPaths ∧ Url_host_str (uri_url q) = None ∧
    is_some_and (head (nonempty_segments (uri_url q))) is_windows_drive_uri_segment = true.
Proof.
  intros Hv Hb Hc [Hbase Hroot _ Hz _] Hq.
  pose proof (host_base _ _ Hbase) as Hh.
  assert (Url_host_str v ≠ Some (str "localhost")) as Hl by (rewrite Hh; apply Hv).
  destruct (constructed_convention v q) as [Hcq Hd];
    [rewrite (scheme_base _ _ Hbase); apply Hv|rewrite (common_base _ _ Hbase); apply Hv|done..|].
  rewrite Hd, Hcq. destruct (construction_parts v q Hq) as [-> _]. rewrite (bool_decide_eq_false_2 (Url_host_str v = Some (str "localhost"))) by done. rewrite Hh.
  destruct (Url_host_str (uri_url p)) as [h|] eqn:Hhp.
  { left. rewrite bool_decide_eq_true_2 by done. cbn. rewrite <- Hc. unfold PathUri_infer_path_convention, opaque_fallback_bytes.
    rewrite Hb, Hhp. by rewrite bool_decide_eq_true_2. }
  rewrite bool_decide_eq_false_2 by (by intros [? ?]). cbn [orb]. destruct c.
  - destruct (is_some_and _ _); [by right|by left].
  - left. destruct (windows_without_host p Hb Hc Hhp) as (d & l & Hseg & Hdr). rewrite Hseg in Hroot. destruct Hroot as [t ->].
    cbn. by rewrite Hdr.
Qed.

(** C33: A relative path without tabs, line ends and bars, with any number of [..] in it,
    joined to a URI whose segments can be compared gives a URI below the root of the base: the
    POSIX root, the Windows drive or the share.  The one exception is a join to a POSIX path
    whose result begins with a segment such as [C:]: the result is then a Windows path, and
    its drive takes the place of the root. *)
Theorem join_stays_below_root (p q : PathUri) (path : rstring) (c : PathConvention) :
  uri_valid p → is_Some (PathUri_lexical_depth p) → plain_path path →
  PathUri_infer_path_convention p = Some c → from_absolute_native_path (Url := Url) path c = Returned None →
  PathUri_join p path = Returned (Ok q) →
  (∃ r, last (PathUri_ancestors p) = Some r ∧ PathUri_starts_with q r = true) ∨
  c = PosixPaths ∧ PathUri_infer_path_convention q = Some WindowsPaths ∧ Url_host_str (uri_url q) = None ∧
    is_some_and (head (nonempty_segments (uri_url q))) is_windows_drive_uri_segment = true.
Proof.
  intros Hv Hlex Hplain Hc Habs Hjoin. pose proof Hlex as [d (Hb & _)%lexical_depth_Some].
  destruct (join_relative_url p q path c) as (v & n & Hq & Hinv); [done..|].
  destruct (joined_convention p q c v n) as [Hcq|?]; [done..| |by right]. left.
  destruct (ancestors_from_last (S (length (Url_path_segments (uri_url p)))) p Hv Hb) as (r & Hr & Hroot); [lia|].
  exists r. split; [exact Hr|].
  destruct (joined_url p q c v n Hv Hb Hc Hinv Hq Hcq) as [-> Hbv].
  destruct Hinv as [Hbase Hpre _ _ Hsep]. apply (below_root p r _ c); try done. cbn. by apply host_base.
Qed.

(** ** Relative paths *)
Lemma char_in_encode b s : (b < 128)%N → b ∈ s → b ∈ encode s.
Proof.
  intros Hb. induction s as [|c s IH]; [done|]. change (c :: s) with ([c] ++ s). rewrite encode_app, !elem_of_app.
  intros [->%list_elem_of_singleton|H]; [left|right; auto]. unfold encode. cbn. rewrite app_nil_r. unfold encode_char.
  rewrite if_true by (by apply N.ltb_lt). by left.
Qed.

Definition good_name (t : rstring) : Prop := t ≠ [] ∧ t ≠ str "." ∧ t ≠ str ".." ∧ plain_path t.

(** A path without dots only pushes its components. *)
Lemma push_components c ts v n :
  Forall good_name ts →
  ∃ es, map decode_binary es = map encode ts ∧
    nonempty_segments (foldl (join_component c) (v, n) ts).1 = nonempty_segments v ++ es ∧
    ∀ x, x ∈ Url_path_segments (foldl (join_component c) (v, n) ts).1 → x ∈ es ∨ x ∈ Url_path_segments v.
Proof.
  intros H. revert v n. induction H as [|t ts (Hne & H1 & H2 & Hp) Hts IH]; intros v n.
  { exists []. split_and!; [done|by rewrite app_nil_r|by right]. }
  destruct (nonempty_push v t) as (e & He & Hseg & Hin); [by split_and!|done|].
  destruct (IH (Url_push v t) (S n)) as (es & Hes & Hsegs & Hins). exists (e :: es). cbn [foldl].
  assert (join_component c (v, n) t = (Url_push v t, S n)) as ->.
  { unfold join_component. unfold str_eqb. rewrite !bool_decide_eq_false_2 by done. by destruct t. }
  split_and!; [cbn; by rewrite He, Hes|by rewrite Hsegs, Hseg, <- app_assoc|].
  intros x [Hx|Hx]%Hins; [left; by right|]. apply Hin in Hx as [->|Hx]; [left; by left|by right].
Qed.

Lemma relative_segments (p : PathUri) s :
  uri_valid p → uri_text p → is_Some (PathUri_lexical_depth p) → s ∈ nonempty_segments (uri_url p) →
  encode (decode_uri_path s) = decode_binary s ∧ scalars (decode_uri_path s) ∧ decode_uri_path s ≠ [] ∧
  decode_uri_path s ≠ str "." ∧ decode_uri_path s ≠ str ".." ∧ (0%N ∉ decode_uri_path s) ∧ (47%N ∉ decode_uri_path s).
Proof.
  intros Hv Ht [d (Hb & _ & c & Hc & Hcont)%lexical_depth_Some] Hs. pose proof Hs as Hs'.
  apply list_elem_of_In, List.filter_In in Hs' as [Hin Hne]. apply list_elem_of_In in Hin.
  pose proof (uri_text_nonempty p Ht) as Htx. rewrite Forall_forall in Htx. destruct (decode_uri_text s (Htx s Hs)) as [He Hsc].
  pose proof (no_dot_segments (uri_url p) (valid_scheme p Hv)) as Hdot. rewrite Forall_forall in Hdot. destruct (Hdot s Hin) as [Hd1 Hd2].
  split_and!; [done|done| |by intros Hx; rewrite Hx in He|by intros Hx; rewrite Hx in He| |].
  - intros Hx. rewrite Hx in He. cbn in He. symmetry in He. revert He. apply decode_nonempty. by destruct s.
  - intros Hx. apply (char_in_encode 0) in Hx; [|done]. rewrite He in Hx. pose proof (valid_nul p Hv Hb) as Hz.
    rewrite Forall_forall in Hz. by apply (Hz s).
  - intros Hx. apply (char_in_encode 47) in Hx; [|done]. rewrite He in Hx. apply containment_no_separator in Hcont.
    rewrite Forall_forall in Hcont. revert Hx. by apply (no_separator c), Hcont.
Qed.

Lemma starts_with_refl (p : PathUri) : PathUri_starts_with p p = true.
Proof. unfold PathUri_starts_with, PathUri_eqb. by rewrite (bool_decide_eq_true_2 (uri_url p = uri_url p)). Qed.

Definition name_list (ts : list rstring) : Prop :=
  ts ≠ [] ∧ Forall (λ t, good_name t ∧ scalars t ∧ (0%N ∉ t) ∧ (47%N ∉ t)) ts.

Lemma names_text ts :
  name_list ts →
  split_on 47 (join (str "/") ts) = ts ∧ (0%N ∉ join (str "/") ts) ∧ plain_path (join (str "/") ts) ∧
  ∃ c s, join (str "/") ts = c :: s ∧ c ≠ 47%N.
Proof.
  change (str "/") with [47%N]. intros [Hne H]. rewrite Forall_forall in H. split_and!.
  - apply split_on_join; [done|]. apply Forall_forall. intros t Ht. by apply H in Ht as (_ & _ & _ & ?).
  - intros (t & Ht & H0)%elem_of_join_slash; [|done]. apply H in Ht as (_ & _ & ? & _). done.
  - apply Forall_forall. intros x Hx. destruct (decide (x = 47%N)) as [->|Hx47]; [rewrite !not_elem_of_cons; split_and!; try done; apply not_elem_of_nil|].
    apply elem_of_join_slash in Hx as (t & Ht & Hx); [|done]. apply H in Ht as ((_ & _ & _ & Hp) & _).
    unfold plain_path in Hp. rewrite Forall_forall in Hp. by apply Hp.
  - destruct ts as [|t ts]; [done|]. destruct (H t) as ((Ht & _) & _ & _ & H47); [by left|]. destruct t as [|c t]; [done|].
    exists c. destruct ts as [|t' ts]; [|rewrite join_cons by done]; eexists; (split; [done|]); intros ->; apply H47; by left.
Qed.

(** The convention and root of a POSIX URI with segments. *)
Lemma posix_shape (p : PathUri) :
  decode_bad_path_uri (uri_url p) = None → PathUri_infer_path_convention p = Some PosixPaths →
  Url_host_str (uri_url p) = None ∧ is_some_and (head (nonempty_segments (uri_url p))) is_windows_drive_uri_segment = false.
Proof.
  unfold PathUri_infer_path_convention, opaque_fallback_bytes. intros ->. destruct (Url_host_str (uri_url p)); [done|].
  rewrite bool_decide_eq_false_2 by (by intros [? ?]). by destruct (is_some_and _ _).
Qed.
Lemma posix_of_shape (p : PathUri) :
  decode_bad_path_uri (uri_url p) = None → Url_host_str (uri_url p) = None →
  is_some_and (head (nonempty_segments (uri_url p))) is_windows_drive_uri_segment = false →
  PathUri_infer_path_convention p = Some PosixPaths ∧ unnormalized_drive (uri_url p) = false.
Proof.
  intros Hb Hh Hd. unfold PathUri_infer_path_convention, opaque_fallback_bytes, unnormalized_drive. rewrite Hb, Hh, Hd.
  rewrite bool_decide_eq_false_2 by (by intros [? ?]). split; [done|].
  destruct (head (nonempty_segments (uri_url p))); [|done]. cbn in *. by rewrite Hd.
Qed.

Lemma posix_join_names (base : PathUri) ts :
  uri_valid base → uri_text base → is_Some (PathUri_lexical_depth base) → PathUri_infer_path_convention base = Some PosixPaths →
  nonempty_segments (uri_url base) ≠ [] → name_list ts →
  ∃ q, PathUri_join base (join (str "/") ts) = Returned (Ok q) ∧ uri_text q ∧ is_Some (PathUri_lexical_depth q) ∧
    PathUri_infer_path_convention q = Some PosixPaths ∧ Url_host_str (uri_url q) = Url_host_str (uri_url base) ∧
    path_keys PosixPaths q = path_keys PosixPaths base ++ map encode ts.
Proof.
  intros Hv Htext Hlex Hc Hne Hts. pose proof Hlex as [d (Hb & _)%lexical_depth_Some].
  destruct (names_text ts Hts) as (Hsplit & H0 & Hplain & c & s & Hcs & Hc47). destruct (posix_shape base Hb Hc) as [Hh Hhd].
  destruct (join_relative_inv base PosixPaths _ Hv Hc Hlex Hplain H0) as [n [Hbase _ _ Hz Hsep]].
  set (v := join_relative PosixPaths (uri_url base) (join (str "/") ts)) in *.
  destruct (push_components PosixPaths ts (Url_pop_if_empty (uri_url base)) (length (nonempty_segments (uri_url base)))) as (es & Hes & Hseg & Hin).
  { destruct Hts as [_ Hts]. eapply Forall_impl; [exact Hts|]. by intros t (? & _). }
  assert (v = (foldl (join_component PosixPaths) (Url_pop_if_empty (uri_url base), length (nonempty_segments (uri_url base))) ts).1) as Hvfold
    by (subst v; unfold join_relative; cbn [root_relative bool_decide]; by rewrite Hsplit).
  rewrite <- Hvfold in Hseg, Hin. rewrite nonempty_pop_if_empty in Hseg.
  assert (Url_scheme v = FILE_SCHEME) as Hs by (rewrite (scheme_base _ _ Hbase); apply Hv).
  assert (bare v) as Hcm by (rewrite (common_base _ _ Hbase); apply Hv).
  pose proof (not_opaque v Hs Hcm Hz) as Hbv.
  destruct (posix_of_shape (mkPathUri v)) as [Hcv Hdv]; [done|cbn; by rewrite (host_base _ _ Hbase)| |].
  { cbn [uri_url]. rewrite Hseg. by destruct (nonempty_segments (uri_url base)). }
  assert (uri_valid (mkPathUri v)) as Hvv by (apply valid_of_segments; try done; rewrite (host_base _ _ Hbase), Hh; done).
  exists (mkPathUri v). split_and!.
  - unfold PathUri_join. rewrite bool_decide_eq_false_2 by done. rewrite Hcs at 1. cbn [is_empty]. rewrite Hc.
    unfold from_absolute_native_path, parse_posix_path.
    assert (strip_prefix (str "/") (join (str "/") ts) = None) as ->.
    { apply strip_prefix_None. intros r Hr. rewrite Hcs in Hr. by injection Hr as -> _. }
    cbn [mbind checked_bind andb negb bool_decide]. unfold PathUri_is_opaque, opaque_fallback_bytes. rewrite Hb. cbn [bool_decide].
    rewrite (bool_decide_eq_false_2 (is_Some None)) by (by intros [? ?]). by rewrite <- (try_from_id v Hvv Hbv).
  - apply Forall_forall. intros x [Hx|Hx%segments_pop_if_empty_incl]%Hin; [|unfold uri_text in Htext; rewrite Forall_forall in Htext; auto].
    assert (decode_binary x ∈ map encode ts) as (t & Ht & Htin)%list_elem_of_fmap by (rewrite <- Hes; by apply list_elem_of_fmap_2).
    unfold utf8_segment. rewrite Ht. destruct Hts as [_ Hts]. rewrite Forall_forall in Hts. by rewrite from_utf8_encode by by apply Hts.
  - exists (length (nonempty_segments v)). apply lexical_depth_Some. split_and!; [done..|]. exists PosixPaths.
    split; [done|]. by apply no_separator_containment.
  - done.
  - by apply host_base.
  - unfold path_keys. cbn [uri_url]. rewrite Hseg, map_app. f_equal. exact Hes.
Qed.

(** The relative path names segments that a join pushes. *)
Lemma relative_names (p : PathUri) (bs rest : list rstring) :
  uri_valid p → uri_text p → is_Some (PathUri_lexical_depth p) → rest = drop (length bs) (nonempty_segments (uri_url p)) →
  rest ≠ [] → plain_path (join (str "/") (map decode_uri_path rest)) →
  name_list (map decode_uri_path rest) ∧ map encode (map decode_uri_path rest) = map decode_binary rest.
Proof.
  intros Vp Tp Lp Hrest Hne Hplain.
  assert (∀ s, s ∈ rest → s ∈ nonempty_segments (uri_url p)) as Hin.
  { intros s Hs. rewrite <- (take_drop (length bs) (nonempty_segments (uri_url p))), <- Hrest. apply elem_of_app. by right. }
  split; [split; [by destruct rest|]|].
  - rewrite Forall_map. apply Forall_forall. intros s Hs.
    destruct (relative_segments p s Vp Tp Lp (Hin s Hs)) as (_ & Hsc & Hnil & H1 & H2 & H0 & H47). split_and!; [|done..].
    split_and!; [done..|]. apply Forall_forall. intros x Hx. unfold plain_path in Hplain. rewrite Forall_forall in Hplain. apply Hplain.
    apply elem_of_join_slash; [intros ->; by apply H47|]. exists (decode_uri_path s). split; [by apply list_elem_of_fmap_2|done].
  - rewrite map_map. apply map_ext_in. intros s Hs%list_elem_of_In. by apply (relative_segments p s Vp Tp Lp (Hin s Hs)).
Qed.

(** On POSIX paths of text, the relative path from a base below the root, joined to that
    base, gives back the path: the two URIs contain each other. *)
Theorem relative_path_roundtrip (p base : PathUri) (rel : rstring) :
  uri_valid p → uri_text p → is_Some (PathUri_lexical_depth p) →
  uri_valid base → uri_text base → is_Some (PathUri_lexical_depth base) →
  PathUri_infer_path_convention base = Some PosixPaths → nonempty_segments (uri_url base) ≠ [] →
  PathUri_relative_path_from p base = Some rel → plain_path rel →
  ∃ q, PathUri_join base rel = Returned (Ok q) ∧ PathUri_starts_with q p = true ∧ PathUri_starts_with p q = true.
Proof.
  intros Vp Tp Lp Vb Tb Lb Cb Hne Hrel Hplain. unfold PathUri_relative_path_from in Hrel.
  assert (PathUri_join base [] = Returned (Ok base)) as Hnil by done.
  destruct (PathUri_eqb p base) eqn:E.
  { injection Hrel as <-. exists base. apply eqb_same in E as [->|(_ & C & _)]; [by rewrite starts_with_refl|congruence]. }
  destruct Lp as [dp Hdp], Lb as [db Hdb]. pose proof Hdp as (Bp & _ & cp & Cp & Sp)%lexical_depth_Some.
  pose proof Hdb as (Bb & _ & cb & Cb' & Sb)%lexical_depth_Some. rewrite Cb in Cb'. injection Cb' as <-.
  rewrite Bp, Bb, Cp, Cb in Hrel. cbn in Hrel. destruct (bool_decide (Url_host_str _ = _)) eqn:Eh; [|done]. cbn in Hrel.
  apply bool_decide_eq_true in Eh. destruct (bool_decide (Some cp = Some PosixPaths)) eqn:Ec; [|done].
  apply bool_decide_eq_true in Ec as [= ->]. cbn in Hrel. rewrite Sp, Sb in Hrel. cbn in Hrel.
  destruct (native_path_segments_start_with _ _ _) eqn:En; [|done]. cbn in Hrel.
  apply zip_matches in En; [|by apply uri_text_nonempty..].
  set (rest := drop (length (nonempty_segments (uri_url base))) (nonempty_segments (uri_url p))) in *.
  assert (path_keys PosixPaths p = path_keys PosixPaths base ++ map decode_binary rest) as Hkeys.
  { unfold path_keys. destruct En as [t Ht]. rewrite Ht. f_equal.
    transitivity (drop (length (map (segment_key PosixPaths) (nonempty_segments (uri_url base)))) (map (segment_key PosixPaths) (nonempty_segments (uri_url p)))).
    - by rewrite Ht, drop_app_length.
    - rewrite length_map. apply skipn_map. }
  assert (∃ q, PathUri_join base rel = Returned (Ok q) ∧ uri_text q ∧ is_Some (PathUri_lexical_depth q) ∧
    PathUri_infer_path_convention q = Some PosixPaths ∧ Url_host_str (uri_url q) = Url_host_str (uri_url base) ∧
    path_keys PosixPaths q = path_keys PosixPaths p) as (q & Hq & Tq & Lq & Cq & Hq' & Kq).
  { rewrite Hkeys. injection Hrel as <-. destruct (decide (rest = [])) as [Er|Er].
    { rewrite Er. exists base. cbn. split_and!; [done|done|by exists db|done|done|by rewrite app_nil_r]. }
    destruct (relative_names p (nonempty_segments (uri_url base)) rest Vp Tp) as [Hn He]; [by exists dp|done..|].
    rewrite <- He. by apply posix_join_names. }
  exists q. split; [done|]. split; apply starts_with_prefix; try done; (split; [congruence|]); exists PosixPaths; by rewrite Kq.
Qed.

(** ** Opaque paths *)
Lemma opaque_normalized u b :
  Url_scheme u = FILE_SCHEME → bare u → decode_bad_path_uri u = Some b →
  with_normalized_windows_drive_letter (without_localhost_authority u) = u.
Proof.
  intros Hs Hc Hb. destruct (opaque_shape u b Hs Hc Hb) as (Hh & rest & Hp). unfold without_localhost_authority.
  rewrite bool_decide_eq_false_2 by (by intros Hx; rewrite Hx in Hh). destruct (Url_host_str u) as [h|] eqn:Hhost.
  { unfold with_normalized_windows_drive_letter. by rewrite Hhost. }
  destruct (normalized_drive u Hhost) as [[H _]|(e & c & s & m & Hseg & He & Hdr & _)]; [done|exfalso].
  rewrite path_segments_path, Hseg, join_slashes in Hp by done. pose proof (drive_letter c s Hdr) as Ha.
  destruct e; cbn in Hp; [|done]. destruct m; injection Hp as -> _; done.
Qed.

Lemma bad_path_decoded u bytes :
  Url_as_str u = BAD_PATH_URI_PREFIX ++ base64_encode bytes → bytes ≠ [] → decode_bad_path_uri u = Some bytes.
Proof.
  intros Has Hne. unfold decode_bad_path_uri. rewrite Has, strip_prefix_app. cbn [mbind option_bind].
  destruct (base64_text bytes Hne) as [H1 H2]. rewrite (bool_decide_eq_false_2 (47%N ∈ _)) by done.
  destruct (base64_encode bytes) as [|c l] eqn:E; [done|]. cbn [is_empty orb]. rewrite <- E, base64_roundtrip. cbn.
  by rewrite str_eqb_refl.
Qed.

(** The [unreachable!] arm is never taken, and the bytes are kept. *)
Lemma opaque_bytes bytes : bytes ≠ [] → ∃ p, from_opaque_path_bytes (Url := Url) bytes = Returned p ∧ opaque_fallback_bytes p = Some bytes.
Proof.
  intros Hne. unfold from_opaque_path_bytes, PathUri_parse. destruct (parse_bad_path bytes) as (u & -> & Hs & Hc & Has). cbn [map_err mbind result_bind].
  pose proof (bad_path_decoded u bytes Has Hne) as Hb. unfold PathUri_try_from, validate_file_url, str_eqb.
  rewrite Hs, bool_decide_eq_true_2 by done. cbn [negb]. rewrite (proj2 (common_iff u) Hc), Hb. cbn [mbind result_bind].
  rewrite (bool_decide_eq_true_2 (is_Some (Some bytes))) by by eexists. rewrite andb_false_r.
  eexists. split; [done|]. unfold opaque_fallback_bytes. cbn [uri_url]. by rewrite (opaque_normalized u bytes).
Qed.

Lemma utf8_lossy_encode s : scalars s → from_utf8_lossy (encode s) = s.
Proof. intros Hs. unfold from_utf8_lossy, utf8_lossy. destruct (length (encode s)); by rewrite (from_utf8_encode s Hs). Qed.

(** A POSIX path that has no URL of its own, stored as an opaque URI, has the POSIX
    convention and is rendered as the same path again. *)
Theorem opaque_path_roundtrip (path : rstring) :
  scalars path → starts_with (str "/") path = true →
  ∃ p, from_opaque_path_bytes (Url := Url) (encode path) = Returned p ∧ PathUri_infer_path_convention p = Some PosixPaths ∧
       PathUri_inferred_native_path_string p = path.
Proof.
  intros Hs [rest ->]%starts_with_true. destruct (opaque_bytes (encode (str "/" ++ rest))) as (p & Hp & Hb); [done|].
  assert (starts_with [47%N] (encode (str "/" ++ rest)) = true) as Hst by by (apply starts_with_true; eexists).
  exists p. assert (PathUri_infer_path_convention p = Some PosixPaths) as Hc.
  { unfold PathUri_infer_path_convention. rewrite Hb. unfold infer_opaque_path_convention. by rewrite Hst. }
  split_and!; [done..|]. unfold PathUri_inferred_native_path_string, LegacyAppPathString_from_path_uri, render_opaque_fallback.
  rewrite Hc. cbn [mbind option_bind]. rewrite Hb, Hst, utf8_lossy_encode by done. done.
Qed.

(** ** Joins do not panic *)
Definition returns {A} (r : checked A) : Prop := r ≠ Unreachable.
Lemma returns_bind {A B} (m : checked A) (f : A → checked B) : returns m → (∀ a, returns (f a)) → returns (m ≫= f).
Proof. destruct m; cbn; [auto|by intros []]. Qed.
Lemma returns_map {A B} (m : checked A) (f : A → B) : returns m → returns (f <$> m).
Proof. by destruct m. Qed.

Lemma returns_opaque bytes : bytes ≠ [] → returns (from_opaque_path_bytes (Url := Url) bytes).
Proof. intros H. destruct (opaque_bytes bytes H) as (p & -> & _). done. Qed.
Lemma returns_windows_opaque path : path ≠ [] → returns (windows_opaque_path_uri (Url := Url) path).
Proof.
  intros H. apply returns_opaque. destruct path as [|c path]; [done|]. cbn [utf16_units]. by destruct (c <? 0x10000)%N.
Qed.

Lemma returns_unnormalized path : path ≠ [] → returns (parse_unnormalized_windows_path (Url := Url) path).
Proof.
  intros Hne. unfold parse_unnormalized_windows_path. destruct (_ || _); [by apply returns_map, returns_windows_opaque|].
  destruct (is_windows_drive_absolute_path path); [done|]. destruct path as [|a [|b path]]; [done..|].
  destruct (_ && _); [|done]. destruct (non_empty_text (head _)); [|done]. destruct (non_empty_text _); [|done].
  destruct (path_uri_from_segments _ _ _); [done|]. by apply returns_map, returns_windows_opaque.
Qed.

Lemma normalized_device path p : normalize_windows_device_path path = Some p → p ≠ [].
Proof.
  unfold normalize_windows_device_path. destruct (strip_prefix _ path); [by intros [= <-]|]. destruct (strip_prefix _ path); [by intros [= <-]|].
  assert (∀ s, (rest ← strip_prefix (str s) path; if is_windows_drive_absolute_path rest then Some rest else None) = Some p → p ≠ []) as H.
  { intros s. destruct (strip_prefix (str s) path) as [[|c r]|]; cbn [mbind option_bind]; try done.
    destruct (is_windows_drive_absolute_path _); [|done]. by intros [= <-]. }
  cbv zeta. destruct (strip_prefix (str "\\?\") path ≫= _) eqn:E; [|apply H]. intros [= <-]. by apply (H "\\?\"%string).
Qed.

Lemma returns_native path c : path ≠ [] → returns (from_absolute_native_path (Url := Url) path c).
Proof.
  intros Hne. assert (encode path ≠ []) as He.
  { intros Hx. destruct path as [|x path]; [done|]. unfold encode in Hx. cbn in Hx. pose proof (encode_char_nonempty x). by destruct (encode_char x). }
  pose proof (returns_windows_opaque path Hne) as Hw. pose proof (returns_opaque _ He) as Ho.
  unfold from_absolute_native_path. apply returns_bind.
  - destruct c.
    + unfold parse_posix_path. destruct (strip_prefix _ path); [|done]. destruct (bool_decide _); [|done]. by apply returns_map, returns_opaque.
    + unfold parse_windows_path. destruct (normalize_windows_device_path path) as [n|] eqn:En; [|by apply returns_unnormalized].
      destruct (match strip_prefix _ n with Some _ => _ | None => _ end); [by apply returns_map|]. apply returns_bind; [by eapply returns_unnormalized, normalized_device|].
      intros [u|]; [destruct (_ && _); [done|]|]; by apply returns_map.
  - intros [u|]; [|done]. destruct (_ && _); [done|]. destruct c; by apply returns_map.
Qed.

(** Joining any text to any URI returns: the [unreachable!] of the conversion to opaque
    URIs is not reached. *)
Theorem join_never_panics (p : PathUri) (path : rstring) : PathUri_join p path ≠ Unreachable.
Proof.
  unfold PathUri_join. destruct (bool_decide (0%N ∈ path)); [done|]. destruct path as [|x path]; [done|]. cbn [is_empty].
  destruct (PathUri_infer_path_convention p) as [c|]; [|done]. apply returns_bind; [by apply returns_native|].
  intros [u|]; [done|]. destruct (_ && negb _); [done|]. by destruct (PathUri_is_opaque p).
Qed.
End Spec.
