(* ===== verification/UrlModel.v ===== *)
(** * File URLs as segments

    An implementation of the interface of [url], [urlencoding] and [base64] that path URIs
    are modelled against, with the laws assumed of them: [file:] URLs as an authority and a
    list of segments.  The theorems on path URIs are applied to it. *)

From stdpp Require Import base list numbers strings.
From S2P Require Import Prelude StreamUtf8 CommandSafety Permissions PathUri PathUriSpec.

#[local] Arguments str : simpl never.

(** ** Codecs *)
Fixpoint url_percent_decode (s : rstring) : list N :=
  match s with
  | [] => []
  | c :: s' =>
      if (c =? 37)%N then
        match s' with
        | a :: b :: rest =>
            match hex_value a, hex_value b with
            | Some x, Some y => (16 * x + y)%N :: url_percent_decode rest
            | _, _ => 37%N :: url_percent_decode s'
            end
        | _ => 37%N :: url_percent_decode s'
        end
      else encode_char c ++ url_percent_decode s'
  end.

Definition hex_digit (n : N) : N := if (n <? 10)%N then (48 + n)%N else (55 + n)%N.
Definition percent (c : N) : rstring := [37; hex_digit (c / 16); hex_digit (c mod 16)]%N.
Definition url_kept (c : N) : bool := is_ascii_alphabetic c || is_ascii_digit c || one_of [c] [str "-"; str "."; str "_"; str ":"; str "~"].
Definition encode_segment (s : rstring) : rstring :=
  concat (map (λ c, if url_kept c || (128 <=? c)%N then [c] else percent c) s).

#[global] Instance model_codecs : UriCodecs := {|
  decode_binary := url_percent_decode;
  encode_binary bytes := concat (map percent bytes);
  base64_encode bytes := map (N.add 48) bytes;
  base64_decode s := if forallb (N.leb 48) s then Some (map (λ c, c - 48)%N s) else None;
|}.

(** ** URLs *)
Record FileUrl := mkFileUrl { stored_host : option rstring; stored_segments : list rstring }.
#[global] Instance FileUrl_eq_dec : EqDecision FileUrl.
Proof. solve_decision. Defined.

(** No slash in a segment or an authority, and no dots. *)
Definition without_slash (s : rstring) : rstring := List.filter (λ c, negb (c =? 47)%N) s.
Definition is_dot (s : rstring) : bool :=
  bool_decide (url_percent_decode s = encode (str ".")) || bool_decide (url_percent_decode s = encode (str "..")).
Definition clean (s : rstring) : rstring := if is_dot (without_slash s) then [] else without_slash s.

Definition url_segments (u : FileUrl) : list rstring :=
  match map clean (stored_segments u) with [] => [[]] | l => l end.
Definition url_host (u : FileUrl) : option rstring := without_slash <$> stored_host u.
Definition url_path (u : FileUrl) : rstring := str "/" ++ join (str "/") (url_segments u).

Definition parse_file_url (s : rstring) : result rstring FileUrl :=
  match strip_prefix (str "file://") s with
  | None => Err (str "not a file URL")
  | Some rest =>
      match split_on 47 rest with
      | host :: segments => Ok (mkFileUrl (if is_empty host then None else Some host) segments)
      | [] => Err []
      end
  end.

#[global] Instance model_urls : UrlOps FileUrl := {|
  Url_parse := parse_file_url;
  Url_from_file_path p := s ← strip_prefix (str "/") p; Some (mkFileUrl None (map encode_segment (split_on 47 s)));
  Url_as_str u := str "file://" ++ default [] (url_host u) ++ url_path u;
  Url_scheme _ := FILE_SCHEME;
  Url_username _ := [];
  Url_password _ := None;
  Url_host_str := url_host;
  Url_port _ := None;
  Url_path := url_path;
  Url_path_segments := url_segments;
  Url_query _ := None;
  Url_fragment _ := None;
  Url_set_host u h := Some (mkFileUrl h (url_segments u));
  Url_set_path u p := mkFileUrl (url_host u) (split_on 47 (default p (strip_prefix (str "/") p)));
  Url_clear u := mkFileUrl (url_host u) [[]];
  Url_pop_if_empty u :=
    match last (url_segments u), removelast (url_segments u) with
    | Some [], (_ :: _) as l => mkFileUrl (url_host u) l
    | _, _ => u
    end;
  Url_pop u := mkFileUrl (url_host u) (match removelast (url_segments u) with [] => [[]] | l => l end);
  Url_push u s :=
    if str_eqb s (str ".") || str_eqb s (str "..") then u
    else mkFileUrl (url_host u)
           (if bool_decide (url_segments u = [[]]) then [encode_segment s] else url_segments u ++ [encode_segment s]);
|}.

(** ** Laws of the codecs *)
Lemma percent_decode_percent s : percent_pair s = None → url_percent_decode (37%N :: s) = 37%N :: url_percent_decode s.
Proof. destruct s as [|a [|b s]]; cbn [url_percent_decode percent_pair]; [done..|]. by destruct (hex_value a), (hex_value b). Qed.

Lemma hex_digit_value n : (n < 16)%N → hex_value (hex_digit n) = Some n.
Proof.
  intros Hn. unfold hex_digit, hex_value. destruct (N.ltb_spec n 10).
  - destruct (N.leb_spec 48 (48 + n)), (N.leb_spec (48 + n) 57); cbn [andb]; try lia. f_equal. lia.
  - destruct (N.leb_spec 48 (55 + n)), (N.leb_spec (55 + n) 57), (N.leb_spec 65 (55 + n)), (N.leb_spec (55 + n) 70); cbn [andb]; try lia.
    f_equal. lia.
Qed.

Lemma decode_encoded_char c s :
  url_percent_decode ((if url_kept c || (128 <=? c)%N then [c] else percent c) ++ s) = encode_char c ++ url_percent_decode s.
Proof.
  destruct (url_kept c || (128 <=? c)%N) eqn:E.
  - cbn [app url_percent_decode]. destruct (N.eqb_spec c 37); [subst; done|done].
  - apply orb_false_iff in E as [_ E%N.leb_gt]. unfold percent. cbn [app url_percent_decode].
    rewrite (N.eqb_refl 37), !hex_digit_value; [|apply N.mod_lt; done|apply N.Div0.div_lt_upper_bound; lia].
    unfold encode_char. rewrite if_true by (by apply N.ltb_lt). cbn [app]. f_equal. symmetry. apply N.div_mod. done.
Qed.

Lemma decode_encode_segment s : url_percent_decode (encode_segment s) = encode s.
Proof.
  unfold encode_segment, encode. induction s as [|c s IH]; [done|]. cbn [map concat]. by rewrite decode_encoded_char, IH.
Qed.

Lemma encode_segment_no_slash s : 47%N ∉ encode_segment s.
Proof.
  unfold encode_segment. rewrite list_elem_of_In, in_concat. intros (x & Hx & H). apply in_map_iff in Hx as (c & <- & _).
  destruct (url_kept c || (128 <=? c)%N) eqn:E.
  - destruct H as [->|[]]. done.
  - assert (∀ n, hex_digit n ≠ 47%N) as Hh by (intros n; unfold hex_digit; destruct (N.ltb_spec n 10); lia).
    cbn in H. destruct H as [?|[H|[H|[]]]]; [done|by apply Hh in H..].
Qed.

(** ** Laws of URLs *)
Lemma without_slash_id s : 47%N ∉ s → without_slash s = s.
Proof.
  induction s as [|c s IH]; [done|]. intros H. cbn. apply not_elem_of_cons in H as [Hc H].
  rewrite (proj2 (N.eqb_neq c 47)) by congruence. cbn. f_equal. by apply IH.
Qed.
Lemma without_slash_none s : 47%N ∉ without_slash s.
Proof. unfold without_slash. rewrite list_elem_of_In, List.filter_In. by intros [_ H]. Qed.

Lemma clean_id s : 47%N ∉ s → is_dot s = false → clean s = s.
Proof. intros H1 H2. unfold clean. rewrite without_slash_id by done. by rewrite H2. Qed.
Lemma clean_spec s : (47%N ∉ clean s) ∧ is_dot (clean s) = false.
Proof.
  unfold clean. destruct (is_dot (without_slash s)) eqn:E; [split; [apply not_elem_of_nil|done]|]. split; [apply without_slash_none|done].
Qed.

Lemma segments_clean u : Forall (λ s, (47%N ∉ s) ∧ is_dot s = false) (url_segments u).
Proof.
  unfold url_segments. destruct (map clean (stored_segments u)) as [|x l] eqn:E.
  - constructor; [split; [apply not_elem_of_nil|done]|done].
  - rewrite <- E. apply Forall_map, Forall_forall. intros s _. apply clean_spec.
Qed.
Lemma segments_mk h l : l ≠ [] → Forall (λ s, (47%N ∉ s) ∧ is_dot s = false) l → url_segments (mkFileUrl h l) = l.
Proof.
  intros Hne H. unfold url_segments. cbn [stored_segments].
  assert (map clean l = l) as -> by (clear Hne; induction H as [|x l [H1 H2] Hl IH]; cbn; [done|]; by rewrite clean_id, IH).
  by destruct l.
Qed.
Lemma segments_mk_nil h : url_segments (mkFileUrl h []) = [[]].
Proof. done. Qed.
Lemma host_mk u l : url_host (mkFileUrl (url_host u) l) = url_host u.
Proof. unfold url_host. cbn. destruct (stored_host u) as [h|]; [|done]. cbn. f_equal. apply without_slash_id, without_slash_none. Qed.

Lemma base_mk u l : url_base (mkFileUrl (url_host u) l) = url_base u.
Proof.
  unfold url_base. change (Url_host_str (mkFileUrl (url_host u) l)) with (url_host (mkFileUrl (url_host u) l)). by rewrite host_mk.
Qed.

Lemma encode_dot c s rest : encode (c :: s) = 46%N :: rest → c = 46%N ∧ encode s = rest.
Proof.
  cbn [encode map concat]. fold (encode s). unfold encode_char. destruct (N.ltb_spec c 0x80); [by intros [= -> ->]|].
  intros Hx. exfalso. destruct (c <? 0x800)%N, (c <? 0x10000)%N; injection Hx as Hx _; lia.
Qed.

Lemma encoded_clean s : pushable s → (47%N ∉ encode_segment s) ∧ is_dot (encode_segment s) = false.
Proof.
  intros (H1 & H2 & _). split; [apply encode_segment_no_slash|]. unfold is_dot. rewrite decode_encode_segment.
  apply orb_false_iff. rewrite !bool_decide_eq_false. change (encode (str ".")) with [46%N]. change (encode (str "..")) with [46%N; 46%N].
  split; intros H.
  - apply H1. destruct s as [|c s]; [done|]. apply encode_dot in H as [-> H]. apply (f_equal length) in H.
    by rewrite (encode_nil_length s H).
  - apply H2. destruct s as [|c s]; [done|]. apply encode_dot in H as [-> H]. destruct s as [|d s]; [done|].
    apply encode_dot in H as [-> H]. apply (f_equal length) in H. by rewrite (encode_nil_length s H).
Qed.

Lemma segments_removelast u l s :
  url_segments u = l ++ [s] → removelast (url_segments u) = l ∧ Forall (λ s, (47%N ∉ s) ∧ is_dot s = false) l.
Proof.
  intros H. pose proof (segments_clean u) as Hc. rewrite H in *. rewrite removelast_last. by apply Forall_app in Hc as [? _].
Qed.

Lemma drive_clean c s : is_windows_drive_uri_segment (c :: s) = true → is_dot (c :: s) = false.
Proof.
  intros H%drive_letter. unfold is_dot, is_ascii_alphabetic in *. apply orb_true_iff in H. rewrite !andb_true_iff, !N.leb_le in H.
  cbn [url_percent_decode]. rewrite (proj2 (N.eqb_neq c 37)) by lia. unfold encode_char. rewrite if_true by (apply N.ltb_lt; lia). cbn [app].
  apply orb_false_iff. rewrite !bool_decide_eq_false. split; intros Hx; apply (f_equal head) in Hx; vm_compute in Hx; injection Hx as Hx; lia.
Qed.

Lemma split_set_path l :
  l ≠ [] → Forall (λ s, 47%N ∉ s) l →
  split_on 47 (default (str "/" ++ join (str "/") l) (strip_prefix (str "/") (str "/" ++ join (str "/") l))) = l.
Proof. intros Hne H. rewrite strip_prefix_app. cbn [default from_option id]. change (str "/") with [47%N]. by apply split_on_join. Qed.

Lemma base64_clean bytes : (47%N ∉ map (N.add 48) bytes) ∧ is_dot (map (N.add 48) bytes) = false.
Proof.
  split; [intros (b & Hb & _)%list_elem_of_fmap; lia|]. destruct bytes as [|b bytes]; [done|]. cbn [map]. unfold is_dot.
  cbn [url_percent_decode]. rewrite (proj2 (N.eqb_neq (48 + b) 37)) by lia. apply orb_false_iff. rewrite !bool_decide_eq_false.
  unfold encode_char. destruct (N.ltb_spec (48 + b) 0x80); [|destruct (48 + b <? 0x800)%N, (48 + b <? 0x10000)%N];
    split; intros Hx; apply (f_equal head) in Hx; cbn [app head] in Hx; vm_compute (head (encode _)) in Hx; injection Hx as Hx; lia.
Qed.

#[global] Instance model_laws : UrlLaws FileUrl.
Proof.
  split.
  - done.
  - intros c s Hc. cbn [decode_binary model_codecs url_percent_decode]. by rewrite (proj2 (N.eqb_neq c 37)).
  - intros s byte rest. destruct s as [|a [|b s]]; [done..|]. cbn [percent_pair decode_binary model_codecs url_percent_decode].
    rewrite N.eqb_refl. destruct (hex_value a), (hex_value b); cbn; try done. by intros [= <- <-].
  - apply percent_decode_percent.
  - intros u. unfold Url_path_segments. cbn. unfold url_segments. by destruct (map clean _).
  - intros u. eapply Forall_impl; [apply (segments_clean u)|]. by intros s [? _].
  - done.
  - intros u h Hh. cbn in Hh. unfold url_host in Hh. destruct (stored_host u); [|done]. injection Hh as <-. apply without_slash_none.
  - intros u _. eapply Forall_impl; [apply (segments_clean u)|]. intros s [_ H]. unfold is_dot in H. apply orb_false_iff in H.
    by rewrite !bool_decide_eq_false in H.
  - done.
  - intros u. apply base_mk.
  - intros u. cbn. destruct (last (url_segments u)) as [[|]|], (removelast (url_segments u)); try done. apply base_mk.
  - intros u. apply base_mk.
  - intros u s. cbn. destruct (_ || _); [done|]. apply base_mk.
  - done.
  - intros u l H Hl. cbn in *. destruct (segments_removelast u l [] H) as [Hr Hc]. rewrite Hr, H, last_snoc.
    destruct l as [|x l]; [done|]. by apply segments_mk.
  - intros u l s H Hd. cbn in *. destruct (segments_removelast u l s H) as [Hr Hc]. rewrite Hr, H, last_snoc.
    destruct s; [|done]. destruct Hd as [->|]; done.
  - intros u l s H. cbn in *. destruct (segments_removelast u l s H) as [-> Hc]. destruct l as [|x l]; [done|]. by apply segments_mk.
  - intros u s Hs. exists (encode_segment s). split; [apply decode_encode_segment|]. cbn. pose proof Hs as (H1 & H2 & _).
    unfold str_eqb. rewrite !bool_decide_eq_false_2 by done. cbn [orb]. destruct (encoded_clean s Hs) as [H3 H4].
    apply segments_mk; [by destruct (bool_decide _), (url_segments u)|].
    destruct (bool_decide _); [by repeat constructor|]. apply Forall_app. split; [apply segments_clean|by repeat constructor].
  - intros u _. eexists. split; [done|]. split_and!; try done. cbn. apply segments_mk; [|apply segments_clean].
    unfold url_segments. by destruct (map clean _).
  - intros u path. apply base_mk.
  - intros u l c s m H He Hd. cbn [Url_path_segments Url_set_path model_urls] in *. destruct (upper_drive c s Hd) as [Hu _]. pose proof (segments_clean u) as Hc. rewrite H in Hc.
    apply Forall_app in Hc as [H1 H2]. apply Forall_cons in H2 as [[H2 _] H3].
    assert (Forall (λ s, (47%N ∉ s) ∧ is_dot s = false) (l ++ (to_ascii_uppercase_char c :: s) :: m)) as Hall.
    { apply Forall_app. split; [done|]. constructor; [|done]. split; [|by apply drive_clean].
      apply not_elem_of_cons. split; [|by apply not_elem_of_cons in H2 as [_ ?]]. pose proof (drive_letter _ _ Hu) as Ha. intros Hx. by rewrite <- Hx in Ha. }
    rewrite split_set_path; [|by destruct l|eapply Forall_impl; [exact Hall|]; by intros x [? _]]. apply segments_mk; [by destruct l|done].
  - intros bytes. cbn. assert (forallb (N.leb 48) (map (N.add 48) bytes) = true) as ->.
    { apply forallb_forall. intros x Hx. apply in_map_iff in Hx as (b & <- & _). apply N.leb_le. lia. }
    f_equal. rewrite map_map. erewrite map_ext; [apply map_id|]. intros b. cbn. lia.
  - intros bytes Hne. split; [by destruct bytes|]. apply base64_clean.
  - intros bytes. destruct (base64_clean bytes) as [H1 H2].
    exists (mkFileUrl None [str "%00"; str "bad"; str "path"; map (N.add 48) bytes]). split_and!; try done.
    + cbn [Url_parse model_urls base64_encode model_codecs]. unfold parse_file_url.
      change (BAD_PATH_URI_PREFIX ++ map (N.add 48) bytes) with
        (str "file://" ++ [] ++ 47%N :: str "%00" ++ 47%N :: str "bad" ++ 47%N :: str "path" ++ 47%N :: map (N.add 48) bytes).
      rewrite strip_prefix_app. rewrite !split_on_app, split_on_none by (done || by apply (bool_decide_unpack _)). done.
    + cbn [Url_as_str model_urls base64_encode model_codecs]. unfold url_path. rewrite segments_mk; [done|done|].
      repeat constructor; try done; by apply (bool_decide_unpack _).
  - exists (mkFileUrl None [[]]). done.
Qed.
