(* ===== verification/Access.v ===== *)
(** * Access to paths

    Models the part of [sofia-rs/protocol/src/permissions.rs] that resolves which access a
    file system policy gives to a path: the concrete roots of its entries, the most specific
    entry, protected metadata and the matcher for denied reads.  The operations of [PathUri]
    and the crate [globset] are interfaces; the laws assumed of the former hold for POSIX
    paths as lists of segments.  The theorem shows that a policy that counts as giving write
    access to the whole disk really gives it to every path. *)

From stdpp Require Import base list numbers strings.
From S2P Require Import Prelude StreamUtf8 Permissions PathUri.

#[local] Set Default Proof Using "Type*".
#[local] Arguments str : simpl never.

(** What the resolution asks of a [PathUri] besides [PathUriView]. *)
Class PathUriTree (PathUri : Type) := {
  uri_ancestors : PathUri → list PathUri;
  uri_starts_with : PathUri → PathUri → bool;
  uri_join : PathUri → rstring → option PathUri;
  uri_join_descendant : PathUri → rstring → option PathUri;
  uri_is_opaque : PathUri → bool;
  decoded_path_bytes : PathUri → list N;
  inferred_native_path_string : PathUri → rstring;
}.

(** [globset], with the options of [build_glob_matcher]. *)
Class DenyGlobs := {
  deny_glob_ok : PathConvention → rstring → bool;
  deny_glob_matches : PathConvention → rstring → list N → bool;
}.

#[global] Instance FileSystemSpecialPath_eq_dec : EqDecision FileSystemSpecialPath.
Proof. solve_decision. Defined.
#[global] Instance MissingPathBehavior_eq_dec : EqDecision FileSystemSandboxEntryMissingPathBehavior.
Proof. solve_decision. Defined.

Definition PROTECTED_METADATA_PATH_NAMES : list rstring := [str ".git"; str ".agents"; str ".sofia"].
Definition is_protected_metadata_name (name : rstring) : bool :=
  existsb (str_eqb name) PROTECTED_METADATA_PATH_NAMES.

Definition can_read (a : FileSystemAccessMode) : bool := match a with Deny => false | _ => true end.

(** [str::replace] of one character. *)
Definition replace_char (from to : N) (s : rstring) : rstring := map (λ c, if (c =? from)%N then to else c) s.

(** [Iterator::max_by_key]: the last of the greatest items. *)
Definition max_by {A} (leb : A → A → bool) (l : list A) : option A :=
  foldl (λ best x, match best with None => Some x | Some b => if leb b x then Some x else Some b end) None l.

Section Access.
Context {PathUri : Type} `{!PathUriView PathUri} `{!PathUriTree PathUri} `{!DenyGlobs}.
#[local] Abbreviation policy := (FileSystemSandboxPolicy PathUri).

Record FileSystemSandboxPolicyContext := mkContext {
  ctx_cwd : PathUri;
  ctx_workspace_roots : list PathUri;
  ctx_user_home_dir : option PathUri;
  ctx_temporary_directories : option (list PathUri);
}.

(** ** Roots of entries *)
Definition file_system_root (ctx : FileSystemSandboxPolicyContext) : option PathUri :=
  _ ← lexical_depth (ctx_cwd ctx); last (uri_ancestors (ctx_cwd ctx)).

Definition special_roots (ctx : FileSystemSandboxPolicyContext) (value : FileSystemSpecialPath) : list PathUri :=
  match value with
  | Root => option_list (file_system_root ctx)
  | ProjectRoots subpath =>
      omap (λ root, match subpath with Some s => uri_join root s | None => Some root end) (ctx_workspace_roots ctx)
  | Tmpdir => default [] (ctx_temporary_directories ctx)
  | SlashTmp =>
      if bool_decide (infer_path_convention (ctx_cwd ctx) = Some PosixPaths)
      then option_list (uri_join (ctx_cwd ctx) (str "/tmp")) else []
  | Minimal | UnknownSpecial _ _ => []
  end.
Definition entry_roots (ctx : FileSystemSandboxPolicyContext) (path : FileSystemPath PathUri) : list PathUri :=
  match path with Path p => [p] | GlobPattern _ => [] | Special value => special_roots ctx value end.

Definition resolved_entry (ctx : FileSystemSandboxPolicyContext) (entry : FileSystemSandboxEntry PathUri)
    : list (PathUri * FileSystemAccessMode) :=
  map (λ p, (p, entry_access entry))
    (List.filter (λ p, bool_decide (infer_path_convention p = infer_path_convention (ctx_cwd ctx)))
       (entry_roots ctx (entry_path entry))).
Definition resolved_entries (ctx : FileSystemSandboxPolicyContext) (p : policy) : list (PathUri * FileSystemAccessMode) :=
  concat (map (resolved_entry ctx) (sandbox_entries p)).

(** ** The most specific entry *)
Definition rooted_entry : Type := PathUri * FileSystemAccessMode * nat.

(** The fold that keeps the depths; [None] when a root has no depth and is not opaque. *)
Fixpoint with_depths (entries : list (PathUri * FileSystemAccessMode)) : option (list rooted_entry) :=
  match entries with
  | [] => Some []
  | (root, access) :: rest =>
      match lexical_depth root with
      | Some depth => l ← with_depths rest; Some ((root, access, depth) :: l)
      | None => if uri_is_opaque root then with_depths rest else None
      end
  end.

(** The order of the keys [(depth, access)]. *)
Definition specific_leb (a b : rooted_entry) : bool :=
  (a.2 <? b.2) || ((a.2 =? b.2) && (access_rank a.1.2 <=? access_rank b.1.2)).

Definition paths_comparable (ctx : FileSystemSandboxPolicyContext) (path : PathUri) (convention : PathConvention) : bool :=
  bool_decide (infer_path_convention path = Some convention) && bool_decide (is_Some (lexical_depth path)) &&
  bool_decide (is_Some (lexical_depth (ctx_cwd ctx))).

Definition resolve_access (p : policy) (path : PathUri) (ctx : FileSystemSandboxPolicyContext) : FileSystemAccessMode :=
  match sandbox_kind p with
  | Unrestricted | ExternalSandbox => Write
  | Restricted =>
      match infer_path_convention (ctx_cwd ctx) with
      | None => Deny
      | Some convention =>
          if negb (paths_comparable ctx path convention) then Deny
          else
            match with_depths (resolved_entries ctx p) with
            | None => Deny
            | Some entries =>
                match max_by specific_leb (List.filter (λ e, uri_starts_with path e.1.1) entries) with
                | Some e => e.1.2
                | None => Deny
                end
            end
      end
  end.

Definition has_full_disk_write_access_with_context (p : policy) (ctx : FileSystemSandboxPolicyContext) : bool :=
  has_full_disk_write_access_for_convention p (infer_path_convention (ctx_cwd ctx)).

Definition has_full_disk_read_access (unix : bool) (p : policy) : bool :=
  match sandbox_kind p with
  | Unrestricted | ExternalSandbox => true
  | Restricted => has_root_access p can_read && negb (has_denied_read_restrictions unix p)
  end.

(** ** Protected metadata *)
(** The first protected directory of a writable root that contains the path. *)
Definition protected_in (path root : PathUri) : option (PathUri * rstring) :=
  head (omap (λ name, protected ← uri_join_descendant root name;
                      if uri_starts_with path protected then Some (protected, name) else None)
          PROTECTED_METADATA_PATH_NAMES).

Definition metadata_write_denial (p : policy) (path : PathUri) (ctx : FileSystemSandboxPolicyContext) : option rstring :=
  if negb (is_restricted p) then None
  else
    let entries := resolved_entries ctx p in
    '(protected, name) ← head (omap (λ e, if can_write e.2 then protected_in path e.1 else None) entries);
    if existsb (λ e, can_write e.2 && uri_starts_with path e.1 && uri_starts_with e.1 protected) entries
    then None else Some name.

Definition can_write_path (p : policy) (path : PathUri) (ctx : FileSystemSandboxPolicyContext) : bool :=
  if negb (can_write (resolve_access p path ctx)) then false
  else has_full_disk_write_access_with_context p ctx || bool_decide (metadata_write_denial p path ctx = None).

(** ** Denied reads *)
Inductive InvalidDenyReadGlobBehavior := FailClosed | ReturnError.
Record PreparedReadDenyMatcher := mkPrepared {
  denied_roots : list PathUri;
  deny_read_matchers : list (PathConvention * rstring);
  invalid_pattern : bool;
}.

(** Errors of patterns. *)
Inductive DenyGlobError := NoExecutorHome (pattern : rstring) | Unresolvable (pattern : rstring) | InvalidDenyGlob (pattern : rstring).

Definition is_windows (ctx : FileSystemSandboxPolicyContext) : bool :=
  bool_decide (infer_path_convention (ctx_cwd ctx) = Some WindowsPaths).

Definition resolve_deny_glob (ctx : FileSystemSandboxPolicyContext) (pattern : rstring) : result DenyGlobError rstring :=
  let windows := is_windows ctx in
  let home_relative :=
    match strip_prefix (str "~/") pattern with
    | Some s => Some s
    | None => if windows then strip_prefix (str "~\") pattern else None
    end in
  '(root, relative) ←
    match home_relative with
    | Some suffix =>
        match ctx_user_home_dir ctx with
        | Some home => Ok (home, drop_while (λ c, (c =? 47)%N || (windows && (c =? 92)%N)) suffix)
        | None => Err (NoExecutorHome pattern)
        end
    | None => Ok (ctx_cwd ctx, pattern)
    end;
  match uri_join root relative with
  | Some path => Ok (inferred_native_path_string path)
  | None => Err (Unresolvable relative)
  end.

Definition deny_pattern (entry : FileSystemSandboxEntry PathUri) : option rstring :=
  match entry_path entry with
  | GlobPattern pattern => if bool_decide (entry_access entry = Deny) then Some pattern else None
  | _ => None
  end.
Definition deny_read_globs (ctx : FileSystemSandboxPolicyContext) (p : policy) : result DenyGlobError (list rstring) :=
  collect (resolve_deny_glob ctx) (omap deny_pattern (sandbox_entries p)).

(** [build_glob_matcher]. *)
Definition build_glob_matcher (pattern : rstring) (convention : PathConvention) : option (PathConvention * rstring) :=
  let pattern := match convention with WindowsPaths => replace_char 92 47 pattern | PosixPaths => pattern end in
  if deny_glob_ok convention pattern then Some (convention, pattern) else None.

Fixpoint build_matchers (behavior : InvalidDenyReadGlobBehavior) (convention : PathConvention) (patterns : list rstring)
    (matchers : list (PathConvention * rstring)) (invalid : bool)
    : result DenyGlobError (list (PathConvention * rstring) * bool) :=
  match patterns with
  | [] => Ok (matchers, invalid)
  | pattern :: rest =>
      match build_glob_matcher pattern convention, behavior with
      | Some m, _ => build_matchers behavior convention rest (matchers ++ [m]) invalid
      | None, FailClosed => build_matchers behavior convention rest matchers true
      | None, ReturnError => Err (InvalidDenyGlob pattern)
      end
  end.

(** A root that is the root of the file system itself does not make a matcher. *)
Definition same_as_root (root fs_root : PathUri) : bool :=
  uri_starts_with root fs_root && uri_starts_with fs_root root.
Definition matcher_roots (ctx : FileSystemSandboxPolicyContext) (p : policy) : list PathUri :=
  map fst (List.filter (λ e, bool_decide (e.2 = Deny) && negb (is_some_and (file_system_root ctx) (same_as_root e.1)))
             (resolved_entries ctx p)).

Definition prepare_deny_read_matcher (behavior : InvalidDenyReadGlobBehavior) (ctx : FileSystemSandboxPolicyContext)
    (p : policy) : result DenyGlobError PreparedReadDenyMatcher :=
  let roots := matcher_roots ctx p in
  match infer_path_convention (ctx_cwd ctx) with
  | None => Ok (mkPrepared roots [] true)
  | Some convention =>
      match deny_read_globs ctx p, behavior with
      | Err _, FailClosed => Ok (mkPrepared roots [] true)
      | Err e, ReturnError => Err e
      | Ok patterns, _ =>
          '(matchers, invalid) ← build_matchers behavior convention patterns [] false;
          Ok (mkPrepared roots matchers invalid)
      end
  end.

(** [ReadDenyMatcher::from_context]. *)
Definition matcher_from_context (p : policy) (ctx : FileSystemSandboxPolicyContext) : option PreparedReadDenyMatcher :=
  if existsb (λ entry, bool_decide (entry_access entry = Deny)) (sandbox_entries p)
  then result_ok (prepare_deny_read_matcher FailClosed ctx p) else None.

Definition glob_candidate (convention : PathConvention) (path : PathUri) : list N :=
  match convention with
  | PosixPaths => decoded_path_bytes path
  | WindowsPaths => encode (replace_char 92 47 (inferred_native_path_string path))
  end.

(** [is_read_denied_uri], through [matches_prepared_read_deny]. *)
Definition is_read_denied_uri (prepared : PreparedReadDenyMatcher) (path : PathUri) (ctx : FileSystemSandboxPolicyContext)
    : bool :=
  match infer_path_convention (ctx_cwd ctx) with
  | None => true
  | Some convention =>
      if negb (paths_comparable ctx path convention) then true
      else if invalid_pattern prepared then true
      else existsb (uri_starts_with path) (denied_roots prepared) ||
           existsb (λ m, deny_glob_matches m.1 m.2 (glob_candidate convention path)) (deny_read_matchers prepared)
  end.

(** ** Changes of policies *)
Definition restricted_policy (entries : list (FileSystemSandboxEntry PathUri)) : policy := mkSandboxPolicy Restricted None entries.
Definition read_only_file_system_entries : list (FileSystemSandboxEntry PathUri) := [mkEntry (Special Root) Read None].
Definition read_only_policy : policy := restricted_policy read_only_file_system_entries.

Definition skips_missing_path (entry : FileSystemSandboxEntry PathUri) : bool :=
  match missing_path_behavior entry with Some SkipMissing => true | None => false end.
Definition with_entries (entries : list (FileSystemSandboxEntry PathUri)) (p : policy) : policy :=
  mkSandboxPolicy (sandbox_kind p) (glob_scan_max_depth p) entries.
Definition remove_skip_missing_path_entries (p : policy) : policy :=
  with_entries (List.filter (λ entry, negb (skips_missing_path entry)) (sandbox_entries p)) p.

(** The derived [PartialEq] of entries, with that of [PathUri]. *)
Definition file_system_path_eqb (l r : FileSystemPath PathUri) : bool :=
  match l, r with
  | Path l, Path r => path_uri_eqb l r
  | GlobPattern l, GlobPattern r => str_eqb l r
  | Special l, Special r => bool_decide (l = r)
  | _, _ => false
  end.
Definition entry_eqb (l r : FileSystemSandboxEntry PathUri) : bool :=
  file_system_path_eqb (entry_path l) (entry_path r) && bool_decide (entry_access l = entry_access r) &&
  bool_decide (missing_path_behavior l = missing_path_behavior r).

Definition is_deny_entry (entry : FileSystemSandboxEntry PathUri) : bool := bool_decide (entry_access entry = Deny).
Definition push_missing (entries : list (FileSystemSandboxEntry PathUri)) (deny_entry : FileSystemSandboxEntry PathUri)
    : list (FileSystemSandboxEntry PathUri) :=
  if existsb (λ entry, entry_eqb entry deny_entry) entries then entries else entries ++ [deny_entry].

Definition preserve_deny_read_restrictions_from (p existing : policy) : policy :=
  let p :=
    match sandbox_kind p with
    | Unrestricted => if existsb is_deny_entry (sandbox_entries existing) then restricted_policy [mkEntry (Special Root) Write None] else p
    | _ => p
    end in
  if negb (is_restricted p) then p
  else
    mkSandboxPolicy (sandbox_kind p)
      (match glob_scan_max_depth p with None => glob_scan_max_depth existing | depth => depth end)
      (foldl push_missing (sandbox_entries p) (List.filter is_deny_entry (sandbox_entries existing))).

Definition include_platform_defaults (unix : bool) (p : policy) : bool :=
  negb (has_full_disk_read_access unix p) && is_restricted p &&
  existsb (λ entry, match entry_path entry with Special Minimal => can_read (entry_access entry) | _ => false end) (sandbox_entries p).

Definition has_configured_writable_roots (p : policy) (ctx : FileSystemSandboxPolicyContext) : bool :=
  negb (has_full_disk_write_access_with_context p ctx) &&
  existsb (λ '(path, access), can_write access && can_write_path p path ctx) (resolved_entries ctx p).

(** ** Workspace roots of another executor *)
Definition PROJECT_ROOTS_GLOB_PATTERN_PREFIX : rstring := str "sofia-project-roots://".

Definition resolve_scoped_workspace_path (root : PathUri) (subpath : rstring) : option PathUri :=
  convention ← infer_path_convention root;
  let segments := convention_segments convention subpath in
  let windows := bool_decide (convention = WindowsPaths) in
  if starts_with (str "/") subpath || windows && starts_with (str "\") subpath ||
     existsb (λ segment, str_eqb segment (str ".") || str_eqb segment (str "..")) segments ||
     windows && existsb (λ segment, bool_decide (58%N ∈ segment)) segments
  then None
  else
    path ← uri_join root subpath;
    if uri_starts_with path root then Some path else None.

(** The subpath of an entry for the workspace roots, and whether it is a pattern. *)
Definition project_subpath (path : FileSystemPath PathUri) : option (option rstring * bool) :=
  match path with
  | Special (ProjectRoots subpath) => Some (subpath, false)
  | GlobPattern pattern => rest ← strip_prefix PROJECT_ROOTS_GLOB_PATTERN_PREFIX pattern; Some (Some rest, true)
  | _ => None
  end.
Definition materialize_entry (entry : FileSystemSandboxEntry PathUri) (subpath : option rstring) (is_glob : bool) (root : PathUri)
    : option (FileSystemSandboxEntry PathUri) :=
  let resolved := match subpath with None => Some root | Some subpath => resolve_scoped_workspace_path root subpath end in
  '(path, access) ←
    match resolved with
    | Some path => Some (if is_glob then GlobPattern (inferred_native_path_string path) else Path path, entry_access entry)
    | None => if can_write (entry_access entry) then None else Some (Path root, Deny)
    end;
  Some (mkEntry path access (missing_path_behavior entry)).

(** [materialize_project_roots_with_path_uris] when a root is not a path of this host. *)
Definition materialize_foreign_project_roots (p : policy) (workspace_roots : list PathUri) : policy :=
  with_entries
    (concat (map (λ entry,
       match project_subpath (entry_path entry) with
       | Some (subpath, is_glob) => omap (materialize_entry entry subpath is_glob) workspace_roots
       | None => [entry]
       end) (sandbox_entries p))) p.
End Access.
Arguments FileSystemSandboxPolicyContext : clear implicits.
Arguments PreparedReadDenyMatcher : clear implicits.

(** ** Laws of paths *)
(** The most segments that a path without a parent has. *)
Definition root_depth (convention : PathConvention) : nat := match convention with PosixPaths => 0 | WindowsPaths => 1 end.

Class PathUriLaws (PathUri : Type) `{!PathUriView PathUri} `{!PathUriTree PathUri} := {
  (** The paths that construction gives. *)
  uri_ok : PathUri → Prop;
  (** The last ancestor is a root. *)
  root_of_cwd cwd r :
    uri_ok cwd → is_Some (lexical_depth cwd) → last (uri_ancestors cwd) = Some r →
    uri_ok r ∧ is_Some (lexical_depth r) ∧ infer_path_convention r = infer_path_convention cwd;
  parentless_depth a d convention :
    path_uri_parent a = None → lexical_depth a = Some d → infer_path_convention a = Some convention → d ≤ root_depth convention;
  (** Equal paths have the same depth and contain the same paths. *)
  eqb_same_target a b :
    uri_ok a → uri_ok b → path_uri_eqb a b = true →
    lexical_depth a = lexical_depth b ∧ infer_path_convention a = infer_path_convention b ∧
    ∀ p, uri_ok p → is_Some (lexical_depth p) →
      uri_starts_with p a = uri_starts_with p b ∧ uri_starts_with a p = uri_starts_with b p;
  (** [/tmp] is the POSIX path of one segment with that name. *)
  slash_tmp cwd :
    uri_ok cwd → infer_path_convention cwd = Some PosixPaths → is_Some (lexical_depth cwd) →
    ∃ t, uri_join cwd (str "/tmp") = Some t ∧ infer_path_convention t = Some PosixPaths ∧ lexical_depth t = Some 1 ∧
      ∀ p q, uri_ok p → is_Some (lexical_depth p) → uri_ok q → infer_path_convention q = Some PosixPaths →
        lexical_depth q = Some 1 → path_uri_basename q = Some (str "tmp") → uri_starts_with p q = uri_starts_with p t;
}.

(** ** Collected results *)
Lemma collect_Forall2 {E A B} (f : A → result E B) l bs : collect f l = Ok bs → Forall2 (λ a b, f a = Ok b) l bs.
Proof.
  revert bs. induction l as [|a l IH]; intros bs; cbn; [by intros [= <-]|]. destruct (f a) as [b|] eqn:Ea; [|done]. cbn.
  destruct (collect f l) as [bs'|]; [|done]. cbn. intros [= <-]. constructor; auto.
Qed.
Lemma collect_Err {E A B} (f : A → result E B) l e : collect f l = Err e → ∃ a, a ∈ l ∧ f a = Err e.
Proof.
  induction l as [|a l IH]; cbn; [done|]. destruct (f a) as [b|e'] eqn:Ea; cbn.
  - destruct (collect f l); [done|]. cbn. intros [= <-]. destruct IH as (x & Hx & He); [done|]. exists x. split; [by right|done].
  - intros [= <-]. exists a. split; [by left|done].
Qed.

(** ** The greatest entry *)
Lemma max_by_from {A} (leb : A → A → bool) (l : list A) b :
  (∀ x y, leb x y = true ∨ leb y x = true) → (∀ x y z, leb x y = true → leb y z = true → leb x z = true) →
  ∃ m, foldl (λ best x, match best with None => Some x | Some b => if leb b x then Some x else Some b end) (Some b) l = Some m ∧
       (m = b ∨ m ∈ l) ∧ leb b m = true ∧ (∀ x, x ∈ l → leb x m = true).
Proof.
  intros Htot Htr. revert b. induction l as [|y l IH]; intros b; cbn [foldl].
  { exists b. split; [done|]. split; [by left|]. split; [by destruct (Htot b b)|]. intros x []%not_elem_of_nil. }
  destruct (leb b y) eqn:E.
  - destruct (IH y) as (m & -> & Hin & Hy & Hl). exists m. split; [done|]. split_and!; [right|by eapply Htr|].
    + destruct Hin as [->|]; [by left|by right].
    + intros x [->|Hx]%elem_of_cons; [done|by apply Hl].
  - destruct (IH b) as (m & -> & Hin & Hb & Hl). exists m. split; [done|]. split_and!; [|done|].
    + destruct Hin as [->|]; [by left|right; by right].
    + intros x [->|Hx]%elem_of_cons; [|by apply Hl]. eapply Htr; [|exact Hb]. destruct (Htot b y) as [?|?]; [congruence|done].
Qed.

Lemma max_by_spec {A} (leb : A → A → bool) (l : list A) :
  (∀ x y, leb x y = true ∨ leb y x = true) → (∀ x y z, leb x y = true → leb y z = true → leb x z = true) →
  match max_by leb l with
  | Some m => m ∈ l ∧ ∀ x, x ∈ l → leb x m = true
  | None => l = []
  end.
Proof.
  intros Htot Htr. destruct l as [|b l]; [done|]. unfold max_by. cbn [foldl].
  destruct (max_by_from leb l b Htot Htr) as (m & -> & Hin & Hb & Hl). split.
  - destruct Hin as [->|]; [by left|by right].
  - intros x [->|Hx]%elem_of_cons; [done|by apply Hl].
Qed.

Section AccessSpec.
Context {PathUri : Type} {uri_view : PathUriView PathUri} {uri_tree : PathUriTree PathUri}.
Context {uri_laws : PathUriLaws PathUri}.
#[local] Abbreviation policy := (FileSystemSandboxPolicy PathUri).
#[local] Abbreviation context := (FileSystemSandboxPolicyContext PathUri).

Lemma specific_leb_iff (a b : @rooted_entry PathUri) :
  specific_leb a b = true ↔ a.2 < b.2 ∨ (a.2 = b.2 ∧ access_rank a.1.2 ≤ access_rank b.1.2).
Proof. unfold specific_leb. rewrite orb_true_iff, andb_true_iff, Nat.ltb_lt, Nat.eqb_eq, Nat.leb_le. done. Qed.

Lemma specific_leb_total (a b : @rooted_entry PathUri) : specific_leb a b = true ∨ specific_leb b a = true.
Proof. rewrite !specific_leb_iff. lia. Qed.

Lemma specific_leb_trans (a b c : @rooted_entry PathUri) :
  specific_leb a b = true → specific_leb b c = true → specific_leb a c = true.
Proof. rewrite !specific_leb_iff. lia. Qed.

Lemma with_depths_elem entries l :
  with_depths entries = Some l → ∀ r a d, (r, a, d) ∈ l ↔ (r, a) ∈ entries ∧ lexical_depth r = Some d.
Proof.
  revert l. induction entries as [|[r0 a0] entries IH]; intros l; cbn [with_depths].
  { intros [= <-] r a d. split; [intros []%not_elem_of_nil|intros [[]%not_elem_of_nil _]]. }
  destruct (lexical_depth r0) as [d0|] eqn:E.
  - destruct (with_depths entries) as [l'|]; [|done]. cbn. intros [= <-] r a d. rewrite !elem_of_cons, (IH l' eq_refl).
    split; [intros [[= -> -> ->]|[? ?]]; auto|]. intros [[[= -> ->]|?] ?]; [left; congruence|right; done].
  - destruct (uri_is_opaque r0); [|done]. intros H r a d. rewrite (IH l H), elem_of_cons.
    split; [naive_solver|]. intros [[[= -> ->]|?] ?]; [congruence|done].
Qed.

(** Every root can be compared or is opaque. *)
Definition roots_lexical (ctx : context) (p : policy) : Prop :=
  Forall (λ e, is_Some (lexical_depth e.1) ∨ uri_is_opaque e.1 = true) (resolved_entries ctx p).

Lemma with_depths_Some entries :
  Forall (λ e : PathUri * FileSystemAccessMode, is_Some (lexical_depth e.1) ∨ uri_is_opaque e.1 = true) entries →
  is_Some (with_depths entries).
Proof.
  induction 1 as [|[r a] entries Hr Hs [l IH]]; cbn [with_depths]; [by eexists|]. cbn in Hr. rewrite IH.
  destruct (lexical_depth r) as [d|]; [by eexists|]. destruct Hr as [[? [=]]| ->]. by eexists.
Qed.

Lemma with_depths_lexical entries es :
  with_depths entries = Some es →
  Forall (λ e : PathUri * FileSystemAccessMode, is_Some (lexical_depth e.1) ∨ uri_is_opaque e.1 = true) entries.
Proof.
  revert es. induction entries as [|[r a] entries IH]; intros es; [constructor|]. cbn [with_depths].
  destruct (lexical_depth r) as [d|] eqn:Hd.
  - destruct (with_depths entries) as [l|]; [|done]. intros _. constructor; [cbn; rewrite Hd; left; by eexists|by eapply IH].
  - destruct (uri_is_opaque r) eqn:Ho; [|done]. intros H. constructor; [by right|by eapply IH].
Qed.

(** The access is that of an entry that contains the path, is deepest and, among the
    deepest, has the greatest access; without one it is denied. *)
Lemma resolve_access_max (p : policy) path ctx convention :
  sandbox_kind p = Restricted → infer_path_convention (ctx_cwd ctx) = Some convention →
  paths_comparable ctx path convention = true → roots_lexical ctx p →
  (∃ m a d, resolve_access p path ctx = a ∧ (m, a) ∈ resolved_entries ctx p ∧ lexical_depth m = Some d ∧
     uri_starts_with path m = true ∧
     (∀ m' a' d', (m', a') ∈ resolved_entries ctx p → lexical_depth m' = Some d' → uri_starts_with path m' = true →
        d' < d ∨ (d' = d ∧ access_rank a' ≤ access_rank a))) ∨
  (resolve_access p path ctx = Deny ∧
   ∀ m a d, (m, a) ∈ resolved_entries ctx p → lexical_depth m = Some d → uri_starts_with path m = false).
Proof.
  intros Hk Hc Hp Hr. unfold resolve_access. rewrite Hk, Hc, Hp. cbn [negb].
  destruct (with_depths_Some _ Hr) as [es Hes]. rewrite Hes. pose proof (with_depths_elem _ _ Hes) as Hin.
  assert (∀ m a d, (m, a, d) ∈ List.filter (λ e : rooted_entry, uri_starts_with path e.1.1) es ↔
    (m, a) ∈ resolved_entries ctx p ∧ lexical_depth m = Some d ∧ uri_starts_with path m = true) as Hf.
  { intros m a d. rewrite (list_elem_of_In (List.filter _ es)), List.filter_In, <- list_elem_of_In, Hin. cbn. tauto. }
  pose proof (max_by_spec specific_leb (List.filter (λ e : rooted_entry, uri_starts_with path e.1.1) es)
    specific_leb_total specific_leb_trans) as Hmax.
  destruct (max_by _ _) as [[[m a] d]|].
  - destruct Hmax as [Hm Hle]. left. exists m, a, d. apply Hf in Hm as (? & ? & ?). split_and!; [done..|].
    intros m' a' d' G1 G2 G3. apply (specific_leb_iff (m', a', d') (m, a, d)), Hle, Hf. done.
  - right. split; [done|]. intros m a d H1 H2. destruct (uri_starts_with path m) eqn:E; [|done].
    assert ((m, a, d) ∈ List.filter (λ e : rooted_entry, uri_starts_with path e.1.1) es) as Hx by by apply Hf.
    rewrite Hmax in Hx. by apply not_elem_of_nil in Hx.
Qed.

(** ** Roots *)
Lemma resolved_entries_elem ctx (p : policy) m a :
  (m, a) ∈ resolved_entries ctx p ↔
  ∃ e, e ∈ sandbox_entries p ∧ entry_access e = a ∧ m ∈ entry_roots ctx (entry_path e) ∧
       infer_path_convention m = infer_path_convention (ctx_cwd ctx).
Proof.
  unfold resolved_entries, resolved_entry. rewrite list_elem_of_In, in_concat. setoid_rewrite in_map_iff. split.
  - intros (l & (e & <- & He) & Hm). apply in_map_iff in Hm as (m' & [= -> <-] & Hm).
    apply filter_In in Hm as [Hm Hc]. apply bool_decide_eq_true in Hc. exists e. by rewrite !list_elem_of_In.
  - intros (e & He & <- & Hm & Hc). eexists. split; [exists e; split; [done|by apply list_elem_of_In]|].
    apply in_map_iff. exists m. split; [done|]. apply filter_In. split; [by apply list_elem_of_In|by apply bool_decide_eq_true].
Qed.

(** ** Write access to the whole disk *)
(** A path can be compared with the working directory, and the paths of the policy are
    those of construction. *)
Record access_setting (p : policy) (ctx : context) (path : PathUri) (convention : PathConvention) (r : PathUri) : Prop := {
  set_cwd : uri_ok (ctx_cwd ctx);
  set_path : uri_ok path;
  set_entries : ∀ e q, e ∈ sandbox_entries p → entry_path e = Path q → uri_ok q;
  set_convention : infer_path_convention (ctx_cwd ctx) = Some convention;
  set_comparable : paths_comparable ctx path convention = true;
  set_root : file_system_root ctx = Some r;
  set_below : uri_starts_with path r = true;
  (** The working directory is not a Windows host without a share. *)
  set_depth : ∀ d, lexical_depth r = Some d → root_depth convention ≤ d;
}.

Lemma comparable_depths ctx path convention :
  paths_comparable ctx path convention = true → is_Some (lexical_depth path) ∧ is_Some (lexical_depth (ctx_cwd ctx)).
Proof. unfold paths_comparable. rewrite !andb_true_iff, !bool_decide_eq_true. tauto. Qed.

Lemma root_setting p ctx path c r :
  access_setting p ctx path c r →
  is_Some (lexical_depth r) ∧ infer_path_convention r = Some c ∧ special_roots ctx Root = [r].
Proof.
  intros H. destruct (comparable_depths _ _ _ (set_comparable _ _ _ _ _ H)) as [_ Hd].
  pose proof (set_root _ _ _ _ _ H) as Hr. cbn [special_roots]. rewrite Hr.
  unfold file_system_root in Hr. destruct (lexical_depth (ctx_cwd ctx)) eqn:E; [|done]. cbn in Hr.
  destruct (root_of_cwd (ctx_cwd ctx) r) as (_ & H1 & H2); [by apply H|by rewrite E|done|]. by rewrite H2, (set_convention _ _ _ _ _ H).
Qed.

Lemma special_share_target v w : special_paths_share_target v w = true → v = w.
Proof.
  destruct v, w; cbn; try done.
  - by intros ->%bool_decide_eq_true.
  - intros [H1 H2]%andb_true_iff. apply bool_decide_eq_true in H1, H2. by subst.
Qed.

(** An entry with the same target contains the path as deeply. *)
Lemma shared_target p ctx path c r cand e m d :
  access_setting p ctx path c r → cand ∈ sandbox_entries p → e ∈ sandbox_entries p → entry_path e ≠ Special Root →
  file_system_paths_share_target (entry_path cand) (entry_path e) c = true →
  m ∈ entry_roots ctx (entry_path e) → infer_path_convention m = Some c → lexical_depth m = Some d → uri_starts_with path m = true →
  ∃ m' d', m' ∈ entry_roots ctx (entry_path cand) ∧ infer_path_convention m' = Some c ∧ lexical_depth m' = Some d' ∧ d ≤ d' ∧
    uri_starts_with path m' = true.
Proof.
  intros Hset Hcand He Hnr Hsh Hm Hcm Hdm Hpm. destruct (comparable_depths _ _ _ (set_comparable _ _ _ _ _ Hset)) as [Hdp Hdc].
  pose proof (set_entries _ _ _ _ _ Hset cand) as Hokc. pose proof (set_entries _ _ _ _ _ Hset e) as Hoke.
  pose proof (set_convention _ _ _ _ _ Hset) as Hc.
  destruct (entry_path cand) as [q|g|v] eqn:Ec, (entry_path e) as [q'|g'|w] eqn:Ee; cbn [file_system_paths_share_target] in Hsh; try done.
  - apply list_elem_of_singleton in Hm as ->. destruct (eqb_same_target q q') as (H1 & H2 & H3); [by apply Hokc|by apply Hoke|done|].
    exists q, d. rewrite H1, H2, (proj1 (H3 path (set_path _ _ _ _ _ Hset) Hdp)). split_and!; [by left|done..].
  - apply andb_true_iff in Hsh as [H1 H2]. apply bool_decide_eq_true in H1. destruct w; try done.
    cbn [special_path_matches_path_uri] in H2. apply andb_true_iff in H2 as [H2 H4]. apply andb_true_iff in H2 as [H2 H3].
    apply bool_decide_eq_true in H2, H3, H4. rewrite H2 in H1. injection H1 as <-.
    destruct (slash_tmp (ctx_cwd ctx)) as (t & Ht & Htc & Htd & Hall); [by apply Hset|done..|].
    cbn in Hm. rewrite Hc, bool_decide_eq_true_2, Ht in Hm by done. apply list_elem_of_singleton in Hm as ->.
    exists q, 1. rewrite (Hall path q) by (done || by apply Hset || by apply Hokc). rewrite Htd in Hdm. injection Hdm as <-.
    split_and!; [by left|done..].
  - by apply not_elem_of_nil in Hm.
  - apply list_elem_of_singleton in Hm as ->. apply andb_true_iff in Hsh as [H1 H2]. destruct v; try done.
    + cbn [special_path_matches_path_uri] in H2. apply andb_true_iff in H2 as [_ H2]. apply bool_decide_eq_true in H2.
      destruct (root_setting _ _ _ _ _ Hset) as ([dr Hdr] & Hcr & Hroots). exists r, dr. split_and!; [|done|done| |by apply Hset].
      * cbn [entry_roots]. rewrite Hroots. by left.
      * etransitivity; [by eapply parentless_depth|by eapply set_depth].
    + cbn [special_path_matches_path_uri] in H2. apply andb_true_iff in H2 as [H2 H4]. apply andb_true_iff in H2 as [H2 H3].
      apply bool_decide_eq_true in H2, H3, H4. rewrite Hcm in H2. injection H2 as ->.
      destruct (slash_tmp (ctx_cwd ctx)) as (t & Ht & Htc & Htd & Hall); [by apply Hset|done..|].
      exists t, 1. rewrite <- (Hall path q') by (done || by apply Hset || by apply Hoke). rewrite H3 in Hdm. injection Hdm as <-.
      split_and!; [|done..]. cbn. rewrite Hc, bool_decide_eq_true_2, Ht by done. by left.
  - apply special_share_target in Hsh as ->. exists m, d. by split_and!.
Qed.

(** An entry that does not narrow and contains the path is of write access, or another of
    write access contains it as deeply. *)
Lemma not_narrowing p ctx path c r e m d :
  access_setting p ctx path c r → has_root_access p can_write = true → e ∈ sandbox_entries p → narrows_write p c e = false →
  m ∈ entry_roots ctx (entry_path e) → infer_path_convention m = Some c → lexical_depth m = Some d → uri_starts_with path m = true →
  entry_access e = Write ∨
  entry_access e = Read ∧ ∃ m' d', (m', Write) ∈ resolved_entries ctx p ∧ lexical_depth m' = Some d' ∧ d ≤ d' ∧ uri_starts_with path m' = true.
Proof.
  intros Hset Hroot He Hn Hm Hcm Hdm Hpm. destruct (decide (entry_access e = Write)) as [|Hw]; [by left|right].
  pose proof (set_convention _ _ _ _ _ Hset) as Hc. unfold narrows_write in Hn.
  assert (can_write (entry_access e) = false) as Hcw by by destruct (entry_access e). rewrite Hcw in Hn.
  assert (entry_path e = Special Root ∨ entry_path e ≠ Special Root ∧ has_same_target_write_override p e c = true) as Hcase.
  { destruct (entry_path e) as [q|g|[]] eqn:Ee; cbn in Hm; try (by apply not_elem_of_nil in Hm); try (by left);
      try (right; split; [done|]; by apply negb_false_iff).
    right. split; [done|]. rewrite Hc in Hm. destruct c; [by apply negb_false_iff|]. rewrite bool_decide_eq_false_2 in Hm by done.
    by apply not_elem_of_nil in Hm. }
  destruct Hcase as [Ee|[Ee Ho]].
  - rewrite Ee in Hn, Hm. apply bool_decide_eq_false in Hn. split; [by destruct (entry_access e)|].
    destruct (root_setting _ _ _ _ _ Hset) as ([dr Hdr] & Hcr & Hroots). cbn [entry_roots] in Hm. rewrite Hroots in Hm.
    apply list_elem_of_singleton in Hm as ->. exists r, d. split_and!; [|done..].
    unfold has_root_access in Hroot. apply andb_true_iff in Hroot as [_ Hroot]. apply existsb_exists in Hroot as (w & Hin & Hwr).
    apply resolved_entries_elem. exists w. destruct (entry_path w) as [| |[]] eqn:Ew; try done.
    split_and!; [by apply list_elem_of_In|by destruct (entry_access w)| |by rewrite Hcr, Hc]. cbn [entry_roots]. rewrite Hroots. by left.
  - split; [destruct (entry_access e) eqn:Ea; [done..|]; by rewrite (deny_not_overridden p e c Ea) in Ho|].
    apply existsb_exists in Ho as (cand & Hin & Hx). apply list_elem_of_In in Hin. apply andb_true_iff in Hx as [Hx Hsh].
    apply andb_true_iff in Hx as [Hcan _].
    destruct (shared_target p ctx path c r cand e m d) as (m' & d' & H1 & H2 & H3 & H4 & H5); [done..|].
    exists m', d'. split_and!; [|done..]. apply resolved_entries_elem. exists cand. split_and!; [done| |done|by rewrite H2, Hc].
    by destruct (entry_access cand).
Qed.

(** C16: A restricted policy that counts as giving write access to the whole disk.  When
    every root of its entries can be compared or is opaque ([roots_lexical]), a path that is
    below the root and can be compared with the working directory resolves to write access,
    whatever other entries the policy has; the working directory is not a Windows host
    without a share ([access_setting]).  When some root cannot be compared, such as one with
    an encoded separator, every such path is denied. *)
Theorem full_disk_write_sound (p : policy) (ctx : context) (path : PathUri) (convention : PathConvention) (r : PathUri) :
  sandbox_kind p = Restricted → access_setting p ctx path convention r →
  has_full_disk_write_access_with_context p ctx = true →
  (roots_lexical ctx p → resolve_access p path ctx = Write) ∧
  (¬ roots_lexical ctx p → resolve_access p path ctx = Deny).
Proof.
  intros Hk Hset Hfull. pose proof (set_convention _ _ _ _ _ Hset) as Hc. split.
  2:{ intros Hn. unfold resolve_access. rewrite Hk, Hc, (set_comparable _ _ _ _ _ Hset). cbn [negb].
      destruct (with_depths _) as [es|] eqn:E; [|done]. destruct Hn. by eapply with_depths_lexical. }
  intros Hlex. unfold has_full_disk_write_access_with_context, has_full_disk_write_access_for_convention in Hfull. rewrite Hk, Hc in Hfull. cbn in Hfull.
  apply andb_true_iff in Hfull as [Hroot Hn]. apply negb_true_iff in Hn. unfold has_write_narrowing_entries, is_restricted in Hn. rewrite Hk in Hn.
  assert (∀ e, e ∈ sandbox_entries p → narrows_write p convention e = false) as Hnarrow.
  { intros e He. apply not_true_iff_false. intros Hx. apply not_true_iff_false in Hn. apply Hn, existsb_exists. exists e.
    split; [by apply list_elem_of_In|done]. }
  destruct (root_setting _ _ _ _ _ Hset) as ([dr Hdr] & Hcr & Hroots).
  destruct (resolve_access_max p path ctx convention Hk Hc (set_comparable _ _ _ _ _ Hset) Hlex)
    as [(m & a & d & -> & Hin & Hd & Hm & Hmax)|[_ Hnone]].
  - apply resolved_entries_elem in Hin as (e & He & <- & Hme & Hcm). rewrite Hc in Hcm.
    destruct (not_narrowing p ctx path convention r e m d) as [->|[Hr (m' & d' & H1 & H2 & H3 & H4)]]; [auto..|done|].
    exfalso. destruct (Hmax m' Write d' H1 H2 H4) as [?|[_ Hle]]; [lia|]. rewrite Hr in Hle. cbn in Hle. lia.
  - exfalso. apply andb_true_iff in Hroot as [_ Hroot]. apply existsb_exists in Hroot as (w & Hw & Hwr).
    destruct (entry_path w) as [| |[]] eqn:Ew; try done.
    assert ((r, entry_access w) ∈ resolved_entries ctx p) as Hin.
    { apply resolved_entries_elem. exists w. split_and!; [by apply list_elem_of_In|done| |by rewrite Hcr, Hc]. rewrite Ew. cbn [entry_roots].
      rewrite Hroots. by left. }
    pose proof (set_below _ _ _ _ _ Hset) as Hb. by rewrite (Hnone r _ dr Hin Hdr) in Hb.
Qed.

(** ** Denied reads are preserved *)
Context {globs : DenyGlobs}.

Lemma build_matchers_closed c patterns ms inv :
  build_matchers FailClosed c patterns ms inv =
  Ok (ms ++ omap (λ g, build_glob_matcher g c) patterns, inv || existsb (λ g, bool_decide (build_glob_matcher g c = None)) patterns).
Proof.
  revert ms inv. induction patterns as [|g patterns IH]; intros ms inv; cbn [build_matchers omap list_omap existsb].
  { by rewrite app_nil_r, orb_false_r. }
  destruct (build_glob_matcher g c) as [m|] eqn:E; rewrite IH.
  - rewrite bool_decide_eq_false_2 by done. by rewrite <- app_assoc.
  - rewrite bool_decide_eq_true_2 by done. by rewrite orb_true_r.
Qed.

(** A pattern denies a path that it matches, and every path when it cannot be used. *)
Definition pattern_denies (ctx : context) (c : PathConvention) (path : PathUri) (g : rstring) : bool :=
  match resolve_deny_glob ctx g with
  | Err _ => true
  | Ok g' => match build_glob_matcher g' c with None => true | Some m => deny_glob_matches m.1 m.2 (glob_candidate c path) end
  end.

(** What a matcher that fails closed denies, for a path that can be compared. *)
Lemma denied_iff (p : policy) path ctx c prepared :
  infer_path_convention (ctx_cwd ctx) = Some c → paths_comparable ctx path c = true →
  prepare_deny_read_matcher FailClosed ctx p = Ok prepared →
  is_read_denied_uri prepared path ctx = true ↔
  (∃ root, root ∈ matcher_roots ctx p ∧ uri_starts_with path root = true) ∨
  (∃ g, g ∈ omap deny_pattern (sandbox_entries p) ∧ pattern_denies ctx c path g = true).
Proof.
  intros Hc Hcmp. unfold prepare_deny_read_matcher, is_read_denied_uri, deny_read_globs. rewrite Hc, Hcmp. cbn [negb].
  set (gs := omap deny_pattern (sandbox_entries p)). destruct (collect (resolve_deny_glob ctx) gs) as [patterns|e] eqn:Ec.
  - rewrite build_matchers_closed. cbn. intros [= <-]. cbn. apply collect_Forall2 in Ec.
    assert ((∃ g, g ∈ gs ∧ pattern_denies ctx c path g = true) ↔
      existsb (λ g, bool_decide (build_glob_matcher g c = None)) patterns = true ∨
      existsb (λ m, deny_glob_matches m.1 m.2 (glob_candidate c path)) (omap (λ g, build_glob_matcher g c) patterns) = true) as ->.
    { clear -Ec. induction Ec as [|g g' gs patterns Hg Hgs IH].
      { split; [intros (? & []%not_elem_of_nil & _)|by intros [?|?]]. }
      setoid_rewrite elem_of_cons. unfold pattern_denies in *. cbn [existsb omap list_omap].
      destruct (build_glob_matcher g' c) as [m|] eqn:Em.
      - rewrite bool_decide_eq_false_2 by done. cbn [orb existsb]. rewrite orb_true_iff. split.
        + intros (x & [->|Hx] & Hd); [rewrite Hg, Em in Hd; by right; left|]. destruct (proj1 IH) as [?|?]; [by exists x|by left|by right; right].
        + intros [H|[H|H]]; [| |]; [destruct (proj2 IH) as (x & Hx & Hd); [by left|exists x; auto]|exists g; rewrite Hg, Em; auto|
            destruct (proj2 IH) as (x & Hx & Hd); [by right|exists x; auto]].
      - rewrite bool_decide_eq_true_2 by done. cbn. split; [by left|]. intros _. exists g. rewrite Hg, Em. auto. }
    destruct (existsb (λ g, bool_decide _) patterns); cbn; [split; [intros _; right; by left|done]|].
    rewrite orb_true_iff, existsb_exists. setoid_rewrite list_elem_of_In. naive_solver.
  - intros [= <-]. cbn. split; [intros _; right|done]. apply collect_Err in Ec as (g & Hg & He). exists g. split; [done|].
    unfold pattern_denies. by rewrite He.
Qed.

Lemma push_missing_all ds es :
  (∀ e, e ∈ es → e ∈ foldl push_missing es ds) ∧
  (∀ d, d ∈ ds → ∃ e, e ∈ foldl push_missing es ds ∧ (e = d ∨ entry_eqb e d = true)).
Proof.
  revert es. induction ds as [|d ds IH]; intros es; cbn [foldl]; [split; [done|by intros d []%not_elem_of_nil]|].
  destruct (IH (push_missing es d)) as [IH1 IH2]. unfold push_missing in IH1 at 1. split.
  - intros e He. apply IH1. destruct (existsb _ es); [done|]. apply elem_of_app. by left.
  - intros x [->|Hx]%elem_of_cons; [|by apply IH2]. destruct (existsb (λ entry, entry_eqb entry d) es) eqn:E.
    + apply existsb_exists in E as (e & He & Heq). exists e. split; [apply IH1; by apply list_elem_of_In|by right].
    + exists d. split; [|by left]. apply IH1, elem_of_app. right. by left.
Qed.

Lemma preserved_entry (p existing : policy) e :
  sandbox_kind p ≠ ExternalSandbox → e ∈ sandbox_entries existing → entry_access e = Deny →
  ∃ e', e' ∈ sandbox_entries (preserve_deny_read_restrictions_from p existing) ∧ (e' = e ∨ entry_eqb e' e = true).
Proof.
  intros Hk He Hd.
  assert (e ∈ List.filter is_deny_entry (sandbox_entries existing)) as Hin.
  { apply list_elem_of_In, List.filter_In. split; [by apply list_elem_of_In|]. by apply bool_decide_eq_true. }
  assert (existsb is_deny_entry (sandbox_entries existing) = true) as Hex.
  { apply existsb_exists. exists e. apply list_elem_of_In, List.filter_In in Hin. done. }
  unfold preserve_deny_read_restrictions_from. rewrite Hex. destruct (sandbox_kind p) eqn:Ek; [| |done].
  - unfold is_restricted. rewrite Ek. cbn. by apply push_missing_all.
  - cbn. by apply push_missing_all.
Qed.

Lemma matcher_roots_elem ctx (p : policy) root :
  root ∈ matcher_roots ctx p ↔
  (root, Deny) ∈ resolved_entries ctx p ∧ is_some_and (file_system_root ctx) (same_as_root root) = false.
Proof.
  unfold matcher_roots. rewrite list_elem_of_fmap. setoid_rewrite list_elem_of_In. setoid_rewrite List.filter_In. split.
  - intros ([r a] & -> & Hin & H). cbn in *. apply andb_true_iff in H as [H1 H2]. apply bool_decide_eq_true in H1 as ->.
    by apply negb_true_iff in H2.
  - intros [Hin H]. exists (root, Deny). split_and!; [done..|]. cbn. by rewrite H.
Qed.

(** An equal entry has roots that contain the same paths. *)
Lemma equal_entry_root ctx path e e' root :
  uri_ok (ctx_cwd ctx) → is_Some (lexical_depth (ctx_cwd ctx)) → uri_ok path → is_Some (lexical_depth path) →
  (∀ q, entry_path e = Path q → uri_ok q) → (∀ q, entry_path e' = Path q → uri_ok q) →
  e' = e ∨ entry_eqb e' e = true → root ∈ entry_roots ctx (entry_path e) →
  ∃ root', root' ∈ entry_roots ctx (entry_path e') ∧ infer_path_convention root' = infer_path_convention root ∧
    is_some_and (file_system_root ctx) (same_as_root root') = is_some_and (file_system_root ctx) (same_as_root root) ∧
    uri_starts_with path root' = uri_starts_with path root.
Proof.
  intros Hcwd Hdc Hp Hdp Hok Hok' [->|Heq] Hroot; [by exists root|]. unfold entry_eqb in Heq.
  apply andb_true_iff in Heq as [Heq _]. apply andb_true_iff in Heq as [Heq _].
  destruct (entry_path e) as [q|g|v], (entry_path e') as [q'|g'|v']; cbn [file_system_path_eqb] in Heq; try done.
  - apply list_elem_of_singleton in Hroot as ->. destruct (eqb_same_target q' q) as (_ & Hc & Hs); [auto..|]. exists q'.
    split_and!; [by left|done| |by apply Hs]. unfold file_system_root. destruct Hdc as [d Hd]. rewrite Hd. cbn.
    destruct (last (uri_ancestors (ctx_cwd ctx))) as [r|] eqn:Er; [|done]. cbn. unfold same_as_root.
    destruct (root_of_cwd (ctx_cwd ctx) r) as (Hr & Hdr & _); [done|by rewrite Hd|done|]. by destruct (Hs r Hr Hdr) as [-> ->].
  - by apply not_elem_of_nil in Hroot.
  - apply bool_decide_eq_true in Heq as ->. by exists root.
Qed.

Lemma equal_entry e e' : e' = e ∨ entry_eqb e' e = true → entry_access e' = entry_access e ∧ deny_pattern e' = deny_pattern e.
Proof.
  intros [->|H]; [done|]. unfold entry_eqb in H. apply andb_true_iff in H as [H _]. apply andb_true_iff in H as [Hp Ha].
  apply bool_decide_eq_true in Ha. split; [done|]. unfold deny_pattern. rewrite Ha.
  destruct (entry_path e), (entry_path e'); cbn in Hp; try done. by apply bool_decide_eq_true in Hp as ->.
Qed.

Lemma prepare_closed (p : policy) ctx : ∃ prepared, prepare_deny_read_matcher FailClosed ctx p = Ok prepared.
Proof.
  unfold prepare_deny_read_matcher. destruct (infer_path_convention (ctx_cwd ctx)); [|by eexists].
  destruct (deny_read_globs ctx p); [|by eexists]. rewrite build_matchers_closed. by eexists.
Qed.

Definition entries_ok (p : policy) : Prop := ∀ e q, e ∈ sandbox_entries p → entry_path e = Path q → uri_ok q.

Lemma push_missing_elem ds es e : e ∈ foldl push_missing es ds → e ∈ es ∨ e ∈ ds.
Proof.
  revert es. induction ds as [|d ds IH]; intros es; cbn [foldl]; [by left|]. intros [H|H]%IH; [|right; by right].
  unfold push_missing in H. destruct (existsb _ es); [by left|]. apply elem_of_app in H as [H| ->%list_elem_of_singleton]; [by left|right; by left].
Qed.
Lemma preserved_ok (p existing : policy) :
  entries_ok p → entries_ok existing → entries_ok (preserve_deny_read_restrictions_from p existing).
Proof.
  intros Hp He e q Hin Hq. unfold preserve_deny_read_restrictions_from in Hin.
  set (p' := match sandbox_kind p with Unrestricted => _ | _ => p end) in *.
  assert (entries_ok p') as Hp'.
  { subst p'. destruct (sandbox_kind p); [done| |done]. destruct (existsb _ _); [|done]. intros x y [->|[]%not_elem_of_nil]%elem_of_cons. done. }
  destruct (negb (is_restricted p')); [by apply (Hp' e)|]. cbn in Hin. apply push_missing_elem in Hin as [Hin|Hin]; [by apply (Hp' e)|].
  apply list_elem_of_In, List.filter_In in Hin as [Hin _]. apply (He e); [by apply list_elem_of_In|done].
Qed.

(** C17: When the allowed side of a policy is replaced by a restricted or unrestricted one,
    every path whose reading the old policy denies stays denied, with malformed patterns
    denying everything; the path, the working directory and the paths of the entries are
    valid and decode to text ([uri_ok]).  A replacement that leaves the sandbox to others is
    not changed, and the denials are lost with it. *)
Theorem deny_reads_preserved (p existing : policy) (ctx : context) (path : PathUri) (prepared : PreparedReadDenyMatcher PathUri) :
  uri_ok (ctx_cwd ctx) → uri_ok path → entries_ok p → entries_ok existing →
  matcher_from_context existing ctx = Some prepared → is_read_denied_uri prepared path ctx = true →
  match sandbox_kind p with
  | ExternalSandbox => preserve_deny_read_restrictions_from p existing = p
  | _ => ∃ prepared', matcher_from_context (preserve_deny_read_restrictions_from p existing) ctx = Some prepared' ∧
                      is_read_denied_uri prepared' path ctx = true
  end.
Proof.
  intros Hcwd Hpath Hokp Hoke Hm Hden. assert (sandbox_kind p = ExternalSandbox ∨ sandbox_kind p ≠ ExternalSandbox) as [Hx|Hk]
    by (destruct (sandbox_kind p); naive_solver).
  { rewrite Hx. unfold preserve_deny_read_restrictions_from, is_restricted. rewrite Hx. cbn. by rewrite ?Hx. }
  set (p' := preserve_deny_read_restrictions_from p existing).
  enough (∃ prepared', matcher_from_context p' ctx = Some prepared' ∧ is_read_denied_uri prepared' path ctx = true)
    by (by destruct (sandbox_kind p)).
  pose proof (preserved_ok p existing Hokp Hoke) as Hok'. fold p' in Hok'. unfold matcher_from_context in *.
  destruct (existsb _ (sandbox_entries existing)) eqn:Ex; [|done].
  assert (existsb (λ entry, bool_decide (entry_access entry = Deny)) (sandbox_entries p') = true) as ->.
  { apply existsb_exists in Ex as (e & He & Hd). apply list_elem_of_In in He. apply bool_decide_eq_true in Hd.
    destruct (preserved_entry p existing e Hk He Hd) as (e' & He' & Heq). apply existsb_exists. exists e'.
    split; [by apply list_elem_of_In|]. apply bool_decide_eq_true. by rewrite (proj1 (equal_entry _ _ Heq)). }
  destruct (prepare_closed p' ctx) as [prepared' Hprep'].
  destruct (prepare_deny_read_matcher FailClosed ctx existing) as [pr|] eqn:Hprep; [|done]. injection Hm as ->.
  exists prepared'. rewrite Hprep'. split; [done|].
  destruct (infer_path_convention (ctx_cwd ctx)) as [c|] eqn:Hc; [|unfold is_read_denied_uri; by rewrite Hc].
  destruct (paths_comparable ctx path c) eqn:Hcmp; [|unfold is_read_denied_uri; by rewrite Hc, Hcmp].
  destruct (comparable_depths _ _ _ Hcmp) as [Hdp Hdc].
  apply (denied_iff p' path ctx c prepared' Hc Hcmp Hprep'). apply (denied_iff existing path ctx c prepared Hc Hcmp Hprep) in Hden as [(root & Hroot & Hs)|(g & Hg & Hs)].
  - left. apply matcher_roots_elem in Hroot as [Hin Hnr]. apply resolved_entries_elem in Hin as (e & He & Hd & Hre & Hcr).
    destruct (preserved_entry p existing e Hk He Hd) as (e' & He' & Heq).
    destruct (equal_entry_root ctx path e e' root) as (root' & Hr' & Hc' & Hn' & Hs'); [done..|by intros q; apply Hoke|by intros q; apply Hok'|done|done|].
    exists root'. split; [|by rewrite Hs']. apply matcher_roots_elem. rewrite Hn'. split; [|done]. apply resolved_entries_elem. exists e'.
    split_and!; [done|by rewrite (proj1 (equal_entry _ _ Heq))|done|by rewrite Hc'].
  - right. exists g. split; [|done]. apply list_elem_of_omap in Hg as (e & He & Hg). pose proof Hg as Hd. unfold deny_pattern in Hd.
    destruct (entry_path e); [done| |done]. destruct (bool_decide (entry_access e = Deny)) eqn:Ed; [|done]. apply bool_decide_eq_true in Ed.
    destruct (preserved_entry p existing e Hk He Ed) as (e' & He' & Heq). apply list_elem_of_omap. exists e'. split; [done|].
    by rewrite (proj2 (equal_entry _ _ Heq)).
Qed.
End AccessSpec.
