(* ===== verification/PolicyTransforms.v ===== *)
(** * Additional permissions

    [sofia-rs/sandboxing/src/policy_transforms.rs], with the profiles of
    [sofia-rs/protocol/src/models.rs]: permissions that are requested for a command are
    normalized, intersected with what was granted, merged, and applied to the policy of
    the file system and of the network.  The theorems say what the intersection and the
    application give access to, over [resolve_access] of [Access.v]. *)

From stdpp Require Import base list numbers strings.
From S2P Require Import Prelude StreamUtf8 Permissions PathUri Access.

#[local] Set Default Proof Using "Type*".
#[local] Arguments str : simpl never.

(** [Display] of a [PathUri], in messages. *)
Class PathUriDisplay (PathUri : Type) := uri_display : PathUri → rstring.

Record NetworkPermissions := mkNetworkPermissions { network_enabled : option bool }.
Definition NetworkPermissions_is_empty (n : NetworkPermissions) : bool :=
  match network_enabled n with None => true | Some _ => false end.

Inductive SandboxEnforcement := EnforceManaged | EnforceDisabled | EnforceExternal.
Inductive GlobScanDepth := Bounded (depth : nat) | Unbounded.

(** [Option::filter]. *)
Definition option_filter {A} (P : A → bool) (o : option A) : option A :=
  a ← o; if P a then Some a else None.

(** [NonZeroUsize::new]. *)
Definition non_zero (n : nat) : option nat := match n with O => None | S _ => Some n end.

Section Transforms.
Context {PathUri : Type} `{!PathUriView PathUri} `{!PathUriTree PathUri} `{!DenyGlobs} `{!PathUriDisplay PathUri}.
#[local] Abbreviation policy := (FileSystemSandboxPolicy PathUri).
#[local] Abbreviation context := (FileSystemSandboxPolicyContext PathUri).
#[local] Abbreviation entry := (FileSystemSandboxEntry PathUri).

Record FileSystemPermissions := mkFileSystemPermissions {
  permission_entries : list entry;
  permission_glob_depth : option nat;
}.
Definition FileSystemPermissions_is_empty (f : FileSystemPermissions) : bool := is_empty (permission_entries f).

Record AdditionalPermissionProfile := mkAdditional {
  additional_network : option NetworkPermissions;
  additional_file_system : option FileSystemPermissions;
}.
Definition AdditionalPermissionProfile_is_empty (p : AdditionalPermissionProfile) : bool :=
  match additional_network p, additional_file_system p with None, None => true | _, _ => false end.

Definition is_glob (path : FileSystemPath PathUri) : bool :=
  match path with GlobPattern _ => true | _ => false end.

(** ** Normalization *)
Fixpoint normalize_entries (entries out : list entry) : result rstring (list entry) :=
  match entries with
  | [] => Ok out
  | e :: rest =>
      if is_glob (entry_path e) && negb (is_deny_entry e)
      then Err (str "glob file system permissions only support deny-read entries")
      else normalize_entries rest (push_missing out e)
  end.

Definition normalize_additional_permissions (p : AdditionalPermissionProfile)
    : result rstring AdditionalPermissionProfile :=
  let network := option_filter (λ n, negb (NetworkPermissions_is_empty n)) (additional_network p) in
  match additional_file_system p with
  | Some fs =>
      entries ← normalize_entries (permission_entries fs) [];
      let fs := mkFileSystemPermissions entries (permission_glob_depth fs) in
      Ok (mkAdditional network (if FileSystemPermissions_is_empty fs then None else Some fs))
  | None => Ok (mkAdditional network None)
  end.

(** A path that is not of the executor. *)
Definition foreign_path (ctx : context) (e : entry) : option PathUri :=
  match entry_path e with
  | Path path =>
      if bool_decide (infer_path_convention path = None) ||
         negb (bool_decide (infer_path_convention path = infer_path_convention (ctx_cwd ctx))) ||
         bool_decide (uri_join path (str ".") = None)
      then Some path else None
  | _ => None
  end.

Definition normalize_additional_permissions_with_context (p : AdditionalPermissionProfile) (ctx : context)
    : result rstring AdditionalPermissionProfile :=
  normalized ← normalize_additional_permissions p;
  match additional_file_system normalized with
  | Some fs =>
      match head (omap (foreign_path ctx) (permission_entries fs)) with
      | Some path =>
          Err (str "permission path `" ++ uri_display path ++ str "` does not match executor cwd `" ++
               uri_display (ctx_cwd ctx) ++ str "`")
      | None => Ok normalized
      end
  | None => Ok normalized
  end.

(** ** Paths of entries *)
Definition resolve_permission_path (path : FileSystemPath PathUri) (ctx : context) : option PathUri :=
  match path with
  | Path path => Some path
  | GlobPattern _ => None
  | Special Root => file_system_root ctx
  | Special (ProjectRoots subpath) =>
      root ← head (ctx_workspace_roots ctx);
      match subpath with Some subpath => uri_join root subpath | None => Some root end
  | Special Tmpdir => directories ← ctx_temporary_directories ctx; head directories
  | Special SlashTmp =>
      if bool_decide (infer_path_convention (ctx_cwd ctx) = Some PosixPaths)
      then uri_join (ctx_cwd ctx) (str "/tmp") else None
  | Special (Minimal | UnknownSpecial _ _) => None
  end.

Definition materialized_path_entry (e : entry) (path : PathUri) : entry :=
  mkEntry (Path path) (entry_access e) (missing_path_behavior e).

(** The rest of a pattern below the home directory. *)
Definition home_relative (windows : bool) (pattern : rstring) : option rstring :=
  match strip_prefix (str "~/") pattern with
  | Some s => Some s
  | None =>
      if str_eqb pattern (str "~") then Some []
      else if windows then strip_prefix (str "~\") pattern else None
  end.

Definition materialize_cwd_dependent_entry (e : entry) (ctx : context) : option entry :=
  match entry_path e with
  | GlobPattern pattern =>
      let windows := is_windows ctx in
      '(root, pattern) ←
        match home_relative windows pattern with
        | Some suffix =>
            home ← ctx_user_home_dir ctx;
            Some (home, drop_while (λ c, (c =? 47)%N || (windows && (c =? 92)%N)) suffix)
        | None => Some (ctx_cwd ctx, pattern)
        end;
      path ← uri_join root pattern;
      Some (mkEntry (GlobPattern (inferred_native_path_string path)) (entry_access e) (missing_path_behavior e))
  | Path _ | Special _ => Some e
  end.

Definition with_workspace_root (ctx : context) (root : PathUri) : context :=
  mkContext (ctx_cwd ctx) [root] (ctx_user_home_dir ctx) (ctx_temporary_directories ctx).

(** The paths of an entry for the workspace roots: a path that cannot be resolved is left
    out, and is an error for a denial. *)
Fixpoint resolve_for_roots (e : entry) (ctx : context) (roots : list PathUri) : option (list entry) :=
  match roots with
  | [] => Some []
  | root :: rest =>
      match resolve_permission_path (entry_path e) (with_workspace_root ctx root) with
      | None => if is_deny_entry e then None else resolve_for_roots e ctx rest
      | Some path => l ← resolve_for_roots e ctx rest; Some (materialized_path_entry e path :: l)
      end
  end.

Definition materialize_context_entry (e : entry) (ctx : context) : option (list entry) :=
  match entry_path e with
  | Special (ProjectRoots _) =>
      resolved ← resolve_for_roots e ctx (ctx_workspace_roots ctx);
      if is_deny_entry e && is_empty resolved then None else Some resolved
  | Special Tmpdir =>
      match ctx_temporary_directories ctx with
      | None => if is_deny_entry e then None else Some [e]
      | Some directories => Some (map (materialized_path_entry e) directories)
      end
  | Special Root => _ ← resolve_permission_path (entry_path e) ctx; Some [e]
  | _ =>
      match materialize_cwd_dependent_entry e ctx with
      | None => if is_deny_entry e then None else Some []
      | Some e => Some [e]
      end
  end.

Fixpoint materialize_context_dependent_entries (entries : list entry) (ctx : context) : option (list entry) :=
  match entries with
  | [] => Some []
  | e :: rest =>
      es ← materialize_context_entry e ctx;
      rest ← materialize_context_dependent_entries rest ctx;
      Some (es ++ rest)
  end.

Definition materialize_additional_permissions_with_context (p : AdditionalPermissionProfile) (ctx : context)
    : result rstring AdditionalPermissionProfile :=
  p ← match additional_file_system p with
      | Some fs =>
          entries ← ok_or (materialize_context_dependent_entries (permission_entries fs) ctx)
                      (str "unable to resolve permission path in `" ++ uri_display (ctx_cwd ctx) ++ str "`");
          Ok (mkAdditional (additional_network p)
                (Some (mkFileSystemPermissions entries (permission_glob_depth fs))))
      | None => Ok p
      end;
  normalize_additional_permissions_with_context p ctx.

(** ** The depth of scans for patterns *)
Definition effective_glob_scan_depth (entries : list entry) (depth : option nat) : option GlobScanDepth :=
  if existsb (λ e, is_deny_entry e && is_glob (entry_path e)) entries
  then Some (match depth with Some depth => Bounded depth | None => Unbounded end) else None.

Definition merge_glob_scan_max_depth (left_entries : list entry) (left_depth : option nat)
    (right_entries : list entry) (right_depth : option nat) : option nat :=
  match effective_glob_scan_depth left_entries left_depth, effective_glob_scan_depth right_entries right_depth with
  | Some Unbounded, _ | _, Some Unbounded => None
  | Some (Bounded l), Some (Bounded r) => Some (l `max` r)
  | Some (Bounded depth), None | None, Some (Bounded depth) => Some depth
  | None, None => None
  end.

(** ** Merging *)
Definition merge_permission_entries (base permissions : list entry) : list entry :=
  foldl push_missing [] (base ++ permissions).

Definition merge_network (base permissions : option NetworkPermissions) : option NetworkPermissions :=
  match base, permissions with
  | Some (mkNetworkPermissions (Some true)), _ | _, Some (mkNetworkPermissions (Some true)) =>
      Some (mkNetworkPermissions (Some true))
  | _, _ => None
  end.

Definition merge_permission_profiles (base permissions : option AdditionalPermissionProfile)
    : option AdditionalPermissionProfile :=
  match permissions, base with
  | None, _ => base
  | Some permissions, Some base =>
      let file_system :=
        match additional_file_system base, additional_file_system permissions with
        | Some base, Some permissions =>
            option_filter (λ fs, negb (FileSystemPermissions_is_empty fs))
              (Some (mkFileSystemPermissions
                 (merge_permission_entries (permission_entries base) (permission_entries permissions))
                 (merge_glob_scan_max_depth (permission_entries base) (permission_glob_depth base)
                    (permission_entries permissions) (permission_glob_depth permissions) ≫= non_zero)))
        | Some base, None => Some base
        | None, Some permissions => Some permissions
        | None, None => None
        end in
      option_filter (λ p, negb (AdditionalPermissionProfile_is_empty p))
        (Some (mkAdditional (merge_network (additional_network base) (additional_network permissions)) file_system))
  | Some permissions, None =>
      option_filter (λ p, negb (AdditionalPermissionProfile_is_empty p)) (Some permissions)
  end.

(** ** Intersection *)
Definition access_covers (requested granted : FileSystemAccessMode) : bool :=
  match granted with
  | Read => can_read requested
  | Write => can_write requested
  | Deny => false
  end.

Definition is_root_entry (e : entry) : bool :=
  match entry_path e with Special Root => true | _ => false end.

Definition uri_overlaps (l r : PathUri) : option bool :=
  if path_uri_eqb l r then Some true
  else
    _ ← lexical_depth l; _ ← lexical_depth r;
    Some (uri_starts_with l r || uri_starts_with r l).
Definition paths_overlap (l r : PathUri) : bool := default true (uri_overlaps l r).

(** [str::find] of a wildcard. *)
Definition is_wildcard (c : N) : bool := ((c =? 42) || (c =? 63) || (c =? 91) || (c =? 93))%N.
Fixpoint find_wildcard (s : rstring) : option nat :=
  match s with
  | [] => None
  | c :: s' => if is_wildcard c then Some 0 else S <$> find_wildcard s'
  end.

Definition glob_static_prefix_path (pattern : rstring) (ctx : context) : option PathUri :=
  match find_wildcard pattern with
  | Some 0 => None
  | Some index =>
      let prefix := take index pattern in
      path ← uri_join (ctx_cwd ctx) prefix;
      if ends_with (str "/") prefix || is_windows ctx && ends_with (str "\") prefix
      then Some path else path_uri_parent path
  | None => uri_join (ctx_cwd ctx) pattern
  end.

(** [Option::is_none_or]. *)
Definition is_none_or {A} (o : option A) (P : A → bool) : bool := match o with None => true | Some a => P a end.

Definition constrains (ctx : context) (deny_entry e : entry) : bool :=
  if is_root_entry e then true
  else
    match resolve_permission_path (entry_path e) ctx with
    | None => true
    | Some grant_path =>
        match entry_path deny_entry with
        | GlobPattern pattern => is_none_or (glob_static_prefix_path pattern ctx) (λ prefix, paths_overlap prefix grant_path)
        | Path _ | Special _ =>
            is_none_or (resolve_permission_path (entry_path deny_entry) ctx) (λ deny_path, paths_overlap deny_path grant_path)
        end
    end.

Definition deny_entry_constrains_accepted_grant (deny_entry : entry) (accepted : list entry) (ctx : context) : bool :=
  existsb (constrains ctx deny_entry) (List.filter (λ e, can_read (entry_access e)) accepted).

(** The denials that are kept, and the output with them. *)
Definition retained_deny_entries (source accepted : list entry) (ctx : context) : list entry :=
  List.filter (λ e, deny_entry_constrains_accepted_grant e accepted ctx) (List.filter is_deny_entry source).
Definition retain_constraining_deny_entries (source accepted : list entry) (ctx : context) (output : list entry)
    : list entry * list entry :=
  (foldl push_missing output (retained_deny_entries source accepted ctx), retained_deny_entries source accepted ctx).

Definition granted_file_system_entry_within_request (requested : FileSystemPermissions) (requested_policy : policy)
    (matcher : option (PreparedReadDenyMatcher PathUri)) (granted_entry : entry) (ctx : context) : bool :=
  if negb (can_read (entry_access granted_entry)) ||
     match entry_path granted_entry with
     | Special SlashTmp => negb (bool_decide (infer_path_convention (ctx_cwd ctx) = Some PosixPaths))
     | _ => false
     end
  then false
  else if is_windows ctx && is_root_entry granted_entry &&
          negb (existsb (λ r, is_root_entry r && access_covers (entry_access r) (entry_access granted_entry))
                  (permission_entries requested))
  then false
  else
    match resolve_permission_path (entry_path granted_entry) ctx with
    | Some path =>
        if negb (bool_decide (infer_path_convention path = infer_path_convention (ctx_cwd ctx))) ||
           is_some_and matcher (λ matcher, is_read_denied_uri matcher path ctx)
        then false
        else access_covers (resolve_access requested_policy path ctx) (entry_access granted_entry)
    | None =>
        existsb (λ r, access_covers (entry_access r) (entry_access granted_entry) &&
                      file_system_path_eqb (entry_path r) (entry_path granted_entry))
          (permission_entries requested)
    end.

Definition intersect_network (requested granted : option NetworkPermissions) : option NetworkPermissions :=
  match requested, granted with
  | Some (mkNetworkPermissions (Some true)), Some (mkNetworkPermissions (Some true)) =>
      Some (mkNetworkPermissions (Some true))
  | _, _ => None
  end.

Definition intersect_file_system (requested granted : FileSystemPermissions) (ctx : context)
    : option FileSystemPermissions :=
  requested_entries ← materialize_context_dependent_entries (permission_entries requested) ctx;
  granted_entries ← materialize_context_dependent_entries (permission_entries granted) ctx;
  let requested_policy := restricted_policy requested_entries in
  let matcher := matcher_from_context requested_policy ctx in
  let accepted :=
    foldl push_missing []
      (List.filter (λ e, granted_file_system_entry_within_request requested requested_policy matcher e ctx)
         granted_entries) in
  let '(output, requested_retained) := retain_constraining_deny_entries requested_entries accepted ctx accepted in
  let '(output, granted_retained) := retain_constraining_deny_entries granted_entries accepted ctx output in
  Some (mkFileSystemPermissions output
    (merge_glob_scan_max_depth requested_retained (permission_glob_depth requested)
       granted_retained (permission_glob_depth granted) ≫= non_zero)).

Definition no_permissions : FileSystemPermissions := mkFileSystemPermissions [] None.

Definition intersect_permission_profiles_with_context (requested granted : AdditionalPermissionProfile) (ctx : context)
    : AdditionalPermissionProfile :=
  mkAdditional (intersect_network (additional_network requested) (additional_network granted))
    (option_filter (λ fs, negb (FileSystemPermissions_is_empty fs))
       (fs ← additional_file_system requested;
        intersect_file_system fs (default no_permissions (additional_file_system granted)) ctx)).

(** ** Application to policies *)
Definition merge_file_system_policy_with_additional_permissions (p : policy) (additional : FileSystemPermissions)
    : policy :=
  match sandbox_kind p with
  | Restricted =>
      mkSandboxPolicy Restricted
        (merge_glob_scan_max_depth (sandbox_entries p) (glob_scan_max_depth p)
           (permission_entries additional) (permission_glob_depth additional))
        (foldl push_missing (sandbox_entries p) (permission_entries additional))
  | Unrestricted | ExternalSandbox => p
  end.

Definition effective_file_system_sandbox_policy (p : policy) (additional : option AdditionalPermissionProfile) : policy :=
  match additional with
  | None => p
  | Some additional =>
      match additional_file_system additional with
      | None => p
      | Some fs =>
          if FileSystemPermissions_is_empty fs then p
          else merge_file_system_policy_with_additional_permissions p fs
      end
  end.

Definition NetworkSandboxPolicy_is_enabled (n : NetworkSandboxPolicy) : bool :=
  match n with NetworkEnabled => true | NetworkRestricted => false end.

Definition merge_network_access (base : bool) (additional : AdditionalPermissionProfile) : bool :=
  base || default false (n ← additional_network additional; network_enabled n).

Definition effective_network_sandbox_policy (n : NetworkSandboxPolicy) (additional : option AdditionalPermissionProfile)
    : NetworkSandboxPolicy :=
  if is_some_and additional (merge_network_access (NetworkSandboxPolicy_is_enabled n)) then NetworkEnabled
  else if bool_decide (is_Some additional) then NetworkRestricted
  else n.

Definition network_sandbox_policy (p : PermissionProfile PathUri) : NetworkSandboxPolicy :=
  match p with
  | Managed _ network | External network => network
  | Disabled => NetworkEnabled
  end.
Definition to_runtime_permissions (p : PermissionProfile PathUri) : policy * NetworkSandboxPolicy :=
  (file_system_sandbox_policy p, network_sandbox_policy p).

Definition enforcement (p : PermissionProfile PathUri) : SandboxEnforcement :=
  match p with
  | Managed _ _ => EnforceManaged
  | Disabled => EnforceDisabled
  | External _ => EnforceExternal
  end.

Definition from_sandbox_policy (p : policy) : checked (ManagedFileSystemPermissions PathUri) :=
  match sandbox_kind p with
  | Restricted => Returned (ManagedRestricted (sandbox_entries p) (glob_scan_max_depth p ≫= non_zero))
  | Unrestricted => Returned ManagedUnrestricted
  | ExternalSandbox => Unreachable
  end.

Definition from_runtime_permissions_with_enforcement (e : SandboxEnforcement) (p : policy) (n : NetworkSandboxPolicy)
    : checked (PermissionProfile PathUri) :=
  match sandbox_kind p, e with
  | ExternalSandbox, _ => Returned (External n)
  | Unrestricted, EnforceDisabled => Returned Disabled
  | (Restricted | Unrestricted), _ => m ← from_sandbox_policy p; Returned (Managed m n)
  end.

Definition effective_permission_profile (p : PermissionProfile PathUri) (additional : option AdditionalPermissionProfile)
    : checked (PermissionProfile PathUri) :=
  let '(file_system_policy, network_policy) := to_runtime_permissions p in
  from_runtime_permissions_with_enforcement (enforcement p)
    (effective_file_system_sandbox_policy file_system_policy additional)
    (effective_network_sandbox_policy network_policy additional).

Definition should_require_platform_sandbox (windows : bool) (p : policy) (n : NetworkSandboxPolicy)
    (has_managed_network_requirements : bool) : bool :=
  if has_managed_network_requirements then true
  else if negb (NetworkSandboxPolicy_is_enabled n) then
    match sandbox_kind p with ExternalSandbox => false | _ => true end
  else
    match sandbox_kind p with
    | Restricted => negb (has_full_disk_write_access windows p)
    | Unrestricted | ExternalSandbox => false
    end.
End Transforms.
Arguments FileSystemPermissions : clear implicits.
Arguments AdditionalPermissionProfile : clear implicits.

(** ** The order of paths *)

(** Containment is transitive, and of two paths that contain a third the deeper one is
    contained in the other. *)
Class PathUriOrder (PathUri : Type) `{!PathUriView PathUri} `{!PathUriTree PathUri} `{!PathUriLaws PathUri} : Prop := {
  contained_trans (p b a : PathUri) :
    uri_ok p → uri_ok b → uri_ok a →
    is_Some (lexical_depth p) → is_Some (lexical_depth b) → is_Some (lexical_depth a) →
    uri_starts_with p b = true → uri_starts_with b a = true → uri_starts_with p a = true;
  contained_chain (p a b : PathUri) da db :
    uri_ok p → uri_ok a → uri_ok b →
    is_Some (lexical_depth p) → lexical_depth a = Some da → lexical_depth b = Some db → da ≤ db →
    uri_starts_with p a = true → uri_starts_with p b = true → uri_starts_with b a = true;
}.

Section Spec.
Context {PathUri : Type} {uri_view : PathUriView PathUri} {uri_tree : PathUriTree PathUri} {globs : DenyGlobs}
  {display : PathUriDisplay PathUri} {uri_laws : PathUriLaws PathUri} {uri_order : PathUriOrder PathUri}.
#[local] Abbreviation policy := (FileSystemSandboxPolicy PathUri).
#[local] Abbreviation context := (FileSystemSandboxPolicyContext PathUri).
#[local] Abbreviation entry := (FileSystemSandboxEntry PathUri).

(** ** Pushing entries that are missing *)
Lemma path_eqb_refl (p : FileSystemPath PathUri) : (∀ q : PathUri, path_uri_eqb q q = true) → file_system_path_eqb p p = true.
Proof using Type. intros Hr. destruct p; simpl; [apply Hr|apply str_eqb_refl|by rewrite bool_decide_true]. Qed.

Lemma push_missing_one (l : list entry) e x : x ∈ push_missing l e → x ∈ l ∨ x = e.
Proof using Type.
  unfold push_missing. destruct (existsb _ l); [by left|]. rewrite elem_of_app, list_elem_of_singleton. done.
Qed.

Lemma push_all_elem (es l : list entry) x : x ∈ foldl push_missing l es → x ∈ l ∨ x ∈ es.
Proof using Type.
  revert l. induction es as [|e es IH]; intros l; cbn [foldl]; [by left|].
  intros [Hx| ?]%IH; [|right; by right]. apply push_missing_one in Hx as [?| ->]; [by left|right; by left].
Qed.

(** What is pushed is there, up to equality, and nothing is lost. *)
Lemma push_missing_keeps (l : list entry) e x : x ∈ l → x ∈ push_missing l e.
Proof using Type. unfold push_missing. destruct (existsb _ l); [done|]. rewrite elem_of_app. by left. Qed.

Lemma push_all_keeps (es l : list entry) x : x ∈ l → x ∈ foldl push_missing l es.
Proof using Type. revert l. induction es as [|e es IH]; intros l Hx; [done|]. by apply IH, push_missing_keeps. Qed.

Lemma push_all_pushed (es l : list entry) e :
  e ∈ es → ∃ e', e' ∈ foldl push_missing l es ∧ (e' = e ∨ entry_eqb e' e = true).
Proof using Type.
  revert l. induction es as [|x es IH]; intros l; [by intros []%not_elem_of_nil|].
  intros [->|He]%elem_of_cons; [|by apply IH]. cbn [foldl].
  assert (∃ e', e' ∈ push_missing l x ∧ (e' = x ∨ entry_eqb e' x = true)) as (e' & He' & Heq).
  { unfold push_missing. destruct (existsb _ l) eqn:Hex.
    - apply existsb_exists in Hex as (e' & Hin%list_elem_of_In & Heq). by eauto.
    - exists x. split; [|by left]. rewrite elem_of_app, list_elem_of_singleton. by right. }
  exists e'. split; [by apply push_all_keeps|done].
Qed.

(** ** Materialized entries have the same roots *)
Lemma materialize_context_entry_resolved (e : entry) ctx es :
  materialize_context_entry e ctx = Some es → concat (map (resolved_entry ctx) es) = resolved_entry ctx e.
Proof using Type.
  unfold materialize_context_entry. destruct e as [path access behavior]. cbn [entry_path].
  assert (∀ ps, concat (map (resolved_entry ctx) (map (materialized_path_entry (mkEntry path access behavior)) ps)) =
    map (λ p, (p, access)) (List.filter (λ p, bool_decide (infer_path_convention p = infer_path_convention (ctx_cwd ctx))) ps)) as Hmany.
  { induction ps as [|p ps IH]; [done|]. cbn [map concat List.filter]. rewrite IH. unfold resolved_entry at 1. cbn [entry_path entry_roots entry_access materialized_path_entry List.filter].
    by destruct (bool_decide _). }
  destruct path as [path|pattern|[| |subpath| | |]].
  1,4,7,8: cbn [materialize_cwd_dependent_entry entry_path]; intros [= <-]; cbn [map concat]; by rewrite app_nil_r.
  - destruct (materialize_cwd_dependent_entry (mkEntry (GlobPattern pattern) access behavior) ctx) as [e'|] eqn:He.
    + unfold materialize_cwd_dependent_entry in He. cbn [entry_path] in He.
      destruct (match home_relative _ _ with Some _ => _ | None => _ end) as [[root rest]|]; [|done]. cbn in He.
      destruct (uri_join root rest); [|done]. cbn in He. injection He as <-. by intros [= <-].
    + destruct (is_deny_entry _); [done|]. by intros [= <-].
  - destruct (resolve_permission_path _ ctx); [|done]. cbn. intros [= <-]. cbn [map concat]. by rewrite app_nil_r.
  - intros H. destruct (resolve_for_roots _ ctx (ctx_workspace_roots ctx)) as [es'|] eqn:Hr; [|done]. cbn in H.
    destruct (_ && _); [done|]. injection H as ->.
    assert (∀ roots es, resolve_for_roots (mkEntry (Special (ProjectRoots subpath)) access behavior) ctx roots = Some es →
      es = map (materialized_path_entry (mkEntry (Special (ProjectRoots subpath)) access behavior))
             (omap (λ root, match subpath with Some s => uri_join root s | None => Some root end) roots)) as Hroots.
    { induction roots as [|root roots IH]; intros l; cbn; [by intros [= <-]|].
      destruct (match subpath with Some s => uri_join root s | None => Some root end) as [path|].
      - destruct (resolve_for_roots _ ctx roots) as [l'|]; [|done]. cbn. intros [= <-]. by rewrite (IH l' eq_refl).
      - destruct (is_deny_entry _); [done|]. apply IH. }
    rewrite (Hroots _ _ Hr), Hmany. done.
  - destruct (ctx_temporary_directories ctx) as [ds|] eqn:Hds.
    + intros [= <-]. rewrite Hmany. unfold resolved_entry. cbn [entry_path entry_roots special_roots entry_access]. by rewrite Hds.
    + destruct (is_deny_entry _); [done|]. intros [= <-]. cbn [map concat]. by rewrite app_nil_r.
Qed.

Lemma materialize_resolved (es ms : list entry) ctx :
  materialize_context_dependent_entries es ctx = Some ms →
  resolved_entries ctx (restricted_policy ms) = resolved_entries ctx (restricted_policy es).
Proof using Type.
  unfold resolved_entries. cbn [sandbox_entries restricted_policy]. revert ms.
  induction es as [|e es IH]; intros ms; cbn [materialize_context_dependent_entries]; [by intros [= <-]|].
  destruct (materialize_context_entry e ctx) as [l|] eqn:He; [|done]. cbn.
  destruct (materialize_context_dependent_entries es ctx) as [k|]; [|done]. cbn. intros [= <-].
  rewrite map_app, concat_app, (materialize_context_entry_resolved _ _ _ He), (IH k eq_refl). done.
Qed.

(** Materialized entries have at most one root, the one that the intersection compares. *)
Definition single_root (ctx : context) (e : entry) : Prop :=
  ∀ m, m ∈ entry_roots ctx (entry_path e) → resolve_permission_path (entry_path e) ctx = Some m.

Lemma materialize_single_root (es ms : list entry) ctx :
  materialize_context_dependent_entries es ctx = Some ms → Forall (single_root ctx) ms.
Proof using Type.
  assert (∀ e path, single_root ctx (materialized_path_entry e path)) as Hpath.
  { intros e path m Hm. by apply list_elem_of_singleton in Hm as ->. }
  assert (∀ (e : entry) roots l, resolve_for_roots e ctx roots = Some l → Forall (single_root ctx) l) as Hroots.
  { intros e. induction roots as [|root roots IH]; intros l; cbn; [intros [= <-]; constructor|].
    destruct (resolve_permission_path _ _).
    - destruct (resolve_for_roots e ctx roots) as [l'|]; [|done]. cbn. intros [= <-]. constructor; [done|by apply IH].
    - destruct (is_deny_entry e); [done|apply IH]. }
  assert (∀ (o : option PathUri) m, m ∈ option_list o → o = Some m) as Hopt.
  { intros [x|] m Hm; [by apply list_elem_of_singleton in Hm as ->|by apply not_elem_of_nil in Hm]. }
  revert ms. induction es as [|e es IH]; intros ms; cbn [materialize_context_dependent_entries]; [intros [= <-]; constructor|].
  destruct (materialize_context_entry e ctx) as [l|] eqn:He; [|done]. cbn.
  destruct (materialize_context_dependent_entries es ctx) as [k|]; [|done]. cbn. intros [= <-].
  apply Forall_app. split; [|by apply IH]. unfold materialize_context_entry in He.
  destruct e as [[path|pattern|[| |subpath| | |]] access behavior]; cbn [entry_path] in He.
  - injection He as <-. constructor; [apply (Hpath (mkEntry (Path path) access behavior))|constructor].
  - destruct (materialize_cwd_dependent_entry (mkEntry (GlobPattern pattern) access behavior) ctx) as [e'|] eqn:Hc.
    + injection He as <-. unfold materialize_cwd_dependent_entry in Hc. cbn [entry_path] in Hc.
      destruct (match home_relative _ _ with Some _ => _ | None => _ end) as [[root rest]|]; [|done]. cbn in Hc.
      destruct (uri_join root rest); [|done]. cbn in Hc. injection Hc as <-.
      constructor; [|constructor]. by intros m Hm%not_elem_of_nil.
    + destruct (is_deny_entry _); [done|]. injection He as <-. constructor.
  - destruct (resolve_permission_path _ ctx); [|done]. cbn in He. injection He as <-.
    constructor; [|constructor]. intros m Hm. by apply Hopt.
  - injection He as <-. constructor; [|constructor]. by intros m Hm%not_elem_of_nil.
  - destruct (resolve_for_roots _ ctx _) as [l'|] eqn:Hr; [|done]. cbn in He. destruct (_ && _); [done|].
    injection He as <-. by eapply Hroots.
  - destruct (ctx_temporary_directories ctx) as [ds|] eqn:Hds.
    + injection He as <-. apply Forall_forall. intros x Hx. apply list_elem_of_fmap in Hx as (d & -> & _). apply Hpath.
    + destruct (is_deny_entry _); [done|]. injection He as <-. constructor; [|constructor].
      intros m Hm. cbn in Hm. rewrite Hds in Hm. by apply not_elem_of_nil in Hm.
  - injection He as <-. constructor; [|constructor]. intros m Hm. cbn in Hm. unfold resolve_permission_path, entry_path.
    destruct (bool_decide _); [by apply Hopt|by apply not_elem_of_nil in Hm].
  - injection He as <-. constructor; [|constructor]. by intros m Hm%not_elem_of_nil.
Qed.

(** ** The entries of an intersection *)
Section Intersection.
Context (requested granted : FileSystemPermissions PathUri) (ctx : context)
  (requested_entries granted_entries : list entry)
  (Hreq : materialize_context_dependent_entries (permission_entries requested) ctx = Some requested_entries)
  (Hgra : materialize_context_dependent_entries (permission_entries granted) ctx = Some granted_entries).

Definition accepted_grants : list entry :=
  foldl push_missing []
    (List.filter (λ e, granted_file_system_entry_within_request requested (restricted_policy requested_entries)
                         (matcher_from_context (restricted_policy requested_entries) ctx) e ctx) granted_entries).

Definition intersection_entries : list entry :=
  foldl push_missing
    (foldl push_missing accepted_grants (retained_deny_entries requested_entries accepted_grants ctx))
    (retained_deny_entries granted_entries accepted_grants ctx).

Lemma intersect_entries_eq fs :
  intersect_file_system requested granted ctx = Some fs → permission_entries fs = intersection_entries.
Proof using Hreq Hgra. unfold intersect_file_system. rewrite Hreq, Hgra. cbn [mbind option_bind]. by intros [= <-]. Qed.

Lemma accepted_granted e :
  e ∈ accepted_grants →
  e ∈ granted_entries ∧
  granted_file_system_entry_within_request requested (restricted_policy requested_entries)
    (matcher_from_context (restricted_policy requested_entries) ctx) e ctx = true.
Proof using Type.
  intros [[]%not_elem_of_nil|He]%push_all_elem. apply list_elem_of_In in He. apply List.filter_In in He as [He Hw].
  by rewrite list_elem_of_In.
Qed.

Lemma retained_elem source e :
  e ∈ retained_deny_entries source accepted_grants ctx ↔
  e ∈ source ∧ is_deny_entry e = true ∧ deny_entry_constrains_accepted_grant e accepted_grants ctx = true.
Proof using Type.
  unfold retained_deny_entries. rewrite list_elem_of_In, !List.filter_In, list_elem_of_In. tauto.
Qed.

(** What allows something is an accepted grant. *)
Lemma intersection_elem e :
  e ∈ intersection_entries →
  e ∈ accepted_grants ∨ entry_access e = Deny ∧ (e ∈ requested_entries ∨ e ∈ granted_entries).
Proof using Type.
  intros [[He|He]%push_all_elem|He]%push_all_elem; [by left|right..];
    apply retained_elem in He as (? & Hd & _); apply bool_decide_eq_true in Hd; auto.
Qed.

Lemma accepted_in_intersection e : e ∈ accepted_grants → e ∈ intersection_entries.
Proof using Type. intros He. by apply push_all_keeps, push_all_keeps. Qed.

(** A denial that constrains an accepted grant is there, up to equality. *)
Lemma denial_in_intersection d :
  (d ∈ requested_entries ∨ d ∈ granted_entries) → entry_access d = Deny →
  deny_entry_constrains_accepted_grant d accepted_grants ctx = true →
  ∃ d', d' ∈ intersection_entries ∧ (d' = d ∨ entry_eqb d' d = true).
Proof using Type.
  intros Hd Hdeny Hc.
  assert (is_deny_entry d = true) as Hb by by apply bool_decide_eq_true.
  destruct Hd as [Hd|Hd].
  - destruct (push_all_pushed (retained_deny_entries requested_entries accepted_grants ctx) accepted_grants d) as (d' & Hin & Heq).
    { by apply retained_elem. }
    exists d'. split; [by apply push_all_keeps|done].
  - apply push_all_pushed. by apply retained_elem.
Qed.

(** ** Settings *)
(** The paths of entries can be compared. *)
Definition good_entries (es : list entry) : Prop :=
  Forall (λ e, ∀ m, m ∈ entry_roots ctx (entry_path e) → uri_ok m ∧ is_Some (lexical_depth m)) es.

Record comparable_setting (path : PathUri) (convention : PathConvention) : Prop := {
  cs_convention : infer_path_convention (ctx_cwd ctx) = Some convention;
  cs_path : uri_ok path;
  cs_comparable : paths_comparable ctx path convention = true;
  cs_requested : good_entries requested_entries;
  cs_granted : good_entries granted_entries;
}.

Context (path : PathUri) (convention : PathConvention) (Hset : comparable_setting path convention).

(** The roots of entries. *)
Abbreviation roots es := (resolved_entries ctx (restricted_policy es)).

Lemma root_elem (es : list entry) m a :
  (m, a) ∈ roots es ↔ ∃ e, e ∈ es ∧ entry_access e = a ∧ m ∈ entry_roots ctx (entry_path e) ∧
    infer_path_convention m = infer_path_convention (ctx_cwd ctx).
Proof using Type uri_laws. apply resolved_entries_elem. Qed.

Lemma good_at es m a : good_entries es → (m, a) ∈ roots es → uri_ok m ∧ is_Some (lexical_depth m).
Proof using Type. intros Hg (e & He & _ & Hm & _)%root_elem. unfold good_entries in Hg. rewrite Forall_forall in Hg. by eapply Hg. Qed.

Lemma intersection_from e :
  e ∈ intersection_entries → e ∈ requested_entries ∨ e ∈ granted_entries.
Proof using Type. intros [[He _]%accepted_granted|(_ & He)]%intersection_elem; [by right|done]. Qed.

Lemma intersection_good : good_entries intersection_entries.
Proof using Hset.
  apply Forall_forall. intros e He. pose proof (cs_requested _ _ Hset) as Hr. pose proof (cs_granted _ _ Hset) as Hg.
  unfold good_entries in Hr, Hg. rewrite Forall_forall in Hr, Hg.
  apply intersection_from in He as [He|He]; [by apply Hr|by apply Hg].
Qed.

Lemma path_lexical : is_Some (lexical_depth path).
Proof using Hset.
  pose proof (cs_comparable _ _ Hset) as H. unfold paths_comparable in H. rewrite !andb_true_iff, !bool_decide_eq_true in H. tauto.
Qed.

(** The most specific root of entries for a path. *)
Definition strongest (es : list entry) (q m : PathUri) (a : FileSystemAccessMode) : Prop :=
  (m, a) ∈ roots es ∧ uri_starts_with q m = true ∧
  ∀ m' a' d d', (m', a') ∈ roots es → uri_starts_with q m' = true →
    lexical_depth m = Some d → lexical_depth m' = Some d' →
    d' < d ∨ (d' = d ∧ access_rank a' ≤ access_rank a).

Lemma resolve_strongest es q :
  good_entries es → paths_comparable ctx q convention = true →
  (∃ m, strongest es q m (resolve_access (restricted_policy es) q ctx)) ∨
  (resolve_access (restricted_policy es) q ctx = Deny ∧ ∀ m a, (m, a) ∈ roots es → uri_starts_with q m = false).
Proof using Hset.
  intros Hg Hq.
  destruct (resolve_access_max (restricted_policy es) q ctx convention) as [(m & a & d & <- & Hin & Hd & Hs & Hmax)|[Hd Hnone]];
    [done|apply Hset|done| | |].
  - apply Forall_forall. intros [m a] Hm. left. by eapply good_at.
  - left. exists m. split_and!; [done..|]. intros m' a' d1 d' Hm' Hs' Hd1 Hd'. rewrite Hd in Hd1. injection Hd1 as <-. by eapply Hmax.
  - right. split; [done|]. intros m a Hm. destruct (good_at es m a Hg Hm) as [_ [d Hd']]. by eapply Hnone.
Qed.

(** ** Denials below a grant are kept *)
Lemma deeper_overlaps d m dd dm :
  uri_ok d → uri_ok m → lexical_depth d = Some dd → lexical_depth m = Some dm → dm ≤ dd →
  uri_starts_with path d = true → uri_starts_with path m = true → paths_overlap d m = true.
Proof using Hset uri_order.
  intros Hd Hm Hdd Hdm Hle Hsd Hsm. unfold paths_overlap, uri_overlaps. destruct (path_uri_eqb d m); [done|].
  rewrite Hdd, Hdm. cbn.
  rewrite (contained_chain path m d dm dd (cs_path _ _ Hset) Hm Hd path_lexical Hdm Hdd Hle Hsm Hsd). done.
Qed.

Lemma denial_constrains e d m dr dm dd :
  e ∈ accepted_grants → m ∈ entry_roots ctx (entry_path e) → single_root ctx e → single_root ctx d →
  dr ∈ entry_roots ctx (entry_path d) → uri_ok m → uri_ok dr →
  lexical_depth m = Some dm → lexical_depth dr = Some dd → dm ≤ dd →
  uri_starts_with path m = true → uri_starts_with path dr = true → can_read (entry_access e) = true →
  deny_entry_constrains_accepted_grant d accepted_grants ctx = true.
Proof using Hset uri_order.
  intros He Hm Hse Hsd Hdr Hokm Hokd Hdm Hdd Hle Hpm Hpd Hread. unfold deny_entry_constrains_accepted_grant.
  apply existsb_exists. exists e. split; [apply List.filter_In; by rewrite <- list_elem_of_In|].
  unfold constrains. destruct (is_root_entry e); [done|]. rewrite (Hse m Hm).
  pose proof (deeper_overlaps dr m dd dm Hokd Hokm Hdd Hdm Hle Hpd Hpm) as Hov.
  destruct (entry_path d) as [q|pattern|v] eqn:Hp; [|by apply not_elem_of_nil in Hdr|];
    unfold single_root in Hsd; rewrite Hp in Hsd; by rewrite (Hsd dr Hdr).
Qed.

(** Equal entries have roots that contain the same paths. *)
Lemma equal_entry_resolved (d d' : entry) dr :
  entry_eqb d' d = true → dr ∈ entry_roots ctx (entry_path d) →
  (∀ m, m ∈ entry_roots ctx (entry_path d) → uri_ok m) → (∀ m, m ∈ entry_roots ctx (entry_path d') → uri_ok m) →
  ∃ dr', dr' ∈ entry_roots ctx (entry_path d') ∧ entry_access d' = entry_access d ∧
    lexical_depth dr' = lexical_depth dr ∧ infer_path_convention dr' = infer_path_convention dr ∧
    uri_starts_with path dr' = uri_starts_with path dr.
Proof using Hset.
  unfold entry_eqb. rewrite !andb_true_iff, !bool_decide_eq_true. intros [[Hp Ha] _] Hdr Hok Hok'.
  destruct (entry_path d') as [l|l|l], (entry_path d) as [r|r|r]; cbn [file_system_path_eqb] in Hp; try done.
  - apply list_elem_of_singleton in Hdr as ->.
    destruct (eqb_same_target l r) as (Hd & Hc & Hs); [by apply Hok', list_elem_of_singleton|by apply Hok, list_elem_of_singleton|done|].
    exists l. split_and!; [by apply list_elem_of_singleton|done..|]. by apply Hs; [apply Hset|apply path_lexical].
  - by apply not_elem_of_nil in Hdr.
  - apply bool_decide_eq_true in Hp as ->. by exists dr.
Qed.

(** Where the intersection allows something, no denial is as specific as the grant. *)
Lemma denials_above m a d dr dm dd :
  strongest intersection_entries path m a → a ≠ Deny →
  d ∈ requested_entries ∨ d ∈ granted_entries → entry_access d = Deny →
  dr ∈ entry_roots ctx (entry_path d) → infer_path_convention dr = infer_path_convention (ctx_cwd ctx) →
  lexical_depth m = Some dm → lexical_depth dr = Some dd → uri_starts_with path dr = true → dd < dm.
Proof using Hset Hreq Hgra uri_order.
  intros (Hin & Hs & Hmax) Ha Hd Hdeny Hdr Hconv Hdm Hdd Hpd.
  destruct (Nat.lt_ge_cases dd dm) as [|Hle]; [done|]. exfalso.
  apply root_elem in Hin as (e & He & Hae & Hm & Hcm).
  assert (e ∈ accepted_grants) as Hacc by (apply intersection_elem in He as [?|[? _]]; [done|congruence]).
  assert (∀ x, x ∈ requested_entries ∨ x ∈ granted_entries →
    single_root ctx x ∧ ∀ r, r ∈ entry_roots ctx (entry_path x) → uri_ok r) as Hx.
  { pose proof (materialize_single_root _ _ _ Hreq) as H1. pose proof (materialize_single_root _ _ _ Hgra) as H2.
    pose proof (cs_requested _ _ Hset) as H3. pose proof (cs_granted _ _ Hset) as H4. unfold good_entries in H3, H4.
    rewrite Forall_forall in H1, H2, H3, H4.
    intros x [Hx|Hx]; (split; [auto|]); intros r Hr; [by apply (H3 x Hx)|by apply (H4 x Hx)]. }
  destruct (Hx e (intersection_from e He)) as [Hse Hoke]. destruct (Hx d Hd) as [Hsd Hokd].
  destruct (denial_in_intersection d Hd Hdeny) as (d' & Hd' & Heq).
  { eapply (denial_constrains e d m dr dm dd); eauto. rewrite Hae. by destruct a. }
  assert (∃ dr', (dr', Deny) ∈ roots intersection_entries ∧ lexical_depth dr' = Some dd ∧ uri_starts_with path dr' = true)
    as (dr' & Hin' & Hdd' & Hpd').
  { destruct Heq as [->|Heq].
    - exists dr. split_and!; [|done..]. apply root_elem. by exists d.
    - destruct (Hx d' (intersection_from d' Hd')) as [_ Hokd'].
      destruct (equal_entry_resolved d d' dr Heq Hdr Hokd Hokd') as (dr' & Hr' & Ha' & Hdep & Hcv & Hst).
      exists dr'. split_and!; [|by rewrite Hdep|by rewrite Hst]. apply root_elem. exists d'. split_and!; [done|congruence|done|congruence]. }
  destruct (Hmax dr' Deny dm dd Hin' Hpd' Hdm Hdd') as [?|[_ Hrank]]; [lia|]. destruct a; simpl in Hrank; try lia; done.
Qed.

(** ** What the intersection allows *)
Lemma requested_or_granted_good es : es = requested_entries ∨ es = granted_entries → good_entries es.
Proof using Hset. intros [-> | ->]; apply Hset. Qed.

Lemma resolve_comparable es q :
  resolve_access (restricted_policy es) q ctx ≠ Deny → paths_comparable ctx q convention = true.
Proof using Hset.
  unfold resolve_access. cbn [sandbox_kind restricted_policy]. rewrite (cs_convention _ _ Hset).
  by destruct (paths_comparable ctx q convention).
Qed.

(** The request allows what is accepted at the root of the grant, and its denials of reads
    do not cover that root. *)
Lemma accepted_covered e m :
  e ∈ accepted_grants → m ∈ entry_roots ctx (entry_path e) →
  access_covers (resolve_access (restricted_policy requested_entries) m ctx) (entry_access e) = true ∧
  is_some_and (matcher_from_context (restricted_policy requested_entries) ctx) (λ x, is_read_denied_uri x m ctx) = false.
Proof using Hset Hgra.
  intros He Hm. pose proof (accepted_granted e He) as [Hg Hw].
  pose proof (materialize_single_root _ _ _ Hgra) as Hsr. rewrite Forall_forall in Hsr. specialize (Hsr e Hg m Hm).
  unfold granted_file_system_entry_within_request in Hw.
  destruct (negb (can_read (entry_access e)) || _); [done|]. destruct (is_windows ctx && is_root_entry e && _); [done|].
  rewrite Hsr in Hw. destruct (negb _); cbn [orb] in Hw; [done|]. by destruct (is_some_and _ _).
Qed.

Lemma covers_not_deny a b : access_covers a b = true → a ≠ Deny ∧ b ≠ Deny.
Proof using Type. destruct a, b; done. Qed.

(** Below an accepted grant, the request denies only by entries that are deeper. *)
Lemma request_allows m a q :
  strongest intersection_entries path m a → a ≠ Deny → uri_ok q → paths_comparable ctx q convention = true →
  (q = path ∨ ∃ dm dq, lexical_depth m = Some dm ∧ lexical_depth q = Some dq ∧ dm ≤ dq ∧ uri_starts_with path q = true) →
  resolve_access (restricted_policy requested_entries) q ctx ≠ Deny.
Proof using Hset Hreq Hgra uri_order.
  intros Hst Ha Hokq Hcq Hq Hdeny. pose proof Hst as (Hin & Hpm & _). apply root_elem in Hin as (e & He & Hae & Hm & Hcm).
  assert (e ∈ accepted_grants) as Hacc by (apply intersection_elem in He as [?|[? _]]; [done|congruence]).
  destruct (accepted_covered e m Hacc Hm) as [[Hcov _]%covers_not_deny _].
  destruct (good_at intersection_entries m a intersection_good) as [Hokm [dm Hdm]]; [apply root_elem; by eauto|].
  assert (is_Some (lexical_depth q)) as Hlq.
  { unfold paths_comparable in Hcq. rewrite !andb_true_iff, !bool_decide_eq_true in Hcq. tauto. }
  assert (uri_starts_with q m = true) as Hqm.
  { destruct Hq as [->|(dm' & dq & Hdm' & Hdq & Hle & Hpq)]; [done|].
    by eapply (contained_chain path m q dm' dq); eauto using path_lexical; apply Hset. }
  assert (∀ x, uri_ok x → is_Some (lexical_depth x) → uri_starts_with q x = true → uri_starts_with path x = true) as Hpx.
  { intros x Hx Hlx Hqx. destruct Hq as [->|(? & ? & _ & _ & _ & Hpq)]; [done|].
    by eapply (contained_trans path q x); eauto using path_lexical; apply Hset. }
  destruct (resolve_strongest requested_entries m (cs_requested _ _ Hset) (resolve_comparable _ _ Hcov))
    as [[r0 (Hr0 & Hmr & Hmaxm)]|[? _]]; [|done].
  destruct (good_at _ _ _ (cs_requested _ _ Hset) Hr0) as [Hokr [dr Hdr]].
  assert (uri_starts_with q r0 = true) as Hqr by (eapply (contained_trans q m r0); eauto).
  destruct (resolve_strongest requested_entries q (cs_requested _ _ Hset) Hcq) as [[d (Hd & Hqd & Hmaxq)]|[_ Hnone]];
    [|specialize (Hnone _ _ Hr0); congruence].
  rewrite Hdeny in Hd, Hmaxq. destruct (good_at _ _ _ (cs_requested _ _ Hset) Hd) as [Hokd [dd Hdd]].
  pose proof Hd as (de & Hde & Hdacc & Hdr' & Hdc)%root_elem.
  assert (dd < dm) as Hlt.
  { eapply (denials_above m a de d dm dd); eauto. }
  assert (uri_starts_with m d = true) as Hmd.
  { eapply (contained_chain q d m dd dm); eauto. lia. }
  destruct (Hmaxm d Deny dr dd Hd Hmd Hdr Hdd) as [?|[-> Hrank]].
  - destruct (Hmaxq r0 _ dd dr Hr0 Hqr Hdd Hdr) as [?|[? _]]; lia.
  - destruct (resolve_access _ m ctx); simpl in Hrank; try lia; done.
Qed.

Lemma intersection_reads :
  resolve_access (restricted_policy intersection_entries) path ctx ≠ Deny →
  resolve_access (restricted_policy requested_entries) path ctx ≠ Deny ∧
  resolve_access (restricted_policy granted_entries) path ctx ≠ Deny.
Proof using Hset Hreq Hgra uri_order.
  intros Ha. destruct (resolve_strongest intersection_entries path intersection_good (cs_comparable _ _ Hset))
    as [[m Hst]|[? _]]; [|done].
  split.
  { apply (request_allows m _ path Hst Ha (cs_path _ _ Hset) (cs_comparable _ _ Hset)). by left. }
  intros Hdeny.
  pose proof Hst as (Hin & Hpm & _). pose proof Hin as (e & He & Hae & Hm & Hcm)%root_elem.
  assert (e ∈ accepted_grants) as Hacc by (apply intersection_elem in He as [?|[? _]]; [done|congruence]).
  apply accepted_granted in Hacc as [Heg _].
  assert (Hmg : (m, entry_access e) ∈ roots granted_entries) by (apply root_elem; by eauto).
  destruct (good_at _ _ _ (cs_granted _ _ Hset) Hmg) as [Hokm [dm Hdm]].
  destruct (resolve_strongest granted_entries path (cs_granted _ _ Hset) (cs_comparable _ _ Hset)) as [[d (Hd & Hpd & Hmax)]|[_ Hnone]];
    [|specialize (Hnone _ _ Hmg); congruence].
  rewrite Hdeny in Hd, Hmax. destruct (good_at _ _ _ (cs_granted _ _ Hset) Hd) as [Hokd [dd Hdd]].
  pose proof Hd as (de & Hde & Hdacc & Hdr' & Hdc)%root_elem.
  assert (dd < dm) by (eapply (denials_above m _ de d dm dd); eauto).
  destruct (Hmax m _ dd dm Hmg Hpm Hdd Hdm) as [?|[? _]]; lia.
Qed.

Lemma no_deny_patterns (es : list entry) :
  Forall (λ e, is_glob (entry_path e) = false) es → omap deny_pattern es = [].
Proof using Type.
  induction 1 as [|e es He _ IH]; [done|]. cbn. unfold deny_pattern at 1. destruct (entry_path e); [exact IH|done|exact IH].
Qed.

(** Without patterns, the reads that the request denies are those of its denied roots. *)
Lemma matcher_without_globs :
  Forall (λ e, is_glob (entry_path e) = false) requested_entries →
  match matcher_from_context (restricted_policy requested_entries) ctx with
  | Some x => x = mkPrepared (matcher_roots ctx (restricted_policy requested_entries)) [] false
  | None => ∀ m, (m, Deny) ∉ roots requested_entries
  end.
Proof using Hset.
  intros Hg. unfold matcher_from_context. destruct (existsb _ _) eqn:Hex.
  - assert (deny_read_globs ctx (restricted_policy requested_entries) = Ok []) as Hok.
    { unfold deny_read_globs. cbn [sandbox_entries restricted_policy]. by rewrite (no_deny_patterns _ Hg). }
    unfold prepare_deny_read_matcher. by rewrite (cs_convention _ _ Hset), Hok.
  - intros m (e & He & Ha & _)%root_elem. apply not_true_iff_false in Hex. apply Hex. apply existsb_exists. exists e.
    split; [by apply list_elem_of_In|by apply bool_decide_eq_true].
Qed.

(** A root below an accepted grant, whose reads no deeper denial of the request covers, is
    not covered by a denial at all. *)
Lemma reads_not_denied m a g dm dg :
  strongest intersection_entries path m a → a ≠ Deny →
  Forall (λ e, is_glob (entry_path e) = false) requested_entries →
  uri_ok g → infer_path_convention g = infer_path_convention (ctx_cwd ctx) →
  lexical_depth m = Some dm → lexical_depth g = Some dg → dm ≤ dg → uri_starts_with path g = true →
  is_some_and (matcher_from_context (restricted_policy requested_entries) ctx) (λ x, is_read_denied_uri x g ctx) = false.
Proof using Hset Hreq Hgra uri_order.
  intros Hst Ha Hnoglob Hokg Hcg Hdm Hdg Hle Hpg.
  pose proof Hst as (Hin & Hpm & _). pose proof Hin as (e & He & Hae & Hm & Hcm)%root_elem.
  assert (e ∈ accepted_grants) as Hacc by (apply intersection_elem in He as [?|[? _]]; [done|congruence]).
  destruct (accepted_covered e m Hacc Hm) as [_ Hread].
  destruct (good_at intersection_entries m a intersection_good Hin) as [Hokm _].
  pose proof (matcher_without_globs Hnoglob) as Hmat.
  destruct (matcher_from_context _ ctx) as [x|]; [subst x|done]. simpl is_some_and in *.
  assert (∀ q dq, infer_path_convention q = infer_path_convention (ctx_cwd ctx) → lexical_depth q = Some dq →
    is_read_denied_uri (mkPrepared (matcher_roots ctx (restricted_policy requested_entries)) [] false) q ctx =
    existsb (uri_starts_with q) (matcher_roots ctx (restricted_policy requested_entries))) as Hden.
  { intros q dq Hcq Hdq. unfold is_read_denied_uri. rewrite (cs_convention _ _ Hset).
    assert (paths_comparable ctx q convention = true) as ->.
    { pose proof (cs_comparable _ _ Hset) as Hc. unfold paths_comparable in *. rewrite !andb_true_iff, !bool_decide_eq_true in *.
      rewrite Hcq, (cs_convention _ _ Hset), Hdq. split_and!; [done|by eexists|tauto]. }
    cbn. by rewrite orb_false_r. }
  rewrite (Hden g dg Hcg Hdg). rewrite (Hden m dm Hcm Hdm) in Hread.
  apply not_true_iff_false. intros Hex. apply not_true_iff_false in Hread. apply Hread.
  apply existsb_exists in Hex as (d & Hd & Hgd). apply existsb_exists. exists d. split; [done|].
  unfold matcher_roots in Hd. apply in_map_iff in Hd as ([d0 acc] & Hd0 & Hd). cbn [fst] in Hd0. subst d0.
  apply List.filter_In in Hd as [Hd Hfil]. cbn [fst snd] in Hfil. apply andb_true_iff in Hfil as [Hacc'%bool_decide_eq_true _]. subst acc.
  apply list_elem_of_In in Hd. destruct (good_at _ _ _ (cs_requested _ _ Hset) Hd) as [Hokd [dd Hdd]].
  pose proof Hd as (de & Hde & Hdacc & Hdr & Hdc)%root_elem.
  assert (uri_starts_with path d = true) as Hpd
    by (eapply (contained_trans path g d); eauto using path_lexical; apply Hset).
  assert (dd < dm) by (eapply (denials_above m a de d dm dd); eauto).
  eapply (contained_chain path d m dd dm); eauto using path_lexical; [apply Hset|lia].
Qed.

(** A narrower grant below an accepted one is accepted as well. *)
Lemma narrower_grant_accepted m a g ge dm dg :
  strongest intersection_entries path m a → a ≠ Deny →
  Forall (λ e, is_glob (entry_path e) = false) requested_entries →
  convention = PosixPaths ∨ is_root_entry ge = false →
  ge ∈ granted_entries → entry_access ge = Read → g ∈ entry_roots ctx (entry_path ge) →
  infer_path_convention g = infer_path_convention (ctx_cwd ctx) → uri_ok g →
  lexical_depth m = Some dm → lexical_depth g = Some dg → dm ≤ dg → uri_starts_with path g = true →
  granted_file_system_entry_within_request requested (restricted_policy requested_entries)
    (matcher_from_context (restricted_policy requested_entries) ctx) ge ctx = true.
Proof using Hset Hreq Hgra uri_order.
  intros Hst Ha Hnoglob Hroot Hge Hacc Hg Hcg Hokg Hdm Hdg Hle Hpg.
  pose proof (materialize_single_root _ _ _ Hgra) as Hsr. rewrite Forall_forall in Hsr. specialize (Hsr ge Hge g Hg).
  unfold granted_file_system_entry_within_request. rewrite Hacc, Hsr. cbn [can_read negb orb].
  assert (match entry_path ge with
    | Special SlashTmp => negb (bool_decide (infer_path_convention (ctx_cwd ctx) = Some PosixPaths))
    | _ => false end = false) as ->.
  { destruct (entry_path ge) as [| |[]]; try done. cbn in Hg.
    destruct (bool_decide _); [done|by apply not_elem_of_nil in Hg]. }
  assert (is_windows ctx && is_root_entry ge = false) as ->.
  { destruct Hroot as [->| ->]; [|by rewrite andb_false_r]. unfold is_windows. by rewrite (cs_convention _ _ Hset). }
  cbn [andb]. rewrite (bool_decide_true _ Hcg). cbn [negb orb].
  rewrite (reads_not_denied m a g dm dg) by done.
  assert (paths_comparable ctx g convention = true) as Hcmp.
  { pose proof (cs_comparable _ _ Hset) as Hc. unfold paths_comparable in *. rewrite !andb_true_iff, !bool_decide_eq_true in *.
    rewrite Hcg, (cs_convention _ _ Hset), Hdg. split_and!; [done|by eexists|tauto]. }
  pose proof (request_allows m a g Hst Ha Hokg Hcmp) as Hne.
  assert (resolve_access (restricted_policy requested_entries) g ctx ≠ Deny) as Hr by (apply Hne; right; eauto 10).
  by destruct (resolve_access _ g ctx).
Qed.

Lemma intersection_writes :
  Forall (λ e, is_glob (entry_path e) = false) requested_entries →
  convention = PosixPaths ∨ Forall (λ e, is_root_entry e = false) granted_entries →
  resolve_access (restricted_policy intersection_entries) path ctx = Write →
  resolve_access (restricted_policy granted_entries) path ctx = Write.
Proof using Hset Hreq Hgra uri_order.
  intros Hnoglob Hroot Hw.
  destruct (intersection_reads) as [_ Hgr]; [by rewrite Hw|].
  destruct (resolve_strongest intersection_entries path intersection_good (cs_comparable _ _ Hset))
    as [[m Hst]|[? _]]; [|congruence].
  rewrite Hw in Hst. pose proof Hst as (Hin & Hpm & Hmaxo). pose proof Hin as (e & He & Hae & Hm & Hcm)%root_elem.
  assert (e ∈ accepted_grants) as Hacc by (apply intersection_elem in He as [?|[? _]]; [done|congruence]).
  apply accepted_granted in Hacc as [Heg _].
  assert (Hmg : (m, Write) ∈ roots granted_entries) by (apply root_elem; by eauto).
  destruct (good_at _ _ _ (cs_granted _ _ Hset) Hmg) as [Hokm [dm Hdm]].
  destruct (resolve_strongest granted_entries path (cs_granted _ _ Hset) (cs_comparable _ _ Hset)) as [[g (Hg & Hpg & Hmax)]|[? _]];
    [|done].
  destruct (resolve_access (restricted_policy granted_entries) path ctx) eqn:Hga; [exfalso|done|done].
  destruct (good_at _ _ _ (cs_granted _ _ Hset) Hg) as [Hokg [dg Hdg]].
  pose proof Hg as (ge & Hge & Hgacc & Hgr' & Hgc)%root_elem.
  assert (dm < dg) as Hlt by (destruct (Hmax m Write dg dm Hmg Hpm Hdg Hdm) as [?|[_ Hrk]]; [done|simpl in Hrk; lia]).
  assert (convention = PosixPaths ∨ is_root_entry ge = false) as Hroot'.
  { destruct Hroot as [?|Hf]; [by left|right]. rewrite Forall_forall in Hf. by apply Hf. }
  pose proof (narrower_grant_accepted m Write g ge dm dg Hst ltac:(done) Hnoglob Hroot' Hge Hgacc Hgr' Hgc Hokg Hdm Hdg ltac:(lia) Hpg) as Hwithin.
  destruct (push_all_pushed (List.filter (λ e, granted_file_system_entry_within_request requested (restricted_policy requested_entries)
    (matcher_from_context (restricted_policy requested_entries) ctx) e ctx) granted_entries) [] ge) as (ge' & Hge' & Heq).
  { apply list_elem_of_In, List.filter_In. by rewrite <- list_elem_of_In. }
  change (ge' ∈ accepted_grants) in Hge'. pose proof (accepted_in_intersection _ Hge') as Hge''.
  pose proof (cs_granted _ _ Hset) as Hgood. unfold good_entries in Hgood. rewrite Forall_forall in Hgood.
  assert (∃ g', (g', Read) ∈ roots intersection_entries ∧ lexical_depth g' = Some dg ∧ uri_starts_with path g' = true)
    as (g' & Hin' & Hdg' & Hpg').
  { destruct Heq as [->|Heq].
    - exists g. split_and!; [|done..]. apply root_elem. by exists ge.
    - destruct (equal_entry_resolved ge ge' g Heq Hgr') as (g' & Hr' & Ha' & Hdep & Hcv & Hst').
      + intros x Hx. by apply (Hgood ge Hge).
      + intros x Hx. apply accepted_granted in Hge' as [Hge'0 _]. by apply (Hgood ge' Hge'0).
      + exists g'. split_and!; [|by rewrite Hdep|by rewrite Hst']. apply root_elem. exists ge'. split_and!; [done|congruence|done|congruence]. }
  destruct (Hmaxo g' Read dm dg Hin' Hpg' Hdm Hdg') as [?|[? _]]; lia.
Qed.
End Intersection.

Lemma resolve_access_ext (es es' : list entry) path ctx :
  resolved_entries ctx (restricted_policy es) = resolved_entries ctx (restricted_policy es') →
  resolve_access (restricted_policy es) path ctx = resolve_access (restricted_policy es') path ctx.
Proof using Type. intros H. unfold resolve_access. cbn [sandbox_kind restricted_policy]. by rewrite H. Qed.

Lemma can_read_iff a : can_read a = true ↔ a ≠ Deny.
Proof using Type. by destruct a. Qed.


(** ** The effective policy *)
(** Additional entries change the access to a path only to the access of one of them that
    contains the path. *)
Theorem effective_access_explained (base : list entry) (depth : option nat) (additional : AdditionalPermissionProfile PathUri)
    fs (ctx : context) path convention :
  additional_file_system additional = Some fs →
  infer_path_convention (ctx_cwd ctx) = Some convention → paths_comparable ctx path convention = true →
  good_entries ctx base → good_entries ctx (permission_entries fs) →
  let p := mkSandboxPolicy Restricted depth base in
  let effective := resolve_access (effective_file_system_sandbox_policy p (Some additional)) path ctx in
  effective = resolve_access p path ctx ∨
  ∃ e m, e ∈ permission_entries fs ∧ m ∈ entry_roots ctx (entry_path e) ∧
    uri_starts_with path m = true ∧ effective = entry_access e.
Proof using Type.
  intros Hfs Hconv Hcmp Hgb Hga. cbv zeta. unfold effective_file_system_sandbox_policy. rewrite Hfs.
  destruct (FileSystemPermissions_is_empty fs); [by left|].
  cbn [merge_file_system_policy_with_additional_permissions sandbox_kind sandbox_entries].
  set (eff := foldl push_missing base (permission_entries fs)).
  assert (∀ d es path, resolve_access (mkSandboxPolicy Restricted d es) path ctx = resolve_access (restricted_policy es) path ctx) as Hr by done.
  rewrite !Hr. clear Hr.
  assert (good_entries ctx eff) as Hge.
  { unfold good_entries in *. rewrite Forall_forall in *. intros e [He|He]%push_all_elem; [by apply Hgb|by apply Hga]. }
  assert (∀ es, good_entries ctx es → roots_lexical ctx (restricted_policy es)) as Hlex.
  { intros es Hg. apply Forall_forall. intros [m a] (e & He & _ & Hm & _)%resolved_entries_elem. left. cbn [fst].
    unfold good_entries in Hg. rewrite Forall_forall in Hg. by eapply Hg. }
  assert (∀ m a, (m, a) ∈ resolved_entries ctx (restricted_policy base) → (m, a) ∈ resolved_entries ctx (restricted_policy eff)) as Hsub.
  { intros m a (e & He & H)%resolved_entries_elem. apply resolved_entries_elem. exists e. split; [by apply push_all_keeps|done]. }
  destruct (resolve_access_max (restricted_policy eff) path ctx convention eq_refl Hconv Hcmp (Hlex _ Hge))
    as [(m & a & d & -> & Hin & Hd & Hs & Hmax)|[-> Hnone]].
  - apply resolved_entries_elem in Hin as (e & [He|He]%push_all_elem & Ha & Hm & Hc); [left|right; by eauto 10].
    destruct (resolve_access_max (restricted_policy base) path ctx convention eq_refl Hconv Hcmp (Hlex _ Hgb))
      as [(m' & a' & d' & -> & Hin' & Hd' & Hs' & Hmax')|[_ Hnone]].
    + assert ((m, a) ∈ resolved_entries ctx (restricted_policy base)) as Hin by (apply resolved_entries_elem; by eauto).
      pose proof (Hmax' m a d Hin Hd Hs). pose proof (Hmax m' a' d' (Hsub _ _ Hin') Hd' Hs').
      destruct a, a'; simpl in *; try done; lia.
    + assert ((m, a) ∈ resolved_entries ctx (restricted_policy base)) as Hin by (apply resolved_entries_elem; by eauto).
      specialize (Hnone m a d Hin Hd). congruence.
  - left. destruct (resolve_access_max (restricted_policy base) path ctx convention eq_refl Hconv Hcmp (Hlex _ Hgb))
      as [(m' & a' & d' & _ & Hin' & Hd' & Hs' & _)|[-> _]]; [|done].
    specialize (Hnone m' a' d' (Hsub _ _ Hin') Hd'). congruence.
Qed.

(** The profile that results is always defined: an external sandbox stays one. *)
Lemma effective_permission_profile_defined p additional :
  ∃ p', effective_permission_profile p additional = Returned p' ∧ enforcement p' = enforcement p.
Proof using Type.
  unfold effective_permission_profile, to_runtime_permissions, from_runtime_permissions_with_enforcement,
    effective_file_system_sandbox_policy, merge_file_system_policy_with_additional_permissions.
  destruct p as [[]| |]; cbn; destruct additional as [a|]; cbn; try (by eauto);
    destruct (additional_file_system a) as [fs|]; cbn; try (by eauto); destruct (FileSystemPermissions_is_empty fs); by eauto.
Qed.
End Spec.
