(* ===== verification/AccessUri.v ===== *)
(** * Access to path URIs

    Path URIs satisfy the interface that file system policies are resolved against, given
    the laws of [url] and [urlencoding], and containment orders them; so the theorems on
    policies and on the intersection of permissions hold of them.  The examples at the end
    evaluate them on file URLs. *)

From stdpp Require Import base list numbers strings.
From S2P Require Import Prelude StreamUtf8 CommandSafety Permissions PathUri PathUriSpec UrlModel Access PolicyTransforms.

#[local] Set Default Proof Using "Type*".
#[local] Arguments str : simpl never.

Section Instance_.
Context {Url : Type} {url_ops : UrlOps Url} {codecs : UriCodecs}.

#[global] Instance path_uri_view : PathUriView (PathUri Url) := {|
  path_uri_eqb := PathUri_eqb;
  infer_path_convention := PathUri_infer_path_convention;
  lexical_depth := PathUri_lexical_depth;
  path_uri_parent := PathUri_parent;
  path_uri_basename := PathUri_basename;
|}.

(** [join(..).ok()]. *)
Definition joined (r : checked (result PathUriParseError (PathUri Url))) : option (PathUri Url) :=
  match r with Returned r => result_ok r | Unreachable => None end.
#[global] Instance path_uri_tree : PathUriTree (PathUri Url) := {|
  uri_ancestors := PathUri_ancestors;
  uri_starts_with := PathUri_starts_with;
  uri_join p s := joined (PathUri_join p s);
  uri_join_descendant p s := joined (PathUri_join_descendant p s);
  uri_is_opaque := PathUri_is_opaque;
  decoded_path_bytes := PathUri_decoded_path_bytes;
  inferred_native_path_string := PathUri_inferred_native_path_string;
|}.

(** ** The laws *)
Context {url_laws : UrlLaws Url}.

Lemma root_lexical (p r : PathUri Url) :
  is_Some (PathUri_lexical_depth p) → root_of p r → is_Some (PathUri_lexical_depth r).
Proof.
  intros [d (Hb & _ & c & Hc & Hcont)%lexical_depth_Some] (_ & Hbr & _ & Hcr & _ & Hseg). rewrite Hc in Hcr, Hseg. cbn in Hseg.
  exists (length (nonempty_segments (uri_url r))). apply lexical_depth_Some. split_and!; [done..|]. exists c. split; [done|].
  apply no_separator_containment. rewrite Hseg. apply Forall_take. by eapply containment_no_separator.
Qed.

Lemma root_text (p r : PathUri Url) : uri_text p → root_of p r → uri_text r.
Proof.
  intros Ht%uri_text_nonempty (_ & _ & _ & _ & _ & Hseg). apply Forall_forall. intros s Hs. rewrite Forall_forall in Ht.
  destruct s as [|c s]; [unfold utf8_segment; by rewrite decode_nil|]. apply Ht.
  assert (c :: s ∈ nonempty_segments (uri_url r)) as Hin.
  { apply list_elem_of_In, List.filter_In. split; [by apply list_elem_of_In|done]. }
  rewrite Hseg in Hin. rewrite <- (take_drop (anchor_depth (default PosixPaths (PathUri_infer_path_convention p))) (nonempty_segments (uri_url p))).
  apply elem_of_app. by left.
Qed.

Lemma eqb_containment (a b p : PathUri Url) :
  uri_text a → uri_text b → uri_text p → PathUri_eqb a b = true → is_Some (PathUri_lexical_depth p) →
  is_Some (PathUri_lexical_depth a) → is_Some (PathUri_lexical_depth b) →
  PathUri_starts_with p a = PathUri_starts_with p b ∧ PathUri_starts_with a p = PathUri_starts_with b p.
Proof.
  intros Ta Tb Tp E Lp La Lb. apply eqb_same in E as [->|(Ca & Cb & Hh & Hk)]; [done|].
  split; apply Bool.eq_true_iff_eq; rewrite !starts_with_prefix, Hh, Ca, Cb by done.
  - split; intros (H1 & c & H2 & [= <-] & H3); (split; [done|]); exists WindowsPaths; [rewrite <- Hk|rewrite Hk]; done.
  - split; intros (H1 & c & [= <-] & H2 & H3); (split; [done|]); exists WindowsPaths; [rewrite <- Hk|rewrite Hk]; done.
Qed.

Lemma drive_decode d : is_windows_drive_uri_segment d = true → length (decode_binary d) = 2.
Proof.
  destruct d as [|c s]; [done|]. intros H. rewrite (decode_letter c s (drive_letter c s H)). cbn [length]. f_equal.
  destruct s as [|a [|b [|e [|]]]]; cbn in H; try done; rewrite !andb_true_iff in H.
  - destruct H as [_ ->%N.eqb_eq]. by rewrite decode_plain, decode_nil by done.
  - destruct H as [[[_ ->%N.eqb_eq] ->%N.eqb_eq] He]. apply orb_true_iff in He as [->%N.eqb_eq| ->%N.eqb_eq];
      by rewrite (decode_percent _ 58 []), decode_nil by done.
Qed.

(** [/tmp] joined to a POSIX path. *)
Lemma join_slash_tmp (cwd : PathUri Url) :
  PathUri_infer_path_convention cwd = Some PosixPaths →
  ∃ t, PathUri_join cwd (str "/tmp") = Returned (Ok t) ∧ PathUri_infer_path_convention t = Some PosixPaths ∧
    PathUri_lexical_depth t = Some 1 ∧ Url_host_str (uri_url t) = None ∧ uri_text t ∧ path_keys PosixPaths t = [encode (str "tmp")].
Proof.
  intros Hc. destruct parse_root as (u0 & Hu & Hs & Hcm & Hh & _).
  destruct (segments_push (Url_clear u0) (str "tmp")) as (e & He & Hseg); [by split_and!; [done..|repeat constructor; by apply (bool_decide_unpack _)]|].
  rewrite segments_clear, bool_decide_eq_true_2 in Hseg by done. set (v := Url_push (Url_clear u0) (str "tmp")) in *.
  assert (url_base v = url_base u0) as Hb by (by unfold v; rewrite base_push, base_clear).
  assert (nonempty_segments v = [e]) as Hne.
  { unfold nonempty_segments. rewrite Hseg. destruct e; [by rewrite decode_nil in He|done]. }
  assert (Forall (λ s, 0%N ∉ decode_binary s) (Url_path_segments v)) as Hz
    by (rewrite Hseg; repeat constructor; rewrite He; by apply (bool_decide_unpack _)).
  assert (decode_bad_path_uri v = None) as Hbad by (apply not_opaque; [by rewrite (scheme_base _ _ Hb)|by rewrite (common_base _ _ Hb)|done]).
  destruct (posix_of_shape (mkPathUri v)) as [Hcv Hdv]; [done|cbn; by rewrite (host_base _ _ Hb)| |].
  { cbn [uri_url]. rewrite Hne. cbn. apply not_true_iff_false. intros Hd%drive_decode. by rewrite He in Hd. }
  assert (uri_valid (mkPathUri v)) as Hv.
  { apply valid_of_segments; [by rewrite (scheme_base _ _ Hb)|by rewrite (common_base _ _ Hb)|done| |done]. by rewrite (host_base _ _ Hb), Hh. }
  assert (path_uri_from_segments PosixPaths None (split_on 47 (str "tmp")) = Some (mkPathUri v)) as Hp.
  { unfold path_uri_from_segments. rewrite Hu. cbn [result_ok mbind option_bind].
    change (foldl (normalize_segment PosixPaths) ([], 0, false) (split_on 47 (str "tmp"))) with ([str "tmp"], 1, false).
    change (result_ok (PathUri_try_from v) = Some (mkPathUri v)). by rewrite (try_from_id v Hv Hbad). }
  exists (mkPathUri v). split_and!.
  - unfold PathUri_join. change (bool_decide (0%N ∈ str "/tmp")) with false. rewrite Hc. cbv iota.
    change (is_empty (str "/tmp")) with false. cbv iota.
    unfold from_absolute_native_path, parse_posix_path. change (strip_prefix (str "/") (str "/tmp")) with (Some (str "tmp")). cbv iota.
    change (bool_decide (0%N ∈ str "tmp")) with false. cbv iota. rewrite Hp. cbn [mbind checked_bind uri_url].
    rewrite (host_base _ _ Hb), Hh, Hcv. done.
  - done.
  - apply lexical_depth_Some. cbn [uri_url]. rewrite Hne. split_and!; [done..|]. exists PosixPaths. split; [done|]. rewrite <- Hne. apply no_separator_containment.
    rewrite Hne. repeat constructor. unfold has_separator. by rewrite He.
  - cbn. by rewrite (host_base _ _ Hb).
  - unfold uri_text. cbn [uri_url]. rewrite Hseg. repeat constructor. unfold utf8_segment. by rewrite He.
  - unfold path_keys. cbn [uri_url]. rewrite Hne. cbn. by rewrite He.
Qed.

#[global] Instance path_uri_laws : PathUriLaws (PathUri Url).
Proof.
  refine {| uri_ok p := uri_valid p ∧ uri_text p |}.
  - intros cwd r [Hv Ht] Hlex Hr. pose proof Hlex as [d (Hb & _)%lexical_depth_Some].
    destruct (ancestors_from_last (S (length (Url_path_segments (uri_url cwd)))) cwd Hv Hb) as (r' & Hr' & Hroot); [lia|].
    change (last (ancestors_from (S (length (Url_path_segments (uri_url cwd)))) cwd) = Some r) in Hr. rewrite Hr in Hr'. injection Hr' as <-.
    split_and!; [apply Hroot|by apply (root_text cwd)|exact (root_lexical cwd r Hlex Hroot)|apply Hroot].
  - intros a d c Hp Hd Hc. cbn in Hp, Hc. apply lexical_depth_Some in Hd as (Hb & -> & _). unfold PathUri_parent in Hp. rewrite Hb, Hc in Hp.
    cbn in Hp. destruct (Nat.leb_spec (length (nonempty_segments (uri_url a))) (anchor_depth c)); [|done]. by destruct c.
  - intros a b [_ Ta] [_ Tb] E. destruct (eqb_depth a b E) as [->|[Hd Hb]]; [done|].
    split_and!; [done|apply eqb_same in E as [->|(Ca & Cb & _)]; [done|by transitivity (Some WindowsPaths)]|].
    intros p [_ Tp] Hp. apply eqb_containment; try done. by rewrite Hd.
  - intros cwd _ Hc _. destruct (join_slash_tmp cwd Hc) as (t & Ht & Hct & Hdt & Hh & Tt & Hk). exists t.
    split_and!; [cbn; by rewrite Ht|done..|]. intros p q [_ Tp] Hp [_ Tq] Hcq Hdq Hbase.
    apply lexical_depth_Some in Hdq as Hl. destruct Hl as (Hb & Hl & _). apply Bool.eq_true_iff_eq.
    change (PathUri_starts_with p q = true ↔ PathUri_starts_with p t = true). rewrite !starts_with_prefix; try done; [|by eexists..].
    assert (path_keys PosixPaths q = [encode (str "tmp")]) as Hkq.
    { change (PathUri_basename q = Some (str "tmp")) in Hbase. unfold PathUri_basename in Hbase. rewrite Hb in Hbase.
      destruct (nonempty_segments (uri_url q)) as [|s [|]] eqn:Es; try done. cbn in Hbase. injection Hbase as Hbase.
      unfold path_keys. rewrite Es. cbn. f_equal. rewrite <- Hbase. symmetry. apply decode_uri_text.
      pose proof (uri_text_nonempty q Tq) as H. rewrite Es in H. by inversion H. }
    change (PathUri_infer_path_convention q = Some PosixPaths) in Hcq. destruct (posix_shape q Hb Hcq) as [Hhq _].
    rewrite Hh, Hhq, Hct, Hcq. split; intros (H1 & c & H2 & [= <-] & H3); (split; [done|]); exists PosixPaths;
      [rewrite Hk, <- Hkq|rewrite Hkq, <- Hk]; done.
Defined.

(** ** The order *)
Lemma contained_iff (p b : PathUri Url) :
  uri_ok p → uri_ok b → is_Some (lexical_depth p) → is_Some (lexical_depth b) →
  uri_starts_with p b = true ↔
  Url_host_str (uri_url p) = Url_host_str (uri_url b) ∧
  ∃ c, PathUri_infer_path_convention p = Some c ∧ PathUri_infer_path_convention b = Some c ∧
       path_keys c b `prefix_of` path_keys c p.
Proof. intros [_ Tp] [_ Tb] Lp Lb. by apply starts_with_prefix. Qed.

#[global] Instance path_uri_order : PathUriOrder (PathUri Url).
Proof.
  split.
  - intros p b a Op Ob Oa Lp Lb La (Hh & c & Cp & Cb & Hpb)%contained_iff (Hh' & c' & Cb' & Ca & Hba)%contained_iff; try done.
    apply contained_iff; [done..|]. split; [congruence|].
    exists c. assert (c' = c) as -> by congruence. split_and!; [done..|]. by etrans.
  - intros p a b da db Op Oa Ob Lp Hda Hdb Hle
      (Hh & c & Cp & Ca & Hpa)%contained_iff (Hh' & c' & Cp' & Cb & Hpb)%contained_iff; try done; try (by eexists).
    apply contained_iff; [done|done|by eexists..|]. split; [congruence|].
    exists c. assert (c' = c) as -> by congruence. split_and!; [done..|].
    destruct (prefix_weak_total _ _ _ Hpa Hpb) as [?|Hba]; [done|].
    apply lexical_depth_Some in Hda as (_ & -> & _), Hdb as (_ & -> & _).
    rewrite (prefix_length_eq _ _ Hba); [done|]. unfold path_keys. by rewrite !length_map.
Qed.
End Instance_.

(** ** Examples *)
Definition uri (s : string) : PathUri FileUrl :=
  match PathUri_parse (str s) with Ok p => p | Err _ => mkPathUri (mkFileUrl None []) end.

Definition ok_check (p : PathUri FileUrl) : bool :=
  forallb (λ s, negb (bool_decide (0%N ∈ decode_binary s)) && is_ok (from_utf8 (decode_binary s))) (Url_path_segments (uri_url p)) &&
  negb (bool_decide (Url_host_str (uri_url p) = Some (str "localhost"))) && negb (unnormalized_drive (uri_url p)).
Lemma ok_check_valid p : ok_check p = true → uri_valid p ∧ uri_text p.
Proof.
  unfold ok_check. rewrite !andb_true_iff, !negb_true_iff, forallb_forall, bool_decide_eq_false. intros [[H1 H2] H3]. split.
  - split; [done..| |done|done]. intros _. apply Forall_forall. intros s Hs%list_elem_of_In%H1. apply andb_true_iff in Hs as [Hs _].
    apply negb_true_iff in Hs. by apply bool_decide_eq_false in Hs.
  - apply Forall_forall. intros s Hs%list_elem_of_In%H1. by apply andb_true_iff in Hs as [_ Hs].
Qed.

Lemma entries_check (p : FileSystemSandboxPolicy (PathUri FileUrl)) :
  forallb (λ e, match entry_path e with Path q => ok_check q | _ => true end) (sandbox_entries p) = true → entries_ok p.
Proof.
  rewrite forallb_forall. intros H e q He%list_elem_of_In%H Hq. rewrite Hq in He. by apply ok_check_valid.
Qed.

#[local] Abbreviation entry p a := (mkEntry p a None).

(** A policy whose narrowing entries are all overridden. *)
Definition overridden_policy : FileSystemSandboxPolicy (PathUri FileUrl) := mkSandboxPolicy Restricted None
  [entry (Path (uri "file:///src")) Read; entry (Special SlashTmp) Read; entry (Special Root) Write;
   entry (Path (uri "file:///tmp")) Write; entry (Path (uri "file:///src")) Write].
Definition home_context : FileSystemSandboxPolicyContext (PathUri FileUrl) :=
  mkContext (uri "file:///home/me") [uri "file:///home/me"] None None.

Lemma full_disk_write_sound_witness :
  resolve_access overridden_policy (uri "file:///tmp/x") home_context = Write.
Proof.
  apply (full_disk_write_sound overridden_policy home_context (uri "file:///tmp/x") PosixPaths (uri "file:///")).
  - done.
  - split.
    + apply ok_check_valid. by vm_compute.
    + apply ok_check_valid. by vm_compute.
    + apply entries_check. by vm_compute.
    + by vm_compute.
    + by vm_compute.
    + by vm_compute.
    + by vm_compute.
    + intros d _. apply Nat.le_0_l.
  - vm_compute. done.
  - apply (bool_decide_unpack _). vm_compute. done.
Defined.

(** A further grant whose path has an encoded separator makes a policy with write access to
    the whole disk deny everything. *)
Definition separator_policy : FileSystemSandboxPolicy (PathUri FileUrl) := mkSandboxPolicy Restricted None
  [entry (Special Root) Write; entry (Path (uri "file:///x%2Fy")) Write].
Example encoded_separator_denies_all :
  has_full_disk_write_access_with_context separator_policy home_context = true ∧
  resolve_access separator_policy (uri "file:///home/me/a") home_context = Deny.
Proof. split; vm_compute; reflexivity. Qed.

Lemma join_stays_below_root_witness :
  ∃ r, last (PathUri_ancestors (uri "file:///C:/a/b")) = Some r ∧ PathUri_starts_with (uri "file:///C:/x") r = true.
Proof.
  destruct (join_stays_below_root (uri "file:///C:/a/b") (uri "file:///C:/x") (str "..\..\..\x") WindowsPaths) as [H|[H _]].
  - apply ok_check_valid. vm_compute. done.
  - vm_compute. by eexists.
  - apply (bool_decide_unpack _). vm_compute. done.
  - vm_compute. done.
  - vm_compute. done.
  - vm_compute. done.
  - exact H.
  - discriminate H.
Defined.

(** A step up from [/a] and down to a directory [C:] leaves the root: the result is the
    drive of a Windows host. *)
Example join_drive_escapes_root :
  PathUri_join (uri "file:///a") (str "../C:/x") = Returned (Ok (uri "file:///C:/x")) ∧
  PathUri_infer_path_convention (uri "file:///C:/x") = Some WindowsPaths ∧
  PathUri_starts_with (uri "file:///C:/x") (uri "file:///") = false.
Proof. split_and!; vm_compute; reflexivity. Qed.

Lemma relative_path_roundtrip_witness :
  ∃ q, PathUri_join (uri "file:///a") (str "b c/d") = Returned (Ok q) ∧
       PathUri_starts_with q (uri "file:///a/b%20c/d") = true ∧ PathUri_starts_with (uri "file:///a/b%20c/d") q = true.
Proof.
  apply (relative_path_roundtrip (uri "file:///a/b%20c/d") (uri "file:///a") (str "b c/d")).
  - apply ok_check_valid. vm_compute. done.
  - apply ok_check_valid. vm_compute. done.
  - vm_compute. by eexists.
  - apply ok_check_valid. vm_compute. done.
  - apply ok_check_valid. vm_compute. done.
  - vm_compute. by eexists.
  - vm_compute. done.
  - vm_compute. done.
  - vm_compute. done.
  - apply (bool_decide_unpack _). vm_compute. done.
Defined.

Lemma starts_with_iff_prefix_witness :
  PathUri_starts_with (uri "file:///C:/Users/Me") (uri "file:///c:/users") = true ↔
  Url_host_str (uri_url (uri "file:///C:/Users/Me")) = Url_host_str (uri_url (uri "file:///c:/users")) ∧
  ∃ c, PathUri_infer_path_convention (uri "file:///C:/Users/Me") = Some c ∧ PathUri_infer_path_convention (uri "file:///c:/users") = Some c ∧
       path_keys c (uri "file:///c:/users") `prefix_of` path_keys c (uri "file:///C:/Users/Me").
Proof.
  apply (starts_with_iff_prefix (uri "file:///C:/Users/Me") (uri "file:///c:/users")).
  - apply ok_check_valid. vm_compute. done.
  - apply ok_check_valid. vm_compute. done.
  - vm_compute. by eexists.
  - vm_compute. by eexists.
Defined.

Lemma try_from_valid_witness :
  PathUri_try_from (mkFileUrl (Some (str "localhost")) [str "c:"; str "x"]) = Ok (uri "file:///C:/x") ∧
  Url_host_str (uri_url (uri "file:///C:/x")) = None ∧ unnormalized_drive (uri_url (uri "file:///C:/x")) = false.
Proof.
  assert (PathUri_try_from (mkFileUrl (Some (str "localhost")) [str "c:"; str "x"]) = Ok (uri "file:///C:/x")) as H
    by (vm_compute; reflexivity).
  destruct (proj2 (try_from_valid (mkFileUrl (Some (str "localhost")) [str "c:"; str "x"])) _ H) as (_ & _ & _ & Hh & Hd & _).
  split; [exact H|]. split; [exact Hh|]. apply Hd. exact Hh.
Defined.

(** Patterns that match the text before them. *)
#[local] Instance literal_globs : DenyGlobs := {|
  deny_glob_ok _ g := negb (starts_with (str "[") g);
  deny_glob_matches _ g bytes := bool_decide (bytes = encode g);
|}.
Definition denying_policy : FileSystemSandboxPolicy (PathUri FileUrl) := mkSandboxPolicy Restricted None
  [entry (Special Root) Read; entry (Path (uri "file:///secret")) Deny; entry (GlobPattern (str "keys")) Deny].

Lemma deny_reads_preserved_witness :
  ∃ prepared', matcher_from_context (preserve_deny_read_restrictions_from unrestricted_policy denying_policy) home_context = Some prepared' ∧
               is_read_denied_uri prepared' (uri "file:///home/me/keys") home_context = true.
Proof.
  destruct (matcher_from_context denying_policy home_context) as [prepared|] eqn:E; [|vm_compute in E; done].
  apply (deny_reads_preserved unrestricted_policy denying_policy home_context (uri "file:///home/me/keys") prepared).
  - apply ok_check_valid. by vm_compute.
  - apply ok_check_valid. by vm_compute.
  - apply entries_check. by vm_compute.
  - apply entries_check. by vm_compute.
  - exact E.
  - vm_compute in E. injection E as <-. by vm_compute.
Defined.

(** The denials of a policy are not carried over to one of an external sandbox. *)
Definition external_policy : FileSystemSandboxPolicy (PathUri FileUrl) := mkSandboxPolicy ExternalSandbox None [].
Example external_sandbox_drops_denials :
  preserve_deny_read_restrictions_from external_policy denying_policy = external_policy ∧
  matcher_from_context (preserve_deny_read_restrictions_from external_policy denying_policy) home_context = None.
Proof. split; vm_compute; reflexivity. Qed.

(** [Display] of a file URL. *)
#[local] Instance file_url_display : PathUriDisplay (PathUri FileUrl) := λ p,
  inferred_native_path_string p.

(** A request to write below [/a] and read [/b], of which writing below [/a] is granted,
    except for [/a/keys]. *)
#[local] Abbreviation permissions es := (mkAdditional (Some (mkNetworkPermissions (Some true))) (Some (mkFileSystemPermissions es None))).
Definition requested_permissions : AdditionalPermissionProfile (PathUri FileUrl) :=
  permissions [entry (Path (uri "file:///a")) Write; entry (Path (uri "file:///b")) Read].
Definition granted_permissions : AdditionalPermissionProfile (PathUri FileUrl) :=
  permissions [entry (Path (uri "file:///a")) Write; entry (Path (uri "file:///a/keys")) Deny; entry (Path (uri "file:///c")) Write].

Definition good_check (ctx : FileSystemSandboxPolicyContext (PathUri FileUrl)) (es : list (FileSystemSandboxEntry (PathUri FileUrl))) : bool :=
  forallb (λ e, forallb (λ m, ok_check m && bool_decide (is_Some (lexical_depth m))) (entry_roots ctx (entry_path e))) es.
Lemma good_check_entries ctx es : good_check ctx es = true → good_entries ctx es.
Proof.
  unfold good_check. rewrite forallb_forall. intros H. apply Forall_forall. intros e He%list_elem_of_In%H m Hm.
  rewrite forallb_forall in He. apply list_elem_of_In, He, andb_true_iff in Hm as [Hok Hd%bool_decide_eq_true].
  split; [by apply ok_check_valid|done].
Qed.


(** ** Where the code falls short *)
(** Only denials of the request narrow what is granted: a request to write [/a] but only
    read [/a/b], granted as writing [/a], allows to write [/a/b]. *)
#[local] Abbreviation access_of p path := (resolve_access (restricted_policy (permission_entries
  (default no_permissions (additional_file_system p)))) path home_context).
Definition narrowed_request : AdditionalPermissionProfile (PathUri FileUrl) :=
  permissions [entry (Path (uri "file:///a")) Write; entry (Path (uri "file:///a/b")) Read].
Definition plain_grant : AdditionalPermissionProfile (PathUri FileUrl) := permissions [entry (Path (uri "file:///a")) Write].
Example intersection_exceeds_request :
  access_of narrowed_request (uri "file:///a/b") = Read ∧
  access_of (intersect_permission_profiles_with_context narrowed_request plain_grant home_context) (uri "file:///a/b") = Write.
Proof. by vm_compute. Qed.

(** A grant that narrows [/a/b] to reading is dropped when a pattern of the request denies
    [/a/b] itself, and [/a/b/x], which the pattern does not match, can be written. *)
Definition pattern_request : AdditionalPermissionProfile (PathUri FileUrl) :=
  permissions [entry (Path (uri "file:///a")) Write; entry (GlobPattern (str "/a/b")) Deny].
Example intersection_exceeds_grant :
  access_of narrowed_request (uri "file:///a/b/x") = Read ∧
  access_of (intersect_permission_profiles_with_context pattern_request narrowed_request home_context) (uri "file:///a/b/x") = Write.
Proof. by vm_compute. Qed.

(** An empty segment counts for nothing in the depth but is dropped by [pop]: [../..] from
    [/a//b] stops at [/a], while from [/a/b] it reaches the root. *)
Example join_stops_at_empty_segment :
  PathUri_join (uri "file:///a//b") (str "../..") = Returned (Ok (uri "file:///a")) ∧
  PathUri_join (uri "file:///a/b") (str "../..") = Returned (Ok (uri "file:///")).
Proof. by vm_compute. Qed.

(** Equal URIs that do not contain the same paths: containment falls back to the spelling of
    segments that are not UTF-8, equality compares their bytes. *)
Example equal_uris_contain_differently :
  PathUri_eqb (uri "file:///C:/%FFa") (uri "file:///C:/%FF%61") = true ∧
  PathUri_starts_with (uri "file:///C:/%FFa/x") (uri "file:///C:/%FFa") = true ∧
  PathUri_starts_with (uri "file:///C:/%FFa/x") (uri "file:///C:/%FF%61") = false.
Proof. by vm_compute. Qed.

(** With a Windows host without a share as working directory, a share passes for the root:
    the policy counts as full write access, but paths of the share can only be read. *)
Definition share_policy : FileSystemSandboxPolicy (PathUri FileUrl) := mkSandboxPolicy Restricted None
  [entry (Special Root) Write; entry (Path (uri "file://server/share")) Read].
Definition server_context : FileSystemSandboxPolicyContext (PathUri FileUrl) :=
  mkContext (uri "file://server/") [] None None.
Example full_disk_write_on_server :
  has_same_target_write_override share_policy (entry (Path (uri "file://server/share")) Read) WindowsPaths = true ∧
  has_full_disk_write_access_with_context share_policy server_context = true ∧
  resolve_access share_policy (uri "file://server/share/x") server_context = Read.
Proof. by vm_compute. Qed.

(** Only the first protected directory that contains the path is considered, so the order
    of two writable roots decides whether the inner [.git] is protected. *)
Definition two_roots (first second : string) : FileSystemSandboxPolicy (PathUri FileUrl) := mkSandboxPolicy Restricted None
  [entry (Path (uri first)) Write; entry (Path (uri second)) Write].
Example metadata_protection_depends_on_order :
  can_write_path (two_roots "file:///a" "file:///a/.git/x") (uri "file:///a/.git/x/.git/config") home_context = true ∧
  can_write_path (two_roots "file:///a/.git/x" "file:///a") (uri "file:///a/.git/x/.git/config") home_context = false.
Proof. by vm_compute. Qed.
