(* ===== verification/RemoteProtocol.v ===== *)
(** * Remote control: envelopes

    The messages of [app-server-protocol/src/rpc.rs] and
    [app-server-transport/src/outgoing_message.rs], the envelopes of
    [app-server-transport/src/transport/remote_control/protocol.rs] that carry them over
    the remote control websocket, and the interface of the crates that put them on the
    wire: [serde_json] and [base64]. *)

From stdpp Require Import base list numbers gmap strings.
From Stdlib Require Import Strings.Byte.
From S2P Require Import Prelude Machine.

(** The payloads of messages, which the transport passes on without looking at them. *)
Class Payloads := {
  ServerRequest : Type;
  ServerNotificationEnvelope : Type;
  ClientResponsePayload : Type;
  Value : Type;
  W3cTraceContext : Type;
}.

Inductive RequestId :=
| RequestId_String (value : rstring)
| RequestId_Integer (value : Z).

Definition ConnectionId : Type := N.
(** Newtypes around a [String], transparent for [serde]. *)
Abbreviation ClientId := rstring.
Abbreviation StreamId := rstring.
Abbreviation StreamKey := (ClientId * StreamId)%type.

Section Messages.
Context `{!Payloads}.

Record JSONRPCErrorError := mkErrorError {
  error_code : Z;
  error_data : option Value;
  error_message : rstring;
}.

Record JSONRPCRequest := mkRequest {
  request_id : RequestId;
  request_method : rstring;
  request_params : option Value;
  request_trace : option W3cTraceContext;
}.

Record JSONRPCNotification := mkNotification {
  notification_method : rstring;
  notification_params : option Value;
}.

Record JSONRPCResponse := mkResponse { response_id : RequestId; response_result : Value }.
Record JSONRPCError := mkRpcError { rpc_error : JSONRPCErrorError; rpc_error_id : RequestId }.

Inductive JSONRPCMessage :=
| JSONRPCMessage_Request (r : JSONRPCRequest)
| JSONRPCMessage_Notification (n : JSONRPCNotification)
| JSONRPCMessage_Response (r : JSONRPCResponse)
| JSONRPCMessage_Error (e : JSONRPCError).

(** ** Outgoing messages *)
Record OutgoingResponse := mkOutgoingResponse {
  outgoing_response_id : RequestId;
  outgoing_result : ClientResponsePayload;
}.

Record OutgoingError := mkOutgoingError {
  outgoing_error : JSONRPCErrorError;
  outgoing_error_id : RequestId;
}.

Inductive OutgoingMessage :=
| OutgoingMessage_Request (r : ServerRequest)
| OutgoingMessage_AppServerNotification (n : ServerNotificationEnvelope)
| OutgoingMessage_Response (r : OutgoingResponse)
| OutgoingMessage_Error (e : OutgoingError).

(** ** Envelopes *)
Inductive ClientEvent :=
| ClientMessage (message : JSONRPCMessage)
| ClientMessageChunk (segment_id segment_count message_size_bytes : N)
    (message_chunk_base64 : rstring)
| ClientAck (segment_id : option N)
| Ping
| ClientClosed.

Record ClientEnvelope := mkClientEnvelope {
  client_event : ClientEvent;
  client_client_id : ClientId;
  client_stream_id : option StreamId;
  client_seq_id : option N;
  client_cursor : option rstring;
}.

Inductive PongStatus := PongStatus_Active | PongStatus_Unknown.

Inductive ServerEvent :=
| ServerMessage (message : OutgoingMessage)
| ServerMessageChunk (segment_id segment_count message_size_bytes : N)
    (message_chunk_base64 : rstring)
| ServerAck
| Pong (status : PongStatus).

Record ServerEnvelope := mkServerEnvelope {
  server_event : ServerEvent;
  server_client_id : ClientId;
  server_stream_id : StreamId;
  server_seq_id : N;
}.

Definition ServerEvent_segment_id (e : ServerEvent) : option N :=
  match e with
  | ServerMessageChunk segment_id _ _ _ => Some segment_id
  | ServerMessage _ | ServerAck | Pong _ => None
  end.

Definition INTERNAL_ERROR_CODE : Z := -32603.

(** The error that replaces a response that cannot be serialized; [err] is shown. *)
Definition response_serialization_error (request_id : RequestId) (err : rstring)
    : OutgoingMessage :=
  OutgoingMessage_Error (mkOutgoingError
    (mkErrorError INTERNAL_ERROR_CODE None (str "failed to serialize response: " ++ err))
    request_id).

(** A message that starts a connection is a request of the method [initialize]. *)
Definition remote_control_message_starts_connection (message : JSONRPCMessage) : bool :=
  match message with
  | JSONRPCMessage_Request r => str_eqb (request_method r) (str "initialize")
  | _ => false
  end.
End Messages.

(** ** The crates

    [serde_json] writes the same bytes whether it is asked for a vector, a string or a
    writer: [json_envelope] stands for [to_writer] and [to_string] of an envelope,
    [json_message] for [to_vec] of a message, [parse_message] for [from_slice].
    [decode_slice] is given the length of the output slice and returns the bytes that it
    writes to its beginning. *)
Inductive DecodeSliceError := DecodeError | OutputSliceTooSmall.

Class WireCrates `{!Payloads} := {
  JsonError : Type;
  json_error_text : JsonError → rstring;
  json_envelope : ServerEnvelope → result JsonError (list byte);
  json_message : OutgoingMessage → result JsonError (list byte);
  parse_message : list byte → option JSONRPCMessage;
  base64_encode : list byte → rstring;
  decoded_len_estimate : N → N;
  decode_slice : rstring → N → result DecodeSliceError (list byte);
}.

(** What the documentation of [base64] promises of its standard engine: encoded bytes
    decode to themselves when the output slice holds them, decoding writes no more than
    the slice holds, the estimate is not below the number of decoded bytes, and the
    encoding has four characters for three bytes, with padding. *)
Class WireLaws `{!Payloads} `{!WireCrates} : Prop := {
  decode_slice_encode bytes capacity :
    (len bytes ≤ capacity)%N → decode_slice (base64_encode bytes) capacity = Ok bytes;
  decode_slice_fits s capacity bytes :
    decode_slice s capacity = Ok bytes → (len bytes ≤ capacity)%N;
  decoded_len_estimate_enough bytes :
    (len bytes ≤ decoded_len_estimate (str_len (base64_encode bytes)))%N;
  base64_encode_len bytes : str_len (base64_encode bytes) = (4 * ((len bytes + 2) / 3))%N;
}.

(** A [HashMap] with client ids for keys. *)
Abbreviation client_map V :=
  (@gmap (list N) (@list_eq_dec N N.eq_dec) (@list_countable N N.eq_dec N_countable) V).

Abbreviation client_set :=
  (@gset (list N) (@list_eq_dec N N.eq_dec) (@list_countable N N.eq_dec N_countable)).

(** Iteration over a [HashMap]: the entries in an order that is not specified. *)
Class HashOrder := {
  hash_iter {K V : Type} `{Countable K} : gmap K V → list (K * V);
  hash_iter_perm {K V : Type} `{Countable K} (m : gmap K V) : hash_iter m ≡ₚ map_to_list m;
}.
