(* ===== verification/Segments.v ===== *)
(** * Remote control: segments of large messages

    [app-server-transport/src/transport/remote_control/segment.rs]: server envelopes
    that are too large for the wire are split into chunk envelopes, and the chunk
    envelopes of clients are put together again. *)

From stdpp Require Import base list numbers gmap strings.
From Stdlib Require Import Strings.Byte.
From S2P Require Import Prelude Machine RemoteProtocol.

#[local] Open Scope N_scope.

Definition REMOTE_CONTROL_SEGMENT_TARGET_BYTES : N := 100 * 1024.
Definition REMOTE_CONTROL_SEGMENT_MAX_BYTES : N := 150 * 1024.
Definition REMOTE_CONTROL_REASSEMBLED_MAX_BYTES : N := 100 * 1024 * 1024.
Definition REMOTE_CONTROL_SEGMENT_COUNT_MAX : N := 1024.
Definition REMOTE_CONTROL_SEGMENT_ASSEMBLY_MAX_COUNT : N := 128.

(** [usize::div_ceil], which panics for a divisor of zero. *)
Definition div_ceil (a b : N) : option N :=
  if b =? 0 then None else Some ((a + b - 1) / b).

(** [slice::chunks] for a positive size: every chunk has that size but for the last. *)
Fixpoint chunks_fuel {A} (fuel : nat) (size : nat) (l : list A) : list (list A) :=
  match fuel, l with
  | O, _ | _, [] => []
  | S fuel', _ => take size l :: chunks_fuel fuel' size (drop size l)
  end.
Definition chunks {A} (size : N) (l : list A) : list (list A) :=
  chunks_fuel (length l) (N.to_nat size) l.

(** [Iterator::enumerate] with indices of [usize]. *)
Definition enumerate {A} (l : list A) : list (N * A) := imap (λ i a, (N.of_nat i, a)) l.

Section Segments.
Context `{!Payloads} `{!WireCrates} `{!HashOrder}.

(** ** Splitting server envelopes *)
Inductive IoError :=
| IoError_other (e : JsonError)
| IoError_InvalidData (message : rstring).

(** [Display] of an [io::Error]: a wrapped error shows itself. *)
Definition io_error_text (e : IoError) : rstring :=
  match e with IoError_other e => json_error_text e | IoError_InvalidData m => m end.

Definition serialized_len (envelope : ServerEnvelope) : result IoError N :=
  match json_envelope envelope with
  | Ok bytes => Ok (len bytes)
  | Err e => Err (IoError_other e)
  end.

Definition build_chunk_envelope (envelope : ServerEnvelope)
    (segment_id segment_count message_size_bytes : N) (chunk : list byte)
    : result IoError ServerEnvelope :=
  if REMOTE_CONTROL_SEGMENT_COUNT_MAX <? segment_count then
    Err (IoError_InvalidData (str "remote-control segment count exceeds maximum"))
  else
    Ok (mkServerEnvelope
          (ServerMessageChunk segment_id segment_count message_size_bytes (base64_encode chunk))
          (server_client_id envelope) (server_stream_id envelope) (server_seq_id envelope)).

Definition serialized_chunk_len (envelope : ServerEnvelope)
    (segment_id segment_count message_size_bytes : N) (chunk : list byte) : result IoError N :=
  chunk_envelope ← build_chunk_envelope envelope segment_id segment_count message_size_bytes chunk;
  serialized_len chunk_envelope.

(** The test of one segment of a round: [is_ok_and(|size| size <= MAX)]. *)
Definition segment_fits (envelope : ServerEnvelope) (segment_count message_size_bytes : N)
    (seg : N * list byte) : bool :=
  match serialized_chunk_len envelope seg.1 segment_count message_size_bytes seg.2 with
  | Ok size => size <=? REMOTE_CONTROL_SEGMENT_MAX_BYTES
  | Err _ => false
  end.

(** The loop over the number of segments. [None] is a division by zero, or the end of
    the fuel. *)
Fixpoint segment_loop (fuel : nat) (envelope : ServerEnvelope) (raw : list byte)
    (message_size_bytes segment_count : N) : option (result IoError (list ServerEnvelope)) :=
  match fuel with
  | O => None
  | S fuel' =>
      q ← div_ceil message_size_bytes segment_count;
      let chunk_size := 1 `max` q in
      segment_count ← div_ceil message_size_bytes chunk_size;
      let segments := enumerate (chunks chunk_size raw) in
      if forallb (segment_fits envelope segment_count message_size_bytes) segments then
        Some (collect (λ seg, build_chunk_envelope envelope seg.1 segment_count
                                message_size_bytes seg.2) segments)
      else if chunk_size =? 1 then Some (Ok [])
      else
        let next_segment_count := segment_count + 1 in
        q ← div_ceil message_size_bytes next_segment_count;
        let next_chunk_size := 1 `max` q in
        segment_loop fuel' envelope raw message_size_bytes
          (if next_chunk_size =? chunk_size then message_size_bytes else next_segment_count)
  end.

(** The part for a message that is too large for one envelope. *)
Definition split_message (envelope : ServerEnvelope) (message : OutgoingMessage)
    : option (result IoError (list ServerEnvelope)) :=
  match json_message message with
  | Err e => Some (Err (IoError_other e))
  | Ok raw =>
      let message_size_bytes := len raw in
      if REMOTE_CONTROL_REASSEMBLED_MAX_BYTES <? message_size_bytes then Some (Ok [])
      else
        let minimal_segment_count :=
          (message_size_bytes `max` 1) `min` REMOTE_CONTROL_SEGMENT_COUNT_MAX in
        let minimal_chunk := take 1 raw in
        match serialized_chunk_len envelope 0 minimal_segment_count message_size_bytes
                minimal_chunk with
        | Err e => Some (Err e)
        | Ok size =>
            if REMOTE_CONTROL_SEGMENT_MAX_BYTES <? size then Some (Ok [])
            else
              q ← div_ceil message_size_bytes REMOTE_CONTROL_SEGMENT_TARGET_BYTES;
              segment_loop (S (N.to_nat message_size_bytes)) envelope raw message_size_bytes (2 `max` q)
        end
  end.

Definition split_server_envelope_for_transport (envelope : ServerEnvelope)
    : option (result IoError (list ServerEnvelope)) :=
  match server_event envelope with
  | ServerMessage message =>
      match serialized_len envelope with
      | Err err =>
          Some match message with
               | OutgoingMessage_Response response =>
                   Ok [mkServerEnvelope
                         (ServerMessage (response_serialization_error
                            (outgoing_response_id response) (io_error_text err)))
                         (server_client_id envelope) (server_stream_id envelope)
                         (server_seq_id envelope)]
               | _ => Err err
               end
      | Ok envelope_size_bytes =>
          if envelope_size_bytes <=? REMOTE_CONTROL_SEGMENT_MAX_BYTES then Some (Ok [envelope])
          else split_message envelope message
      end
  | _ => Some (Ok [envelope])
  end.

(** ** Reassembling client messages *)
Record ClientSegmentMetadata := mkMetadata {
  seq_id : N;
  segment_count : N;
  message_size_bytes : N;
}.

#[global] Instance metadata_eq_dec : EqDecision ClientSegmentMetadata.
Proof. solve_decision. Defined.

Record ClientSegmentAssembly := mkAssembly {
  assembly_stream_id : StreamId;
  metadata : ClientSegmentMetadata;
  raw : list byte;
  next_segment_id : N;
  last_chunk_seen_at : N;
}.

(** [ClientSegmentReassembler] is its map of assemblies. *)
Abbreviation ClientSegmentReassembler := (client_map ClientSegmentAssembly).

Inductive ClientSegmentObservation :=
| Forward (envelope : ClientEnvelope)
| Pending
| Dropped.

Inductive AssemblyUpdate :=
| AssemblyUpdate_Pending
| AssemblyUpdate_Ignore
| AssemblyUpdate_Drop
| AssemblyUpdate_Complete (message : JSONRPCMessage).

Definition from_envelope (envelope : ClientEnvelope) : option ClientSegmentMetadata :=
  match client_event envelope with
  | ClientMessageChunk _ segment_count message_size_bytes _ =>
      seq_id ← client_seq_id envelope;
      Some (mkMetadata seq_id segment_count message_size_bytes)
  | _ => None
  end.

Definition should_ignore_chunk (assemblies : ClientSegmentReassembler) (client_id : ClientId)
    (stream_id : StreamId) (sq segment_id : N) : bool :=
  is_some_and (assemblies !! client_id) (λ assembly,
    str_eqb (assembly_stream_id assembly) stream_id &&
    ((sq <? seq_id (metadata assembly)) ||
     ((sq =? seq_id (metadata assembly)) && (segment_id <? next_segment_id assembly)))).

Definition remove_assembly (client_id : ClientId) (stream_id : StreamId)
    (assemblies : ClientSegmentReassembler) : ClientSegmentReassembler :=
  if is_some_and (assemblies !! client_id)
       (λ assembly, str_eqb (assembly_stream_id assembly) stream_id)
  then delete client_id assemblies else assemblies.

Definition invalidate_stream (client_id : ClientId) (stream_id : StreamId)
    : ClientSegmentReassembler → ClientSegmentReassembler :=
  remove_assembly client_id stream_id.

Definition invalidate_client (client_id : ClientId)
    : ClientSegmentReassembler → ClientSegmentReassembler := delete client_id.

(** [Iterator::min_by_key]: the first of the smallest elements. *)
Fixpoint min_by_key {A} (key : A → N) (l : list A) : option A :=
  match l with
  | [] => None
  | a :: l' =>
      match min_by_key key l' with
      | Some b => Some (if key b <? key a then b else a)
      | None => Some a
      end
  end.

(** One round of the eviction removes the assembly whose last chunk is the oldest. *)
Fixpoint evict_loop (fuel : nat) (assemblies : ClientSegmentReassembler)
    : ClientSegmentReassembler :=
  match fuel with
  | O => assemblies
  | S fuel' =>
      if N.of_nat (size assemblies) <? REMOTE_CONTROL_SEGMENT_ASSEMBLY_MAX_COUNT then assemblies
      else
        match min_by_key (λ '(_, assembly), last_chunk_seen_at assembly) (hash_iter assemblies) with
        | None => assemblies
        | Some (client_id, _) => evict_loop fuel' (delete client_id assemblies)
        end
  end.

(** Every round removes an assembly: there are at most as many rounds as assemblies. *)
Definition evict_assemblies_if_full (assemblies : ClientSegmentReassembler)
    : ClientSegmentReassembler := evict_loop (size assemblies) assemblies.

Definition new_assembly (stream_id : StreamId) (m : ClientSegmentMetadata) (now : N)
    : ClientSegmentAssembly := mkAssembly stream_id m [] 0 now.

(** The assembly that a chunk belongs to is there after this: a change of the stream
    replaces it, and a new one makes room first. *)
Definition ensure_assembly (client_id : ClientId) (stream_id : StreamId)
    (m : ClientSegmentMetadata) (now : N) (assemblies : ClientSegmentReassembler)
    : ClientSegmentReassembler :=
  match assemblies !! client_id with
  | Some assembly =>
      if negb (str_eqb (assembly_stream_id assembly) stream_id)
      then <[client_id := new_assembly stream_id m now]> assemblies
      else assemblies
  | None => <[client_id := new_assembly stream_id m now]> (evict_assemblies_if_full assemblies)
  end.

(** The branch of the next chunk in order. The vector is resized to hold the decoded
    chunk within the size of the message, and cut back to what was decoded; indexing it
    from [chunk_start] panics when the resizing made it shorter than that. The bytes
    after an error are not kept: the assembly is dropped. *)
Definition append_chunk (assembly : ClientSegmentAssembly)
    (segment_count message_size_bytes : N) (message_chunk_base64 : rstring) (now : N)
    : option (ClientSegmentAssembly * AssemblyUpdate) :=
  let assembly := mkAssembly (assembly_stream_id assembly) (metadata assembly) (raw assembly)
                    (next_segment_id assembly) now in
  let chunk_start := len (raw assembly) in
  let decoded_chunk_len := decoded_len_estimate (str_len message_chunk_base64) in
  let chunk_end := message_size_bytes `min` sat_add USIZE_MAX chunk_start decoded_chunk_len in
  if chunk_end <? chunk_start then None
  else
    match decode_slice message_chunk_base64 (chunk_end - chunk_start) with
    | Ok bytes =>
        let assembly :=
          mkAssembly (assembly_stream_id assembly) (metadata assembly) (raw assembly ++ bytes)
            (next_segment_id assembly + 1) now in
        Some (assembly,
              if next_segment_id assembly <? segment_count then AssemblyUpdate_Pending
              else if negb (len (raw assembly) =? message_size_bytes) then AssemblyUpdate_Drop
              else match parse_message (raw assembly) with
                   | Some message => AssemblyUpdate_Complete message
                   | None => AssemblyUpdate_Drop
                   end)
    | Err OutputSliceTooSmall => Some (assembly, AssemblyUpdate_Drop)
    | Err _ => Some (assembly, AssemblyUpdate_Drop)
    end.

Definition update_assembly (assembly : ClientSegmentAssembly) (m : ClientSegmentMetadata)
    (segment_id : N) (message_chunk_base64 : rstring) (now : N)
    : option (ClientSegmentAssembly * AssemblyUpdate) :=
  if seq_id m <? seq_id (metadata assembly) then Some (assembly, AssemblyUpdate_Ignore)
  else if negb (bool_decide (metadata assembly = m)) then Some (assembly, AssemblyUpdate_Drop)
  else if segment_id <? next_segment_id assembly then Some (assembly, AssemblyUpdate_Pending)
  else if negb (segment_id =? next_segment_id assembly) then Some (assembly, AssemblyUpdate_Drop)
  else append_chunk assembly (segment_count m) (message_size_bytes m) message_chunk_base64 now.

Definition invalid_chunk (segment_id segment_count message_size_bytes : N)
    (message_chunk_base64 : rstring) : bool :=
  (segment_count =? 0)
  || (REMOTE_CONTROL_SEGMENT_COUNT_MAX <? segment_count)
  || (segment_count <=? segment_id)
  || (message_size_bytes =? 0)
  || (REMOTE_CONTROL_REASSEMBLED_MAX_BYTES <? message_size_bytes)
  || is_empty message_chunk_base64.

(** [observe] at the time [now]; [None] is a panic. *)
Definition observe (now : N) (assemblies : ClientSegmentReassembler) (envelope : ClientEnvelope)
    : option (ClientSegmentReassembler * ClientSegmentObservation) :=
  match client_event envelope with
  | ClientMessageChunk segment_id segment_count message_size_bytes message_chunk_base64 =>
      match from_envelope envelope, client_stream_id envelope with
      | None, _ | _, None => Some (assemblies, Dropped)
      | Some m, Some stream_id =>
          let client_id := client_client_id envelope in
          if should_ignore_chunk assemblies client_id stream_id (seq_id m) segment_id then
            Some (assemblies, Dropped)
          else if invalid_chunk segment_id segment_count message_size_bytes message_chunk_base64 then
            Some (remove_assembly client_id stream_id assemblies, Dropped)
          else
            let assemblies := ensure_assembly client_id stream_id m now assemblies in
            match assemblies !! client_id with
            | None => Some (assemblies, Dropped)
            | Some assembly =>
                '(assembly, update) ←
                  update_assembly assembly m segment_id message_chunk_base64 now;
                let assemblies := <[client_id := assembly]> assemblies in
                Some match update with
                     | AssemblyUpdate_Pending => (assemblies, Pending)
                     | AssemblyUpdate_Ignore => (assemblies, Dropped)
                     | AssemblyUpdate_Drop =>
                         (remove_assembly client_id stream_id assemblies, Dropped)
                     | AssemblyUpdate_Complete message =>
                         (remove_assembly client_id stream_id assemblies,
                          Forward (mkClientEnvelope (ClientMessage message) client_id
                            (client_stream_id envelope) (client_seq_id envelope)
                            (client_cursor envelope)))
                     end
            end
      end
  | _ => Some (assemblies, Forward envelope)
  end.
End Segments.
