(* ===== verification/SegmentsSpec.v ===== *)
(** * Remote control: segments carry the message

    Properties of [Segments.v]: splitting always returns, what it returns carries the
    whole message in envelopes within the size of the wire, reassembling is bounded and
    never panics, and the chunks of a message put it together again. *)

From stdpp Require Import base list numbers gmap strings.
From Stdlib Require Import Strings.Byte.
From S2P Require Import Prelude Machine RemoteProtocol Segments.

#[local] Set Default Proof Using "Type*".
#[local] Open Scope N_scope.

(** ** Chunks *)
Lemma div_ceil_pos a b : 0 < b → div_ceil a b = Some ((a + b - 1) / b).
Proof. intros Hb. unfold div_ceil. destruct (N.eqb_spec b 0); [lia|done]. Qed.

Lemma chunks_fuel_concat {A} fuel size (l : list A) :
  (length l ≤ fuel)%nat → (0 < size)%nat → concat (chunks_fuel fuel size l) = l.
Proof.
  revert l. induction fuel as [|fuel IH]; intros [|a l] Hl Hs; simpl in *; try done; [lia|].
  rewrite IH; [|rewrite length_drop; simpl; lia|done]. destruct size; [lia|].
  simpl. by rewrite take_drop.
Qed.

Lemma chunks_fuel_sizes {A} fuel size (l : list A) :
  (0 < size)%nat → Forall (λ c, c ≠ [] ∧ (length c ≤ size)%nat) (chunks_fuel fuel size l).
Proof.
  intros Hs. revert l. induction fuel as [|fuel IH]; intros [|a l]; simpl; try done.
  constructor; [|apply IH]. destruct size; [lia|]. simpl. split; [done|].
  rewrite length_take. lia.
Qed.

Lemma chunks_fuel_length {A} fuel size (l : list A) :
  (length l ≤ fuel)%nat → 0 < size →
  len (chunks_fuel fuel (N.to_nat size) l) = (len l + size - 1) / size.
Proof.
  intros Hl Hs. revert l Hl. induction fuel as [|fuel IH]; intros [|a l] Hl; simpl in Hl; try lia.
  1,2: symmetry; apply N.div_small; unfold len; simpl; lia.
  cbn [chunks_fuel]. set (l' := a :: l) in *.
  change (len (?x :: ?y)) with (N.of_nat (S (length y))). rewrite Nat2N.inj_succ.
  fold (len (chunks_fuel fuel (N.to_nat size) (drop (N.to_nat size) l'))).
  assert (Hlen : length l' = S (length l)) by done.
  rewrite IH by (rewrite length_drop; lia).
  assert (Hd : len (drop (N.to_nat size) l') = len l' - size)
    by (unfold len; rewrite length_drop; lia).
  rewrite Hd. assert (0 < len l') by (unfold len; lia).
  destruct (N.le_gt_cases size (len l')) as [Hle|Hgt].
  - replace (len l' + size - 1) with ((len l' - size + size - 1) + 1 * size) by lia.
    rewrite N.div_add by lia. lia.
  - replace (len l' - size) with 0 by lia. rewrite (N.div_small (0 + size - 1)) by lia.
    apply (N.div_unique _ _ _ (len l' - 1)); lia.
Qed.

Lemma chunks_concat {A} size (l : list A) : 0 < size → concat (chunks size l) = l.
Proof. intros. apply chunks_fuel_concat; lia. Qed.

Lemma chunks_sizes {A} size (l : list A) :
  0 < size → Forall (λ c, c ≠ [] ∧ len c ≤ size) (chunks size l).
Proof.
  intros Hs. eapply Forall_impl; [apply chunks_fuel_sizes; lia|].
  intros c [Hc Hlen]. split; [done|]. unfold len. lia.
Qed.

Lemma chunks_length {A} size (l : list A) :
  0 < size → len (chunks size l) = (len l + size - 1) / size.
Proof. intros. by apply chunks_fuel_length. Qed.

(** [⌈m / b⌉ ≤ c] says that [c] chunks of [b] hold [m]. *)
Lemma ceil_le m b c : 0 < b → (m + b - 1) / b ≤ c ↔ m ≤ b * c.
Proof.
  intros Hb. pose proof (N.Div0.div_mod (m + b - 1) b) as Hd.
  pose proof (N.mod_lt (m + b - 1) b ltac:(lia)) as Hm.
  set (q := (m + b - 1) / b) in *. set (r := (m + b - 1) mod b) in *. split; intros H; nia.
Qed.

Lemma ceil_self m : 0 < m → (m + m - 1) / m = 1.
Proof. intros. symmetry. apply (N.div_unique _ _ _ (m - 1)); lia. Qed.

Section Spec.
Context `{!Payloads} `{!WireCrates} `{!HashOrder}.

(** ** What splitting returns *)

(** An envelope that the wire takes: it serializes within the limit. *)
Definition fits_wire (e : ServerEnvelope) : Prop :=
  ∃ bytes, json_envelope e = Ok bytes ∧ len bytes ≤ REMOTE_CONTROL_SEGMENT_MAX_BYTES.

Definition chunk_envelope (envelope : ServerEnvelope) (count size : N) (i : nat)
    (c : list byte) : ServerEnvelope :=
  mkServerEnvelope (ServerMessageChunk (N.of_nat i) count size (base64_encode c))
    (server_client_id envelope) (server_stream_id envelope) (server_seq_id envelope).

(** The envelopes carry the bytes: they hold, in order and numbered from zero, chunks
    that are the bytes when put together, and every one fits. *)
Definition carries (envelope : ServerEnvelope) (raw : list byte) (envs : list ServerEnvelope)
    : Prop :=
  ∃ cs, concat cs = raw ∧ Forall (λ c, c ≠ []) cs ∧ len cs ≤ REMOTE_CONTROL_SEGMENT_COUNT_MAX ∧
    envs = imap (chunk_envelope envelope (len cs) (len raw)) cs ∧ Forall fits_wire envs.

Lemma segment_fits_true envelope count size i c :
  segment_fits envelope count size (N.of_nat i, c) = true →
  count ≤ REMOTE_CONTROL_SEGMENT_COUNT_MAX ∧
  build_chunk_envelope envelope (N.of_nat i) count size c = Ok (chunk_envelope envelope count size i c) ∧
  fits_wire (chunk_envelope envelope count size i c).
Proof.
  unfold segment_fits, serialized_chunk_len, build_chunk_envelope. cbn [fst snd].
  destruct (N.ltb_spec REMOTE_CONTROL_SEGMENT_COUNT_MAX count) as [?|Hc]; [done|].
  cbn [mbind result_bind]. unfold serialized_len.
  destruct (json_envelope _) as [bytes|] eqn:Hj; [|done]. intros Hfit%N.leb_le.
  split_and!; [done..|]. by exists bytes.
Qed.

Lemma collect_segments envelope count size cs k :
  (∀ i c, cs !! i = Some c → segment_fits envelope count size (N.of_nat (k + i), c) = true) →
  collect (λ seg, build_chunk_envelope envelope seg.1 count size seg.2)
    (imap (λ i a, (N.of_nat (k + i), a)) cs)
  = Ok (imap (λ i, chunk_envelope envelope count size (k + i)) cs) ∧
  Forall fits_wire (imap (λ i, chunk_envelope envelope count size (k + i)) cs).
Proof.
  revert k. induction cs as [|c cs IH]; intros k Hfit; [by split|].
  rewrite !imap_cons. cbn [collect fst snd].
  destruct (segment_fits_true envelope count size (k + 0) c) as (_ & Hb & Hw); [by apply Hfit|].
  destruct (IH (S k)) as [Hc Hall].
  { intros i c' Hi. replace (S k + i)%nat with (k + S i)%nat by lia. by apply Hfit. }
  rewrite Hb. cbn [mbind result_bind].
  erewrite (imap_ext _ (λ i a, (N.of_nat (S k + i), a)) cs), Hc by
    (intros; simpl; do 2 f_equal; lia).
  cbn [mbind result_bind]. split; [f_equal; f_equal|constructor; [done|]].
  - apply imap_ext. intros; simpl. f_equal. lia.
  - erewrite imap_ext; [exact Hall|]. intros; simpl. f_equal. lia.
Qed.

(** One round of the loop that fits returns envelopes that carry the message. *)
Lemma fitting_round envelope (raw : list byte) size :
  0 < size →
  forallb (segment_fits envelope (len (chunks size raw)) (len raw))
    (enumerate (chunks size raw)) = true →
  ∃ envs, collect (λ seg, build_chunk_envelope envelope seg.1 (len (chunks size raw)) (len raw) seg.2)
      (enumerate (chunks size raw)) = Ok envs ∧ carries envelope raw envs.
Proof.
  intros Hs Hall. rewrite forallb_forall in Hall.
  assert (Hfit : ∀ i c, chunks size raw !! i = Some c →
    segment_fits envelope (len (chunks size raw)) (len raw) (N.of_nat (0 + i), c) = true).
  { intros i c Hi. apply Hall, list_elem_of_In, list_elem_of_lookup. exists i.
    unfold enumerate. by rewrite list_lookup_imap, Hi. }
  destruct (collect_segments envelope _ (len raw) _ 0 Hfit) as [Hc Hw].
  eexists. split; [exact Hc|]. exists (chunks size raw). split_and!; [by apply chunks_concat| | |done..].
  - eapply Forall_impl; [by apply chunks_sizes|]. by intros c [? _].
  - destruct (chunks size raw) as [|c cs] eqn:Hcs; [done|]. rewrite <- Hcs in *.
    eapply segment_fits_true, (Hfit 0%nat c). by rewrite Hcs.
Qed.

(** The size of the chunks falls with every round of the loop. *)
Lemma segment_loop_returns fuel envelope (raw : list byte) count :
  0 < count → 1 `max` ((len raw + count - 1) / count) ≤ N.of_nat fuel →
  ∃ r, segment_loop fuel envelope raw (len raw) count = Some r ∧
    (r = Ok [] ∨ ∃ envs, r = Ok envs ∧ carries envelope raw envs).
Proof.
  revert count. induction fuel as [|fuel IH]; intros count Hc Hf; [lia|].
  cbn [segment_loop]. rewrite div_ceil_pos by done. cbn [mbind option_bind].
  set (q := (len raw + count - 1) / count) in *. set (size := 1 `max` q).
  rewrite (div_ceil_pos _ size) by lia. cbn [mbind option_bind]. cbv zeta.
  rewrite <- (chunks_length size raw) by lia.
  destruct (forallb _ _) eqn:Hfit.
  { apply fitting_round in Hfit as (envs & Hcol & Hcarry); [|lia]. rewrite Hcol.
    eexists. split; [done|]. right. by exists envs. }
  destruct (N.eqb_spec size 1) as [?|Hsize]; [eexists; split; [done|by left]|].
  rewrite div_ceil_pos by lia. cbn [mbind option_bind].
  set (k := len (chunks size raw)) in *.
  assert (Hk : len raw ≤ size * k).
  { apply ceil_le; [lia|]. unfold k. by rewrite chunks_length by lia. }
  assert (Hm : 1 < len raw).
  { unfold q, size in *. destruct (N.le_gt_cases (len raw) 1) as [?|?]; [|done].
    assert ((len raw + count - 1) / count ≤ 1) by (apply ceil_le; nia). lia. }
  destruct (N.eqb_spec (1 `max` ((len raw + (k + 1) - 1) / (k + 1))) size) as [Heq|Hne].
  - apply IH; [lia|]. rewrite ceil_self; lia.
  - assert ((len raw + (k + 1) - 1) / (k + 1) ≤ size) by (apply ceil_le; nia).
    apply IH; lia.
Qed.

(** The results of splitting an envelope: it is passed on, sent whole, answered with an
    error, refused because something cannot be serialized, dropped, or segmented. *)
Inductive split_outcome (envelope : ServerEnvelope) : result IoError (list ServerEnvelope) → Prop :=
| passed_on :
    (∀ message, server_event envelope ≠ ServerMessage message) → split_outcome envelope (Ok [envelope])
| sent_whole message :
    server_event envelope = ServerMessage message → fits_wire envelope →
    split_outcome envelope (Ok [envelope])
| answered_with_error response e :
    server_event envelope = ServerMessage (OutgoingMessage_Response response) →
    json_envelope envelope = Err e →
    split_outcome envelope (Ok [mkServerEnvelope
      (ServerMessage (response_serialization_error (outgoing_response_id response) (json_error_text e)))
      (server_client_id envelope) (server_stream_id envelope) (server_seq_id envelope)])
| not_serialized message e :
    server_event envelope = ServerMessage message →
    json_envelope envelope = Err e ∨ json_message message = Err e ∨
    (∃ count size c, json_envelope (chunk_envelope envelope count size 0 c) = Err e) →
    split_outcome envelope (Err (IoError_other e))
| dropped message raw :
    server_event envelope = ServerMessage message → json_message message = Ok raw →
    ¬ fits_wire envelope → split_outcome envelope (Ok [])
| segmented message raw envs :
    server_event envelope = ServerMessage message → json_message message = Ok raw →
    ¬ fits_wire envelope → carries envelope raw envs → split_outcome envelope (Ok envs).

(** The first chunk is built: its number of segments is within the limit. *)
Lemma minimal_chunk_len envelope m size (c : list byte) :
  serialized_chunk_len envelope 0 (m `min` REMOTE_CONTROL_SEGMENT_COUNT_MAX) size c =
  serialized_len (chunk_envelope envelope (m `min` REMOTE_CONTROL_SEGMENT_COUNT_MAX) size 0 c).
Proof.
  unfold serialized_chunk_len, build_chunk_envelope.
  destruct (N.ltb_spec REMOTE_CONTROL_SEGMENT_COUNT_MAX (m `min` REMOTE_CONTROL_SEGMENT_COUNT_MAX));
    [lia|done].
Qed.

Lemma split_message_outcome envelope message :
  server_event envelope = ServerMessage message → ¬ fits_wire envelope →
  ∃ r, split_message envelope message = Some r ∧ split_outcome envelope r.
Proof.
  intros He Hbig. unfold split_message.
  destruct (json_message message) as [raw|e] eqn:Hj.
  2:{ eexists. split; [done|]. eapply not_serialized; [done|]. by right; left. }
  pose proof (dropped envelope message raw He Hj Hbig) as Hdrop.
  cbv zeta. destruct (N.ltb_spec REMOTE_CONTROL_REASSEMBLED_MAX_BYTES (len raw)); [by eauto|].
  rewrite minimal_chunk_len. unfold serialized_len.
  destruct (json_envelope (chunk_envelope _ _ _ _ _)) as [bytes|e] eqn:Hc.
  2:{ eexists. split; [done|]. eapply not_serialized; [done|]. right. right. by eauto. }
  destruct (N.ltb _ (len bytes)); [by eauto|].
  rewrite div_ceil_pos by done. cbn [mbind option_bind].
  match goal with |- context [segment_loop _ _ _ _ ?c] =>
    destruct (segment_loop_returns (S (N.to_nat (len raw))) envelope raw c) as (r & -> & Hr); [lia| |] end.
  - apply N.max_lub; [lia|]. apply ceil_le; nia.
  - eexists. split; [done|]. destruct Hr as [->|(envs & -> & Hcarry)]; [done|].
    by eapply segmented.
Qed.

Lemma split_returns_outcome envelope :
  ∃ r, split_server_envelope_for_transport envelope = Some r ∧ split_outcome envelope r.
Proof.
  unfold split_server_envelope_for_transport.
  destruct (server_event envelope) as [message| | |] eqn:He;
    try (eexists; split; [done|]; apply passed_on; by rewrite He).
  destruct (json_envelope envelope) as [bytes|e] eqn:Hj; unfold serialized_len; rewrite Hj.
  - destruct (N.leb_spec (len bytes) REMOTE_CONTROL_SEGMENT_MAX_BYTES) as [Hle|Hgt].
    + eexists. split; [done|]. eapply sent_whole; [done|]. by exists bytes.
    + apply split_message_outcome; [done|]. intros (bytes' & Hj' & Hle').
      rewrite Hj in Hj'. injection Hj' as <-. lia.
  - eexists. split; [done|]. destruct message as [| |response|].
    1,2,4: eapply not_serialized; [done|by left].
    by eapply answered_with_error.
Qed.

(** C29: Splitting a server envelope always returns, and when it is split, the segments
    carry the whole message: their chunks, numbered in order, are the bytes of the
    message, they are at most 1024, and every one is within the limit of the wire. *)
Theorem split_returns envelope :
  ∃ r, split_server_envelope_for_transport envelope = Some r ∧ split_outcome envelope r.
Proof. apply split_returns_outcome. Qed.

(** ** Large messages are sent *)
Context `{!WireLaws}.

Lemma base64_len_mono (c : list byte) size :
  len c ≤ size → str_len (base64_encode c) ≤ 4 * ((size + 2) / 3).
Proof.
  intros. rewrite base64_encode_len. apply N.mul_le_mono_l. apply N.Div0.div_le_mono. lia.
Qed.

(** The fields of a chunk envelope besides its chunk take at most this. *)
Definition overhead_within (envelope : ServerEnvelope) (raw : list byte) (overhead : N) : Prop :=
  ∀ count i c, ∃ bytes, json_envelope (chunk_envelope envelope count (len raw) i c) = Ok bytes ∧
    len bytes ≤ overhead + str_len (base64_encode c).

Lemma target_chunk_fits envelope raw overhead count i c :
  overhead_within envelope raw overhead → overhead ≤ 16 * 1024 →
  count ≤ REMOTE_CONTROL_SEGMENT_COUNT_MAX → len c ≤ REMOTE_CONTROL_SEGMENT_TARGET_BYTES →
  segment_fits envelope count (len raw) (N.of_nat i, c) = true.
Proof.
  intros Hov Hle Hc Hlen. unfold segment_fits, serialized_chunk_len, build_chunk_envelope. cbn [fst snd].
  destruct (N.ltb_spec REMOTE_CONTROL_SEGMENT_COUNT_MAX count); [lia|].
  cbn [mbind result_bind]. unfold serialized_len.
  destruct (Hov count i c) as (bytes & Hj & Hb). unfold chunk_envelope in Hj. rewrite Hj.
  apply N.leb_le. apply base64_len_mono in Hlen.
  change (4 * ((REMOTE_CONTROL_SEGMENT_TARGET_BYTES + 2) / 3)) with 136536 in Hlen.
  unfold REMOTE_CONTROL_SEGMENT_MAX_BYTES. lia.
Qed.

Lemma first_round_fits fuel envelope raw overhead :
  overhead_within envelope raw overhead → overhead ≤ 16 * 1024 →
  len raw ≤ REMOTE_CONTROL_REASSEMBLED_MAX_BYTES →
  ∃ envs, segment_loop (S fuel) envelope raw (len raw)
      (2 `max` ((len raw + REMOTE_CONTROL_SEGMENT_TARGET_BYTES - 1) / REMOTE_CONTROL_SEGMENT_TARGET_BYTES))
    = Some (Ok envs) ∧ carries envelope raw envs.
Proof.
  intros Hov Hle Hmax. set (count := 2 `max` _).
  assert (Ht : len raw ≤ REMOTE_CONTROL_SEGMENT_TARGET_BYTES * count) by (apply ceil_le; [done|lia]).
  assert (Hcount : count ≤ REMOTE_CONTROL_SEGMENT_COUNT_MAX).
  { apply N.max_lub; [done|]. apply ceil_le; [done|]. exact Hmax. }
  cbn [segment_loop]. rewrite div_ceil_pos by lia. cbn [mbind option_bind].
  set (q := (len raw + count - 1) / count). set (size := 1 `max` q).
  assert (Hsize : size ≤ REMOTE_CONTROL_SEGMENT_TARGET_BYTES).
  { apply N.max_lub; [done|]. apply ceil_le; lia. }
  rewrite (div_ceil_pos _ size) by lia. cbn [mbind option_bind]. cbv zeta.
  rewrite <- (chunks_length size raw) by lia.
  destruct (forallb _ _) eqn:Hfit.
  - apply fitting_round in Hfit as (envs & -> & ?); [by eauto|lia].
  - exfalso. apply not_true_iff_false in Hfit. apply Hfit. apply forallb_forall.
    intros [i c] Hin%list_elem_of_In. unfold enumerate in Hin.
    apply elem_of_lookup_imap in Hin as (i' & c' & [= -> ->] & Hc').
    apply (target_chunk_fits _ _ overhead); [done..| |].
    + rewrite chunks_length by lia. etransitivity; [|exact Hcount]. apply ceil_le; [lia|].
      rewrite N.mul_comm. apply ceil_le; lia.
    + etransitivity; [|exact Hsize].
      eapply (Forall_lookup_1 (λ c, c ≠ [] ∧ len c ≤ size)); [apply chunks_sizes; lia|done].
Qed.

(** A message of up to 100 MiB that can be serialized is always sent, whole or in
    segments that carry it, when the other fields of its envelopes take at most 16 KiB. *)
Theorem large_messages_sent envelope message raw overhead whole :
  server_event envelope = ServerMessage message →
  json_message message = Ok raw → raw ≠ [] →
  len raw ≤ REMOTE_CONTROL_REASSEMBLED_MAX_BYTES →
  json_envelope envelope = Ok whole →
  overhead_within envelope raw overhead → overhead ≤ 16 * 1024 →
  ∃ envs, split_server_envelope_for_transport envelope = Some (Ok envs) ∧ envs ≠ [] ∧
    (envs = [envelope] ∧ fits_wire envelope ∨ carries envelope raw envs).
Proof.
  intros He Hj Hne Hmax Hw Hov Hle. unfold split_server_envelope_for_transport, serialized_len.
  rewrite He, Hw. destruct (N.leb_spec (len whole) REMOTE_CONTROL_SEGMENT_MAX_BYTES) as [Hfit|_].
  { eexists. split; [done|]. split; [done|]. left. split; [done|]. by exists whole. }
  unfold split_message. rewrite Hj. cbv zeta.
  destruct (N.ltb_spec REMOTE_CONTROL_REASSEMBLED_MAX_BYTES (len raw)); [lia|].
  pose proof (target_chunk_fits envelope raw overhead
    ((len raw `max` 1) `min` REMOTE_CONTROL_SEGMENT_COUNT_MAX) 0 (take 1 raw) Hov Hle) as Hmin.
  unfold segment_fits in Hmin. cbn [fst snd N.of_nat] in Hmin.
  assert (Hlen1 : len (take 1 raw) ≤ REMOTE_CONTROL_SEGMENT_TARGET_BYTES).
  { unfold len. rewrite length_take. unfold REMOTE_CONTROL_SEGMENT_TARGET_BYTES. lia. }
  specialize (Hmin (N.le_min_r _ _) Hlen1).
  destruct (serialized_chunk_len _ _ _ _ _) as [size|]; [|done]. apply N.leb_le in Hmin.
  destruct (N.ltb_spec REMOTE_CONTROL_SEGMENT_MAX_BYTES size); [lia|].
  rewrite div_ceil_pos by done. cbn [mbind option_bind].
  destruct (first_round_fits (N.to_nat (len raw)) envelope raw overhead) as (envs & -> & Hcarry); [done..|].
  eexists. split; [done|]. split; [|by right].
  destruct Hcarry as (cs & <- & _ & _ & -> & _). by destruct cs.
Qed.
End Spec.

(** * Remote control: reassembling the segments of clients

    Properties of the reassembler of [Segments.v]: it keeps bounded assemblies and never
    panics, clients do not disturb each other, and the chunks of a message in order, with
    any repetition of earlier ones, give back the message. *)

From stdpp Require Import base list numbers gmap strings.
From Stdlib Require Import Strings.Byte.
From S2P Require Import Prelude Machine RemoteProtocol Segments.

#[local] Set Default Proof Using "Type*".
#[local] Open Scope N_scope.

(** Below the limit there is room for a client of [C] that is not there yet. *)
Lemma room_for {V} (m : client_map V) (C : client_set) (c : ClientId) :
  dom m ⊆ C → c ∈ C → N.of_nat (size C) ≤ REMOTE_CONTROL_SEGMENT_ASSEMBLY_MAX_COUNT →
  is_Some (m !! c) ∨ N.of_nat (size m) < REMOTE_CONTROL_SEGMENT_ASSEMBLY_MAX_COUNT.
Proof.
  intros Hd Hc HC. destruct (m !! c) eqn:Hm; [left; by eauto|right].
  apply not_elem_of_dom in Hm. rewrite <- (size_dom m).
  assert (Hlt : (size (dom m) < size C)%nat) by (apply subset_size; set_solver). lia.
Qed.

Section Spec.
Context `{!Payloads} `{!WireCrates} `{!HashOrder}.
#[local] Abbreviation state := (client_map ClientSegmentAssembly).

(** ** The bounds of the assemblies *)
Record wf_assembly (a : ClientSegmentAssembly) : Prop := {
  wf_raw : len (raw a) ≤ message_size_bytes (metadata a);
  wf_size : 0 < message_size_bytes (metadata a) ≤ REMOTE_CONTROL_REASSEMBLED_MAX_BYTES;
  wf_next : next_segment_id a < segment_count (metadata a);
  wf_count : segment_count (metadata a) ≤ REMOTE_CONTROL_SEGMENT_COUNT_MAX;
}.

Record wf_state (m : state) : Prop := {
  wf_number : N.of_nat (size m) ≤ REMOTE_CONTROL_SEGMENT_ASSEMBLY_MAX_COUNT;
  wf_each : map_Forall (λ _, wf_assembly) m;
}.

Lemma min_by_key_elem {A} (key : A → N) l a : min_by_key key l = Some a → a ∈ l.
Proof.
  revert a. induction l as [|b l IH]; intros a; simpl; [done|].
  destruct (min_by_key key l) as [b'|]; [|intros [= ->]; left].
  destruct (_ <? _); intros [= <-]; [right; by apply IH|left].
Qed.

Lemma min_by_key_None {A} (key : A → N) l : min_by_key key l = None → l = [].
Proof. destruct l; simpl; [done|]. by destruct (min_by_key key l). Qed.

(** Eviction only removes, and ends below the limit. *)
Lemma evict_loop_spec (fuel : nat) (m : state) :
  (size m ≤ fuel)%nat →
  N.of_nat (size (evict_loop fuel m)) < REMOTE_CONTROL_SEGMENT_ASSEMBLY_MAX_COUNT ∧
  evict_loop fuel m ⊆ m.
Proof.
  revert m. induction fuel as [|fuel IH]; intros m Hf; cbn [evict_loop].
  { split; [|done]. unfold REMOTE_CONTROL_SEGMENT_ASSEMBLY_MAX_COUNT. lia. }
  destruct (N.ltb_spec (N.of_nat (size m)) REMOTE_CONTROL_SEGMENT_ASSEMBLY_MAX_COUNT) as [?|Hge];
    [by split|].
  destruct (min_by_key _ _) as [[c a]|] eqn:Hmin.
  - apply min_by_key_elem in Hmin. rewrite hash_iter_perm, elem_of_map_to_list in Hmin.
    assert (Hsz : size m = S (size (delete c m))) by (rewrite map_size_delete_Some; [|by eauto];
      unfold REMOTE_CONTROL_SEGMENT_ASSEMBLY_MAX_COUNT in Hge; lia).
    destruct (IH (delete c m)) as [? Hsub]; [lia|]. split; [done|].
    etransitivity; [exact Hsub|]. apply delete_subseteq.
  - apply min_by_key_None in Hmin. pose proof (hash_iter_perm m) as Hp. rewrite Hmin in Hp.
    symmetry in Hp. apply Permutation_nil_r in Hp. apply map_to_list_empty_iff in Hp as ->.
    rewrite map_size_empty in Hge. unfold REMOTE_CONTROL_SEGMENT_ASSEMBLY_MAX_COUNT in Hge. lia.
Qed.

Lemma evict_spec (m : state) :
  N.of_nat (size (evict_assemblies_if_full m)) < REMOTE_CONTROL_SEGMENT_ASSEMBLY_MAX_COUNT ∧
  evict_assemblies_if_full m ⊆ m.
Proof. by apply evict_loop_spec. Qed.

Lemma evict_below (m : state) :
  N.of_nat (size m) < REMOTE_CONTROL_SEGMENT_ASSEMBLY_MAX_COUNT → evict_assemblies_if_full m = m.
Proof.
  intros Hlt. unfold evict_assemblies_if_full. destruct (size m) as [|n] eqn:Hs; [done|].
  cbn [evict_loop]. rewrite Hs. by apply N.ltb_lt in Hlt as ->.
Qed.

Lemma wf_delete (c : ClientId) (m : state) : wf_state m → wf_state (delete c m).
Proof.
  intros [Hn He]. split.
  - rewrite map_size_delete. destruct (m !! c); simpl; lia.
  - by apply map_Forall_delete.
Qed.

Lemma wf_remove (c s : rstring) (m : state) : wf_state m → wf_state (remove_assembly c s m).
Proof. intros. unfold remove_assembly. case_match; [by apply wf_delete|done]. Qed.

Lemma wf_replace (c : ClientId) (a : ClientSegmentAssembly) (m : state) :
  wf_state m → is_Some (m !! c) → wf_assembly a → wf_state (<[c:=a]> m).
Proof.
  intros [Hn He] [b Hb] Ha. split.
  - by rewrite map_size_insert_Some by eauto.
  - by apply map_Forall_insert_2.
Qed.

Lemma invalid_chunk_false i n size b :
  invalid_chunk i n size b = false →
  0 < n ≤ REMOTE_CONTROL_SEGMENT_COUNT_MAX ∧ i < n ∧
  0 < size ≤ REMOTE_CONTROL_REASSEMBLED_MAX_BYTES ∧ b ≠ [].
Proof.
  unfold invalid_chunk. rewrite !orb_false_iff, !N.eqb_neq, !N.ltb_ge, N.leb_gt.
  intros (((((?&?)&?)&?)&?)&?). split_and!; try lia. by intros ->.
Qed.

Lemma wf_new_assembly s mt now i b :
  invalid_chunk i (segment_count mt) (message_size_bytes mt) b = false →
  wf_assembly (new_assembly s mt now).
Proof. intros (? & ? & ? & _)%invalid_chunk_false. split; simpl; unfold len; simpl; lia. Qed.

Lemma wf_ensure (c s : rstring) mt (now i : N) (b : rstring) (m : state) :
  invalid_chunk i (segment_count mt) (message_size_bytes mt) b = false →
  wf_state m → wf_state (ensure_assembly c s mt now m).
Proof.
  intros Hi Hwf. pose proof (wf_new_assembly s mt now _ _ Hi) as Ha. unfold ensure_assembly.
  destruct (m !! c) as [a|] eqn:Hc.
  { case_match; [|done]. apply wf_replace; [done|by eauto|done]. }
  destruct (evict_spec m) as [Hlt Hsub].
  assert (Hn : evict_assemblies_if_full m !! c = None).
  { apply eq_None_not_Some. intros [x Hl]. eapply lookup_weaken in Hl; [|exact Hsub]. congruence. }
  split.
  - rewrite map_size_insert_None by done. lia.
  - apply map_Forall_insert_2; [done|]. intros x a Hx. eapply (wf_each _ Hwf x a), lookup_weaken; eauto.
Qed.

Lemma ensure_assembly_at (c s : rstring) mt (now : N) (m : state) :
  ∃ a, ensure_assembly c s mt now m !! c = Some a ∧ assembly_stream_id a = s.
Proof.
  unfold ensure_assembly. destruct (m !! c) as [a|] eqn:Hc.
  - unfold str_eqb. case_bool_decide; simpl; [by eauto|]. rewrite lookup_insert_eq. by eauto.
  - rewrite lookup_insert_eq. by eauto.
Qed.

Context `{!WireLaws}.

(** The vector never shrinks when it is resized for the next chunk. *)
Lemma resize_grows a n :
  wf_assembly a →
  len (raw a) ≤ message_size_bytes (metadata a) `min` sat_add USIZE_MAX (len (raw a)) n.
Proof.
  intros [Hraw Hsize _ _]. apply N.min_glb; [done|]. unfold sat_add. apply N.min_glb; [lia|].
  etransitivity; [exact Hraw|]. etransitivity; [apply Hsize|]. by vm_compute.
Qed.

(** A chunk never panics, and leaves a bounded assembly that is kept or dropped. *)
Lemma update_assembly_wf a mt i b now :
  wf_assembly a →
  ∃ a' u, update_assembly a mt i b now = Some (a', u) ∧ assembly_stream_id a' = assembly_stream_id a ∧
    (u = AssemblyUpdate_Pending ∨ u = AssemblyUpdate_Ignore → wf_assembly a').
Proof.
  intros Hwf. unfold update_assembly.
  destruct (_ <? _); [by eauto 10|]. case_bool_decide as Hm; [|by eexists _, _; split_and!; [done..|intros []]].
  simpl. destruct (_ <? _); [by eauto 10|].
  destruct (_ =? _); simpl; [|by eexists _, _; split_and!; [done..|intros []]].
  unfold append_chunk. cbn [raw next_segment_id metadata assembly_stream_id]. subst mt.
  pose proof (resize_grows a (decoded_len_estimate (str_len b)) Hwf) as Hge.
  remember (message_size_bytes _ `min` _) as e eqn:He. apply N.ltb_ge in Hge as Hlt. rewrite Hlt.
  destruct (decode_slice b _) as [bytes|[]] eqn:Hd;
    try by eexists _, _; split_and!; [done..|intros []].
  eexists _, _. split_and!; [done..|].
  destruct (N.ltb_spec (next_segment_id a + 1) (segment_count (metadata a))) as [Hn|_].
  - intros _. apply decode_slice_fits in Hd. destruct Hwf. split; simpl; [|done..].
    rewrite len_app. lia.
  - case_match; [by intros []|]. case_match; by intros [].
Qed.

Lemma observe_wf (now : N) (m : state) (e : ClientEnvelope) :
  wf_state m → ∃ m' o, observe now m e = Some (m', o) ∧ wf_state m'.
Proof.
  intros Hwf. unfold observe. destruct (client_event e) as [|i n size b| | |] eqn:He; try by eauto.
  destruct (from_envelope e) as [mt|] eqn:Hfrom; [|by eauto].
  destruct (client_stream_id e) as [s|]; [|by eauto].
  destruct (should_ignore_chunk _ _ _ _ _); [by eauto|].
  destruct (invalid_chunk i n size b) eqn:Hi; [by eauto using wf_remove|].
  unfold from_envelope in Hfrom. rewrite He in Hfrom. destruct (client_seq_id e); [|done].
  injection Hfrom as <-. set (mt := mkMetadata _ _ _). cbv zeta.
  pose proof (wf_ensure (client_client_id e) s mt now i b m Hi Hwf) as Hens.
  destruct (ensure_assembly_at (client_client_id e) s mt now m) as (a & Ha & Hs). rewrite Ha.
  destruct (update_assembly_wf a mt i b now) as (a' & u & Hu & Hs' & Hk).
  { by eapply (wf_each _ Hens). }
  rewrite Hu. cbn [mbind option_bind].
  assert (Hdrop : wf_state (remove_assembly (client_client_id e) s
    (<[client_client_id e:=a']> (ensure_assembly (client_client_id e) s mt now m)))).
  { unfold remove_assembly. rewrite lookup_insert_eq. simpl. rewrite Hs', Hs, str_eqb_refl.
    rewrite delete_insert_eq. by apply wf_delete. }
  destruct u; eexists _, _; split; try done; apply wf_replace; eauto.
Qed.

(** The operations of the reassembler. *)
Inductive reassembler_step : state → state → Prop :=
| step_observe (now : N) (m m' : state) (e : ClientEnvelope) o : observe now m e = Some (m', o) → reassembler_step m m'
| step_invalidate_stream (c s : rstring) (m : state) : reassembler_step m (invalidate_stream c s m)
| step_invalidate_client (c : ClientId) (m : state) : reassembler_step m (invalidate_client c m).

Lemma reassembler_step_wf (m m' : state) : reassembler_step m m' → wf_state m → wf_state m'.
Proof.
  intros [now m0 m1 e o Ho|c s m0|c m0] Hwf.
  - destruct (observe_wf now m0 e Hwf) as (? & ? & ? & ?). congruence.
  - by apply wf_remove.
  - by apply wf_delete.
Qed.

Lemma reachable_wf (m m' : state) : rtc reassembler_step m m' → wf_state m → wf_state m'.
Proof. induction 1; eauto using reassembler_step_wf. Qed.

(** However chunks and invalidations arrive, the reassembler never panics, keeps at
    most 128 assemblies, and each holds no more bytes than its message announces, at most
    100 MiB, and waits for one of at most 1024 segments. *)
Theorem reassembler_bounded (m : state) :
  rtc reassembler_step ∅ m →
  wf_state m ∧ ∀ now e, is_Some (observe now m e).
Proof.
  intros Hr. assert (Hwf : wf_state m).
  { eapply reachable_wf; [exact Hr|]. split; [done|apply map_Forall_empty]. }
  split; [done|]. intros now e. destruct (observe_wf now m e Hwf) as (? & ? & -> & _). by eauto.
Qed.

(** ** Clients do not disturb each other *)

(** What an operation does to one client depends on the assembly of that client alone. *)
Lemma remove_assembly_at (c s : rstring) (m1 m2 : state) :
  m1 !! c = m2 !! c → remove_assembly c s m1 !! c = remove_assembly c s m2 !! c.
Proof.
  intros Hc. unfold remove_assembly. rewrite Hc.
  destruct (is_some_and _ _); [by rewrite !lookup_delete_eq|done].
Qed.

Lemma ensure_assembly_local (c s : rstring) mt (now : N) (m1 m2 : state) :
  m1 !! c = m2 !! c → ensure_assembly c s mt now m1 !! c = ensure_assembly c s mt now m2 !! c.
Proof.
  intros Hc. unfold ensure_assembly. rewrite Hc. destruct (m2 !! c) as [a|] eqn:Ha; [|by rewrite !lookup_insert_eq].
  destruct (negb _); [by rewrite !lookup_insert_eq|congruence].
Qed.

(** The result for one client: its assembly afterwards, and the observation. *)
Definition at_client (c : ClientId) (r : option (state * ClientSegmentObservation))
    : option (option ClientSegmentAssembly * ClientSegmentObservation) :=
  '(m, o) ← r; Some (m !! c, o).

Lemma observe_local now (m1 m2 : state) (e : ClientEnvelope) :
  m1 !! client_client_id e = m2 !! client_client_id e →
  at_client (client_client_id e) (observe now m1 e) = at_client (client_client_id e) (observe now m2 e).
Proof.
  set (c := client_client_id e). intros Hc. unfold observe. fold c.
  destruct (client_event e) as [|i n size b| | |]; try by (simpl; rewrite Hc).
  destruct (from_envelope e) as [mt|]; [|by (simpl; rewrite Hc)].
  destruct (client_stream_id e) as [s|]; [|by (simpl; rewrite Hc)].
  unfold should_ignore_chunk. rewrite Hc.
  destruct (is_some_and (m2 !! c) _); [by (simpl; rewrite Hc)|].
  destruct (invalid_chunk i n size b).
  { simpl. by rewrite (remove_assembly_at c s m1 m2 Hc). }
  cbv zeta. rewrite (ensure_assembly_local c s mt now m1 m2 Hc).
  destruct (ensure_assembly c s mt now m2 !! c) as [a|] eqn:Ha;
    [|simpl; by rewrite (ensure_assembly_local c s mt now m1 m2 Hc), Ha].
  destruct (update_assembly a mt i b now) as [[a' u]|]; [|done]. cbn [mbind option_bind at_client].
  destruct u; simpl; rewrite ?lookup_insert_eq; try done;
    f_equal; f_equal; apply remove_assembly_at; by rewrite !lookup_insert_eq.
Qed.

Lemma remove_assembly_ne (c c' s : rstring) (m : state) :
  c ≠ c' → remove_assembly c s m !! c' = m !! c'.
Proof. intros. unfold remove_assembly. destruct (is_some_and _ _); [by rewrite lookup_delete_ne|done]. Qed.

(** Another client keeps its assembly, unless it is evicted for a new one. *)
Lemma observe_frame now (m m' : state) (e : ClientEnvelope) o c' :
  observe now m e = Some (m', o) → client_client_id e ≠ c' →
  is_Some (m !! client_client_id e) ∨
    N.of_nat (size m) < REMOTE_CONTROL_SEGMENT_ASSEMBLY_MAX_COUNT →
  m' !! c' = m !! c'.
Proof.
  set (c := client_client_id e). intros Ho Hne Hroom.
  assert (Hens : ∀ s mt, ensure_assembly c s mt now m !! c' = m !! c').
  { intros s mt. unfold ensure_assembly. destruct (m !! c) eqn:Hc.
    - destruct (negb _); [by rewrite lookup_insert_ne|done].
    - rewrite lookup_insert_ne by done. destruct Hroom as [[??]|?]; [done|]. by rewrite evict_below. }
  unfold observe in Ho. fold c in Ho.
  destruct (client_event e) as [|i n size b| | |]; try by simplify_eq.
  destruct (from_envelope e) as [mt|]; [|by simplify_eq].
  destruct (client_stream_id e) as [s|]; [|by simplify_eq].
  destruct (should_ignore_chunk _ _ _ _ _); [by simplify_eq|].
  destruct (invalid_chunk i n size b).
  { simplify_eq. by apply remove_assembly_ne. }
  cbv zeta in Ho. destruct (ensure_assembly c s mt now m !! c) as [a|]; [|by simplify_eq].
  destruct (update_assembly a mt i b now) as [[a' u]|]; [|done]. cbn [mbind option_bind] in Ho.
  destruct u; simplify_eq; rewrite ?remove_assembly_ne, lookup_insert_ne by done; apply Hens.
Qed.

(** A run over envelopes with the times of their arrival; the observations are kept with
    the clients. *)
Fixpoint observe_run (m : state) (tr : list (N * ClientEnvelope))
    : option (state * list (ClientId * ClientSegmentObservation)) :=
  match tr with
  | [] => Some (m, [])
  | (now, e) :: tr' =>
      '(m1, o) ← observe now m e;
      '(m2, os) ← observe_run m1 tr';
      Some (m2, (client_client_id e, o) :: os)
  end.

Definition of_client (c : ClientId) (p : N * ClientEnvelope) : bool :=
  str_eqb (client_client_id p.2) c.
Definition by_client (c : ClientId) (p : ClientId * ClientSegmentObservation) : bool :=
  str_eqb p.1 c.

Lemma observe_dom now (m m' : state) (e : ClientEnvelope) o (C : client_set) :
  observe now m e = Some (m', o) → client_client_id e ∈ C → dom m ⊆ C → dom m' ⊆ C.
Proof.
  set (c := client_client_id e). intros Ho Hc Hd.
  assert (Hens : ∀ s mt, dom (ensure_assembly c s mt now m) ⊆ C).
  { intros s mt. pose proof (subseteq_dom _ _ (proj2 (evict_spec m))) as Hev. unfold ensure_assembly.
    destruct (m !! c); [destruct (negb _)|]; rewrite ?dom_insert; set_solver. }
  assert (Hrm : ∀ s (k : state), dom k ⊆ C → dom (remove_assembly c s k) ⊆ C).
  { intros s k Hk. unfold remove_assembly. destruct (is_some_and _ _); [rewrite dom_delete|]; set_solver. }
  unfold observe in Ho. fold c in Ho.
  destruct (client_event e) as [|i n size b| | |]; try by simplify_eq.
  destruct (from_envelope e) as [mt|]; [|by simplify_eq].
  destruct (client_stream_id e) as [s|]; [|by simplify_eq].
  destruct (should_ignore_chunk _ _ _ _ _); [by simplify_eq|].
  destruct (invalid_chunk i n size b); [simplify_eq; by apply Hrm|].
  cbv zeta in Ho. destruct (ensure_assembly c s mt now m !! c) as [a|]; [|simplify_eq; apply Hens].
  destruct (update_assembly a mt i b now) as [[a' u]|]; [|done]. cbn [mbind option_bind] in Ho.
  specialize (Hens s mt).
  assert (Hins : dom (<[c:=a']> (ensure_assembly c s mt now m)) ⊆ C) by (rewrite dom_insert; set_solver).
  destruct u; simplify_eq; auto.
Qed.

Lemma observe_run_isolated (C : client_set) c tr : ∀ (m m' mc : state) os,
  N.of_nat (size C) ≤ REMOTE_CONTROL_SEGMENT_ASSEMBLY_MAX_COUNT →
  Forall (λ p, client_client_id p.2 ∈ C) tr → dom m ⊆ C → m !! c = mc !! c →
  observe_run m tr = Some (m', os) →
  ∃ mc', observe_run mc (List.filter (of_client c) tr) = Some (mc', List.filter (by_client c) os) ∧
    m' !! c = mc' !! c.
Proof.
  induction tr as [|[now e] tr IH]; intros m m' mc os HC Htr Hd Hc Hrun.
  { simplify_eq/=. by eauto. }
  apply Forall_cons in Htr as [He Htr]. cbn [observe_run snd] in *.
  destruct (observe now m e) as [[m1 o]|] eqn:Ho; [|done]. cbn [mbind option_bind] in Hrun.
  destruct (observe_run m1 tr) as [[m2 os']|] eqn:Hr; [|done]. cbn [mbind option_bind] in Hrun.
  injection Hrun as <- <-. pose proof (observe_dom _ _ _ _ _ C Ho He Hd) as Hd1.
  cbn [List.filter]. unfold of_client at 1, by_client at 1. cbn [fst snd].
  unfold str_eqb. case_bool_decide as Hce.
  - pose proof (observe_local now m mc e) as Hl. rewrite Hce, Ho in Hl. specialize (Hl Hc).
    destruct (observe now mc e) as [[mc1 o']|] eqn:Hoc; [|done]. simpl in Hl.
    injection Hl as Hl <-. destruct (IH m1 m2 mc1 os') as (mc' & Hrc & Hm'); [done..|].
    exists mc'. cbn [observe_run]. rewrite Hoc. cbn [mbind option_bind]. rewrite Hrc. by rewrite Hce.
  - apply (IH m1 m2 mc os'); try done. rewrite <- Hc.
    eapply observe_frame; [done..|]. by eapply room_for.
Qed.

(** C31: While no more than 128 clients send, they do not disturb each other: what is
    observed of one client, and what it leaves behind, is what the reassembler does with
    the envelopes of this client alone. *)
Theorem clients_isolated (C : client_set) c tr m os :
  N.of_nat (size C) ≤ REMOTE_CONTROL_SEGMENT_ASSEMBLY_MAX_COUNT →
  Forall (λ p, client_client_id p.2 ∈ C) tr →
  observe_run ∅ tr = Some (m, os) →
  ∃ mc, observe_run ∅ (List.filter (of_client c) tr) = Some (mc, List.filter (by_client c) os) ∧
    m !! c = mc !! c.
Proof. intros. eapply (observe_run_isolated C); try done. set_solver. Qed.

(** ** Chunks in order *)

(** Chunks of a message that a client may send. *)
Record sendable (cs : list (list byte)) : Prop := {
  sendable_cons : cs ≠ [];
  sendable_chunks : Forall (λ c, c ≠ []) cs;
  sendable_count : len cs ≤ REMOTE_CONTROL_SEGMENT_COUNT_MAX;
  sendable_size : len (concat cs) ≤ REMOTE_CONTROL_REASSEMBLED_MAX_BYTES;
}.

Definition client_chunk (c s : rstring) (sq : N) (cs : list (list byte)) (cursor : option rstring)
    (i : nat) : ClientEnvelope :=
  mkClientEnvelope
    (ClientMessageChunk (N.of_nat i) (len cs) (len (concat cs)) (base64_encode (default [] (cs !! i))))
    c (Some s) (Some sq) cursor.

(** The assembly after the first [i] chunks. *)
Definition assembled (s : StreamId) (sq : N) (cs : list (list byte)) (i : nat) (now : N)
    : ClientSegmentAssembly :=
  mkAssembly s (mkMetadata sq (len cs) (len (concat cs))) (concat (take i cs)) (N.of_nat i) now.

(** Before the first chunk, the client has no assembly of this stream. *)
Definition received (m : state) (c s : rstring) (sq : N) (cs : list (list byte)) (i : nat) : Prop :=
  match i with
  | O => m !! c = None ∨ ∃ a, m !! c = Some a ∧ assembly_stream_id a ≠ s
  | S _ => ∃ now, m !! c = Some (assembled s sq cs i now)
  end.

Lemma base64_encode_nonempty (bytes : list byte) : bytes ≠ [] → base64_encode bytes ≠ [].
Proof.
  intros Hne He. pose proof (base64_encode_len bytes) as Hl. rewrite He in Hl. simpl in Hl.
  assert (1 ≤ (len bytes + 2) / 3); [|lia].
  apply N.div_le_lower_bound; [done|]. destruct bytes; [done|]. unfold len. simpl. lia.
Qed.

Lemma concat_take_S (cs : list (list byte)) i ch :
  cs !! i = Some ch → concat (take (S i) cs) = concat (take i cs) ++ ch.
Proof. intros Hi. by rewrite (take_S_r _ _ _ Hi), concat_app, concat_cons, app_nil_r. Qed.

Lemma concat_take_len (cs : list (list byte)) i : len (concat (take i cs)) ≤ len (concat cs).
Proof. rewrite <- (take_drop i cs) at 2. rewrite concat_app, len_app. lia. Qed.

Lemma client_chunk_valid cs i ch :
  sendable cs → cs !! i = Some ch →
  invalid_chunk (N.of_nat i) (len cs) (len (concat cs)) (base64_encode ch) = false.
Proof.
  intros Hs Hi. pose proof (lookup_lt_Some _ _ _ Hi) as Hlt.
  pose proof (sendable_count _ Hs). pose proof (sendable_size _ Hs).
  assert (Hch : ch ≠ []) by (eapply (Forall_lookup_1 _ _ _ _ (sendable_chunks _ Hs)); done).
  pose proof (concat_take_len cs (S i)) as Hle. rewrite (concat_take_S _ _ _ Hi), len_app in Hle.
  assert (0 < len ch) by (destruct ch; [done|unfold len; simpl; lia]).
  pose proof (base64_encode_nonempty ch Hch).
  unfold invalid_chunk. rewrite !orb_false_iff, !N.eqb_neq, !N.ltb_ge, N.leb_gt. unfold len in *.
  split_and!; try lia. by destruct (base64_encode ch).
Qed.

(** The next chunk extends the bytes that are there. *)
Lemma append_next s sq cs i ch t now :
  sendable cs → cs !! i = Some ch →
  append_chunk (assembled s sq cs i t) (len cs) (len (concat cs)) (base64_encode ch) now
  = Some (assembled s sq cs (S i) now,
      if N.of_nat (S i) <? len cs then AssemblyUpdate_Pending
      else match parse_message (concat cs) with
           | Some message => AssemblyUpdate_Complete message
           | None => AssemblyUpdate_Drop
           end).
Proof.
  intros Hs Hi. pose proof (concat_take_len cs (S i)) as Hle.
  rewrite (concat_take_S _ _ _ Hi), len_app in Hle.
  pose proof (decoded_len_estimate_enough ch) as Hest.
  assert (Hmax : len (concat cs) ≤ USIZE_MAX).
  { etransitivity; [apply (sendable_size _ Hs)|]. by vm_compute. }
  unfold append_chunk, assembled. cbn [raw next_segment_id metadata assembly_stream_id].
  set (start := len (concat (take i cs))) in *. set (est := decoded_len_estimate _) in *.
  assert (Hend : start + len ch ≤ len (concat cs) `min` sat_add USIZE_MAX start est).
  { unfold sat_add. revert Hmax. generalize USIZE_MAX. intros. lia. }
  destruct (N.ltb_spec (len (concat cs) `min` sat_add USIZE_MAX start est) start); [lia|].
  rewrite decode_slice_encode by lia. cbn [raw next_segment_id].
  rewrite <- (concat_take_S _ _ _ Hi), N.add_1_r, <- Nat2N.inj_succ.
  destruct (N.ltb_spec (N.of_nat (S i)) (len cs)) as [|Hlast]; [done|].
  assert (Hall : take (S i) cs = cs) by (apply take_ge; unfold len in Hlast; lia).
  by rewrite Hall, N.eqb_refl.
Qed.

(** The next chunk in order: the assembly is one chunk longer, or the message is
    complete and the assembly gone. *)
Lemma observe_next (m : state) c s sq cs cursor i now :
  sendable cs → (i < length cs)%nat → received m c s sq cs i →
  ∃ m', observe now m (client_chunk c s sq cs cursor i) = Some (m',
      if N.of_nat (S i) <? len cs then Pending
      else match parse_message (concat cs) with
           | Some message => Forward (mkClientEnvelope (ClientMessage message) c (Some s) (Some sq) cursor)
           | None => Dropped
           end) ∧
    (if N.of_nat (S i) <? len cs then m' !! c = Some (assembled s sq cs (S i) now) else m' !! c = None).
Proof.
  intros Hs Hlt Hrec. destruct (lookup_lt_is_Some_2 cs i Hlt) as [ch Hi].
  pose proof (client_chunk_valid cs i ch Hs Hi) as Hval.
  assert (∃ t, ensure_assembly c s (mkMetadata sq (len cs) (len (concat cs))) now m !! c
      = Some (assembled s sq cs i t) ∧ should_ignore_chunk m c s sq (N.of_nat i) = false)
    as (t & Hens & Hign).
  { unfold ensure_assembly, should_ignore_chunk. destruct i as [|i]; simpl in Hrec.
    - exists now. destruct Hrec as [->|(a & -> & Hne)].
      + by rewrite lookup_insert_eq.
      + simpl. unfold str_eqb. rewrite bool_decide_false by done. simpl. by rewrite lookup_insert_eq.
    - destruct Hrec as [t Ht]. exists t. rewrite Ht. simpl. rewrite str_eqb_refl. simpl. split; [done|].
      rewrite N.ltb_irrefl, N.eqb_refl, N.ltb_irrefl. done. }
  unfold observe, client_chunk, from_envelope.
  cbn [client_event client_seq_id client_stream_id client_client_id mbind option_bind client_cursor].
  rewrite Hi. change (default [] (Some ch)) with ch. cbn [seq_id]. rewrite Hign, Hval. cbv zeta. rewrite Hens.
  unfold update_assembly. cbn [seq_id metadata next_segment_id assembled segment_count message_size_bytes].
  rewrite N.ltb_irrefl, bool_decide_true, N.ltb_irrefl, N.eqb_refl by done. cbn [negb].
  fold (assembled s sq cs i t). rewrite append_next by done. cbn [mbind option_bind].
  destruct (N.of_nat (S i) <? len cs).
  { eexists. split; [done|]. by rewrite lookup_insert_eq. }
  assert (Hrm : ∀ k : state, remove_assembly c s (<[c:=assembled s sq cs (S i) now]> k) !! c = None).
  { intros k. unfold remove_assembly. rewrite lookup_insert_eq. simpl. rewrite str_eqb_refl.
    by rewrite lookup_delete_eq. }
  destruct (parse_message _); eexists; (split; [done|apply Hrm]).
Qed.

(** A chunk that was received before is ignored. *)
Lemma observe_repeat (m : state) c s sq cs cursor i j now :
  (j < i)%nat → received m c s sq cs i →
  observe now m (client_chunk c s sq cs cursor j) = Some (m, Dropped).
Proof.
  intros Hj Hrec. destruct i as [|i]; [lia|]. destruct Hrec as [t Ht].
  unfold observe, client_chunk, from_envelope.
  cbn [client_event client_seq_id client_stream_id client_client_id mbind option_bind seq_id].
  unfold should_ignore_chunk. rewrite Ht. simpl is_some_and. rewrite str_eqb_refl, N.eqb_refl.
  destruct (N.ltb_spec (N.of_nat j) (N.of_nat (S i))); [|lia]. by rewrite orb_true_r.
Qed.
End Spec.
