(* ===== verification/RemoteTracker.v ===== *)
(** * Remote control: connections of clients

    [app-server-transport/src/transport/remote_control/client_tracker.rs]: every stream
    of a client becomes a connection of the app server, opened by an [initialize] request
    and closed when the client closes it, falls silent or its outbound task ends. *)

From stdpp Require Import base list numbers gmap strings.
From S2P Require Import Prelude Machine RemoteProtocol.

#[local] Open Scope N_scope.

(** A duration or a point in time in milliseconds. *)
Definition REMOTE_CONTROL_CLIENT_IDLE_TIMEOUT : N := 10 * 60 * 1000.

(** A [HashMap] with streams of clients for keys. *)
Abbreviation stream_map V :=
  (@gmap (list N * list N) (@prod_eq_dec (list N) (@list_eq_dec N N.eq_dec) (list N) (@list_eq_dec N N.eq_dec))
     (@prod_countable (list N) (@list_eq_dec N N.eq_dec) (@list_countable N N.eq_dec N_countable)
        (list N) (@list_eq_dec N N.eq_dec) (@list_countable N N.eq_dec N_countable)) V).

Inductive Stopped := stopped.

(** What becomes of a send: it arrives; it times out or the receiver is gone; or the task
    that waits for it is aborted ([JoinSet::abort_all] in [join_connection_workers]). *)
Inductive SendResult := Delivered | Undelivered | Aborted.

(** How a computation ends early: with an error, or because its task was aborted, which no
    code of the task handles. *)
Inductive Halt := Stops (err : Stopped) | Aborts.

Inductive ConnectionOrigin := Origin_Stdio | Origin_InProcess | Origin_WebSocket | Origin_RemoteControl.

(** The ends of the channels of an opened connection are left out. *)
Inductive TransportEvent `{!Payloads} :=
| DaemonShutdown
| ConnectionOpened (connection_id : ConnectionId) (origin : ConnectionOrigin)
| ConnectionClosed (connection_id : ConnectionId)
| IncomingMessage (connection_id : ConnectionId) (message : JSONRPCMessage).

(** The disconnect token is known by its connection; [status_tx] is the value that was
    sent last and the number of times that the receiver was notified. *)
Record ClientState := mkClientState {
  connection_id : ConnectionId;
  last_activity_at : N;
  last_inbound_seq_id : option N;
  status_tx : PongStatus * N;
}.

Section Tracker.
Context `{!Payloads} `{!HashOrder}.

(** The tracker with what it shares: the counter of connection ids, the tokens that are
    cancelled, the events that the app server received, the close events and the answers
    to pings that are sent by tasks of their own, the results of the next sends to the app
    server, and the connections a message of which was on its way when the reader was
    aborted. *)
Record ClientTracker := mkTracker {
  clients : stream_map ClientState;
  legacy_stream_ids : client_map StreamId;
  join_set : list (StreamKey * ConnectionId);
  next_connection : N;
  cancelled : gset N;
  transport_events : list TransportEvent;
  detached_closes : list ConnectionId;
  unknown_pongs : list StreamKey;
  send_results : list SendResult;
  interrupted : gset N;
}.

Definition ClientTracker_new (first : N) (results : list SendResult) : ClientTracker :=
  mkTracker ∅ ∅ [] first ∅ [] [] [] results ∅.

Definition set_clients (cs : stream_map ClientState) (t : ClientTracker) : ClientTracker :=
  mkTracker cs (legacy_stream_ids t) (join_set t) (next_connection t) (cancelled t)
    (transport_events t) (detached_closes t) (unknown_pongs t) (send_results t) (interrupted t).
Definition set_legacy (l : client_map StreamId) (t : ClientTracker) : ClientTracker :=
  mkTracker (clients t) l (join_set t) (next_connection t) (cancelled t)
    (transport_events t) (detached_closes t) (unknown_pongs t) (send_results t) (interrupted t).
Definition set_join_set (j : list (StreamKey * ConnectionId)) (t : ClientTracker) : ClientTracker :=
  mkTracker (clients t) (legacy_stream_ids t) j (next_connection t) (cancelled t)
    (transport_events t) (detached_closes t) (unknown_pongs t) (send_results t) (interrupted t).
Definition set_send (events : list TransportEvent) (results : list SendResult) (t : ClientTracker)
    : ClientTracker :=
  mkTracker (clients t) (legacy_stream_ids t) (join_set t) (next_connection t) (cancelled t)
    events (detached_closes t) (unknown_pongs t) results (interrupted t).
Definition set_detached (d : list ConnectionId) (t : ClientTracker) : ClientTracker :=
  mkTracker (clients t) (legacy_stream_ids t) (join_set t) (next_connection t) (cancelled t)
    (transport_events t) d (unknown_pongs t) (send_results t) (interrupted t).
Definition interrupt (event : TransportEvent) (t : ClientTracker) : ClientTracker :=
  match event with
  | IncomingMessage c _ =>
      mkTracker (clients t) (legacy_stream_ids t) (join_set t) (next_connection t) (cancelled t)
        (transport_events t) (detached_closes t) (unknown_pongs t) (send_results t) ({[c]} ∪ interrupted t)
  | _ => t
  end.

(** ** Computations that change the tracker and may stop *)
Definition tracking (A : Type) : Type := ClientTracker → ClientTracker * result Halt A.

#[global] Instance tracking_ret : MRet tracking := λ A a t, (t, Ok a).
#[global] Instance tracking_bind : MBind tracking := λ A B f c t,
  match c t with
  | (t', Ok a) => f a t'
  | (t', Err e) => (t', Err e)
  end.

Definition gets {A} (f : ClientTracker → A) : tracking A := λ t, (t, Ok (f t)).
Definition modify (f : ClientTracker → ClientTracker) : tracking unit := λ t, (f t, Ok tt).

Definition stop {A} (err : Stopped) : tracking A := λ t, (t, Err (Stops err)).
(** [if let Err(err) = c { handler }] before the rest; an aborted task runs neither. *)
Definition on_error {A B} (c : tracking A) (handler : Stopped → tracking B) (rest : A → tracking B)
    : tracking B := λ t,
  match c t with
  | (t', Ok a) => rest a t'
  | (t', Err (Stops err)) => handler err t'
  | (t', Err Aborts) => (t', Err Aborts)
  end.

(** [CONNECTION_ID_COUNTER.fetch_add(1)], which wraps around. *)
Definition next_connection_id : tracking ConnectionId := λ t,
  (mkTracker (clients t) (legacy_stream_ids t) (join_set t) ((next_connection t + 1) mod 2 ^ 64)
     (cancelled t) (transport_events t) (detached_closes t) (unknown_pongs t) (send_results t)
     (interrupted t),
   Ok (next_connection t)).

Definition cancel_token (c : ConnectionId) : tracking unit := modify (λ t,
  mkTracker (clients t) (legacy_stream_ids t) (join_set t) (next_connection t)
    ({[c]} ∪ cancelled t) (transport_events t) (detached_closes t) (unknown_pongs t)
    (send_results t) (interrupted t)).

(** One send to the app server, with the next of the results. *)
Definition send_event (event : TransportEvent) : tracking unit := λ t,
  let results := tl (send_results t) in
  match hd Delivered (send_results t) with
  | Delivered => (set_send (transport_events t ++ [event]) results t, Ok tt)
  | Undelivered => (set_send (transport_events t) results t, Err (Stops stopped))
  | Aborted => (interrupt event (set_send (transport_events t) results t), Err Aborts)
  end.

(** [spawn_connection_closed] awaited: the event is sent by a task of its own, which goes on
    when the one that waits for it is aborted. *)
Definition send_connection_closed (c : ConnectionId) : tracking unit := λ t,
  match hd Delivered (send_results t) with
  | Aborted =>
      (set_detached (detached_closes t ++ [c]) (set_send (transport_events t) (tl (send_results t)) t), Err Aborts)
  | Delivered | Undelivered => send_event (ConnectionClosed c) t
  end.

(** [spawn_connection_closed] without waiting for it. *)
Definition spawn_connection_closed (c : ConnectionId) : tracking unit :=
  modify (λ t, set_detached (detached_closes t ++ [c]) t).

Definition send_transport_event (event : TransportEvent) : tracking unit :=
  match event with
  | ConnectionClosed c => send_connection_closed c
  | event => send_event event
  end.

Definition remove_client (client_key : StreamKey) : tracking (option ClientState) :=
  client ← gets (λ t, clients t !! client_key);
  match client with
  | None => mret None
  | Some client =>
      modify (λ t, set_clients (delete client_key (clients t)) t);;
      legacy ← gets (λ t, legacy_stream_ids t !! client_key.1);
      (if is_some_and legacy (λ stream_id, str_eqb stream_id client_key.2)
       then modify (λ t, set_legacy (delete client_key.1 (legacy_stream_ids t)) t)
       else mret tt);;
      mret (Some client)
  end.

Definition close_client (client_key : StreamKey) : tracking unit :=
  client ← remove_client client_key;
  match client with
  | None => mret tt
  | Some client =>
      cancel_token (connection_id client);;
      send_transport_event (ConnectionClosed (connection_id client))
  end.

Definition record_inbound_message_delivery (client_key : StreamKey) (seq_id : option N)
    : tracking unit :=
  client ← gets (λ t, clients t !! client_key);
  match seq_id, client with
  | Some seq_id, Some client =>
      modify (λ t, set_clients (<[client_key :=
        mkClientState (connection_id client) (last_activity_at client) (Some seq_id)
          (status_tx client)]> (clients t)) t)
  | _, _ => mret tt
  end.

Definition touch (now : N) (client : ClientState) : ClientState :=
  mkClientState (connection_id client) now (last_inbound_seq_id client) (status_tx client).

(** A ping of a live client: its outbound task is notified of the status. *)
Definition ping_client (now : N) (client : ClientState) : ClientState :=
  mkClientState (connection_id client) now (last_inbound_seq_id client)
    (PongStatus_Active, (status_tx client).2 + 1).

(** The stream of an envelope: clients that do not send one have a stream of the
    server's choice, [fresh] where [StreamId::new_random] is called. *)
Definition resolve_stream_id (fresh : StreamId) (client_id : ClientId) (stream_id : option StreamId)
    (event : ClientEvent) (is_initialize : bool) : tracking StreamId :=
  match stream_id with
  | Some stream_id => mret stream_id
  | None =>
      legacy ← gets (λ t, legacy_stream_ids t !! client_id);
      if is_initialize then
        modify (λ t, set_legacy (delete client_id (legacy_stream_ids t)) t);;
        mret (default fresh legacy)
      else
        mret (match legacy with
              | Some s => s
              | None => match event with Ping => fresh | _ => [] end
              end)
  end.

(** A connection whose first message could not be forwarded is given up; its close event
    does not wait for the queue that is full. *)
Definition abandon_client (client_key : StreamKey) (err : Stopped) : tracking unit :=
  client ← remove_client client_key;
  match client with
  | Some client =>
      cancel_token (connection_id client);;
      spawn_connection_closed (connection_id client);;
      stop err
  | None => stop err
  end.

(** The opening of a connection for a first message. *)
Definition open_client (now : N) (client_key : StreamKey) (is_legacy_stream_id : bool)
    (message : JSONRPCMessage) (seq_id : option N) : tracking unit :=
  c ← next_connection_id;
  send_transport_event (ConnectionOpened c Origin_RemoteControl);;
  modify (λ t, set_join_set (join_set t ++ [(client_key, c)]) t);;
  modify (λ t, set_clients
    (<[client_key := mkClientState c now None (PongStatus_Active, 0)]> (clients t)) t);;
  (if is_legacy_stream_id
   then modify (λ t, set_legacy (<[client_key.1 := client_key.2]> (legacy_stream_ids t)) t)
   else mret tt);;
  on_error (send_transport_event (IncomingMessage c message)) (abandon_client client_key)
    (λ _, if is_legacy_stream_id then mret tt
          else record_inbound_message_delivery client_key seq_id).

(** A message that was delivered before, by its number. *)
Definition already_delivered (seq_id : option N) (client : option ClientState) : bool :=
  match seq_id, client with
  | Some seq_id, Some client =>
      is_some_and (last_inbound_seq_id client) (λ last, seq_id <=? last)
  | _, _ => false
  end.

Definition handle_client_message (now : N) (client_key : StreamKey) (is_legacy_stream_id : bool)
    (message : JSONRPCMessage) (seq_id : option N) (is_initialize : bool) : tracking unit :=
  client ← gets (λ t, clients t !! client_key);
  if already_delivered seq_id client && negb is_initialize then mret tt
  else
    (if is_initialize && bool_decide (is_Some client) then close_client client_key else mret tt);;
    client ← gets (λ t, clients t !! client_key);
    match client with
    | Some client =>
        modify (λ t, set_clients (<[client_key := touch now client]> (clients t)) t);;
        send_transport_event (IncomingMessage (connection_id client) message);;
        record_inbound_message_delivery client_key seq_id
    | None =>
        if is_initialize
        then open_client now client_key is_legacy_stream_id message seq_id
        else mret tt
    end.

Definition is_initialize_event (event : ClientEvent) : bool :=
  match event with
  | ClientMessage message => remote_control_message_starts_connection message
  | _ => false
  end.

Definition handle_message (now : N) (fresh : StreamId) (client_envelope : ClientEnvelope)
    : tracking unit :=
  let client_id := client_client_id client_envelope in
  let event := client_event client_envelope in
  let is_legacy_stream_id := negb (bool_decide (is_Some (client_stream_id client_envelope))) in
  let is_initialize := is_initialize_event event in
  stream_id ← resolve_stream_id fresh client_id (client_stream_id client_envelope) event is_initialize;
  if is_empty stream_id then mret tt
  else
    let client_key := (client_id, stream_id) in
    match event with
    | ClientMessage message =>
        handle_client_message now client_key is_legacy_stream_id message
          (client_seq_id client_envelope) is_initialize
    | ClientMessageChunk _ _ _ _ | ClientAck _ => mret tt
    | Ping =>
        client ← gets (λ t, clients t !! client_key);
        match client with
        | Some client =>
            modify (λ t, set_clients (<[client_key := ping_client now client]> (clients t)) t)
        | None =>
            modify (λ t, mkTracker (clients t) (legacy_stream_ids t) (join_set t)
              (next_connection t) (cancelled t) (transport_events t) (detached_closes t)
              (unknown_pongs t ++ [client_key]) (send_results t) (interrupted t))
        end
    | ClientClosed => close_client client_key
    end.

(** [duration_since] of an earlier time is the difference, of a later one zero. *)
Definition remote_control_client_is_alive (client : ClientState) (now : N) : bool :=
  now - last_activity_at client <? REMOTE_CONTROL_CLIENT_IDLE_TIMEOUT.

Fixpoint close_clients (keys : list StreamKey) : tracking unit :=
  match keys with
  | [] => mret tt
  | key :: keys' => close_client key;; close_clients keys'
  end.

Definition expired_client_ids (now : N) (t : ClientTracker) : list StreamKey :=
  omap (λ '(client_key, client),
    if remote_control_client_is_alive client now then None else Some client_key)
    (hash_iter (clients t)).

Definition close_expired_clients (now : N) : tracking (list StreamKey) :=
  expired ← gets (expired_client_ids now);
  close_clients expired;;
  mret expired.

(** The next task that ended, chosen by its position: its key is returned. A task can
    end at any time: its token is cancelled, or one of its channels is closed. *)
Definition bookkeep_join_set (i : nat) : tracking (option StreamKey) :=
  task ← gets (λ t, join_set t !! i);
  match task with
  | None => mret None
  | Some (client_key, _) =>
      modify (λ t, set_join_set (delete i (join_set t)) t);;
      mret (Some client_key)
  end.

(** [shutdown]: every client is closed whatever the result, then the tasks are awaited. *)
Fixpoint shutdown_loop (fuel : nat) : tracking unit := λ t,
  match fuel with
  | O => (t, Ok tt)
  | S fuel' =>
      match hash_iter (clients t) with
      | [] => (t, Ok tt)
      | (client_key, _) :: _ =>
          match close_client client_key t with
          | (t, Err Aborts) => (t, Err Aborts)
          | (t, _) => shutdown_loop fuel' t
          end
      end
  end.

Definition shutdown : tracking unit :=
  fuel ← gets (λ t, size (clients t));
  shutdown_loop fuel;;
  modify (set_join_set []).

(** A close event of a task of its own arrives, or is lost with the receiver. *)
Definition deliver_detached (i : nat) (t : ClientTracker) : ClientTracker :=
  match detached_closes t !! i with
  | None => t
  | Some c =>
      let events :=
        match hd Delivered (send_results t) with
        | Delivered => transport_events t ++ [ConnectionClosed c]
        | Undelivered | Aborted => transport_events t
        end in
      set_detached (delete i (detached_closes t)) (set_send events (tl (send_results t)) t)
  end.
End Tracker.

(** Runs the operations of the monad. *)
Ltac run_tracking :=
  unfold mbind, tracking_bind, mret, tracking_ret, gets, modify, stop, on_error; cbv beta iota.
