(* ===== verification/RemoteSession.v ===== *)
(** * Remote control: the state behind the websocket

    The outbound buffer and the inbound bookkeeping of
    [app-server-transport/src/transport/remote_control/websocket.rs], and the steps of its
    reader and of its writer, each as one pass through the loop.  The task of the reader can
    be aborted while it waits for a send or for the lock of the state. *)

From stdpp Require Import base list numbers gmap strings.
From Stdlib Require Import Strings.Byte.
From S2P Require Import Prelude Machine RemoteProtocol Segments RemoteTracker.

#[local] Open Scope N_scope.

(** Keys of clients with an optional stream. *)
Abbreviation inbound_key := (ClientId * option StreamId)%type.
Abbreviation inbound_map V :=
  (@gmap (list N * option (list N))
     (@prod_eq_dec (list N) (@list_eq_dec N N.eq_dec) (option (list N))
        (@option_eq_dec (list N) (@list_eq_dec N N.eq_dec)))
     (@prod_countable (list N) (@list_eq_dec N N.eq_dec) (@list_countable N N.eq_dec N_countable)
        (option (list N)) (@option_eq_dec (list N) (@list_eq_dec N N.eq_dec))
        (@option_countable (list N) (@list_eq_dec N N.eq_dec) (@list_countable N N.eq_dec N_countable))) V).

Section Session.
Context `{!Payloads} `{!WireCrates} `{!HashOrder}.

(** ** The outbound buffer *)
Record BoundedOutboundBuffer := mkOutbound {
  buffer_by_stream : stream_map (list ServerEnvelope);
  used : N;
}.

Definition BoundedOutboundBuffer_new : BoundedOutboundBuffer := mkOutbound ∅ 0.

Definition envelope_key (e : ServerEnvelope) : StreamKey := (server_client_id e, server_stream_id e).

Definition outbound_insert (server_envelope : ServerEnvelope) (b : BoundedOutboundBuffer)
    : BoundedOutboundBuffer :=
  let key := envelope_key server_envelope in
  mkOutbound
    (<[key := default [] (buffer_by_stream b !! key) ++ [server_envelope]]> (buffer_by_stream b))
    (used b + 1).

(** The lexicographic order of cursors: the number of the message, then of the segment. *)
Definition cursor_leb (a b : N * N) : bool :=
  (a.1 <? b.1) || ((a.1 =? b.1) && (a.2 <=? b.2)).

Definition envelope_cursor (e : ServerEnvelope) : N * N :=
  (server_seq_id e, default 0 (ServerEvent_segment_id (server_event e))).

Definition acked_cursor (acked_seq_id : N) (acked_segment_id : option N) : N * N :=
  (acked_seq_id, default USIZE_MAX acked_segment_id).

Definition is_acked (cursor : N * N) (e : ServerEnvelope) : bool :=
  cursor_leb (envelope_cursor e) cursor.

Definition outbound_ack (client_id : ClientId) (stream_id : StreamId) (acked_seq_id : N)
    (acked_segment_id : option N) (b : BoundedOutboundBuffer) : BoundedOutboundBuffer :=
  let key := (client_id, stream_id) in
  match buffer_by_stream b !! key with
  | None => b
  | Some buffer =>
      let cursor := acked_cursor acked_seq_id acked_segment_id in
      let kept := List.filter (λ e, negb (is_acked cursor e)) buffer in
      let count := len (List.filter (is_acked cursor) buffer) in
      mkOutbound
        (if is_empty kept then delete key (buffer_by_stream b)
         else <[key := kept]> (buffer_by_stream b))
        (used b - count)
  end.

(** What is sent again after a reconnect. *)
Definition server_envelopes (b : BoundedOutboundBuffer) : list ServerEnvelope :=
  concat (map snd (hash_iter (buffer_by_stream b))).

(** ** The state *)
Record WebsocketState := mkWebsocketState {
  outbound_buffer : BoundedOutboundBuffer;
  subscribe_cursor : option rstring;
  next_seq_id_by_stream : stream_map N;
  last_completed : inbound_map N;
  client_segment_reassembler : client_map ClientSegmentAssembly;
}.

Definition set_outbound b (w : WebsocketState) : WebsocketState :=
  mkWebsocketState b (subscribe_cursor w) (next_seq_id_by_stream w) (last_completed w)
    (client_segment_reassembler w).
Definition set_reassembler r (w : WebsocketState) : WebsocketState :=
  mkWebsocketState (outbound_buffer w) (subscribe_cursor w) (next_seq_id_by_stream w)
    (last_completed w) r.
Definition set_completed l (w : WebsocketState) : WebsocketState :=
  mkWebsocketState (outbound_buffer w) (subscribe_cursor w) (next_seq_id_by_stream w) l
    (client_segment_reassembler w).
Definition set_next_seq n (w : WebsocketState) : WebsocketState :=
  mkWebsocketState (outbound_buffer w) (subscribe_cursor w) n (last_completed w)
    (client_segment_reassembler w).
Definition set_cursor c (w : WebsocketState) : WebsocketState :=
  mkWebsocketState (outbound_buffer w) c (next_seq_id_by_stream w) (last_completed w)
    (client_segment_reassembler w).

Definition WebsocketState_new : WebsocketState :=
  mkWebsocketState BoundedOutboundBuffer_new None ∅ ∅ ∅.

Definition client_message_key (e : ClientEnvelope) : option (inbound_key * N) :=
  match client_event e, client_seq_id e with
  | ClientMessageChunk _ _ _ _, Some seq_id => Some ((client_client_id e, client_stream_id e), seq_id)
  | _, _ => None
  end.

(** The message of this chunk is complete already. *)
Definition chunk_completed (w : WebsocketState) (key : option (inbound_key * N)) : bool :=
  match key with
  | Some (key, seq_id) => is_some_and (last_completed w !! key) (λ last, seq_id <=? last)
  | None => false
  end.

Definition chunk_ignored (w : WebsocketState) (key : option (inbound_key * N)) (e : ClientEnvelope) : bool :=
  match key, client_stream_id e, client_event e with
  | Some (_, seq_id), Some stream_id, ClientMessageChunk segment_id _ _ _ =>
      should_ignore_chunk (client_segment_reassembler w) (client_client_id e) stream_id seq_id segment_id
  | _, _, _ => false
  end.

Definition observe_client_message (now : N) (e : ClientEnvelope) (wire_size_bytes : N)
    (w : WebsocketState) : option (WebsocketState * ClientSegmentObservation) :=
  let key := client_message_key e in
  if chunk_completed w key then Some (w, Dropped)
  else if chunk_ignored w key e then Some (w, Dropped)
  else if bool_decide (is_Some key) && (REMOTE_CONTROL_SEGMENT_MAX_BYTES <? wire_size_bytes) then
    Some (match client_stream_id e with
          | Some stream_id =>
              set_reassembler (invalidate_stream (client_client_id e) stream_id
                (client_segment_reassembler w)) w
          | None => w
          end, Dropped)
  else
    '(r, o) ← observe now (client_segment_reassembler w) e;
    Some (set_reassembler r w, o).

Definition record_client_message_delivery (e : ClientEnvelope) (key : option (inbound_key * N))
    (w : WebsocketState) : WebsocketState :=
  let w := match client_cursor e with Some cursor => set_cursor (Some cursor) w | None => w end in
  let w := match key with
           | Some (key, seq_id) => set_completed (<[key := seq_id]> (last_completed w)) w
           | None => w
           end in
  match client_event e, client_seq_id e, client_stream_id e with
  | ClientAck segment_id, Some acked_seq_id, Some stream_id =>
      set_outbound (outbound_ack (client_client_id e) stream_id acked_seq_id segment_id
        (outbound_buffer w)) w
  | _, _, _ => w
  end.

Definition invalidate_client_message_stream (client_id : ClientId) (stream_id : StreamId)
    (w : WebsocketState) : WebsocketState :=
  set_completed (delete (client_id, Some stream_id) (last_completed w)) w.

Definition invalidate_client_message_client (client_id : ClientId) (w : WebsocketState)
    : WebsocketState :=
  set_completed (base.filter (λ kv : inbound_key * N, kv.1.1 ≠ client_id) (last_completed w)) w.

(** The reassembler and the completed messages of a stream are forgotten together. *)
Definition forget_stream (client_id : ClientId) (stream_id : StreamId) (w : WebsocketState)
    : WebsocketState :=
  invalidate_client_message_stream client_id stream_id
    (set_reassembler (invalidate_stream client_id stream_id (client_segment_reassembler w)) w).

Definition forget_client (client_id : ClientId) (w : WebsocketState) : WebsocketState :=
  invalidate_client_message_client client_id
    (set_reassembler (invalidate_client client_id (client_segment_reassembler w)) w).

(** ** The writer *)
Record QueuedServerEnvelope := mkQueued {
  queued_event : ServerEvent;
  queued_client_id : ClientId;
  queued_stream_id : StreamId;
}.

(** Envelopes that serialize are buffered and their payloads sent; others are skipped. *)
Fixpoint buffer_envelopes (envs : list ServerEnvelope) (b : BoundedOutboundBuffer)
    : BoundedOutboundBuffer * list (list byte) :=
  match envs with
  | [] => (b, [])
  | e :: envs' =>
      match json_envelope e with
      | Ok payload =>
          let '(b, payloads) := buffer_envelopes envs' (outbound_insert e b) in
          (b, payload :: payloads)
      | Err _ => buffer_envelopes envs' b
      end
  end.

(** One message of the queue: it gets the next number of its stream, is split, buffered
    and sent. [None] is a panic. *)
Definition write_queued (q : QueuedServerEnvelope) (w : WebsocketState)
    : option (WebsocketState * list (list byte)) :=
  let seq_key := (queued_client_id q, queued_stream_id q) in
  let seq_id := default 1 (next_seq_id_by_stream w !! seq_key) in
  let w := set_next_seq (<[seq_key := seq_id]> (next_seq_id_by_stream w)) w in
  let server_envelope :=
    mkServerEnvelope (queued_event q) (queued_client_id q) (queued_stream_id q) seq_id in
  split ← split_server_envelope_for_transport server_envelope;
  Some match split with
       | Err _ => (w, [])
       | Ok envs =>
           let '(b, payloads) := buffer_envelopes envs (outbound_buffer w) in
           (set_next_seq (<[seq_key := sat_add U64_MAX seq_id 1]> (next_seq_id_by_stream w))
              (set_outbound b w), payloads)
       end.

(** ** The reader *)
Record Session := mkSession { websocket_state : WebsocketState; client_tracker : ClientTracker }.

(** A text message that parses as an envelope of the given size on the wire, read by a task
    that is aborted after it got the lock of the state [locks] times, if it needs it more
    often than that.  The second result says whether the reader goes on; [None] is a
    panic. *)
Definition read_envelope_until (locks : nat) (now : N) (fresh : StreamId) (e : ClientEnvelope) (wire_size_bytes : N)
    (s : Session) : option (Session * bool) :=
  let key := client_message_key e in
  match locks with
  | O => Some (s, false)
  | S locks =>
      '(w, observation) ← observe_client_message now e wire_size_bytes (websocket_state s);
      match observation with
      | Pending | Dropped => Some (mkSession w (client_tracker s), true)
      | Forward e =>
          match handle_message now fresh e (client_tracker s) with
          | (t, Err _) => Some (mkSession w t, false)
          | (t, Ok _) =>
              match locks with
              | O => Some (mkSession w t, false)
              | S locks =>
                  let w := record_client_message_delivery e key w in
                  match client_event e with
                  | ClientClosed =>
                      match locks with
                      | O => Some (mkSession w t, false)
                      | S _ =>
                          Some (mkSession match client_stream_id e with
                                          | Some stream_id => forget_stream (client_client_id e) stream_id w
                                          | None => forget_client (client_client_id e) w
                                          end t, true)
                      end
                  | _ => Some (mkSession w t, true)
                  end
              end
          end
      end
  end.

(** The same without an abort at a lock. *)
Definition read_envelope : N → StreamId → ClientEnvelope → N → Session → option (Session * bool) :=
  read_envelope_until 3.

(** An outbound task ended: the connection of its key is closed, then the reassembler and
    the completed messages of the stream are forgotten, each under the lock. *)
Definition read_task_end_until (locks i : nat) (s : Session) : Session * bool :=
  match bookkeep_join_set i (client_tracker s) with
  | (t, Ok (Some client_key)) =>
      let w := websocket_state s in
      match close_client client_key t with
      | (t, Err _) => (mkSession w t, false)
      | (t, Ok _) =>
          match locks with
          | O => (mkSession w t, false)
          | S locks =>
              let w := set_reassembler
                         (invalidate_stream client_key.1 client_key.2 (client_segment_reassembler w)) w in
              match locks with
              | O => (mkSession w t, false)
              | S _ => (mkSession (invalidate_client_message_stream client_key.1 client_key.2 w) t, true)
              end
          end
      end
  | (t, _) => (mkSession (websocket_state s) t, true)
  end.
Definition read_task_end : nat → Session → Session * bool := read_task_end_until 2.

(** The sweep of clients that fell silent. *)
Definition read_idle_sweep_until (locks : nat) (now : N) (s : Session) : Session * bool :=
  match close_expired_clients now (client_tracker s) with
  | (t, Err _) => (mkSession (websocket_state s) t, false)
  | (t, Ok client_keys) =>
      match locks with
      | O => (mkSession (websocket_state s) t, false)
      | S _ =>
          (mkSession (foldl (λ w '(client_id, stream_id), forget_stream client_id stream_id w)
             (websocket_state s) client_keys) t, true)
      end
  end.
Definition read_idle_sweep : N → Session → Session * bool := read_idle_sweep_until 1.
End Session.
