(* ===== verification/OutboundSpec.v ===== *)
(** * Remote control: nothing that is sent is lost before it is acknowledged

    Properties of the writer and of the outbound buffer of [RemoteSession.v]: in every
    stream the buffer holds exactly the envelopes that no later acknowledgement covers,
    and these are the last ones that were sent, in order. *)

From stdpp Require Import base list numbers gmap strings.
From Stdlib Require Import Strings.Byte Sorting.Sorted.
From S2P Require Import Prelude Machine RemoteProtocol Segments SegmentsSpec RemoteTracker RemoteSession.

#[local] Set Default Proof Using "Type*".
#[local] Open Scope N_scope.

(** ** Cursors *)
Definition cursor_lt (a b : N * N) : Prop := a.1 < b.1 ∨ a.1 = b.1 ∧ a.2 < b.2.

Lemma cursor_leb_trans a b c : cursor_leb a b = true → cursor_leb b c = true → cursor_leb a c = true.
Proof.
  unfold cursor_leb. rewrite !orb_true_iff, !andb_true_iff, !N.ltb_lt, !N.eqb_eq, !N.leb_le. lia.
Qed.

Lemma cursor_lt_leb a b : cursor_lt a b → cursor_leb a b = true.
Proof.
  unfold cursor_lt, cursor_leb. rewrite orb_true_iff, andb_true_iff, N.ltb_lt, N.eqb_eq, N.leb_le. lia.
Qed.

(** ** Sums over a map *)
Definition total {V} (m : stream_map (list V)) : N :=
  map_fold (λ _ l n, len l + n) 0 m.

Lemma total_insert_new {V} (m : stream_map (list V)) k l :
  m !! k = None → total (<[k:=l]> m) = len l + total m.
Proof. intros. unfold total. rewrite map_fold_insert_L; [done| |done]. intros. lia. Qed.

Lemma total_delete {V} (m : stream_map (list V)) k l :
  m !! k = Some l → total m = len l + total (delete k m).
Proof. intros. rewrite <- (total_insert_new _ k l), insert_delete_id by (done || apply lookup_delete_eq). done. Qed.

Lemma total_insert {V} (m : stream_map (list V)) k l :
  total (<[k:=l]> m) + len (default [] (m !! k)) = len l + total m.
Proof.
  destruct (m !! k) as [l'|] eqn:Hk; simpl.
  - rewrite (total_delete m k l' Hk), <- insert_delete_eq.
    rewrite total_insert_new by apply lookup_delete_eq. lia.
  - rewrite total_insert_new by done. unfold len at 2. simpl. lia.
Qed.

Section Spec.
Context `{!Payloads} `{!WireCrates} `{!HashOrder}.

(** ** What is sent and what is acknowledged *)
Inductive out_event :=
| Sent (e : ServerEnvelope)
| Acked (key : StreamKey) (cursor : N * N).

(** The envelopes sent on a stream, and those that no acknowledgement covers that came
    after them. *)
Definition sent_on (key : StreamKey) (ev : out_event) : option ServerEnvelope :=
  match ev with
  | Sent e => if bool_decide (envelope_key e = key) then Some e else None
  | Acked _ _ => None
  end.

Definition covers (key : StreamKey) (e : ServerEnvelope) (ev : out_event) : bool :=
  match ev with
  | Sent _ => false
  | Acked k cursor => bool_decide (k = key) && is_acked cursor e
  end.

Fixpoint unacked (key : StreamKey) (log : list out_event) : list ServerEnvelope :=
  match log with
  | [] => []
  | ev :: log' =>
      match sent_on key ev with
      | Some e => if existsb (covers key e) log' then unacked key log' else e :: unacked key log'
      | None => unacked key log'
      end
  end.

Lemma unacked_ack_filter key log ev :
  (∀ e, ev ≠ Sent e) →
  unacked key (log ++ [ev]) = List.filter (λ e, negb (covers key e ev)) (unacked key log).
Proof.
  intros Hev. induction log as [|x log IH].
  { destruct ev; [by destruct (Hev e)|done]. }
  cbn [app unacked]. rewrite IH. destruct (sent_on key x) as [e|]; [|done].
  rewrite existsb_app. cbn [existsb]. rewrite orb_false_r.
  destruct (existsb (covers key e) log); cbn [orb]; [done|].
  cbn [List.filter]. by destruct (covers key e ev).
Qed.

Lemma unacked_sent key log e :
  unacked key (log ++ [Sent e]) =
  unacked key log ++ (if bool_decide (envelope_key e = key) then [e] else []).
Proof.
  induction log as [|x log IH].
  { cbn [app unacked sent_on existsb]. by case_bool_decide. }
  cbn [app unacked]. rewrite IH. destruct (sent_on key x) as [e'|]; [|done].
  rewrite existsb_app. cbn [existsb covers]. rewrite !orb_false_r.
  by destruct (existsb (covers key e') log).
Qed.

(** In increasing order, what is not acknowledged is the end of what was sent. *)
Lemma unacked_suffix key log :
  StronglySorted cursor_lt (map envelope_cursor (omap (sent_on key) log)) →
  ∃ pre, omap (sent_on key) log = pre ++ unacked key log.
Proof.
  induction log as [|ev log IH]; intros Hs; [by exists []|]. cbn [omap list_omap unacked] in *.
  change (list_omap _ _ (sent_on key) log) with (omap (sent_on key) log) in *.
  destruct (sent_on key ev) as [e|]; [|by apply IH].
  cbn [map] in Hs. apply StronglySorted_inv in Hs as [Hs Hlt]. destruct (IH Hs) as [pre Hpre].
  destruct (existsb (covers key e) log) eqn:Hc.
  { exists (e :: pre). by rewrite Hpre. }
  exists []. cbn [app]. f_equal. clear IH Hpre pre Hs.
  induction log as [|ev' log IH]; [done|]. cbn [omap list_omap unacked] in *.
  change (list_omap _ _ (sent_on key) log) with (omap (sent_on key) log) in *.
  cbn [existsb] in Hc. apply orb_false_iff in Hc as [_ Hc].
  destruct (sent_on key ev') as [e'|]; [|by apply IH].
  cbn [map] in Hlt. apply Forall_cons in Hlt as [Hlt1 Hlt].
  assert (Hc' : existsb (covers key e') log = false).
  { apply not_true_iff_false. intros Hex. apply not_true_iff_false in Hc. apply Hc.
    apply existsb_exists in Hex as (a & Ha & Hcov). apply existsb_exists. exists a. split; [done|].
    destruct a as [|k cursor]; [done|]. simpl in *. apply andb_true_iff in Hcov as [-> Hcov]. simpl.
    unfold is_acked in *. eapply cursor_leb_trans; [|exact Hcov]. by apply cursor_lt_leb. }
  rewrite Hc'. f_equal. by apply IH.
Qed.

(** ** The operations *)
Definition serializes (e : ServerEnvelope) : bool := is_ok (json_envelope e).

(** A queued message with the next number of its stream. *)
Definition numbered (q : QueuedServerEnvelope) (w : WebsocketState) : ServerEnvelope :=
  mkServerEnvelope (queued_event q) (queued_client_id q) (queued_stream_id q)
    (default 1 (next_seq_id_by_stream w !! (queued_client_id q, queued_stream_id q))).

(** The envelopes that a write puts on the wire. *)
Definition wire_envelopes (q : QueuedServerEnvelope) (w : WebsocketState) : list ServerEnvelope :=
  match split_server_envelope_for_transport (numbered q w) with
  | Some (Ok envs) => List.filter serializes envs
  | _ => []
  end.

Inductive out_step : WebsocketState * list out_event → WebsocketState * list out_event → Prop :=
| out_write q w w' payloads log :
    write_queued q w = Some (w', payloads) →
    out_step (w, log) (w', log ++ map Sent (wire_envelopes q w))
| out_ack c s sq seg w log :
    out_step (w, log)
      (set_outbound (outbound_ack c s sq seg (outbound_buffer w)) w, log ++ [Acked (c, s) (acked_cursor sq seg)]).

Definition nonempty_or_none {A} (l : list A) : option (list A) :=
  match l with [] => None | _ => Some l end.

Lemma default_nonempty {A} (l : list A) : default [] (nonempty_or_none l) = l.
Proof. by destruct l. Qed.

(** The state agrees with the log after [n] operations. *)
Record out_inv (n : N) (w : WebsocketState) (log : list out_event) : Prop := {
  oi_buffer key : buffer_by_stream (outbound_buffer w) !! key = nonempty_or_none (unacked key log);
  oi_used : used (outbound_buffer w) = total (buffer_by_stream (outbound_buffer w));
  oi_sorted key : StronglySorted cursor_lt (map envelope_cursor (omap (sent_on key) log));
  oi_next key : Forall (λ e, server_seq_id e < default 1 (next_seq_id_by_stream w !! key))
                  (omap (sent_on key) log);
  oi_small key : default 1 (next_seq_id_by_stream w !! key) ≤ n + 1;
}.

Lemma buffer_envelopes_spec envs b :
  (buffer_envelopes envs b).1 = foldl (λ b e, outbound_insert e b) b (List.filter serializes envs) ∧
  Forall2 (λ e p, json_envelope e = Ok p) (List.filter serializes envs) (buffer_envelopes envs b).2.
Proof.
  revert b. induction envs as [|e envs IH]; intros b; [done|]. cbn [buffer_envelopes List.filter].
  change (serializes e) with (is_ok (json_envelope e)).
  destruct (json_envelope e) as [p|] eqn:Hj; cbn [is_ok]; [|apply IH].
  specialize (IH (outbound_insert e b)). destruct (buffer_envelopes envs _) as [b' ps]. simpl in *.
  destruct IH as [-> ?]. split; [done|]. by constructor.
Qed.

(** One envelope more in the buffer. *)
Lemma outbound_insert_inv e b log :
  (∀ key, buffer_by_stream b !! key = nonempty_or_none (unacked key log)) → used b = total (buffer_by_stream b) →
  (∀ key, buffer_by_stream (outbound_insert e b) !! key = nonempty_or_none (unacked key (log ++ [Sent e]))) ∧
  used (outbound_insert e b) = total (buffer_by_stream (outbound_insert e b)).
Proof.
  intros Hb Hu. unfold outbound_insert. cbn [buffer_by_stream used]. split.
  - intros key. rewrite unacked_sent. case_bool_decide as Hk.
    + subst key. rewrite lookup_insert_eq, Hb, default_nonempty. by destruct (unacked _ log).
    + by rewrite lookup_insert_ne, app_nil_r.
  - pose proof (total_insert (buffer_by_stream b) (envelope_key e)
      (default [] (buffer_by_stream b !! envelope_key e) ++ [e])) as Ht.
    rewrite len_app in Ht. change (len [e]) with 1 in Ht. lia.
Qed.

Lemma outbound_inserts_inv envs b log :
  (∀ key, buffer_by_stream b !! key = nonempty_or_none (unacked key log)) → used b = total (buffer_by_stream b) →
  let b' := foldl (λ b e, outbound_insert e b) b envs in
  (∀ key, buffer_by_stream b' !! key = nonempty_or_none (unacked key (log ++ map Sent envs))) ∧
  used b' = total (buffer_by_stream b').
Proof.
  revert b log. induction envs as [|e envs IH]; intros b log Hb Hu; simpl; [by rewrite app_nil_r|].
  destruct (outbound_insert_inv e b log Hb Hu) as [Hb' Hu'].
  specialize (IH _ _ Hb' Hu'). by rewrite <- app_assoc in IH.
Qed.

(** ** The numbers of the envelopes *)
Lemma imap_chunk_sorted envelope count size (cs : list (list byte)) k :
  StronglySorted cursor_lt (map envelope_cursor (imap (λ i, chunk_envelope envelope count size (k + i)) cs)) ∧
  Forall (λ e, envelope_key e = envelope_key envelope ∧ server_seq_id e = server_seq_id envelope ∧
               N.of_nat k ≤ (envelope_cursor e).2)
    (imap (λ i, chunk_envelope envelope count size (k + i)) cs).
Proof.
  revert k. induction cs as [|c cs IH]; intros k; [split; constructor|].
  rewrite imap_cons. destruct (IH (S k)) as [Hs Hf].
  assert (Heq : imap ((λ i, chunk_envelope envelope count size (k + i)) ∘ S) cs =
                imap (λ i, chunk_envelope envelope count size (S k + i)) cs).
  { apply imap_ext. intros; simpl. f_equal. lia. }
  rewrite Heq. split.
  - cbn [map]. constructor; [done|]. apply Forall_map. eapply Forall_impl; [exact Hf|].
    intros e (_ & Hseq & Hk). right. unfold envelope_cursor in *. simpl in *. lia.
  - constructor.
    + unfold chunk_envelope, envelope_key, envelope_cursor. simpl. split_and!; [done..|lia].
    + eapply Forall_impl; [exact Hf|]. intros e (? & ? & ?). split_and!; [done..|lia].
Qed.

(** All envelopes of a message have its key and number, in the order of their segments. *)
Lemma split_numbered envelope envs :
  split_server_envelope_for_transport envelope = Some (Ok envs) →
  StronglySorted cursor_lt (map envelope_cursor envs) ∧
  Forall (λ e, envelope_key e = envelope_key envelope ∧ server_seq_id e = server_seq_id envelope) envs.
Proof.
  intros Hsplit. destruct (split_returns_outcome envelope) as (r & Hr & Hout).
  rewrite Hsplit in Hr. injection Hr as <-.
  inversion Hout as [| | | | |message raw envs' ? ? ? Hcarry]; subst;
    try (split; [repeat constructor|by repeat constructor]).
  destruct Hcarry as (cs & _ & _ & _ & -> & _).
  destruct (imap_chunk_sorted envelope (len cs) (len raw) cs 0) as [Hs Hf]. split; [done|].
  eapply Forall_impl; [exact Hf|]. by intros e (? & ? & _).
Qed.

Lemma sent_on_Sent key e envs :
  Forall (λ e', envelope_key e' = envelope_key e) envs →
  omap (sent_on key) (map Sent envs) = if bool_decide (envelope_key e = key) then envs else [].
Proof.
  induction 1 as [|e' envs He _ IH]; [by case_bool_decide|].
  cbn [map omap list_omap sent_on]. change (list_omap _ _ (sent_on key)) with (omap (sent_on key)).
  rewrite He, IH. by case_bool_decide.
Qed.

(** A list above a sorted one extends it. *)
Lemma sorted_app (l k : list (N * N)) :
  StronglySorted cursor_lt l → StronglySorted cursor_lt k →
  (∀ a b, a ∈ l → b ∈ k → cursor_lt a b) → StronglySorted cursor_lt (l ++ k).
Proof.
  intros Hl Hk Hlt. induction Hl as [|a l Hl IH Ha]; [done|]. simpl. constructor.
  - apply IH. intros. apply Hlt; [by right|done].
  - apply Forall_app. split; [done|]. apply Forall_forall. intros b Hb. apply Hlt; [left|done].
Qed.

Lemma sorted_filter (f : ServerEnvelope → bool) envs :
  StronglySorted cursor_lt (map envelope_cursor envs) →
  StronglySorted cursor_lt (map envelope_cursor (List.filter f envs)).
Proof.
  induction envs as [|e envs IH]; [done|]. cbn [map List.filter]. intros [Hs Hf]%StronglySorted_inv.
  destruct (f e); [|by apply IH]. cbn [map]. constructor; [by apply IH|].
  rewrite Forall_map in Hf |- *. rewrite Forall_forall in *. intros x Hx. apply Hf.
  apply list_elem_of_In in Hx. apply List.filter_In in Hx as [Hx _]. by apply list_elem_of_In.
Qed.

Lemma wire_numbered q w :
  StronglySorted cursor_lt (map envelope_cursor (wire_envelopes q w)) ∧
  Forall (λ e, envelope_key e = (queued_client_id q, queued_stream_id q) ∧
               server_seq_id e = server_seq_id (numbered q w)) (wire_envelopes q w).
Proof.
  unfold wire_envelopes. destruct (split_server_envelope_for_transport _) as [[envs|]|] eqn:Hs;
    try (split; constructor).
  apply split_numbered in Hs as [Hs Hf]. split; [by apply sorted_filter|].
  apply Forall_forall. intros e He. apply list_elem_of_In in He. apply List.filter_In in He as [He _].
  apply list_elem_of_In in He. rewrite Forall_forall in Hf. by apply Hf.
Qed.

(** A write returns: it buffers and sends the envelopes of its message, and the stream
    has a higher number afterwards when there was something to send. *)
Lemma write_queued_returns q w :
  ∃ w' payloads, write_queued q w = Some (w', payloads) ∧
    Forall2 (λ e p, json_envelope e = Ok p) (wire_envelopes q w) payloads ∧
    outbound_buffer w' = foldl (λ b e, outbound_insert e b) (outbound_buffer w) (wire_envelopes q w) ∧
    (next_seq_id_by_stream w' =
       <[(queued_client_id q, queued_stream_id q) := sat_add U64_MAX (server_seq_id (numbered q w)) 1]>
         (next_seq_id_by_stream w) ∨
     wire_envelopes q w = [] ∧ next_seq_id_by_stream w' =
       <[(queued_client_id q, queued_stream_id q) := server_seq_id (numbered q w)]> (next_seq_id_by_stream w)).
Proof.
  unfold write_queued, wire_envelopes. fold (numbered q w).
  destruct (split_returns_outcome (numbered q w)) as (r & Hr & _). rewrite Hr.
  cbn [mbind option_bind]. destruct r as [envs|err].
  - destruct (buffer_envelopes_spec envs (outbound_buffer w)) as [Hb Hp]. cbn [outbound_buffer set_next_seq].
    destruct (buffer_envelopes envs (outbound_buffer w)) as [b ps]. cbn [fst snd] in *. subst b.
    eexists _, _. split_and!; [done|done|done|]. left. cbn [next_seq_id_by_stream set_next_seq set_outbound].
    by rewrite insert_insert_eq.
  - eexists _, _. split_and!; [done|constructor|done|]. by right.
Qed.

Lemma out_write_inv n q w w' payloads log :
  n + 1 < U64_MAX → out_inv n w log → write_queued q w = Some (w', payloads) →
  out_inv (n + 1) w' (log ++ map Sent (wire_envelopes q w)).
Proof.
  intros Hn Hinv Hw. destruct (write_queued_returns q w) as (? & ? & Hw' & _ & Hb & Hnext).
  rewrite Hw' in Hw. injection Hw as -> ->.
  destruct (wire_numbered q w) as [Hsort Hnum]. set (k0 := (queued_client_id q, queued_stream_id q)) in *.
  destruct (outbound_inserts_inv (wire_envelopes q w) (outbound_buffer w) log) as [Hbuf Hused];
    [apply Hinv..|]. rewrite <- Hb in Hbuf, Hused.
  assert (Hseq : server_seq_id (numbered q w) = default 1 (next_seq_id_by_stream w !! k0)) by done.
  pose proof (oi_small _ _ _ Hinv k0) as Hsmall.
  assert (Hsat : sat_add U64_MAX (server_seq_id (numbered q w)) 1 = server_seq_id (numbered q w) + 1).
  { rewrite Hseq. unfold sat_add. apply N.min_l. lia. }
  rewrite Hsat in Hnext. clear Hsat. remember (server_seq_id (numbered q w)) as seq eqn:Hnumbered.
  assert (Hon : ∀ key, omap (sent_on key) (map Sent (wire_envelopes q w)) =
    if bool_decide (k0 = key) then wire_envelopes q w else []).
  { intros key. apply (sent_on_Sent key (numbered q w)). eapply Forall_impl; [exact Hnum|]. by intros e []. }
  split.
  - done.
  - done.
  - intros key. rewrite omap_app, map_app, Hon. case_bool_decide as Hk.
    2:{ rewrite app_nil_r. apply Hinv. }
    subst key. apply sorted_app; [apply Hinv|done|].
    intros a b Ha Hb'. apply list_elem_of_fmap in Ha as (e & -> & He), Hb' as (e' & -> & He').
    pose proof (oi_next _ _ _ Hinv k0) as Hlt. rewrite Forall_forall in Hlt. specialize (Hlt e He).
    rewrite Forall_forall in Hnum. destruct (Hnum e' He') as [_ Hs']. left. simpl. lia.
  - intros key. rewrite omap_app, Hon. apply Forall_app.
    assert (Hge : default 1 (next_seq_id_by_stream w !! key) ≤ default 1 (next_seq_id_by_stream w' !! key)).
    { destruct Hnext as [->|[_ ->]]; destruct (decide (key = k0)) as [->|?];
        rewrite ?lookup_insert_eq, ?lookup_insert_ne by done; simpl; lia. }
    split.
    + eapply Forall_impl; [apply Hinv|]. intros e He. cbv beta in He. lia.
    + case_bool_decide as Hk; [|constructor]. subst key. destruct Hnext as [->|[-> _]]; [|constructor].
      rewrite lookup_insert_eq. simpl. eapply Forall_impl; [exact Hnum|]. intros e [_ He]. simpl in *. lia.
  - intros key. pose proof (oi_small _ _ _ Hinv key) as Hsk.
    destruct Hnext as [->|[_ ->]]; destruct (decide (key = k0)) as [->|?];
      rewrite ?lookup_insert_eq, ?lookup_insert_ne by done; simpl; lia.
Qed.

Lemma filter_split {A} (f : A → bool) (l : list A) :
  len (List.filter f l) + len (List.filter (λ a, negb (f a)) l) = len l.
Proof.
  induction l as [|a l IH]; [done|]. cbn [List.filter]. unfold len in *.
  destruct (f a); simpl; lia.
Qed.

Lemma out_ack_inv n c s sq seg w log :
  out_inv n w log →
  out_inv n (set_outbound (outbound_ack c s sq seg (outbound_buffer w)) w)
    (log ++ [Acked (c, s) (acked_cursor sq seg)]).
Proof.
  intros Hinv. set (cur := acked_cursor sq seg).
  assert (Hon : ∀ key, omap (sent_on key) (log ++ [Acked (c, s) cur]) = omap (sent_on key) log).
  { intros key. rewrite omap_app. simpl. by rewrite app_nil_r. }
  assert (Hun : ∀ key, unacked key (log ++ [Acked (c, s) cur]) =
    if bool_decide ((c, s) = key) then List.filter (λ e, negb (is_acked cur e)) (unacked key log)
    else unacked key log).
  { intros key. rewrite unacked_ack_filter by done. case_bool_decide as Hk; cbn [covers].
    - apply List.filter_ext. intros e. by rewrite bool_decide_true.
    - rewrite (List.filter_ext _ (λ _, true)); [|intros e; by rewrite bool_decide_false].
      induction (unacked key log); simpl; congruence. }
  split; try (intros key; rewrite ?Hon; apply Hinv).
  - intros key. rewrite Hun. cbn [outbound_buffer set_outbound]. unfold outbound_ack. fold cur.
    pose proof (oi_buffer _ _ _ Hinv (c, s)) as Hb.
    destruct (buffer_by_stream (outbound_buffer w) !! (c, s)) as [buf|] eqn:Hbuf.
    + destruct (unacked (c, s) log) as [|e l] eqn:Hul; [done|]. injection Hb as ->. cbn [buffer_by_stream].
      case_bool_decide as Hk.
      * subst key. rewrite Hul. set (kept := List.filter _ (e :: l)). destruct kept; simpl;
          [by rewrite lookup_delete_eq|by rewrite lookup_insert_eq].
      * destruct (is_empty _); rewrite ?lookup_delete_ne, ?lookup_insert_ne by done; apply Hinv.
    + case_bool_decide as Hk; [subst key|apply Hinv].
      destruct (unacked (c, s) log) eqn:Hul; [|done]. done.
  - cbn [outbound_buffer set_outbound]. unfold outbound_ack. fold cur.
    destruct (buffer_by_stream (outbound_buffer w) !! (c, s)) as [buf|] eqn:Hbuf; [|apply Hinv].
    pose proof (oi_used _ _ _ Hinv) as Hu. pose proof (filter_split (is_acked cur) buf) as Hlen.
    rewrite (total_delete _ _ _ Hbuf) in Hu. cbn [used buffer_by_stream].
    set (kept := List.filter (λ e, negb (is_acked cur e)) buf) in *.
    destruct kept as [|e l] eqn:Hkept; cbn [is_empty].
    + change (len []) with 0 in Hlen. lia.
    + pose proof (total_insert (buffer_by_stream (outbound_buffer w)) (c, s) (e :: l)) as Ht.
      rewrite Hbuf in Ht. simpl default in Ht. rewrite (total_delete _ _ _ Hbuf) in Ht. lia.
Qed.

Lemma out_steps_inv n st st' :
  nsteps out_step n st st' → N.of_nat n + 1 < U64_MAX → ∀ k, out_inv k st.1 st.2 →
  k + N.of_nat n + 1 < U64_MAX → ∃ k', k' ≤ k + N.of_nat n ∧ out_inv k' st'.1 st'.2.
Proof.
  induction 1 as [st|n st1 st2 st3 Hstep _ IH]; intros Hn k Hinv Hk.
  { exists k. split; [lia|done]. }
  destruct Hstep as [q w w' payloads log Hw|c s sq seg w log].
  - destruct (IH ltac:(lia) (k + 1)) as (k' & ? & ?); [|lia|exists k'; split; [lia|done]].
    eapply out_write_inv; [lia|done..].
  - destruct (IH ltac:(lia) k) as (k' & ? & ?); [|lia|exists k'; split; [lia|done]]. by apply out_ack_inv.
Qed.

(** C10: However writes and acknowledgements alternate, the outbound buffer of every
    stream holds exactly the envelopes sent on it that no later acknowledgement covers,
    they are the last ones that were sent, in the order of their numbers, the usage counts
    them without ever going below zero, and the next write returns with the payloads of
    its envelopes. *)
Theorem outbound_buffer_unacked n w log :
  nsteps out_step n (WebsocketState_new, []) (w, log) → N.of_nat n + 1 < U64_MAX →
  (∀ key, default [] (buffer_by_stream (outbound_buffer w) !! key) = unacked key log ∧
     (∃ pre, omap (sent_on key) log = pre ++ unacked key log) ∧
     StronglySorted cursor_lt (map envelope_cursor (omap (sent_on key) log))) ∧
  used (outbound_buffer w) = total (buffer_by_stream (outbound_buffer w)) ∧
  ∀ q, ∃ w' payloads, write_queued q w = Some (w', payloads) ∧
    Forall2 (λ e p, json_envelope e = Ok p) (wire_envelopes q w) payloads.
Proof.
  intros Hsteps Hn.
  destruct (out_steps_inv _ _ _ Hsteps Hn 0) as (k & _ & Hinv); [|lia|].
  { split; try done. intros key; constructor. }
  simpl in Hinv. split_and!.
  - intros key. rewrite (oi_buffer _ _ _ Hinv), default_nonempty. split_and!; [done| |apply Hinv].
    apply unacked_suffix, Hinv.
  - apply Hinv.
  - intros q. destruct (write_queued_returns q w) as (w' & ps & ? & ? & _). by eauto.
Qed.
End Spec.
