(* ===== verification/ConnectionSpec.v ===== *)
(** * Remote control: the life of a connection

    Properties of the tracker of [RemoteTracker.v] and of the reader of
    [RemoteSession.v]: the app server sees every connection opened once, then its
    [initialize] request, unless the reader was aborted before it was forwarded, then its
    other messages, and closed at most once after that; and what makes a connection close
    although its client is alive. *)

From stdpp Require Import base list numbers gmap strings.
From Stdlib Require Import Strings.Byte.
From S2P Require Import Prelude Machine RemoteProtocol Segments SegmentsSpec RemoteTracker RemoteSession OutboundSpec.

#[local] Set Default Proof Using "Type*".
#[local] Open Scope N_scope.

(** ** The phases of a connection, as the app server sees it

    A connection is late when a message other than [initialize] came first. *)
Inductive phase := Unopened | Opening | Active | Late | Closed | Broken.

#[global] Instance phase_eq_dec : EqDecision phase.
Proof. solve_decision. Defined.

Section Spec.
Context `{!Payloads} `{!WireCrates} `{!HashOrder}.

Definition phase_step (id : ConnectionId) (p : phase) (ev : TransportEvent) : phase :=
  match ev with
  | DaemonShutdown => p
  | ConnectionOpened c _ =>
      if c =? id then match p with Unopened => Opening | _ => Broken end else p
  | IncomingMessage c m =>
      if c =? id then
        match p, remote_control_message_starts_connection m with
        | Opening, true | Active, false => Active
        | Opening, false | Late, false => Late
        | _, _ => Broken
        end
      else p
  | ConnectionClosed c =>
      if c =? id then match p with Opening | Active | Late => Closed | _ => Broken end else p
  end.

Definition is_open (p : phase) : bool :=
  match p with Opening | Active | Late => true | Unopened | Closed | Broken => false end.

Definition phase_of (id : ConnectionId) (events : list TransportEvent) : phase :=
  foldl (phase_step id) Unopened events.

Lemma phase_of_snoc id evs ev : phase_of id (evs ++ [ev]) = phase_step id (phase_of id evs) ev.
Proof. apply foldl_snoc. Qed.

(** ** The invariant of the tracker *)
Abbreviation client_states := (stream_map ClientState).

Record conn_inv (cs : client_states) (legacy : client_map StreamId) (next : N) (cancelled : gset N)
    (evs : list TransportEvent) (detached : list ConnectionId) (interrupted : gset N) : Prop := {
  ci_phase id : phase_of id evs ≠ Broken;
  ci_fresh id : next ≤ id → phase_of id evs = Unopened;
  ci_live key cl : cs !! key = Some cl →
    is_open (phase_of (connection_id cl) evs) = true ∧ connection_id cl ∉ cancelled ∧
    (phase_of (connection_id cl) evs = Active ∨ connection_id cl ∈ interrupted);
  ci_late id : phase_of id evs = Late → id ∈ interrupted;
  ci_inj key key' cl cl' : cs !! key = Some cl → cs !! key' = Some cl' →
    connection_id cl = connection_id cl' → key = key';
  ci_open id : is_open (phase_of id evs) = true →
    (∃ key cl, cs !! key = Some cl ∧ connection_id cl = id) ∨ id ∈ cancelled;
  ci_detached id : id ∈ detached → is_open (phase_of id evs) = true ∧ id ∈ cancelled;
  ci_nodup : NoDup detached;
  ci_cancelled id : id ∈ cancelled → id < next;
  ci_legacy c s : legacy !! c = Some s → is_Some (cs !! (c, s));
}.

Definition tracker_inv (t : ClientTracker) : Prop :=
  conn_inv (clients t) (legacy_stream_ids t) (next_connection t) (cancelled t)
    (transport_events t) (detached_closes t) (interrupted t).

Section Components.
Context {cs : client_states} {legacy : client_map StreamId} {next : N} {cancelled : gset N}
  {evs : list TransportEvent} {detached : list ConnectionId} {interrupted : gset N}
  (Hinv : conn_inv cs legacy next cancelled evs detached interrupted).

Lemma live_below key cl : cs !! key = Some cl → connection_id cl < next.
Proof.
  intros Hk. destruct (ci_live _ _ _ _ _ _ _ Hinv key cl Hk) as (Ha & _).
  destruct (N.le_gt_cases next (connection_id cl)) as [Hle|]; [|done].
  rewrite (ci_fresh _ _ _ _ _ _ _ Hinv) in Ha; done.
Qed.

Lemma live_not_detached key cl : cs !! key = Some cl → connection_id cl ∉ detached.
Proof.
  intros Hk Hd. apply (ci_detached _ _ _ _ _ _ _ Hinv) in Hd as [_ Hd].
  by destruct (ci_live _ _ _ _ _ _ _ Hinv key cl Hk) as (_ & ? & _).
Qed.

(** A client is removed and its token cancelled; a stream without a name that was its
    stream is forgotten. *)
Lemma inv_remove key cl legacy' :
  cs !! key = Some cl → legacy' ⊆ legacy → legacy' !! key.1 ≠ Some key.2 →
  conn_inv (delete key cs) legacy' next ({[connection_id cl]} ∪ cancelled) evs detached interrupted.
Proof.
  intros Hk Hsub Hleg. split; try apply Hinv.
  - intros key' cl' [Hne Hk']%lookup_delete_Some. destruct (ci_live _ _ _ _ _ _ _ Hinv key' cl' Hk') as (? & ? & ?).
    split; [done|]. split; [|done]. apply not_elem_of_union. split; [|done]. intros Heq%elem_of_singleton.
    apply Hne. by eapply (ci_inj _ _ _ _ _ _ _ Hinv).
  - intros k k' a a' [_ Ha]%lookup_delete_Some [_ Ha']%lookup_delete_Some. by eapply Hinv.
  - intros id Ho. destruct (ci_open _ _ _ _ _ _ _ Hinv id Ho) as [(k & a & Ha & <-)|Hc]; [|right; set_solver].
    destruct (decide (k = key)) as [->|Hne]; [right|left].
    + rewrite Hk in Ha. injection Ha as ->. set_solver.
    + exists k, a. by rewrite lookup_delete_ne.
  - intros id Hd. destruct (ci_detached _ _ _ _ _ _ _ Hinv id Hd). split; [done|set_solver].
  - intros id [->%elem_of_singleton|Hc]%elem_of_union; [by eapply live_below|by apply Hinv].
  - intros c s Hl. pose proof (lookup_weaken _ _ _ _ Hl Hsub) as Hl'.
    destruct (ci_legacy _ _ _ _ _ _ _ Hinv c s Hl') as [a Ha]. exists a.
    rewrite lookup_delete_ne; [done|]. intros ->. by apply Hleg.
Qed.

(** The close event of a connection that is neither live nor closed by another task. *)
Lemma inv_closed id detached' :
  is_open (phase_of id evs) = true →
  (∀ key cl, cs !! key = Some cl → connection_id cl ≠ id) →
  detached' ⊆ detached → NoDup detached' → id ∉ detached' →
  conn_inv cs legacy next cancelled (evs ++ [ConnectionClosed id]) detached' interrupted.
Proof.
  intros Hph Hlive Hsub Hnd Hid.
  assert (Hother : ∀ id', id' ≠ id → phase_of id' (evs ++ [ConnectionClosed id]) = phase_of id' evs).
  { intros id' Hne. rewrite phase_of_snoc. simpl. destruct (N.eqb_spec id id'); congruence. }
  assert (Hself : phase_of id (evs ++ [ConnectionClosed id]) = Closed).
  { rewrite phase_of_snoc. simpl. rewrite N.eqb_refl. by destruct (phase_of id evs). }
  split; try apply Hinv; try done.
  - intros id'. destruct (decide (id' = id)) as [->|?]; [by rewrite Hself|]. rewrite Hother by done. apply Hinv.
  - intros id' Hle. destruct (decide (id' = id)) as [->|?].
    + by rewrite (ci_fresh _ _ _ _ _ _ _ Hinv) in Hph.
    + rewrite Hother by done. by apply Hinv.
  - intros key cl Hk. rewrite Hother by (by eapply Hlive). by eapply Hinv.
  - intros id'. destruct (decide (id' = id)) as [->|?]; [by rewrite Hself|]. rewrite Hother by done. apply Hinv.
  - intros id' Ho. destruct (decide (id' = id)) as [->|?]; [by rewrite Hself in Ho|].
    rewrite Hother in Ho by done. by apply Hinv.
  - intros id' Hd. rewrite Hother by (by intros ->). apply Hinv, Hsub, Hd.
Qed.

(** More connections are known to be interrupted. *)
Lemma inv_interrupt interrupted' :
  interrupted ⊆ interrupted' → conn_inv cs legacy next cancelled evs detached interrupted'.
Proof.
  intros Hsub. split; try apply Hinv.
  - intros key cl Hk. destruct (ci_live _ _ _ _ _ _ _ Hinv key cl Hk) as (? & ? & [?|?]); split_and!; auto.
  - intros id Hl. by apply Hsub, Hinv.
Qed.

(** The close event of a connection is left to a task of its own. *)
Lemma inv_detach id :
  is_open (phase_of id evs) = true → id ∈ cancelled → id ∉ detached →
  conn_inv cs legacy next cancelled evs (detached ++ [id]) interrupted.
Proof.
  intros Ho Hc Hd. split; try apply Hinv.
  - intros id' [Hid| ->%list_elem_of_singleton]%elem_of_app; [by apply Hinv|done].
  - apply NoDup_app. split_and!; [apply Hinv| |apply NoDup_singleton].
    intros id' Hid ->%list_elem_of_singleton. done.
Qed.

(** A message other than the first: it is the first after all when the first one was
    interrupted. *)
Lemma inv_deliver key cl m :
  cs !! key = Some cl → remote_control_message_starts_connection m = false →
  conn_inv cs legacy next cancelled (evs ++ [IncomingMessage (connection_id cl) m]) detached interrupted.
Proof.
  intros Hk Hm. pose proof (ci_live _ _ _ _ _ _ _ Hinv key cl Hk) as (Ho & Hc & Hi). set (id := connection_id cl) in *.
  set (evs' := evs ++ [IncomingMessage id m]).
  assert (Hother : ∀ id', id' ≠ id → phase_of id' evs' = phase_of id' evs).
  { intros id' Hne. unfold evs'. rewrite phase_of_snoc. simpl. destruct (N.eqb_spec id id'); congruence. }
  assert (Hself : phase_of id evs' = Active ∨ phase_of id evs' = Late ∧ id ∈ interrupted).
  { unfold evs'. rewrite phase_of_snoc. simpl. rewrite N.eqb_refl, Hm.
    destruct (phase_of id evs); try done; [right|left|right]; (split; [done|]) || done; by destruct Hi. }
  assert (Hopen : ∀ id', is_open (phase_of id' evs') = is_open (phase_of id' evs)).
  { intros id'. destruct (decide (id' = id)) as [->|?]; [|by rewrite Hother]. rewrite Ho. by destruct Hself as [->|[-> _]]. }
  split; try apply Hinv.
  - intros id'. destruct (decide (id' = id)) as [->|?]; [by destruct Hself as [->|[-> _]]|]. rewrite Hother by done. apply Hinv.
  - intros id' Hle. destruct (decide (id' = id)) as [->|?]; [|by rewrite Hother; [apply Hinv|]].
    by rewrite (ci_fresh _ _ _ _ _ _ _ Hinv) in Ho.
  - intros k a Ha. rewrite Hopen. destruct (ci_live _ _ _ _ _ _ _ Hinv k a Ha) as (? & ? & ?). split_and!; [done..|].
    destruct (decide (connection_id a = id)) as [->|?]; [|by rewrite Hother]. destruct Hself as [?|[_ ?]]; auto.
  - intros id'. destruct (decide (id' = id)) as [->|?]; [by destruct Hself as [->|[_ ?]]|]. rewrite Hother by done. apply Hinv.
  - intros id'. rewrite Hopen. apply Hinv.
  - intros id'. rewrite Hopen. apply Hinv.
Qed.

Lemma inv_touch key cl cl' :
  cs !! key = Some cl → connection_id cl' = connection_id cl →
  conn_inv (<[key:=cl']> cs) legacy next cancelled evs detached interrupted.
Proof.
  intros Hk Heq.
  assert (Hback : ∀ k a, <[key:=cl']> cs !! k = Some a → ∃ b, cs !! k = Some b ∧ connection_id a = connection_id b).
  { intros k a [[<- <-]|[_ Ha]]%lookup_insert_Some; by eauto. }
  split; try apply Hinv.
  - intros k a (b & Hb & ->)%Hback. by eapply Hinv.
  - intros k k' a a' (b & Hb & ->)%Hback (b' & Hb' & ->)%Hback. by eapply Hinv.
  - intros id Ho. destruct (ci_open _ _ _ _ _ _ _ Hinv id Ho) as [(k & a & Ha & <-)|?]; [left|by right].
    destruct (decide (k = key)) as [->|Hne].
    + rewrite Hk in Ha. injection Ha as ->. exists key, cl'. by rewrite lookup_insert_eq.
    + exists k, a. by rewrite lookup_insert_ne.
  - intros c s Hl. apply (ci_legacy _ _ _ _ _ _ _ Hinv) in Hl.
    destruct (decide (key = (c, s))) as [->|?]; [rewrite lookup_insert_eq; by eauto|by rewrite lookup_insert_ne].
Qed.

Lemma inv_legacy_sub legacy' : legacy' ⊆ legacy → conn_inv cs legacy' next cancelled evs detached interrupted.
Proof. intros Hs. split; try apply Hinv. intros c s Hl. eapply Hinv, lookup_weaken; eauto. Qed.

Lemma inv_legacy_insert c s :
  is_Some (cs !! (c, s)) → conn_inv cs (<[c:=s]> legacy) next cancelled evs detached interrupted.
Proof.
  intros Hs. split; try apply Hinv. intros c' s' [[<- <-]|[_ Hl]]%lookup_insert_Some; [done|by apply Hinv].
Qed.

(** An id is used up. *)
Lemma inv_next : conn_inv cs legacy (next + 1) cancelled evs detached interrupted.
Proof.
  split; try apply Hinv.
  - intros id Hle. apply Hinv. lia.
  - intros id Hc. apply (ci_cancelled _ _ _ _ _ _ _ Hinv) in Hc. lia.
Qed.

(** The phases after a connection with the next id is opened. *)
Lemma phase_opened origin id :
  phase_of id (evs ++ [ConnectionOpened next origin]) = if next =? id then Opening else phase_of id evs.
Proof.
  rewrite phase_of_snoc. simpl. destruct (N.eqb_spec next id) as [<-|]; [|done].
  by rewrite (ci_fresh _ _ _ _ _ _ _ Hinv).
Qed.

Lemma next_not_live key cl : cs !! key = Some cl → connection_id cl ≠ next.
Proof. intros Hk. apply live_below in Hk. lia. Qed.

(** A connection is opened and its first message could not be forwarded. *)
Lemma inv_abandoned origin :
  conn_inv cs legacy (next + 1) ({[next]} ∪ cancelled) (evs ++ [ConnectionOpened next origin])
    (detached ++ [next]) interrupted.
Proof.
  assert (Hphase : ∀ id, id ≠ next → phase_of id (evs ++ [ConnectionOpened next origin]) = phase_of id evs).
  { intros id Hne. rewrite phase_opened. by destruct (N.eqb_spec next id). }
  assert (Hnew : phase_of next (evs ++ [ConnectionOpened next origin]) = Opening)
    by (by rewrite phase_opened, N.eqb_refl).
  assert (Hd : next ∉ detached).
  { intros [_ Hc]%(ci_detached _ _ _ _ _ _ _ Hinv). apply (ci_cancelled _ _ _ _ _ _ _ Hinv) in Hc. lia. }
  split; try apply Hinv.
  - intros id. destruct (decide (id = next)) as [->|?]; [by rewrite Hnew|]. rewrite Hphase by done. apply Hinv.
  - intros id Hle. rewrite Hphase by lia. apply Hinv. lia.
  - intros key cl Hk. rewrite Hphase by (by eapply next_not_live).
    destruct (ci_live _ _ _ _ _ _ _ Hinv key cl Hk) as (? & ? & ?). split_and!; [done| |done].
    apply next_not_live in Hk. set_solver.
  - intros id. destruct (decide (id = next)) as [->|?]; [by rewrite Hnew|]. rewrite Hphase by done. apply Hinv.
  - intros id Ho. destruct (decide (id = next)) as [->|?]; [right; set_solver|].
    rewrite Hphase in Ho by done. destruct (ci_open _ _ _ _ _ _ _ Hinv id Ho); [by left|right; set_solver].
  - intros id [Hid| ->%list_elem_of_singleton]%elem_of_app; [|rewrite Hnew; split; [done|set_solver]].
    rewrite Hphase by (by intros ->). destruct (ci_detached _ _ _ _ _ _ _ Hinv id Hid). split; [done|set_solver].
  - apply NoDup_app. split_and!; [apply Hinv| |apply NoDup_singleton].
    intros id Hid ->%list_elem_of_singleton. done.
  - intros id [->%elem_of_singleton|Hc]%elem_of_union; [lia|].
    apply (ci_cancelled _ _ _ _ _ _ _ Hinv) in Hc. lia.
Qed.

(** A connection is opened for a client, and is left in the phase [p]. *)
Lemma inv_insert key cl evs' p interrupted' :
  cs !! key = None → connection_id cl = next →
  (∀ id, phase_of id evs' = if next =? id then p else phase_of id evs) →
  p = Active ∨ p = Opening ∧ next ∈ interrupted' → interrupted ⊆ interrupted' →
  conn_inv (<[key:=cl]> cs) legacy (next + 1) cancelled evs' detached interrupted'.
Proof.
  intros Hk Hid Hphase Hp Hsub.
  assert (Hlive : ∀ k a, cs !! k = Some a → (next =? connection_id a) = false).
  { intros k a Ha. apply next_not_live in Ha. by apply N.eqb_neq. }
  split; try apply Hinv.
  - intros id. rewrite Hphase. destruct (next =? id); [by destruct Hp as [->|[-> _]]|apply Hinv].
  - intros id Hle. rewrite Hphase. destruct (N.eqb_spec next id); [lia|]. apply Hinv. lia.
  - intros k a [[<- <-]|[_ Ha]]%lookup_insert_Some; rewrite Hphase.
    + rewrite Hid, N.eqb_refl. split_and!; [by destruct Hp as [->|[-> _]]| |by destruct Hp as [->|[-> ?]]; auto].
      intros Hc%(ci_cancelled _ _ _ _ _ _ _ Hinv). lia.
    + rewrite (Hlive k a Ha). destruct (ci_live _ _ _ _ _ _ _ Hinv k a Ha) as (? & ? & [?|?]); split_and!; auto.
  - intros id. rewrite Hphase. destruct (next =? id); [by destruct Hp as [->|[-> _]]|]. intros Hl. by apply Hsub, Hinv.
  - intros k k' a a' Ha Ha' Heq. apply lookup_insert_Some in Ha, Ha'.
    destruct Ha as [[<- <-]|[? Ha]], Ha' as [[<- <-]|[? Ha']]; [done| | |by eapply Hinv].
    + apply next_not_live in Ha'. congruence.
    + apply next_not_live in Ha. congruence.
  - intros id. rewrite Hphase. destruct (N.eqb_spec next id) as [<-|Hne].
    + intros _. left. exists key, cl. by rewrite lookup_insert_eq.
    + intros Ho. destruct (ci_open _ _ _ _ _ _ _ Hinv id Ho) as [(k & a & Ha & Hia)|?]; [left|by right].
      exists k, a. rewrite lookup_insert_ne; [done|]. congruence.
  - intros id Hd. rewrite Hphase. destruct (ci_detached _ _ _ _ _ _ _ Hinv id Hd) as [? Hc].
    destruct (N.eqb_spec next id) as [<-|]; [|done]. apply (ci_cancelled _ _ _ _ _ _ _ Hinv) in Hc. lia.
  - intros id Hc. apply (ci_cancelled _ _ _ _ _ _ _ Hinv) in Hc. lia.
  - intros c s Hl. apply (ci_legacy _ _ _ _ _ _ _ Hinv) in Hl.
    destruct (decide (key = (c, s))) as [->|?]; [rewrite lookup_insert_eq; by eauto|by rewrite lookup_insert_ne].
Qed.

(** A connection is opened and its first message forwarded, or interrupted. *)
Lemma inv_opened origin key cl m :
  cs !! key = None → connection_id cl = next → remote_control_message_starts_connection m = true →
  conn_inv (<[key:=cl]> cs) legacy (next + 1) cancelled
    ((evs ++ [ConnectionOpened next origin]) ++ [IncomingMessage next m]) detached interrupted.
Proof.
  intros Hk Hid Hm. apply (inv_insert key cl _ Active); [done..| |by left|done].
  intros id. rewrite phase_of_snoc, phase_opened. simpl. destruct (next =? id); [by rewrite Hm|done].
Qed.

Lemma inv_opening origin key cl :
  cs !! key = None → connection_id cl = next →
  conn_inv (<[key:=cl]> cs) legacy (next + 1) cancelled (evs ++ [ConnectionOpened next origin]) detached
    ({[next]} ∪ interrupted).
Proof.
  intros Hk Hid. apply (inv_insert key cl _ Opening); [done..| |right; set_solver|set_solver].
  intros id. apply phase_opened.
Qed.
End Components.

(** ** The operations of the tracker *)
Definition forget_legacy (key : StreamKey) (legacy : client_map StreamId) : client_map StreamId :=
  if is_some_and (legacy !! key.1) (λ s, str_eqb s key.2) then delete key.1 legacy else legacy.

Lemma forget_legacy_sub key legacy : forget_legacy key legacy ⊆ legacy.
Proof. unfold forget_legacy. destruct (is_some_and _ _); [apply delete_subseteq|done]. Qed.

Lemma forget_legacy_at key legacy : forget_legacy key legacy !! key.1 ≠ Some key.2.
Proof.
  unfold forget_legacy. destruct (legacy !! key.1) as [s|] eqn:Hl; simpl; [|by rewrite Hl].
  unfold str_eqb. case_bool_decide as Hs; [by rewrite lookup_delete_eq|congruence].
Qed.

Lemma remove_client_eq key t :
  remove_client key t =
  match clients t !! key with
  | None => (t, Ok None)
  | Some cl => (set_legacy (forget_legacy key (legacy_stream_ids t)) (set_clients (delete key (clients t)) t),
                Ok (Some cl))
  end.
Proof.
  unfold remove_client. run_tracking. destruct (clients t !! key) as [cl|]; [|done].
  cbn [legacy_stream_ids set_clients]. unfold forget_legacy.
  destruct t; simpl. by destruct (is_some_and _ _).
Qed.

(** Closing a client: it is gone, and the invariant is kept whether or not the close
    event arrives. *)
Lemma close_client_inv key t :
  tracker_inv t →
  tracker_inv (close_client key t).1 ∧
  clients (close_client key t).1 = delete key (clients t) ∧
  next_connection (close_client key t).1 = next_connection t.
Proof.
  intros Hinv. unfold close_client. unfold mbind, tracking_bind. rewrite remove_client_eq.
  destruct (clients t !! key) as [cl|] eqn:Hk.
  2:{ simpl. split_and!; [done| |done]. by rewrite delete_id. }
  pose proof (inv_remove Hinv key cl _ Hk (forget_legacy_sub key _) (forget_legacy_at key _)) as Hrem.
  unfold cancel_token, modify, send_transport_event, send_connection_closed, send_event. cbv beta iota.
  cbn [send_results set_legacy set_clients transport_events clients legacy_stream_ids join_set next_connection
       cancelled detached_closes unknown_pongs].
  assert (Ho : is_open (phase_of (connection_id cl) (transport_events t)) = true) by apply (ci_live _ _ _ _ _ _ _ Hinv _ _ Hk).
  assert (Hnd : connection_id cl ∉ detached_closes t) by by eapply (live_not_detached Hinv).
  destruct (hd Delivered (send_results t)); (split_and!; [|done..]); unfold tracker_inv; simpl.
  - apply (inv_closed Hrem); try done; [|apply (ci_nodup _ _ _ _ _ _ _ Hinv)].
    intros k a [Hne Ha]%lookup_delete_Some Heq. apply Hne. by eapply (ci_inj _ _ _ _ _ _ _ Hinv).
  - exact Hrem.
  - apply (inv_detach Hrem); [done|set_solver|done].
Qed.

Lemma record_delivery_inv key sq t :
  tracker_inv t →
  tracker_inv (record_inbound_message_delivery key sq t).1 ∧
  next_connection (record_inbound_message_delivery key sq t).1 = next_connection t.
Proof.
  intros Hinv. unfold record_inbound_message_delivery. run_tracking.
  destruct sq as [sq|]; [|done]. destruct (clients t !! key) as [cl|] eqn:Hk; [|done].
  split; [|done]. by eapply (inv_touch Hinv).
Qed.

(** Opening a connection, with each result of the two sends. *)
Lemma open_client_inv now key leg m sq t :
  tracker_inv t → clients t !! key = None → remote_control_message_starts_connection m = true →
  next_connection t + 1 < 2 ^ 64 →
  tracker_inv (open_client now key leg m sq t).1 ∧
  next_connection (open_client now key leg m sq t).1 = next_connection t + 1.
Proof.
  intros Hinv Hk Hm Hlt. unfold open_client, next_connection_id, send_transport_event, send_event.
  run_tracking. cbn [send_results transport_events].
  assert (Hmod : (next_connection t + 1) mod 2 ^ 64 = next_connection t + 1) by (by apply N.mod_small).
  rewrite Hmod. clear Hmod. destruct (hd Delivered (send_results t)); simpl.
  2,3: split; [apply (inv_next Hinv)|done].
  set (cl := mkClientState (next_connection t) now None (PongStatus_Active, 0)).
  pose proof (inv_opened Hinv Origin_RemoteControl key cl m Hk eq_refl Hm) as Hopened.
  pose proof (inv_opening Hinv Origin_RemoteControl key cl Hk eq_refl) as Hopening.
  assert (Hkey : is_Some (<[key:=cl]> (clients t) !! (key.1, key.2))) by (destruct key; rewrite lookup_insert_eq; by eauto).
  destruct leg; simpl; destruct (hd Delivered (tl (send_results t))); simpl.
  - split; [|done]. by apply (inv_legacy_insert Hopened).
  - unfold abandon_client, cancel_token, spawn_connection_closed. run_tracking. rewrite remove_client_eq.
    simpl. rewrite lookup_insert_eq. simpl. split; [|done]. unfold tracker_inv. simpl.
    rewrite delete_insert_id by done.
    eapply inv_legacy_sub; [apply (inv_abandoned Hinv)|]. unfold forget_legacy.
    rewrite lookup_insert_eq. simpl. rewrite str_eqb_refl, delete_insert_eq. apply delete_subseteq.
  - split; [|done]. by apply (inv_legacy_insert Hopening).
  - set (t1 := set_send _ _ _). enough (tracker_inv t1 ∧ next_connection t1 = next_connection t + 1) as [Ht1 Hn1].
    { destruct (record_delivery_inv key sq t1 Ht1) as [? ->]. done. }
    split; [|done]. exact Hopened.
  - unfold abandon_client, cancel_token, spawn_connection_closed. run_tracking. rewrite remove_client_eq.
    simpl. rewrite lookup_insert_eq. simpl. split; [|done]. unfold tracker_inv. simpl.
    rewrite delete_insert_id by done.
    eapply inv_legacy_sub; [apply (inv_abandoned Hinv)|]. apply forget_legacy_sub.
  - split; [|done]. exact Hopening.
Qed.

(** A message to a live connection. *)
Lemma forward_client_inv now key cl m sq t :
  tracker_inv t → clients t !! key = Some cl → remote_control_message_starts_connection m = false →
  let r := (modify (λ t, set_clients (<[key := touch now cl]> (clients t)) t);;
            send_transport_event (IncomingMessage (connection_id cl) m);;
            record_inbound_message_delivery key sq) t in
  tracker_inv r.1 ∧ next_connection r.1 = next_connection t.
Proof.
  intros Hinv Hk Hm. unfold send_transport_event, send_event. run_tracking. simpl.
  pose proof (inv_touch Hinv key cl (touch now cl) Hk eq_refl) as Ht.
  destruct (hd Delivered (send_results t)); simpl; [|done|].
  2:{ split; [|done]. apply (inv_interrupt Ht). set_solver. }
  set (t1 := set_send _ _ _). enough (tracker_inv t1) as Ht1.
  { by destruct (record_delivery_inv key sq t1 Ht1) as [? ->]. }
  unfold tracker_inv. simpl. apply (inv_deliver Ht key (touch now cl)); [by rewrite lookup_insert_eq|done].
Qed.

(** An operation keeps the invariant and uses ids below [n]. *)
Definition keeps_inv {A} (n : N) (r : ClientTracker * A) : Prop :=
  tracker_inv r.1 ∧ next_connection r.1 ≤ n.

Lemma handle_client_message_inv now key leg m sq t :
  tracker_inv t → next_connection t + 1 < 2 ^ 64 →
  keeps_inv (next_connection t + 1)
    (handle_client_message now key leg m sq (remote_control_message_starts_connection m) t).
Proof.
  intros Hinv Hlt. unfold handle_client_message. set (init := remote_control_message_starts_connection m).
  assert (Hsame : ∀ t1 (r : result Halt unit), tracker_inv t1 → next_connection t1 = next_connection t →
    keeps_inv (next_connection t + 1) (t1, r)) by (intros t1 r ? Hn; split; [done|simpl; lia]).
  unfold mbind at 1, tracking_bind at 1, gets at 1. cbv beta iota.
  destruct (already_delivered sq (clients t !! key) && negb init); [by apply Hsame|].
  unfold mbind at 1, tracking_bind at 1.
  assert (Hclose : ∃ t1 r1, (if init && bool_decide (is_Some (clients t !! key)) then close_client key
                             else mret tt) t = (t1, r1) ∧ tracker_inv t1 ∧
    next_connection t1 = next_connection t ∧ (init = true → clients t1 !! key = None)).
  { destruct init; cbn [andb].
    - destruct (close_client_inv key t Hinv) as (? & Hc & ?). case_bool_decide as Hs.
      + destruct (close_client key t) as [t1 r1]. eexists _, _. split_and!; [done..|].
        intros _. simpl in Hc. by rewrite Hc, lookup_delete_eq.
      + eexists _, _. split_and!; [done..|]. intros _. by apply eq_None_not_Some.
    - eexists _, _. split_and!; by try done. }
  destruct Hclose as (t1 & r1 & -> & Hinv1 & Hn1 & Hnone). destruct r1 as [[]|]; [|by apply Hsame].
  unfold mbind at 1, tracking_bind at 1, gets at 1. cbv beta iota.
  destruct (clients t1 !! key) as [cl|] eqn:Hk.
  - assert (init = false) as Hinit by (destruct init; [by specialize (Hnone eq_refl)|done]).
    destruct (forward_client_inv now key cl m sq t1 Hinv1 Hk Hinit) as [? Hn]. split; [done|]. rewrite Hn. lia.
  - destruct init eqn:Hinit; [|by apply Hsame].
    destruct (open_client_inv now key leg m sq t1) as [? Hn]; [done..|lia|]. split; [done|]. rewrite Hn. lia.
Qed.

Lemma resolve_stream_inv fresh c s e init t :
  tracker_inv t →
  ∃ t1 s1, resolve_stream_id fresh c s e init t = (t1, Ok s1) ∧ tracker_inv t1 ∧
    next_connection t1 = next_connection t.
Proof.
  intros Hinv. unfold resolve_stream_id. destruct s as [s|]; [by eauto 10|]. run_tracking.
  destruct init; eexists _, _; (split_and!; [done| |done]); [|done].
  apply (inv_legacy_sub Hinv), delete_subseteq.
Qed.

Lemma handle_message_inv now fresh e t :
  tracker_inv t → next_connection t + 1 < 2 ^ 64 →
  keeps_inv (next_connection t + 1) (handle_message now fresh e t).
Proof.
  intros Hinv Hlt. unfold handle_message. unfold mbind at 1, tracking_bind at 1.
  destruct (resolve_stream_inv fresh (client_client_id e) (client_stream_id e) (client_event e)
    (is_initialize_event (client_event e)) t Hinv) as (t1 & s1 & -> & Hinv1 & Hn1). rewrite <- Hn1 in *.
  assert (Hsame : keeps_inv (next_connection t1 + 1) (t1, @Ok Halt unit tt)) by (split; [done|simpl; lia]).
  destruct (is_empty s1); [done|].
  destruct (client_event e) as [m| | | |]; try done.
  - by apply handle_client_message_inv.
  - run_tracking. destruct (clients t1 !! _) as [cl|] eqn:Hk; (split; [|simpl; lia]); [|done].
    by eapply (inv_touch Hinv1).
  - destruct (close_client_inv (client_client_id e, s1) t1 Hinv1) as (? & _ & Hn). split; [done|].
    rewrite Hn. lia.
Qed.

Lemma close_clients_inv keys t :
  tracker_inv t → tracker_inv (close_clients keys t).1 ∧
  next_connection (close_clients keys t).1 = next_connection t.
Proof.
  revert t. induction keys as [|key keys IH]; intros t Hinv; [done|].
  cbn [close_clients]. unfold mbind, tracking_bind.
  destruct (close_client_inv key t Hinv) as (Hinv1 & _ & Hn1).
  destruct (close_client key t) as [t1 [[]|]]; simpl in *; [|done].
  destruct (IH t1 Hinv1) as [? ->]. done.
Qed.

Lemma close_expired_inv now t : tracker_inv t → keeps_inv (next_connection t) (close_expired_clients now t).
Proof.
  intros Hinv. unfold close_expired_clients. run_tracking.
  destruct (close_clients_inv (expired_client_ids now t) t Hinv) as [Hi Hn].
  destruct (close_clients _ t) as [t1 [[]|]]; split; simpl in *; try done; lia.
Qed.

Lemma shutdown_loop_inv fuel t :
  tracker_inv t → tracker_inv (shutdown_loop fuel t).1 ∧
  next_connection (shutdown_loop fuel t).1 = next_connection t.
Proof.
  revert t. induction fuel as [|fuel IH]; intros t Hinv; cbn [shutdown_loop]; [done|].
  destruct (hash_iter (clients t)) as [|[key cl] l]; [done|].
  destruct (close_client_inv key t Hinv) as (Hinv1 & _ & Hn1).
  destruct (close_client key t) as [t1 [[]|[err|]]]; simpl in *; [|..|done];
    destruct (IH _ Hinv1) as [? ->]; done.
Qed.

(** Without an abort every client is closed. *)
Lemma shutdown_loop_empties fuel t :
  Forall (λ r, r ≠ Aborted) (send_results t) →
  (shutdown_loop fuel t).2 = Ok tt ∧ size (clients (shutdown_loop fuel t).1) = (size (clients t) - fuel)%nat.
Proof.
  revert t. induction fuel as [|fuel IH]; intros t Hres; cbn [shutdown_loop]; [split; [done|simpl; lia]|].
  pose proof (hash_iter_perm (clients t)) as Hp.
  destruct (hash_iter (clients t)) as [|[key cl] l] eqn:Hit.
  - symmetry in Hp. apply Permutation_nil_r, map_to_list_empty_iff in Hp as Hm.
    split; [done|]. simpl. rewrite Hm, map_size_empty. lia.
  - assert (Hk : clients t !! key = Some cl).
    { apply elem_of_map_to_list. rewrite <- Hp. left. }
    unfold close_client. unfold mbind, tracking_bind. rewrite remove_client_eq, Hk.
    unfold cancel_token, modify, send_transport_event, send_connection_closed, send_event. cbv beta iota. simpl.
    destruct (send_results t) as [|r rs]; [|apply Forall_cons in Hres as [Hr Hres]; destruct r; [| |done] ]; simpl;
      (match goal with |- context [shutdown_loop fuel ?t1] => destruct (IH t1) as [-> ->]; [done|] end;
       split; [done|]; simpl; rewrite map_size_delete_Some by eauto; lia).
Qed.

Lemma detached_inv i t :
  tracker_inv t → tracker_inv (deliver_detached i t) ∧
  next_connection (deliver_detached i t) = next_connection t.
Proof.
  intros Hinv. unfold deliver_detached. destruct (detached_closes t !! i) as [id|] eqn:Hi; [|done].
  pose proof (list_elem_of_lookup_2 _ _ _ Hi) as Hin.
  destruct (ci_detached _ _ _ _ _ _ _ Hinv id Hin) as [Hph Hc].
  pose proof (ci_nodup _ _ _ _ _ _ _ Hinv) as Hnd.
  assert (Hperm : detached_closes t ≡ₚ id :: delete i (detached_closes t)) by by apply delete_Permutation.
  rewrite Hperm in Hnd. apply NoDup_cons in Hnd as [Hid Hnd].
  assert (Hsub : delete i (detached_closes t) ⊆ detached_closes t).
  { intros x Hx. rewrite Hperm. by right. }
  destruct (hd Delivered (send_results t)); (split; [|done]); unfold tracker_inv; simpl.
  - apply (inv_closed Hinv); try done.
    intros key cl Hk <-. by destruct (ci_live _ _ _ _ _ _ _ Hinv key cl Hk) as (_ & ? & _).
  - split; try apply Hinv; [|done]. intros x Hx. by apply Hinv, Hsub.
  - split; try apply Hinv; [|done]. intros x Hx. by apply Hinv, Hsub.
Qed.

(** ** Runs of the reader, the writer and the tasks *)
Inductive session_step : Session → Session → Prop :=
| session_read locks now fresh e wire s s' go :
    read_envelope_until locks now fresh e wire s = Some (s', go) → session_step s s'
| session_task_end locks i s : session_step s (read_task_end_until locks i s).1
| session_sweep locks now s : session_step s (read_idle_sweep_until locks now s).1
| session_write q s w' payloads :
    write_queued q (websocket_state s) = Some (w', payloads) →
    session_step s (mkSession w' (client_tracker s))
| session_detached i s : session_step s (mkSession (websocket_state s) (deliver_detached i (client_tracker s)))
| session_other_connection s :
    session_step s (mkSession (websocket_state s) (next_connection_id (client_tracker s)).1)
| session_shutdown s : session_step s (mkSession (websocket_state s) (shutdown (client_tracker s)).1).

Definition Session_new (first : N) (results : list SendResult) : Session :=
  mkSession WebsocketState_new (ClientTracker_new first results).

Context `{!WireLaws}.

Record session_inv (n : N) (s : Session) : Prop := {
  si_tracker : tracker_inv (client_tracker s);
  si_next : next_connection (client_tracker s) ≤ n;
  si_reassembler : wf_state (client_segment_reassembler (websocket_state s));
}.

Lemma observe_client_message_wf now e wire w :
  wf_state (client_segment_reassembler w) →
  ∃ w' o, observe_client_message now e wire w = Some (w', o) ∧ wf_state (client_segment_reassembler w').
Proof.
  intros Hwf. unfold observe_client_message.
  destruct (chunk_completed _ _); [by eauto|]. destruct (chunk_ignored _ _ _); [by eauto|].
  destruct (_ && _).
  - eexists _, _. split; [done|]. destruct (client_stream_id e); [by apply wf_remove|done].
  - destruct (observe_wf now _ e Hwf) as (r & o & -> & Hr). by eauto.
Qed.

(** The other parts of the bookkeeping leave the reassembler bounded. *)
Lemma record_client_message_delivery_reassembler e key w :
  client_segment_reassembler (record_client_message_delivery e key w) = client_segment_reassembler w.
Proof.
  unfold record_client_message_delivery. destruct (client_cursor e), key as [[??]|],
    (client_event e), (client_seq_id e), (client_stream_id e); done.
Qed.

Lemma read_envelope_inv n locks now fresh e wire s :
  session_inv n s → n + 1 < 2 ^ 64 →
  ∃ s' go, read_envelope_until locks now fresh e wire s = Some (s', go) ∧ session_inv (n + 1) s'.
Proof.
  intros [Ht Hn Hr] Hlt. unfold read_envelope_until.
  destruct locks as [|locks]; [eexists _, _; (split; [done|]); split; [done|lia|done]|].
  destruct (observe_client_message_wf now e wire _ Hr) as (w & o & -> & Hw). cbn [mbind option_bind].
  destruct o as [e'| |].
  2,3: eexists _, _; (split; [done|]); split; simpl; [done|lia|done].
  destruct (handle_message_inv now fresh e' (client_tracker s) Ht) as [Ht' Hn']; [lia|].
  assert (Hrec := record_client_message_delivery_reassembler e' (client_message_key e) w).
  destruct (handle_message now fresh e' (client_tracker s)) as [t [[]|]]; simpl in Ht', Hn'.
  2: eexists _, _; (split; [done|]); split; simpl; [done|lia|done].
  destruct locks as [|locks]; [eexists _, _; (split; [done|]); split; simpl; [done|lia|done]|].
  destruct (client_event e'); try (eexists _, _; (split; [done|]); split; simpl; [done|lia|by rewrite Hrec]).
  destruct locks as [|locks]; [eexists _, _; (split; [done|]); split; simpl; [done|lia|by rewrite Hrec]|].
  eexists _, _. split; [done|]. split; cbn [websocket_state client_tracker]; [done|lia|].
  destruct (client_stream_id e'); simpl; rewrite Hrec; [by apply wf_remove|by apply wf_delete].
Qed.

Lemma forget_streams_wf keys w :
  wf_state (client_segment_reassembler w) →
  wf_state (client_segment_reassembler
    (foldl (λ w '(client_id, stream_id), forget_stream client_id stream_id w) w keys)).
Proof.
  revert w. induction keys as [|[c st] keys IH]; intros w Hw; [done|]. cbn [foldl].
  apply IH. by apply wf_remove.
Qed.

Lemma write_queued_reassembler q w w' payloads :
  write_queued q w = Some (w', payloads) → client_segment_reassembler w' = client_segment_reassembler w.
Proof.
  unfold write_queued. destruct (split_server_envelope_for_transport _) as [[envs|]|]; simpl; [|by intros [= <- _]|done].
  destruct (buffer_envelopes _ _). by intros [= <- _].
Qed.

Lemma session_step_inv n s s' :
  session_step s s' → session_inv n s → n + 1 < 2 ^ 64 → session_inv (n + 1) s'.
Proof.
  intros Hstep Hinv Hlt. pose proof Hinv as [Ht Hn Hr]. destruct Hstep as [locks now fresh e wire s s' go Hread|locks i s|locks now s|q s w' ps Hw|i s|s|s].
  - destruct (read_envelope_inv n locks now fresh e wire s Hinv Hlt) as (? & ? & Heq & ?). congruence.
  - unfold read_task_end_until, bookkeep_join_set. run_tracking.
    destruct (join_set (client_tracker s) !! i) as [[key c]|]; [|split; simpl; [done|lia|done]].
    set (t1 := set_join_set _ _). assert (Ht1 : tracker_inv t1) by exact Ht.
    destruct (close_client_inv key t1 Ht1) as (Ht2 & _ & Hn2).
    destruct (close_client key t1) as [t2 [[]|]]; [destruct locks as [|[|locks] ]|]; simpl in *;
      split; simpl; try done; try lia; by apply wf_remove.
  - unfold read_idle_sweep_until. destruct (close_expired_inv now (client_tracker s) Ht) as [Ht1 Hn1].
    destruct (close_expired_clients now (client_tracker s)) as [t1 [keys|]]; [destruct locks|]; simpl in *;
      split; simpl; try done; try lia. by apply forget_streams_wf.
  - split; simpl; [done|lia|]. by rewrite (write_queued_reassembler _ _ _ _ Hw).
  - destruct (detached_inv i (client_tracker s) Ht) as [? Hn1].
    split; cbn [client_tracker websocket_state]; [done| |done]. rewrite Hn1. lia.
  - split; cbn [client_tracker websocket_state]; [| |done].
    + unfold tracker_inv, next_connection_id. simpl. rewrite N.mod_small by lia. apply (inv_next Ht).
    + unfold next_connection_id. simpl. rewrite N.mod_small by lia. lia.
  - destruct (shutdown_loop_inv (size (clients (client_tracker s))) (client_tracker s) Ht) as (Ht1 & Hn1).
    unfold shutdown. run_tracking. destruct (shutdown_loop _ (client_tracker s)) as [t1 [[]|]]; simpl in *;
      (split; cbn [client_tracker websocket_state]; [exact Ht1|simpl; lia|done]).
Qed.

Lemma session_steps_inv k s s' :
  nsteps session_step k s s' → ∀ n, session_inv n s → n + N.of_nat k < 2 ^ 64 → session_inv (n + N.of_nat k) s'.
Proof.
  induction 1 as [s|k s1 s2 s3 Hstep _ IH]; intros n Hinv Hlt; [by rewrite N.add_0_r|].
  replace (n + N.of_nat (S k)) with (n + 1 + N.of_nat k) by lia. apply IH; [|lia].
  eapply session_step_inv; [done..|lia].
Qed.

Lemma Session_new_inv first results : session_inv first (Session_new first results).
Proof.
  split; [|done|split; [done|apply map_Forall_empty]].
  split; simpl; try done; try (by intros ? [|]); try (intros *; set_solver). constructor.
Qed.

(** C8: However envelopes, writes, ends of tasks, sweeps and reconnects follow each other,
    whichever sends to the app server fail, and wherever the reader is aborted, at a send or
    at a lock, the app server sees every connection opened once, then its messages, the
    first of which is the initialize request, and closed at most once; a message can come
    before the initialize request only when the reader was aborted while it sent a message
    of this connection.  Every client that is tracked has an open connection of its own,
    whose initialize request arrived unless that happened; every other open connection has
    its token cancelled; the reassembler stays bounded, and no envelope makes the reader
    panic. *)
Theorem connections_well_formed first results k s :
  nsteps session_step k (Session_new first results) s → first + N.of_nat k + 1 < 2 ^ 64 →
  let t := client_tracker s in
  (∀ id, phase_of id (transport_events t) ≠ Broken ∧
         (phase_of id (transport_events t) = Late → id ∈ interrupted t)) ∧
  (∀ key cl, clients t !! key = Some cl →
     is_open (phase_of (connection_id cl) (transport_events t)) = true ∧ connection_id cl ∉ cancelled t ∧
     (phase_of (connection_id cl) (transport_events t) = Active ∨ connection_id cl ∈ interrupted t) ∧
     ∀ key' cl', clients t !! key' = Some cl' → connection_id cl' = connection_id cl → key' = key) ∧
  (∀ id, is_open (phase_of id (transport_events t)) = true →
     (∃ key cl, clients t !! key = Some cl ∧ connection_id cl = id) ∨ id ∈ cancelled t) ∧
  wf_state (client_segment_reassembler (websocket_state s)) ∧
  ∀ locks now fresh e wire, is_Some (read_envelope_until locks now fresh e wire s).
Proof.
  intros Hsteps Hlt t. pose proof (session_steps_inv _ _ _ Hsteps first (Session_new_inv _ _) ltac:(lia)) as Hinv.
  pose proof (si_tracker _ _ Hinv) as Ht. fold t in Ht. split_and!.
  - intros id. split; [apply (ci_phase _ _ _ _ _ _ _ Ht)|apply (ci_late _ _ _ _ _ _ _ Ht)].
  - intros key cl Hk. destruct (ci_live _ _ _ _ _ _ _ Ht key cl Hk) as (? & ? & ?). split_and!; [done..|].
    intros key' cl' Hk' Heq. by eapply (ci_inj _ _ _ _ _ _ _ Ht).
  - apply (ci_open _ _ _ _ _ _ _ Ht).
  - apply Hinv.
  - intros locks now fresh e wire.
    destruct (read_envelope_inv _ locks now fresh e wire s Hinv ltac:(lia)) as (? & ? & -> & _). by eauto.
Qed.

(** The end of an outbound task closes the connection of its stream, also when this
    connection is a newer one than that of the task. *)
Theorem task_end_closes_current_connection i s key c cl :
  join_set (client_tracker s) !! i = Some (key, c) →
  clients (client_tracker s) !! key = Some cl →
  hd Delivered (send_results (client_tracker s)) = Delivered →
  let s' := (read_task_end i s).1 in
  clients (client_tracker s') !! key = None ∧
  last (transport_events (client_tracker s')) = Some (ConnectionClosed (connection_id cl)).
Proof.
  intros Hi Hk Hsend. cbv zeta. unfold read_task_end, read_task_end_until, bookkeep_join_set. run_tracking. rewrite Hi.
  unfold close_client. unfold mbind, tracking_bind. rewrite remove_client_eq. cbn [clients set_join_set]. rewrite Hk.
  unfold cancel_token, modify, send_transport_event, send_connection_closed, send_event. simpl. rewrite Hsend. simpl.
  by rewrite lookup_delete_eq, last_snoc.
Qed.
End Spec.
