(* ===== verification/DeliverySpec.v ===== *)
(** * Remote control: chunked messages arrive exactly once

    The chunks of a client's message, in order and with any repetition of earlier ones,
    deliver it to the app server exactly once. *)

From stdpp Require Import base list numbers gmap strings.
From Stdlib Require Import Strings.Byte.
From S2P Require Import Prelude Machine RemoteProtocol Segments SegmentsSpec RemoteTracker RemoteSession ConnectionSpec.

#[local] Set Default Proof Using "Type*".
#[local] Open Scope N_scope.

Section Spec.
Context `{!Payloads} `{!WireCrates} `{!HashOrder} `{!WireLaws}.

(** ** A message of a client *)

(** One arrival of a chunk: the time, the random stream id on offer, the cursor, the size
    on the wire and the number of the chunk. *)
Record arrival := mkArrival {
  arrival_now : N;
  arrival_fresh : StreamId;
  arrival_cursor : option rstring;
  arrival_wire : N;
  arrival_chunk : nat;
}.

(** The reader over a list of arrivals, until it stops. *)
Fixpoint read_chunks (c s : rstring) (sq : N) (cs : list (list byte)) (arr : list arrival) (st : Session)
    : option (Session * bool) :=
  match arr with
  | [] => Some (st, true)
  | a :: arr' =>
      '(st, go) ← read_envelope (arrival_now a) (arrival_fresh a)
        (client_chunk c s sq cs (arrival_cursor a) (arrival_chunk a)) (arrival_wire a) st;
      if go : bool then read_chunks c s sq cs arr' st else Some (st, false)
  end.

(** In order with repetitions: every arrival is the next chunk or one that came before.
    The result is the number of chunks that have arrived. *)
Fixpoint in_order (n k : nat) (arr : list arrival) : option nat :=
  match arr with
  | [] => Some k
  | a :: arr' =>
      let i := arrival_chunk a in
      if (i <? k)%nat then in_order n k arr'
      else if (i =? k)%nat && (k <? n)%nat then in_order n (S k) arr'
      else None
  end.

Section Message.
Context (c s : rstring) (sq : N) (cs : list (list byte)) (message : JSONRPCMessage)
  (Hsend : sendable cs) (Hs : s ≠ []) (Hparse : parse_message (concat cs) = Some message)
  (Hinit : remote_control_message_starts_connection message = false).
#[local] Abbreviation key := (c, s).

(** The connection waits for this message, of which the first [k] chunks have arrived. *)
Record awaiting (cl : ClientState) (k : nat) (st : Session) : Prop := {
  aw_client : clients (client_tracker st) !! key = Some cl;
  aw_undelivered : already_delivered (Some sq) (Some cl) = false;
  aw_incomplete : is_some_and (last_completed (websocket_state st) !! (c, Some s)) (λ last, sq <=? last) = false;
  aw_received : received (client_segment_reassembler (websocket_state st)) c s sq cs k;
}.

Lemma received_ignored (m : client_map ClientSegmentAssembly) k i :
  received m c s sq cs k → should_ignore_chunk m c s sq (N.of_nat i) = (i <? k)%nat.
Proof using Type.
  unfold received, should_ignore_chunk. destruct k as [|k].
  - intros [->|(a & -> & Hne)]; [done|]. simpl. unfold str_eqb. by rewrite bool_decide_false.
  - intros [t ->]. cbn [is_some_and assembled assembly_stream_id metadata seq_id next_segment_id].
    rewrite str_eqb_refl, N.ltb_irrefl, N.eqb_refl. cbn [andb orb].
    destruct (N.ltb_spec (N.of_nat i) (N.of_nat (S k))), (Nat.ltb_spec i (S k)); done || lia.
Qed.

(** A message for a live connection is delivered. *)
Lemma deliver_message now fresh cursor cl t :
  clients t !! key = Some cl → already_delivered (Some sq) (Some cl) = false → hd Delivered (send_results t) = Delivered →
  ∃ t', handle_message now fresh (mkClientEnvelope (ClientMessage message) c (Some s) (Some sq) cursor) t = (t', Ok tt) ∧
    transport_events t' = transport_events t ++ [IncomingMessage (connection_id cl) message].
Proof using Hs Hinit.
  intros Hcl Hdel Hok. unfold handle_message. cbn [client_client_id client_event client_stream_id client_seq_id is_initialize_event].
  unfold resolve_stream_id. rewrite Hinit. run_tracking.
  destruct (is_empty s) eqn:He; [by destruct s|].
  unfold handle_client_message. run_tracking. rewrite Hcl, Hdel. cbn [andb]. rewrite Hcl.
  unfold send_transport_event, send_event. cbn [send_results set_clients]. rewrite Hok.
  unfold record_inbound_message_delivery. run_tracking. cbn [clients set_send set_clients].
  rewrite lookup_insert_eq. by eexists.
Qed.

(** A repeated chunk changes nothing. *)
Lemma read_repeat cl k a st :
  awaiting cl k st → (arrival_chunk a < k)%nat →
  read_envelope (arrival_now a) (arrival_fresh a)
    (client_chunk c s sq cs (arrival_cursor a) (arrival_chunk a)) (arrival_wire a) st = Some (st, true).
Proof using Type.
  intros [_ _ Hinc Hrec] Hlt. unfold read_envelope, read_envelope_until, observe_client_message, client_message_key, chunk_completed, chunk_ignored.
  cbn [client_event client_seq_id client_client_id client_stream_id client_chunk]. rewrite Hinc.
  rewrite (received_ignored _ _ _ Hrec). apply Nat.ltb_lt in Hlt. rewrite Hlt. simpl. by destruct st.
Qed.

(** The next chunk is pending, or completes the message and delivers it. *)
Lemma read_next cl k a st :
  awaiting cl k st → (k < length cs)%nat → arrival_chunk a = k →
  arrival_wire a ≤ REMOTE_CONTROL_SEGMENT_MAX_BYTES → hd Delivered (send_results (client_tracker st)) = Delivered →
  ∃ st', read_envelope (arrival_now a) (arrival_fresh a)
      (client_chunk c s sq cs (arrival_cursor a) (arrival_chunk a)) (arrival_wire a) st = Some (st', true) ∧
    if (S k <? length cs)%nat then awaiting cl (S k) st' ∧ client_tracker st' = client_tracker st
    else last_completed (websocket_state st') !! (c, Some s) = Some sq ∧
      transport_events (client_tracker st') =
        transport_events (client_tracker st) ++ [IncomingMessage (connection_id cl) message].
Proof.
  intros [Hcl Hdel Hinc Hrec] Hk -> Hwire Hok.
  unfold read_envelope, read_envelope_until, observe_client_message, client_message_key, chunk_completed, chunk_ignored.
  cbn [client_event client_seq_id client_client_id client_stream_id client_chunk]. rewrite Hinc.
  rewrite (received_ignored _ _ _ Hrec), Nat.ltb_irrefl.
  destruct (N.ltb_spec REMOTE_CONTROL_SEGMENT_MAX_BYTES (arrival_wire a)); [lia|]. rewrite andb_false_r.
  fold (client_chunk c s sq cs (arrival_cursor a) k).
  destruct (observe_next _ c s sq cs (arrival_cursor a) k (arrival_now a) Hsend Hk Hrec) as (m' & Hobs & Hm').
  rewrite Hobs, Hparse. cbn [mbind option_bind].
  destruct (N.ltb_spec (N.of_nat (S k)) (len cs)) as [Hlt|Hge]; unfold len in *.
  - destruct (Nat.ltb_spec (S k) (length cs)); [|lia]. cbn [mbind option_bind].
    eexists. split; [done|]. split; [|done]. split; try done. by eexists.
  - destruct (Nat.ltb_spec (S k) (length cs)); [lia|].
    destruct (deliver_message (arrival_now a) (arrival_fresh a) (arrival_cursor a) cl (client_tracker st) Hcl Hdel Hok)
      as (t' & Ht' & Hev). rewrite Ht'. cbn [mbind option_bind].
    eexists. split; [done|]. cbn [websocket_state client_tracker]. split; [|done].
    unfold record_client_message_delivery. cbn [client_event client_cursor].
    destruct (arrival_cursor a); simpl; by rewrite lookup_insert_eq.
Qed.

(** After the delivery every chunk is dropped. *)
Lemma read_completed arr st k :
  last_completed (websocket_state st) !! (c, Some s) = Some sq →
  (∃ k', in_order (length cs) k arr = Some k') →
  read_chunks c s sq cs arr st = Some (st, true).
Proof using Type.
  revert k. induction arr as [|a arr IH]; intros k Hdone [k' Hin]; [done|]. cbn [read_chunks].
  unfold read_envelope, read_envelope_until, observe_client_message, client_message_key, chunk_completed.
  cbn [client_event client_seq_id client_client_id client_stream_id client_chunk]. rewrite Hdone. simpl is_some_and.
  rewrite (proj2 (N.leb_le sq sq)) by lia. cbn [mbind option_bind].
  destruct st as [w t]. cbn [websocket_state client_tracker] in *. cbn [in_order] in Hin.
  destruct (_ <? _)%nat; [by eapply IH; eauto|].
  destruct (_ && _); [by eapply IH; eauto|done].
Qed.

Lemma read_chunks_once arr : ∀ k st cl k',
  awaiting cl k st → (k < length cs)%nat →
  Forall (λ a, arrival_wire a ≤ REMOTE_CONTROL_SEGMENT_MAX_BYTES) arr →
  hd Delivered (send_results (client_tracker st)) = Delivered → in_order (length cs) k arr = Some k' →
  ∃ st', read_chunks c s sq cs arr st = Some (st', true) ∧
    transport_events (client_tracker st') = transport_events (client_tracker st) ++
      (if (k' =? length cs)%nat then [IncomingMessage (connection_id cl) message] else []).
Proof.
  induction arr as [|a arr IH]; intros k st cl k' Haw Hk Hwire Hok Hin; cbn [in_order read_chunks] in *.
  { injection Hin as <-. exists st. split; [done|].
    destruct (Nat.eqb_spec k (length cs)); [lia|]. by rewrite app_nil_r. }
  apply Forall_cons in Hwire as [Hw Hwire].
  destruct (Nat.ltb_spec (arrival_chunk a) k) as [Hlt|Hge].
  { rewrite (read_repeat cl k a st Haw Hlt). cbn [mbind option_bind]. by apply (IH k st cl k'). }
  destruct (Nat.eqb_spec (arrival_chunk a) k) as [Heq|]; [|done].
  destruct (Nat.ltb_spec k (length cs)) as [_|]; [|done]. cbn [andb] in Hin.
  destruct (read_next cl k a st Haw Hk Heq Hw Hok) as (st1 & Hr & Hst1). rewrite Hr. cbn [mbind option_bind].
  destruct (Nat.ltb_spec (S k) (length cs)) as [HSk|HSk].
  - destruct Hst1 as [Haw1 Ht1]. destruct (IH (S k) st1 cl k') as (st' & Hrun & Hev); try done.
    { by rewrite Ht1. }
    exists st'. split; [done|]. by rewrite Hev, Ht1.
  - destruct Hst1 as [Hdone Hev]. exists st1.
    rewrite (read_completed arr st1 (S k) Hdone) by eauto. split; [done|].
    assert (Hlast : ∀ arr j, (j = length cs)%nat → in_order (length cs) j arr = Some k' → k' = length cs).
    { clear. intros arr. induction arr as [|b arr IH]; intros j Hj Hin; cbn [in_order] in Hin; [congruence|].
      destruct (_ <? _)%nat; [by eapply IH|]. destruct (_ =? _)%nat; [|done]. simpl in Hin.
      destruct (Nat.ltb_spec j (length cs)); [lia|done]. }
    rewrite (Hlast arr (S k) ltac:(lia) Hin), Nat.eqb_refl. exact Hev.
Qed.

(** C9: When the chunks of a message arrive in order at a live connection, with any
    repetition of chunks that came before, also after the last one, the app server gets
    the message exactly once when all have arrived and not before. *)
Theorem chunks_delivered_once arr st cl k :
  awaiting cl 0 st →
  Forall (λ a, arrival_wire a ≤ REMOTE_CONTROL_SEGMENT_MAX_BYTES) arr →
  hd Delivered (send_results (client_tracker st)) = Delivered →
  in_order (length cs) 0 arr = Some k →
  ∃ st', read_chunks c s sq cs arr st = Some (st', true) ∧
    transport_events (client_tracker st') = transport_events (client_tracker st) ++
      (if (k =? length cs)%nat then [IncomingMessage (connection_id cl) message] else []).
Proof.
  intros Haw Hwire Hok Hin. apply (read_chunks_once arr 0); try done.
  pose proof (sendable_cons _ Hsend). destruct cs; [done|simpl; lia].
Qed.
End Message.
End Spec.
