(* ===== verification/RemoteModel.v ===== *)
(** * Remote control: the crates at work

    The standard base64 encoding, which satisfies the laws of [RemoteProtocol.v], a small
    serialization of envelopes, and the properties of the remote control at concrete
    messages. *)

From stdpp Require Import base list numbers gmap strings.
From Stdlib Require Import Strings.Byte.
From S2P Require Import Prelude Machine RemoteProtocol Segments SegmentsSpec RemoteTracker RemoteSession OutboundSpec ConnectionSpec DeliverySpec.

#[local] Open Scope N_scope.

(** ** Base64 *)
Definition symbol (i : N) : N :=
  if i <? 26 then 65 + i else if i <? 52 then 71 + i else if i <? 62 then i - 4
  else if i =? 62 then 43 else 47.

Definition value (c : N) : option N :=
  if (65 <=? c) && (c <=? 90) then Some (c - 65)
  else if (97 <=? c) && (c <=? 122) then Some (c - 71)
  else if (48 <=? c) && (c <=? 57) then Some (c + 4)
  else if c =? 43 then Some 62 else if c =? 47 then Some 63 else None.

Definition PAD : N := 61.

Fixpoint b64_encode (l : list byte) : rstring :=
  match l with
  | [] => []
  | [a] => let a := to_N a in [symbol (a / 4); symbol ((a mod 4) * 16); PAD; PAD]
  | [a; b] =>
      let a := to_N a in let b := to_N b in
      [symbol (a / 4); symbol ((a mod 4) * 16 + b / 16); symbol ((b mod 16) * 4); PAD]
  | a :: b :: c :: l' =>
      let a := to_N a in let b := to_N b in let c := to_N c in
      symbol (a / 4) :: symbol ((a mod 4) * 16 + b / 16) ::
      symbol ((b mod 16) * 4 + c / 64) :: symbol (c mod 64) :: b64_encode l'
  end.

Definition to_byte (n : N) : byte := default x00 (of_N n).

Fixpoint b64_decode (s : rstring) : option (list byte) :=
  match s with
  | [] => Some []
  | w :: x :: y :: z :: s' =>
      w ← value w; x ← value x;
      let a := to_byte (w * 4 + x / 16) in
      if is_empty s' && (z =? PAD) then
        if y =? PAD then Some [a]
        else y ← value y; Some [a; to_byte ((x mod 16) * 16 + y / 4)]
      else
        y ← value y; z ← value z; l ← b64_decode s';
        Some (a :: to_byte ((x mod 16) * 16 + y / 4) :: to_byte ((y mod 4) * 64 + z) :: l)
  | _ => None
  end.

Definition b64_decode_slice (s : rstring) (capacity : N) : result DecodeSliceError (list byte) :=
  match b64_decode s with
  | Some bytes => if len bytes <=? capacity then Ok bytes else Err OutputSliceTooSmall
  | None => Err DecodeError
  end.

Lemma symbol_facts i : i < 64 → value (symbol i) = Some i ∧ symbol i ≠ PAD ∧ symbol i < 128.
Proof.
  intros Hi.
  assert (Hall : forallb (λ i, bool_decide (value (symbol i) = Some i) && negb (symbol i =? PAD) && (symbol i <? 128))
    (map N.of_nat (seq 0 64)) = true) by (by vm_compute).
  rewrite forallb_forall in Hall. specialize (Hall i).
  rewrite !andb_true_iff, bool_decide_eq_true, negb_true_iff, N.eqb_neq, N.ltb_lt in Hall.
  destruct Hall as [[? ?] ?]; [|done]. apply in_map_iff. exists (N.to_nat i). split; [lia|].
  apply in_seq. lia.
Qed.

Lemma to_byte_to_N n a : n = to_N a → to_byte n = a.
Proof. intros ->. unfold to_byte. by rewrite of_to_N. Qed.

(** Induction by groups of three. *)
Lemma list3_ind {A} (P : list A → Prop) :
  P [] → (∀ a, P [a]) → (∀ a b, P [a; b]) → (∀ a b c l, P l → P (a :: b :: c :: l)) → ∀ l, P l.
Proof.
  intros H0 H1 H2 H3. fix IH 1. intros [|a [|b [|c l]]]; [done|apply H1|apply H2|apply H3, IH].
Qed.

Lemma value_symbol i : i < 64 → value (symbol i) = Some i.
Proof. apply symbol_facts. Qed.
Lemma symbol_not_pad i : i < 64 → (symbol i =? PAD) = false.
Proof. intros Hi. apply N.eqb_neq. by apply symbol_facts. Qed.

#[local] Ltac Zify.zify_post_hook ::= Z.to_euclidean_division_equations.

Lemma b64_decode_encode (l : list byte) : b64_decode (b64_encode l) = Some l.
Proof.
  induction l as [|a|a b|a b c l IH] using list3_ind; [done|..]; cbn [b64_encode b64_decode].
  - pose proof (to_N_bounded a). rewrite !value_symbol by lia. simpl.
    do 2 f_equal. apply to_byte_to_N. lia.
  - pose proof (to_N_bounded a). pose proof (to_N_bounded b). rewrite !value_symbol by lia.
    cbn [mbind option_bind is_empty andb]. rewrite N.eqb_refl, symbol_not_pad by lia.
    do 2 f_equal; [|f_equal]; apply to_byte_to_N; lia.
  - pose proof (to_N_bounded a). pose proof (to_N_bounded b). pose proof (to_N_bounded c).
    rewrite !value_symbol by lia. cbn [mbind option_bind]. rewrite symbol_not_pad, andb_false_r, IH by lia.
    cbn [mbind option_bind]. do 2 f_equal; [|f_equal; [|f_equal]]; apply to_byte_to_N; lia.
Qed.

Lemma symbol_len i : i < 64 → char_len (symbol i) = 1.
Proof.
  intros (_ & _ & Hlt)%symbol_facts. unfold char_len. by apply N.ltb_lt in Hlt as ->.
Qed.

Lemma b64_encode_len (l : list byte) : str_len (b64_encode l) = 4 * ((len l + 2) / 3).
Proof.
  induction l as [|a|a b|a b c l IH] using list3_ind; [done|..]; cbn [b64_encode str_len].
  - pose proof (to_N_bounded a). rewrite !symbol_len by lia. done.
  - pose proof (to_N_bounded a). pose proof (to_N_bounded b). rewrite !symbol_len by lia. done.
  - pose proof (to_N_bounded a). pose proof (to_N_bounded b). pose proof (to_N_bounded c).
    rewrite !symbol_len by lia. rewrite IH. unfold len. cbn [length]. lia.
Qed.

(** ** The crates *)
#[local] Instance model_payloads : Payloads := {|
  ServerRequest := unit; ServerNotificationEnvelope := unit; ClientResponsePayload := unit;
  Value := unit; W3cTraceContext := unit |}.

(** Messages are serialized as one byte for their kind, envelopes with braces around
    their chunk. *)
Definition model_json_message (m : OutgoingMessage) : list byte :=
  match m with
  | OutgoingMessage_Request _ => [x51; x51; x51; x51]
  | OutgoingMessage_AppServerNotification _ => [x4e; x4e; x4e; x4e]
  | OutgoingMessage_Response _ => [x52; x52; x52; x52]
  | OutgoingMessage_Error _ => [x45; x45; x45; x45]
  end.

Definition model_json_envelope (e : ServerEnvelope) : list byte :=
  x7b ::
  match server_event e with
  | ServerMessage m => model_json_message m
  | ServerMessageChunk _ _ _ b => map to_byte b
  | ServerAck => [x41]
  | Pong _ => [x50]
  end ++ [x7d].

(** The bytes of a notification, of a request to initialize, and nothing else. *)
Definition model_parse (bytes : list byte) : option JSONRPCMessage :=
  match bytes with
  | [x4e; x4e; x4e; x4e] => Some (JSONRPCMessage_Notification (mkNotification (str "initialized") None))
  | [x49] => Some (JSONRPCMessage_Request (mkRequest (RequestId_Integer 1) (str "initialize") None None))
  | _ => None
  end.

#[local] Instance model_crates : WireCrates := {|
  JsonError := unit;
  json_error_text _ := str "error";
  json_envelope e := Ok (model_json_envelope e);
  json_message m := Ok (model_json_message m);
  parse_message := model_parse;
  base64_encode := b64_encode;
  decoded_len_estimate n := (n / 4 + 1) * 3;
  decode_slice := b64_decode_slice |}.

#[local] Instance model_laws : WireLaws.
Proof.
  split; simpl.
  - intros bytes capacity Hle. unfold b64_decode_slice. rewrite b64_decode_encode.
    by apply N.leb_le in Hle as ->.
  - intros s capacity bytes. unfold b64_decode_slice. destruct (b64_decode s); [|done].
    destruct (N.leb_spec (len l) capacity); [|done]. by intros [= <-].
  - intros bytes. rewrite b64_encode_len. lia.
  - apply b64_encode_len.
Qed.

#[local] Instance model_order : HashOrder := {|
  hash_iter K V _ _ m := map_to_list m;
  hash_iter_perm K V _ _ m := reflexivity _ |}.

Definition notice : ServerEnvelope :=
  mkServerEnvelope (ServerMessage (@OutgoingMessage_AppServerNotification model_payloads tt)) (str "client") (str "stream") 7.
Definition notice_bytes : list byte := [x4e; x4e; x4e; x4e].
Definition notified : JSONRPCMessage := JSONRPCMessage_Notification (mkNotification (str "initialized") None).

Lemma str_len_ge (s : rstring) : N.of_nat (length s) ≤ str_len s.
Proof.
  induction s as [|c s IH]; [done|]. cbn [length str_len]. unfold char_len.
  destruct (_ <? _); [lia|]. destruct (_ <? _); [lia|]. destruct (_ <? _); lia.
Qed.

Lemma model_overhead : overhead_within notice notice_bytes 2.
Proof.
  intros count i c. eexists. split; [reflexivity|].
  change (len (x7b :: map to_byte (b64_encode c) ++ [x7d]) ≤ 2 + str_len (b64_encode c)).
  pose proof (str_len_ge (b64_encode c)). unfold len. cbn [length].
  rewrite length_app, length_map. cbn [length]. lia.
Qed.

Lemma large_messages_sent_witness :
  ∃ envs, split_server_envelope_for_transport notice = Some (Ok envs) ∧ envs ≠ [] ∧
    (envs = [notice] ∧ fits_wire notice ∨ carries notice notice_bytes envs).
Proof.
  apply (large_messages_sent notice (@OutgoingMessage_AppServerNotification model_payloads tt) notice_bytes 2
    (model_json_envelope notice)); try reflexivity.
  - discriminate.
  - vm_compute. discriminate.
  - exact model_overhead.
  - vm_compute. discriminate.
Defined.

(** The bytes of the notice in two chunks. *)
Definition two_chunks : list (list byte) := [[x4e; x4e; x4e]; [x4e]].

(** Two clients that send the two chunks, one after the other. *)
Definition chunk_from (c : string) (i : nat) : N * ClientEnvelope :=
  (0, client_chunk (str c) (str "stream") 7 two_chunks None i).
Definition interleaved : list (N * ClientEnvelope) :=
  [chunk_from "a" 0; chunk_from "b" 0; chunk_from "a" 1; chunk_from "b" 1].

Definition observations : list (ClientId * ClientSegmentObservation) :=
  match observe_run ∅ interleaved with Some (_, os) => os | None => [] end.

Lemma clients_isolated_witness :
  ∃ m mc, observe_run ∅ interleaved = Some (m, observations) ∧
    observe_run ∅ [chunk_from "a" 0; chunk_from "a" 1] = Some (mc, List.filter (by_client (str "a")) observations) ∧
    m !! str "a" = mc !! str "a".
Proof.
  destruct (observe_run ∅ interleaved) as [[m os]|] eqn:Hrun; [|discriminate (eq_trans (eq_sym Hrun) eq_refl)].
  assert (Hos : os = observations) by (unfold observations; rewrite Hrun; reflexivity).
  destruct (clients_isolated {[str "a"; str "b"]} (str "a") interleaved m os) as (mc & Hmc & Heq).
  - vm_compute. discriminate.
  - repeat constructor; simpl; set_solver.
  - exact Hrun.
  - exists m, mc. rewrite <- Hos. split_and!; [reflexivity|exact Hmc|exact Heq].
Defined.

(** ** The outbound buffer *)
Definition queued_notice : QueuedServerEnvelope :=
  mkQueued (server_event notice) (server_client_id notice) (server_stream_id notice).

Definition written (q : QueuedServerEnvelope) (w : WebsocketState) : WebsocketState :=
  match write_queued q w with Some (w', _) => w' | None => w end.

(** Two writes, and the acknowledgement of the first. *)
Definition after_ack : WebsocketState :=
  let w := written queued_notice (written queued_notice WebsocketState_new) in
  set_outbound (outbound_ack (str "client") (str "stream") 1 None (outbound_buffer w)) w.

Definition numbered_notice (n : N) : ServerEnvelope :=
  mkServerEnvelope (server_event notice) (str "client") (str "stream") n.

Definition ack_log : list out_event :=
  [Sent (numbered_notice 1); Sent (numbered_notice 2); Acked (str "client", str "stream") (1, USIZE_MAX)].

Lemma ack_steps : nsteps out_step 3 (WebsocketState_new, []) (after_ack, ack_log).
Proof.
  eapply nsteps_l; [eapply (out_write queued_notice); reflexivity|].
  eapply nsteps_l; [eapply (out_write queued_notice); reflexivity|].
  eapply nsteps_l; [apply (out_ack (str "client") (str "stream") 1 None)|]. apply nsteps_O.
Qed.

Lemma outbound_buffer_unacked_witness :
  default [] (buffer_by_stream (outbound_buffer after_ack) !! (str "client", str "stream"))
    = unacked (str "client", str "stream") ack_log ∧
  unacked (str "client", str "stream") ack_log = [numbered_notice 2].
Proof.
  split; [|reflexivity].
  apply (outbound_buffer_unacked 3 after_ack ack_log).
  - exact ack_steps.
  - reflexivity.
Defined.

(** ** Connections *)
Definition hello : ClientEnvelope :=
  mkClientEnvelope
    (ClientMessage (JSONRPCMessage_Request (mkRequest (RequestId_Integer 1) (str "initialize") None None)))
    (str "client") (Some (str "stream")) None None.

Definition reading (e : ClientEnvelope) (s : Session) : Session :=
  match read_envelope 5 (str "fresh") e 100 s with Some (s', _) => s' | None => s end.

Definition connected : Session := reading hello (Session_new 0 []).

Lemma connected_step : nsteps session_step 1 (Session_new 0 []) connected.
Proof.
  eapply nsteps_l; [|apply nsteps_O]. apply (session_read 3 5 (str "fresh") hello 100 _ _ true). reflexivity.
Qed.

(** The reader is aborted while it forwards the initialize request: the connection is open
    and the client is tracked.  After the reconnect a notification of the client is the
    first message of the connection. *)
Definition greeting : ClientEnvelope :=
  mkClientEnvelope (ClientMessage notified) (str "client") (Some (str "stream")) None None.
Definition interrupted_session : Session := reading hello (Session_new 0 [Delivered; Aborted]).
Definition late_session : Session := reading greeting interrupted_session.

Lemma late_steps : nsteps session_step 2 (Session_new 0 [Delivered; Aborted]) late_session.
Proof.
  eapply nsteps_l; [apply (session_read 3 5 (str "fresh") hello 100 _ interrupted_session false); reflexivity|].
  eapply nsteps_l; [apply (session_read 3 5 (str "fresh") greeting 100 _ late_session true); reflexivity|]. apply nsteps_O.
Qed.

Lemma connections_well_formed_witness :
  let t := client_tracker late_session in
  phase_of 0 (transport_events t) ≠ Broken ∧ phase_of 0 (transport_events t) = Late ∧ 0 ∈ interrupted t ∧
  ∀ locks now fresh e wire, is_Some (read_envelope_until locks now fresh e wire late_session).
Proof.
  destruct (connections_well_formed 0 [Delivered; Aborted] 2 late_session late_steps) as (Hphase & _ & _ & _ & Hsome);
    [reflexivity|].
  assert (Hlate : phase_of 0 (transport_events (client_tracker late_session)) = Late) by (vm_compute; reflexivity).
  destruct (Hphase 0) as [Hb Hl]. split; [exact Hb|]. split; [exact Hlate|]. split; [exact (Hl Hlate)|exact Hsome].
Defined.

Example message_before_initialize :
  transport_events (client_tracker late_session) =
    [ConnectionOpened 0 Origin_RemoteControl; IncomingMessage 0 notified] ∧
  remote_control_message_starts_connection notified = false.
Proof. split; vm_compute; reflexivity. Qed.

Definition connected_client : ClientState := mkClientState 0 5 None (PongStatus_Active, 0).

Lemma connected_awaits : awaiting (str "client") (str "stream") 7 two_chunks connected_client 0 connected.
Proof. split; try (vm_compute; reflexivity). left. vm_compute. reflexivity. Qed.

Lemma two_chunks_sendable : sendable two_chunks.
Proof. split; try discriminate; try (vm_compute; discriminate). by repeat constructor. Qed.

(** The chunks arrive with repetitions before and after the message is complete. *)
Definition arrives (i : nat) : arrival := mkArrival 6 (str "fresh") None 100 i.

Lemma chunks_delivered_once_witness :
  ∃ st', read_chunks (str "client") (str "stream") 7 two_chunks (map arrives [0; 0; 1; 0; 1]%nat) connected
      = Some (st', true) ∧
    transport_events (client_tracker st') =
      transport_events (client_tracker connected) ++ [IncomingMessage 0 notified].
Proof.
  apply (chunks_delivered_once (str "client") (str "stream") 7 two_chunks notified
    two_chunks_sendable ltac:(discriminate) eq_refl eq_refl (map arrives [0; 0; 1; 0; 1]%nat) connected
    connected_client 2).
  - exact connected_awaits.
  - repeat constructor; vm_compute; discriminate.
  - reflexivity.
  - reflexivity.
Defined.

(** A client that initializes its stream again gets a new connection, and the end of the
    outbound task of the old one closes it. *)
Example reinitialized_connection_closed :
  let s := (read_task_end 0 (reading hello connected)).1 in
  map (λ ev, match ev with ConnectionClosed c => Some c | _ => None end)
    (transport_events (client_tracker s)) = [None; None; Some 0; None; None; Some 1] ∧
  clients (client_tracker s) = ∅.
Proof. split; vm_compute; reflexivity. Qed.
