(* ===== verification/AgentRegistry.v ===== *)
(** * The registry of agents

    [sofia-rs/protocol/src/agent_path.rs], the paths that agents are known by, and
    [sofia-rs/core/src/agent/registry.rs], the registry that the agents of a session share:
    the tree of agents, the paths of threads, nicknames and the count that limits spawning.
    The operations under the lock are functions on [ActiveAgents]; [AgentSpawn.v] composes
    them into interleavings.  The theorems here are about paths and nicknames. *)

From stdpp Require Import base list gmap numbers strings.
From Stdlib Require Import DecimalString DecimalPos DecimalN.
From S2P Require Import Prelude Machine.

#[local] Arguments str : simpl never.

(** ** Paths of agents *)
Record AgentPath := mkAgentPath { path_string : rstring }.
#[global] Instance AgentPath_eq_dec : EqDecision AgentPath.
Proof. solve_decision. Defined.

Definition AgentPath_ROOT : rstring := str "/root".
Definition AgentPath_MORPHEUS : rstring := str "/morpheus".
Definition ROOT_SEGMENT : rstring := str "root".

Definition AgentPath_root : AgentPath := mkAgentPath AgentPath_ROOT.
Definition AgentPath_morpheus : AgentPath := mkAgentPath AgentPath_MORPHEUS.

Definition is_name_char (c : N) : bool :=
  ((97 <=? c) && (c <=? 122) || is_ascii_digit c || (c =? 95))%N.

Definition validate_agent_name (agent_name : rstring) : result rstring unit :=
  if is_empty agent_name then Err (str "agent_name must not be empty")
  else if str_eqb agent_name ROOT_SEGMENT then Err (str "agent_name `root` is reserved")
  else if str_eqb agent_name (str ".") || str_eqb agent_name (str "..")
  then Err (str "agent_name `" ++ agent_name ++ str "` is reserved")
  else if bool_decide (47%N ∈ agent_name) then Err (str "agent_name must not contain `/`")
  else if negb (forallb is_name_char agent_name)
  then Err (str "agent_name must use only lowercase letters, digits, and underscores")
  else Ok ().

Fixpoint validate_agent_names (names : list rstring) : result rstring unit :=
  match names with
  | [] => Ok ()
  | name :: names => _ ← validate_agent_name name; validate_agent_names names
  end.

Definition validate_absolute_path (path : rstring) : result rstring unit :=
  if str_eqb path AgentPath_MORPHEUS then Ok ()
  else
    match strip_prefix (str "/") path with
    | None => Err (str "absolute agent paths must start with `/root` or be `/morpheus`")
    | Some stripped =>
        match split_on 47 stripped with
        | [] => Err (str "absolute agent path must not be empty")
        | root :: segments =>
            if negb (str_eqb root ROOT_SEGMENT)
            then Err (str "absolute agent paths must start with `/root` or be `/morpheus`")
            else if ends_with (str "/") stripped
            then Err (str "absolute agent path must not end with `/`")
            else validate_agent_names segments
        end
    end.

Definition validate_relative_reference (reference : rstring) : result rstring unit :=
  if ends_with (str "/") reference then Err (str "relative agent path must not end with `/`")
  else validate_agent_names (split_on 47 reference).

Definition AgentPath_from_string (path : rstring) : result rstring AgentPath :=
  _ ← validate_absolute_path path; Ok (mkAgentPath path).

Definition AgentPath_is_root (p : AgentPath) : bool := str_eqb (path_string p) AgentPath_ROOT.

(** The last piece of [rsplit('/')]. *)
Definition AgentPath_name (p : AgentPath) : rstring :=
  if AgentPath_is_root p then ROOT_SEGMENT
  else
    match last (split_on 47 (path_string p)) with
    | Some segment => if is_empty segment then ROOT_SEGMENT else segment
    | None => ROOT_SEGMENT
    end.

Definition AgentPath_join (p : AgentPath) (agent_name : rstring) : result rstring AgentPath :=
  _ ← validate_agent_name agent_name; AgentPath_from_string (path_string p ++ str "/" ++ agent_name).

Definition AgentPath_resolve (p : AgentPath) (reference : rstring) : result rstring AgentPath :=
  if is_empty reference then Err (str "agent path must not be empty")
  else if str_eqb reference AgentPath_ROOT then Ok AgentPath_root
  else if starts_with (str "/") reference then AgentPath_from_string reference
  else
    _ ← validate_relative_reference reference;
    AgentPath_from_string (path_string p ++ str "/" ++ reference).

(** ** Sources of sessions *)
Section Sources.
Context {ThreadId : Type}.

Inductive InternalSessionSource := InternalMemoryConsolidation | Guardian.
Inductive SubAgentSource :=
| Review
| Compact
| ThreadSpawn (parent_thread_id : ThreadId) (depth : Z) (agent_path : option AgentPath)
    (agent_nickname agent_role : option rstring)
| MemoryConsolidation
| OtherSubAgent (name : rstring).
Inductive SessionSource :=
| SourceCli | SourceVSCode | SourceExec | SourceMcp
| SourceCustom (name : rstring)
| SourceInternal (source : InternalSessionSource)
| SourceSubAgent (source : SubAgentSource)
| SourceUnknown.

Definition session_depth (s : SessionSource) : Z :=
  match s with SourceSubAgent (ThreadSpawn _ depth _ _ _) => depth | _ => 0 end.

(** [i32::saturating_add]. *)
Definition next_thread_spawn_depth (s : SessionSource) : Z := Z.min (2 ^ 31 - 1) (session_depth s + 1).
Definition exceeds_thread_spawn_depth_limit (depth max_depth : Z) : bool := (max_depth <? depth)%Z.
End Sources.
Arguments SessionSource : clear implicits.

(** ** Nicknames *)
Definition ordinal_suffix (value : N) : rstring :=
  (let r := value mod 100 in
   if (11 <=? r) && (r <=? 13) then str "th"
   else match value mod 10 with 1 => str "st" | 2 => str "nd" | 3 => str "rd" | _ => str "th" end)%N.

Definition format_agent_nickname (name : rstring) (nickname_reset_count : N) : rstring :=
  if (nickname_reset_count =? 0)%N then name
  else
    let value := (nickname_reset_count + 1)%N in
    name ++ str " the " ++ dec value ++ ordinal_suffix value.

(** [IndexedRandom::choose], for the number that is drawn. *)
Definition choose {A} (drawn : nat) (l : list A) : option A := l !! (drawn mod length l).

(** ** The registry *)
(** [Display] of the UUID of a thread. *)
Class ThreadIdDisplay (ThreadId : Type) := thread_id_display : ThreadId → rstring.

Inductive CodexErr :=
| AgentLimitReached (max_threads : N)
| UnsupportedOperation (message : rstring).

Section Registry.
Context {ThreadId TurnEnvironmentSelection : Type} `{Countable ThreadId} `{!ThreadIdDisplay ThreadId}.

Record AgentMetadata := mkAgentMetadata {
  agent_id : option ThreadId;
  agent_path : option AgentPath;
  agent_nickname : option rstring;
  agent_role : option rstring;
}.
Definition default_metadata : AgentMetadata := mkAgentMetadata None None None None.

Record RegisteredAgent := mkRegisteredAgent {
  registered_path : rstring;
  registered_environments : option (list TurnEnvironmentSelection);
}.
Definition RegisteredAgent_new (path : rstring) : RegisteredAgent := mkRegisteredAgent path None.

Record ActiveAgents := mkActiveAgents {
  agent_tree : gmap rstring AgentMetadata;
  thread_paths : gmap ThreadId RegisteredAgent;
  used_agent_nicknames : gset rstring;
  nickname_reset_count : N;
}.

Record AgentRegistry := mkAgentRegistry {
  active_agents : ActiveAgents;
  total_count : N;
}.
Definition default_agents : ActiveAgents := mkActiveAgents ∅ ∅ ∅ 0.
Definition default_registry : AgentRegistry := mkAgentRegistry default_agents 0.

Definition set_tree (tree : gmap rstring AgentMetadata) (a : ActiveAgents) : ActiveAgents :=
  mkActiveAgents tree (thread_paths a) (used_agent_nicknames a) (nickname_reset_count a).
Definition set_paths (paths : gmap ThreadId RegisteredAgent) (a : ActiveAgents) : ActiveAgents :=
  mkActiveAgents (agent_tree a) paths (used_agent_nicknames a) (nickname_reset_count a).
Definition set_used (used : gset rstring) (a : ActiveAgents) : ActiveAgents :=
  mkActiveAgents (agent_tree a) (thread_paths a) used (nickname_reset_count a).

(** [metadata.agent_path.as_ref().is_some_and(AgentPath::is_root)]. *)
Definition has_root_path (m : AgentMetadata) : bool :=
  match agent_path m with Some p => AgentPath_is_root p | None => false end.

(** Releasing a thread, under the lock: whether the agent that is removed was counted. *)
Definition release_spawned_thread (thread_id : ThreadId) (a : ActiveAgents) : bool * ActiveAgents :=
  match thread_paths a !! thread_id with
  | None => (false, a)
  | Some agent =>
      let removed := agent_tree a !! registered_path agent in
      (match removed with Some m => negb (has_root_path m) | None => false end,
       set_tree (delete (registered_path agent) (agent_tree a)) (set_paths (delete thread_id (thread_paths a)) a))
  end.

Definition register_root_thread (thread_id : ThreadId) (a : ActiveAgents) : ActiveAgents :=
  let '(root, tree) :=
    match agent_tree a !! AgentPath_ROOT with
    | Some m => (m, agent_tree a)
    | None =>
        let m := mkAgentMetadata (Some thread_id) (Some AgentPath_root) None None in
        (m, <[AgentPath_ROOT := m]> (agent_tree a))
    end in
  match agent_id root with
  | Some root_thread_id =>
      set_tree tree (set_paths (<[root_thread_id := RegisteredAgent_new AgentPath_ROOT]> (thread_paths a)) a)
  | None => set_tree tree a
  end.

Definition agent_id_for_path (path : AgentPath) (a : ActiveAgents) : option ThreadId :=
  m ← agent_tree a !! path_string path; agent_id m.

Definition agent_metadata_for_thread (thread_id : ThreadId) (a : ActiveAgents) : option AgentMetadata :=
  agent ← thread_paths a !! thread_id; agent_tree a !! registered_path agent.

Definition set_environments (environments : option (list TurnEnvironmentSelection)) (thread_id : ThreadId) (a : ActiveAgents)
    : ActiveAgents :=
  match thread_paths a !! thread_id with
  | Some agent => set_paths (<[thread_id := mkRegisteredAgent (registered_path agent) environments]> (thread_paths a)) a
  | None => a
  end.
Definition save_evicted_environments (thread_id : ThreadId) (environments : list TurnEnvironmentSelection) (a : ActiveAgents)
    : ActiveAgents := set_environments (Some environments) thread_id a.
Definition clear_evicted_environments (thread_id : ThreadId) (a : ActiveAgents) : ActiveAgents :=
  set_environments None thread_id a.
Definition evicted_environments (thread_id : ThreadId) (a : ActiveAgents) : option (list TurnEnvironmentSelection) :=
  agent ← thread_paths a !! thread_id; registered_environments agent.

(** An agent that is live and not the root. *)
Definition is_live_agent (m : AgentMetadata) : bool :=
  match agent_id m with Some _ => negb (has_root_path m) | None => false end.
Definition live_agents (a : ActiveAgents) : list AgentMetadata :=
  List.filter is_live_agent (map snd (map_to_list (agent_tree a))).

Definition metadata_key (thread_id : ThreadId) (m : AgentMetadata) : rstring :=
  match agent_path m with Some p => path_string p | None => str "thread:" ++ thread_id_display thread_id end.

Definition register_spawned_thread (m : AgentMetadata) (a : ActiveAgents) : ActiveAgents :=
  match agent_id m with
  | None => a
  | Some thread_id =>
      let key := metadata_key thread_id m in
      let used :=
        match agent_nickname m with
        | Some nickname => {[ nickname ]} ∪ used_agent_nicknames a
        | None => used_agent_nicknames a
        end in
      let tree :=
        match thread_paths a !! thread_id with
        | Some previous_agent =>
            if str_eqb (registered_path previous_agent) key then agent_tree a
            else delete (registered_path previous_agent) (agent_tree a)
        | None => agent_tree a
        end in
      let paths := <[thread_id := RegisteredAgent_new key]> (thread_paths a) in
      let paths :=
        match tree !! key ≫= agent_id with
        | Some previous_thread_id =>
            if bool_decide (previous_thread_id = thread_id) then paths else delete previous_thread_id paths
        | None => paths
        end in
      mkActiveAgents (<[key := m]> tree) paths used (nickname_reset_count a)
  end.

Definition reserve_agent_nickname (names : list rstring) (preferred : option rstring) (drawn : nat) (a : ActiveAgents)
    : option rstring * ActiveAgents :=
  match preferred with
  | Some preferred => (Some preferred, set_used ({[ preferred ]} ∪ used_agent_nicknames a) a)
  | None =>
      if is_empty names then (None, a)
      else
        let available_names :=
          List.filter (λ name, negb (bool_decide (name ∈ used_agent_nicknames a)))
            (map (λ name, format_agent_nickname name (nickname_reset_count a)) names) in
        match choose drawn available_names with
        | Some name => (Some name, set_used ({[ name ]} ∪ used_agent_nicknames a) a)
        | None =>
            let reset_count := (nickname_reset_count a + 1)%N in
            let a := mkActiveAgents (agent_tree a) (thread_paths a) ∅ reset_count in
            match choose drawn names with
            | Some name =>
                let nickname := format_agent_nickname name reset_count in
                (Some nickname, set_used {[ nickname ]} a)
            | None => (None, a)
            end
        end
  end.

Definition reserve_agent_path (path : AgentPath) (a : ActiveAgents) : result CodexErr ActiveAgents :=
  match agent_tree a !! path_string path with
  | Some _ => Err (UnsupportedOperation (str "agent path `" ++ path_string path ++ str "` already exists"))
  | None => Ok (set_tree (<[path_string path := mkAgentMetadata None (Some path) None None]> (agent_tree a)) a)
  end.

Definition release_reserved_agent_path (path : AgentPath) (a : ActiveAgents) : ActiveAgents :=
  match agent_tree a !! path_string path with
  | Some m =>
      match agent_id m with
      | None => set_tree (delete (path_string path) (agent_tree a)) a
      | Some _ => a
      end
  | None => a
  end.

(** ** Reservations *)
Record SpawnReservation := mkSpawnReservation {
  reservation_active : bool;
  reserved_agent_nickname : option rstring;
  reserved_agent_path : option AgentPath;
}.
Definition new_reservation : SpawnReservation := mkSpawnReservation true None None.

Definition reserve_agent_nickname_with_preference (names : list rstring) (preferred : option rstring) (drawn : nat)
    (r : SpawnReservation) (a : ActiveAgents) : result CodexErr rstring * SpawnReservation * ActiveAgents :=
  let '(nickname, a) := reserve_agent_nickname names preferred drawn a in
  match nickname with
  | Some nickname => (Ok nickname, mkSpawnReservation (reservation_active r) (Some nickname) (reserved_agent_path r), a)
  | None => (Err (UnsupportedOperation (str "no available agent nicknames")), r, a)
  end.

Definition SpawnReservation_reserve_agent_path (path : AgentPath) (r : SpawnReservation) (a : ActiveAgents)
    : result CodexErr (SpawnReservation * ActiveAgents) :=
  a ← reserve_agent_path path a;
  Ok (mkSpawnReservation (reservation_active r) (reserved_agent_nickname r) (Some path), a).

Definition commit (m : AgentMetadata) (a : ActiveAgents) : SpawnReservation * ActiveAgents :=
  (mkSpawnReservation false None None, register_spawned_thread m a).

(** One round of the loop of [try_increment_spawned], for the count at that moment; a weak
    exchange may fail although the count is the expected one. *)
Inductive IncrementOutcome := Refused | Incremented (count : N) | Retry (current : N).
Definition try_increment_spawned (max_threads current count : N) (spurious : bool) : IncrementOutcome :=
  if (max_threads <=? current)%N then Refused
  else if (count =? current)%N && negb spurious then Incremented (current + 1)
  else Retry count.

(** What a spawn prepares: a path, then a nickname of the candidates. *)
Definition prepare_agent_metadata (candidate_names : list rstring) (path : option AgentPath) (role preferred : option rstring)
    (drawn : nat) (r : SpawnReservation) (a : ActiveAgents) : result CodexErr AgentMetadata * SpawnReservation * ActiveAgents :=
  let reserved :=
    match path with
    | Some path => SpawnReservation_reserve_agent_path path r a
    | None => Ok (r, a)
    end in
  match reserved with
  | Err e => (Err e, r, a)
  | Ok (r, a) =>
      let '(nickname, r, a) := reserve_agent_nickname_with_preference candidate_names preferred drawn r a in
      (nickname ← nickname; Ok (mkAgentMetadata None path (Some nickname) role), r, a)
  end.
End Registry.
Arguments AgentMetadata : clear implicits.
Arguments RegisteredAgent : clear implicits.
Arguments ActiveAgents ThreadId TurnEnvironmentSelection {_ _}.
Arguments AgentRegistry ThreadId TurnEnvironmentSelection {_ _}.

(** ** Which paths there are *)
Definition valid_name (name : rstring) : Prop :=
  name ≠ [] ∧ name ≠ ROOT_SEGMENT ∧ Forall (λ c, is_name_char c = true) name.
Definition rooted (names : list rstring) : AgentPath := mkAgentPath (join [47%N] ([] :: ROOT_SEGMENT :: names)).

Lemma validate_agent_name_ok name : validate_agent_name name = Ok () ↔ valid_name name.
Proof.
  unfold validate_agent_name, valid_name, str_eqb. destruct name as [|c name]; [cbn [is_empty]; split; [done|tauto]|].
  cbn [is_empty]. rewrite List.Forall_forall, <- (List.forallb_forall is_name_char (c :: name)).
  destruct (bool_decide_reflect (c :: name = ROOT_SEGMENT)) as [|Hr]; [split; [done|tauto]|].
  destruct (bool_decide_reflect (c :: name = str ".")) as [->|]; [split; [done|by intros (_ & _ & ?)]|].
  destruct (bool_decide_reflect (c :: name = str "..")) as [->|]; [split; [done|by intros (_ & _ & ?)]|]. cbn [orb].
  destruct (bool_decide_reflect (47%N ∈ c :: name)) as [Hin|].
  { split; [done|]. intros (_ & _ & Hall). rewrite List.forallb_forall in Hall. apply list_elem_of_In in Hin. by apply Hall in Hin. }
  destruct (forallb is_name_char (c :: name)); cbn [negb]; split; try done. by intros (_ & _ & ?).
Qed.

Lemma validate_agent_names_ok names : validate_agent_names names = Ok () ↔ Forall valid_name names.
Proof.
  induction names as [|name names IH]; cbn [validate_agent_names]; [done|]. rewrite Forall_cons, <- validate_agent_name_ok, <- IH.
  destruct (validate_agent_name name) as [[]|e]; cbn; split; try done; by intros [??].
Qed.

Lemma valid_name_no_slash name : valid_name name → 47%N ∉ name.
Proof. intros (_ & _ & Hall) Hin. rewrite Forall_forall in Hall. by apply Hall in Hin. Qed.

Lemma names_no_slash names : Forall valid_name names → Forall (λ p, 47%N ∉ p) (ROOT_SEGMENT :: names).
Proof.
  intros H. constructor; [by apply (bool_decide_unpack _)|]. eapply Forall_impl; [exact H|apply valid_name_no_slash].
Qed.

Lemma no_trailing_slash ps : ps ≠ [] → Forall (λ p, p ≠ [] ∧ 47%N ∉ p) ps → ends_with (str "/") (join [47%N] ps) = false.
Proof.
  intros Hne H. apply not_true_iff_false. intros [r Hr]%ends_with_true.
  assert (split_on 47 (join [47%N] ps) = ps) as Hs by (apply split_on_join; [done|by eapply Forall_impl; [exact H|intros ? []]]).
  rewrite Hr in Hs. change (str "/") with [47%N] in Hs. rewrite split_on_app_any in Hs. cbn [split_on] in Hs.
  rewrite <- Hs, Forall_app, Forall_singleton in H. by destruct H as [_ [? _]].
Qed.

Lemma valid_names_pieces names : Forall valid_name names → Forall (λ p, p ≠ [] ∧ 47%N ∉ p) names.
Proof. intros H. eapply Forall_impl; [exact H|]. intros n Hn. split; [apply Hn|by apply valid_name_no_slash]. Qed.

Lemma rooted_string names : path_string (rooted names) = str "/" ++ join [47%N] (ROOT_SEGMENT :: names).
Proof. done. Qed.

Lemma validate_absolute_path_ok path :
  validate_absolute_path path = Ok () ↔
  path = AgentPath_MORPHEUS ∨ ∃ names, Forall valid_name names ∧ path = path_string (rooted names).
Proof.
  unfold validate_absolute_path, str_eqb. destruct (bool_decide_reflect (path = AgentPath_MORPHEUS)) as [|Hm]; [by split; [left|]|].
  split.
  - destruct (strip_prefix (str "/") path) as [stripped|] eqn:Hs; [|done]. apply strip_prefix_Some in Hs as ->.
    destruct (split_on 47 stripped) as [|root segments] eqn:Hsp; [done|].
    destruct (bool_decide_reflect (root = ROOT_SEGMENT)) as [->|]; [|done]. cbn [negb].
    destruct (ends_with (str "/") stripped); [done|]. intros Hv%validate_agent_names_ok. right. exists segments. split; [done|].
    by rewrite rooted_string, <- Hsp, join_split_on.
  - intros [?|(names & Hn & ->)]; [done|]. rewrite rooted_string, strip_prefix_app.
    rewrite split_on_join by (done || by apply names_no_slash). rewrite bool_decide_eq_true_2 by done. cbn [negb].
    rewrite no_trailing_slash; [by apply validate_agent_names_ok|done|].
    constructor; [split; [done|by apply (bool_decide_unpack _)]|by apply valid_names_pieces].
Qed.

Lemma from_string_ok path p :
  AgentPath_from_string path = Ok p ↔ p = mkAgentPath path ∧
  (path = AgentPath_MORPHEUS ∨ ∃ names, Forall valid_name names ∧ path = path_string (rooted names)).
Proof.
  unfold AgentPath_from_string. rewrite <- validate_absolute_path_ok.
  destruct (validate_absolute_path path) as [[]|e]; cbn; split; [by intros [= <-]|by intros [-> _]|done|by intros [_ ?]].
Qed.

Lemma rooted_snoc names more :
  more ≠ [] → path_string (rooted names) ++ str "/" ++ join [47%N] more = path_string (rooted (names ++ more)).
Proof.
  intros Hm. unfold rooted. cbn [path_string].
  change ([] :: ROOT_SEGMENT :: names ++ more) with (([] :: ROOT_SEGMENT :: names) ++ more). by rewrite join_app.
Qed.

(** Joins, one after the other. *)
Fixpoint join_all (p : AgentPath) (names : list rstring) : result rstring AgentPath :=
  match names with
  | [] => Ok p
  | name :: names => q ← AgentPath_join p name; join_all q names
  end.

Lemma join_rooted names name :
  Forall valid_name names → valid_name name → AgentPath_join (rooted names) name = Ok (rooted (names ++ [name])).
Proof.
  intros Hn Hv. unfold AgentPath_join. rewrite (proj2 (validate_agent_name_ok name) Hv). cbn [mbind result_bind].
  change (path_string (rooted names) ++ str "/" ++ name) with (path_string (rooted names) ++ str "/" ++ join [47%N] [name]).
  rewrite rooted_snoc by done. apply from_string_ok. split; [done|]. right. exists (names ++ [name]). rewrite Forall_app. auto.
Qed.

Lemma join_all_rooted more names :
  Forall valid_name names → Forall valid_name more → join_all (rooted names) more = Ok (rooted (names ++ more)).
Proof.
  revert names. induction more as [|name more IH]; intros names Hn Hm; [by rewrite app_nil_r|].
  apply Forall_cons in Hm as [Hv Hm]. cbn [join_all]. rewrite join_rooted by done. cbn [mbind result_bind].
  rewrite IH by (try apply Forall_app; auto). by rewrite <- app_assoc.
Qed.

Lemma rooted_name names name : Forall valid_name names → valid_name name → AgentPath_name (rooted (names ++ [name])) = name.
Proof.
  intros Hn Hv. assert (split_on 47 (path_string (rooted (names ++ [name]))) = ([] :: ROOT_SEGMENT :: names) ++ [name]) as Hs.
  { unfold rooted. cbn [path_string]. rewrite split_on_join; [done|done|]. constructor; [by apply not_elem_of_nil|].
    apply names_no_slash, Forall_app. auto. }
  unfold AgentPath_name, AgentPath_is_root, str_eqb. rewrite Hs, last_snoc.
  destruct (bool_decide_reflect (path_string (rooted (names ++ [name])) = AgentPath_ROOT)) as [E|_].
  - rewrite E in Hs. change (split_on 47 AgentPath_ROOT) with [[]; ROOT_SEGMENT] in Hs.
    apply (f_equal length) in Hs. rewrite length_app in Hs. cbn in Hs. lia.
  - destruct Hv as [Hne _]. by destruct name.
Qed.

(** The paths that are accepted are [/morpheus] and [/root] followed by valid names; a
    relative reference made of names is resolved to the path that joining them one after
    the other gives, whose own name is the last of them, and is refused below
    [/morpheus]. *)
Theorem agent_paths_resolve (p : AgentPath) (names : list rstring) (name : rstring) :
  AgentPath_from_string (path_string p) = Ok p → Forall valid_name (names ++ [name]) →
  let reference := join [47%N] (names ++ [name]) in
  (p = AgentPath_morpheus ∧ is_ok (AgentPath_resolve p reference) = false) ∨
  ∃ base, Forall valid_name base ∧ p = rooted base ∧
    AgentPath_resolve p reference = join_all p (names ++ [name]) ∧
    AgentPath_resolve p reference = Ok (rooted (base ++ names ++ [name])) ∧
    AgentPath_name (rooted (base ++ names ++ [name])) = name.
Proof.
  intros [_ Hp]%from_string_ok Hv reference.
  assert (split_on 47 reference = names ++ [name]) as Hsplit.
  { apply split_on_join; [by destruct names|]. eapply Forall_impl; [exact Hv|apply valid_name_no_slash]. }
  assert (∃ c s, reference = c :: s ∧ c ≠ 47%N) as (c & s & Href & Hc).
  { destruct reference as [|c s] eqn:E; [|exists c, s; split; [done|]].
    - cbn in Hsplit. rewrite <- Hsplit, Forall_singleton in Hv. by destruct Hv as [? _].
    - intros ->. cbn in Hsplit. rewrite <- Hsplit, Forall_cons in Hv. by destruct Hv as [[? _] _]. }
  assert (AgentPath_resolve p reference = AgentPath_from_string (path_string p ++ str "/" ++ reference)) as Hres.
  { unfold AgentPath_resolve, str_eqb.
    assert (is_empty reference = false) as -> by (by rewrite Href).
    rewrite bool_decide_eq_false_2 by (rewrite Href; intros [= -> _]; done).
    assert (starts_with (str "/") reference = false) as ->
      by (rewrite Href; apply not_true_iff_false; by intros [r [= ->]]%starts_with_true).
    assert (ends_with (str "/") reference = false) as Hend
      by (apply no_trailing_slash; [by destruct names|by apply valid_names_pieces]).
    unfold validate_relative_reference. by rewrite Hend, Hsplit, (proj2 (validate_agent_names_ok _) Hv). }
  destruct p as [s0]. cbn [path_string] in *. destruct Hp as [->|(base & Hb & ->)]; [left|right].
  - split; [done|]. rewrite Hres. destruct (AgentPath_from_string _) as [q|] eqn:E; [|done].
    apply from_string_ok in E as [_ [E|(ns & Hns & E)]]; [by apply (f_equal length) in E; rewrite length_app in E|].
    apply (f_equal (split_on 47)) in E. change (AgentPath_MORPHEUS ++ str "/" ++ reference) with (AgentPath_MORPHEUS ++ 47%N :: reference) in E.
    rewrite split_on_app_any in E. unfold rooted in E. cbn [path_string] in E.
    rewrite (split_on_join 47 ([] :: _)) in E; [done|done|constructor; [apply not_elem_of_nil|by apply names_no_slash]].
  - pose proof Hv as [Hn Hname]%Forall_app. rewrite Forall_singleton in Hname. exists base.
    assert (AgentPath_resolve (rooted base) reference = Ok (rooted (base ++ names ++ [name]))) as Hok.
    { change (AgentPath_resolve (rooted base) reference = AgentPath_from_string (path_string (rooted base) ++ str "/" ++ reference)) in Hres.
      rewrite Hres. unfold reference. rewrite rooted_snoc by (by destruct names). apply from_string_ok.
      split; [done|]. right. exists (base ++ names ++ [name]). split; [by apply Forall_app|done]. }
    change (mkAgentPath (path_string (rooted base))) with (rooted base) in *. split_and!; [done|done| | |].
    + rewrite Hok. change (mkAgentPath (path_string (rooted base))) with (rooted base).
      by rewrite join_all_rooted.
    + done.
    + rewrite app_assoc. apply rooted_name; [|exact Hname]. apply Forall_app. auto.
Qed.

(** ** Nicknames are told apart *)
Lemma digits_of_uint d : Forall (λ c, is_ascii_digit c = true) (str (NilEmpty.string_of_uint d)).
Proof. induction d; cbn [NilEmpty.string_of_uint]; [by constructor|..]; (constructor; [done|exact IHd]). Qed.

Lemma dec_digits n : Forall (λ c, is_ascii_digit c = true) (dec n).
Proof. unfold dec, NilZero.string_of_uint. destruct (N.to_uint n) eqn:E; [by repeat constructor|..]; rewrite <- E; apply digits_of_uint. Qed.

Lemma str_inj s t : str s = str t → s = t.
Proof.
  unfold str. intros H. apply list_fmap_eq_inj in H; [|intros a b E; by rewrite <- (Ascii.ascii_N_embedding a), E, Ascii.ascii_N_embedding].
  by rewrite <- (String.string_of_list_ascii_of_string s), H, String.string_of_list_ascii_of_string.
Qed.

Lemma dec_inj n n' : dec n = dec n' → n = n'.
Proof.
  unfold dec. intros H%str_inj. apply (f_equal NilZero.uint_of_string) in H.
  assert (∀ m, N.to_uint m ≠ Decimal.Nil) as Hnil by (intros [|p]; [done|apply DecimalPos.Unsigned.to_uint_nonnil]).
  rewrite !NilZero.usu in H by done.
  injection H as H. by rewrite <- (DecimalN.Unsigned.of_to n), H, DecimalN.Unsigned.of_to.
Qed.

Lemma drop_digits l s :
  Forall (λ c, is_ascii_digit c = true) l → match s with c :: _ => is_ascii_digit c = false | [] => True end →
  drop_while is_ascii_digit (l ++ s) = s.
Proof.
  intros Hl Hs. induction Hl as [|c l Hc Hl IH]; cbn; [|by rewrite Hc]. destruct s as [|c s]; [done|]. cbn. by rewrite Hs.
Qed.

Lemma ordinal_suffix_alpha v : match ordinal_suffix v with c :: _ => is_ascii_digit c = false | [] => True end.
Proof.
  unfold ordinal_suffix. destruct ((11 <=? v mod 100) && (v mod 100 <=? 13))%N; [done|].
  destruct (v mod 10)%N as [|[[]|[]|]]; done.
Qed.

Lemma format_agent_nickname_inj n n' k k' :
  32%N ∉ n → 32%N ∉ n' → format_agent_nickname n k = format_agent_nickname n' k' → n = n' ∧ k = k'.
Proof.
  intros Hn Hn'. unfold format_agent_nickname.
  destruct (N.eqb_spec k 0) as [->|], (N.eqb_spec k' 0) as [->|]; cbv zeta.
  - done.
  - intros ->. destruct Hn. rewrite elem_of_app. right. by left.
  - intros <-. destruct Hn'. rewrite elem_of_app. right. by left.
  - change (str " the ") with (32%N :: str "the "). cbn [app]. intros H.
    pose proof (f_equal (split_on 32) H) as Hs. rewrite !split_on_app in Hs by done. injection Hs as -> _.
    split; [done|]. apply app_inv_head in H. injection H as H.
    pose proof (f_equal (drop_while is_ascii_digit) H) as Hd. rewrite !drop_digits in Hd by (apply dec_digits || apply ordinal_suffix_alpha).
    rewrite Hd in H. apply app_inv_tail, dec_inj in H. lia.
Qed.
