(* ===== verification/AgentSpawn.v ===== *)
(** * Spawning agents concurrently

    The registry of [AgentRegistry.v] is shared by all agents of a session.  Each access to
    the atomic count and each section under the lock is one step; the reservations, the
    attempts to increment the count and the decrements that are still to come are tasks,
    and a run is any order of their steps.  The theorems bound the agents by the limit,
    show that no slot is lost, and that drawn nicknames are distinct. *)

From stdpp Require Import base list gmap numbers strings.
From S2P Require Import Prelude Machine AgentRegistry.

#[local] Set Default Proof Using "Type*".
#[local] Arguments str : simpl never.
#[local] Arguments USIZE_MAX : simpl never.

(** [AtomicUsize::fetch_add(1)] and [fetch_sub(1)] wrap around. *)
Definition fetch_add_one (count : N) : N := ((count + 1) mod (USIZE_MAX + 1))%N.
Definition fetch_sub_one (count : N) : N := ((count + USIZE_MAX) mod (USIZE_MAX + 1))%N.

(** An attempt to reserve a slot, a reservation that is held, and a decrement that is still
    to come after the lock was given up. *)
Inductive Task :=
| Incrementing (max_threads current : N)
| Reserved (r : SpawnReservation)
| Decrementing.

(** [reserve_spawn_slot], up to the loop of [try_increment_spawned]. *)
Definition reserve_spawn_slot (max_threads : option N) (count : N) : N * Task :=
  match max_threads with
  | Some max_threads => (count, Incrementing max_threads count)
  | None => (fetch_add_one count, Reserved new_reservation)
  end.

Section Spawn.
Context {ThreadId TurnEnvironmentSelection : Type} {id_eq : EqDecision ThreadId} {id_countable : Countable ThreadId}
  {id_display : ThreadIdDisplay ThreadId}.
#[local] Abbreviation agents := (ActiveAgents ThreadId TurnEnvironmentSelection).
#[local] Abbreviation registry := (AgentRegistry ThreadId TurnEnvironmentSelection).
#[local] Abbreviation metadata := (AgentMetadata ThreadId).

Record World := mkWorld { world_registry : registry; world_tasks : list Task }.
Definition initial_world : World := mkWorld default_registry [].

Inductive Action :=
| ReserveSlot (max_threads : option N)
| TryIncrement (i : nat) (spurious : bool)
| ReserveNickname (i : nat) (names : list rstring) (preferred : option rstring) (drawn : nat)
| ReservePath (i : nat) (path : AgentPath)
| Commit (i : nat) (m : metadata)
| DropReservation (i : nat)
| Decrement (i : nat)
| ReleaseThread (thread_id : ThreadId)
| RegisterRoot (thread_id : ThreadId)
| SaveEnvironments (thread_id : ThreadId) (environments : list TurnEnvironmentSelection)
| ClearEnvironments (thread_id : ThreadId).

Definition replace_task (i : nat) (new tasks : list Task) : list Task := take i tasks ++ new ++ drop (S i) tasks.
Definition world_agents (w : World) : agents := active_agents (world_registry w).
Definition update (w : World) (a : agents) (count : N) (tasks : list Task) : World :=
  mkWorld (mkAgentRegistry a count) tasks.

(** Dropping a reservation, up to the decrement. *)
Definition drop_reservation (r : SpawnReservation) (a : agents) : agents * list Task :=
  if reservation_active r then
    (match reserved_agent_path r with Some path => release_reserved_agent_path path a | None => a end, [Decrementing])
  else (a, []).

Definition step (action : Action) (w : World) : option World :=
  let a := world_agents w in
  let count := total_count (world_registry w) in
  let tasks := world_tasks w in
  match action with
  | ReserveSlot max_threads =>
      let '(count, task) := reserve_spawn_slot max_threads count in Some (update w a count (tasks ++ [task]))
  | TryIncrement i spurious =>
      match tasks !! i with
      | Some (Incrementing max_threads current) =>
          match try_increment_spawned max_threads current count spurious with
          | Refused => Some (update w a count (replace_task i [] tasks))
          | Incremented count => Some (update w a count (replace_task i [Reserved new_reservation] tasks))
          | Retry current => Some (update w a count (replace_task i [Incrementing max_threads current] tasks))
          end
      | _ => None
      end
  | ReserveNickname i names preferred drawn =>
      match tasks !! i with
      | Some (Reserved r) =>
          let '(_, r, a) := reserve_agent_nickname_with_preference names preferred drawn r a in
          Some (update w a count (replace_task i [Reserved r] tasks))
      | _ => None
      end
  | ReservePath i path =>
      match tasks !! i with
      | Some (Reserved r) =>
          match SpawnReservation_reserve_agent_path path r a with
          | Ok (r, a) => Some (update w a count (replace_task i [Reserved r] tasks))
          | Err _ => Some w
          end
      | _ => None
      end
  | Commit i m =>
      match tasks !! i with
      | Some (Reserved r) =>
          let '(r, a) := commit m a in
          let '(a, rest) := drop_reservation r a in
          Some (update w a count (replace_task i rest tasks))
      | _ => None
      end
  | DropReservation i =>
      match tasks !! i with
      | Some (Reserved r) =>
          let '(a, rest) := drop_reservation r a in Some (update w a count (replace_task i rest tasks))
      | _ => None
      end
  | Decrement i =>
      match tasks !! i with
      | Some Decrementing => Some (update w a (fetch_sub_one count) (replace_task i [] tasks))
      | _ => None
      end
  | ReleaseThread thread_id =>
      let '(removed_counted_agent, a) := release_spawned_thread thread_id a in
      Some (update w a count (if removed_counted_agent then tasks ++ [Decrementing] else tasks))
  | RegisterRoot thread_id => Some (update w (register_root_thread thread_id a) count tasks)
  | SaveEnvironments thread_id environments => Some (update w (save_evicted_environments thread_id environments a) count tasks)
  | ClearEnvironments thread_id => Some (update w (clear_evicted_environments thread_id a) count tasks)
  end.

Fixpoint run (actions : list Action) (w : World) : option World :=
  match actions with
  | [] => Some w
  | action :: actions => w ← step action w; run actions w
  end.

(** ** Counting *)
Definition task_weight (t : Task) : nat :=
  match t with
  | Incrementing _ _ => 0
  | Reserved r => if reservation_active r then 1 else 0
  | Decrementing => 1
  end.
(** Slots that are reserved or about to be given back. *)
Definition held (tasks : list Task) : nat := sum_list_with task_weight tasks.
Definition lives (tree : gmap rstring metadata) : nat := length (List.filter is_live_agent (map snd (map_to_list tree))).

Lemma live_agents_lives (a : agents) : length (live_agents a) = lives (agent_tree a).
Proof using Type. done. Qed.

Lemma filter_length_perm {A} (P : A → bool) (l l' : list A) : l ≡ₚ l' → length (List.filter P l) = length (List.filter P l').
Proof using Type.
  induction 1 as [|x ? ? ? IH|x y|]; cbn; [done|destruct (P x); cbn; by rewrite IH|destruct (P x), (P y); done|congruence].
Qed.

Definition live_weight (m : option metadata) : nat := match m with Some m => if is_live_agent m then 1 else 0 | None => 0 end.

Lemma lives_insert_new (tree : gmap rstring metadata) k m :
  tree !! k = None → lives (<[k := m]> tree) = live_weight (Some m) + lives tree.
Proof using Type.
  intros Hk. unfold lives. rewrite (filter_length_perm _ _ (map snd ((k, m) :: map_to_list tree))).
  - cbn. by destruct (is_live_agent m).
  - apply Permutation_map. by apply map_to_list_insert.
Qed.

Lemma lives_delete (tree : gmap rstring metadata) k : lives tree = live_weight (tree !! k) + lives (delete k tree).
Proof using Type.
  destruct (tree !! k) as [m|] eqn:Hk; [|by rewrite delete_id].
  rewrite <- (insert_delete_id tree k m Hk) at 1. apply lives_insert_new, lookup_delete_eq.
Qed.

Lemma lives_insert (tree : gmap rstring metadata) k m :
  lives (<[k := m]> tree) + live_weight (tree !! k) = live_weight (Some m) + lives tree.
Proof using Type.
  rewrite <- insert_delete_eq, lives_insert_new by apply lookup_delete_eq. rewrite (lives_delete tree k). lia.
Qed.

Lemma held_app l l' : held (l ++ l') = held l + held l'.
Proof using Type. apply sum_list_with_app. Qed.

Lemma held_replace i t new tasks : tasks !! i = Some t → held (replace_task i new tasks) + task_weight t = held tasks + held new.
Proof using Type.
  intros Hi. unfold replace_task. rewrite <- (take_drop_middle tasks i t Hi) at 3. rewrite !held_app. unfold held. cbn. lia.
Qed.

Lemma elem_replace i t new tasks x :
  tasks !! i = Some t → x ∈ replace_task i new tasks → x ∈ new ∨ x ∈ tasks.
Proof using Type.
  intros Hi. unfold replace_task. rewrite !elem_of_app. rewrite <- (take_drop_middle tasks i t Hi) at 3.
  rewrite elem_of_app, elem_of_cons. tauto.
Qed.
End Spawn.
Arguments World ThreadId TurnEnvironmentSelection {_ _}.
Arguments Action : clear implicits.

(** ** What the sections under the lock do to the tree *)
Section Links.
Context {ThreadId TurnEnvironmentSelection : Type} {id_eq : EqDecision ThreadId} {id_countable : Countable ThreadId}
  {id_display : ThreadIdDisplay ThreadId}.
#[local] Abbreviation agents := (ActiveAgents ThreadId TurnEnvironmentSelection).
#[local] Abbreviation metadata := (AgentMetadata ThreadId).

(** Threads are registered at the paths of agents of their own. *)
Definition links (a : agents) : Prop :=
  ∀ thread_id agent, thread_paths a !! thread_id = Some agent →
    ∃ m, agent_tree a !! registered_path agent = Some m ∧ agent_id m = Some thread_id.

Lemma links_default : links default_agents.
Proof using Type. intros t agent H. cbn in H. by rewrite lookup_empty in H. Qed.

Lemma register_spawned_links (m : metadata) (a : agents) : links a → links (register_spawned_thread m a).
Proof using Type.
  intros Hl. unfold register_spawned_thread. destruct (agent_id m) as [t|] eqn:Hid; [|done]. cbv zeta.
  set (key := metadata_key t m).
  set (tree := match thread_paths a !! t with Some _ => _ | None => _ end).
  assert (∀ u agent, u ≠ t → thread_paths a !! u = Some agent →
    ∃ m', tree !! registered_path agent = Some m' ∧ agent_id m' = Some u) as Htree.
  { intros u agent Hu Hag. destruct (Hl u agent Hag) as (m' & Hm' & Hid'). exists m'. split; [|done]. unfold tree.
    destruct (thread_paths a !! t) as [previous|] eqn:Hp; [|done].
    destruct (str_eqb _ key); [done|]. destruct (Hl t previous Hp) as (m2 & Hm2 & Hid2).
    rewrite lookup_delete_ne; [done|]. intros E. rewrite E in Hm2. congruence. }
  intros u agent. cbn [thread_paths agent_tree]. intros Hag.
  assert (u = t ∧ registered_path agent = key ∨
          u ≠ t ∧ thread_paths a !! u = Some agent ∧ registered_path agent ≠ key) as [[-> ->]|(Hu & Hu' & Hk)].
  { destruct (decide (u = t)) as [->|Hu].
    - left. split; [done|]. destruct (tree !! key ≫= agent_id) as [v|]; [destruct (bool_decide_reflect (v = t)) as [|Hv]|].
      + by rewrite lookup_insert_eq in Hag; injection Hag as <-.
      + rewrite lookup_delete_ne, lookup_insert_eq in Hag by done. by injection Hag as <-.
      + by rewrite lookup_insert_eq in Hag; injection Hag as <-.
    - right. split; [done|].
      assert (thread_paths a !! u = Some agent ∧ tree !! key ≫= agent_id ≠ Some u) as [Ha Hne].
      { destruct (tree !! key ≫= agent_id) as [v|]; [destruct (bool_decide_reflect (v = t)) as [|Hv]|].
        - rewrite lookup_insert_ne in Hag by done. split; [done|congruence].
        - apply lookup_delete_Some in Hag as [Hvu Hag]. rewrite lookup_insert_ne in Hag by done. split; [done|congruence].
        - rewrite lookup_insert_ne in Hag by done. done. }
      split; [done|]. intros E. destruct (Htree u agent Hu Ha) as (m' & Hm' & Hid'). rewrite E in Hm'. rewrite Hm' in Hne. done. }
  - exists m. by rewrite lookup_insert_eq.
  - rewrite lookup_insert_ne by done. by apply Htree.
Qed.

Lemma register_spawned_lives (m : metadata) (a : agents) :
  lives (agent_tree (register_spawned_thread m a)) ≤ 1 + lives (agent_tree a).
Proof using Type.
  unfold register_spawned_thread. destruct (agent_id m) as [t|]; [|lia]. cbn [agent_tree].
  set (tree := match thread_paths a !! t with Some _ => _ | None => _ end).
  assert (lives tree ≤ lives (agent_tree a)) as Ht.
  { unfold tree. destruct (thread_paths a !! t) as [previous|]; [|done]. destruct (str_eqb _ _); [done|].
    rewrite (lives_delete (agent_tree a) (registered_path previous)). lia. }
  pose proof (lives_insert tree (metadata_key t m) m) as H. unfold live_weight in H at 2. destruct (is_live_agent m); lia.
Qed.

Lemma release_spawned_links (t : ThreadId) (a : agents) : links a → links (release_spawned_thread t a).2.
Proof using Type.
  intros Hl. unfold release_spawned_thread. destruct (thread_paths a !! t) as [agent|] eqn:Ht; [|done].
  intros u agent'. cbn. intros [Hu Hag]%lookup_delete_Some. destruct (Hl u agent' Hag) as (m & Hm & Hid). exists m. split; [|done].
  destruct (Hl t agent Ht) as (m' & Hm' & Hid'). rewrite lookup_delete_ne; [done|]. intros E. rewrite E in Hm'. congruence.
Qed.

Lemma release_spawned_lives (t : ThreadId) (a : agents) :
  links a → lives (agent_tree a) = (if (release_spawned_thread t a).1 then 1 else 0) + lives (agent_tree (release_spawned_thread t a).2).
Proof using Type.
  intros Hl. unfold release_spawned_thread. destruct (thread_paths a !! t) as [agent|] eqn:Ht; [|done]. cbn.
  destruct (Hl t agent Ht) as (m & Hm & Hid). rewrite (lives_delete (agent_tree a) (registered_path agent)), Hm.
  unfold live_weight, is_live_agent. by rewrite Hid.
Qed.

Lemma register_root_links (t : ThreadId) (a : agents) : links a → links (register_root_thread t a).
Proof using Type.
  intros Hl. unfold register_root_thread. destruct (agent_tree a !! AgentPath_ROOT) as [m|] eqn:Hr.
  - destruct (agent_id m) as [t0|] eqn:Hid; [|by intros u agent Hu; apply Hl].
    intros u agent. cbn. destruct (decide (u = t0)) as [->|Hu].
    + rewrite lookup_insert_eq. intros [= <-]. by exists m.
    + rewrite lookup_insert_ne by done. apply Hl.
  - intros u agent. cbn. destruct (decide (u = t)) as [->|Hu].
    + rewrite lookup_insert_eq. intros [= <-]. eexists. cbn. by rewrite lookup_insert_eq.
    + rewrite lookup_insert_ne by done. intros Hag. destruct (Hl u agent Hag) as (m' & Hm' & Hid'). exists m'. split; [|done].
      rewrite lookup_insert_ne; [done|]. congruence.
Qed.

Lemma register_root_lives (t : ThreadId) (a : agents) : lives (agent_tree (register_root_thread t a)) = lives (agent_tree a).
Proof using Type.
  unfold register_root_thread. destruct (agent_tree a !! AgentPath_ROOT) as [m|] eqn:Hr; [by destruct (agent_id m)|].
  cbn [agent_tree set_tree agent_id]. rewrite lives_insert_new by done. done.
Qed.

Lemma set_environments_links envs (t : ThreadId) (a : agents) :
  links a → links (set_environments envs t a) ∧ agent_tree (set_environments envs t a) = agent_tree a.
Proof using Type.
  intros Hl. unfold set_environments. destruct (thread_paths a !! t) as [agent|] eqn:Ht; [|done]. split; [|done].
  intros u agent'. cbn. destruct (decide (u = t)) as [->|Hu].
  - rewrite lookup_insert_eq. intros [= <-]. cbn [registered_path]. by apply (Hl t agent).
  - rewrite lookup_insert_ne by done. apply Hl.
Qed.

Lemma reserve_nickname_tree names preferred drawn (a : agents) :
  let a' := (reserve_agent_nickname names preferred drawn a).2 in
  agent_tree a' = agent_tree a ∧ thread_paths a' = thread_paths a.
Proof using Type.
  cbv zeta. unfold reserve_agent_nickname. destruct preferred as [p|]; [done|]. destruct (is_empty names); [done|].
  destruct (choose drawn _); [done|]. by destruct (choose drawn names).
Qed.

Lemma reserve_path_effect path (a a' : agents) :
  reserve_agent_path path a = Ok a' → agent_tree a !! path_string path = None ∧
  agent_tree a' = <[path_string path := mkAgentMetadata None (Some path) None None]> (agent_tree a) ∧ thread_paths a' = thread_paths a.
Proof using Type. unfold reserve_agent_path. destruct (agent_tree a !! path_string path); [done|]. by intros [= <-]. Qed.

Lemma reserve_path_links path (a a' : agents) :
  reserve_agent_path path a = Ok a' → links a → links a' ∧ lives (agent_tree a') = lives (agent_tree a).
Proof using Type.
  intros (Hn & Ht & Hp)%reserve_path_effect Hl. rewrite Ht, lives_insert_new by done. split; [|done].
  intros u agent. rewrite Hp, Ht. intros Hag. destruct (Hl u agent Hag) as (m & Hm & Hid). exists m. split; [|done].
  rewrite lookup_insert_ne; [done|]. congruence.
Qed.

Lemma release_reserved_links path (a : agents) :
  links a → links (release_reserved_agent_path path a) ∧
  lives (agent_tree (release_reserved_agent_path path a)) = lives (agent_tree a).
Proof using Type.
  intros Hl. unfold release_reserved_agent_path. destruct (agent_tree a !! path_string path) as [m|] eqn:Hm; [|done].
  destruct (agent_id m) eqn:Hid; [done|]. split.
  - intros u agent Hag. destruct (Hl u agent Hag) as (m' & Hm' & Hid'). exists m'. split; [|done]. cbn.
    rewrite lookup_delete_ne; [done|]. congruence.
  - cbn. rewrite (lives_delete (agent_tree a) (path_string path)), Hm. unfold live_weight, is_live_agent. by rewrite Hid.
Qed.

(** Dropping a reservation gives its slot to the decrement. *)
Lemma drop_reservation_links r (a : agents) :
  links a → links (drop_reservation r a).1 ∧ lives (agent_tree (drop_reservation r a).1) = lives (agent_tree a) ∧
  held (drop_reservation r a).2 = task_weight (Reserved r).
Proof using Type.
  intros Hl. unfold drop_reservation. cbn [task_weight]. destruct (reservation_active r); [|done].
  destruct (reserved_agent_path r) as [path|]; [|done]. cbn [fst snd].
  destruct (release_reserved_links path a Hl) as [??]. done.
Qed.

(** ** The limit *)
Lemma fetch_sub_one_pos count : (0 < count ≤ USIZE_MAX)%N → fetch_sub_one count = (count - 1)%N.
Proof using Type.
  intros H. unfold fetch_sub_one. rewrite <- (N.mod_small (count - 1) (USIZE_MAX + 1)) by lia.
  rewrite <- (N.Div0.mod_add (count - 1) 1 (USIZE_MAX + 1)). f_equal. lia.
Qed.

Definition within_limit (limit : N) (action : Action ThreadId TurnEnvironmentSelection) : bool :=
  match action with
  | ReserveSlot None => false
  | ReserveSlot (Some max_threads) => (max_threads <=? limit)%N
  | _ => true
  end.
Definition task_limited (limit : N) (t : Task) : Prop :=
  match t with
  | Incrementing max_threads _ => (max_threads ≤ limit)%N
  | Reserved r => reservation_active r = true
  | Decrementing => True
  end.

Record limited (limit : N) (w : World ThreadId TurnEnvironmentSelection) : Prop := {
  limited_links : links (world_agents w);
  limited_tasks : Forall (task_limited limit) (world_tasks w);
  limited_low : (N.of_nat (held (world_tasks w) + lives (agent_tree (world_agents w))) ≤ total_count (world_registry w))%N;
  limited_high : (total_count (world_registry w) ≤ limit)%N;
}.

#[local] Ltac world_cbn := cbn [world_agents world_registry world_tasks active_agents total_count] in *.

#[local] Ltac slots := cbn [held sum_list_with task_weight reservation_active new_reservation] in *.

(** A task is replaced, and what it held goes to the tasks and agents that replace it. *)
Lemma limited_replace limit i t new tasks (a a' : ActiveAgents ThreadId TurnEnvironmentSelection) count count' :
  limited limit (mkWorld (mkAgentRegistry a count) tasks) → tasks !! i = Some t →
  links a' → Forall (task_limited limit) new → (count' ≤ limit)%N →
  (N.of_nat (held new + lives (agent_tree a')) + count ≤ count' + N.of_nat (task_weight t + lives (agent_tree a)))%N →
  limited limit (mkWorld (mkAgentRegistry a' count') (replace_task i new tasks)).
Proof using Type.
  intros [Hl Ht Hlow Hhigh] Hi Hl' Hnew Hc Hle. world_cbn. pose proof (held_replace i t new tasks Hi) as Hh.
  split; world_cbn; [done| |lia|done]. rewrite Forall_forall in *. intros x [?|?]%(elem_replace i t); auto.
Qed.

Lemma reserved_active limit (w : World ThreadId TurnEnvironmentSelection) i r :
  limited limit w → world_tasks w !! i = Some (Reserved r) → reservation_active r = true.
Proof using Type. intros [_ Ht _ _] Hi. rewrite Forall_lookup in Ht. exact (Ht i _ Hi). Qed.

Lemma step_limited limit action w w' :
  (limit ≤ USIZE_MAX)%N → within_limit limit action = true → limited limit w → step action w = Some w' → limited limit w'.
Proof using Type.
  intros HU Hwithin Hlim. pose proof Hlim as [Hl Ht Hlow Hhigh]. destruct w as [[a count] tasks]. world_cbn.
  unfold step, world_agents, update. cbn [world_registry active_agents total_count world_tasks].
  destruct action as [[max|]|i spurious|i names preferred drawn|i path|i m|i|i|t|t|t envs|t]; cbn in Hwithin; try done;
    try (destruct (tasks !! i) as [[max current|r|]|] eqn:Hi; try done; []).
  - intros [= <-]. split; world_cbn; [done| |by rewrite held_app; cbn [held sum_list_with task_weight]; lia|done].
    apply Forall_app. split; [done|]. repeat constructor. by apply N.leb_le.
  - unfold try_increment_spawned.
    assert (max ≤ limit)%N as Hmax by (rewrite Forall_lookup in Ht; exact (Ht i _ Hi)).
    destruct (N.leb_spec max current) as [|Hlt]; [|destruct (_ && _) eqn:Hc]; intros [= <-].
    + eapply (limited_replace _ _ _ _ _ _ _ _ _ Hlim Hi); [done|by constructor|done|slots; lia].
    + apply andb_true_iff in Hc as [->%N.eqb_eq _]. eapply (limited_replace _ _ _ _ _ _ _ _ _ Hlim Hi); [done|by repeat constructor|lia|slots; lia].
    + eapply (limited_replace _ _ _ _ _ _ _ _ _ Hlim Hi); [done|by repeat constructor|done|slots; lia].
  - pose proof (reserved_active _ _ i r Hlim Hi) as Hr. unfold reserve_agent_nickname_with_preference.
    pose proof (reserve_nickname_tree names preferred drawn a) as [Htr Hpa].
    destruct (reserve_agent_nickname names preferred drawn a) as [o a']. cbn in Htr, Hpa.
    assert (links a') as Hl' by (intros u agent; rewrite Hpa, Htr; apply Hl).
    destruct o as [n|]; intros [= <-]; (eapply (limited_replace _ _ _ _ _ _ _ _ _ Hlim Hi); [done|by repeat constructor|done|cbn [held sum_list_with task_weight reservation_active]; rewrite Htr, ?Hr; lia]).
  - pose proof (reserved_active _ _ i r Hlim Hi) as Hr. unfold SpawnReservation_reserve_agent_path.
    destruct (reserve_agent_path path a) as [a'|e] eqn:Hp; cbn; intros [= <-]; [|done].
    destruct (reserve_path_links path a a' Hp Hl) as [Hl' Hlv].
    eapply (limited_replace _ _ _ _ _ _ _ _ _ Hlim Hi); [done|by repeat constructor|done|cbn [held sum_list_with task_weight reservation_active]; rewrite Hlv, Hr; lia].
  - pose proof (reserved_active _ _ i r Hlim Hi) as Hr. cbn. intros [= <-]. pose proof (register_spawned_lives m a).
    eapply (limited_replace _ _ _ _ _ _ _ _ _ Hlim Hi); [by apply register_spawned_links|by constructor|done|slots; rewrite Hr; lia].
  - destruct (drop_reservation_links r a Hl) as (Hl' & Hlv & Hh). pose proof (reserved_active _ _ i r Hlim Hi) as Hr.
    assert (Forall (task_limited limit) (drop_reservation r a).2) as Hd by (unfold drop_reservation; rewrite Hr; by repeat constructor).
    destruct (drop_reservation r a) as [a' rest]. cbn [fst snd] in *. intros [= <-].
    eapply (limited_replace _ _ _ _ _ _ _ _ _ Hlim Hi); [done|done|done|rewrite Hh, Hlv; lia].
  - intros [= <-]. pose proof (held_replace i _ [] tasks Hi) as Hh. cbn [held sum_list_with task_weight reservation_active] in Hh.
    rewrite fetch_sub_one_pos by lia. eapply (limited_replace _ _ _ _ _ _ _ _ _ Hlim Hi); [done|by constructor|lia|slots; lia].
  - pose proof (release_spawned_links t a Hl) as Hl'. pose proof (release_spawned_lives t a Hl) as Hlv.
    destruct (release_spawned_thread t a) as [counted a']. cbn [fst snd] in *. intros [= <-].
    destruct counted; (split; world_cbn; [done| | |done]); [by apply Forall_app; repeat constructor|rewrite held_app; cbn [held sum_list_with task_weight]; lia|done|lia].
  - intros [= <-]. split; world_cbn; [by apply register_root_links|done|by rewrite register_root_lives|done].
  - intros [= <-]. destruct (set_environments_links (Some envs) t a Hl) as [Hl' Htr].
    split; world_cbn; unfold save_evicted_environments; [done|done|by rewrite Htr|done].
  - intros [= <-]. destruct (set_environments_links None t a Hl) as [Hl' Htr].
    split; world_cbn; unfold clear_evicted_environments; [done|done|by rewrite Htr|done].
Qed.

Lemma initial_limited limit : limited limit initial_world.
Proof using Type. split; [apply links_default|by constructor|by vm_compute|apply N.le_0_l]. Qed.

(** C11: However reservations, attempts to increment, drops, commits and releases are
    interleaved, when every reservation names at most the limit the live agents together
    with the reservations that are held and the decrements that are still to come are no
    more than the count, and the count is no more than the limit; so it never wraps
    around. *)
Theorem agent_limit_respected limit actions (w : World ThreadId TurnEnvironmentSelection) :
  (limit ≤ USIZE_MAX)%N → forallb (within_limit limit) actions = true → run actions initial_world = Some w →
  (N.of_nat (held (world_tasks w) + length (live_agents (world_agents w))) ≤ total_count (world_registry w) ≤ limit)%N.
Proof using Type.
  intros HU. enough (∀ w0, limited limit w0 → forallb (within_limit limit) actions = true → run actions w0 = Some w → limited limit w) as H.
  { intros Hall Hrun. destruct (H _ (initial_limited limit) Hall Hrun) as [_ _ ? ?]. rewrite live_agents_lives. done. }
  clear -HU. induction actions as [|action actions IH]; intros w0 Hw0; cbn; [by intros _ [= <-]|].
  intros [Ha Hall]%andb_true_iff. destruct (step action w0) as [w1|] eqn:Hs; [|done]. cbn.
  apply IH; [|done]. by eapply step_limited.
Qed.
End Links.

(** ** No slot is lost *)
(** UUIDs are written differently. *)
Class ThreadIdLaws (ThreadId : Type) `{!ThreadIdDisplay ThreadId} : Prop :=
  thread_id_display_inj :: Inj (=) (=) (thread_id_display (ThreadId := ThreadId)).

Section Balance.
Context {ThreadId TurnEnvironmentSelection : Type} {id_eq : EqDecision ThreadId} {id_countable : Countable ThreadId}
  {id_display : ThreadIdDisplay ThreadId} {id_laws : ThreadIdLaws ThreadId}.
#[local] Abbreviation agents := (ActiveAgents ThreadId TurnEnvironmentSelection).
#[local] Abbreviation metadata := (AgentMetadata ThreadId).
#[local] Abbreviation world := (World ThreadId TurnEnvironmentSelection).
#[local] Abbreviation action := (Action ThreadId TurnEnvironmentSelection).

(** How the control of agents uses the registry: a reservation reserves at most one path,
    which is not the root, and is committed with that path ([prepare_agent_metadata]), for
    any thread, registered or not; the root thread is not an agent that was spawned (a
    spawned thread has a parent and a depth of at least one, and only threads without a
    parent and parents of threads at depth one are registered as the root); fewer than
    [2^64] slots are taken without a limit. *)
Definition proper (a : action) (w : world) : bool :=
  match a with
  | ReserveSlot None => (total_count (world_registry w) <? USIZE_MAX)%N
  | ReserveSlot (Some max_threads) => (max_threads <=? USIZE_MAX)%N
  | ReservePath i path =>
      is_ok (AgentPath_from_string (path_string path)) && negb (AgentPath_is_root path) &&
      match world_tasks w !! i with Some (Reserved r) => bool_decide (reserved_agent_path r = None) | _ => true end
  | Commit i m =>
      match agent_id m, world_tasks w !! i with
      | Some _, Some (Reserved r) => bool_decide (agent_path m = reserved_agent_path r)
      | _, _ => false
      end
  | RegisterRoot thread_id =>
      match thread_paths (world_agents w) !! thread_id with
      | Some agent => str_eqb (registered_path agent) AgentPath_ROOT
      | None => true
      end
  | _ => true
  end.

(** The commit of a thread that already is a live agent replaces that agent. *)
Definition replaced_agents (a : action) (w : world) : nat :=
  match a with
  | Commit _ m => live_weight (t ← agent_id m; agent_metadata_for_thread t (world_agents w))
  | _ => 0
  end.

(** The worlds that are reached, with the number of agents that were replaced. *)
Inductive reachable : nat → world → Prop :=
| reachable_initial : reachable 0 initial_world
| reachable_step n w a w' :
    reachable n w → proper a w = true → step a w = Some w' → reachable (n + replaced_agents a w) w'.

Definition task_path (t : Task) : option AgentPath := match t with Reserved r => reserved_agent_path r | _ => None end.
Definition reserved_paths (tasks : list Task) : list AgentPath := omap task_path tasks.

(** The key of an agent. *)
Definition keyed (k : rstring) (m : metadata) : Prop :=
  match agent_path m with
  | Some p => k = path_string p ∧ head k = Some 47%N
  | None => ∃ t, agent_id m = Some t ∧ k = str "thread:" ++ thread_id_display t
  end.

(** The tree holds the agents of the registered threads and one placeholder for each path
    that is reserved. *)
Record tree_ok (a : agents) (paths : list AgentPath) : Prop := {
  tree_links : links a;
  tree_registered k m t : agent_tree a !! k = Some m → agent_id m = Some t →
    ∃ agent, thread_paths a !! t = Some agent ∧ registered_path agent = k;
  tree_keyed k m : agent_tree a !! k = Some m → keyed k m;
  tree_root m : agent_tree a !! AgentPath_ROOT = Some m → is_Some (agent_id m);
  tree_held p : p ∈ paths → ∃ m, agent_tree a !! path_string p = Some m ∧ agent_id m = None ∧ AgentPath_is_root p = false;
  tree_owned k m : agent_tree a !! k = Some m → agent_id m = None → ∃ p, p ∈ paths ∧ agent_path m = Some p;
  tree_distinct : NoDup paths;
}.

Lemma tree_ok_perm a ps ps' : ps ≡ₚ ps' → tree_ok a ps → tree_ok a ps'.
Proof using Type.
  intros Hp [H1 H2 H3 H4 H5 H6 H7]. split; try done.
  - intros p Hin. apply H5. by rewrite Hp.
  - intros k m Hk Hid. destruct (H6 k m Hk Hid) as (p & Hin & ?). exists p. by rewrite <- Hp.
  - by rewrite <- Hp.
Qed.

Lemma tree_ok_ext (a a' : agents) ps :
  agent_tree a' = agent_tree a → thread_paths a' = thread_paths a → tree_ok a ps → tree_ok a' ps.
Proof using Type.
  intros Ht Hp [H1 H2 H3 H4 H5 H6 H7]. split; unfold links; rewrite ?Ht, ?Hp; done.
Qed.

Lemma path_ok_head path : is_ok (AgentPath_from_string (path_string path)) = true → head (path_string path) = Some 47%N.
Proof using Type.
  destruct (AgentPath_from_string (path_string path)) as [p|] eqn:E; [|done].
  apply from_string_ok in E as [_ [->|(names & _ & ->)]]; intros _; done.
Qed.

Lemma path_string_inj p p' : path_string p = path_string p' → p = p'.
Proof using Type. destruct p, p'. cbn. by intros ->. Qed.

Lemma not_root_string p : AgentPath_is_root p = false → path_string p ≠ AgentPath_ROOT.
Proof using Type. unfold AgentPath_is_root, str_eqb. by intros H%bool_decide_eq_false. Qed.

Lemma reserve_path_ok path (a a' : agents) ps :
  tree_ok a ps → is_ok (AgentPath_from_string (path_string path)) = true → AgentPath_is_root path = false →
  reserve_agent_path path a = Ok a' → tree_ok a' (path :: ps).
Proof using Type.
  intros [H1 H2 H3 H4 H5 H6 H7] Hok Hr Hres. destruct (reserve_path_links path a a' Hres H1) as [Hl _].
  apply reserve_path_effect in Hres as (Hn & Ht & Hp). split; rewrite ?Ht, ?Hp; try done.
  - intros k m t. destruct (decide (k = path_string path)) as [->|Hk]; [rewrite lookup_insert_eq; by intros [= <-]|].
    rewrite lookup_insert_ne by done. apply H2.
  - intros k m. destruct (decide (k = path_string path)) as [->|Hk].
    + rewrite lookup_insert_eq. intros [= <-]. split; [done|by apply path_ok_head].
    + rewrite lookup_insert_ne by done. apply H3.
  - intros m. rewrite lookup_insert_ne by (by apply not_root_string). apply H4.
  - intros p [->|Hin]%elem_of_cons.
    + eexists. by rewrite lookup_insert_eq.
    + destruct (H5 p Hin) as (m & Hm & ?). exists m. rewrite lookup_insert_ne; [done|]. congruence.
  - intros k m. destruct (decide (k = path_string path)) as [->|Hk].
    + rewrite lookup_insert_eq. intros [= <-] _. exists path. split; [by left|done].
    + rewrite lookup_insert_ne by done. intros Hm Hid. destruct (H6 k m Hm Hid) as (p & ? & ?). exists p. split; [by right|done].
  - constructor; [|done]. intros (m & Hm & _)%H5. congruence.
Qed.

Lemma release_path_ok path (a : agents) ps : tree_ok a (path :: ps) → tree_ok (release_reserved_agent_path path a) ps.
Proof using Type.
  intros [H1 H2 H3 H4 H5 H6 [Hnew H7]%NoDup_cons]. destruct (release_reserved_links path a H1) as [Hl _].
  destruct (H5 path) as (m0 & Hm0 & Hid0 & Hr); [by left|].
  assert (release_reserved_agent_path path a = set_tree (delete (path_string path) (agent_tree a)) a) as E
    by (unfold release_reserved_agent_path; by rewrite Hm0, Hid0).
  rewrite E in Hl |- *. split; cbn [agent_tree thread_paths set_tree]; try done.
  - intros k m t [_ Hk]%lookup_delete_Some. by apply H2.
  - intros k m [_ Hk]%lookup_delete_Some. by apply H3.
  - intros m [_ Hk]%lookup_delete_Some. by apply H4.
  - intros p Hin. destruct (H5 p) as (m & Hm & ?); [by right|]. exists m. rewrite lookup_delete_ne; [done|].
    intros ->%path_string_inj. done.
  - intros k m [Hne Hk]%lookup_delete_Some Hid. destruct (H6 k m Hk Hid) as (p & [->|Hin]%elem_of_cons & Hp); [|by exists p].
    specialize (H3 k m Hk). unfold keyed in H3. rewrite Hp in H3. destruct H3 as [? _]. congruence.
Qed.

Lemma register_fresh (m : metadata) t (a : agents) :
  agent_id m = Some t → thread_paths a !! t = None → agent_tree a !! metadata_key t m ≫= agent_id = None →
  agent_tree (register_spawned_thread m a) = <[metadata_key t m := m]> (agent_tree a) ∧
  thread_paths (register_spawned_thread m a) = <[t := RegisteredAgent_new (metadata_key t m)]> (thread_paths a).
Proof using Type. intros Hid Ht Hk. unfold register_spawned_thread. rewrite Hid, Ht. cbv zeta. by rewrite Hk. Qed.

(** The key of a thread that is committed is free, or reserved for it. *)
Lemma commit_key (m : metadata) t (a : agents) ps :
  tree_ok a (option_list (agent_path m) ++ ps) → agent_id m = Some t → thread_paths a !! t = None →
  let key := metadata_key t m in
  agent_tree a !! key ≫= agent_id = None ∧ key ≠ AgentPath_ROOT ∧ has_root_path m = false ∧ keyed key m ∧
  Forall (λ p, path_string p ≠ key) ps.
Proof using id_laws.
  intros [H1 H2 H3 H4 H5 H6 H7] Hid Ht. cbv zeta. unfold metadata_key, has_root_path, keyed.
  destruct (agent_path m) as [p|] eqn:Hp; cbn [option_list app] in *.
  - apply NoDup_cons in H7 as [Hnew H7]. destruct (H5 p) as (m0 & Hm0 & Hid0 & Hr); [by left|]. rewrite Hm0. cbn.
    pose proof (H3 _ _ Hm0) as Hk. unfold keyed in Hk. destruct (agent_path m0) as [p0|]; [|destruct Hk as (? & ? & _); congruence].
    split_and!; [done|by apply not_root_string|done|done|apply Hk|]. apply Forall_forall. by intros q Hq ->%path_string_inj.
  - split_and!; [| done|done|by exists t|].
    + destruct (agent_tree a !! (str "thread:" ++ thread_id_display t)) as [m0|] eqn:Hm0; [|done]. exfalso.
      pose proof (H3 _ _ Hm0) as Hk. unfold keyed in Hk. destruct (agent_path m0) as [p0|]; [by destruct Hk as [_ ?]|].
      destruct Hk as (t0 & Hid0 & Hk%app_inv_head%(inj _)). subst t0. destruct (H2 _ _ _ Hm0 Hid0) as (agent & ? & _). congruence.
    + apply Forall_forall. intros p Hp' E. destruct (H5 p Hp') as (m0 & Hm0 & Hid0 & _). pose proof (H3 _ _ Hm0) as Hk.
      unfold keyed in Hk. destruct (agent_path m0) as [p0|]; [|destruct Hk as (? & ? & _); congruence].
      destruct Hk as [_ Hh]. by rewrite E in Hh.
Qed.

Lemma commit_ok (m : metadata) t (a : agents) ps :
  tree_ok a (option_list (agent_path m) ++ ps) → agent_id m = Some t → thread_paths a !! t = None →
  tree_ok (register_spawned_thread m a) ps ∧
  lives (agent_tree (register_spawned_thread m a)) = S (lives (agent_tree a)).
Proof using id_laws.
  intros Hok Hid Ht. destruct (commit_key m t a ps Hok Hid Ht) as (Hfree & Hroot & Hrp & Hkey & Hps).
  pose proof (register_spawned_links m a (tree_links _ _ Hok)) as Hl.
  destruct (register_fresh m t a Hid Ht Hfree) as [Htree Hpaths]. destruct Hok as [H1 H2 H3 H4 H5 H6 H7].
  set (key := metadata_key t m) in *. rewrite Forall_forall in Hps. split; [split; rewrite ?Htree, ?Hpaths; try done|].
  - intros k m' t'. destruct (decide (k = key)) as [->|Hk].
    + rewrite lookup_insert_eq. intros [= <-]. rewrite Hid. intros [= <-]. eexists. by rewrite lookup_insert_eq.
    + rewrite lookup_insert_ne by done. intros Hm' Hid'. destruct (H2 k m' t' Hm' Hid') as (agent & Ha & ?). exists agent.
      rewrite lookup_insert_ne; [done|]. congruence.
  - intros k m'. destruct (decide (k = key)) as [->|Hk]; [rewrite lookup_insert_eq; by intros [= <-]|].
    rewrite lookup_insert_ne by done. apply H3.
  - intros m'. rewrite lookup_insert_ne by done. apply H4.
  - intros p Hp. destruct (H5 p) as (m' & Hm' & ?); [by apply elem_of_app; right|]. exists m'.
    rewrite lookup_insert_ne; [done|]. intros E. by apply (Hps p Hp).
  - intros k m'. destruct (decide (k = key)) as [->|Hk]; [rewrite lookup_insert_eq; intros [= <-]; congruence|].
    rewrite lookup_insert_ne by done. intros Hm' Hid'. destruct (H6 k m' Hm' Hid') as (p & [Hp|Hp]%elem_of_app & Hpm); [|by exists p].
    pose proof (H3 k m' Hm') as Hkk. unfold keyed in Hkk. rewrite Hpm in Hkk. destruct Hkk as [-> _].
    destruct (agent_path m) as [q|] eqn:Hq; [|by apply not_elem_of_nil in Hp]. apply list_elem_of_singleton in Hp as ->.
    destruct Hk. unfold key, metadata_key. by rewrite Hq.
  - by apply NoDup_app in H7 as (_ & _ & ?).
  - rewrite Htree. pose proof (lives_insert (agent_tree a) key m) as Hlv.
    assert (live_weight (agent_tree a !! key) = 0) as Hz.
    { destruct (agent_tree a !! key) as [m0|]; [|done]. cbn in Hfree. cbn. unfold is_live_agent. by rewrite Hfree. }
    rewrite Hz in Hlv. cbn in Hlv. unfold is_live_agent in Hlv. rewrite Hid, Hrp in Hlv. cbn in Hlv. lia.
Qed.

Lemma release_ok t (a : agents) ps : tree_ok a ps → tree_ok (release_spawned_thread t a).2 ps.
Proof using Type.
  intros Hok. pose proof (release_spawned_links t a (tree_links _ _ Hok)) as Hl. destruct Hok as [H1 H2 H3 H4 H5 H6 H7].
  unfold release_spawned_thread in *. destruct (thread_paths a !! t) as [agent|] eqn:Ht; [|done].
  destruct (H1 t agent Ht) as (m0 & Hm0 & Hid0). split; cbn [snd agent_tree thread_paths set_tree set_paths]; try done.
  - intros k m u [Hne Hk]%lookup_delete_Some Hid. destruct (H2 k m u Hk Hid) as (agent' & Ha & Hr). exists agent'.
    rewrite lookup_delete_ne; [done|]. intros <-. congruence.
  - intros k m [_ Hk]%lookup_delete_Some. by apply H3.
  - intros m [_ Hk]%lookup_delete_Some. by apply H4.
  - intros p Hin. destruct (H5 p Hin) as (m & Hm & Hid & ?). exists m. rewrite lookup_delete_ne; [done|]. intros E. rewrite E in Hm0. congruence.
  - intros k m [_ Hk]%lookup_delete_Some. by apply (H6 k m).
Qed.

(** Registering a thread again is releasing it and registering it. *)
Lemma register_again (m : metadata) t (a : agents) ps :
  tree_ok a (option_list (agent_path m) ++ ps) → agent_id m = Some t →
  let a' := (release_spawned_thread t a).2 in
  agent_tree (register_spawned_thread m a) = agent_tree (register_spawned_thread m a') ∧
  thread_paths (register_spawned_thread m a) = thread_paths (register_spawned_thread m a').
Proof using id_laws.
  intros Hok Hid. cbv zeta. pose proof (release_ok t a _ Hok) as Hok'. pose proof (tree_links _ _ Hok) as Hl.
  unfold release_spawned_thread in *. destruct (thread_paths a !! t) as [agent|] eqn:Ht; [|done]. cbn [snd] in *.
  set (a' := set_tree _ _) in *. assert (thread_paths a' !! t = None) as Ht' by apply lookup_delete_eq.
  destruct (commit_key m t a' ps Hok' Hid Ht') as (Hfree & _).
  destruct (register_fresh m t a' Hid Ht' Hfree) as [-> ->].
  destruct (Hl t agent Ht) as (m0 & Hm0 & Hid0). unfold register_spawned_thread. rewrite Hid, Ht. cbv zeta. unfold str_eqb.
  destruct (bool_decide_reflect (registered_path agent = metadata_key t m)) as [E|E]; cbn [agent_tree thread_paths].
  - rewrite <- E, Hm0. cbn. rewrite Hid0, bool_decide_eq_true_2 by done. unfold a'. cbn. by rewrite !insert_delete_eq.
  - change (delete (registered_path agent) (agent_tree a)) with (agent_tree a'). rewrite Hfree.
    split; [done|]. unfold a'. cbn. by rewrite insert_delete_eq.
Qed.

Lemma release_weight t (a : agents) :
  links a → live_weight (agent_metadata_for_thread t a) = if (release_spawned_thread t a).1 then 1 else 0.
Proof using Type.
  intros Hl. unfold agent_metadata_for_thread, release_spawned_thread. destruct (thread_paths a !! t) as [agent|] eqn:Ht; [|done].
  destruct (Hl t agent Ht) as (m & Hm & Hid). cbn. rewrite Hm. unfold live_weight, is_live_agent. by rewrite Hid.
Qed.

Lemma recommit_ok (m : metadata) t (a : agents) ps :
  tree_ok a (option_list (agent_path m) ++ ps) → agent_id m = Some t →
  tree_ok (register_spawned_thread m a) ps ∧
  lives (agent_tree (register_spawned_thread m a)) + live_weight (agent_metadata_for_thread t a) = S (lives (agent_tree a)).
Proof using id_laws.
  intros Hok Hid. pose proof (tree_links _ _ Hok) as Hl. destruct (register_again m t a ps Hok Hid) as [Htree Hpaths].
  pose proof (release_ok t a _ Hok) as Hok'. pose proof (release_spawned_lives t a Hl) as Hlv.
  assert (thread_paths (release_spawned_thread t a).2 !! t = None) as Ht.
  { unfold release_spawned_thread. destruct (thread_paths a !! t) eqn:E; [apply lookup_delete_eq|done]. }
  destruct (commit_ok m t _ ps Hok' Hid Ht) as [Hc Hs].
  split; [by eapply tree_ok_ext|]. rewrite Htree, Hs, (release_weight t a Hl). lia.
Qed.

Lemma root_ok t (a : agents) ps :
  tree_ok a ps → (∀ agent, thread_paths a !! t = Some agent → registered_path agent = AgentPath_ROOT) →
  tree_ok (register_root_thread t a) ps.
Proof using Type.
  intros Hok Ht. pose proof (register_root_links t a (tree_links _ _ Hok)) as Hl. destruct Hok as [H1 H2 H3 H4 H5 H6 H7].
  unfold register_root_thread in *. destruct (agent_tree a !! AgentPath_ROOT) as [m|] eqn:Hr.
  - destruct (H4 m eq_refl) as [t0 Hid]. rewrite Hid in Hl |- *. split; cbn [agent_tree thread_paths set_tree set_paths]; try done.
    + intros k m' u Hm' Hid'. destruct (H2 k m' u Hm' Hid') as (agent & Ha & Hk).
      destruct (decide (u = t0)) as [->|Hu]; [|exists agent; by rewrite lookup_insert_ne].
      destruct (H2 _ _ _ Hr Hid) as (agent' & Ha' & Hk'). eexists. rewrite lookup_insert_eq. split; [done|]. cbn. congruence.
    + by rewrite Hr.
  - cbn [agent_id] in Hl |- *.
    assert (thread_paths a !! t = None) as Hnone.
    { destruct (thread_paths a !! t) as [agent|] eqn:E; [|done]. destruct (H1 t agent E) as (m & Hm & _).
      rewrite (Ht agent eq_refl) in Hm. congruence. }
    split; cbn [agent_tree thread_paths set_tree set_paths]; try done.
    + intros k m u. destruct (decide (k = AgentPath_ROOT)) as [->|Hk].
      * rewrite lookup_insert_eq. intros [= <-] [= <-]. eexists. by rewrite lookup_insert_eq.
      * rewrite lookup_insert_ne by done. intros Hm Hid. destruct (H2 k m u Hm Hid) as (agent & Ha & ?). exists agent.
        rewrite lookup_insert_ne; [done|]. congruence.
    + intros k m. destruct (decide (k = AgentPath_ROOT)) as [->|Hk]; [rewrite lookup_insert_eq; by intros [= <-]|].
      rewrite lookup_insert_ne by done. apply H3.
    + intros m. rewrite lookup_insert_eq. intros [= <-]. by eexists.
    + intros p Hin. destruct (H5 p Hin) as (m & Hm & ?). exists m. rewrite lookup_insert_ne; [done|]. congruence.
    + intros k m. destruct (decide (k = AgentPath_ROOT)) as [->|Hk]; [rewrite lookup_insert_eq; by intros [= <-]|].
      rewrite lookup_insert_ne by done. apply H6.
Qed.

Lemma environments_ok envs t (a : agents) ps : tree_ok a ps → tree_ok (set_environments envs t a) ps.
Proof using Type.
  intros Hok. destruct (set_environments_links envs t a (tree_links _ _ Hok)) as [Hl Htr]. destruct Hok as [H1 H2 H3 H4 H5 H6 H7].
  split; rewrite ?Htr; try done. intros k m u Hm Hid. destruct (H2 k m u Hm Hid) as (agent & Ha & Hk).
  unfold set_environments. destruct (thread_paths a !! t) as [agent'|] eqn:Ht; [|by exists agent]. cbn.
  destruct (decide (u = t)) as [->|Hu]; [|exists agent; by rewrite lookup_insert_ne].
  eexists. rewrite lookup_insert_eq. split; [done|]. cbn. congruence.
Qed.

(** ** The invariant of the world *)
Record balanced (n : nat) (w : world) : Prop := {
  balanced_tree : tree_ok (world_agents w) (reserved_paths (world_tasks w));
  balanced_tasks : Forall (task_limited USIZE_MAX) (world_tasks w);
  balanced_count : total_count (world_registry w) = N.of_nat (held (world_tasks w) + lives (agent_tree (world_agents w)) + n);
  balanced_usize : (total_count (world_registry w) ≤ USIZE_MAX)%N;
}.

Lemma reserved_paths_app l l' : reserved_paths (l ++ l') = reserved_paths l ++ reserved_paths l'.
Proof using Type. apply omap_app. Qed.

Lemma reserved_paths_singleton t : reserved_paths [t] = option_list (task_path t).
Proof using Type. unfold reserved_paths. cbn. by destruct (task_path t). Qed.

Lemma reserved_paths_replace i t new tasks :
  tasks !! i = Some t →
  ∃ rest, reserved_paths tasks ≡ₚ option_list (task_path t) ++ rest ∧
          reserved_paths (replace_task i new tasks) ≡ₚ reserved_paths new ++ rest.
Proof using Type.
  intros Hi. exists (reserved_paths (take i tasks) ++ reserved_paths (drop (S i) tasks)). split.
  - rewrite <- (take_drop_middle tasks i t Hi) at 1. rewrite reserved_paths_app. cbn. destruct (task_path t) as [p|]; cbn; [|done].
    by rewrite Permutation_middle.
  - unfold replace_task. rewrite !reserved_paths_app. rewrite !app_assoc. apply Permutation_app_tail, Permutation_app_comm.
Qed.

#[local] Ltac world_cbn := cbn [world_agents world_registry world_tasks active_agents total_count] in *.

Lemma balanced_replace n n' i t new tasks (a a' : agents) count count' :
  balanced n (mkWorld (mkAgentRegistry a count) tasks) → tasks !! i = Some t →
  (∀ ps, tree_ok a (option_list (task_path t) ++ ps) → tree_ok a' (reserved_paths new ++ ps)) →
  Forall (task_limited USIZE_MAX) new → (count' ≤ USIZE_MAX)%N →
  (N.of_nat (held new + lives (agent_tree a') + n') + count = count' + N.of_nat (task_weight t + lives (agent_tree a) + n))%N →
  balanced n' (mkWorld (mkAgentRegistry a' count') (replace_task i new tasks)).
Proof using Type.
  intros [Htree Ht Hc Hu] Hi Hok Hnew Hc' Hle. world_cbn. pose proof (held_replace i t new tasks Hi) as Hh.
  destruct (reserved_paths_replace i t new tasks Hi) as (rest & Hr & Hr').
  split; world_cbn; [| |lia|done].
  - eapply tree_ok_perm; [symmetry; exact Hr'|]. apply Hok. by eapply tree_ok_perm.
  - rewrite Forall_forall in *. intros x [?|?]%(elem_replace i t); auto.
Qed.

Lemma balanced_active n (w : world) i r :
  balanced n w → world_tasks w !! i = Some (Reserved r) → reservation_active r = true.
Proof using Type. intros [_ Ht _ _] Hi. rewrite Forall_lookup in Ht. exact (Ht i _ Hi). Qed.

#[local] Ltac slots := cbn [held sum_list_with task_weight reservation_active new_reservation] in *.
#[local] Ltac replaced Hbal Hi := eapply (balanced_replace _ _ _ _ _ _ _ _ _ _ Hbal Hi).

(** Tasks and agents change together, in a world without other changes. *)
Lemma step_task_balanced n (action : action) (w w' : world) i :
  match action with
  | TryIncrement j _ | ReserveNickname j _ _ _ | ReservePath j _ | Commit j _ | DropReservation j | Decrement j => j = i
  | _ => False
  end → proper action w = true → balanced n w → step action w = Some w' → balanced (n + replaced_agents action w) w'.
Proof using id_laws.
  intros Hj Hproper Hbal. pose proof Hbal as [Htree Ht Hc Hu]. destruct w as [[a count] tasks]. world_cbn.
  unfold proper, step, world_agents, update in *. cbn [world_registry active_agents total_count world_tasks replaced_agents] in *.
  destruct action as [|j spurious|j names preferred drawn|j path|j m|j|j| | | |]; try done; subst j; cbn [replaced_agents];
    destruct (tasks !! i) as [[max current|r|]|] eqn:Hi; try done.
  - unfold try_increment_spawned.
    assert (max ≤ USIZE_MAX)%N as Hmax by (rewrite Forall_lookup in Ht; exact (Ht i _ Hi)).
    destruct (N.leb_spec max current) as [|Hlt]; [|destruct (_ && _) eqn:Hcas]; intros [= <-].
    + replaced Hbal Hi; [done|by constructor|done|slots; lia].
    + apply andb_true_iff in Hcas as [->%N.eqb_eq _]. replaced Hbal Hi; [done|by repeat constructor|lia|slots; lia].
    + replaced Hbal Hi; [done|by repeat constructor|done|slots; lia].
  - pose proof (balanced_active _ _ i r Hbal Hi) as Hr. unfold reserve_agent_nickname_with_preference.
    pose proof (reserve_nickname_tree names preferred drawn a) as [Htr Hpa].
    destruct (reserve_agent_nickname names preferred drawn a) as [o a']. cbn in Htr, Hpa.
    destruct o as [nick|]; intros [= <-]; (replaced Hbal Hi;
      [intros ps Hok; rewrite reserved_paths_singleton; by apply (tree_ok_ext a)|by repeat constructor|done|slots; rewrite Htr, ?Hr; lia]).
  - pose proof (balanced_active _ _ i r Hbal Hi) as Hr. unfold SpawnReservation_reserve_agent_path.
    rewrite !andb_true_iff, bool_decide_eq_true, negb_true_iff in Hproper. destruct Hproper as [[Hp1 Hp2] Hp3].
    destruct (reserve_agent_path path a) as [a'|e] eqn:Hp; cbn; intros [= <-]; [|by rewrite Nat.add_0_r].
    destruct (reserve_path_links path a a' Hp (tree_links _ _ Htree)) as [_ Hlv].
    replaced Hbal Hi; [|by repeat constructor|done|slots; rewrite Hlv, Hr; lia].
    intros ps. cbn. rewrite Hp3. cbn. intros Hok. by eapply reserve_path_ok.
  - pose proof (balanced_active _ _ i r Hbal Hi) as Hr.
    destruct (agent_id m) as [t|] eqn:Hid; [|done].
    apply bool_decide_eq_true in Hproper. cbn. intros [= <-].
    assert (lives (agent_tree (register_spawned_thread m a)) + live_weight (agent_metadata_for_thread t a) =
      S (lives (agent_tree a))) as Hlv.
    { destruct (reserved_paths_replace i _ [] tasks Hi) as (rest & Hperm & _).
      apply (recommit_ok m t a rest); [|done]. rewrite Hproper. by eapply tree_ok_perm. }
    replaced Hbal Hi; [|by constructor|done|slots; rewrite Hr; lia].
    intros ps Hok. cbn in Hok. rewrite <- Hproper in Hok. by apply (recommit_ok m t).
  - pose proof (balanced_active _ _ i r Hbal Hi) as Hr.
    destruct (drop_reservation_links r a (tree_links _ _ Htree)) as (_ & Hlv & Hh). unfold drop_reservation in *. rewrite Hr in *.
    cbn [fst snd] in *. intros [= <-]. replaced Hbal Hi; [|by repeat constructor|done|rewrite Hh, Hlv; lia].
    intros ps. cbn. destruct (reserved_agent_path r) as [path|]; [|done]. cbn. apply release_path_ok.
  - intros [= <-]. pose proof (held_replace i _ [] tasks Hi) as Hh. slots.
    rewrite fetch_sub_one_pos by lia. replaced Hbal Hi; [done|by constructor|lia|slots; lia].
Qed.

Lemma fetch_add_one_small count : (count < USIZE_MAX)%N → fetch_add_one count = (count + 1)%N.
Proof using Type. intros H. unfold fetch_add_one. apply N.mod_small. lia. Qed.

Lemma step_balanced n (action : action) (w w' : world) :
  proper action w = true → balanced n w → step action w = Some w' → balanced (n + replaced_agents action w) w'.
Proof using id_laws.
  intros Hproper Hbal Hstep.
  destruct action as [max|j spurious|j names preferred drawn|j path|j m|j|j|t|t|t envs|t];
    [|refine (step_task_balanced n _ w w' j _ Hproper Hbal Hstep); reflexivity..| | | |];
    cbn [replaced_agents]; rewrite Nat.add_0_r; destruct Hbal as [Htree Ht Hc Hu]; destruct w as [[a count] tasks];
    unfold proper, step, world_agents, update in *; cbn [world_registry active_agents total_count world_tasks] in *.
  - destruct max as [max|]; injection Hstep as <-; (split; world_cbn; rewrite ?reserved_paths_app, ?held_app, ?app_nil_r).
    + done.
    + apply Forall_app. split; [done|]. repeat constructor. by apply N.leb_le.
    + slots. lia.
    + done.
    + done.
    + apply Forall_app. split; [done|]. by repeat constructor.
    + apply N.ltb_lt in Hproper. rewrite fetch_add_one_small by done. slots. lia.
    + apply N.ltb_lt in Hproper. rewrite fetch_add_one_small by done. lia.
  - pose proof (release_ok t a _ Htree) as Hok. pose proof (release_spawned_lives t a (tree_links _ _ Htree)) as Hlv.
    destruct (release_spawned_thread t a) as [counted a']. cbn [fst snd] in *. injection Hstep as <-.
    destruct counted; (split; world_cbn; rewrite ?reserved_paths_app, ?held_app, ?app_nil_r); try done; [|slots; lia|lia].
    apply Forall_app. split; [done|]. by repeat constructor.
  - injection Hstep as <-. split; world_cbn; [|done|by rewrite register_root_lives|done].
    apply root_ok; [done|]. intros agent Ha. rewrite Ha in Hproper. by apply bool_decide_eq_true in Hproper.
  - injection Hstep as <-. destruct (set_environments_links (Some envs) t a (tree_links _ _ Htree)) as [_ Htr].
    split; world_cbn; unfold save_evicted_environments; [by apply environments_ok|done|by rewrite Htr|done].
  - injection Hstep as <-. destruct (set_environments_links None t a (tree_links _ _ Htree)) as [_ Htr].
    split; world_cbn; unfold clear_evicted_environments; [by apply environments_ok|done|by rewrite Htr|done].
Qed.

Lemma initial_balanced : balanced 0 initial_world.
Proof using Type.
  split; [|by constructor|by vm_compute|apply N.le_0_l].
  split; cbn [world_agents world_registry initial_world default_registry active_agents default_agents agent_tree thread_paths].
  - apply links_default.
  - intros k m t Hk. by rewrite lookup_empty in Hk.
  - intros k m Hk. by rewrite lookup_empty in Hk.
  - intros m Hk. by rewrite lookup_empty in Hk.
  - intros p Hp. by apply not_elem_of_nil in Hp.
  - intros k m Hk. by rewrite lookup_empty in Hk.
  - constructor.
Qed.

Lemma reachable_balanced n (w : world) : reachable n w → balanced n w.
Proof using id_laws. induction 1; [apply initial_balanced|by eapply step_balanced]. Qed.

(** C12: In every interleaving of the registry's operations, used as the control of agents
    uses them, the count is exactly the number of live agents, reservations that are held
    and decrements that are still to come, and of agents that were replaced because their
    thread was committed again, which keep their slots for good; the paths without an agent
    are those that some reservation holds; and a thread has the metadata of the one agent
    with its id.  So no path is lost, and no slot but by committing a live agent again. *)
Theorem spawn_slots_balanced n (w : world) :
  reachable n w →
  total_count (world_registry w) = N.of_nat (held (world_tasks w) + length (live_agents (world_agents w)) + n) ∧
  (∀ k m, agent_tree (world_agents w) !! k = Some m → agent_id m = None →
    ∃ r p, Reserved r ∈ world_tasks w ∧ reserved_agent_path r = Some p ∧ k = path_string p) ∧
  (∀ t m, agent_metadata_for_thread t (world_agents w) = Some m ↔
    ∃ k, agent_tree (world_agents w) !! k = Some m ∧ agent_id m = Some t).
Proof using id_laws.
  intros [[H1 H2 H3 _ _ H6 _] _ Hc _]%reachable_balanced. rewrite live_agents_lives. split_and!; [done| |].
  - intros k m Hk Hid. destruct (H6 k m Hk Hid) as (p & Hp & Hpm). apply list_elem_of_omap in Hp as (t & Ht & Htp).
    destruct t as [|r|]; try done. exists r, p. split_and!; [done|done|].
    specialize (H3 k m Hk). unfold keyed in H3. rewrite Hpm in H3. by destruct H3 as [? _].
  - intros t m. unfold agent_metadata_for_thread. split.
    + intros (agent & Ha & Hm)%bind_Some. destruct (H1 t agent Ha) as (m' & Hm' & Hid). exists (registered_path agent).
      rewrite Hm in Hm'. injection Hm' as <-. done.
    + intros (k & Hk & Hid). destruct (H2 k m t Hk Hid) as (agent & Ha & <-). rewrite Ha. done.
Qed.
End Balance.

(** ** Nicknames *)
Section Nicknames.
Context {ThreadId TurnEnvironmentSelection : Type} {id_eq : EqDecision ThreadId} {id_countable : Countable ThreadId}
  {id_display : ThreadIdDisplay ThreadId}.
#[local] Abbreviation agents := (ActiveAgents ThreadId TurnEnvironmentSelection).
#[local] Abbreviation world := (World ThreadId TurnEnvironmentSelection).
#[local] Abbreviation action := (Action ThreadId TurnEnvironmentSelection).

(** The nickname that a step gives out. *)
Definition nickname_of (a : action) (w : world) : list rstring :=
  match a with
  | ReserveNickname i names preferred drawn =>
      match world_tasks w !! i with
      | Some (Reserved r) =>
          match (reserve_agent_nickname_with_preference names preferred drawn r (world_agents w)).1.1 with
          | Ok nickname => [nickname]
          | Err _ => []
          end
      | _ => []
      end
  | _ => []
  end.
Fixpoint nicknames (actions : list action) (w : world) : list rstring :=
  match actions with
  | [] => []
  | a :: actions => nickname_of a w ++ match step a w with Some w => nicknames actions w | None => [] end
  end.

(** Nicknames are drawn from the pool. *)
Definition draws_from (pool : list rstring) (a : action) : bool :=
  match a with
  | ReserveNickname _ names preferred _ => bool_decide (names = pool) && bool_decide (preferred = None)
  | _ => true
  end.

Context (pool : list rstring) (Hpool : Forall (λ name, 32%N ∉ name) pool).

(** What was given out: of an earlier round of the pool, or used in this one. *)
Definition given_out (given : list rstring) (a : agents) : Prop :=
  Forall (λ n, ∃ name k, name ∈ pool ∧ n = format_agent_nickname name k ∧ (k ≤ nickname_reset_count a)%N ∧
    (k = nickname_reset_count a → n ∈ used_agent_nicknames a)) given.

Lemma given_out_mono given (a a' : agents) :
  nickname_reset_count a' = nickname_reset_count a → used_agent_nicknames a ⊆ used_agent_nicknames a' →
  given_out given a → given_out given a'.
Proof using Type.
  intros Hr Hu Hg. eapply Forall_impl; [exact Hg|]. intros n (name & k & ? & ? & ? & Hk). exists name, k. rewrite Hr. naive_solver.
Qed.

Lemma choose_elem {A} drawn (l : list A) x : choose drawn l = Some x → x ∈ l.
Proof using Type. intros H. by eapply list_elem_of_lookup_2. Qed.

Lemma draw_fresh given drawn (a : agents) :
  given_out given a → NoDup given →
  let '(o, a') := reserve_agent_nickname pool None drawn a in
  given_out (given ++ option_list o) a' ∧ NoDup (given ++ option_list o).
Proof using Hpool.
  intros Hg Hnd. unfold reserve_agent_nickname. destruct (is_empty pool); [cbn; by rewrite app_nil_r|].
  assert (∀ name name' k k', name ∈ pool → name' ∈ pool → format_agent_nickname name k = format_agent_nickname name' k' → k = k') as Hinj.
  { rewrite Forall_forall in Hpool. intros name name' k k' Hn Hn' E. apply format_agent_nickname_inj in E; [tauto|by apply Hpool..]. }
  unfold given_out in Hg. rewrite Forall_forall in Hg. destruct (choose drawn _) as [n|] eqn:Hch.
  - apply choose_elem, list_elem_of_In, List.filter_In in Hch as [(name & <- & Hin%list_elem_of_In)%in_map_iff Hfree].
    apply negb_true_iff, bool_decide_eq_false in Hfree. cbn [option_list]. split.
    + apply Forall_app. split.
      * eapply given_out_mono; [..|by apply Forall_forall]; [done|]. cbn. set_solver.
      * repeat constructor. exists name, (nickname_reset_count a). cbn. split_and!; [done|done|lia|set_solver].
    + apply NoDup_app. split_and!; [done| |apply NoDup_singleton]. intros n Hn ->%list_elem_of_singleton.
      destruct (Hg _ Hn) as (name' & k & Hin' & E & _ & Hused). apply Hfree, Hused. symmetry. exact (Hinj _ _ _ _ Hin Hin' E).
  - destruct (choose drawn pool) as [name|] eqn:Hc2; cbn [option_list].
    + apply choose_elem in Hc2. split.
      * apply Forall_app. split.
        -- apply Forall_forall. intros n Hn. destruct (Hg n Hn) as (name' & k & ? & ? & ? & _). exists name', k. cbn. split_and!; [done|done|lia|lia].
        -- repeat constructor. exists name, (nickname_reset_count a + 1)%N. cbn. split_and!; [done|done|lia|set_solver].
      * apply NoDup_app. split_and!; [done| |apply NoDup_singleton]. intros n Hn ->%list_elem_of_singleton.
        destruct (Hg _ Hn) as (name' & k & Hin' & E & Hle & _). apply Hinj in E; [lia|done|done].
    + rewrite app_nil_r. split; [|done]. apply Forall_forall. intros n Hn. destruct (Hg n Hn) as (name' & k & ? & ? & ? & _).
      exists name', k. cbn. split_and!; [done|done|lia|lia].
Qed.

(** No other section under the lock touches the round, or forgets a nickname. *)
Definition nicknames_kept (a a' : agents) : Prop :=
  nickname_reset_count a' = nickname_reset_count a ∧ used_agent_nicknames a ⊆ used_agent_nicknames a'.

Lemma register_spawned_nicknames m (a : agents) : nicknames_kept a (register_spawned_thread m a).
Proof using Type.
  unfold register_spawned_thread. destruct (agent_id m); [|done]. split; cbn; [done|].
  destruct (agent_nickname m); [apply union_subseteq_r|done].
Qed.

Lemma release_path_nicknames path (a : agents) : nicknames_kept a (release_reserved_agent_path path a).
Proof using Type.
  unfold release_reserved_agent_path. destruct (agent_tree a !! path_string path) as [m|]; [|done]. by destruct (agent_id m).
Qed.

Lemma drop_nicknames r (a : agents) : nicknames_kept a (drop_reservation r a).1.
Proof using Type.
  unfold drop_reservation. destruct (reservation_active r); [|done]. cbn. destruct (reserved_agent_path r); [|done].
  apply release_path_nicknames.
Qed.

Lemma step_nicknames_kept (a : action) (w w' : world) :
  match a with ReserveNickname _ _ _ _ => False | _ => True end → step a w = Some w' →
  nicknames_kept (world_agents w) (world_agents w').
Proof using Type.
  destruct w as [[ag count] tasks]. unfold step, world_agents, update. cbn [world_registry active_agents total_count world_tasks].
  destruct a as [[max|]|i spurious|i names preferred drawn|i path|i m|i|i|t|t|t envs|t]; intros Ha Hs; try done;
    try (destruct (tasks !! i) as [[max current|r|]|]; try done; []).
  1,2: by injection Hs as <-.
  - by destruct (try_increment_spawned max current count spurious); injection Hs as <-.
  - unfold SpawnReservation_reserve_agent_path, reserve_agent_path in Hs.
    destruct (agent_tree ag !! path_string path); cbn in Hs; by injection Hs as <-.
  - cbn in Hs. injection Hs as <-. apply register_spawned_nicknames.
  - pose proof (drop_nicknames r ag) as Hd. destruct (drop_reservation r ag) as [ag' rest]. by injection Hs as <-.
  - by injection Hs as <-.
  - unfold release_spawned_thread in Hs. destruct (thread_paths ag !! t); by injection Hs as <-.
  - injection Hs as <-. cbn. unfold register_root_thread. destruct (agent_tree ag !! AgentPath_ROOT) as [m|]; [by destruct (agent_id m)|done].
  - injection Hs as <-. cbn. unfold save_evicted_environments, set_environments. by destruct (thread_paths ag !! t).
  - injection Hs as <-. cbn. unfold clear_evicted_environments, set_environments. by destruct (thread_paths ag !! t).
Qed.

Lemma step_given_out given (a : action) (w w' : world) :
  draws_from pool a = true → step a w = Some w' → given_out given (world_agents w) → NoDup given →
  given_out (given ++ nickname_of a w) (world_agents w') ∧ NoDup (given ++ nickname_of a w).
Proof using Hpool.
  intros Hd Hs Hg Hnd. destruct a as [|?|i names preferred drawn| | | | | | | |];
    try (destruct ((λ H, step_nicknames_kept _ _ _ H Hs) I) as [? ?]; cbn [nickname_of]; rewrite app_nil_r; split; [by eapply given_out_mono|done]).
  apply andb_true_iff in Hd as [->%bool_decide_eq_true ->%bool_decide_eq_true].
  unfold step in Hs. cbn [nickname_of]. destruct (world_tasks w !! i) as [[|r|]|]; try done.
  pose proof (draw_fresh given drawn (world_agents w) Hg Hnd) as Hdraw.
  unfold reserve_agent_nickname_with_preference in *. destruct (reserve_agent_nickname pool None drawn (world_agents w)) as [o a'].
  destruct o as [n|]; cbn in *; by injection Hs as <-.
Qed.

(** However the steps of spawning are interleaved, and whatever is drawn, the nicknames
    that are drawn from a pool of names without spaces are distinct, also after the pool
    was used up and reset. *)
Theorem pool_nicknames_distinct (actions : list action) :
  forallb (draws_from pool) actions = true → NoDup (nicknames actions initial_world).
Proof using Hpool.
  enough (∀ given w, given_out given (world_agents w) → NoDup given → forallb (draws_from pool) actions = true →
    NoDup (given ++ nicknames actions w)) as H by (apply (H [] initial_world); constructor).
  induction actions as [|a actions IH]; intros given w Hg Hnd; cbn [nicknames forallb]; [by rewrite app_nil_r|].
  intros [Ha Hall]%andb_true_iff. destruct (step a w) as [w'|] eqn:Hs.
  - destruct (step_given_out given a w w' Ha Hs Hg Hnd) as [Hg' Hnd']. rewrite app_assoc. by apply (IH _ w').
  - rewrite app_nil_r. assert (nickname_of a w = []) as ->; [|by rewrite app_nil_r].
    destruct a as [|?|i names preferred drawn| | | | | | | |]; try done. unfold step in Hs. cbn.
    destruct (world_tasks w !! i) as [[|r|]|]; try done. by destruct (reserve_agent_nickname_with_preference names preferred drawn r (world_agents w)) as [[? ?] ?].
Qed.
End Nicknames.

(** ** Examples *)
#[local] Instance number_display : ThreadIdDisplay N := dec.
#[local] Instance number_laws : ThreadIdLaws N.
Proof. intros n n'. apply dec_inj. Qed.
#[local] Abbreviation step_of := (Action N unit).
#[local] Abbreviation metadata t p := (mkAgentMetadata (Some t) p None None).

Definition worker : AgentPath := mkAgentPath (str "/root/worker").

(** Two attempts race for the last slot; the winner commits, a failed spawn gives its slot
    back. *)
Definition racing_actions : list step_of :=
  [RegisterRoot 1%N; ReserveSlot (Some 1%N); ReserveSlot (Some 1%N); TryIncrement 1 true; TryIncrement 1 false; TryIncrement 0 false;
   ReservePath 1 worker; TryIncrement 0 false; Commit 0 (metadata 2%N (Some worker)); ReleaseThread 2%N].

Lemma agent_limit_respected_witness :
  ∃ w, run racing_actions initial_world = Some w ∧
  (N.of_nat (held (world_tasks w) + length (live_agents (world_agents w))) ≤ total_count (world_registry w) ≤ 1)%N.
Proof.
  destruct (run racing_actions initial_world) as [w|] eqn:E; [|vm_compute in E; discriminate]. exists w. split; [done|].
  apply (agent_limit_respected 1 racing_actions w); [by vm_compute|by vm_compute|exact E].
Defined.

(** A run all of whose steps are proper, with the agents that are replaced. *)
Fixpoint run_proper (actions : list step_of) (n : nat) (w : World N unit) : option (nat * World N unit) :=
  match actions with
  | [] => Some (n, w)
  | a :: actions => if proper a w then w' ← step a w; run_proper actions (n + replaced_agents a w) w' else None
  end.
Lemma run_proper_reachable actions n w n' w' : reachable n w → run_proper actions n w = Some (n', w') → reachable n' w'.
Proof.
  revert n w. induction actions as [|a actions IH]; intros n w Hw; cbn; [by intros [= <- <-]|].
  destruct (proper a w) eqn:Hp; [|done]. destruct (step a w) as [w1|] eqn:Hs; [|done]. cbn. apply IH. by econstructor.
Qed.

(** The same, and then a live agent is committed again. *)
Definition replacing_actions : list step_of :=
  racing_actions ++ [Decrement 0; ReserveSlot None; Commit 0 (metadata 3%N None); ReserveSlot None; Commit 0 (metadata 3%N None)].

Lemma spawn_slots_balanced_witness :
  ∃ n w, run_proper replacing_actions 0 initial_world = Some (n, w) ∧ n = 1 ∧ total_count (world_registry w) = 2%N ∧
    total_count (world_registry w) = N.of_nat (held (world_tasks w) + length (live_agents (world_agents w)) + n).
Proof.
  destruct (run_proper replacing_actions 0 initial_world) as [[n w]|] eqn:E; [|vm_compute in E; discriminate]. exists n, w.
  split; [done|]. split; [vm_compute in E; congruence|]. split; [vm_compute in E; injection E as <- <-; reflexivity|].
  apply (spawn_slots_balanced n w). exact (run_proper_reachable _ _ _ _ _ reachable_initial E).
Defined.

(** The pool of two names is used up by the third draw. *)
Definition name_pool : list rstring := [str "Ada"; str "Bo"].
Definition drawing_actions : list step_of :=
  ReserveSlot None :: map (ReserveNickname 0 name_pool None) [0; 7; 1; 0].
Lemma pool_nicknames_distinct_witness :
  nicknames drawing_actions initial_world = [str "Ada"; str "Bo"; str "Bo the 2nd"; str "Ada the 2nd"] ∧
  NoDup (nicknames drawing_actions initial_world).
Proof.
  split; [by vm_compute|]. apply (pool_nicknames_distinct name_pool); [|by vm_compute].
  repeat constructor; by apply (bool_decide_unpack _).
Defined.

Lemma agent_paths_resolve_witness :
  AgentPath_resolve worker (str "a/b") = join_all worker [str "a"; str "b"].
Proof.
  destruct (agent_paths_resolve worker [str "a"] (str "b")) as [[E _]|(base & _ & _ & E & _)].
  - by vm_compute.
  - repeat constructor; by vm_compute.
  - by vm_compute in E.
  - exact E.
Defined.

(** A thread that is committed a second time keeps the slot of both commits, and releasing
    it gives one back. *)
Definition recommit_actions : list step_of :=
  [ReserveSlot None; Commit 0 (metadata 2%N None); ReserveSlot None; Commit 0 (metadata 2%N None); ReleaseThread 2%N; Decrement 0].
Example recommitted_slot_lost :
  match run recommit_actions initial_world with
  | Some w => total_count (world_registry w) = 1%N ∧ live_agents (world_agents w) = [] ∧ world_tasks w = []
  | None => False
  end.
Proof. by vm_compute. Qed.
