(* ===== verification/AgentResidency.v ===== *)
(** * Resident agents

    [sofia-rs/core/src/agent/control/residency.rs], the agents that are kept loaded, the
    least recently used first, of which idle ones are unloaded to make room; and
    [sofia-rs/core/src/agent/control/execution.rs], the limit on turns that run.  The
    thread manager is an interface with the few laws the theorems use.  The theorems say
    which agent is unloaded and when a reservation is refused, and that in every
    interleaving the slots are accounted for. *)

From stdpp Require Import base list gmap numbers strings.
From S2P Require Import Prelude Machine AgentRegistry.

#[local] Set Default Proof Using "Type*".
#[local] Arguments str : simpl never.
#[local] Arguments USIZE_MAX : simpl never.

Inductive MultiAgentVersion := MultiAgentDisabled | MultiAgentV1 | MultiAgentV2.
#[global] Instance MultiAgentVersion_eq_dec : EqDecision MultiAgentVersion.
Proof. solve_decision. Defined.

Inductive AgentStatus :=
| PendingInit | Running | Interrupted
| Completed (last_message : option rstring)
| Errored (message : rstring)
| Shutdown | NotFound.

Definition is_v2_resident_session_source {T} (s : SessionSource T) : bool :=
  match s with SourceSubAgent _ => true | _ => false end.

(** ** The limit on running turns *)
Record AgentExecutionLimiter := mkLimiter { limiter_active : N; limiter_max_threads : option N }.
Definition limiter_initialize (max_threads : N) (l : AgentExecutionLimiter) : AgentExecutionLimiter :=
  match limiter_max_threads l with Some _ => l | None => mkLimiter (limiter_active l) (Some max_threads) end.
Definition max_threads (l : AgentExecutionLimiter) : N := default USIZE_MAX (limiter_max_threads l).
Definition has_capacity (l : AgentExecutionLimiter) : bool := (limiter_active l <? max_threads l)%N.
Definition is_execution_limited {T} (v : MultiAgentVersion) (s : SessionSource T) : bool :=
  bool_decide (v = MultiAgentV2) && is_v2_resident_session_source s.

Definition ensure_execution_capacity {T} (v : MultiAgentVersion) (s : SessionSource T) (l : AgentExecutionLimiter)
    : result CodexErr unit :=
  if negb (is_execution_limited v s) then Ok ()
  else if has_capacity l then Ok () else Err (AgentLimitReached (max_threads l)).

(** The guard of a turn counts it until it is dropped; the count wraps around. *)
Definition execution_guard {T} (v : MultiAgentVersion) (s : SessionSource T) (l : AgentExecutionLimiter)
    : bool * AgentExecutionLimiter :=
  if is_execution_limited v s
  then (true, mkLimiter ((limiter_active l + 1) mod (USIZE_MAX + 1)) (limiter_max_threads l))
  else (false, l).
Definition guard_drop (l : AgentExecutionLimiter) : AgentExecutionLimiter :=
  mkLimiter ((limiter_active l + USIZE_MAX) mod (USIZE_MAX + 1)) (limiter_max_threads l).

(** ** Residents *)
Section Residency.
Context {ThreadId TurnEnvironmentSelection : Type} {id_eq : EqDecision ThreadId} {id_countable : Countable ThreadId}.
#[local] Abbreviation agents := (ActiveAgents ThreadId TurnEnvironmentSelection).

(** What the residency reads of a thread. *)
Record CodexThread := mkCodexThread {
  multi_agent_version : option MultiAgentVersion;
  thread_source : SessionSource ThreadId;
  agent_status : AgentStatus;
  has_active_turn : bool;
  has_pending_mailbox_items : bool;
}.

(** The manager of the loaded threads, as the residency uses it. *)
Class ThreadManager (M : Type) := {
  get_thread : ThreadId → M → option CodexThread;
  ensure_rollout_materialized : ThreadId → M → M;
  shutdown_and_wait : ThreadId → M → bool * M;
  environment_selections : ThreadId → M → list TurnEnvironmentSelection;
  remove_thread : ThreadId → M → M;
}.
Context {M : Type} {manager : ThreadManager M}.

Record V2ResidencyState := mkResidency { residents : list ThreadId; pending_slots : nat }.
Definition default_residency : V2ResidencyState := mkResidency [] 0.

Definition try_reserve_pending_slot (capacity : N) (s : V2ResidencyState) : bool * V2ResidencyState :=
  if (capacity <=? N.min USIZE_MAX (N.of_nat (length (residents s) + pending_slots s)))%N then (false, s)
  else (true, mkResidency (residents s) (S (pending_slots s))).

(** The loop of [pop_lru_candidate], which moves the protected thread to the back. *)
Fixpoint pop_loop (n : nat) (protected : option ThreadId) (rs : list ThreadId) : option ThreadId * list ThreadId :=
  match n, rs with
  | 0, _ | _, [] => (None, rs)
  | S n, t :: rs => if bool_decide (Some t = protected) then pop_loop n protected (rs ++ [t]) else (Some t, rs)
  end.
Definition pop_lru_candidate (protected : option ThreadId) (s : V2ResidencyState) : option ThreadId * V2ResidencyState :=
  let '(t, rs) := pop_loop (length (residents s)) protected (residents s) in (t, mkResidency rs (pending_slots s)).

Definition touch_resident (rs : list ThreadId) (t : ThreadId) : list ThreadId :=
  List.filter (λ u, negb (bool_decide (u = t))) rs ++ [t].
Definition V2Residency_touch (t : ThreadId) (s : V2ResidencyState) : V2ResidencyState :=
  mkResidency (touch_resident (residents s) t) (pending_slots s).
Definition V2Residency_remove (t : ThreadId) (s : V2ResidencyState) : V2ResidencyState :=
  mkResidency (List.filter (λ u, negb (bool_decide (u = t))) (residents s)) (pending_slots s).
Definition commit_slot (t : ThreadId) (s : V2ResidencyState) : V2ResidencyState :=
  mkResidency (touch_resident (residents s) t) (pending_slots s - 1).
Definition release_pending_slot (s : V2ResidencyState) : V2ResidencyState :=
  mkResidency (residents s) (pending_slots s - 1).

Definition is_resident_candidate (t : CodexThread) : bool :=
  bool_decide (multi_agent_version t = Some MultiAgentV2) && is_v2_resident_session_source (thread_source t).
Definition is_unloadable (t : CodexThread) : bool :=
  match agent_status t with Completed _ | Errored _ | Interrupted => true | _ => false end &&
  negb (has_active_turn t) && negb (has_pending_mailbox_items t).

(** Threads that are loaded, residents and registered agents. *)
Record Control := mkControl { control_residency : V2ResidencyState; control_manager : M; control_agents : agents }.

Definition touch_loaded_v2_residency (t : ThreadId) (c : Control) : Control :=
  match get_thread t (control_manager c) with
  | Some thread =>
      if is_resident_candidate thread
      then mkControl (V2Residency_touch t (control_residency c)) (control_manager c) (control_agents c) else c
  | None => c
  end.

(** The passes of [try_unload_one_resident] through its loop. *)
Fixpoint unload_loop (n : nat) (protected : option ThreadId) (c : Control) : bool * Control :=
  match n with
  | 0 => (false, c)
  | S n =>
      let '(candidate, s) := pop_lru_candidate protected (control_residency c) in
      let m := control_manager c in
      match candidate with
      | None => (false, mkControl s m (control_agents c))
      | Some t =>
          match get_thread t m with
          | None => unload_loop n protected (mkControl s m (control_agents c))
          | Some thread =>
              if negb (is_resident_candidate thread) then unload_loop n protected (mkControl s m (control_agents c))
              else if negb (is_unloadable thread) then unload_loop n protected (mkControl (V2Residency_touch t s) m (control_agents c))
              else
                let '(ok, m) := shutdown_and_wait t (ensure_rollout_materialized t m) in
                if negb ok then unload_loop n protected (mkControl (V2Residency_touch t s) m (control_agents c))
                else
                  let a := save_evicted_environments t (environment_selections t m) (control_agents c) in
                  (true, mkControl s (remove_thread t m) a)
          end
      end
  end.
Definition try_unload_one_resident (protected : option ThreadId) (c : Control) : bool * Control :=
  unload_loop (length (residents (control_residency c))) protected c.

(** The loop of [reserve_slot], of which each round but the last unloads a resident. *)
Fixpoint reserve_loop (fuel : nat) (capacity : N) (protected : option ThreadId) (c : Control)
    : option (result CodexErr unit * Control) :=
  match fuel with
  | 0 => None
  | S fuel =>
      let '(reserved, s) := try_reserve_pending_slot capacity (control_residency c) in
      let c := mkControl s (control_manager c) (control_agents c) in
      if reserved then Some (Ok (), c)
      else
        let '(unloaded, c) := try_unload_one_resident protected c in
        if unloaded then reserve_loop fuel capacity protected c else Some (Err (AgentLimitReached capacity), c)
  end.
Definition reserve_slot (capacity : N) (protected : option ThreadId) (c : Control) : option (result CodexErr unit * Control) :=
  reserve_loop (S (length (residents (control_residency c)))) capacity protected c.
Definition reserve_v2_residency_slot (agent_max_threads : option N) (protected : option ThreadId) (c : Control)
    : option (result CodexErr unit * Control) :=
  reserve_slot (default USIZE_MAX agent_max_threads) protected c.

(** ** The laws of the manager *)
(** What a scan sees of a thread: its state, and whether it can be shut down. *)
Definition thread_view (t : ThreadId) (m : M) : option CodexThread * bool :=
  (get_thread t m, (shutdown_and_wait t (ensure_rollout_materialized t m)).1).

(** A removed thread is not found, what is done to one thread is not seen of another, and a
    shutdown that fails changes nothing that is seen. *)
Class ThreadManagerLaws : Prop := {
  remove_not_found t m : get_thread t (remove_thread t m) = None;
  remove_other t u m : t ≠ u → thread_view u (remove_thread t m) = thread_view u m;
  shutdown_other t u m : t ≠ u → thread_view u (shutdown_and_wait t (ensure_rollout_materialized t m)).2 = thread_view u m;
  shutdown_failed t m :
    (shutdown_and_wait t (ensure_rollout_materialized t m)).1 = false →
    thread_view t (shutdown_and_wait t (ensure_rollout_materialized t m)).2 = thread_view t m;
}.

(** A loaded agent, and one that can be unloaded. *)
Definition loaded (t : ThreadId) (m : M) : bool :=
  match get_thread t m with Some th => is_resident_candidate th | None => false end.
Definition idle (t : ThreadId) (m : M) : bool :=
  match get_thread t m with
  | Some th => is_resident_candidate th && is_unloadable th && (thread_view t m).2
  | None => false
  end.
(** The residents that a scan may unload. *)
Definition evictable (protected : option ThreadId) (m : M) (t : ThreadId) : bool :=
  negb (bool_decide (Some t = protected)) && idle t m.

Lemma loaded_view t m m' : thread_view t m = thread_view t m' → loaded t m = loaded t m'.
Proof using Type. unfold loaded. by intros [= -> _]. Qed.
Lemma idle_view t m m' : thread_view t m = thread_view t m' → idle t m = idle t m'.
Proof using Type. unfold idle. cbn. by intros [= -> ->]. Qed.

(** ** Popping *)
Lemma pop_protected n t : pop_loop n (Some t) [t] = (None, [t]).
Proof using Type. induction n as [|n IH]; [done|]. cbn. by rewrite bool_decide_eq_true_2. Qed.

Lemma pop_loop_spec n protected rs :
  length rs ≤ n → NoDup rs →
  match pop_loop n protected rs with
  | (Some t, rs') => ∃ A B, rs = A ++ t :: B ∧ rs' = B ++ A ∧ Forall (λ u, Some u = protected) A ∧ Some t ≠ protected
  | (None, rs') => rs' = rs ∧ Forall (λ u, Some u = protected) rs
  end.
Proof using Type.
  destruct rs as [|t rs]; [by destruct n|]. destruct n as [|n]; [cbn; lia|]. cbn [pop_loop length]. intros Hn [Ht Hnd]%NoDup_cons.
  destruct (bool_decide_reflect (Some t = protected)) as [<-|Hp]; [|by exists [], rs; rewrite app_nil_r].
  destruct rs as [|u rs]; [cbn; by rewrite pop_protected; repeat constructor|].
  destruct n as [|n]; [cbn in Hn; lia|]. cbn [app pop_loop].
  assert (Some u ≠ Some t) as Hu by (intros [= ->]; apply Ht; by left).
  rewrite bool_decide_eq_false_2 by done. exists [t], rs. split_and!; [done|done|by repeat constructor|done].
Qed.

Lemma touch_absent rs t : t ∉ rs → touch_resident rs t = rs ++ [t].
Proof using Type.
  intros Ht. unfold touch_resident. f_equal. induction rs as [|u rs IH]; [done|]. apply not_elem_of_cons in Ht as [Hu Ht].
  cbn. rewrite bool_decide_eq_false_2 by congruence. cbn. by rewrite IH.
Qed.

(** ** A scan *)
Definition unprotected (protected : option ThreadId) (rs : list ThreadId) : list ThreadId :=
  List.filter (λ u, negb (bool_decide (Some u = protected))) rs.

Lemma find_protected protected m A rs :
  Forall (λ u, Some u = protected) A → List.find (evictable protected m) (A ++ rs) = List.find (evictable protected m) rs.
Proof using Type.
  induction 1 as [|u A Hu HA IH]; [done|]. cbn. unfold evictable at 1. by rewrite bool_decide_eq_true_2.
Qed.

Lemma find_app_none (P : ThreadId → bool) rs B : Forall (λ u, P u = false) B → List.find P (rs ++ B) = List.find P rs.
Proof using Type. intros HB. induction rs as [|u rs IH]; cbn; [by induction HB as [|v B Hv HB IH]; cbn; [|rewrite Hv]|by destruct (P u)]. Qed.

Lemma protected_not_evictable protected m A : Forall (λ u, Some u = protected) A → Forall (λ u, evictable protected m u = false) A.
Proof using Type. intros HA. eapply Forall_impl; [exact HA|]. intros u Hu. unfold evictable. by rewrite bool_decide_eq_true_2. Qed.

(** The part of the queue that is still to be scanned gets shorter. *)
Lemma residents_scan_split protected m rs A B A1 t B1 n :
  rs = A ++ B → rs = A1 ++ t :: B1 → Forall (λ u, Some u = protected) A1 → Some t ≠ protected →
  Forall (λ u, evictable protected m u = false) B → length (unprotected protected A) ≤ S n →
  ∃ A' B', B1 ++ A1 = A' ++ B' ∧ Forall (λ u, evictable protected m u = false) B' ∧ length (unprotected protected A') ≤ n.
Proof using Type.
  intros -> Hrs HA1 Ht HB Hlen. pose proof (protected_not_evictable protected m A1 HA1) as HA1'.
  apply app_eq_inv in Hrs as [(k & -> & Hk)|(k & -> & ->)].
  - destruct k as [|x k]; cbn in Hk.
    + subst B. apply Forall_cons in HB as [_ HB]. exists [], (B1 ++ A1). split_and!; [done|by apply Forall_app|cbn; lia].
    + injection Hk as <- ->. exists k, (B ++ A1). rewrite app_assoc. split_and!; [done|by apply Forall_app|].
      unfold unprotected in *. rewrite List.filter_app, length_app in Hlen. cbn in Hlen.
      rewrite bool_decide_eq_false_2 in Hlen by done. cbn in Hlen. lia.
  - apply Forall_app in HA1' as [HA HK]. apply Forall_app in HB as [_ [_ HB]%Forall_cons].
    exists [], (B1 ++ A ++ k). split_and!; [done| |cbn; lia]. rewrite !Forall_app. done.
Qed.

Context {laws : ThreadManagerLaws}.

(** What a scan leaves: residents in some order, less those that are not loaded and the
    one it unloads. *)
Record scanned (protected : option ThreadId) (m0 : M) (c : Control) (unloaded : bool) (c' : Control) : Prop := {
  scanned_nodup : NoDup (residents (control_residency c'));
  scanned_subset : residents (control_residency c') ⊆ residents (control_residency c);
  scanned_pending : pending_slots (control_residency c') = pending_slots (control_residency c);
  scanned_result :
    match List.find (evictable protected m0) (residents (control_residency c)) with
    | Some t =>
        unloaded = true ∧ t ∉ residents (control_residency c') ∧ get_thread t (control_manager c') = None ∧
        (∀ u, u ≠ t → thread_view u (control_manager c') = thread_view u m0) ∧
        (∀ u, u ∈ residents (control_residency c) → u ∉ residents (control_residency c') → u = t ∨ loaded u m0 = false ∧ Some u ≠ protected)
    | None =>
        unloaded = false ∧ (∀ u, thread_view u (control_manager c') = thread_view u m0) ∧
        (∀ u, u ∈ residents (control_residency c) → u ∉ residents (control_residency c') → loaded u m0 = false ∧ Some u ≠ protected)
    end;
}.

(** One candidate was passed over: it is no longer there because it is not loaded, or it
    is at the back. *)
Lemma scanned_pass protected m0 c c1 unloaded c' A1 t B1 back :
  residents (control_residency c) = A1 ++ t :: B1 → Forall (λ u, Some u = protected) A1 → Some t ≠ protected →
  evictable protected m0 t = false → residents (control_residency c1) = (B1 ++ A1) ++ back →
  back = [t] ∨ back = [] ∧ loaded t m0 = false →
  pending_slots (control_residency c1) = pending_slots (control_residency c) →
  scanned protected m0 c1 unloaded c' → scanned protected m0 c unloaded c'.
Proof using Type.
  intros Hrs HA1 Ht Hne Hrs1 Hback Hp [H1 H2 H3 H4].
  assert (Forall (λ u, evictable protected m0 u = false) back) as Hbk by (destruct Hback as [->|[-> _]]; by repeat constructor).
  assert (List.find (evictable protected m0) (residents (control_residency c1)) =
          List.find (evictable protected m0) (residents (control_residency c))) as Hfind.
  { rewrite Hrs, Hrs1, (find_app_none _ _ back) by done. rewrite find_app_none by (by apply protected_not_evictable).
    rewrite find_protected by done. cbn. by rewrite Hne. }
  assert (∀ u, u ∈ residents (control_residency c1) → u ∈ residents (control_residency c)) as Hin.
  { intros u. rewrite Hrs, Hrs1, !elem_of_app, elem_of_cons. destruct Hback as [->|[-> _]]; [rewrite list_elem_of_singleton; tauto|].
    rewrite elem_of_nil. tauto. }
  assert (∀ u, u ∈ residents (control_residency c) → u ∈ residents (control_residency c1) ∨ loaded u m0 = false ∧ Some u ≠ protected) as Hout.
  { intros u. rewrite Hrs, Hrs1, !elem_of_app, elem_of_cons. destruct Hback as [->|[-> Hl]]; [rewrite list_elem_of_singleton; tauto|].
    intros [?|[->|?]]; tauto. }
  split; [done|by intros u ?%H2%Hin|congruence|]. rewrite Hfind in H4.
  destruct (List.find _ _) as [t0|].
  - destruct H4 as (? & ? & ? & ? & Hgone). split_and!; try done. intros u Hu Hn. destruct (Hout u Hu) as [?|?]; [by apply Hgone|by right].
  - destruct H4 as (? & ? & Hgone). split_and!; try done. intros u Hu Hn. destruct (Hout u Hu) as [?|?]; [by apply Hgone|done].
Qed.

Lemma unload_loop_spec n protected m0 (c : Control) A B :
  (∀ u, thread_view u (control_manager c) = thread_view u m0) → NoDup (residents (control_residency c)) →
  residents (control_residency c) = A ++ B → Forall (λ u, evictable protected m0 u = false) B →
  length (unprotected protected A) ≤ n →
  scanned protected m0 c (unload_loop n protected c).1 (unload_loop n protected c).2.
Proof using laws.
  revert c A B. induction n as [|n IH]; intros c A B Hview Hnd HAB HB Hlen.
  - cbn. assert (List.find (evictable protected m0) (residents (control_residency c)) = None) as Hfind.
    { rewrite HAB, find_app_none by done. clear -Hlen. induction A as [|u A IH]; [done|]. cbn in *. unfold evictable at 1.
      destruct (bool_decide (Some u = protected)); cbn in *; [by apply IH|lia]. }
    split; [done|done|done|]. rewrite Hfind. done.
  - cbn [unload_loop]. unfold pop_lru_candidate.
    pose proof (pop_loop_spec (length (residents (control_residency c))) protected (residents (control_residency c)) (le_n _) Hnd) as Hpop.
    destruct (pop_loop _ protected (residents (control_residency c))) as [[t|] rs'].
    2:{ destruct Hpop as [-> Hall]. split; [done|done|done|]. cbn.
        rewrite <- (app_nil_r (residents (control_residency c))), find_protected by done. cbn. done. }
    destruct Hpop as (A1 & B1 & Hrs & -> & HA1 & Ht).
    destruct (residents_scan_split protected m0 _ A B A1 t B1 n HAB Hrs HA1 Ht HB Hlen) as (A' & B' & HAB' & HB' & Hlen').
    assert (NoDup (B1 ++ A1) ∧ t ∉ B1 ++ A1) as [Hnd' Htn].
    { rewrite Hrs in Hnd. apply and_comm, NoDup_cons. by rewrite app_comm_cons, Permutation_app_comm. }
    assert (evictable protected m0 t = idle t (control_manager c)) as Hev.
    { unfold evictable. rewrite bool_decide_eq_false_2 by done. symmetry. by apply idle_view. }
    unfold idle in Hev. cbn [thread_view snd] in Hev.
    assert (∀ m, (∀ u, thread_view u m = thread_view u m0) → evictable protected m0 t = false → loaded t m0 = false →
      let c1 := mkControl (mkResidency (B1 ++ A1) (pending_slots (control_residency c))) m (control_agents c) in
      scanned protected m0 c (unload_loop n protected c1).1 (unload_loop n protected c1).2) as Hdrop.
    { intros m Hm Hne Hl c1. apply (scanned_pass protected m0 c c1 _ _ A1 t B1 []); try done; [by rewrite app_nil_r|by right|].
      by apply (IH c1 A' B'). }
    assert (∀ m, (∀ u, thread_view u m = thread_view u m0) → evictable protected m0 t = false →
      let c1 := mkControl (V2Residency_touch t (mkResidency (B1 ++ A1) (pending_slots (control_residency c)))) m (control_agents c) in
      scanned protected m0 c (unload_loop n protected c1).1 (unload_loop n protected c1).2) as Hkeep.
    { intros m Hm Hne c1. assert (residents (control_residency c1) = (B1 ++ A1) ++ [t]) as Hr1 by (by apply touch_absent).
      apply (scanned_pass protected m0 c c1 _ _ A1 t B1 [t]); try done; [by left|].
      apply (IH c1 A' (B' ++ [t])); [done| |by rewrite Hr1, HAB', <- app_assoc|apply Forall_app; by repeat constructor|done].
      rewrite Hr1. apply NoDup_app. split_and!; [done| |apply NoDup_singleton]. by intros u Hu ->%list_elem_of_singleton. }
    assert (loaded t m0 = loaded t (control_manager c)) as Hld by (symmetry; by apply loaded_view). unfold loaded at 2 in Hld.
    destruct (get_thread t (control_manager c)) as [th|] eqn:Hg; [|by apply Hdrop].
    destruct (is_resident_candidate th) eqn:Hcand; cbn [negb andb] in *; [|by apply Hdrop].
    destruct (is_unloadable th) eqn:Hun; cbn [negb andb] in *; [|by apply Hkeep].
    destruct (shutdown_and_wait t (ensure_rollout_materialized t (control_manager c))) as [ok m'] eqn:Hsd. cbn [fst] in Hev.
    destruct ok; cbn [negb].
    + cbn [fst snd]. split; cbn [control_residency residents pending_slots control_manager]; [done| |done|].
      * intros u. rewrite Hrs, !elem_of_app, elem_of_cons. tauto.
      * rewrite Hrs, find_protected by done. cbn. rewrite Hev. split_and!; [done|done|apply remove_not_found| |].
        -- intros u Hu. rewrite remove_other by done. rewrite <- Hview.
           pose proof (shutdown_other t u (control_manager c)) as Hso. rewrite Hsd in Hso. by apply Hso.
        -- intros u. rewrite !elem_of_app, elem_of_cons. tauto.
    + apply Hkeep; [|done]. intros u. rewrite <- Hview. destruct (decide (u = t)) as [->|Hu].
      * pose proof (shutdown_failed t (control_manager c)) as Hsf. rewrite Hsd in Hsf. by apply Hsf.
      * pose proof (shutdown_other t u (control_manager c)) as Hso. rewrite Hsd in Hso. apply Hso. congruence.
Qed.

Lemma unload_scanned protected (c : Control) :
  NoDup (residents (control_residency c)) →
  scanned protected (control_manager c) c (try_unload_one_resident protected c).1 (try_unload_one_resident protected c).2.
Proof using laws.
  intros Hnd. apply (unload_loop_spec _ protected (control_manager c) c (residents (control_residency c)) []); [done|done| |by constructor|].
  - by rewrite app_nil_r.
  - apply List.filter_length_le.
Qed.

(** ** Reserving a slot *)
Record outcome (capacity : N) (protected : option ThreadId) (c : Control) (r : result CodexErr unit) (c' : Control) : Prop := {
  outcome_nodup : NoDup (residents (control_residency c'));
  outcome_subset : residents (control_residency c') ⊆ residents (control_residency c);
  outcome_unloaded u : loaded u (control_manager c) = false → loaded u (control_manager c') = false;
  outcome_gone u : u ∈ residents (control_residency c) → u ∉ residents (control_residency c') →
    Some u ≠ protected ∧ loaded u (control_manager c') = false;
  outcome_result :
    match r with
    | Ok _ =>
        pending_slots (control_residency c') = S (pending_slots (control_residency c)) ∧
        (N.of_nat (length (residents (control_residency c')) + pending_slots (control_residency c')) ≤ capacity)%N
    | Err e =>
        e = AgentLimitReached capacity ∧ pending_slots (control_residency c') = pending_slots (control_residency c) ∧
        ∀ u, u ∈ residents (control_residency c') → evictable protected (control_manager c') u = false
    end;
}.

Lemma find_evictable protected m rs t : List.find (evictable protected m) rs = Some t → t ∈ rs ∧ Some t ≠ protected.
Proof using Type.
  intros [Hin He]%List.find_some. split; [by apply list_elem_of_In|]. apply andb_true_iff in He as [He _].
  by apply negb_true_iff, bool_decide_eq_false in He.
Qed.

(** A scan that unloads leaves fewer residents, and does not load anything. *)
Lemma scanned_step protected (c c' : Control) :
  NoDup (residents (control_residency c)) → scanned protected (control_manager c) c true c' →
  length (residents (control_residency c')) < length (residents (control_residency c)) ∧
  (∀ u, loaded u (control_manager c) = false → loaded u (control_manager c') = false) ∧
  (∀ u, u ∈ residents (control_residency c) → u ∉ residents (control_residency c') →
    Some u ≠ protected ∧ loaded u (control_manager c') = false).
Proof using Type.
  intros Hnd [H1 H2 H3 H4]. destruct (List.find _ _) as [t|] eqn:Hfind; [|by destruct H4].
  destruct H4 as (_ & Ht & Hg & Hview & Hgone). destruct (find_evictable _ _ _ _ Hfind) as [Hin Hp].
  assert (∀ u, loaded u (control_manager c) = false → loaded u (control_manager c') = false) as Hun.
  { intros u Hu. destruct (decide (u = t)) as [->|Hne]; [unfold loaded; by rewrite Hg|]. rewrite <- Hu. by apply loaded_view, Hview. }
  split_and!; [|done|].
  - apply (submseteq_length (t :: residents (control_residency c'))), NoDup_submseteq; [by constructor|].
    intros u [->|?]%elem_of_cons; [done|by apply H2].
  - intros u Hu Hn. destruct (Hgone u Hu Hn) as [->|[Hl ?]]; [split; [done|unfold loaded; by rewrite Hg]|split; [done|by apply Hun]].
Qed.

Lemma reserve_loop_outcome capacity protected fuel (c : Control) :
  (capacity ≤ USIZE_MAX)%N → NoDup (residents (control_residency c)) → length (residents (control_residency c)) < fuel →
  ∃ r c', reserve_loop fuel capacity protected c = Some (r, c') ∧ outcome capacity protected c r c'.
Proof using laws.
  intros HU. revert c. induction fuel as [|fuel IH]; intros c Hnd Hlen; [lia|]. cbn [reserve_loop]. unfold try_reserve_pending_slot.
  destruct (N.leb_spec capacity (N.min USIZE_MAX (N.of_nat (length (residents (control_residency c)) + pending_slots (control_residency c))))) as [Hfull|Hroom].
  - destruct c as [[rs pending] m ag]. cbn [control_residency residents pending_slots control_manager control_agents] in *.
    set (c := mkControl (mkResidency rs pending) m ag).
    pose proof (unload_scanned protected c Hnd) as Hscan. destruct (try_unload_one_resident protected c) as [[] c1]; cbn [fst snd] in Hscan.
    + destruct (scanned_step protected c c1 Hnd Hscan) as (Hlt & Hun & Hgone). destruct Hscan as [H1 H2 H3 _].
      destruct (IH c1 H1) as (r & c' & -> & [O1 O2 O3 O4 O5]); [cbn in *; lia|]. exists r, c'. split; [done|].
      split; [done|by transitivity (residents (control_residency c1))|auto| |by rewrite H3 in O5].
      intros u Hu Hn. destruct (decide (u ∈ residents (control_residency c1))) as [?|Hn1]; [by apply O4|].
      destruct (Hgone u Hu Hn1) as [??]. split; [done|by apply O3].
    + eexists _, c1. split; [done|]. destruct Hscan as [H1 H2 H3 H4].
      destruct (List.find _ _) as [t|] eqn:Hfind; [by destruct H4|]. destruct H4 as (_ & Hview & Hgone).
      assert (∀ u, loaded u (control_manager c1) = loaded u (control_manager c)) as Hl by (intros u; apply loaded_view, Hview).
      split; [done|done|intros u; by rewrite Hl| |].
      * intros u Hu Hn. destruct (Hgone u Hu Hn). by rewrite Hl.
      * split_and!; [done|done|]. intros u Hu. rewrite <- (List.find_none _ _ Hfind u) by (by apply list_elem_of_In, H2).
        unfold evictable. f_equal. apply idle_view, Hview.
  - eexists _, _. split; [done|]. split; cbn; [done|done|done|done|]. split; [done|lia].
Qed.

(** C24: Reserving a slot for a resident agent returns.  It succeeds with room for the new
    agent within the capacity; it is refused only when no resident but the protected one
    could be unloaded.  Either way the residents that are gone are no longer loaded, and
    the protected one stays. *)
Theorem residency_slot_reserved capacity protected (c : Control) :
  (capacity ≤ USIZE_MAX)%N → NoDup (residents (control_residency c)) →
  ∃ r c', reserve_slot capacity protected c = Some (r, c') ∧ outcome capacity protected c r c'.
Proof using laws. intros HU Hnd. by apply reserve_loop_outcome; [..|lia]. Qed.

(** A scan unloads the least recently used resident that is idle, and keeps its
    environments for a reload; without such a resident it unloads nothing. *)
Theorem least_recent_idle_unloaded protected (c : Control) :
  NoDup (residents (control_residency c)) →
  match List.find (evictable protected (control_manager c)) (residents (control_residency c)) with
  | Some t =>
      (try_unload_one_resident protected c).1 = true ∧
      t ∉ residents (control_residency (try_unload_one_resident protected c).2) ∧
      get_thread t (control_manager (try_unload_one_resident protected c).2) = None
  | None =>
      (try_unload_one_resident protected c).1 = false ∧
      ∀ u, thread_view u (control_manager (try_unload_one_resident protected c).2) = thread_view u (control_manager c)
  end.
Proof using laws.
  intros Hnd. destruct (unload_scanned protected c Hnd) as [_ _ _ H]. destruct (List.find _ _) as [t|]; naive_solver.
Qed.

(** ** Interleavings *)
(** Each section under the lock is a step; slots are held between the reservation and the
    commit or the drop. *)
Inductive ResidencyStep :=
| TryReserveSlot (capacity : N)
| PopCandidate (protected : option ThreadId)
| Touch (t : ThreadId)
| Forget (t : ThreadId)
| CommitSlot (t : ThreadId)
| DropSlot.

Definition residency_step (a : ResidencyStep) (w : V2ResidencyState * nat) : option (V2ResidencyState * nat) :=
  let '(s, slots) := w in
  match a with
  | TryReserveSlot capacity => let '(ok, s) := try_reserve_pending_slot capacity s in Some (s, if ok then S slots else slots)
  | PopCandidate protected => Some ((pop_lru_candidate protected s).2, slots)
  | Touch t => Some (V2Residency_touch t s, slots)
  | Forget t => Some (V2Residency_remove t s, slots)
  | CommitSlot t => match slots with S slots => Some (commit_slot t s, slots) | 0 => None end
  | DropSlot => match slots with S slots => Some (release_pending_slot s, slots) | 0 => None end
  end.
Fixpoint residency_run (actions : list ResidencyStep) (w : V2ResidencyState * nat) : option (V2ResidencyState * nat) :=
  match actions with
  | [] => Some w
  | a :: actions => w ← residency_step a w; residency_run actions w
  end.

Lemma filter_ne_nodup (rs : list ThreadId) (t : ThreadId) : NoDup rs → NoDup (List.filter (λ u, negb (bool_decide (u = t))) rs).
Proof using Type. intros H. apply NoDup_ListNoDup, List.NoDup_filter. by apply NoDup_ListNoDup. Qed.

Lemma touch_nodup (rs : list ThreadId) (t : ThreadId) : NoDup rs → NoDup (touch_resident rs t).
Proof using Type.
  intros H. unfold touch_resident. apply NoDup_app. split_and!; [by apply filter_ne_nodup| |apply NoDup_singleton].
  intros u Hu ->%list_elem_of_singleton. apply list_elem_of_In, List.filter_In in Hu as [_ Hu]. by rewrite bool_decide_eq_true_2 in Hu.
Qed.

Lemma pop_nodup n protected (rs : list ThreadId) : NoDup rs → NoDup (pop_loop n protected rs).2.
Proof using Type.
  revert rs. induction n as [|n IH]; intros rs H; [done|]. destruct rs as [|t rs]; [done|]. cbn [pop_loop].
  destruct (bool_decide _); [|by apply NoDup_cons in H as [_ ?]]. apply IH. by rewrite Permutation_app_comm.
Qed.

(** In every interleaving the residents are distinct and the pending slots are those that
    are held: the saturating subtraction never saturates. *)
Theorem residency_accounted actions s slots :
  residency_run actions (default_residency, 0) = Some (s, slots) → NoDup (residents s) ∧ pending_slots s = slots.
Proof using Type.
  enough (∀ w w', NoDup (residents w.1) ∧ pending_slots w.1 = w.2 → residency_run actions w = Some w' →
    NoDup (residents w'.1) ∧ pending_slots w'.1 = w'.2) as H by (intros Hrun; exact (H (default_residency, 0) (s, slots) (conj (NoDup_nil_2 (A := ThreadId)) eq_refl) Hrun)).
  induction actions as [|a actions IH]; intros w w' Hw; cbn; [by intros [= <-]|].
  destruct (residency_step a w) as [w1|] eqn:Hs; [|done]. cbn. apply IH. clear IH. destruct w as [s0 n], Hw as [Hnd Hp]. cbn in Hnd, Hp.
  destruct a as [capacity|protected|t|t|t|]; cbn in Hs.
  - unfold try_reserve_pending_slot in Hs. destruct (_ <=? _)%N; injection Hs as <-; cbn; auto.
  - injection Hs as <-. cbn. unfold pop_lru_candidate. pose proof (pop_nodup (length (residents s0)) protected (residents s0) Hnd).
    destruct (pop_loop _ _ _) as [o rs]. done.
  - injection Hs as <-. split; [by apply touch_nodup|done].
  - injection Hs as <-. split; [by apply filter_ne_nodup|done].
  - destruct n as [|n]; [done|]. injection Hs as <-. split; [by apply touch_nodup|cbn; lia].
  - destruct n as [|n]; [done|]. injection Hs as <-. split; [done|cbn; lia].
Qed.
End Residency.
Arguments CodexThread : clear implicits.
Arguments Control ThreadId TurnEnvironmentSelection {_ _} M.

(** ** Examples *)
(** Loaded threads in a map; every shutdown succeeds. *)
#[local] Abbreviation thread_map := (@gmap N N.eq_dec N_countable (CodexThread N)).
#[local] Instance map_manager : ThreadManager (ThreadId := N) (TurnEnvironmentSelection := unit) thread_map := {|
  get_thread t m := m !! t;
  ensure_rollout_materialized t m := m;
  shutdown_and_wait t m := (true, m);
  environment_selections t m := [()];
  remove_thread t m := delete t m;
|}.
#[local] Instance map_manager_laws : ThreadManagerLaws (manager := map_manager).
Proof.
  split.
  - intros t m. apply lookup_delete_eq.
  - intros t u m Hne. unfold thread_view. cbn. by rewrite lookup_delete_ne.
  - done.
  - done.
Qed.

Definition agent_thread (status : AgentStatus) : CodexThread N :=
  mkCodexThread (Some MultiAgentV2) (SourceSubAgent Review) status false false.
(** The first resident runs, the second is protected, the third and the fourth are done. *)
Definition busy_control : Control N unit thread_map :=
  mkControl (mkResidency [1; 2; 3; 4]%N 0)
    (<[1%N := agent_thread Running]> (<[2%N := agent_thread (Completed None)]>
      (<[3%N := agent_thread (Completed None)]> (<[4%N := agent_thread (Errored [])]> ∅)))) default_agents.

Lemma busy_control_nodup : NoDup (residents (control_residency busy_control)).
Proof. apply (bool_decide_unpack _). by vm_compute. Qed.

Lemma residency_slot_reserved_witness :
  ∃ r c', reserve_slot 4 (Some 2%N) busy_control = Some (r, c') ∧ outcome 4 (Some 2%N) busy_control r c'.
Proof. apply (residency_slot_reserved 4 (Some 2%N) busy_control); [by vm_compute|exact busy_control_nodup]. Defined.

Lemma least_recent_idle_unloaded_witness :
  (try_unload_one_resident (Some 2%N) busy_control).1 = true ∧
  3%N ∉ residents (control_residency (try_unload_one_resident (Some 2%N) busy_control).2) ∧
  get_thread 3%N (control_manager (try_unload_one_resident (Some 2%N) busy_control).2) = None.
Proof. exact (least_recent_idle_unloaded (Some 2%N) busy_control busy_control_nodup). Defined.

(** ** Where the code falls short *)
(** The scan drops a resident that is not loaded any more, and the reservation is refused
    although the slot of this resident is free now. *)
Definition stale_control : Control N unit thread_map := mkControl (mkResidency [1%N] 0) ∅ default_agents.
Example free_slot_refused :
  match reserve_slot 1 None stale_control with
  | Some (r, c) => r = Err (AgentLimitReached 1) ∧ residents (control_residency c) = [] ∧ pending_slots (control_residency c) = 0
  | None => False
  end.
Proof. by vm_compute. Qed.

(** A busy resident is missing from the list while it is examined, so that another spawn
    gets its slot; afterwards there is one resident more than the capacity. *)
Example capacity_exceeded_by_race :
  residency_run [TryReserveSlot 1; CommitSlot 1%N; PopCandidate None; TryReserveSlot 1; Touch 1%N; CommitSlot 2%N] (default_residency, 0) =
    Some (mkResidency [1; 2]%N 0, 0).
Proof. by vm_compute. Qed.

(** The check for capacity and the guard are apart, so two turns that are checked before
    either starts both run. *)
Example execution_limit_exceeded :
  let l := limiter_initialize 1 (mkLimiter 0 None) in
  let source := SourceSubAgent (@Review N) in
  ensure_execution_capacity MultiAgentV2 source l = Ok () ∧
  limiter_active (execution_guard MultiAgentV2 source (execution_guard MultiAgentV2 source l).2).2 = 2%N.
Proof. by vm_compute. Qed.
