(* ===== verification/PendingReplay.v ===== *)
(** * Replay of pending prompts

    [sofia-rs/tui/src/app/pending_interactive_replay.rs], which keeps track of the prompts
    that are still to be answered, and the buffer of
    [sofia-rs/tui/src/app/thread_event_buffer.rs] and [thread_events.rs] that prompts and
    notifications of a thread are replayed from.  The theorem says that exactly the prompts
    that are pending are replayed, in their order, and that the buffer stays bounded. *)

From stdpp Require Import base list gmap numbers strings.
From S2P Require Import Prelude Machine Truncate RemoteProtocol.

#[local] Set Default Proof Using "Type*".
#[local] Arguments str : simpl never.

#[global] Instance RequestId_eq_dec : EqDecision RequestId.
Proof. solve_decision. Defined.
#[global] Instance RequestId_countable : Countable RequestId.
Proof.
  refine (inj_countable' (λ q, match q with RequestId_String s => inl s | RequestId_Integer z => inr z end)
    (λ x, match x with inl s => RequestId_String s | inr z => RequestId_Integer z end) _).
  by intros [].
Defined.

(** ** Messages *)
(** What the replay reads of the requests of the server; requests of other kinds are not
    told apart. *)
Inductive ServerRequest :=
| CommandExecutionRequestApproval (id : RequestId) (turn_id item_id : rstring) (approval_id : option rstring)
| FileChangeRequestApproval (id : RequestId) (turn_id item_id : rstring)
| McpServerElicitationRequest (id : RequestId) (server_name : rstring)
| ToolRequestUserInput (id : RequestId) (turn_id item_id : rstring)
| PermissionsRequestApproval (id : RequestId) (turn_id item_id : rstring)
| OtherServerRequest (id : RequestId) (payload : rstring).
#[global] Instance ServerRequest_eq_dec : EqDecision ServerRequest.
Proof. solve_decision. Defined.

Inductive ThreadItem :=
| CommandExecution (id : rstring)
| FileChange (id : rstring)
| OtherThreadItem (payload : rstring).

Record AgentMessageDelta := mkDelta {
  delta_thread_id : rstring; delta_turn_id : rstring; delta_item_id : rstring; delta_text : rstring;
}.
(** The notifications that are not buffered, such as raw response items, are one kind, and
    so are the others that are only buffered. *)
Inductive ServerNotification :=
| ItemStarted (turn_id : rstring) (item : ThreadItem)
| TurnStarted (turn_id : rstring)
| TurnCompleted (turn_id : rstring)
| PolicyViolation (turn_id : rstring)
| ServerRequestResolved (id : RequestId)
| ThreadClosed
| MessageDelta (delta : AgentMessageDelta)
| UnbufferedNotification (payload : rstring)
| OtherNotification (payload : rstring).

(** The commands of the user interface that answer prompts. *)
Inductive AppCommand :=
| ExecApproval (id : rstring) (turn_id : option rstring)
| PatchApproval (id : rstring)
| ResolveElicitation (server_name : rstring) (id : RequestId)
| RequestPermissionsResponse (id : rstring)
| UserInputAnswer (turn_id : rstring)
| OtherAppCommand (payload : rstring).

(** ** The state *)
Abbreviation ElicitationRequestKey := (rstring * RequestId)%type.

Inductive PendingInteractiveRequest :=
| PendingExecApproval (turn_id approval_id : rstring)
| PendingPatchApproval (turn_id item_id : rstring)
| PendingElicitation (key : ElicitationRequestKey)
| PendingRequestPermissions (turn_id item_id : rstring)
| PendingRequestUserInput (turn_id item_id : rstring).

(** The pending calls of a kind: [.._call_ids] and [.._call_ids_by_turn_id]. *)
Record PendingCalls := mkCalls {
  call_ids : gset rstring;
  call_ids_by_turn_id : gmap rstring (list rstring);
}.
Definition no_calls : PendingCalls := mkCalls ∅ ∅.

Record PendingInteractiveReplayState := mkReplayState {
  exec_approvals : PendingCalls;
  patch_approvals : PendingCalls;
  elicitation_requests : gset ElicitationRequestKey;
  request_permissions : PendingCalls;
  request_user_inputs : PendingCalls;
  pending_requests_by_request_id : gmap RequestId PendingInteractiveRequest;
}.
Definition default_replay : PendingInteractiveReplayState := mkReplayState no_calls no_calls ∅ no_calls no_calls ∅.

(** ** Changes of the calls of a kind *)
Definition add_call (turn_id id : rstring) (c : PendingCalls) : PendingCalls :=
  mkCalls ({[ id ]} ∪ call_ids c)
    (<[turn_id := default [] (call_ids_by_turn_id c !! turn_id) ++ [id]]> (call_ids_by_turn_id c)).

Definition without (id : rstring) (ids : list rstring) : list rstring := List.filter (λ x, negb (str_eqb x id)) ids.

Definition remove_call_id_from_turn_map (m : gmap rstring (list rstring)) (id : rstring) : gmap rstring (list rstring) :=
  omap (λ ids, let ids := without id ids in if is_empty ids then None else Some ids) m.
Definition remove_call_id_from_turn_map_entry (m : gmap rstring (list rstring)) (turn_id id : rstring)
    : gmap rstring (list rstring) :=
  match m !! turn_id with
  | Some ids => let ids := without id ids in if is_empty ids then delete turn_id m else <[turn_id := ids]> m
  | None => m
  end.

Definition remove_call (id : rstring) (c : PendingCalls) : PendingCalls :=
  mkCalls (call_ids c ∖ {[ id ]}) (remove_call_id_from_turn_map (call_ids_by_turn_id c) id).
Definition remove_call_in_turn (turn_id id : rstring) (c : PendingCalls) : PendingCalls :=
  mkCalls (call_ids c ∖ {[ id ]}) (remove_call_id_from_turn_map_entry (call_ids_by_turn_id c) turn_id id).
(** [clear_.._turn]. *)
Definition clear_calls (turn_id : rstring) (c : PendingCalls) : PendingCalls :=
  match call_ids_by_turn_id c !! turn_id with
  | Some ids => mkCalls (call_ids c ∖ list_to_set ids) (delete turn_id (call_ids_by_turn_id c))
  | None => c
  end.

(** [HashMap::retain] of the pending requests. *)
Definition drop_pending (P : PendingInteractiveRequest → bool) (m : gmap RequestId PendingInteractiveRequest)
    : gmap RequestId PendingInteractiveRequest :=
  omap (λ e, if P e then None else Some e) m.

Definition with_exec (f : PendingCalls → PendingCalls) (s : PendingInteractiveReplayState) : PendingInteractiveReplayState :=
  mkReplayState (f (exec_approvals s)) (patch_approvals s) (elicitation_requests s) (request_permissions s)
    (request_user_inputs s) (pending_requests_by_request_id s).
Definition with_patch (f : PendingCalls → PendingCalls) (s : PendingInteractiveReplayState) : PendingInteractiveReplayState :=
  mkReplayState (exec_approvals s) (f (patch_approvals s)) (elicitation_requests s) (request_permissions s)
    (request_user_inputs s) (pending_requests_by_request_id s).
Definition with_elicitations (f : gset ElicitationRequestKey → gset ElicitationRequestKey) (s : PendingInteractiveReplayState)
    : PendingInteractiveReplayState :=
  mkReplayState (exec_approvals s) (patch_approvals s) (f (elicitation_requests s)) (request_permissions s)
    (request_user_inputs s) (pending_requests_by_request_id s).
Definition with_permissions (f : PendingCalls → PendingCalls) (s : PendingInteractiveReplayState) : PendingInteractiveReplayState :=
  mkReplayState (exec_approvals s) (patch_approvals s) (elicitation_requests s) (f (request_permissions s))
    (request_user_inputs s) (pending_requests_by_request_id s).
Definition with_inputs (f : PendingCalls → PendingCalls) (s : PendingInteractiveReplayState) : PendingInteractiveReplayState :=
  mkReplayState (exec_approvals s) (patch_approvals s) (elicitation_requests s) (request_permissions s)
    (f (request_user_inputs s)) (pending_requests_by_request_id s).
Definition with_pending (f : gmap RequestId PendingInteractiveRequest → gmap RequestId PendingInteractiveRequest)
    (s : PendingInteractiveReplayState) : PendingInteractiveReplayState :=
  mkReplayState (exec_approvals s) (patch_approvals s) (elicitation_requests s) (request_permissions s)
    (request_user_inputs s) (f (pending_requests_by_request_id s)).

(** ** Commands of the user *)
Definition op_can_change_state (op : AppCommand) : bool :=
  match op with OtherAppCommand _ => false | _ => true end.

Definition note_outbound_op (op : AppCommand) (s : PendingInteractiveReplayState) : PendingInteractiveReplayState :=
  match op with
  | ExecApproval id turn_id =>
      let s := with_exec (λ c,
        match turn_id with
        | Some turn_id => remove_call_in_turn turn_id id c
        | None => mkCalls (call_ids c ∖ {[ id ]}) (call_ids_by_turn_id c)
        end) s in
      with_pending (drop_pending (λ e, match e with PendingExecApproval _ approval_id => str_eqb approval_id id | _ => false end)) s
  | PatchApproval id =>
      with_pending (drop_pending (λ e, match e with PendingPatchApproval _ item_id => str_eqb item_id id | _ => false end))
        (with_patch (remove_call id) s)
  | ResolveElicitation server_name request_id =>
      with_pending (drop_pending (λ e, match e with PendingElicitation key => bool_decide (key = (server_name, request_id)) | _ => false end))
        (with_elicitations (λ keys, keys ∖ {[ (server_name, request_id) ]}) s)
  | RequestPermissionsResponse id =>
      with_pending (drop_pending (λ e, match e with PendingRequestPermissions _ item_id => str_eqb item_id id | _ => false end))
        (with_permissions (remove_call id) s)
  | UserInputAnswer turn_id =>
      match call_ids_by_turn_id (request_user_inputs s) !! turn_id with
      | None => s
      | Some [] => with_inputs (λ c, mkCalls (call_ids c) (delete turn_id (call_ids_by_turn_id c))) s
      | Some (call_id :: rest) =>
          let s := with_pending
            (drop_pending (λ e, match e with PendingRequestUserInput _ item_id => str_eqb item_id call_id | _ => false end)) s in
          with_inputs (λ c, mkCalls (call_ids c ∖ {[ call_id ]})
            (if is_empty rest then delete turn_id (call_ids_by_turn_id c) else <[turn_id := rest]> (call_ids_by_turn_id c))) s
      end
  | OtherAppCommand _ => s
  end.

(** ** Messages of the server *)
Definition pending_request (r : ServerRequest) : option (RequestId * PendingInteractiveRequest) :=
  match r with
  | CommandExecutionRequestApproval q turn_id item_id approval_id => Some (q, PendingExecApproval turn_id (default item_id approval_id))
  | FileChangeRequestApproval q turn_id item_id => Some (q, PendingPatchApproval turn_id item_id)
  | McpServerElicitationRequest q server_name => Some (q, PendingElicitation (server_name, q))
  | ToolRequestUserInput q turn_id item_id => Some (q, PendingRequestUserInput turn_id item_id)
  | PermissionsRequestApproval q turn_id item_id => Some (q, PendingRequestPermissions turn_id item_id)
  | OtherServerRequest _ _ => None
  end.

Definition note_server_request (r : ServerRequest) (s : PendingInteractiveReplayState) : PendingInteractiveReplayState :=
  let s :=
    match r with
    | CommandExecutionRequestApproval _ turn_id item_id approval_id => with_exec (add_call turn_id (default item_id approval_id)) s
    | FileChangeRequestApproval _ turn_id item_id => with_patch (add_call turn_id item_id) s
    | McpServerElicitationRequest q server_name => with_elicitations (λ keys, {[ (server_name, q) ]} ∪ keys) s
    | ToolRequestUserInput _ turn_id item_id => with_inputs (add_call turn_id item_id) s
    | PermissionsRequestApproval _ turn_id item_id => with_permissions (add_call turn_id item_id) s
    | OtherServerRequest _ _ => s
    end in
  match pending_request r with
  | Some (q, e) => with_pending (<[q := e]>) s
  | None => s
  end.

Definition pending_turn (turn_id : rstring) (e : PendingInteractiveRequest) : bool :=
  match e with
  | PendingExecApproval t _ | PendingPatchApproval t _ | PendingRequestPermissions t _ | PendingRequestUserInput t _ => str_eqb t turn_id
  | PendingElicitation _ => false
  end.
(** The four [clear_.._turn], of which each drops the pending requests of its kind. *)
Definition clear_turn (turn_id : rstring) (s : PendingInteractiveReplayState) : PendingInteractiveReplayState :=
  with_pending (drop_pending (pending_turn turn_id))
    (with_inputs (clear_calls turn_id) (with_permissions (clear_calls turn_id) (with_patch (clear_calls turn_id) (with_exec (clear_calls turn_id) s)))).

Definition remove_request (q : RequestId) (s : PendingInteractiveReplayState) : PendingInteractiveReplayState :=
  match pending_requests_by_request_id s !! q with
  | None => s
  | Some e =>
      let s := with_pending (delete q) s in
      match e with
      | PendingExecApproval turn_id id => with_exec (remove_call_in_turn turn_id id) s
      | PendingPatchApproval turn_id id => with_patch (remove_call_in_turn turn_id id) s
      | PendingElicitation key => with_elicitations (λ keys, keys ∖ {[ key ]}) s
      | PendingRequestPermissions turn_id id => with_permissions (remove_call_in_turn turn_id id) s
      | PendingRequestUserInput turn_id id => with_inputs (remove_call_in_turn turn_id id) s
      end
  end.

Definition note_server_notification (n : ServerNotification) (s : PendingInteractiveReplayState) : PendingInteractiveReplayState :=
  match n with
  | ItemStarted _ (CommandExecution id) => with_exec (remove_call id) s
  | ItemStarted _ (FileChange id) => with_patch (remove_call id) s
  | TurnCompleted turn_id => clear_turn turn_id s
  | ServerRequestResolved q => remove_request q s
  | ThreadClosed => default_replay
  | _ => s
  end.

Definition request_matches_server_request (r : ServerRequest) (e : PendingInteractiveRequest) : bool :=
  match e, r with
  | PendingExecApproval turn_id approval_id, CommandExecutionRequestApproval _ t item_id approval =>
      str_eqb turn_id t && str_eqb approval_id (default item_id approval)
  | PendingPatchApproval turn_id id, FileChangeRequestApproval _ t item_id => str_eqb turn_id t && str_eqb id item_id
  | PendingElicitation key, McpServerElicitationRequest q server_name => bool_decide (key = (server_name, q))
  | PendingRequestPermissions turn_id id, PermissionsRequestApproval _ t item_id => str_eqb turn_id t && str_eqb id item_id
  | PendingRequestUserInput turn_id id, ToolRequestUserInput _ t item_id => str_eqb turn_id t && str_eqb id item_id
  | _, _ => false
  end.

Definition note_evicted_server_request (r : ServerRequest) (s : PendingInteractiveReplayState) : PendingInteractiveReplayState :=
  with_pending (drop_pending (request_matches_server_request r))
    match r with
    | CommandExecutionRequestApproval _ turn_id item_id approval_id => with_exec (remove_call_in_turn turn_id (default item_id approval_id)) s
    | FileChangeRequestApproval _ turn_id item_id => with_patch (remove_call_in_turn turn_id item_id) s
    | McpServerElicitationRequest q server_name => with_elicitations (λ keys, keys ∖ {[ (server_name, q) ]}) s
    | ToolRequestUserInput _ turn_id item_id => with_inputs (remove_call_in_turn turn_id item_id) s
    | PermissionsRequestApproval _ turn_id item_id => with_permissions (remove_call_in_turn turn_id item_id) s
    | OtherServerRequest _ _ => s
    end.

Definition should_replay_snapshot_request (s : PendingInteractiveReplayState) (r : ServerRequest) : bool :=
  match r with
  | CommandExecutionRequestApproval _ _ item_id approval_id => bool_decide (default item_id approval_id ∈ call_ids (exec_approvals s))
  | FileChangeRequestApproval _ _ item_id => bool_decide (item_id ∈ call_ids (patch_approvals s))
  | McpServerElicitationRequest q server_name => bool_decide ((server_name, q) ∈ elicitation_requests s)
  | ToolRequestUserInput _ _ item_id => bool_decide (item_id ∈ call_ids (request_user_inputs s))
  | PermissionsRequestApproval _ _ item_id => bool_decide (item_id ∈ call_ids (request_permissions s))
  | OtherServerRequest _ _ => true
  end.

Definition has_pending_thread_approvals (s : PendingInteractiveReplayState) : bool :=
  negb (bool_decide (call_ids (exec_approvals s) = ∅)) || negb (bool_decide (call_ids (patch_approvals s) = ∅)) ||
  negb (bool_decide (elicitation_requests s = ∅)) || negb (bool_decide (call_ids (request_permissions s) = ∅)).
Definition has_pending_thread_user_input (s : PendingInteractiveReplayState) : bool :=
  negb (bool_decide (call_ids (request_user_inputs s) = ∅)).

(** ** The buffer *)
Definition MAX_COALESCED_AGENT_MESSAGE_DELTA_BYTES : N := 4 * 1024.
Definition MAX_BUFFERED_AGENT_MESSAGE_DELTA_BYTES : N := 256 * 1024.

Inductive ThreadBufferedEvent :=
| BufferedNotification (n : ServerNotification)
| BufferedRequest (r : ServerRequest)
| BufferedHistoryEntry (payload : rstring)
| BufferedFeedback (payload : rstring).

Record ThreadEventStore := mkStore {
  buffer : list ThreadBufferedEvent;
  pending_interactive_replay : PendingInteractiveReplayState;
  active_turn_id : option rstring;
  latest_turn_id : option rstring;
  pending_interrupt_turn_id : option rstring;
  capacity : nat;
  buffered_agent_message_delta_bytes : N;
}.
Definition ThreadEventStore_new (capacity : nat) : ThreadEventStore :=
  mkStore [] default_replay None None None capacity 0.

Definition delta_bytes (e : ThreadBufferedEvent) : N :=
  match e with BufferedNotification (MessageDelta d) => str_len (delta_text d) | _ => 0 end.

(** Eviction from the front of the buffer. *)
Fixpoint evict_events (capacity : nat) (buffer : list ThreadBufferedEvent) (bytes : N) (s : PendingInteractiveReplayState)
    : list ThreadBufferedEvent * N * PendingInteractiveReplayState :=
  match buffer with
  | [] => ([], bytes, s)
  | removed :: rest =>
      if (capacity <? length buffer)%nat || (MAX_BUFFERED_AGENT_MESSAGE_DELTA_BYTES <? bytes)%N then
        match removed with
        | BufferedRequest r => evict_events capacity rest bytes (note_evicted_server_request r s)
        | _ => evict_events capacity rest (bytes - delta_bytes removed) s
        end
      else (buffer, bytes, s)
  end.

Definition with_buffer (buffer : list ThreadBufferedEvent) (bytes : N) (pending : PendingInteractiveReplayState) (st : ThreadEventStore)
    : ThreadEventStore :=
  mkStore buffer pending (active_turn_id st) (latest_turn_id st) (pending_interrupt_turn_id st) (capacity st) bytes.

Definition evict_overflowing_events (st : ThreadEventStore) : ThreadEventStore :=
  let '(buffer, bytes, pending) :=
    evict_events (capacity st) (buffer st) (buffered_agent_message_delta_bytes st) (pending_interactive_replay st) in
  with_buffer buffer bytes pending st.

Definition push_buffered_event (e : ThreadBufferedEvent) (st : ThreadEventStore) : ThreadEventStore :=
  evict_overflowing_events
    (with_buffer (buffer st ++ [e]) (sat_add USIZE_MAX (buffered_agent_message_delta_bytes st) (delta_bytes e))
       (pending_interactive_replay st) st).

(** The last delta of the buffer, when [delta] continues it. *)
Definition coalesced (delta : AgentMessageDelta) (b : list ThreadBufferedEvent) : option AgentMessageDelta :=
  match last b with
  | Some (BufferedNotification (MessageDelta previous)) =>
      if str_eqb (delta_thread_id previous) (delta_thread_id delta) && str_eqb (delta_turn_id previous) (delta_turn_id delta) &&
         str_eqb (delta_item_id previous) (delta_item_id delta) &&
         (sat_add USIZE_MAX (str_len (delta_text previous)) (str_len (delta_text delta)) <=? MAX_COALESCED_AGENT_MESSAGE_DELTA_BYTES)%N
      then Some (mkDelta (delta_thread_id previous) (delta_turn_id previous) (delta_item_id previous)
                   (delta_text previous ++ delta_text delta))
      else None
  | _ => None
  end.

Definition push_replay_notification (n : ServerNotification) (st : ThreadEventStore) : ThreadEventStore :=
  match n with
  | MessageDelta delta =>
      if (MAX_BUFFERED_AGENT_MESSAGE_DELTA_BYTES <? str_len (delta_text delta))%N then st
      else
        match coalesced delta (buffer st) with
        | Some merged =>
            evict_overflowing_events
              (with_buffer (removelast (buffer st) ++ [BufferedNotification (MessageDelta merged)])
                 (sat_add USIZE_MAX (buffered_agent_message_delta_bytes st) (str_len (delta_text delta)))
                 (pending_interactive_replay st) st)
        | None => push_buffered_event (BufferedNotification n) st
        end
  | _ => push_buffered_event (BufferedNotification n) st
  end.

(** The turns that a notification changes. *)
Definition note_turns (n : ServerNotification) (st : ThreadEventStore) : ThreadEventStore :=
  let turns active latest interrupt :=
    mkStore (buffer st) (pending_interactive_replay st) active latest interrupt (capacity st) (buffered_agent_message_delta_bytes st) in
  match n with
  | TurnStarted t => turns (Some t) (Some t) (pending_interrupt_turn_id st)
  | TurnCompleted t =>
      turns (if bool_decide (active_turn_id st = Some t) then None else active_turn_id st)
        (if bool_decide (active_turn_id st = None) then Some t else latest_turn_id st)
        (if bool_decide (pending_interrupt_turn_id st = Some t) then None else pending_interrupt_turn_id st)
  | PolicyViolation t =>
      turns (active_turn_id st) (if bool_decide (active_turn_id st = None) then Some t else latest_turn_id st) (pending_interrupt_turn_id st)
  | ThreadClosed => turns None (latest_turn_id st) None
  | _ => st
  end.

Definition push_notification (n : ServerNotification) (st : ThreadEventStore) : ThreadEventStore :=
  let st := with_buffer (buffer st) (buffered_agent_message_delta_bytes st) (note_server_notification n (pending_interactive_replay st)) st in
  let st := note_turns n st in
  match n with
  | UnbufferedNotification _ | ServerRequestResolved _ => st
  | _ => push_replay_notification n st
  end.

Definition push_request (r : ServerRequest) (st : ThreadEventStore) : ThreadEventStore :=
  push_buffered_event (BufferedRequest r)
    (with_buffer (buffer st) (buffered_agent_message_delta_bytes st) (note_server_request r (pending_interactive_replay st)) st).

Definition outbound_op (op : AppCommand) (st : ThreadEventStore) : ThreadEventStore :=
  with_buffer (buffer st) (buffered_agent_message_delta_bytes st) (note_outbound_op op (pending_interactive_replay st)) st.

Definition buffered_request (e : ThreadBufferedEvent) : option ServerRequest :=
  match e with BufferedRequest r => Some r | _ => None end.
Definition pending_replay_requests (st : ThreadEventStore) : list ServerRequest :=
  List.filter (should_replay_snapshot_request (pending_interactive_replay st)) (omap buffered_request (buffer st)).

(** ** What is pending *)
(** The calls of the four kinds, and the keys of elicitations. *)
Inductive PromptKind := ExecCall | PatchCall | PermissionsCall | InputCall.
#[global] Instance PromptKind_eq_dec : EqDecision PromptKind.
Proof. solve_decision. Defined.

Definition call_of (r : ServerRequest) : option (PromptKind * rstring * rstring) :=
  match r with
  | CommandExecutionRequestApproval _ turn_id item_id approval_id => Some (ExecCall, turn_id, default item_id approval_id)
  | FileChangeRequestApproval _ turn_id item_id => Some (PatchCall, turn_id, item_id)
  | ToolRequestUserInput _ turn_id item_id => Some (InputCall, turn_id, item_id)
  | PermissionsRequestApproval _ turn_id item_id => Some (PermissionsCall, turn_id, item_id)
  | McpServerElicitationRequest _ _ | OtherServerRequest _ _ => None
  end.
Definition elicitation_of (r : ServerRequest) : option ElicitationRequestKey :=
  match r with McpServerElicitationRequest q server_name => Some (server_name, q) | _ => None end.
Definition server_request_id (r : ServerRequest) : RequestId :=
  match r with
  | CommandExecutionRequestApproval q _ _ _ | FileChangeRequestApproval q _ _ | McpServerElicitationRequest q _
  | ToolRequestUserInput q _ _ | PermissionsRequestApproval q _ _ | OtherServerRequest q _ => q
  end.
Definition is_prompt (k : PromptKind) (id : rstring) (r : ServerRequest) : bool :=
  match call_of r with Some (k', _, id') => bool_decide (k' = k) && str_eqb id' id | None => false end.
Definition in_turn (turn_id : rstring) (r : ServerRequest) : bool :=
  match call_of r with Some (_, t, _) => str_eqb t turn_id | None => false end.
(** The id of an input of the turn. *)
Definition input_in (turn_id : rstring) (r : ServerRequest) : option rstring :=
  match call_of r with
  | Some (k, t, id) => if bool_decide (k = InputCall) && str_eqb t turn_id then Some id else None
  | None => None
  end.

(** The prompts that a command answers: that of its id, or the oldest input of its turn. *)
Definition answered (op : AppCommand) (pending : list ServerRequest) : ServerRequest → bool :=
  match op with
  | ExecApproval id _ => is_prompt ExecCall id
  | PatchApproval id => is_prompt PatchCall id
  | RequestPermissionsResponse id => is_prompt PermissionsCall id
  | ResolveElicitation server_name q => λ r, bool_decide (elicitation_of r = Some (server_name, q))
  | UserInputAnswer turn_id =>
      match List.find (λ r, bool_decide (is_Some (input_in turn_id r))) pending with
      | Some oldest => λ r, bool_decide (r = oldest)
      | None => λ _, false
      end
  | OtherAppCommand _ => λ _, false
  end.
(** The prompts that a notification settles. *)
Definition settles (n : ServerNotification) (r : ServerRequest) : bool :=
  match n with
  | ItemStarted _ (CommandExecution id) => is_prompt ExecCall id r
  | ItemStarted _ (FileChange id) => is_prompt PatchCall id r
  | TurnCompleted turn_id => in_turn turn_id r
  | ServerRequestResolved q => bool_decide (server_request_id r = q) && bool_decide (is_Some (pending_request r))
  | ThreadClosed => bool_decide (is_Some (pending_request r))
  | _ => false
  end.
Definition unless (D : ServerRequest → bool) (pending : list ServerRequest) : list ServerRequest :=
  List.filter (λ r, negb (D r)) pending.

(** ** The calls of a kind *)
Definition kind_calls (k : PromptKind) (s : PendingInteractiveReplayState) : PendingCalls :=
  match k with
  | ExecCall => exec_approvals s
  | PatchCall => patch_approvals s
  | PermissionsCall => request_permissions s
  | InputCall => request_user_inputs s
  end.
Definition turn_calls (c : PendingCalls) (t : rstring) : list rstring := default [] (call_ids_by_turn_id c !! t).

Lemma elem_unless D pending r : r ∈ unless D pending ↔ r ∈ pending ∧ D r = false.
Proof. unfold unless. by rewrite list_elem_of_In, List.filter_In, <- list_elem_of_In, negb_true_iff. Qed.

Lemma unless_nodup D pending : NoDup pending → NoDup (unless D pending).
Proof. intros H. apply NoDup_ListNoDup, List.NoDup_filter. by apply NoDup_ListNoDup. Qed.

Lemma elem_without x id ids : x ∈ without id ids ↔ x ∈ ids ∧ x ≠ id.
Proof.
  unfold without, str_eqb. by rewrite list_elem_of_In, List.filter_In, <- list_elem_of_In, negb_true_iff, bool_decide_eq_false.
Qed.

Lemma turn_calls_add t id c t' :
  turn_calls (add_call t id c) t' = if bool_decide (t' = t) then turn_calls c t ++ [id] else turn_calls c t'.
Proof.
  unfold turn_calls, add_call. cbn. case_bool_decide as E; [subst; by rewrite lookup_insert_eq|by rewrite lookup_insert_ne].
Qed.

Lemma is_empty_default (ids : list rstring) : default [] (if is_empty ids then None else Some ids) = ids.
Proof. by destruct ids. Qed.

Lemma turn_calls_remove id c t : turn_calls (remove_call id c) t = without id (turn_calls c t).
Proof.
  unfold turn_calls, remove_call, remove_call_id_from_turn_map. cbn. rewrite lookup_omap.
  destruct (call_ids_by_turn_id c !! t) as [ids|]; cbn; [apply is_empty_default|done].
Qed.

Lemma turn_calls_remove_in t id c t' :
  turn_calls (remove_call_in_turn t id c) t' = if bool_decide (t' = t) then without id (turn_calls c t') else turn_calls c t'.
Proof.
  unfold turn_calls, remove_call_in_turn, remove_call_id_from_turn_map_entry. cbn. case_bool_decide as E.
  - subst. destruct (call_ids_by_turn_id c !! t) as [ids|] eqn:Ht; cbn; [|by rewrite Ht].
    destruct (without id ids) eqn:Hw; cbn; [by rewrite lookup_delete_eq|by rewrite lookup_insert_eq].
  - destruct (call_ids_by_turn_id c !! t) as [ids|]; cbn; [|done].
    destruct (is_empty (without id ids)); [by rewrite lookup_delete_ne|by rewrite lookup_insert_ne].
Qed.

Lemma turn_calls_clear t c t' : turn_calls (clear_calls t c) t' = if bool_decide (t' = t) then [] else turn_calls c t'.
Proof.
  unfold turn_calls, clear_calls. destruct (call_ids_by_turn_id c !! t) as [ids|] eqn:Ht; cbn; case_bool_decide as E; subst.
  - by rewrite lookup_delete_eq.
  - by rewrite lookup_delete_ne.
  - by rewrite Ht.
  - done.
Qed.

Lemma call_ids_clear t c : call_ids (clear_calls t c) = call_ids c ∖ list_to_set (turn_calls c t).
Proof.
  unfold turn_calls, clear_calls. destruct (call_ids_by_turn_id c !! t); cbn; [done|]. set_solver.
Qed.

(** Ids are not used twice. *)
Definition distinct_ids (H : list ServerRequest) : Prop :=
  NoDup H ∧
  (∀ r r', r ∈ H → r' ∈ H → server_request_id r = server_request_id r' → r = r') ∧
  (∀ r r' k t t' id, r ∈ H → r' ∈ H → call_of r = Some (k, t, id) → call_of r' = Some (k, t', id) → r = r').

(** The pending calls of a kind are those in the set; the index of turns has them all, and
    nothing that was not requested. *)
Record calls_ok (k : PromptKind) (H P : list ServerRequest) (c : PendingCalls) : Prop := {
  calls_ids id : id ∈ call_ids c ↔ ∃ r t, r ∈ P ∧ call_of r = Some (k, t, id);
  calls_requested t id : id ∈ turn_calls c t → ∃ r, r ∈ H ∧ call_of r = Some (k, t, id);
  calls_indexed r t id : r ∈ P → call_of r = Some (k, t, id) → id ∈ turn_calls c t;
}.

Lemma calls_keep k H P D c :
  calls_ok k H P c → (∀ r t id, r ∈ P → call_of r = Some (k, t, id) → D r = false) → calls_ok k H (unless D P) c.
Proof.
  intros [H1 H2 H3] HD. split; [|done|].
  - intros id. rewrite H1. split; intros (r & t & Hr & Hc); exists r, t; (split; [|done]); [apply elem_unless; eauto|by apply elem_unless in Hr as [? _]].
  - intros r t id [Hr _]%elem_unless. by apply H3.
Qed.

Lemma calls_drop k H P D id c c' :
  calls_ok k H P c → (∀ r t x, r ∈ P → call_of r = Some (k, t, x) → D r = true ↔ x = id) →
  call_ids c' = call_ids c ∖ {[ id ]} →
  (∀ t x, x ∈ turn_calls c' t → x ∈ turn_calls c t) → (∀ t x, x ∈ turn_calls c t → x ≠ id → x ∈ turn_calls c' t) →
  calls_ok k H (unless D P) c'.
Proof.
  intros [H1 H2 H3] HD Hids Hsub Hkeep. split.
  - intros x. rewrite Hids, elem_of_difference, elem_of_singleton, H1. split.
    + intros [(r & t & Hr & Hc) Hx]. exists r, t. split; [|done]. apply elem_unless. split; [done|].
      apply not_true_iff_false. by rewrite HD.
    + intros (r & t & [Hr Hd]%elem_unless & Hc). split; [by eauto|]. intros ->. apply not_true_iff_false in Hd. apply Hd. by eapply HD.
  - intros t x Hx%Hsub. by apply H2.
  - intros r t x [Hr Hd]%elem_unless Hc. apply Hkeep; [by eapply H3|]. intros ->. apply not_true_iff_false in Hd. apply Hd. by eapply HD.
Qed.

Lemma calls_clear k H P D t c :
  distinct_ids H → (∀ r, r ∈ P → r ∈ H) → calls_ok k H P c →
  (∀ r t' x, r ∈ P → call_of r = Some (k, t', x) → D r = true ↔ t' = t) → calls_ok k H (unless D P) (clear_calls t c).
Proof.
  intros (_ & _ & Hu) HP [H1 H2 H3] HD. split.
  - intros x. rewrite call_ids_clear, elem_of_difference, elem_of_list_to_set, H1. split.
    + intros [(r & t' & Hr & Hc) Hx]. exists r, t'. split; [|done]. apply elem_unless. split; [done|].
      apply not_true_iff_false. rewrite (HD _ _ _ Hr Hc). intros ->. by apply Hx, (H3 r).
    + intros (r & t' & [Hr Hd]%elem_unless & Hc). split; [by eauto|]. intros (r2 & Hr2 & Hc2)%H2.
      assert (r = r2) as -> by (eapply Hu; eauto). assert (t' = t) as -> by congruence.
      apply not_true_iff_false in Hd. apply Hd. by eapply HD.
  - intros t' x. rewrite turn_calls_clear. case_bool_decide; [by intros ?%not_elem_of_nil|apply H2].
  - intros r t' x [Hr Hd]%elem_unless Hc. rewrite turn_calls_clear. case_bool_decide as E; [|by eapply H3].
    subst t'. apply not_true_iff_false in Hd. destruct Hd. by eapply HD.
Qed.

Lemma calls_add k H P r t id c :
  calls_ok k H P c → call_of r = Some (k, t, id) → calls_ok k (H ++ [r]) (P ++ [r]) (add_call t id c).
Proof.
  intros [H1 H2 H3] Hc. split.
  - intros x. cbn. rewrite elem_of_union, elem_of_singleton, H1. split.
    + intros [->|(r' & t' & Hr & Hc')]; [exists r, t|exists r', t']; rewrite elem_of_app, list_elem_of_singleton; auto.
    + intros (r' & t' & [Hr| ->%list_elem_of_singleton]%elem_of_app & Hc'); [by eauto|left; congruence].
  - intros t' x. rewrite turn_calls_add. case_bool_decide as E.
    + subst. intros [Hx| ->%list_elem_of_singleton]%elem_of_app.
      * destruct (H2 t x Hx) as (r' & ? & ?). exists r'. rewrite elem_of_app. auto.
      * exists r. rewrite elem_of_app, list_elem_of_singleton. auto.
    + intros (r' & ? & ?)%H2. exists r'. rewrite elem_of_app. auto.
  - intros r' t' x [Hr| ->%list_elem_of_singleton]%elem_of_app Hc'; rewrite turn_calls_add.
    + pose proof (H3 _ _ _ Hr Hc'). case_bool_decide; subst; [apply elem_of_app; by left|done].
    + assert (t' = t ∧ x = id) as [-> ->] by (split; congruence). rewrite bool_decide_eq_true_2 by done.
      apply elem_of_app. right. by left.
Qed.

Lemma calls_other k H P r c :
  calls_ok k H P c → (∀ t id, call_of r ≠ Some (k, t, id)) → calls_ok k (H ++ [r]) (P ++ [r]) c.
Proof.
  intros [H1 H2 H3] Hc. split.
  - intros x. rewrite H1. split.
    + intros (r' & t' & Hr & Hc'). exists r', t'. rewrite elem_of_app. auto.
    + intros (r' & t' & [Hr| ->%list_elem_of_singleton]%elem_of_app & Hc'); [by eauto|by destruct (Hc t' x)].
  - intros t' x (r' & ? & ?)%H2. exists r'. rewrite elem_of_app. auto.
  - intros r' t' x [Hr| ->%list_elem_of_singleton]%elem_of_app Hc'; [by eapply H3|by destruct (Hc t' x)].
Qed.

(** ** The invariant *)
Record replay_ok (H P : list ServerRequest) (s : PendingInteractiveReplayState) : Prop := {
  replay_calls k : calls_ok k H P (kind_calls k s);
  replay_order t : turn_calls (request_user_inputs s) t = omap (input_in t) P;
  replay_elicitations key : key ∈ elicitation_requests s ↔ ∃ r, r ∈ P ∧ elicitation_of r = Some key;
  replay_index r q e : r ∈ P → pending_request r = Some (q, e) → pending_requests_by_request_id s !! q = Some e;
  replay_known q e : pending_requests_by_request_id s !! q = Some e → ∃ r, r ∈ H ∧ pending_request r = Some (q, e);
  replay_requested r : r ∈ P → r ∈ H;
  replay_nodup : NoDup P;
}.

Definition with_calls (k : PromptKind) : (PendingCalls → PendingCalls) → PendingInteractiveReplayState → PendingInteractiveReplayState :=
  match k with
  | ExecCall => with_exec
  | PatchCall => with_patch
  | PermissionsCall => with_permissions
  | InputCall => with_inputs
  end.

Lemma without_absent id ids : id ∉ ids → without id ids = ids.
Proof.
  induction ids as [|x ids IH]; [done|]. intros [Hx Hids]%not_elem_of_cons. cbn. unfold str_eqb.
  rewrite bool_decide_eq_false_2 by congruence. cbn. f_equal. by apply IH.
Qed.

Lemma without_head id ids : id ∉ ids → without id (id :: ids) = ids.
Proof. intros Hid. cbn. unfold str_eqb. rewrite bool_decide_eq_true_2 by done. by apply without_absent. Qed.

Lemma input_in_call t r id : input_in t r = Some id ↔ call_of r = Some (InputCall, t, id).
Proof.
  unfold input_in, str_eqb. destruct (call_of r) as [[[k t'] id']|]; [|done].
  destruct (bool_decide_reflect (k = InputCall)), (bool_decide_reflect (t' = t)); cbn; split; congruence.
Qed.

Lemma order_drop t id D P :
  (∀ r x, r ∈ P → input_in t r = Some x → D r = true ↔ x = id) → omap (input_in t) (unless D P) = without id (omap (input_in t) P).
Proof.
  induction P as [|r P IH]; intros HD; [done|]. cbn [unless List.filter omap list_omap].
  assert (omap (input_in t) (unless D P) = without id (omap (input_in t) P)) as IH' by (apply IH; intros r' x Hr; apply HD; by right).
  specialize (HD r). destruct (input_in t r) as [x|] eqn:Hx.
  - specialize (HD x ltac:(by left) eq_refl). cbn [without List.filter]. unfold str_eqb at 1.
    destruct (bool_decide_reflect (x = id)) as [->|Hne]; cbn [negb].
    + rewrite (proj2 HD eq_refl). exact IH'.
    + assert (D r = false) as -> by (apply not_true_iff_false; tauto). cbn [negb]. cbn. rewrite Hx. f_equal. exact IH'.
  - destruct (D r); cbn [negb]; [exact IH'|]. cbn. rewrite Hx. exact IH'.
Qed.

Lemma order_keep t D P : (∀ r x, r ∈ P → input_in t r = Some x → D r = false) → omap (input_in t) (unless D P) = omap (input_in t) P.
Proof.
  induction P as [|r P IH]; intros HD; [done|]. cbn [unless List.filter].
  assert (omap (input_in t) (unless D P) = omap (input_in t) P) as IH' by (apply IH; intros r' x Hr; apply HD; by right).
  specialize (HD r). cbn [omap list_omap]. destruct (input_in t r) as [x|] eqn:Hx.
  - rewrite (HD x ltac:(by left) eq_refl). cbn. rewrite Hx. f_equal. exact IH'.
  - destruct (D r); cbn; [exact IH'|]. rewrite Hx. exact IH'.
Qed.

Lemma elicitations_keep (D : ServerRequest → bool) (P : list ServerRequest) (keys : gset ElicitationRequestKey) :
  (∀ key : ElicitationRequestKey, key ∈ keys ↔ ∃ r, r ∈ P ∧ elicitation_of r = Some key) →
  (∀ r key, r ∈ P → elicitation_of r = Some key → D r = false) →
  ∀ key : ElicitationRequestKey, key ∈ keys ↔ ∃ r, r ∈ unless D P ∧ elicitation_of r = Some key.
Proof.
  intros Hk HD key. rewrite Hk. split; intros (r & Hr & He); exists r; rewrite elem_unless in *; naive_solver.
Qed.

Lemma elicitation_no_call r key : elicitation_of r = Some key → call_of r = None.
Proof. by destruct r. Qed.

(** A call is dropped from its kind and from the index of requests. *)
Lemma replay_drop_call H P s k id f m' D :
  replay_ok H P s →
  (∀ r t x, r ∈ P → call_of r = Some (k, t, x) → D r = true ↔ x = id) →
  (∀ r, r ∈ P → (∀ t x, call_of r ≠ Some (k, t, x)) → D r = false) →
  call_ids (f (kind_calls k s)) = call_ids (kind_calls k s) ∖ {[ id ]} →
  (∀ t x, x ∈ turn_calls (f (kind_calls k s)) t → x ∈ turn_calls (kind_calls k s) t) →
  (∀ t x, x ∈ turn_calls (kind_calls k s) t → x ≠ id → x ∈ turn_calls (f (kind_calls k s)) t) →
  (k = InputCall → ∀ t, turn_calls (f (kind_calls k s)) t = without id (turn_calls (kind_calls k s) t)) →
  (∀ q e, m' !! q = Some e → pending_requests_by_request_id s !! q = Some e) →
  (∀ r q e, r ∈ P → D r = false → pending_request r = Some (q, e) → pending_requests_by_request_id s !! q = Some e → m' !! q = Some e) →
  replay_ok H (unless D P) (with_pending (λ _, m') (with_calls k f s)).
Proof.
  intros [Hc Ho He Hi Hk Hr Hnd] HD HDn Hids Hsub Hkeep Hin Hm Hm'.
  assert (∀ k', k' ≠ k → kind_calls k' (with_pending (λ _, m') (with_calls k f s)) = kind_calls k' s) as Hother by (by destruct k, k').
  assert (kind_calls k (with_pending (λ _, m') (with_calls k f s)) = f (kind_calls k s)) as Hsame by (by destruct k).
  assert (∀ r k' t x, k' ≠ k → r ∈ P → call_of r = Some (k', t, x) → D r = false) as HDo by (intros r k' t x Hne Hr' Hc'; apply HDn; [done|congruence]).
  split.
  - intros k'. destruct (decide (k' = k)) as [->|Hne]; [rewrite Hsame|rewrite Hother by done].
    + by eapply calls_drop.
    + apply calls_keep; [apply Hc|]. intros r t x Hr' Hc'. by eapply HDo.
  - intros t. change (turn_calls (kind_calls InputCall (with_pending (λ _, m') (with_calls k f s))) t = omap (input_in t) (unless D P)).
    destruct (decide (k = InputCall)) as [->|Hne].
    + rewrite Hsame, Hin by done. cbn [kind_calls]. rewrite Ho. symmetry. apply order_drop. intros r x Hr' Hc'%input_in_call. by eapply HD.
    + rewrite Hother by done. cbn [kind_calls]. rewrite Ho. symmetry. apply order_keep. intros r x Hr' Hc'%input_in_call. by eapply HDo.
  - assert (elicitation_requests (with_pending (λ _, m') (with_calls k f s)) = elicitation_requests s) as -> by (by destruct k).
    apply elicitations_keep; [done|]. intros r key Hr' Hkey. apply HDn; [done|]. intros t x. by rewrite (elicitation_no_call r key).
  - intros r q e [Hr' Hd]%elem_unless Hp. assert (pending_requests_by_request_id (with_pending (λ _, m') (with_calls k f s)) = m') as -> by (by destruct k).
    eapply Hm'; eauto.
  - assert (pending_requests_by_request_id (with_pending (λ _, m') (with_calls k f s)) = m') as -> by (by destruct k). intros q e ?%Hm. by apply Hk.
  - intros r [Hr' _]%elem_unless. by apply Hr.
  - by apply unless_nodup.
Qed.

Lemma drop_pending_sub D m q e : drop_pending D m !! q = Some e → m !! q = Some e.
Proof. unfold drop_pending. rewrite lookup_omap. destruct (m !! q) as [e'|]; cbn; [|done]. destruct (D e'); congruence. Qed.
Lemma drop_pending_keep D m q e : m !! q = Some e → D e = false → drop_pending D m !! q = Some e.
Proof. intros H1 H2. unfold drop_pending. rewrite lookup_omap, H1. cbn. by rewrite H2. Qed.

Lemma is_prompt_true k id r : is_prompt k id r = true ↔ ∃ t, call_of r = Some (k, t, id).
Proof.
  unfold is_prompt, str_eqb. destruct (call_of r) as [[[k' t] id']|]; [|split; [done|by intros [? ?]]].
  rewrite andb_true_iff, !bool_decide_eq_true. split; [intros [-> ->]; by exists t|intros [t' [= -> -> ->]]; done].
Qed.
Lemma is_prompt_same k id r t x : call_of r = Some (k, t, x) → is_prompt k id r = true ↔ x = id.
Proof. intros Hc. rewrite is_prompt_true, Hc. split; [by intros [? [= ? ?]]|intros ->; by exists t]. Qed.
Lemma is_prompt_other k id r : (∀ t x, call_of r ≠ Some (k, t, x)) → is_prompt k id r = false.
Proof. intros Hc. apply not_true_iff_false. intros [t Ht]%is_prompt_true. by apply (Hc t id). Qed.

Lemma remove_call_sub id c t x : x ∈ turn_calls (remove_call id c) t → x ∈ turn_calls c t.
Proof. rewrite turn_calls_remove, elem_without. by intros [? _]. Qed.
Lemma remove_call_keep id c t x : x ∈ turn_calls c t → x ≠ id → x ∈ turn_calls (remove_call id c) t.
Proof. rewrite turn_calls_remove, elem_without. done. Qed.
Lemma remove_in_turn_sub t0 id c t x : x ∈ turn_calls (remove_call_in_turn t0 id c) t → x ∈ turn_calls c t.
Proof. rewrite turn_calls_remove_in. case_bool_decide; [rewrite elem_without; by intros [? _]|done]. Qed.
Lemma remove_in_turn_keep t0 id c t x : x ∈ turn_calls c t → x ≠ id → x ∈ turn_calls (remove_call_in_turn t0 id c) t.
Proof. rewrite turn_calls_remove_in. case_bool_decide; [by rewrite elem_without|done]. Qed.

(** The entry of a call in the index of requests. *)
Definition pending_call (k : PromptKind) (t id : rstring) : PendingInteractiveRequest :=
  match k with
  | ExecCall => PendingExecApproval t id
  | PatchCall => PendingPatchApproval t id
  | PermissionsCall => PendingRequestPermissions t id
  | InputCall => PendingRequestUserInput t id
  end.

Lemma pending_request_call r k t id q : pending_request r = Some (q, pending_call k t id) ↔ call_of r = Some (k, t, id) ∧ q = server_request_id r.
Proof.
  destruct r, k; cbn; split; try (by intros []); try done; try (by intros [[= <- <-] ->]); try (by intros [= <- <- <-]).
Qed.
Lemma pending_request_id r q e : pending_request r = Some (q, e) → q = server_request_id r.
Proof. destruct r; cbn; congruence. Qed.
Lemma pending_request_elicitation r key q : pending_request r = Some (q, PendingElicitation key) ↔ elicitation_of r = Some key ∧ q = server_request_id r.
Proof. destruct r; cbn; split; try done; try (by intros []); [by intros [= <- <-]|by intros [[= <-] ->]]. Qed.
Lemma pending_request_kinds r : pending_request r = None ∨ (∃ key q, pending_request r = Some (q, PendingElicitation key)) ∨
  ∃ k t id q, pending_request r = Some (q, pending_call k t id).
Proof.
  destruct r as [q t i a|q t i|q n|q t i|q t i|]; [right; right|right; right|right; left; by eauto|right; right..|by left].
  - by exists ExecCall, t, (default i a), q.
  - by exists PatchCall, t, i, q.
  - by exists InputCall, t, i, q.
  - by exists PermissionsCall, t, i, q.
Qed.

(** ** Commands *)
Lemma drop_matching_call k id r q e :
  is_prompt k id r = false → pending_request r = Some (q, e) → ∀ t, e ≠ pending_call k t id.
Proof.
  intros Hd Hp t ->. apply pending_request_call in Hp as [Hc _]. apply not_true_iff_false in Hd. apply Hd, is_prompt_true. by exists t.
Qed.

Lemma answer_call H P s k id f g :
  replay_ok H P s →
  call_ids (f (kind_calls k s)) = call_ids (kind_calls k s) ∖ {[ id ]} →
  (∀ t x, x ∈ turn_calls (f (kind_calls k s)) t → x ∈ turn_calls (kind_calls k s) t) →
  (∀ t x, x ∈ turn_calls (kind_calls k s) t → x ≠ id → x ∈ turn_calls (f (kind_calls k s)) t) → k ≠ InputCall →
  (∀ e, g e = true → ∃ t, e = pending_call k t id) →
  replay_ok H (unless (is_prompt k id) P) (with_pending (drop_pending g) (with_calls k f s)).
Proof.
  intros Hok H1 H2 H3 Hk Hg.
  assert (with_pending (drop_pending g) (with_calls k f s) =
          with_pending (λ _, drop_pending g (pending_requests_by_request_id s)) (with_calls k f s)) as -> by (by destruct k).
  apply (replay_drop_call H P s k id); try done.
  - intros r t x _. apply is_prompt_same.
  - intros r _. apply is_prompt_other.
  - intros q e. apply drop_pending_sub.
  - intros r q e Hr Hd Hp Hm. apply drop_pending_keep; [done|]. apply not_true_iff_false. intros [t ->]%Hg.
    by apply (drop_matching_call k id r q _ Hd Hp t).
Qed.

Lemma unless_false P : unless (λ _, false) P = P.
Proof. induction P as [|r P IH]; [done|]. cbn. f_equal. exact IH. Qed.

Lemma unless_ext D D' P : (∀ r, r ∈ P → D r = D' r) → unless D P = unless D' P.
Proof.
  intros HD. unfold unless. induction P as [|r P IH]; [done|]. cbn. rewrite (HD r) by (by left).
  rewrite IH by (intros r' Hr'; apply HD; by right). done.
Qed.

(** The oldest input of a turn. *)
Lemma oldest_input t P :
  match omap (input_in t) P with
  | [] => List.find (λ r, bool_decide (is_Some (input_in t r))) P = None
  | id :: _ => ∃ r, List.find (λ r, bool_decide (is_Some (input_in t r))) P = Some r ∧ r ∈ P ∧ input_in t r = Some id
  end.
Proof.
  induction P as [|r P IH]; [done|]. cbn [omap list_omap List.find]. destruct (input_in t r) as [id|] eqn:Hid.
  - cbn. exists r. split_and!; [done|by left|done].
  - cbn. destruct (omap (input_in t) P) as [|id ids]; [done|].
    destruct IH as (r' & ? & ? & ?). exists r'. split_and!; [done|by right|done].
Qed.

Lemma inputs_nodup H t P : distinct_ids H → (∀ r, r ∈ P → r ∈ H) → NoDup P → NoDup (omap (input_in t) P).
Proof.
  intros (_ & _ & Hu) HP. induction P as [|r P IH]; intros Hnd; [constructor|]. apply NoDup_cons in Hnd as [Hr Hnd].
  assert (NoDup (omap (input_in t) P)) as IH' by (apply IH; [intros r' Hr'; apply HP; by right|done]).
  cbn. destruct (input_in t r) as [id|] eqn:Hid; [|done]. apply NoDup_cons. split; [|done].
  intros (r' & Hr' & Hid')%list_elem_of_omap. apply input_in_call in Hid, Hid'. apply Hr.
  replace r with r'; [done|]. eapply Hu; eauto; apply HP; [by right|by left].
Qed.

Lemma answer_input H P s t :
  distinct_ids H → replay_ok H P s →
  replay_ok H (unless (answered (UserInputAnswer t) P) P) (note_outbound_op (UserInputAnswer t) s).
Proof.
  intros Hu Hok. pose proof (replay_order _ _ _ Hok t) as Ho. pose proof (oldest_input t P) as Hold. cbn [answered note_outbound_op].
  unfold turn_calls in Ho. destruct (call_ids_by_turn_id (request_user_inputs s) !! t) as [[|id rest]|] eqn:Ht; cbn in Ho; rewrite <- Ho in Hold.
  - rewrite Hold, unless_false. destruct Hok as [Hc Hor He Hi Hk Hr Hnd].
    assert (∀ t', turn_calls (mkCalls (call_ids (request_user_inputs s)) (delete t (call_ids_by_turn_id (request_user_inputs s)))) t' =
      turn_calls (request_user_inputs s) t') as Hsame.
    { intros t'. unfold turn_calls. cbn. destruct (decide (t' = t)) as [->|]; [by rewrite lookup_delete_eq, Ht|by rewrite lookup_delete_ne]. }
    split; try done; [|intros t'; cbn; by rewrite Hsame]. intros k. specialize (Hc k). destruct k; try done.
    destruct Hc as [C1 C2 C3]. split; [done|intros t' x; cbn; rewrite Hsame; apply C2|intros r t' x; cbn; rewrite Hsame; apply C3].
  - destruct Hold as (r0 & -> & Hr0 & Hid0). pose proof Hu as (_ & _ & Hcall). pose proof Hid0 as Hc0%input_in_call.
    pose proof (inputs_nodup H t P Hu (replay_requested _ _ _ Hok) (replay_nodup _ _ _ Hok)) as Hnd. rewrite <- Ho in Hnd. apply NoDup_cons in Hnd as [Hx _].
    set (f := λ c : PendingCalls, mkCalls (call_ids c ∖ {[ id ]})
      (if is_empty rest then delete t (call_ids_by_turn_id c) else <[t := rest]> (call_ids_by_turn_id c))).
    assert (∀ t', turn_calls (f (kind_calls InputCall s)) t' = without id (turn_calls (kind_calls InputCall s) t')) as Hf.
    { intros t'. destruct (decide (t' = t)) as [->|Hne]; unfold turn_calls at 1, f; cbn.
      - transitivity rest; [by destruct rest; cbn; [rewrite lookup_delete_eq|rewrite lookup_insert_eq]|].
        unfold turn_calls. cbn [kind_calls]. rewrite Ht. symmetry. exact (without_head id rest Hx).
      - transitivity (turn_calls (request_user_inputs s) t').
        { unfold turn_calls. destruct (is_empty rest); [by rewrite lookup_delete_ne|by rewrite lookup_insert_ne]. }
        rewrite without_absent; [done|]. intros Hin. rewrite (replay_order _ _ _ Hok) in Hin.
        apply list_elem_of_omap in Hin as (r1 & Hr1 & Hid1%input_in_call).
        assert (r1 = r0) as -> by (eapply Hcall; eauto; by eapply replay_requested). congruence. }
    change (replay_ok H (unless (λ r, bool_decide (r = r0)) P) (with_pending (λ _, drop_pending
      (λ e, match e with PendingRequestUserInput _ item_id => str_eqb item_id id | _ => false end) (pending_requests_by_request_id s)) (with_calls InputCall f s))).
    assert (∀ r t' x, r ∈ P → call_of r = Some (InputCall, t', x) → bool_decide (r = r0) = true ↔ x = id) as HD.
    { intros r t' x Hr Hc. rewrite bool_decide_eq_true. split; [intros ->; congruence|]. intros ->.
      eapply Hcall; eauto; by eapply replay_requested. }
    apply (replay_drop_call H P s InputCall id); try done.
    + intros r Hr Hno. apply bool_decide_eq_false. intros ->. by apply (Hno t id).
    + intros t' x. rewrite Hf, elem_without. by intros [? _].
    + intros t' x. rewrite Hf, elem_without. done.
    + intros q e. apply drop_pending_sub.
    + intros r q e Hr Hd Hp Hm. apply drop_pending_keep; [done|]. apply not_true_iff_false. intros He.
      destruct e as [| | | |t' x]; try done. apply bool_decide_eq_true in He as ->.
      apply (pending_request_call r InputCall) in Hp as [Hc _]. rewrite (proj2 (HD r t' id Hr Hc) eq_refl) in Hd. done.
  - by rewrite Hold, unless_false.
Qed.

(** An elicitation is dropped. *)
Lemma replay_drop_elicitation H P s key m' D :
  replay_ok H P s →
  (∀ r x, r ∈ P → elicitation_of r = Some x → D r = true ↔ x = key) →
  (∀ r, r ∈ P → elicitation_of r = None → D r = false) →
  (∀ q e, m' !! q = Some e → pending_requests_by_request_id s !! q = Some e) →
  (∀ r q e, r ∈ P → D r = false → pending_request r = Some (q, e) → pending_requests_by_request_id s !! q = Some e → m' !! q = Some e) →
  replay_ok H (unless D P) (with_pending (λ _, m') (with_elicitations (λ keys, keys ∖ {[ key ]}) s)).
Proof.
  intros [Hc Ho He Hi Hk Hr Hnd] HD HDn Hm Hm'.
  assert (∀ r k t x, r ∈ P → call_of r = Some (k, t, x) → D r = false) as HDc by (intros r k t x Hr' Hc'; apply HDn; [done|by destruct r]).
  split; cbn.
  - intros k. assert (kind_calls k (with_pending (λ _, m') (with_elicitations (λ keys, keys ∖ {[ key ]}) s)) = kind_calls k s) as -> by (by destruct k).
    apply calls_keep; [apply Hc|]. intros r t x. apply HDc.
  - intros t. rewrite Ho. symmetry. apply order_keep. intros r x Hr' Hc'%input_in_call. by eapply HDc.
  - intros x. rewrite elem_of_difference, elem_of_singleton, He. split.
    + intros [(r & Hr' & Hx) Hne]. exists r. rewrite elem_unless. split_and!; [done| |done]. apply not_true_iff_false. by rewrite (HD r x).
    + intros (r & [Hr' Hd]%elem_unless & Hx). split; [by eauto|]. intros ->. apply not_true_iff_false in Hd. apply Hd. by eapply HD.
  - intros r q e [Hr' Hd]%elem_unless Hp. eapply Hm'; eauto.
  - intros q e ?%Hm. by apply Hk.
  - intros r [Hr' _]%elem_unless. by apply Hr.
  - by apply unless_nodup.
Qed.

Lemma op_replay H P s op :
  distinct_ids H → replay_ok H P s → replay_ok H (unless (answered op P) P) (note_outbound_op op s).
Proof.
  intros Hu Hok. destruct op as [id turn|id|server q|id|t|payload].
  - apply (answer_call H P s ExecCall id (λ c, match turn with Some turn => remove_call_in_turn turn id c | None => _ end)); try done.
    + by destruct turn.
    + destruct turn as [turn|]; [apply remove_in_turn_sub|done].
    + destruct turn as [turn|]; [apply remove_in_turn_keep|done].
    + intros [t x| | | |] He; try done. apply bool_decide_eq_true in He as ->. by exists t.
  - apply (answer_call H P s PatchCall id (remove_call id)); try done; [apply remove_call_sub|apply remove_call_keep|].
    intros [|t x| | |] He; try done. apply bool_decide_eq_true in He as ->. by exists t.
  - apply (replay_drop_elicitation H P s (server, q) _ _ Hok).
    + intros r x _ Hx. cbn. rewrite bool_decide_eq_true, Hx. split; congruence.
    + intros r _ Hx. cbn. apply bool_decide_eq_false. congruence.
    + intros q' e. apply drop_pending_sub.
    + intros r q' e Hr Hd Hp Hm. apply drop_pending_keep; [done|]. apply not_true_iff_false. intros He. destruct e as [| |key| |]; try done.
      apply bool_decide_eq_true in He as ->. apply pending_request_elicitation in Hp as [Hx _]. cbn in Hd. by rewrite bool_decide_eq_true_2 in Hd.
  - apply (answer_call H P s PermissionsCall id (remove_call id)); try done; [apply remove_call_sub|apply remove_call_keep|].
    intros [| | |t x|] He; try done. apply bool_decide_eq_true in He as ->. by exists t.
  - by apply answer_input.
  - cbn. by rewrite unless_false.
Qed.

(** ** Notifications *)
Lemma started_replay H P s k id :
  k ≠ InputCall → replay_ok H P s → replay_ok H (unless (is_prompt k id) P) (with_calls k (remove_call id) s).
Proof.
  intros Hk Hok.
  assert (with_calls k (remove_call id) s = with_pending (λ _, pending_requests_by_request_id s) (with_calls k (remove_call id) s)) as -> by (by destruct k).
  apply (replay_drop_call H P s k id); try done.
  - intros r t x _. apply is_prompt_same.
  - intros r _. apply is_prompt_other.
  - apply remove_call_sub.
  - apply remove_call_keep.
Qed.

Lemma in_turn_call t r k t' x : call_of r = Some (k, t', x) → in_turn t r = true ↔ t' = t.
Proof. intros Hc. unfold in_turn, str_eqb. by rewrite Hc, bool_decide_eq_true. Qed.

Lemma turn_replay H P s t : distinct_ids H → replay_ok H P s → replay_ok H (unless (in_turn t) P) (clear_turn t s).
Proof.
  intros Hu [Hc Ho He Hi Hk Hr Hnd]. split.
  - intros k. assert (kind_calls k (clear_turn t s) = clear_calls t (kind_calls k s)) as -> by (by destruct k).
    apply calls_clear; [done|done|done|]. intros r t' x _. apply in_turn_call.
  - intros t'. change (turn_calls (clear_calls t (request_user_inputs s)) t' = omap (input_in t') (unless (in_turn t) P)).
    rewrite turn_calls_clear. case_bool_decide as E; [subst t'|rewrite Ho]; symmetry.
    + apply elem_of_nil_inv. intros x (r & [_ Hd]%elem_unless & Hx%input_in_call)%list_elem_of_omap.
      apply not_true_iff_false in Hd. apply Hd. by eapply in_turn_call.
    + apply order_keep. intros r x _ Hx%input_in_call. apply not_true_iff_false. by rewrite (in_turn_call t r _ _ _ Hx).
  - apply elicitations_keep; [done|]. intros r key _ Hkey. unfold in_turn. by rewrite (elicitation_no_call r key).
  - intros r q e [Hr' Hd]%elem_unless Hp. apply drop_pending_keep; [by eapply Hi|]. apply not_true_iff_false. intros Hm.
    apply not_true_iff_false in Hd. apply Hd. destruct (pending_request_kinds r) as [E|[(key & q' & E)|(k & t' & x & q' & E)]]; rewrite E in Hp; simplify_eq.
    pose proof E as [Hcall _]%pending_request_call. apply (in_turn_call t r k t' x Hcall). unfold pending_call in Hm.
    destruct k; by apply bool_decide_eq_true in Hm.
  - intros q e ?%drop_pending_sub. by apply Hk.
  - intros r [Hr' _]%elem_unless. by apply Hr.
  - by apply unless_nodup.
Qed.

(** A request that was made is dropped, with its entry in the index. *)
Lemma drop_request_replay H P s r0 m' :
  distinct_ids H → replay_ok H P s → r0 ∈ H → is_Some (pending_request r0) →
  (∀ q e, m' !! q = Some e → pending_requests_by_request_id s !! q = Some e) →
  (∀ r q e, r ∈ P → r ≠ r0 → pending_request r = Some (q, e) → pending_requests_by_request_id s !! q = Some e → m' !! q = Some e) →
  replay_ok H (unless (λ r, bool_decide (r = r0)) P)
    (with_pending (λ _, m')
       match pending_request r0 with
       | Some (_, PendingExecApproval t id) => with_exec (remove_call_in_turn t id) s
       | Some (_, PendingPatchApproval t id) => with_patch (remove_call_in_turn t id) s
       | Some (_, PendingElicitation key) => with_elicitations (λ keys, keys ∖ {[ key ]}) s
       | Some (_, PendingRequestPermissions t id) => with_permissions (remove_call_in_turn t id) s
       | Some (_, PendingRequestUserInput t id) => with_inputs (remove_call_in_turn t id) s
       | None => s
       end).
Proof.
  intros Hu Hok Hr0 Hsome Hm Hm'. pose proof Hu as (_ & Hid & Hcall).
  assert (∀ r q e, r ∈ P → bool_decide (r = r0) = false → pending_request r = Some (q, e) →
    pending_requests_by_request_id s !! q = Some e → m' !! q = Some e) as Hm'' by (intros r q e ? ?%bool_decide_eq_false; by apply Hm').
  destruct (pending_request_kinds r0) as [E|[(key & q & E)|(k & t & id & q & E)]]; rewrite E in *; [by destruct Hsome| |].
  - apply pending_request_elicitation in E as [E _]. apply replay_drop_elicitation; try done.
    + intros r x Hr Hx. rewrite bool_decide_eq_true. split; [intros ->; congruence|]. intros ->.
      apply Hid; [by eapply replay_requested|done|]. destruct r, r0; cbn in *; congruence.
    + intros r Hr Hx. apply bool_decide_eq_false. congruence.
  - apply pending_request_call in E as [Hc _].
    assert (replay_ok H (unless (λ r, bool_decide (r = r0)) P) (with_pending (λ _, m') (with_calls k (remove_call_in_turn t id) s))) as Hgoal; [|by destruct k].
    apply (replay_drop_call H P s k id); try done.
    + intros r t' x Hr Hc'. rewrite bool_decide_eq_true. split; [intros ->; congruence|]. intros ->.
      eapply Hcall; eauto. by eapply replay_requested.
    + intros r Hr Hno. apply bool_decide_eq_false. intros ->. by apply (Hno t id).
    + apply remove_in_turn_sub.
    + apply remove_in_turn_keep.
    + intros -> t'. rewrite turn_calls_remove_in. case_bool_decide as E; [done|]. symmetry. apply without_absent. intros Hin.
      destruct (calls_requested _ _ _ _ (replay_calls _ _ _ Hok InputCall) _ _ Hin) as (r1 & Hr1 & Hc1).
      assert (r1 = r0) as -> by (eapply Hcall; eauto). congruence.
Qed.

Lemma resolved_replay H P s q :
  distinct_ids H → replay_ok H P s → replay_ok H (unless (settles (ServerRequestResolved q)) P) (remove_request q s).
Proof.
  intros Hu Hok. pose proof Hu as (_ & Hid & _). unfold remove_request.
  destruct (pending_requests_by_request_id s !! q) as [e|] eqn:Hq.
  - destruct (replay_known _ _ _ Hok q e Hq) as (r0 & Hr0 & Hp0). pose proof (pending_request_id _ _ _ Hp0) as Hq0.
    rewrite (unless_ext _ (λ r, bool_decide (r = r0))).
    + pose proof (drop_request_replay H P s r0 (delete q (pending_requests_by_request_id s)) Hu Hok Hr0) as Hd. rewrite Hp0 in Hd.
      assert (replay_ok H (unless (λ r, bool_decide (r = r0)) P) (with_pending (λ _, delete q (pending_requests_by_request_id s))
        match e with
        | PendingExecApproval t id => with_exec (remove_call_in_turn t id) s
        | PendingPatchApproval t id => with_patch (remove_call_in_turn t id) s
        | PendingElicitation key => with_elicitations (λ keys, keys ∖ {[ key ]}) s
        | PendingRequestPermissions t id => with_permissions (remove_call_in_turn t id) s
        | PendingRequestUserInput t id => with_inputs (remove_call_in_turn t id) s
        end)) as Hgoal; [|by destruct e].
      apply Hd.
      * by eexists.
      * intros q' e' ?%lookup_delete_Some. tauto.
      * intros r q' e' Hr Hne Hp Hl. rewrite lookup_delete_ne; [done|]. intros <-. apply Hne, Hid; [by eapply replay_requested|done|].
        pose proof (pending_request_id _ _ _ Hp). congruence.
    + intros r Hr. cbn [settles]. apply Bool.eq_true_iff_eq. rewrite andb_true_iff, !bool_decide_eq_true. split.
      * intros [E _]. apply Hid; [by eapply replay_requested|done|congruence].
      * intros ->. split; [congruence|]. rewrite Hp0. by eexists.
  - rewrite (unless_ext _ (λ _, false)); [by rewrite unless_false|]. intros r Hr. cbn [settles]. apply not_true_iff_false.
    rewrite andb_true_iff, !bool_decide_eq_true. intros [E [[q' e] Hp]]. pose proof (replay_index _ _ _ Hok r q' e Hr Hp) as Hl.
    rewrite (pending_request_id _ _ _ Hp), E in Hl. congruence.
Qed.

Lemma closed_replay H P s : replay_ok H P s → replay_ok H (unless (settles ThreadClosed) P) default_replay.
Proof.
  intros [_ _ _ _ _ Hr Hnd].
  assert (∀ r, r ∈ unless (settles ThreadClosed) P → pending_request r = None) as Hnone.
  { intros r [_ Hd]%elem_unless. apply bool_decide_eq_false in Hd. destruct (pending_request r); [by destruct Hd|done]. }
  assert (∀ r k t x, r ∈ unless (settles ThreadClosed) P → call_of r ≠ Some (k, t, x)) as Hnc.
  { intros r k t x Hin%Hnone Hc. by destruct r. }
  split.
  - intros k. assert (kind_calls k default_replay = no_calls) as -> by (by destruct k). split.
    + intros id. cbn. split; [by intros ?%not_elem_of_empty|]. intros (r & t & Hin & Hc). by destruct (Hnc r k t id).
    + intros t id. unfold turn_calls. cbn. rewrite lookup_empty. by intros ?%not_elem_of_nil.
    + intros r t id Hin Hc. by destruct (Hnc r k t id).
  - intros t. unfold turn_calls. cbn. rewrite lookup_empty. symmetry. apply elem_of_nil_inv.
    intros x (r & Hin & Hx%input_in_call)%list_elem_of_omap. by destruct (Hnc r InputCall t x).
  - intros key. cbn. split; [by intros ?%not_elem_of_empty|]. intros (r & Hin%Hnone & Hk). by destruct r.
  - intros r q e Hin%Hnone Hp. congruence.
  - intros q e. cbn. by rewrite lookup_empty.
  - intros r [Hr' _]%elem_unless. by apply Hr.
  - by apply unless_nodup.
Qed.

Lemma notification_replay H P s n :
  distinct_ids H → replay_ok H P s → replay_ok H (unless (settles n) P) (note_server_notification n s).
Proof.
  intros Hu Hok. destruct n as [t [id|id|]|t|t|t|q| |d|x|x]; cbn [note_server_notification]; try (cbn [settles]; by rewrite unless_false).
  - by apply (started_replay H P s ExecCall).
  - by apply (started_replay H P s PatchCall).
  - by apply turn_replay.
  - by apply resolved_replay.
  - by eapply closed_replay.
Qed.

(** ** Requests, new and evicted *)
Lemma request_replay H P s r :
  distinct_ids (H ++ [r]) → replay_ok H P s → replay_ok (H ++ [r]) (P ++ [r]) (note_server_request r s).
Proof.
  intros (Hnd' & Hid & Hcall) [Hc Ho He Hi Hk Hr Hnd].
  assert (∀ r', r' ∈ H → server_request_id r' ≠ server_request_id r) as Hfresh.
  { intros r' Hr' E. apply NoDup_app in Hnd' as (_ & Hdis & _). apply (Hdis r' Hr').
    rewrite (Hid r' r); [by left|apply elem_of_app; by left|apply elem_of_app; right; by left|done]. }
  assert (∀ k t id, call_of r = Some (k, t, id) → kind_calls k (note_server_request r s) = add_call t id (kind_calls k s)) as Hadd
    by (by intros k t id E; destruct r; cbn in E; simplify_eq).
  assert (∀ k, (∀ t id, call_of r ≠ Some (k, t, id)) → kind_calls k (note_server_request r s) = kind_calls k s) as Hother
    by (intros k Hno; destruct r, k; try done; cbn in Hno; by edestruct Hno).
  assert (∀ k, (∃ t id, call_of r = Some (k, t, id)) ∨ (∀ t id, call_of r ≠ Some (k, t, id))) as Hcases.
  { intros k. destruct (call_of r) as [[[k0 t] id]|]; [|by right]. destruct (decide (k0 = k)) as [->|]; [left; by eauto|right; congruence]. }
  split.
  - intros k. destruct (Hcases k) as [(t & id & E)|Hno]; [rewrite (Hadd k t id E); by apply calls_add|].
    rewrite (Hother k Hno). by apply calls_other.
  - intros t'. change (turn_calls (kind_calls InputCall (note_server_request r s)) t' = omap (input_in t') (P ++ [r])). rewrite omap_app, <- Ho.
    destruct (Hcases InputCall) as [(t & id & E)|Hno].
    + rewrite (Hadd _ t id E), turn_calls_add. cbn [omap list_omap]. case_bool_decide as Et.
      * subst t'. by rewrite (proj2 (input_in_call t r id) E).
      * destruct (input_in t' r) as [x|] eqn:Ex; [apply input_in_call in Ex; congruence|by rewrite app_nil_r].
    + rewrite (Hother _ Hno). cbn [omap list_omap]. destruct (input_in t' r) as [x|] eqn:Ex; [by apply input_in_call, Hno in Ex|].
      by rewrite app_nil_r.
  - intros key. assert (key ∈ elicitation_requests (note_server_request r s) ↔ elicitation_of r = Some key ∨ key ∈ elicitation_requests s) as ->.
    { destruct r; cbn; rewrite ?elem_of_union, ?elem_of_singleton; naive_solver. }
    rewrite He. split.
    + intros [E|(r' & ? & ?)]; [exists r|exists r']; rewrite elem_of_app, list_elem_of_singleton; auto.
    + intros (r' & [?| ->%list_elem_of_singleton]%elem_of_app & ?); eauto.
  - intros r' q e Hr' Hp.
    assert (pending_requests_by_request_id (note_server_request r s) =
      match pending_request r with Some (q, e) => <[q := e]> (pending_requests_by_request_id s) | None => pending_requests_by_request_id s end) as -> by (by destruct r).
    apply elem_of_app in Hr' as [Hr'| ->%list_elem_of_singleton]; [|rewrite Hp; by rewrite lookup_insert_eq].
    destruct (pending_request r) as [[q0 e0]|] eqn:Hp0; [|by eapply Hi]. rewrite lookup_insert_ne; [by eapply Hi|].
    rewrite (pending_request_id _ _ _ Hp0), (pending_request_id _ _ _ Hp). intros E. by apply (Hfresh r'); [apply Hr|].
  - intros q e.
    assert (pending_requests_by_request_id (note_server_request r s) =
      match pending_request r with Some (q, e) => <[q := e]> (pending_requests_by_request_id s) | None => pending_requests_by_request_id s end) as -> by (by destruct r).
    assert (pending_requests_by_request_id s !! q = Some e → ∃ r', r' ∈ H ++ [r] ∧ pending_request r' = Some (q, e)) as Hold.
    { intros (r' & ? & ?)%Hk. exists r'. rewrite elem_of_app. auto. }
    destruct (pending_request r) as [[q0 e0]|] eqn:Hp0; [|done]. destruct (decide (q = q0)) as [->|Hne]; [|by rewrite lookup_insert_ne].
    rewrite lookup_insert_eq. intros [= <-]. exists r. rewrite elem_of_app, list_elem_of_singleton. auto.
  - intros r'. rewrite !elem_of_app. intros [?|?]; [left; by apply Hr|by right].
  - apply NoDup_app. split_and!; [done| |apply NoDup_singleton]. intros r' Hr' ->%list_elem_of_singleton. by apply (Hfresh r); [apply Hr|].
Qed.

Lemma evicted_replay H P s r :
  distinct_ids H → replay_ok H P s → r ∈ H → replay_ok H (unless (λ r', bool_decide (r' = r)) P) (note_evicted_server_request r s).
Proof.
  intros Hu Hok Hr. destruct (pending_request r) as [[q e]|] eqn:Hp.
  - pose proof (drop_request_replay H P s r (drop_pending (request_matches_server_request r) (pending_requests_by_request_id s)) Hu Hok Hr) as Hd.
    assert (replay_ok H (unless (λ r', bool_decide (r' = r)) P) (with_pending (λ _, drop_pending (request_matches_server_request r) (pending_requests_by_request_id s))
       match pending_request r with
       | Some (_, PendingExecApproval t id) => with_exec (remove_call_in_turn t id) s
       | Some (_, PendingPatchApproval t id) => with_patch (remove_call_in_turn t id) s
       | Some (_, PendingElicitation key) => with_elicitations (λ keys, keys ∖ {[ key ]}) s
       | Some (_, PendingRequestPermissions t id) => with_permissions (remove_call_in_turn t id) s
       | Some (_, PendingRequestUserInput t id) => with_inputs (remove_call_in_turn t id) s
       | None => s
       end)) as Hgoal; [|by destruct r].
    apply Hd.
    + by eexists.
    + intros q' e'. apply drop_pending_sub.
    + intros r' q' e' Hr' Hne Hp' Hl. apply drop_pending_keep; [done|]. apply not_true_iff_false. intros Hm. apply Hne.
      destruct Hu as (_ & Hid & Hcall). pose proof (replay_requested _ _ _ Hok r' Hr') as Hrh.
      destruct (pending_request_kinds r') as [E|[(key & q2 & E)|(k & t & id & q2 & E)]]; rewrite E in Hp'; simplify_eq.
      * apply pending_request_elicitation in E as [E ->]. destruct r; try done. apply bool_decide_eq_true in Hm as ->.
        apply Hid; [done|done|]. destruct r'; cbn in E; by simplify_eq.
      * apply pending_request_call in E as [Hc _]. assert (call_of r = Some (k, t, id)) as Hc2; [|by eapply Hcall].
        unfold str_eqb in *. destruct k, r; try done; cbn in Hm; apply andb_true_iff in Hm as [->%bool_decide_eq_true ->%bool_decide_eq_true]; done.
  - destruct r; try done. destruct Hok as [Hc Ho He Hi Hk Hrq Hnd].
    assert (∀ r', r' ∈ P → is_Some (pending_request r') → bool_decide (r' = OtherServerRequest id payload) = false) as Hkeep
      by (intros r' _ [x Hx]; apply bool_decide_eq_false; by intros ->).
    assert (∀ r' k t x, r' ∈ P → call_of r' = Some (k, t, x) → bool_decide (r' = OtherServerRequest id payload) = false) as Hkc
      by (intros r' k t x Hr' Hcc; apply bool_decide_eq_false; by intros ->).
    split.
    + intros k. assert (kind_calls k (note_evicted_server_request (OtherServerRequest id payload) s) = kind_calls k s) as -> by (by destruct k).
      apply calls_keep; [apply Hc|]. intros r' t x. apply Hkc.
    + intros t. cbn. rewrite Ho. symmetry. apply order_keep. intros r' x Hr' Hx%input_in_call. by eapply Hkc.
    + apply elicitations_keep; [done|]. intros r' key Hr' Hkey. apply bool_decide_eq_false. by intros ->.
    + intros r' q e [Hr' _]%elem_unless Hp'. apply drop_pending_keep; [by eapply Hi|]. by destruct e.
    + intros q e ?%drop_pending_sub. by apply Hk.
    + intros r' [Hr' _]%elem_unless. by apply Hrq.
    + by apply unless_nodup.
Qed.

(** ** The store *)
Inductive StoreOp :=
| PushNotification (n : ServerNotification)
| PushRequest (r : ServerRequest)
| OutboundOp (op : AppCommand)
| PushHistoryEntry (payload : rstring)
| PushFeedback (payload : rstring).

Definition apply_op (op : StoreOp) (st : ThreadEventStore) : ThreadEventStore :=
  match op with
  | PushNotification n => push_notification n st
  | PushRequest r => push_request r st
  | OutboundOp op => outbound_op op st
  | PushHistoryEntry x => push_buffered_event (BufferedHistoryEntry x) st
  | PushFeedback x => push_buffered_event (BufferedFeedback x) st
  end.
Definition requested (op : StoreOp) : list ServerRequest := match op with PushRequest r => [r] | _ => [] end.

Definition buffered_requests (b : list ThreadBufferedEvent) : list ServerRequest := omap buffered_request b.
Definition buffered_bytes (b : list ThreadBufferedEvent) : N := foldr (λ e n, delta_bytes e + n)%N 0%N b.

(** The prompts that are pending after an operation: a request adds one, commands and
    notifications settle some, and what is no longer in the buffer is forgotten. *)
Definition pending_after (op : StoreOp) (pending : list ServerRequest) : list ServerRequest :=
  match op with
  | PushNotification n => unless (settles n) pending
  | PushRequest r => pending ++ [r]
  | OutboundOp op => unless (answered op pending) pending
  | PushHistoryEntry _ | PushFeedback _ => pending
  end.
Definition still_buffered (st : ThreadEventStore) : list ServerRequest → list ServerRequest :=
  List.filter (λ r, bool_decide (r ∈ buffered_requests (buffer st))).

(** A run of the store, with the pending prompts and all requests so far, whose ids are not
    used twice. *)
Inductive tracks (capacity : nat) : ThreadEventStore → list ServerRequest → list ServerRequest → Prop :=
| tracks_new : tracks capacity (ThreadEventStore_new capacity) [] []
| tracks_op st P H op :
    tracks capacity st P H → distinct_ids (H ++ requested op) →
    tracks capacity (apply_op op st) (still_buffered (apply_op op st) (pending_after op P)) (H ++ requested op).

(** The invariant before eviction. *)
Record buffer_ok (H P : list ServerRequest) (b : list ThreadBufferedEvent) (bytes : N) (s : PendingInteractiveReplayState) : Prop := {
  buffer_replay : replay_ok H P s;
  buffer_order : P = List.filter (λ r, bool_decide (r ∈ P)) (buffered_requests b);
  buffer_others r : r ∈ buffered_requests b → pending_request r = None → r ∈ P;
  buffer_known r : r ∈ buffered_requests b → r ∈ H;
  buffer_nodup : NoDup (buffered_requests b);
  buffer_bytes : bytes = buffered_bytes b;
}.
Definition within_bounds (capacity : nat) (b : list ThreadBufferedEvent) : Prop :=
  length b ≤ capacity ∧ (buffered_bytes b ≤ MAX_BUFFERED_AGENT_MESSAGE_DELTA_BYTES)%N.

Lemma filter_filter_ext {A} (P Q R : A → bool) l :
  (∀ x, x ∈ l → R x = P x && Q x) → List.filter R l = List.filter Q (List.filter P l).
Proof.
  induction l as [|x l IH]; intros HR; [done|]. cbn. rewrite (HR x) by (by left).
  assert (List.filter R l = List.filter Q (List.filter P l)) as IH' by (apply IH; intros y Hy; apply HR; by right).
  destruct (P x); cbn; [destruct (Q x); by rewrite IH'|done].
Qed.

Lemma filter_ext_elem {A} (P Q : A → bool) l : (∀ x, x ∈ l → P x = Q x) → List.filter P l = List.filter Q l.
Proof.
  induction l as [|x l IH]; intros HR; [done|]. cbn. rewrite (HR x) by (by left). rewrite IH by (intros y Hy; apply HR; by right). done.
Qed.

Lemma elem_filter_In {A} (P : A → bool) l x : x ∈ List.filter P l ↔ x ∈ l ∧ P x = true.
Proof. by rewrite list_elem_of_In, List.filter_In, <- list_elem_of_In. Qed.

Lemma filter_unless D P : unless D P = List.filter (λ r, negb (D r)) P.
Proof. done. Qed.

(** Pending prompts that are settled leave the order as it is. *)
Lemma order_unless (P Q : list ServerRequest) D :
  P = List.filter (λ r, bool_decide (r ∈ P)) Q → unless D P = List.filter (λ r, bool_decide (r ∈ unless D P)) Q.
Proof.
  intros HP. rewrite HP at 1. unfold unless. rewrite <- (filter_filter_ext _ _ (λ r, bool_decide (r ∈ P) && negb (D r))) by done.
  apply filter_ext_elem. intros r Hr. apply Bool.eq_true_iff_eq. rewrite andb_true_iff, !bool_decide_eq_true, elem_filter_In. done.
Qed.

Lemma buffer_settle H P b bytes s D s' :
  buffer_ok H P b bytes s → (∀ r, pending_request r = None → D r = false) → replay_ok H (unless D P) s' →
  buffer_ok H (unless D P) b bytes s'.
Proof.
  intros [Hr Ho Hot Hk Hn Hb] HD Hok. split; try done; [by apply order_unless|].
  intros r Hin Hp. apply elem_unless. auto.
Qed.

Lemma evict_sub capacity b bytes s r :
  r ∈ buffered_requests (evict_events capacity b bytes s).1.1 → r ∈ buffered_requests b.
Proof.
  revert bytes s. induction b as [|e b IH]; intros bytes s; [done|]. cbn [evict_events].
  assert (∀ r, r ∈ buffered_requests b → r ∈ buffered_requests (e :: b)) as Hsub by (intros r' Hr'; cbn; destruct (buffered_request e); [by right|done]).
  destruct (_ || _); [|done]. destruct e; intros Hin; apply Hsub; by eapply IH.
Qed.

(** An event other than a request is evicted. *)
Lemma buffer_evict_event H P e b bytes s :
  buffered_request e = None → buffer_ok H P (e :: b) bytes s → buffer_ok H P b (bytes - delta_bytes e) s.
Proof.
  intros He [Hr Ho Hot Hk Hn Hb]. unfold buffered_requests in *. cbn in Ho, Hn, Hb. rewrite He in Ho, Hn.
  split; try done.
  - intros r Hin. apply Hot. cbn. by rewrite He.
  - intros r Hin. apply Hk. cbn. by rewrite He.
  - fold (buffered_bytes b) in Hb. rewrite Hb. lia.
Qed.

Lemma buffer_evict_request H P r b bytes s :
  distinct_ids H → buffer_ok H P (BufferedRequest r :: b) bytes s →
  buffer_ok H (unless (λ r', bool_decide (r' = r)) P) b bytes (note_evicted_server_request r s) ∧ r ∉ buffered_requests b.
Proof.
  intros Hu [Hr Ho Hot Hk Hn Hb]. change (buffered_requests (BufferedRequest r :: b)) with (r :: buffered_requests b) in *.
  apply NoDup_cons in Hn as [Hrb Hn]. split; [|done].
  split; [apply evicted_replay; [done|done|apply Hk; by left]| | | |done|exact Hb].
  - set (P' := unless (λ r', bool_decide (r' = r)) P).
    assert (P' = List.filter (λ r', bool_decide (r' ∈ P')) (r :: buffered_requests b)) as E by (by apply order_unless).
    cbn in E. rewrite bool_decide_eq_false_2 in E; [exact E|]. intros [_ ?%bool_decide_eq_false]%elem_unless. done.
  - intros r' Hr' Hp. apply elem_unless. split; [apply Hot; [by right|done]|]. apply bool_decide_eq_false. by intros ->.
  - intros r' Hr'. apply Hk. by right.
Qed.

Lemma evict_events_ok capacity H P b bytes s :
  distinct_ids H → buffer_ok H P b bytes s →
  let '(b', bytes', s') := evict_events capacity b bytes s in
  buffer_ok H (List.filter (λ r, bool_decide (r ∈ buffered_requests b')) P) b' bytes' s' ∧ within_bounds capacity b'.
Proof.
  intros Hu. revert P bytes s. induction b as [|e b IH]; intros P bytes s Hok.
  - cbn. pose proof (buffer_order _ _ _ _ _ Hok) as Ho. cbn in Ho. subst P. cbn. split; [exact Hok|]. split; [cbn; lia|by vm_compute].
  - cbn [evict_events]. destruct (_ || _) eqn:Hcond.
    + destruct (buffered_request e) as [r|] eqn:He.
      * destruct e as [|r'| |]; try done. injection He as ->. destruct (buffer_evict_request H P r b bytes s Hu Hok) as [Hok' Hrb].
        specialize (IH _ _ _ Hok'). pose proof (evict_sub capacity b bytes (note_evicted_server_request r s)) as Hsub.
        destruct (evict_events capacity b bytes _) as [[b' bytes'] s']. destruct IH as [IH1 IH2]. cbn [fst] in Hsub.
        split; [|done]. unfold unless in IH1. rewrite <- (filter_filter_ext _ _ (λ r', bool_decide (r' ∈ buffered_requests b'))) in IH1; [done|].
        intros x Hx. destruct (bool_decide_reflect (x = r)) as [->|]; cbn; [|done].
        apply bool_decide_eq_false. intros Hin. by apply Hrb, Hsub.
      * pose proof (IH _ _ _ (buffer_evict_event H P e b bytes s He Hok)) as H'. by destruct e.
    + apply orb_false_iff in Hcond as [Hlen%Nat.ltb_ge Hby%N.ltb_ge]. destruct Hok as [Hr Ho Hot Hk Hn Hb]. rewrite Hb in Hby. split; [|done].
      assert (List.filter (λ r, bool_decide (r ∈ buffered_requests (e :: b))) P = P) as ->; [|by split].
      rewrite Ho at 1. rewrite <- (filter_filter_ext _ _ (λ r, bool_decide (r ∈ P))); [by rewrite <- Ho|].
      intros r Hin. rewrite (bool_decide_eq_true_2 (r ∈ buffered_requests (e :: b))) by done. by rewrite andb_true_r.
Qed.

(** ** Every operation *)
Record store_ok (capacity0 : nat) (H P : list ServerRequest) (st : ThreadEventStore) : Prop := {
  store_buffer : buffer_ok H P (buffer st) (buffered_agent_message_delta_bytes st) (pending_interactive_replay st);
  store_bounds : within_bounds (capacity st) (buffer st);
  store_capacity : capacity st = capacity0;
}.

Lemma evict_ok capacity0 H P st :
  distinct_ids H → capacity st = capacity0 →
  buffer_ok H P (buffer st) (buffered_agent_message_delta_bytes st) (pending_interactive_replay st) →
  store_ok capacity0 H (still_buffered (evict_overflowing_events st) P) (evict_overflowing_events st).
Proof.
  intros Hu Hc Hok. unfold evict_overflowing_events. pose proof (evict_events_ok (capacity st) H P _ _ _ Hu Hok) as Hev.
  destruct (evict_events _ _ _ _) as [[b bytes] s]. by destruct Hev.
Qed.

Lemma buffered_requests_app b b' : buffered_requests (b ++ b') = buffered_requests b ++ buffered_requests b'.
Proof. apply omap_app. Qed.
Lemma buffered_bytes_app b b' : buffered_bytes (b ++ b') = (buffered_bytes b + buffered_bytes b')%N.
Proof. induction b as [|e b IH]; [done|]. cbn [buffered_bytes app foldr]. fold (buffered_bytes (b ++ b')) (buffered_bytes b). rewrite IH. lia. Qed.

Lemma small_add a b : (a ≤ MAX_BUFFERED_AGENT_MESSAGE_DELTA_BYTES)%N → (b ≤ MAX_BUFFERED_AGENT_MESSAGE_DELTA_BYTES)%N → sat_add USIZE_MAX a b = (a + b)%N.
Proof.
  intros Ha Hb. unfold sat_add. apply N.min_l. transitivity (2 * MAX_BUFFERED_AGENT_MESSAGE_DELTA_BYTES)%N; [lia|by vm_compute].
Qed.

Lemma push_event_ok capacity0 H P st e :
  distinct_ids H → capacity st = capacity0 → within_bounds (capacity st) (buffer st) →
  buffered_request e = None → (delta_bytes e ≤ MAX_BUFFERED_AGENT_MESSAGE_DELTA_BYTES)%N →
  buffer_ok H P (buffer st) (buffered_agent_message_delta_bytes st) (pending_interactive_replay st) →
  store_ok capacity0 H (still_buffered (push_buffered_event e st) P) (push_buffered_event e st).
Proof.
  intros Hu Hc [_ Hb] He Hd [Hr Ho Hot Hk Hn Hby]. apply evict_ok; [done|done|]. cbn.
  assert (buffered_requests (buffer st ++ [e]) = buffered_requests (buffer st)) as Hreq.
  { rewrite buffered_requests_app. unfold buffered_requests at 2. cbn. rewrite He. by rewrite app_nil_r. }
  split; rewrite ?Hreq; try done. rewrite Hby, small_add by done. rewrite buffered_bytes_app. cbn. lia.
Qed.

Lemma still_buffered_id H P st :
  buffer_ok H P (buffer st) (buffered_agent_message_delta_bytes st) (pending_interactive_replay st) → still_buffered st P = P.
Proof.
  intros [_ Ho _ _ _ _]. unfold still_buffered. rewrite Ho at 1. rewrite <- (filter_filter_ext _ _ (λ r, bool_decide (r ∈ P))); [by rewrite <- Ho|].
  intros r Hin. rewrite (bool_decide_eq_true_2 (r ∈ buffered_requests (buffer st))) by done. by rewrite andb_true_r.
Qed.

Lemma push_request_ok capacity0 H P st r :
  distinct_ids H → distinct_ids (H ++ [r]) → store_ok capacity0 H P st →
  store_ok capacity0 (H ++ [r]) (still_buffered (push_request r st) (P ++ [r])) (push_request r st).
Proof.
  intros Hu Hu' [[Hr Ho Hot Hk Hn Hb] [_ Hmax] Hc]. pose proof Hu' as ((_ & Hdis & _)%NoDup_app & _).
  assert (∀ x, x ∈ H → x ≠ r) as Hne by (intros x Hx ->; by apply (Hdis r Hx); left).
  apply evict_ok; [done|done|]. cbn.
  assert (buffered_requests (buffer st ++ [BufferedRequest r]) = buffered_requests (buffer st) ++ [r]) as Hreq by apply buffered_requests_app.
  split; rewrite ?Hreq; [by apply request_replay| | | | |].
  - rewrite List.filter_app. cbn. rewrite (bool_decide_eq_true_2 (r ∈ P ++ [r])) by (apply elem_of_app; right; by left). f_equal.
    rewrite Ho at 1. apply filter_ext_elem. intros x Hx. apply bool_decide_ext. rewrite elem_of_app, list_elem_of_singleton.
    split; [by left|]. intros [?| ->]; [done|]. by destruct (Hne r (Hk r Hx)).
  - intros x [Hx| ->%list_elem_of_singleton]%elem_of_app Hp; apply elem_of_app; [left; by apply Hot|right; by left].
  - intros x [Hx| ->%list_elem_of_singleton]%elem_of_app; apply elem_of_app; [left; by apply Hk|right; by left].
  - apply NoDup_app. split_and!; [done| |apply NoDup_singleton]. intros x Hx ->%list_elem_of_singleton. by apply (Hne r (Hk r Hx)).
  - rewrite Hb, small_add by (done || by vm_compute). by rewrite buffered_bytes_app.
Qed.

Lemma answered_interactive op P r : pending_request r = None → answered op P r = false.
Proof.
  intros Hp. assert (∀ k id, is_prompt k id r = false) as Hc by (intros k id; apply is_prompt_other; intros t x Hcall; by destruct r).
  destruct op as [| |server q| |t|]; cbn [answered]; try apply Hc; [apply bool_decide_eq_false; by destruct r| |done].
  destruct (List.find _ P) as [r0|] eqn:Hf; [|done]. apply List.find_some in Hf as [_ [id Hid]%bool_decide_eq_true].
  apply bool_decide_eq_false. intros ->. apply input_in_call in Hid. by destruct r0.
Qed.
Lemma settles_interactive n r : pending_request r = None → settles n r = false.
Proof.
  intros Hp. assert (∀ k id, is_prompt k id r = false) as Hc by (intros k id; apply is_prompt_other; intros t x Hcall; by destruct r).
  destruct n as [t [id|id|]|t|t|t|q| |d|x|x]; cbn [settles]; try done; try apply Hc; [unfold in_turn; by destruct r| |].
  - rewrite Hp. by rewrite andb_false_r.
  - by rewrite Hp.
Qed.

Lemma outbound_ok capacity0 H P st op :
  distinct_ids H → store_ok capacity0 H P st →
  store_ok capacity0 H (still_buffered (outbound_op op st) (unless (answered op P) P)) (outbound_op op st).
Proof.
  intros Hu [Hb Hbd Hc].
  assert (buffer_ok H (unless (answered op P) P) (buffer (outbound_op op st)) (buffered_agent_message_delta_bytes (outbound_op op st))
    (pending_interactive_replay (outbound_op op st))) as Hok.
  { eapply buffer_settle; [exact Hb|by intros r; apply answered_interactive|]. apply op_replay; [done|by apply Hb]. }
  rewrite (still_buffered_id _ _ _ Hok). by split.
Qed.

Lemma coalesced_bytes delta b merged :
  coalesced delta b = Some merged → ∃ b0 previous,
    b = b0 ++ [BufferedNotification (MessageDelta previous)] ∧ removelast b = b0 ∧
    str_len (delta_text merged) = (str_len (delta_text previous) + str_len (delta_text delta))%N.
Proof.
  unfold coalesced. intros H. destruct (last b) as [[[]| | |]|] eqn:Hl; try done.
  apply last_Some in Hl as [b0 ->]. exists b0, delta0. rewrite List.removelast_last. split_and!; [done|done|].
  destruct (_ && _); [|done]. injection H as <-. apply str_len_app.
Qed.

Lemma push_notification_ok capacity0 H P st n :
  distinct_ids H → store_ok capacity0 H P st →
  store_ok capacity0 H (still_buffered (push_notification n st) (unless (settles n) P)) (push_notification n st).
Proof.
  intros Hu [Hb Hbd Hc].
  set (st1 := note_turns n (with_buffer (buffer st) (buffered_agent_message_delta_bytes st) (note_server_notification n (pending_interactive_replay st)) st)).
  assert (buffer_ok H (unless (settles n) P) (buffer st1) (buffered_agent_message_delta_bytes st1) (pending_interactive_replay st1) ∧
    within_bounds (capacity st1) (buffer st1) ∧ capacity st1 = capacity0) as (Hok & Hbd1 & Hc1).
  { assert (buffer_ok H (unless (settles n) P) (buffer st) (buffered_agent_message_delta_bytes st) (note_server_notification n (pending_interactive_replay st))) as Hok.
    { eapply buffer_settle; [exact Hb|by intros r; apply settles_interactive|]. apply notification_replay; [done|by apply Hb]. }
    by destruct n. }
  assert (store_ok capacity0 H (still_buffered st1 (unless (settles n) P)) st1) as Hkeep by (rewrite (still_buffered_id _ _ _ Hok); by split).
  assert ((delta_bytes (BufferedNotification n) ≤ MAX_BUFFERED_AGENT_MESSAGE_DELTA_BYTES)%N →
    store_ok capacity0 H (still_buffered (push_buffered_event (BufferedNotification n) st1) (unless (settles n) P)) (push_buffered_event (BufferedNotification n) st1)) as Hpush.
  { intros Hd. by apply push_event_ok. }
  unfold push_notification. fold st1. destruct n as [t item|t|t|t|q| |delta|x|x]; try done; try (apply Hpush; by vm_compute).
  cbn [push_replay_notification]. destruct (N.ltb_spec MAX_BUFFERED_AGENT_MESSAGE_DELTA_BYTES (str_len (delta_text delta))) as [|Hd]; [done|].
  destruct (coalesced delta (buffer st1)) as [merged|] eqn:Hco; [|by apply Hpush].
  apply coalesced_bytes in Hco as (b0 & previous & Hbuf & Hrl & Hlen). apply evict_ok; [done|done|]. cbn [buffer with_buffer buffered_agent_message_delta_bytes pending_interactive_replay].
  destruct Hok as [Hr Ho Hot Hk Hn Hby]. destruct Hbd1 as [_ Hmax]. rewrite Hrl. rewrite Hbuf in Ho, Hot, Hk, Hn, Hby, Hmax.
  assert (buffered_requests (b0 ++ [BufferedNotification (MessageDelta merged)]) = buffered_requests (b0 ++ [BufferedNotification (MessageDelta previous)])) as Hreq
    by (by rewrite !buffered_requests_app).
  split; rewrite ?Hreq; try done. rewrite Hby, small_add by done. rewrite !buffered_bytes_app. cbn. rewrite Hlen. lia.
Qed.

Lemma op_ok capacity0 H P st op :
  distinct_ids H → distinct_ids (H ++ requested op) → store_ok capacity0 H P st →
  store_ok capacity0 (H ++ requested op) (still_buffered (apply_op op st) (pending_after op P)) (apply_op op st).
Proof.
  intros Hu Hu' Hok. pose proof Hok as [Hb Hbd Hc].
  destruct op as [n|r|op|x|x]; cbn [requested apply_op pending_after]; rewrite ?app_nil_r.
  - by apply push_notification_ok.
  - by apply push_request_ok.
  - by apply outbound_ok.
  - apply push_event_ok; try done; by vm_compute.
  - apply push_event_ok; try done; by vm_compute.
Qed.

Lemma new_store_ok capacity : store_ok capacity [] [] (ThreadEventStore_new capacity).
Proof.
  split; [|split; [cbn; lia|by vm_compute]|done]. split; cbn; try done; [|by intros r ?%not_elem_of_nil..|constructor].
  split.
  - intros k. assert (kind_calls k default_replay = no_calls) as -> by (by destruct k). split.
    + intros id. cbn. split; [by intros ?%not_elem_of_empty|]. by intros (r & t & ?%not_elem_of_nil & _).
    + intros t id. unfold turn_calls. cbn. rewrite lookup_empty. by intros ?%not_elem_of_nil.
    + by intros r t id ?%not_elem_of_nil.
  - intros t. unfold turn_calls. cbn. by rewrite lookup_empty.
  - intros key. cbn. split; [by intros ?%not_elem_of_empty|]. by intros (r & ?%not_elem_of_nil & _).
  - by intros r q e ?%not_elem_of_nil.
  - intros q e. cbn. by rewrite lookup_empty.
  - by intros r ?%not_elem_of_nil.
  - constructor.
Qed.

Lemma tracks_ok capacity st P H : tracks capacity st P H → distinct_ids H ∧ store_ok capacity H P st.
Proof.
  induction 1 as [|st P H op _ [Hu IH] Hu']; [|split; [done|by apply op_ok]]. split; [|apply new_store_ok].
  split_and!; [constructor|by intros r r' ?%not_elem_of_nil|by intros r r' k t t' id ?%not_elem_of_nil].
Qed.

(** A request is replayed exactly when it is pending. *)
Lemma should_replay_pending H P s r :
  distinct_ids H → replay_ok H P s → r ∈ H → (pending_request r = None → r ∈ P) → should_replay_snapshot_request s r = bool_decide (r ∈ P).
Proof.
  intros (_ & Hid & Hcall) Hok Hr Hother.
  assert (∀ k t id, call_of r = Some (k, t, id) → bool_decide (id ∈ call_ids (kind_calls k s)) = bool_decide (r ∈ P)) as Hc.
  { intros k t id Hrc. apply bool_decide_ext. rewrite (calls_ids _ _ _ _ (replay_calls _ _ _ Hok k)). split; [|by eauto].
    intros (r' & t' & Hr' & Hc'). replace r with r'; [done|]. eapply Hcall; eauto. by eapply replay_requested. }
  destruct r; cbn [should_replay_snapshot_request]; try (by eapply (Hc _ _ _ eq_refl)).
  - apply bool_decide_ext. rewrite (replay_elicitations _ _ _ Hok). split; [|by eauto]. intros (r' & Hr' & He).
    replace (McpServerElicitationRequest id server_name) with r'; [done|]. apply Hid; [by eapply replay_requested|done|]. destruct r'; cbn in He; by simplify_eq.
  - by rewrite bool_decide_eq_true_2 by (by apply Hother).
Qed.

Definition is_approval (r : ServerRequest) : bool :=
  match r with ToolRequestUserInput _ _ _ | OtherServerRequest _ _ => false | _ => true end.
Definition is_user_input (r : ServerRequest) : bool := match r with ToolRequestUserInput _ _ _ => true | _ => false end.

Lemma nonempty_elem {A} `{Countable A} (X : gset A) : negb (bool_decide (X = ∅)) = true ↔ ∃ x, x ∈ X.
Proof.
  rewrite negb_true_iff, bool_decide_eq_false. split; [apply set_choose_L|]. intros [x Hx] ->. by apply not_elem_of_empty in Hx.
Qed.

Lemma pending_approvals H P s : replay_ok H P s → has_pending_thread_approvals s = true ↔ ∃ r, r ∈ P ∧ is_approval r = true.
Proof.
  intros Hok. unfold has_pending_thread_approvals. rewrite !orb_true_iff, !nonempty_elem.
  setoid_rewrite (replay_elicitations _ _ _ Hok). setoid_rewrite (calls_ids _ _ _ _ (replay_calls _ _ _ Hok ExecCall)).
  setoid_rewrite (calls_ids _ _ _ _ (replay_calls _ _ _ Hok PatchCall)). setoid_rewrite (calls_ids _ _ _ _ (replay_calls _ _ _ Hok PermissionsCall)).
  split.
  - intros [[[(id & r & t & Hr & Hc)|(id & r & t & Hr & Hc)]|(key & r & Hr & Hc)]|(id & r & t & Hr & Hc)]; exists r; (split; [done|]); by destruct r.
  - intros (r & Hr & Ha). destruct r as [q t i a|q t i|q n|q t i|q t i|]; try done.
    + left; left; left. exists (default i a), (CommandExecutionRequestApproval q t i a), t. done.
    + left; left; right. by exists i, (FileChangeRequestApproval q t i), t.
    + left; right. by exists (n, q), (McpServerElicitationRequest q n).
    + right. by exists i, (PermissionsRequestApproval q t i), t.
Qed.

(** C21: In every run of a thread's event store in which ids are not used twice, the requests
    that a switch to the thread replays are exactly the prompts that are pending, in the
    order in which they were made: those that no answer, start of the item, end of the
    turn, resolution or close of the thread has settled, and that are still in the buffer.
    Approvals count as pending exactly when one of them is, and the buffer stays within
    its capacity and the limit on buffered text. *)
Theorem pending_prompts_replayed capacity st P H :
  tracks capacity st P H →
  pending_replay_requests st = P ∧
  (has_pending_thread_approvals (pending_interactive_replay st) = true ↔ ∃ r, r ∈ P ∧ is_approval r = true) ∧
  length (buffer st) ≤ capacity ∧ (buffered_bytes (buffer st) ≤ MAX_BUFFERED_AGENT_MESSAGE_DELTA_BYTES)%N.
Proof.
  intros (Hu & [[Hr Ho Hot Hk Hn Hb] [Hlen Hmax] Hc])%tracks_ok. split_and!; [|by eapply pending_approvals|by rewrite <- Hc|done].
  unfold pending_replay_requests. rewrite Ho at 1. apply filter_ext_elem. intros r Hin.
  eapply should_replay_pending; [done|done|by apply Hk|by apply Hot].
Qed.

(** ** Examples *)
Definition distinct_check (H : list ServerRequest) : bool :=
  bool_decide (NoDup H) &&
  forallb (λ r, forallb (λ r', bool_decide (r = r') ||
    negb (bool_decide (server_request_id r = server_request_id r')) &&
    match call_of r, call_of r' with Some (k, _, id), Some (k', _, id') => negb (bool_decide (k = k') && str_eqb id id') | _, _ => true end) H) H.
Lemma distinct_check_ids H : distinct_check H = true → distinct_ids H.
Proof.
  unfold distinct_check. rewrite andb_true_iff, bool_decide_eq_true, forallb_forall. intros [Hnd Hall].
  assert (∀ r r', r ∈ H → r' ∈ H → r ≠ r' → server_request_id r ≠ server_request_id r' ∧
    ∀ k t t' id, call_of r = Some (k, t, id) → call_of r' ≠ Some (k, t', id)) as Hpair.
  { intros r r' Hr Hr' Hne. apply list_elem_of_In in Hr, Hr'. specialize (Hall r Hr). rewrite forallb_forall in Hall. specialize (Hall r' Hr').
    rewrite bool_decide_eq_false_2 in Hall by done. apply andb_true_iff in Hall as [Hq Hc]. apply negb_true_iff, bool_decide_eq_false in Hq.
    split; [done|]. intros k t t' id E E'. rewrite E, E' in Hc. unfold str_eqb in Hc. rewrite !bool_decide_eq_true_2 in Hc by done. done. }
  split_and!; [done| |].
  - intros r r' Hr Hr' E. destruct (decide (r = r')) as [|Hne]; [done|]. by destruct (Hpair r r' Hr Hr' Hne).
  - intros r r' k t t' id Hr Hr' E E'. destruct (decide (r = r')) as [|Hne]; [done|]. destruct (Hpair r r' Hr Hr' Hne) as [_ Hp].
    by destruct (Hp k t t' id).
Qed.

(** Three prompts, of which the second is answered and the first is evicted. *)
Definition example_ops : list StoreOp :=
  [PushRequest (CommandExecutionRequestApproval (RequestId_Integer 1) (str "turn") (str "call-1") None);
   PushRequest (ToolRequestUserInput (RequestId_Integer 2) (str "turn") (str "call-2"));
   PushNotification (MessageDelta (mkDelta (str "t") (str "turn") (str "m") (str "Hello")));
   OutboundOp (UserInputAnswer (str "turn"));
   PushRequest (FileChangeRequestApproval (RequestId_Integer 3) (str "turn") (str "call-3"))].

Fixpoint run_store (ops : list StoreOp) (st : ThreadEventStore) (P H : list ServerRequest)
    : option (ThreadEventStore * list ServerRequest * list ServerRequest) :=
  match ops with
  | [] => Some (st, P, H)
  | op :: ops =>
      if distinct_check (H ++ requested op)
      then run_store ops (apply_op op st) (still_buffered (apply_op op st) (pending_after op P)) (H ++ requested op) else None
  end.
Lemma run_store_tracks capacity ops st P H st' P' H' :
  tracks capacity st P H → run_store ops st P H = Some (st', P', H') → tracks capacity st' P' H'.
Proof.
  revert st P H. induction ops as [|op ops IH]; intros st P H Ht; cbn; [by intros [= <- <- <-]|].
  destruct (distinct_check (H ++ requested op)) eqn:Hd; [|done]. apply IH. constructor; [done|by apply distinct_check_ids].
Qed.

Lemma pending_prompts_replayed_witness :
  ∃ st, run_store example_ops (ThreadEventStore_new 3) [] [] =
          Some (st, [FileChangeRequestApproval (RequestId_Integer 3) (str "turn") (str "call-3")], omap (λ op, head (requested op)) example_ops) ∧
    pending_replay_requests st = [FileChangeRequestApproval (RequestId_Integer 3) (str "turn") (str "call-3")].
Proof.
  destruct (run_store example_ops (ThreadEventStore_new 3) [] []) as [[[st P] H]|] eqn:E; [|vm_compute in E; discriminate].
  assert (P = [FileChangeRequestApproval (RequestId_Integer 3) (str "turn") (str "call-3")] ∧ H = omap (λ op, head (requested op)) example_ops) as [HP HH].
  { vm_compute in E. injection E as _ <- <-. by vm_compute. }
  exists st. rewrite <- HP, <- HH. split; [done|].
  apply (pending_prompts_replayed 3 st P H). exact (run_store_tracks 3 _ _ _ _ _ _ _ (tracks_new 3) E).
Defined.
